(* ===== verification/_CoqProject ===== *)
-Q . S2P
Prelude.v
Swar.v
Utf8.v
Naming.v
Charconv.v
Cmd.v
Framing.v
FrameStream.v
Ring.v
Stream.v
Uri.v
Text.v
Position.v
LinkedList.v
Sync.v
Node.v
NodeTree.v
NodeSafe.v
NodeOutcome.v
NodeCancel.v
NodeLive.v
NodeRuns.v
Path.v
PathNorm.v
Glob.v
GlobMatch.v
GlobExec.v
GlobSyntax.v
GlobCompile.v
GlobPlan.v
GlobCreate.v
GlobArms.v
GlobBraces.v
GlobTop.v
Peer.v
PeerSends.v
PeerSteps.v
PeerInv.v
PeerTold.v
PeerServed.v
PeerLive.v
PeerSafe.v
PeerDemo.v
CliTable.v
CliParse.v
CliLookup.v
CliError.v
CliNode.v
CliSuggest.v
CliNumber.v
CliDeclare.v
CliCommand.v
CliRead.v
CliReadMarks.v
CliReadEnd.v
CliCollect.v
CliReadOk.v
CliBuilt.v
CliDemo.v
