(* ===== verification/Prelude.v ===== *)
(** kotatsu, verified: the root of the development.

    kotatsu is a C++23 library: a coroutine runtime with structured
    cancellation over libuv, and around it codecs driven by compile-time
    reflection, an HTTP client, JSON-RPC peers with the language server
    protocol's model, paths and files, a command-line parser, system calls and
    a test framework.  The development models the parts of it that compute:
    what reads and writes text and bytes, the state machines that wait, and the
    searches and parsers the rest is built on.

    * The parts, and the files that model them

    - This file: bytes and byte strings, [std::expected] with [try], views,
      the development's tactics, and the lemmas on lists and options the other
      files share.
    - Swar (include/kotatsu/support/swar.h): tests on eight bytes at a time.
    - Utf8 (support/utf8.h, utf16.h): the decoder every part reads text with,
      validation, repair, and UTF-16.
    - Naming (support/naming.h): rename policies and the tables they spell.
    - Charconv: decimal numbers as [std::format] and [std::from_chars] do them.
    - Cmd (sys/cmd.h, src/sys/cmd.cpp): command lines of either style, split,
      joined, and with their response files read.
    - Framing, FrameStream (ipc/framing.h, src/ipc/framing.cpp,
      src/ipc/blocking_client.cpp): the base protocol's frames, parsed from any
      pieces, and the blocking reader.
    - Ring, Stream (src/async/io: ring_buffer.h and .cpp, stream.cpp): the ring of unread
      bytes and the readers over it; Stream is a client of the queue Ring
      refines to.
    - Uri, Text, Position (ipc/lsp/uri.h, text.h, position.h and their .cpp):
      URIs, text in the protocol's position encodings, positions and offsets.
    - Peer (ipc/peer.h, peer.inl, with the messages of codec.h and protocol.h):
      one end of a JSON-RPC connection as steps on one loop: requests sent,
      with timeouts and cancels, messages dispatched, handlers and their
      answers, the three loops of run(), half-close, close and failure.  The
      codec is the interface the class template asks of it; the peer calls the
      program in the middle of its own code, so the model keeps what is left to
      do on a stack, as Node does.  PeerSends, PeerSteps, PeerInv, PeerTold,
      PeerServed and PeerLive are its invariants, PeerSafe what follows, and
      PeerDemo a conversation.
    - LinkedList, Sync (async/runtime/sync.h, sync.cpp, and what they call of
      node.cpp and loop.cpp): mutex, semaphore, event and condition variable as
      a step relation over a world of primitives and waits, with the intrusive
      lists they queue in.
    - Node (async/runtime/node.h, src/async/runtime/node.cpp, with what when.h,
      task_group.h, task.h, sync.cpp and loop.cpp call of it): the task tree.
      Tasks, when_all, when_any, task_groups, waits and operations start, end,
      cancel and settle; the runtime calls itself through the coroutines it
      resumes, so the model keeps the stack of its calls and runs it a step at
      a time, and the program chooses what its coroutines and destructors do.
      NodeTree is the invariant; NodeSafe, NodeOutcome, NodeCancel and NodeLive
      show what follows; NodeRuns runs a small program.
    - Path, PathNorm (fs/path.h, src/fs/path.cpp): paths as text in both
      styles, components, and normalizing, joining and relating them.
    - Glob, GlobMatch, GlobExec, GlobSyntax, GlobCompile, GlobPlan, GlobCreate,
      GlobArms, GlobBraces, GlobTop (support/glob_pattern.h, glob_pattern.cpp):
      glob patterns from text to answer.  Glob reads bracket expressions and
      literal heads; GlobMatch matches one name and GlobExec a path;
      GlobSyntax is the reference reader of patterns; GlobCompile compiles an
      arm and shows it means what GlobSyntax reads; GlobPlan is [match] with
      its plans; GlobCreate is [create]; GlobArms, GlobBraces and GlobTop put
      them together.
    - CliTable, CliParse, CliLookup (the files of cli/table and src/cli/table): the option
      table and the parse of an argv; CliError (src/cli/error.cc): how an error
      marks the argv.
    - CliDeclare (cli/detail/declaration.h, cli/spec.h), CliCommand
      (src/cli/command.h, command.cc): what a struct of options declares, the
      check of it, and the command built from it.  CliNumber, CliSuggest,
      CliNode and CliRead (src/cli/parse.cc and what it calls of command.cc):
      the bounds on numbers, the suggestion of an error, the tree of what an
      argv gives, and the reader, with aliases, exclusive fields, groups and
      subcommands.  CliReadMarks and CliReadEnd are lemmas on the reader,
      CliCollect and CliReadOk on the tree it makes, CliBuilt on what is built;
      CliDemo has a command to run.

    * How the model reads the code

    A function of the source is a Definition or Fixpoint of the same name;
    where the name is taken in Rocq it gets an underscore or the file's.
    [char] is [Byte.byte] and a string a list of them; machine integers are
    [Z] where their width matters (words of Swar, sizes a header names,
    [arm_count] and its overflow test) and [nat] where they index memory the
    program holds, which the source keeps in 32 or 64 bits and asserts to fit.
    A class's state is a Record and a method a function to the new state; what
    fails returns [expected]; a pointer is an index, a view an offset and a
    size, or the bytes where nothing depends on where they lie.  Code that is
    not in the repository is a parameter: libuv is the list of the events it
    will report and what its calls return (Stream), the program around the
    sync primitives the choice of the next step (Sync), as are the bodies of
    coroutines, the loop's callbacks and destructors (Node); a peer's transport
    is the events it reports (Peer), what reads a response file a function of
    its name (Cmd).  Windows-only behaviour
    is an argument where the code asks for it at run time.

    A loop that is not structural gets fuel, and the theorems about it show the
    fuel to be enough: the length of what it reads (decoders, readers of
    patterns), [tokens_fuel] and [exec_fuel] (the backtracking matchers, from
    a measure that pairs the place to retry at with the place read),
    [ticks] (the runtime's steps, from one that pairs what is left of the tree
    with what the stack has to do),
    the number of deadlines (a peer's timeouts), [parse_fuel] (one step for every byte and element of an argv), the number
    of arms counted before they are compiled.  The reader of an argv ([run])
    takes a unit for every alias and subcommand; that there is enough is the
    theorem [declared_read_returns], and that there is none for an alias that
    stands for itself [alias_loops].

    * What the theorems show

    - Streams of bytes: cutting the input changes nothing, what is written is
      read back, what is held is bounded, malformed input is final; the ring is
      a queue under any interleaving; no reader loses, repeats or reorders.
    - Synchronization: exclusion, conservation of units, first come first
      served, no wake-up lost and no wait granted twice, on every reachable
      state; a condition variable's wait ends holding the mutex.
    - The task tree, on every state any program reaches: an aggregate settles
      only once all its children have ended, and as their ends rank it; no
      failure is dropped and no completion lost; a body runs once at a time; a
      cancel reaches everything below what it was asked of; and the runtime
      always comes back to the program.
    - JSON-RPC peers, in every state any program and remote lead to: a request
      is settled once, and once the conversation has ended none waits; every
      request read is answered once; what is written keeps its order and the
      remote's limit; a cancel is told once, after its request; and a peer that
      runs never sleeps over what it has to do.
    - Text: decoders accept exactly the spellings of code points; positions
      and offsets round-trip in every encoding; knowing that lines are ASCII
      changes no answer; URIs are parsed exactly by the grammar, and file paths
      come back.
    - Quoting: a command line joined is split into the same arguments, and
      response files are read in place, to an end, however they name one another.
    - Paths: normalizing writes over what it reads and still gives the folded
      names; [resolve] undoes [relative]; prefixes are those of components.
    - Globs: a created pattern matches exactly what its expansions, read
      segment by segment, match, whatever plan and mode it was given; [create]
      succeeds exactly on readable patterns; [escape] and [split_root] keep
      what their comments promise.
    - Command lines: a parse ends and reads every element once and in order;
      its values view argv; the longest option is found, by scan or by binary
      search; rendering and reading are inverse; an error's mark is in view.
      The command of a checked declaration reads every argv to an end, its
      errors point into the argv, and what they suggest is closest.  What a read
      leaves in the tree is what was given, each field its own.

    * What is not modelled, and why

    The codecs (with the decode of options from the tree an argv gives), meta
    and the LSP model are templates over
    reflection of the program's own types, instantiated at compile time: there
    is no first-order function to translate.  fs/file, fs/directory,
    fs/status, the rest of sys, the libuv handles of async/io (timers, sockets, processes,
    watchers), the transports and http are calls of the operating system, libuv and libcurl in
    sequence; what they compute themselves is small.  zest is the test
    framework.  Of the task tree: values, memory (a node is never freed; that
    its frame was destroyed, or its group's destructor ran, is recorded),
    exceptions that leave a resumption step itself, a loop run inside a
    coroutine (LoopRunScope), the loop's destructor and the workaround for
    MSVC.  Of peers: the logger, the data of an error, and the
    typed wrappers that decode params and results (the program's side of a
    handler).  Of the other modelled parts: printing of options for debugging,
    the layout of a usage, [to_argv], the cache of the last segment end in [execute] and the
    platform-specific file names are left out. *)
From Stdlib Require Import Strings.Byte ZArith Lia Bool.
From stdpp Require Import prelude strings.
From Stdlib Require Strings.String.

(** ** Bytes and byte strings

    A [char] is modelled by [Byte.byte]; [uval] is its value as an
    [unsigned char], [to_byte] the truncating conversion of an integer to
    [char].  A [std::string], [std::string_view] or [std::span<char>] is a
    list of bytes; offsets and sizes are [nat], or [Z] where the code's
    arithmetic on them can leave the range of what is in memory. *)

Abbreviation byte := Byte.byte.
Abbreviation bytes := (list Byte.byte).

#[export] Instance byte_eq_dec : EqDecision byte := Byte.byte_eq_dec.
#[export] Instance byte_inhabited : Inhabited byte := populate x00.

Definition uval (b : byte) : Z := Z.of_N (Byte.to_N b).

Definition to_byte (z : Z) : byte :=
  match Byte.of_N (Z.to_N (z mod 256)) with
  | Some b => b
  | None => x00
  end.

(** A string literal of the source as its bytes. *)
Definition lit (s : String.string) : bytes := String.list_byte_of_string s.

Declare Scope kota_scope.
Delimit Scope kota_scope with kota.

(** [c >= lo && c <= hi] on characters.  The bounds the code uses are ASCII,
    so signed and unsigned [char] agree. *)
Definition in_range (lo hi : Z) (c : byte) : bool :=
  (lo <=? uval c)%Z && (uval c <=? hi)%Z.

Notation "a =?b b" := (Byte.eqb a b) (at level 70, no associativity) : kota_scope.

(** ** [std::expected] *)

Inductive expected (A E : Type) : Type :=
| Ok (a : A)
| Err (e : E).
Arguments Ok {A E} _.
Arguments Err {A E} _.

Definition ebind {A B E} (x : expected A E) (f : A → expected B E) : expected B E :=
  match x with
  | Ok a => f a
  | Err e => Err e
  end.

Notation "'try' x ':=' c 'in' k" := (ebind c (fun x => k))
  (at level 10, x binder, c at level 100, k at level 200) : kota_scope.

Definition is_ok {A E} (x : expected A E) : bool :=
  match x with Ok _ => true | Err _ => false end.

(** ** Views of a byte string *)

Section Views.
Context {A : Type} `{EqDecision A}.

(** [s.substr(pos, n)]; callers keep [pos] within the string. *)
Definition substr (s : list A) (pos n : nat) : list A := take n (drop pos s).

Definition starts_with (s p : list A) : bool := bool_decide (take (length p) s = p).

Definition ends_with (s p : list A) : bool :=
  (length p <=? length s) && bool_decide (drop (length s - length p) s = p).

(** [s.find(c)] over a predicate on elements: the first index it holds at. *)
Fixpoint find_index (f : A → bool) (s : list A) : option nat :=
  match s with
  | [] => None
  | c :: s' => if f c then Some 0 else S <$> find_index f s'
  end.

(** The last index a predicate holds at: [rfind], [find_last_not_of]. *)
Fixpoint find_last (f : A → bool) (s : list A) : option nat :=
  match s with
  | [] => None
  | c :: s' =>
      match find_last f s' with
      | Some i => Some (S i)
      | None => if f c then Some 0 else None
      end
  end.

(** [s.find(p)] for a string [p]. *)
Fixpoint find_sub (p s : list A) : option nat :=
  if starts_with s p then Some 0 else
  match s with
  | [] => None
  | _ :: s' => S <$> find_sub p s'
  end.
End Views.

(** ** The tactics of the development *)

(** Splits conjunctions of booleans and turns boolean tests into the
    propositions they decide, in hypotheses and goal. *)
Ltac bool_prop :=
  repeat match goal with
  | H : (_ && _) = true |- _ => apply andb_true_iff in H; destruct H
  | H : (_ || _) = false |- _ => apply orb_false_iff in H; destruct H
  | H : negb _ = true |- _ => apply negb_true_iff in H
  | H : negb _ = false |- _ => apply negb_false_iff in H
  | H : (_ <=? _)%Z = true |- _ => apply Z.leb_le in H
  | H : (_ <=? _)%Z = false |- _ => apply Z.leb_gt in H
  | H : (_ <? _)%Z = true |- _ => apply Z.ltb_lt in H
  | H : (_ <? _)%Z = false |- _ => apply Z.ltb_ge in H
  | H : (_ =? _)%Z = true |- _ => apply Z.eqb_eq in H
  | H : (_ =? _)%Z = false |- _ => apply Z.eqb_neq in H
  | H : (_ <=? _)%nat = true |- _ => apply Nat.leb_le in H
  | H : (_ <=? _)%nat = false |- _ => apply Nat.leb_gt in H
  | H : (_ <? _)%nat = true |- _ => apply Nat.ltb_lt in H
  | H : (_ <? _)%nat = false |- _ => apply Nat.ltb_ge in H
  | H : (_ =? _)%nat = true |- _ => apply Nat.eqb_eq in H
  | H : (_ =? _)%nat = false |- _ => apply Nat.eqb_neq in H
  | H : bool_decide _ = true |- _ => apply bool_decide_eq_true in H
  | H : bool_decide _ = false |- _ => apply bool_decide_eq_false in H
  end.

(** Case analysis on the innermost test of a hypothesis or of the goal. *)
Ltac case_if_in H :=
  match type of H with context [if ?b then _ else _] => destruct b eqn:? end.
Ltac case_if :=
  match goal with |- context [if ?b then _ else _] => destruct b eqn:? end.

(** [lia] with division and remainder by constants. *)
Ltac dlia := Z.div_mod_to_equations; lia.

(** ** Lemmas on bytes *)

Lemma uval_range b : (0 ≤ uval b < 256)%Z.
Proof.
  unfold uval. pose proof (Byte.to_N_bounded b). lia.
Qed.

Lemma to_byte_uval b : to_byte (uval b) = b.
Proof.
  unfold to_byte. rewrite Z.mod_small by apply uval_range.
  unfold uval. rewrite N2Z.id, Byte.of_to_N. done.
Qed.

Lemma uval_to_byte z : uval (to_byte z) = (z mod 256)%Z.
Proof.
  unfold to_byte. pose proof (Z.mod_pos_bound z 256 ltac:(lia)).
  destruct (Byte.of_N _) as [b|] eqn:E.
  - apply Byte.to_of_N in E. unfold uval. rewrite E. lia.
  - apply Byte.of_N_None_iff in E. lia.
Qed.

Lemma uval_to_byte_small z : (0 ≤ z < 256)%Z → uval (to_byte z) = z.
Proof. intros. by rewrite uval_to_byte, Z.mod_small. Qed.

Lemma uval_inj a b : uval a = uval b → a = b.
Proof. intros E. by rewrite <- (to_byte_uval a), <- (to_byte_uval b), E. Qed.

Lemma to_byte_inj x y :
  (0 ≤ x < 256)%Z → (0 ≤ y < 256)%Z → to_byte x = to_byte y → x = y.
Proof.
  intros ?? E. by rewrite <- (uval_to_byte_small x), <- (uval_to_byte_small y), E.
Qed.

Lemma byte_eqb_spec a b : Byte.eqb a b = true ↔ a = b.
Proof. split; [apply Byte.byte_dec_bl | apply Byte.byte_dec_lb]. Qed.

Lemma byte_eqb_refl a : Byte.eqb a a = true.
Proof. by apply byte_eqb_spec. Qed.

Lemma byte_eqb_neq a b : Byte.eqb a b = false ↔ a ≠ b.
Proof. rewrite <- byte_eqb_spec. destruct (Byte.eqb a b); naive_solver. Qed.

Lemma byte_eqb_sym a b : Byte.eqb a b = Byte.eqb b a.
Proof. apply eq_true_iff_eq. by rewrite !byte_eqb_spec. Qed.

Lemma byte_eqb_uval a b : Byte.eqb a b = (uval a =? uval b)%Z.
Proof.
  apply eq_true_iff_eq. rewrite byte_eqb_spec, Z.eqb_eq.
  split; [by intros -> | apply uval_inj].
Qed.

(** Every byte, so that a property of single bytes is decided by computation. *)
Definition all_bytes : bytes := (to_byte ∘ Z.of_nat) <$> seq 0 256.

Lemma all_bytes_complete b : b ∈ all_bytes.
Proof.
  unfold all_bytes. apply list_elem_of_fmap. exists (Z.to_nat (uval b)).
  pose proof (uval_range b). split.
  - unfold compose. rewrite Z2Nat.id by lia. by rewrite to_byte_uval.
  - apply elem_of_seq. lia.
Qed.

Lemma byte_forall (P : byte → bool) : forallb P all_bytes = true → ∀ b, P b = true.
Proof.
  intros H b. eapply forallb_forall in H; [done|].
  apply list_elem_of_In, all_bytes_complete.
Qed.

(** Proves [∀ b : byte, P b = true] for a computable [P]. *)
Ltac by_bytes := apply byte_forall; vm_compute; reflexivity.

(** ** Lemmas on bit operations *)

Lemma land_mask z k : (0 ≤ k)%Z → Z.land z (2 ^ k - 1) = (z mod 2 ^ k)%Z.
Proof. intros. rewrite <- Z.land_ones by lia. by rewrite Z.ones_equiv. Qed.

Lemma lor_shiftl_add a b k :
  (0 ≤ k)%Z → (0 ≤ b < 2 ^ k)%Z → Z.lor (Z.shiftl a k) b = (a * 2 ^ k + b)%Z.
Proof.
  intros Hk Hb. rewrite <- Z.shiftl_mul_pow2 by done.
  symmetry. apply Z.add_nocarry_lor. apply Z.bits_inj'. intros n Hn.
  rewrite Z.land_spec, Z.shiftl_spec, Z.bits_0 by lia.
  destruct (decide (n < k)%Z) as [Hlt|Hge].
  - by rewrite (Z.testbit_neg_r a) by lia.
  - rewrite <- (Z.mod_small b (2 ^ k)), Z.mod_pow2_bits_high by lia.
    apply andb_false_r.
Qed.

Lemma shiftr_div z k : (0 ≤ k)%Z → Z.shiftr z k = (z / 2 ^ k)%Z.
Proof. apply Z.shiftr_div_pow2. Qed.

Lemma land_bound x y k : (0 ≤ k)%Z → (0 ≤ y < 2 ^ k)%Z → (0 ≤ Z.land x y < 2 ^ k)%Z.
Proof.
  intros Hk Hy. rewrite <- (Z.mod_small y (2 ^ k)) by lia.
  rewrite <- land_mask, Z.land_assoc, land_mask by lia.
  apply Z.mod_pos_bound. lia.
Qed.

Lemma lxor_bound x y k :
  (0 ≤ k)%Z → (0 ≤ x < 2 ^ k)%Z → (0 ≤ y < 2 ^ k)%Z → (0 ≤ Z.lxor x y < 2 ^ k)%Z.
Proof.
  intros Hk Hx Hy.
  replace (Z.lxor x y) with (Z.lxor x y mod 2 ^ k)%Z; [apply Z.mod_pos_bound; lia|].
  apply Z.bits_inj'. intros n Hn. destruct (decide (n < k)%Z).
  - by rewrite Z.mod_pow2_bits_low by lia.
  - rewrite Z.mod_pow2_bits_high, Z.lxor_spec by lia.
    rewrite <- (Z.mod_small x (2 ^ k)), <- (Z.mod_small y (2 ^ k)) by lia.
    by rewrite !Z.mod_pow2_bits_high by lia.
Qed.

(** ** Lemmas on views *)

Lemma find_index_fmap {A B} (g : A → B) (f : B → bool) (f' : A → bool) s :
  (∀ x, f (g x) = f' x) → find_index f (g <$> s) = find_index f' s.
Proof.
  intros E. induction s as [|x s IH]; [done|].
  rewrite fmap_cons. cbn [find_index]. by rewrite E, IH.
Qed.

Lemma find_index_none {A} (f : A → bool) s :
  find_index f s = None ↔ ∀ x, x ∈ s → f x = false.
Proof.
  induction s as [|x s IH]; simpl.
  - split; [by intros _ x ?%elem_of_nil|done].
  - destruct (f x) eqn:E.
    + split; [done|]. intros H. rewrite H in E by apply list_elem_of_here. done.
    + rewrite fmap_None, IH. setoid_rewrite elem_of_cons. split; [|by auto].
      intros H y [->|Hy]; auto.
Qed.

Lemma find_index_app {A} (f : A → bool) a b :
  find_index f (a ++ b) =
    match find_index f a with
    | Some k => Some k
    | None => (λ k, (length a + k)%nat) <$> find_index f b
    end.
Proof.
  induction a as [|x a IH]; [cbn [app find_index]; by destruct (find_index f b)|].
  cbn [app find_index]. destruct (f x); [done|]. rewrite IH.
  destruct (find_index f a); [done|]. by destruct (find_index f b).
Qed.

Lemma find_index_bound {A} (f : A → bool) s k : find_index f s = Some k → (k < length s)%nat.
Proof.
  revert k. induction s as [|x s IH]; intros k H; [done|]. cbn [find_index] in H.
  destruct (f x); [simplify_eq; simpl; lia|].
  destruct (find_index f s) as [j|]; [|done]. simpl in H. simplify_eq.
  specialize (IH j eq_refl). simpl. lia.
Qed.

(** The first byte equal to [c] cuts the string in two. *)
Lemma find_byte_some c (s : bytes) k :
  find_index (λ x, Byte.eqb x c) s = Some k ↔
  s = take k s ++ c :: drop (k + 1) s ∧ (c ∉ take k s) ∧ (k < length s)%nat.
Proof.
  split.
  - revert k. induction s as [|x s IH]; intros k H; [done|]. cbn [find_index] in H.
    destruct (Byte.eqb x c) eqn:E.
    + simplify_eq. apply byte_eqb_spec in E as ->. simpl.
      split; [done|]. split; [apply not_elem_of_nil|lia].
    + apply byte_eqb_neq in E. destruct (find_index _ s) as [j|]; [|done]. simpl in H. simplify_eq.
      destruct (IH j eq_refl) as (H1 & H2 & H3). cbn [take drop app length].
      change (S j + 1)%nat with (S (j + 1)). cbn [drop]. rewrite not_elem_of_cons.
      split; [congruence|]. split; [done|lia].
  - intros (H1 & H2 & H3). rewrite H1, find_index_app.
    rewrite (proj2 (find_index_none _ _)).
    + cbn [find_index fmap option_fmap option_map]. rewrite byte_eqb_refl. simpl. f_equal.
      rewrite length_take. lia.
    + intros x Hx. apply byte_eqb_neq. by intros ->.
Qed.

Lemma find_byte_none c (s : bytes) : find_index (λ x, Byte.eqb x c) s = None ↔ c ∉ s.
Proof.
  rewrite find_index_none. setoid_rewrite byte_eqb_neq. split; [intros H Hc; by destruct (H c)|].
  by intros H x Hx ->.
Qed.

Lemma find_byte_app c (a b : bytes) :
  c ∉ a → find_index (λ x, Byte.eqb x c) (a ++ c :: b) = Some (length a).
Proof.
  intros H. rewrite find_index_app, (proj2 (find_byte_none c a) H). cbn [find_index].
  rewrite byte_eqb_refl. simpl. f_equal. lia.
Qed.

(** ** Searching for a string *)

Section FindSub.
Context {A : Type} `{EqDecision A}.
Implicit Types p s t : list A.

(** [p] lies in [s] at [k]. *)
Definition occurs p s (k : nat) : Prop := take (length p) (drop k s) = p.

Lemma length_substr (s : list A) c n : length (substr s c n) = min n (length s - c).
Proof. unfold substr. by rewrite length_take, length_drop. Qed.

Lemma starts_with_iff s p : starts_with s p = true ↔ take (length p) s = p.
Proof. unfold starts_with. by rewrite bool_decide_eq_true. Qed.

Lemma starts_with_length s p : starts_with s p = true → (length p ≤ length s)%nat.
Proof. intros E%starts_with_iff. apply (f_equal length) in E. rewrite length_take in E. lia. Qed.

Lemma starts_with_app s p t : starts_with s p = true → starts_with (s ++ t) p = true.
Proof.
  rewrite !starts_with_iff. intros H. rewrite take_app_le; [done|].
  rewrite <- H at 1. rewrite length_take. lia.
Qed.

Lemma find_sub_first p s :
  p ≠ [] →
  match find_sub p s with
  | Some k => occurs p s k ∧ ∀ j, (j < k)%nat → ¬ occurs p s j
  | None => ∀ j, ¬ occurs p s j
  end.
Proof.
  intros Hp. induction s as [|x s IH].
  - simpl. destruct (starts_with [] p) eqn:E.
    + apply starts_with_iff in E. split; [done|lia].
    + intros j Hj. unfold occurs in Hj. rewrite drop_nil in Hj.
      assert (starts_with [] p = true) by by apply starts_with_iff. congruence.
  - cbn [find_sub]. destruct (starts_with (x :: s) p) eqn:E.
    + apply starts_with_iff in E. split; [done|lia].
    + assert (H0 : ¬ occurs p (x :: s) 0).
      { intros H0. assert (starts_with (x :: s) p = true) by by apply starts_with_iff.
        congruence. }
      destruct (find_sub p s) as [k|]; simpl.
      * destruct IH as [IH1 IH2]. split; [done|]. intros [|j] Hj; [done|].
        apply IH2. lia.
      * intros [|j]; [done|]. apply IH.
Qed.

Lemma occurs_length p s k : p ≠ [] → occurs p s k → (k + length p ≤ length s)%nat.
Proof.
  intros Hp H. assert (E : length (take (length p) (drop k s)) = length p) by by rewrite H.
  assert (0 < length p)%nat by (destruct p; simpl; [done|lia]).
  rewrite length_take, length_drop in E. lia.
Qed.

Lemma occurs_app p s t k : p ≠ [] → occurs p s k → occurs p (s ++ t) k.
Proof.
  intros Hp H. pose proof (occurs_length p s k Hp H). unfold occurs in *.
  rewrite drop_app_le by lia. rewrite take_app_le; [done|]. rewrite length_drop. lia.
Qed.

Lemma occurs_app_inv p s t k :
  (k + length p ≤ length s)%nat → occurs p (s ++ t) k → occurs p s k.
Proof.
  intros Hk H. unfold occurs in *. rewrite drop_app_le in H by lia.
  by rewrite take_app_le in H by (rewrite length_drop; lia).
Qed.

Lemma find_sub_unique p s k :
  p ≠ [] → occurs p s k → (∀ j, (j < k)%nat → ¬ occurs p s j) → find_sub p s = Some k.
Proof.
  intros Hp Hk Hmin. pose proof (find_sub_first p s Hp) as H.
  destruct (find_sub p s) as [k'|]; [|by destruct (H k)].
  destruct H as [H1 H2]. f_equal.
  destruct (lt_eq_lt_dec k k') as [[Hlt|]|Hlt]; [|done|].
  - by destruct (H2 k).
  - by destruct (Hmin k').
Qed.

Lemma find_sub_app_l p s t k : p ≠ [] → find_sub p s = Some k → find_sub p (s ++ t) = Some k.
Proof.
  intros Hp E. pose proof (find_sub_first p s Hp) as H. rewrite E in H. destruct H as [H1 H2].
  pose proof (occurs_length p s k Hp H1).
  apply find_sub_unique; [done|by apply occurs_app|].
  intros j Hj Ho. apply (H2 j Hj). apply occurs_app_inv in Ho; [done|lia].
Qed.

Lemma find_sub_none_app p s t k :
  p ≠ [] → find_sub p s = None → find_sub p (s ++ t) = Some k → (length s < k + length p)%nat.
Proof.
  intros Hp E E'. pose proof (find_sub_first p s Hp) as H. rewrite E in H.
  pose proof (find_sub_first p (s ++ t) Hp) as H'. rewrite E' in H'. destruct H' as [H1 _].
  destruct (decide (k + length p ≤ length s)%nat); [|lia].
  destruct (H k). by apply occurs_app_inv in H1.
Qed.

(** A string whose first element does not come before it is found where it is. *)
Lemma find_sub_app_notin c p s t :
  c ∉ s → find_sub (c :: p) (s ++ (c :: p) ++ t) = Some (length s).
Proof.
  induction s as [|x s IH]; intros Hc.
  - change ([] ++ (c :: p) ++ t) with ((c :: p) ++ t).
    assert (E : starts_with ((c :: p) ++ t) (c :: p) = true)
      by (apply starts_with_iff, take_app_length).
    cbn [find_sub app] in *. by rewrite E.
  - apply not_elem_of_cons in Hc as [Hne Hc]. cbn [app find_sub].
    assert (E : starts_with (x :: s ++ c :: p ++ t) (c :: p) = false).
    { apply bool_decide_eq_false. cbn [take length]. congruence. }
    rewrite E. cbn [app] in IH. by rewrite IH.
Qed.

Lemma find_last_all (f : A → bool) s :
  Forall (λ x, f x = true) s → s ≠ [] → find_last f s = Some (length s - 1)%nat.
Proof.
  induction 1 as [|x s Hx Hs IH]; intros Hne; [done|]. cbn [find_last].
  destruct s as [|y s]; [simpl; by rewrite Hx|]. rewrite IH by done. simpl. f_equal. lia.
Qed.

Lemma find_sub_length p s k : p ≠ [] → find_sub p s = Some k → (k + length p ≤ length s)%nat.
Proof.
  intros Hp E. pose proof (find_sub_first p s Hp) as H. rewrite E in H.
  apply occurs_length; [done|apply H].
Qed.
End FindSub.

(** ** Lists without duplicates *)

Lemma NoDup_mid {A} (a b : list A) x : NoDup (a ++ x :: b) → x ∉ a ∧ x ∉ b ∧ NoDup (a ++ b).
Proof.
  intros (Ha & Hd & Hb)%NoDup_app. apply NoDup_cons in Hb as [Hx Hb].
  split; [intros H; apply (Hd x H), list_elem_of_here|]. split; [done|]. apply NoDup_app.
  split; [done|]. split; [|done]. intros y Hy Hyb. apply (Hd y Hy). by right.
Qed.

Lemma filter_mid `{EqDecision A} (a b : list A) w :
  NoDup (a ++ w :: b) → filter (λ x, x ≠ w) (a ++ w :: b) = a ++ b.
Proof.
  intros (Ha & Hb & _)%NoDup_mid.
  assert (Hid : ∀ l : list A, w ∉ l → filter (λ x, x ≠ w) l = l).
  { intros l Hl. induction l as [|x l IH]; [done|]. apply not_elem_of_cons in Hl as [Hx Hl].
    rewrite filter_cons, decide_True by done. by rewrite IH. }
  rewrite filter_app, filter_cons, decide_False by naive_solver. by rewrite !Hid.
Qed.

Lemma length_filter_ne `{EqDecision A} (l : list A) c :
  NoDup l → c ∈ l → length (filter (λ x, x ≠ c) l) + 1 = length l.
Proof.
  intros Hn (a & b & ->)%list_elem_of_split. rewrite filter_mid by done.
  rewrite !length_app. simpl. lia.
Qed.
