(* ===== verification/Swar.v ===== *)
(** Byte tests on eight-byte words: include/kotatsu/support/swar.h.

    A [std::uint64_t] is a [Z] in [0, 2^64); [le_word] is the word [memcpy]
    or [load_word] reads from bytes, its lowest byte the first.  The theorems
    show that the word tests compute, on eight bytes at once, what a loop over
    the bytes computes, and that [any_word]'s overlapping reads and filler
    bytes change nothing. *)

From Stdlib Require Import Strings.Byte ZArith Lia Bool.
From stdpp Require Import prelude strings.
From S2P Require Import Prelude.
Local Open Scope Z_scope.
Local Open Scope kota_scope.

(** ** Definitions *)

Definition wrap64 (z : Z) : Z := z mod 2 ^ 64.

Fixpoint le_word (bs : bytes) : Z :=
  match bs with
  | [] => 0
  | b :: bs' => Z.lor (uval b) (Z.shiftl (le_word bs') 8)
  end.

Definition byte_ones : Z := 0x0101010101010101.

Definition bytes_below (word n : Z) : Z :=
  Z.land (Z.land (wrap64 (word - wrap64 (byte_ones * n))) (wrap64 (Z.lnot word)))
         (wrap64 (byte_ones * 0x80)).

Definition bytes_equal (word : Z) (c : byte) : Z :=
  bytes_below (Z.lxor word (wrap64 (byte_ones * uval c))) 1.

Definition has_byte (word : Z) (c : byte) : bool := negb (bytes_equal word c =? 0).

(** [load_word]: the eight bytes at the front of [bs]. *)
Definition load_word (bs : bytes) : Z := le_word (take 8 bs).

(** [std::countr_zero] of a nonzero word. *)
Fixpoint countr_zero_pos (p : positive) : Z :=
  match p with
  | xO p' => 1 + countr_zero_pos p'
  | _ => 0
  end.

Definition countr_zero (mask : Z) : Z :=
  match mask with
  | Zpos p => countr_zero_pos p
  | _ => 64
  end.

Definition first_byte_index (mask : Z) : Z := countr_zero mask / 8.

Definition has_non_ascii (word : Z) : bool :=
  negb (Z.land word (wrap64 (byte_ones * 0x80)) =? 0).

Section AnyWord.
Context (text : bytes) (filler : Z) (test : Z → bool).

Definition word_at (at_ : nat) : Z := le_word (substr text at_ 8).

(** The loop over whole words, [n] of them left from [at_] on, and the
    overlapping last word after it. *)
Fixpoint any_word_from (n at_ : nat) : bool :=
  match n with
  | O =>
      if (at_ =? length text)%nat then false
      else test (word_at (length text - 8))
  | S n' => if test (word_at at_) then true else any_word_from n' (at_ + 8)
  end.

Definition byte_at (i : nat) : Z :=
  match text !! i with Some b => uval b | None => 0 end.

Definition any_word : bool :=
  let size := length text in
  if (8 <=? size)%nat then any_word_from (size / 8) 0
  else if (4 <=? size)%nat then
    let head := le_word (substr text 0 4) in
    let tail := le_word (substr text (size - 4) 4) in
    test (Z.lor head (Z.shiftl tail 32))
  else if (size =? 0)%nat then false
  else
    test (Z.lor (Z.lor (Z.lor (Z.land filler (wrap64 (Z.lnot 0xFFFFFF))) (byte_at 0))
                       (Z.shiftl (byte_at (size / 2)) 8))
                (Z.shiftl (byte_at (size - 1)) 16)).
End AnyWord.

(** ** Words as numbers *)

Lemma le_word_cons b bs : le_word (b :: bs) = uval b + 256 * le_word bs.
Proof.
  simpl. pose proof (uval_range b).
  rewrite Z.lor_comm, lor_shiftl_add by (simpl; lia). simpl. lia.
Qed.

Lemma le_word_app bs1 bs2 :
  le_word (bs1 ++ bs2) = le_word bs1 + 256 ^ Z.of_nat (length bs1) * le_word bs2.
Proof.
  induction bs1 as [|b bs1 IH]; [simpl; lia|].
  rewrite <- app_comm_cons, !le_word_cons, IH. simpl length.
  rewrite Nat2Z.inj_succ, Z.pow_succ_r by lia. lia.
Qed.

Lemma le_word_bound bs : 0 ≤ le_word bs < 256 ^ Z.of_nat (length bs).
Proof.
  induction bs as [|b bs IH]; [simpl; lia|].
  rewrite le_word_cons. simpl length. pose proof (uval_range b).
  rewrite Nat2Z.inj_succ, Z.pow_succ_r by lia. lia.
Qed.

(** The low byte of a bitwise operation is the operation on the low bytes. *)
Lemma land_low a b x y :
  0 ≤ a < 256 → 0 ≤ b < 256 →
  Z.land (a + 256 * x) (b + 256 * y) = Z.land a b + 256 * Z.land x y.
Proof.
  intros Ha Hb.
  pose proof (land_bound a b 8 ltac:(lia) ltac:(lia)) as Hab.
  assert (Hsplit : ∀ u v, 0 ≤ u < 256 → u + 256 * v = Z.lor (Z.shiftl v 8) u).
  { intros u v Hu. rewrite lor_shiftl_add by lia. lia. }
  rewrite !Hsplit by done. rewrite (Z.lor_comm _ (Z.land a b)).
  rewrite (Z.lor_comm _ a), (Z.lor_comm _ b).
  apply Z.bits_inj'. intros n Hn.
  rewrite !Z.land_spec, !Z.lor_spec, !Z.land_spec, !Z.shiftl_spec, !Z.land_spec by lia.
  destruct (decide (n < 8)) as [Hlt|Hge].
  - rewrite !(Z.testbit_neg_r _ (n - 8)) by lia. by rewrite !orb_false_r, andb_false_r, orb_false_r || rewrite !orb_false_r.
  - rewrite <- (Z.mod_small a (2 ^ 8)), <- (Z.mod_small b (2 ^ 8)) by lia.
    rewrite !Z.mod_pow2_bits_high by lia. done.
Qed.

Lemma lxor_low a b x y :
  0 ≤ a < 256 → 0 ≤ b < 256 → 0 ≤ x → 0 ≤ y →
  Z.lxor (a + 256 * x) (b + 256 * y) = Z.lxor a b + 256 * Z.lxor x y.
Proof.
  intros Ha Hb Hx Hy.
  pose proof (lxor_bound a b 8 ltac:(lia) ltac:(lia) ltac:(lia)) as Hab.
  assert (Hsplit : ∀ u v, 0 ≤ u < 256 → u + 256 * v = Z.lor (Z.shiftl v 8) u).
  { intros u v Hu. rewrite lor_shiftl_add by lia. lia. }
  rewrite !Hsplit by (done || lia).
  apply Z.bits_inj'. intros n Hn.
  rewrite !Z.lxor_spec, !Z.lor_spec, !Z.lxor_spec, !Z.shiftl_spec, !Z.lxor_spec by lia.
  destruct (decide (n < 8)) as [Hlt|Hge].
  - by rewrite !(Z.testbit_neg_r _ (n - 8)) by lia.
  - rewrite <- (Z.mod_small a (2 ^ 8)), <- (Z.mod_small b (2 ^ 8)) by lia.
    rewrite !Z.mod_pow2_bits_high by lia. by rewrite !orb_false_r.
Qed.

(** The word of [k] ones and the mask of [bytes_below] on [k] bytes. *)
Fixpoint ones (k : nat) : Z :=
  match k with O => 0 | S k' => 1 + 256 * ones k' end.

Definition below_mask (k : nat) (word n : Z) : Z :=
  Z.land (Z.land (word - ones k * n) (Z.lnot word)) (ones k * 0x80).

Lemma ones_nonneg k : 0 ≤ ones k.
Proof. induction k; simpl; lia. Qed.

Lemma land_wrap64_l x m : 0 ≤ m < 2 ^ 64 → Z.land (wrap64 x) m = Z.land x m.
Proof.
  intros Hm. unfold wrap64. rewrite <- land_mask by lia.
  rewrite <- Z.land_assoc, (Z.land_comm _ m), land_mask, Z.mod_small by lia. done.
Qed.

Lemma wrap64_small z : 0 ≤ z < 2 ^ 64 → wrap64 z = z.
Proof. apply Z.mod_small. Qed.

Lemma bytes_below_mask word n :
  0 ≤ n ≤ 0x80 → bytes_below word n = below_mask 8 word n.
Proof.
  intros Hn. unfold bytes_below, below_mask.
  change (ones 8) with byte_ones.
  rewrite (wrap64_small (byte_ones * n)) by (unfold byte_ones; lia).
  change (wrap64 (byte_ones * 0x80)) with (byte_ones * 0x80).
  assert (Hm : 0 ≤ byte_ones * 128 < 2 ^ 64) by (unfold byte_ones; lia).
  rewrite <- !Z.land_assoc, (land_wrap64_l (Z.lnot word)) by done.
  by rewrite land_wrap64_l by (apply land_bound; lia).
Qed.

Lemma land_128 x : 0 ≤ x < 256 → Z.land x 128 = if x <? 128 then 0 else 128.
Proof.
  intros Hx. rewrite <- (uval_to_byte_small x) by done. generalize (to_byte x).
  intros b. apply Z.eqb_eq. revert b. by_bytes.
Qed.

Lemma below_mask_ge k b w n :
  0 ≤ n ≤ 128 → n ≤ uval b →
  below_mask (S k) (uval b + 256 * w) n = 256 * below_mask k w n.
Proof.
  intros Hn Hb. pose proof (uval_range b) as Hr. unfold below_mask. simpl ones.
  replace (uval b + 256 * w - (1 + 256 * ones k) * n)
    with ((uval b - n) + 256 * (w - ones k * n)) by lia.
  replace (Z.lnot (uval b + 256 * w)) with ((255 - uval b) + 256 * Z.lnot w)
    by (unfold Z.lnot; lia).
  replace ((1 + 256 * ones k) * 128) with (128 + 256 * (ones k * 128)) by lia.
  pose proof (land_bound (uval b - n) (255 - uval b) 8 ltac:(lia) ltac:(lia)) as Hl.
  rewrite !land_low by lia.
  replace (Z.land (Z.land (uval b - n) (255 - uval b)) 128) with 0; [lia|].
  destruct (decide (uval b < 128)).
  - rewrite Z.land_comm, Z.land_assoc, (Z.land_comm 128), land_128 by lia.
    by rewrite (proj2 (Z.ltb_lt _ _)) by lia.
  - rewrite <- Z.land_assoc, land_128 by lia.
    rewrite (proj2 (Z.ltb_lt _ _)) by lia. by rewrite Z.land_0_r.
Qed.

Lemma below_mask_lt k b w n :
  0 ≤ n ≤ 128 → uval b < n →
  ∃ r, 0 ≤ r ∧ below_mask (S k) (uval b + 256 * w) n = 128 + 256 * r.
Proof.
  intros Hn Hb. pose proof (uval_range b) as Hr. unfold below_mask. simpl ones.
  replace (uval b + 256 * w - (1 + 256 * ones k) * n)
    with ((uval b - n + 256) + 256 * (w - ones k * n - 1)) by lia.
  replace (Z.lnot (uval b + 256 * w)) with ((255 - uval b) + 256 * Z.lnot w)
    by (unfold Z.lnot; lia).
  replace ((1 + 256 * ones k) * 128) with (128 + 256 * (ones k * 128)) by lia.
  pose proof (land_bound (uval b - n + 256) (255 - uval b) 8 ltac:(lia) ltac:(lia)) as Hl.
  rewrite !land_low by lia.
  eexists. split; [|f_equal].
  - apply Z.land_nonneg. right. pose proof (ones_nonneg k). lia.
  - rewrite <- Z.land_assoc, (land_128 (255 - uval b)) by lia.
    rewrite (proj2 (Z.ltb_ge _ _)) by lia. rewrite land_128 by lia.
    by rewrite (proj2 (Z.ltb_ge _ _)) by lia.
Qed.

(** ** The first byte a mask shows *)

Lemma countr_zero_double m : 0 < m → countr_zero (2 * m) = 1 + countr_zero m.
Proof. destruct m; try lia. done. Qed.

Lemma countr_zero_256 m : 0 < m → countr_zero (256 * m) = 8 + countr_zero m.
Proof.
  intros Hm. replace (256 * m) with (2 * (2 * (2 * (2 * (2 * (2 * (2 * (2 * m)))))))) by lia.
  rewrite !countr_zero_double by lia. lia.
Qed.

Lemma countr_zero_128 r : 0 ≤ r → countr_zero (128 + 256 * r) = 7.
Proof.
  intros Hr.
  replace (128 + 256 * r) with (2 * (2 * (2 * (2 * (2 * (2 * (2 * (1 + 2 * r)))))))) by lia.
  rewrite !countr_zero_double by lia.
  replace (countr_zero (1 + 2 * r)) with 0; [lia|]. by destruct r; try lia.
Qed.

Lemma below_mask_first bs n :
  0 ≤ n ≤ 128 →
  match find_index (λ b, uval b <? n) bs with
  | None => below_mask (length bs) (le_word bs) n = 0
  | Some i => 0 < below_mask (length bs) (le_word bs) n ∧
              countr_zero (below_mask (length bs) (le_word bs) n) = 8 * Z.of_nat i + 7
  end.
Proof.
  intros Hn. induction bs as [|b bs IH]; [done|].
  rewrite le_word_cons. simpl length. simpl find_index.
  destruct (uval b <? n) eqn:E; bool_prop.
  - destruct (below_mask_lt (length bs) b (le_word bs) n) as (r & Hr & ->); [lia..|].
    split; [lia|]. by rewrite countr_zero_128.
  - rewrite below_mask_ge by lia.
    destruct (find_index _ bs) as [i|]; simpl; [|lia].
    destruct IH as [Hpos IH]. split; [lia|]. rewrite countr_zero_256 by done. lia.
Qed.

(** [bytes_below] finds the first byte below [n]: the mask is zero when there
    is none, and [first_byte_index] of it is that byte's index otherwise. *)
Lemma bytes_below_first bs n :
  length bs = 8%nat → 0 ≤ n ≤ 128 →
  match find_index (λ b, uval b <? n) bs with
  | None => bytes_below (le_word bs) n = 0
  | Some i => bytes_below (le_word bs) n ≠ 0 ∧
              first_byte_index (bytes_below (le_word bs) n) = Z.of_nat i
  end.
Proof.
  intros Hl Hn. rewrite bytes_below_mask by done.
  pose proof (below_mask_first bs n Hn) as H. rewrite Hl in H.
  destruct (find_index _ bs) as [i|]; [|done].
  destruct H as [H1 H2]. split; [lia|]. unfold first_byte_index. rewrite H2. dlia.
Qed.

Definition xor_bytes (c : byte) (bs : bytes) : bytes :=
  (λ b, to_byte (Z.lxor (uval b) (uval c))) <$> bs.

Lemma le_word_xor c bs :
  Z.lxor (le_word bs) (ones (length bs) * uval c) = le_word (xor_bytes c bs).
Proof.
  induction bs as [|b bs IH]; [done|].
  unfold xor_bytes. rewrite fmap_cons, !le_word_cons. simpl ones.
  pose proof (uval_range b). pose proof (uval_range c).
  replace ((1 + 256 * ones (length bs)) * uval c)
    with (uval c + 256 * (ones (length bs) * uval c)) by lia.
  rewrite lxor_low, IH, uval_to_byte_small; first done.
  - apply (lxor_bound _ _ 8); lia.
  - lia.
  - lia.
  - apply le_word_bound.
  - pose proof (ones_nonneg (length bs)). nia.
Qed.

Lemma xor_bytes_below c b : (uval (to_byte (Z.lxor (uval b) (uval c))) <? 1) = (b =?b c).
Proof.
  pose proof (uval_range b). pose proof (uval_range c).
  rewrite uval_to_byte_small by (apply (lxor_bound _ _ 8); lia).
  apply eq_true_iff_eq. rewrite byte_eqb_spec, Z.ltb_lt.
  pose proof (lxor_bound (uval b) (uval c) 8 ltac:(lia) ltac:(lia) ltac:(lia)).
  split; [intros ?; apply uval_inj, Z.lxor_eq; lia|].
  intros ->. rewrite Z.lxor_nilpotent. lia.
Qed.

(** [bytes_equal] and [first_byte_index] find a byte: over the word of any
    eight bytes the mask is zero when [c] is none of them, and otherwise its
    lowest bit names the first byte equal to [c]; [has_byte] says which. *)
Theorem bytes_equal_first bs c :
  length bs = 8%nat →
  (has_byte (le_word bs) c = true ↔ c ∈ bs) ∧
  match find_index (λ b, b =?b c) bs with
  | None => bytes_equal (le_word bs) c = 0
  | Some i => first_byte_index (bytes_equal (le_word bs) c) = Z.of_nat i
  end.
Proof.
  intros Hl. pose proof (uval_range c) as Hc.
  assert (E : bytes_equal (le_word bs) c = bytes_below (le_word (xor_bytes c bs)) 1).
  { unfold bytes_equal. rewrite <- le_word_xor, Hl.
    rewrite wrap64_small; [done | unfold byte_ones; lia]. }
  unfold has_byte. rewrite E.
  pose proof (bytes_below_first (xor_bytes c bs) 1) as H.
  unfold xor_bytes in *. rewrite length_fmap in H.
  rewrite (find_index_fmap _ _ (λ b, b =?b c)) in H by apply xor_bytes_below.
  specialize (H Hl ltac:(lia)).
  destruct (find_index (λ b, b =?b c) bs) as [i|] eqn:F.
  - destruct H as [H1 H2]. split; [|done].
    split; intros _; [|by apply negb_true_iff, Z.eqb_neq].
    destruct (decide (c ∈ bs)) as [|Hn]; [done|]. exfalso.
    assert (F' : find_index (λ b, b =?b c) bs = None); [|congruence].
    apply find_index_none. intros x Hx. apply byte_eqb_neq. by intros ->.
  - split; [|done]. rewrite H. split; [done|].
    intros Hin. apply find_index_none with (x := c) in F; [|done].
    by rewrite byte_eqb_refl in F.
Qed.

Lemma bytes_equal_first_witness :
  first_byte_index (bytes_equal (le_word (lit "a,b,cdef"%string)) ","%byte) = 1.
Proof.
  exact (proj2 (bytes_equal_first (lit "a,b,cdef"%string) ","%byte eq_refl)).
Defined.

(** ** [any_word] *)

Lemma existsb_take_drop (p : byte → bool) n s :
  existsb p s = existsb p (take n s) || existsb p (drop n s).
Proof. by rewrite <- existsb_app, take_drop. Qed.

Lemma existsb_take_le (p : byte → bool) m n s :
  (m ≤ n)%nat → existsb p (take n s) = false → existsb p (take m s) = false.
Proof.
  intros Hmn H. rewrite (existsb_take_drop p m), take_take in H.
  apply orb_false_iff in H as [H _]. by rewrite Nat.min_l in H by lia.
Qed.

Lemma existsb_cover (p : byte → bool) i j s :
  (i ≤ j)%nat → existsb p (take j s) || existsb p (drop i s) = existsb p s.
Proof.
  intros Hij. rewrite (existsb_take_drop p i s), (existsb_take_drop p i (take j s)).
  rewrite take_take, Nat.min_l, skipn_firstn_comm by lia.
  rewrite (existsb_take_drop p (j - i) (drop i s)).
  destruct (existsb p (take i s)), (existsb p (take (j - i) (drop i s))); done.
Qed.

Section AnyWordSpec.
Context (test : Z → bool) (p : byte → bool).
Context (Htest : ∀ bs, length bs = 8%nat → test (le_word bs) = existsb p bs).

Lemma word_at_test text i :
  (i + 8 ≤ length text)%nat → test (word_at text i) = existsb p (take 8 (drop i text)).
Proof.
  intros Hi. unfold word_at, substr. apply Htest.
  rewrite length_take, length_drop. lia.
Qed.

Lemma any_word_from_spec text n i :
  (8 ≤ length text)%nat → (i ≤ length text)%nat →
  n = ((length text - i) / 8)%nat →
  existsb p (take i text) = false →
  any_word_from text test n i = existsb p text.
Proof.
  intros H8. revert i. induction n as [|n IH]; intros i Hi Hn Hfalse; simpl.
  - destruct (i =? length text)%nat eqn:E; bool_prop.
    + subst i. by rewrite firstn_all in Hfalse.
    + rewrite word_at_test by lia.
      rewrite (take_ge (drop _ text)) by (rewrite length_drop; lia).
      rewrite (existsb_take_drop p (length text - 8) text).
      rewrite (existsb_take_le p (length text - 8) i); [done| |done].
      pose proof (Nat.div_small_iff (length text - i) 8 ltac:(lia)). lia.
  - assert (Hge : (i + 8 ≤ length text)%nat).
    { destruct (decide (i + 8 ≤ length text)%nat); [done|].
      rewrite Nat.div_small in Hn by lia. lia. }
    rewrite word_at_test by done.
    destruct (existsb p (take 8 (drop i text))) eqn:E.
    + symmetry. rewrite (existsb_take_drop p i text).
      by rewrite (existsb_take_drop p 8 (drop i text)), E, orb_true_r.
    + apply IH; [lia| |].
      * replace (length text - i)%nat with ((length text - (i + 8)) + 1 * 8)%nat in Hn by lia.
        rewrite Nat.div_add in Hn by lia. lia.
      * rewrite (existsb_take_drop p i), take_take, Nat.min_l, Hfalse by lia.
        rewrite skipn_firstn_comm. replace (i + 8 - i)%nat with 8%nat by lia. done.
Qed.

Context (filler : bytes) (Hfill : length filler = 8%nat) (Hno : existsb p filler = false).

(** The word of a text shorter than four bytes, its bytes and the filler's. *)
Lemma short_word a b c :
  Z.lor (Z.lor (Z.lor (Z.land (le_word filler) (wrap64 (Z.lnot 0xFFFFFF))) (uval a))
               (Z.shiftl (uval b) 8))
        (Z.shiftl (uval c) 16)
  = le_word (a :: b :: c :: drop 3 filler).
Proof.
  assert (E : Z.land (le_word filler) (wrap64 (Z.lnot 0xFFFFFF))
              = Z.shiftl (le_word (drop 3 filler)) 24).
  { replace (wrap64 (Z.lnot 0xFFFFFF)) with (Z.shiftl (2 ^ 40 - 1) 24) by reflexivity.
    rewrite <- (take_drop 3 filler) at 1. rewrite le_word_app, length_take, Hfill.
    change (256 ^ Z.of_nat (3 `min` 8)) with (2 ^ 24).
    pose proof (le_word_bound (take 3 filler)) as Hb. rewrite length_take, Hfill in Hb.
    change (256 ^ Z.of_nat (3 `min` 8)) with (2 ^ 24) in Hb.
    rewrite Z.add_comm, Z.mul_comm, <- lor_shiftl_add, Z.land_lor_distr_l by lia.
    rewrite <- Z.shiftl_land, land_mask by lia.
    pose proof (le_word_bound (drop 3 filler)) as Hd. rewrite length_drop, Hfill in Hd.
    rewrite Z.mod_small by (simpl in Hd; lia).
    replace (Z.land (le_word (take 3 filler)) _) with 0; [by rewrite Z.lor_0_r|].
    symmetry. apply Z.bits_inj'. intros n Hn.
    rewrite Z.land_spec, Z.shiftl_spec, Z.bits_0 by lia.
    destruct (decide (n < 24)).
    - rewrite (Z.testbit_neg_r _ (n - 24)) by lia. apply andb_false_r.
    - rewrite <- (Z.mod_small (le_word (take 3 filler)) (2 ^ 24)) by lia.
      by rewrite Z.mod_pow2_bits_high by lia. }
  rewrite E. cbn [le_word]. rewrite !Z.shiftl_lor, !Z.shiftl_shiftl by lia. simpl.
  rewrite <- !Z.lor_assoc. rewrite Z.lor_comm, <- !Z.lor_assoc. reflexivity.
Qed.

Lemma any_word_existsb text :
  any_word text (le_word filler) test = existsb p text.
Proof.
  unfold any_word. destruct (8 <=? length text)%nat eqn:E8; bool_prop.
  { apply any_word_from_spec; [lia|lia| |done]. by rewrite Nat.sub_0_r. }
  destruct (4 <=? length text)%nat eqn:E4; bool_prop.
  - unfold substr. rewrite drop_0.
    rewrite (take_ge (drop _ text)) by (rewrite length_drop; lia).
    rewrite Z.lor_comm, lor_shiftl_add.
    2: lia.
    2: { pose proof (le_word_bound (take 4 text)) as Hb.
         rewrite length_take, Nat.min_l in Hb by lia. apply Hb. }
    replace (_ + _) with (le_word (take 4 text ++ drop (length text - 4) text)).
    2: { rewrite le_word_app, length_take, Nat.min_l by lia.
         change (256 ^ Z.of_nat 4) with (2 ^ 32). lia. }
    rewrite Htest by (rewrite length_app, length_take, length_drop; lia).
    rewrite existsb_app. apply existsb_cover. lia.
  - destruct text as [|a [|b [|c [|]]]]; simpl in E4; try lia; [done|..];
    cbn [length Nat.eqb Nat.div Nat.divmod fst Nat.sub byte_at lookup list_lookup];
    rewrite short_word, Htest by (simpl; rewrite ?length_drop, ?Hfill; lia); simpl;
    assert (Hd : existsb p (drop 3 filler) = false)
      by (rewrite (existsb_take_drop p 3 filler) in Hno; by apply orb_false_iff in Hno as [_ ?]);
    rewrite Hd; destruct (p a); try destruct (p b); try destruct (p c); done.
Qed.
End AnyWordSpec.

(** [has_non_ascii] tests the top bits of the bytes of a word. *)
Definition non_ascii_byte (b : byte) : bool := (0x80 <=? uval b).

Lemma land_non_ascii bs :
  (Z.land (le_word bs) (ones (length bs) * 0x80) =? 0) = negb (existsb non_ascii_byte bs).
Proof.
  induction bs as [|b bs IH]; [done|].
  rewrite le_word_cons. simpl ones. simpl length. pose proof (uval_range b).
  replace ((1 + 256 * ones (length bs)) * 128) with (128 + 256 * (ones (length bs) * 128)) by lia.
  rewrite land_low, land_128 by lia. simpl existsb. rewrite negb_orb, <- IH.
  unfold non_ascii_byte.
  assert (0 ≤ Z.land (le_word bs) (ones (length bs) * 128)).
  { apply Z.land_nonneg. left. apply le_word_bound. }
  destruct (Z.ltb_spec (uval b) 128), (Z.leb_spec 128 (uval b)); try lia; simpl;
    apply eq_true_iff_eq; rewrite ?Z.eqb_eq; split; intros; try done; lia.
Qed.

(** The word loop of [any_word] with [has_non_ascii], its overlapping last
    read and the packed word of a short text included, holds exactly when some
    byte of the text is past ASCII. *)
Lemma any_word_non_ascii text :
  any_word text 0 has_non_ascii = existsb non_ascii_byte text.
Proof.
  apply (any_word_existsb has_non_ascii non_ascii_byte) with (filler := replicate 8 x00).
  - intros bs Hl. unfold has_non_ascii.
    change (wrap64 (byte_ones * 128)) with (ones 8 * 128).
    by rewrite <- Hl, land_non_ascii, negb_involutive.
  - done.
  - done.
Qed.
