(* ===== verification/Utf8.v ===== *)
(** UTF-8 and UTF-16 text: include/kotatsu/support/utf8.h and utf16.h.

    [decode_sequence] is the decoder every other part of the library reads
    text with; [is_utf8], [replace_invalid_utf8], [to_utf16] and [from_utf16]
    loop over it.  A [char32_t] and a [char16_t] are [Z].  The specification
    is [put_code_point], the bytes a code point is spelled with, and
    [wtf8_scalar], the numbers that are code points: the decoder is shown to
    be its exact inverse. *)

From Stdlib Require Import Strings.Byte ZArith Lia Bool.
From stdpp Require Import prelude strings.
From S2P Require Import Prelude Swar.
Local Open Scope Z_scope.
Local Open Scope kota_scope.

(** ** Definitions *)

Record UTF8Sequence := mkSeq {
  code_point : Z;
  seq_length : nat;
  valid : bool;
}.

Definition replacement : Z := 0xFFFD.

(** The loop of [decode_sequence] over the continuation bytes: [text] is the
    text from index [length] on. *)
Fixpoint decode_tail (text : bytes) (need len : nat) (cp low high : Z) : nat * Z :=
  match text with
  | [] => (len, cp)
  | c :: text' =>
      if (len <? need)%nat then
        let next := uval c in
        if (next <? low) || (high <? next) then (len, cp)
        else decode_tail text' need (S len)
               (Z.lor (Z.shiftl cp 6) (Z.land next 0x3F)) 0x80 0xBF
      else (len, cp)
  end.

Definition decode_finish (need : nat) (r : nat * Z) : UTF8Sequence :=
  let '(len, cp) := r in
  if negb (len =? need)%nat then mkSeq replacement len false else mkSeq cp len true.

(** The text is not empty: the code reads [text[0]] unchecked. *)
Definition decode_sequence (text : bytes) (surrogates : bool) : UTF8Sequence :=
  match text with
  | [] => mkSeq replacement 0 false
  | c :: rest =>
      let lead := uval c in
      if lead <? 0x80 then mkSeq lead 1 true
      else if (0xC2 <=? lead) && (lead <=? 0xDF) then
        decode_finish 2 (decode_tail rest 2 1 (Z.land lead 0x1F) 0x80 0xBF)
      else if (0xE0 <=? lead) && (lead <=? 0xEF) then
        let low := if lead =? 0xE0 then 0xA0 else 0x80 in
        let high := if (lead =? 0xED) && negb surrogates then 0x9F else 0xBF in
        decode_finish 3 (decode_tail rest 3 1 (Z.land lead 0x0F) low high)
      else if (0xF0 <=? lead) && (lead <=? 0xF4) then
        let low := if lead =? 0xF0 then 0x90 else 0x80 in
        let high := if lead =? 0xF4 then 0x8F else 0xBF in
        decode_finish 4 (decode_tail rest 4 1 (Z.land lead 0x07) low high)
      else mkSeq replacement 1 false
  end.

Definition decode_utf8 (text : bytes) : UTF8Sequence := decode_sequence text false.

(** The loop of [is_utf8]: every step consumes a byte or more, so the length
    of the text is fuel enough. *)
Fixpoint is_utf8_from (fuel : nat) (text : bytes) : bool :=
  match fuel with
  | O => true
  | S fuel' =>
      match text with
      | [] => true
      | _ =>
          if (8 <=? length text)%nat && negb (has_non_ascii (load_word text)) then
            is_utf8_from fuel' (drop 8 text)
          else
            let sequence := decode_utf8 text in
            if negb (valid sequence) then false
            else is_utf8_from fuel' (drop (seq_length sequence) text)
      end
  end.

Definition is_utf8 (text : bytes) : bool :=
  if negb (any_word text 0 has_non_ascii) then true
  else is_utf8_from (length text) text.

Definition replacement_bytes : bytes := [xef; xbf; xbd].

Fixpoint replace_invalid_from (fuel : nat) (text : bytes) : bytes :=
  match fuel with
  | O => []
  | S fuel' =>
      match text with
      | [] => []
      | _ =>
          let sequence := decode_utf8 text in
          (if valid sequence then take (seq_length sequence) text else replacement_bytes)
          ++ replace_invalid_from fuel' (drop (seq_length sequence) text)
      end
  end.

Definition replace_invalid_utf8 (text : bytes) : bytes :=
  replace_invalid_from (length text) text.

(** *** UTF-16 *)

(** The [put] calls of [from_utf16] for one code point. *)
Definition put_code_point (cp : Z) : bytes :=
  if cp <? 0x80 then [to_byte cp]
  else if cp <? 0x800 then
    [to_byte (Z.lor 0xC0 (Z.shiftr cp 6)); to_byte (Z.lor 0x80 (Z.land cp 0x3F))]
  else if cp <? 0x10000 then
    [to_byte (Z.lor 0xE0 (Z.shiftr cp 12));
     to_byte (Z.lor 0x80 (Z.land (Z.shiftr cp 6) 0x3F));
     to_byte (Z.lor 0x80 (Z.land cp 0x3F))]
  else
    [to_byte (Z.lor 0xF0 (Z.shiftr cp 18));
     to_byte (Z.lor 0x80 (Z.land (Z.shiftr cp 12) 0x3F));
     to_byte (Z.lor 0x80 (Z.land (Z.shiftr cp 6) 0x3F));
     to_byte (Z.lor 0x80 (Z.land cp 0x3F))].

Definition high_surrogate (u : Z) : bool := (0xD800 <=? u) && (u <=? 0xDBFF).
Definition low_surrogate (u : Z) : bool := (0xDC00 <=? u) && (u <=? 0xDFFF).

Fixpoint from_utf16 (text : list Z) : bytes :=
  match text with
  | [] => []
  | unit :: text' =>
      match text' with
      | next :: text'' =>
          if high_surrogate unit && low_surrogate next then
            put_code_point (0x10000 + Z.shiftl (unit - 0xD800) 10 + (next - 0xDC00))
            ++ from_utf16 text''
          else put_code_point unit ++ from_utf16 text'
      | [] => put_code_point unit
      end
  end.

(** The bytes [ED B0..BF], which spell a low surrogate. *)
Definition spells_low_surrogate (text : bytes) : bool :=
  match text with
  | a :: b :: _ => (uval a =? 0xED) && (Z.land (uval b) 0xF0 =? 0xB0)
  | _ => false
  end.

(** [to_utf16] gives the units written and whether the text was well formed
    ([std::errc::illegal_byte_sequence] otherwise). *)
Fixpoint to_utf16_from (fuel : nat) (text : bytes) : list Z * bool :=
  match fuel with
  | O => ([], true)
  | S fuel' =>
      match text with
      | [] => ([], true)
      | _ =>
          let sequence := decode_sequence text true in
          if negb (valid sequence) then ([], false) else
          let rest := drop (seq_length sequence) text in
          let cp := code_point sequence in
          if high_surrogate cp && spells_low_surrogate rest then ([], false) else
          let units :=
            if cp <? 0x10000 then [cp]
            else [0xD800 + Z.shiftr (cp - 0x10000) 10;
                  0xDC00 + Z.land (cp - 0x10000) 0x3FF] in
          let '(more, ok) := to_utf16_from fuel' rest in (units ++ more, ok)
      end
  end.

Definition to_utf16 (text : bytes) : list Z * bool := to_utf16_from (length text) text.

(** ** The specification *)

(** The code points a decoder takes: WTF-8's, surrogates among them, when
    [surrogates], UTF-8's otherwise. *)
Definition scalar (surrogates : bool) (cp : Z) : Prop :=
  0 ≤ cp ≤ 0x10FFFF ∧ (surrogates = true ∨ ¬ (0xD800 ≤ cp ≤ 0xDFFF)).

Abbreviation scalars := (Forall (scalar false)).

(** The text that spells a list of code points. *)
Definition spell (cps : list Z) : bytes := mjoin (put_code_point <$> cps).

(** ** Arithmetic of the encoding *)

Lemma lor_add_high c k x :
  0 ≤ k → 0 ≤ x < 2 ^ k → Z.lor (Z.shiftl c k) x = Z.shiftl c k + x.
Proof. intros. rewrite lor_shiftl_add, Z.shiftl_mul_pow2 by done. done. Qed.

Lemma lor_cont x : 0 ≤ x < 64 → Z.lor 0x80 x = 0x80 + x.
Proof. intros. by apply (lor_add_high 2 6 x). Qed.

Lemma lor_lead2 x : 0 ≤ x < 32 → Z.lor 0xC0 x = 0xC0 + x.
Proof. intros. by apply (lor_add_high 6 5 x). Qed.

Lemma lor_lead3 x : 0 ≤ x < 16 → Z.lor 0xE0 x = 0xE0 + x.
Proof. intros. by apply (lor_add_high 14 4 x). Qed.

Lemma lor_lead4 x : 0 ≤ x < 8 → Z.lor 0xF0 x = 0xF0 + x.
Proof. intros. by apply (lor_add_high 30 3 x). Qed.

Lemma land_3f x : Z.land x 0x3F = x mod 64.
Proof. by apply (land_mask x 6). Qed.

Lemma shift_cont cp x : Z.lor (Z.shiftl cp 6) (Z.land x 0x3F) = cp * 64 + x mod 64.
Proof.
  rewrite land_3f. apply (lor_shiftl_add cp (x mod 64) 6); [lia|].
  apply Z.mod_pos_bound. lia.
Qed.

(** The bytes of a code point, in arithmetic. *)
Definition put_arith (cp : Z) : list Z :=
  if cp <? 0x80 then [cp]
  else if cp <? 0x800 then [0xC0 + cp / 64; 0x80 + cp mod 64]
  else if cp <? 0x10000 then [0xE0 + cp / 4096; 0x80 + (cp / 64) mod 64; 0x80 + cp mod 64]
  else [0xF0 + cp / 262144; 0x80 + (cp / 4096) mod 64; 0x80 + (cp / 64) mod 64;
        0x80 + cp mod 64].

Lemma put_code_point_arith cp :
  0 ≤ cp ≤ 0x10FFFF → put_code_point cp = to_byte <$> put_arith cp.
Proof.
  intros Hcp. unfold put_code_point, put_arith.
  rewrite !land_3f, !shiftr_div by lia.
  change (2 ^ 6) with 64. change (2 ^ 12) with 4096. change (2 ^ 18) with 262144.
  repeat case_if; bool_prop; simpl;
    rewrite ?lor_lead2, ?lor_lead3, ?lor_lead4 by dlia;
    rewrite ?lor_cont by (apply Z.mod_pos_bound; lia); done.
Qed.

Lemma put_arith_bytes cp : 0 ≤ cp ≤ 0x10FFFF → Forall (λ z, 0 ≤ z < 256) (put_arith cp).
Proof.
  intros. unfold put_arith. repeat case_if; bool_prop; repeat constructor; dlia.
Qed.

Lemma put_code_point_length cp :
  0 ≤ cp ≤ 0x10FFFF →
  length (put_code_point cp) =
    if cp <? 0x80 then 1%nat else if cp <? 0x800 then 2%nat
    else if cp <? 0x10000 then 3%nat else 4%nat.
Proof. intros. unfold put_code_point. by repeat case_if. Qed.

(** Decides the comparisons of the decoder in order, from the bounds known. *)
Ltac decide_tests :=
  repeat match goal with
  | |- context [(?a <? ?b)%Z] =>
      first [ rewrite (proj2 (Z.ltb_lt a b)) by dlia
            | rewrite (proj2 (Z.ltb_ge a b)) by dlia ]
  | |- context [(?a <=? ?b)%Z] =>
      first [ rewrite (proj2 (Z.leb_le a b)) by dlia
            | rewrite (proj2 (Z.leb_gt a b)) by dlia ]
  end.

(** ** The decoder inverts the encoding *)

Lemma decode_tail_step c text need len cp low high :
  (len < need)%nat → low ≤ uval c ≤ high →
  decode_tail (c :: text) need len cp low high
  = decode_tail text need (S len) (cp * 64 + uval c mod 64) 0x80 0xBF.
Proof.
  intros Hl Hc. cbn [decode_tail]. rewrite (proj2 (Nat.ltb_lt _ _)) by done.
  decide_tests. by rewrite shift_cont.
Qed.

Lemma decode_tail_done text need cp low high :
  decode_tail text need need cp low high = (need, cp).
Proof. destruct text; simpl; [done|]. by rewrite Nat.ltb_irrefl. Qed.

Lemma decode_finish_done need cp : decode_finish need (need, cp) = mkSeq cp need true.
Proof. unfold decode_finish. by rewrite Nat.eqb_refl. Qed.

Create Rewrite HintDb utf8.
#[export] Hint Rewrite decode_tail_done decode_finish_done : utf8.

Lemma decode_put cp rest s :
  scalar s cp →
  decode_sequence (put_code_point cp ++ rest) s
  = mkSeq cp (length (put_code_point cp)) true.
Proof.
  intros [Hcp Hs]. rewrite put_code_point_arith by done. unfold put_arith.
  destruct (cp <? 0x80) eqn:E1; bool_prop; [|destruct (cp <? 0x800) eqn:E2; bool_prop;
    [|destruct (cp <? 0x10000) eqn:E3; bool_prop]];
    cbn [fmap list_fmap app length]; unfold decode_sequence;
    rewrite uval_to_byte_small by dlia; decide_tests; cbn [andb].
  - done.
  - rewrite decode_tail_step by (rewrite ?uval_to_byte_small; dlia || lia).
    autorewrite with utf8. f_equal. rewrite uval_to_byte_small, (land_mask _ 5) by dlia. dlia.
  - rewrite !decode_tail_step.
    all: rewrite ?uval_to_byte_small by dlia.
    all: try (autorewrite with utf8; f_equal; rewrite (land_mask _ 4) by dlia; dlia).
    all: try lia; try dlia.
    split.
    + case_if; bool_prop; dlia.
    + case_if; bool_prop; [|dlia]. destruct Hs as [->|Hs]; [done|]. dlia.
  - rewrite !decode_tail_step.
    all: rewrite ?uval_to_byte_small by dlia.
    all: try (autorewrite with utf8; f_equal; rewrite (land_mask _ 3) by dlia; dlia).
    all: try lia; try dlia.
    split; case_if; bool_prop; dlia.
Qed.

Lemma decode_tail_inv text need len cp low high cp' :
  (len < need)%nat → decode_tail text need len cp low high = (need, cp') →
  ∃ c text', text = c :: text' ∧ low ≤ uval c ≤ high ∧
    decode_tail text' need (S len) (cp * 64 + uval c mod 64) 0x80 0xBF = (need, cp').
Proof.
  intros Hl H. destruct text as [|c text']; simpl in H; [simplify_eq; lia|].
  rewrite (proj2 (Nat.ltb_lt _ _)) in H by done.
  destruct ((uval c <? low) || (high <? uval c)) eqn:E; [simplify_eq; lia|].
  bool_prop. rewrite shift_cont in H. eauto 10 with lia.
Qed.

Lemma decode_finish_inv need r cp len :
  decode_finish need r = mkSeq cp len true → r = (need, cp) ∧ len = need.
Proof.
  unfold decode_finish. destruct r as [n z]. intros H.
  case_if_in H; simplify_eq. bool_prop. by subst.
Qed.

(** Peels the bytes a successful decode read off the text. *)
Ltac peel_tail :=
  repeat match goal with
  | H : decode_finish _ _ = mkSeq _ _ true |- _ => apply decode_finish_inv in H as [H ?]
  | H : decode_tail _ ?n ?n _ _ _ = _ |- _ => rewrite decode_tail_done in H; simplify_eq
  | H : decode_tail _ _ _ _ _ _ = _ |- _ =>
      apply decode_tail_inv in H as (? & ? & -> & ? & H); [|lia]
  end.

Lemma put_code_point_eq cp l :
  0 ≤ cp ≤ 0x10FFFF → put_arith cp = uval <$> l → put_code_point cp = l.
Proof.
  intros Hcp E. rewrite put_code_point_arith, E by done.
  rewrite <- list_fmap_compose. rewrite <- (list_fmap_id l) at 2.
  apply list_fmap_ext. intros _ b _. apply to_byte_uval.
Qed.

Definition spells_at (text : bytes) (s : bool) (cp : Z) (len : nat) : Prop :=
  scalar s cp ∧ ∃ rest, text = put_code_point cp ++ rest ∧ len = length (put_code_point cp).

Lemma spells_at_intro l rest s cp :
  scalar s cp → put_arith cp = uval <$> l → spells_at (l ++ rest) s cp (length l).
Proof.
  intros Hs E. rewrite <- (put_code_point_eq cp l (proj1 Hs) E). split; [done|]. by exists rest.
Qed.

Lemma decode_valid text s cp len :
  decode_sequence text s = mkSeq cp len true → spells_at text s cp len.
Proof.
  destruct text as [|c rest]; [done|]. unfold decode_sequence.
  pose proof (uval_range c). intros H'.
  rewrite (land_mask _ 5), (land_mask _ 4), (land_mask _ 3) in H' by lia.
  change (2 ^ 5) with 32 in H'. change (2 ^ 4) with 16 in H'. change (2 ^ 3) with 8 in H'.
  repeat (case_if_in H'; bool_prop; simplify_eq); peel_tail; subst;
    match goal with
    | |- spells_at (?a :: ?b :: ?c :: ?d :: ?r) _ _ 4 => apply (spells_at_intro [a; b; c; d] r)
    | |- spells_at (?a :: ?b :: ?c :: ?r) _ _ 3 => apply (spells_at_intro [a; b; c] r)
    | |- spells_at (?a :: ?b :: ?r) _ _ 2 => apply (spells_at_intro [a; b] r)
    | |- spells_at (?a :: ?r) _ _ 1 => apply (spells_at_intro [a] r)
    end;
    first
    [ unfold put_arith; decide_tests; simpl; repeat f_equal; dlia
    | split; [dlia|]; try destruct s; first [by left | right; intros ?; try discriminate; dlia] ].
Qed.

(** The decoder is the exact inverse of the encoding: [decode_sequence]
    reports a valid sequence precisely when the text starts with the bytes
    that spell a code point (no overlong form, no surrogate unless asked, none
    past U+10FFFF), and then reports that code point and its length. *)
Theorem decode_sequence_correct text s cp len :
  decode_sequence text s = mkSeq cp len true ↔
  scalar s cp ∧ ∃ rest, text = put_code_point cp ++ rest ∧ len = length (put_code_point cp).
Proof.
  split; [apply decode_valid|].
  intros (Hs & rest & -> & ->). by apply decode_put.
Qed.

(** ** Progress *)

Lemma decode_tail_len text need len cp low high :
  (len ≤ need)%nat →
  (len ≤ (decode_tail text need len cp low high).1 ≤ need)%nat ∧
  ((decode_tail text need len cp low high).1 ≤ len + length text)%nat.
Proof.
  revert len cp low high. induction text as [|c text IH]; intros len cp low high Hl; simpl.
  - lia.
  - destruct (len <? need)%nat eqn:E; simpl; bool_prop; [|lia].
    case_if; simpl; [lia|].
    specialize (IH (S len) (Z.lor (Z.shiftl cp 6) (Z.land (uval c) 63)) 128 191 ltac:(lia)). lia.
Qed.

Lemma decode_finish_length need r : seq_length (decode_finish need r) = r.1.
Proof. destruct r. unfold decode_finish. by case_if. Qed.

(** Every decode takes at least one byte and no more than four, nor more than
    there are, so the loops over a text end and never read past it. *)
Lemma decode_sequence_progress text s :
  text ≠ [] →
  (1 ≤ seq_length (decode_sequence text s) ≤ 4)%nat ∧
  (seq_length (decode_sequence text s) ≤ length text)%nat.
Proof.
  destruct text as [|c rest]; [done|]. intros _. unfold decode_sequence. cbn [length].
  repeat first
    [ rewrite decode_finish_length;
      match goal with |- context [decode_tail ?t ?n ?l ?cp ?lo ?hi] =>
        pose proof (decode_tail_len t n l cp lo hi ltac:(lia)); lia end
    | case_if; simpl; try lia ].
Qed.

Lemma put_code_point_nonempty cp : put_code_point cp ≠ [].
Proof. unfold put_code_point. by repeat case_if. Qed.

Lemma decode_replacement_length text s :
  text ≠ [] → (length (drop (seq_length (decode_sequence text s)) text) < length text)%nat.
Proof.
  intros H. pose proof (decode_sequence_progress text s H). rewrite length_drop.
  destruct text; [done|]. simpl in *. lia.
Qed.

(** ** [is_utf8] *)

Lemma spell_cons cp cps : spell (cp :: cps) = put_code_point cp ++ spell cps.
Proof. done. Qed.

Lemma decode_spell cp cps s :
  scalar s cp → decode_sequence (spell (cp :: cps)) s = mkSeq cp (length (put_code_point cp)) true.
Proof. intros. rewrite spell_cons. by apply decode_put. Qed.

Lemma put_ascii b : uval b < 0x80 → put_code_point (uval b) = [b].
Proof.
  intros. unfold put_code_point. rewrite (proj2 (Z.ltb_lt _ _)) by done.
  by rewrite to_byte_uval.
Qed.

Lemma scalar_ascii s b : uval b < 0x80 → scalar s (uval b).
Proof. intros. pose proof (uval_range b). split; [lia|]. right. lia. Qed.

Lemma spell_ascii_app l cps :
  Forall (λ b, uval b < 0x80) l → spell ((uval <$> l) ++ cps) = l ++ spell cps.
Proof.
  induction 1 as [|b l Hb Hl IH]; [done|].
  rewrite fmap_cons, <- !app_comm_cons, spell_cons, IH, put_ascii by done. done.
Qed.

Lemma scalars_ascii l : Forall (λ b, uval b < 0x80) l → scalars (uval <$> l).
Proof.
  intros H. apply Forall_fmap. eapply Forall_impl; [exact H|].
  intros b Hb. by apply scalar_ascii.
Qed.

Lemma spell_ascii_inv l t cps :
  scalars cps → Forall (λ b, uval b < 0x80) l → spell cps = l ++ t →
  ∃ cps', scalars cps' ∧ t = spell cps'.
Proof.
  intros Hc Hl. revert cps Hc. induction Hl as [|b l Hb Hl IH]; intros cps Hc E.
  - exists cps. done.
  - destruct cps as [|cp cps]; [done|].
    apply Forall_cons in Hc as [Hcp Hc].
    pose proof (decode_spell cp cps false Hcp) as D. rewrite E in D.
    simpl in D. rewrite (proj2 (Z.ltb_lt _ _)) in D by done.
    injection D as <- _. rewrite spell_cons, put_ascii in E by done.
    simpl in E. injection E as E. by apply (IH cps).
Qed.

Lemma has_non_ascii_word bs :
  length bs = 8%nat → has_non_ascii (le_word bs) = false → Forall (λ b, uval b < 0x80) bs.
Proof.
  intros Hl H. unfold has_non_ascii in H.
  change (wrap64 (byte_ones * 128)) with (ones 8 * 128) in H.
  rewrite <- Hl, land_non_ascii, negb_involutive in H.
  apply Forall_forall. intros b Hb.
  destruct (existsb_exists non_ascii_byte bs) as [_ Hex].
  destruct (decide (uval b < 128)); [done|]. exfalso.
  rewrite Hex in H; [done|]. exists b. split; [by apply list_elem_of_In|].
  unfold non_ascii_byte. apply Z.leb_le. lia.
Qed.

Lemma is_utf8_from_S fuel text :
  text ≠ [] →
  is_utf8_from (S fuel) text =
    if (8 <=? length text)%nat && negb (has_non_ascii (load_word text))
    then is_utf8_from fuel (drop 8 text)
    else if negb (valid (decode_utf8 text)) then false
    else is_utf8_from fuel (drop (seq_length (decode_utf8 text)) text).
Proof. by destruct text. Qed.

Lemma is_utf8_from_spec fuel text :
  (length text ≤ fuel)%nat →
  is_utf8_from fuel text = true ↔ ∃ cps, scalars cps ∧ text = spell cps.
Proof.
  revert text. induction fuel as [|fuel IH]; intros text Hl.
  { destruct text; [|simpl in Hl; lia]. split; [|done]. intros _. exists []. by split. }
  destruct (decide (text = [])) as [->|Hne]; [split; [intros _; exists []; by split|done]|].
  rewrite is_utf8_from_S by done.
  destruct ((8 <=? length text)%nat && negb (has_non_ascii (load_word text))) eqn:E; cbv iota.
  - apply andb_true_iff in E as [El Ea]. apply negb_true_iff in Ea. bool_prop.
    assert (H8 : length (take 8 text) = 8%nat) by (rewrite length_take; lia).
    pose proof (has_non_ascii_word (take 8 text) H8 Ea) as Ha.
    rewrite IH by (rewrite length_drop; lia).
    split.
    + intros (cps & Hc & E8). exists ((uval <$> take 8 text) ++ cps).
      split; [apply Forall_app; split; [by apply scalars_ascii|done]|].
      rewrite spell_ascii_app, <- E8, take_drop by done. done.
    + intros (cps & Hc & E8). apply (spell_ascii_inv (take 8 text) _ cps); [done..|].
      by rewrite take_drop.
  - pose proof (decode_replacement_length text false Hne) as Hdec.
    fold (decode_utf8 text) in *.
    destruct (decode_utf8 text) as [cp len v] eqn:D. simpl in *.
    destruct v; simpl.
    + apply decode_valid in D as (Hs & rest & -> & ->).
      rewrite drop_app_length in *. rewrite IH by lia. split.
      * intros (cps & Hc & ->). exists (cp :: cps). split; [by constructor|]. done.
      * intros (cps & Hc & E'). destruct cps as [|cp' cps].
        { destruct (app_nil (put_code_point cp) rest) as [Hn _].
          destruct (Hn E') as [Hn' _]. by destruct (put_code_point_nonempty cp). }
        apply Forall_cons in Hc as [Hcp Hc]. rewrite spell_cons in E'.
        pose proof (decode_put cp rest false Hs) as D1. rewrite E', decode_put in D1 by done.
        injection D1 as <- _. apply app_inv_head in E'. by exists cps.
    + split; [done|]. intros (cps & Hc & E'). destruct cps as [|cp' cps]; [done|].
      apply Forall_cons in Hc as [Hcp Hc].
      unfold decode_utf8 in D. rewrite E', decode_spell in D by done. done.
Qed.

Lemma is_utf8_spec text :
  is_utf8 text = true ↔ ∃ cps, scalars cps ∧ text = spell cps.
Proof.
  unfold is_utf8. rewrite any_word_non_ascii.
  destruct (existsb non_ascii_byte text) eqn:E; simpl; [by apply is_utf8_from_spec|].
  split; [|done]. intros _. exists (uval <$> text).
  assert (Ha : Forall (λ b, uval b < 0x80) text).
  { apply Forall_forall. intros b Hb. destruct (decide (uval b < 128)); [done|].
    assert (existsb non_ascii_byte text = true); [|congruence].
    apply existsb_exists. exists b. split; [by apply list_elem_of_In|].
    apply Z.leb_le. lia. }
  split; [by apply scalars_ascii|].
  pose proof (spell_ascii_app text [] Ha) as E'. by rewrite !app_nil_r in E'.
Qed.

Lemma spell_inj cps cps' : scalars cps → scalars cps' → spell cps = spell cps' → cps = cps'.
Proof.
  intros Hc. revert cps'. induction Hc as [|cp cps Hcp Hc IH]; intros cps' Hc' E.
  - destruct cps' as [|cp' cps']; [done|]. rewrite spell_cons in E.
    symmetry in E. apply app_nil in E as [E _]. by destruct (put_code_point_nonempty cp').
  - destruct cps' as [|cp' cps'].
    { rewrite spell_cons in E. apply app_nil in E as [E _].
      by destruct (put_code_point_nonempty cp). }
    apply Forall_cons in Hc' as [Hcp' Hc'].
    pose proof (decode_spell cp cps false Hcp) as D. rewrite E, decode_spell in D by done.
    injection D as <- _. rewrite !spell_cons in E. apply app_inv_head in E.
    f_equal. by apply IH.
Qed.

(** [is_utf8], its word-at-a-time ASCII passes included, accepts exactly
    the texts that spell a list of Unicode scalar values, which is then the
    only list they spell. *)
Theorem is_utf8_correct text :
  is_utf8 text = true ↔ exists! cps, scalars cps ∧ text = spell cps.
Proof.
  rewrite is_utf8_spec. split.
  - intros (cps & Hc & ->). exists cps. split; [done|].
    intros cps' [Hc' E]. by apply spell_inj.
  - intros (cps & H & _). by exists cps.
Qed.

(** ** [replace_invalid_utf8] *)

Lemma replace_invalid_from_S fuel text :
  text ≠ [] →
  replace_invalid_from (S fuel) text =
    (if valid (decode_utf8 text) then take (seq_length (decode_utf8 text)) text
     else replacement_bytes)
    ++ replace_invalid_from fuel (drop (seq_length (decode_utf8 text)) text).
Proof. by destruct text. Qed.

Lemma replace_invalid_from_spec fuel text :
  (length text ≤ fuel)%nat →
  (∃ cps, scalars cps ∧ replace_invalid_from fuel text = spell cps) ∧
  ((∃ cps, scalars cps ∧ text = spell cps) → replace_invalid_from fuel text = text).
Proof.
  revert text. induction fuel as [|fuel IH]; intros text Hl.
  { destruct text; [|simpl in Hl; lia]. split; [exists []; by split|done]. }
  destruct (decide (text = [])) as [->|Hne]; [split; [exists []; by split|done]|].
  rewrite replace_invalid_from_S by done.
  pose proof (decode_replacement_length text false Hne) as Hdec.
  fold (decode_utf8 text) in Hdec.
  destruct (decode_utf8 text) as [cp len v] eqn:D. simpl in *.
  destruct (IH (drop len text) ltac:(lia)) as [(cps & Hc & E) Hid].
  destruct v; rewrite ?E.
  - apply decode_valid in D as (Hs & rest & -> & ->).
    rewrite take_app_length, drop_app_length in *.
    split; [exists (cp :: cps); split; [by constructor|done]|].
    intros (cps' & Hc' & E'). f_equal. rewrite <- E. apply Hid.
    destruct cps' as [|cp' cps'].
    { apply app_nil in E' as [E' _]. by destruct (put_code_point_nonempty cp). }
    apply Forall_cons in Hc' as [Hcp' Hc']. rewrite spell_cons in E'.
    pose proof (decode_put cp rest false Hs) as D1. rewrite E', decode_put in D1 by done.
    injection D1 as <- _. apply app_inv_head in E'. by exists cps'.
  - split.
    + exists (0xFFFD :: cps). split; [constructor; [|done]; split; [lia|right; lia]|done].
    + intros (cps' & Hc' & ->). destruct cps' as [|cp' cps']; [done|].
      apply Forall_cons in Hc' as [Hcp' _].
      unfold decode_utf8 in D. by rewrite decode_spell in D.
Qed.

(** [replace_invalid_utf8] always gives UTF-8, and changes a text only when
    it is not UTF-8 already. *)
Theorem replace_invalid_utf8_correct text :
  is_utf8 (replace_invalid_utf8 text) = true ∧
  (replace_invalid_utf8 text = text ↔ is_utf8 text = true).
Proof.
  destruct (replace_invalid_from_spec (length text) text ltac:(lia)) as [H1 H2].
  assert (H : is_utf8 (replace_invalid_utf8 text) = true)
    by (apply is_utf8_spec; exact H1).
  split; [done|]. split; [by intros <-|].
  intros H'. apply is_utf8_spec in H'. by apply H2.
Qed.

(** ** UTF-16 *)

Abbreviation units := (Forall (λ u : Z, 0 ≤ u < 0x10000)).

Lemma scalar_unit u : 0 ≤ u < 0x10000 → scalar true u.
Proof. split; [lia|by left]. Qed.

Lemma pair_code_point h l :
  0xD800 ≤ h ≤ 0xDBFF → 0xDC00 ≤ l ≤ 0xDFFF →
  0x10000 + Z.shiftl (h - 0xD800) 10 + (l - 0xDC00)
  = 0x10000 + (h - 0xD800) * 1024 + (l - 0xDC00).
Proof. intros. by rewrite Z.shiftl_mul_pow2 by lia. Qed.

(** The surrogates of a code point past the BMP. *)
Lemma code_point_pair cp :
  0x10000 ≤ cp ≤ 0x10FFFF →
  let h := 0xD800 + Z.shiftr (cp - 0x10000) 10 in
  let l := 0xDC00 + Z.land (cp - 0x10000) 0x3FF in
  0xD800 ≤ h ≤ 0xDBFF ∧ 0xDC00 ≤ l ≤ 0xDFFF ∧
  0x10000 + Z.shiftl (h - 0xD800) 10 + (l - 0xDC00) = cp.
Proof.
  intros Hcp h l. subst h l. rewrite shiftr_div, (land_mask _ 10) by lia.
  rewrite Z.shiftl_mul_pow2 by lia. change (2 ^ 10) with 1024. repeat split; dlia.
Qed.

Lemma pair_split h l :
  0xD800 ≤ h ≤ 0xDBFF → 0xDC00 ≤ l ≤ 0xDFFF →
  let cp := 0x10000 + Z.shiftl (h - 0xD800) 10 + (l - 0xDC00) in
  0x10000 ≤ cp ≤ 0x10FFFF ∧
  0xD800 + Z.shiftr (cp - 0x10000) 10 = h ∧ 0xDC00 + Z.land (cp - 0x10000) 0x3FF = l.
Proof.
  intros Hh Hl cp. subst cp. rewrite pair_code_point by done.
  rewrite shiftr_div, (land_mask _ 10) by lia. change (2 ^ 10) with 1024.
  repeat split; dlia.
Qed.

Lemma land_f0 b : (Z.land (uval b) 0xF0 =? 0xB0) = (0xB0 <=? uval b) && (uval b <=? 0xBF).
Proof.
  apply Bool.eqb_prop. revert b. by_bytes.
Qed.

Lemma spells_low_put cp rest :
  0 ≤ cp ≤ 0x10FFFF → spells_low_surrogate (put_code_point cp ++ rest) = low_surrogate cp.
Proof.
  intros Hcp. rewrite put_code_point_arith by done. unfold put_arith, low_surrogate.
  repeat case_if; bool_prop; cbn [fmap list_fmap app spells_low_surrogate].
  - destruct rest; rewrite ?uval_to_byte_small by dlia;
      [|rewrite (proj2 (Z.eqb_neq cp _)) by lia]; decide_tests; done.
  - rewrite land_f0, !uval_to_byte_small by dlia.
    rewrite (proj2 (Z.eqb_neq _ _)) by dlia. decide_tests. done.
  - rewrite land_f0, !uval_to_byte_small by dlia.
    destruct (0xE0 + cp / 4096 =? 0xED) eqn:E; bool_prop.
    + apply eq_true_iff_eq. rewrite !andb_true_iff, !Z.leb_le. split; dlia.
    + simpl. symmetry. apply andb_false_iff. rewrite !Z.leb_gt. dlia.
  - rewrite (uval_to_byte_small (240 + _)) by dlia.
    rewrite (proj2 (Z.eqb_neq _ _)) by dlia. decide_tests.
    by rewrite andb_false_r.
Qed.

Lemma high_surrogate_iff u : high_surrogate u = true ↔ 0xD800 ≤ u ≤ 0xDBFF.
Proof. unfold high_surrogate. rewrite andb_true_iff, !Z.leb_le. done. Qed.

Lemma low_surrogate_iff u : low_surrogate u = true ↔ 0xDC00 ≤ u ≤ 0xDFFF.
Proof. unfold low_surrogate. rewrite andb_true_iff, !Z.leb_le. done. Qed.

(** Whether the first two units make a surrogate pair. *)
Definition pair_at (u : Z) (us : list Z) : bool :=
  match us with
  | next :: _ => high_surrogate u && low_surrogate next
  | [] => false
  end.

Lemma from_utf16_single u us :
  pair_at u us = false → from_utf16 (u :: us) = put_code_point u ++ from_utf16 us.
Proof.
  destruct us as [|next us]; simpl; [by rewrite app_nil_r|]. by intros ->.
Qed.

Lemma from_utf16_pair h l us :
  high_surrogate h = true → low_surrogate l = true →
  from_utf16 (h :: l :: us) =
    put_code_point (0x10000 + Z.shiftl (h - 0xD800) 10 + (l - 0xDC00)) ++ from_utf16 us.
Proof. intros Hh Hl. simpl. by rewrite Hh, Hl. Qed.

(** What [from_utf16] writes spells a low surrogate first exactly when its
    first unit is one. *)
Lemma from_utf16_spells_low us :
  units us →
  spells_low_surrogate (from_utf16 us) =
    match us with u :: _ => low_surrogate u | [] => false end.
Proof.
  intros Hu. destruct us as [|u us]; [done|]. apply Forall_cons in Hu as [Hu Hus].
  destruct (pair_at u us) eqn:E.
  - destruct us as [|l us]; [done|]. simpl in E. bool_prop.
    rewrite from_utf16_pair by done.
    rewrite high_surrogate_iff, low_surrogate_iff in *.
    destruct (pair_split u l) as (Hcp & _); [done..|].
    rewrite spells_low_put by lia. unfold low_surrogate.
    decide_tests. done.
  - rewrite from_utf16_single by done. apply spells_low_put. lia.
Qed.

Lemma to_utf16_from_S fuel text :
  text ≠ [] →
  to_utf16_from (S fuel) text =
    let sequence := decode_sequence text true in
    if negb (valid sequence) then ([], false) else
    let rest := drop (seq_length sequence) text in
    let cp := code_point sequence in
    if high_surrogate cp && spells_low_surrogate rest then ([], false) else
    let us := if cp <? 0x10000 then [cp]
      else [0xD800 + Z.shiftr (cp - 0x10000) 10; 0xDC00 + Z.land (cp - 0x10000) 0x3FF] in
    let '(more, ok) := to_utf16_from fuel rest in (us ++ more, ok).
Proof. by destruct text. Qed.

Lemma to_utf16_from_put fuel cp rest us :
  scalar true cp → high_surrogate cp && spells_low_surrogate rest = false →
  to_utf16_from fuel rest = (us, true) →
  to_utf16_from (S fuel) (put_code_point cp ++ rest) =
    ((if cp <? 0x10000 then [cp]
      else [0xD800 + Z.shiftr (cp - 0x10000) 10; 0xDC00 + Z.land (cp - 0x10000) 0x3FF])
     ++ us, true).
Proof.
  intros Hs Hh E. rewrite to_utf16_from_S.
  2: { intros E'. apply app_nil in E' as [E' _]. by destruct (put_code_point_nonempty cp). }
  rewrite decode_put by done. cbv zeta. cbn [valid seq_length code_point negb].
  by rewrite drop_app_length, Hh, E.
Qed.

Lemma length_put_pos cp : (1 ≤ length (put_code_point cp))%nat.
Proof. unfold put_code_point. repeat case_if; simpl; lia. Qed.

Lemma to_from_utf16_fuel n us fuel :
  (length us ≤ n)%nat → units us → (length (from_utf16 us) ≤ fuel)%nat →
  to_utf16_from fuel (from_utf16 us) = (us, true).
Proof.
  revert us fuel. induction n as [|n IH]; intros us fuel Hn Hu Hf.
  { destruct us; [by destruct fuel|simpl in Hn; lia]. }
  destruct us as [|u us]; [by destruct fuel|].
  apply Forall_cons in Hu as [Hu Hus].
  destruct (pair_at u us) eqn:E.
  - destruct us as [|l us]; [done|]. apply Forall_cons in Hus as [Hl Hus].
    simpl in E. apply andb_true_iff in E as [Eh El].
    rewrite from_utf16_pair, length_app in Hf by done. rewrite from_utf16_pair by done.
    rewrite high_surrogate_iff in Eh. rewrite low_surrogate_iff in El.
    destruct (pair_split u l) as (Hcp & E1 & E2); [done..|].
    set (cp := 0x10000 + _ + _) in *. pose proof (length_put_pos cp).
    destruct fuel as [|fuel]; [lia|].
    erewrite to_utf16_from_put; [|by split; [lia|left]| |apply IH; [simpl in Hn; lia|done|lia]].
    + rewrite (proj2 (Z.ltb_ge _ _)), E1, E2 by lia. done.
    + unfold high_surrogate. decide_tests. done.
  - rewrite from_utf16_single, length_app in Hf by done. rewrite from_utf16_single by done.
    pose proof (length_put_pos u). destruct fuel as [|fuel]; [lia|].
    erewrite to_utf16_from_put; [|by apply scalar_unit| |apply IH; [simpl in Hn; lia|done|lia]].
    + rewrite (proj2 (Z.ltb_lt _ _)) by lia. done.
    + rewrite from_utf16_spells_low by done. destruct us; [apply andb_false_r|done].
Qed.

Lemma from_to_utf16_fuel fuel text us :
  (length text ≤ fuel)%nat → to_utf16_from fuel text = (us, true) →
  units us ∧ from_utf16 us = text.
Proof.
  revert text us. induction fuel as [|fuel IH]; intros text us Hl H.
  { destruct text; [|simpl in Hl; lia]. simpl in H. simplify_eq. by split. }
  destruct (decide (text = [])) as [->|Hne]; [simpl in H; simplify_eq; by split|].
  rewrite to_utf16_from_S in H by done. cbv zeta in H.
  pose proof (decode_replacement_length text true Hne) as Hdec.
  destruct (decode_sequence text true) as [cp len v] eqn:D. simpl in H, Hdec.
  destruct v; [|done]. simpl in H.
  apply decode_valid in D as (Hs & rest & -> & ->). rewrite drop_app_length in *.
  destruct (high_surrogate cp && spells_low_surrogate rest) eqn:Ep; [done|].
  destruct (to_utf16_from fuel rest) as [more ok] eqn:Er. simplify_eq.
  destruct (IH rest more ltac:(lia) Er) as [Hm <-]. destruct Hs as [Hcp _].
  destruct (cp <? 65536) eqn:E; bool_prop; cbn [app].
  - split; [constructor; [lia|done]|]. rewrite from_utf16_single; [done|].
    rewrite from_utf16_spells_low in Ep by done. by destruct more.
  - destruct (code_point_pair cp) as (Hh & Hlo & Ecp); [lia|].
    split; [constructor; [lia|]; constructor; [lia|done]|].
    rewrite from_utf16_pair, Ecp;
      [done|by apply high_surrogate_iff|by apply low_surrogate_iff].
Qed.

(** [to_utf16] and [from_utf16] are inverse: any units, lone surrogates
    included, come back from the WTF-8 [from_utf16] writes, and a text
    [to_utf16] accepts is the one [from_utf16] writes for its units. *)
Theorem utf16_roundtrip :
  (∀ us, units us → to_utf16 (from_utf16 us) = (us, true)) ∧
  (∀ text us, to_utf16 text = (us, true) → units us ∧ from_utf16 us = text).
Proof.
  split.
  - intros us Hu. by apply (to_from_utf16_fuel (length us)).
  - intros text us. by apply from_to_utf16_fuel.
Qed.

Lemma put_unit_length u : 0 ≤ u < 0x10000 → (length (put_code_point u) ≤ 3)%nat.
Proof. intros. rewrite put_code_point_length by lia. repeat case_if; bool_prop; lia. Qed.

Lemma from_utf16_length n us :
  (length us ≤ n)%nat → units us → (length (from_utf16 us) ≤ length us * 3)%nat.
Proof.
  revert us. induction n as [|n IH]; intros us Hn Hu;
    [destruct us; simpl in *; lia|].
  destruct us as [|u us]; [done|]. apply Forall_cons in Hu as [Hu Hus].
  destruct (pair_at u us) eqn:E.
  - destruct us as [|l us]; [done|]. apply Forall_cons in Hus as [Hl Hus].
    simpl in E. apply andb_true_iff in E as [Eh El].
    rewrite from_utf16_pair, length_app by done.
    rewrite high_surrogate_iff in Eh. rewrite low_surrogate_iff in El.
    destruct (pair_split u l) as (Hcp & _); [done..|].
    rewrite put_code_point_length by lia. decide_tests.
    specialize (IH us ltac:(simpl in Hn; lia) Hus). simpl in *. lia.
  - rewrite from_utf16_single, length_app by done. pose proof (put_unit_length u Hu).
    specialize (IH us ltac:(simpl in Hn; lia) Hus). simpl in *. lia.
Qed.

Lemma to_utf16_from_length fuel text : (length (to_utf16_from fuel text).1 ≤ length text)%nat.
Proof.
  revert text. induction fuel as [|fuel IH]; intros text; [simpl; lia|].
  destruct (decide (text = [])) as [->|Hne]; [simpl; lia|].
  rewrite to_utf16_from_S by done. cbv zeta.
  destruct (decode_sequence text true) as [cp len v] eqn:D. simpl.
  destruct v; simpl; [|lia]. case_if; [simpl; lia|].
  apply decode_valid in D as ((Hcp & _) & rest & -> & ->). rewrite drop_app_length.
  specialize (IH rest). destruct (to_utf16_from fuel rest) as [more ok].
  simpl in *. rewrite !length_app. pose proof (put_code_point_length cp Hcp).
  pose proof (length_put_pos cp).
  destruct (cp <? 65536) eqn:E; bool_prop; [simpl; lia|].
  rewrite (proj2 (Z.ltb_ge cp _)) in H by lia. rewrite (proj2 (Z.ltb_ge cp _)) in H by lia.
  simpl. lia.
Qed.

(** The room the conversions reserve is enough: [from_utf16] writes at most
    three bytes for a unit and [to_utf16] at most one unit for a byte, whether
    it succeeds or stops at an ill-formed sequence, so no write is past the
    buffer. *)
Theorem utf16_room us text :
  units us →
  (length (from_utf16 us) ≤ length us * 3)%nat ∧
  (length (to_utf16 text).1 ≤ length text)%nat.
Proof.
  intros Hu. split; [by apply (from_utf16_length (length us))|apply to_utf16_from_length].
Qed.

Definition sample_units : list Z := [0x41; 0xD83D; 0xDE00; 0xDC00].

Lemma utf16_room_witness :
  length (from_utf16 sample_units) = 8%nat ∧
  (length (from_utf16 sample_units) ≤ length sample_units * 3)%nat.
Proof.
  split; [vm_compute; reflexivity|].
  apply (utf16_room sample_units [x41]). repeat constructor; lia.
Defined.
