(* ===== verification/Naming.v ===== *)
(** Identifier spellings: include/kotatsu/support/naming.h.

    The character classes, the rename policies and the tables of names they
    spell at compile time.  The policies write into a buffer with room for
    twice the name; the buffer is the list of bytes written so far, and the
    camel case policy, which rewrites its own input in place, works on a buffer
    updated by index ([camel_loop]).  The theorems show the room is enough,
    what a snake case name looks like, that snake case is stable, that the
    in-place rewriting equals a pass over a copy, and that both ways a table is
    built give each name its spelling. *)

From Stdlib Require Import Strings.Byte ZArith Lia Bool.
From stdpp Require Import prelude strings.
From S2P Require Import Prelude.
Local Open Scope kota_scope.

(** ** Character classes *)

Definition is_lower (c : byte) : bool := in_range 97 122 c.
Definition is_upper (c : byte) : bool := in_range 65 90 c.
Definition is_digit (c : byte) : bool := in_range 48 57 c.
Definition is_alpha (c : byte) : bool := is_lower c || is_upper c.
Definition is_alnum (c : byte) : bool := is_alpha c || is_digit c.

Definition to_lower (c : byte) : byte :=
  if is_upper c then to_byte (uval c - 65 + 97) else c.
Definition to_upper (c : byte) : byte :=
  if is_lower c then to_byte (uval c - 97 + 65) else c.

Definition is_non_ascii (c : byte) : bool := (0x80 <=? uval c)%Z.

Definition underscore : byte := "_"%byte.

(** [out.back() != '_'] on a buffer that is not empty, and false on an empty
    one: [n != 0 && out[n - 1] != '_']. *)
Definition in_word (out : bytes) : bool :=
  match last out with
  | Some c => negb (c =?b underscore)
  | None => false
  end.

(** ** [normalize_identifier] *)

Fixpoint squeeze (text out : bytes) : bytes :=
  match text with
  | [] => out
  | c :: text' =>
      if is_alnum c then squeeze text' (out ++ [c])
      else if (match out with [] => true | _ => false end) || in_word out
      then squeeze text' (out ++ [underscore])
      else squeeze text' out
  end.

(** [while(!out.empty() && out.back() == '_') out.pop_back()], on the bytes in
    reverse. *)
Fixpoint drop_underscores (rout : bytes) : bytes :=
  match rout with
  | c :: rout' => if c =?b underscore then drop_underscores rout' else rout
  | [] => []
  end.

Definition normalize_identifier (text : bytes) : bytes :=
  let out := reverse (drop_underscores (reverse (squeeze text []))) in
  match out with
  | [] => lit "unnamed"
  | c :: _ => if is_digit c then underscore :: out else out
  end.

(** ** The rename policies *)

Definition identity (value : bytes) : bytes := value.

(** Whether the byte at [i - 1], if any, is one a capital after it starts a
    new word behind. *)
Definition word_byte_before (prev : option byte) : bool :=
  match prev with
  | Some p => is_lower p || is_non_ascii p || is_digit p
  | None => false
  end.

Definition lower_next (rest : bytes) : bool :=
  match rest with
  | n :: _ => is_lower n
  | [] => false
  end.

(** The loop of [lower_snake::write]: [prev] is the byte before [text]. *)
Fixpoint snake_loop (prev : option byte) (text out : bytes) : bytes :=
  match text with
  | [] => out
  | c :: rest =>
      let out' :=
        if is_upper c then
          let sep := in_word out && (word_byte_before prev || lower_next rest) in
          out ++ (if sep then [underscore] else []) ++ [to_lower c]
        else if is_lower c || is_digit c || is_non_ascii c then out ++ [c]
        else if in_word out then out ++ [underscore]
        else out in
      snake_loop (Some c) rest out'
  end.

Definition lower_snake_write (text : bytes) : bytes :=
  let out := snake_loop None text [] in
  match last out with
  | Some c => if c =?b underscore then take (length out - 1) out else out
  | None => out
  end.

(** [writes_names::operator()]: a buffer of twice the name's size, cut to what
    was written. *)
Definition lower_snake (text : bytes) : bytes := lower_snake_write text.

(** The loop of [camel::write] over the first [count] bytes of [buf], the
    snake case name, from index [i] on, writing over it at [n]. *)
Fixpoint camel_loop (upper_first : bool) (count i n : nat)
    (capitalize_next seen_output : bool) (buf : bytes) : nat * bytes :=
  match count with
  | O => (n, buf)
  | S count' =>
      match buf !! i with
      | None => (n, buf)
      | Some c =>
          if c =?b underscore then
            camel_loop upper_first count' (S i) n true seen_output buf
          else
            let c' :=
              if capitalize_next && is_alpha c then to_upper c
              else if negb seen_output then (if upper_first then to_upper c else to_lower c)
              else c in
            camel_loop upper_first count' (S i) (S n) false true (<[n := c']> buf)
      end
  end.

Definition camel_write (upper_first : bool) (text : bytes) : bytes :=
  let snake := lower_snake_write text in
  let '(n, buf) := camel_loop upper_first (length snake) 0 0 upper_first false snake in
  take n buf.

Definition lower_camel (text : bytes) : bytes := camel_write false text.
Definition upper_camel (text : bytes) : bytes := camel_write true text.

Definition upper_snake (text : bytes) : bytes := to_upper <$> lower_snake_write text.

Definition normalize_to_lower_snake (text : bytes) : bytes := lower_snake text.

Definition snake_to_camel (text : bytes) (upper_first : bool) : bytes :=
  if upper_first then upper_camel text else lower_camel text.

Definition snake_to_upper (text : bytes) : bytes := upper_snake text.

Inductive Casing :=
| Identity
| LowerSnake
| LowerCamel
| UpperCamel
| UpperSnake.

Definition casing_fn (casing : Casing) : bytes → bytes :=
  match casing with
  | Identity => identity
  | LowerSnake => lower_snake
  | LowerCamel => lower_camel
  | UpperCamel => upper_camel
  | UpperSnake => upper_snake
  end.

(** ** Tables of renamed names *)

(** A view [(chars + begin, end - begin)] for each of the consecutive [ends]. *)
Fixpoint views (chars : bytes) (ends : list nat) : list bytes :=
  match ends with
  | b :: ((e :: _) as rest) => substr chars b (e - b) :: views chars rest
  | _ => []
  end.

(** [ends]: where each name ends, after a 0 where the first begins. *)
Fixpoint name_ends (from : nat) (spelled : list bytes) : list nat :=
  match spelled with
  | [] => [from]
  | s :: spelled' => from :: name_ends (from + length s) spelled'
  end.

(** The table of any policy: each name is spelled once for [ends] and once for
    [chars]. *)
Definition renamed_table (policy : bytes → bytes) (names : list bytes) : list bytes :=
  views (mjoin (policy <$> names)) (name_ends 0 (policy <$> names)).

(** Writes [s] into [chars] at [at_]. *)
Fixpoint write_at (chars : bytes) (at_ : nat) (s : bytes) : bytes :=
  match s with
  | [] => chars
  | c :: s' => write_at (<[at_ := c]> chars) (S at_) s'
  end.

(** The draft of a built-in policy: the names written one after another into a
    buffer of twice their size, and their ends. *)
Fixpoint draft_loop (policy : bytes → bytes) (names : list bytes)
    (chars : bytes) (ends : list nat) (at_ : nat) : bytes * list nat :=
  match names with
  | [] => (chars, ends)
  | name :: names' =>
      let s := policy name in
      draft_loop policy names' (write_at chars at_ s) (ends ++ [(at_ + length s)%nat])
        (at_ + length s)
  end.

Definition room (names : list bytes) : nat := sum_list_with (λ s, (length s * 2)%nat) names.

Definition renamed_table_built_in (policy : bytes → bytes) (names : list bytes) : list bytes :=
  let '(draft, ends) := draft_loop policy names (replicate (room names) x00) [0%nat] 0 in
  let chars := take (default 0%nat (last ends)) draft in
  views chars ends.

(** [distinct]: whether no name is listed twice. *)
Fixpoint distinct (names : list bytes) : bool :=
  match names with
  | [] => true
  | n :: names' => negb (existsb (λ m, bool_decide (n = m)) names') && distinct names'
  end.

(** ** The form of a name *)

(** Words of [p] bytes joined by single underscores; [w] says whether an
    underscore may come first. *)
Fixpoint form (p : byte → bool) (w : bool) (s : bytes) : bool :=
  match s with
  | [] => true
  | c :: s' =>
      if c =?b underscore then w && form p false s' else p c && form p true s'
  end.

(** Whether an underscore may follow [s]. *)
Definition flag (w : bool) (s : bytes) : bool :=
  match last s with
  | Some c => negb (c =?b underscore)
  | None => w
  end.

Definition snake_byte (c : byte) : bool := is_lower c || is_digit c || is_non_ascii c.

(** What a lower snake case name looks like: words of lowercase letters,
    digits and UTF-8 bytes, joined by one underscore, with none at either
    end. *)
Definition snake_name (s : bytes) : bool :=
  form snake_byte false s && (bool_decide (s = []) || in_word s).

Lemma flag_false s : flag false s = in_word s.
Proof. done. Qed.

Lemma flag_snoc w s c : flag w (s ++ [c]) = negb (c =?b underscore).
Proof. unfold flag. by rewrite last_snoc. Qed.

Lemma flag_cons w s c : flag w (c :: s) = flag (negb (c =?b underscore)) s.
Proof. unfold flag. rewrite last_cons. by destruct (last s). Qed.

Lemma form_app p w s t : form p w (s ++ t) = form p w s && form p (flag w s) t.
Proof.
  revert w. induction s as [|c s IH]; intros w; [done|].
  rewrite <- app_comm_cons, flag_cons. cbn [form].
  destruct (c =?b underscore); rewrite IH; by rewrite andb_assoc.
Qed.

Lemma form_snoc p w s c :
  form p w (s ++ [c]) =
  form p w s && (if c =?b underscore then flag w s else p c).
Proof.
  rewrite form_app. f_equal. simpl. by destruct (c =?b underscore); rewrite andb_true_r.
Qed.

(** Facts of single bytes, decided by computation. *)
Lemma snake_byte_facts c :
  (negb (snake_byte c) || (negb (c =?b underscore) && negb (is_upper c))) = true.
Proof. revert c. by_bytes. Qed.

Lemma to_lower_snake_byte c : (negb (is_upper c) || snake_byte (to_lower c)) = true.
Proof. revert c. by_bytes. Qed.

Lemma alnum_not_underscore c : (negb (is_alnum c) || negb (c =?b underscore)) = true.
Proof. revert c. by_bytes. Qed.

Lemma snake_byte_word c : snake_byte c = true → (c =?b underscore) = false ∧ is_upper c = false.
Proof.
  intros H. pose proof (snake_byte_facts c) as F. rewrite H in F. simpl in F. bool_prop. done.
Qed.

Lemma to_lower_word c : is_upper c = true → snake_byte (to_lower c) = true.
Proof. intros H. pose proof (to_lower_snake_byte c) as F. by rewrite H in F. Qed.

(** ** Lower snake case *)

Lemma form_word out c :
  form snake_byte false out = true → snake_byte c = true →
  form snake_byte false (out ++ [c]) = true.
Proof.
  intros Hf Hc. rewrite form_snoc, Hf. destruct (snake_byte_word c Hc) as [-> _]. done.
Qed.

Lemma form_sep out :
  form snake_byte false out = true → in_word out = true →
  form snake_byte false (out ++ [underscore]) = true.
Proof. intros Hf Hw. by rewrite form_snoc, Hf, flag_false, Hw. Qed.

Lemma snake_loop_form prev text out :
  form snake_byte false out = true → form snake_byte false (snake_loop prev text out) = true.
Proof.
  revert prev out. induction text as [|c rest IH]; intros prev out Hf; [done|].
  cbn [snake_loop]. apply IH.
  destruct (is_upper c) eqn:Eu.
  - apply to_lower_word in Eu.
    destruct (in_word out) eqn:Ew; cbn [andb]; [|by apply form_word].
    case_if; [|by apply form_word].
    rewrite app_assoc. by apply form_word; [apply form_sep|].
  - case_if; [by apply form_word|]. case_if; [by apply form_sep|done].
Qed.

Lemma form_take p w s n : form p w s = true → form p w (take n s) = true.
Proof.
  intros H. rewrite <- (take_drop n s), form_app in H. by bool_prop.
Qed.

Lemma form_drop_last p w s c :
  form p w (s ++ [c]) = true → (c =?b underscore) = true → flag w s = true.
Proof. rewrite form_snoc. intros H Hc. rewrite Hc in H. by bool_prop. Qed.

Lemma lower_snake_write_snoc text s c :
  snake_loop None text [] = s ++ [c] →
  lower_snake_write text = if c =?b underscore then s else s ++ [c].
Proof.
  intros E. unfold lower_snake_write. rewrite E, last_snoc.
  case_if; [|done]. rewrite length_app. simpl.
  replace (length s + 1 - 1)%nat with (length s) by lia. by rewrite take_app_length.
Qed.

Lemma lower_snake_name text : snake_name (lower_snake text) = true.
Proof.
  unfold lower_snake, snake_name.
  pose proof (snake_loop_form None text [] eq_refl) as Hf.
  destruct (snake_loop None text []) as [|c s _] eqn:E using rev_ind.
  { unfold lower_snake_write. by rewrite E. }
  rewrite (lower_snake_write_snoc _ _ _ E).
  destruct (c =?b underscore) eqn:Ec.
  - rewrite form_snoc, Ec in Hf. apply andb_true_iff in Hf as [-> Hf].
    rewrite flag_false in Hf. by rewrite Hf, orb_true_r.
  - rewrite Hf. unfold in_word. by rewrite last_snoc, Ec, orb_true_r.
Qed.

Lemma snake_loop_id prev text out :
  form snake_byte (in_word out) text = true → snake_loop prev text out = out ++ text.
Proof.
  revert prev out. induction text as [|c rest IH]; intros prev out Hf; [by rewrite app_nil_r|].
  cbn [snake_loop form] in *. destruct (c =?b underscore) eqn:Ec.
  - apply byte_eqb_spec in Ec as ->. change (is_upper underscore) with false.
    change (is_lower underscore || is_digit underscore || is_non_ascii underscore) with false.
    cbv iota. apply andb_true_iff in Hf as [-> Hf]. rewrite IH, <- app_assoc; [done|].
    by rewrite <- flag_false, flag_snoc.
  - apply andb_true_iff in Hf as [Hc Hf]. destruct (snake_byte_word c Hc) as [_ ->].
    unfold snake_byte in Hc. rewrite Hc, IH, <- app_assoc; [done|].
    by rewrite <- flag_false, flag_snoc, Ec.
Qed.

Lemma lower_snake_id text : snake_name text = true → lower_snake text = text.
Proof.
  unfold snake_name. intros H. bool_prop. unfold lower_snake.
  destruct text as [|c s _] using rev_ind; [done|].
  rewrite (lower_snake_write_snoc _ s c) by (by rewrite snake_loop_id).
  apply orb_true_iff in H0 as [H0|H0]; [bool_prop; by destruct s|].
  unfold in_word in H0. rewrite last_snoc in H0. bool_prop. by rewrite H0.
Qed.

Lemma snake_loop_length prev text out :
  (length (snake_loop prev text out) ≤ length out + 2 * length text)%nat.
Proof.
  revert prev out. induction text as [|c rest IH]; intros prev out; simpl; [lia|].
  etrans; [apply IH|].
  repeat case_if; rewrite ?length_app; simpl; try lia.
Qed.

Lemma lower_snake_length text : (length (lower_snake text) ≤ length text * 2)%nat.
Proof.
  pose proof (snake_loop_length None text []). unfold lower_snake, lower_snake_write.
  simpl in *. destruct (last _); [case_if|]; rewrite ?length_take; lia.
Qed.

(** ** Camel case *)

(** Camel case as a pass over the snake case name that writes elsewhere. *)
Fixpoint camel_ref (upper_first capitalize_next seen_output : bool) (snake : bytes) : bytes :=
  match snake with
  | [] => []
  | c :: rest =>
      if c =?b underscore then camel_ref upper_first true seen_output rest
      else
        (if capitalize_next && is_alpha c then to_upper c
         else if negb seen_output then (if upper_first then to_upper c else to_lower c)
         else c) :: camel_ref upper_first false true rest
  end.

Lemma camel_loop_ref u count i n cap seen buf :
  (i + count = length buf)%nat → (n ≤ i)%nat →
  let '(n', buf') := camel_loop u count i n cap seen buf in
  take n' buf' = take n buf ++ camel_ref u cap seen (drop i buf) ∧ (n' ≤ length buf)%nat.
Proof.
  revert i n cap seen buf. induction count as [|count IH]; intros i n cap seen buf Hl Hn.
  { simpl. rewrite drop_ge by lia. simpl. rewrite app_nil_r. split; [done|lia]. }
  destruct (lookup_lt_is_Some_2 buf i ltac:(lia)) as [c Hc].
  cbn [camel_loop]. rewrite Hc, (drop_S buf c i Hc). cbn [camel_ref].
  destruct (c =?b underscore).
  - apply IH; lia.
  - set (c' := if cap && is_alpha c then _ else _).
    specialize (IH (S i) (S n) false true (<[n := c']> buf)).
    rewrite length_insert in IH. specialize (IH ltac:(lia) ltac:(lia)).
    destruct (camel_loop _ _ _ _ _ _ _) as [n' buf']. destruct IH as [-> ?]. split; [|done].
    rewrite (take_S_r _ n c') by (apply list_lookup_insert_eq; lia).
    rewrite take_insert_ge, drop_insert_lt by lia.
    by rewrite <- app_assoc.
Qed.

Lemma camel_write_ref u text : camel_write u text = camel_ref u u false (lower_snake text).
Proof.
  unfold camel_write, lower_snake.
  pose proof (camel_loop_ref u (length (lower_snake_write text)) 0 0 u false
                (lower_snake_write text) ltac:(lia) ltac:(lia)) as H.
  destruct (camel_loop _ _ _ _ _ _ _) as [n buf]. by destruct H as [-> _].
Qed.

Lemma camel_ref_length u cap seen s : (length (camel_ref u cap seen s) ≤ length s)%nat.
Proof.
  revert cap seen. induction s as [|c s IH]; intros cap seen; simpl; [lia|].
  case_if; simpl; [specialize (IH true seen) | specialize (IH false true)]; lia.
Qed.

Lemma case_not_underscore c :
  ((c =?b underscore) || (negb (to_upper c =?b underscore) && negb (to_lower c =?b underscore)))
  = true.
Proof. revert c. by_bytes. Qed.

Lemma camel_ref_words u cap seen s : underscore ∉ camel_ref u cap seen s.
Proof.
  revert cap seen. induction s as [|c s IH]; intros cap seen; simpl; [apply not_elem_of_nil|].
  destruct (c =?b underscore) eqn:Ec; [apply IH|].
  pose proof (case_not_underscore c) as F. rewrite Ec in F. simpl in F. bool_prop.
  rewrite byte_eqb_neq in *. apply not_elem_of_cons. split; [|apply IH].
  repeat case_if; congruence.
Qed.

(** ** Identifiers *)

Definition ident_byte (c : byte) : bool := is_alnum c || (c =?b underscore).

(** A non-empty identifier: letters, digits and underscores, not starting with
    a digit. *)
Definition identifier (s : bytes) : bool :=
  match s with
  | [] => false
  | c :: _ => negb (is_digit c) && forallb ident_byte s
  end.

Lemma squeeze_flag (out : bytes) :
  (match out with [] => true | _ => false end) || in_word out = flag true out.
Proof.
  destruct out as [|c out _] using rev_ind; [done|].
  unfold in_word, flag. rewrite last_snoc. by destruct out.
Qed.

Lemma alnum_word c : is_alnum c = true → (c =?b underscore) = false.
Proof.
  intros H. pose proof (alnum_not_underscore c) as F. rewrite H in F. simpl in F. by bool_prop.
Qed.

Lemma squeeze_form text out :
  form is_alnum true out = true → form is_alnum true (squeeze text out) = true.
Proof.
  revert out. induction text as [|c text IH]; intros out Hf; [done|].
  cbn [squeeze]. rewrite squeeze_flag. destruct (is_alnum c) eqn:Ea.
  - apply IH. by rewrite form_snoc, Hf, (alnum_word c Ea), Ea.
  - destruct (flag true out) eqn:Ew; apply IH; [|done].
    by rewrite form_snoc, Hf, byte_eqb_refl.
Qed.

Lemma squeeze_id text out :
  form is_alnum (flag true out) text = true → squeeze text out = out ++ text.
Proof.
  revert out. induction text as [|c text IH]; intros out Hf; [by rewrite app_nil_r|].
  cbn [squeeze form] in *. rewrite squeeze_flag. destruct (c =?b underscore) eqn:Ec.
  - apply byte_eqb_spec in Ec as ->. change (is_alnum underscore) with false. cbv iota.
    apply andb_true_iff in Hf as [-> Hf]. rewrite IH, <- app_assoc; [done|].
    by rewrite flag_snoc.
  - apply andb_true_iff in Hf as [-> Hf]. rewrite IH, <- app_assoc; [done|].
    by rewrite flag_snoc, Ec.
Qed.

(** The underscores dropped are those at the end. *)
Lemma drop_underscores_last s :
  let out := reverse (drop_underscores (reverse s)) in
  (∃ k, out = take k s) ∧ (out = [] ∨ in_word out = true).
Proof.
  induction s as [|c s IH] using rev_ind; simpl.
  - split; [by exists 0%nat|by left].
  - rewrite reverse_snoc. simpl. destruct (c =?b underscore) eqn:Ec.
    + destruct IH as [[k Hk] Hw]. split; [|done].
      exists (min k (length s)). rewrite Hk.
      rewrite take_app_le by lia. destruct (Nat.min_spec k (length s)) as [[? ->]|[? ->]]; [done|].
      by rewrite !take_ge by lia.
    + rewrite reverse_cons, reverse_involutive. split.
      * exists (length (s ++ [c])). by rewrite firstn_all.
      * right. unfold in_word. by rewrite last_snoc, Ec.
Qed.

Lemma drop_underscores_id s :
  s = [] ∨ in_word s = true → reverse (drop_underscores (reverse s)) = s.
Proof.
  destruct s as [|c s _] using rev_ind; [done|]. intros [H|H]; [by destruct s|].
  unfold in_word in H. rewrite last_snoc in H. rewrite reverse_snoc. simpl.
  apply negb_true_iff in H. rewrite H. by rewrite reverse_cons, reverse_involutive.
Qed.

Lemma form_ident w s : form is_alnum w s = true → forallb ident_byte s = true.
Proof.
  revert w. induction s as [|c s IH]; intros w H; [done|].
  cbn [form forallb] in *. unfold ident_byte at 1.
  destruct (c =?b underscore); bool_prop; rewrite (IH _ H0), ?orb_true_r; [done|].
  by rewrite H.
Qed.

Lemma digit_alnum c : is_digit c = true → is_alnum c = true.
Proof. unfold is_alnum. intros ->. apply orb_true_r. Qed.

Lemma normalize_identifier_stable s :
  form is_alnum true s = true → s ≠ [] → in_word s = true →
  (match s with c :: _ => is_digit c | [] => false end) = false →
  normalize_identifier s = s.
Proof.
  intros Hf Hne Hw Hd. unfold normalize_identifier.
  rewrite (squeeze_id s []) by done. simpl app.
  rewrite drop_underscores_id by (by right). destruct s; [done|]. by rewrite Hd.
Qed.

Lemma in_word_cons c s : in_word s = true → in_word (c :: s) = true.
Proof. unfold in_word. rewrite last_cons. by destruct (last s). Qed.

(** ** Tables *)

Lemma views_cons chars b e rest :
  views chars (b :: e :: rest) = substr chars b (e - b) :: views chars (e :: rest).
Proof. done. Qed.

Lemma views_ends pre ss :
  views (pre ++ mjoin ss) (name_ends (length pre) ss) = ss.
Proof.
  revert pre. induction ss as [|s ss IH]; intros pre; [done|].
  assert (E : ∃ ends, name_ends (length pre + length s) ss = (length pre + length s)%nat :: ends)
    by (destruct ss; simpl; eauto).
  destruct E as [ends E]. cbn [name_ends]. rewrite E, views_cons, <- E.
  f_equal.
  - unfold substr. rewrite drop_app_length. cbn [mjoin list_join].
    replace (length pre + length s - length pre)%nat with (length s) by lia.
    apply take_app_length.
  - cbn [mjoin list_join]. rewrite app_assoc, <- length_app. apply IH.
Qed.

Lemma write_at_spec s pre junk at_ :
  at_ = length pre → (length s ≤ length junk)%nat →
  write_at (pre ++ junk) at_ s = pre ++ s ++ drop (length s) junk.
Proof.
  revert pre junk at_. induction s as [|c s IH]; intros pre junk at_ -> Hl; [done|].
  destruct junk as [|j junk]; simpl in Hl; [lia|]. cbn [write_at].
  rewrite insert_app_r_alt, Nat.sub_diag by lia. simpl.
  rewrite (cons_middle c pre junk), app_assoc, IH; [by rewrite <- app_assoc| |lia].
  rewrite length_app. simpl. lia.
Qed.

Section Draft.
Context (policy : bytes → bytes) (Hroom : ∀ s, (length (policy s) ≤ length s * 2)%nat).

Lemma draft_loop_spec names pre junk ends at_ :
  at_ = length pre → (room names ≤ length junk)%nat →
  ∃ junk', draft_loop policy names (pre ++ junk) (ends ++ [at_]) at_ =
    (pre ++ mjoin (policy <$> names) ++ junk', ends ++ name_ends at_ (policy <$> names)).
Proof.
  revert pre junk ends at_. induction names as [|name names IH]; intros pre junk ends at_ -> Hl.
  { exists junk. done. }
  cbn [draft_loop]. unfold room in Hl. simpl in Hl. pose proof (Hroom name).
  rewrite write_at_spec by (done || lia).
  destruct (IH (pre ++ policy name) (drop (length (policy name)) junk) (ends ++ [length pre])
             (length pre + length (policy name))) as [junk' E].
  - by rewrite length_app.
  - rewrite length_drop. unfold room. lia.
  - exists junk'. rewrite <- app_assoc in E. rewrite E. cbn [fmap list_fmap mjoin list_join].
    rewrite <- !app_assoc. done.
Qed.

Lemma last_name_ends from ss :
  last (name_ends from ss) = Some (from + length (mjoin ss))%nat.
Proof.
  revert from. induction ss as [|s ss IH]; intros from; [simpl; f_equal; lia|].
  cbn [name_ends mjoin list_join]. rewrite last_cons, IH, length_app.
  cbn [default from_option id]. f_equal. symmetry. apply Nat.add_assoc.
Qed.

Lemma renamed_built_in names : renamed_table_built_in policy names = policy <$> names.
Proof.
  unfold renamed_table_built_in.
  destruct (draft_loop_spec names [] (replicate (room names) x00) [] 0) as [junk E];
    [done|by rewrite length_replicate|].
  simpl in E. rewrite E, last_name_ends. simpl. rewrite take_app_length.
  apply (views_ends []).
Qed.
End Draft.

Lemma policy_room casing s :
  casing ≠ Identity → (length (casing_fn casing s) ≤ length s * 2)%nat.
Proof.
  intros Hc. pose proof (lower_snake_length s).
  destruct casing; simpl; try done.
  - unfold lower_camel. rewrite camel_write_ref. etrans; [apply camel_ref_length|done].
  - unfold upper_camel. rewrite camel_write_ref. etrans; [apply camel_ref_length|done].
  - unfold upper_snake. by rewrite length_fmap.
Qed.

(** ** Properties *)

(** A name in lower snake case is words of lowercase letters, digits and
    UTF-8 bytes joined by one underscore with none at either end, whatever the
    text it was spelled from; and a name of that form is spelled as it is, so
    renaming twice is renaming once. *)
Theorem lower_snake_correct text :
  snake_name (lower_snake text) = true ∧
  (snake_name text = true ↔ lower_snake text = text).
Proof.
  pose proof (lower_snake_name text) as H. split; [done|].
  split; [apply lower_snake_id|]. by intros <-.
Qed.

(** The buffer of twice a name's size has room for every byte the policies
    write: for the separator [lower_snake] drops again at the end too, and for
    the camel case and upper snake case names written over it. *)
Theorem rename_room text casing :
  (length (snake_loop None text []) ≤ length text * 2)%nat ∧
  (casing ≠ Identity → (length (casing_fn casing text) ≤ length text * 2)%nat).
Proof.
  split; [|apply policy_room].
  pose proof (snake_loop_length None text []) as H. simpl in H. lia.
Qed.

(** Camel case may be written over the snake case name it reads: the loop
    that rewrites its own buffer gives what a pass into another buffer gives,
    a name no longer than the snake case one and without underscores. *)
Theorem camel_in_place upper_first text :
  camel_write upper_first text = camel_ref upper_first upper_first false (lower_snake text) ∧
  underscore ∉ camel_write upper_first text ∧
  (length (camel_write upper_first text) ≤ length (lower_snake text))%nat.
Proof.
  rewrite camel_write_ref. split; [done|]. split; [apply camel_ref_words|].
  apply camel_ref_length.
Qed.

(** The compile-time tables hold each name's spelling, in order: the table
    of any policy, spelled twice, and the one a built-in policy fills by way of
    an over-sized draft. *)
Theorem renamed_tables_correct casing policy names :
  casing ≠ Identity →
  renamed_table policy names = policy <$> names ∧
  renamed_table_built_in (casing_fn casing) names = casing_fn casing <$> names.
Proof.
  intros Hc. split; [apply (views_ends [])|].
  apply renamed_built_in. intros s. by apply policy_room.
Qed.

Lemma renamed_tables_correct_witness :
  renamed_table_built_in (casing_fn UpperCamel) [lit "http_server"; lit "v2Go"]
  = [lit "HttpServer"; lit "V2Go"].
Proof.
  exact (proj2 (renamed_tables_correct UpperCamel identity
                  [lit "http_server"; lit "v2Go"] ltac:(discriminate))).
Defined.

(** [normalize_identifier] always gives an identifier, and leaves the
    identifiers it gives as they are. *)
Theorem normalize_identifier_correct text :
  identifier (normalize_identifier text) = true ∧
  normalize_identifier (normalize_identifier text) = normalize_identifier text.
Proof.
  unfold normalize_identifier at 1 3 4.
  pose proof (squeeze_form text [] eq_refl) as Hf.
  destruct (drop_underscores_last (squeeze text [])) as [[k Hk] Hw].
  set (out := reverse _) in *. clearbody out.
  assert (Hfo : form is_alnum true out = true) by (rewrite Hk; by apply form_take).
  destruct out as [|c out]; [split; vm_compute; reflexivity|].
  destruct Hw as [Hw|Hw]; [done|].
  pose proof (form_ident _ _ Hfo) as Hi.
  destruct (is_digit c) eqn:Ed.
  - split; [done|]. apply normalize_identifier_stable; [|done|by apply in_word_cons|done].
    cbn [form] in Hfo |- *. rewrite (alnum_word c (digit_alnum c Ed)) in Hfo |- *. done.
  - split; [simpl; by rewrite Ed|]. by apply normalize_identifier_stable.
Qed.
