(* ===== verification/Charconv.v ===== *)
(** Decimal numbers: what the sources use of [std::format("{}")] and
    [std::from_chars] on an unsigned 64-bit integer.

    [format_u64] writes the decimal digits of a number; [from_chars_u64] reads
    the longest run of digits, fails when there is none or the number they
    write does not fit, and gives what it left unread.  The theorems show one
    reads back what the other wrote. *)

From Stdlib Require Import Strings.Byte ZArith Lia Bool.
From stdpp Require Import prelude strings.
From S2P Require Import Prelude Naming.
Local Open Scope Z_scope.
Local Open Scope kota_scope.

Definition u64_limit : Z := 2 ^ 64.

Definition digit_char (d : Z) : byte := to_byte (48 + d).

(** The digits of [z], most significant first, before [acc]. *)
Fixpoint format_digits (fuel : nat) (z : Z) (acc : bytes) : bytes :=
  match fuel with
  | O => acc
  | S fuel' =>
      let acc' := digit_char (z mod 10) :: acc in
      if z <? 10 then acc' else format_digits fuel' (z / 10) acc'
  end.

(** Twenty digits write any number below 2^64. *)
Definition format_u64 (z : Z) : bytes := format_digits 20 z [].

Fixpoint scan_digits (s : bytes) (acc : Z) : Z * bytes :=
  match s with
  | c :: s' => if is_digit c then scan_digits s' (acc * 10 + (uval c - 48)) else (acc, s)
  | [] => (acc, [])
  end.

(** The number read, if any, and the text after the digits. *)
Definition from_chars_u64 (s : bytes) : option Z * bytes :=
  let '(z, rest) := scan_digits s 0 in
  if (length rest =? length s)%nat then (None, s)
  else if z <? u64_limit then (Some z, rest) else (None, rest).

(** ** Reading back what was written *)

Lemma digit_char_digit d : 0 ≤ d < 10 → is_digit (digit_char d) = true.
Proof.
  intros Hd. unfold is_digit, in_range, digit_char. rewrite uval_to_byte_small by lia.
  apply andb_true_iff. rewrite !Z.leb_le. lia.
Qed.

Lemma uval_digit_char d : 0 ≤ d < 10 → uval (digit_char d) - 48 = d.
Proof. intros. unfold digit_char. rewrite uval_to_byte_small by lia. lia. Qed.

Lemma format_digits_scan fuel z acc n :
  0 ≤ z < 10 ^ Z.of_nat fuel → Forall (λ c, is_digit c = true) acc →
  Forall (λ c, is_digit c = true) (format_digits fuel z acc) ∧
  (length acc ≤ length (format_digits fuel z acc))%nat ∧
  ((1 ≤ fuel)%nat → (1 ≤ length (format_digits fuel z acc))%nat) ∧
  ∀ rest, (scan_digits (format_digits fuel z acc ++ rest) n)
        = scan_digits (acc ++ rest)
            (n * 10 ^ Z.of_nat (length (format_digits fuel z acc) - length acc) + z).
Proof.
  revert z acc n. induction fuel as [|fuel IH]; intros z acc n Hz Hacc.
  { simpl in *. split; [done|]. split; [lia|]. split; [lia|].
    intros rest. f_equal. rewrite Nat.sub_diag. simpl. lia. }
  rewrite Nat2Z.inj_succ, Z.pow_succ_r in Hz by lia.
  pose proof (Z.mod_pos_bound z 10 ltac:(lia)) as Hm.
  assert (Hacc' : Forall (λ c, is_digit c = true) (digit_char (z mod 10) :: acc))
    by (constructor; [by apply digit_char_digit|done]).
  cbn [format_digits]. destruct (z <? 10) eqn:E; bool_prop.
  - split; [done|]. split; [simpl; lia|]. split; [simpl; lia|].
    intros rest. cbn [app scan_digits]. rewrite digit_char_digit, uval_digit_char by done.
    f_equal. replace (length (digit_char (z mod 10) :: acc) - length acc)%nat with 1%nat
      by (simpl; lia). rewrite Z.mod_small by lia. lia.
  - destruct (IH (z / 10) (digit_char (z mod 10) :: acc) n) as (H1 & H2 & H3 & H4);
      [dlia|done|].
    cbn [length] in H2. split; [done|]. split; [lia|]. split; [lia|].
    intros rest. rewrite H4. cbn [app scan_digits].
    rewrite digit_char_digit, uval_digit_char by done. f_equal. cbn [length].
    replace (length (format_digits fuel (z / 10) (digit_char (z mod 10) :: acc)) - length acc)%nat
      with (S (length (format_digits fuel (z / 10) (digit_char (z mod 10) :: acc))
               - S (length acc))) by lia.
    rewrite Nat2Z.inj_succ, Z.pow_succ_r by lia. dlia.
Qed.

Lemma format_digits_length fuel z acc :
  (length (format_digits fuel z acc) ≤ fuel + length acc)%nat.
Proof.
  revert z acc. induction fuel as [|fuel IH]; intros z acc; [simpl; lia|].
  cbn [format_digits]. case_if; [simpl; lia|]. etrans; [apply IH|]. simpl. lia.
Qed.

Lemma format_u64_length z : (length (format_u64 z) ≤ 20)%nat.
Proof. etrans; [apply format_digits_length|]. simpl. lia. Qed.

Lemma format_u64_digits z :
  0 ≤ z < u64_limit → Forall (λ c, is_digit c = true) (format_u64 z) ∧ format_u64 z ≠ [].
Proof.
  intros Hz. destruct (format_digits_scan 20 z [] 0) as (H1 & _ & H3 & _);
    [unfold u64_limit in Hz; simpl; lia|done|].
  split; [done|]. unfold format_u64. intros E. rewrite E in H3. simpl in H3. lia.
Qed.

(** [from_chars] reads the number [format] wrote, up to what follows it. *)
Lemma from_chars_format z rest :
  0 ≤ z < u64_limit →
  match rest with c :: _ => is_digit c = false | [] => True end →
  from_chars_u64 (format_u64 z ++ rest) = (Some z, rest).
Proof.
  intros Hz Hr. unfold from_chars_u64.
  destruct (format_digits_scan 20 z [] 0) as (_ & _ & H3 & H4);
    [unfold u64_limit in Hz; simpl; lia|done|].
  unfold format_u64. rewrite H4. cbn [app].
  rewrite Z.mul_0_l, Z.add_0_l.
  replace (scan_digits rest z) with (z, rest) by (destruct rest; simpl; [done|by rewrite Hr]).
  specialize (H3 ltac:(lia)). rewrite (proj2 (Nat.eqb_neq _ _)) by (rewrite length_app; lia).
  by rewrite (proj2 (Z.ltb_lt _ _)) by lia.
Qed.

(** A number read is one the digits of the text write. *)
Lemma scan_digits_ge s acc : 0 ≤ acc → acc ≤ (scan_digits s acc).1.
Proof.
  revert acc. induction s as [|c s IH]; intros acc Ha; [simpl; lia|].
  cbn [scan_digits]. destruct (is_digit c) eqn:E; [|simpl; lia].
  unfold is_digit, in_range in E. bool_prop.
  etrans; [|apply IH]; lia.
Qed.

Lemma from_chars_bound s z rest : from_chars_u64 s = (Some z, rest) → 0 ≤ z < u64_limit.
Proof.
  unfold from_chars_u64. pose proof (scan_digits_ge s 0 ltac:(lia)) as H.
  destruct (scan_digits s 0) as [z' rest']. simpl in H. intros E.
  case_if_in E; [done|]. case_if_in E; bool_prop; by simplify_eq.
Qed.
