(* ===== verification/Cmd.v ===== *)
(** Command lines of either style: include/kotatsu/sys/cmd.h, src/sys/cmd.cpp.

    [split] reads the arguments of a command line as an iterator does, one at a
    time and each as a view of the line when there is nothing to unquote; [join]
    writes a line that [split] reads back; [expand] reads response files in place
    of the arguments that name them, with an explicit stack of the files being
    read.  What reads a file is a parameter.

    A loop over the line recurses on what is left of it.  [arguments_of] has fuel,
    two more than the length of the line, which [arguments_of_gives] shows to be
    enough; [expand] takes its own, of which some is enough ([expand_correct]). *)

From Stdlib Require Import Strings.Byte ZArith Lia Bool.
From stdpp Require Import prelude strings list.
From S2P Require Import Prelude Utf8.
Local Open Scope kota_scope.
Local Open Scope nat_scope.

(** ** Definitions *)

Inductive Quoting := Windows | POSIX.
Inductive Reading := WindowsLine | WindowsFile | POSIXLine | POSIXFile.

Definition quote_char : byte := x22.
Definition single_quote : byte := x27.
Definition backslash : byte := x5c.
Definition space : byte := x20.

Definition same (c d : byte) : bool := bool_decide (c = d).
Definition among (c : byte) (l : bytes) : bool := bool_decide (c ∈ l).

(** [append_windows_program]. *)
Definition windows_program (program : bytes) : bytes :=
  if bool_decide (program = []) || existsb (λ c, among c [x20; x09]) program
  then quote_char :: program ++ [quote_char] else program.

(** The loop of [append_windows]; [n] backslashes are to be put. *)
Fixpoint windows_quoted (n : nat) (argument : bytes) : bytes :=
  match argument with
  | [] => replicate (n * 2) backslash ++ [quote_char]
  | c :: rest =>
      if same c backslash then windows_quoted (S n) rest
      else replicate (if same c quote_char then n * 2 + 1 else n) backslash ++ c :: windows_quoted 0 rest
  end.

(** [append_windows]. *)
Definition windows_argument (argument : bytes) : bytes :=
  if negb (bool_decide (argument = [])) && negb (existsb (λ c, among c [x20; x09; x0a; x0b; x22]) argument)
  then argument else quote_char :: windows_quoted 0 argument.

Definition plain_posix (c : byte) : bool :=
  (0x80 <=? uval c)%Z || in_range 97 122 c || in_range 65 90 c || in_range 48 57 c || among c (lit "@%+=:,./_-").

Definition posix_char (c : byte) : bytes :=
  if same c x0a then [single_quote; x0a; single_quote]
  else if plain_posix c then [c] else [backslash; c].

(** [append_posix]. *)
Definition posix_argument (argument : bytes) : bytes :=
  if bool_decide (argument = []) then [single_quote; single_quote] else mjoin (posix_char <$> argument).

Definition join_argument (q : Quoting) (i : nat) (argument : bytes) : bytes :=
  match q with
  | POSIX => posix_argument argument
  | Windows => if i =? 0 then windows_program argument else windows_argument argument
  end.

Fixpoint join_from (q : Quoting) (i : nat) (arguments : list bytes) : bytes :=
  match arguments with
  | [] => []
  | a :: rest => (if i =? 0 then [] else [space]) ++ join_argument q i a ++ join_from q (S i) rest
  end.
Definition join (arguments : list bytes) (q : Quoting) : bytes := join_from q 0 arguments.

Definition separates (r : Reading) (c : byte) : bool :=
  match r with
  | WindowsLine => among c [x20; x09]
  | WindowsFile => among c [x20; x09; x0d; x0a; x00]
  | POSIXLine | POSIXFile => among c [x20; x09; x0d; x0a]
  end.

Definition posix (r : Reading) : bool := match r with POSIXLine | POSIXFile => true | _ => false end.

(** How many backslashes [line] starts with. *)
Fixpoint backslashes (line : bytes) : nat :=
  match line with c :: rest => if same c backslash then S (backslashes rest) else 0 | [] => 0 end.

Definition starts_quote (line : bytes) : bool := match line with c :: _ => same c quote_char | [] => false end.

(** [read_backslashes]: what they make, and what is left. *)
Definition read_backslashes (line : bytes) : bytes * bytes :=
  let count := backslashes line in
  let rest := drop count line in
  if negb (starts_quote rest) then (replicate count backslash, rest)
  else if Nat.even count then (replicate (count / 2) backslash, rest)
  else (replicate (count / 2) backslash ++ [quote_char], drop 1 rest).

(** The size of the argument up to the first character to unquote, or all of it. *)
Fixpoint plain_size (fuel : nat) (r : Reading) (program : bool) (line : bytes) : nat :=
  match fuel, line with
  | S fuel, c :: rest =>
      if separates r c || same c quote_char || (posix r && (same c single_quote || same c backslash)) then 0
      else if same c backslash && negb program then
        let count := backslashes line in
        if starts_quote (drop count line) then 0 else count + plain_size fuel r program (drop count line)
      else S (plain_size fuel r program rest)
  | _, _ => 0
  end.

(** [unquote_windows]: the argument and what is left. *)
Fixpoint unquote_windows (fuel : nat) (r : Reading) (program quoted : bool) (unquoted line : bytes) : bytes * bytes :=
  match fuel, line with
  | S fuel, c :: rest =>
      if negb quoted && separates r c then (unquoted, line)
      else if same c backslash && negb program then
        let '(made, after) := read_backslashes line in unquote_windows fuel r program quoted (unquoted ++ made) after
      else if negb (same c quote_char) then unquote_windows fuel r program quoted (unquoted ++ [c]) rest
      else if quoted && negb program && starts_quote rest then
        unquote_windows fuel r program quoted (unquoted ++ [quote_char]) (drop 1 rest)
      else unquote_windows fuel r program (negb quoted) unquoted rest
  | _, _ => (unquoted, line)
  end.

(** [unquote_posix]; [quote] is the quote it is in. *)
Fixpoint unquote_posix (fuel : nat) (r : Reading) (quote : option byte) (unquoted line : bytes) : bytes * bytes :=
  match fuel, line with
  | S fuel, c :: rest =>
      if bool_decide (quote = None) && separates r c then (unquoted, line)
      else if bool_decide (quote = Some single_quote) && (match r with POSIXLine => true | _ => false end) then
        if same c single_quote then unquote_posix fuel r None unquoted rest
        else unquote_posix fuel r quote (unquoted ++ [c]) rest
      else if same c backslash && negb (bool_decide (rest = [])) then
        unquote_posix fuel r quote (unquoted ++ take 1 rest) (drop 1 rest)
      else if bool_decide (quote = Some c) then unquote_posix fuel r None unquoted rest
      else if bool_decide (quote = None) && (same c single_quote || same c quote_char) then
        unquote_posix fuel r (Some c) unquoted rest
      else unquote_posix fuel r quote (unquoted ++ [c]) rest
  | _, _ => (unquoted, line)
  end.

(** [split_view::iterator]: the argument at hand, if it is not past the last. *)
Record iterator := mkIterator {
  rest : bytes;
  argument : option bytes;
  borrowed : bool;
  reading : Reading;
  program : bool;
}.

Definition skip_separators (r : Reading) (line : bytes) : bytes :=
  drop (default (length line) (find_index (λ c, negb (separates r c)) line)) line.

(** [operator++]. *)
Definition next (it : iterator) : iterator :=
  let r := reading it in
  let line := if program it then rest it else skip_separators r (rest it) in
  match line with
  | [] => mkIterator (rest it) None (borrowed it) r (program it)
  | _ :: _ =>
      let size := plain_size (length line) r (program it) line in
      let after := drop size line in
      if match after with [] => true | c :: _ => separates r c end
      then mkIterator after (Some (take size line)) true r false
      else
        let '(a, unread) :=
          if posix r then unquote_posix (length after) r None (take size line) after
          else unquote_windows (length after) r (program it) false (take size line) after in
        mkIterator unread (Some a) false r false
  end.

Definition new_iterator (line : bytes) (r : Reading) : iterator :=
  next (mkIterator line None true r (match r with WindowsLine => true | _ => false end)).

(** The arguments from the iterator's on. *)
Fixpoint arguments_from (fuel : nat) (it : iterator) : list bytes :=
  match fuel, argument it with
  | S fuel, Some a => a :: arguments_from fuel (next it)
  | _, _ => []
  end.

Definition line_reading (q : Quoting) : Reading := match q with Windows => WindowsLine | POSIX => POSIXLine end.
Definition file_reading (q : Quoting) : Reading := match q with Windows => WindowsFile | POSIX => POSIXFile end.

Definition arguments_of (line : bytes) (r : Reading) : list bytes :=
  arguments_from (2 + length line) (new_iterator line r).
Definition split (line : bytes) (q : Quoting) : list bytes := arguments_of line (line_reading q).

(** ** Response files *)

Fixpoint utf16_units (little : bool) (text : bytes) : list Z :=
  match text with
  | a :: b :: rest =>
      (if little then Z.lor (uval a) (Z.shiftl (uval b) 8) else Z.lor (Z.shiftl (uval a) 8) (uval b)) :: utf16_units little rest
  | _ => []
  end.

(** [decode]: [None] for UTF-16 of an odd number of bytes. *)
Definition decode (text : bytes) : option bytes :=
  if starts_with text [xef; xbb; xbf] then Some (drop 3 text)
  else
    let little := starts_with text [xff; xfe] in
    if negb little && negb (starts_with text [xfe; xff]) then Some text
    else if negb (Nat.even (length text)) then None
    else Some (from_utf16 (utf16_units little (drop 2 text))).

Definition max_depth : nat := 8.

Section Expand.
(** What reads a response file, [None] for an error. *)
Variable read : bytes → option bytes.
Variable q : Quoting.

(** [expand_view::iterator]: the arguments of the command from the one at hand
    on, the files being read, the innermost first, and the argument at hand. *)
Record expansion := mkExpansion {
  command : list bytes;
  files : list iterator;
  current : option bytes;
}.

Definition advance (e : expansion) : expansion :=
  match files e with
  | [] => mkExpansion (drop 1 (command e)) [] (current e)
  | f :: fs => mkExpansion (command e) (next f :: fs) (current e)
  end.

(** The file an argument names, if it is read. *)
Definition named_file (a : bytes) (depth : nat) : option bytes :=
  if negb (starts_with a [x40]) || (depth =? max_depth) then None
  else match read (drop 1 a) with Some text => decode text | None => None end.

(** One turn of [settle]'s loop: [inr] when it returns. *)
Definition settle_once (e : expansion) : expansion + expansion :=
  match files e with
  | f :: fs =>
      match argument f with
      | None => inl (advance (mkExpansion (command e) fs (current e)))
      | Some a =>
          match named_file a (length (files e)) with
          | Some text => inl (mkExpansion (command e) (new_iterator text (file_reading q) :: files e) (Some a))
          | None => inr (mkExpansion (command e) (files e) (Some a))
          end
      end
  | [] =>
      match command e with
      | [] => inr (mkExpansion [] [] None)
      | a :: _ =>
          match named_file a 0 with
          | Some text => inl (mkExpansion (command e) [new_iterator text (file_reading q)] (Some a))
          | None => inr (mkExpansion (command e) [] (Some a))
          end
      end
  end.

(** [settle]; [None]: the fuel is out. *)
Fixpoint settle (fuel : nat) (e : expansion) : option expansion :=
  match fuel with
  | 0 => None
  | S fuel => match settle_once e with inl e' => settle fuel e' | inr e' => Some e' end
  end.

(** All it gives, with [fuel] for each turn and each argument. *)
Fixpoint expanded_from (fuel : nat) (e : expansion) : option (list bytes) :=
  match fuel with
  | 0 => None
  | S fuel =>
      match settle fuel e with
      | None => None
      | Some e' =>
          match current e' with
          | None => Some []
          | Some a => (λ l, a :: l) <$> expanded_from fuel (advance e')
          end
      end
  end.
Definition expand (fuel : nat) (arguments : list bytes) : option (list bytes) :=
  expanded_from fuel (mkExpansion arguments [] None).
End Expand.

(** An escaped blank, single quotes, and an empty argument in double quotes. *)
Example split_posix :
  split (lit "a 'b c' d\ e " ++ [quote_char; quote_char]) POSIX = [lit "a"; lit "b c"; lit "d e"; []].
Proof. vm_compute. reflexivity. Qed.

(** Backslashes before a quote are doubled, others are not. *)
Example join_windows :
  join [lit "a b"; lit "c\d"; lit "e \"] Windows =
    [quote_char] ++ lit "a b" ++ [quote_char] ++ lit " c\d " ++ [quote_char] ++ lit "e \\" ++ [quote_char].
Proof. vm_compute. reflexivity. Qed.

(** A response file, which names another that cannot be read. *)
Example expand_example :
  expand (λ n, if bool_decide (n = lit "f") then Some (lit "x @g") else None) POSIX 20 [lit "cc"; lit "@f"] =
    Some [lit "cc"; lit "x"; lit "@g"].
Proof. vm_compute. reflexivity. Qed.

(** ** What [join] writes is read back *)

#[local] Arguments separates : simpl never.
#[local] Arguments same : simpl never.
#[local] Arguments plain_posix : simpl never.

(** What follows an argument: nothing, or the space before the next. *)
Definition follows (tail : bytes) : Prop := tail = [] ∨ ∃ t, tail = space :: t.

Lemma follows_no_quote tail : follows tail → starts_quote tail = false.
Proof. by intros [->|[t ->]]. Qed.
Lemma follows_no_backslash tail : follows tail → backslashes tail = 0.
Proof. by intros [->|[t ->]]. Qed.

Lemma follows_separates r tail : follows tail → match tail with [] => true | c :: _ => separates r c end = true.
Proof. intros [->|[t ->]]; [done|]. by destruct r. Qed.

Lemma same_true c d : same c d = true ↔ c = d.
Proof. apply bool_decide_eq_true. Qed.
Lemma same_false c d : same c d = false ↔ c ≠ d.
Proof. apply bool_decide_eq_false. Qed.

(** *** POSIX *)

Lemma plain_posix_spec c :
  plain_posix c = true → separates POSIXLine c = false ∧ same c quote_char = false ∧ same c single_quote = false ∧
    same c backslash = false ∧ same c x0a = false.
Proof.
  assert (H : ∀ c, negb (plain_posix c) || (negb (separates POSIXLine c) && negb (same c quote_char) &&
    negb (same c single_quote) && negb (same c backslash) && negb (same c x0a)) = true) by by_bytes.
  intros Hc. specialize (H c). rewrite Hc in H. cbn in H. by bool_prop.
Qed.

Lemma plain_size_posix fuel p after :
  Forall (λ c, plain_posix c = true) p → length (p ++ after) ≤ fuel →
  match after with [] => true | c :: _ => separates POSIXLine c || same c single_quote || same c backslash end = true →
  plain_size fuel POSIXLine false (p ++ after) = length p.
Proof.
  revert fuel. induction p as [|c p IH]; intros fuel Hp Hf Ha.
  - destruct after as [|c after]; [by destruct fuel|]. destruct fuel as [|fuel]; [cbn in Hf; lia|]. cbn.
    destruct (separates POSIXLine c); [done|]. cbn in *. by destruct (same c quote_char), (same c single_quote), (same c backslash).
  - apply Forall_cons in Hp as [Hc Hp]. destruct fuel as [|fuel]; [cbn in Hf; lia|]. cbn.
    destruct (plain_posix_spec c Hc) as (E1 & E2 & E3 & E4 & _). rewrite E1, E2, E3, E4. cbn. f_equal.
    apply IH; [done|cbn in Hf; lia|done].
Qed.

Lemma posix_cons c a : mjoin (posix_char <$> c :: a) = posix_char c ++ mjoin (posix_char <$> a).
Proof. done. Qed.

Lemma unquote_posix_char c fuel acc t :
  length (posix_char c ++ t) ≤ fuel → ∃ fuel', length t ≤ fuel' ∧
    unquote_posix fuel POSIXLine None acc (posix_char c ++ t) = unquote_posix fuel' POSIXLine None (acc ++ [c]) t.
Proof.
  unfold posix_char. intros Hf. destruct (same c x0a) eqn:En; [|destruct (plain_posix c) eqn:Ep].
  - apply same_true in En. subst c. cbn in Hf. do 3 (destruct fuel as [|fuel]; [lia|]). exists fuel. split; [lia|]. done.
  - destruct (plain_posix_spec c Ep) as (E1 & E2 & E3 & E4 & _). destruct fuel as [|fuel]; cbn in Hf; [lia|].
    exists fuel. split; [lia|]. cbn. by rewrite E1, E4, E3, E2.
  - destruct fuel as [|fuel]; cbn in Hf; [lia|]. exists fuel. split; [lia|]. done.
Qed.

Lemma unquote_posix_spec a fuel acc tail :
  follows tail → length (mjoin (posix_char <$> a) ++ tail) ≤ fuel →
  unquote_posix fuel POSIXLine None acc (mjoin (posix_char <$> a) ++ tail) = (acc ++ a, tail).
Proof.
  intros Ht. revert fuel acc. induction a as [|c a IH]; intros fuel acc Hf.
  - cbn. rewrite app_nil_r. destruct fuel as [|fuel]; [done|]. by destruct Ht as [->|[t ->]].
  - rewrite posix_cons, <- app_assoc in *.
    destruct (unquote_posix_char c fuel acc _ Hf) as (fuel' & Hf' & ->). rewrite IH by done. by rewrite <- app_assoc.
Qed.

(** Up to its first character to quote, an argument is as it is. *)
Lemma posix_split a :
  ∃ p s, a = p ++ s ∧ Forall (λ c, plain_posix c = true) p ∧ mjoin (posix_char <$> a) = p ++ mjoin (posix_char <$> s) ∧
    match mjoin (posix_char <$> s) with [] => s = [] | c :: _ => c = single_quote ∨ c = backslash end.
Proof.
  induction a as [|c a (p & s & -> & Hp & E & Hs)]; [by exists [], []|].
  destruct (plain_posix c) eqn:Ep.
  - exists (c :: p), s. split_and!; [done|by constructor| |done]. rewrite !posix_cons, E.
    unfold posix_char at 1. rewrite Ep. destruct (plain_posix_spec c Ep) as (_ & _ & _ & _ & ->). done.
  - exists [], (c :: p ++ s). split_and!; [done|constructor|done|]. rewrite posix_cons. unfold posix_char at 1.
    rewrite Ep. destruct (same c x0a); cbn; auto.
Qed.

(** ** Reading an argument *)

(** From [line], the iterator reads [a] and leaves [tail]. *)
Definition reads (r : Reading) (prog : bool) (line a tail : bytes) : Prop :=
  ∀ arg b, ∃ b', next (mkIterator line arg b r prog) = mkIterator tail (Some a) b' r false.

Lemma skip_none r c line : separates r c = false → skip_separators r (c :: line) = c :: line.
Proof. intros E. unfold skip_separators. cbn. by rewrite E. Qed.

Lemma skip_space r c line : separates r c = false → skip_separators r (space :: c :: line) = c :: line.
Proof.
  intros E. unfold skip_separators. cbn. assert (Es : separates r space = true) by by destruct r. rewrite Es. cbn. by rewrite E.
Qed.

Lemma posix_reads sep a tail :
  sep = [] ∨ sep = [space] → follows tail → reads POSIXLine false (sep ++ posix_argument a ++ tail) a tail.
Proof.
  intros Hsep Ht arg b. set (line := posix_argument a ++ tail).
  assert (Hl : ∃ c l, line = c :: l ∧ separates POSIXLine c = false).
  { unfold line, posix_argument. case_bool_decide as Ea; [by eexists _, _|]. destruct a as [|c a]; [done|].
    rewrite posix_cons. unfold posix_char at 1. destruct (same c x0a); [by eexists _, _|].
    destruct (plain_posix c) eqn:Ep; [|by eexists _, _]. eexists _, _. split; [done|]. by apply plain_posix_spec. }
  assert (Eskip : skip_separators POSIXLine (sep ++ line) = line).
  { destruct Hl as (c & l & -> & Hc). destruct Hsep as [->| ->]; [by apply skip_none|by apply skip_space]. }
  unfold next. cbn [rest program reading]. rewrite Eskip. destruct Hl as (c0 & l0 & El & _). rewrite El, <- El. clear El c0 l0.
  unfold line, posix_argument. case_bool_decide as Ea.
  - subst a. cbn. destruct Ht as [->|[t ->]]; by eexists.
  - destruct (posix_split a) as (p & s & Ea' & Hp & E & Hs). rewrite E, <- app_assoc.
    assert (Hsize : plain_size (length (p ++ mjoin (posix_char <$> s) ++ tail)) POSIXLine false (p ++ mjoin (posix_char <$> s) ++ tail) = length p).
    { apply plain_size_posix; [done|done|]. destruct (mjoin (posix_char <$> s)) as [|c m]; cbn.
      - pose proof (follows_separates POSIXLine tail Ht) as H. destruct tail; [done|]. by rewrite H.
      - by destruct Hs as [->| ->]. }
    rewrite Hsize, drop_app_length, take_app_length. destruct (mjoin (posix_char <$> s)) as [|c m] eqn:Em; cbn [app].
    + rewrite follows_separates by done. subst s. rewrite app_nil_r in Ea'. subst p. by eexists.
    + assert (Hc : separates POSIXLine c = false) by by destruct Hs as [->| ->]. rewrite Hc. cbn [posix].
      change (c :: m ++ tail) with ((c :: m) ++ tail). rewrite <- Em, unquote_posix_spec by done. rewrite <- Ea'. by eexists.
Qed.

(** *** Windows *)

Lemma backslashes_replicate n l : backslashes l = 0 → backslashes (replicate n backslash ++ l) = n.
Proof. intros E. induction n as [|n IH]; [done|]. cbn. by rewrite IH. Qed.

Lemma read_literal n l :
  backslashes l = 0 → starts_quote l = false → read_backslashes (replicate n backslash ++ l) = (replicate n backslash, l).
Proof. intros E1 E2. unfold read_backslashes. by rewrite backslashes_replicate, drop_app_length', E2 by (by rewrite ?length_replicate). Qed.

Lemma read_even n l : read_backslashes (replicate (n * 2) backslash ++ quote_char :: l) = (replicate n backslash, quote_char :: l).
Proof.
  unfold read_backslashes. rewrite backslashes_replicate, drop_app_length' by (by rewrite ?length_replicate). cbn [starts_quote].
  change (same quote_char quote_char) with true. cbn [negb]. rewrite Nat.even_mul, orb_true_r, Nat.div_mul by done. done.
Qed.

Lemma read_odd n l : read_backslashes (replicate (n * 2 + 1) backslash ++ quote_char :: l) = (replicate n backslash ++ [quote_char], l).
Proof.
  unfold read_backslashes. rewrite backslashes_replicate, drop_app_length' by (by rewrite ?length_replicate). cbn [starts_quote].
  change (same quote_char quote_char) with true. cbn [negb]. rewrite Nat.even_add, Nat.even_mul, orb_true_r.
  assert (E : (n * 2 + 1) / 2 = n) by (rewrite Nat.add_comm, Nat.div_add by done; done). by rewrite E.
Qed.

(** In quotes: a run of backslashes, then what is left. *)
Lemma unquote_run fuel n l acc made left :
  0 < n → read_backslashes (replicate n backslash ++ l) = (made, left) →
  unquote_windows (S fuel) WindowsLine false true acc (replicate n backslash ++ l) =
    unquote_windows fuel WindowsLine false true (acc ++ made) left.
Proof. intros Hn E. destruct n as [|n]; [lia|]. cbn [unquote_windows replicate app] in *. by rewrite E. Qed.

(** The closing quote. *)
Lemma unquote_close fuel tail acc :
  follows tail → length (quote_char :: tail) ≤ fuel →
  unquote_windows fuel WindowsLine false true acc (quote_char :: tail) = (acc, tail).
Proof. intros [->|[t ->]] Hf; cbn in Hf; destruct fuel as [|[|fuel]]; try lia; done. Qed.

Lemma unquote_windows_spec a n fuel acc tail :
  follows tail → length (windows_quoted n a ++ tail) ≤ fuel →
  unquote_windows fuel WindowsLine false true acc (windows_quoted n a ++ tail) = (acc ++ replicate n backslash ++ a, tail).
Proof.
  intros Ht. revert n fuel acc. induction a as [|c a IH]; intros n fuel acc Hf.
  - cbn [windows_quoted] in *. rewrite <- app_assoc, app_nil_r in *. cbn [app] in *. destruct n as [|n].
    + rewrite app_nil_r. by apply unquote_close.
    + rewrite length_app, length_replicate in Hf. cbn in Hf. destruct fuel as [|fuel]; [lia|].
      rewrite (unquote_run _ _ _ _ (replicate (S n) backslash) (quote_char :: tail)); [|lia|apply read_even].
      apply unquote_close; [done|cbn; lia].
  - cbn [windows_quoted] in *. destruct (same c backslash) eqn:Eb.
    + apply same_true in Eb. subst c. rewrite IH by done. cbn [replicate]. by rewrite replicate_cons_app, <- !app_assoc.
    + rewrite <- app_assoc in *. cbn [app] in *. rewrite length_app, length_replicate in Hf. cbn in Hf.
      destruct (same c quote_char) eqn:Eq.
      * apply same_true in Eq. subst c. destruct fuel as [|fuel]; [lia|].
        rewrite (unquote_run _ _ _ _ (replicate n backslash ++ [quote_char]) (windows_quoted 0 a ++ tail)); [|lia|apply read_odd].
        rewrite IH by lia. cbn. by rewrite <- !app_assoc.
      * assert (Hchar : ∀ fuel acc, length (windows_quoted 0 a ++ tail) < fuel →
          unquote_windows fuel WindowsLine false true acc (c :: windows_quoted 0 a ++ tail) = (acc ++ c :: a, tail)).
        { intros [|f] ac Hf'; [lia|]. cbn [unquote_windows]. rewrite Eb, Eq. cbn [negb andb]. rewrite IH by lia. cbn. by rewrite <- app_assoc. }
        destruct n as [|n]; [apply Hchar; lia|]. destruct fuel as [|fuel]; [lia|].
        rewrite (unquote_run _ _ _ _ (replicate (S n) backslash) (c :: windows_quoted 0 a ++ tail)); [|lia|].
        -- rewrite Hchar by lia. by rewrite <- app_assoc.
        -- apply read_literal; cbn; by rewrite ?Eb, ?Eq.
Qed.

(** An argument that is written as it is. *)
Lemma plain_size_windows a fuel tail :
  existsb (λ c, among c [x20; x09; x0a; x0b; x22]) a = false → follows tail → length (a ++ tail) ≤ fuel →
  plain_size fuel WindowsLine false (a ++ tail) = length a.
Proof.
  intros Ha Ht. revert a Ha. induction fuel as [|fuel IH]; intros a Ha Hf; [destruct a; [done|cbn in Hf; lia]|].
  destruct a as [|c a]; [by destruct Ht as [->|[t ->]]|]. cbn [existsb] in Ha. apply orb_false_iff in Ha as [Hc Ha].
  assert (Hs : separates WindowsLine c = false ∧ same c quote_char = false).
  { apply bool_decide_eq_false in Hc. split; apply bool_decide_eq_false; [|set_solver].
    intros H. apply Hc. set_solver. }
  destruct Hs as [E1 E2]. cbn [plain_size app]. rewrite E1, E2. cbn [orb andb posix]. destruct (same c backslash) eqn:Eb; cbn [andb negb].
  - (* the run ends in the argument *)
    set (k := backslashes (c :: a ++ tail)).
    assert (Hk : ∃ m, k = S m ∧ m ≤ length a).
    { unfold k. cbn. rewrite Eb. eexists. split; [done|]. clear -Ht. induction a as [|d a IHa]; cbn.
      - by rewrite follows_no_backslash.
      - destruct (same d backslash); lia. }
    destruct Hk as (m & Ek & Hm). rewrite Ek. cbn [drop]. rewrite drop_app_le by done.
    assert (Hd : existsb (λ c, among c [x20; x09; x0a; x0b; x22]) (drop m a) = false).
    { rewrite <- (take_drop m a), existsb_app in Ha. by apply orb_false_iff in Ha as [_ ?]. }
    assert (Eq : starts_quote (drop m a ++ tail) = false).
    { destruct (drop m a) as [|d l]; [by apply follows_no_quote|]. cbn [existsb] in Hd. apply orb_false_iff in Hd as [Hd _].
      cbn. apply bool_decide_eq_false. intros ->. apply bool_decide_eq_false in Hd. set_solver. }
    rewrite Eq, IH; [|done|].
    + rewrite length_drop. cbn. lia.
    + cbn in Hf. rewrite length_app in *. rewrite length_drop. lia.
  - cbn. f_equal. apply IH; [done|cbn in Hf; lia].
Qed.

Lemma windows_reads a tail : follows tail → reads WindowsLine false (space :: windows_argument a ++ tail) a tail.
Proof.
  intros Ht arg b. unfold windows_argument, next. cbn [rest program reading].
  case_bool_decide as Ea; cbn [negb andb]; [|destruct (existsb _ a) eqn:Heqb0; cbn [negb]].
  - subst a. cbn [app]. rewrite skip_space by done. destruct Ht as [->|[t ->]]; by eexists.
  - cbn [app]. rewrite skip_space by done. set (w := windows_quoted 0 a ++ tail).
    assert (E : plain_size (length (quote_char :: w)) WindowsLine false (quote_char :: w) = 0) by done.
    rewrite E. cbn [drop take posix]. change (separates WindowsLine quote_char) with false. cbn iota.
    cbn [length unquote_windows]. change (separates WindowsLine quote_char) with false. change (same quote_char backslash) with false.
    change (same quote_char quote_char) with true. cbn [negb andb]. unfold w. rewrite unquote_windows_spec by done. by eexists.
  - destruct a as [|c a]; [done|]. pose proof Heqb0 as Hx. cbn [existsb] in Hx. apply orb_false_iff in Hx as [Hc _].
    assert (E1 : separates WindowsLine c = false).
    { apply bool_decide_eq_false in Hc. apply bool_decide_eq_false. set_solver. }
    cbn [app]. rewrite skip_space by done. change (c :: a ++ tail) with ((c :: a) ++ tail).
    rewrite plain_size_windows by done. rewrite drop_app_length, take_app_length, follows_separates by done. cbn. by eexists.
Qed.

(** A program, which holds no quote. *)
Lemma plain_size_program p fuel tail :
  existsb (λ c, among c [x20; x09]) p = false → existsb (λ c, same c quote_char) p = false → follows tail →
  length (p ++ tail) ≤ fuel → plain_size fuel WindowsLine true (p ++ tail) = length p.
Proof.
  intros Hp Hq Ht. revert fuel. induction p as [|c p IH]; intros [|fuel] Hf; [done| |cbn in Hf; lia|].
  - by destruct Ht as [->|[t ->]].
  - cbn [existsb] in Hp, Hq. apply orb_false_iff in Hp as [Hc Hp], Hq as [Hd Hq].
    cbn [plain_size app]. change (separates WindowsLine c) with (among c [x20; x09]). rewrite Hc, Hd. cbn [orb andb posix].
    rewrite andb_false_r. cbn. f_equal. apply IH; [done..|cbn in Hf; lia].
Qed.

Lemma unquote_program p fuel acc tail :
  existsb (λ c, same c quote_char) p = false → follows tail → length (p ++ quote_char :: tail) ≤ fuel →
  unquote_windows fuel WindowsLine true true acc (p ++ quote_char :: tail) = (acc ++ p, tail).
Proof.
  intros Hq Ht. revert fuel acc. induction p as [|c p IH]; intros [|fuel] acc Hf; try (cbn in Hf; lia).
  - cbn in Hf. rewrite app_nil_r. destruct Ht as [->|[t ->]]; [by destruct fuel|]. cbn in Hf. by destruct fuel as [|fuel]; [lia|].
  - cbn [existsb] in Hq. apply orb_false_iff in Hq as [Hd Hq]. cbn [unquote_windows app]. rewrite Hd, andb_false_r. cbn [negb andb].
    rewrite IH; [by rewrite <- app_assoc|done|cbn in Hf; lia].
Qed.

Lemma program_reads p tail :
  existsb (λ c, same c quote_char) p = false → follows tail → reads WindowsLine true (windows_program p ++ tail) p tail.
Proof.
  intros Hq Ht arg b. unfold windows_program, next. cbn [rest program reading].
  destruct (bool_decide (p = []) || _) eqn:E.
  - cbn [app]. rewrite <- app_assoc. cbn [app]. set (w := p ++ quote_char :: tail).
    assert (Es : plain_size (length (quote_char :: w)) WindowsLine true (quote_char :: w) = 0) by done.
    rewrite Es. cbn [drop take posix]. change (separates WindowsLine quote_char) with false. cbn iota.
    cbn [length unquote_windows]. change (separates WindowsLine quote_char) with false. change (same quote_char backslash) with false.
    change (same quote_char quote_char) with true. cbn [negb andb]. unfold w. rewrite unquote_program by done. by eexists.
  - apply orb_false_iff in E as [E1 E2]. apply bool_decide_eq_false in E1. destruct p as [|c p]; [done|].
    change (match (c :: p) ++ tail with [] => _ | _ :: _ => ?x end) with x. cbv beta zeta.
    rewrite plain_size_program by done. rewrite drop_app_length, take_app_length, follows_separates by done. by eexists.
Qed.

(** ** The whole line *)

Lemma join_follows q i rest : follows (join_from q (S i) rest).
Proof. destruct rest; [by left|right]. by eexists. Qed.

Lemma join_long q i rest : length rest ≤ length (join_from q (S i) rest).
Proof. revert i. induction rest as [|a rest IH]; intros i; cbn; [lia|]. rewrite length_app. specialize (IH (S i)). lia. Qed.

(** An argument after the first. *)
Lemma argument_reads q i a tail :
  follows tail → reads (line_reading q) false (space :: join_argument q (S i) a ++ tail) a tail.
Proof.
  intros Ht. destruct q; cbn [line_reading join_argument].
  - by apply windows_reads.
  - change (space :: posix_argument a ++ tail) with ([space] ++ posix_argument a ++ tail). apply posix_reads; auto.
Qed.

Lemma arguments_join q rest i a b fuel :
  S (length rest) < fuel →
  arguments_from fuel (mkIterator (join_from q (S i) rest) (Some a) b (line_reading q) false) = a :: rest.
Proof.
  revert i a b fuel. induction rest as [|a' rest IH]; intros i a b [|[|fuel]] Hf; try (cbn in Hf; lia); [done|].
  destruct (argument_reads q i a' (join_from q (S (S i)) rest) (join_follows _ _ _) (Some a) b) as (b' & E).
  change (a :: arguments_from (S fuel) (next (mkIterator (join_from q (S i) (a' :: rest)) (Some a) b (line_reading q) false)) = a :: a' :: rest).
  change (join_from q (S i) (a' :: rest)) with (space :: join_argument q (S i) a' ++ join_from q (S (S i)) rest). rewrite E.
  rewrite IH; [done|]. cbn in Hf. lia.
Qed.

(** [join] may write [args]: a Windows program holds no quote. *)
Definition joinable (q : Quoting) (args : list bytes) : bool :=
  match q, args with Windows, p :: _ => negb (existsb (λ c, same c quote_char) p) | _, _ => true end.

(** C13. What [join] writes [split] reads back, whatever the arguments hold (an
    empty one, blanks, quotes, backslashes before them, newlines, any byte), in
    either style, as long as a Windows program holds no quote. *)
Theorem split_join q args : joinable q args = true → split (join args q) q = args.
Proof.
  intros Hj. unfold split, arguments_of, join, new_iterator. destruct args as [|a rest]; [by destruct q|].
  cbn [join_from]. change (0 =? 0) with true. cbn iota. cbn [app].
  set (tail := join_from q 1 rest). assert (Ht : follows tail) by apply join_follows.
  assert (E : reads (line_reading q) (match line_reading q with WindowsLine => true | _ => false end)
                (join_argument q 0 a ++ tail) a tail).
  { destruct q; cbn.
    - apply program_reads; [|done]. by apply negb_true_iff in Hj.
    - apply (posix_reads [] a tail); auto. }
  destruct (E None true) as (b & ->). unfold tail. apply arguments_join. rewrite length_app. pose proof (join_long q 0 rest). lia.
Qed.
Lemma split_join_witness :
  split (join [lit "C:\a b\x"; [quote_char]; []; lit "\\"] Windows) Windows = [lit "C:\a b\x"; [quote_char]; []; lit "\\"].
Proof. apply split_join. vm_compute. reflexivity. Defined.

(** ** Reading a line ends *)

Lemma read_backslashes_shorter c line : same c backslash = true → length (read_backslashes (c :: line)).2 ≤ length line.
Proof.
  intros Hc. unfold read_backslashes. cbn [backslashes]. rewrite Hc. cbn [drop].
  repeat case_match; cbn [snd]; rewrite ?length_drop; lia.
Qed.

Lemma unquote_windows_shorter fuel r prog quoted acc line : length (unquote_windows fuel r prog quoted acc line).2 ≤ length line.
Proof.
  revert quoted acc line. induction fuel as [|fuel IH]; intros quoted acc [|c line]; [done..|]. cbn [unquote_windows].
  case_match; [done|]. destruct (same c backslash && negb prog) eqn:Eb.
  - apply andb_true_iff in Eb as [Eb _]. pose proof (read_backslashes_shorter c line Eb) as Hr.
    destruct (read_backslashes (c :: line)) as [made after]. etrans; [apply IH|]. cbn in *. lia.
  - repeat case_match; (etrans; [apply IH|]); rewrite ?length_drop; cbn; lia.
Qed.

Lemma unquote_posix_shorter fuel r quote acc line : length (unquote_posix fuel r quote acc line).2 ≤ length line.
Proof.
  revert quote acc line. induction fuel as [|fuel IH]; intros quote acc [|c line]; [done..|]. cbn [unquote_posix].
  repeat case_match; try done; (etrans; [apply IH|]); rewrite ?length_drop; cbn; lia.
Qed.

(** An argument is at least a character of the line. *)
Lemma unquote_takes r prog acc c line :
  separates r c = false →
  length (if posix r then unquote_posix (S (length line)) r None acc (c :: line)
          else unquote_windows (S (length line)) r prog false acc (c :: line)).2 ≤ length line.
Proof.
  intros Hs. destruct (posix r); cbn [unquote_posix unquote_windows]; rewrite Hs, ?bool_decide_eq_true_2 by done.
  - cbn [andb]. repeat case_match; (etrans; [apply unquote_posix_shorter|]); rewrite ?length_drop; lia.
  - cbn [andb negb]. destruct (same c backslash && negb prog) eqn:Eb.
    + apply andb_true_iff in Eb as [Eb _]. pose proof (read_backslashes_shorter c line Eb) as Hr.
      destruct (read_backslashes (c :: line)) as [made after]. etrans; [apply unquote_windows_shorter|exact Hr].
    + repeat case_match; (etrans; [apply unquote_windows_shorter|]); rewrite ?length_drop; lia.
Qed.

Lemma skip_separators_spec r line :
  length (skip_separators r line) ≤ length line ∧
  match skip_separators r line with [] => True | c :: _ => separates r c = false end.
Proof.
  unfold skip_separators. rewrite length_drop. split; [lia|]. induction line as [|c line IH]; [done|]. cbn [find_index].
  destruct (separates r c) eqn:Ec; cbn; [|done]. destruct (find_index _ line); cbn in *; done.
Qed.

Lemma next_shorter it a :
  argument (next it) = Some a →
  reading (next it) = reading it ∧ program (next it) = false ∧ length (rest (next it)) + (if program it then 0 else 1) ≤ length (rest it).
Proof.
  destruct it as [line arg b r prog]. unfold next. cbn [rest program reading borrowed].
  set (line' := if prog then line else skip_separators r line).
  assert (Hl : length line' ≤ length line ∧ (prog = false → match line' with [] => True | c :: _ => separates r c = false end)).
  { unfold line'. destruct prog; [done|]. destruct (skip_separators_spec r line) as [H1 H2]. split; [done|]. by intros _. }
  destruct Hl as [Hl Hc]. destruct line' as [|c l]; [done|].
  set (size := plain_size _ r prog (c :: l)).
  destruct (drop size (c :: l)) as [|d after] eqn:Ed.
  { intros _. cbn [rest program reading length] in *. split_and!; [done..|]. destruct prog; lia. }
  assert (Ha : length (d :: after) + size = S (length l)).
  { rewrite <- Ed, length_drop. cbn [length]. assert (¬ S (length l) ≤ size) as H; [|lia]. intros H. by rewrite drop_ge in Ed by exact H. }
  cbn [length] in Ha, Hl. destruct (separates r d) eqn:Es.
  - intros _. cbn [rest program reading length]. split_and!; [done..|]. destruct prog; [lia|]. destruct size; [|lia]. cbn in Ed. simplify_eq.
    specialize (Hc eq_refl). cbn in Hc. congruence.
  - cbn [length]. pose proof (unquote_takes r prog (take size (c :: l)) d after Es) as H.
    destruct (if posix r then _ else _) as [x unread]. cbn [rest program reading snd] in *. intros _. split_and!; [done..|]. destruct prog; lia.
Qed.

(** The iterator gives the arguments [l]. *)
Fixpoint gives (it : iterator) (l : list bytes) : Prop :=
  match l with [] => argument it = None | a :: l => argument it = Some a ∧ gives (next it) l end.

Lemma arguments_from_gives fuel it :
  (argument it ≠ None → program it = false) → length (rest it) < fuel → gives it (arguments_from (S fuel) it).
Proof.
  revert it. induction fuel as [|fuel IH]; intros it Hp Hf; [lia|]. cbn [arguments_from].
  destruct (argument it) as [a|] eqn:Ea; [|done]. split; [done|]. specialize (Hp ltac:(done)).
  destruct (argument (next it)) as [a'|] eqn:Ea'; [|done].
  destruct (next_shorter it a' Ea') as (_ & H2 & H3). rewrite Hp in H3.
  specialize (IH (next it)). cbn [arguments_from] in IH. rewrite Ea' in IH. apply IH; [done|lia].
Qed.

Lemma arguments_of_gives line r : gives (new_iterator line r) (arguments_of line r).
Proof.
  unfold arguments_of. destruct (argument (new_iterator line r)) as [a|] eqn:Ea; [|cbn; by rewrite Ea].
  unfold new_iterator in Ea. pose proof (next_shorter _ _ Ea) as (_ & H2 & H3). cbn [rest] in H3.
  apply arguments_from_gives; unfold new_iterator; [done|]. lia.
Qed.

(** ** What the response files hold, in place of their names *)

Section Expanded.
Variable read : bytes → option bytes.
Variable q : Quoting.

(** The arguments of [args] with the files they name, [levels] deep, in place:
    what [expand] promises. *)
Fixpoint with_files (levels : nat) (args : list bytes) : list bytes :=
  match levels with
  | 0 => args
  | S levels =>
      a ← args;
      if starts_with a [x40] then
        match (read (drop 1 a)) ≫= decode with
        | Some text => with_files levels (arguments_of text (file_reading q))
        | None => [a]
        end
      else [a]
  end.

Definition settles (e e' : expansion) : Prop := ∃ n, ∀ fuel, n ≤ fuel → settle read q fuel e = Some e'.

(** From [e] on, it gives [out]. *)
Inductive gives_all : expansion → list bytes → Prop :=
  | gives_none e e' : settles e e' → current e' = None → gives_all e []
  | gives_some e e' a out : settles e e' → current e' = Some a → gives_all (advance e') out → gives_all e (a :: out).

Lemma settles_turn e e' e'' : settle_once read q e = inl e' → settles e' e'' → settles e e''.
Proof. intros E (n & Hn). exists (S n). intros [|fuel] Hf; [lia|]. cbn. rewrite E. apply Hn. lia. Qed.

Lemma settles_stop e e' : settle_once read q e = inr e' → settles e e'.
Proof. intros E. exists 1. intros [|fuel] Hf; [lia|]. cbn. by rewrite E. Qed.

Lemma gives_turn e e' out : settle_once read q e = inl e' → gives_all e' out → gives_all e out.
Proof.
  intros E H. inversion H; subst; [eapply gives_none|eapply gives_some]; [by eapply settles_turn|done..| |done|done].
  by eapply settles_turn.
Qed.

Lemma gives_all_runs e out : gives_all e out → ∃ n, ∀ fuel, n ≤ fuel → expanded_from read q fuel e = Some out.
Proof.
  induction 1 as [e e' (n & Hn) E|e e' a out (n & Hn) E _ (m & IH)].
  - exists (S n). intros [|fuel] Hf; [lia|]. cbn. rewrite Hn by lia. by rewrite E.
  - exists (S (n + m)). intros [|fuel] Hf; [lia|]. cbn. rewrite Hn by lia. rewrite E. by rewrite IH by lia.
Qed.

Lemma with_files_cons levels a args depth :
  levels + depth = max_depth →
  with_files levels (a :: args) =
    match named_file read a depth with
    | Some text => with_files (levels - 1) (arguments_of text (file_reading q))
    | None => [a]
    end ++ with_files levels args.
Proof.
  intros Hd. unfold named_file. destruct levels as [|levels].
  - assert (depth = max_depth) as -> by lia. rewrite Nat.eqb_refl, orb_true_r. done.
  - assert (depth =? max_depth = false) as -> by (apply Nat.eqb_neq; lia). rewrite orb_false_r, Nat.sub_succ, Nat.sub_0_r.
    cbn [with_files mbind list_bind]. destruct (starts_with a [x40]); cbn [negb]; [|done]. by destruct (read (drop 1 a)).
Qed.

Lemma named_file_depth a depth text levels :
  named_file read a depth = Some text → levels + depth = max_depth → ∃ l, levels = S l.
Proof.
  intros E Hd. destruct levels as [|l]; [|by eexists]. unfold named_file in E. assert (depth = max_depth) as -> by lia.
  rewrite Nat.eqb_refl, orb_true_r in E. done.
Qed.

(** The innermost file, then the rest. *)
Lemma file_gives levels l f fs cmd cur out :
  levels + length (f :: fs) = max_depth → gives f l →
  (∀ cur, gives_all (advance (mkExpansion cmd fs cur)) out) → gives_all (mkExpansion cmd (f :: fs) cur) (with_files levels l ++ out).
Proof.
  revert l f fs cur out. induction levels as [|levels IHl]; intros l; induction l as [|a l IH]; intros f fs cur out Hd Hg Hout.
  1, 3: eapply gives_turn; [cbn; by rewrite Hg|]; replace (with_files _ [] ++ out) with out by done; apply Hout.
  all: destruct Hg as [Ea Hg]; rewrite (with_files_cons _ _ _ (length (f :: fs))) by done; destruct (named_file read a (length (f :: fs))) as [text|] eqn:En.
  - by apply (named_file_depth _ _ _ 0) in En as [? ?].
  - eapply gives_some; [apply settles_stop; cbn in *; by rewrite Ea, En|done|]. by apply IH.
  - eapply gives_turn; [cbn in *; by rewrite Ea, En|]. rewrite Nat.sub_succ, Nat.sub_0_r, <- app_assoc.
    apply IHl; [cbn in *; lia|apply arguments_of_gives|]. intros cur'. by apply IH.
  - eapply gives_some; [apply settles_stop; cbn in *; by rewrite Ea, En|done|]. by apply IH.
Qed.

Lemma command_gives args cur : gives_all (mkExpansion args [] cur) (with_files max_depth args).
Proof.
  revert cur. induction args as [|a args IH]; intros cur; [by eapply gives_none; [by apply settles_stop|]|].
  rewrite (with_files_cons _ _ _ 0) by done. destruct (named_file read a 0) as [text|] eqn:En.
  - eapply gives_turn; [cbn; by rewrite En|]. apply file_gives; [done|apply arguments_of_gives|]. intros cur'. apply IH.
  - eapply gives_some; [apply settles_stop; cbn; by rewrite En|done|]. apply IH.
Qed.
End Expanded.

(** C14. [expand] ends on every command, whatever the files hold and however they
    name one another, and gives each argument, in place of each [@name] that can
    be read the arguments of the file, expanded alike, and past eight files the
    names as they are. *)
Theorem expand_correct read q args :
  ∃ n, ∀ fuel, n ≤ fuel → expand read q fuel args = Some (with_files read q max_depth args).
Proof. apply gives_all_runs, command_gives. Qed.
