(* ===== verification/Framing.v ===== *)
(** The LSP base protocol's framing: include/kotatsu/ipc/framing.h,
    src/ipc/framing.cpp, and the blocking reader over it of
    src/ipc/blocking_client.cpp.

    [FrameParser] is the parser's state and [feed] one call on a piece of the
    input.  A [std::size_t] that a header names is a [Z] below 2^64; offsets
    into memory are [nat].  A string moved from is left empty: the code clears
    it before its next use.  The theorems show that how the input is cut into
    pieces changes nothing, that what [frame_header] writes is read back, what
    the parser holds at most, and that a malformed header is final. *)

From Stdlib Require Import Strings.Byte ZArith Lia Bool.
From stdpp Require Import prelude strings.
From S2P Require Import Prelude Naming Charconv.
Local Open Scope kota_scope.

(** ** Constants and results *)

Definition skipped_prefix_size : nat := 4 * 1024.
Definition max_header_size : nat := 8 * 1024.

Inductive ReadErrorKind := Closed | Malformed | Oversized.

Record ReadError := mkReadError {
  kind : ReadErrorKind;
  message : bytes;
  size : Z;
  error_prefix : bytes;
}.

Abbreviation frame_result := (expected bytes ReadError).

Record Step := mkStep {
  consumed : nat;
  frame : option frame_result;
}.

(** ** Headers *)

Definition crlf : bytes := [x0d; x0a].
Definition blank_line : bytes := [x0d; x0a; x0d; x0a].

Definition is_blank (c : byte) : bool := (c =?b " "%byte) || (c =?b x09).

Definition trim (value : bytes) : bytes :=
  match find_index (λ c, negb (is_blank c)) value with
  | None => []
  | Some start =>
      match find_last (λ c, negb (is_blank c)) value with
      | None => []
      | Some end_ => substr value start (end_ - start + 1)
      end
  end.

Definition equals_ignoring_case (lhs rhs : bytes) : bool :=
  bool_decide ((to_lower <$> lhs) = (to_lower <$> rhs)).

(** The loop of [content_length]: every round takes a byte or more off the
    header, so its length is fuel enough.  Without a line end,
    [remove_prefix(npos + 2)] removes one byte. *)
Fixpoint content_length_from (fuel : nat) (header : bytes) : expected Z bytes :=
  match fuel with
  | O => Err (lit "missing Content-Length")
  | S fuel' =>
      match header with
      | [] => Err (lit "missing Content-Length")
      | _ =>
          let end_ := find_sub crlf header in
          let line := match end_ with Some e => take e header | None => header end in
          let header' := match end_ with Some e => drop (e + 2) header | None => drop 1 header end in
          match find_index (λ c, c =?b ":"%byte) line with
          | None => content_length_from fuel' header'
          | Some colon =>
              if negb (equals_ignoring_case (trim (take colon line)) (lit "Content-Length"))
              then content_length_from fuel' header'
              else
                let value := trim (drop (colon + 1) line) in
                match from_chars_u64 value with
                | (Some length_, []) =>
                    if bool_decide (value = []) then Err (lit "invalid Content-Length: " ++ value)
                    else Ok length_
                | _ => Err (lit "invalid Content-Length: " ++ value)
                end
          end
      end
  end.

Definition content_length (header : bytes) : expected Z bytes :=
  content_length_from (length header) header.

Definition frame_header (size : Z) : bytes :=
  lit "Content-Length: " ++ format_u64 size ++ blank_line.

(** ** The parser *)

Inductive Phase := Header | Payload | Skip | Broken.

#[export] Instance phase_eq_dec : EqDecision Phase.
Proof. solve_decision. Defined.

Record FrameParser := mkParser {
  max_payload : Z;
  phase : Phase;
  header : bytes;
  payload : bytes;
  prefix : bytes;
  failure : bytes;
  remaining : Z;
  skipped_size : Z;
}.

Definition new_parser (max_payload : Z) : FrameParser :=
  mkParser max_payload Header [] [] [] [] 0 0.

(** [header_end]: a blank line that begins in the header read so far, earliest
    first, then one in [next]. *)
Fixpoint header_end_before (before : nat) (header next : bytes) : option nat :=
  match before with
  | O => None
  | S before' =>
      if ends_with header (take before blank_line) && starts_with next (drop before blank_line)
      then Some (length blank_line - before)%nat
      else header_end_before before' header next
  end.

Definition header_end (header next : bytes) : option nat :=
  match header_end_before (min 3 (length header)) header next with
  | Some n => Some n
  | None => (λ at_, (at_ + length blank_line)%nat) <$> find_sub blank_line next
  end.

Definition malformed (p : FrameParser) (consumed : nat) : Step * FrameParser :=
  (mkStep consumed (Some (Err (mkReadError Malformed (failure p) 0 []))), p).

Definition break_with (p : FrameParser) (consumed : nat) (reason : bytes) : Step * FrameParser :=
  malformed
    (mkParser (max_payload p) Broken (header p) (payload p) (prefix p) reason
       (remaining p) (skipped_size p)) consumed.

Definition feed_payload (p : FrameParser) (input : bytes) (consumed : nat) : Step * FrameParser :=
  let take_ := Z.min (remaining p) (Z.of_nat (length input - consumed)) in
  let payload' := payload p ++ substr input consumed (Z.to_nat take_) in
  let consumed' := (consumed + Z.to_nat take_)%nat in
  let remaining' := (remaining p - take_)%Z in
  if negb (remaining' =? 0)%Z then
    (mkStep consumed' None,
     mkParser (max_payload p) Payload (header p) payload' (prefix p) (failure p)
       remaining' (skipped_size p))
  else
    (mkStep consumed' (Some (Ok payload')),
     mkParser (max_payload p) Header (header p) [] (prefix p) (failure p)
       remaining' (skipped_size p)).

Definition oversized_message (p : FrameParser) : bytes :=
  lit "a message of " ++ format_u64 (skipped_size p) ++
  lit " bytes exceeds the limit of " ++ format_u64 (max_payload p) ++ lit " bytes".

Definition feed_skip (p : FrameParser) (input : bytes) (consumed : nat) : Step * FrameParser :=
  let take_ := Z.min (remaining p) (Z.of_nat (length input - consumed)) in
  let keep := min (Z.to_nat take_) (skipped_prefix_size - length (prefix p)) in
  let prefix' := prefix p ++ substr input consumed keep in
  let consumed' := (consumed + Z.to_nat take_)%nat in
  let remaining' := (remaining p - take_)%Z in
  if negb (remaining' =? 0)%Z then
    (mkStep consumed' None,
     mkParser (max_payload p) Skip (header p) (payload p) prefix' (failure p)
       remaining' (skipped_size p))
  else
    (mkStep consumed'
       (Some (Err (mkReadError Oversized (oversized_message p) (skipped_size p) prefix'))),
     mkParser (max_payload p) Header (header p) (payload p) [] (failure p)
       remaining' (skipped_size p)).

Definition header_too_long : bytes :=
  lit "header exceeds " ++ format_u64 (Z.of_nat max_header_size) ++ lit " bytes".

(** [p] with the header read so far. *)
Definition with_header (p : FrameParser) (header' : bytes) : FrameParser :=
  mkParser (max_payload p) Header header' (payload p) (prefix p) (failure p)
    (remaining p) (skipped_size p).

(** The header ended with its blank line after [end_] bytes of the input: its
    payload comes next, read or skipped. *)
Definition header_complete (p : FrameParser) (input header' : bytes) (end_ : nat)
    : Step * FrameParser :=
  if (max_header_size <? length header')%nat
  then break_with (with_header p header') end_ header_too_long
  else
    match content_length header' with
    | Err why => break_with (with_header p header') end_ why
    | Ok length_ =>
        if (max_payload p <? length_)%Z then
          feed_skip (mkParser (max_payload p) Skip [] [] [] (failure p) length_ length_)
            input end_
        else
          feed_payload
            (mkParser (max_payload p) Payload [] [] [] (failure p) length_ (skipped_size p))
            input end_
    end.

Definition feed_header (p : FrameParser) (input : bytes) : Step * FrameParser :=
  let window := take (max_header_size + 1 - length (header p)) input in
  match header_end (header p) window with
  | None =>
      let header' := header p ++ window in
      if (max_header_size <? length header')%nat
      then break_with (with_header p header') (length window) header_too_long
      else (mkStep (length window) None, with_header p header')
  | Some end_ => header_complete p input (header p ++ take end_ window) end_
  end.

(** [feed]: the loop goes round twice at most, once more after a header. *)
Definition feed (p : FrameParser) (input : bytes) : Step * FrameParser :=
  match phase p with
  | Broken => malformed p 0
  | Header => feed_header p input
  | Payload => feed_payload p input 0
  | Skip => feed_skip p input 0
  end.

(** ** The blocking reader *)

(** What one [recv] or [ReadFile] brings: bytes, the end of the input (or none
    read), or an error. *)
Inductive recv_result :=
| Got (chunk : bytes)
| RecvClosed
| RecvFailed (why : bytes).

Record BlockingPipe := mkPipe {
  parser : FrameParser;
  unread : bytes;
}.

(** The loop of [BlockingPipe::read] on what the next reads of the descriptor
    bring; an empty list is a read that never returns. *)
Fixpoint read_loop (p : FrameParser) (unread_ : bytes) (reads : list recv_result)
    : option (frame_result * BlockingPipe * list recv_result) :=
  match reads with
  | [] => None
  | RecvClosed :: reads' =>
      Some (Err (mkReadError Closed (lit "the input ended") 0 []), mkPipe p unread_, reads')
  | RecvFailed why :: reads' =>
      Some (Err (mkReadError Closed why 0 []), mkPipe p unread_, reads')
  | Got chunk :: reads' =>
      let '(step, p') := feed p chunk in
      let unread' := drop (consumed step) chunk in
      match frame step with
      | Some f => Some (f, mkPipe p' unread', reads')
      | None => read_loop p' unread' reads'
      end
  end.

Definition read (pipe : BlockingPipe) (reads : list recv_result)
    : option (frame_result * BlockingPipe * list recv_result) :=
  let '(step, p') := feed (parser pipe) (unread pipe) in
  let unread' := drop (consumed step) (unread pipe) in
  match frame step with
  | Some f => Some (f, mkPipe p' unread', reads)
  | None => read_loop p' unread' reads
  end.

(** What [BlockingPipe::write] sends for a payload, in order. *)
Definition write_frame (payload : bytes) : bytes :=
  frame_header (Z.of_nat (length payload)) ++ payload.

(** ** Finding the blank line across pieces *)

Lemma blank_line_nonempty : blank_line ≠ [].
Proof. done. Qed.

Lemma before_occurs h w before :
  (1 ≤ before ≤ 3)%nat → (before ≤ length h)%nat →
  (ends_with h (take before blank_line) && starts_with w (drop before blank_line) = true
   ↔ occurs blank_line (h ++ w) (length h - before)).
Proof.
  intros Hb Hl.
  assert (Et : length (take before blank_line) = before) by (rewrite length_take; simpl; lia).
  assert (Ed : length (drop before blank_line) = (4 - before)%nat) by (rewrite length_drop; done).
  unfold ends_with, occurs. rewrite andb_true_iff, starts_with_iff, Et, Ed.
  rewrite andb_true_iff, Nat.leb_le, bool_decide_eq_true.
  rewrite drop_app_le by lia. set (t := drop (length h - before) h).
  assert (Hlt : length t = before) by (subst t; rewrite length_drop; lia).
  change (length blank_line) with 4%nat.
  replace 4%nat with (length t + (4 - before))%nat at 2 by lia.
  rewrite take_app_add. split.
  - intros [[_ ->] ->]. apply take_drop.
  - intros E. rewrite <- (take_drop before blank_line) in E.
    apply app_inj_1 in E as [-> ->]; [|lia]. split; [|done]. split; [lia|done].
Qed.

(** The earliest blank line that begins in the last [m] bytes of the header. *)
Lemma header_end_before_first h w m :
  (m ≤ 3)%nat → (m ≤ length h)%nat →
  match header_end_before m h w with
  | Some n => ∃ k, (length h - m ≤ k < length h)%nat ∧ n = (k + 4 - length h)%nat ∧
      occurs blank_line (h ++ w) k ∧
      ∀ j, (length h - m ≤ j < k)%nat → ¬ occurs blank_line (h ++ w) j
  | None => ∀ j, (length h - m ≤ j < length h)%nat → ¬ occurs blank_line (h ++ w) j
  end.
Proof.
  induction m as [|m IH]; intros H3 Hm; [simpl; intros; lia|].
  cbn [header_end_before]. pose proof (before_occurs h w (S m) ltac:(lia) ltac:(lia)) as Ho.
  destruct (ends_with _ _ && starts_with _ _) eqn:E.
  - exists (length h - S m)%nat. split; [lia|]. split; [change (length blank_line) with 4%nat; lia|].
    split; [by apply Ho|]. intros j Hj. lia.
  - assert (Hno : ¬ occurs blank_line (h ++ w) (length h - S m)) by (intros X; apply Ho in X; done).
    specialize (IH ltac:(lia) ltac:(lia)).
    destruct (header_end_before m h w) as [n|].
    + destruct IH as (k & Hk & -> & H1 & H2). exists k. split; [lia|]. split; [done|].
      split; [done|]. intros j Hj. destruct (decide (j = length h - S m)%nat) as [->|]; [done|].
      apply H2. lia.
    + intros j Hj. destruct (decide (j = length h - S m)%nat) as [->|]; [done|]. apply IH. lia.
Qed.

Lemma occurs_shift h w k : occurs blank_line (h ++ w) (length h + k) ↔ occurs blank_line w k.
Proof. unfold occurs. by rewrite drop_app_add. Qed.

(** Searching piece by piece finds the blank line a search of the whole input
    finds. *)
Lemma header_end_find h w :
  find_sub blank_line h = None →
  header_end h w = (λ k, (k + 4 - length h)%nat) <$> find_sub blank_line (h ++ w).
Proof.
  intros Hn. pose proof (find_sub_first blank_line h blank_line_nonempty) as Hh. rewrite Hn in Hh.
  assert (Hlow : ∀ j, (j + 4 ≤ length h)%nat → ¬ occurs blank_line (h ++ w) j).
  { intros j Hj Ho. apply (Hh j). by apply occurs_app_inv in Ho. }
  unfold header_end.
  pose proof (header_end_before_first h w (min 3 (length h)) ltac:(lia) ltac:(lia)) as Hb.
  destruct (header_end_before _ h w) as [n|].
  - destruct Hb as (k & Hk & -> & H1 & H2).
    rewrite (find_sub_unique blank_line (h ++ w) k); [done|done|done|].
    intros j Hj. destruct (decide (j + 4 ≤ length h)%nat); [by apply Hlow|]. apply H2. lia.
  - assert (Hall : ∀ j, (j < length h)%nat → ¬ occurs blank_line (h ++ w) j).
    { intros j Hj. destruct (decide (j + 4 ≤ length h)%nat); [by apply Hlow|]. apply Hb. lia. }
    pose proof (find_sub_first blank_line w blank_line_nonempty) as Hw.
    destruct (find_sub blank_line w) as [k|]; simpl.
    + destruct Hw as [H1 H2].
      rewrite (find_sub_unique blank_line (h ++ w) (length h + k));
        [simpl; f_equal; lia|done|by apply occurs_shift|].
      intros j Hj. destruct (decide (j < length h)%nat); [by apply Hall|].
      replace j with (length h + (j - length h))%nat by lia. rewrite occurs_shift. apply H2. lia.
    + pose proof (find_sub_first blank_line (h ++ w) blank_line_nonempty) as Hhw.
      destruct (find_sub blank_line (h ++ w)) as [k|]; [exfalso|done].
      destruct Hhw as [H1 _]. destruct (decide (k < length h)%nat); [by apply (Hall k)|].
      apply (Hw (k - length h)%nat), (occurs_shift h).
      by replace (length h + (k - length h))%nat with k by lia.
Qed.

(** ** The invariant of the parser *)

Definition wf (p : FrameParser) : Prop :=
  match phase p with
  | Header => find_sub blank_line (header p) = None ∧ (length (header p) ≤ max_header_size)%nat
  | Payload => (0 < remaining p)%Z ∧
      (Z.of_nat (length (payload p)) + remaining p ≤ max_payload p)%Z
  | Skip => (0 < remaining p ≤ skipped_size p)%Z ∧ (max_payload p < skipped_size p < u64_limit)%Z ∧
      Z.of_nat (length (prefix p)) = Z.min (Z.of_nat skipped_prefix_size)
                                           (skipped_size p - remaining p)
  | Broken => (length (header p) ≤ max_header_size + 1)%nat
  end.

(** ** Pieces of a payload *)

(** A step that took [n] bytes more. *)
Definition shift (n : nat) (r : Step * FrameParser) : Step * FrameParser :=
  let '(st, p) := r in (mkStep (n + consumed st) (frame st), p).

(** What a call on [a] says of a call on [a ++ b]: a frame it finished is
    finished all the same, and one it did not is carried on with [b]. *)
Definition resumes (next : FrameParser → bytes → Step * FrameParser)
    (whole : Step * FrameParser) (a b : bytes) (part : Step * FrameParser) : Prop :=
  match frame (part.1) with
  | Some _ => whole = part
  | None => consumed (part.1) = length a ∧ whole = shift (length a) (next part.2 b)
  end.

Lemma substr_app_l (a b : bytes) c n :
  (c ≤ length a)%nat → (n ≤ length a - c)%nat → substr (a ++ b) c n = substr a c n.
Proof.
  intros. unfold substr. rewrite drop_app_le by lia.
  rewrite take_app_le; [done|]. rewrite length_drop. lia.
Qed.

Lemma substr_split (a b : bytes) c n :
  (c ≤ length a)%nat → (length a - c ≤ n)%nat →
  substr (a ++ b) c n = substr a c (length a - c) ++ substr b 0 (n - (length a - c)).
Proof.
  intros. unfold substr. rewrite drop_app_le, drop_0 by lia.
  rewrite (take_ge (drop c a)) by (rewrite length_drop; lia).
  replace n with (length (drop c a) + (n - (length a - c)))%nat at 1
    by (rewrite length_drop; lia).
  by rewrite take_app_add.
Qed.

Lemma substr_shift (a b : bytes) c n : substr (a ++ b) (length a + c) n = substr b c n.
Proof. unfold substr. by rewrite drop_app_add. Qed.

Lemma feed_payload_app p a b c :
  (c ≤ length a)%nat → (0 ≤ remaining p)%Z →
  resumes (λ p' b', feed_payload p' b' 0) (feed_payload p (a ++ b) c) a b (feed_payload p a c).
Proof.
  intros Hc Hr. unfold resumes. remember (feed_payload p a c) as part eqn:Ep. unfold feed_payload in Ep.
  destruct (remaining p - Z.min (remaining p) (Z.of_nat (length a - c)) =? 0)%Z eqn:E;
    bool_prop; subst part; cbn [negb fst frame consumed snd].
  - unfold feed_payload. rewrite length_app.
    replace (Z.min (remaining p) (Z.of_nat (length a + length b - c))) with (remaining p) by lia.
    replace (Z.min (remaining p) (Z.of_nat (length a - c))) with (remaining p) by lia.
    rewrite Z.sub_diag. cbn [negb Z.eqb]. by rewrite substr_app_l by lia.
  - split; [lia|].
    replace (Z.min (remaining p) (Z.of_nat (length a - c))) with (Z.of_nat (length a - c)) by lia.
    unfold feed_payload. cbn [remaining payload max_payload header prefix failure skipped_size].
    rewrite length_app, Nat.sub_0_r, Nat2Z.id.
    set (r := (remaining p - Z.of_nat (length a - c))%Z).
    replace (Z.min (remaining p) (Z.of_nat (length a + length b - c)))
      with (Z.of_nat (length a - c) + Z.min r (Z.of_nat (length b)))%Z by lia.
    set (t := Z.min r (Z.of_nat (length b))).
    replace (Z.to_nat (Z.of_nat (length a - c) + t)) with ((length a - c) + Z.to_nat t)%nat by lia.
    rewrite substr_split by lia.
    replace (length a - c + Z.to_nat t - (length a - c))%nat with (Z.to_nat t) by lia.
    replace (remaining p - (Z.of_nat (length a - c) + t))%Z with (r - t)%Z by lia.
    unfold shift. rewrite app_assoc.
    case_if; cbn [consumed frame]; f_equal; f_equal; lia.
Qed.

Lemma feed_payload_shift p a b c :
  feed_payload p (a ++ b) (length a + c) = shift (length a) (feed_payload p b c).
Proof.
  unfold feed_payload. rewrite length_app, substr_shift.
  replace (length a + length b - (length a + c))%nat with (length b - c)%nat by lia.
  unfold shift. case_if; cbn [consumed frame]; f_equal; f_equal; lia.
Qed.

Lemma feed_skip_app p a b c :
  (c ≤ length a)%nat → (0 ≤ remaining p)%Z → (length (prefix p) ≤ skipped_prefix_size)%nat →
  resumes (λ p' b', feed_skip p' b' 0) (feed_skip p (a ++ b) c) a b (feed_skip p a c).
Proof.
  intros Hc Hr Hp. unfold resumes. remember (feed_skip p a c) as part eqn:Ep. unfold feed_skip in Ep.
  destruct (remaining p - Z.min (remaining p) (Z.of_nat (length a - c)) =? 0)%Z eqn:E;
    bool_prop; subst part; cbn [negb fst frame consumed snd].
  - unfold feed_skip. rewrite length_app.
    replace (Z.min (remaining p) (Z.of_nat (length a + length b - c))) with (remaining p) by lia.
    replace (Z.min (remaining p) (Z.of_nat (length a - c))) with (remaining p) by lia.
    rewrite Z.sub_diag. cbn [negb Z.eqb]. by rewrite substr_app_l by lia.
  - split; [lia|].
    replace (Z.min (remaining p) (Z.of_nat (length a - c))) with (Z.of_nat (length a - c)) by lia.
    unfold feed_skip, oversized_message.
    cbn [remaining payload max_payload header prefix failure skipped_size].
    rewrite length_app, Nat.sub_0_r, Nat2Z.id.
    set (r := (remaining p - Z.of_nat (length a - c))%Z).
    replace (Z.min (remaining p) (Z.of_nat (length a + length b - c)))
      with (Z.of_nat (length a - c) + Z.min r (Z.of_nat (length b)))%Z by lia.
    set (t := Z.min r (Z.of_nat (length b))).
    replace (Z.to_nat (Z.of_nat (length a - c) + t)) with ((length a - c) + Z.to_nat t)%nat by lia.
    replace (remaining p - (Z.of_nat (length a - c) + t))%Z with (r - t)%Z by lia.
    set (room := (skipped_prefix_size - length (prefix p))%nat).
    set (t' := Z.to_nat t).
    assert (Epre : prefix p ++ substr (a ++ b) c (min (length a - c + t') room)
      = (prefix p ++ substr a c (min (length a - c) room)) ++
        substr b 0 (min t' (skipped_prefix_size
                            - length (prefix p ++ substr a c (min (length a - c) room))))).
    { rewrite <- app_assoc. f_equal. rewrite length_app, length_substr.
      destruct (decide (room ≤ length a - c)%nat).
      - replace (min t' _) with 0%nat by lia.
        replace (min (length a - c + t') room) with room by lia.
        replace (min (length a - c) room) with room by lia.
        rewrite substr_app_l by lia. by rewrite app_nil_r.
      - rewrite substr_split by lia. rewrite (Nat.min_l (length a - c) room) by lia.
        f_equal. f_equal. lia. }
    rewrite Epre. unfold shift. case_if; cbn [consumed frame]; f_equal; f_equal; lia.
Qed.

Lemma feed_skip_shift p a b c :
  feed_skip p (a ++ b) (length a + c) = shift (length a) (feed_skip p b c).
Proof.
  unfold feed_skip. rewrite length_app, substr_shift.
  replace (length a + length b - (length a + c))%nat with (length b - c)%nat by lia.
  unfold shift. case_if; cbn [consumed frame]; f_equal; f_equal; lia.
Qed.

(** ** Pieces of a header *)

(** The header phase on the whole of what was read since the last frame. *)
Lemma feed_header_whole p input :
  find_sub blank_line (header p) = None → (length (header p) ≤ max_header_size)%nat →
  let whole := take (max_header_size + 1) (header p ++ input) in
  feed_header p input =
    match find_sub blank_line whole with
    | None =>
        if (max_header_size <? length whole)%nat
        then break_with (with_header p whole) (length whole - length (header p)) header_too_long
        else (mkStep (length whole - length (header p)) None, with_header p whole)
    | Some k => header_complete p input (take (k + 4) whole) (k + 4 - length (header p))
    end ∧
  (∀ k, find_sub blank_line whole = Some k → (length (header p) < k + 4 ≤ length whole)%nat).
Proof.
  intros Hn Hl whole. unfold feed_header.
  set (window := take (max_header_size + 1 - length (header p)) input).
  assert (Ew : whole = header p ++ window) by (subst whole; rewrite take_app_ge by lia; done).
  rewrite (header_end_find _ _ Hn), <- Ew.
  assert (Hk : ∀ k, find_sub blank_line whole = Some k →
                    (length (header p) < k + 4 ≤ length whole)%nat).
  { intros k Ek. split.
    - rewrite Ew in Ek. by apply find_sub_none_app in Ek.
    - by apply find_sub_length in Ek. }
  split; [|done].
  assert (El : length window = (length whole - length (header p))%nat)
    by (rewrite Ew, length_app; lia).
  destruct (find_sub blank_line whole) as [k|] eqn:E; simpl; [|by rewrite El].
  f_equal. rewrite Ew. specialize (Hk k eq_refl). rewrite Ew, length_app in Hk.
  rewrite (take_app_ge _ _ (k + 4)) by lia. done.
Qed.

Lemma content_length_bound h n : content_length h = Ok n → (0 ≤ n < u64_limit)%Z.
Proof.
  unfold content_length. generalize (length h). intros fuel. revert h.
  induction fuel as [|fuel IH]; intros h H; [done|].
  destruct h as [|c h']; [done|]. set (h := c :: h') in *. cbn [content_length_from] in H.
  change (match h with [] => _ | _ => ?x end) with x in H. cbv zeta in H.
  destruct (find_index _ _) as [colon|]; [|by apply IH in H].
  case_if_in H; [by apply IH in H|].
  destruct (from_chars_u64 _) as [[z|] [|]] eqn:E; try done.
  case_if_in H; [done|]. simplify_eq. by apply from_chars_bound in E.
Qed.

Lemma feed_payload_phase p b c :
  frame (feed_payload p b c).1 = None → phase (feed_payload p b c).2 = Payload.
Proof. unfold feed_payload. by case_if. Qed.

Lemma feed_skip_phase p b c :
  frame (feed_skip p b c).1 = None → phase (feed_skip p b c).2 = Skip.
Proof. unfold feed_skip. by case_if. Qed.

Lemma resumes_phase (next : FrameParser → bytes → Step * FrameParser) whole a b part :
  (frame part.1 = None → next part.2 b = feed part.2 b) →
  resumes next whole a b part → resumes feed whole a b part.
Proof.
  unfold resumes. intros Hn H. destruct (frame part.1); [done|].
  destruct H as [H1 H2]. split; [done|]. by rewrite <- Hn.
Qed.

Lemma feed_payload_resumes p a b c :
  (c ≤ length a)%nat → (0 ≤ remaining p)%Z →
  resumes feed (feed_payload p (a ++ b) c) a b (feed_payload p a c).
Proof.
  intros. eapply resumes_phase; [|by apply feed_payload_app].
  intros Hf. unfold feed. by rewrite feed_payload_phase.
Qed.

Lemma feed_skip_resumes p a b c :
  (c ≤ length a)%nat → (0 ≤ remaining p)%Z → (length (prefix p) ≤ skipped_prefix_size)%nat →
  resumes feed (feed_skip p (a ++ b) c) a b (feed_skip p a c).
Proof.
  intros. eapply resumes_phase; [|by apply feed_skip_app].
  intros Hf. unfold feed. by rewrite feed_skip_phase.
Qed.

Lemma header_complete_app p a b h n :
  (n ≤ length a)%nat →
  resumes feed (header_complete p (a ++ b) h n) a b (header_complete p a h n).
Proof.
  intros Hn. unfold header_complete. case_if; [done|].
  destruct (content_length h) as [len|why] eqn:E; [|done].
  apply content_length_bound in E. case_if.
  - apply feed_skip_resumes; simpl; lia.
  - apply feed_payload_resumes; simpl; lia.
Qed.

Lemma header_complete_shift p a b h n :
  header_complete p (a ++ b) h (length a + n) = shift (length a) (header_complete p b h n).
Proof.
  unfold header_complete. case_if; [done|].
  destruct (content_length h) as [len|why] eqn:E; [|done].
  case_if; [apply feed_skip_shift|apply feed_payload_shift].
Qed.

Lemma feed_header_app p a b :
  find_sub blank_line (header p) = None → (length (header p) ≤ max_header_size)%nat →
  phase p = Header →
  resumes feed (feed_header p (a ++ b)) a b (feed_header p a).
Proof.
  intros Hn Hl Hph.
  destruct (feed_header_whole p a Hn Hl) as [Ea Hka].
  destruct (feed_header_whole p (a ++ b) Hn Hl) as [Eab _].
  set (wa := take (max_header_size + 1) (header p ++ a)) in *.
  set (wab := take (max_header_size + 1) (header p ++ a ++ b)) in *.
  assert (Ewab : wab = wa ++ take (max_header_size + 1 - length (header p ++ a)) b).
  { subst wa wab. rewrite app_assoc. by rewrite take_app. }
  assert (Hwa : length wa = min (max_header_size + 1) (length (header p) + length a)).
  { subst wa. by rewrite length_take, length_app. }
  rewrite Ea, Eab. destruct (find_sub blank_line wa) as [k|] eqn:Ek.
  - specialize (Hka k eq_refl).
    rewrite Ewab, (find_sub_app_l _ _ _ k), take_app_le by (done || lia).
    apply header_complete_app. lia.
  - destruct (max_header_size <? length wa)%nat eqn:Em; bool_prop.
    + replace (max_header_size + 1 - length (header p ++ a))%nat with 0%nat in Ewab
        by (rewrite length_app; lia).
      rewrite take_0, app_nil_r in Ewab. rewrite Ewab, Ek.
      rewrite (proj2 (Nat.ltb_lt _ _)) by lia. done.
    + assert (Ewa : wa = header p ++ a) by (subst wa; apply take_ge; rewrite length_app; lia).
      unfold resumes. cbn [fst snd frame consumed]. rewrite Ewa, length_app in Em.
      split; [lia|].
      unfold feed. cbn [phase with_header].
      destruct (feed_header_whole (with_header p wa) b) as [Eb Hkb];
        [done|simpl; rewrite Ewa, length_app; lia|].
      rewrite Eb. cbn [header with_header] in *. rewrite Ewa in *.
      rewrite <- (app_assoc (header p)) in *. fold wab in Eb, Hkb |- *.
      destruct (find_sub blank_line wab) as [k|] eqn:Ekb.
      * specialize (Hkb k eq_refl). rewrite length_app in *.
        replace (k + 4 - length (header p))%nat
          with (length a + (k + 4 - (length (header p) + length a)))%nat by lia.
        by rewrite header_complete_shift.
      * assert (length (header p) + length a ≤ length wab)%nat.
        { rewrite Ewab, !length_app. lia. }
        rewrite length_app. case_if; unfold shift, break_with, malformed;
          cbn [consumed frame]; f_equal; f_equal; lia.
Qed.

(** One call on a longer piece is the calls on its parts. *)
Lemma feed_app p a b : wf p → resumes feed (feed p (a ++ b)) a b (feed p a).
Proof.
  unfold wf. intros Hwf. unfold feed at 2 3. destruct (phase p) eqn:Ep.
  - destruct Hwf as [H1 H2]. by apply feed_header_app.
  - destruct Hwf as [H1 H2]. apply feed_payload_resumes; lia.
  - destruct Hwf as (H1 & H2 & H3). apply feed_skip_resumes; lia.
  - done.
Qed.

(** ** Preservation and progress *)

Lemma wf_new m : wf (new_parser m).
Proof. split; [done|simpl; lia]. Qed.

Lemma wf_after_frame p : phase p = Header → header p = [] → wf p.
Proof. intros E1 E2. unfold wf. rewrite E1, E2. split; [done|simpl; lia]. Qed.

Lemma feed_payload_wf p input c :
  (c ≤ length input)%nat → (0 ≤ remaining p)%Z → header p = [] →
  (Z.of_nat (length (payload p)) + remaining p ≤ max_payload p)%Z →
  wf (feed_payload p input c).2.
Proof.
  intros Hc Hr Hh Hm. unfold feed_payload. case_if; bool_prop; cbn [snd].
  - unfold wf. cbn [phase remaining payload max_payload]. rewrite length_app, length_substr. lia.
  - by apply wf_after_frame.
Qed.

Lemma feed_skip_wf p input c :
  (c ≤ length input)%nat → (0 ≤ remaining p ≤ skipped_size p)%Z → header p = [] →
  (max_payload p < skipped_size p < u64_limit)%Z →
  Z.of_nat (length (prefix p))
    = Z.min (Z.of_nat skipped_prefix_size) (skipped_size p - remaining p) →
  wf (feed_skip p input c).2.
Proof.
  intros Hc Hr Hh Hm Hp. unfold feed_skip. case_if; bool_prop; cbn [snd].
  - unfold wf. cbn [phase remaining prefix max_payload skipped_size].
    rewrite length_app, length_substr. lia.
  - by apply wf_after_frame.
Qed.

Lemma header_complete_wf p input h n :
  (n ≤ length input)%nat → (length h ≤ max_header_size + 1)%nat →
  wf (header_complete p input h n).2.
Proof.
  intros Hn Hh. unfold header_complete. case_if; [done|].
  destruct (content_length h) as [len|why] eqn:E; [|done].
  apply content_length_bound in E. case_if; bool_prop.
  - apply feed_skip_wf; simpl; lia || done.
  - apply feed_payload_wf; simpl; lia || done.
Qed.

(** Between calls the payload and skip phases hold no header. *)
Definition ok (p : FrameParser) : Prop :=
  wf p ∧ match phase p with Payload | Skip => header p = [] | _ => True end.

Lemma feed_payload_header p input c : header p = [] → header (feed_payload p input c).2 = [].
Proof. unfold feed_payload. by case_if. Qed.

Lemma feed_skip_header p input c : header p = [] → header (feed_skip p input c).2 = [].
Proof. unfold feed_skip. by case_if. Qed.

Lemma feed_ok p input : ok p → ok (feed p input).2.
Proof.
  intros [Hwf Hh]. pose proof Hwf as Hwf'. unfold wf in Hwf'. unfold feed.
  destruct (phase p) eqn:Ep.
  - destruct Hwf' as [H1 H2]. destruct (feed_header_whole p input H1 H2) as [E Hk]. rewrite E.
    set (whole := take (max_header_size + 1) (header p ++ input)) in *.
    assert (Hl : (length whole ≤ max_header_size + 1)%nat) by (subst whole; rewrite length_take; lia).
    assert (Hl' : (length whole ≤ length (header p) + length input)%nat)
      by (subst whole; rewrite length_take, length_app; lia).
    destruct (find_sub blank_line whole) as [k|] eqn:Ek.
    + specialize (Hk k eq_refl). split.
      * apply header_complete_wf; [lia|]. rewrite length_take. lia.
      * unfold header_complete. case_if; [done|].
        destruct (content_length _); [|done].
        case_if; [rewrite feed_skip_header by done|rewrite feed_payload_header by done];
          by case_match.
    + case_if; bool_prop.
      * by split.
      * split; [|done]. split; [done|simpl; lia].
  - destruct Hwf' as [H1 H2]. split; [by apply feed_payload_wf; lia || done|].
    rewrite feed_payload_header by done. by case_match.
  - destruct Hwf' as (H1 & H2 & H3). split; [by apply feed_skip_wf; lia || done|].
    rewrite feed_skip_header by done. by case_match.
  - split; [done|]. simpl. by rewrite Ep.
Qed.

Lemma feed_payload_consumed p input c :
  (c ≤ length input)%nat → (0 ≤ remaining p)%Z →
  (c ≤ consumed (feed_payload p input c).1 ≤ length input)%nat ∧
  ((0 < remaining p)%Z → (c < length input)%nat → (c < consumed (feed_payload p input c).1)%nat).
Proof. intros. unfold feed_payload. case_if; cbn [consumed fst]; lia. Qed.

Lemma feed_skip_consumed p input c :
  (c ≤ length input)%nat → (0 ≤ remaining p)%Z →
  (c ≤ consumed (feed_skip p input c).1 ≤ length input)%nat ∧
  ((0 < remaining p)%Z → (c < length input)%nat → (c < consumed (feed_skip p input c).1)%nat).
Proof. intros. unfold feed_skip. case_if; cbn [consumed fst]; lia. Qed.

Lemma header_complete_consumed p input h n :
  (n ≤ length input)%nat → (n ≤ consumed (header_complete p input h n).1 ≤ length input)%nat.
Proof.
  intros Hn. unfold header_complete. case_if; [simpl; lia|].
  destruct (content_length h) as [len|why] eqn:E; [|simpl; lia].
  apply content_length_bound in E.
  case_if; [apply feed_skip_consumed|apply feed_payload_consumed]; simpl; lia.
Qed.

(** A call takes no more than there is, and, unless the input is broken, at
    least a byte of an input that is not empty. *)
Lemma feed_consumed p input :
  wf p →
  (consumed (feed p input).1 ≤ length input)%nat ∧
  (phase p ≠ Broken → input ≠ [] → (1 ≤ consumed (feed p input).1)%nat).
Proof.
  intros Hwf. unfold wf in Hwf. unfold feed.
  assert (Hne : input ≠ [] → (1 ≤ length input)%nat) by (destruct input; simpl; [done|lia]).
  destruct (phase p) eqn:Ep.
  - destruct Hwf as [H1 H2]. destruct (feed_header_whole p input H1 H2) as [E Hk]. rewrite E.
    set (whole := take (max_header_size + 1) (header p ++ input)) in *.
    assert (Hl : length whole = min (max_header_size + 1) (length (header p) + length input))
      by (subst whole; by rewrite length_take, length_app).
    destruct (find_sub blank_line whole) as [k|] eqn:Ek.
    + specialize (Hk k eq_refl).
      pose proof (header_complete_consumed p input (take (k + 4) whole)
                    (k + 4 - length (header p)) ltac:(lia)). split; [lia|]. intros. lia.
    + case_if; cbn [break_with malformed fst consumed]; split; try lia; intros _ Hi;
        specialize (Hne Hi); lia.
  - destruct Hwf as [H1 H2].
    destruct (feed_payload_consumed p input 0 ltac:(lia) ltac:(lia)) as [Hc1 Hc2].
    split; [lia|]. intros _ Hi. specialize (Hne Hi). lia.
  - destruct Hwf as (H1 & H2 & H3).
    destruct (feed_skip_consumed p input 0 ltac:(lia) ltac:(lia)) as [Hc1 Hc2].
    split; [lia|]. intros _ Hi. specialize (Hne Hi). lia.
  - simpl. split; [lia|done].
Qed.

(** Nothing is finished without input. *)
Lemma feed_nil p : wf p → phase p ≠ Broken → frame (feed p []).1 = None.
Proof.
  intros Hwf Hb. unfold wf in Hwf. unfold feed. destruct (phase p) eqn:Ep; [..|done].
  - destruct Hwf as [H1 H2]. destruct (feed_header_whole p [] H1 H2) as [E _]. rewrite E.
    rewrite app_nil_r, take_ge by lia. rewrite H1.
    by rewrite (proj2 (Nat.ltb_ge _ _)) by lia.
  - destruct Hwf as [H1 H2]. unfold feed_payload. simpl length. simpl Z.of_nat.
    rewrite Z.min_r, Z.sub_0_r by lia. by rewrite (proj2 (Z.eqb_neq _ _)) by lia.
  - destruct Hwf as (H1 & H2 & H3). unfold feed_skip. simpl length. simpl Z.of_nat.
    rewrite Z.min_r, Z.sub_0_r by lia. by rewrite (proj2 (Z.eqb_neq _ _)) by lia.
Qed.
