(* ===== verification/FrameStream.v ===== *)
(** Streams of frames: what the parser of Framing.v makes of a whole input,
    and what the blocking reader of src/ipc/blocking_client.cpp returns.

    [drain] is the reference: the results of one input held whole.  The
    theorems show that cutting the input into pieces, as a socket does,
    changes neither the results nor the state they leave, that the frames a
    peer writes are read back whatever the pieces are, that an oversized frame
    is skipped and the ones after it are read, and how much a parser holds. *)

From Stdlib Require Import Strings.Byte ZArith Lia Bool.
From stdpp Require Import prelude strings.
From S2P Require Import Prelude Naming Charconv Framing.
Local Open Scope kota_scope.

(** ** The results of an input *)

(** Feeding what is left until it ends in no result or the parser is broken.
    Every result but a last one takes a byte or more. *)
Fixpoint drain_from (fuel : nat) (p : FrameParser) (input : bytes)
    : list frame_result * FrameParser :=
  match fuel with
  | O => ([], p)
  | S fuel' =>
      match phase p with
      | Broken => ([], p)
      | _ =>
          let '(step, p') := feed p input in
          match frame step with
          | None => ([], p')
          | Some f =>
              let '(fs, q) := drain_from fuel' p' (drop (consumed step) input) in
              (f :: fs, q)
          end
      end
  end.

Definition drain (p : FrameParser) (input : bytes) : list frame_result * FrameParser :=
  drain_from (S (length input)) p input.

(** The input in pieces, each fed until it is used up. *)
Fixpoint run (p : FrameParser) (chunks : list bytes) : list frame_result * FrameParser :=
  match chunks with
  | [] => ([], p)
  | chunk :: chunks' =>
      let '(fs, p') := drain p chunk in
      let '(gs, q) := run p' chunks' in
      (fs ++ gs, q)
  end.

(** [n] calls of [BlockingPipe::read], or as many as return. *)
Fixpoint read_n (n : nat) (pipe : BlockingPipe) (reads : list recv_result) : list frame_result :=
  match n with
  | O => []
  | S n' =>
      match read pipe reads with
      | None => []
      | Some (f, pipe', reads') => f :: read_n n' pipe' reads'
      end
  end.

(** ** Fuel *)

Lemma feed_ok_wf p input : ok p → wf (feed p input).2.
Proof. intros H. by destruct (feed_ok p input H). Qed.

Lemma drain_from_fuel n m p input :
  ok p → (length input < n)%nat → (length input < m)%nat →
  drain_from n p input = drain_from m p input.
Proof.
  revert m p input. induction n as [|n IH]; intros m p input Hok Hn Hm; [lia|].
  destruct m as [|m]; [lia|]. cbn [drain_from].
  pose proof (feed_ok p input Hok) as Hok'. pose proof Hok as [Hwf _].
  destruct (feed_consumed p input Hwf) as [Hc1 Hc2].
  pose proof (feed_nil p Hwf) as Hnil.
  assert (Hgo : phase p ≠ Broken →
    (let '(step, p') := feed p input in
     match frame step with
     | None => ([], p')
     | Some f => let '(fs, q) := drain_from n p' (drop (consumed step) input) in (f :: fs, q)
     end) =
    (let '(step, p') := feed p input in
     match frame step with
     | None => ([], p')
     | Some f => let '(fs, q) := drain_from m p' (drop (consumed step) input) in (f :: fs, q)
     end)).
  { intros Hb. specialize (Hc2 Hb). destruct (feed p input) as [st p'] eqn:Ef. simpl in *.
    destruct (frame st) as [f|] eqn:Efr; [|done].
    destruct input as [|c input]; [rewrite Ef in Hnil; simpl in Hnil; rewrite Hnil in Efr; done|].
    specialize (Hc2 ltac:(done)). rewrite (IH m); [done|done|..]; rewrite length_drop; simpl in *; lia. }
  by destruct (phase p); try apply Hgo.
Qed.

Lemma drain_step p input :
  ok p → phase p ≠ Broken →
  drain p input =
    let '(step, p') := feed p input in
    match frame step with
    | None => ([], p')
    | Some f => let '(fs, q) := drain p' (drop (consumed step) input) in (f :: fs, q)
    end.
Proof.
  intros Hok Hb. unfold drain at 1. cbn [drain_from].
  pose proof (feed_ok p input Hok) as Hok'. pose proof Hok as [Hwf _].
  pose proof (feed_nil p Hwf Hb) as Hnil.
  destruct (feed_consumed p input Hwf) as [_ Hc]. specialize (Hc Hb).
  destruct (feed p input) as [st p'] eqn:Ef. cbn [fst snd] in *.
  destruct (frame st) as [f|] eqn:Efr; [|by destruct (phase p)].
  destruct input as [|c input]; [rewrite Ef in Hnil; simpl in Hnil; rewrite Hnil in Efr; done|].
  specialize (Hc ltac:(done)). unfold drain.
  rewrite (drain_from_fuel _ (S (length (drop (consumed st) (c :: input)))));
    [by destruct (phase p)|done|rewrite length_drop; cbn [length] in *; lia|lia].
Qed.

Lemma drain_broken p input : phase p = Broken → drain p input = ([], p).
Proof. intros E. unfold drain. cbn [drain_from]. by rewrite E. Qed.

Lemma drain_nil p : ok p → phase p ≠ Broken → drain p [] = ([], (feed p []).2).
Proof.
  intros Hok Hb. rewrite drain_step by done. pose proof Hok as [Hwf _].
  pose proof (feed_nil p Hwf Hb). destruct (feed p []) as [st p']. simpl in *. by rewrite H.
Qed.

(** A call that gives no result leaves the parser unbroken. *)
Lemma feed_payload_not_broken p b c : phase (feed_payload p b c).2 ≠ Broken.
Proof. unfold feed_payload. by case_if. Qed.

Lemma feed_skip_not_broken p b c : phase (feed_skip p b c).2 ≠ Broken.
Proof. unfold feed_skip. by case_if. Qed.

Lemma feed_none_unbroken p input : frame (feed p input).1 = None → phase (feed p input).2 ≠ Broken.
Proof.
  unfold feed. destruct (phase p); [|intros _..|done].
  - unfold feed_header. destruct (header_end _ _); [|by case_if].
    unfold header_complete. case_if; [done|]. destruct (content_length _); [|done].
    case_if; intros _; [apply feed_skip_not_broken|apply feed_payload_not_broken].
  - apply feed_payload_not_broken.
  - apply feed_skip_not_broken.
Qed.

(** ** Pieces of an input *)

Lemma feed_nil_state p : wf p → phase p ≠ Broken → (feed p []).2 = p.
Proof.
  intros Hwf Hb. pose proof (feed_nil p Hwf Hb) as Hf. unfold wf in Hwf. unfold feed in *.
  destruct p as [mp ph h pl pre fa rem sk]. simpl in *. destruct ph; [..|done].
  - destruct Hwf as [H1 H2]. destruct (feed_header_whole (mkParser mp Header h pl pre fa rem sk) [] H1 H2)
      as [E _]. rewrite E. cbn [header] in *. rewrite app_nil_r, take_ge by lia. rewrite H1.
    by rewrite (proj2 (Nat.ltb_ge _ _)) by lia.
  - revert Hf. unfold feed_payload. case_if; [|done]. intros _. simpl.
    rewrite Z.min_r, Z.sub_0_r by lia. simpl. by rewrite app_nil_r.
  - revert Hf. unfold feed_skip. case_if; [|done]. intros _. simpl.
    rewrite Z.min_r, Z.sub_0_r by lia. simpl. by rewrite app_nil_r.
Qed.

Lemma drain_nil_id p : ok p → drain p [] = ([], p).
Proof.
  intros Hok. destruct (decide (phase p = Broken)) as [E|E]; [by apply drain_broken|].
  rewrite drain_nil by done. f_equal. apply feed_nil_state; [apply Hok|done].
Qed.

(** A result is followed by the results of what is left of the input. *)
Lemma drain_some p input st p' f :
  ok p → phase p ≠ Broken → feed p input = (st, p') → frame st = Some f →
  drain p input
    = (f :: (drain p' (drop (consumed st) input)).1, (drain p' (drop (consumed st) input)).2) ∧
  ok p' ∧ (length (drop (consumed st) input) < length input)%nat.
Proof.
  intros Hok Hb Ef Efr. rewrite drain_step by done. rewrite Ef. rewrite Efr.
  pose proof (feed_ok p input Hok) as Hok'. rewrite Ef in Hok'. simpl in Hok'.
  destruct Hok as [Hwf _].
  destruct (feed_consumed p input Hwf) as [Hc1 Hc2]. rewrite Ef in Hc1, Hc2. simpl in *.
  split; [by destruct (drain p' _)|]. split; [done|].
  destruct input as [|c input].
  - pose proof (feed_nil p Hwf Hb) as E. rewrite Ef in E. simpl in E. congruence.
  - specialize (Hc2 Hb ltac:(done)). rewrite length_drop. simpl in *. lia.
Qed.

Lemma drain_none p input st p' :
  ok p → phase p ≠ Broken → feed p input = (st, p') → frame st = None →
  drain p input = ([], p').
Proof. intros Hok Hb Ef Efr. rewrite drain_step by done. by rewrite Ef, Efr. Qed.

Lemma drain_ok p input : ok p → ok (drain p input).2.
Proof.
  revert p. induction input as [input IH] using (well_founded_induction (well_founded_ltof _ length)).
  intros p Hok. destruct (decide (phase p = Broken)) as [E|E]; [by rewrite drain_broken|].
  destruct (feed p input) as [st p'] eqn:Ef. destruct (frame st) as [f|] eqn:Efr.
  - destruct (drain_some p input st p' f) as (-> & Hok' & Hl); [done..|]. by apply IH.
  - rewrite (drain_none p input st p') by done.
    pose proof (feed_ok p input Hok) as Hok'. by rewrite Ef in Hok'.
Qed.

Lemma drain_app p a b :
  ok p →
  drain p (a ++ b) =
    ((drain p a).1 ++ (drain (drain p a).2 b).1, (drain (drain p a).2 b).2).
Proof.
  revert p. induction a as [a IH] using (well_founded_induction (well_founded_ltof _ length)).
  intros p Hok. destruct (decide (phase p = Broken)) as [E|E].
  { by rewrite !drain_broken by (rewrite ?drain_broken by done; done). }
  pose proof (feed_app p a b ltac:(apply Hok)) as Happ. unfold resumes in Happ.
  destruct (feed p a) as [st p'] eqn:Ef. cbn [fst snd] in *.
  destruct (frame st) as [f|] eqn:Efr.
  - destruct (drain_some p a st p' f) as (-> & Hok' & Hl); [done..|].
    destruct (drain_some p (a ++ b) st p' f) as (-> & _ & _); [done..|].
    pose proof (feed_consumed p a ltac:(apply Hok)) as [Hc _]. rewrite Ef in Hc. simpl in Hc.
    cbn [fst snd]. rewrite drop_app_le by done. by rewrite (IH _ Hl) by done.
  - destruct Happ as [Hc Happ]. rewrite (drain_none p a st p') by done. cbn [fst snd app].
    pose proof (feed_ok p a Hok) as Hok'. pose proof (feed_none_unbroken p a) as Hu.
    rewrite Ef in Hok', Hu. cbn [fst snd] in *. specialize (Hu Efr).
    rewrite (drain_step p), Happ by done. rewrite (drain_step p' b) by done.
    destruct (feed p' b) as [st2 p2] eqn:E2. cbn [shift consumed frame].
    rewrite drop_app_add. destruct (frame st2); [|done]. by destruct (drain p2 _).
Qed.

(** The pieces an input comes in do not matter. *)
Lemma run_drain p chunks : ok p → run p chunks = drain p (mjoin chunks).
Proof.
  revert p. induction chunks as [|c chunks IH]; intros p Hok.
  - cbn [run]. by rewrite drain_nil_id.
  - cbn [run]. change (mjoin (c :: chunks)) with (c ++ mjoin chunks). rewrite drain_app by done.
    pose proof (drain_ok p c Hok). destruct (drain p c) as [fs p']. cbn [fst snd] in *.
    rewrite IH by done. by destruct (drain p' _).
Qed.

Lemma ok_new m : ok (new_parser m).
Proof. split; [apply wf_new|done]. Qed.

(** C3. However an input is cut into pieces, empty ones included, a fresh
    parser gives the results it gives of the whole input, in the same order,
    and is left in the same state. *)
Theorem feed_chunk_invariant m chunks chunks' :
  mjoin chunks = mjoin chunks' → run (new_parser m) chunks = run (new_parser m) chunks'.
Proof. intros E. rewrite !run_drain by apply ok_new. by rewrite E. Qed.

Lemma feed_chunk_invariant_witness :
  run (new_parser 100) [lit "Content-Len"; lit "gth: 2"; crlf ++ [x0d]; [x0a] ++ lit "h"; []; lit "i"]
  = run (new_parser 100) [lit "Content-Length: 2" ++ blank_line ++ lit "hi"].
Proof. apply (feed_chunk_invariant 100). vm_compute. reflexivity. Defined.

(** ** Reading back what was written *)

Lemma digit_not_blank c : is_digit c = true → negb (is_blank c) = true.
Proof.
  revert c. assert (H : ∀ c, implb (is_digit c) (negb (is_blank c)) = true) by by_bytes.
  intros c Hc. specialize (H c). by rewrite Hc in H.
Qed.

Lemma digit_not_cr c : is_digit c = true → c ≠ x0d.
Proof. by intros Hc ->. Qed.

Lemma trim_blank_digits ds :
  Forall (λ c, is_digit c = true) ds → ds ≠ [] → trim (" "%byte :: ds) = ds.
Proof.
  intros Hd Hne. destruct ds as [|d ds']; [done|]. set (ds := d :: ds') in *.
  assert (Hf : Forall (λ c, negb (is_blank c) = true) ds)
    by (eapply Forall_impl; [exact Hd|]; apply digit_not_blank).
  unfold trim.
  assert (E1 : find_index (λ c, negb (is_blank c)) (" "%byte :: ds) = Some 1%nat).
  { cbn [find_index]. change (negb (is_blank " ")) with false. cbv iota.
    inversion Hf as [|?? E ?]; subst. subst ds. cbn [find_index]. by rewrite E. }
  assert (E2 : find_last (λ c, negb (is_blank c)) (" "%byte :: ds) = Some (length ds)).
  { cbn [find_last]. rewrite find_last_all by done. f_equal. subst ds. simpl. lia. }
  rewrite E1, E2. unfold substr. cbn [drop]. apply take_ge. subst ds; simpl; lia.
Qed.

(** One line of a header that names the length. *)
Lemma content_length_from_line fuel h e colon n :
  h ≠ [] → find_sub crlf h = Some e →
  find_index (λ c, c =?b ":"%byte) (take e h) = Some colon →
  equals_ignoring_case (trim (take colon (take e h))) (lit "Content-Length") = true →
  from_chars_u64 (trim (drop (colon + 1) (take e h))) = (Some n, []) →
  trim (drop (colon + 1) (take e h)) ≠ [] →
  content_length_from (S fuel) h = Ok n.
Proof.
  intros Hh Ee Ec Ei En Hne. destruct h as [|c h]; [done|].
  cbn [content_length_from]. rewrite Ee. cbv zeta. rewrite Ec, Ei. cbn [negb].
  by rewrite En, bool_decide_eq_false_2.
Qed.

Definition length_name : bytes := lit "Content-Length:".

Lemma length_name_colon s : find_index (λ c, c =?b ":"%byte) (length_name ++ s) = Some 14%nat.
Proof. reflexivity. Qed.

Lemma length_name_take s : take 14 (length_name ++ s) = lit "Content-Length".
Proof. reflexivity. Qed.

Lemma length_name_drop s : drop (14 + 1) (length_name ++ s) = s.
Proof. reflexivity. Qed.

Lemma length_name_is : equals_ignoring_case (trim (lit "Content-Length")) (lit "Content-Length") = true.
Proof. vm_compute. reflexivity. Qed.

Lemma length_name_cr : x0d ∉ length_name.
Proof. apply (bool_decide_eq_false_1 _). vm_compute. reflexivity. Qed.

Lemma frame_header_line n :
  frame_header n = (length_name ++ " "%byte :: format_u64 n) ++ crlf ++ crlf.
Proof. unfold frame_header. by rewrite <- app_assoc. Qed.

Lemma header_line_cr n : (0 ≤ n < u64_limit)%Z → x0d ∉ length_name ++ " "%byte :: format_u64 n.
Proof.
  intros Hn. destruct (format_u64_digits n Hn) as [Hd _].
  rewrite elem_of_app, elem_of_cons. intros [H|[H|H]]; [by apply length_name_cr|done|].
  rewrite Forall_forall in Hd. apply (digit_not_cr x0d); auto.
Qed.

Lemma content_length_frame_header n :
  (0 ≤ n < u64_limit)%Z → content_length (frame_header n) = Ok n.
Proof.
  intros Hn. destruct (format_u64_digits n Hn) as [Hd Hne].
  unfold content_length. rewrite frame_header_line.
  pose proof (header_line_cr n Hn) as Hcr.
  set (line := length_name ++ " "%byte :: format_u64 n) in *.
  assert (Ef : find_sub crlf (line ++ crlf ++ crlf) = Some (length line))
    by (by apply find_sub_app_notin).
  replace (length (line ++ crlf ++ crlf)) with (S (length line + 3))
    by (rewrite !length_app; simpl; lia).
  pose proof (from_chars_format n [] Hn I) as E. rewrite app_nil_r in E.
  apply (content_length_from_line _ _ (length line) 14);
    rewrite ?take_app_length; unfold line;
    rewrite ?length_name_take, ?length_name_drop, ?trim_blank_digits by done;
    try done; apply length_name_is.
Qed.

Lemma frame_header_length n : (length (frame_header n) ≤ 40)%nat.
Proof.
  rewrite frame_header_line, !length_app. cbn [length]. pose proof (format_u64_length n).
  change (length length_name) with 15%nat. simpl. lia.
Qed.

Lemma frame_header_find n t :
  (0 ≤ n < u64_limit)%Z →
  find_sub blank_line (frame_header n ++ t) = Some (length (frame_header n) - 4)%nat.
Proof.
  intros Hn. rewrite frame_header_line. rewrite <- !app_assoc, (app_assoc length_name).
  change (crlf ++ crlf ++ t) with (blank_line ++ t). unfold blank_line.
  rewrite find_sub_app_notin by by apply header_line_cr.
  f_equal. rewrite app_assoc, !length_app. simpl. lia.
Qed.

(** What is read of a payload written whole: the payload, or, above the
    limit, how long it was and how it began. *)
Definition frame_outcome (m : Z) (x : bytes) : frame_result :=
  if (m <? Z.of_nat (length x))%Z then
    Err (mkReadError Oversized
           (lit "a message of " ++ format_u64 (Z.of_nat (length x)) ++
            lit " bytes exceeds the limit of " ++ format_u64 m ++ lit " bytes")
           (Z.of_nat (length x)) (take skipped_prefix_size x))
  else Ok x.

(** A parser between two frames. *)
Definition between (p : FrameParser) : Prop := phase p = Header ∧ header p = [].

Lemma feed_frame p x rest :
  between p → (Z.of_nat (length x) < u64_limit)%Z →
  ∃ p', feed p (write_frame x ++ rest)
          = (mkStep (length (write_frame x)) (Some (frame_outcome (max_payload p) x)), p') ∧
        between p' ∧ max_payload p' = max_payload p.
Proof.
  intros [Hp Hh] Hx. unfold feed. rewrite Hp.
  destruct (feed_header_whole p (write_frame x ++ rest)) as [E _];
    [by rewrite Hh|rewrite Hh; simpl; lia|].
  unfold write_frame in *. set (n := Z.of_nat (length x)) in *. rewrite Hh in E. cbn [app] in E.
  pose proof (frame_header_length n) as Hl.
  assert (H4 : (4 ≤ length (frame_header n))%nat)
    by (rewrite frame_header_line, !length_app; simpl; lia).
  rewrite <- app_assoc, take_app_ge in E by (unfold max_header_size; lia).
  rewrite frame_header_find in E by lia.
  replace (length (frame_header n) - 4 + 4)%nat with (length (frame_header n)) in E by lia.
  rewrite take_app_length in E. rewrite <- app_assoc, E. clear E.
  cbn [length]. rewrite Nat.sub_0_r. unfold header_complete.
  rewrite (proj2 (Nat.ltb_ge _ _)) by (unfold max_header_size; lia).
  rewrite content_length_frame_header by lia. unfold frame_outcome. fold n.
  assert (Emin : Z.to_nat (Z.min n (Z.of_nat (length (frame_header n ++ x ++ rest)
                     - length (frame_header n)))) = length x) by (rewrite !length_app; lia).
  assert (Ezero : (n - Z.min n (Z.of_nat (length (frame_header n ++ x ++ rest)
                     - length (frame_header n))))%Z = 0%Z) by (rewrite !length_app; lia).
  case_if.
  - unfold feed_skip. cbn [remaining prefix max_payload skipped_size]. rewrite Emin, Ezero.
    cbn [Z.eqb negb app length]. rewrite length_app. rewrite Nat.sub_0_r.
    unfold substr. rewrite drop_app_length.
    replace (take (min (length x) skipped_prefix_size) (x ++ rest)) with (take skipped_prefix_size x);
      [eexists; split; done|].
    rewrite take_app_le by lia. destruct (decide (length x ≤ skipped_prefix_size)%nat).
    + by rewrite Nat.min_l, !take_ge by lia.
    + by rewrite Nat.min_r by lia.
  - unfold feed_payload. cbn [remaining payload max_payload]. rewrite Emin, Ezero.
    cbn [Z.eqb negb app]. unfold substr. rewrite drop_app_length, take_app_length, length_app.
    eexists. split; [done|]. done.
Qed.

Lemma drain_frames p xs :
  ok p → between p → Forall (λ x : bytes, Z.of_nat (length x) < u64_limit)%Z xs →
  (drain p (mjoin (write_frame <$> xs))).1 = frame_outcome (max_payload p) <$> xs ∧
  between (drain p (mjoin (write_frame <$> xs))).2.
Proof.
  intros Hok Hb Hx. revert p Hok Hb. induction Hx as [|x xs Hx _ IH]; intros p Hok Hb.
  - rewrite fmap_nil. cbn [mjoin list_join]. by rewrite drain_nil_id.
  - rewrite fmap_cons.
    change (mjoin (write_frame x :: ?r)) with (write_frame x ++ mjoin r).
    destruct (feed_frame p x (mjoin (write_frame <$> xs)) Hb Hx) as (p' & E & Hb' & Em).
    destruct (drain_some p (write_frame x ++ mjoin (write_frame <$> xs))
                (mkStep (length (write_frame x)) (Some (frame_outcome (max_payload p) x)))
                p' (frame_outcome (max_payload p) x))
      as (-> & Hok' & _); [done|by destruct Hb as [-> _]|done|done|].
    cbn [fst snd consumed]. rewrite drop_app_length.
    destruct (IH p' Hok' Hb') as [-> Hend]. by rewrite Em.
Qed.

(** C15. What a peer writes is read back: the frames of any payloads, one
    after the other and cut into any pieces, give each payload in order, and
    for one longer than the limit its length and its first bytes instead,
    without losing the ones after it. *)
Theorem frames_roundtrip m xs chunks :
  Forall (λ x : bytes, Z.of_nat (length x) < u64_limit)%Z xs →
  mjoin chunks = mjoin (write_frame <$> xs) →
  (run (new_parser m) chunks).1 = frame_outcome m <$> xs.
Proof.
  intros Hx E. rewrite run_drain, E by apply ok_new.
  by apply (drain_frames (new_parser m)); [apply ok_new|done|].
Qed.

Lemma frames_roundtrip_witness :
  (run (new_parser 3)
     [lit "Content-Length: 2" ++ crlf ++ [x0d]; [x0a] ++ lit "h"; lit "iContent-Length: 4";
      blank_line ++ lit "long" ++ lit "Content-Length: 0" ++ blank_line]).1
  = frame_outcome 3 <$> [lit "hi"; lit "long"; []].
Proof.
  apply (frames_roundtrip 3).
  - repeat constructor; vm_compute; reflexivity.
  - vm_compute. reflexivity.
Defined.

(** ** The blocking reader *)

Definition closed_error : ReadError := mkReadError Closed (lit "the input ended") 0 [].

Lemma read_loop_drain p u chunks tail :
  ok p → phase p ≠ Broken →
  match (drain p (mjoin chunks)).1 with
  | f :: fs => ∃ pipe' chunks',
      read_loop p u ((Got <$> chunks) ++ tail) = Some (f, pipe', (Got <$> chunks') ++ tail) ∧
      ok (parser pipe') ∧
      drain (parser pipe') (unread pipe' ++ mjoin chunks') = (fs, (drain p (mjoin chunks)).2)
  | [] => ∃ p' u', ok p' ∧ phase p' ≠ Broken ∧
      read_loop p u ((Got <$> chunks) ++ tail) = read_loop p' u' tail
  end.
Proof.
  revert p u. induction chunks as [|c chunks IH]; intros p u Hok Hb.
  - cbn [mjoin list_join]. rewrite drain_nil_id by done. cbn [fst fmap list_fmap app]. by exists p, u.
  - change (mjoin (c :: chunks)) with (c ++ mjoin chunks). rewrite drain_app by done.
    rewrite fmap_cons. cbn [app read_loop]. pose proof (feed_ok p c Hok) as Hok'.
    pose proof (feed_none_unbroken p c) as Hu.
    destruct (feed p c) as [st p'] eqn:Ef. cbn [fst snd] in *.
    destruct (frame st) as [f|] eqn:Efr.
    + destruct (drain_some p c st p' f) as (-> & _ & _); [done..|]. cbn [fst snd app].
      exists (mkPipe p' (drop (consumed st) c)), chunks. split; [done|]. split; [done|].
      cbn [parser unread]. by rewrite drain_app.
    + rewrite (drain_none p c st p') by done. cbn [fst snd app]. apply IH; auto.
Qed.

(** One call of [read] gives the first result of what is unread and still to
    come, and keeps the rest for the next call. *)
Lemma read_drain pipe chunks tail :
  ok (parser pipe) → phase (parser pipe) ≠ Broken →
  match (drain (parser pipe) (unread pipe ++ mjoin chunks)).1 with
  | f :: fs => ∃ pipe' chunks',
      read pipe ((Got <$> chunks) ++ tail) = Some (f, pipe', (Got <$> chunks') ++ tail) ∧
      ok (parser pipe') ∧
      drain (parser pipe') (unread pipe' ++ mjoin chunks')
        = (fs, (drain (parser pipe) (unread pipe ++ mjoin chunks)).2)
  | [] => ∃ p' u', ok p' ∧ phase p' ≠ Broken ∧
      read pipe ((Got <$> chunks) ++ tail) = read_loop p' u' tail
  end.
Proof.
  destruct pipe as [p u]. cbn [parser unread]. intros Hok Hb.
  pose proof (read_loop_drain p [] (u :: chunks) tail Hok Hb) as H.
  change (mjoin (u :: chunks)) with (u ++ mjoin chunks) in H. rewrite fmap_cons in H.
  cbn [app read_loop] in H. unfold read. cbn [parser unread].
  pose proof (feed_ok p u Hok) as Hok'.
  destruct (feed p u) as [st p'] eqn:Ef. destruct (frame st) as [f|] eqn:Efr; exact H.
Qed.

(** Calls of [read] until the input ends give the results of the input. *)
Lemma read_n_drain fs q pipe chunks :
  ok (parser pipe) → drain (parser pipe) (unread pipe ++ mjoin chunks) = (fs, q) →
  phase q ≠ Broken →
  read_n (S (length fs)) pipe ((Got <$> chunks) ++ [RecvClosed]) = fs ++ [Err closed_error].
Proof.
  revert pipe chunks. induction fs as [|f fs IH]; intros pipe chunks Hok E Hq.
  all: assert (Hb : phase (parser pipe) ≠ Broken)
    by (intros Hb; rewrite drain_broken in E by done; by simplify_eq).
  all: pose proof (read_drain pipe chunks [RecvClosed] Hok Hb) as H; rewrite E in H; cbn [fst snd] in H.
  - destruct H as (p' & u' & _ & _ & E'). cbn [read_n length]. by rewrite E'.
  - destruct H as (pipe' & chunks' & E' & Hok' & Ed).
    cbn [length]. remember (S (length fs)) as n. cbn [read_n]. rewrite E'. subst n.
    by rewrite IH.
Qed.

(** A blocking pipe reads back what was written to it: however the
    descriptor hands out the bytes of the frames of some payloads, each call
    of [read] returns the next one, and the call after the last says that the
    input ended. *)
Theorem blocking_read_roundtrip m xs chunks :
  Forall (λ x : bytes, Z.of_nat (length x) < u64_limit)%Z xs →
  mjoin chunks = mjoin (write_frame <$> xs) →
  read_n (S (length xs)) (mkPipe (new_parser m) []) ((Got <$> chunks) ++ [RecvClosed])
  = (frame_outcome m <$> xs) ++ [Err closed_error].
Proof.
  intros Hx E.
  destruct (drain_frames (new_parser m) xs (ok_new m) ltac:(done) Hx) as [E1 [E2 _]].
  rewrite <- E in E1, E2. cbn [max_payload new_parser] in E1.
  destruct (drain (new_parser m) (mjoin chunks)) as [fs q] eqn:Ed. cbn [fst snd] in *.
  rewrite <- E1. rewrite <- (read_n_drain fs q (mkPipe (new_parser m) []) chunks);
    [|apply ok_new|done|by rewrite E2].
  by rewrite E1, length_fmap.
Qed.

Lemma blocking_read_roundtrip_witness :
  read_n 3 (mkPipe (new_parser 3) [])
    ((Got <$> [lit "Content-Length: 2" ++ crlf ++ [x0d]; [x0a] ++ lit "h"; lit "iContent-Length: 4";
      blank_line ++ lit "long"]) ++ [RecvClosed])
  = (frame_outcome 3 <$> [lit "hi"; lit "long"]) ++ [Err closed_error].
Proof.
  apply (blocking_read_roundtrip 3 [lit "hi"; lit "long"]).
  - repeat constructor; vm_compute; reflexivity.
  - vm_compute. reflexivity.
Defined.

(** ** What a parser holds *)

Definition bounded (p : FrameParser) : Prop :=
  (length (header p) ≤ max_header_size + 1)%nat ∧
  (Z.of_nat (length (payload p)) ≤ Z.max 0 (max_payload p))%Z ∧
  (length (prefix p) ≤ skipped_prefix_size)%nat.

Lemma feed_payload_bounded p input c :
  (0 ≤ remaining p)%Z → (Z.of_nat (length (payload p)) + remaining p ≤ max_payload p)%Z →
  bounded p → bounded (feed_payload p input c).2 ∧
  max_payload (feed_payload p input c).2 = max_payload p.
Proof.
  unfold bounded. intros Hr Hm (H1 & H2 & H3). unfold feed_payload.
  case_if; cbn [snd header payload prefix max_payload]; [|cbn [length]; lia].
  rewrite length_app, length_substr. lia.
Qed.

Lemma feed_skip_bounded p input c :
  bounded p → bounded (feed_skip p input c).2 ∧
  max_payload (feed_skip p input c).2 = max_payload p.
Proof.
  unfold bounded. intros (H1 & H2 & H3). unfold feed_skip.
  case_if; cbn [snd header payload prefix max_payload]; [|cbn [length]; lia].
  rewrite length_app, length_substr. lia.
Qed.

Lemma feed_bounded p input :
  ok p → bounded p → bounded (feed p input).2 ∧ max_payload (feed p input).2 = max_payload p.
Proof.
  intros [Hwf _] Hb. unfold feed. pose proof Hwf as Hwf'. unfold wf in Hwf'.
  destruct (phase p) eqn:Ep; [|by apply feed_payload_bounded; lia || done
                              |by apply feed_skip_bounded|done].
  destruct Hwf' as [H1 H2]. destruct Hb as (Hb1 & Hb2 & Hb3).
  destruct (feed_header_whole p input H1 H2) as [E _]. rewrite E.
  set (whole := take (max_header_size + 1) (header p ++ input)) in *.
  assert (Hw : (length whole ≤ max_header_size + 1)%nat) by (subst whole; rewrite length_take; lia).
  destruct (find_sub blank_line whole) as [k|]; [|by case_if].
  assert (Ht : (length (take (k + 4) whole) ≤ max_header_size + 1)%nat) by (rewrite length_take; lia).
  unfold header_complete. case_if; [done|].
  destruct (content_length _) as [len|] eqn:El; [|done]. apply content_length_bound in El.
  case_if; bool_prop.
  - refine (feed_skip_bounded _ _ _ _). unfold bounded. cbn [header payload prefix max_payload length]. lia.
  - refine (feed_payload_bounded _ _ _ _ _ _); [simpl; lia..|]. unfold bounded. cbn [header payload prefix max_payload length]. lia.
Qed.

(** Whatever a peer sends, in whatever pieces, a parser holds at most a
    header of one byte past its limit, a payload of the limit it was given
    and the first 4 KiB of a skipped one; it takes no more of an input than
    there is; and once a header is malformed every later call reports that
    and takes nothing. *)
Theorem parser_bounds m inputs input :
  let p := foldl (λ p i, (feed p i).2) (new_parser m) inputs in
  bounded p ∧ max_payload p = m ∧
  (consumed (feed p input).1 ≤ length input)%nat ∧
  (phase p ≠ Broken → input ≠ [] → (1 ≤ consumed (feed p input).1)%nat) ∧
  (phase p = Broken → (feed p input).2 = p ∧ consumed (feed p input).1 = 0%nat ∧
     frame (feed p input).1 = Some (Err (mkReadError Malformed (failure p) 0 []))).
Proof.
  assert (H : ∀ p, ok p → bounded p →
    let q := foldl (λ p i, (feed p i).2) p inputs in
    ok q ∧ bounded q ∧ max_payload q = max_payload p).
  { induction inputs as [|i inputs IH]; intros p Hok Hb; [done|]. cbn [foldl].
    destruct (feed_bounded p i Hok Hb) as [Hb' Em]. destruct (IH _ (feed_ok p i Hok) Hb')
      as (H1 & H2 & H3). by rewrite H3, Em. }
  intros p. destruct (H (new_parser m) (ok_new m)) as (H1 & H2 & H3); [unfold bounded; cbn [header payload prefix max_payload new_parser length]; lia|].
  fold p in H1, H2, H3. destruct (feed_consumed p input (proj1 H1)) as [Hc1 Hc2].
  repeat split; try done; try apply H2; unfold feed; by rewrite H0.
Qed.

Lemma parser_bounds_witness :
  phase (foldl (λ p i, (feed p i).2) (new_parser 5) [lit "x" ++ blank_line]) = Broken ∧
  consumed (feed (foldl (λ p i, (feed p i).2) (new_parser 5) [lit "x" ++ blank_line]) (lit "y")).1 = 0%nat.
Proof.
  assert (H : phase (foldl (λ p i, (feed p i).2) (new_parser 5) [lit "x" ++ blank_line]) = Broken)
    by (vm_compute; reflexivity).
  split; [exact H|].
  exact (proj1 (proj2 (proj2 (proj2 (proj2 (proj2 (parser_bounds 5 [lit "x" ++ blank_line] (lit "y"))))) H))).
Defined.
