(* ===== verification/Ring.v ===== *)
(** The ring of unread bytes of a stream: src/async/io/ring_buffer.h and
    ring_buffer.cpp.

    The ring is refined to the queue of its unread bytes, [contents].  The
    room [writable] lends is filled by libuv at any later time, other bytes
    being consumed meanwhile: [lent_at] is what stays true of it until then.
    The asserts of the source are the hypotheses of the lemmas. *)

From Stdlib Require Import Strings.Byte ZArith Lia Bool.
From stdpp Require Import prelude strings.
From S2P Require Import Prelude.

(** ** The ring *)

Definition capacity : nat := 64 * 1024.

Record ring_buffer := mkRing {
  data : bytes;
  head : nat;
  size : nat;
}.

Definition new_ring : ring_buffer := mkRing [] 0 0.

Definition empty (r : ring_buffer) : bool := (size r =? 0)%nat.
Definition full (r : ring_buffer) : bool := (size r =? capacity)%nat.

Definition readable (r : ring_buffer) : bytes :=
  substr (data r) (head r) (min (size r) (capacity - head r)).

Definition consume (r : ring_buffer) (n : nat) : ring_buffer :=
  mkRing (data r) ((head r + n) mod capacity) (size r - n).

(** The room as its offset and its size in [data]. *)
Definition writable (r : ring_buffer) : (nat * nat) * ring_buffer :=
  let data' := match data r with [] => replicate capacity x00 | _ => data r end in
  let head' := if empty r then 0 else head r in
  let tail := (head' + size r) mod capacity in
  ((tail, if (tail <? head')%nat then head' - tail else capacity - tail),
   mkRing data' head' (size r)).

(** libuv writes what it read at the front of the room it was lent. *)
Definition fill_room (r : ring_buffer) (at_ : nat) (chunk : bytes) : ring_buffer :=
  mkRing (list_inserts at_ chunk (data r)) (head r) (size r).

Definition commit (r : ring_buffer) (n : nat) : ring_buffer :=
  mkRing (data r) (head r) (size r + n).

(** ** The queue it stands for *)

Definition slot_of (r : ring_buffer) (i : nat) : nat := (head r + i) mod capacity.

Definition contents (r : ring_buffer) : bytes :=
  (λ i, data r !!! slot_of r i) <$> seq 0 (size r).

Definition ring_wf (r : ring_buffer) : Prop :=
  (head r < capacity)%nat ∧ (size r ≤ capacity)%nat ∧
  (length (data r) = capacity ∨ (data r = [] ∧ size r = 0%nat ∧ head r = 0%nat)).

(** The room [len] bytes from [at_] on follows the unread bytes and is free. *)
Definition lent_at (r : ring_buffer) (at_ len : nat) : Prop :=
  length (data r) = capacity ∧ at_ = slot_of r (size r) ∧
  (size r + len ≤ capacity)%nat ∧ (at_ + len ≤ capacity)%nat.

Lemma capacity_pos : (0 < capacity)%nat.
Proof. unfold capacity. lia. Qed.

#[global] Opaque capacity.

Lemma mod_wrap a : (a < 2 * capacity)%nat →
  a mod capacity = (if (a <? capacity)%nat then a else a - capacity)%nat.
Proof.
  intros Ha. pose proof capacity_pos. case_if; bool_prop.
  - by apply Nat.mod_small.
  - rewrite <- (Nat.mod_small (a - capacity) capacity) by lia.
    rewrite <- (Nat.Div0.mod_add (a - capacity) 1). f_equal. lia.
Qed.

Lemma length_contents r : length (contents r) = size r.
Proof. unfold contents. by rewrite length_fmap, length_seq. Qed.

Lemma lookup_contents r i :
  (i < size r)%nat → contents r !! i = Some (data r !!! slot_of r i).
Proof.
  intros Hi. unfold contents. rewrite list_lookup_fmap, lookup_seq_lt by done. done.
Qed.

(** ** The operations on the queue *)

Lemma new_ring_ok : ring_wf new_ring ∧ contents new_ring = [].
Proof. split; [|done]. pose proof capacity_pos. split_and!; simpl; try lia. by right. Qed.

Lemma consume_ok r n :
  ring_wf r → (n ≤ size r)%nat →
  ring_wf (consume r n) ∧ contents (consume r n) = drop n (contents r).
Proof.
  intros (H1 & H2 & H3) Hn. pose proof capacity_pos. split.
  - split_and!; simpl; [apply Nat.mod_upper_bound; lia|lia|].
    destruct H3 as [H3|(H3 & H4 & H5)]; [by left|]. right. split; [done|]. split; [lia|].
    rewrite H5. replace n with 0%nat by lia. apply Nat.mod_small. lia.
  - apply list_eq. intros i. rewrite lookup_drop.
    destruct (decide (i < size r - n)%nat).
    + rewrite !lookup_contents by (simpl; lia). f_equal. f_equal. unfold slot_of. simpl.
      rewrite Nat.Div0.add_mod_idemp_l. f_equal. lia.
    + by rewrite !lookup_ge_None_2 by (rewrite length_contents; simpl; lia).
Qed.

(** What a reader is shown is the front of the queue, and not nothing unless
    the queue is empty. *)
Lemma readable_prefix r :
  ring_wf r →
  readable r = take (min (size r) (capacity - head r)) (contents r) ∧
  (readable r = [] ↔ contents r = []).
Proof.
  intros (H1 & H2 & H3). pose proof capacity_pos.
  assert (E : readable r = take (min (size r) (capacity - head r)) (contents r)).
  { unfold readable, substr. apply list_eq. intros i.
    destruct (decide (i < min (size r) (capacity - head r))%nat) as [Hi|Hi].
    - rewrite !lookup_take_lt, lookup_drop, lookup_contents by lia.
      destruct H3 as [H3|(H3 & H4 & H5)]; [|lia].
      unfold slot_of. rewrite Nat.mod_small by lia. apply list_lookup_lookup_total_lt. lia.
    - by rewrite !lookup_take_ge by lia. }
  split; [done|]. rewrite E. split.
  - intros H0. apply (f_equal length) in H0. rewrite length_take, length_contents in H0.
    simpl in H0. apply length_zero_iff_nil. rewrite length_contents. lia.
  - intros ->. apply take_nil.
Qed.

(** Lending room changes nothing unread, and there is some while the ring is
    not full. *)
Lemma writable_ok r at_ len r' :
  ring_wf r → (size r < capacity)%nat → writable r = ((at_, len), r') →
  ring_wf r' ∧ contents r' = contents r ∧ lent_at r' at_ len ∧ (0 < len)%nat.
Proof.
  intros (H1 & H2 & H3) Hs E. pose proof capacity_pos. unfold writable in E.
  set (data' := match data r with [] => replicate capacity x00 | _ => data r end) in *.
  assert (Hd : length data' = capacity).
  { subst data'. destruct H3 as [H3|(H3 & _)]; [|rewrite H3; apply length_replicate].
    destruct (data r); [simpl in H3; lia|done]. }
  set (head' := if empty r then 0 else head r) in *.
  assert (Hh : (head' < capacity)%nat) by (subst head'; case_if; lia).
  assert (Ht := Nat.mod_upper_bound (head' + size r) capacity ltac:(lia)).
  injection E as <- <- <-. unfold ring_wf, lent_at. split_and!; simpl; try done; try by left.
  - apply list_eq. intros i. destruct (decide (i < size r)%nat).
    + rewrite !lookup_contents by done. unfold slot_of. simpl.
      assert (Hne : empty r = false) by (apply Nat.eqb_neq; lia).
      destruct H3 as [H3|(_ & H4 & _)]; [|lia]. subst data' head'. rewrite Hne.
      destruct (data r); [simpl in H3; lia|reflexivity].
    + by rewrite !lookup_ge_None_2 by (rewrite length_contents; simpl; lia).
  - rewrite mod_wrap by lia. repeat case_if; bool_prop; lia.
  - case_if; bool_prop; lia.
  - rewrite mod_wrap in * by lia. repeat case_if; bool_prop; lia.
Qed.

(** The room stays where it is while the reader consumes. *)
Lemma lent_consume r at_ len n :
  (n ≤ size r)%nat → lent_at r at_ len → lent_at (consume r n) at_ len.
Proof.
  intros Hn (H1 & H2 & H3 & H4). pose proof capacity_pos. split_and!; simpl; try done; try lia.
  rewrite H2. unfold slot_of. simpl. rewrite Nat.Div0.add_mod_idemp_l. f_equal. lia.
Qed.

(** What is read into the room joins the queue. *)
Lemma fill_commit_ok r at_ len chunk :
  ring_wf r → lent_at r at_ len → (length chunk ≤ len)%nat →
  ring_wf (commit (fill_room r at_ chunk) (length chunk)) ∧
  contents (commit (fill_room r at_ chunk) (length chunk)) = contents r ++ chunk.
Proof.
  intros (H1 & H2 & _) (L1 & L2 & L3 & L4) Hc. pose proof capacity_pos.
  set (r' := commit (fill_room r at_ chunk) (length chunk)).
  split; [split_and!; simpl; [done|lia|left; by rewrite length_inserts]|].
  apply list_eq. intros i. destruct (decide (i < size r + length chunk)%nat) as [Hi|Hi].
  2: { by rewrite !lookup_ge_None_2 by (rewrite ?length_app, length_contents; simpl; lia). }
  rewrite lookup_contents by (simpl; lia).
  assert (Es : slot_of r' i = slot_of r i) by reflexivity. rewrite Es. simpl data.
  unfold slot_of in *. rewrite mod_wrap in L2 by lia.
  destruct (decide (i < size r)%nat).
  - rewrite lookup_app_l, lookup_contents by (rewrite ?length_contents; lia). f_equal.
    unfold slot_of. rewrite mod_wrap by lia. rewrite !list_lookup_total_alt.
    destruct (decide ((if (head r + i <? capacity)%nat then head r + i
                       else head r + i - capacity) < at_)%nat).
    + by rewrite list_lookup_inserts_lt.
    + rewrite list_lookup_inserts_ge; [done|].
      case_if_in L2; revert n; case_if; intros; bool_prop; lia.
  - rewrite lookup_app_r, length_contents by (rewrite length_contents; lia).
    rewrite mod_wrap by lia. rewrite list_lookup_total_alt.
    assert (Ep : (if (head r + i <? capacity)%nat then head r + i else head r + i - capacity)%nat
                 = (at_ + (i - size r))%nat) by (case_if_in L2; case_if; bool_prop; lia).
    rewrite Ep, list_lookup_inserts by lia.
    replace (at_ + (i - size r) - at_)%nat with (i - size r)%nat by lia.
    destruct (lookup_lt_is_Some_2 chunk (i - size r)) as [c ->]; [lia|done].
Qed.

(** ** Any use of the ring *)

(** Lending room, a read that fills the front of the room last lent, and
    consuming, in any order; [None] is a use the asserts refuse. *)
Inductive ring_op :=
| Lend
| Fill (chunk : bytes)
| Consume (n : nat).

Definition ring_step (st : ring_buffer * option (nat * nat)) (op : ring_op)
    : option (ring_buffer * option (nat * nat)) :=
  let '(r, lent) := st in
  match op with
  | Lend =>
      if full r then None else
      let '(room, r') := writable r in Some (r', Some room)
  | Fill chunk =>
      match lent with
      | None => None
      | Some (at_, len) =>
          if (length chunk <=? len)%nat
          then Some (commit (fill_room r at_ chunk) (length chunk), None)
          else None
      end
  | Consume n => if (n <=? size r)%nat then Some (consume r n, lent) else None
  end.

Definition ring_run (st : ring_buffer * option (nat * nat)) (ops : list ring_op)
    : option (ring_buffer * option (nat * nat)) :=
  foldl (λ st op, st ≫= λ st, ring_step st op) (Some st) ops.

(** The same uses of a queue. *)
Definition queue_step (q : bytes) (op : ring_op) : bytes :=
  match op with
  | Lend => q
  | Fill chunk => q ++ chunk
  | Consume n => drop n q
  end.

Definition ring_inv (st : ring_buffer * option (nat * nat)) : Prop :=
  ring_wf st.1 ∧
  match st.2 with Some (at_, len) => lent_at st.1 at_ len ∧ (0 < len)%nat | None => True end.

Lemma ring_step_ok st op st' :
  ring_inv st → ring_step st op = Some st' →
  ring_inv st' ∧ contents st'.1 = queue_step (contents st.1) op.
Proof.
  destruct st as [r lent]. intros [Hwf Hl] E. cbn [fst snd] in *. destruct op as [|chunk|n]; cbn [ring_step] in E.
  - case_if_in E; [done|]. unfold full in *. bool_prop. destruct (writable r) as [[at_ len] r'] eqn:Ew.
    simplify_eq. pose proof Hwf as (_ & Hs & _).
    destruct (writable_ok r at_ len r' Hwf ltac:(lia) Ew) as (H1 & H2 & H3 & H4).
    unfold ring_inv. cbn [fst snd]. by split_and!.
  - destruct lent as [[at_ len]|]; [|done]. destruct Hl as [Hl Hpos]. case_if_in E; [|done].
    bool_prop. simplify_eq.
    destruct (fill_commit_ok r at_ len chunk Hwf Hl) as [H1 H2]; [done|].
    unfold ring_inv. cbn [fst snd]. by split_and!.
  - case_if_in E; [|done]. bool_prop. simplify_eq.
    destruct (consume_ok r n Hwf) as [H1 H2]; [done|]. split; [|done]. split; [done|].
    simpl. destruct lent as [[at_ len]|]; [|done]. destruct Hl. split; [|done].
    by apply lent_consume.
Qed.

Lemma ring_run_none ops : foldl (λ st op, st ≫= λ st, ring_step st op) None ops = None.
Proof. by induction ops. Qed.

Lemma ring_run_ok ops st st' :
  ring_inv st → ring_run st ops = Some st' →
  ring_inv st' ∧ contents st'.1 = foldl queue_step (contents st.1) ops.
Proof.
  revert st. induction ops as [|op ops IH]; intros st Hi E.
  - unfold ring_run in E. simpl in E. by simplify_eq.
  - unfold ring_run in E. cbn [foldl mbind option_bind] in E. cbn [foldl].
    destruct (ring_step st op) as [st1|] eqn:E1; [|by rewrite ring_run_none in E].
    destruct (ring_step_ok st op st1 Hi E1) as [Hi1 Ec]. rewrite <- Ec. by apply IH.
Qed.

(** C37. The ring is a queue: whatever order room is lent, filled and bytes
    consumed in, with bytes consumed between the lending and the filling of a
    room included, what is unread is the bytes put in less the ones taken
    out, in order; a reader is shown the oldest of them, never none while
    there are some; and a ring that is not full lends room that is free. *)
Theorem ring_refines_queue ops r lent :
  ring_run (new_ring, None) ops = Some (r, lent) →
  let q := foldl queue_step [] ops in
  contents r = q ∧ size r = length q ∧ (length q ≤ capacity)%nat ∧
  readable r = take (length (readable r)) q ∧ (readable r = [] ↔ q = []) ∧
  (full r = false → (0 < (writable r).1.2)%nat).
Proof.
  intros E q. destruct new_ring_ok as [Hw Hc].
  destruct (ring_run_ok ops (new_ring, None) (r, lent)) as [[Hwf _] Eq]; [done..|].
  cbn [fst snd] in *. rewrite Hc in Eq. fold q in Eq.
  destruct (readable_prefix r Hwf) as [H1 H2]. pose proof (length_contents r) as Hlen.
  pose proof Hwf as (_ & Hs & _). rewrite Eq in *.
  split_and!; try done; try lia.
  - rewrite H1, length_take. f_equal. lia.
  - intros Hf. unfold full in Hf. bool_prop. destruct (writable r) as [[at_ len] r'] eqn:Ew.
    by destruct (writable_ok r at_ len r' Hwf ltac:(lia) Ew) as (_ & _ & _ & ?).
Qed.

Lemma ring_refines_queue_witness :
  let ops := [Lend; Fill (lit "abc"); Lend; Consume 2; Fill (lit "de")] in
  match ring_run (new_ring, None) ops with
  | Some (r, _) => contents r = lit "cde"
  | None => False
  end.
Proof.
  intros ops.
  assert (H : match ring_run (new_ring, None) ops with Some _ => true | None => false end = true)
    by (vm_compute; reflexivity).
  destruct (ring_run (new_ring, None) ops) as [[r lent]|] eqn:E; [|discriminate H].
  exact (proj1 (ring_refines_queue ops r lent E)).
Defined.
