(* ===== verification/Stream.v ===== *)
(** The reading side of a stream: [stream::Self] of src/async/io/stream_self.h
    and the readers of src/async/io/stream.cpp over the ring of Ring.v.

    libuv is the world: the events still to come, each of which it reports by
    asking for room ([on_alloc]) and calling back ([on_read]) while reading is
    on, and what [uv_read_start] returns.  A reader that waits takes events
    until one wakes it; [None] is a wait no event ends.  The loops of the
    readers get as much fuel as there are bytes still to come, and a theorem
    about them says what they return.

    The reference is [coming], the bytes a reader has still to see, and [fate],
    what comes after them: every reader gives a piece of the one and ends with
    the other, however the events cut the bytes. *)

From Stdlib Require Import Strings.Byte ZArith Lia Bool.
From stdpp Require Import prelude strings.
From S2P Require Import Prelude Ring.
Local Open Scope kota_scope.

(** What libuv reports next: bytes, nothing to read after all, or an end, the
    status of which is [- code]. *)
Inductive uv_event :=
| Data (chunk : bytes)
| Again
| Failed (code : positive).

Record Self := mkSelf {
  buffer : ring_buffer;
  ended : Z;
  reading : bool;
}.

Definition new_stream : Self := mkSelf new_ring 0 false.

Section Stream.

(** libuv's codes, and what it answers to starting to read. *)
Context (UV_EOF UV_ECANCELED uv_read_start : Z).

Definition operation_aborted : Z := -114514.

Definition status_to_error (status : Z) : Z :=
  if (0 <=? status)%Z then 0
  else if (status =? UV_ECANCELED)%Z then operation_aborted else status.

Definition stop_reading (s : Self) : Self := mkSelf (buffer s) (ended s) false.

(** [on_read], and whether it wakes a reader that waits. *)
Definition on_read (s : Self) (nread : Z) : Self * bool :=
  if (nread =? 0)%Z then (s, false)
  else if (nread <? 0)%Z then
    (stop_reading (mkSelf (buffer s) (status_to_error nread) (reading s)), true)
  else
    let s' := mkSelf (commit (buffer s) (Z.to_nat nread)) (ended s) (reading s) in
    ((if full (buffer s') then stop_reading s' else s'), true).

Definition on_alloc (s : Self) : (nat * nat) * Self :=
  let '(room, buffer') := writable (buffer s) in
  (room, mkSelf buffer' (ended s) (reading s)).

(** One event: libuv asks for room, reads into it what fits, and calls back.
    What did not fit comes next. *)
Definition on_event (s : Self) (e : uv_event) : Self * list uv_event * bool :=
  let '((at_, len), s1) := on_alloc s in
  match e with
  | Data chunk =>
      let got := take len chunk in
      let s2 := mkSelf (fill_room (buffer s1) at_ got) (ended s1) (reading s1) in
      let '(s3, woke) := on_read s2 (Z.of_nat (length got)) in
      (s3, match drop len chunk with [] => [] | rest => [Data rest] end, woke)
  | Again => let '(s2, woke) := on_read s1 0 in (s2, [], woke)
  | Failed code => let '(s2, woke) := on_read s1 (Z.neg code) in (s2, [], woke)
  end.

(** Waiting in the slot until an event wakes the reader. *)
Fixpoint wait (s : Self) (events : list uv_event) : option (Z * Self * list uv_event) :=
  match events with
  | [] => None
  | e :: events' =>
      let '(s', rest, woke) := on_event s e in
      if woke then Some (ended s', s', rest ++ events') else wait s' events'
  end.

Definition fill (s : Self) (events : list uv_event) : option (Z * Self * list uv_event) :=
  if negb (empty (buffer s)) then Some (0%Z, s, events)
  else if negb (ended s =? 0)%Z then Some (ended s, s, events)
  else if negb (reading s) then
    if negb (uv_read_start =? 0)%Z then Some (uv_read_start, s, events)
    else wait (mkSelf (buffer s) (ended s) true) events
  else wait s events.

(** Events that come while no reader waits. *)
Fixpoint idle (n : nat) (s : Self) (events : list uv_event) : Self * list uv_event :=
  match n with
  | O => (s, events)
  | S n' =>
      if reading s then
        match events with
        | [] => (s, [])
        | e :: events' =>
            let '(s', rest, _) := on_event s e in
            idle n' s' (rest ++ events')
        end
      else (s, events)
  end.

Definition consume_n (s : Self) (n : nat) : Self :=
  mkSelf (consume (buffer s) n) (ended s) (reading s).

(** ** The readers *)

Abbreviation reading_of A := (option (expected A Z * Self * list uv_event)).

Definition read_chunk (s : Self) (events : list uv_event) : reading_of bytes :=
  match fill s events with
  | None => None
  | Some (err, s', events') =>
      if negb (err =? 0)%Z then Some (Err err, s', events')
      else Some (Ok (readable (buffer s')), s', events')
  end.

Definition read_some (n : nat) (s : Self) (events : list uv_event) : reading_of bytes :=
  if (n =? 0)%nat then Some (Ok [], s, events) else
  match fill s events with
  | None => None
  | Some (err, s', events') =>
      if negb (err =? 0)%Z then
        if (err =? UV_EOF)%Z then Some (Ok [], s', events') else Some (Err err, s', events')
      else
        let chunk := readable (buffer s') in
        let count := min n (length chunk) in
        Some (Ok (take count chunk), consume_n s' count, events')
  end.

(** The loop of [read]: two rounds at most, the bytes left being fuel. *)
Fixpoint read_pieces (fuel : nat) (s : Self) (out : bytes) : bytes * Self :=
  match fuel with
  | O => (out, s)
  | S fuel' =>
      if empty (buffer s) then (out, s) else
      let chunk := readable (buffer s) in
      read_pieces fuel' (consume_n s (length chunk)) (out ++ chunk)
  end.

Definition read_all (s : Self) (events : list uv_event) : reading_of bytes :=
  match fill s events with
  | None => None
  | Some (err, s', events') =>
      if negb (err =? 0)%Z then Some (Err err, s', events') else
      let '(out, s'') := read_pieces (size (buffer s')) s' [] in
      Some (Ok out, s'', events')
  end.

Fixpoint read_to_end_from (fuel : nat) (out : bytes) (s : Self) (events : list uv_event)
    : reading_of bytes :=
  match fuel with
  | O => None
  | S fuel' =>
      match read_chunk s events with
      | None => None
      | Some (Err e, s', events') =>
          if negb (e =? UV_EOF)%Z then Some (Err e, s', events') else Some (Ok out, s', events')
      | Some (Ok chunk, s', events') =>
          read_to_end_from fuel' (out ++ chunk) (consume_n s' (length chunk)) events'
      end
  end.

Definition strip_cr (line : bytes) : bytes :=
  if ends_with line [x0d] then take (length line - 1) line else line.

Fixpoint read_line_from (fuel : nat) (line : bytes) (s : Self) (events : list uv_event)
    : reading_of (option bytes) :=
  match fuel with
  | O => None
  | S fuel' =>
      match read_chunk s events with
      | None => None
      | Some (Err e, s', events') =>
          if negb (e =? UV_EOF)%Z then Some (Err e, s', events')
          else if bool_decide (line = []) then Some (Ok None, s', events')
          else Some (Ok (Some line), s', events')
      | Some (Ok text, s', events') =>
          match find_index (λ c, c =?b x0a) text with
          | None => read_line_from fuel' (line ++ text) (consume_n s' (length text)) events'
          | Some end_ =>
              Some (Ok (Some (strip_cr (line ++ take end_ text))),
                    consume_n s' (end_ + 1), events')
          end
      end
  end.

(** ** What is still to come *)

Fixpoint data_of (events : list uv_event) : bytes :=
  match events with
  | [] => []
  | Data chunk :: events' => chunk ++ data_of events'
  | Again :: events' => data_of events'
  | Failed _ :: _ => []
  end.

Fixpoint end_of (events : list uv_event) : option Z :=
  match events with
  | [] => None
  | Failed code :: _ => Some (status_to_error (Z.neg code))
  | _ :: events' => end_of events'
  end.

Definition coming (s : Self) (events : list uv_event) : bytes :=
  contents (buffer s) ++ if (ended s =? 0)%Z then data_of events else [].

Definition fate (s : Self) (events : list uv_event) : option Z :=
  if (ended s =? 0)%Z then end_of events else Some (ended s).

Definition read_to_end (s : Self) (events : list uv_event) : reading_of bytes :=
  read_to_end_from (S (length (coming s events))) [] s events.

Definition read_line (s : Self) (events : list uv_event) : reading_of (option bytes) :=
  read_line_from (S (length (coming s events))) [] s events.

(** ** Events change nothing of what is to come *)

(** While reading is on there is room and nothing has ended it. *)
Definition stream_ok (s : Self) : Prop :=
  ring_wf (buffer s) ∧
  (reading s = true → ended s = 0%Z ∧ (size (buffer s) < capacity)%nat).

Lemma status_to_error_neg code : (status_to_error (Z.neg code) =? 0)%Z = false.
Proof.
  unfold status_to_error. change (0 <=? Z.neg code)%Z with false. cbv iota.
  by destruct (Z.neg code =? UV_ECANCELED)%Z.
Qed.

Definition same_stream (s : Self) (events : list uv_event) (s' : Self) (events' : list uv_event)
    : Prop :=
  stream_ok s' ∧ coming s' events' = coming s events ∧ fate s' events' = fate s events.

Lemma same_stream_refl s events : stream_ok s → same_stream s events s events.
Proof. intros H. by repeat split; try apply H. Qed.

Lemma same_stream_trans s e s' e' s'' e'' :
  same_stream s e s' e' → same_stream s' e' s'' e'' → same_stream s e s'' e''.
Proof. intros (H1 & H2 & H3) (H4 & H5 & H6). split; [done|split; congruence]. Qed.

Lemma new_stream_ok : stream_ok new_stream.
Proof. split; [apply new_ring_ok|done]. Qed.

Lemma on_event_ok s e events s' rest woke :
  stream_ok s → reading s = true → on_event s e = (s', rest, woke) →
  same_stream s (e :: events) s' (rest ++ events) ∧
  (woke = true → contents (buffer s) = [] →
     (ended s' = 0%Z ∧ contents (buffer s') ≠ []) ∨
     (ended s' ≠ 0%Z ∧ contents (buffer s') = [])) ∧
  (woke = false → rest = [] ∧ reading s' = true ∧ contents (buffer s') = contents (buffer s)).
Proof.
  intros [Hwf Hr] Hrd E. destruct (Hr Hrd) as [He Hs]. unfold on_event, on_alloc in E.
  destruct (writable (buffer s)) as [[at_ len] b] eqn:Ew.
  destruct (writable_ok _ _ _ _ Hwf Hs Ew) as (Hwf' & Hc & Hl & Hpos).
  destruct e as [chunk| |code].
  - cbn [buffer ended reading] in E.
    destruct (fill_commit_ok b at_ len (take len chunk) Hwf' Hl) as [Hwf2 Hc2];
      [rewrite length_take; lia|].
    unfold on_read in E. case_if_in E; bool_prop.
    + assert (Ech : chunk = []) by (destruct chunk, len; simpl in *; try done; lia).
      subst chunk. rewrite take_nil, drop_nil in E. simplify_eq. cbn [app].
      assert (Eb : fill_room b at_ [] = b) by (by destruct b). rewrite Eb.
      unfold same_stream, stream_ok, coming, fate. cbn [buffer ended reading data_of end_of app].
      rewrite Hc, He. split_and!; try done.
      pose proof (length_contents b). pose proof (length_contents (buffer s)). rewrite Hc in *.
      split; [done|lia].
    + rewrite (proj2 (Z.ltb_ge _ _)) in E by lia. cbn [buffer ended reading] in E.
      rewrite Nat2Z.id in E. set (b' := commit (fill_room b at_ (take len chunk)) _) in *.
      assert (Hsame : ∀ rd, (rd = true → (size b' < capacity)%nat) →
        same_stream s (Data chunk :: events) (mkSelf b' 0 rd)
          (match drop len chunk with [] => [] | rest => [Data rest] end ++ events)).
      { intros rd Hrd'. unfold same_stream, stream_ok, coming, fate. cbn [buffer ended reading].
        rewrite Hc2, Hc, He. split_and!; try done; simpl.
        - by auto.
        - rewrite <- app_assoc. f_equal.
          trans ((take len chunk ++ drop len chunk) ++ data_of events); [|by rewrite take_drop].
          rewrite <- app_assoc. f_equal. by destruct (drop len chunk).
        - by destruct (drop len chunk). }
      assert (Hne : contents b' ≠ []).
      { rewrite Hc2. intros [_ H0]%app_nil. rewrite H0 in *. done. }
      rewrite He in E. destruct (full b') eqn:Ef; simplify_eq; unfold stop_reading;
        cbn [buffer ended reading]; (split; [|split; [intros; by left|done]]).
      * apply Hsame. done.
      * rewrite Hrd. apply Hsame. intros _. unfold full in Ef. bool_prop.
        destruct Hwf2 as (_ & ? & _). fold b' in H. lia.
  - unfold on_read in E. simpl in E. simplify_eq. cbn [app].
    unfold same_stream, stream_ok, coming, fate. cbn [buffer ended reading data_of end_of].
    rewrite Hc, He. split_and!; try done.
    pose proof (length_contents b). pose proof (length_contents (buffer s)). rewrite Hc in *.
    split; [done|lia].
  - unfold on_read in E. cbn [Z.eqb Z.ltb Z.compare] in E. simplify_eq. cbn [app].
    unfold same_stream, stream_ok, coming, fate, stop_reading.
    cbn [buffer ended reading data_of end_of].
    rewrite Hc, He, status_to_error_neg. split_and!; try done.
    intros _ ->. right. split; [|done]. intros H0. pose proof (status_to_error_neg code).
    rewrite H0 in H. done.
Qed.

Lemma wait_ok s events :
  stream_ok s → reading s = true → contents (buffer s) = [] →
  match wait s events with
  | None => coming s events = [] ∧ fate s events = None
  | Some (err, s', events') =>
      same_stream s events s' events' ∧ err = ended s' ∧
      ((ended s' = 0%Z ∧ contents (buffer s') ≠ []) ∨
       (ended s' ≠ 0%Z ∧ contents (buffer s') = []))
  end.
Proof.
  revert s. induction events as [|e events IH]; intros s Hok Hrd Hc.
  - destruct (proj2 Hok Hrd) as [He _]. cbn [wait]. unfold coming, fate. rewrite Hc, He. done.
  - cbn [wait]. destruct (on_event s e) as [[s' rest] woke] eqn:Ee.
    destruct (on_event_ok s e events s' rest woke Hok Hrd Ee) as (Hsame & Hw & Hn).
    destruct woke.
    + split; [done|]. split; [done|]. by apply Hw.
    + destruct (Hn eq_refl) as (-> & Hrd' & Hc'). cbn [app] in Hsame.
      specialize (IH s' (proj1 Hsame) Hrd' ltac:(congruence)).
      destruct (wait s' events) as [[[err s2] events2]|].
      * destruct IH as (H1 & H2 & H3). split; [by eapply same_stream_trans|done].
      * destruct Hsame as (_ & <- & <-). done.
Qed.

Lemma idle_ok n s events :
  stream_ok s → same_stream s events (idle n s events).1 (idle n s events).2.
Proof.
  revert s events. induction n as [|n IH]; intros s events Hok; [by apply same_stream_refl|].
  cbn [idle]. destruct (reading s) eqn:Hrd; [|by apply same_stream_refl].
  destruct events as [|e events]; [by apply same_stream_refl|].
  destruct (on_event s e) as [[s' rest] woke] eqn:Ee.
  destruct (on_event_ok s e events s' rest woke Hok Hrd Ee) as (Hsame & _ & _).
  eapply same_stream_trans; [done|]. apply IH, Hsame.
Qed.

(** ** The readers *)

Context (Hstart : uv_read_start = 0%Z).

Lemma empty_contents b : empty b = true ↔ contents b = [].
Proof.
  unfold empty. rewrite Nat.eqb_eq, <- (length_contents b). split; [apply length_zero_iff_nil|].
  by intros ->.
Qed.

Lemma ended_coming s events :
  ended s ≠ 0%Z → contents (buffer s) = [] →
  coming s events = [] ∧ fate s events = Some (ended s).
Proof.
  intros He Hc. unfold coming, fate. rewrite Hc, (proj2 (Z.eqb_neq _ _)) by done. done.
Qed.

Lemma fill_ok s events :
  stream_ok s →
  match fill s events with
  | None => coming s events = [] ∧ fate s events = None
  | Some (err, s', events') =>
      same_stream s events s' events' ∧
      ((err = 0%Z ∧ contents (buffer s') ≠ []) ∨
       (err ≠ 0%Z ∧ coming s events = [] ∧ fate s events = Some err))
  end.
Proof.
  intros Hok. unfold fill. destruct (empty (buffer s)) eqn:Ee; cbn [negb].
  2: { split; [by apply same_stream_refl|]. left. split; [done|].
       intros H%empty_contents. congruence. }
  apply empty_contents in Ee. destruct (ended s =? 0)%Z eqn:Ed; cbn [negb]; bool_prop.
  2: { split; [by apply same_stream_refl|]. right. split; [done|]. by apply ended_coming. }
  rewrite Hstart. cbn [Z.eqb negb].
  assert (Hgo : ∀ s1, stream_ok s1 → reading s1 = true → buffer s1 = buffer s → ended s1 = ended s →
    match wait s1 events with
    | None => coming s events = [] ∧ fate s events = None
    | Some (err, s', events') =>
        same_stream s events s' events' ∧
        ((err = 0%Z ∧ contents (buffer s') ≠ []) ∨
         (err ≠ 0%Z ∧ coming s events = [] ∧ fate s events = Some err))
    end).
  { intros s1 Hok1 Hr1 Eb E0. pose proof (wait_ok s1 events Hok1 Hr1 ltac:(by rewrite Eb)) as H.
    assert (Ec : coming s1 events = coming s events) by (unfold coming; by rewrite Eb, E0).
    assert (Ef : fate s1 events = fate s events) by (unfold fate; by rewrite E0).
    rewrite <- Ec, <- Ef. destruct (wait s1 events) as [[[err s'] events']|]; [|done].
    destruct H as ((H1 & H2 & H3) & -> & H4). unfold same_stream. rewrite <- Ec, <- Ef.
    split; [done|]. destruct H4 as [[H4 H5]|[H4 H5]]; [by left|]. right. split; [done|].
    rewrite <- H2, <- H3. by apply ended_coming. }
  destruct (reading s) eqn:Er; cbn [negb]; apply Hgo; try done.
  split; [apply Hok|]. intros _. split; [done|]. cbn [buffer].
  rewrite <- length_contents, Ee. apply capacity_pos.
Qed.

Lemma consume_n_ok s events n :
  stream_ok s → (n ≤ size (buffer s))%nat →
  stream_ok (consume_n s n) ∧ coming (consume_n s n) events = drop n (coming s events) ∧
  fate (consume_n s n) events = fate s events.
Proof.
  intros [Hwf Hr] Hn. destruct (consume_ok (buffer s) n Hwf Hn) as [Hwf' Hc].
  split_and!; [split; [done|]|..].
  - cbn [reading ended buffer consume_n]. intros H. specialize (Hr H). simpl. lia.
  - unfold coming. cbn [consume_n buffer ended]. rewrite Hc.
    by rewrite drop_app_le by (rewrite length_contents; lia).
  - done.
Qed.

(** What a reader is shown is the front of what is to come. *)
Lemma readable_coming s events :
  stream_ok s → contents (buffer s) ≠ [] →
  readable (buffer s) ≠ [] ∧ (length (readable (buffer s)) ≤ size (buffer s))%nat ∧
  ∃ rest, coming s events = readable (buffer s) ++ rest.
Proof.
  intros [Hwf _] Hc. destruct (readable_prefix _ Hwf) as [E Hne].
  split; [by rewrite Hne|]. split.
  - rewrite E, length_take, length_contents. lia.
  - eexists. unfold coming. rewrite E.
    rewrite <- (take_drop (min (size (buffer s)) (capacity - head (buffer s))) (contents _)) at 1.
    by rewrite <- app_assoc.
Qed.

Lemma read_chunk_ok s events :
  stream_ok s →
  match read_chunk s events with
  | None => coming s events = [] ∧ fate s events = None
  | Some (Ok chunk, s', events') =>
      chunk ≠ [] ∧ ∃ rest, coming s events = chunk ++ rest ∧
      ∀ n, (n ≤ length chunk)%nat →
        stream_ok (consume_n s' n) ∧ coming (consume_n s' n) events' = drop n (coming s events) ∧
        fate (consume_n s' n) events' = fate s events
  | Some (Err e, s', events') =>
      e ≠ 0%Z ∧ coming s events = [] ∧ fate s events = Some e ∧ same_stream s events s' events'
  end.
Proof.
  intros Hok. pose proof (fill_ok s events Hok) as H. unfold read_chunk.
  destruct (fill s events) as [[[err s'] events']|]; [|done].
  destruct H as [Hsame [[-> Hc]|(He & H1 & H2)]].
  - cbn [Z.eqb negb]. destruct Hsame as (H1 & H2 & H3).
    destruct (readable_coming s' events' H1 Hc) as (Hne & Hl & rest & E).
    split; [done|]. exists rest. rewrite <- H2, <- H3. split; [done|].
    intros n Hn. apply consume_n_ok; [done|lia].
  - rewrite (proj2 (Z.eqb_neq _ _)) by done. done.
Qed.

(** What [read_to_end] is to return, of what is to come. *)
Definition to_end (out : bytes) (fate : option Z) : option (expected bytes Z) :=
  match fate with
  | None => None
  | Some e => Some (if (e =? UV_EOF)%Z then Ok out else Err e)
  end.

Lemma read_to_end_from_ok fuel out s events :
  stream_ok s → (length (coming s events) < fuel)%nat →
  (λ r, r.1.1) <$> read_to_end_from fuel out s events
    = to_end (out ++ coming s events) (fate s events).
Proof.
  revert out s events. induction fuel as [|fuel IH]; intros out s events Hok Hf; [lia|].
  cbn [read_to_end_from]. pose proof (read_chunk_ok s events Hok) as H.
  destruct (read_chunk s events) as [[[[chunk|e] s'] events']|].
  - destruct H as (Hne & rest & E & Hcons). destruct (Hcons (length chunk) ltac:(done)) as (H1 & H2 & H3).
    rewrite E, drop_app_length in H2. rewrite IH; [|done|].
    + rewrite H2, H3, E. by rewrite app_assoc.
    + rewrite H2. rewrite E, length_app in Hf. destruct chunk; [done|]. simpl in Hf. lia.
  - destruct H as (He & -> & -> & _). unfold to_end. rewrite app_nil_r.
    by destruct (e =? UV_EOF)%Z.
  - destruct H as [-> ->]. done.
Qed.

(** What [read_line] is to return, of a beginning of the line and what is to
    come, and how much of that it takes. *)
Definition line_of (line coming : bytes) (fate : option Z)
    : option (expected (option bytes) Z * nat) :=
  match find_index (λ c, c =?b x0a) coming with
  | Some k => Some (Ok (Some (strip_cr (line ++ take k coming))), k + 1)%nat
  | None =>
      match fate with
      | None => None
      | Some e =>
          Some (if (e =? UV_EOF)%Z
                then Ok (if bool_decide (line ++ coming = []) then None else Some (line ++ coming))
                else Err e, length coming)
      end
  end.

(** A reading that ends as expected, [taken] bytes on. *)
Definition reads_as {A} (r : reading_of A) (s : Self) (events : list uv_event)
    (expect : option (expected A Z * nat)) : Prop :=
  match expect, r with
  | None, None => True
  | Some (v, taken), Some (v', s', events') =>
      v' = v ∧ stream_ok s' ∧ coming s' events' = drop taken (coming s events) ∧
      fate s' events' = fate s events
  | _, _ => False
  end.

Lemma read_line_from_ok fuel line s events :
  stream_ok s → (length (coming s events) < fuel)%nat →
  reads_as (read_line_from fuel line s events) s events
    (line_of line (coming s events) (fate s events)).
Proof.
  revert line s events. induction fuel as [|fuel IH]; intros line s events Hok Hf; [lia|].
  cbn [read_line_from]. pose proof (read_chunk_ok s events Hok) as H.
  destruct (read_chunk s events) as [[[[text|e] s'] events']|].
  - destruct H as (Hne & rest & E & Hcons). unfold line_of. rewrite E, find_index_app.
    destruct (find_index _ text) as [k|] eqn:Ek.
    + pose proof (find_index_bound _ _ _ Ek). destruct (Hcons (k + 1)%nat ltac:(lia)) as (H1 & H2 & H3).
      rewrite take_app_le by lia. done.
    + destruct (Hcons (length text) ltac:(done)) as (H1 & H2 & H3).
      rewrite E, drop_app_length in H2.
      assert (Hfuel : (length (coming (consume_n s' (length text)) events') < fuel)%nat).
      { rewrite H2. rewrite E, length_app in Hf. destruct text; [done|]. simpl in Hf. lia. }
      specialize (IH (line ++ text) _ _ H1 Hfuel). unfold reads_as, line_of in *.
      rewrite H2, H3 in IH. destruct (find_index _ rest) as [k|]; cbn [fmap option_fmap option_map].
      * rewrite take_app_add, (app_assoc line). destruct (read_line_from _ _ _ _) as [[[v s2] ev2]|]; [|done].
        destruct IH as (-> & IH1 & IH2 & IH3). split_and!; try done.
        rewrite IH2, E, <- Nat.add_assoc. by rewrite drop_app_add.
      * rewrite (app_assoc line). destruct (fate s events) as [e|];
          destruct (read_line_from _ _ _ _) as [[[v s2] ev2]|]; try done.
        destruct IH as (-> & IH1 & IH2 & IH3). split_and!; try done.
        rewrite IH2, E, length_app. by rewrite drop_app_add.
  - destruct H as (He & Ec & Ef & (H1 & H2 & H3)). unfold line_of, reads_as. rewrite Ec, Ef.
    cbn [find_index]. rewrite app_nil_r.
    destruct (e =? UV_EOF)%Z; cbn [negb]; [case_bool_decide|]; rewrite H2, H3, Ec; done.
  - destruct H as [Ec Ef]. unfold line_of. by rewrite Ec, Ef.
Qed.

Lemma read_pieces_ok fuel s out events :
  stream_ok s → (size (buffer s) ≤ fuel)%nat →
  let '(out', s') := read_pieces fuel s out in
  out' = out ++ contents (buffer s) ∧ stream_ok s' ∧
  coming s' events = drop (size (buffer s)) (coming s events) ∧ fate s' events = fate s events.
Proof.
  revert s out. induction fuel as [|fuel IH]; intros s out Hok Hf.
  - cbn [read_pieces]. replace (size (buffer s)) with 0%nat by lia.
    assert (E : contents (buffer s) = []) by (apply empty_contents, Nat.eqb_eq; lia).
    by rewrite E, app_nil_r.
  - cbn [read_pieces]. destruct (empty (buffer s)) eqn:Ee.
    + pose proof Ee as Ez. unfold empty in Ez. bool_prop. rewrite Ez.
      apply empty_contents in Ee. by rewrite Ee, app_nil_r.
    + assert (Hc : contents (buffer s) ≠ []) by (rewrite <- empty_contents; congruence).
      destruct (readable_coming s events Hok Hc) as (Hne & Hl & _).
      destruct (consume_n_ok s events _ Hok Hl) as (H1 & H2 & H3).
      set (n := length (readable (buffer s))) in *.
      assert (Hn : (0 < n)%nat) by (subst n; destruct (readable (buffer s)); simpl; [done|lia]).
      specialize (IH (consume_n s n) (out ++ readable (buffer s)) H1 ltac:(simpl; lia)).
      destruct (read_pieces _ _ _) as [out' s']. destruct IH as (-> & I1 & I2 & I3).
      rewrite I2, I3, H2, H3, drop_drop. split_and!; try done; [|f_equal; simpl; lia].
      rewrite <- app_assoc. f_equal. destruct Hok as [Hwf _].
      destruct (consume_ok (buffer s) n Hwf Hl) as [_ Ec]. cbn [consume_n buffer]. rewrite Ec.
      destruct (readable_prefix _ Hwf) as [Er _].
      assert (Et : readable (buffer s) = take n (contents (buffer s))).
      { rewrite Er at 1. subst n. rewrite Er, length_take, length_contents. f_equal. lia. }
      rewrite Et. apply take_drop.
Qed.

(** C36. A line is read whole however its bytes arrive: whatever events came
    before the call and come during it, [read_line] returns what is to come
    up to the next line feed, less a carriage return before it; at the end of
    the stream, what is left, or nothing; or the error that ended the stream.
    It takes the line and nothing after it, and it waits for ever only on a
    stream that neither ends nor brings a line feed. *)
Theorem read_line_correct n s events :
  stream_ok s →
  reads_as (read_line (idle n s events).1 (idle n s events).2) s events
    (line_of [] (coming s events) (fate s events)).
Proof.
  intros Hok. destruct (idle_ok n s events Hok) as (H1 & H2 & H3).
  rewrite <- H2, <- H3. unfold read_line.
  pose proof (read_line_from_ok _ [] _ (idle n s events).2 H1 (Nat.lt_succ_diag_r _)) as H.
  unfold reads_as in *. rewrite H2, H3 in *. exact H.
Qed.

(** A piece of what is to come, or the end when nothing is. *)
Definition reads_piece (r : reading_of bytes) (s : Self) (events : list uv_event)
    (at_end : Z → expected bytes Z) (most : nat) : Prop :=
  match r with
  | Some (v, s', events') =>
      stream_ok s' ∧ fate s' events' = fate s events ∧
      ((∃ out, v = Ok out ∧ out ≠ [] ∧ (length out ≤ most)%nat ∧
          coming s events = out ++ coming s' events') ∨
       (∃ e, v = at_end e ∧ coming s events = [] ∧ fate s events = Some e ∧ e ≠ 0%Z ∧
          coming s' events' = []))
  | None => coming s events = [] ∧ fate s events = None
  end.

Lemma read_some_ok n s events :
  stream_ok s → (0 < n)%nat →
  reads_piece (read_some n s events) s events (λ e, if (e =? UV_EOF)%Z then Ok [] else Err e) n.
Proof.
  intros Hok Hn. unfold read_some. rewrite (proj2 (Nat.eqb_neq _ _)) by lia.
  pose proof (fill_ok s events Hok) as H.
  destruct (fill s events) as [[[err s'] events']|]; [|done].
  destruct H as [(H1 & H2 & H3) [[-> Hc]|(He & Ec & Ef)]].
  - cbn [Z.eqb negb]. destruct (readable_coming s' events' H1 Hc) as (Hne & Hl & rest & E).
    set (count := min n (length (readable (buffer s')))).
    destruct (consume_n_ok s' events' count H1 ltac:(lia)) as (C1 & C2 & C3).
    unfold reads_piece. split; [done|]. split; [congruence|]. left. eexists. split; [done|].
    split; [|split].
    + destruct (readable (buffer s')); [done|]. subst count. destruct n; [lia|]. done.
    + rewrite length_take. lia.
    + rewrite C2, <- H2, E. rewrite drop_app_le by lia. rewrite app_assoc. by rewrite take_drop.
  - rewrite (proj2 (Z.eqb_neq _ _)) by done. cbn [negb].
    destruct (err =? UV_EOF)%Z eqn:E; unfold reads_piece;
      (split; [done|]; split; [done|]; right; exists err; rewrite E, H2; done).
Qed.

Lemma read_all_ok s events :
  stream_ok s → reads_piece (read_all s events) s events Err capacity.
Proof.
  intros Hok. unfold read_all. pose proof (fill_ok s events Hok) as H.
  destruct (fill s events) as [[[err s'] events']|]; [|done].
  destruct H as [(H1 & H2 & H3) [[-> Hc]|(He & Ec & Ef)]].
  - cbn [Z.eqb negb].
    pose proof (read_pieces_ok (size (buffer s')) s' [] events' H1 ltac:(done)) as H.
    destruct (read_pieces _ _ _) as [out s'']. destruct H as (-> & I1 & I2 & I3).
    unfold reads_piece. split; [done|]. split; [congruence|]. left. eexists. split; [done|].
    cbn [app]. split; [done|]. split; [rewrite length_contents; apply H1|].
    rewrite I2, <- H2. unfold coming. rewrite <- length_contents, drop_app_length. done.
  - rewrite (proj2 (Z.eqb_neq _ _)) by done. cbn [negb]. unfold reads_piece.
    split; [done|]. split; [done|]. right. exists err. rewrite H2. done.
Qed.

(** No reader loses, repeats or reorders a byte: [read] and [read_some]
    return a piece of what is to come that is not empty, at most as long as
    asked for, and leave the rest; [read_to_end] returns all of it; and once
    it is used up each ends with what ended the stream, [read_some] and
    [read_to_end] taking the end of the stream as no error. *)
Theorem readers_correct n s events :
  stream_ok s → (0 < n)%nat →
  reads_piece (read_all s events) s events Err capacity ∧
  reads_piece (read_some n s events) s events (λ e, if (e =? UV_EOF)%Z then Ok [] else Err e) n ∧
  (λ r, r.1.1) <$> read_to_end s events = to_end (coming s events) (fate s events).
Proof.
  intros Hok Hn. split; [by apply read_all_ok|]. split; [by apply read_some_ok|].
  unfold read_to_end. by rewrite read_to_end_from_ok by (done || lia).
Qed.
End Stream.

Lemma read_line_correct_witness :
  let events := [Data (lit "ab"); Again; Data [x0d]; Data (x0a :: lit "c"); Failed 4095] in
  reads_as (-125) (read_line (-4095) (-125) 0 new_stream events) new_stream events
    (line_of (-4095) [] (coming new_stream events) (fate (-125) new_stream events)) ∧
  line_of (-4095) [] (coming new_stream events) (fate (-125) new_stream events)
    = Some (Ok (Some (lit "ab")), 4%nat).
Proof.
  intros events. split; [|vm_compute; reflexivity].
  exact (read_line_correct (-4095) (-125) 0 eq_refl 0 new_stream events new_stream_ok).
Defined.

Lemma readers_correct_witness :
  let events := [Data (lit "ab"); Failed 4095] in
  reads_piece (-125) (read_all (-125) 0 new_stream events) new_stream events Err capacity.
Proof.
  intros events.
  exact (proj1 (readers_correct (-4095) (-125) 0 eq_refl 1 new_stream events new_stream_ok
           ltac:(lia))).
Defined.
