(* ===== verification/Uri.v ===== *)
(** URIs of the language server protocol: include/kotatsu/ipc/lsp/uri.h and
    src/ipc/lsp/uri.cpp.

    A [URI] is its text and where its components lie in it, [None] being a
    segment that is missing.  What the code does on Windows only is the
    [windows] argument of [file_path].  The theorems show what percent-encoding
    loses (nothing), that the components of a parsed URI are the ones its
    grammar names and that printing and parsing are inverse, and which path a
    file URI gives back. *)

From Stdlib Require Import Strings.Byte ZArith Lia Bool.
From stdpp Require Import prelude strings.
From S2P Require Import Prelude.
Local Open Scope kota_scope.

(** ** Characters *)

Definition is_ascii_alpha (value : byte) : bool := in_range 65 90 value || in_range 97 122 value.
Definition is_ascii_digit (value : byte) : bool := in_range 48 57 value.
Definition is_ascii_alnum (value : byte) : bool := is_ascii_alpha value || is_ascii_digit value.

Definition to_ascii_lower (value : byte) : byte :=
  if in_range 65 90 value then to_byte (uval value + (97 - 65)) else value.

Fixpoint iequal_from (left right : bytes) : bool :=
  match left, right with
  | l :: left', r :: right' =>
      if negb (to_ascii_lower l =?b to_ascii_lower r) then false else iequal_from left' right'
  | _, _ => true
  end.

Definition is_ascii_iequal (left right : bytes) : bool :=
  if negb (length left =? length right)%nat then false else iequal_from left right.

Definition scheme_char (ch : byte) : bool :=
  is_ascii_alnum ch || (ch =?b "+"%byte) || (ch =?b "-"%byte) || (ch =?b "."%byte).

Definition is_valid_scheme (scheme : bytes) : bool :=
  match scheme with
  | [] => false
  | front :: tail => if negb (is_ascii_alpha front) then false else forallb scheme_char tail
  end.

Definition lower_ascii (text : bytes) : bytes := to_ascii_lower <$> text.

Definition should_encode (value : byte) (encode_slash : bool) : bool :=
  let is_unreserved :=
    is_ascii_alnum value || (value =?b "-"%byte) || (value =?b "."%byte)
    || (value =?b "_"%byte) || (value =?b "~"%byte) in
  if is_unreserved then false
  else if negb encode_slash && (value =?b "/"%byte) then false
  else negb (existsb (λ c, value =?b c) (lit ":@!$&'()*+,;=")).

Definition hex_value (value : byte) : Z :=
  if in_range 48 57 value then uval value - 48
  else if in_range 97 102 value then uval value - 97 + 10
  else if in_range 65 70 value then uval value - 65 + 10
  else -1.

Definition is_windows_drive_prefix (path : bytes) : bool :=
  match path with
  | a :: b :: _ => is_ascii_alpha a && (b =?b ":"%byte)
  | _ => false
  end.

Definition is_windows_drive_absolute (path : bytes) : bool :=
  match path with
  | _ :: _ :: c :: _ => is_windows_drive_prefix path && (c =?b "/"%byte)
  | _ => false
  end.

Definition is_absolute_fs_path (path : bytes) : bool :=
  starts_with path (lit "/") || starts_with path (lit "//") || is_windows_drive_absolute path.

(** ** Percent-encoding *)

Definition hex : bytes := lit "0123456789ABCDEF".

Definition encode_byte (encode_slash : bool) (value : byte) : bytes :=
  if should_encode value encode_slash then
    ["%"%byte; hex !!! Z.to_nat (Z.land (Z.shiftr (uval value) 4) 15);
     hex !!! Z.to_nat (Z.land (uval value) 15)]
  else [value].

Definition percent_encode (input : bytes) (encode_slash : bool) : bytes :=
  mjoin (encode_byte encode_slash <$> input).

Definition truncated_escape : bytes := lit "invalid percent-encoding: truncated escape".
Definition non_hex_digit : bytes := lit "invalid percent-encoding: non-hex digit".

Fixpoint percent_decode (input : bytes) : expected bytes bytes :=
  match input with
  | [] => Ok []
  | c :: rest =>
      if negb (c =?b "%"%byte) then (try out := percent_decode rest in Ok (c :: out)) else
      match rest with
      | h :: l :: rest' =>
          let high := hex_value h in
          let low := hex_value l in
          if (high <? 0)%Z || (low <? 0)%Z then Err non_hex_digit
          else (try out := percent_decode rest' in
                Ok (to_byte (Z.lor (Z.shiftl high 4) low) :: out))
      | _ => Err truncated_escape
      end
  end.

(** ** URIs *)

Record Segment := mkSegment { offset : option nat; seg_size : nat }.

Definition missing : Segment := mkSegment None 0.

Definition exists_ (segment : Segment) : bool :=
  match offset segment with Some _ => true | None => false end.

Record URI := mkURI {
  text : bytes;
  scheme_segment : Segment;
  authority_segment : Segment;
  path_segment : Segment;
  query_segment : Segment;
  fragment_segment : Segment;
}.

Definition view (uri : URI) (segment : Segment) : bytes :=
  match offset segment with
  | None => []
  | Some at_ => substr (text uri) at_ (seg_size segment)
  end.

(** [append_segment]: a part put after the text so far, and where it lies. *)
Definition append_segment (text part : bytes) : bytes * Segment :=
  (text ++ part, mkSegment (Some (length text)) (length part)).

(** A part that may be missing, with what introduces it. *)
Definition append_optional (text lead : bytes) (part : option bytes) : bytes * Segment :=
  match part with
  | Some part => append_segment (text ++ lead) part
  | None => (text, missing)
  end.

(** Cuts at the first byte [c]: what is before it, and what is after. *)
Definition cut (c : byte) (s : bytes) : bytes * option bytes :=
  match find_index (λ x, x =?b c) s with
  | Some k => (take k s, Some (drop (k + 1) s))
  | None => (s, None)
  end.

(** The authority and the path of the hierarchical part. *)
Definition split_hierarchical (hierarchical : bytes) : option bytes * bytes :=
  if starts_with hierarchical (lit "//") then
    let authority_and_path := drop 2 hierarchical in
    match find_index (λ x, x =?b "/"%byte) authority_and_path with
    | None => (Some authority_and_path, [])
    | Some path_pos => (Some (take path_pos authority_and_path), drop path_pos authority_and_path)
    end
  else (None, hierarchical).

(** The text put together from its components, with their segments. *)
Definition assemble (scheme : bytes) (authority : option bytes) (path : bytes)
    (query fragment : option bytes) : URI :=
  let '(text, scheme_segment) := append_segment [] scheme in
  let text := text ++ lit ":" in
  let '(text, authority_segment) := append_optional text (lit "//") authority in
  let '(text, path_segment) := append_segment text path in
  let '(text, query_segment) := append_optional text (lit "?") query in
  let '(text, fragment_segment) := append_optional text (lit "#") fragment in
  mkURI text scheme_segment authority_segment path_segment query_segment fragment_segment.

Definition parse (input : bytes) : expected URI bytes :=
  if bool_decide (input = []) then Err (lit "uri is empty") else
  match find_index (λ x, x =?b ":"%byte) input with
  | None => Err (lit "uri is missing scheme delimiter ':'")
  | Some scheme_end =>
      let first_delimiter :=
        find_index (λ x, (x =?b "/"%byte) || (x =?b "?"%byte) || (x =?b "#"%byte)) input in
      if match first_delimiter with Some d => (d <? scheme_end)%nat | None => false end
      then Err (lit "uri is missing scheme") else
      let raw_scheme := take scheme_end input in
      if negb (is_valid_scheme raw_scheme) then Err (lit "uri scheme is invalid") else
      let scheme_text := lower_ascii raw_scheme in
      let remainder := drop (scheme_end + 1) input in
      let '(without_fragment, fragment_text) := cut "#"%byte remainder in
      let '(hierarchical, query_text) := cut "?"%byte without_fragment in
      let '(authority_text, path_text) := split_hierarchical hierarchical in
      Ok (assemble scheme_text authority_text path_text query_text fragment_text)
  end.

Definition str (uri : URI) : bytes := text uri.
Definition scheme (uri : URI) : bytes := view uri (scheme_segment uri).
Definition has_authority (uri : URI) : bool := exists_ (authority_segment uri).
Definition authority (uri : URI) : bytes := view uri (authority_segment uri).
Definition path (uri : URI) : bytes := view uri (path_segment uri).
Definition has_query (uri : URI) : bool := exists_ (query_segment uri).
Definition query (uri : URI) : bytes := view uri (query_segment uri).
Definition has_fragment (uri : URI) : bool := exists_ (fragment_segment uri).
Definition fragment (uri : URI) : bytes := view uri (fragment_segment uri).
Definition is_file (uri : URI) : bool := bool_decide (scheme uri = lit "file").

(** ** File URIs *)

Definition encode_authority_host (host : bytes) : bytes :=
  match host with
  | front :: rest =>
      if (2 <=? length host)%nat && (front =?b "["%byte) && ends_with host (lit "]")
      then lit "[" ++ percent_encode (substr host 1 (length host - 2)) true ++ lit "]"
      else percent_encode host true
  | [] => percent_encode host true
  end.

Definition to_slashes (path : bytes) : bytes :=
  (λ c, if c =?b "\"%byte then "/"%byte else c) <$> path.

(** The text "file:" and "//", its authority and its path. *)
Definition file_uri (authority path : bytes) : URI :=
  let '(text, scheme_segment) := append_segment [] (lit "file") in
  let text := (text ++ lit ":") ++ lit "//" in
  let '(text, authority_segment) := append_segment text authority in
  let '(text, path_segment) := append_segment text path in
  mkURI text scheme_segment authority_segment path_segment missing missing.

Definition from_file_path (path : bytes) : expected URI bytes :=
  if bool_decide (path = []) then Err (lit "path is empty") else
  let normalized_path := to_slashes path in
  if is_windows_drive_prefix normalized_path && negb (is_windows_drive_absolute normalized_path)
  then Err (lit "windows drive path must be absolute")
  else if negb (is_absolute_fs_path normalized_path) then Err (lit "path must be absolute")
  else if starts_with normalized_path (lit "//") then
    let host_and_rest := drop 2 normalized_path in
    match find_index (λ x, x =?b "/"%byte) host_and_rest with
    | None | Some O => Err (lit "unc path must include server and share")
    | Some first_slash =>
        match host_and_rest !! (first_slash + 1)%nat with
        | None => Err (lit "unc path must include non-empty share")
        | Some c =>
            if c =?b "/"%byte then Err (lit "unc path must include non-empty share")
            else Ok (file_uri (encode_authority_host (take first_slash host_and_rest))
                       (percent_encode (drop first_slash host_and_rest) false))
        end
    end
  else
    let normalized_path :=
      if is_windows_drive_absolute normalized_path then "/"%byte :: normalized_path
      else normalized_path in
    Ok (file_uri [] (percent_encode normalized_path false)).

Definition file_path (windows : bool) (uri : URI) : expected bytes bytes :=
  if negb (is_file uri) then Err (lit "uri scheme is not file") else
  try decoded_path := percent_decode (path uri) in
  if has_authority uri && negb (bool_decide (authority uri = []))
     && negb (is_ascii_iequal (authority uri) (lit "localhost")) then
    try decoded_authority := percent_decode (authority uri) in
    if existsb (λ value, (value =?b "/"%byte) || (value =?b "\"%byte)) decoded_authority
    then Err (lit "file uri authority contains path separator")
    else Ok (lit "//" ++ decoded_authority ++ decoded_path)
  else
    match decoded_path with
    | c :: rest =>
        if negb (c =?b "/"%byte) then Err (lit "file uri local path must be absolute")
        else if windows && is_windows_drive_prefix rest then Ok rest
        else Ok decoded_path
    | [] => Err (lit "file uri local path must be absolute")
    end.

(** ** Percent-encoding loses nothing *)

Lemma decode_encode_byte b v rest :
  percent_decode (encode_byte b v ++ rest) = (try out := percent_decode rest in Ok (v :: out)).
Proof. destruct v, b; reflexivity. Qed.

Lemma percent_encode_cons b v s :
  percent_encode (v :: s) b = encode_byte b v ++ percent_encode s b.
Proof. done. Qed.

Lemma decode_encode s b : percent_decode (percent_encode s b) = Ok s.
Proof.
  induction s as [|v s IH]; [done|].
  rewrite percent_encode_cons, decode_encode_byte, IH. done.
Qed.

(** What may stand in an encoded component. *)
Definition uri_char (encode_slash : bool) (c : byte) : bool :=
  negb (should_encode c encode_slash) || (c =?b "%"%byte).

Lemma encode_byte_chars b v : forallb (uri_char b) (encode_byte b v) = true.
Proof. destruct v, b; reflexivity. Qed.

Lemma percent_encode_chars s b : forallb (uri_char b) (percent_encode s b) = true.
Proof.
  induction s as [|v s IH]; [done|]. rewrite percent_encode_cons, forallb_app.
  by rewrite encode_byte_chars, IH.
Qed.

Lemma percent_encode_notin s b c : uri_char b c = false → c ∉ percent_encode s b.
Proof.
  intros Hc Hin. pose proof (percent_encode_chars s b) as H.
  rewrite forallb_forall in H. specialize (H c (proj1 (list_elem_of_In _ _) Hin)). congruence.
Qed.

(** ** Components *)

Lemma cut_spec c s :
  match cut c s with
  | (a, Some b) => s = a ++ c :: b ∧ c ∉ a
  | (a, None) => s = a ∧ c ∉ s
  end.
Proof.
  unfold cut. destruct (find_index _ s) as [k|] eqn:E.
  - apply find_byte_some in E as (H1 & H2 & _). done.
  - by apply find_byte_none in E.
Qed.

Lemma cut_some c a b : c ∉ a → cut c (a ++ c :: b) = (a, Some b).
Proof.
  intros H. unfold cut. rewrite find_byte_app by done. rewrite take_app_length. do 2 f_equal.
  rewrite drop_app_add. done.
Qed.

Lemma cut_none c a : c ∉ a → cut c a = (a, None).
Proof. intros H. unfold cut. by rewrite (proj2 (find_byte_none c a) H). Qed.

(** What is written of a part that may be missing. *)
Definition opt_text (lead : bytes) (part : option bytes) : bytes :=
  match part with Some part => lead ++ part | None => [] end.

Lemma assemble_text s a p q f :
  text (assemble s a p q f)
  = s ++ lit ":" ++ opt_text (lit "//") a ++ p ++ opt_text (lit "?") q ++ opt_text (lit "#") f.
Proof.
  unfold assemble, append_optional, append_segment, opt_text.
  destruct a, q, f; simpl; by rewrite <- ?app_assoc; simpl; rewrite ?app_nil_r.
Qed.

Lemma substr_part (t pre part post : bytes) :
  t = pre ++ part ++ post → substr t (length pre) (length part) = part.
Proof. intros ->. unfold substr. by rewrite drop_app_length, take_app_length. Qed.

Lemma substr_last (t pre part : bytes) :
  t = pre ++ part → substr t (length pre) (length part) = part.
Proof. intros ->. apply (substr_part _ pre part []). by rewrite app_nil_r. Qed.

(** Proves that a component lies where its segment says. *)
Ltac view_part :=
  first [reflexivity
  | apply substr_last; rewrite <- ?app_assoc; reflexivity
  | eapply substr_part; rewrite <- ?app_assoc; reflexivity].

(** The components of a URI are read back from its text. *)
Lemma assemble_views s a p q f :
  let u := assemble s a p q f in
  scheme u = s ∧ (if has_authority u then Some (authority u) else None) = a ∧ path u = p ∧
  (if has_query u then Some (query u) else None) = q ∧
  (if has_fragment u then Some (fragment u) else None) = f.
Proof.
  unfold scheme, authority, path, query, fragment, view, has_authority, has_query, has_fragment,
    exists_, assemble, append_optional, append_segment.
  destruct a, q, f; cbn [text scheme_segment authority_segment path_segment query_segment
    fragment_segment offset seg_size missing app]; split_and!; try done; try f_equal; try view_part.
  all: eapply (substr_part _ []); rewrite <- ?app_assoc; reflexivity.
Qed.

(** ** Parsing *)

(** The grammar: what each component may hold. *)
Definition wf_uri (s : bytes) (a : option bytes) (p : bytes) (q f : option bytes) : Prop :=
  is_valid_scheme s = true ∧
  match a with
  | Some a => ("/"%byte ∉ a) ∧ ("?"%byte ∉ a) ∧ ("#"%byte ∉ a) ∧
      (p = [] ∨ ∃ p', p = "/"%byte :: p')
  | None => starts_with p (lit "//") = false
  end ∧
  ("?"%byte ∉ p) ∧ ("#"%byte ∉ p) ∧
  match q with Some q => "#"%byte ∉ q | None => True end.

Definition delimiter (c : byte) : bool :=
  (c =?b "/"%byte) || (c =?b "?"%byte) || (c =?b "#"%byte).

Lemma scheme_char_plain c :
  implb (scheme_char c) (negb (delimiter c) && negb (c =?b ":"%byte)
    && scheme_char (to_ascii_lower c)) = true.
Proof. revert c. by_bytes. Qed.

Lemma alpha_scheme_char c :
  implb (is_ascii_alpha c) (scheme_char c && is_ascii_alpha (to_ascii_lower c)) = true.
Proof. revert c. by_bytes. Qed.

Lemma valid_scheme_chars s :
  is_valid_scheme s = true → s ≠ [] ∧ ∀ c, c ∈ s → scheme_char c = true.
Proof.
  destruct s as [|c s]; [done|]. unfold is_valid_scheme. intros H. split; [done|].
  destruct (is_ascii_alpha c) eqn:Ea; [|done]. cbn [negb] in H.
  pose proof (alpha_scheme_char c) as Hc. rewrite Ea in Hc. simpl in Hc. bool_prop.
  intros x [->|Hx]%elem_of_cons; [done|]. rewrite forallb_forall in H.
  by apply H, list_elem_of_In.
Qed.

Lemma valid_scheme_plain s :
  is_valid_scheme s = true →
  (":"%byte ∉ s) ∧ find_index delimiter s = None ∧ is_valid_scheme (lower_ascii s) = true.
Proof.
  intros H. destruct (valid_scheme_chars s H) as [Hne Hs].
  assert (Hp : ∀ c, c ∈ s → delimiter c = false ∧ (c =?b ":"%byte) = false
                 ∧ scheme_char (to_ascii_lower c) = true).
  { intros c Hc. pose proof (scheme_char_plain c) as Hp. rewrite Hs in Hp by done. simpl in Hp.
    bool_prop. done. }
  split; [intros Hc; by destruct (Hp _ Hc) as (_ & ? & _)|]. split.
  - apply find_index_none. intros c Hc. by destruct (Hp c Hc).
  - destruct s as [|c s]; [done|]. cbn [lower_ascii fmap list_fmap is_valid_scheme].
    simpl in H. destruct (is_ascii_alpha c) eqn:Ea; [|done].
    pose proof (alpha_scheme_char c) as Hc. rewrite Ea in Hc. simpl in Hc. bool_prop.
    rewrite H1. cbn [negb]. apply forallb_forall. intros x Hx%list_elem_of_In.
    apply list_elem_of_fmap in Hx as (y & -> & Hy). apply Hp. by apply elem_of_cons; right.
Qed.

Lemma split_hierarchical_assemble a p :
  match a with
  | Some a => ("/"%byte ∉ a) ∧ (p = [] ∨ ∃ p', p = "/"%byte :: p')
  | None => starts_with p (lit "//") = false
  end →
  split_hierarchical (opt_text (lit "//") a ++ p) = (a, p).
Proof.
  unfold split_hierarchical, opt_text. destruct a as [a|]; [|intros E; cbn [app]; by rewrite E].
  intros [Ha Hp]. rewrite <- app_assoc.
  assert (E : starts_with (lit "//" ++ a ++ p) (lit "//") = true) by by apply starts_with_iff.
  rewrite E. change (drop 2 (lit "//" ++ a ++ p)) with (a ++ p).
  destruct Hp as [->|[p' ->]].
  - by rewrite app_nil_r, (proj2 (find_byte_none _ _) Ha).
  - by rewrite find_byte_app, take_app_length, drop_app_length by done.
Qed.

Lemma opt_text_notin c lead part :
  c ∉ lead → match part with Some x => c ∉ x | None => True end → c ∉ opt_text lead part.
Proof.
  destruct part; simpl; [|intros; apply not_elem_of_nil]. rewrite not_elem_of_app. done.
Qed.

(** A text of the grammar is parsed into its components. *)
Lemma parse_assemble s a p q f :
  wf_uri s a p q f →
  parse (text (assemble s a p q f)) = Ok (assemble (lower_ascii s) a p q f).
Proof.
  intros (Hs & Ha & Hp1 & Hp2 & Hq). destruct (valid_scheme_plain s Hs) as (Hcolon & Hdelim & _).
  destruct (valid_scheme_chars s Hs) as [Hne _].
  rewrite assemble_text. change (lit ":") with [":"%byte]. cbn [app].
  set (rest := opt_text (lit "//") a ++ p ++ opt_text (lit "?") q ++ opt_text (lit "#") f).
  unfold parse. rewrite bool_decide_eq_false_2 by (by destruct s).
  rewrite find_byte_app by done.
  change (find_index _ (s ++ ":"%byte :: rest)) with (find_index delimiter (s ++ ":"%byte :: rest)).
  rewrite find_index_app, Hdelim.
  assert (Ed : match (λ k, (length s + k)%nat) <$> find_index delimiter (":"%byte :: rest) with
               | Some d => (d <? length s)%nat | None => false end = false).
  { destruct (find_index delimiter (":"%byte :: rest)); [|reflexivity]. apply Nat.ltb_ge. lia. }
  rewrite Ed, take_app_length, Hs. cbn [negb]. rewrite drop_app_add. cbn [drop]. rewrite drop_0.
  assert (Eh : cut "#"%byte rest = (opt_text (lit "//") a ++ p ++ opt_text (lit "?") q, f)).
  { assert (Hh : "#"%byte ∉ opt_text (lit "//") a ++ p ++ opt_text (lit "?") q).
    { rewrite !not_elem_of_app. split_and!; [|done|]; apply opt_text_notin; try done.
      - apply (bool_decide_eq_false_1 _). vm_compute. reflexivity.
      - by destruct a as [a|]; [apply Ha|].
      - apply (bool_decide_eq_false_1 _). vm_compute. reflexivity. }
    subst rest. unfold opt_text at 3. destruct f as [f|].
    - set (h := opt_text (lit "//") a ++ p ++ opt_text (lit "?") q) in *.
      replace (opt_text (lit "//") a ++ p ++ opt_text (lit "?") q ++ lit "#" ++ f)
        with (h ++ "#"%byte :: f) by (subst h; by rewrite <- !app_assoc).
      by apply cut_some.
    - rewrite app_nil_r. by apply cut_none. }
  rewrite Eh. clear Eh Ed rest.
  assert (Eq : cut "?"%byte (opt_text (lit "//") a ++ p ++ opt_text (lit "?") q)
               = (opt_text (lit "//") a ++ p, q)).
  { assert (Hh : "?"%byte ∉ opt_text (lit "//") a ++ p).
    { rewrite !not_elem_of_app. split; [|done]. apply opt_text_notin.
      - apply (bool_decide_eq_false_1 _). vm_compute. reflexivity.
      - by destruct a as [a|]; [apply Ha|]. }
    rewrite app_assoc. unfold opt_text at 2. destruct q as [q|]; [by apply cut_some|].
    rewrite app_nil_r. by apply cut_none. }
  rewrite Eq, split_hierarchical_assemble; [done|]. destruct a; [|done].
  split; [apply Ha|apply Ha].
Qed.

Lemma split_hierarchical_spec h :
  ("?"%byte ∉ h) → ("#"%byte ∉ h) →
  let '(a, p) := split_hierarchical h in
  h = opt_text (lit "//") a ++ p ∧
  match a with
  | Some a => ("/"%byte ∉ a) ∧ ("?"%byte ∉ a) ∧ ("#"%byte ∉ a) ∧
      (p = [] ∨ ∃ p', p = "/"%byte :: p')
  | None => starts_with p (lit "//") = false
  end ∧ ("?"%byte ∉ p) ∧ ("#"%byte ∉ p).
Proof.
  intros H1 H2. unfold split_hierarchical. destruct (starts_with h (lit "//")) eqn:E; [|done].
  apply starts_with_iff in E. set (r := drop 2 h).
  assert (Eh : h = lit "//" ++ r) by (subst r; rewrite <- E; by rewrite take_drop).
  rewrite Eh in H1, H2 |- *. clearbody r. clear E Eh h.
  apply not_elem_of_app in H1 as [_ H1]. apply not_elem_of_app in H2 as [_ H2].
  destruct (find_index _ r) as [k|] eqn:Ek.
  - apply find_byte_some in Ek as (Hr & Hk & _).
    assert (Ed : drop k r = "/"%byte :: drop (k + 1) r).
    { apply (app_inv_head (take k r)). by rewrite take_drop. }
    rewrite <- (take_drop k r), not_elem_of_app in H1, H2.
    unfold opt_text. rewrite <- app_assoc, take_drop. split_and!; try done; try apply H1; try apply H2.
    right. by exists (drop (k + 1) r).
  - apply find_byte_none in Ek. unfold opt_text. rewrite app_nil_r.
    split_and!; try done; try apply not_elem_of_nil. by left.
Qed.

(** Only a text of the grammar is parsed, into its components. *)
Lemma parse_inv input u :
  parse input = Ok u →
  ∃ s a p q f, wf_uri s a p q f ∧ input = text (assemble s a p q f) ∧
    u = assemble (lower_ascii s) a p q f.
Proof.
  unfold parse. intros H. case_if_in H; [done|].
  destruct (find_index _ input) as [k|] eqn:Ek; [|done].
  apply find_byte_some in Ek as (Ei & Hcolon & _).
  case_if_in H; [done|]. destruct (is_valid_scheme (take k input)) eqn:Es; [|done].
  cbn [negb] in H. pose proof (cut_spec "#"%byte (drop (k + 1) input)) as Hf.
  destruct (cut "#"%byte _) as [wf f]. pose proof (cut_spec "?"%byte wf) as Hq.
  destruct (cut "?"%byte wf) as [h q]. simplify_eq.
  assert (Hf' : drop (k + 1) input = wf ++ opt_text (lit "#") f ∧ "#"%byte ∉ wf).
  { destruct f as [f|]; [done|]. destruct Hf as [<- Hn]. by rewrite app_nil_r. }
  assert (Hq' : wf = h ++ opt_text (lit "?") q ∧ "?"%byte ∉ h).
  { destruct q as [q|]; [done|]. destruct Hq as [<- Hn]. by rewrite app_nil_r. }
  destruct Hf' as [Ef Hnf]. destruct Hq' as [Eq Hnq]. rewrite Eq, not_elem_of_app in Hnf.
  destruct Hnf as [Hnh Hnq2].
  pose proof (split_hierarchical_spec h Hnq Hnh) as Hs.
  destruct (split_hierarchical h) as [a p]. destruct Hs as (Eh & Ha & Hp1 & Hp2). simplify_eq.
  exists (take k input), a, p, q, f. split_and!; [|..|done].
  - unfold wf_uri. split_and!; try done. destruct q as [q|]; [|done].
    simpl in Hnq2. by apply not_elem_of_cons in Hnq2 as [_ ?].
  - rewrite assemble_text. rewrite Ei at 1. f_equal. cbn [app]. f_equal.
    rewrite Ef. by rewrite <- !app_assoc.
Qed.

Lemma lower_lower s : lower_ascii (lower_ascii s) = lower_ascii s.
Proof.
  unfold lower_ascii. rewrite <- list_fmap_compose. apply list_fmap_ext. intros _ c _.
  apply byte_eqb_spec. revert c. by_bytes.
Qed.

Lemma wf_uri_lower s a p q f : wf_uri s a p q f → wf_uri (lower_ascii s) a p q f.
Proof. intros [Hs H]. split; [|done]. by apply valid_scheme_plain. Qed.

(** C38. A text is parsed exactly when it has the form [scheme ":" ["//"
    authority] path ["?" query] ["#" fragment]], each component free of the
    delimiters after it, and the URI's accessors give those components, the
    scheme in lower case.  So printing and parsing are inverse: the text of a
    parsed URI is its input with the scheme in lower case, and parsing it
    again gives the same URI. *)
Theorem parse_correct input :
  (∀ u, parse input = Ok u →
     ∃ s a p q f, wf_uri s a p q f ∧
       input = s ++ lit ":" ++ opt_text (lit "//") a ++ p ++ opt_text (lit "?") q
                 ++ opt_text (lit "#") f ∧
       str u = lower_ascii s ++ drop (length s) input ∧
       scheme u = lower_ascii s ∧ (if has_authority u then Some (authority u) else None) = a ∧
       path u = p ∧ (if has_query u then Some (query u) else None) = q ∧
       (if has_fragment u then Some (fragment u) else None) = f ∧
       parse (str u) = Ok u) ∧
  (∀ s a p q f, wf_uri s a p q f →
     input = s ++ lit ":" ++ opt_text (lit "//") a ++ p ++ opt_text (lit "?") q
               ++ opt_text (lit "#") f →
     ∃ u, parse input = Ok u).
Proof.
  split.
  - intros u H. apply parse_inv in H as (s & a & p & q & f & Hwf & -> & ->).
    exists s, a, p, q, f.
    destruct (assemble_views (lower_ascii s) a p q f) as (V1 & V2 & V3 & V4 & V5).
    split; [done|]. split; [apply assemble_text|]. split; [|split_and!; try done].
    + unfold str. by rewrite !assemble_text, drop_app_length.
    + unfold str. rewrite parse_assemble by by apply wf_uri_lower. by rewrite lower_lower.
  - intros s a p q f Hwf ->. rewrite <- assemble_text, parse_assemble by done. eauto.
Qed.

(** ** File URIs *)

Lemma file_uri_assemble a p : file_uri a p = assemble (lit "file") (Some a) p None None.
Proof. done. Qed.

Lemma decode_encode_app s b rest :
  percent_decode (percent_encode s b ++ rest)
  = (try out := percent_decode rest in Ok (s ++ out)).
Proof.
  induction s as [|v s IH]; [simpl; by destruct (percent_decode rest)|].
  rewrite percent_encode_cons, <- app_assoc, decode_encode_byte, IH.
  by destruct (percent_decode rest).
Qed.

Lemma ends_with_last (s : bytes) c : ends_with s [c] = true → s = take (length s - 1) s ++ [c].
Proof.
  unfold ends_with. intros H. bool_prop. cbn [length] in H0.
  trans (take (length s - 1) s ++ drop (length s - 1) s); [by rewrite take_drop|by rewrite H0].
Qed.

Lemma to_slashes_plain path : "\"%byte ∉ to_slashes path.
Proof.
  unfold to_slashes. rewrite list_elem_of_fmap. intros (c & E & _). revert E. by case_if;
    [|intros <-; rewrite byte_eqb_refl in *].
Qed.

Lemma percent_encode_slash s :
  (∃ s', s = "/"%byte :: s') → ∃ p', percent_encode s false = "/"%byte :: p'.
Proof. intros [s' ->]. rewrite percent_encode_cons. by eexists. Qed.

(** What is written of a host: what it is, for a reader, and which bytes. *)
Lemma encode_host_ok host :
  host ≠ [] →
  percent_decode (encode_authority_host host) = Ok host ∧ encode_authority_host host ≠ [] ∧
  ∀ c, delimiter c = true → c ∉ encode_authority_host host.
Proof.
  intros Hne. destruct host as [|front rest]; [done|]. set (host := front :: rest) in *.
  assert (Hplain : ∀ s c, delimiter c = true → c ∉ percent_encode s true).
  { intros s c Hc. apply percent_encode_notin. revert Hc. unfold delimiter.
    intros [[->%byte_eqb_spec| ->%byte_eqb_spec]%orb_true_iff| ->%byte_eqb_spec]%orb_true_iff; done. }
  unfold encode_authority_host. fold host. cbn [host].
  change (front :: rest) with host.
  destruct ((2 <=? length host)%nat && (front =?b "["%byte) && ends_with host (lit "]")) eqn:E.
  - bool_prop. apply byte_eqb_spec in H1. apply ends_with_last in H0.
    set (mid := substr host 1 (length host - 2)).
    assert (Eh : host = "["%byte :: mid ++ lit "]").
    { subst mid host front. unfold substr. cbn [length drop] in *. rewrite drop_0 in *.
      destruct (length rest) as [|n] eqn:El; [simpl in H; lia|].
      replace (S (S n) - 1)%nat with (S n) in H0 by lia.
      replace (S (S n) - 2)%nat with n by lia.
      cbn [take app] in H0. exact H0. }
    split_and!.
    + change (percent_decode (lit "[" ++ percent_encode mid true ++ lit "]"))
        with (try out := percent_decode (percent_encode mid true ++ lit "]") in
              Ok ("["%byte :: out)).
      rewrite decode_encode_app. by rewrite Eh.
    + done.
    + intros c Hc. rewrite !not_elem_of_app. split_and!; [|by apply Hplain|];
        intros ->%list_elem_of_singleton; done.
  - split_and!; [apply decode_encode| |by intros c; apply Hplain].
    subst host. rewrite percent_encode_cons. unfold encode_byte. by case_if.
Qed.

Lemma file_uri_views a p :
  let u := file_uri a p in
  is_file u = true ∧ has_authority u = true ∧ authority u = a ∧ path u = p.
Proof.
  rewrite file_uri_assemble. intros u.
  destruct (assemble_views (lit "file") (Some a) p None None) as (V1 & V2 & V3 & _ & _).
  fold u in V1, V2, V3. unfold is_file. rewrite V1.
  destruct (has_authority u); simplify_eq. by split_and!.
Qed.

(** ** Which path comes back *)

(** A local path, of which Windows drops the slash before a drive. *)
Definition local_path (windows : bool) (path : bytes) : bytes :=
  match path with
  | _ :: rest => if windows && is_windows_drive_prefix rest then rest else path
  | [] => []
  end.

Definition path_back (windows : bool) (path : bytes) : bytes :=
  let n := to_slashes path in
  if starts_with n (lit "//") then
    let '(host, _) := cut "/"%byte (drop 2 n) in
    if is_ascii_iequal (encode_authority_host host) (lit "localhost")
    then local_path windows (drop (2 + length host) n) else n
  else local_path windows (if is_windows_drive_absolute n then "/"%byte :: n else n).

Lemma file_path_local windows a s :
  a = [] ∨ is_ascii_iequal a (lit "localhost") = true → (∃ s', s = "/"%byte :: s') →
  file_path windows (file_uri a (percent_encode s false)) = Ok (local_path windows s).
Proof.
  intros Ha [s' ->]. destruct (file_uri_views a (percent_encode ("/"%byte :: s') false))
    as (V1 & V2 & V3 & V4). unfold file_path. rewrite V1, V2, V3, V4, decode_encode.
  cbn [negb ebind].
  assert (E : true && negb (bool_decide (a = [])) && negb (is_ascii_iequal a (lit "localhost")) = false).
  { destruct Ha as [-> | ->]; [done|]. by rewrite andb_false_r. }
  rewrite E. change (("/" =?b "/")%byte) with true. cbn [negb local_path]. by case_if.
Qed.

Lemma wf_file_uri a s :
  (∀ c, delimiter c = true → c ∉ a) → (∃ s', s = "/"%byte :: s') →
  wf_uri (lit "file") (Some a) (percent_encode s false) None None.
Proof.
  intros Ha Hs. unfold wf_uri. split; [done|]. split; [|split_and!; [by apply percent_encode_notin..|done]].
  split; [by apply Ha|]. split; [by apply Ha|]. split; [by apply Ha|]. right.
  by apply percent_encode_slash.
Qed.

Lemma file_uri_reparse a s :
  (∀ c, delimiter c = true → c ∉ a) → (∃ s', s = "/"%byte :: s') →
  parse (str (file_uri a (percent_encode s false))) = Ok (file_uri a (percent_encode s false)).
Proof.
  intros Ha Hs. rewrite file_uri_assemble. unfold str. rewrite parse_assemble by by apply wf_file_uri.
  done.
Qed.

Lemma cut_find c s k :
  find_index (λ x, x =?b c) s = Some k → cut c s = (take k s, Some (drop (k + 1) s)).
Proof. intros E. unfold cut. by rewrite E. Qed.

Lemma find_byte_drop c (s : bytes) k :
  find_index (λ x, x =?b c) s = Some k → ∃ s', drop k s = c :: s'.
Proof.
  intros (H & _ & _)%find_byte_some. exists (drop (k + 1) s).
  apply (app_inv_head (take k s)). by rewrite take_drop.
Qed.

Lemma file_path_unc windows host s :
  host ≠ [] → ("/"%byte ∉ host) → ("\"%byte ∉ host) →
  is_ascii_iequal (encode_authority_host host) (lit "localhost") = false →
  file_path windows (file_uri (encode_authority_host host) (percent_encode s false))
    = Ok (lit "//" ++ host ++ s).
Proof.
  intros Hne Hsl Hbs Hloc. destruct (encode_host_ok host Hne) as (Hd & He & _).
  destruct (file_uri_views (encode_authority_host host) (percent_encode s false))
    as (V1 & V2 & V3 & V4). unfold file_path. rewrite V1, V2, V3, V4, decode_encode.
  cbn [negb ebind]. rewrite bool_decide_eq_false_2, Hloc by done. cbn [negb andb].
  rewrite Hd. cbn [ebind].
  destruct (existsb _ host) eqn:E; [|done].
  apply existsb_exists in E as (c & Hc%list_elem_of_In & Ec).
  apply orb_true_iff in Ec as [->%byte_eqb_spec| ->%byte_eqb_spec]; done.
Qed.

Lemma from_file_path_ok windows p u :
  from_file_path p = Ok u →
  parse (str u) = Ok u ∧ file_path windows u = Ok (path_back windows p).
Proof.
  unfold from_file_path, path_back. intros H. case_if_in H; [done|].
  pose proof (to_slashes_plain p) as Hbs. set (n := to_slashes p) in *. clearbody n.
  case_if_in H; [done|].
  destruct (is_absolute_fs_path n) eqn:Eabs; [|done]. cbn [negb] in H.
  destruct (starts_with n (lit "//")) eqn:Eunc.
  - apply starts_with_iff in Eunc. set (r := drop 2 n) in *.
    assert (En : n = lit "//" ++ r) by (subst r; rewrite <- Eunc; by rewrite take_drop).
    destruct (find_index _ r) as [[|k]|] eqn:Ek; try done. set (k' := S k) in *.
    destruct (r !! (k' + 1)%nat); [|done]. case_if_in H; [done|]. simplify_eq.
    rewrite (cut_find _ _ _ Ek). pose proof (find_byte_drop _ _ _ Ek) as Hs.
    apply find_byte_some in Ek as (_ & Hh & Hk).
    assert (Hne : take k' r ≠ []) by (subst k'; destruct r; simpl in *; [lia|done]).
    destruct (encode_host_ok _ Hne) as (_ & _ & Hc).
    split; [by apply file_uri_reparse|].
    destruct (is_ascii_iequal _ _) eqn:Eloc.
    + rewrite file_path_local by (auto; by right). do 2 f_equal. subst r.
      rewrite drop_drop, length_take. f_equal. lia.
    + assert (Hr : n = lit "//" ++ take k' r ++ drop k' r) by by rewrite take_drop.
      rewrite file_path_unc; [by rewrite <- Hr|done|done| |done].
      intros Hb. apply Hbs. rewrite Hr, !elem_of_app. auto.
  - simplify_eq.
    assert (Hs : ∃ s', (if is_windows_drive_absolute n then "/"%byte :: n else n) = "/"%byte :: s').
    { destruct (is_windows_drive_absolute n) eqn:Edr; [by eexists|].
      unfold is_absolute_fs_path in Eabs. rewrite Edr, Eunc, !orb_false_r in Eabs. apply starts_with_iff in Eabs.
      destruct n as [|c n]; [done|]. injection Eabs as ->. by eexists. }
    split; [apply file_uri_reparse; [intros; apply not_elem_of_nil|done]|].
    apply file_path_local; [by left|done].
Qed.

(** A file URI made of a path is a URI of the grammar, and gives the path
    back: with its backslashes as slashes, and up to the slash before a drive;
    only the host of a UNC path that reads "localhost" is dropped.  An
    absolute path of a POSIX system without backslashes, other than one that
    begins with two slashes, always makes a URI and comes back as it was. *)
Theorem file_path_roundtrip windows p :
  (∀ u, from_file_path p = Ok u →
     parse (str u) = Ok u ∧ file_path windows u = Ok (path_back windows p)) ∧
  (starts_with p (lit "/") = true → starts_with p (lit "//") = false → ("\"%byte ∉ p) →
     ∃ u, from_file_path p = Ok u ∧ file_path false u = Ok p).
Proof.
  split; [by apply from_file_path_ok|]. intros H1 H2 H3.
  assert (En : to_slashes p = p).
  { unfold to_slashes. rewrite <- (list_fmap_id p) at 2. apply list_fmap_ext.
    intros i c Hc. case_if; [|done]. apply byte_eqb_spec in Heqb as ->.
    by apply list_elem_of_lookup_2 in Hc. }
  destruct p as [|c p]; [done|]. pose proof H1 as Hc. apply starts_with_iff in Hc.
  injection Hc as ->.
  assert (Ed : is_windows_drive_absolute ("/"%byte :: p) = false)
    by (by destruct p as [|? [|? ?]]).
  assert (Ep : is_windows_drive_prefix ("/"%byte :: p) = false) by (by destruct p).
  eassert (E : from_file_path ("/"%byte :: p) = Ok _).
  { unfold from_file_path. rewrite En, bool_decide_eq_false_2 by done.
    rewrite Ep. unfold is_absolute_fs_path. rewrite H1, H2, Ed. cbn [andb orb negb]. reflexivity. }
  eexists. split; [exact E|]. destruct (from_file_path_ok false _ _ E) as [_ ->].
  f_equal. unfold path_back. by rewrite En, H2, Ed.
Qed.

Lemma file_path_roundtrip_witness :
  (∃ u, from_file_path (lit "/a b/c") = Ok u ∧ file_path false u = Ok (lit "/a b/c")) ∧
  match from_file_path (lit "C:\x") with
  | Ok u => file_path true u = Ok (lit "C:/x")
  | Err _ => False
  end.
Proof.
  split.
  - apply (proj2 (file_path_roundtrip false (lit "/a b/c"))); try reflexivity.
    apply (bool_decide_eq_false_1 _). vm_compute. reflexivity.
  - exact (proj2 (proj1 (file_path_roundtrip true (lit "C:\x")) _ eq_refl)).
Defined.

(** Percent-encoding loses nothing and leaves only bytes a URI may hold:
    decoding gives back the text, whatever it is, and no encoded text holds a
    delimiter, a bracket, a backslash, a space, or, where slashes are encoded
    too, a slash. *)
Theorem percent_roundtrip s b :
  percent_decode (percent_encode s b) = Ok s ∧
  (∀ c, c ∈ percent_encode s b → uri_char b c = true) ∧
  (∀ c, c ∈ lit "?#[]\ " → uri_char b c = false) ∧ uri_char true "/"%byte = false.
Proof.
  split; [apply decode_encode|]. split; [|split; [|done]].
  - intros c Hc. pose proof (percent_encode_chars s b) as H. rewrite forallb_forall in H.
    by apply H, list_elem_of_In.
  - intros c Hc. assert (H : Forall (λ c, uri_char b c = false) (lit "?#[]\ "))
      by (destruct b; repeat constructor). rewrite Forall_forall in H. by apply H.
Qed.
