(* ===== verification/Text.v ===== *)
(** Text in the position encodings of the language server protocol:
    include/kotatsu/ipc/lsp/text.h, src/ipc/lsp/locate.h and text.cpp.

    Offsets, characters and lines are [nat]: the code keeps them in 32 bits,
    which the offsets of a text of less than 4 GiB fit, and adds to them only
    within the text.  The reference is [upto], the scan of a text from its
    start, code point by code point: [locate] is shown to place a unit where
    the scan does, although it looks only at the bytes just before it when it
    counts bytes. *)

From Stdlib Require Import Strings.Byte ZArith Lia Bool.
From stdpp Require Import prelude strings.
From S2P Require Import Prelude Swar Utf8.
Local Open Scope kota_scope.

Inductive PositionEncoding := UTF8 | UTF16 | UTF32.

#[export] Instance encoding_eq_dec : EqDecision PositionEncoding.
Proof. solve_decision. Defined.

Record Located := mkLocated { offset : nat; exact_ : bool }.

Definition is_continuation (b : byte) : bool := (Z.land (uval b) 0xC0 =? 0x80)%Z.

Definition next_codepoint_sizes (text : bytes) (index : nat) : nat * nat :=
  let sequence := decode_utf8 (drop index text) in
  if negb (valid sequence) then (1, 1)%nat
  else (seq_length sequence, if (code_point sequence <? 0x10000)%Z then 1 else 2)%nat.

(** The byte at [at_]; every index the code reads is within the text. *)
Definition continues (text : bytes) (at_ : nat) : bool := is_continuation (text !!! at_).

(** The loop that goes back from [character] to the byte its code point may
    start at. *)
Fixpoint find_lead (text : bytes) (character lead : nat) : nat :=
  match lead with
  | O => O
  | S lead' =>
      if continues text lead && (character - lead <? 3)%nat
      then find_lead text character lead' else lead
  end.

(** The loop over the code points of the text from index [i], [units] counted;
    every round takes a byte or more. *)
Fixpoint locate_from (fuel : nat) (text : bytes) (character : nat) (encoding : PositionEncoding)
    (i units : nat) : Located :=
  match fuel with
  | O => mkLocated (length text) (units =? character)%nat
  | S fuel' =>
      if negb (i <? length text)%nat then mkLocated (length text) (units =? character)%nat
      else if (units =? character)%nat then mkLocated i true
      else
        let '(utf8, utf16) := next_codepoint_sizes text i in
        let units' := (units + (if decide (encoding = UTF16) then utf16 else 1))%nat in
        if (character <? units')%nat then mkLocated i false
        else locate_from fuel' text character encoding (i + utf8) units'
  end.

Definition locate (text : bytes) (character : nat) (encoding : PositionEncoding) : Located :=
  let size := length text in
  if decide (encoding = UTF8) then
    if (size <=? character)%nat then mkLocated size (character =? size)%nat
    else
      let lead := find_lead text character character in
      if negb (lead =? character)%nat && negb (continues text lead)
         && (character <? lead + (next_codepoint_sizes text lead).1)%nat
      then mkLocated lead false
      else mkLocated character true
  else locate_from (S size) text character encoding 0 0.

Fixpoint line_starts_from (content : bytes) (i : nat) : list nat :=
  match content with
  | [] => []
  | c :: content' =>
      if c =?b x0a then (i + 1)%nat :: line_starts_from content' (i + 1)
      else line_starts_from content' (i + 1)
  end.

Definition line_starts (content : bytes) : list nat := 0%nat :: line_starts_from content 0.

Definition is_ascii (text : bytes) : bool :=
  (foldl (λ seen b, Z.lor seen (uval b)) 0 text <? 0x80)%Z.

(** [bits[line / 64] |= 1 << line % 64], the words grown to hold it. *)
Definition set_line (bits : list Z) (line : nat) : list Z :=
  let grown := bits ++ replicate (line / 64 + 1 - length bits) 0%Z in
  <[(line / 64)%nat := Z.lor (grown !!! (line / 64)%nat) (Z.shiftl 1 (Z.of_nat (line mod 64)))]> grown.

(** The loop of [non_ascii_lines]: [rest] is the content from [at] on. *)
Fixpoint non_ascii_lines_from (fuel : nat) (rest : bytes) (line : nat) (bits : list Z) : list Z :=
  match fuel with
  | O => bits
  | S fuel' =>
      let end_ := find_index (λ c, c =?b x0a) rest in
      let text := match end_ with Some e => take e rest | None => rest end in
      let bits' := if negb (is_ascii text) then set_line bits line else bits in
      match end_ with
      | None => bits'
      | Some e => non_ascii_lines_from fuel' (drop (e + 1) rest) (line + 1) bits'
      end
  end.

Definition non_ascii_lines (content : bytes) : list Z :=
  non_ascii_lines_from (S (length content)) content 0 [].

Fixpoint encoded_length_from (fuel : nat) (text : bytes) (encoding : PositionEncoding)
    (i units : nat) : nat :=
  match fuel with
  | O => units
  | S fuel' =>
      if negb (i <? length text)%nat then units
      else
        let '(utf8, utf16) := next_codepoint_sizes text i in
        encoded_length_from fuel' text encoding (i + utf8)
          (units + (if decide (encoding = UTF16) then utf16 else 1))
  end.

Definition encoded_length (text : bytes) (encoding : PositionEncoding) : nat :=
  if decide (encoding = UTF8) then length text
  else encoded_length_from (S (length text)) text encoding 0 0.

Definition encoded_offset (text : bytes) (character : nat) (encoding : PositionEncoding)
    : option nat :=
  let found := locate text character encoding in
  if negb (exact_ found) then None else Some (offset found).

(** ** The shape of a code point *)

Lemma land_c0 b : is_continuation b = in_range 0x80 0xBF b.
Proof.
  apply eqb_prop. revert b. by_bytes.
Qed.

Lemma put_shape cp :
  (0 ≤ cp ≤ 0x10FFFF)%Z →
  ∃ c l, put_code_point cp = c :: l ∧ Forall (λ b, is_continuation b = true) l ∧
    (l ≠ [] → is_continuation c = false) ∧ (length l ≤ 3)%nat.
Proof.
  intros Hcp. rewrite put_code_point_arith by done. unfold put_arith.
  assert (Hk : ∀ z, (0 ≤ z)%Z → is_continuation (to_byte (0x80 + z mod 64)) = true).
  { intros z Hz. rewrite land_c0. unfold in_range. rewrite uval_to_byte_small by dlia.
    apply andb_true_iff. rewrite !Z.leb_le. dlia. }
  assert (Hl : ∀ z, (0xC0 ≤ z < 256)%Z → is_continuation (to_byte z) = false).
  { intros z Hz. rewrite land_c0. unfold in_range. rewrite uval_to_byte_small by lia.
    apply andb_false_iff. right. apply Z.leb_gt. lia. }
  repeat case_if; bool_prop; rewrite ?fmap_cons, fmap_nil; do 2 eexists; (split; [reflexivity|]);
    (split; [repeat constructor|split; [|simpl; lia]]); try done; intros;
    try (apply Hl; dlia); try (apply Hk; dlia).
Qed.

(** A code point at [i], or a byte that starts none. *)
Lemma sizes_cases text i :
  (∃ cp rest, scalar false cp ∧ drop i text = put_code_point cp ++ rest ∧
     next_codepoint_sizes text i
     = (length (put_code_point cp), if (cp <? 0x10000)%Z then 1 else 2)%nat) ∨
  (next_codepoint_sizes text i = (1, 1)%nat ∧
   ∀ cp rest, scalar false cp → drop i text ≠ put_code_point cp ++ rest).
Proof.
  unfold next_codepoint_sizes, decode_utf8.
  destruct (decode_sequence (drop i text) false) as [cp len [|]] eqn:E; cbn [valid negb].
  - left. apply decode_valid in E as (Hs & rest & E & ->). by exists cp, rest.
  - right. split; [done|]. intros cp' rest Hs E'. rewrite E', decode_put in E by done. done.
Qed.

Lemma lookup_drop_app (text : bytes) i a rest j :
  drop i text = a ++ rest → (j < length a)%nat → text !!! (i + j)%nat = a !!! j.
Proof.
  intros E Hj. rewrite !list_lookup_total_alt, <- lookup_drop, E. by rewrite lookup_app_l.
Qed.

Lemma sizes_shape text i n u :
  (i < length text)%nat → next_codepoint_sizes text i = (n, u) →
  (1 ≤ n ≤ 4)%nat ∧ (i + n ≤ length text)%nat ∧ (1 ≤ u ≤ 2)%nat ∧
  (∀ j, (i < j < i + n)%nat → continues text j = true) ∧
  ((1 < n)%nat → continues text i = false).
Proof.
  intros Hi E. destruct (sizes_cases text i) as [(cp & rest & Hs & Ed & E')|[E' _]].
  2: { rewrite E' in E. simplify_eq. split_and!; intros; lia. }
  rewrite E' in E. simplify_eq. destruct (put_shape cp (proj1 Hs)) as (c & l & Ep & Hl & Hc & Hlen).
  rewrite Ep in *. cbn [length] in *.
  assert (El : length (drop i text) = length ((c :: l) ++ rest)) by by rewrite Ed.
  rewrite length_drop, length_app in El. cbn [length] in El.
  split; [lia|]. split; [lia|]. split; [case_if; lia|]. unfold continues. split.
  - intros j Hj. replace j with (i + (j - i))%nat by lia.
    rewrite (lookup_drop_app text i (c :: l) rest) by (done || simpl; lia).
    replace (j - i)%nat with (S (j - i - 1)) by lia. rewrite list_lookup_total_alt.
    rewrite Forall_lookup in Hl. rewrite lookup_cons.
    destruct (lookup_lt_is_Some_2 l (j - i - 1)) as [b Eb]; [lia|]. rewrite Eb. simpl. eauto.
  - intros H1. replace i with (i + 0)%nat by lia.
    rewrite (lookup_drop_app text i (c :: l) rest) by (done || simpl; lia).
    apply Hc. destruct l; [simpl in H1; lia|done].
Qed.

(** ** The scan of a text *)

Definition width (encoding : PositionEncoding) (sizes : nat * nat) : nat :=
  match encoding with UTF8 => sizes.1 | UTF16 => sizes.2 | UTF32 => 1 end.

(** The scan is at [i], having counted [units]. *)
Inductive upto (text : bytes) (encoding : PositionEncoding) : nat → nat → Prop :=
| upto_start : upto text encoding 0 0
| upto_next i units :
    upto text encoding i units → (i < length text)%nat →
    upto text encoding (i + (next_codepoint_sizes text i).1)
      (units + width encoding (next_codepoint_sizes text i)).

Lemma upto_bound text enc i u : upto text enc i u → (i ≤ length text)%nat.
Proof.
  induction 1 as [|i u H IH Hi]; [lia|].
  destruct (next_codepoint_sizes text i) as [n w] eqn:E.
  destruct (sizes_shape text i n w Hi E) as (_ & ? & _). done.
Qed.

Lemma width_pos text i enc :
  (i < length text)%nat →
  (1 ≤ (next_codepoint_sizes text i).1)%nat ∧ (1 ≤ width enc (next_codepoint_sizes text i))%nat.
Proof.
  intros Hi. destruct (next_codepoint_sizes text i) as [n w] eqn:E.
  destruct (sizes_shape text i n w Hi E) as (? & _ & ? & _). destruct enc; simpl; lia.
Qed.

(** The scan after [k] code points. *)
Fixpoint place (text : bytes) (enc : PositionEncoding) (k : nat) : nat * nat :=
  match k with
  | O => (0, 0)%nat
  | S k' =>
      let '(i, u) := place text enc k' in
      (i + (next_codepoint_sizes text i).1, u + width enc (next_codepoint_sizes text i))%nat
  end.

Lemma upto_place text enc i u :
  upto text enc i u ↔
  ∃ k, place text enc k = (i, u) ∧ ∀ k', (k' < k)%nat → ((place text enc k').1 < length text)%nat.
Proof.
  split.
  - induction 1 as [|i u H (k & Ek & Hk) Hi].
    + exists 0%nat. split; [done|lia].
    + exists (S k). cbn [place]. rewrite Ek. split; [done|]. intros k' Hk'.
      destruct (decide (k' = k)) as [->|]; [by rewrite Ek|apply Hk; lia].
  - intros (k & Ek & Hk). revert i u Ek. induction k as [|k IH]; intros i u Ek.
    + simpl in Ek. simplify_eq. constructor.
    + cbn [place] in Ek. pose proof (Hk k ltac:(lia)) as Hlt.
      destruct (place text enc k) as [j v]. simplify_eq. constructor; [|done].
      apply IH; [|done]. intros k' Hk'. apply Hk. lia.
Qed.

Lemma place_le text enc k k' :
  (k < k')%nat → (∀ j, (j < k')%nat → ((place text enc j).1 < length text)%nat) →
  let '(i, u) := place text enc k in let '(i', u') := place text enc k' in
  (i < length text ∧ i + (next_codepoint_sizes text i).1 ≤ i' ∧
   u + width enc (next_codepoint_sizes text i) ≤ u')%nat.
Proof.
  intros Hk Hlt. induction k' as [|k' IH]; [lia|]. cbn [place].
  pose proof (Hlt k' ltac:(lia)) as Hk'. destruct (decide (k = k')) as [->|Hne].
  - destruct (place text enc k') as [i u]. simpl in *. lia.
  - specialize (IH ltac:(lia) ltac:(intros; apply Hlt; lia)).
    destruct (place text enc k) as [i u]. destruct (place text enc k') as [i' u']. simpl in Hk'.
    destruct (width_pos text i' enc Hk'). lia.
Qed.

(** Two places of the scan: the same, or one after the other's code point. *)
Lemma upto_chain text enc i u i' u' :
  upto text enc i u → upto text enc i' u' →
  (i = i' ∧ u = u') ∨
  (i < length text ∧ i + (next_codepoint_sizes text i).1 ≤ i' ∧
   u + width enc (next_codepoint_sizes text i) ≤ u')%nat ∨
  (i' < length text ∧ i' + (next_codepoint_sizes text i').1 ≤ i ∧
   u' + width enc (next_codepoint_sizes text i') ≤ u)%nat.
Proof.
  intros (k & Ek & Hk)%upto_place (k' & Ek' & Hk')%upto_place.
  destruct (lt_eq_lt_dec k k') as [[Hlt| ->]|Hlt].
  - right; left. pose proof (place_le text enc k k' Hlt Hk') as H. by rewrite Ek, Ek' in H.
  - left. rewrite Ek in Ek'. by simplify_eq.
  - right; right. pose proof (place_le text enc k' k Hlt Hk) as H. by rewrite Ek, Ek' in H.
Qed.

(** Every byte lies in a code point of the scan. *)
Lemma upto_cover text enc c :
  (c < length text)%nat →
  ∃ i u, upto text enc i u ∧ (i ≤ c < i + (next_codepoint_sizes text i).1)%nat.
Proof.
  induction c as [|c IH]; intros Hc.
  - exists 0%nat, 0%nat. split; [constructor|]. destruct (width_pos text 0 enc Hc). lia.
  - destruct (IH ltac:(lia)) as (i & u & Hu & Hi).
    destruct (decide (S c < i + (next_codepoint_sizes text i).1)%nat); [exists i, u; split; [done|lia]|].
    eexists _, _. split; [apply upto_next; [done|lia]|].
    replace (i + (next_codepoint_sizes text i).1)%nat with (S c) by lia.
    destruct (width_pos text (S c) enc Hc). lia.
Qed.

Lemma upto_utf8 text i u : upto text UTF8 i u → u = i.
Proof. induction 1; [done|]. simpl. by subst. Qed.

Lemma upto_units text enc enc' i u : upto text enc i u → ∃ u', upto text enc' i u'.
Proof. induction 1 as [|i u H [u' IH] Hi]; eexists; by constructor. Qed.

(** A byte that continues nothing starts a code point of the scan. *)
Lemma lead_boundary text c :
  (c < length text)%nat → continues text c = false → upto text UTF8 c c.
Proof.
  intros Hc Hn. destruct (upto_cover text UTF8 c Hc) as (i & u & Hu & Hi).
  pose proof (upto_utf8 _ _ _ Hu) as ->.
  destruct (next_codepoint_sizes text i) as [n w] eqn:E.
  destruct (sizes_shape text i n w ltac:(lia) E) as (_ & _ & _ & Hcont & _).
  destruct (decide (i = c)) as [->|Hne]; [done|]. rewrite (Hcont c) in Hn; [done|].
  simpl in Hi. lia.
Qed.

(** ** Placing a unit *)

(** Where unit [c] falls by the scan. *)
Definition locates (text : bytes) (enc : PositionEncoding) (c : nat) (loc : Located) : Prop :=
  ∃ u, upto text enc (offset loc) u ∧
    ((u = c ∧ exact_ loc = true) ∨
     (exact_ loc = false ∧ (u < c)%nat ∧
      (offset loc = length text ∨
       (offset loc < length text ∧
        c < u + width enc (next_codepoint_sizes text (offset loc)))%nat))).

Lemma locates_unique text enc c l l' : locates text enc c l → locates text enc c l' → l = l'.
Proof.
  intros (u & Hu & H) (u' & Hu' & H'). destruct l as [i e], l' as [i' e']. simpl in *.
  pose proof (upto_bound _ _ _ _ Hu). pose proof (upto_bound _ _ _ _ Hu').
  destruct (upto_chain _ _ _ _ _ _ Hu Hu') as [[-> ->]|[Hlt|Hlt]].
  - f_equal. destruct H as [[? ->]|(-> & ? & _)], H' as [[? ->]|(-> & ? & _)]; done || lia.
  - exfalso. pose proof (width_pos text i enc ltac:(lia)). destruct H as [[? ?]|(? & ? & [?|?])], H' as [[? ?]|(? & ? & [?|?])]; lia.
  - exfalso. pose proof (width_pos text i' enc ltac:(lia)). destruct H as [[? ?]|(? & ? & [?|?])], H' as [[? ?]|(? & ? & [?|?])]; lia.
Qed.

Lemma find_lead_spec text c l :
  (l ≤ c)%nat → (c - l ≤ 3)%nat →
  let r := find_lead text c l in
  (r ≤ l)%nat ∧ (c - r ≤ 3)%nat ∧ (∀ j, (r < j ≤ l)%nat → continues text j = true) ∧
  (r = 0%nat ∨ continues text r = false ∨ (c - r = 3)%nat).
Proof.
  induction l as [|l IH]; intros Hl Hc; cbn [find_lead].
  - split_and!; intros; lia || by left.
  - destruct (continues text (S l) && (c - S l <? 3)%nat) eqn:E.
    + bool_prop. destruct (IH ltac:(lia) ltac:(lia)) as (H1 & H2 & H3 & H4).
      split_and!; try done; try lia. intros j Hj.
      destruct (decide (j = S l)) as [->|]; [done|]. apply H3. lia.
    + split_and!; [lia|lia|intros; lia|]. right. apply andb_false_iff in E as [E|E]; [by left|]. bool_prop. right. lia.
Qed.

Lemma locate_utf8 text c : locates text UTF8 c (locate text c UTF8).
Proof.
  unfold locate. rewrite decide_True by done.
  destruct (length text <=? c)%nat eqn:Ec; bool_prop.
  - (* The scan reaches the end. *)
    assert (Hend : upto text UTF8 (length text) (length text)).
    { destruct (decide (length text = 0%nat)) as [E|E]; [rewrite E; constructor|].
      destruct (upto_cover text UTF8 (length text - 1) ltac:(lia)) as (i & u & Hu & Hi).
      pose proof (upto_utf8 _ _ _ Hu) as ->.
      pose proof (upto_next _ _ _ _ Hu ltac:(lia)) as Hn. pose proof (upto_bound _ _ _ _ Hn).
      simpl in Hn. by replace (i + (next_codepoint_sizes text i).1)%nat with (length text) in Hn by lia. }
    exists (length text). cbn [offset exact_]. split; [done|].
    destruct (decide (c = length text)) as [->|]; [left; by rewrite Nat.eqb_refl|].
    right. rewrite (proj2 (Nat.eqb_neq _ _)) by done. split; [done|]. split; [lia|by left].
  - destruct (upto_cover text UTF8 c Ec) as (i & u & Hu & Hi).
    pose proof (upto_utf8 _ _ _ Hu) as ->.
    destruct (next_codepoint_sizes text i) as [n w] eqn:E. cbn [fst] in Hi.
    destruct (sizes_shape text i n w ltac:(lia) E) as (Hn & _ & _ & Hcont & Hlead).
    destruct (find_lead_spec text c c ltac:(lia) ltac:(lia)) as (H1 & H2 & H3 & H4).
    set (l := find_lead text c c) in *.
    destruct (negb (l =? c)%nat && negb (continues text l)
              && (c <? l + (next_codepoint_sizes text l).1)%nat) eqn:Et; bool_prop.
    + exists l. cbn [offset exact_]. split; [apply lead_boundary; [lia|done]|].
      right. split; [done|]. split; [lia|]. right. simpl. lia.
    + assert (i = c) as <-; [|exists i; cbn [offset exact_]; split; [done|by left]].
      destruct (decide (i = c)) as [|Hne]; [done|]. exfalso.
      assert (Hl : l = i).
      { destruct (decide (l < i)%nat).
        - rewrite (H3 i) in Hlead by lia. specialize (Hlead ltac:(lia)). done.
        - destruct (decide (l = i)) as [|Hli]; [done|]. rewrite (Hcont l) in H4 by lia.
          destruct H4 as [?|[?|?]]; [lia|done|lia]. }
      rewrite Hl, E, (Hlead ltac:(lia)) in Et. cbn [fst negb] in Et.
      rewrite (proj2 (Nat.eqb_neq _ _)), (proj2 (Nat.ltb_lt _ _)) in Et by lia. done.
Qed.

Lemma loop_width enc sizes :
  enc ≠ UTF8 → (if decide (enc = UTF16) then sizes.2 else 1%nat) = width enc sizes.
Proof. by destruct enc. Qed.

Lemma locate_from_spec fuel text c enc i u :
  enc ≠ UTF8 → upto text enc i u → (u ≤ c)%nat → (length text - i < fuel)%nat →
  locates text enc c (locate_from fuel text c enc i u).
Proof.
  intros Henc. revert i u. induction fuel as [|fuel IH]; intros i u Hu Huc Hf; [lia|].
  pose proof (upto_bound _ _ _ _ Hu) as Hb. cbn [locate_from].
  destruct (i <? length text)%nat eqn:Ei; cbn [negb]; bool_prop.
  - destruct (u =? c)%nat eqn:Euc; bool_prop.
    + exists u. split; [done|by left].
    + pose proof (upto_next _ _ _ _ Hu Ei) as Hn. pose proof (width_pos text i enc Ei) as Hw.
      destruct (next_codepoint_sizes text i) as [n w] eqn:E.
      rewrite (loop_width enc (n, w) Henc : (if decide (enc = UTF16) then w else 1%nat) = _).
      cbn [fst] in Hn, Hw. case_if; bool_prop.
      * exists u. cbn [offset exact_]. rewrite E. split; [done|]. right. split; [done|]. split; lia.
      * apply IH; [done|lia|lia].
  - assert (i = length text) as -> by lia. exists u. cbn [offset exact_]. split; [done|].
    destruct (u =? c)%nat eqn:Euc; bool_prop; [by left|]. right. split; [done|]. split; [lia|by left].
Qed.

(** The place [locate] finds is the one of the scan. *)
Lemma locate_locates text c enc : locates text enc c (locate text c enc).
Proof.
  destruct (decide (enc = UTF8)) as [->|Henc]; [apply locate_utf8|].
  unfold locate. rewrite decide_False by done.
  apply locate_from_spec; [done|constructor|lia|lia].
Qed.

(** A place of the scan is found by its units. *)
Lemma locate_upto text enc i u : upto text enc i u → locate text u enc = mkLocated i true.
Proof.
  intros Hu. eapply locates_unique; [apply locate_locates|]. exists u. split; [done|by left].
Qed.

(** ** Counting units *)

Lemma sizes_spelled text i cp rest :
  scalar false cp → drop i text = put_code_point cp ++ rest →
  next_codepoint_sizes text i = (length (put_code_point cp), if (cp <? 0x10000)%Z then 1 else 2)%nat.
Proof.
  intros Hs E. unfold next_codepoint_sizes, decode_utf8. rewrite E, decode_put by done. done.
Qed.

(** A text cut after a code point keeps it. *)
Lemma sizes_prefix text i b :
  (i < length text)%nat → (i + (next_codepoint_sizes text i).1 ≤ b ≤ length text)%nat →
  next_codepoint_sizes (take b text) i = next_codepoint_sizes text i.
Proof.
  intros Hi Hb. pose proof (width_pos text i UTF8 Hi) as [Hpos _].
  assert (Ed : drop i (take b text) = take (b - i) (drop i text)).
  { rewrite skipn_firstn_comm. done. }
  destruct (sizes_cases text i) as [(cp & rest & Hs & E & En)|[En Hno]].
  - rewrite En in *. cbn [fst] in *. eapply sizes_spelled; [done|].
    rewrite Ed, E. rewrite take_app_ge by lia. done.
  - destruct (sizes_cases (take b text) i) as [(cp & rest & Hs & E & _)|[-> _]]; [|done].
    exfalso. apply (Hno cp (rest ++ drop (b - i) (drop i text)) Hs).
    rewrite app_assoc, <- E, Ed. by rewrite take_drop.
Qed.

Lemma upto_prefix text enc b i u :
  (b ≤ length text)%nat → upto text enc i u → (i ≤ b)%nat → upto (take b text) enc i u.
Proof.
  intros Hb. induction 1 as [|i u H IH Hi]; intros Hle; [constructor|].
  pose proof (width_pos text i enc Hi) as [Hn _].
  assert (E := sizes_prefix text i b Hi ltac:(lia)). rewrite <- E. rewrite <- E in Hn, Hle.
  constructor; [apply IH; lia|]. rewrite length_take. lia.
Qed.

Lemma encoded_length_from_spec fuel text enc i u :
  enc ≠ UTF8 → upto text enc i u → (length text - i < fuel)%nat →
  upto text enc (length text) (encoded_length_from fuel text enc i u).
Proof.
  intros Henc. revert i u. induction fuel as [|fuel IH]; intros i u Hu Hf; [lia|].
  pose proof (upto_bound _ _ _ _ Hu) as Hb. cbn [encoded_length_from].
  destruct (i <? length text)%nat eqn:Ei; cbn [negb]; bool_prop.
  - pose proof (upto_next _ _ _ _ Hu Ei) as Hn. pose proof (width_pos text i enc Ei) as Hw.
    destruct (next_codepoint_sizes text i) as [n w] eqn:E.
    rewrite (loop_width enc (n, w) Henc : (if decide (enc = UTF16) then w else 1%nat) = _).
    cbn [fst] in Hn, Hw. apply IH; [done|lia].
  - by replace (length text) with i by lia.
Qed.

(** The length of a text is what the scan counts of it. *)
Lemma encoded_length_upto text enc : upto text enc (length text) (encoded_length text enc).
Proof.
  unfold encoded_length. case_decide as Henc.
  - subst enc. destruct (locate_utf8 text (length text)) as (u & Hu & _).
    unfold locate in Hu. rewrite decide_True, Nat.leb_refl in Hu by done. cbn [offset] in Hu.
    by pose proof (upto_utf8 _ _ _ Hu) as ->.
  - apply encoded_length_from_spec; [done|constructor|lia].
Qed.

Lemma upto_same text enc i u u' : upto text enc i u → upto text enc i u' → u = u'.
Proof.
  intros Hu Hu'. destruct (upto_chain _ _ _ _ _ _ Hu Hu') as [[_ ?]|[H|H]]; [done|..];
    pose proof (width_pos text i enc (proj1 H)); lia.
Qed.

Lemma encoded_length_prefix text enc b u :
  upto text enc b u → encoded_length (take b text) enc = u.
Proof.
  intros Hu. pose proof (upto_bound _ _ _ _ Hu) as Hb.
  assert (El : length (take b text) = b) by (rewrite length_take; lia).
  eapply upto_same; [apply encoded_length_upto|]. rewrite El. by apply upto_prefix.
Qed.

(** C30. A unit is placed where a scan of the text from its start places it,
    in each of the three encodings and whatever the text holds: at the code
    point it begins, at the one it lies inside, or at the end, and it is exact
    only where a code point begins.  Counting bytes, the code finds this from
    the four bytes before the unit alone. *)
Theorem locate_correct text c enc :
  locates text enc c (locate text c enc) ∧
  (∀ l, locates text enc c l → l = locate text c enc).
Proof.
  split; [apply locate_locates|]. intros l Hl. eapply locates_unique; [done|]. apply locate_locates.
Qed.

(** The length of a text and the offset of a unit are inverse: every
    place a code point begins at, and the end, is found again from the length
    of the text before it, and an offset given back is that of a place whose
    text before it has as many units. *)
Theorem encoded_offset_roundtrip text enc :
  (∀ i u, upto text enc i u →
     encoded_length (take i text) enc = u ∧ encoded_offset text u enc = Some i) ∧
  (∀ c i, encoded_offset text c enc = Some i →
     upto text enc i c ∧ encoded_length (take i text) enc = c) ∧
  encoded_offset text (encoded_length text enc) enc = Some (length text).
Proof.
  assert (H1 : ∀ i u, upto text enc i u → encoded_offset text u enc = Some i).
  { intros i u Hu. unfold encoded_offset. by rewrite (locate_upto _ _ _ _ Hu). }
  split; [|split].
  - intros i u Hu. split; [by apply encoded_length_prefix|by apply H1].
  - intros c i. unfold encoded_offset. pose proof (locate_locates text c enc) as (u & Hu & Hl).
    destruct (locate text c enc) as [j e]. cbn [offset exact_] in *. intros E.
    destruct e; [|done]. cbn [negb] in E. simplify_eq.
    destruct Hl as [[-> _]|[? _]]; [|done]. split; [done|by apply encoded_length_prefix].
  - apply H1, encoded_length_upto.
Qed.

(** ** Lines *)

Lemma is_ascii_spec text : is_ascii text = true ↔ Forall (λ b, (uval b < 0x80)%Z) text.
Proof.
  unfold is_ascii. rewrite Z.ltb_lt.
  assert (H : ∀ acc, (0 ≤ acc < 256)%Z →
    (0 ≤ foldl (λ seen b, Z.lor seen (uval b)) acc text)%Z ∧
    ((foldl (λ seen b, Z.lor seen (uval b)) acc text < 0x80)%Z
     ↔ (acc < 0x80)%Z ∧ Forall (λ b, (uval b < 0x80)%Z) text)).
  { assert (Hbit : ∀ x, (0 ≤ x < 256)%Z → (x < 0x80)%Z ↔ Z.testbit x 7 = false).
    { intros x Hx. rewrite Z.testbit_false by lia. change (2 ^ 7)%Z with 128%Z. dlia. }
    induction text as [|b text IH]; intros acc Hacc; cbn [foldl].
    - split; [lia|]. split; [intros; by split|by intros [? _]].
    - pose proof (uval_range b) as Hb.
      assert (Hor : (0 ≤ Z.lor acc (uval b) < 256)%Z).
      { split; [apply Z.lor_nonneg; lia|].
        replace (Z.lor acc (uval b)) with (Z.lor acc (uval b) mod 2 ^ 8)%Z;
          [apply Z.mod_pos_bound; lia|].
        apply Z.bits_inj'. intros k Hk. destruct (decide (k < 8)%Z).
        - by rewrite Z.mod_pow2_bits_low by lia.
        - rewrite Z.mod_pow2_bits_high, Z.lor_spec by lia.
          rewrite <- (Z.mod_small acc (2 ^ 8)), <- (Z.mod_small (uval b) (2 ^ 8)) by lia.
          by rewrite !Z.mod_pow2_bits_high by lia. }
      destruct (IH _ Hor) as [H1 H2]. split; [done|]. rewrite H2, Forall_cons.
      rewrite (Hbit _ Hor), Z.lor_spec, orb_false_iff, <- !Hbit by lia. tauto. }
  destruct (H 0%Z ltac:(lia)) as [_ ->]. split; [by intros [_ ?]|]. split; [lia|done].
Qed.

(** In a text of ASCII every byte is a unit. *)
Lemma ascii_sizes text i :
  Forall (λ b, (uval b < 0x80)%Z) text → (i < length text)%nat →
  next_codepoint_sizes text i = (1, 1)%nat.
Proof.
  intros Ha Hi. unfold next_codepoint_sizes, decode_utf8.
  destruct (drop i text) as [|c rest] eqn:E.
  - apply (f_equal length) in E. rewrite length_drop in E. simpl in E. lia.
  - assert (Hc : (uval c < 0x80)%Z).
    { apply (Forall_drop _ i) in Ha. rewrite E in Ha. by inversion Ha. }
    unfold decode_sequence. rewrite (proj2 (Z.ltb_lt _ _)) by done. cbn [valid negb].
    cbn [seq_length code_point]. by rewrite (proj2 (Z.ltb_lt _ _)) by lia.
Qed.

Lemma ascii_upto text enc i :
  Forall (λ b, (uval b < 0x80)%Z) text → (i ≤ length text)%nat → upto text enc i i.
Proof.
  intros Ha. induction i as [|i IH]; intros Hi; [constructor|].
  pose proof (upto_next _ _ _ _ (IH ltac:(lia)) ltac:(lia)) as H.
  rewrite ascii_sizes in H by (done || lia). cbn [fst] in H.
  replace (i + 1)%nat with (S i) in H by lia.
  by replace (i + width enc (1, 1))%nat with (S i) in H by (destruct enc; simpl; lia).
Qed.
