(* ===== verification/Position.v ===== *)
(** Positions and byte offsets of a document: include/kotatsu/ipc/lsp/position.h,
    range.h and src/ipc/lsp/position.cpp, over the text of Text.v.

    A [line_table] is a list of offsets.  What a caller knows of the lines that
    hold only ASCII is a predicate or the bitmap [non_ascii_lines] gives; how
    lines end is read from the content or told by the caller, the [crlf]
    argument.  The theorems show which line and which code point an offset is
    in, that conversions there and back agree, that knowing which lines are
    ASCII changes no answer, that the bitmap tells exactly that, and that
    clamping keeps the order of positions. *)

From Stdlib Require Import Strings.Byte ZArith Lia Bool.
From stdpp Require Import prelude strings.
From S2P Require Import Prelude Swar Utf8 Text.
Local Open Scope kota_scope.

(** ** Positions, ranges and lines *)

Record Position := mkPosition { line : nat; character : nat }.
Record Range := mkRange { start_ : Position; end_ : Position }.
Record OffsetRange := mkOffsetRange { range_begin : nat; range_end : nat }.

Inductive ascii_lines :=
| Pred (known : nat → bool)
| Bits (words : list Z).

Definition all_ascii : ascii_lines := Pred (λ _, true).
Definition unknown_ascii : ascii_lines := Pred (λ _, false).

(** [std::ranges::upper_bound] of an ascending table. *)
Definition upper_bound (lines : list nat) (offset : nat) : nat :=
  match find_index (λ s, (offset <? s)%nat) lines with
  | Some i => i
  | None => length lines
  end.

Definition line_of (lines : list nat) (offset : nat) : nat := upper_bound lines offset - 1.

Record Line := mkLine {
  number : nat;
  line_start : nat;
  line_end : nat;
  ascii : bool;
}.

Definition known_ascii (knows : ascii_lines) (line : nat) : bool :=
  match knows with
  | Pred known => known line
  | Bits bits =>
      (length bits <=? line / 64)%nat
      || (Z.land (Z.shiftr (bits !!! (line / 64)%nat) (Z.of_nat (line mod 64))) 1 =? 0)%Z
  end.

Definition line_at (lines : list nat) (number size : nat) (knows : ascii_lines)
    (crlf : nat → nat → bool) : Line :=
  let start := lines !!! number in
  let end_ :=
    if (number + 1 <? length lines)%nat then
      let e := (lines !!! (number + 1)%nat - 1)%nat in
      if (start <? e)%nat && crlf number e then (e - 1)%nat else e
    else size in
  mkLine number start end_ (known_ascii knows number).

Definition crlf_read (content : bytes) : nat → nat → bool :=
  λ _ newline, (content !!! (newline - 1)%nat) =?b x0d.

Definition crlf_told (crlf : nat → bool) : nat → nat → bool := λ line _, crlf line.

(** ** Conversions within a line *)

Definition position_in (content : bytes) (line : Line) (offset : nat) (encoding : PositionEncoding)
    : Position :=
  let column := (min offset (line_end line) - line_start line)%nat in
  let column :=
    if negb (ascii line) then
      let text := substr content (line_start line) (line_end line - line_start line) in
      let start := Text.offset (locate text column UTF8) in
      encoded_length (take start text) encoding
    else column in
  mkPosition (number line) column.

Definition offset_in (content : bytes) (line : Line) (character : nat) (encoding : PositionEncoding)
    : Located :=
  if ascii line then
    mkLocated (line_start line + min character (line_end line - line_start line)) true
  else
    let found := locate (substr content (line_start line) (line_end line - line_start line))
                   character encoding in
    let offset := (line_start line + Text.offset found)%nat in
    mkLocated offset (exact_ found || (offset =? line_end line)%nat).

(** ** Conversions in a document *)

Section Conversions.
Context (content : bytes) (size : nat) (lines : list nat) (encoding : PositionEncoding)
  (knows : ascii_lines) (crlf : nat → nat → bool).

Definition position_of (offset : nat) : option Position :=
  if (size <? offset)%nat then None
  else Some (position_in content (line_at lines (line_of lines offset) size knows crlf) offset encoding).

Definition offset_of (position : Position) : Located :=
  if (length lines <=? line position)%nat then mkLocated size false
  else offset_in content (line_at lines (line position) size knows crlf)
         (character position) encoding.

Definition range_of (begin end_ : nat) : option Range :=
  if (end_ <? begin)%nat then None else
  match position_of end_ with
  | None => None
  | Some stop =>
      match position_of begin with
      | Some start => Some (mkRange start stop)
      | None => None
      end
  end.

Definition offset_range_of (range : Range) : OffsetRange :=
  let begin := Text.offset (offset_of (start_ range)) in
  let end_ := Text.offset (offset_of (end_ range)) in
  mkOffsetRange (min begin end_) (max begin end_).

Definition exact_offset (position : Position) : option nat :=
  let found := offset_of position in
  if negb (exact_ found) then None else Some (Text.offset found).

Definition clamped_offset (position : Position) : nat := Text.offset (offset_of position).
End Conversions.

(** Over a text and its line starts. *)
Definition to_position (content : bytes) (lines : list nat) (offset : nat)
    (encoding : PositionEncoding) (knows : ascii_lines) : option Position :=
  position_of content (length content) lines encoding knows (crlf_read content) offset.

Definition to_offset (content : bytes) (lines : list nat) (position : Position)
    (encoding : PositionEncoding) (knows : ascii_lines) : option nat :=
  exact_offset content (length content) lines encoding knows (crlf_read content) position.

Definition to_offset_clamped (content : bytes) (lines : list nat) (position : Position)
    (encoding : PositionEncoding) (knows : ascii_lines) : nat :=
  clamped_offset content (length content) lines encoding knows (crlf_read content) position.

Definition to_range (content : bytes) (lines : list nat) (begin end_ : nat)
    (encoding : PositionEncoding) (knows : ascii_lines) : option Range :=
  range_of content (length content) lines encoding knows (crlf_read content) begin end_.

Definition to_offset_range (content : bytes) (lines : list nat) (range : Range)
    (encoding : PositionEncoding) (knows : ascii_lines) : OffsetRange :=
  offset_range_of content (length content) lines encoding knows (crlf_read content) range.

(** Over a text alone. *)
Definition to_position_in (content : bytes) (offset : nat) (encoding : PositionEncoding) :=
  to_position content (line_starts content) offset encoding unknown_ascii.
Definition to_offset_in (content : bytes) (position : Position) (encoding : PositionEncoding) :=
  to_offset content (line_starts content) position encoding unknown_ascii.
Definition to_offset_clamped_in (content : bytes) (position : Position)
    (encoding : PositionEncoding) :=
  to_offset_clamped content (line_starts content) position encoding unknown_ascii.
Definition to_range_in (content : bytes) (begin end_ : nat) (encoding : PositionEncoding) :=
  to_range content (line_starts content) begin end_ encoding unknown_ascii.
Definition to_offset_range_in (content : bytes) (range : Range) (encoding : PositionEncoding) :=
  to_offset_range content (line_starts content) range encoding unknown_ascii.

(** Over a text known by its size and its line starts. *)
Definition to_position_sized (size : nat) (lines : list nat) (offset : nat) (crlf : nat → bool) :=
  position_of [] size lines UTF8 all_ascii (crlf_told crlf) offset.
Definition to_offset_sized (size : nat) (lines : list nat) (position : Position)
    (crlf : nat → bool) :=
  exact_offset [] size lines UTF8 all_ascii (crlf_told crlf) position.
Definition to_offset_clamped_sized (size : nat) (lines : list nat) (position : Position)
    (crlf : nat → bool) :=
  clamped_offset [] size lines UTF8 all_ascii (crlf_told crlf) position.
Definition to_range_sized (size : nat) (lines : list nat) (begin end_ : nat) (crlf : nat → bool) :=
  range_of [] size lines UTF8 all_ascii (crlf_told crlf) begin end_.
Definition to_offset_range_sized (size : nat) (lines : list nat) (range : Range)
    (crlf : nat → bool) :=
  offset_range_of [] size lines UTF8 all_ascii (crlf_told crlf) range.

(** ** The lines of a text *)

Abbreviation newline := x0a.

Definition newlines (text : bytes) : nat := length (filter (λ c, c = newline) text).

(** What is left of a text up to the end of its first line, and that line's
    text: without a carriage return just before the line feed. *)
Definition raw_line (rest : bytes) : bytes :=
  match find_index (λ c, c =?b newline) rest with Some k => take k rest | None => rest end.

Definition chop_cr (line : bytes) : bytes :=
  match last line with
  | Some c => if c =?b x0d then take (length line - 1) line else line
  | None => line
  end.

Definition line_text (rest : bytes) : bytes :=
  match find_index (λ c, c =?b newline) rest with Some k => chop_cr (take k rest) | None => rest end.

Lemma newlines_app a b : newlines (a ++ b) = (newlines a + newlines b)%nat.
Proof. unfold newlines. by rewrite filter_app, length_app. Qed.

Lemma newlines_none a : newline ∉ a → newlines a = 0%nat.
Proof.
  intros H. unfold newlines. apply length_zero_iff_nil.
  destruct (filter (λ c, c = newline) a) as [|c l] eqn:E; [done|].
  assert (Hc : c ∈ filter (λ c, c = newline) a) by (rewrite E; apply list_elem_of_here).
  apply list_elem_of_filter in Hc as [-> Hc]. done.
Qed.

Lemma newlines_cons c a :
  newlines (c :: a) = ((if c =?b newline then 1 else 0) + newlines a)%nat.
Proof.
  unfold newlines. rewrite filter_cons. destruct (c =?b newline) eqn:E.
  - apply byte_eqb_spec in E as ->. by rewrite decide_True.
  - apply byte_eqb_neq in E. by rewrite decide_False.
Qed.

Lemma line_starts_from_lookup content i n s :
  line_starts_from content i !! n = Some s ↔
  ∃ pre rest, content = pre ++ newline :: rest ∧ s = (i + length pre + 1)%nat ∧ newlines pre = n.
Proof.
  revert i n. induction content as [|c content IH]; intros i n; cbn [line_starts_from].
  - split; [done|]. by intros ([|??] & ? & ? & _).
  - destruct (c =?b newline) eqn:Ec.
    + apply byte_eqb_spec in Ec as ->. destruct n as [|n]; simpl.
      * split; [intros; simplify_eq; exists [], content; split_and!; try done; simpl; lia|].
        intros (pre & rest & E & -> & Hn). destruct pre as [|x pre]; [f_equal; simpl; lia|].
        cbn [app] in E. injection E as <- _. by rewrite newlines_cons, byte_eqb_refl in Hn.
      * rewrite IH. split.
        -- intros (pre & rest & -> & -> & <-). exists (newline :: pre), rest.
           split_and!; [done|simpl; lia|done].
        -- intros (pre & rest & E & -> & Hn). cbn [app] in E. destruct pre as [|x pre]; [done|]. cbn [app] in E. simplify_eq.
           exists pre, rest. split_and!; [done|simpl; lia|]. rewrite newlines_cons, byte_eqb_refl in Hn. lia.
    + rewrite IH. split.
      * intros (pre & rest & -> & -> & <-). exists (c :: pre), rest.
        split_and!; [done|simpl; lia|]. by rewrite newlines_cons, Ec.
      * intros (pre & rest & E & -> & Hn). destruct pre as [|x pre].
        -- cbn [app] in E. injection E as -> _. by rewrite byte_eqb_refl in Ec.
        -- cbn [app] in E. injection E as <- ->. rewrite newlines_cons, Ec in Hn.
           exists pre, rest. split_and!; [done|simpl; lia|done].
Qed.

Lemma newlines_take_line content s :
  content !! (s - 1)%nat = Some newline → (1 ≤ s)%nat →
  newlines (take s content) = S (newlines (take (s - 1) content)).
Proof.
  intros H Hs. replace s with (S (s - 1)) at 1 by lia.
  rewrite (take_S_r _ _ _ H), newlines_app, newlines_cons. simpl. unfold newlines at 2. simpl. lia.
Qed.

(** Where line [n] starts: after [n] line feeds. *)
Lemma line_starts_lookup content n s :
  line_starts content !! n = Some s ↔
  (s ≤ length content)%nat ∧ newlines (take s content) = n ∧
  (s = 0%nat ∨ content !! (s - 1)%nat = Some newline).
Proof.
  unfold line_starts. destruct n as [|n].
  - simpl. split; [intros; simplify_eq; split; [lia|]; split; [done|by left]|].
    intros (H1 & H2 & H3). destruct s as [|s]; [done|]. destruct H3 as [?|H3]; [done|].
    rewrite (newlines_take_line _ _ H3) in H2 by lia. done.
  - cbn [lookup list_lookup]. rewrite line_starts_from_lookup. split.
    + intros (pre & rest & -> & -> & <-).
      assert (El : (pre ++ newline :: rest) !! (0 + length pre + 1 - 1)%nat = Some newline)
        by (rewrite lookup_app_r by lia; by replace (0 + length pre + 1 - 1 - length pre)%nat with 0%nat by lia).
      split; [rewrite length_app; simpl; lia|]. split; [|by right].
      rewrite newlines_take_line by (done || lia). f_equal.
      replace (0 + length pre + 1 - 1)%nat with (length pre) by lia. by rewrite take_app_length.
    + intros (H1 & H2 & H3). destruct s as [|s]; [rewrite take_0 in H2; done|].
      destruct H3 as [?|H3]; [done|]. pose proof (newlines_take_line _ _ H3 ltac:(lia)) as H4.
      rewrite H2 in H4. replace (S s - 1)%nat with s in * by lia.
      exists (take s content), (drop (S s) content). split_and!.
      * rewrite <- (take_drop_middle content s newline) at 1 by done. done.
      * rewrite length_take. lia.
      * lia.
Qed.

Lemma line_starts_unique content n n' s :
  line_starts content !! n = Some s → line_starts content !! n' = Some s → n = n'.
Proof. rewrite !line_starts_lookup. intros (_ & <- & _) (_ & <- & _). done. Qed.

Lemma newlines_take_mono content i j :
  (i ≤ j)%nat → (newlines (take i content) ≤ newlines (take j content))%nat.
Proof.
  intros H. replace j with (i + (j - i))%nat by lia.
  rewrite <- (take_drop i (take (i + (j - i)) content)) at 1. rewrite newlines_app, take_take.
  rewrite Nat.min_l by lia. lia.
Qed.

(** The line after: past the first line feed from where a line starts on. *)
Lemma line_starts_next content n s :
  line_starts content !! n = Some s →
  line_starts content !! (n + 1)%nat =
    (λ k, (s + k + 1)%nat) <$> find_index (λ c, c =?b newline) (drop s content).
Proof.
  intros (H1 & H2 & H3)%line_starts_lookup.
  destruct (find_index _ (drop s content)) as [k|] eqn:Ek; cbn [fmap option_fmap option_map].
  - apply find_byte_some in Ek as (Hs & Hno & Hk). rewrite length_drop in Hk.
    apply line_starts_lookup. split; [lia|].
    assert (El : content !! (s + k + 1 - 1)%nat = Some newline).
    { replace (s + k + 1 - 1)%nat with (s + k)%nat by lia. rewrite <- lookup_drop, Hs.
      rewrite lookup_app_r by (rewrite length_take; lia).
      rewrite length_take, length_drop. by replace (k - min k (length content - s))%nat with 0%nat by lia. }
    split; [|by right]. rewrite newlines_take_line by (done || lia).
    replace (s + k + 1 - 1)%nat with (s + k)%nat by lia.
    rewrite <- (take_drop s content) at 1. rewrite take_app_ge by (rewrite length_take; lia).
    rewrite length_take, Nat.min_l by lia. replace (s + k - s)%nat with k by lia.
    rewrite newlines_app, (newlines_none _ Hno). lia.
  - apply find_byte_none in Ek. destruct (line_starts content !! (n + 1)%nat) as [s'|] eqn:E; [|done].
    apply line_starts_lookup in E as (H1' & H2' & H3'). exfalso.
    destruct H3' as [->|H3']; [rewrite take_0 in H2'; unfold newlines in H2'; simpl in H2'; lia|].
    destruct (decide (s' ≤ s)%nat) as [Hle|Hgt].
    + pose proof (newlines_take_mono content s' s Hle). lia.
    + apply Ek. apply list_elem_of_lookup. exists (s' - 1 - s)%nat. rewrite lookup_drop.
      by replace (s + (s' - 1 - s))%nat with (s' - 1)%nat by lia.
Qed.

Lemma upper_bound_from content i offset :
  (i ≤ offset)%nat →
  upper_bound (line_starts_from content i) offset = newlines (take (offset - i) content).
Proof.
  revert i. induction content as [|c content IH]; intros i Hi; unfold upper_bound in *.
  - rewrite take_nil. done.
  - cbn [line_starts_from]. destruct (decide (offset = i)) as [->|Hne].
    + rewrite Nat.sub_diag, take_0. change (newlines []) with 0%nat.
      assert (Hall : ∀ c' j, (i ≤ j)%nat → ∀ x, x ∈ line_starts_from c' j → (i < x)%nat).
      { clear. induction c' as [|c content IH]; intros j Hj x Hx; cbn [line_starts_from] in Hx;
          [by apply elem_of_nil in Hx|].
        case_if_in Hx; [apply elem_of_cons in Hx as [->|Hx]; [lia|]|]; apply (IH (j + 1)%nat) in Hx; lia. }
      specialize (Hall (c :: content) i ltac:(lia)). cbn [line_starts_from] in Hall.
      destruct (if c =?b newline then _ else _) as [|x l]; [done|]. cbn [find_index].
      by rewrite (proj2 (Nat.ltb_lt i x)) by (apply Hall; apply list_elem_of_here).
    + replace (offset - i)%nat with (S (offset - (i + 1))) by lia. cbn [take].
      rewrite newlines_cons, <- (IH (i + 1)%nat) by lia. destruct (c =?b newline); [|done].
      cbn [find_index length]. rewrite (proj2 (Nat.ltb_ge _ _)) by lia.
      by destruct (find_index _ _).
Qed.

(** The line an offset is in. *)
Lemma line_of_newlines content offset :
  line_of (line_starts content) offset = newlines (take offset content).
Proof.
  unfold line_of, line_starts, upper_bound. cbn [find_index length].
  rewrite (proj2 (Nat.ltb_ge offset 0)) by lia.
  pose proof (upper_bound_from content 0 offset ltac:(lia)) as H. unfold upper_bound in H.
  rewrite Nat.sub_0_r in H. destruct (find_index _ _); simpl in *; lia.
Qed.

Lemma line_start_exists content offset :
  (offset ≤ length content)%nat →
  ∃ s, line_starts content !! newlines (take offset content) = Some s ∧ (s ≤ offset)%nat ∧
    (newline ∉ take (offset - s) (drop s content)).
Proof.
  induction offset as [|o IH]; intros Ho.
  - exists 0%nat. rewrite take_0. split; [done|]. split; [lia|]. apply not_elem_of_nil.
  - destruct (lookup_lt_is_Some_2 content o) as [c Ec]; [lia|].
    destruct (decide (c = newline)) as [->|Hc].
    + exists (S o). rewrite Nat.sub_diag, take_0. split; [|split; [lia|apply not_elem_of_nil]].
      apply line_starts_lookup. split; [done|]. split; [done|]. right. by rewrite Nat.sub_1_r.
    + destruct (IH ltac:(lia)) as (s & H1 & H2 & H3). exists s.
      rewrite (take_S_r _ _ _ Ec), newlines_app, (newlines_none [c]) by set_solver.
      rewrite Nat.add_0_r. split; [done|]. split; [lia|].
      replace (S o - s)%nat with (S (o - s)) by lia.
      rewrite (take_S_r _ _ c); [set_solver|]. rewrite lookup_drop.
      by replace (s + (o - s))%nat with o by lia.
Qed.

Lemma lookup_last_take (l : bytes) k :
  (k ≤ length l)%nat → last (take k l) = if (k =? 0)%nat then None else l !! (k - 1)%nat.
Proof.
  intros Hk. rewrite last_lookup, length_take, Nat.min_l by done. case_if; bool_prop.
  - subst. rewrite take_0. done.
  - rewrite lookup_take_lt by lia. by rewrite Nat.sub_1_r.
Qed.

(** A line as the table gives it: its text, between its start and its end. *)
Lemma line_at_text content n s knows :
  line_starts content !! n = Some s →
  let l := line_at (line_starts content) n (length content) knows (crlf_read content) in
  number l = n ∧ line_start l = s ∧ line_end l = (s + length (line_text (drop s content)))%nat ∧
  substr content s (line_end l - s) = line_text (drop s content) ∧
  ascii l = known_ascii knows n.
Proof.
  intros Hs l. pose proof Hs as (Hsl & _ & _)%line_starts_lookup.
  assert (Es : line_starts content !!! n = s) by (by rewrite list_lookup_total_alt, Hs).
  pose proof (line_starts_next content n s Hs) as Hn.
  assert (Hend : line_end l = (s + length (line_text (drop s content)))%nat ∧
                 ∃ r, drop s content = line_text (drop s content) ++ r).
  { unfold l, line_at, line_text. cbn [line_end]. rewrite Es.
    destruct (find_index _ (drop s content)) as [k|] eqn:Ek; cbn [fmap option_fmap option_map] in Hn.
    - apply find_index_bound in Ek as Hk. rewrite length_drop in Hk.
      rewrite (proj2 (Nat.ltb_lt _ _)) by (by eapply lookup_lt_Some).
      rewrite (list_lookup_total_alt _ (n + 1)%nat), Hn. cbn [default from_option id].
      replace (s + k + 1 - 1)%nat with (s + k)%nat by lia.
      unfold chop_cr, crlf_read.
      rewrite lookup_last_take by (rewrite length_drop; lia).
      assert (Elt : length (take k (drop s content)) = k) by (rewrite length_take, length_drop; lia).
      destruct (k =? 0)%nat eqn:Ek0; bool_prop.
      + subst k. rewrite (proj2 (Nat.ltb_ge s (s + 0))) by lia. rewrite take_0.
        split; [simpl; lia|]. by exists (drop s content).
      + rewrite (proj2 (Nat.ltb_lt s (s + k))) by lia. cbn [andb]. rewrite lookup_drop.
        replace (s + (k - 1))%nat with (s + k - 1)%nat by lia.
        destruct (lookup_lt_is_Some_2 content (s + k - 1)) as [c Ec]; [lia|].
        rewrite list_lookup_total_alt, Ec. cbn [default from_option id]. case_if.
        * rewrite take_take, Elt, length_take, length_drop. split; [lia|].
          exists (drop (min (k - 1) k) (drop s content)). by rewrite take_drop.
        * rewrite Elt. split; [lia|]. exists (drop k (drop s content)). by rewrite take_drop.
    - assert (Hlen : (length (line_starts content) ≤ n + 1)%nat) by (by apply lookup_ge_None).
      rewrite (proj2 (Nat.ltb_ge _ _)) by done. rewrite length_drop. split; [lia|].
      exists []. by rewrite app_nil_r. }
  destruct Hend as [He [r Hr]]. split; [done|]. split; [done|]. split; [done|]. split; [|done].
  rewrite He. set (t := line_text (drop s content)) in *. clearbody t.
  unfold substr. rewrite Hr. replace (s + length t - s)%nat with (length t) by lia.
  apply take_app_length.
Qed.

(** ** The conversions *)

(** What a caller says of the lines is true. *)
Definition truthful (content : bytes) (knows : ascii_lines) : Prop :=
  ∀ n s, line_starts content !! n = Some s → known_ascii knows n = true →
    Forall (λ b, (uval b < 0x80)%Z) (line_text (drop s content)).

Lemma unknown_truthful content : truthful content unknown_ascii.
Proof. by intros n s _ H. Qed.

Lemma min_column s offset len :
  (s ≤ offset)%nat → (min offset (s + len) - s)%nat = min (offset - s) len.
Proof. lia. Qed.

(** The conversions in a line, whatever is known of it. *)
Lemma position_in_text content n s knows offset enc :
  truthful content knows → line_starts content !! n = Some s → (s ≤ offset)%nat →
  let text := line_text (drop s content) in
  let b := Text.offset (locate text (min (offset - s) (length text)) UTF8) in
  position_in content
    (line_at (line_starts content) n (length content) knows (crlf_read content)) offset enc
  = mkPosition n (encoded_length (take b text) enc).
Proof.
  intros Ht Hs Ho text b. destruct (line_at_text content n s knows Hs) as (E1 & E2 & E3 & E4 & E5).
  unfold position_in. rewrite E1, E2, E4, E3, E5, min_column by done. fold text. f_equal.
  destruct (known_ascii knows n) eqn:Ek; cbn [negb]; [|done].
  specialize (Ht n s Hs Ek). fold text in Ht. subst b.
  set (c := min (offset - s) (length text)).
  rewrite (locate_upto text UTF8 c c) by (apply ascii_upto; [done|lia]). cbn [Text.offset].
  symmetry. apply encoded_length_prefix, ascii_upto; [done|lia].
Qed.

Lemma offset_in_text content n s knows c enc :
  truthful content knows → line_starts content !! n = Some s →
  let text := line_text (drop s content) in
  let found := locate text c enc in
  offset_in content
    (line_at (line_starts content) n (length content) knows (crlf_read content)) c enc
  = mkLocated (s + Text.offset found) (exact_ found || (Text.offset found =? length text)%nat).
Proof.
  intros Ht Hs text found.
  destruct (line_at_text content n s knows Hs) as (E1 & E2 & E3 & E4 & E5).
  unfold offset_in. rewrite E5, E2, E4, E3. fold text. fold found.
  destruct (known_ascii knows n) eqn:Ek.
  - specialize (Ht n s Hs Ek). fold text in Ht.
    replace (s + length text - s)%nat with (length text) by lia.
    destruct (decide (c ≤ length text)%nat) as [Hc|Hc].
    + assert (E : found = mkLocated c true)
        by (apply locate_upto, ascii_upto; [done|lia]). rewrite E. cbn [Text.offset exact_ orb].
      f_equal. lia.
    + assert (E : found = mkLocated (length text) false).
      { eapply locates_unique; [apply locate_locates|]. exists (length text). cbn [Text.offset exact_].
        split; [by apply ascii_upto|]. right. split; [done|]. split; [lia|by left]. }
      rewrite E. cbn [Text.offset exact_ orb]. rewrite Nat.eqb_refl. f_equal. lia.
  - f_equal. f_equal. apply eq_true_iff_eq. rewrite !Nat.eqb_eq. lia.
Qed.

(** Where an offset's code point begins in its line. *)
Definition anchor (text : bytes) (column : nat) : nat :=
  Text.offset (locate text (min column (length text)) UTF8).

Lemma anchor_upto text column :
  upto text UTF8 (anchor text column) (anchor text column) ∧
  (anchor text column ≤ min column (length text))%nat ∧
  (upto text UTF8 column column → anchor text column = column).
Proof.
  unfold anchor. set (c := min column (length text)).
  destruct (locate_locates text c UTF8) as (u & Hu & Hl).
  pose proof (upto_utf8 _ _ _ Hu) as Eu. pose proof (upto_bound _ _ _ _ Hu) as Hb. split_and!.
  - by rewrite <- Eu at 2.
  - destruct Hl as [[? _]|(_ & ? & _)]; lia.
  - intros Hc. pose proof (upto_bound _ _ _ _ Hc). replace c with column by lia.
    by rewrite (locate_upto _ _ _ _ Hc).
Qed.

Lemma to_position_text content offset enc knows :
  truthful content knows → (offset ≤ length content)%nat →
  ∃ s, line_starts content !! newlines (take offset content) = Some s ∧ (s ≤ offset)%nat ∧
    (newline ∉ take (offset - s) (drop s content)) ∧
    let text := line_text (drop s content) in
    to_position content (line_starts content) offset enc knows
    = Some (mkPosition (newlines (take offset content))
              (encoded_length (take (anchor text (offset - s)) text) enc)).
Proof.
  intros Ht Ho. destruct (line_start_exists content offset Ho) as (s & Hs & Hle & Hno).
  exists s. split; [done|]. split; [done|]. split; [done|].
  unfold to_position, position_of. rewrite (proj2 (Nat.ltb_ge _ _)) by done.
  rewrite line_of_newlines. by rewrite (position_in_text content _ s).
Qed.

Lemma offset_of_text content n s c enc knows :
  truthful content knows → line_starts content !! n = Some s →
  let text := line_text (drop s content) in
  let found := locate text c enc in
  offset_of content (length content) (line_starts content) enc knows (crlf_read content)
    (mkPosition n c)
  = mkLocated (s + Text.offset found) (exact_ found || (Text.offset found =? length text)%nat).
Proof.
  intros Ht Hs text found. unfold offset_of. cbn [line character].
  rewrite (proj2 (Nat.leb_gt _ _)) by (by eapply lookup_lt_Some). by apply offset_in_text.
Qed.

(** C9. A position names the line an offset is in, which follows as many
    line feeds as its number says and holds none before the offset, and
    converts back: to the offset itself where a code point of the line's text
    begins or the text ends, to where the offset's code point begins inside
    one, and to the end of the text inside a line's end.  This holds in every
    encoding and whatever true knowledge of ASCII lines is used. *)
Theorem position_roundtrip content offset enc knows :
  truthful content knows → (offset ≤ length content)%nat →
  ∃ s p,
    line_starts content !! newlines (take offset content) = Some s ∧ (s ≤ offset)%nat ∧
    (newline ∉ take (offset - s) (drop s content)) ∧
    to_position content (line_starts content) offset enc knows = Some p ∧
    line p = newlines (take offset content) ∧
    let text := line_text (drop s content) in
    let back := (s + anchor text (offset - s))%nat in
    to_offset content (line_starts content) p enc knows = Some back ∧
    to_offset_clamped content (line_starts content) p enc knows = back ∧
    (back ≤ offset)%nat ∧ (upto text UTF8 (offset - s) (offset - s) → back = offset).
Proof.
  intros Ht Ho. destruct (to_position_text content offset enc knows Ht Ho) as (s & Hs & Hle & Hno & E).
  cbv zeta in E. set (text := line_text (drop s content)) in *. destruct (anchor_upto text (offset - s)) as (A1 & A2 & A3).
  destruct (upto_units _ _ enc _ _ A1) as [u Hu]. rewrite (encoded_length_prefix _ _ _ _ Hu) in E.
  exists s, (mkPosition (newlines (take offset content)) u).
  split; [done|]. split; [done|]. split; [done|]. split; [done|]. split; [done|].
  cbn zeta. fold text. unfold to_offset, exact_offset, to_offset_clamped, clamped_offset.
  rewrite (offset_of_text content _ s) by done. fold text. rewrite (locate_upto _ _ _ _ Hu).
  cbn [Text.offset exact_ orb negb]. split; [done|]. split; [done|]. split; [lia|].
  intros Hc. rewrite A3 by done. lia.
Qed.

Lemma position_roundtrip_witness :
  let content := lit "ab" ++ [x0d; x0a] ++ [xf0; x9f; x98; x80] ++ lit "c" in
  ∃ s p, to_position content (line_starts content) 8 UTF16 unknown_ascii = Some p ∧
    line_starts content !! 1%nat = Some s ∧
    to_offset content (line_starts content) p UTF16 unknown_ascii = Some 8%nat.
Proof.
  intros content.
  destruct (position_roundtrip content 8 UTF16 unknown_ascii (unknown_truthful content)
              ltac:(vm_compute; lia)) as (s & p & H1 & H2 & _ & H4 & _ & H5 & _).
  exists s, p. split; [exact H4|]. split; [exact H1|].
  assert (s = 4%nat) as -> by (vm_compute in H1; congruence). rewrite H5. vm_compute. reflexivity.
Defined.

Lemma knowledge_position content enc knows o :
  truthful content knows →
  to_position content (line_starts content) o enc knows
  = to_position content (line_starts content) o enc unknown_ascii.
Proof.
  intros Ht. pose proof (unknown_truthful content) as Hu.
  destruct (decide (o ≤ length content)%nat) as [Ho|Ho].
  - destruct (to_position_text content o enc knows Ht Ho) as (s & Hs & _ & _ & E).
    destruct (to_position_text content o enc unknown_ascii Hu Ho) as (s' & Hs' & _ & _ & E').
    assert (s' = s) as -> by congruence. by rewrite E, E'.
  - unfold to_position, position_of. by rewrite (proj2 (Nat.ltb_lt _ _)) by lia.
Qed.

Lemma knowledge_offset content enc knows p :
  truthful content knows →
  offset_of content (length content) (line_starts content) enc knows (crlf_read content) p
  = offset_of content (length content) (line_starts content) enc unknown_ascii
      (crlf_read content) p.
Proof.
  intros Ht. pose proof (unknown_truthful content) as Hu. destruct p as [n c].
  destruct (line_starts content !! n) as [s|] eqn:Hs.
  - by rewrite !(offset_of_text content n s).
  - apply lookup_ge_None in Hs. unfold offset_of. cbn [line].
    by rewrite (proj2 (Nat.leb_le _ _)) by done.
Qed.

(** Every conversion follows from those of one offset and one position. *)
Lemma conversions_agree content size lines enc enc' knows knows' crlf crlf' content' :
  (∀ o, position_of content size lines enc knows crlf o
        = position_of content' size lines enc' knows' crlf' o) →
  (∀ p, offset_of content size lines enc knows crlf p
        = offset_of content' size lines enc' knows' crlf' p) →
  (∀ p, exact_offset content size lines enc knows crlf p
        = exact_offset content' size lines enc' knows' crlf' p) ∧
  (∀ p, clamped_offset content size lines enc knows crlf p
        = clamped_offset content' size lines enc' knows' crlf' p) ∧
  (∀ b e, range_of content size lines enc knows crlf b e
          = range_of content' size lines enc' knows' crlf' b e) ∧
  (∀ r, offset_range_of content size lines enc knows crlf r
        = offset_range_of content' size lines enc' knows' crlf' r).
Proof.
  intros Hp Ho. unfold exact_offset, clamped_offset, range_of, offset_range_of.
  split; [|split; [|split]]; intros; by rewrite ?Hp, ?Ho, ?Hp.
Qed.

(** What is known of the lines that hold only ASCII spares reading them
    and changes no answer: with any knowledge that is true, each conversion
    gives what it gives reading every line, errors included. *)
Theorem ascii_knowledge_irrelevant content enc knows :
  truthful content knows →
  (∀ o, to_position content (line_starts content) o enc knows
        = to_position content (line_starts content) o enc unknown_ascii) ∧
  (∀ p, to_offset content (line_starts content) p enc knows
        = to_offset content (line_starts content) p enc unknown_ascii) ∧
  (∀ p, to_offset_clamped content (line_starts content) p enc knows
        = to_offset_clamped content (line_starts content) p enc unknown_ascii) ∧
  (∀ b e, to_range content (line_starts content) b e enc knows
          = to_range content (line_starts content) b e enc unknown_ascii) ∧
  (∀ r, to_offset_range content (line_starts content) r enc knows
        = to_offset_range content (line_starts content) r enc unknown_ascii).
Proof.
  intros Ht. split; [intros; by apply knowledge_position|].
  apply conversions_agree; intros.
  - by apply knowledge_position.
  - by apply knowledge_offset.
Qed.

Lemma ascii_knowledge_irrelevant_witness :
  to_offset (lit "abc") (line_starts (lit "abc")) (mkPosition 0 2) UTF16 all_ascii
  = to_offset (lit "abc") (line_starts (lit "abc")) (mkPosition 0 2) UTF16 unknown_ascii.
Proof.
  apply (ascii_knowledge_irrelevant (lit "abc") UTF16 all_ascii).
  intros [|n] s Hs _; [|vm_compute in Hs; discriminate].
  vm_compute in Hs. injection Hs as <-. vm_compute. repeat constructor.
Defined.

(** ** Order *)

Lemma locate_mono text enc c c' :
  (c ≤ c')%nat → (Text.offset (locate text c enc) ≤ Text.offset (locate text c' enc))%nat.
Proof.
  intros Hc. destruct (locate_locates text c enc) as (u & Hu & H).
  destruct (locate_locates text c' enc) as (u' & Hu' & H').
  set (i := Text.offset (locate text c enc)) in *. set (i' := Text.offset (locate text c' enc)) in *.
  pose proof (upto_bound _ _ _ _ Hu).
  destruct (upto_chain _ _ _ _ _ _ Hu Hu') as [[-> _]|[Hl|Hl]]; [lia|lia|].
  pose proof (width_pos text i' enc (proj1 Hl)).
  destruct H as [[? _]|(_ & ? & [?|?])], H' as [[? _]|(_ & ? & [?|?])]; lia.
Qed.

Lemma locate_bound text enc c : (Text.offset (locate text c enc) ≤ length text)%nat.
Proof. destruct (locate_locates text c enc) as (u & Hu & _). by eapply upto_bound. Qed.

Lemma line_text_length rest : (length (line_text rest) ≤ length (raw_line rest))%nat.
Proof.
  unfold line_text, raw_line. destruct (find_index _ rest); [|lia]. unfold chop_cr.
  destruct (last _); [|lia]. case_if; [|lia]. rewrite length_take. lia.
Qed.

(** A line's text ends before the next line starts. *)
Lemma line_before content n n' s s' :
  line_starts content !! n = Some s → line_starts content !! n' = Some s' → (n < n')%nat →
  (s + length (line_text (drop s content)) < s')%nat.
Proof.
  intros Hs Hs' Hlt. pose proof (line_starts_next content n s Hs) as Hn.
  pose proof (line_text_length (drop s content)) as Hl. unfold raw_line in Hl.
  pose proof Hs as (H1 & H2 & H3)%line_starts_lookup.
  pose proof Hs' as (H1' & H2' & H3')%line_starts_lookup.
  destruct (find_index _ _) as [k|] eqn:Ek; cbn [fmap option_fmap option_map] in Hn.
  - apply find_index_bound in Ek as Hk. rewrite length_drop in Hk.
    rewrite length_take, length_drop in Hl.
    assert (s + k + 1 ≤ s')%nat; [|lia]. destruct (decide (s + k + 1 ≤ s')%nat) as [|Hgt]; [done|].
    exfalso. apply line_starts_lookup in Hn as (_ & Hn & Hn').
    assert (Hle : (newlines (take s' content) ≤ newlines (take (s + k) content))%nat)
      by (apply newlines_take_mono; lia).
    destruct Hn' as [?|Hn']; [lia|]. rewrite newlines_take_line in Hn by (done || lia).
    replace (s + k + 1 - 1)%nat with (s + k)%nat in Hn by lia. lia.
  - exfalso. apply lookup_ge_None in Hn. apply lookup_lt_Some in Hs'. lia.
Qed.

Definition position_le (p q : Position) : Prop :=
  (line p < line q)%nat ∨ (line p = line q ∧ (character p ≤ character q)%nat).

(** Clamping keeps the order of positions, so the bytes a range covers
    are those from its earlier end to its later one, and it gives every
    position an offset within the content. *)
Theorem clamped_monotone content enc knows p q :
  truthful content knows → position_le p q →
  let offset r := to_offset_clamped content (line_starts content) r enc knows in
  (offset p ≤ offset q ≤ length content)%nat ∧
  to_offset_range content (line_starts content) (mkRange p q) enc knows
    = mkOffsetRange (offset p) (offset q) ∧
  to_offset_range content (line_starts content) (mkRange q p) enc knows
    = mkOffsetRange (offset p) (offset q).
Proof.
  intros Ht Hle offset.
  assert (Hoff : ∀ r, match line_starts content !! line r with
    | Some s => offset r = (s + Text.offset (locate (line_text (drop s content)) (character r) enc))%nat
        ∧ (offset r ≤ s + length (line_text (drop s content)) ≤ length content)%nat
    | None => offset r = length content end).
  { intros [n c]. subst offset. unfold to_offset_clamped, clamped_offset. cbn [line character].
    destruct (line_starts content !! n) as [s|] eqn:Hs.
    - rewrite (offset_of_text content n s) by done. cbn [Text.offset]. split; [done|].
      pose proof (locate_bound (line_text (drop s content)) enc c).
      destruct (line_at_text content n s unknown_ascii Hs) as (_ & _ & E3 & E4 & _).
      apply (f_equal length) in E4. unfold substr in E4. rewrite length_take, length_drop in E4.
      pose proof Hs as (? & _ & _)%line_starts_lookup. lia.
    - unfold offset_of. cbn [line]. apply lookup_ge_None in Hs.
      by rewrite (proj2 (Nat.leb_le _ _)) by done. }
  assert (Hpq : (offset p ≤ offset q ≤ length content)%nat).
  { pose proof (Hoff p) as Hp. pose proof (Hoff q) as Hq.
    destruct Hle as [Hlt|[El Hc]].
    - destruct (line_starts content !! line q) as [s'|] eqn:Hs'.
      + destruct (lookup_lt_is_Some_2 (line_starts content) (line p)) as [s Hs];
          [apply lookup_lt_Some in Hs'; lia|].
        rewrite Hs in Hp. pose proof (line_before content _ _ _ _ Hs Hs' Hlt). lia.
      + destruct (line_starts content !! line p); lia.
    - rewrite El in Hp. destruct (line_starts content !! line q) as [s|] eqn:Hs; [|lia].
      pose proof (locate_mono (line_text (drop s content)) enc _ _ Hc). lia. }
  split; [done|]. unfold to_offset_range, offset_range_of. cbn [start_ end_].
  change (Text.offset (offset_of content _ _ enc knows _ ?r)) with (offset r).
  split; f_equal; lia.
Qed.

Lemma clamped_monotone_witness :
  let content := lit "ab" ++ [x0a] ++ lit "c" in
  (to_offset_clamped content (line_starts content) (mkPosition 0 9) UTF8 unknown_ascii
   ≤ to_offset_clamped content (line_starts content) (mkPosition 1 0) UTF8 unknown_ascii)%nat.
Proof.
  intros content.
  apply (proj1 (clamped_monotone content UTF8 unknown_ascii (mkPosition 0 9) (mkPosition 1 0)
    (unknown_truthful content) ltac:(left; simpl; lia))).
Defined.

(** ** The bitmap *)

Definition line_bit (bits : list Z) (m : nat) : bool :=
  match bits !! (m / 64)%nat with
  | Some w => Z.testbit w (Z.of_nat (m mod 64))
  | None => false
  end.

Lemma known_ascii_bits bits m : known_ascii (Bits bits) m = negb (line_bit bits m).
Proof.
  unfold known_ascii, line_bit. destruct (bits !! (m / 64)%nat) as [w|] eqn:E.
  - apply lookup_lt_Some in E as Hl. rewrite (proj2 (Nat.leb_gt _ _)) by done.
    rewrite list_lookup_total_alt, E. cbn [default from_option id orb].
    rewrite Z.testbit_odd.
    set (x := Z.shiftr w _). rewrite (land_mask x 1 ltac:(lia) : Z.land x 1 = (x mod 2)%Z). rewrite Zmod_odd. by destruct (Z.odd _).
  - apply lookup_ge_None in E. by rewrite (proj2 (Nat.leb_le _ _)) by done.
Qed.

Lemma set_line_bit bits l m : line_bit (set_line bits l) m = (m =? l)%nat || line_bit bits m.
Proof.
  unfold line_bit, set_line.
  set (grown := bits ++ replicate (l / 64 + 1 - length bits) 0%Z).
  assert (Hl : (l / 64 < length grown)%nat) by (subst grown; rewrite length_app, length_replicate; lia).
  assert (Hg : ∀ i, match grown !! i with Some w => Z.testbit w (Z.of_nat (m mod 64)) | None => false end
                  = match bits !! i with Some w => Z.testbit w (Z.of_nat (m mod 64)) | None => false end).
  { intros i. subst grown. destruct (decide (i < length bits)%nat).
    - by rewrite lookup_app_l.
    - rewrite lookup_app_r, (lookup_ge_None_2 bits) by lia.
      destruct (replicate _ _ !! _) as [w|] eqn:E; [|done].
      apply lookup_replicate in E as [-> _]. apply Z.testbit_0_l. }
  destruct (decide (m / 64 = l / 64)%nat) as [E|E].
  - rewrite E, list_lookup_insert_eq by done. rewrite Z.lor_spec, <- Hg.
    destruct (lookup_lt_is_Some_2 _ _ Hl) as [w Ew]. rewrite list_lookup_total_alt, Ew.
    cbn [default from_option id]. rewrite orb_comm. f_equal.
    rewrite Z.shiftl_spec by lia. apply eq_true_iff_eq. rewrite Nat.eqb_eq.
    pose proof (Nat.div_mod_eq m 64). pose proof (Nat.div_mod_eq l 64).
    destruct (decide (m mod 64 = l mod 64)%nat) as [Em|Em].
    + rewrite Em, Z.sub_diag. split; [intros; lia|done].
    + split; [|intros ->; done]. intros Ht. exfalso.
      destruct (decide (Z.of_nat (m mod 64) - Z.of_nat (l mod 64) < 0)%Z).
      * by rewrite Z.testbit_neg_r in Ht by lia.
      * rewrite Z.bits_above_log2 in Ht; [done|lia|change (Z.log2 1) with 0%Z; lia].
  - rewrite list_lookup_insert_ne by done. rewrite Hg.
    rewrite (proj2 (Nat.eqb_neq m l)); [done|]. intros ->. done.
Qed.

(** What the loop has found of the lines before the one it is at. *)
Lemma non_ascii_lines_from_spec fuel content n s bits :
  line_starts content !! n = Some s → (length content - s < fuel)%nat →
  (∀ m t, line_starts content !! m = Some t → (m < n)%nat →
     line_bit bits m = negb (is_ascii (raw_line (drop t content)))) →
  (∀ m, (n ≤ m)%nat → line_bit bits m = false) →
  ∀ m t, line_starts content !! m = Some t →
    line_bit (non_ascii_lines_from fuel (drop s content) n bits) m
    = negb (is_ascii (raw_line (drop t content))).
Proof.
  revert n s bits. induction fuel as [|fuel IH]; intros n s bits Hs Hf Hb Hz m t Hm; [lia|].
  pose proof (line_starts_next content n s Hs) as Hnext. cbn [non_ascii_lines_from].
  set (bits' := if negb (is_ascii (raw_line (drop s content))) then set_line bits n else bits).
  change (if negb (is_ascii match find_index _ (drop s content) with Some e => _ | None => _ end)
          then _ else _) with bits'.
  assert (Hb' : ∀ m t, line_starts content !! m = Some t → (m < n + 1)%nat →
     line_bit bits' m = negb (is_ascii (raw_line (drop t content)))).
  { intros m' t' Hm' Hlt. subst bits'. destruct (decide (m' = n)) as [->|Hne].
    - assert (t' = s) as -> by congruence. destruct (is_ascii _); cbn [negb].
      + by apply Hz.
      + by rewrite set_line_bit, Nat.eqb_refl.
    - destruct (is_ascii (raw_line (drop s content))); cbn [negb]; [apply Hb; [done|lia]|].
      rewrite set_line_bit, (proj2 (Nat.eqb_neq _ _)) by done. apply Hb; [done|lia]. }
  destruct (find_index _ (drop s content)) as [k|] eqn:Ek; cbn [fmap option_fmap option_map] in Hnext.
  - apply find_index_bound in Ek as Hk. rewrite length_drop in Hk. rewrite drop_drop.
    replace (s + (k + 1))%nat with (s + k + 1)%nat by lia.
    apply (IH (n + 1)%nat); [done|lia|done| |done].
    intros m' Hm'. subst bits'. destruct (negb _); [|apply Hz; lia].
    rewrite set_line_bit, (proj2 (Nat.eqb_neq _ _)) by lia. apply Hz. lia.
  - apply Hb'; [done|]. apply lookup_ge_None in Hnext. apply lookup_lt_Some in Hm. lia.
Qed.

Lemma line_text_ascii rest :
  Forall (λ b, (uval b < 0x80)%Z) (raw_line rest) → Forall (λ b, (uval b < 0x80)%Z) (line_text rest).
Proof.
  unfold raw_line, line_text. destruct (find_index _ rest); [|done]. intros H. unfold chop_cr.
  destruct (last _); [|done]. case_if; [|done]. by apply Forall_take.
Qed.

(** The bitmap of a text tells exactly which of its lines, line ends
    included, hold a byte past ASCII; so it is knowledge the conversions may be
    given. *)
Theorem non_ascii_lines_correct content :
  (∀ n s, line_starts content !! n = Some s →
     known_ascii (Bits (non_ascii_lines content)) n = is_ascii (raw_line (drop s content))) ∧
  truthful content (Bits (non_ascii_lines content)).
Proof.
  assert (H : ∀ n s, line_starts content !! n = Some s →
     known_ascii (Bits (non_ascii_lines content)) n = is_ascii (raw_line (drop s content))).
  { intros n s Hs. rewrite known_ascii_bits. unfold non_ascii_lines.
    rewrite <- (drop_0 content) at 2.
    rewrite (non_ascii_lines_from_spec _ content 0 0 [] ) with (t := s);
      [by rewrite negb_involutive|done|lia|lia|done|done]. }
  split; [done|]. intros n s Hs Hk. rewrite (H n s Hs) in Hk.
  by apply line_text_ascii, is_ascii_spec.
Qed.

(** ** Texts known by their line starts *)

Lemma raw_line_all (P : byte → Prop) rest : Forall P rest → Forall P (raw_line rest).
Proof. unfold raw_line. destruct (find_index _ rest); [apply Forall_take|done]. Qed.

(** The conversions that keep no text agree with the ones that read it,
    in every encoding, when the text is all ASCII and the caller tells which
    of its lines end in a carriage return and a line feed. *)
Theorem sized_conversions_agree content crlf enc :
  is_ascii content = true →
  (∀ n s s', line_starts content !! n = Some s → line_starts content !! (n + 1)%nat = Some s' →
     (s < s' - 1)%nat → crlf n = bool_decide (content !! (s' - 2)%nat = Some x0d)) →
  let size := length content in
  let lines := line_starts content in
  (∀ o, to_position_sized size lines o crlf = to_position content lines o enc unknown_ascii) ∧
  (∀ p, to_offset_sized size lines p crlf = to_offset content lines p enc unknown_ascii) ∧
  (∀ p, to_offset_clamped_sized size lines p crlf
        = to_offset_clamped content lines p enc unknown_ascii) ∧
  (∀ b e, to_range_sized size lines b e crlf = to_range content lines b e enc unknown_ascii) ∧
  (∀ r, to_offset_range_sized size lines r crlf
        = to_offset_range content lines r enc unknown_ascii).
Proof.
  intros Ha Hcrlf size lines. apply is_ascii_spec in Ha.
  assert (Ht : truthful content all_ascii).
  { intros n s _ _. apply line_text_ascii, raw_line_all. by apply Forall_drop. }
  assert (Hl : ∀ n, (n < length lines)%nat →
    line_at lines n size all_ascii (crlf_told crlf) = line_at lines n size all_ascii (crlf_read content)).
  { intros n Hn. unfold line_at. f_equal. destruct (n + 1 <? length lines)%nat eqn:E; [|done].
    bool_prop. destruct (lookup_lt_is_Some_2 lines n Hn) as [s Hs].
    destruct (lookup_lt_is_Some_2 lines (n + 1) E) as [s' Hs'].
    rewrite !list_lookup_total_alt, Hs, Hs'. cbn [default from_option id].
    destruct (s <? s' - 1)%nat eqn:Es; [|done]. bool_prop. cbn [andb].
    unfold crlf_told, crlf_read. rewrite (Hcrlf n s s') by done.
    replace (s' - 1 - 1)%nat with (s' - 2)%nat by lia.
    pose proof Hs' as (Hb & _ & _)%line_starts_lookup.
    destruct (lookup_lt_is_Some_2 content (s' - 2)) as [c Ec]; [lia|].
    rewrite list_lookup_total_alt, Ec. cbn [default from_option id].
    destruct (c =?b x0d) eqn:Ecr.
    - apply byte_eqb_spec in Ecr as ->. by rewrite bool_decide_eq_true_2.
    - apply byte_eqb_neq in Ecr. by rewrite bool_decide_eq_false_2 by congruence. }
  assert (Hp : ∀ o, to_position_sized size lines o crlf = to_position content lines o enc unknown_ascii).
  { intros o. unfold lines. rewrite <- (knowledge_position content enc all_ascii o Ht).
    unfold to_position_sized, to_position, position_of. fold size. fold lines.
    case_if; [done|]. bool_prop. f_equal. rewrite Hl; [done|]. unfold lines.
    rewrite line_of_newlines. destruct (line_start_exists content o) as (s & Hs & _); [done|].
    by eapply lookup_lt_Some. }
  split; [done|]. apply conversions_agree; [exact Hp|].
  intros p. unfold lines, size. rewrite <- (knowledge_offset content enc all_ascii p Ht).
  unfold offset_of. fold size. fold lines. case_if; [done|]. bool_prop. by rewrite Hl.
Qed.

Lemma sized_conversions_agree_witness :
  to_position_sized 5 [0; 4]%nat 4 (λ n, (n =? 0)%nat)
  = to_position (lit "ab" ++ [x0d; x0a] ++ lit "c") [0; 4]%nat 4 UTF16 unknown_ascii.
Proof.
  apply (sized_conversions_agree (lit "ab" ++ [x0d; x0a] ++ lit "c") (λ n, (n =? 0)%nat) UTF16).
  - vm_compute. reflexivity.
  - intros [|[|n]] s s' H1 H2 _; vm_compute in H1, H2; try discriminate.
    injection H1 as <-. injection H2 as <-. vm_compute. reflexivity.
Defined.
