(* ===== verification/LinkedList.v ===== *)
(** The intrusive lists of waits: a primitive's queue
    (src/async/runtime/sync.cpp, [sync_primitive::insert] and [remove]) and the
    event loop's list of its queued waits (src/async/io/loop.cpp,
    [event_loop::track] and [untrack]).

    Pointers to waits are numbers, a null pointer [None], and a list's links
    the fields of the waits it goes through.  Both lists refine plain lists,
    which Sync.v keeps. *)

From Stdlib Require Import ZArith Lia Bool.
From stdpp Require Import prelude list.
From S2P Require Import Prelude.

Notation ptr := (option nat).

(** What the fields of one list hold: a field of every wait is a function. *)
Record links := mkLinks {
  head : ptr;
  tail : ptr;
  prev : nat → ptr;
  next : nat → ptr;
}.

Definition write (f : nat → ptr) (x : nat) (v : ptr) : nat → ptr :=
  λ y, if (y =? x)%nat then v else f y.

(** An assignment to [head] or to a wait's [next]: [(p ? p->next : head) = v]. *)
Definition set_next (s : links) (p v : ptr) : links :=
  match p with
  | Some x => mkLinks (head s) (tail s) (prev s) (write (next s) x v)
  | None => mkLinks v (tail s) (prev s) (next s)
  end.

Definition set_prev (s : links) (n v : ptr) : links :=
  match n with
  | Some x => mkLinks (head s) (tail s) (write (prev s) x v) (next s)
  | None => mkLinks (head s) v (prev s) (next s)
  end.

(** The list's part of [sync_primitive::insert]. *)
Definition insert_links (s : links) (w : nat) : links :=
  let s1 := mkLinks (head s) (tail s) (write (prev s) w (tail s)) (write (next s) w None) in
  let s2 := set_next s1 (tail s1) (Some w) in
  mkLinks (head s2) (Some w) (prev s2) (next s2).

(** The list's part of [sync_primitive::remove]. *)
Definition remove_links (s : links) (w : nat) : links :=
  let s1 := set_next s (prev s w) (next s w) in
  let s2 := set_prev s1 (next s1 w) (prev s1 w) in
  mkLinks (head s2) (tail s2) (write (prev s2) w None) (write (next s2) w None).

(** [event_loop::track]: the loop's list is entered at its front and has no
    tail. *)
Definition track (s : links) (w : nat) : links :=
  let s1 := mkLinks (head s) (tail s) (write (prev s) w None) (write (next s) w (head s)) in
  let s2 := match head s1 with
            | Some h => mkLinks (head s1) (tail s1) (write (prev s1) h (Some w)) (next s1)
            | None => s1
            end in
  mkLinks (Some w) (tail s2) (prev s2) (next s2).

Definition untrack (s : links) (w : nat) : links :=
  let s1 := set_next s (prev s w) (next s w) in
  let s2 := match next s1 w with
            | Some n => mkLinks (head s1) (tail s1) (write (prev s1) n (prev s1 w)) (next s1)
            | None => s1
            end in
  mkLinks (head s2) (tail s2) (write (prev s2) w None) (write (next s2) w None).

(** The links are those of [l]: each wait points at its neighbours. *)
Definition linked (l : list nat) (s : links) : Prop :=
  NoDup l ∧ head s = l !! 0%nat ∧
  ∀ a x b, l = a ++ x :: b → prev s x = last a ∧ next s x = b !! 0%nat.

(** Waits that are not in the list, and are not moved, keep their links: a
    wait's links serve whichever queue it is in. *)
Definition others_kept (l : list nat) (w : nat) (s s' : links) : Prop :=
  ∀ x, x ∉ l → x ≠ w → prev s' x = prev s x ∧ next s' x = next s x.

Lemma write_eq f x v : write f x v x = v.
Proof. unfold write. by rewrite Nat.eqb_refl. Qed.

Lemma write_ne f x y v : x ≠ y → write f x v y = f y.
Proof. intros H. unfold write. by destruct (Nat.eqb_spec y x); [congruence|]. Qed.

(** Where an element of [a ++ b] is. *)
Lemma app_split (a b c d : list nat) x :
  a ++ b = c ++ x :: d →
  (∃ k, a = c ++ x :: k ∧ d = k ++ b) ∨ (∃ k, c = a ++ k ∧ b = k ++ x :: d).
Proof.
  revert c. induction a as [|y a IH]; intros c E.
  - right. by exists c.
  - destruct c as [|z c]; cbn in E; injection E as -> E.
    + left. exists a. by rewrite <- E.
    + destruct (IH c E) as [(k & -> & ->)|(k & -> & ->)]; [left|right]; by exists k.
Qed.

Lemma last_in (a : list nat) x : last a = Some x → ∃ k, a = k ++ [x].
Proof. apply last_Some. Qed.

Lemma last_notin (a : list nat) x y : last a = Some y → x ∉ a → y ≠ x.
Proof. intros (k & ->)%last_in Hx ->. apply Hx. set_solver. Qed.

Lemma head_notin (a : list nat) x y : a !! 0%nat = Some y → x ∉ a → y ≠ x.
Proof. intros Hy Hx ->. apply Hx. by eapply list_elem_of_lookup_2. Qed.

Lemma last_mid (a b : list nat) x : last (a ++ x :: b) = Some (default x (last b)).
Proof.
  rewrite last_app_cons. destruct b as [|y b] using rev_ind; [done|].
  by rewrite app_comm_cons, !last_snoc.
Qed.

Lemma insert_links_ok l s w :
  linked l s → tail s = last l → w ∉ l →
  linked (l ++ [w]) (insert_links s w) ∧ tail (insert_links s w) = Some w ∧
  others_kept l w s (insert_links s w).
Proof.
  intros (Hnd & Hh & Hl) Ht Hw. set (s' := insert_links s w).
  assert (Hprev : ∀ x, prev s' x = write (prev s) w (last l) x)
    by (intros x; unfold s', insert_links; cbn; rewrite Ht; by destruct (last l)).
  assert (Hnext : ∀ x, next s' x = if decide (last l = Some x) then Some w else write (next s) w None x).
  { intros x. unfold s', insert_links. cbn. rewrite Ht. destruct (last l) as [t|]; cbn; [|done].
    unfold write. destruct (Nat.eqb_spec x t); case_decide; congruence. }
  split; [split; [|split]|split; [done|]].
  - apply NoDup_app. split; [done|]. split; [set_solver|apply NoDup_singleton].
  - unfold s', insert_links. cbn. rewrite Ht. destruct l as [|y l]; [done|].
    destruct (last (y :: l)) eqn:E; [cbn; by rewrite Hh|]. by apply last_None in E.
  - intros a x b E. destruct (app_split _ _ _ _ _ E) as [(k & El & ->)|(k & -> & Ek)].
    + assert (x ≠ w) by (intros ->; apply Hw; rewrite El; set_solver).
      destruct (Hl a x k El) as [Hp Hn]. rewrite Hprev, Hnext, !write_ne by done. split; [done|].
      rewrite El, last_mid. rewrite El in Hnd. apply NoDup_mid in Hnd as (_ & Hxk & _).
      destruct k as [|y k]; [by rewrite decide_True|]. rewrite decide_False; [done|].
      intros [= Ex]. destruct (last (y :: k)) as [z|] eqn:Ez; [|by apply last_None in Ez].
      by apply (last_notin _ x _ Ez).
    + destruct k as [|? [|]]; cbn in Ek; [|discriminate..]. injection Ek as <- <-.
      rewrite app_nil_r, Hprev, Hnext, !write_eq, decide_False; [done|].
      intros El. by apply (last_notin _ w _ El).
  - intros x Hx Hxw. rewrite Hprev, Hnext, !write_ne by done. rewrite decide_False; [done|].
    intros El. by apply (last_notin _ x _ El).
Qed.

(** Taking [w] out of [a ++ w :: b]. *)
Lemma unlinked a w b s s' :
  linked (a ++ w :: b) s → head s' = (a ++ b) !! 0%nat →
  (∀ x, x ≠ w → prev s' x = if decide (b !! 0%nat = Some x) then last a else prev s x) →
  (∀ x, x ≠ w → next s' x = if decide (last a = Some x) then b !! 0%nat else next s x) →
  linked (a ++ b) s' ∧ others_kept (a ++ w :: b) w s s'.
Proof.
  intros (Hnd & Hh & Hl) Hh' Hp Hn. pose proof Hnd as (Ha & Hb & Hnd')%NoDup_mid.
  split; [split; [done|split; [done|]]|].
  - intros c x d E. assert (Hx : x ∈ a ++ b) by (rewrite E; set_solver).
    assert (x ≠ w) by set_solver. rewrite Hp, Hn by done.
    pose proof Hnd' as (_ & Hdis & _)%NoDup_app.
    destruct (app_split _ _ _ _ _ E) as [(k & -> & ->)|(k & -> & ->)].
    + destruct (Hl c x (k ++ w :: b)) as [Hp1 Hn1]; [by rewrite <- app_assoc|].
      rewrite decide_False.
      2: { intros Eb. apply (Hdis x); [set_solver|]. by eapply list_elem_of_lookup_2. }
      split; [done|]. rewrite last_mid. apply NoDup_app in Hnd' as (Hnda & _).
      apply NoDup_mid in Hnda as (_ & Hxk & _). destruct k as [|y k]; [by rewrite decide_True|].
      rewrite decide_False; [by rewrite Hn1|]. intros [= Ex].
      destruct (last (y :: k)) as [z|] eqn:Ez; [|by apply last_None in Ez].
      by apply (last_notin _ x _ Ez).
    + destruct (Hl (a ++ w :: k) x d) as [Hp1 Hn1]; [by rewrite <- app_assoc|].
      rewrite (decide_False (P := last a = Some x)).
      2: { intros (k' & ->)%last_in. apply (Hdis x); set_solver. }
      split; [|done]. apply NoDup_app in Hnd' as (_ & _ & Hndb). apply NoDup_mid in Hndb as (Hxk & _).
      destruct k as [|y k]; [by rewrite app_nil_r, decide_True|]. rewrite decide_False.
      * rewrite Hp1, !last_mid, last_cons. by destruct (last k).
      * intros [= ->]. apply Hxk. set_solver.
  - intros x Hx Hxw. rewrite Hp, Hn by done. rewrite !decide_False; [done|..].
    + intros El. apply (last_notin _ x _ El); set_solver.
    + intros El. apply (head_notin _ x _ El); set_solver.
Qed.

Lemma remove_links_ok a w b s :
  linked (a ++ w :: b) s → tail s = last (a ++ w :: b) →
  let s' := remove_links s w in
  linked (a ++ b) s' ∧ tail s' = last (a ++ b) ∧ others_kept (a ++ w :: b) w s s' ∧
  prev s' w = None ∧ next s' w = None.
Proof.
  intros Hlk Ht s'. pose proof Hlk as (Hnd & Hh & Hl). apply NoDup_mid in Hnd as (Ha & Hb & _).
  destruct (Hl a w b eq_refl) as [Hp Hn].
  assert (Hs1 : prev (set_next s (last a) (b !! 0%nat)) w = last a ∧
    next (set_next s (last a) (b !! 0%nat)) w = b !! 0%nat).
  { destruct (last a) as [p|] eqn:Ep; cbn; [|by rewrite Hp, Hn].
    rewrite write_ne by (by apply (last_notin a)). by rewrite Hp, Hn. }
  assert (E : s' = let s2 := set_prev (set_next s (last a) (b !! 0%nat)) (b !! 0%nat) (last a) in
    mkLinks (head s2) (tail s2) (write (prev s2) w None) (write (next s2) w None)).
  { unfold s', remove_links. rewrite Hp, Hn. destruct Hs1 as [-> ->]. done. }
  assert (Hu : linked (a ++ b) s' ∧ others_kept (a ++ w :: b) w s s').
  { apply unlinked; [done|..]; rewrite E; cbn.
    - destruct a as [|y a]; [cbn; by destruct b|].
      destruct (last (y :: a)) eqn:El; [|by apply last_None in El]. cbn. by destruct b.
    - intros x Hx. rewrite write_ne by done. destruct b as [|y b]; cbn.
      + by destruct (last a).
      + unfold write. destruct (Nat.eqb_spec x y); case_decide; try congruence. by destruct (last a).
    - intros x Hx. rewrite write_ne by done.
      destruct (last a) as [p|]; cbn; [|by destruct (b !! 0%nat)].
      destruct (b !! 0%nat); cbn; unfold write; destruct (Nat.eqb_spec x p); case_decide; congruence. }
  destruct Hu as [Hu Ho]. split; [done|]. split; [|split; [done|]; rewrite E; cbn; by rewrite !write_eq].
  rewrite E. cbn. destruct b as [|y b]; cbn.
  - rewrite app_nil_r. by destruct (last a).
  - assert (Hlast : last (a ++ w :: y :: b) = last (a ++ y :: b))
      by (rewrite !last_mid, last_cons; by destruct (last b)).
    rewrite <- Hlast, <- Ht. by destruct (last a).
Qed.

(** The loop's list. *)
Lemma track_ok l s w :
  linked l s → w ∉ l → linked (w :: l) (track s w) ∧ others_kept l w s (track s w).
Proof.
  intros (Hnd & Hh & Hl) Hw. set (s' := track s w).
  assert (Hprev : ∀ x, prev s' x = if decide (l !! 0%nat = Some x) then Some w else write (prev s) w None x).
  { intros x. unfold s', track. cbn. rewrite Hh. destruct (l !! 0%nat) as [h|]; cbn; [|done].
    unfold write. destruct (Nat.eqb_spec x h); case_decide; congruence. }
  assert (Hnext : ∀ x, next s' x = write (next s) w (l !! 0%nat) x)
    by (intros x; unfold s', track; cbn; rewrite Hh; by destruct (l !! 0%nat)).
  split; [split; [by constructor|split; [done|]]|].
  - intros [|y a] x b E; cbn in E; injection E as <- E.
    + subst l. rewrite Hprev, Hnext, !write_eq, decide_False; [done|].
      intros El. by apply (head_notin _ w _ El).
    + subst l. assert (x ≠ w) by set_solver. destruct (Hl a x b eq_refl) as [Hp Hn].
      rewrite Hprev, Hnext, !write_ne, Hn by done. split; [|done]. rewrite last_cons.
      destruct a as [|z a]; [by rewrite decide_True|].
      rewrite decide_False, Hp; [destruct (last (z :: a)) eqn:El; [done|by apply last_None in El]|].
      intros [= ->]. apply NoDup_cons in Hnd as [Hz _]. set_solver.
  - intros x Hx Hxw. rewrite Hprev, Hnext, !write_ne by done. rewrite decide_False; [done|].
    intros El. by apply (head_notin _ x _ El).
Qed.

(** [untrack] is [remove] of a list whose tail nobody keeps. *)
Lemma untrack_remove s w t :
  let r := remove_links (mkLinks (head s) t (prev s) (next s)) w in
  untrack s w = mkLinks (head r) (tail s) (prev r) (next r).
Proof.
  unfold untrack, remove_links. cbn. destruct (prev s w) as [p|]; cbn.
  - by destruct (write _ _ _ w).
  - by destruct (next s w).
Qed.

Lemma untrack_ok a w b s :
  linked (a ++ w :: b) s →
  linked (a ++ b) (untrack s w) ∧ others_kept (a ++ w :: b) w s (untrack s w).
Proof.
  intros Hlk. rewrite (untrack_remove s w (last (a ++ w :: b))).
  destruct (remove_links_ok a w b (mkLinks (head s) (last (a ++ w :: b)) (prev s) (next s)))
    as (H & _ & Ho & _); done.
Qed.

(** ** Refinement *)

Inductive list_op := PushBack (w : nat) | PushFront (w : nat) | Delete (w : nat).

(** What the operations do to the list of waits Sync.v keeps; [None] is what
    the source asserts does not happen: queueing a wait twice, removing one
    that is not queued. *)
Definition abstract_step (l : list nat) (op : list_op) : option (list nat) :=
  match op with
  | PushBack w => if decide (w ∈ l) then None else Some (l ++ [w])
  | PushFront w => if decide (w ∈ l) then None else Some (w :: l)
  | Delete w => if decide (w ∈ l) then Some (filter (λ x, x ≠ w) l) else None
  end.

Definition queue_step (s : links) (op : list_op) : links :=
  match op with
  | PushBack w => insert_links s w
  | PushFront w => track s w
  | Delete w => remove_links s w
  end.

Definition loop_step (s : links) (op : list_op) : links :=
  match op with
  | PushBack w => insert_links s w
  | PushFront w => track s w
  | Delete w => untrack s w
  end.

Definition abstract_run (ops : list list_op) : option (list nat) :=
  foldl (λ l op, l ≫= λ l, abstract_step l op) (Some []) ops.

Definition empty_links : links := mkLinks None None (λ _, None) (λ _, None).

(** Following [next] from [head], as far as [n] waits. *)
Fixpoint walk (s : links) (n : nat) (p : ptr) : list nat :=
  match n, p with
  | S n', Some x => x :: walk s n' (next s x)
  | _, _ => []
  end.

Definition is_queue_op (op : list_op) : bool := match op with PushFront _ => false | _ => true end.
Definition is_loop_op (op : list_op) : bool := match op with PushBack _ => false | _ => true end.

Lemma linked_walk l s n : linked l s → (length l ≤ n)%nat → walk s n (head s) = l.
Proof.
  intros (_ & Hh & Hl) Hn. rewrite Hh.
  assert (H : ∀ b a n, l = a ++ b → (length b ≤ n)%nat → walk s n (b !! 0%nat) = b).
  { induction b as [|x b IH]; intros a k E Hk; [by destruct k|]. destruct k as [|k]; [cbn in Hk; lia|].
    cbn. destruct (Hl a x b E) as [_ ->]. f_equal. apply (IH (a ++ [x])); [|cbn in Hk; lia].
    by rewrite <- app_assoc. }
  by apply (H l []).
Qed.

Lemma queue_step_ok l s op l' :
  linked l s → tail s = last l → is_queue_op op = true → abstract_step l op = Some l' →
  linked l' (queue_step s op) ∧ tail (queue_step s op) = last l'.
Proof.
  intros Hl Ht Hop E. destruct op as [w|w|w]; [|done|]; cbn in E; case_decide as Hw; try done; injection E as <-.
  - destruct (insert_links_ok l s w Hl Ht Hw) as (H1 & H2 & _). split; [done|].
    cbn [queue_step]. by rewrite H2, last_snoc.
  - apply list_elem_of_split in Hw as (a & b & ->).
    destruct (remove_links_ok a w b s Hl Ht) as (H1 & H2 & _).
    rewrite filter_mid by apply Hl. by split.
Qed.

Lemma loop_step_ok l s op l' :
  linked l s → is_loop_op op = true → abstract_step l op = Some l' → linked l' (loop_step s op).
Proof.
  intros Hl Hop E. destruct op as [w|w|w]; [done|..]; cbn in E; case_decide as Hw; try done; injection E as <-.
  - by apply track_ok.
  - apply list_elem_of_split in Hw as (a & b & ->). rewrite filter_mid by apply Hl. by apply untrack_ok.
Qed.

Lemma empty_linked : linked [] empty_links.
Proof. split; [constructor|]. split; [done|]. by intros [|] x b E. Qed.

(** A primitive's queue is a list: after any waits have been queued last
    and taken out, as [sync_primitive::insert] and [remove] do where they are
    not misused, walking the queue from [head] visits the waits of the list
    they make, and no other, in order; [head] and [tail] are its ends, and each
    wait's [prev] and [next] its neighbours. *)
Theorem queue_refines_list ops l :
  forallb is_queue_op ops = true → abstract_run ops = Some l →
  let s := foldl queue_step empty_links ops in
  (∀ n, (length l ≤ n)%nat → walk s n (head s) = l) ∧ head s = l !! 0%nat ∧ tail s = last l ∧
  NoDup l ∧ (∀ a x b, l = a ++ x :: b → prev s x = last a ∧ next s x = b !! 0%nat).
Proof.
  intros Hops E s.
  assert (H : linked l s ∧ tail s = last l).
  { unfold s. clear s. revert l E. induction ops as [|op ops IH] using rev_ind; intros l E.
    - injection E as <-. split; [apply empty_linked|done].
    - rewrite forallb_app in Hops. apply andb_prop in Hops as [Ho Hop]. cbn in Hop. rewrite andb_true_r in Hop.
      unfold abstract_run in E. rewrite foldl_app in E. apply bind_Some in E as (l0 & E0 & E1).
      destruct (IH Ho l0 E0) as [H1 H2]. rewrite foldl_app. by eapply queue_step_ok. }
  destruct H as [H Ht]. pose proof H as (Hnd & Hh & Hl). split; [|done]. intros n Hn. by apply linked_walk.
Qed.

Lemma queue_refines_list_witness :
  let s := foldl queue_step empty_links [PushBack 4; PushBack 2; PushBack 7; Delete 2; PushBack 2] in
  walk s 3 (head s) = [4; 7; 2]%nat ∧ tail s = Some 2%nat.
Proof.
  destruct (queue_refines_list [PushBack 4; PushBack 2; PushBack 7; Delete 2; PushBack 2] [4; 7; 2]%nat
    eq_refl eq_refl) as (H & _ & Ht & _). split; [exact (H 3%nat (le_n 3))|exact Ht].
Defined.

(** The loop's list of its queued waits is a list too, entered at its front
    ([event_loop::track], [untrack]): what the loop abandons as it goes are the
    waits tracked and not untracked since, each once. *)
Theorem loop_list_refines ops l :
  forallb is_loop_op ops = true → abstract_run ops = Some l →
  let s := foldl loop_step empty_links ops in
  (∀ n, (length l ≤ n)%nat → walk s n (head s) = l) ∧ NoDup l.
Proof.
  intros Hops E s.
  assert (H : linked l s).
  { unfold s. clear s. revert l E. induction ops as [|op ops IH] using rev_ind; intros l E.
    - injection E as <-. apply empty_linked.
    - rewrite forallb_app in Hops. apply andb_prop in Hops as [Ho Hop]. cbn in Hop. rewrite andb_true_r in Hop.
      unfold abstract_run in E. rewrite foldl_app in E. apply bind_Some in E as (l0 & E0 & E1).
      rewrite foldl_app. eapply loop_step_ok; [|exact Hop|exact E1]. by apply IH. }
  split; [|apply H]. intros n Hn. by apply linked_walk.
Qed.

Lemma loop_list_refines_witness :
  let s := foldl loop_step empty_links [PushFront 4; PushFront 2; PushFront 7; Delete 2] in
  walk s 2 (head s) = [7; 4]%nat.
Proof.
  exact (proj1 (loop_list_refines [PushFront 4; PushFront 2; PushFront 7; Delete 2] [7; 4]%nat
    eq_refl eq_refl) 2%nat (le_n 2)).
Defined.
