(* ===== verification/Sync.v ===== *)
(** The sync primitives of the runtime: include/kotatsu/async/runtime/sync.h
    and src/async/runtime/sync.cpp.

    A [world] holds the primitives, the waits ([wait_node]) and the event
    loop's queue of waits granted and not yet resumed; pointers are indices.  A
    primitive's queue is the list of its waiters, which LinkedList.v shows the
    intrusive list of the source to be.  A wait ends by resuming its task or by
    ending it cancelled, its [ended] field.  [sync_step] is what a program may
    do: lock, acquire, wait, unlock, release, set, notify, cancel, let the loop
    resume a task or let it go.

    The invariant accounts for every unit of a mutex or a semaphore: what is
    free, what was granted and not yet resumed and what ended waits took make
    up what was there at first, plus what was given back, less what was taken
    without a wait: the [b] that [sync_step] keeps beside the world. *)

From Stdlib Require Import ZArith Lia Bool.
From stdpp Require Import prelude list.
From S2P Require Import Prelude.
Local Open Scope Z_scope.

(** ** Data *)

Inductive Kind := Mutex | Semaphore | Event | ConditionVariable.

#[export] Instance kind_eq_dec : EqDecision Kind.
Proof. solve_decision. Defined.

Record sync_primitive := mkPrim {
  kind : Kind;
  locked : bool;
  count : Z;
  signaled : bool;
  waiters : list nat;
  woken : Z;
}.

(** How a wait ended: its task resumed, or ended cancelled. *)
Inductive outcome := Resumed | Cancelled.

#[export] Instance outcome_eq_dec : EqDecision outcome.
Proof. solve_decision. Defined.

Record wait_node := mkWait {
  owner : nat;
  owner_kind : Kind;
  relock : option nat;
  queue : option nat;
  loop : bool;
  cancel_requested : bool;
  granted : bool;
  ended : option outcome;
}.

#[export] Instance prim_inhabited : Inhabited sync_primitive :=
  populate (mkPrim Mutex false 0 false [] 0).
#[export] Instance wait_inhabited : Inhabited wait_node :=
  populate (mkWait 0 Mutex None None false false false None).

Record world := mkWorld {
  prims : list sync_primitive;
  waits : list wait_node;
  deferred : list nat;
}.

Definition prim_at (s : world) (p : nat) : sync_primitive := prims s !!! p.
Definition wait_at (s : world) (w : nat) : wait_node := waits s !!! w.

Definition set_prim (s : world) (p : nat) (P : sync_primitive) : world :=
  mkWorld (<[p := P]> (prims s)) (waits s) (deferred s).
Definition set_wait (s : world) (w : nat) (W : wait_node) : world :=
  mkWorld (prims s) (<[w := W]> (waits s)) (deferred s).

Definition with_locked (P : sync_primitive) (b : bool) : sync_primitive :=
  mkPrim (kind P) b (count P) (signaled P) (waiters P) (woken P).
Definition with_count (P : sync_primitive) (n : Z) : sync_primitive :=
  mkPrim (kind P) (locked P) n (signaled P) (waiters P) (woken P).
Definition with_signaled (P : sync_primitive) (b : bool) : sync_primitive :=
  mkPrim (kind P) (locked P) (count P) b (waiters P) (woken P).
Definition with_waiters (P : sync_primitive) (l : list nat) : sync_primitive :=
  mkPrim (kind P) (locked P) (count P) (signaled P) l (woken P).
Definition with_woken (P : sync_primitive) (n : Z) : sync_primitive :=
  mkPrim (kind P) (locked P) (count P) (signaled P) (waiters P) n.

Definition with_queue (W : wait_node) (q : option nat) : wait_node :=
  mkWait (owner W) (owner_kind W) (relock W) q (loop W) (cancel_requested W) (granted W) (ended W).
Definition with_loop (W : wait_node) (b : bool) : wait_node :=
  mkWait (owner W) (owner_kind W) (relock W) (queue W) b (cancel_requested W) (granted W) (ended W).
Definition with_cancel (W : wait_node) : wait_node :=
  mkWait (owner W) (owner_kind W) (relock W) (queue W) (loop W) true (granted W) (ended W).
Definition with_granted (W : wait_node) (b : bool) : wait_node :=
  mkWait (owner W) (owner_kind W) (relock W) (queue W) (loop W) (cancel_requested W) b (ended W).
Definition with_ended (W : wait_node) (o : outcome) : wait_node :=
  mkWait (owner W) (owner_kind W) (relock W) (queue W) (loop W) (cancel_requested W) (granted W)
    (Some o).

(** ** The operations *)

Definition insert (s : world) (p w : nat) : world :=
  set_wait (set_prim s p (with_waiters (prim_at s p) (waiters (prim_at s p) ++ [w])))
    w (with_queue (wait_at s w) (Some p)).

Definition remove (s : world) (p w : nat) : world :=
  set_wait (set_prim s p (with_waiters (prim_at s p) (filter (λ x, x ≠ w) (waiters (prim_at s p)))))
    w (with_queue (wait_at s w) None).

Definition try_lock (s : world) (m : nat) : bool * world :=
  if locked (prim_at s m) then (false, s)
  else (true, set_prim s m (with_locked (prim_at s m) true)).

Definition try_acquire (s : world) (p : nat) : bool * world :=
  if count (prim_at s p) <=? 0 then (false, s)
  else (true, set_prim s p (with_count (prim_at s p) (count (prim_at s p) - 1))).

Definition defer_resume (s : world) (w : nat) : world :=
  let s' := set_wait s w (with_granted (wait_at s w) true) in
  mkWorld (prims s') (waits s') (deferred s' ++ [w]).

Definition add_woken (s : world) (p : nat) (n : Z) : world :=
  set_prim s p (with_woken (prim_at s p) (woken (prim_at s p) + n)).

Definition grant (s : world) (w from : nat) : world :=
  let W := wait_at s w in
  if (from =? owner W)%nat then
    let s1 := if decide (owner_kind W = Event) then s else add_woken s (owner W) 1 in
    match relock W with
    | Some m =>
        let '(ok, s2) := try_lock s1 m in
        if ok then defer_resume s2 w else insert s2 m w
    | None => defer_resume s1 w
    end
  else defer_resume s w.

Definition wake_one (s : world) (p : nat) : bool * world :=
  match waiters (prim_at s p) with
  | [] => (false, s)
  | w :: _ => (true, grant (remove s p w) w p)
  end.

(** [wake_all]: a grant never queues a wait on the primitive it came from
    again, so the waiters there are fuel enough. *)
Fixpoint wake_all_from (fuel : nat) (s : world) (p : nat) : world :=
  match fuel with
  | O => s
  | S fuel' => let '(woke, s') := wake_one s p in if woke then wake_all_from fuel' s' p else s'
  end.

Definition wake_all (s : world) (p : nat) : world :=
  wake_all_from (length (waiters (prim_at s p))) s p.

Definition unlock (s : world) (m : nat) : world :=
  let '(woke, s') := wake_one s m in
  if woke then s' else set_prim s' m (with_locked (prim_at s' m) false).

Definition release_one (s : world) (p : nat) : world :=
  let '(woke, s') := wake_one s p in
  if woke then s' else set_prim s' p (with_count (prim_at s' p) (count (prim_at s' p) + 1)).

Definition release (s : world) (p n : nat) : world := Nat.iter n (λ s, release_one s p) s.

Definition set_event (s : world) (p : nat) : world :=
  wake_all (set_prim s p (with_signaled (prim_at s p) true)) p.

Definition reset_event (s : world) (p : nat) : world :=
  set_prim s p (with_signaled (prim_at s p) false).

Definition await_ready (s : world) (p : nat) : bool * world :=
  match kind (prim_at s p) with
  | Mutex => try_lock s p
  | Semaphore => try_acquire s p
  | Event => (signaled (prim_at s p), s)
  | ConditionVariable => (false, s)
  end.

(** [wait] past its checkpoint: wait [w] is queued. *)
Definition wait (s : world) (w : nat) : world :=
  let W := wait_at s w in
  let s1 := set_wait s w (with_loop W true) in
  let s2 := match relock W with Some m => unlock s1 m | None => s1 end in
  insert s2 (owner W) w.

Definition give_back (s : world) (w : nat) : world :=
  let W := wait_at s w in
  match owner_kind W with
  | Event => s
  | Mutex => unlock (add_woken s (owner W) (-1)) (owner W)
  | Semaphore => release_one (add_woken s (owner W) (-1)) (owner W)
  | ConditionVariable => (wake_one (add_woken s (owner W) (-1)) (owner W)).2
  end.

(** The end of [cancel_wait]: the wait was queued until now, or abandoned. *)
Definition end_cancelled (s : world) (w : nat) : world :=
  let finish s := set_wait s w (with_ended (wait_at s w) Cancelled) in
  match relock (wait_at s w) with
  | Some m =>
      let '(ok, s1) := try_lock s m in
      if negb ok then (if loop (wait_at s1 w) then insert s1 m w else s1) else finish s1
  | None => finish s
  end.

Definition cancel_wait (s : world) (w : nat) : world :=
  let W := wait_at s w in
  if bool_decide (queue W = Some (owner W)) then end_cancelled (remove s (owner W) w) w
  else if loop W then give_back s w
  else end_cancelled s w.

(** [async_node::cancel] of a wait. *)
Definition cancel (s : world) (w : nat) : world :=
  let W := wait_at s w in
  if bool_decide (ended W ≠ None) || cancel_requested W then s
  else cancel_wait (set_wait s w (with_cancel W)) w.

Definition abandon (s : world) (w : nat) : world :=
  let W := wait_at s w in
  match queue W with
  | None => s
  | Some q =>
      let s1 := if negb (bool_decide (queue W = Some (owner W))) && negb (cancel_requested W)
                then add_woken s (owner W) (-1) else s in
      let s2 := remove s1 q w in
      set_wait s2 w (with_loop (wait_at s2 w) false)
  end.

(** The loop resumes the first wait granted. *)
Definition resume (s : world) : world :=
  match deferred s with
  | [] => s
  | w :: rest =>
      let s1 := mkWorld (prims s) (waits s) rest in
      let W := with_granted (wait_at s1 w) false in
      if cancel_requested W then set_wait s1 w (with_ended W Cancelled)
      else
        let s2 := if decide (owner_kind W = Event) then s1 else add_woken s1 (owner W) (-1) in
        set_wait s2 w (with_ended W Resumed)
  end.

(** ** The invariant *)

Definition total (f : wait_node → Z) (ws : list wait_node) : Z := foldr (λ W n, f W + n) 0 ws.

Lemma total_app f a b : total f (a ++ b) = total f a + total f b.
Proof. induction a as [|W a IH]; simpl; [done|]. rewrite IH. lia. Qed.

Lemma total_insert f ws w W W' :
  ws !! w = Some W → total f (<[w := W']> ws) = total f ws - f W + f W'.
Proof.
  revert w. induction ws as [|V ws IH]; intros [|w] H; simpl in *; try done.
  - simplify_eq. lia.
  - rewrite (IH w H). lia.
Qed.

Definition one (P : Prop) `{Decision P} : Z := if decide P then 1 else 0.

(** The units of [p] a wait has, or has been granted and will have. *)
Definition units (p : nat) (W : wait_node) : Z :=
  one (owner W = p ∧ (owner_kind W = Mutex ∨ owner_kind W = Semaphore) ∧
       ((granted W = true ∧ cancel_requested W = false) ∨ ended W = Some Resumed)) +
  one (relock W = Some p ∧ (granted W = true ∨ ended W ≠ None)).

(** The waits [p] granted whose tasks have not resumed yet. *)
Definition woken_by (p : nat) (W : wait_node) : Z :=
  one (owner W = p ∧ owner_kind W ≠ Event ∧ cancel_requested W = false ∧
       (granted W = true ∨ (queue W ≠ None ∧ queue W ≠ Some p))).

Definition avail (P : sync_primitive) : Z :=
  match kind P with
  | Mutex => if locked P then 0 else 1
  | Semaphore => count P
  | _ => 0
  end.

Definition has_units (P : sync_primitive) : Prop := kind P = Mutex ∨ kind P = Semaphore.

(** [b p] units of [p] are to be accounted for, and [p] counts [e p] waits
    more than it has woken. *)
Definition prim_ok (b e : nat → Z) (ws : list wait_node) (p : nat) (P : sync_primitive) : Prop :=
  (has_units P → avail P + total (units p) ws = b p ∧ 0 ≤ avail P ∧
     (0 < avail P → waiters P = [])) ∧
  (kind P = Event → signaled P = true → waiters P = []) ∧
  (kind P ≠ Event → woken P = total (woken_by p) ws + e p) ∧
  NoDup (waiters P) ∧
  (∀ w, w ∈ waiters P ↔ ∃ W, ws !! w = Some W ∧ queue W = Some p).

Definition wait_ok (ps : list sync_primitive) (W : wait_node) : Prop :=
  (∃ P, ps !! owner W = Some P ∧ kind P = owner_kind W) ∧
  match relock W with
  | Some m => owner_kind W = ConditionVariable ∧ ∃ P, ps !! m = Some P ∧ kind P = Mutex
  | None => owner_kind W ≠ ConditionVariable
  end ∧
  (∀ q, queue W = Some q → (q = owner W ∨ relock W = Some q) ∧ granted W = false ∧
     ended W = None ∧ loop W = true) ∧
  (granted W = true → ended W = None ∧ loop W = true) ∧
  (queue W = Some (owner W) → cancel_requested W = false).

Definition inv (b e : nat → Z) (s : world) : Prop :=
  (∀ p P, prims s !! p = Some P → prim_ok b e (waits s) p P) ∧
  (∀ w W, waits s !! w = Some W → wait_ok (prims s) W) ∧
  NoDup (deferred s) ∧
  (∀ w, w ∈ deferred s ↔ ∃ W, waits s !! w = Some W ∧ granted W = true).

Definition bump (b : nat → Z) (p : nat) (n : Z) : nat → Z :=
  λ q, b q + if decide (q = p) then n else 0.

Lemma inv_ext b b' e e' s :
  (∀ p, b p = b' p) → (∀ p, e p = e' p) → inv b e s → inv b' e' s.
Proof.
  intros Hb He (H1 & H2 & H3). split; [|done]. intros p P HP. specialize (H1 p P HP).
  unfold prim_ok in *. by rewrite <- Hb, <- He.
Qed.

(** Changing a primitive keeps what the waits say of it, if its kind does. *)
Lemma wait_ok_insert ps p P P' W :
  ps !! p = Some P → kind P' = kind P → wait_ok ps W → wait_ok (<[p := P']> ps) W.
Proof.
  intros HP Hk (H1 & H2 & H3).
  assert (Hlk : ∀ q K, (∃ Q, ps !! q = Some Q ∧ kind Q = K) →
    ∃ Q, <[p := P']> ps !! q = Some Q ∧ kind Q = K).
  { intros q K (Q & HQ & <-). destruct (decide (q = p)) as [->|Hne].
    - exists P'. rewrite list_lookup_insert_eq by (by eapply lookup_lt_Some).
      split; [done|]. congruence.
    - exists Q. by rewrite list_lookup_insert_ne. }
  split; [by apply Hlk|]. split; [|done].
  destruct (relock W); [|done]. destruct H2 as [? H2]. split; [done|]. by apply Hlk.
Qed.

Lemma prim_at_lookup s p P : prims s !! p = Some P → prim_at s p = P.
Proof. intros H. unfold prim_at. by rewrite list_lookup_total_alt, H. Qed.

Lemma wait_at_lookup s w W : waits s !! w = Some W → wait_at s w = W.
Proof. intros H. unfold wait_at. by rewrite list_lookup_total_alt, H. Qed.

(** Changing a primitive, its queue kept. *)
Lemma inv_set_prim b e b' e' s p P P' :
  inv b e s → prims s !! p = Some P → kind P' = kind P → waiters P' = waiters P →
  (has_units P → avail P' - avail P = b' p - b p ∧ 0 ≤ avail P' ∧ (0 < avail P' → waiters P = [])) →
  (kind P = Event → signaled P' = true → waiters P = []) →
  (kind P ≠ Event → woken P' - woken P = e' p - e p) →
  (∀ q, q ≠ p → b' q = b q ∧ e' q = e q) →
  inv b' e' (set_prim s p P').
Proof.
  intros (H1 & H2 & H3) HP Hk Hw Hu He Hwk Hq. split; [|split; [|done]]; cbn [prims waits set_prim].
  - intros q Q HQ. destruct (decide (q = p)) as [->|Hne].
    + rewrite list_lookup_insert_eq in HQ by (by eapply lookup_lt_Some). simplify_eq.
      destruct (H1 p P HP) as (A1 & A2 & A3 & A4 & A5). unfold prim_ok.
      unfold has_units in *. rewrite Hk, Hw.
      split; [intros Hun; specialize (A1 Hun); specialize (Hu Hun); lia || (split_and!; [lia|lia|apply Hu])|].
      split; [by intros; apply He|]. split; [intros; specialize (A3 H); specialize (Hwk H); lia|done].
    + rewrite list_lookup_insert_ne in HQ by done. specialize (H1 q Q HQ). unfold prim_ok in *.
      destruct (Hq q Hne) as [-> ->]. done.
  - intros w W HW. eapply wait_ok_insert; eauto.
Qed.

(** Changing a wait, its place in a queue kept. *)
Lemma inv_set_wait b e b' e' s w W W' :
  inv b e s → waits s !! w = Some W → queue W' = queue W → granted W' = granted W →
  wait_ok (prims s) W' →
  (∀ p, b' p - b p = units p W' - units p W) →
  (∀ p, e' p - e p = woken_by p W - woken_by p W') →
  inv b' e' (set_wait s w W').
Proof.
  intros (H1 & H2 & H3 & H4) HW Hq Hg Hok Hu Hwk.
  assert (Hin : ∀ (f : wait_node → Prop) i, (f W ↔ f W') →
    (∃ V, <[w := W']> (waits s) !! i = Some V ∧ f V) ↔ (∃ V, waits s !! i = Some V ∧ f V)).
  { intros f i Hf. destruct (decide (i = w)) as [->|Hne].
    - rewrite list_lookup_insert_eq by (by eapply lookup_lt_Some). rewrite HW. naive_solver.
    - by rewrite list_lookup_insert_ne. }
  split; [|split; [|split]]; cbn [prims waits deferred set_wait].
  - intros p P HP. destruct (H1 p P HP) as (A1 & A2 & A3 & A4 & A5). unfold prim_ok.
    rewrite !(total_insert _ _ w W W' HW). specialize (Hu p). specialize (Hwk p).
    split; [intros Hun; specialize (A1 Hun); split_and!; [lia|lia|apply A1]|]. split; [done|].
    split; [intros HE; specialize (A3 HE); lia|]. split; [done|].
    intros i. rewrite A5. symmetry. apply Hin. by rewrite Hq.
  - intros i V HV. destruct (decide (i = w)) as [->|Hne].
    + rewrite list_lookup_insert_eq in HV by (by eapply lookup_lt_Some). by simplify_eq.
    + rewrite list_lookup_insert_ne in HV by done. by eapply H2.
  - done.
  - intros i. rewrite H4. symmetry. apply (Hin (λ V, granted V = true)). by rewrite Hg.
Qed.

(** Moving a wait into or out of a queue. *)
Lemma inv_queue b e e' s p P l w W q' :
  inv b e s → prims s !! p = Some P → waits s !! w = Some W →
  (∀ x, queue W = Some x → x = p) → (∀ x, q' = Some x → x = p) →
  NoDup l → (∀ i, i ∈ l ↔ (i = w ∧ q' = Some p) ∨ (i ≠ w ∧ i ∈ waiters P)) →
  (has_units P → 0 < avail P → l = []) → (kind P = Event → signaled P = true → l = []) →
  wait_ok (prims s) (with_queue W q') →
  (∀ x, e' x - e x = woken_by x W - woken_by x (with_queue W q')) →
  inv b e' (set_wait (set_prim s p (with_waiters P l)) w (with_queue W q')).
Proof.
  intros (H1 & H2 & H3 & H4) HP HW Hq Hq' Hnd Hl Hav Hev Hok Hwk.
  assert (Hins : ∀ i V, <[w := with_queue W q']> (waits s) !! i = Some V →
    (i = w ∧ V = with_queue W q') ∨ (i ≠ w ∧ waits s !! i = Some V)).
  { intros i V HV. destruct (decide (i = w)) as [->|Hne].
    - rewrite list_lookup_insert_eq in HV by (by eapply lookup_lt_Some). simplify_eq. by left.
    - rewrite list_lookup_insert_ne in HV by done. by right. }
  assert (Hlk : <[w := with_queue W q']> (waits s) !! w = Some (with_queue W q'))
    by (apply list_lookup_insert_eq; by eapply lookup_lt_Some).
  assert (Hne : ∀ i, i ≠ w → <[w := with_queue W q']> (waits s) !! i = waits s !! i)
    by (intros; by rewrite list_lookup_insert_ne).
  assert (Hun : ∀ x, total (units x) (<[w := with_queue W q']> (waits s)) = total (units x) (waits s)).
  { intros x. rewrite (total_insert _ _ w W) by done.
    assert (units x (with_queue W q') = units x W) by reflexivity. lia. }
  split; [|split; [|split]]; cbn [prims waits deferred set_wait set_prim].
  - intros x X HX. unfold prim_ok. rewrite Hun, (total_insert (woken_by x) _ w W) by done.
    destruct (decide (x = p)) as [->|Hx].
    + rewrite list_lookup_insert_eq in HX by (by eapply lookup_lt_Some). simplify_eq.
      destruct (H1 p P HP) as (A1 & A2 & A3 & A4 & A5). unfold has_units, avail in *.
      cbn [kind locked count signaled waiters woken with_waiters] in *.
      split; [intros Hh; specialize (A1 Hh); split_and!; [lia|lia|by apply Hav]|].
      split; [done|]. split; [intros HE; specialize (A3 HE); specialize (Hwk p); lia|].
      split; [done|]. intros i. rewrite Hl. split.
      * intros [[-> ->]|[Hi Hin]]; [by exists (with_queue W (Some p))|].
        rewrite Hne by done. by apply A5.
      * intros (V & [[-> ->]|[Hi HV]]%Hins & HVq); [by left|]. right. split; [done|]. apply A5. eauto.
    + rewrite list_lookup_insert_ne in HX by done.
      destruct (H1 x X HX) as (A1 & A2 & A3 & A4 & A5).
      split; [done|]. split; [done|]. split; [intros HE; specialize (A3 HE); specialize (Hwk x); lia|].
      split; [done|]. intros i. rewrite A5. split.
      * intros (V & HV & HVq). destruct (decide (i = w)) as [->|Hi].
        -- simplify_eq. by apply Hq in HVq.
        -- rewrite Hne by done. eauto.
      * intros (V & [[-> ->]|[Hi HV]]%Hins & HVq); [by apply Hq' in HVq|eauto].
  - intros i V [[-> ->]|[Hi HV]]%Hins; eapply wait_ok_insert; eauto.
  - done.
  - intros i. rewrite H4. split.
    + intros (V & HV & Hg). destruct (decide (i = w)) as [->|Hi].
      * simplify_eq. eexists. split; [exact Hlk|done].
      * rewrite Hne by done. eauto.
    + intros (V & [[-> ->]|[Hi HV]]%Hins & Hg); eauto.
Qed.

Lemma one_iff (P Q : Prop) `{Decision P, Decision Q} : (P ↔ Q) → one P = one Q.
Proof. unfold one. intros HPQ. do 2 case_decide; naive_solver. Qed.

Lemma one_false (P : Prop) `{Decision P} : ¬ P → one P = 0.
Proof. unfold one. intros. by rewrite decide_False. Qed.

Lemma one_true (P : Prop) `{Decision P} : P → one P = 1.
Proof. unfold one. intros. by rewrite decide_True. Qed.

(** A wait neither granted nor queued off its owner counts for no primitive. *)
Lemma woken_by_none q W :
  granted W = false → (queue W = None ∨ queue W = Some (owner W)) → woken_by q W = 0.
Proof.
  intros Hg Hq. apply one_false. intros (E & _ & _ & [?|[H1 H2]]); [congruence|].
  destruct Hq; congruence.
Qed.

Lemma remove_ok b e s p P w W :
  inv b e s → prims s !! p = Some P → waits s !! w = Some W → queue W = Some p →
  inv b (λ x, e x + woken_by x W) (remove s p w) ∧
  waits (remove s p w) !! w = Some (with_queue W None) ∧
  prims (remove s p w) = <[p := with_waiters P (filter (λ x, x ≠ w) (waiters P))]> (prims s).
Proof.
  intros Hi HP HW Hq. pose proof Hi as (H1 & H2 & _). destruct (H1 p P HP) as (A1 & A2 & A3 & A4 & A5).
  pose proof (H2 w W HW) as (B1 & B2 & B3 & B4 & B5).
  destruct (B3 p Hq) as (C1 & C2 & C3 & C4).
  unfold remove. rewrite (prim_at_lookup _ _ _ HP), (wait_at_lookup _ _ _ HW).
  split; [|split; [|done]].
  - eapply inv_queue; eauto.
    + intros x Hx. congruence.
    + done.
    + by apply NoDup_filter.
    + intros i. rewrite list_elem_of_filter. split; [intros [? ?]; by right|].
      intros [[_ ?]|[? ?]]; done.
    + intros Hh Ha. specialize (A1 Hh) as (_ & _ & A1). by rewrite A1.
    + intros HE Hs. by rewrite A2.
    + split; [done|]. split; [done|]. split; [done|]. split; [|done]. cbn. intros ?. congruence.
    + intros x. rewrite (woken_by_none x (with_queue W None)); [lia|done|by left].
  - cbn [set_wait set_prim waits]. apply list_lookup_insert_eq. by eapply lookup_lt_Some.
Qed.

Lemma insert_ok b e s p P w W :
  inv b e s → prims s !! p = Some P → waits s !! w = Some W →
  queue W = None → granted W = false → ended W = None → loop W = true →
  (p = owner W ∧ cancel_requested W = false ∨ relock W = Some p) →
  (has_units P → avail P = 0) → (kind P = Event → signaled P = false) →
  inv b (λ x, e x - woken_by x (with_queue W (Some p))) (insert s p w).
Proof.
  intros Hi HP HW Hq Hg Hend Hloop Hp Hav Hev. pose proof Hi as (H1 & H2 & _).
  destruct (H1 p P HP) as (A1 & A2 & A3 & A4 & A5).
  pose proof (H2 w W HW) as (B1 & B2 & B3 & B4 & B5).
  assert (Hnin : w ∉ waiters P) by (rewrite A5; intros (V & HV & HVq); congruence).
  unfold insert. rewrite (prim_at_lookup _ _ _ HP), (wait_at_lookup _ _ _ HW).
  eapply inv_queue; eauto.
  - intros x Hx. congruence.
  - intros x Hx. congruence.
  - apply NoDup_app. split; [done|]. split; [|apply NoDup_singleton].
    intros x Hx ->%list_elem_of_singleton. done.
  - intros i. rewrite elem_of_app, list_elem_of_singleton. split.
    + intros [Hin | ->]; [|by left]. destruct (decide (i = w)) as [->|]; [done|by right].
    + intros [[-> _]|[_ ?]]; auto.
  - intros Hh Ha. rewrite Hav in Ha by done. lia.
  - intros HE Hs. rewrite Hev in Hs by done. done.
  - split; [done|]. split; [done|]. split.
    + intros q [= <-]. cbn. destruct Hp as [[-> _]|Hp]; auto.
    + split; [cbn; congruence|]. cbn. intros [= E]. destruct Hp as [[_ Hc]|Hp]; [done|].
      rewrite Hp in B2. destruct B2 as [Hk (Q & HQ & HK)]. destruct B1 as (Q' & HQ' & HK').
      exfalso. congruence.
  - intros x. rewrite (woken_by_none x W); [lia|done|by left].
Qed.

Lemma defer_ok b e s w W :
  inv b e s → waits s !! w = Some W →
  queue W = None → granted W = false → ended W = None → loop W = true →
  inv (λ x, b x + units x (with_granted W true))
    (λ x, e x - woken_by x (with_granted W true)) (defer_resume s w).
Proof.
  intros (H1 & H2 & H3 & H4) HW Hq Hg Hend Hloop.
  unfold defer_resume. rewrite (wait_at_lookup _ _ _ HW). set (W' := with_granted W true).
  assert (Hu0 : ∀ x, units x W = 0).
  { intros x. unfold units. rewrite !one_false; [done|..]; rewrite Hg, Hend; naive_solver. }
  assert (Hw0 : ∀ x, woken_by x W = 0) by (intros; apply woken_by_none; auto).
  assert (Hlt : (w < length (waits s))%nat) by (by eapply lookup_lt_Some).
  split; [|split; [|split]]; cbn [prims waits deferred set_wait].
  - intros p P HP. destruct (H1 p P HP) as (A1 & A2 & A3 & A4 & A5). unfold prim_ok.
    rewrite !(total_insert _ _ w W W' HW), Hu0, Hw0.
    split; [intros Hh; specialize (A1 Hh); split_and!; [lia|lia|apply A1]|]. split; [done|].
    split; [intros HE; specialize (A3 HE); lia|]. split; [done|].
    intros i. rewrite A5. destruct (decide (i = w)) as [->|Hi].
    + rewrite list_lookup_insert_eq, HW by done. split; intros (V & [= <-] & HV); cbn in *; congruence.
    + by rewrite list_lookup_insert_ne.
  - intros i V HV. destruct (decide (i = w)) as [->|Hi].
    + rewrite list_lookup_insert_eq in HV by done. simplify_eq.
      destruct (H2 w W HW) as (B1 & B2 & B3 & B4 & B5). split; [done|]. split; [done|].
      split; [cbn; intros q Hq'; congruence|]. split; [done|]. cbn. congruence.
    + rewrite list_lookup_insert_ne in HV by done. eauto.
  - apply NoDup_app. split; [done|]. split; [|apply NoDup_singleton].
    intros x Hx ->%list_elem_of_singleton. apply H4 in Hx as (V & HV & ?). congruence.
  - intros i. rewrite elem_of_app, list_elem_of_singleton, H4.
    destruct (decide (i = w)) as [->|Hi].
    + rewrite list_lookup_insert_eq by done. split; [by eexists|by right].
    + rewrite list_lookup_insert_ne by done. naive_solver.
Qed.

(** Decides what a wait accounts for from what is known of it. *)
Ltac count_units :=
  unfold units, woken_by, one, bump;
  cbn [owner owner_kind relock queue loop cancel_requested granted ended
       with_queue with_loop with_cancel with_granted with_ended];
  repeat case_decide; try lia;
  try (exfalso; first [intuition congruence | naive_solver congruence]).

Lemma try_lock_ok b e s m P :
  inv b e s → prims s !! m = Some P → kind P = Mutex →
  (locked P = true ∧ try_lock s m = (false, s)) ∨
  (locked P = false ∧ ∃ s', try_lock s m = (true, s') ∧ inv (bump b m (-1)) e s' ∧
     prims s' = <[m := with_locked P true]> (prims s) ∧ waits s' = waits s ∧
     deferred s' = deferred s).
Proof.
  intros Hi HP Hk. unfold try_lock. rewrite (prim_at_lookup _ _ _ HP).
  destruct (locked P) eqn:El; [by left|]. right. split; [done|]. eexists. split; [done|].
  split; [|done]. pose proof Hi as (H1 & _). destruct (H1 m P HP) as (A1 & _).
  eapply inv_set_prim; try done.
  - intros Hh. unfold avail. rewrite Hk. cbn [kind locked with_locked]. rewrite Hk, El. unfold bump.
    rewrite decide_True by done. split; [lia|]. split; [lia|]. intros; lia.
  - congruence.
  - intros; cbn; lia.
  - intros q Hq. unfold bump. rewrite decide_False by done. lia.
Qed.

Lemma add_woken_ok b e s p P n :
  inv b e s → prims s !! p = Some P →
  inv b (bump e p n) (add_woken s p n) ∧
  prims (add_woken s p n) = <[p := with_woken P (woken P + n)]> (prims s).
Proof.
  intros Hi HP. unfold add_woken. rewrite (prim_at_lookup _ _ _ HP). split; [|done].
  pose proof Hi as (H1 & _). destruct (H1 p P HP) as (A1 & A2 & _).
  eapply inv_set_prim; try done.
  - intros Hh. specialize (A1 Hh). unfold avail in *. cbn. split; [lia|]. split; [lia|]. apply A1.
  - intros. unfold bump. rewrite decide_True by done. simpl. lia.
  - intros q Hq. unfold bump. rewrite decide_False by done. lia.
Qed.

(** Waking a wait passes it one unit of a primitive that has units. *)
Lemma wake_one_ok b e s p P :
  inv b e s → prims s !! p = Some P →
  match waiters P with
  | [] => wake_one s p = (false, s)
  | _ :: _ => ∃ s', wake_one s p = (true, s') ∧
      inv (bump b p (one (kind P = Mutex ∨ kind P = Semaphore))) e s'
  end.
Proof.
  intros Hi HP. unfold wake_one. rewrite (prim_at_lookup _ _ _ HP).
  destruct (waiters P) as [|w l] eqn:Ew; [done|]. eexists. split; [done|].
  pose proof Hi as (H1 & H2 & _). destruct (H1 p P HP) as (A1 & A2 & A3 & A4 & A5).
  destruct (proj1 (A5 w)) as (W & HW & Hq); [rewrite Ew; apply list_elem_of_here|].
  pose proof (H2 w W HW) as (B1 & B2 & B3 & B4 & B5).
  destruct (B3 p Hq) as (C1 & C2 & C3 & C4). destruct B1 as (O & HO & HOk).
  destruct (remove_ok b e s p P w W Hi HP HW Hq) as (Hr & HrW & Hrp).
  set (s1 := remove s p w) in *. set (W1 := with_queue W None) in *.
  assert (Hk1 : ∀ x X, prims s !! x = Some X → ∃ Y, prims s1 !! x = Some Y ∧ kind Y = kind X).
  { intros x X HX. rewrite Hrp. destruct (decide (x = p)) as [->|].
    - rewrite list_lookup_insert_eq by (by eapply lookup_lt_Some). eexists. split; [done|]. simpl. congruence.
    - rewrite list_lookup_insert_ne by done. eauto. }
  unfold grant. rewrite (wait_at_lookup _ _ _ HrW). cbn [owner owner_kind relock W1 with_queue].
  destruct (p =? owner W)%nat eqn:Eo; bool_prop.
  - subst p. assert (O = P) as -> by congruence. specialize (B5 Hq).
    destruct (Hk1 _ _ HP) as (P1 & HP1 & HP1k).
    set (s2 := if decide (owner_kind W = Event) then s1 else add_woken s1 (owner W) 1).
    assert (Hs2 : inv b (bump e (owner W) (one (owner_kind W ≠ Event))) s2 ∧
                  waits s2 = waits s1 ∧
                  ∀ x X, prims s1 !! x = Some X → ∃ Y, prims s2 !! x = Some Y ∧ kind Y = kind X).
    { subst s2. case_decide as HE.
      - split; [|eauto]. eapply inv_ext; [..|exact Hr]; [done|]. intros x. cbn beta.
        rewrite (woken_by_none x W) by (auto). rewrite one_false by naive_solver. unfold bump. case_decide; lia.
      - destruct (add_woken_ok _ _ _ _ _ 1 Hr HP1) as [Ha Hap]. split; [|split; [done|]].
        + eapply inv_ext; [..|exact Ha]; [done|]. intros x. unfold bump. cbn beta.
          rewrite (woken_by_none x W) by (auto). rewrite one_true by done. case_decide; lia.
        + intros x X HX. rewrite Hap. destruct (decide (x = owner W)) as [->|].
          * rewrite list_lookup_insert_eq by (by eapply lookup_lt_Some). eexists. split; [done|]. simpl. congruence.
          * rewrite list_lookup_insert_ne by done. eauto. }
    destruct Hs2 as (Hi2 & Hw2 & Hk2). rewrite <- Hw2 in HrW.
    destruct (relock W) as [m|] eqn:Er.
    + destruct B2 as [Bk (M & HM & HMk)]. assert (Hmo : m ≠ owner W) by congruence.
      destruct (Hk1 _ _ HM) as (M1 & HM1 & HM1k). destruct (Hk2 _ _ HM1) as (M2 & HM2 & HM2k).
      destruct (try_lock_ok _ _ s2 m M2 Hi2 HM2 ltac:(congruence)) as [[El ->]|(El & s3 & -> & Hi3 & _ & Hw3 & _)].
      * eapply inv_ext; [..|eapply (insert_ok _ _ s2 m M2 w W1); eauto].
        -- intros x. count_units.
        -- intros x. subst W1. count_units.
        -- intros _. unfold avail. rewrite HM2k, HM1k, HMk, El. done.
        -- congruence.
      * eapply inv_ext; [..|eapply (defer_ok _ _ s3 w W1); eauto; congruence].
        -- intros x. subst W1. count_units.
        -- intros x. subst W1. count_units.
    + eapply inv_ext; [..|eapply (defer_ok _ _ s2 w W1); eauto].
      * intros x. subst W1. count_units.
      * intros x. subst W1. count_units.
  - destruct C1 as [C1|C1]; [congruence|]. rewrite C1 in B2. destruct B2 as [Bk (M & HM & HMk)].
    assert (M = P) as -> by congruence.
    eapply inv_ext; [..|eapply (defer_ok _ _ s1 w W1); eauto].
    + intros x. subst W1. count_units.
    + intros x. subst W1. count_units.
Qed.

(** ** What the operations leave alone *)

Definition kinds (s : world) : list Kind := kind <$> prims s.

Lemma kinds_set_prim s p P : kind P = kind (prim_at s p) → kinds (set_prim s p P) = kinds s.
Proof.
  intros Hk. unfold kinds, set_prim. cbn [prims]. rewrite list_fmap_insert.
  destruct (decide (p < length (prims s))%nat) as [Hlt|Hge].
  - apply list_insert_id. rewrite list_lookup_fmap.
    destruct (lookup_lt_is_Some_2 _ _ Hlt) as [Q HQ]. rewrite HQ. simpl.
    rewrite Hk. by rewrite (prim_at_lookup _ _ _ HQ).
  - apply list_insert_ge. rewrite length_fmap. lia.
Qed.

Lemma kinds_lookup s p K : kinds s !! p = Some K ↔ ∃ P, prims s !! p = Some P ∧ kind P = K.
Proof.
  unfold kinds. rewrite list_lookup_fmap. destruct (prims s !! p); simpl; naive_solver.
Qed.

Lemma try_lock_kinds s m : kinds (try_lock s m).2 = kinds s ∧ waits (try_lock s m).2 = waits s.
Proof. unfold try_lock. case_if; [done|]. split; [by apply kinds_set_prim|done]. Qed.

Lemma add_woken_kinds s p n : kinds (add_woken s p n) = kinds s ∧ waits (add_woken s p n) = waits s.
Proof. split; [by apply kinds_set_prim|done]. Qed.

Lemma insert_kinds s p w : kinds (insert s p w) = kinds s.
Proof. unfold insert. apply (kinds_set_prim s p). done. Qed.

Lemma remove_kinds s p w : kinds (remove s p w) = kinds s.
Proof. unfold remove. apply (kinds_set_prim s p). done. Qed.

(** What never changes of a wait while it waits. *)
Definition identity (W : wait_node) : nat * Kind * option nat * bool * bool * option outcome :=
  (owner W, owner_kind W, relock W, loop W, cancel_requested W, ended W).

(** A wait the loop will see to: in a queue, or granted. *)
Definition attended (W : wait_node) : Prop := queue W ≠ None ∨ granted W = true.

Lemma grant_frame s w from W :
  waits s !! w = Some W →
  kinds (grant s w from) = kinds s ∧
  ∃ W', waits (grant s w from) = <[w := W']> (waits s) ∧ identity W' = identity W ∧ attended W'.
Proof.
  intros HW. unfold grant. rewrite (wait_at_lookup _ _ _ HW).
  assert (Hdefer : ∀ s', waits s' = waits s → kinds s' = kinds s →
    kinds (defer_resume s' w) = kinds s ∧
    ∃ W', waits (defer_resume s' w) = <[w := W']> (waits s) ∧ identity W' = identity W ∧ attended W').
  { intros s' Hw Hk. unfold defer_resume, wait_at. rewrite Hw. rewrite list_lookup_total_alt, HW.
    split; [done|]. exists (with_granted W true). cbn. rewrite Hw. split; [done|]. split; [done|by right]. }
  assert (Hins : ∀ s' m, waits s' = waits s → kinds s' = kinds s →
    kinds (insert s' m w) = kinds s ∧
    ∃ W', waits (insert s' m w) = <[w := W']> (waits s) ∧ identity W' = identity W ∧ attended W').
  { intros s' m Hw Hk. rewrite insert_kinds. split; [done|]. unfold insert, wait_at.
    rewrite Hw, list_lookup_total_alt, HW. exists (with_queue W (Some m)). cbn. rewrite Hw.
    split; [done|]. split; [done|by left]. }
  destruct (from =? owner W)%nat; [|by apply Hdefer].
  set (s1 := if decide (owner_kind W = Event) then s else add_woken s (owner W) 1).
  assert (H1 : waits s1 = waits s ∧ kinds s1 = kinds s).
  { subst s1. case_decide; [done|]. split; apply add_woken_kinds. }
  destruct H1 as [Hw1 Hk1]. destruct (relock W) as [m|]; [|by apply Hdefer].
  destruct (try_lock_kinds s1 m) as [Hk2 Hw2].
  destruct (try_lock s1 m) as [[|] s2]; cbn [snd] in *; [apply Hdefer|apply Hins]; congruence.
Qed.

Lemma wake_one_frame s p w l W :
  waiters (prim_at s p) = w :: l → waits s !! w = Some W →
  kinds (wake_one s p).2 = kinds s ∧
  ∃ W', waits (wake_one s p).2 = <[w := W']> (waits s) ∧ identity W' = identity W ∧ attended W'.
Proof.
  intros Hl HW. unfold wake_one. rewrite Hl. cbn [snd].
  assert (HW1 : waits (remove s p w) !! w = Some (with_queue W None)).
  { unfold remove. rewrite (wait_at_lookup _ _ _ HW). cbn [set_wait set_prim waits].
    apply list_lookup_insert_eq. by eapply lookup_lt_Some. }
  destruct (grant_frame _ w p _ HW1) as (Hk & W' & Hw & Hid & Ha).
  split; [by rewrite Hk, remove_kinds|]. exists W'. split; [|done]. rewrite Hw.
  unfold remove. cbn [set_wait set_prim waits]. by rewrite list_insert_insert_eq.
Qed.

(** Waits keep what they are, and the attended stay so. *)
Definition kept (s s' : world) : Prop :=
  kinds s' = kinds s ∧ length (waits s') = length (waits s) ∧
  ∀ i W, waits s !! i = Some W → ∃ W', waits s' !! i = Some W' ∧ identity W' = identity W ∧
    (attended W → attended W') ∧ (queue W = None → W' = W).

Lemma kept_refl s : kept s s.
Proof. split; [done|]. split; [done|]. intros i W HW. eauto. Qed.

Lemma kept_trans s s' s'' :
  kept s s' → kept s' s'' → kept s s''.
Proof.
  intros (H1 & H2 & H3) (H4 & H5 & H6). split; [congruence|]. split; [congruence|].
  intros i W HW. destruct (H3 i W HW) as (W1 & HW1 & Hid1 & Ha1 & Hq1).
  destruct (H6 i W1 HW1) as (W2 & HW2 & Hid2 & Ha2 & Hq2). exists W2.
  split; [done|]. split; [congruence|]. split; [auto|]. intros Hq. specialize (Hq1 Hq). subst W1. auto.
Qed.

Lemma kept_prims s s' : kinds s' = kinds s → waits s' = waits s → kept s s'.
Proof. intros Hk Hw. split; [done|]. split; [by rewrite Hw|]. intros i W HW. rewrite Hw. eauto. Qed.

Lemma wake_one_kept b e s p P :
  inv b e s → prims s !! p = Some P → kept s (wake_one s p).2.
Proof.
  intros Hi HP. destruct (waiters P) as [|w l] eqn:El.
  - unfold wake_one. rewrite (prim_at_lookup _ _ _ HP), El. apply kept_refl.
  - pose proof Hi as (H1 & H2 & _). destruct (H1 p P HP) as (_ & _ & _ & _ & A5).
    destruct (proj1 (A5 w)) as (W & HW & Hq); [rewrite El; apply list_elem_of_here|].
    destruct (wake_one_frame s p w l W) as (Hk & W' & Hw & Hid & Ha);
      [by rewrite (prim_at_lookup _ _ _ HP)|done|].
    split; [done|]. rewrite Hw. split; [by rewrite length_insert|]. intros i V HV.
    destruct (decide (i = w)) as [->|Hi'].
    + rewrite list_lookup_insert_eq by (by eapply lookup_lt_Some). exists W'.
      assert (V = W) as -> by congruence. split; [done|]. split; [done|]. split; [done|]. congruence.
    + rewrite list_lookup_insert_ne by done. eauto.
Qed.

(** ** Giving units back *)

Lemma unlock_ok b e s m P :
  inv b e s → prims s !! m = Some P → kind P = Mutex → locked P = true →
  inv (bump b m 1) e (unlock s m) ∧ kept s (unlock s m).
Proof.
  intros Hi HP Hk Hl. pose proof (wake_one_ok b e s m P Hi HP) as H.
  pose proof (wake_one_kept b e s m P Hi HP) as Hkept. unfold unlock.
  destruct (waiters P) as [|w l] eqn:Ew.
  - rewrite H in *. rewrite (prim_at_lookup _ _ _ HP). split.
    + pose proof Hi as (H1 & _). destruct (H1 m P HP) as (A1 & _).
      eapply inv_set_prim; try done.
      * intros Hh. unfold avail, bump. cbn [kind locked with_locked]. rewrite Hk, Hl.
        rewrite decide_True by done. split; [lia|]. split; [lia|done].
      * intros; cbn; lia.
      * intros q Hq. unfold bump. rewrite decide_False by done. lia.
    + apply kept_prims; [|done]. apply kinds_set_prim. by rewrite (prim_at_lookup _ _ _ HP).
  - destruct H as (s' & E & Hi'). rewrite E in *. split; [|done].
    rewrite one_true in Hi' by (by left). done.
Qed.

Lemma release_one_ok b e s p P :
  inv b e s → prims s !! p = Some P → kind P = Semaphore →
  inv (bump b p 1) e (release_one s p) ∧ kept s (release_one s p).
Proof.
  intros Hi HP Hk. pose proof (wake_one_ok b e s p P Hi HP) as H.
  pose proof (wake_one_kept b e s p P Hi HP) as Hkept. unfold release_one.
  destruct (waiters P) as [|w l] eqn:Ew.
  - rewrite H in *. rewrite (prim_at_lookup _ _ _ HP). split.
    + pose proof Hi as (H1 & _). destruct (H1 p P HP) as (A1 & _).
      eapply inv_set_prim; try done.
      * intros Hh. specialize (A1 Hh). unfold avail, bump in *. cbn [kind count with_count].
        rewrite Hk in *. rewrite decide_True by done. split; [lia|]. split; [lia|done].
      * intros; cbn; lia.
      * intros q Hq. unfold bump. rewrite decide_False by done. lia.
    + apply kept_prims; [|done]. apply kinds_set_prim. by rewrite (prim_at_lookup _ _ _ HP).
  - destruct H as (s' & E & Hi'). rewrite E in *. split; [|done].
    rewrite one_true in Hi' by (by right). done.
Qed.

Lemma release_ok b e s p n :
  inv b e s → kinds s !! p = Some Semaphore →
  inv (bump b p (Z.of_nat n)) e (release s p n) ∧ kept s (release s p n).
Proof.
  intros Hi HK. induction n as [|n IH].
  - split; [|apply kept_refl]. eapply inv_ext; [..|exact Hi]; [|done].
    intros x. unfold bump. case_decide; lia.
  - destruct IH as [Hi' Hk']. change (release s p (S n)) with (release_one (release s p n) p).
    rewrite <- (proj1 Hk') in HK. apply kinds_lookup in HK as (P & HP & HPk).
    destruct (release_one_ok _ _ _ _ _ Hi' HP HPk) as [H1 H2]. split; [|by eapply kept_trans].
    eapply inv_ext; [..|exact H1]; [|done]. intros x. unfold bump. case_decide; lia.
Qed.

(** Waking what waits on a primitive without units. *)
Lemma notify_ok b e s p P :
  inv b e s → prims s !! p = Some P → ¬ has_units P →
  inv b e (wake_one s p).2 ∧ kept s (wake_one s p).2.
Proof.
  intros Hi HP Hu. split; [|by eapply wake_one_kept].
  pose proof (wake_one_ok b e s p P Hi HP) as H. destruct (waiters P).
  - by rewrite H.
  - destruct H as (s' & -> & Hi'). rewrite one_false in Hi' by done.
    eapply inv_ext; [..|exact Hi']; [|done]. intros x. unfold bump. case_decide; lia.
Qed.

Lemma filter_head (w : nat) l : NoDup (w :: l) → filter (λ x, x ≠ w) (w :: l) = l.
Proof.
  intros [Hw _]%NoDup_cons. rewrite filter_cons, decide_False by naive_solver.
  induction l as [|x l IH]; [done|]. apply not_elem_of_cons in Hw as [Hx Hw].
  rewrite filter_cons, decide_True by done. by rewrite IH.
Qed.

Lemma wake_one_waiters b e s p P w l :
  inv b e s → prims s !! p = Some P → ¬ has_units P → waiters P = w :: l →
  ∃ P', prims (wake_one s p).2 !! p = Some P' ∧ kind P' = kind P ∧ waiters P' = l ∧
    signaled P' = signaled P.
Proof.
  intros Hi HP Hu Hl. pose proof Hi as (H1 & H2 & _). destruct (H1 p P HP) as (_ & _ & _ & A4 & A5).
  destruct (proj1 (A5 w)) as (W & HW & Hq); [rewrite Hl; apply list_elem_of_here|].
  pose proof (H2 w W HW) as ((O & HO & HOk) & B2 & B3 & _ & _).
  destruct (B3 p Hq) as ([->|C1] & _).
  2: { rewrite C1 in B2. destruct B2 as (_ & M & HM & HMk). destruct Hu. left. congruence. }
  assert (O = P) as -> by congruence.
  destruct (remove_ok b e s _ P w W Hi HP HW Hq) as (_ & HrW & Hrp).
  assert (Hf : filter (λ x, x ≠ w) (waiters P) = l) by (rewrite Hl in *; by apply filter_head).
  rewrite Hf in Hrp.
  unfold wake_one. rewrite (prim_at_lookup _ _ _ HP), Hl. cbn [snd]. unfold grant.
  rewrite (wait_at_lookup _ _ _ HrW). cbn [owner owner_kind relock with_queue]. rewrite Nat.eqb_refl.
  set (s1 := remove s (owner W) w) in *.
  assert (HP1 : prims s1 !! owner W = Some (with_waiters P l))
    by (rewrite Hrp; apply list_lookup_insert_eq; by eapply lookup_lt_Some).
  set (s2 := if decide (owner_kind W = Event) then s1 else add_woken s1 (owner W) 1).
  assert (HP2 : ∃ P2, prims s2 !! owner W = Some P2 ∧ kind P2 = kind P ∧ waiters P2 = l
                  ∧ signaled P2 = signaled P).
  { subst s2. case_decide; [eauto|]. unfold add_woken. rewrite (prim_at_lookup _ _ _ HP1).
    eexists. split; [apply list_lookup_insert_eq; by eapply lookup_lt_Some|done]. }
  destruct (relock W) as [m|] eqn:Er; [|exact HP2].
  destruct B2 as (Bk & M & HM & HMk). assert (Hm : m ≠ owner W) by congruence.
  destruct HP2 as (P2 & HP2 & HP2').
  unfold try_lock. case_if; unfold insert, defer_resume; cbn [prims set_wait set_prim];
    rewrite list_lookup_insert_ne by done; eauto.
Qed.

Lemma wake_all_from_ok fuel b e s p P :
  inv b e s → prims s !! p = Some P → ¬ has_units P → length (waiters P) = fuel →
  inv b e (wake_all_from fuel s p) ∧ kept s (wake_all_from fuel s p) ∧
  ∃ P', prims (wake_all_from fuel s p) !! p = Some P' ∧ waiters P' = [] ∧ signaled P' = signaled P.
Proof.
  revert s P. induction fuel as [|fuel IH]; intros s P Hi HP Hu Hl; cbn [wake_all_from].
  - split; [done|]. split; [apply kept_refl|]. exists P. by apply length_zero_iff_nil in Hl.
  - destruct (waiters P) as [|w l] eqn:Ew; [done|]. simpl in Hl.
    pose proof (wake_one_ok b e s p P Hi HP) as H. rewrite Ew in H. destruct H as (s' & E & _).
    destruct (notify_ok b e s p P Hi HP Hu) as [Hi' Hk'].
    destruct (wake_one_waiters b e s p P w l Hi HP Hu Ew) as (P' & HP' & Hk & Hw & Hs).
    rewrite E in *. cbn [snd] in *.
    destruct (IH s' P' Hi' HP') as (I1 & I2 & P2 & I3 & I4 & I5); [unfold has_units in *; by rewrite Hk|congruence|].
    split; [done|]. split; [by eapply kept_trans|]. exists P2. split; [done|]. split; [done|]. congruence.
Qed.

(** ** Ending waits *)

(** Ending a granted wait. *)
Lemma end_granted_ok b e s w rest W o :
  inv b e s → deferred s = w :: rest → waits s !! w = Some W →
  let W' := with_ended (with_granted W false) o in
  inv (λ x, b x + units x W' - units x W) (λ x, e x + woken_by x W)
    (set_wait (mkWorld (prims s) (waits s) rest) w W').
Proof.
  intros (H1 & H2 & H3 & H4) Hd HW W'. rewrite Hd in H3. apply NoDup_cons in H3 as [Hnin Hnd].
  assert (Hg : granted W = true).
  { destruct (proj1 (H4 w)) as (V & HV & ?); [rewrite Hd; apply list_elem_of_here|]. congruence. }
  destruct (H2 w W HW) as (B1 & B2 & B3 & B4 & B5).
  assert (Hq : queue W = None).
  { destruct (queue W) as [q|] eqn:E; [|done]. destruct (B3 q eq_refl) as (_ & ? & _). congruence. }
  assert (Hw0 : ∀ x, woken_by x W' = 0) by (intros; apply woken_by_none; auto).
  assert (Hlt : (w < length (waits s))%nat) by (by eapply lookup_lt_Some).
  split; [|split; [|split]]; cbn [prims waits deferred set_wait].
  - intros p P HP. destruct (H1 p P HP) as (A1 & A2 & A3 & A4 & A5). unfold prim_ok.
    rewrite !(total_insert _ _ w W W' HW), Hw0.
    split; [intros Hh; specialize (A1 Hh); split_and!; [lia|lia|apply A1]|]. split; [done|].
    split; [intros HE; specialize (A3 HE); lia|]. split; [done|].
    intros i. rewrite A5. destruct (decide (i = w)) as [->|Hi].
    + rewrite list_lookup_insert_eq, HW by done. split; intros (V & [= <-] & HV); cbn in *; congruence.
    + by rewrite list_lookup_insert_ne.
  - intros i V HV. destruct (decide (i = w)) as [->|Hi].
    + rewrite list_lookup_insert_eq in HV by done. simplify_eq.
      split; [done|]. split; [done|]. split; [cbn; intros q Hq'; congruence|]. split; [done|]. cbn. congruence.
    + rewrite list_lookup_insert_ne in HV by done. eauto.
  - done.
  - intros i. destruct (decide (i = w)) as [->|Hi].
    + rewrite list_lookup_insert_eq by done. split; [done|]. intros (V & [= <-] & ?). done.
    + rewrite list_lookup_insert_ne by done. rewrite <- H4, Hd, elem_of_cons. naive_solver.
Qed.

Lemma resume_ok b s : inv b (λ _, 0) s → inv b (λ _, 0) (resume s).
Proof.
  intros Hi. unfold resume. destruct (deferred s) as [|w rest] eqn:Ed; [done|].
  pose proof Hi as (H1 & H2 & H3 & H4).
  destruct (proj1 (H4 w)) as (W & HW & Hg); [rewrite Ed; apply list_elem_of_here|].
  rewrite (wait_at_lookup _ w W) by done. destruct (H2 w W HW) as ((P & HP & HPk) & B2 & _ & B4 & _).
  destruct (B4 Hg) as [Hend _]. cbn [cancel_requested with_granted owner owner_kind].
  destruct (cancel_requested W) eqn:Ec.
  - eapply inv_ext; [..|exact (end_granted_ok b _ s w rest W Cancelled Hi Ed HW)].
    + intros x. count_units.
    + intros x. cbn beta. count_units.
  - pose proof (end_granted_ok b _ s w rest W Resumed Hi Ed HW) as Hr.
    case_decide as HE.
    + eapply inv_ext; [..|exact Hr].
      * intros x. count_units.
      * intros x. cbn beta. count_units.
    + (* The count of the woken goes down with the wait. *)
      set (s1 := mkWorld (prims s) (waits s) rest).
      assert (Hcomm : set_wait (add_woken s1 (owner W) (-1)) w (with_ended (with_granted W false) Resumed)
                      = add_woken (set_wait s1 w (with_ended (with_granted W false) Resumed)) (owner W) (-1))
        by reflexivity.
      rewrite Hcomm. destruct (add_woken_ok _ _ _ (owner W) P (-1) Hr HP) as [Ha _].
      eapply inv_ext; [..|exact Ha].
      * intros x. count_units.
      * intros x. cbn beta. count_units.
Qed.

Lemma total_le f g ws : (∀ W, f W ≤ g W) → total f ws ≤ total g ws.
Proof. intros H. induction ws as [|W ws IH]; simpl; [lia|]. specialize (H W). lia. Qed.

Lemma total_lt f g ws w W :
  (∀ W, f W ≤ g W) → ws !! w = Some W → f W + 1 ≤ g W → total f ws + 1 ≤ total g ws.
Proof.
  intros H. revert w. induction ws as [|V ws IH]; intros [|w] HW Hlt; simpl in *; try done.
  - simplify_eq. pose proof (total_le f g ws H). lia.
  - specialize (IH w HW Hlt). specialize (H V). lia.
Qed.

(** The units of [p] the waits that ended took. *)
Definition taken (p : nat) (W : wait_node) : Z :=
  one (owner W = p ∧ (owner_kind W = Mutex ∨ owner_kind W = Semaphore) ∧ ended W = Some Resumed) +
  one (relock W = Some p ∧ ended W ≠ None).

Lemma taken_le p W : taken p W ≤ units p W.
Proof. unfold taken. count_units. Qed.

Lemma identity_inv W W' :
  identity W' = identity W →
  owner W' = owner W ∧ owner_kind W' = owner_kind W ∧ relock W' = relock W ∧ loop W' = loop W ∧
  cancel_requested W' = cancel_requested W ∧ ended W' = ended W.
Proof. unfold identity. intros H. by simplify_eq. Qed.

Lemma taken_identity p W W' : identity W' = identity W → taken p W' = taken p W.
Proof.
  intros (E1 & E2 & E3 & _ & _ & E6)%identity_inv. unfold taken. by rewrite E1, E2, E3, E6.
Qed.

(** At most one task holds a mutex: no more was given back than taken. *)
Definition exclusive (b : nat → Z) (s : world) : Prop :=
  ∀ m, kinds s !! m = Some Mutex → b m ≤ 1 + total (taken m) (waits s).

Definition at_rest (s : world) : Prop :=
  ∀ w W, waits s !! w = Some W → ended W = None → loop W = true → attended W.

Definition sync_inv (b : nat → Z) (s : world) : Prop :=
  inv b (λ _, 0) s ∧ at_rest s ∧ exclusive b s.

Lemma total_kept f ws ws' :
  length ws' = length ws →
  (∀ i W, ws !! i = Some W → ∃ W', ws' !! i = Some W' ∧ f W' = f W) → total f ws' = total f ws.
Proof.
  revert ws'. induction ws as [|W ws IH]; intros [|W' ws'] Hl H; try done.
  simpl. destruct (H 0%nat W eq_refl) as (V & [= <-] & ->). f_equal.
  apply IH; [simpl in Hl; lia|]. intros i V HV. apply (H (S i) V HV).
Qed.

Lemma kept_rest s s' : kept s s' → at_rest s → at_rest s'.
Proof.
  intros (_ & Hl & H) Hr w W' HW' He Hloop.
  destruct (lookup_lt_is_Some_2 (waits s) w) as [W HW]; [rewrite <- Hl; by eapply lookup_lt_Some|].
  destruct (H w W HW) as (V & HV & Hid & Ha & _). assert (V = W') as -> by congruence.
  apply identity_inv in Hid as (_ & _ & _ & E4 & _ & E6). apply Ha. eapply Hr; eauto; congruence.
Qed.

Lemma kept_exclusive b s s' : kept s s' → exclusive b s → exclusive b s'.
Proof.
  intros (Hk & Hl & H) He m Hm. rewrite Hk in Hm. rewrite (total_kept _ (waits s)); [by apply He|done|].
  intros i W HW. destruct (H i W HW) as (W' & HW' & Hid & _). exists W'. split; [done|].
  by apply taken_identity.
Qed.

Lemma kept_inv b s s' : inv b (λ _, 0) s' → kept s s' → sync_inv b s → sync_inv b s'.
Proof.
  intros Hi Hk (_ & Hr & He). split; [done|]. split; [by eapply kept_rest|by eapply kept_exclusive].
Qed.

(** A mutex a wait has been granted is locked. *)
Lemma granted_locked b s w W m M :
  sync_inv b s → waits s !! w = Some W → prims s !! m = Some M → kind M = Mutex →
  taken m W + 1 ≤ units m W → locked M = true.
Proof.
  intros (Hi & _ & He) HW HM Hk Hu. pose proof Hi as (H1 & _).
  destruct (H1 m M HM) as (A1 & _). destruct (A1 (or_introl Hk)) as (A & Hpos & _).
  pose proof (total_lt (taken m) (units m) (waits s) w W (taken_le m) HW Hu).
  specialize (He m (proj2 (kinds_lookup s m Mutex) (ex_intro _ M (conj HM Hk)))).
  unfold avail in *. rewrite Hk in *. destruct (locked M); [done|lia].
Qed.

Lemma units_floating x W : granted W = false → ended W = None → units x W = 0.
Proof. intros Hg He. unfold units. rewrite !one_false; [done|..]; rewrite Hg, He; naive_solver. Qed.

Lemma units_cancelled x W :
  granted W = false → units x (with_ended W Cancelled) = one (relock W = Some x).
Proof. intros Hg. count_units. Qed.

Lemma taken_none x W : ended W = None → taken x W = 0.
Proof. intros He. unfold taken. rewrite !one_false; [done|..]; rewrite He; naive_solver. Qed.

Lemma taken_nonneg x W : 0 ≤ taken x W.
Proof. unfold taken, one. repeat case_decide; lia. Qed.

(** One wait changes and takes no less. *)
Lemma exclusive_set b s s' w W W' :
  exclusive b s → waits s !! w = Some W → waits s' = <[w := W']> (waits s) → kinds s' = kinds s →
  (∀ m, taken m W ≤ taken m W') → exclusive b s'.
Proof.
  intros He HW Hw Hk Ht m Hm. rewrite Hk in Hm. specialize (He m Hm). specialize (Ht m).
  rewrite Hw, (total_insert _ _ _ _ _ HW). lia.
Qed.

Lemma insert_waits s p w W :
  waits s !! w = Some W → waits (insert s p w) = <[w := with_queue W (Some p)]> (waits s).
Proof. intros HW. unfold insert. by rewrite (wait_at_lookup _ _ _ HW). Qed.

Lemma remove_waits s p w W :
  waits s !! w = Some W → waits (remove s p w) = <[w := with_queue W None]> (waits s).
Proof. intros HW. unfold remove. by rewrite (wait_at_lookup _ _ _ HW). Qed.

Definition at_rest_but (w : nat) (s : world) : Prop :=
  ∀ i W, i ≠ w → waits s !! i = Some W → ended W = None → loop W = true → attended W.

Lemma rest_set s s' w W' :
  at_rest_but w s → waits s' = <[w := W']> (waits s) →
  (ended W' = None → loop W' = true → attended W') → at_rest s'.
Proof.
  intros Hr Hw Ha i V HV He Hl. rewrite Hw in HV. destruct (decide (i = w)) as [->|Hi].
  - assert (Hlt : (w < length (waits s))%nat)
      by (apply lookup_lt_Some in HV; by rewrite length_insert in HV).
    rewrite list_lookup_insert_eq in HV by done. simplify_eq. auto.
  - rewrite list_lookup_insert_ne in HV by done. eauto.
Qed.

Lemma end_cancelled_ok b s w W :
  inv b (λ _, 0) s → at_rest_but w s → exclusive b s → waits s !! w = Some W →
  queue W = None → granted W = false → ended W = None → cancel_requested W = true →
  sync_inv b (end_cancelled s w).
Proof.
  intros Hi Hr He HW Hq Hg Hend Hc. unfold end_cancelled. rewrite (wait_at_lookup _ _ _ HW).
  pose proof Hi as (_ & H2 & _). pose proof (H2 w W HW) as ((P & HP & HPk) & B2 & B3 & B4 & B5).
  assert (Hfin : ∀ s1 b1, inv b1 (λ _, 0) s1 → waits s1 = waits s → kinds s1 = kinds s →
    (∀ x, b x = b1 x + one (relock W = Some x)) →
    sync_inv b (set_wait s1 w (with_ended (wait_at s1 w) Cancelled))).
  { intros s1 b1 Hi1 Hw1 Hk1 Hb. assert (HW1 : waits s1 !! w = Some W) by congruence.
    rewrite (wait_at_lookup _ _ _ HW1). split; [|split].
    - eapply (inv_set_wait b1 (λ _, 0)); eauto.
      + pose proof Hi1 as (_ & H2' & _). destruct (H2' w W HW1) as (C1 & C2 & C3 & C4 & C5).
        split; [done|]. split; [done|]. split; [cbn; intros; congruence|]. split; [cbn; congruence|].
        cbn. congruence.
      + intros x. rewrite (units_floating x W), units_cancelled, Hb by done. lia.
      + intros x. rewrite !woken_by_none by auto. lia.
    - eapply (rest_set s); [done|cbn; by rewrite Hw1|done].
    - eapply (exclusive_set b s); eauto; [cbn; by rewrite Hw1|].
      intros m. rewrite taken_none by done. apply taken_nonneg. }
  destruct (relock W) as [m|] eqn:Er.
  - destruct B2 as (Bk & M & HM & HMk).
    destruct (try_lock_ok b _ s m M Hi HM HMk) as [[El ->]|(El & s1 & Et & Hi1 & Hp1 & Hw1 & _)].
    + cbn [negb]. rewrite (wait_at_lookup _ _ _ HW). destruct (loop W) eqn:Eloop.
      * split; [|split].
        -- eapply inv_ext; [..|eapply (insert_ok _ _ s m M w W); eauto].
           ++ done.
           ++ intros x. cbn beta. unfold woken_by. rewrite one_false; [lia|]. cbn. intros (_ & _ & ? & _). congruence.
           ++ intros _. unfold avail. by rewrite HMk, El.
           ++ congruence.
        -- apply (rest_set s _ w (with_queue W (Some m))); [done|by apply insert_waits|].
           intros _ _. by left.
        -- apply (exclusive_set b s _ w W (with_queue W (Some m)));
             [done|done|by apply insert_waits|apply insert_kinds|].
           intros x. rewrite taken_none by done. apply taken_nonneg.
      * split; [done|]. split; [|done]. intros i V HV HVe HVl. destruct (decide (i = w)) as [->|Hiw].
        -- assert (V = W) as -> by congruence. congruence.
        -- by eapply Hr.
    + rewrite Et. cbn [negb]. eapply (Hfin s1); eauto.
      * pose proof (try_lock_kinds s m) as [Hk _]. by rewrite Et in Hk.
      * intros x. unfold bump, one. repeat case_decide; simplify_eq; lia.
  - pose proof (Hfin s b Hi eq_refl eq_refl) as HF. rewrite (wait_at_lookup _ _ _ HW) in HF.
    apply HF. intros x. rewrite one_false by done. lia.
Qed.

(** What a wait granted gives back as it is cancelled. *)
Lemma give_back_ok b s w W :
  sync_inv b s → waits s !! w = Some W → ended W = None → cancel_requested W = false →
  queue W ≠ Some (owner W) → loop W = true →
  sync_inv b (give_back (set_wait s w (with_cancel W)) w).
Proof.
  intros Hs HW Hend Hc Hqo Hloop. pose proof Hs as (Hi & Hr & He).
  pose proof Hi as (H1 & H2 & _). pose proof (H2 w W HW) as ((P & HP & HPk) & B2 & B3 & B4 & B5).
  pose proof (Hr w W HW Hend Hloop) as Hatt.
  set (s1 := set_wait s w (with_cancel W)). set (p := owner W) in *.
  assert (HW1 : waits s1 !! w = Some (with_cancel W))
    by (apply list_lookup_insert_eq; by eapply lookup_lt_Some).
  assert (Hok1 : wait_ok (prims s) (with_cancel W)).
  { split; [by exists P|]. split; [done|]. split; [done|]. split; [done|]. cbn. intros. done. }
  (* A cancelled wait has no unit of its owner and is no longer counted. *)
  assert (Hi1 : inv (bump b p (- one (owner_kind W = Mutex ∨ owner_kind W = Semaphore)))
                  (bump (λ _, 0) p (one (owner_kind W ≠ Event))) s1).
  { eapply (inv_set_wait b (λ _, 0)); eauto.
    - intros x. destruct (relock W) as [m|] eqn:Er.
      + destruct B2 as [Bk _]. count_units.
      + assert (Hg : granted W = true).
        { destruct Hatt as [Hq|]; [|done]. destruct (queue W) as [q|] eqn:Eq; [|done].
          destruct (B3 q eq_refl) as ([->|] & _); done. }
        subst p. count_units.
    - intros x. subst p. unfold attended in Hatt. count_units. }
  assert (Hr1 : at_rest s1).
  { eapply (rest_set s); [intros i V _; apply Hr|done|]. intros _ _. exact Hatt. }
  assert (Hex1 : exclusive b s1).
  { eapply (exclusive_set b s); eauto. intros m. unfold taken. cbn. lia. }
  unfold give_back. rewrite (wait_at_lookup _ _ _ HW1). cbn [owner owner_kind with_cancel]. fold p.
  assert (HP1 : prims s1 !! p = Some P) by done.
  destruct (add_woken_ok _ _ s1 p P (-1) Hi1 HP1) as [Hi2 Hp2].
  destruct (add_woken_kinds s1 p (-1)) as [Hk2 Hw2]. set (s2 := add_woken s1 p (-1)) in *.
  assert (HP2 : prims s2 !! p = Some (with_woken P (woken P + -1)))
    by (rewrite Hp2; apply list_lookup_insert_eq; by eapply lookup_lt_Some).
  assert (Hkept2 : kept s1 s2) by (by apply kept_prims).
  assert (Hfinish : ∀ s3, inv b (λ _, 0) s3 → kept s2 s3 → sync_inv b s3).
  { intros s3 Hi3 Hk3. split; [done|]. assert (Hk : kept s1 s3) by (by eapply kept_trans).
    split; [by eapply kept_rest|by eapply kept_exclusive]. }
  destruct (owner_kind W) eqn:Ek.
  - assert (Hl : locked P = true).
    { eapply (granted_locked b s w W p P); eauto.
      destruct (relock W) as [m|] eqn:Er; [by destruct B2|].
      assert (Hg : granted W = true).
      { destruct Hatt as [Hq|]; [|done]. destruct (queue W) as [q|] eqn:Eq; [|done].
        destruct (B3 q eq_refl) as ([->|] & _); done. }
      unfold taken. subst p. count_units. }
    destruct (unlock_ok _ _ s2 p _ Hi2 HP2) as [Hi3 Hk3]; [done|done|].
    apply Hfinish; [|done]. eapply inv_ext; [..|exact Hi3]; intros x; unfold bump, one;
      repeat case_decide; try lia; exfalso; naive_solver.
  - destruct (release_one_ok _ _ s2 p _ Hi2 HP2) as [Hi3 Hk3]; [done|].
    apply Hfinish; [|done]. eapply inv_ext; [..|exact Hi3]; intros x; unfold bump, one;
      repeat case_decide; try lia; exfalso; naive_solver.
  - split; [|done]. eapply inv_ext; [..|exact Hi1]; intros x; unfold bump, one;
      repeat case_decide; try lia; exfalso; naive_solver.
  - destruct (notify_ok _ _ s2 p _ Hi2 HP2) as [Hi3 Hk3]; [intros [?|?]; cbn in *; congruence|].
    apply Hfinish; [|done]. eapply inv_ext; [..|exact Hi3]; intros x; unfold bump, one;
      repeat case_decide; try lia; exfalso; naive_solver.
Qed.

Lemma cancel_ok b s w : sync_inv b s → (w < length (waits s))%nat → sync_inv b (cancel s w).
Proof.
  intros Hs Hlt. destruct (lookup_lt_is_Some_2 _ _ Hlt) as [W HW].
  unfold cancel. rewrite (wait_at_lookup _ _ _ HW). case_bool_decide as Hend; [done|]. cbn [orb].
  destruct (cancel_requested W) eqn:Hc; [done|].
  assert (He : ended W = None) by (destruct (ended W); [by destruct Hend|done]). clear Hend.
  pose proof Hs as (Hi & Hr & Hex). pose proof Hi as (H1 & H2 & _).
  pose proof (H2 w W HW) as ((P & HP & HPk) & B2 & B3 & B4 & B5).
  unfold cancel_wait. set (s1 := set_wait s w (with_cancel W)).
  assert (HW1 : waits s1 !! w = Some (with_cancel W)) by (by apply list_lookup_insert_eq).
  rewrite (wait_at_lookup _ _ _ HW1). cbn [queue owner loop with_cancel].
  case_bool_decide as Hq.
  - destruct (B3 _ Hq) as (_ & Hg & _ & Hloop).
    destruct (remove_ok b _ s (owner W) P w W Hi HP HW Hq) as (Hr2 & HW2 & Hp2).
    pose proof (remove_waits s (owner W) w W HW) as Hw2.
    assert (E : remove s1 (owner W) w
                = set_wait (remove s (owner W) w) w (with_cancel (with_queue W None))).
    { unfold remove. rewrite (wait_at_lookup _ _ _ HW1), (wait_at_lookup _ _ _ HW).
      unfold s1, set_wait, set_prim, prim_at. cbn [prims waits deferred].
      by rewrite !list_insert_insert_eq. }
    rewrite E. set (s2 := remove s (owner W) w) in *.
    assert (HW3 : waits (set_wait s2 w (with_cancel (with_queue W None))) !! w
                  = Some (with_cancel (with_queue W None)))
      by (apply list_lookup_insert_eq; by eapply lookup_lt_Some).
    eapply end_cancelled_ok; eauto.
    + eapply (inv_set_wait b (λ x, 0 + woken_by x W)); eauto.
      * pose proof Hr2 as (_ & H2' & _). destruct (H2' w _ HW2) as (C1 & C2 & C3 & C4 & C5).
        split; [done|]. split; [done|]. split; [done|]. split; [done|]. cbn. done.
      * intros x. rewrite !units_floating by done. lia.
      * intros x. rewrite (woken_by_none x W), !woken_by_none by auto. lia.
    + intros i V Hiw HV HVe HVl. cbn [set_wait waits] in HV. rewrite Hw2 in HV.
      rewrite !list_lookup_insert_ne in HV by done. by eapply Hr.
    + eapply (exclusive_set b s _ w W (with_cancel (with_queue W None))); eauto.
      * cbn [set_wait waits]. by rewrite Hw2, list_insert_insert_eq.
      * change (kinds (set_wait s2 w _)) with (kinds s2). apply remove_kinds.
      * intros m. rewrite taken_none by done. apply taken_nonneg.
  - destruct (loop W) eqn:Eloop.
    + by apply give_back_ok.
    + (* Abandoned. *)
      assert (Hfl : queue W = None ∧ granted W = false).
      { split.
        - destruct (queue W) as [q|] eqn:Eq; [|done]. by destruct (B3 q eq_refl) as (_ & _ & _ & ?).
        - destruct (granted W); [|done]. by destruct (B4 eq_refl). }
      destruct Hfl as [Hq0 Hg0]. eapply end_cancelled_ok; eauto.
      * eapply (inv_set_wait b (λ _, 0)); eauto.
        -- split; [by exists P|]. split; [done|]. split; [cbn; congruence|]. split; [cbn; congruence|].
           cbn. congruence.
        -- intros x. rewrite !units_floating by done. lia.
        -- intros x. rewrite !woken_by_none by auto. lia.
      * intros i V Hiw HV HVe HVl. cbn [set_wait waits s1] in HV.
        rewrite list_lookup_insert_ne in HV by done. by eapply Hr.
      * eapply (exclusive_set b s _ w W (with_cancel W)); eauto.
        intros m. rewrite taken_none by done. apply taken_nonneg.
Qed.

(** A wait taken off its queue is no longer counted as woken. *)
Lemma abandon_net W q x :
  queue W = Some q → granted W = false → (q = owner W ∨ owner_kind W = ConditionVariable) →
  bump (λ _, 0) (owner W)
    (if negb (bool_decide (Some q = Some (owner W))) && negb (cancel_requested W) then -1 else 0) x
  + woken_by x W = 0.
Proof.
  intros Hq Hg Ho. unfold bump. destruct (decide (q = owner W)) as [->|Hne].
  - rewrite bool_decide_eq_true_2, (woken_by_none x W) by auto. cbn [negb andb]. case_decide; lia.
  - rewrite bool_decide_eq_false_2 by congruence. cbn [negb andb]. unfold woken_by.
    destruct (cancel_requested W); cbn [negb].
    + rewrite one_false by (intros (_ & _ & ? & _); done). case_decide; lia.
    + destruct Ho as [?|Hk]; [done|]. rewrite Hq. case_decide as Hx.
      * subst x. rewrite one_true; [lia|]. split; [done|]. split; [congruence|]. split; [done|].
        right. split; congruence.
      * rewrite one_false; [lia|]. intros (? & _). congruence.
Qed.

Lemma abandon_ok b s w : sync_inv b s → (w < length (waits s))%nat → sync_inv b (abandon s w).
Proof.
  intros Hs Hlt. destruct (lookup_lt_is_Some_2 _ _ Hlt) as [W HW].
  unfold abandon. rewrite (wait_at_lookup _ _ _ HW). destruct (queue W) as [q|] eqn:Hq; [|done].
  pose proof Hs as (Hi & Hr & Hex). pose proof Hi as (H1 & H2 & _).
  pose proof (H2 w W HW) as ((P & HP & HPk) & B2 & B3 & B4 & B5).
  destruct (B3 q Hq) as (Hqo & Hg & He & Hloop).
  assert (HQ : ∃ Q, prims s !! q = Some Q).
  { destruct Hqo as [->|Hqr]; [eauto|]. rewrite Hqr in B2. naive_solver. }
  destruct HQ as [Q HQ].
  set (gone := negb (bool_decide (Some q = Some (owner W))) && negb (cancel_requested W)).
  set (s1 := if gone then add_woken s (owner W) (-1) else s).
  assert (Hs1 : inv b (bump (λ _, 0) (owner W) (if gone then -1 else 0)) s1 ∧ waits s1 = waits s ∧
                kinds s1 = kinds s).
  { subst s1. destruct gone.
    - destruct (add_woken_ok b _ s (owner W) P (-1) Hi HP) as [Ha _]. split; [done|].
      destruct (add_woken_kinds s (owner W) (-1)). done.
    - split; [|done]. eapply inv_ext; [..|exact Hi]; [done|]. intros x. unfold bump. case_decide; lia. }
  destruct Hs1 as (Hi1 & Hw1 & Hk1). rewrite <- Hw1 in HW.
  assert (HQ1 : ∃ Q1, prims s1 !! q = Some Q1).
  { destruct (proj1 (kinds_lookup s1 q (kind Q))) as (Q1 & ? & _); [|eauto].
    rewrite Hk1. apply kinds_lookup. eauto. }
  destruct HQ1 as [Q1 HQ1].
  destruct (remove_ok _ _ s1 q Q1 w W Hi1 HQ1 HW Hq) as (Hi2 & HW2 & _).
  pose proof (remove_waits s1 q w W HW) as Hw2.
  rewrite (wait_at_lookup _ _ _ HW2). set (s2 := remove s1 q w) in *.
  assert (Hnet : ∀ x, bump (λ _, 0) (owner W) (if gone then -1 else 0) x + woken_by x W = 0).
  { intros x. apply (abandon_net W q x Hq Hg). destruct Hqo as [->|Hqr]; [by left|].
    rewrite Hqr in B2. right. apply B2. }
  split; [|split].
  - eapply (inv_set_wait b _); eauto.
    + pose proof Hi2 as (_ & H2' & _). destruct (H2' w _ HW2) as (C1 & C2 & C3 & C4 & C5).
      split; [done|]. split; [done|]. split; [done|]. split; [cbn; congruence|]. done.
    + intros x. rewrite !units_floating by done. lia.
    + intros x. cbn beta. rewrite Hnet, !woken_by_none by auto. lia.
  - apply (rest_set s _ w (with_loop (with_queue W None) false));
      [intros i V _; apply Hr|cbn [set_wait waits]; by rewrite Hw2, Hw1, list_insert_insert_eq|done].
  - rewrite Hw1 in HW. apply (exclusive_set b s _ w W (with_loop (with_queue W None) false)); [done|done| | |done].
    + cbn [set_wait waits]. by rewrite Hw2, Hw1, list_insert_insert_eq.
    + change (kinds (set_wait s2 w _)) with (kinds s2). unfold s2. by rewrite remove_kinds.
Qed.

Lemma resume_waits s w rest :
  deferred s = w :: rest →
  ∃ o, waits (resume s) = <[w := with_ended (with_granted (wait_at s w) false) o]> (waits s) ∧
    kinds (resume s) = kinds s.
Proof.
  intros Hd. unfold resume. rewrite Hd. cbn [cancel_requested with_granted].
  change (wait_at (mkWorld (prims s) (waits s) rest) w) with (wait_at s w).
  destruct (cancel_requested (wait_at s w)); [by eexists|]. eexists.
  case_decide; split; try done. apply (kinds_set_prim (mkWorld (prims s) (waits s) rest)). done.
Qed.

Lemma resume_sync_ok b s : sync_inv b s → sync_inv b (resume s).
Proof.
  intros (Hi & Hr & Hex). destruct (deferred s) as [|w rest] eqn:Hd.
  - unfold resume. by rewrite Hd.
  - split; [by apply resume_ok|]. destruct (resume_waits s w rest Hd) as (o & Hw & Hk).
    pose proof Hi as (_ & H2 & _ & H4).
    destruct (proj1 (H4 w)) as (W & HW & Hg); [rewrite Hd; apply list_elem_of_here|].
    rewrite (wait_at_lookup _ _ _ HW) in Hw. destruct (H2 w W HW) as (_ & _ & _ & B4 & _). split.
    + eapply (rest_set s); [intros i V _; apply Hr|exact Hw|done].
    + eapply (exclusive_set b s); eauto. intros m. rewrite taken_none by (by apply B4).
      apply taken_nonneg.
Qed.

(** ** Beginning waits *)

(** [co_await] of a wait on [p], relocking [m] after a condition variable: at
    once when it is ready, else queued, unless the task has been cancelled. *)
Definition await (s : world) (p : nat) (m : option nat) (task_cancelled : bool) : world :=
  let '(ready, s1) := await_ready s p in
  let W := mkWait p (kind (prim_at s p)) m None false false false None in
  if ready then mkWorld (prims s1) (waits s1 ++ [with_ended W Resumed]) (deferred s1)
  else if task_cancelled then s1
  else wait (mkWorld (prims s1) (waits s1 ++ [W]) (deferred s1)) (length (waits s1)).

Definition append_wait (s : world) (W : wait_node) : world :=
  mkWorld (prims s) (waits s ++ [W]) (deferred s).

Lemma append_ok b e s W :
  inv b e s → wait_ok (prims s) W → queue W = None → granted W = false →
  inv (λ x, b x + units x W) e (append_wait s W).
Proof.
  intros (H1 & H2 & H3 & H4) Hok Hq Hg.
  assert (Hlk : ∀ i V, (waits s ++ [W]) !! i = Some V →
    waits s !! i = Some V ∨ (i = length (waits s) ∧ V = W)).
  { intros i V HV. apply lookup_app_Some in HV as [HV|[Hl HV]]; [by left|].
    apply list_lookup_singleton_Some in HV as [Hi ->]. right. split; [lia|done]. }
  assert (Hin : ∀ i V, waits s !! i = Some V → (waits s ++ [W]) !! i = Some V)
    by (intros i V HV; by apply lookup_app_l_Some).
  split; [|split; [|split]]; cbn [prims waits deferred append_wait].
  - intros p P HP. destruct (H1 p P HP) as (A1 & A2 & A3 & A4 & A5). unfold prim_ok.
    rewrite !total_app. cbn [total foldr]. rewrite (woken_by_none p W) by auto.
    split; [intros Hh; specialize (A1 Hh); split_and!; [lia|lia|apply A1]|]. split; [done|].
    split; [intros HE; specialize (A3 HE); lia|]. split; [done|].
    intros i. rewrite A5. split; [intros (V & HV & ?); eauto|].
    intros (V & [HV|[-> ->]]%Hlk & ?); [eauto|congruence].
  - intros i V [HV|[-> ->]]%Hlk; eauto.
  - done.
  - intros i. rewrite H4. split; [intros (V & HV & ?); eauto|].
    intros (V & [HV|[-> ->]]%Hlk & ?); [eauto|congruence].
Qed.

Lemma append_frame b s W :
  at_rest s → exclusive b s → (ended W = None → loop W = true → attended W) →
  at_rest (append_wait s W) ∧ exclusive b (append_wait s W).
Proof.
  intros Hr He Ha. split.
  - intros i V HV. apply lookup_app_Some in HV as [HV|[Hl HV]]; [by eapply Hr|].
    apply list_lookup_singleton_Some in HV as [Hi ->]. done.
  - intros m Hm. specialize (He m Hm). cbn [waits append_wait]. rewrite total_app. cbn [total foldr].
    pose proof (taken_nonneg m W). lia.
Qed.

Lemma await_ready_ok b s p K :
  inv b (λ _, 0) s → kinds s !! p = Some K →
  let '(ready, s1) := await_ready s p in
  waits s1 = waits s ∧ kinds s1 = kinds s ∧
  if ready then K ≠ ConditionVariable ∧
    inv (bump b p (- one (K = Mutex ∨ K = Semaphore))) (λ _, 0) s1
  else s1 = s ∧ ∀ P, prims s !! p = Some P → (has_units P → avail P = 0) ∧
    (kind P = Event → signaled P = false).
Proof.
  intros Hi (P & HP & HPk)%kinds_lookup. unfold await_ready. rewrite (prim_at_lookup _ _ _ HP).
  pose proof Hi as (H1 & _). destruct (H1 p P HP) as (A1 & _).
  destruct (kind P) eqn:Ek; subst K.
  - destruct (try_lock_ok b _ s p P Hi HP Ek) as [[El ->]|(El & s1 & Et & Hi1 & _ & Hw & _)].
    + split; [done|]. split; [done|]. split; [done|]. intros P' HP'. assert (P' = P) as -> by congruence.
      unfold avail. rewrite Ek, El. split; congruence.
    + destruct (try_lock_kinds s p) as [Hk _]. rewrite Et in *. cbn [snd] in Hk.
      split; [done|]. split; [done|]. split; [done|]. rewrite one_true by (by left). exact Hi1.
  - unfold try_acquire. rewrite (prim_at_lookup _ _ _ HP). destruct (count P <=? 0) eqn:Ec; bool_prop.
    + split; [done|]. split; [done|]. split; [done|]. intros P' HP'. assert (P' = P) as -> by congruence.
      split; [|congruence]. intros Hh. specialize (A1 Hh). unfold avail in *. rewrite Ek in *. lia.
    + split; [done|]. split; [apply kinds_set_prim; by rewrite (prim_at_lookup _ _ _ HP)|]. split; [done|].
      specialize (A1 (or_intror Ek)). eapply inv_set_prim; try done.
      * intros _. unfold avail, bump in *. cbn [kind count with_count]. rewrite Ek in *.
        rewrite decide_True, one_true by (done || by right). split; [lia|]. split; [lia|].
        intros Ha. apply A1. lia.
      * congruence.
      * intros; cbn; lia.
      * intros q Hq. unfold bump. rewrite decide_False by done. lia.
  - destruct (signaled P) eqn:Es.
    + split; [done|]. split; [done|]. split; [done|]. rewrite one_false by naive_solver.
      eapply inv_ext; [..|exact Hi]; [|done]. intros x. unfold bump. case_decide; lia.
    + split; [done|]. split; [done|]. split; [done|]. intros P' HP'. assert (P' = P) as -> by congruence.
      split; [intros [?|?]; congruence|done].
  - split; [done|]. split; [done|]. split; [done|]. intros P' HP'. assert (P' = P) as -> by congruence.
    split; [intros [?|?]; congruence|congruence].
Qed.

Lemma kept_rest_but w s s' : kept s s' → at_rest_but w s → at_rest_but w s'.
Proof.
  intros (_ & Hl & H) Hr i W' Hi HW' He Hloop.
  destruct (lookup_lt_is_Some_2 (waits s) i) as [W HW]; [rewrite <- Hl; by eapply lookup_lt_Some|].
  destruct (H i W HW) as (V & HV & Hid & Ha & _). assert (V = W') as -> by congruence.
  apply identity_inv in Hid as (_ & _ & _ & E4 & _ & E6). apply Ha. eapply Hr; eauto; congruence.
Qed.

(** The number of tasks that hold a mutex, as it has been taken and given back. *)
Definition holders (b : nat → Z) (s : world) (m : nat) : Z := 1 + total (taken m) (waits s) - b m.

Lemma held_locked b s m M :
  sync_inv b s → prims s !! m = Some M → kind M = Mutex → 1 ≤ holders b s m → locked M = true.
Proof.
  intros (Hi & _ & _) HM Hk Hh. unfold holders in Hh. pose proof Hi as (H1 & _).
  destruct (H1 m M HM) as (A1 & _). destruct (A1 (or_introl Hk)) as (A & Hpos & _).
  pose proof (total_le (taken m) (units m) (waits s) (taken_le m)).
  unfold avail in *. rewrite Hk in *. destruct (locked M); [done|lia].
Qed.

(** Queueing the wait [await] appended, past what it unlocks. *)
Lemma queue_new_ok b s w W p P :
  inv b (λ _, 0) s → at_rest_but w s → exclusive b s → waits s !! w = Some W →
  owner W = p → queue W = None → granted W = false → ended W = None → loop W = true →
  cancel_requested W = false → prims s !! p = Some P →
  (has_units P → avail P = 0) → (kind P = Event → signaled P = false) →
  sync_inv b (insert s p w).
Proof.
  intros Hi Hr He HW Ho Hq Hg Hend Hloop Hc HP Hu Hev. split; [|split].
  - eapply inv_ext; [..|eapply (insert_ok _ _ s p P w W); eauto].
    + done.
    + intros x. cbn beta. rewrite woken_by_none; [lia|done|]. right. cbn. congruence.
  - apply (rest_set s _ w (with_queue W (Some p))); [done|by apply insert_waits|]. intros _ _. by left.
  - apply (exclusive_set b s _ w W (with_queue W (Some p)));
      [done|done|by apply insert_waits|apply insert_kinds|].
    intros x. rewrite taken_none by done. apply taken_nonneg.
Qed.

Lemma await_ok b s p K (m : option nat) (c : bool) :
  sync_inv b s → kinds s !! p = Some K →
  match m with
  | Some m => K = ConditionVariable ∧ kinds s !! m = Some Mutex ∧ 1 ≤ holders b s m
  | None => K ≠ ConditionVariable
  end →
  sync_inv (match m with Some m => if c then b else bump b m 1 | None => b end) (await s p m c).
Proof.
  intros Hs HK Hm. pose proof Hs as (Hi & Hr & Hex). unfold await.
  pose proof (await_ready_ok b s p K Hi HK) as Har. destruct (await_ready s p) as [ready s1].
  destruct Har as (Hw1 & Hk1 & Har). pose proof HK as (P & HP & HPk)%kinds_lookup.
  rewrite (prim_at_lookup _ _ _ HP), HPk. set (W := mkWait p K m None false false false None).
  assert (Hwok : ∀ W', owner W' = p → owner_kind W' = K → relock W' = m → queue W' = None →
    granted W' = false → wait_ok (prims s1) W').
  { intros W' E1 E2 E3 E4 E5. unfold wait_ok. rewrite E1, E2, E3, E4, E5. split; [|split; [|done]].
    - apply kinds_lookup. by rewrite Hk1.
    - destruct m as [m|]; [|done]. destruct Hm as (-> & Hm & _). split; [done|].
      apply kinds_lookup. by rewrite Hk1. }
  destruct ready.
  - destruct Har as [HKc Hi1]. destruct m as [m|]; [by destruct Hm|].
    change (mkWorld (prims s1) (waits s1 ++ [with_ended W Resumed]) (deferred s1))
      with (append_wait s1 (with_ended W Resumed)).
    destruct (append_frame b s (with_ended W Resumed) Hr Hex) as [Hr' Hex']; [done|].
    split; [|split].
    + eapply inv_ext; [..|eapply (append_ok _ _ s1 (with_ended W Resumed)); eauto].
      * intros x. unfold W. count_units.
      * done.
    + intros i V. cbn [append_wait waits]. rewrite Hw1. apply Hr'.
    + intros x. unfold kinds at 1. cbn [append_wait waits prims]. fold (kinds s1). rewrite Hk1, Hw1.
      apply Hex'.
  - destruct Har as [-> Har]. destruct c; [by destruct m|].
    change (mkWorld (prims s) (waits s ++ [W]) (deferred s)) with (append_wait s W).
    set (w := length (waits s)). unfold wait.
    assert (HWw : waits (append_wait s W) !! w = Some W)
      by (unfold append_wait, w; cbn [waits]; by rewrite lookup_app_r, Nat.sub_diag by lia).
    rewrite (wait_at_lookup _ _ _ HWw). cbn [relock owner W].
    set (W2 := with_loop W true). set (s2 := set_wait (append_wait s W) w W2).
    assert (HW2 : waits s2 !! w = Some W2)
      by (apply list_lookup_insert_eq; by eapply lookup_lt_Some).
    destruct (append_frame b s W Hr Hex) as [Hr' Hex']; [done|].
    assert (Hi2 : inv b (λ _, 0) s2).
    { eapply (inv_set_wait (λ x, b x + units x W) (λ _, 0)); eauto.
      - by apply append_ok; auto.
      - intros x. cbn beta. rewrite !units_floating by done. lia.
      - intros x. rewrite !woken_by_none by auto. lia. }
    assert (Hr2 : at_rest_but w s2).
    { intros i V Hiw HV. cbn [s2 set_wait waits] in HV. rewrite list_lookup_insert_ne in HV by done.
      by apply (Hr' i). }
    assert (Hex2 : exclusive b s2).
    { apply (exclusive_set b (append_wait s W) _ w W W2); done. }
    destruct m as [m|].
    + destruct Hm as (-> & Hm & Hh). pose proof Hm as (M & HM & HMk)%kinds_lookup.
      assert (HM2 : prims s2 !! m = Some M) by done.
      destruct (unlock_ok b _ s2 m M Hi2 HM2 HMk) as [Hi3 Hk3];
        [by apply (held_locked b s m M)|].
      destruct (proj2 (proj2 Hk3) w W2 HW2) as (V & HV & _ & _ & HVeq). specialize (HVeq eq_refl). subst V.
      assert (HP3 : ∃ P3, prims (unlock s2 m) !! p = Some P3 ∧ kind P3 = ConditionVariable).
      { apply kinds_lookup. by rewrite (proj1 Hk3). }
      destruct HP3 as (P3 & HP3 & HPk3).
      eapply (queue_new_ok _ _ w W2 p P3); eauto.
      * by eapply kept_rest_but.
      * eapply kept_exclusive; [done|]. intros x Hx. specialize (Hex2 x Hx). unfold bump.
        case_decide; [subst x|lia]. unfold holders in Hh. cbn [s2 set_wait waits append_wait] in *.
        rewrite (total_insert _ _ _ _ _ HWw) in *. cbn [append_wait waits] in *.
        rewrite total_app in *. cbn [total foldr] in *. rewrite !taken_none in * by done. lia.
      * intros [?|?]; congruence.
      * congruence.
    + destruct (Har P HP) as [Hu Hev]. eapply (queue_new_ok _ _ w W2 p P); eauto.
Qed.

(** ** Events *)

(** Waking a waiter of an event does not depend on whether it is set. *)
Lemma wake_one_signaled b e s p P w l v :
  inv b e s → prims s !! p = Some P → kind P = Event → waiters P = w :: l →
  let s1 := (wake_one s p).2 in
  wake_one (set_prim s p (with_signaled P v)) p
  = (true, set_prim s1 p (with_signaled (prim_at s1 p) v)).
Proof.
  intros Hi HP Hk Hl. pose proof Hi as (H1 & H2 & _). destruct (H1 p P HP) as (_ & _ & _ & _ & A5).
  destruct (proj1 (A5 w)) as (W & HW & Hq); [rewrite Hl; apply list_elem_of_here|].
  pose proof (H2 w W HW) as ((O & HO & HOk) & B2 & B3 & _ & _). destruct (B3 p Hq) as (C1 & _).
  assert (Hlt : (p < length (prims s))%nat) by (by eapply lookup_lt_Some).
  assert (Hwlt : (w < length (waits s))%nat) by (by eapply lookup_lt_Some).
  assert (Ho : owner W = p ∧ owner_kind W = Event ∧ relock W = None).
  { destruct C1 as [->|C1].
    - assert (O = P) as -> by congruence. split; [done|]. split; [congruence|].
      destruct (relock W); [|done]. destruct B2 as [? _]. congruence.
    - rewrite C1 in B2. destruct B2 as (_ & M & HM & HMk). congruence. }
  destruct Ho as (Ho & Hok & Hre).
  assert (Hgo : ∀ P', waiters P' = w :: l → kind P' = Event →
    wake_one (set_prim s p P') p
    = (true, mkWorld (<[p := with_waiters P' (filter (λ x, x ≠ w) (w :: l))]> (prims s))
               (<[w := with_granted (with_queue W None) true]> (waits s)) (deferred s ++ [w]))).
  { intros P' Hl' Hk'. unfold wake_one.
    assert (HP' : prims (set_prim s p P') !! p = Some P') by (by apply list_lookup_insert_eq).
    rewrite (prim_at_lookup _ _ _ HP'), Hl'. f_equal. unfold remove.
    rewrite (prim_at_lookup _ _ _ HP'), Hl'.
    assert (HW' : waits (set_prim s p P') !! w = Some W) by done.
    rewrite (wait_at_lookup _ _ _ HW').
    set (s1 := set_wait _ w (with_queue W None)).
    assert (HW1 : waits s1 !! w = Some (with_queue W None)) by (by apply list_lookup_insert_eq).
    unfold grant. rewrite (wait_at_lookup _ _ _ HW1).
    cbn [owner owner_kind relock with_queue]. rewrite Ho, Hok, Hre, Nat.eqb_refl.
    rewrite decide_True by done. unfold defer_resume. rewrite (wait_at_lookup _ _ _ HW1).
    unfold s1, set_wait, set_prim. cbn [prims waits deferred]. by rewrite !list_insert_insert_eq. }
  assert (Eid : set_prim s p P = s).
  { unfold set_prim. rewrite list_insert_id by done. by destruct s. }
  assert (E1 := Hgo P Hl Hk). rewrite Eid in E1. intros s1. subst s1. rewrite E1. cbn [snd].
  rewrite (Hgo (with_signaled P v)) by done. f_equal.
  unfold set_prim, prim_at. cbn [prims waits deferred].
  rewrite list_lookup_total_alt, list_lookup_insert_eq by done. cbn [default from_option id].
  by rewrite list_insert_insert_eq.
Qed.

Lemma wake_all_signaled fuel b e s p P v :
  inv b e s → prims s !! p = Some P → kind P = Event → length (waiters P) = fuel →
  let s1 := wake_all_from fuel s p in
  wake_all_from fuel (set_prim s p (with_signaled P v)) p
  = set_prim s1 p (with_signaled (prim_at s1 p) v).
Proof.
  assert (Hnu : ∀ Q, kind Q = Event → ¬ has_units Q) by (intros Q HQ [?|?]; congruence).
  revert s P. induction fuel as [|fuel IH]; intros s P Hi HP Hk Hl; cbn [wake_all_from].
  - by rewrite (prim_at_lookup _ _ _ HP).
  - destruct (waiters P) as [|w l] eqn:Ew; [done|]. simpl in Hl.
    pose proof (wake_one_ok b e s p P Hi HP) as H. rewrite Ew in H. destruct H as (s' & E & _).
    destruct (notify_ok b e s p P Hi HP (Hnu P Hk)) as [Hi' _].
    destruct (wake_one_waiters b e s p P w l Hi HP (Hnu P Hk) Ew) as (P' & HP' & Hk' & Hw & _).
    rewrite (wake_one_signaled b e s p P w l v Hi HP Hk Ew). rewrite E in *. cbn [snd] in *.
    rewrite (prim_at_lookup _ _ _ HP'). apply IH; [done|done|congruence|congruence].
Qed.

Lemma set_event_ok b s p :
  sync_inv b s → kinds s !! p = Some Event → sync_inv b (set_event s p).
Proof.
  intros Hs (P & HP & HPk)%kinds_lookup. pose proof Hs as (Hi & _).
  assert (Hnu : ¬ has_units P) by (intros [?|?]; congruence).
  unfold set_event, wake_all. rewrite (prim_at_lookup _ _ _ HP).
  assert (HP' : prims (set_prim s p (with_signaled P true)) !! p = Some (with_signaled P true))
    by (apply list_lookup_insert_eq; by eapply lookup_lt_Some).
  rewrite (prim_at_lookup _ _ _ HP'). cbn [waiters with_signaled].
  rewrite (wake_all_signaled _ b _ s p P true Hi HP HPk) by done.
  destruct (wake_all_from_ok (length (waiters P)) b _ s p P Hi HP Hnu) as (Hi1 & Hk1 & P1 & HP1 & Hw1 & _);
    [done|]. set (s1 := wake_all_from _ s p) in *. rewrite (prim_at_lookup _ _ _ HP1).
  assert (Hk1' : kind P1 = Event).
  { pose proof (proj2 (kinds_lookup s p Event) (ex_intro _ P (conj HP HPk))) as HK.
    rewrite <- (proj1 Hk1) in HK. apply kinds_lookup in HK as (Q & HQ & ?). congruence. }
  assert (Hkept : kept s (set_prim s1 p (with_signaled P1 true))).
  { eapply kept_trans; [done|]. apply kept_prims; [|done]. apply kinds_set_prim.
    by rewrite (prim_at_lookup _ _ _ HP1). }
  eapply kept_inv; [|exact Hkept|exact Hs].
  eapply inv_set_prim; try done; intros; cbn; try lia.
  all: try (by destruct H; congruence).
Qed.

Lemma reset_event_ok b s p :
  sync_inv b s → kinds s !! p = Some Event → sync_inv b (reset_event s p).
Proof.
  intros Hs (P & HP & HPk)%kinds_lookup. pose proof Hs as (Hi & _).
  unfold reset_event. rewrite (prim_at_lookup _ _ _ HP).
  apply (kept_inv b s); [|apply kept_prims; [|done]|exact Hs].
  - eapply inv_set_prim; try done; intros; cbn; try lia.
    all: try (by destruct H; congruence).
  - apply kinds_set_prim. by rewrite (prim_at_lookup _ _ _ HP).
Qed.

(** ** Programs *)

(** What tasks and the event loop may do.  [task_cancelled] says whether the
    task that waits has been cancelled already. *)
Inductive sync_op :=
| Await (p : nat) (m : option nat) (task_cancelled : bool)
| TryLock (m : nat)
| TryAcquire (p : nat)
| Unlock (m : nat)
| Release (p n : nat)
| SetEvent (p : nat)
| ResetEvent (p : nat)
| NotifyOne (p : nat)
| NotifyAll (p : nat)
| Cancel (w : nat)
| Abandon (w : nat)
| ResumeNext.

Definition has_kind (s : world) (p : nat) (K : Kind) : bool := bool_decide (kinds s !! p = Some K).

(** A step, and the units to be accounted for after it; [None] is a misuse:
    a primitive of another kind, or unlocking a mutex no task holds. *)
Definition sync_step (st : (nat → Z) * world) (op : sync_op) : option ((nat → Z) * world) :=
  let '(b, s) := st in
  match op with
  | Await p (Some m) c =>
      if has_kind s p ConditionVariable && has_kind s m Mutex && (1 <=? holders b s m)
      then Some (if c then b else bump b m 1, await s p (Some m) c) else None
  | Await p None c =>
      if (p <? length (prims s))%nat && negb (has_kind s p ConditionVariable)
      then Some (b, await s p None c) else None
  | TryLock m =>
      if has_kind s m Mutex then
        let '(ok, s') := try_lock s m in Some (if ok then bump b m (-1) else b, s') else None
  | TryAcquire p =>
      if has_kind s p Semaphore then
        let '(ok, s') := try_acquire s p in Some (if ok then bump b p (-1) else b, s') else None
  | Unlock m =>
      if has_kind s m Mutex && (1 <=? holders b s m) then Some (bump b m 1, unlock s m) else None
  | Release p n =>
      if has_kind s p Semaphore then Some (bump b p (Z.of_nat n), release s p n) else None
  | SetEvent p => if has_kind s p Event then Some (b, set_event s p) else None
  | ResetEvent p => if has_kind s p Event then Some (b, reset_event s p) else None
  | NotifyOne p =>
      if has_kind s p ConditionVariable then Some (b, (wake_one s p).2) else None
  | NotifyAll p =>
      if has_kind s p ConditionVariable then Some (b, wake_all s p) else None
  | Cancel w => if (w <? length (waits s))%nat then Some (b, cancel s w) else None
  | Abandon w => if (w <? length (waits s))%nat then Some (b, abandon s w) else None
  | ResumeNext => Some (b, resume s)
  end.

Definition sync_run (st : (nat → Z) * world) (ops : list sync_op) : option ((nat → Z) * world) :=
  foldl (λ st op, st ≫= λ st, sync_step st op) (Some st) ops.

Lemma exclusive_le b b' s s' :
  kept s s' → (∀ m, kinds s !! m = Some Mutex → b' m ≤ b m) → exclusive b s → exclusive b' s'.
Proof.
  intros Hk Hb He. eapply kept_exclusive; [exact Hk|]. intros m Hm. specialize (Hb m Hm).
  specialize (He m Hm). lia.
Qed.

(** Taking a unit without waiting. *)
Lemma take_ok b s p K :
  sync_inv b s → kinds s !! p = Some K → K = Mutex ∨ K = Semaphore →
  let '(ok, s') := await_ready s p in sync_inv (if ok then bump b p (-1) else b) s'.
Proof.
  intros (Hi & Hr & He) HK Hu. pose proof (await_ready_ok b s p K Hi HK) as H.
  destruct (await_ready s p) as [ok s']. destruct H as (Hw & Hk & H).
  assert (Hkept : kept s s') by (by apply kept_prims). destruct ok; [|by destruct H as [-> _]].
  destruct H as [_ H]. rewrite one_true in H by done.
  split; [done|]. split; [by eapply kept_rest|]. apply (exclusive_le b _ s); [done| |done].
  intros m _. unfold bump. case_decide; lia.
Qed.

Lemma unlock_sync_ok b s m :
  sync_inv b s → kinds s !! m = Some Mutex → 1 ≤ holders b s m → sync_inv (bump b m 1) (unlock s m).
Proof.
  intros Hs HK Hh. pose proof HK as (M & HM & Hk)%kinds_lookup. pose proof Hs as (Hi & Hr & He).
  destruct (unlock_ok b _ s m M Hi HM Hk (held_locked b s m M Hs HM Hk Hh)) as [Hi' Hkept].
  split; [done|]. split; [by eapply kept_rest|]. eapply kept_exclusive; [done|].
  intros x Hx. specialize (He x Hx). unfold bump. unfold holders in Hh. case_decide; [subst x|]; lia.
Qed.

Lemma release_sync_ok b s p n :
  sync_inv b s → kinds s !! p = Some Semaphore → sync_inv (bump b p (Z.of_nat n)) (release s p n).
Proof.
  intros (Hi & Hr & He) HK. destruct (release_ok b _ s p n Hi HK) as [Hi' Hkept].
  split; [done|]. split; [by eapply kept_rest|]. apply (exclusive_le b _ s); [done| |done].
  intros m Hm. unfold bump. case_decide; [congruence|lia].
Qed.

Lemma has_kind_spec s p K : has_kind s p K = true ↔ kinds s !! p = Some K.
Proof. apply bool_decide_eq_true. Qed.

Lemma no_units s p P K : prims s !! p = Some P → kind P = K → K ≠ Mutex → K ≠ Semaphore → ¬ has_units P.
Proof. intros _ <- H1 H2 [?|?]; congruence. Qed.

(** Every step keeps the invariant. *)
Lemma sync_step_ok b s op b' s' :
  sync_inv b s → sync_step (b, s) op = Some (b', s') → sync_inv b' s'.
Proof.
  intros Hs E. unfold sync_step in E. destruct op as [p [m|] c|m|p|m|p n|p|p|p|p|w|w|].
  - destruct (has_kind s p _) eqn:E1; [|done]. destruct (has_kind s m _) eqn:E2; [|done].
    destruct (1 <=? _) eqn:E3; [|done]. cbn [andb] in E. apply has_kind_spec in E1, E2.
    injection E as <- <-. apply (await_ok b s p _ (Some m) c Hs E1). split; [done|]. split; [done|lia].
  - destruct (Nat.ltb _ _) eqn:E1; [|done]. destruct (has_kind s p _) eqn:E2; [done|]. injection E as <- <-.
    assert (∃ K, kinds s !! p = Some K) as [K HK].
    { apply lookup_lt_is_Some_2. unfold kinds. rewrite length_fmap. by apply Nat.ltb_lt. }
    apply (await_ok b s p K None c Hs HK). intros ->. apply has_kind_spec in HK. congruence.
  - destruct (has_kind s m _) eqn:E1; [|done]. apply has_kind_spec in E1.
    pose proof (take_ok b s m _ Hs E1 (or_introl eq_refl)) as H.
    apply kinds_lookup in E1 as (M & HM & Hk). unfold await_ready in H.
    rewrite (prim_at_lookup _ _ _ HM), Hk in H. destruct (try_lock s m) as [ok s1].
    by injection E as <- <-.
  - destruct (has_kind s p _) eqn:E1; [|done]. apply has_kind_spec in E1.
    pose proof (take_ok b s p _ Hs E1 (or_intror eq_refl)) as H.
    apply kinds_lookup in E1 as (M & HM & Hk). unfold await_ready in H.
    rewrite (prim_at_lookup _ _ _ HM), Hk in H. destruct (try_acquire s p) as [ok s1].
    by injection E as <- <-.
  - destruct (has_kind s m _) eqn:E1; [|done]. destruct (1 <=? _) eqn:E3; [|done].
    cbn [andb] in E. apply has_kind_spec in E1. injection E as <- <-. apply unlock_sync_ok; [done..|lia].
  - destruct (has_kind s p _) eqn:E1; [|done]. apply has_kind_spec in E1. injection E as <- <-.
    by apply release_sync_ok.
  - destruct (has_kind s p _) eqn:E1; [|done]. apply has_kind_spec in E1. injection E as <- <-.
    by apply set_event_ok.
  - destruct (has_kind s p _) eqn:E1; [|done]. apply has_kind_spec in E1. injection E as <- <-.
    by apply reset_event_ok.
  - destruct (has_kind s p _) eqn:E1; [|done]. apply has_kind_spec in E1. injection E as <- <-.
    apply kinds_lookup in E1 as (P & HP & Hk). pose proof Hs as (Hi & _).
    destruct (notify_ok b _ s p P Hi HP) as [Hi' Hkept]; [by eapply no_units|]. by eapply kept_inv.
  - destruct (has_kind s p _) eqn:E1; [|done]. apply has_kind_spec in E1. injection E as <- <-.
    apply kinds_lookup in E1 as (P & HP & Hk). pose proof Hs as (Hi & _). unfold wake_all.
    rewrite (prim_at_lookup _ _ _ HP).
    destruct (wake_all_from_ok (length (waiters P)) b _ s p P Hi HP) as (Hi' & Hkept & _);
      [by eapply no_units|done|]. by eapply kept_inv.
  - destruct (Nat.ltb _ _) eqn:E1; [|done]. injection E as <- <-. apply cancel_ok; [done|by apply Nat.ltb_lt].
  - destruct (Nat.ltb _ _) eqn:E1; [|done]. injection E as <- <-. apply abandon_ok; [done|by apply Nat.ltb_lt].
  - injection E as <- <-. by apply resume_sync_ok.
Qed.

Lemma sync_run_app st ops ops' : sync_run st (ops ++ ops') = sync_run st ops ≫= λ st', sync_run st' ops'.
Proof.
  unfold sync_run. rewrite foldl_app. destruct (foldl _ (Some st) ops) as [st'|]; [done|]. cbn.
  induction ops' as [|op ops' IH]; [done|]. exact IH.
Qed.

Lemma sync_run_ok b s ops b' s' :
  sync_inv b s → sync_run (b, s) ops = Some (b', s') → sync_inv b' s'.
Proof.
  revert b' s'. induction ops as [|op ops IH] using rev_ind; intros b' s' Hs E.
  - cbn in E. by simplify_eq.
  - rewrite sync_run_app in E. apply bind_Some in E as ([b1 s1] & E1 & E2). cbn in E2.
    eapply sync_step_ok; [|exact E2]. by apply IH.
Qed.

(** ** Starting a program *)

Definition new_mutex : sync_primitive := mkPrim Mutex false 0 false [] 0.
Definition new_semaphore (initial : Z) : sync_primitive := mkPrim Semaphore false initial false [] 0.
Definition new_event (sig : bool) : sync_primitive := mkPrim Event false 0 sig [] 0.
Definition new_condition_variable : sync_primitive := mkPrim ConditionVariable false 0 false [] 0.

(** A primitive as its constructor leaves it; a semaphore's initial count is
    asserted not to be negative. *)
Definition is_new (P : sync_primitive) : bool :=
  match kind P with
  | Mutex => negb (locked P)
  | Semaphore => 0 <=? count P
  | _ => true
  end && (bool_decide (waiters P = [])) && (woken P =? 0).

Definition start (ps : list sync_primitive) : (nat → Z) * world :=
  (λ p, avail (ps !!! p), mkWorld ps [] []).

(** What a program reaches from new primitives. *)
Definition reaches (ps : list sync_primitive) (ops : list sync_op) (b : nat → Z) (s : world) : Prop :=
  forallb is_new ps = true ∧ sync_run (start ps) ops = Some (b, s).

Lemma start_ok ps : forallb is_new ps = true → sync_inv (start ps).1 (start ps).2.
Proof.
  intros Hn. rewrite forallb_forall in Hn. unfold start. cbn [fst snd].
  split; [split; [|split; [done|split; [constructor|]]]|split; [done|]].
  - intros p P HP. cbn [prims waits] in *.
    assert (is_new P = true) as Hp by (apply Hn, list_elem_of_In; by eapply list_elem_of_lookup_2).
    unfold is_new in Hp. apply andb_prop in Hp as [Hp Hw]. apply andb_prop in Hp as [Hk Hl].
    apply bool_decide_eq_true in Hl. unfold prim_ok. rewrite Hl.
    rewrite list_lookup_total_alt, HP. cbn. split_and!; try done.
    + intros [Hu|Hu]; unfold avail in *; rewrite Hu in *; [destruct (locked P); done || (split_and!; done || lia)|].
      split_and!; [lia|lia|done].
    + intros; lia.
    + constructor.
    + intros w. split; [by intros ?%not_elem_of_nil|]. by intros (W & HW & _).
  - intros w. split; [by intros ?%not_elem_of_nil|]. by intros (W & HW & _).
  - intros m (M & HM & Hk)%kinds_lookup. cbn [prims] in HM. rewrite list_lookup_total_alt, HM. cbn.
    unfold avail. rewrite Hk. destruct (locked M); lia.
Qed.

Lemma reaches_inv ps ops b s : reaches ps ops b s → sync_inv b s.
Proof.
  intros [Hn E]. pose proof (start_ok ps Hn) as H. destruct (start ps) as [b0 s0].
  by eapply sync_run_ok.
Qed.

(** ** What the primitives promise *)

(** The units of [p] on their way to a task: granted, the task not resumed. *)
Definition pending (p : nat) (W : wait_node) : Z :=
  one (granted W = true ∧
       ((owner W = p ∧ (owner_kind W = Mutex ∨ owner_kind W = Semaphore) ∧ cancel_requested W = false) ∨
        relock W = Some p)).

Lemma pending_nonneg p W : 0 ≤ pending p W.
Proof. unfold pending, one. case_decide; lia. Qed.

Lemma total_nonneg f ws : (∀ W, 0 ≤ f W) → 0 ≤ total f ws.
Proof. intros H. induction ws as [|W ws IH]; cbn; [done|]. specialize (H W). unfold total in *. lia. Qed.

Lemma units_split ps p W : wait_ok ps W → units p W = taken p W + pending p W.
Proof.
  intros (_ & H2 & _ & H4 & _).
  assert (Hx : relock W = Some p → owner_kind W = ConditionVariable)
    by (intros E; rewrite E in H2; by destruct H2).
  clear H2. unfold units, taken, pending, one. destruct (granted W) eqn:Eg.
  - destruct (H4 eq_refl) as [He _]. rewrite He. clear H4.
    destruct (cancel_requested W), (owner_kind W) eqn:Ek; repeat case_decide; try lia; exfalso; intuition congruence.
  - clear H4. repeat case_decide; try lia; exfalso; intuition congruence.
Qed.

Lemma total_split f g h ws :
  (∀ w W, ws !! w = Some W → f W = g W + h W) → total f ws = total g ws + total h ws.
Proof.
  induction ws as [|W ws IH]; intros H; [done|]. cbn. unfold total in *.
  rewrite (H 0%nat W eq_refl), IH; [lia|]. intros w V HV. by apply (H (S w)).
Qed.

Lemma inv_units b e s p :
  inv b e s → total (units p) (waits s) = total (taken p) (waits s) + total (pending p) (waits s).
Proof. intros (_ & H2 & _). apply total_split. intros w W HW. eapply units_split, H2, HW. Qed.

(** C4. A mutex is held by at most one task, and is locked exactly while one
    holds it or has been handed it: of the tasks that took it ([try_lock], a
    [lock] or a condition variable's wait that ended) and have not unlocked it,
    and the waits it was handed to whose tasks have not resumed, there is one
    while it is locked and none while it is free. *)
Theorem mutex_exclusion ps ops b s m M :
  reaches ps ops b s → prims s !! m = Some M → kind M = Mutex →
  0 ≤ holders b s m ∧ holders b s m + total (pending m) (waits s) = if locked M then 1 else 0.
Proof.
  intros (Hi & _ & He)%reaches_inv HM Hk.
  specialize (He m (proj2 (kinds_lookup s m Mutex) (ex_intro _ M (conj HM Hk)))).
  pose proof (inv_units b _ s m Hi). destruct Hi as (H1 & _). destruct (H1 m M HM) as (A1 & _).
  destruct (A1 (or_introl Hk)) as (A & _). unfold holders, avail in *. rewrite Hk in A.
  destruct (locked M); lia.
Qed.

(** C32. A semaphore neither loses nor makes up units: those it counts, those
    on their way to a task and those waits took are its initial ones and those
    released ([b]) less those [try_acquire] took, and it never counts fewer
    than none. *)
Theorem semaphore_conserves_units ps ops b s p P :
  reaches ps ops b s → prims s !! p = Some P → kind P = Semaphore →
  0 ≤ count P ∧ count P + total (pending p) (waits s) + total (taken p) (waits s) = b p.
Proof.
  intros (Hi & _)%reaches_inv HP Hk. pose proof (inv_units b _ s p Hi).
  destruct Hi as (H1 & _). destruct (H1 p P HP) as (A1 & _).
  destruct (A1 (or_intror Hk)) as (A & Hn & _). unfold avail in *. rewrite Hk in *. lia.
Qed.

(** C28. No wakeup is lost.  No task waits for a mutex that is free, a semaphore
    that has units or an event that is set; a wait that has not ended, and
    whose loop is there, is either in the queue of a primitive or granted and
    in the loop's, once. *)
Theorem no_lost_wakeup ps ops b s :
  reaches ps ops b s →
  (∀ p P, prims s !! p = Some P →
     match kind P with
     | Mutex => locked P = false → waiters P = []
     | Semaphore => 0 < count P → waiters P = []
     | Event => signaled P = true → waiters P = []
     | ConditionVariable => True
     end) ∧
  (∀ w W, waits s !! w = Some W → ended W = None → loop W = true →
     (∃ p P, queue W = Some p ∧ prims s !! p = Some P ∧ w ∈ waiters P ∧ NoDup (waiters P)) ∨
     (granted W = true ∧ w ∈ deferred s ∧ NoDup (deferred s))).
Proof.
  intros ((H1 & H2 & H3 & H4) & Hr & _)%reaches_inv. split.
  - intros p P HP. destruct (H1 p P HP) as (A1 & A2 & _). unfold has_units, avail in A1.
    destruct (kind P) eqn:Ek; [|..|done].
    + intros El. destruct (A1 (or_introl eq_refl)) as (_ & _ & A). apply A. rewrite El. lia.
    + intros Hc. by destruct (A1 (or_intror eq_refl)) as (_ & _ & A); apply A.
    + by apply A2.
  - intros w W HW He Hl. destruct (Hr w W HW He Hl) as [Hq|Hg].
    + left. destruct (queue W) as [p|] eqn:Eq; [|done]. exists p.
      destruct (H2 w W HW) as ((O & HO & _) & B2 & B3 & _). destruct (B3 p Eq) as (Hp & _).
      assert (∃ P, prims s !! p = Some P) as (P & HP).
      { destruct Hp as [->|Hp]; [eauto|]. rewrite Hp in B2. destruct B2 as (_ & M & HM & _). eauto. }
      exists P. split; [done|]. split; [done|]. destruct (H1 p P HP) as (_ & _ & _ & A4 & A5).
      split; [apply A5; eauto|done].
    + right. split; [done|]. split; [apply H4; eauto|done].
Qed.

(** A primitive other than an event counts in [woken] the waits it granted
    whose tasks have not resumed and were not cancelled: at [0], when it may be
    destroyed, no such wait refers to it. *)
Theorem woken_counts ps ops b s p P :
  reaches ps ops b s → prims s !! p = Some P → kind P ≠ Event →
  woken P = total (woken_by p) (waits s).
Proof.
  intros ((H1 & _) & _)%reaches_inv HP Hk. destruct (H1 p P HP) as (_ & _ & A3 & _).
  specialize (A3 Hk). lia.
Qed.

(** A wait stays what it is a wait for and what it has come to, or, when
    [quiet], does not end either. *)
Definition settled (quiet : bool) (W W' : wait_node) : Prop :=
  owner W' = owner W ∧ owner_kind W' = owner_kind W ∧ relock W' = relock W ∧
  (quiet = true ∨ ended W ≠ None → ended W' = ended W).

Definition settles (quiet : bool) (s s' : world) : Prop :=
  ∀ i W, waits s !! i = Some W → ∃ W', waits s' !! i = Some W' ∧ settled quiet W W'.

Lemma settles_refl q s : settles q s s.
Proof. intros i W HW. by exists W. Qed.

Lemma settles_trans q s s' s'' : settles q s s' → settles q s' s'' → settles q s s''.
Proof.
  intros H H' i W HW. destruct (H i W HW) as (W' & HW' & E1 & E2 & E3 & E4).
  destruct (H' i W' HW') as (W'' & HW'' & F1 & F2 & F3 & F4). exists W''. split; [done|].
  split; [congruence|]. split; [congruence|]. split; [congruence|]. intros Hn.
  rewrite <- (E4 Hn). apply F4. by rewrite (E4 Hn).
Qed.

Lemma settles_prim q s p P : settles q s (set_prim s p P).
Proof. intros i W HW. by exists W. Qed.

Lemma settles_wait q s w W' : settled q (wait_at s w) W' → settles q s (set_wait s w W').
Proof.
  intros H i W HW. cbn [waits set_wait]. destruct (decide (i = w)) as [->|Hne].
  - rewrite list_lookup_insert_eq by (by eapply lookup_lt_Some).
    rewrite (wait_at_lookup _ _ _ HW) in H. eauto.
  - rewrite list_lookup_insert_ne by done. by exists W.
Qed.

Lemma kept_settles q s s' : kept s s' → settles q s s'.
Proof.
  intros (_ & _ & H) i W HW. destruct (H i W HW) as (W' & HW' & Hid & _). exists W'. split; [done|].
  apply identity_inv in Hid. repeat split; intuition congruence.
Qed.

Lemma insert_settles q s p w : settles q s (insert s p w).
Proof. unfold insert. eapply settles_trans; [apply settles_prim|]. by apply settles_wait. Qed.

Lemma remove_settles q s p w : settles q s (remove s p w).
Proof. unfold remove. eapply settles_trans; [apply settles_prim|]. by apply settles_wait. Qed.

Lemma try_lock_settles q s m : settles q s (try_lock s m).2.
Proof. unfold try_lock. destruct (locked _); [apply settles_refl|apply settles_prim]. Qed.

Lemma defer_settles q s w : settles q s (defer_resume s w).
Proof. intros i W HW. cbn [defer_resume waits]. by apply settles_wait. Qed.

Lemma grant_settles q s w from : settles q s (grant s w from).
Proof.
  unfold grant. destruct (Nat.eqb _ _); [|apply defer_settles].
  set (s1 := if decide _ then _ else _).
  assert (settles q s s1) by (unfold s1; case_decide; [apply settles_refl|apply settles_prim]).
  eapply settles_trans; [done|]. destruct (relock _) as [m|]; [|apply defer_settles].
  pose proof (try_lock_settles q s1 m) as H1. destruct (try_lock s1 m) as [ok s2].
  eapply settles_trans; [exact H1|]. destruct ok; [apply defer_settles|apply insert_settles].
Qed.

Lemma wake_one_settles q s p : settles q s (wake_one s p).2.
Proof.
  unfold wake_one. destruct (waiters _) as [|w l]; [apply settles_refl|].
  eapply settles_trans; [apply remove_settles|apply grant_settles].
Qed.

Lemma give_back_settles q s w : settles q s (give_back s w).
Proof.
  unfold give_back, unlock, release_one. destruct (owner_kind _); [| |apply settles_refl|].
  all: eapply settles_trans; [apply (settles_prim q s)|]; fold (add_woken s (owner (wait_at s w)) (-1)).
  all: set (s1 := add_woken _ _ _).
  all: pose proof (wake_one_settles q s1 (owner (wait_at s w))) as H;
    destruct (wake_one s1 _) as [woke s2]; try exact H; destruct woke; exact H.
Qed.

Lemma end_cancelled_settles s w :
  ended (wait_at s w) = None → settles false s (end_cancelled s w).
Proof.
  intros He. unfold end_cancelled.
  assert (Hf : ∀ s', waits s' = waits s →
    settles false s (set_wait s' w (with_ended (wait_at s' w) Cancelled))).
  { intros s' E i W. rewrite <- E. apply settles_wait. unfold wait_at in *. rewrite E.
    split; [done|]. split; [done|]. split; [done|]. by intros [?|?]. }
  destruct (relock _) as [m|]; [|by apply Hf].
  pose proof (try_lock_settles false s m) as Hs. destruct (try_lock_kinds s m) as [_ Hw].
  destruct (try_lock s m) as [ok s1]. cbn [snd] in *. destruct ok; cbn [negb]; [by apply Hf|].
  destruct (loop _); [|done]. eapply settles_trans; [done|apply insert_settles].
Qed.

Lemma wait_at_set s w W : (w < length (waits s))%nat → wait_at (set_wait s w W) w = W.
Proof. intros H. apply wait_at_lookup. by apply list_lookup_insert_eq. Qed.

Lemma cancel_settles s w : (w < length (waits s))%nat → settles false s (cancel s w).
Proof.
  intros Hw. unfold cancel. destruct (bool_decide (ended _ ≠ None)) eqn:Ee; [apply settles_refl|].
  destruct (cancel_requested _); [apply settles_refl|]. cbn [orb].
  apply bool_decide_eq_false, dec_stable in Ee.
  eapply settles_trans; [by apply (settles_wait false s w (with_cancel (wait_at s w)))|].
  set (s1 := set_wait _ _ _).
  assert (Hw1 : wait_at s1 w = with_cancel (wait_at s w)) by (by apply wait_at_set).
  unfold cancel_wait. destruct (bool_decide _).
  - eapply settles_trans; [apply remove_settles|]. apply end_cancelled_settles. unfold remove.
    rewrite wait_at_set by (cbn; by rewrite length_insert). by rewrite Hw1.
  - destruct (loop _); [apply give_back_settles|]. apply end_cancelled_settles. by rewrite Hw1.
Qed.

Lemma abandon_settles q s w : settles q s (abandon s w).
Proof.
  unfold abandon. destruct (queue _) as [p|]; [|apply settles_refl].
  set (s1 := if _ && _ then _ else _).
  assert (settles q s s1) by (unfold s1; destruct (_ && _); [apply settles_prim|apply settles_refl]).
  eapply settles_trans; [done|]. eapply settles_trans; [apply remove_settles|]. by apply settles_wait.
Qed.

Lemma resume_settles b e s : inv b e s → settles false s (resume s).
Proof.
  intros (_ & H2 & _ & H4). unfold resume. destruct (deferred s) as [|w rest] eqn:Ed; [apply settles_refl|].
  destruct (proj1 (H4 w)) as (W & HW & Hg); [apply list_elem_of_here|].
  destruct (H2 w W HW) as (_ & _ & _ & B4 & _). destruct (B4 Hg) as [He _].
  set (s1 := mkWorld _ _ _). assert (HW1 : wait_at s1 w = W) by (by apply wait_at_lookup).
  assert (Hf : ∀ s' o, waits s' = waits s → settles false s (set_wait s' w (with_ended (with_granted (wait_at s1 w) false) o))).
  { intros s' o E i V. rewrite <- E. apply settles_wait. rewrite HW1.
    rewrite (wait_at_lookup s' w W) by (by rewrite E).
    split; [done|]. split; [done|]. split; [done|]. by intros [?|?]. }
  destruct (cancel_requested _); [by apply Hf|]. case_decide; by apply Hf.
Qed.

Lemma unlock_settles q s m : settles q s (unlock s m).
Proof.
  unfold unlock. pose proof (wake_one_settles q s m) as H. destruct (wake_one s m) as [woke s1].
  destruct woke; exact H.
Qed.

Lemma release_one_settles q s p : settles q s (release_one s p).
Proof.
  unfold release_one. pose proof (wake_one_settles q s p) as H. destruct (wake_one s p) as [woke s1].
  destruct woke; exact H.
Qed.

Lemma release_settles q s p n : settles q s (release s p n).
Proof.
  unfold release. induction n as [|n IH]; [apply settles_refl|]. rewrite Nat.iter_succ.
  eapply settles_trans; [exact IH|apply release_one_settles].
Qed.

Lemma wake_all_settles q fuel s p : settles q s (wake_all_from fuel s p).
Proof.
  revert s. induction fuel as [|fuel IH]; intros s; [apply settles_refl|]. cbn [wake_all_from].
  pose proof (wake_one_settles q s p) as H. destruct (wake_one s p) as [[] s1]; [|exact H].
  eapply settles_trans; [exact H|apply IH].
Qed.

Lemma take_waits s p : waits (await_ready s p).2 = waits s.
Proof.
  unfold await_ready, try_acquire. destruct (kind _); try done; [apply try_lock_kinds|].
  by destruct (_ <=? _).
Qed.

Lemma same_waits_settles q s s' : waits s' = waits s → settles q s s'.
Proof. intros E i W HW. exists W. by rewrite E. Qed.

Lemma append_settles q s s' W : waits s' = waits s ++ [W] → settles q s s'.
Proof. intros E i V HV. exists V. rewrite E. split; [by apply lookup_app_l_Some|done]. Qed.

Lemma await_settles q s p m c : settles q s (await s p m c).
Proof.
  unfold await. pose proof (take_waits s p) as Hw. destruct (await_ready s p) as [ready s1].
  cbn [snd] in Hw. set (W := mkWait _ _ _ _ _ _ _ _).
  destruct ready; [eapply append_settles; cbn [waits]; by rewrite Hw|].
  destruct c; [by apply same_waits_settles|]. set (s2 := mkWorld _ _ _).
  assert (H2 : settles q s s2) by (eapply append_settles; cbn [waits s2]; by rewrite Hw).
  eapply settles_trans; [exact H2|]. unfold wait.
  eapply settles_trans; [by apply (settles_wait q s2 (length (waits s1)) (with_loop (wait_at s2 (length (waits s1))) true))|].
  eapply settles_trans; [|apply insert_settles].
  destruct (relock _); [apply unlock_settles|apply settles_refl].
Qed.

(** Only a cancel and a resumption end waits that wait already. *)
Definition quiet (op : sync_op) : bool :=
  match op with Cancel _ | ResumeNext => false | _ => true end.

Lemma step_settles b s op b' s' :
  sync_inv b s → sync_step (b, s) op = Some (b', s') →
  settles (quiet op) s s' ∧ (quiet op = false → b' = b).
Proof.
  intros Hs E. unfold sync_step in E. destruct op as [p [m|] c|m|p|m|p n|p|p|p|p|w|w|]; cbn [quiet].
  - destruct (_ && _); [|done]. injection E as <- <-. by split; [apply await_settles|].
  - destruct (_ && _); [|done]. injection E as <- <-. by split; [apply await_settles|].
  - destruct (has_kind _ _ _); [|done]. pose proof (try_lock_settles true s m) as H.
    destruct (try_lock s m). by injection E as <- <-.
  - destruct (has_kind _ _ _); [|done]. unfold try_acquire in E. destruct (_ <=? _).
    + injection E as <- <-. by split; [apply settles_refl|].
    + injection E as <- <-. by split; [apply settles_prim|].
  - destruct (_ && _); [|done]. injection E as <- <-. by split; [apply unlock_settles|].
  - destruct (has_kind _ _ _); [|done]. injection E as <- <-. by split; [apply release_settles|].
  - destruct (has_kind _ _ _); [|done]. injection E as <- <-. split; [|done].
    unfold set_event, wake_all. eapply settles_trans; [apply settles_prim|apply wake_all_settles].
  - destruct (has_kind _ _ _); [|done]. injection E as <- <-. by split; [apply settles_prim|].
  - destruct (has_kind _ _ _); [|done]. injection E as <- <-. by split; [apply wake_one_settles|].
  - destruct (has_kind _ _ _); [|done]. injection E as <- <-. by split; [apply wake_all_settles|].
  - destruct (Nat.ltb _ _) eqn:El; [|done]. injection E as <- <-.
    split; [|done]. apply cancel_settles. by apply Nat.ltb_lt.
  - destruct (Nat.ltb _ _); [|done]. injection E as <- <-. by split; [apply abandon_settles|].
  - injection E as <- <-. split; [|done]. destruct Hs as (Hi & _). by eapply resume_settles.
Qed.

Lemma total_mono f l l' w W W' k :
  (∀ V, 0 ≤ f V) →
  (∀ i V, l !! i = Some V → ∃ V', l' !! i = Some V' ∧ f V ≤ f V') →
  l !! w = Some W → l' !! w = Some W' → f W + k ≤ f W' → total f l + k ≤ total f l'.
Proof.
  intros Hn. revert l' w. induction l as [|V l IH]; intros l' w H HW HW' Hk; [done|].
  destruct (H 0%nat V eq_refl) as (V' & HV' & Hle). destruct l' as [|U l']; [done|].
  cbn in HV'. injection HV' as ->. cbn. fold (total f l) (total f l').
  assert (Htl : ∀ i V, l !! i = Some V → ∃ V', l' !! i = Some V' ∧ f V ≤ f V')
    by (intros i X; apply (H (S i))).
  destruct w as [|w]; cbn in HW, HW'.
  - simplify_eq. assert (total f l ≤ total f l'); [|lia]. clear IH H Hk. revert l' Htl.
    induction l as [|X l IH]; intros l' Htl.
    + cbn. by apply total_nonneg.
    + destruct (Htl 0%nat X eq_refl) as (X' & HX' & HX). destruct l' as [|Y l']; [done|].
      cbn in HX'. injection HX' as ->. cbn. fold (total f l) (total f l').
      assert (total f l ≤ total f l'); [|lia]. apply IH. intros i Z0. apply (Htl (S i)).
  - specialize (IH l' w Htl HW HW' Hk). lia.
Qed.

Lemma settled_taken q p W W' : settled q W W' → taken p W ≤ taken p W'.
Proof.
  intros (E1 & E2 & E3 & E4). destruct (decide (ended W = None)) as [He|He].
  - rewrite (taken_none p W He). apply taken_nonneg.
  - specialize (E4 (or_intror He)). unfold taken. rewrite E1, E2, E3, E4. lia.
Qed.

(** C33. However a condition variable's wait ends, by its task resuming or by
    being cancelled, its task then holds the mutex it gave, and no other task
    does. *)
Theorem condition_wait_holds_mutex ps ops b s op b' s' w W W' m :
  reaches ps ops b s → sync_step (b, s) op = Some (b', s') →
  waits s !! w = Some W → relock W = Some m → ended W = None →
  waits s' !! w = Some W' → ended W' ≠ None →
  holders b s m = 0 ∧ holders b' s' m = 1 ∧ locked (prim_at s' m) = true.
Proof.
  intros Hs%reaches_inv E HW Hre He HW' He'. pose proof (sync_step_ok _ _ _ _ _ Hs E) as Hs'.
  destruct (step_settles _ _ _ _ _ Hs E) as [Hst Hb]. destruct (Hst w W HW) as (V & HV & HVs).
  assert (V = W') as -> by congruence. pose proof HVs as (_ & _ & E3 & E4).
  destruct (quiet op); [rewrite He in E4; by rewrite E4 in He' by auto|].
  specialize (Hb eq_refl). subst b'.
  assert (Hm : kinds s !! m = Some Mutex).
  { destruct Hs as ((_ & H2 & _) & _). destruct (H2 w W HW) as (_ & B & _). rewrite Hre in B.
    apply kinds_lookup, B. }
  assert (Hm' : ∃ M, prims s' !! m = Some M ∧ kind M = Mutex).
  { destruct Hs' as ((_ & H2 & _) & _). destruct (H2 w W' HW') as (_ & B & _).
    rewrite E3, Hre in B. by destruct B. }
  destruct Hm' as (M & HM & Hk).
  assert (Ht : total (taken m) (waits s) + 1 ≤ total (taken m) (waits s')).
  { apply (total_mono _ _ _ w W W'); [apply taken_nonneg| |done|done|].
    - intros i X HX. destruct (Hst i X HX) as (X' & HX' & HXs). exists X'. split; [done|].
      by eapply settled_taken.
    - rewrite (taken_none m W He). unfold taken. rewrite E3. rewrite (one_true (_ = Some m ∧ _)) by done.
      unfold one. case_decide; lia. }
  assert (H0 : 0 ≤ holders b s m) by (destruct Hs as (_ & _ & Hx); specialize (Hx m Hm); unfold holders; lia).
  assert (H1 : holders b s m + 1 ≤ holders b s' m) by (unfold holders; lia).
  assert (H2 : holders b s' m ≤ 1).
  { destruct Hs' as (Hi & _). pose proof (inv_units _ _ _ m Hi) as Hu.
    pose proof (total_nonneg (pending m) (waits s') (pending_nonneg m)).
    destruct Hi as (A & _). destruct (A m M HM) as (A1 & _). destruct (A1 (or_introl Hk)) as (A2 & A3 & _).
    unfold holders. lia. }
  split; [lia|]. split; [lia|]. rewrite (prim_at_lookup _ _ _ HM).
  eapply held_locked; [exact Hs'|done|done|lia].
Qed.

(** A unit handed over goes to the wait queued first, which the loop resumes
    after those granted before. *)
Lemma hand_over_ok b e s p P w l :
  inv b e s → prims s !! p = Some P → has_units P → waiters P = w :: l →
  ∃ s' P' W', wake_one s p = (true, s') ∧ prims s' !! p = Some P' ∧ waiters P' = l ∧
    locked P' = locked P ∧ count P' = count P ∧ waits s' !! w = Some W' ∧ granted W' = true ∧
    deferred s' = deferred s ++ [w].
Proof.
  intros Hi HP Hu Hl. pose proof Hi as (H1 & H2 & _). destruct (H1 p P HP) as (_ & _ & _ & A4 & A5).
  destruct (proj1 (A5 w)) as (W & HW & Hq); [rewrite Hl; apply list_elem_of_here|].
  pose proof (H2 w W HW) as ((O & HO & HOk) & B2 & B3 & _ & _).
  destruct (remove_ok b e s _ P w W Hi HP HW Hq) as (_ & HrW & Hrp).
  rewrite Hl, filter_head in Hrp by (by rewrite <- Hl).
  unfold wake_one. rewrite (prim_at_lookup _ _ _ HP), Hl.
  set (s1 := remove s p w) in *. assert (Hd : deferred s1 = deferred s) by done.
  assert (HP1 : prims s1 !! p = Some (with_waiters P l))
    by (rewrite Hrp; apply list_lookup_insert_eq; by eapply lookup_lt_Some).
  unfold grant. rewrite (wait_at_lookup _ _ _ HrW). cbn [owner owner_kind relock with_queue].
  assert (Hgo : ∀ s2 P2, waits s2 = waits s1 → deferred s2 = deferred s1 → prims s2 !! p = Some P2 →
    waiters P2 = l → locked P2 = locked P → count P2 = count P →
    ∃ s' P' W', (true, defer_resume s2 w) = (true, s') ∧ prims s' !! p = Some P' ∧ waiters P' = l ∧
      locked P' = locked P ∧ count P' = count P ∧ waits s' !! w = Some W' ∧ granted W' = true ∧
      deferred s' = deferred s ++ [w]).
  { intros s2 P2 Ew Ed HP2 ? ? ?. exists (defer_resume s2 w), P2. eexists. split; [done|].
    split; [done|]. split; [done|]. split; [done|]. split; [done|]. cbn [defer_resume waits set_wait deferred].
    split; [apply list_lookup_insert_eq; rewrite Ew; by eapply lookup_lt_Some|]. split; [done|]. congruence. }
  destruct (B3 p Hq) as ([Ho|Hr] & _).
  - subst p. rewrite Nat.eqb_refl. assert (O = P) as -> by congruence.
    assert (Hne : owner_kind W ≠ Event) by (destruct Hu; congruence).
    assert (Hcv : owner_kind W ≠ ConditionVariable) by (destruct Hu; congruence).
    rewrite decide_False by done. destruct (relock W); [by destruct B2|].
    unfold add_woken. rewrite (prim_at_lookup _ _ _ HP1). eapply Hgo; [done|done|..].
    + apply list_lookup_insert_eq. by eapply lookup_lt_Some.
    + done.
    + done.
    + done.
  - rewrite Hr in B2. destruct B2 as (Bk & M & HM & HMk).
    assert (p ≠ owner W) as Hne%Nat.eqb_neq by congruence. rewrite Hne.
    by eapply (Hgo s1 (with_waiters P l)).
Qed.

(** A mutex is handed to its waiters in the order they came: unlocked while
    tasks wait, it stays locked, its first waiter leaves the queue, granted, and
    the others stay in their order; the loop resumes it after the waits granted
    before.  A wait that must wait queues last. *)
Theorem mutex_fifo ps ops b s m M w l b' s' :
  reaches ps ops b s → prims s !! m = Some M → kind M = Mutex → waiters M = w :: l →
  sync_step (b, s) (Unlock m) = Some (b', s') →
  locked (prim_at s' m) = true ∧ waiters (prim_at s' m) = l ∧ granted (wait_at s' w) = true ∧
  deferred s' = deferred s ++ [w] ∧
  (∀ s'', await s m None false = s'' →
     waiters (prim_at s'' m) = waiters M ++ [length (waits s)]).
Proof.
  intros Hs%reaches_inv HM Hk Hl E. pose proof Hs as (Hi & _).
  unfold sync_step in E. destruct (has_kind s m Mutex); [|done]. cbn [andb] in E.
  destruct (1 <=? holders b s m) eqn:Eh; [|done]. injection E as <- <-.
  assert (Hlk : locked M = true) by (eapply held_locked; [done..|lia]).
  destruct (hand_over_ok b _ s m M w l Hi HM (or_introl Hk) Hl)
    as (s' & M' & W' & E & HM' & Hw & Hlk' & _ & HW' & Hg & Hd).
  unfold unlock. rewrite E, (prim_at_lookup _ _ _ HM'), (wait_at_lookup _ _ _ HW').
  split; [congruence|]. split; [done|]. split; [done|]. split; [done|].
  intros s'' <-. unfold await, await_ready, try_lock. rewrite (prim_at_lookup _ _ _ HM), Hk, Hlk.
  cbv beta iota zeta.
  unfold wait. cbn [waits]. set (W := mkWait _ _ _ _ _ _ _ _). set (s1 := mkWorld _ _ _).
  assert (HWat : wait_at s1 (length (waits s)) = W).
  { apply wait_at_lookup. cbn [s1 waits]. by rewrite lookup_app_r, Nat.sub_diag by lia. }
  rewrite HWat. cbn [relock owner W]. unfold insert, set_wait, set_prim, prim_at. cbn [prims s1].
  rewrite !list_lookup_total_alt, list_lookup_insert_eq by (by eapply lookup_lt_Some).
  rewrite HM. done.
Qed.

(** ** A program *)

(** A mutex, a semaphore of one unit, a condition variable and an event. *)
Definition demo : list sync_primitive :=
  [new_mutex; new_semaphore 1; new_condition_variable; new_event false].

Definition final (ops : list sync_op) : (nat → Z) * world := default (start demo) (sync_run (start demo) ops).

(** Task A takes the mutex and waits on the condition variable (wait 0); task B
    takes the mutex (wait 1) and notifies A, which queues for the mutex, and two
    tasks more behind it (waits 2 and 3); the semaphore's unit is taken, waited
    for and released. *)
Definition demo_ops : list sync_op :=
  [TryLock 0; Await 2 (Some 0%nat) false; Await 0 None false; NotifyOne 2;
   Await 0 None false; Await 0 None false; Await 1 None false; Await 1 None false; Release 1 1].

Definition demo_b : nat → Z := (final demo_ops).1.
Definition demo_s : world := (final demo_ops).2.

Lemma demo_reaches : reaches demo demo_ops demo_b demo_s.
Proof. split; vm_compute; reflexivity. Qed.

Lemma mutex_exclusion_witness :
  0 ≤ holders demo_b demo_s 0 ∧
  holders demo_b demo_s 0 + total (pending 0) (waits demo_s) = if locked (prim_at demo_s 0) then 1 else 0.
Proof.
  refine (mutex_exclusion demo demo_ops demo_b demo_s 0%nat (prim_at demo_s 0) demo_reaches _ _);
    vm_compute; reflexivity.
Defined.

Lemma semaphore_conserves_units_witness :
  0 ≤ count (prim_at demo_s 1) ∧
  count (prim_at demo_s 1) + total (pending 1) (waits demo_s) + total (taken 1) (waits demo_s) = demo_b 1%nat.
Proof.
  refine (semaphore_conserves_units demo demo_ops demo_b demo_s 1%nat (prim_at demo_s 1) demo_reaches _ _);
    vm_compute; reflexivity.
Defined.

Lemma no_lost_wakeup_witness :
  (∃ p P, queue (wait_at demo_s 0) = Some p ∧ prims demo_s !! p = Some P ∧
     0%nat ∈ waiters P ∧ NoDup (waiters P)) ∨
  (granted (wait_at demo_s 0) = true ∧ 0%nat ∈ deferred demo_s ∧ NoDup (deferred demo_s)).
Proof.
  refine (proj2 (no_lost_wakeup demo demo_ops demo_b demo_s demo_reaches) 0%nat (wait_at demo_s 0) _ _ _);
    vm_compute; reflexivity.
Defined.

Lemma woken_counts_witness :
  woken (prim_at demo_s 2) = total (woken_by 2) (waits demo_s) ∧ woken (prim_at demo_s 2) = 1.
Proof.
  split; [|vm_compute; reflexivity].
  refine (woken_counts demo demo_ops demo_b demo_s 2%nat (prim_at demo_s 2) demo_reaches _ _).
  - vm_compute; reflexivity.
  - vm_compute; discriminate.
Defined.

(** Cancelling the notified wait, once it has the mutex again. *)
Definition cancel_ops : list sync_op := demo_ops ++ [ResumeNext; Unlock 0; Cancel 0].
Definition cancel_b : nat → Z := (final cancel_ops).1.
Definition cancel_s : world := (final cancel_ops).2.
Definition after_cancel : (nat → Z) * world := final (cancel_ops ++ [ResumeNext]).

Lemma cancel_reaches : reaches demo cancel_ops cancel_b cancel_s.
Proof. split; vm_compute; reflexivity. Qed.

Lemma condition_wait_holds_mutex_witness :
  holders cancel_b cancel_s 0 = 0 ∧ holders after_cancel.1 after_cancel.2 0 = 1 ∧
  locked (prim_at after_cancel.2 0) = true.
Proof.
  refine (condition_wait_holds_mutex demo cancel_ops cancel_b cancel_s ResumeNext after_cancel.1 after_cancel.2
    0%nat (wait_at cancel_s 0) (wait_at after_cancel.2 0) 0%nat cancel_reaches _ _ _ _ _ _).
  - vm_compute; reflexivity.
  - vm_compute; reflexivity.
  - vm_compute; reflexivity.
  - vm_compute; reflexivity.
  - vm_compute; reflexivity.
  - vm_compute; discriminate.
Defined.

Definition after_unlock : (nat → Z) * world := final (demo_ops ++ [Unlock 0]).

Lemma mutex_fifo_witness :
  waiters (prim_at demo_s 0) = [0; 2; 3]%nat ∧
  locked (prim_at after_unlock.2 0) = true ∧ waiters (prim_at after_unlock.2 0) = [2; 3]%nat ∧
  deferred after_unlock.2 = deferred demo_s ++ [0%nat].
Proof.
  split; [vm_compute; reflexivity|].
  assert (H := mutex_fifo demo demo_ops demo_b demo_s 0 (prim_at demo_s 0) 0 [2; 3]%nat
    after_unlock.1 after_unlock.2 demo_reaches ltac:(vm_compute; reflexivity) ltac:(vm_compute; reflexivity)
    ltac:(vm_compute; reflexivity) ltac:(vm_compute; reflexivity)).
  destruct H as (H1 & H2 & _ & H4 & _). exact (conj H1 (conj H2 H4)).
Defined.
