(* ===== verification/Node.v ===== *)
(** The task tree of the runtime: include/kotatsu/async/runtime/node.h and
    src/async/runtime/node.cpp, with what when.h, task_group.h, task.h, sync.cpp
    and loop.cpp call of it.

    A node (a task, a when_all, when_any or task_group, a wait or a pending
    I/O) is a number; what it is never changes ([Program]), and each of its
    fields is a function of the [heap], which also keeps what the source keeps
    per thread and per loop.  The lists of children and of groups are lists:
    LinkedList.v shows what links like theirs hold.

    The runtime calls itself through the coroutines it resumes, so its
    control is kept: a stack of [frame]s, the program points still to run,
    innermost first.  [tick] runs the runtime's own code from one such point to
    the next.  A coroutine's body, a callback of the loop and the destructors
    of a coroutine frame's locals are the program's: at [Body] and [Code] the
    program chooses an [action], a call into the runtime or an end of its code,
    which [act] does.  A wait's [cancel_wait], which Sync.v models, ends the wait
    or leaves it: that choice is an action too.

    Nodes are never freed here: [destroyed] and [gone] record that the runtime
    has destroyed a coroutine frame, or that a task_group's destructor ran. *)

From Stdlib Require Import Lia Bool.
From stdpp Require Import functions prelude list.
From S2P Require Import Prelude.

(** ** Data *)

Inductive NodeKind := Task | Waiter | WhenAll | WhenAny | TaskGroup | SystemIO.

Inductive State := Pending | Running | Succeeded | Failed | Cancelled.

(** What settles an aggregate; [NoDecision] is the source's [None]. *)
Inductive Decision := NoDecision | Resume | Cancel | Error.

#[export] Instance node_kind_eq_dec : EqDecision NodeKind.
Proof. solve_decision. Defined.
#[export] Instance state_eq_dec : EqDecision State.
Proof. solve_decision. Defined.
#[export] Instance decision_eq_dec : EqDecision Decision.
Proof. solve_decision. Defined.

(** What a node is, from its type: its kind; of a task, whether its type has an
    error; of an aggregate, whether its type has a cancel channel, so that
    its cancellation is a value for the task that awaits it. *)
Class Program := {
  kind : nat → NodeKind;
  fallible : nat → bool;
  cancel_channel : nat → bool;
}.

(** The fields of the nodes, by the source's names, and below them:
    - [error]: the error a task's value holds; [errors]: a when_op's
      [first_error], or a group's [errors]; [exception]: the child an
      aggregate's exception came from;
    - [kids]: the running children, [head] to [tail];
    - [claimed]: a task was awaited, handed to an aggregate or scheduled: its
      object is no longer the program's to start; [home]: the aggregate it was
      handed to;
    - [gone]: ~task_group has begun; [abandoned] counts the children it let go;
    - [destroyed]: the runtime destroyed the task's coroutine frame.
    The last six fields are the thread's and the loop's. *)
Record heap := mkHeap {
  state : nat → State;
  cancel_requested : nat → bool;
  intercept : nat → bool;
  parent : nat → option nat;
  child : nat → option nat;
  hook : nat → bool;
  threw : nat → bool;
  error : nat → option nat;
  owned_by_loop : nat → bool;
  scheduled : nat → bool;
  kids : nat → list nat;
  pending : nat → nat;
  winner : nat → option nat;
  ended : nat → list nat;
  decision : nat → Decision;
  exception : nat → option nat;
  errors : nat → list nat;
  claimed : nat → bool;
  home : nat → option nat;
  abandoned : nat → nat;
  gone : nat → bool;
  destroyed : nat → bool;
  resuming : bool;
  ended_roots : list nat;
  groups_with_ended : list nat;
  deferred : list nat;
  tasks : list nat;
  loop_running : bool;
}.

Definition set_state (h : heap) (n : nat) (v : State) : heap :=
  mkHeap (<[n := v]> (state h)) (cancel_requested h) (intercept h) (parent h) (child h) (hook h)
    (threw h) (error h) (owned_by_loop h) (scheduled h) (kids h) (pending h) (winner h)
    (ended h) (decision h) (exception h) (errors h) (claimed h) (home h) (abandoned h) (gone h)
    (destroyed h) (resuming h) (ended_roots h) (groups_with_ended h) (deferred h) (tasks h)
    (loop_running h).
Definition set_cancel_requested (h : heap) (n : nat) (v : bool) : heap :=
  mkHeap (state h) (<[n := v]> (cancel_requested h)) (intercept h) (parent h) (child h) (hook h)
    (threw h) (error h) (owned_by_loop h) (scheduled h) (kids h) (pending h) (winner h)
    (ended h) (decision h) (exception h) (errors h) (claimed h) (home h) (abandoned h) (gone h)
    (destroyed h) (resuming h) (ended_roots h) (groups_with_ended h) (deferred h) (tasks h)
    (loop_running h).
Definition set_intercept (h : heap) (n : nat) (v : bool) : heap :=
  mkHeap (state h) (cancel_requested h) (<[n := v]> (intercept h)) (parent h) (child h) (hook h)
    (threw h) (error h) (owned_by_loop h) (scheduled h) (kids h) (pending h) (winner h)
    (ended h) (decision h) (exception h) (errors h) (claimed h) (home h) (abandoned h) (gone h)
    (destroyed h) (resuming h) (ended_roots h) (groups_with_ended h) (deferred h) (tasks h)
    (loop_running h).
Definition set_parent (h : heap) (n : nat) (v : option nat) : heap :=
  mkHeap (state h) (cancel_requested h) (intercept h) (<[n := v]> (parent h)) (child h) (hook h)
    (threw h) (error h) (owned_by_loop h) (scheduled h) (kids h) (pending h) (winner h)
    (ended h) (decision h) (exception h) (errors h) (claimed h) (home h) (abandoned h) (gone h)
    (destroyed h) (resuming h) (ended_roots h) (groups_with_ended h) (deferred h) (tasks h)
    (loop_running h).
Definition set_child (h : heap) (n : nat) (v : option nat) : heap :=
  mkHeap (state h) (cancel_requested h) (intercept h) (parent h) (<[n := v]> (child h)) (hook h)
    (threw h) (error h) (owned_by_loop h) (scheduled h) (kids h) (pending h) (winner h)
    (ended h) (decision h) (exception h) (errors h) (claimed h) (home h) (abandoned h) (gone h)
    (destroyed h) (resuming h) (ended_roots h) (groups_with_ended h) (deferred h) (tasks h)
    (loop_running h).
Definition set_hook (h : heap) (n : nat) (v : bool) : heap :=
  mkHeap (state h) (cancel_requested h) (intercept h) (parent h) (child h) (<[n := v]> (hook h))
    (threw h) (error h) (owned_by_loop h) (scheduled h) (kids h) (pending h) (winner h)
    (ended h) (decision h) (exception h) (errors h) (claimed h) (home h) (abandoned h) (gone h)
    (destroyed h) (resuming h) (ended_roots h) (groups_with_ended h) (deferred h) (tasks h)
    (loop_running h).
Definition set_threw (h : heap) (n : nat) (v : bool) : heap :=
  mkHeap (state h) (cancel_requested h) (intercept h) (parent h) (child h) (hook h)
    (<[n := v]> (threw h)) (error h) (owned_by_loop h) (scheduled h) (kids h) (pending h)
    (winner h) (ended h) (decision h) (exception h) (errors h) (claimed h) (home h)
    (abandoned h) (gone h) (destroyed h) (resuming h) (ended_roots h) (groups_with_ended h)
    (deferred h) (tasks h) (loop_running h).
Definition set_error (h : heap) (n : nat) (v : option nat) : heap :=
  mkHeap (state h) (cancel_requested h) (intercept h) (parent h) (child h) (hook h) (threw h)
    (<[n := v]> (error h)) (owned_by_loop h) (scheduled h) (kids h) (pending h) (winner h)
    (ended h) (decision h) (exception h) (errors h) (claimed h) (home h) (abandoned h) (gone h)
    (destroyed h) (resuming h) (ended_roots h) (groups_with_ended h) (deferred h) (tasks h)
    (loop_running h).
Definition set_owned_by_loop (h : heap) (n : nat) (v : bool) : heap :=
  mkHeap (state h) (cancel_requested h) (intercept h) (parent h) (child h) (hook h) (threw h)
    (error h) (<[n := v]> (owned_by_loop h)) (scheduled h) (kids h) (pending h) (winner h)
    (ended h) (decision h) (exception h) (errors h) (claimed h) (home h) (abandoned h) (gone h)
    (destroyed h) (resuming h) (ended_roots h) (groups_with_ended h) (deferred h) (tasks h)
    (loop_running h).
Definition set_scheduled (h : heap) (n : nat) (v : bool) : heap :=
  mkHeap (state h) (cancel_requested h) (intercept h) (parent h) (child h) (hook h) (threw h)
    (error h) (owned_by_loop h) (<[n := v]> (scheduled h)) (kids h) (pending h) (winner h)
    (ended h) (decision h) (exception h) (errors h) (claimed h) (home h) (abandoned h) (gone h)
    (destroyed h) (resuming h) (ended_roots h) (groups_with_ended h) (deferred h) (tasks h)
    (loop_running h).
Definition set_kids (h : heap) (n : nat) (v : list nat) : heap :=
  mkHeap (state h) (cancel_requested h) (intercept h) (parent h) (child h) (hook h) (threw h)
    (error h) (owned_by_loop h) (scheduled h) (<[n := v]> (kids h)) (pending h) (winner h)
    (ended h) (decision h) (exception h) (errors h) (claimed h) (home h) (abandoned h) (gone h)
    (destroyed h) (resuming h) (ended_roots h) (groups_with_ended h) (deferred h) (tasks h)
    (loop_running h).
Definition set_pending (h : heap) (n : nat) (v : nat) : heap :=
  mkHeap (state h) (cancel_requested h) (intercept h) (parent h) (child h) (hook h) (threw h)
    (error h) (owned_by_loop h) (scheduled h) (kids h) (<[n := v]> (pending h)) (winner h)
    (ended h) (decision h) (exception h) (errors h) (claimed h) (home h) (abandoned h) (gone h)
    (destroyed h) (resuming h) (ended_roots h) (groups_with_ended h) (deferred h) (tasks h)
    (loop_running h).
Definition set_winner (h : heap) (n : nat) (v : option nat) : heap :=
  mkHeap (state h) (cancel_requested h) (intercept h) (parent h) (child h) (hook h) (threw h)
    (error h) (owned_by_loop h) (scheduled h) (kids h) (pending h) (<[n := v]> (winner h))
    (ended h) (decision h) (exception h) (errors h) (claimed h) (home h) (abandoned h) (gone h)
    (destroyed h) (resuming h) (ended_roots h) (groups_with_ended h) (deferred h) (tasks h)
    (loop_running h).
Definition set_ended (h : heap) (n : nat) (v : list nat) : heap :=
  mkHeap (state h) (cancel_requested h) (intercept h) (parent h) (child h) (hook h) (threw h)
    (error h) (owned_by_loop h) (scheduled h) (kids h) (pending h) (winner h)
    (<[n := v]> (ended h)) (decision h) (exception h) (errors h) (claimed h) (home h)
    (abandoned h) (gone h) (destroyed h) (resuming h) (ended_roots h) (groups_with_ended h)
    (deferred h) (tasks h) (loop_running h).
Definition set_decision (h : heap) (n : nat) (v : Decision) : heap :=
  mkHeap (state h) (cancel_requested h) (intercept h) (parent h) (child h) (hook h) (threw h)
    (error h) (owned_by_loop h) (scheduled h) (kids h) (pending h) (winner h) (ended h)
    (<[n := v]> (decision h)) (exception h) (errors h) (claimed h) (home h) (abandoned h)
    (gone h) (destroyed h) (resuming h) (ended_roots h) (groups_with_ended h) (deferred h)
    (tasks h) (loop_running h).
Definition set_exception (h : heap) (n : nat) (v : option nat) : heap :=
  mkHeap (state h) (cancel_requested h) (intercept h) (parent h) (child h) (hook h) (threw h)
    (error h) (owned_by_loop h) (scheduled h) (kids h) (pending h) (winner h) (ended h)
    (decision h) (<[n := v]> (exception h)) (errors h) (claimed h) (home h) (abandoned h)
    (gone h) (destroyed h) (resuming h) (ended_roots h) (groups_with_ended h) (deferred h)
    (tasks h) (loop_running h).
Definition set_errors (h : heap) (n : nat) (v : list nat) : heap :=
  mkHeap (state h) (cancel_requested h) (intercept h) (parent h) (child h) (hook h) (threw h)
    (error h) (owned_by_loop h) (scheduled h) (kids h) (pending h) (winner h) (ended h)
    (decision h) (exception h) (<[n := v]> (errors h)) (claimed h) (home h) (abandoned h)
    (gone h) (destroyed h) (resuming h) (ended_roots h) (groups_with_ended h) (deferred h)
    (tasks h) (loop_running h).
Definition set_claimed (h : heap) (n : nat) (v : bool) : heap :=
  mkHeap (state h) (cancel_requested h) (intercept h) (parent h) (child h) (hook h) (threw h)
    (error h) (owned_by_loop h) (scheduled h) (kids h) (pending h) (winner h) (ended h)
    (decision h) (exception h) (errors h) (<[n := v]> (claimed h)) (home h) (abandoned h)
    (gone h) (destroyed h) (resuming h) (ended_roots h) (groups_with_ended h) (deferred h)
    (tasks h) (loop_running h).
Definition set_home (h : heap) (n : nat) (v : option nat) : heap :=
  mkHeap (state h) (cancel_requested h) (intercept h) (parent h) (child h) (hook h) (threw h)
    (error h) (owned_by_loop h) (scheduled h) (kids h) (pending h) (winner h) (ended h)
    (decision h) (exception h) (errors h) (claimed h) (<[n := v]> (home h)) (abandoned h)
    (gone h) (destroyed h) (resuming h) (ended_roots h) (groups_with_ended h) (deferred h)
    (tasks h) (loop_running h).
Definition set_abandoned (h : heap) (n : nat) (v : nat) : heap :=
  mkHeap (state h) (cancel_requested h) (intercept h) (parent h) (child h) (hook h) (threw h)
    (error h) (owned_by_loop h) (scheduled h) (kids h) (pending h) (winner h) (ended h)
    (decision h) (exception h) (errors h) (claimed h) (home h) (<[n := v]> (abandoned h))
    (gone h) (destroyed h) (resuming h) (ended_roots h) (groups_with_ended h) (deferred h)
    (tasks h) (loop_running h).
Definition set_gone (h : heap) (n : nat) (v : bool) : heap :=
  mkHeap (state h) (cancel_requested h) (intercept h) (parent h) (child h) (hook h) (threw h)
    (error h) (owned_by_loop h) (scheduled h) (kids h) (pending h) (winner h) (ended h)
    (decision h) (exception h) (errors h) (claimed h) (home h) (abandoned h)
    (<[n := v]> (gone h)) (destroyed h) (resuming h) (ended_roots h) (groups_with_ended h)
    (deferred h) (tasks h) (loop_running h).
Definition set_destroyed (h : heap) (n : nat) (v : bool) : heap :=
  mkHeap (state h) (cancel_requested h) (intercept h) (parent h) (child h) (hook h) (threw h)
    (error h) (owned_by_loop h) (scheduled h) (kids h) (pending h) (winner h) (ended h)
    (decision h) (exception h) (errors h) (claimed h) (home h) (abandoned h) (gone h)
    (<[n := v]> (destroyed h)) (resuming h) (ended_roots h) (groups_with_ended h) (deferred h)
    (tasks h) (loop_running h).
Definition set_resuming (h : heap) (v : bool) : heap :=
  mkHeap (state h) (cancel_requested h) (intercept h) (parent h) (child h) (hook h) (threw h)
    (error h) (owned_by_loop h) (scheduled h) (kids h) (pending h) (winner h) (ended h)
    (decision h) (exception h) (errors h) (claimed h) (home h) (abandoned h) (gone h)
    (destroyed h) v (ended_roots h) (groups_with_ended h) (deferred h) (tasks h)
    (loop_running h).
Definition set_ended_roots (h : heap) (v : list nat) : heap :=
  mkHeap (state h) (cancel_requested h) (intercept h) (parent h) (child h) (hook h) (threw h)
    (error h) (owned_by_loop h) (scheduled h) (kids h) (pending h) (winner h) (ended h)
    (decision h) (exception h) (errors h) (claimed h) (home h) (abandoned h) (gone h)
    (destroyed h) (resuming h) v (groups_with_ended h) (deferred h) (tasks h) (loop_running h).
Definition set_groups_with_ended (h : heap) (v : list nat) : heap :=
  mkHeap (state h) (cancel_requested h) (intercept h) (parent h) (child h) (hook h) (threw h)
    (error h) (owned_by_loop h) (scheduled h) (kids h) (pending h) (winner h) (ended h)
    (decision h) (exception h) (errors h) (claimed h) (home h) (abandoned h) (gone h)
    (destroyed h) (resuming h) (ended_roots h) v (deferred h) (tasks h) (loop_running h).
Definition set_deferred (h : heap) (v : list nat) : heap :=
  mkHeap (state h) (cancel_requested h) (intercept h) (parent h) (child h) (hook h) (threw h)
    (error h) (owned_by_loop h) (scheduled h) (kids h) (pending h) (winner h) (ended h)
    (decision h) (exception h) (errors h) (claimed h) (home h) (abandoned h) (gone h)
    (destroyed h) (resuming h) (ended_roots h) (groups_with_ended h) v (tasks h)
    (loop_running h).
Definition set_tasks (h : heap) (v : list nat) : heap :=
  mkHeap (state h) (cancel_requested h) (intercept h) (parent h) (child h) (hook h) (threw h)
    (error h) (owned_by_loop h) (scheduled h) (kids h) (pending h) (winner h) (ended h)
    (decision h) (exception h) (errors h) (claimed h) (home h) (abandoned h) (gone h)
    (destroyed h) (resuming h) (ended_roots h) (groups_with_ended h) (deferred h) v
    (loop_running h).
Definition set_loop_running (h : heap) (v : bool) : heap :=
  mkHeap (state h) (cancel_requested h) (intercept h) (parent h) (child h) (hook h) (threw h)
    (error h) (owned_by_loop h) (scheduled h) (kids h) (pending h) (winner h) (ended h)
    (decision h) (exception h) (errors h) (claimed h) (home h) (abandoned h) (gone h)
    (destroyed h) (resuming h) (ended_roots h) (groups_with_ended h) (deferred h) (tasks h) v.

(** ** Program points

    A void function's frame is popped when it returns.  A function that
    returns the coroutine to resume next ends as [Handle], above the
    [Resumption] that will resume it. *)
Inductive frame :=
| Code                                  (* the program's code, outside a coroutine *)
| Body (t : nat)                        (* the body of coroutine [t] *)
| Handle (h : option nat)               (* a coroutine to resume; [None], the noop one *)
| Resumption (outermost : bool)         (* [resume_and_drain] after [step()] *)
| CancelNode (n : nat)                  (* [async_node::cancel] *)
| CancelWait (w : nat)                  (* [wait_node::cancel_wait] *)
| CancelChildren (op count : nat)       (* the loop of [cancel_children] *)
| Unpin (op : nat)                      (* [cancel_all] after [cancel_children] *)
| Arm (op : nat) (rest : list nat)      (* the loop of [arm] *)
| TaskComplete (t c : nat)              (* [on_child_complete] of a task *)
| ChildCompleted (op c : nat)           (* [on_child_complete] of an aggregate *)
| Decided (op c : nat)                  (* [child_completed] after [decide] *)
| Settled (t : nat) (end_ : State) (caught : bool)
                                        (* [settle_if_idle] after [destroy_frames] *)
| Noop                                  (* [attach] after [cancel] *)
| DestroyFrames (frames : list nat)     (* the loop of [destroy_frames] *)
| LeaveResumption                       (* the loop of [leave_resumption] *)
| LeaveDrained                          (* its body after [drain_deferred] *)
| DestroyEnded                          (* the loop of [destroy_ended] *)
| EndedRoots                            (* its first inner loop *)
| EndedGroups                           (* its second inner loop *)
| DrainDeferred                         (* the loop of [drain_deferred] *)
| Abandon (g : nat).                    (* the loop of [abandon_children] *)

Definition stack := list frame.

Section Machine.
Context `{P : Program}.

(** ** The operations *)

Definition done (s : State) : bool :=
  match s with Pending | Running => false | _ => true end.

Definition is_task (n : nat) : bool := bool_decide (kind n = Task).

Definition is_aggregate (n : nat) : bool :=
  match kind n with WhenAll | WhenAny | TaskGroup => true | _ => false end.

(** [enter_resumption], and the frames of a step run as one resumption. *)
Definition resume_and_drain (h : heap) (k : stack) (step : heap → heap * stack) : heap * stack :=
  let outermost := negb (resuming h) in
  let '(h1, fs) := step (set_resuming h true) in
  (h1, fs ++ Resumption outermost :: k).

Definition awaited_by (h : heap) (n t : nat) : heap :=
  set_state (set_child (set_parent h n (Some t)) t (Some n)) n Running.

Definition on_child_complete (p c : nat) : frame :=
  if is_task p then TaskComplete p c else ChildCompleted p c.

Definition finish (h : heap) (t : nat) (end_ : State) : heap * stack :=
  let h1 := set_state h t end_ in
  match parent h t with
  | None =>
      (if owned_by_loop h t then set_ended_roots h1 (ended_roots h1 ++ [t]) else h1, [Handle None])
  | Some p => (set_parent h1 t None, [on_child_complete p t])
  end.

Definition awaited_ended (h : heap) (t : nat) (end_ : State) (caught : bool) : heap * stack :=
  let h1 := set_child h t None in
  if bool_decide (end_ = Cancelled) && negb caught then finish h1 t Cancelled
  else (h1, [Handle (Some t)]).

(** [None] where the source would read an error that is not there. *)
Definition task_complete (h : heap) (t c : nat) : option (heap * stack) :=
  if bool_decide (state h c = Failed) && is_task c && hook h c && negb (threw h c) then
    match error h c with
    | Some e => Some (finish (set_error (set_child h t None) t (Some e)) t Failed)
    | None => None
    end
  else Some (awaited_ended h t (state h c) (intercept h c)).

Definition start (h : heap) (t : nat) (p : option nat) : heap * stack :=
  let h1 := set_parent h t p in
  if cancel_requested h1 t then finish h1 t Cancelled
  else (set_state h1 t Running, [Handle (Some t)]).

Definition checkpoint (h : heap) (t : nat) : option (heap * stack) :=
  if cancel_requested h t then Some (finish h t Cancelled) else None.

Definition decided (h : heap) (op : nat) : bool :=
  negb (bool_decide (decision h op = NoDecision)) || cancel_requested h op.

(** [link]: to the tail; [unlink]. *)
Definition link (h : heap) (op c : nat) : heap := set_kids h op (kids h op ++ [c]).
Definition unlink (h : heap) (op c : nat) : heap :=
  set_kids h op (filter (λ x, x ≠ c) (kids h op)).

Definition take_ended (h : heap) (g : nat) : heap * list nat :=
  match ended h g with
  | [] => (h, [])
  | frames =>
      (set_ended (set_groups_with_ended h (filter (λ x, x ≠ g) (groups_with_ended h))) g [], frames)
  end.

Definition settled_state (h : heap) (op : nat) : State :=
  if bool_decide (decision h op = Error) then Failed
  else if bool_decide (decision h op = Cancel) || cancel_requested h op then Cancelled
  else Succeeded.

Definition settle_if_idle (h : heap) (op : nat) : heap * stack :=
  if negb (pending h op =? 0) then (h, [Handle None]) else
  match parent h op with
  | None => (h, [Handle None])
  | Some p =>
      let end_ := settled_state h op in
      let h1 := set_parent (set_state h op end_) op None in
      if negb (bool_decide (kind op = TaskGroup)) then (h1, [on_child_complete p op])
      else
        let caught := intercept h1 op in
        let '(h2, frames) := take_ended h1 op in
        (h2, [DestroyFrames frames; Settled p end_ caught])
  end.

(** [cancel_children]: counts the children, then loops. *)
Definition cancel_children (h : heap) (op : nat) : stack :=
  [CancelChildren op (length (kids h op))].

Definition pin (h : heap) (op : nat) : heap := set_pending h op (pending h op + 1).
Definition unpin (h : heap) (op : nat) : heap := set_pending h op (pending h op - 1).

Definition cancel_all (h : heap) (op : nat) : heap * stack :=
  let h1 := pin h op in (h1, cancel_children h1 op ++ [Unpin op]).

Definition decide_ (h : heap) (op : nat) (d : Decision) : heap * stack :=
  if decided h op then (if bool_decide (d = Error) then set_decision h op Error else h, [])
  else let h1 := set_decision h op d in (h1, cancel_children h1 op).

(** The hook of an aggregate's child: a when_op keeps the first error, a
    task_group every one. *)
Definition take_error (h : heap) (op : nat) (e : nat) : heap :=
  if bool_decide (kind op = TaskGroup) then set_errors h op (errors h op ++ [e])
  else match errors h op with [] => set_errors h op [e] | _ => h end.

(** [child_completed] up to where [decide] returns; [None] where an assertion
    fails, or a null hook would be called. *)
Definition child_completed (h : heap) (op c : nat) : option (heap * stack) :=
  if pending h op =? 0 then None else
  let h1 := unlink h op c in
  let rest hfs := Some (fst hfs, snd hfs ++ [Decided op c]) in
  match state h c with
  | Failed =>
      if threw h c then
        rest (decide_ (match exception h1 op with
                       | None => set_exception h1 op (Some c)
                       | Some _ => h1
                       end) op Error)
      else if hook h c then
        match error h c with
        | Some e => rest (decide_ (take_error h1 op e) op Error)
        | None => None
        end
      else None
  | Cancelled =>
      rest (if bool_decide (kind op = TaskGroup) then (h1, []) else decide_ h1 op Cancel)
  | Succeeded =>
      rest (if bool_decide (kind op = WhenAny) && negb (decided h1 op)
            then decide_ (set_winner h1 op (Some c)) op Resume else (h1, []))
  | Pending | Running => None
  end.

(** The rest of [child_completed]. *)
Definition child_counted (h : heap) (op c : nat) : heap * stack :=
  let h1 :=
    if bool_decide (kind op = TaskGroup) then
      let h' := match ended h op with
                | [] => set_groups_with_ended h (op :: groups_with_ended h)
                | _ => h
                end in
      set_ended h' op (c :: ended h' op)
    else h in
  settle_if_idle (set_pending h1 op (pending h1 op - 1)) op.

(** [async_node::cancel]. *)
Definition cancel (h : heap) (n : nat) (k : stack) : heap * stack :=
  if done (state h n) || cancel_requested h n then (h, k) else
  let h1 := set_cancel_requested h n true in
  match kind n with
  | Task => (h1, match child h1 n with Some c => CancelNode c :: k | None => k end)
  | Waiter => (h1, CancelWait n :: k)
  | WhenAll | WhenAny | TaskGroup => resume_and_drain h1 k (λ h, cancel_all h n)
  | SystemIO => (h1, Code :: k)
  end.

Definition anything_ended (h : heap) : bool :=
  negb (bool_decide (ended_roots h = [])) || negb (bool_decide (groups_with_ended h = [])).

(** [io_op::complete]; [None] where its assertion fails. *)
Definition complete (h : heap) (n : nat) (k : stack) : option (heap * stack) :=
  let h1 := set_state h n (if cancel_requested h n then Cancelled else Succeeded) in
  match parent h1 n with
  | None => None
  | Some p => Some (resume_and_drain (set_parent h1 n None) k (λ h, (h, [on_child_complete p n])))
  end.

(** [wait_node::resume], less what it does to the primitive (Sync.v). *)
Definition wait_resume (h : heap) (w : nat) (k : stack) : option (heap * stack) :=
  match parent h w with
  | None => None
  | Some t =>
      let h1 := set_child h t None in
      Some (resume_and_drain h1 k (λ h,
        if cancel_requested h w then finish h t Cancelled else (h, [Handle (Some t)])))
  end.

(** [wait_node::cancel_wait] where it ends the wait. *)
Definition end_wait (h : heap) (w : nat) (k : stack) : option (heap * stack) :=
  match parent h w with
  | None => None
  | Some p =>
      Some (resume_and_drain (set_state h w Cancelled) k (λ h,
        (set_parent h w None, [on_child_complete p w])))
  end.

(** ** The loops, a round at a time *)

(** [cancel_children]: the head goes to the tail, and is cancelled. *)
Definition cancel_children_loop (h : heap) (op count : nat) (k : stack) : heap * stack :=
  match count with
  | 0 => (h, k)
  | S count =>
      match kids h op with
      | [] => (h, k)
      | c :: _ => (link (unlink h op c) op c, CancelNode c :: CancelChildren op count :: k)
      end
  end.

(** [arm]: a child starts; [None] where its assertion fails.  The pin goes
    after the last one. *)
Definition arm_loop (h : heap) (op : nat) (rest : list nat) (k : stack) : option (heap * stack) :=
  match rest with
  | [] => let '(h1, fs) := settle_if_idle (unpin h op) op in Some (h1, fs ++ k)
  | c :: rest =>
      if bool_decide (state h c = Pending)
      then Some (resume_and_drain h (Arm op rest :: k) (λ h, start h c (Some op)))
      else None
  end.

Definition destroy_frames_loop (h : heap) (frames : list nat) (k : stack) : heap * stack :=
  match frames with
  | [] => (h, k)
  | f :: fs => (set_destroyed h f true, Code :: DestroyFrames fs :: k)
  end.

(** [leave_resumption]: drains what is deferred, if a loop runs; then destroys
    what ended and goes round, or is over. *)
Definition leave_resumption_loop (h : heap) (k : stack) : heap * stack :=
  (h, if loop_running h then DrainDeferred :: LeaveDrained :: k else LeaveDrained :: k).
Definition leave_resumption_drained (h : heap) (k : stack) : heap * stack :=
  if anything_ended h then (h, DestroyEnded :: LeaveResumption :: k) else (set_resuming h false, k).

(** [destroy_ended], and its two inner loops. *)
Definition destroy_ended_loop (h : heap) (k : stack) : heap * stack :=
  (h, if anything_ended h then EndedRoots :: k else k).
Definition destroy_ended_roots (h : heap) (k : stack) : heap * stack :=
  match last (ended_roots h) with
  | Some root =>
      (set_destroyed (set_ended_roots h (removelast (ended_roots h))) root true,
       Code :: EndedRoots :: k)
  | None => (h, EndedGroups :: k)
  end.
Definition destroy_ended_groups (h : heap) (k : stack) : heap * stack :=
  match groups_with_ended h with
  | g :: _ =>
      let '(h1, frames) := take_ended h g in (h1, DestroyFrames frames :: EndedGroups :: k)
  | [] => (h, DestroyEnded :: k)
  end.

Definition drain_deferred_loop (h : heap) (k : stack) : option (heap * stack) :=
  match deferred h with
  | [] => Some (h, k)
  | n :: rest =>
      let h1 := set_deferred h rest in
      if bool_decide (kind n = Waiter) then wait_resume h1 n (DrainDeferred :: k)
      else complete h1 n (DrainDeferred :: k)
  end.

Definition abandon_children_loop (h : heap) (g : nat) (k : stack) : heap * stack :=
  let '(h1, frames) := take_ended h g in
  match frames, kids h1 g with
  | _ :: _, _ => (h1, DestroyFrames frames :: Abandon g :: k)
  | [], [] => (h1, k)
  | [], c :: _ =>
      let h2 := set_parent (unlink h1 g c) c None in
      let h3 := set_owned_by_loop (set_hook h2 c false) c true in
      (set_abandoned h3 g (abandoned h3 g + 1), CancelNode c :: Abandon g :: k)
  end.

#[global] Arguments cancel_children_loop _ _ _ _ /.
#[global] Arguments arm_loop _ _ _ _ /.
#[global] Arguments destroy_frames_loop _ _ _ /.
#[global] Arguments leave_resumption_loop _ _ /.
#[global] Arguments leave_resumption_drained _ _ /.
#[global] Arguments destroy_ended_loop _ _ /.
#[global] Arguments destroy_ended_roots _ _ /.
#[global] Arguments destroy_ended_groups _ _ /.
#[global] Arguments drain_deferred_loop _ _ /.
#[global] Arguments abandon_children_loop _ _ _ /.

(** ** The runtime's steps *)

Definition tick (h : heap) (s : stack) : option (heap * stack) :=
  match s with
  | CancelNode n :: k => Some (cancel h n k)
  | CancelChildren op count :: k => Some (cancel_children_loop h op count k)
  | Unpin op :: k => let '(h1, fs) := settle_if_idle (unpin h op) op in Some (h1, fs ++ k)
  | Arm op rest :: k => arm_loop h op rest k
  | TaskComplete t c :: k =>
      match task_complete h t c with Some (h1, fs) => Some (h1, fs ++ k) | None => None end
  | ChildCompleted op c :: k =>
      match child_completed h op c with Some (h1, fs) => Some (h1, fs ++ k) | None => None end
  | Decided op c :: k => let '(h1, fs) := child_counted h op c in Some (h1, fs ++ k)
  | Settled t end_ caught :: k =>
      let '(h1, fs) := awaited_ended h t end_ caught in Some (h1, fs ++ k)
  | Noop :: k => Some (h, Handle None :: k)
  | Handle (Some t) :: Resumption o :: k => Some (h, Body t :: Resumption o :: k)
  | Handle None :: Resumption o :: k => Some (h, if o then LeaveResumption :: k else k)
  | DestroyFrames frames :: k => Some (destroy_frames_loop h frames k)
  | LeaveResumption :: k => Some (leave_resumption_loop h k)
  | LeaveDrained :: k => Some (leave_resumption_drained h k)
  | DestroyEnded :: k => Some (destroy_ended_loop h k)
  | EndedRoots :: k => Some (destroy_ended_roots h k)
  | EndedGroups :: k => Some (destroy_ended_groups h k)
  | DrainDeferred :: k => drain_deferred_loop h k
  | Abandon g :: k => Some (abandon_children_loop h g k)
  | Code :: _ | Body _ :: _ | CancelWait _ :: _ | Handle _ :: _ | Resumption _ :: _ | [] => None
  end.

(** ** What the program may do *)

Inductive action :=
(* in any code *)
| ACancel (t : nat)                     (* [task::cancel] *)
| AGroupCancel (g : nat)                (* [task_group::cancel] *)
| ASpawn (g t : nat)                    (* [task_group::spawn] *)
| AAbandon (g : nat)                    (* [~task_group] *)
| AComplete (n : nat)                   (* [io_op::complete] *)
| ADefer (n : nat)                      (* [io_op::complete_deferred] *)
| AGrant (w : nat)                      (* a primitive grants a wait: [defer_resume] *)
| ASchedule (t : nat) (owned : bool)    (* [event_loop::schedule] *)
| ADrop (t : nat)                       (* [~task] *)
| AReturn                               (* the code returns *)
(* the loop, with nothing else on the stack *)
| ARunRoot                              (* [each] starts the next scheduled root *)
| ADrain                                (* [on_check] *)
| ALoop (running : bool)                (* [run] begins, or returns *)
(* in a coroutine *)
| AAwait (c : nat) (caught or_fail : bool)
| AArm (op : nat) (cs : list nat)       (* [co_await when_all(cs...)], [when_any] *)
| AJoin (g : nat)                       (* [co_await group.join()] *)
| AWait (w : nat)                       (* [co_await] of a wait that is not ready *)
| AAttach (n : nat)                     (* [co_await] of an I/O operation *)
| ACoReturn
| AFail (e : nat)                       (* [co_await fail(e)], [co_return outcome_error(e)] *)
| AThrow                                (* an exception leaves the body *)
| ACancelSelf                           (* [co_await cancel()] *)
(* in [cancel_wait] *)
| AWaitEnds
| AWaitStays.

(** A wait or an operation a task awaits, and no one has granted or completed. *)
Definition live_leaf (h : heap) (n : nat) : bool :=
  match parent h n with
  | Some t => bool_decide (child h t = Some n ∧ state h n = Running ∧ n ∉ deferred h)
  | None => false
  end.

Definition refers_to (g : nat) (f : frame) : bool :=
  match f with
  | CancelChildren op _ | Unpin op | Decided op _ => op =? g
  | _ => false
  end.

Definition fresh_task (h : heap) (t : nat) : bool := is_task t && negb (claimed h t).
Definition claim (h : heap) (t : nat) : heap := set_claimed h t true.

Definition guarded {A} (b : bool) (x : option A) : option A := if b then x else None.

Definition final_suspend (h : heap) (t : nat) : State :=
  if threw h t || bool_decide (error h t ≠ None) then Failed
  else if cancel_requested h t then Cancelled else Succeeded.

(** A child's object is handed over, and its hook set: [watch]. *)
Definition watch_all (h : heap) (cs : list nat) : heap :=
  mkHeap (state h) (cancel_requested h) (intercept h) (parent h) (child h)
    (λ n, if bool_decide (n ∈ cs) then fallible n else hook h n) (threw h) (error h)
    (owned_by_loop h) (scheduled h) (kids h) (pending h) (winner h) (ended h) (decision h)
    (exception h) (errors h) (λ n, bool_decide (n ∈ cs) || claimed h n) (home h) (abandoned h)
    (gone h) (destroyed h) (resuming h) (ended_roots h) (groups_with_ended h) (deferred h)
    (tasks h) (loop_running h).

(** [link] of each of [cs] in turn. *)
Definition link_all (h : heap) (op : nat) (cs : list nat) : heap :=
  mkHeap (state h) (cancel_requested h) (intercept h) (parent h) (child h) (hook h) (threw h)
    (error h) (owned_by_loop h) (scheduled h) (<[op := kids h op ++ cs]> (kids h)) (pending h)
    (winner h) (ended h) (decision h) (exception h) (errors h) (claimed h)
    (λ n, if bool_decide (n ∈ cs) then Some op else home h n) (abandoned h) (gone h)
    (destroyed h) (resuming h) (ended_roots h) (groups_with_ended h) (deferred h) (tasks h)
    (loop_running h).

(** [task_group::spawn] and [aggregate_op::spawn]. *)
Definition spawn (h : heap) (g t : nat) (k : stack) : heap * stack :=
  if decided h g || done (state h g) then (h, k) else
  let h1 := link_all (watch_all h [t]) g [t] in
  let h2 := set_pending h1 g (pending h1 g + 1) in
  resume_and_drain h2 k (λ h, start h t (Some g)).

Definition group_cancel (h : heap) (g : nat) (k : stack) : heap * stack :=
  if decided h g || done (state h g) then (h, k) else
  resume_and_drain (set_decision h g Resume) k (λ h, cancel_all h g).

(** [~task]. *)
Definition drop_task (h : heap) (t : nat) (k : stack) : option (heap * stack) :=
  if scheduled h t && negb (done (state h t)) then
    Some (set_owned_by_loop h t true, CancelNode t :: k)
  else guarded (negb (bool_decide (state h t = Running)))
         (Some (set_destroyed (claim h t) t true, Code :: k)).

(** What any code may do; [s] is the stack, its code on top. *)
Definition act_code (a : action) (h : heap) (s : stack) : option (heap * stack) :=
  match a with
  | ACancel t => guarded (is_task t && negb (destroyed h t)) (Some (h, CancelNode t :: s))
  | AGroupCancel g =>
      guarded (bool_decide (kind g = TaskGroup) && negb (gone h g)) (Some (group_cancel h g s))
  | ASpawn g t =>
      guarded (bool_decide (kind g = TaskGroup) && negb (gone h g) && fresh_task h t)
        (Some (spawn h g t s))
  | AAbandon g =>
      guarded (bool_decide (kind g = TaskGroup) && negb (gone h g) &&
               bool_decide (parent h g = None) && negb (existsb (refers_to g) s))
        (Some (set_cancel_requested (set_gone h g true) g true, Abandon g :: s))
  | AComplete n => guarded (bool_decide (kind n = SystemIO) && live_leaf h n) (complete h n s)
  | ADefer n =>
      guarded (bool_decide (kind n = SystemIO) && live_leaf h n)
        (Some (set_deferred h (deferred h ++ [n]), s))
  | AGrant w =>
      guarded (bool_decide (kind w = Waiter) && live_leaf h w)
        (Some (set_deferred h (deferred h ++ [w]), s))
  | ASchedule t owned =>
      guarded (fresh_task h t)
        (let h1 := set_owned_by_loop (set_scheduled (claim h t) t true) t owned in
         Some (set_tasks h1 (tasks h1 ++ [t]), s))
  | ADrop t =>
      guarded (is_task t && negb (destroyed h t) && negb (owned_by_loop h t) &&
               (negb (claimed h t) || scheduled h t))
        (drop_task h t s)
  | _ => None
  end.

(** What the loop does between callbacks. *)
Definition act_loop (a : action) (h : heap) : option (heap * stack) :=
  match a with
  | ARunRoot =>
      match tasks h with
      | t :: rest =>
          guarded (bool_decide (state h t = Pending))
            (Some (resume_and_drain (set_tasks h rest) [Code] (λ h, start h t None)))
      | [] => None
      end
  | ADrain => guarded (loop_running h) (Some (h, [DrainDeferred; Code]))
  | ALoop b => Some (set_loop_running h b, [Code])
  | _ => None
  end.

(** The co_awaits of the body of [t]; each ends it instead, or cancels what it
    awaits, if a cancel has been asked for. *)
Definition await_task (h : heap) (t c : nat) (caught or_fail : bool) : heap * stack :=
  match checkpoint h t with
  | Some ended => ended
  | None =>
      let h1 := set_hook (set_intercept (claim h c) c caught) c or_fail in
      start (set_child h1 t (Some c)) c (Some t)
  end.

Definition arm (h : heap) (op t : nat) (cs : list nat) : heap * stack :=
  match checkpoint h t with
  | Some ended => ended
  | None =>
      let h1 := set_pending (awaited_by h op t) op (length cs) in
      (pin (link_all h1 op cs) op, [Arm op cs])
  end.

Definition await_children (h : heap) (g t : nat) : heap * stack :=
  let h1 := awaited_by h g t in
  if cancel_requested h1 t then cancel_all (set_cancel_requested h1 g true) g
  else (h1, [Handle None]).

(** [join_awaiter]: a group with no child left is ready. *)
Definition join (h : heap) (g t : nat) : heap * stack :=
  if pending h g =? 0 then
    let '(h1, frames) := take_ended (set_state h g (settled_state h g)) g in
    (h1, [DestroyFrames frames; Body t])
  else await_children h g t.

Definition wait (h : heap) (w t : nat) : heap * stack :=
  match checkpoint h t with
  | Some ended => ended
  | None => (awaited_by h w t, [Handle None])
  end.

Definition attach (h : heap) (n t : nat) : heap * stack :=
  let h1 := awaited_by h n t in
  (h1, if cancel_requested h1 t then [CancelNode n; Noop] else [Handle None]).

#[global] Arguments await_task _ _ _ _ _ /.
#[global] Arguments arm _ _ _ _ /.
#[global] Arguments await_children _ _ _ /.
#[global] Arguments join _ _ _ /.
#[global] Arguments wait _ _ _ /.
#[global] Arguments attach _ _ _ /.

(** The co_awaits and the ends of the body of [t]; [None] for a node that is
    in use. *)
Definition act_body (a : action) (h : heap) (t : nat) : option (heap * stack) :=
  match a with
  | AAwait c caught or_fail =>
      guarded (fresh_task h c && implb or_fail (fallible c && fallible t))
        (Some (await_task h t c caught or_fail))
  | AArm op cs =>
      guarded ((bool_decide (kind op = WhenAll) || bool_decide (kind op = WhenAny)) &&
               bool_decide (state h op = Pending) && negb (bool_decide (cs = [])) &&
               bool_decide (NoDup cs) && forallb (fresh_task h) cs)
        (Some (arm (watch_all h cs) op t cs))
  | AJoin g =>
      guarded (bool_decide (kind g = TaskGroup) && negb (gone h g) &&
               bool_decide (state h g = Pending))
        (Some (join h g t))
  | AWait w =>
      guarded (bool_decide (kind w = Waiter) && bool_decide (state h w = Pending))
        (Some (wait h w t))
  | AAttach n =>
      guarded (bool_decide (kind n = SystemIO) && bool_decide (state h n = Pending))
        (Some (attach h n t))
  | ACoReturn => Some (finish h t (final_suspend h t))
  | AFail e =>
      guarded (fallible t) (let h1 := set_error h t (Some e) in Some (finish h1 t (final_suspend h1 t)))
  | AThrow => let h1 := set_threw h t true in Some (finish h1 t (final_suspend h1 t))
  | ACancelSelf => Some (finish h t Cancelled)
  | _ => None
  end.

Definition act (a : action) (h : heap) (s : stack) : option (heap * stack) :=
  match s with
  | [Code] => match act_loop a h with Some r => Some r | None => act_code a h s end
  | Code :: k => match a with AReturn => Some (h, k) | _ => act_code a h s end
  | Body t :: k =>
      match act_body a h t with
      | Some (h1, fs) => Some (h1, fs ++ k)
      | None => act_code a h s
      end
  | CancelWait w :: k =>
      match a with
      | AWaitEnds => guarded (bool_decide (w ∉ deferred h)) (end_wait h w k)
      | AWaitStays => Some (h, k)
      | AGrant _ => act_code a h s
      | _ => None
      end
  | _ => None
  end.

(** One step: the runtime's, or the program's. *)
Definition step (a : option action) (hs : heap * stack) : option (heap * stack) :=
  match a with
  | None => tick (fst hs) (snd hs)
  | Some a => act a (fst hs) (snd hs)
  end.

Fixpoint run (l : list (option action)) (hs : heap * stack) : option (heap * stack) :=
  match l with
  | [] => Some hs
  | a :: l => match step a hs with Some hs' => run l hs' | None => None end
  end.

(** No node is in use yet. *)
Definition initial : heap :=
  mkHeap (λ _, Pending) (λ _, false) cancel_channel (λ _, None) (λ _, None) (λ _, false)
    (λ _, false) (λ _, None) (λ _, false) (λ _, false) (λ _, []) (λ _, 0) (λ _, None) (λ _, [])
    (λ _, NoDecision) (λ _, None) (λ _, []) (λ _, false) (λ _, None) (λ _, 0) (λ _, false)
    (λ _, false) false [] [] [] [] false.

Definition begin : heap * stack := (initial, [Code]).

Inductive reachable : heap * stack → Prop :=
| reach_begin : reachable begin
| reach_step hs a hs' : reachable hs → step a hs = Some hs' → reachable hs'.
End Machine.
