(* ===== verification/NodeTree.v ===== *)
(** The invariant of the task tree (Node.v) and what follows from it on every
    reachable state: a task's body runs once at a time and never after its end,
    [pending] counts what it should, an aggregate settles once every child
    has ended, no completion is lost, and the runtime never gets stuck: none
    of its assertions fails.

    The invariant [core] speaks of the stack through what its frames hold:
    the tasks that run or are about to ([holds], and those of them that await
    nothing, [free]), the pins and the completions in flight ([refs]), the
    children [arm] has not started ([arms]), and the child whose end is being
    delivered ([completing]). *)

From Stdlib Require Import Lia Bool.
From stdpp Require Import functions prelude list.
From S2P Require Import Prelude Node.

(** ** What the frames hold *)

Definition holds1 (f : frame) : list nat :=
  match f with
  | Body t | Handle (Some t) | TaskComplete t _ | Settled t _ _ => [t]
  | _ => []
  end.

Definition free1 (f : frame) : list nat :=
  match f with Body t | Handle (Some t) => [t] | _ => [] end.

Definition refs1 (f : frame) : list nat :=
  match f with Unpin op | Arm op _ | Decided op _ => [op] | _ => [] end.

Definition arms1 (f : frame) : list (nat * nat) :=
  match f with Arm op rest => (λ c, (op, c)) <$> rest | _ => [] end.

Definition holds (k : stack) : list nat := flat_map holds1 k.
Definition free (k : stack) : list nat := flat_map free1 k.
Definition refs (k : stack) : list nat := flat_map refs1 k.
Definition arms (k : stack) : list (nat * nat) := flat_map arms1 k.
Definition completing (k : stack) : option (nat * nat) :=
  match k with ChildCompleted op c :: _ => Some (op, c) | _ => None end.

Definition occ (x : nat) (l : list nat) : nat := length (filter (x =.) l).

Lemma occ_cons x y l : occ x (y :: l) = (if decide (x = y) then 1 else 0) + occ x l.
Proof. unfold occ. rewrite filter_cons. by destruct (decide (x = y)). Qed.

Section Tree.
Context `{P : Program}.

(** A wait or an operation that a task awaits. *)
Definition live (h : heap) (n : nat) : Prop :=
  ∃ t, parent h n = Some t ∧ child h t = Some n ∧ state h n = Running.

(** ** The invariant *)

Record core (h : heap) (H F R : list nat) (A : list (nat * nat)) (C : option (nat * nat)) : Prop := {
  c_nodup : NoDup H;
  c_held t : t ∈ H →
    kind t = Task ∧ state h t = Running ∧ ∀ c, child h t = Some c → done (state h c) = true;
  c_free_nodup : NoDup F;
  c_free t : t ∈ F → kind t = Task ∧ state h t = Running ∧ child h t = None;
  c_susp t : kind t = Task → state h t = Running → t ∉ H →
    ∃ c, child h t = Some c ∧ parent h c = Some t ∧ state h c = Running;
  c_child t c : child h t = Some c →
    kind t = Task ∧ state h t = Running ∧
    (kind c = Task → hook h c = true → fallible t = true);
  c_parent n p : parent h n = Some p →
    state h n = Running ∧
    ((kind n = Waiter ∧ kind p = Task) ∨ (kind p = Task ∧ child h p = Some n) ∨
     (is_aggregate p = true ∧ n ∈ kids h p));
  c_kids op n : n ∈ kids h op →
    is_aggregate op = true ∧ kind n = Task ∧ home h n = Some op ∧ hook h n = fallible n ∧
    ((parent h n = Some op ∧ state h n = Running) ∨ (state h n = Pending ∧ (op, n) ∈ A) ∨
     (done (state h n) = true ∧ C = Some (op, n)));
  c_kids_nodup op : NoDup (kids h op);
  c_arm op n : (op, n) ∈ A → n ∈ kids h op ∧ state h n = Pending ∧ kind op ≠ TaskGroup;
  c_arm_nodup : NoDup A.*2;
  c_completing op n : C = Some (op, n) → n ∈ kids h op ∧ done (state h n) = true;
  c_home n op : home h n = Some op →
    kind n = Task ∧ is_aggregate op = true ∧ claimed h n = true ∧
    (n ∈ kids h op ∨ done (state h n) = true ∨ 0 < abandoned h op);
  c_fresh n : kind n = Task → claimed h n = false → state h n = Pending;
  c_tasks_nodup : NoDup (tasks h);
  c_tasks t : t ∈ tasks h →
    kind t = Task ∧ claimed h t = true ∧ state h t = Pending ∧ home h t = None;
  c_pending op : is_aggregate op = true →
    pending h op = length (kids h op) + occ op R + abandoned h op;
  c_awaited op t : is_aggregate op = true → parent h op = Some t → 0 < pending h op;
  c_done op : is_aggregate op = true → done (state h op) = true → pending h op = 0;
  c_idle op : kind op = WhenAll ∨ kind op = WhenAny → state h op = Pending → pending h op = 0;
  c_gone op : gone h op = true → kind op = TaskGroup ∧ parent h op = None;
  c_abandoned op : gone h op = false → abandoned h op = 0;
  c_failed n : kind n = Task → state h n = Failed → threw h n = false → error h n ≠ None;
  c_error n : error h n ≠ None → fallible n = true;
  c_deferred_nodup : NoDup (deferred h);
  c_deferred n : n ∈ deferred h → (kind n = Waiter ∨ kind n = SystemIO) ∧ live h n;
}.

Definition coreS (h : heap) (k : stack) : Prop :=
  core h (holds k) (free k) (refs k) (arms k) (completing k).

(** What the innermost frame has been called with. *)
Definition top_ok (h : heap) (k : stack) : Prop :=
  match k with
  | TaskComplete t c :: _ => child h t = Some c ∧ done (state h c) = true
  | CancelNode n :: _ => kind n = Task ∨ live h n ∨ done (state h n) = true
  | CancelWait n :: _ => kind n = Waiter ∧ live h n
  | _ => True
  end.

(** ** Reading the invariant *)

Lemma agg_kind n :
  is_aggregate n = true → kind n ≠ Task ∧ kind n ≠ Waiter ∧ kind n ≠ SystemIO.
Proof. unfold is_aggregate. by destruct (kind n). Qed.

Lemma running_not_done s : s = Running → done s = false.
Proof. by intros ->. Qed.

(** A task that awaits a node which has not ended is not held. *)
Lemma live_not_held h H F R A C n t :
  core h H F R A C → child h t = Some n → state h n = Running → t ∉ H.
Proof.
  intros Hc Hn Hr Ht. destruct (c_held _ _ _ _ _ _ Hc t Ht) as (_ & _ & Hd).
  specialize (Hd n Hn). rewrite Hr in Hd. done.
Qed.

Lemma child_started h H F R A C t c :
  core h H F R A C → child h t = Some c → state h c ≠ Pending.
Proof.
  intros Hc Ht Hs. destruct (decide (t ∈ H)) as [Hi|Hi].
  - apply (c_held _ _ _ _ _ _ Hc) in Hi as (_ & _ & Hd). specialize (Hd c Ht). by rewrite Hs in Hd.
  - pose proof (c_child _ _ _ _ _ _ Hc t c Ht) as (Hk & Hr & _).
    destruct (c_susp _ _ _ _ _ _ Hc t Hk Hr Hi) as (c' & Hc' & _ & Hr'). congruence.
Qed.

End Tree.

(** ** Automation *)

Lemma not_cons (x a : nat) L : a ≠ x → x ∉ L → x ∉ a :: L.
Proof. intros H1 H2 H3. inversion H3; subst; done. Qed.
Arguments child_started {P h H F R A C t c} _ _.
Arguments live_not_held {P h H F R A C n t} _ _ _.
Arguments c_nodup {P h H F R A C} _.
Arguments c_held {P h H F R A C} _.
Arguments c_free_nodup {P h H F R A C} _.
Arguments c_free {P h H F R A C} _.
Arguments c_susp {P h H F R A C} _.
Arguments c_child {P h H F R A C} _.
Arguments c_parent {P h H F R A C} _.
Arguments c_kids {P h H F R A C} _.
Arguments c_kids_nodup {P h H F R A C} _.
Arguments c_arm {P h H F R A C} _.
Arguments c_arm_nodup {P h H F R A C} _.
Arguments c_completing {P h H F R A C} _.
Arguments c_home {P h H F R A C} _.
Arguments c_fresh {P h H F R A C} _.
Arguments c_tasks_nodup {P h H F R A C} _.
Arguments c_tasks {P h H F R A C} _.
Arguments c_pending {P h H F R A C} _.
Arguments c_awaited {P h H F R A C} _.
Arguments c_done {P h H F R A C} _.
Arguments c_idle {P h H F R A C} _.
Arguments c_gone {P h H F R A C} _.
Arguments c_abandoned {P h H F R A C} _.
Arguments c_failed {P h H F R A C} _.
Arguments c_error {P h H F R A C} _.
Arguments c_deferred_nodup {P h H F R A C} _.
Arguments c_deferred {P h H F R A C} _.

(** Facts of the invariant that a step leaves alone. *)
Ltac keep Hc :=
  first [exact (c_nodup Hc) | exact (c_held Hc) | exact (c_free_nodup Hc) | exact (c_free Hc) | exact (c_susp Hc)
        | exact (c_child Hc) | exact (c_parent Hc) | exact (c_kids Hc) | exact (c_kids_nodup Hc)
        | exact (c_arm Hc) | exact (c_arm_nodup Hc) | exact (c_completing Hc) | exact (c_home Hc)
        | exact (c_fresh Hc) | exact (c_tasks_nodup Hc) | exact (c_tasks Hc)
        | exact (c_pending Hc) | exact (c_awaited Hc) | exact (c_done Hc) | exact (c_idle Hc)
        | exact (c_gone Hc) | exact (c_abandoned Hc) | exact (c_failed Hc) | exact (c_error Hc)
        | exact (c_deferred_nodup Hc) | exact (c_deferred Hc)].

(** Case analysis on which node a field is read at. *)
Ltac fcase :=
  repeat match goal with
  | H : context [<[?a := _]> _ ?a] |- _ => rewrite fn_lookup_insert in H
  | |- context [<[?a := _]> _ ?a] => rewrite fn_lookup_insert
  | N : ?a ≠ ?b, H : context [<[?a := _]> _ ?b] |- _ => rewrite (fn_lookup_insert_ne _ a b _ N) in H
  | N : ?a ≠ ?b |- context [<[?a := _]> _ ?b] => rewrite (fn_lookup_insert_ne _ a b _ N)
  | H : context [<[?a := _]> _ ?b] |- _ =>
      destruct (decide (a = b)); [subst; rewrite ?fn_lookup_insert in H
                                 | rewrite ?fn_lookup_insert_ne in H by done]
  | |- context [<[?a := _]> _ ?b] =>
      destruct (decide (a = b)); [subst; rewrite ?fn_lookup_insert
                                 | rewrite ?fn_lookup_insert_ne by done]
  | H : context [bool_decide _] |- _ => case_bool_decide; cbn [orb] in *
  | |- context [bool_decide _] => case_bool_decide; cbn [orb] in *
  end.

Inductive seen (T : Prop) : Prop := was_seen.

(** Adds a fact once. *)
Ltac learn pf :=
  let T := type of pf in
  match goal with
  | _ : seen T |- _ => fail 1
  | _ => pose proof pf; pose proof (was_seen T)
  end.

Ltac break :=
  repeat match goal with
  | H : _ ∧ _ |- _ => destruct H
  | H : ∃ _, _ |- _ => destruct H
  | H : live _ _ |- _ => destruct H
  end.

(** Reads the invariant at the nodes at hand. *)
Ltac sat Hc :=
  match type of Hc with core ?h ?HL ?F ?R ?A ?C =>
  repeat (break; match goal with
  | H : ?t ∈ HL |- _ => learn (c_held Hc t H)
  | H : ?t ∈ F |- _ => learn (c_free Hc t H)
  | H : child h ?t = Some ?c |- _ => learn (c_child Hc t c H)
  | H : child h ?t = Some ?c |- _ => learn (child_started Hc H)
  | H : parent h ?n = Some ?p |- _ => learn (c_parent Hc n p H)
  | H : ?n ∈ kids h ?op |- _ => learn (c_kids Hc op n H)
  | H : (?op, ?n) ∈ A |- _ => learn (c_arm Hc op n H)
  | H : C = Some (?op, ?n) |- _ => learn (c_completing Hc op n H)
  | |- _ => match C with Some (?op, ?n) => learn (c_completing Hc op n eq_refl) end
  | H : home h ?n = Some ?op |- _ => learn (c_home Hc n op H)
  | H : ?t ∈ tasks h |- _ => learn (c_tasks Hc t H)
  | H : ?n ∈ deferred h |- _ => learn (c_deferred Hc n H)
  | H : gone h ?op = true |- _ => learn (c_gone Hc op H)
  | H1 : kind ?t = Task, H2 : state h ?t = Running, H3 : ?t ∉ HL |- _ =>
      learn (c_susp Hc t H1 H2 H3)
  | H1 : kind ?t = Task, H2 : claimed h ?t = false |- _ => learn (c_fresh Hc t H1 H2)
  | H1 : is_aggregate ?op = true |- _ => learn (agg_kind op H1)
  | H1 : is_aggregate ?op = true, H2 : parent h ?op = Some ?t |- _ =>
      learn (c_awaited Hc op t H1 H2)
  | H1 : is_aggregate ?op = true, H2 : done (state h ?op) = true |- _ =>
      learn (c_done Hc op H1 H2)
  | H1 : child h ?t = Some ?c, H2 : state h ?c = Running |- _ =>
      learn (live_not_held Hc H1 H2)
  | H : ?x ∈ ?L |- _ => match HL with ?a :: L => learn (list_elem_of_further x a L H) end
  | H : ?x ∈ ?L |- _ => match F with ?a :: L => learn (list_elem_of_further x a L H) end
  | H : ?x ∈ ?L |- _ => match A with ?a :: L => learn (list_elem_of_further x a L H) end
  | H : ?x ∉ ?L, H2 : ?a ≠ ?x |- _ =>
      match HL with a :: L => learn (not_cons x a L H2 H) end
  | H1 : kind ?n = Task, H2 : state h ?n = Failed, H3 : threw h ?n = false |- _ =>
      learn (c_failed Hc n H1 H2 H3)
  | H1 : kind ?n = WhenAll ∨ kind ?n = WhenAny, H2 : state h ?n = Pending |- _ =>
      learn (c_idle Hc n H1 H2)
  | H1 : ∀ x, x ∈ ?L → _, H2 : ?y ∈ ?L |- _ => learn (H1 y H2)
  | H1 : ∀ c, child h ?t = Some c → _, H2 : child h ?t = Some ?c |- _ => learn (H1 c H2)
  | H : _ ∈ [] |- _ => inversion H
  | H : ?x ∈ filter _ _ |- _ => apply list_elem_of_filter in H
  | H : ?x ∈ _ ++ _ |- _ => apply elem_of_app in H
  | H : ?x ∈ ?a :: ?L |- _ =>
      constr_eq (a :: L) A; learn (proj1 (elem_of_cons L x a) H)
  | H : ?x ∈ ?a :: ?L |- _ =>
      tryif first [constr_eq (a :: L) HL | constr_eq (a :: L) F | constr_eq (a :: L) A]
      then fail else (apply elem_of_cons in H; destruct H as [?|H]; [simplify_eq|])
  | H : ?x ∉ ?a :: ?L |- _ =>
      tryif constr_eq (a :: L) HL then fail else apply not_elem_of_cons in H
  end); break
  end.

(** Ends a branch that cannot be. *)
Ltac contra :=
  match goal with
  | H1 : state ?h ?n = _, H2 : done (state ?h ?n) = true |- _ => rewrite H1 in H2; discriminate H2
  | H1 : ?x ∈ ?L, H2 : ?x ∉ ?L |- _ => destruct (H2 H1)
  | H1 : ?x ∈ ?L, H2 : ∀ x, x ∉ ?L |- _ => destruct (H2 x H1)
  | H1 : (?o, ?x) ∈ ?L, H2 : ∀ o, (o, ?x) ∉ ?L |- _ => destruct (H2 o H1)
  | H : done ?e = true, H2 : ?e = _ |- _ => rewrite H2 in H; discriminate H
  | _ => congruence
  end.

Ltac close :=
  match goal with
  | |- _ => assumption
  | |- _ => contra
  | |- _ ∈ filter _ _ => apply list_elem_of_filter; split; close
  | |- _ ∈ _ ++ _ => apply elem_of_app; close
  | |- ?x ∈ ?x :: _ => left
  | |- _ ∧ _ => split; close
  | |- _ < _ => lia
  | |- _ ≠ _ => let E := fresh in intros E; subst; contra
  | |- _ ∨ _ => first [left; close_and | right; close]
  | _ => solve [eauto]
  end
with close_and :=
  match goal with
  | |- _ ∧ _ => split; close_and
  | _ => close
  end.

(** What [pending] counts. *)
Ltac count Hc :=
  repeat match goal with
  | H : is_aggregate ?op = true |- _ => learn (c_pending Hc op H)
  | H : gone _ ?op = false |- _ => learn (c_abandoned Hc op H)
  end;
  rewrite ?occ_cons, ?length_app in *; simpl length in *; repeat case_decide; simplify_eq; lia.

(** Proves a clause of the invariant from the invariant before. *)
Ltac crush Hc :=
  intros; fcase;
  try match goal with
  | _ : ?n ≠ ?c |- context [?n ∈ filter (λ x, x ≠ ?c) _] => idtac
  | |- context [?n ∈ filter (λ x, x ≠ ?c) _] => destruct (decide (n = c)); [subst|]
  end;
  sat Hc; try solve [contra];
  lazymatch goal with
  | |- NoDup _ => idtac
  | |- child ?h ?t = None =>
      let E := fresh in destruct (child h t) eqn:E; [sat Hc; contra|reflexivity]
  | |- _ ∧ _ => split; crush Hc
  | Hx : parent _ ?n = Some ?t |- live _ ?n => exists t; simpl; split_and!; crush Hc
  | Hx : child _ ?t = Some ?c, Hy : parent _ ?c = Some ?t |- ∃ _, _ =>
      exists c; simpl; split_and!; crush Hc
  | |- ∃ _, _ => eexists; simpl; split_and!; try eassumption; crush Hc
  | |- _ => repeat (match goal with H : _ ∨ _ |- _ => destruct H end; sat Hc; try solve [contra]);
            simplify_eq; try solve [close | count Hc]
  end.

Section Same.
Context `{P : Program}.

(** The invariant reads some fields only, and lists of children as sets. *)
Lemma core_same h h' H F R A C :
  core h H F R A C →
  (∀ op, kids h' op ≡ₚ kids h op) →
  state h' = state h → parent h' = parent h → child h' = child h → hook h' = hook h →
  threw h' = threw h → error h' = error h → pending h' = pending h →
  claimed h' = claimed h → home h' = home h → abandoned h' = abandoned h → gone h' = gone h →
  tasks h' = tasks h → deferred h' = deferred h → core h' H F R A C.
Proof.
  intros Hc Hk E1 E2 E3 E4 E5 E6 E8 E9 E10 E11 E12 E13 E14.
  assert (Hs : ∀ o x, x ∈ kids h' o ↔ x ∈ kids h o) by (intros o x; by rewrite Hk).
  destruct h, h'; simpl in *; subst. constructor; simpl; try keep Hc.
  - intros ? ?. rewrite Hs. apply (c_parent Hc).
  - intros ? ?. rewrite Hs. apply (c_kids Hc).
  - intros op. rewrite Hk. apply (c_kids_nodup Hc).
  - intros ? ?. rewrite Hs. apply (c_arm Hc).
  - intros ? ?. rewrite Hs. apply (c_completing Hc).
  - intros ? ?. rewrite Hs. apply (c_home Hc).
  - intros op. rewrite Hk. apply (c_pending Hc).
Qed.

End Same.

(** Updates of fields the invariant does not read. *)
Ltac same Hc := apply (core_same _ _ _ _ _ _ _ Hc); try reflexivity.

Ltac prep Hc :=
  try pose proof (NoDup_cons_1_1 _ _ (c_nodup Hc));
  try pose proof (NoDup_cons_1_1 _ _ (c_free_nodup Hc));
  constructor; simpl; try keep Hc;
  try solve [apply (NoDup_cons_1_2 _ _ (c_nodup Hc)) | apply (NoDup_cons_1_2 _ _ (c_free_nodup Hc))].

Section Moves.
Context `{P : Program}.

(** ** What each operation does to the invariant *)

Lemma finish_root h t e H F R A :
  core h (t :: H) (t :: F) R A None →
  parent h t = None → done e = true → (e = Failed → threw h t = false → error h t ≠ None) →
  core (set_state h t e) H F R A None.
Proof.
  intros Hc Hp Hd He.
  assert (Ht0 : t ∈ t :: H) by left. assert (Ht1 : t ∈ t :: F) by left.
  prep Hc; crush Hc.
Qed.

Lemma finish_task h t p e H F R A :
  core h (t :: H) (t :: F) R A None →
  parent h t = Some p → kind p = Task → done e = true →
  (e = Failed → threw h t = false → error h t ≠ None) →
  core (set_parent (set_state h t e) t None) (p :: H) F R A None ∧ child h p = Some t.
Proof.
  intros Hc Hp Hk Hd He.
  assert (Ht0 : t ∈ t :: H) by left. assert (Ht1 : t ∈ t :: F) by left.
  split; [|crush Hc]. assert (Hpn : p ∉ H) by (intros Hx; crush Hc).
  prep Hc; [apply NoDup_cons_2; [done|apply (NoDup_cons_1_2 _ _ (c_nodup Hc))]|..]; crush Hc.
Qed.

Lemma finish_agg h t p e H F R A :
  core h (t :: H) (t :: F) R A None →
  parent h t = Some p → is_aggregate p = true → done e = true →
  (e = Failed → threw h t = false → error h t ≠ None) →
  core (set_parent (set_state h t e) t None) H F R A (Some (p, t)).
Proof.
  intros Hc Hp Hk Hd He.
  assert (Ht0 : t ∈ t :: H) by left. assert (Ht1 : t ∈ t :: F) by left.
  prep Hc; crush Hc.
Qed.

Lemma clear_child h t H F R A C :
  core h (t :: H) F R A C → t ∉ F → core (set_child h t None) (t :: H) (t :: F) R A C.
Proof.
  intros Hc Hf. assert (Ht0 : t ∈ t :: H) by left.
  prep Hc; crush Hc. apply NoDup_cons_2; [done|apply (c_free_nodup Hc)].
Qed.

Lemma await_leaf h n t H F R A :
  core h (t :: H) (t :: F) R A None → kind n = Waiter ∨ kind n = SystemIO → state h n = Pending →
  core (awaited_by h n t) H F R A None.
Proof.
  intros Hc Hk Hs. assert (Ht0 : t ∈ t :: H) by left. assert (Ht1 : t ∈ t :: F) by left.
  prep Hc; crush Hc.
Qed.

Lemma await_group h g t H F R A :
  core h (t :: H) (t :: F) R A None → kind g = TaskGroup → state h g = Pending →
  pending h g ≠ 0 → gone h g = false →
  core (awaited_by h g t) H F R A None.
Proof.
  intros Hc Hk Hs Hp Hg. assert (Ht0 : t ∈ t :: H) by left. assert (Ht1 : t ∈ t :: F) by left.
  prep Hc; crush Hc.
Qed.

(** A wait, an operation or an aggregate with nothing pending ends. *)
Lemma end_leaf h n p e H F R A :
  core h H F R A None → kind n = Waiter ∨ kind n = SystemIO → parent h n = Some p →
  child h p = Some n → n ∉ deferred h → done e = true →
  core (set_parent (set_state h n e) n None) (p :: H) F R A None.
Proof.
  intros Hc Hk Hp Hch Hn Hd. assert (state h n = Running) by crush Hc.
  assert (Hpn : p ∉ H) by (apply (live_not_held Hc Hch); done).
  prep Hc; [by apply NoDup_cons_2, (c_nodup Hc)|..]; crush Hc.
Qed.

Lemma unpin_core h op H F R A C :
  core h H F (op :: R) A C → is_aggregate op = true →
  pending h op ≠ 1 ∨ parent h op = None →
  core (set_pending h op (pending h op - 1)) H F R A C.
Proof.
  intros Hc Ha Hp. 
  prep Hc; crush Hc.
Qed.

Lemma settle_core h op p e H F R A :
  core h H F (op :: R) A None → is_aggregate op = true → pending h op = 1 →
  parent h op = Some p → done e = true →
  core (set_parent (set_state (set_pending h op (pending h op - 1)) op e) op None) (p :: H) F R A None.
Proof.
  intros Hc Ha Hp1 Hp Hd. assert (state h op = Running ∧ child h p = Some op) as [? Hch] by crush Hc.
  assert (Hpn : p ∉ H) by (apply (live_not_held Hc Hch); done).
  prep Hc; [by apply NoDup_cons_2, (c_nodup Hc)|..]; crush Hc.
Qed.

(** [start] of a child of [arm]. *)
Lemma start_armed h op c H F R A :
  core h H F R ((op, c) :: A) None →
  core (set_state (set_parent h c (Some op)) c Running) (c :: H) (c :: F) R A None.
Proof.
  intros Hc. assert (Hi : (op, c) ∈ (op, c) :: A) by left.
  destruct (c_arm Hc op c Hi) as (Hk & Hs & _).
  assert (c ∉ H) by (intros Hx; crush Hc). assert (c ∉ F) by (intros Hx; crush Hc).
  assert (Hnd : ∀ o, (o, c) ∉ A).
  { intros o Ho. pose proof (NoDup_cons_1_1 _ _ (c_arm_nodup Hc)) as Hx. apply Hx.
    apply list_elem_of_fmap. by exists (o, c). }
  prep Hc; try (apply NoDup_cons_2; [done|keep Hc]); try apply (NoDup_cons_1_2 _ _ (c_arm_nodup Hc)).
  all: crush Hc.
Qed.

Lemma start_root h t H F R A rest :
  core h H F R A None → tasks h = t :: rest →
  core (set_state (set_parent (set_tasks h rest) t None) t Running) (t :: H) (t :: F) R A None.
Proof.
  intros Hc E. assert (Hi : t ∈ tasks h) by (rewrite E; left).
  assert (t ∉ H) by (intros Hx; crush Hc). assert (t ∉ F) by (intros Hx; crush Hc).
  pose proof (c_tasks_nodup Hc) as Hnd. rewrite E in Hnd. apply NoDup_cons_1_1 in Hnd as Hnd'.
  assert (∀ x, x ∈ rest → x ∈ tasks h) by (intros; rewrite E; by right).
  prep Hc; try (apply NoDup_cons_2; [done|keep Hc]); try solve [by apply NoDup_cons_1_2 in Hnd].
  all: crush Hc.
Qed.

Lemma start_awaited h t c b b' H F R A :
  core h (t :: H) (t :: F) R A None → kind c = Task → claimed h c = false →
  (b' = true → fallible t = true) →
  core (set_state (set_parent (set_child (set_hook (set_intercept (claim h c) c b) c b') t (Some c))
          c (Some t)) c Running) (c :: H) (c :: F) R A None.
Proof.
  intros Hc Hk Hcl Hb. assert (Hs := c_fresh Hc c Hk Hcl).
  assert (Ht0 : t ∈ t :: H) by left. assert (Ht1 : t ∈ t :: F) by left.
  assert (c ∉ H) by (intros Hx; crush Hc). assert (c ∉ F) by (intros Hx; crush Hc).
  prep Hc. 
  1: apply NoDup_cons_2; [done|apply (NoDup_cons_1_2 _ _ (c_nodup Hc))].
  2: apply NoDup_cons_2; [done|apply (NoDup_cons_1_2 _ _ (c_free_nodup Hc))].
  all: crush Hc.
Qed.

(** The end of a child is taken: it leaves the list, but still counts. *)
Lemma unlink_core h op c H F R A :
  core h H F R A (Some (op, c)) → core (unlink h op c) H F (op :: R) A None.
Proof.
  intros Hc. destruct (c_completing Hc op c eq_refl) as [Hk Hd].
  pose proof (length_filter_ne _ _ (c_kids_nodup Hc op) Hk) as Hl.
  prep Hc.
  all: try solve [intros; fcase; try apply NoDup_filter; apply (c_kids_nodup Hc)].
  all: crush Hc.
Qed.

Lemma rotate_perm h op c o :
  NoDup (kids h op) → c ∈ kids h op → kids (link (unlink h op c) op c) o ≡ₚ kids h o.
Proof.
  intros Hn (a & b & E)%list_elem_of_split. simpl. rewrite fn_lookup_insert.
  destruct (decide (op = o)) as [->|]; [|by rewrite !fn_lookup_insert_ne].
  rewrite fn_lookup_insert, E in *. rewrite filter_mid by done. rewrite <- app_assoc.
  by rewrite <- (Permutation_cons_append b c).
Qed.

(** [cancel_children] moves a child from the head to the tail. *)
Lemma rotate_core h op c H F R A :
  core h H F R A None → c ∈ kids h op → core (link (unlink h op c) op c) H F R A None.
Proof.
  intros Hc Hk. same Hc. intros o. by apply rotate_perm; [apply (c_kids_nodup Hc)|].
Qed.

Lemma pin_core h op H F R A C :
  core h H F R A C → is_aggregate op = true → done (state h op) = false →
  (state h op = Running ∨ kind op = TaskGroup) →
  core (pin h op) H F (op :: R) A C.
Proof.
  intros Hc Ha Hd Hs. prep Hc; crush Hc.
Qed.

(** [spawn], up to [start]. *)
Lemma start_spawned h g t H F R A :
  core h H F R A None → kind g = TaskGroup → done (state h g) = false → gone h g = false →
  kind t = Task → claimed h t = false →
  let h1 := link_all (watch_all h [t]) g [t] in
  let h2 := set_pending h1 g (pending h1 g + 1) in
  core (set_state (set_parent h2 t (Some g)) t Running) (t :: H) (t :: F) R A None.
Proof.
  intros Hc Hg Hd Hgo Hk Hcl h1 h2. assert (Hs := c_fresh Hc t Hk Hcl).
  assert (Ha : is_aggregate g = true) by (unfold is_aggregate; by rewrite Hg).
  assert (t ∉ H) by (intros Hx; crush Hc). assert (t ∉ F) by (intros Hx; crush Hc).
  assert (Hkid : ∀ o, t ∉ kids h o) by (intros o Hx; crush Hc).
  assert (Hdef : t ∉ deferred h) by (intros Hx; crush Hc).
  prep Hc; try (apply NoDup_cons_2; [done|keep Hc]).
  all: try solve [crush Hc].
  intros op. fcase; [|apply (c_kids_nodup Hc)]. apply NoDup_app.
  split; [apply (c_kids_nodup Hc)|]. split; [|apply NoDup_singleton].
  intros x Hx ->%list_elem_of_singleton. by apply (Hkid op).
Qed.

(** [arm] past its checkpoint. *)
Lemma arm_core h op t cs H F R A :
  core h (t :: H) (t :: F) R A None → kind op = WhenAll ∨ kind op = WhenAny →
  state h op = Pending → NoDup cs → (∀ c, c ∈ cs → kind c = Task ∧ claimed h c = false) →
  let h1 := set_pending (awaited_by (watch_all h cs) op t) op (length cs) in
  core (pin (link_all h1 op cs) op) H F (op :: R) (((λ c, (op, c)) <$> cs) ++ A) None.
Proof.
  intros Hc Hk Hs Hnd Hcs h1.
  assert (Ht0 : t ∈ t :: H) by left. assert (Ht1 : t ∈ t :: F) by left.
  assert (Ha : is_aggregate op = true) by (unfold is_aggregate; by destruct Hk as [-> | ->]).
  assert (Hkids : kids h op = [] ∧ occ op R = 0 ∧ abandoned h op = 0).
  { pose proof (c_idle Hc op Hk Hs) as H0. rewrite (c_pending Hc op Ha) in H0.
    split; [apply length_zero_iff_nil|]; lia. }
  destruct Hkids as (Hk0 & Ho0 & Hab0).
  assert (Hkn : ∀ x, x ∉ kids h op) by (intros x; rewrite Hk0; apply not_elem_of_nil).
  assert (Hcs' : ∀ c, c ∈ cs → kind c = Task ∧ claimed h c = false ∧ state h c = Pending)
    by (intros c Hi; destruct (Hcs c Hi); split_and!; try done; by apply (c_fresh Hc)).
  assert (HA : ∀ o c, (o, c) ∈ ((λ c, (op, c)) <$> cs) ++ A ↔ (o = op ∧ c ∈ cs) ∨ (o, c) ∈ A).
  { intros o c. rewrite elem_of_app, list_elem_of_fmap. naive_solver. }
  clear Hcs. prep Hc.
  all: try solve [crush Hc].
  all: rewrite ?Hk0; simpl.
  - intros o n Hi. rewrite HA. crush Hc.
  - intros o. fcase; [done|apply (c_kids_nodup Hc)].
  - intros o n [[-> Hi]|Hi]%HA; crush Hc.
  - rewrite fmap_app, <- list_fmap_compose. simpl. rewrite list_fmap_id.
    apply NoDup_app. split; [done|]. split; [|apply (c_arm_nodup Hc)].
    intros c Hi ((o, c') & -> & Hi')%list_elem_of_fmap. simpl in Hi.
    destruct (c_arm Hc o c' Hi') as [Hx _]. crush Hc.
Qed.

(** ~task_group. *)
Lemma gone_core h g H F R A C :
  core h H F R A C → kind g = TaskGroup → parent h g = None → gone h g = false →
  core (set_cancel_requested (set_gone h g true) g true) H F R A C.
Proof.
  intros Hc Hk Hp Hg. prep Hc; crush Hc.
Qed.

(** [abandon_children] lets a child go. *)
Lemma abandon_core h g c H F R A :
  core h H F R A None → gone h g = true → c ∈ kids h g →
  let h2 := set_parent (unlink h g c) c None in
  let h3 := set_owned_by_loop (set_hook h2 c false) c true in
  core (set_abandoned h3 g (abandoned h3 g + 1)) H F R A None ∧ kind c = Task.
Proof.
  intros Hc Hg Hk h2 h3. split; [|crush Hc].
  pose proof (length_filter_ne _ _ (c_kids_nodup Hc g) Hk) as Hl.
  assert (Hst : state h c ≠ Pending).
  { intros Hs. destruct (c_kids Hc g c Hk) as (_ & _ & _ & _ & [[_ ?]|[[_ Hi]|[Hd _]]]); crush Hc. }
  prep Hc.
  all: try solve [intros; fcase; try apply NoDup_filter; apply (c_kids_nodup Hc)].
  all: try solve [crush Hc].
Qed.

(** The loop takes a deferred wait and resumes its task. *)
Lemma wait_resume_core h w t rest H F R A :
  core h H F R A None → deferred h = w :: rest → kind w = Waiter → parent h w = Some t →
  core (set_child (set_deferred h rest) t None) (t :: H) (t :: F) R A None.
Proof.
  intros Hc E Hk Hp. assert (Hi : w ∈ deferred h) by (rewrite E; left).
  pose proof (c_deferred_nodup Hc) as Hnd. rewrite E in Hnd. apply NoDup_cons_1_1 in Hnd as Hnd'.
  assert (∀ x, x ∈ rest → x ∈ deferred h) by (intros; rewrite E; by right).
  destruct (c_deferred Hc w Hi) as (_ & t' & Hp' & Hch & Hs).
  assert (t' = t) as -> by congruence.
  assert (Ht : t ∉ H) by (apply (live_not_held Hc Hch); done).
  assert (Hf : t ∉ F) by (intros Hx; crush Hc).
  prep Hc; try (apply NoDup_cons_2; [done|keep Hc]); try solve [by apply NoDup_cons_1_2 in Hnd].
  all: try solve [crush Hc].
Qed.

Lemma deferred_pop h n rest H F R A C :
  core h H F R A C → deferred h = n :: rest → core (set_deferred h rest) H F R A C ∧ n ∉ rest.
Proof.
  intros Hc E. pose proof (c_deferred_nodup Hc) as Hnd. rewrite E in Hnd.
  assert (∀ x, x ∈ rest → x ∈ deferred h) by (intros; rewrite E; by right).
  split; [|by apply NoDup_cons_1_1 in Hnd].
  prep Hc; try solve [by apply NoDup_cons_1_2 in Hnd]; crush Hc.
Qed.

Lemma defer_core h n H F R A C :
  core h H F R A C → live h n → n ∉ deferred h → kind n = Waiter ∨ kind n = SystemIO →
  core (set_deferred h (deferred h ++ [n])) H F R A C.
Proof.
  intros Hc Hl Hn Hk. prep Hc.
  - apply NoDup_app. split; [apply (c_deferred_nodup Hc)|]. split; [|apply NoDup_singleton].
    by intros x Hx ->%list_elem_of_singleton.
  - intros x [Hx|Hx]%elem_of_app; [by apply (c_deferred Hc)|].
    by apply list_elem_of_singleton in Hx as ->.
Qed.

Lemma join_ready_core h g e H F R A C :
  core h H F R A C → kind g = TaskGroup → state h g = Pending → pending h g = 0 → done e = true →
  core (set_state h g e) H F R A C.
Proof.
  intros Hc Hk Hs Hp Hd. prep Hc; crush Hc.
Qed.

Lemma schedule_core h t b H F R A C :
  core h H F R A C → kind t = Task → claimed h t = false →
  let h1 := set_owned_by_loop (set_scheduled (claim h t) t true) t b in
  core (set_tasks h1 (tasks h1 ++ [t])) H F R A C.
Proof.
  intros Hc Hk Hcl h1. assert (Hs := c_fresh Hc t Hk Hcl).
  assert (Hh : home h t = None) by (destruct (home h t) eqn:E; [crush Hc|done]).
  prep Hc.
  all: try solve [crush Hc].
  apply NoDup_app. split; [apply (c_tasks_nodup Hc)|]. split; [|apply NoDup_singleton].
  intros x Hx ->%list_elem_of_singleton. crush Hc.
Qed.

Lemma claim_core h t H F R A C : core h H F R A C → core (claim h t) H F R A C.
Proof.
  intros Hc. prep Hc; crush Hc.
Qed.

Lemma error_core h t e H F R A C :
  core h H F R A C → fallible t = true → core (set_error h t (Some e)) H F R A C.
Proof. intros Hc Hf. prep Hc; crush Hc; by apply (c_error Hc). Qed.

Lemma threw_core h t H F R A C : core h H F R A C → core (set_threw h t true) H F R A C.
Proof. intros Hc. prep Hc; crush Hc. Qed.

(** A field written twice holds what was written last. *)
Lemma core_state h h' H F R A C :
  core h H F R A C → (∀ n, state h' n = state h n) →
  kids h' = kids h → parent h' = parent h → child h' = child h → hook h' = hook h →
  threw h' = threw h → error h' = error h → pending h' = pending h →
  claimed h' = claimed h → home h' = home h → abandoned h' = abandoned h → gone h' = gone h →
  tasks h' = tasks h → deferred h' = deferred h → core h' H F R A C.
Proof.
  intros Hc Es E1 E2 E3 E4 E5 E6 E7 E8 E9 E10 E11 E12 E13.
  assert (El : ∀ n, live h' n ↔ live h n).
  { intros n. unfold live. rewrite E2, E3. by setoid_rewrite Es. }
  destruct h, h'; simpl in *; subst; constructor; simpl; try keep Hc;
    first [setoid_rewrite Es | setoid_rewrite El]; try keep Hc; setoid_rewrite Es; keep Hc.
Qed.

End Moves.
