(* ===== verification/NodeSafe.v ===== *)
(** What every step of the task tree keeps, and what that gives. *)

From Stdlib Require Import Lia Bool.
From stdpp Require Import functions prelude list.
From S2P Require Import Prelude Node NodeTree.

(** ** The shape of the stack

    A frame that ends as [Handle] has a [Resumption] under it, and no other
    frame does; at the bottom is the loop's code. *)

Definition handle_frame (f : frame) : bool :=
  match f with
  | Body _ | Handle _ | Unpin _ | Arm _ _ | TaskComplete _ _ | ChildCompleted _ _
  | Decided _ _ | Settled _ _ _ | Noop => true
  | _ => false
  end.

Definition is_resumption (f : frame) : bool :=
  match f with Resumption _ => true | _ => false end.

(** Frames that run at once, and call nothing while they stay. *)
Definition transient (f : frame) : bool :=
  match f with
  | Handle _ | TaskComplete _ _ | ChildCompleted _ _ | CancelNode _ | CancelWait _ => true
  | _ => false
  end.

Definition top_is (p : frame → bool) (k : stack) : bool :=
  match k with f :: _ => p f | [] => false end.

Fixpoint typed (k : stack) : Prop :=
  match k with
  | [] => False
  | [f] => f = Code
  | f :: (_ :: _) as k' =>
      handle_frame f = top_is is_resumption k' ∧ top_is transient k' = false ∧ typed k'
  end.

Definition vtyped (k : stack) : Prop := typed k ∧ top_is is_resumption k = false.

(** A stack a call is made on, and returns to. *)
Definition rtyped (k : stack) : Prop := vtyped k ∧ top_is transient k = false.

(** Frames that end as [Handle]: calls that return nothing, then one that does. *)
Fixpoint hshape (fs : stack) : bool :=
  match fs with
  | [] => false
  | [f] => handle_frame f
  | f :: fs' =>
      negb (handle_frame f) && negb (is_resumption f) && negb (top_is transient fs') && hshape fs'
  end.

Lemma typed_cons f k :
  k ≠ [] →
  typed (f :: k) ↔ handle_frame f = top_is is_resumption k ∧ top_is transient k = false ∧ typed k.
Proof. by destruct k. Qed.

Lemma rtyped_ne k : rtyped k → k ≠ [].
Proof. by destruct k as [|]; [intros [[[] _] _]|]. Qed.

Lemma vtyped_push f k :
  handle_frame f = false → is_resumption f = false → rtyped k → vtyped (f :: k).
Proof.
  intros Hh Hr Hv. pose proof (rtyped_ne k Hv). destruct Hv as [[Ht Hn] Htr].
  split; [|done]. rewrite typed_cons by done. by rewrite Hh, Hn.
Qed.

Lemma rtyped_push f k :
  handle_frame f = false → is_resumption f = false → transient f = false →
  rtyped k → rtyped (f :: k).
Proof. intros. split; [by apply vtyped_push|done]. Qed.

Lemma vtyped_pop f k : handle_frame f = false → k ≠ [] → vtyped (f :: k) → rtyped k.
Proof.
  intros Hh Hk [Ht _]. rewrite typed_cons in Ht by done. destruct Ht as (? & ? & ?).
  split; [split|]; congruence.
Qed.

Lemma vtyped_more f k : f ≠ Code → vtyped (f :: k) → k ≠ [].
Proof. intros Hf [Ht _] ->. done. Qed.

Lemma hshape_top fs k : hshape fs = true → top_is is_resumption (fs ++ k) = false.
Proof.
  destruct fs as [|f [|g fs]]; simpl; [done| |].
  - by destruct f.
  - intros H. bool_prop. done.
Qed.

Lemma hshape_typed fs o k : hshape fs = true → rtyped k → vtyped (fs ++ Resumption o :: k).
Proof.
  intros Hs Hv. split; [|by apply hshape_top].
  pose proof (rtyped_ne k Hv) as Hne. destruct Hv as [[Ht Hn] Htr].
  induction fs as [|f fs IH]; [done|]. cbn [app]. rewrite typed_cons by (by destruct fs).
  destruct fs as [|g fs].
  - simpl in Hs. split_and!; [done..|]. rewrite app_nil_l, typed_cons by done. by rewrite Hn.
  - cbn [hshape] in Hs. bool_prop. split_and!; [|done|by apply IH].
    rewrite hshape_top by done. done.
Qed.

(** The frame under one that ends as [Handle]. *)
Lemma handle_under f k :
  handle_frame f = true → vtyped (f :: k) → ∃ o k', k = Resumption o :: k' ∧ rtyped k'.
Proof.
  intros Hf [Ht _]. destruct k as [|g k]; [simpl in Ht; by rewrite Ht in Hf|].
  rewrite typed_cons in Ht by done. destruct Ht as (Hr & _ & Ht). rewrite Hf in Hr.
  destruct g; try done. exists outermost, k. split; [done|].
  destruct k as [|f' k]; [done|]. rewrite typed_cons in Ht by done. destruct Ht as (? & ? & ?).
  by split; [split|].
Qed.

(** ** What frames are called with *)

Section Safe.
Context `{P : Program}.

Definition frame_ok (h : heap) (f : frame) : Prop :=
  match f with
  | CancelChildren op _ | Unpin op | Arm op _ | Decided op _ | ChildCompleted op _ =>
      is_aggregate op = true
  | Abandon g => gone h g = true
  | _ => True
  end.

Definition ok (hs : heap * stack) : Prop :=
  let '(h, k) := hs in coreS h k ∧ vtyped k ∧ top_ok h k ∧ Forall (frame_ok h) k.

(** The frames a function that returns a coroutine leaves, above frames that
    hold [H], [F], [R] and [A]. *)
Definition good (h0 : heap) (r : heap * stack) H F R A : Prop :=
  let '(h, fs) := r in
  core h (holds fs ++ H) (free fs ++ F) (refs fs ++ R) (arms fs ++ A) (completing fs) ∧
  hshape fs = true ∧ top_ok h fs ∧ Forall (frame_ok h) fs ∧ gone h = gone h0.

Lemma coreS_app h fs k :
  fs ≠ [] →
  core h (holds fs ++ holds k) (free fs ++ free k) (refs fs ++ refs k) (arms fs ++ arms k)
    (completing fs) → coreS h (fs ++ k).
Proof.
  intros Hf Hc. unfold coreS, holds, free, refs, arms. rewrite !flat_map_app.
  by destruct fs as [|f fs].
Qed.

Lemma top_ok_app h fs k : fs ≠ [] → top_ok h fs → top_ok h (fs ++ k).
Proof. by destruct fs as [|f fs]. Qed.

Lemma frame_ok_gone h h' k :
  (∀ g, gone h g = true → gone h' g = true) → Forall (frame_ok h) k → Forall (frame_ok h') k.
Proof. intros Hg Hk. eapply Forall_impl; [exact Hk|]. intros f. destruct f; simpl; auto. Qed.

Lemma good_ne h0 h fs H F R A : good h0 (h, fs) H F R A → fs ≠ [].
Proof. intros (_ & Hs & _). by destruct fs. Qed.

Lemma good_gone h0 h1 r H F R A : gone h0 = gone h1 → good h0 r H F R A → good h1 r H F R A.
Proof. destruct r. unfold good. by intros ->. Qed.

(** A call that returns a coroutine, in place of a frame that does. *)
Lemma good_replace h0 r o k :
  good h0 r (holds k) (free k) (refs k) (arms k) →
  rtyped k → Forall (frame_ok h0) k → ok (fst r, snd r ++ Resumption o :: k).
Proof.
  destruct r as [h fs]. intros Hg Hv Hf. pose proof (good_ne _ _ _ _ _ _ _ Hg) as Hne.
  destruct Hg as (Hc & Hs & Ht & Hfs & Hgo). split_and!.
  - by apply coreS_app.
  - by apply hshape_typed.
  - by apply top_ok_app.
  - apply Forall_app. split; [done|]. constructor; [done|].
    apply (frame_ok_gone h0); [|done]. intros g. simpl. by rewrite Hgo.
Qed.

Lemma resume_keeps h k step :
  good h (step (set_resuming h true)) (holds k) (free k) (refs k) (arms k) →
  rtyped k → Forall (frame_ok h) k → ok (resume_and_drain h k step).
Proof.
  intros Hg Hv Hf. unfold resume_and_drain.
  destruct (step (set_resuming h true)) as [h1 fs] eqn:E.
  by apply (good_replace h (h1, fs)).
Qed.

(** ** The functions that return a coroutine *)

Lemma on_child_complete_task p c : kind p = Task → on_child_complete p c = TaskComplete p c.
Proof. intros H. unfold on_child_complete, is_task. by rewrite H. Qed.

Lemma on_child_complete_agg p c :
  is_aggregate p = true → on_child_complete p c = ChildCompleted p c.
Proof.
  intros H%agg_kind. unfold on_child_complete, is_task. by rewrite bool_decide_false by apply H.
Qed.

Lemma finish_good h t e H F R A :
  core (set_state h t Running) (t :: H) (t :: F) R A None → done e = true →
  (e = Failed → threw h t = false → error h t ≠ None) → good h (finish h t e) H F R A.
Proof.
  intros Hc Hd He. unfold finish.
  assert (E : ∀ n, <[t := e]> (state h) n = <[t := e]> (<[t := Running]> (state h)) n)
    by (intros n; destruct (decide (t = n)) as [->|];
          [by rewrite !fn_lookup_insert|by rewrite !fn_lookup_insert_ne]).
  destruct (parent h t) as [p|] eqn:Hp.
  - assert (Hpk : kind p = Task ∨ is_aggregate p = true).
    { destruct (c_parent Hc t p Hp) as (_ & [[_ ?]|[[? _]|[? _]]]); auto. }
    destruct Hpk as [Hk|Hk].
    + rewrite on_child_complete_task by done.
      destruct (finish_task _ t p e _ _ _ _ Hc Hp Hk Hd He) as [Hc' Hch].
      split; [|split_and!; try done; [|by constructor]].
      * apply (core_state _ _ _ _ _ _ _ Hc'); try reflexivity. exact E.
      * simpl. by rewrite fn_lookup_insert.
    + rewrite on_child_complete_agg by done.
      pose proof (finish_agg _ t p e _ _ _ _ Hc Hp Hk Hd He) as Hc'.
      split; [|split_and!; try done; by constructor].
      apply (core_state _ _ _ _ _ _ _ Hc'); try reflexivity. exact E.
  - pose proof (finish_root _ t e _ _ _ _ Hc Hp Hd He) as Hc'.
    destruct (owned_by_loop h t); (split; [|split_and!; try done; by constructor]);
      apply (core_state _ _ _ _ _ _ _ Hc'); try reflexivity; exact E.
Qed.

Lemma start_good h t p H F R A :
  core (set_state (set_parent h t p) t Running) (t :: H) (t :: F) R A None →
  good h (start h t p) H F R A.
Proof.
  intros Hc. unfold start. case_if.
  - by apply (good_gone (set_parent h t p)), finish_good.
  - by split; [|split_and!; try done; constructor].
Qed.

Lemma core_running h t H F R A C :
  core h (t :: H) F R A C → core (set_state h t Running) (t :: H) F R A C.
Proof.
  intros Hc. apply (core_state _ _ _ _ _ _ _ Hc); try reflexivity. intros n. simpl. fcase; [|done].
  by destruct (c_held Hc n) as (_ & -> & _); [left|].
Qed.

Lemma awaited_ended_good h t e b H F R A :
  core h (t :: H) F R A None → t ∉ F → good h (awaited_ended h t e b) H F R A.
Proof.
  intros Hc Hf. pose proof (clear_child _ _ _ _ _ _ _ Hc Hf) as Hc'. unfold awaited_ended. case_if.
  - apply (good_gone (set_child h t None)); [done|].
    apply finish_good; [by apply core_running|done..].
  - by split; [|split_and!; try done; constructor].
Qed.

Lemma task_complete_good h t c H F R A :
  core h (t :: H) F R A None → t ∉ F → child h t = Some c → done (state h c) = true →
  ∃ r, task_complete h t c = Some r ∧ good h r H F R A.
Proof.
  intros Hc Hf Hch Hd. unfold task_complete. case_if; [|by eexists; split; [|apply awaited_ended_good]].
  unfold is_task in *. bool_prop.
  destruct (error h c) as [e|] eqn:He; [|by destruct (c_failed Hc c)].
  eexists. split; [done|].
  pose proof (clear_child _ _ _ _ _ _ _ Hc Hf) as Hc'.
  destruct (c_child Hc t c Hch) as (_ & _ & Hfa).
  pose proof (error_core _ t e _ _ _ _ _ Hc' (Hfa ltac:(done) ltac:(done))) as Hc''.
  apply (good_gone (set_error (set_child h t None) t (Some e))); [done|].
  apply finish_good; [by apply core_running|done|]. intros _ _. simpl. by rewrite fn_lookup_insert.
Qed.

Lemma take_ended_core h g H F R A C :
  core h H F R A C → core (fst (take_ended h g)) H F R A C ∧ gone (fst (take_ended h g)) = gone h.
Proof. intros Hc. unfold take_ended. destruct (ended h g); simpl; split; try done. by same Hc. Qed.

Lemma settle_good h op H F R A :
  core h H F (op :: R) A None → is_aggregate op = true →
  good h (settle_if_idle (set_pending h op (pending h op - 1)) op) H F R A.
Proof.
  intros Hc Ha. unfold settle_if_idle. simpl. rewrite fn_lookup_insert.
  assert (Hp1 : 1 ≤ pending h op).
  { rewrite (c_pending Hc op Ha), occ_cons, decide_True by done. lia. }
  assert (Hidle : pending h op ≠ 1 ∨ parent h op = None → good h
    (set_pending h op (pending h op - 1), [Handle None]) H F R A).
  { intros Hx. split; [by apply unpin_core|split_and!; try done; by constructor]. }
  case_if; [apply Hidle; bool_prop; lia|]. bool_prop.
  destruct (parent h op) as [p|] eqn:Hp; [|apply Hidle; by right].
  set (e := settled_state _ op).
  assert (Hd : done e = true) by (unfold e, settled_state; repeat case_if; done).
  pose proof (settle_core h op p e H F R A Hc Ha ltac:(lia) Hp Hd) as Hc'.
  assert (Hk : kind p = Task).
  { destruct (c_parent Hc op p Hp) as (_ & [[_ ?]|[[? _]|[_ Hi]]]); try done.
    destruct (c_kids Hc p op Hi) as (_ & Hx & _). by apply agg_kind in Ha as [? _]. }
  assert (Hch : child h p = Some op).
  { destruct (c_parent Hc op p Hp) as (_ & [[Hx _]|[[_ ?]|[Hx _]]]); try done.
    - by apply agg_kind in Ha as (_ & ? & _).
    - by apply agg_kind in Hx as (? & _). }
  case_if.
  - rewrite on_child_complete_task by done. split; [done|]. split_and!; try done; [|by constructor].
    simpl. by rewrite fn_lookup_insert.
  - destruct (take_ended_core _ op _ _ _ _ _ Hc') as [Hc2 Hg2].
    destruct (take_ended _ op) as [h2 frames]. simpl in *.
    split; [done|]. split_and!; try done. by repeat constructor.
Qed.

Lemma decide_frames h op d H F R A C :
  core h H F R A C → is_aggregate op = true →
  let r := decide_ h op d in
  core (fst r) H F R A C ∧ gone (fst r) = gone h ∧ (snd r = [] ∨ ∃ n, snd r = [CancelChildren op n]).
Proof.
  intros Hc Ha r. unfold r, decide_. case_if; [case_if|]; simpl; split_and!; eauto; by same Hc.
Qed.

Lemma good_decided h0 r op c H F R A :
  is_aggregate op = true →
  core (fst r) H F (op :: R) A None → gone (fst r) = gone h0 →
  (snd r = [] ∨ ∃ n, snd r = [CancelChildren op n]) →
  good h0 (fst r, snd r ++ [Decided op c]) H F R A.
Proof.
  intros Ha Hc Hg Hs. destruct r as [h fs]. simpl in *.
  destruct Hs as [-> | [n ->]]; (split; [done|]); split_and!; try done; by repeat constructor.
Qed.

Lemma child_completed_good h op c H F R A :
  core h H F R A (Some (op, c)) →
  ∃ r, child_completed h op c = Some r ∧ good h r H F R A.
Proof.
  intros Hc. destruct (c_completing Hc op c eq_refl) as [Hi Hd].
  destruct (c_kids Hc op c Hi) as (Ha & Hk & _ & Hh & _).
  pose proof (unlink_core _ _ _ _ _ _ _ Hc) as Hc'. unfold child_completed.
  assert (Hp : pending h op ≠ 0).
  { rewrite (c_pending Hc op Ha). destruct (kids h op); [by apply not_elem_of_nil in Hi|simpl; lia]. }
  case_if; [bool_prop; lia|].
  assert (Hdec : ∀ h1 d, core h1 H F (op :: R) A None → gone h1 = gone h →
    good h (fst (decide_ h1 op d), snd (decide_ h1 op d) ++ [Decided op c]) H F R A).
  { intros h1 d H1 G1. destruct (decide_frames h1 op d _ _ _ _ _ H1 Ha) as (D1 & D2 & D3).
    apply (good_decided h (decide_ h1 op d)); try done.
    exact (eq_trans D2 G1). }
  assert (Hno : good h (unlink h op c, [Decided op c]) H F R A)
    by (apply (good_decided h (unlink h op c, [])); auto).
  destruct (state h c) eqn:Es; try done.
  - eexists. split; [done|]. case_if; [apply Hdec; [by same Hc'|done]|apply Hno].
  - case_if; [|].
    + eexists. split; [done|]. apply Hdec; destruct (exception _ op); try done; by same Hc'.
    + destruct (error h c) as [e|] eqn:He; [|by destruct (c_failed Hc c)].
      rewrite Hh, (c_error Hc c) by (by rewrite He).
      eexists. split; [done|]. unfold take_error. apply Hdec; repeat case_if; try done;
        try destruct (errors _ op); try done; by same Hc'.
  - eexists. split; [done|]. case_if; [apply Hno|by apply Hdec].
Qed.

Lemma child_counted_good h op c H F R A :
  core h H F (op :: R) A None → is_aggregate op = true →
  good h (child_counted h op c) H F R A.
Proof.
  intros Hc Ha. unfold child_counted.
  match goal with |- context [settle_if_idle (set_pending ?x _ _) _] => set (h1 := x) end.
  assert (Hc1 : core h1 H F (op :: R) A None ∧ gone h1 = gone h).
  { unfold h1. case_if; [|done]. destruct (ended h op); simpl; split; try done; by same Hc. }
  destruct Hc1 as [Hc1 Hg1]. exact (good_gone h1 h _ _ _ _ _ Hg1 (settle_good h1 op _ _ _ _ Hc1 Ha)).
Qed.

(** ** Calls and returns *)

(** What holds of a stack while a call on it runs, or has returned. *)
Definition base_ok (h : heap) (k : stack) : Prop :=
  core h (holds k) (free k) (refs k) (arms k) None ∧ rtyped k ∧ Forall (frame_ok h) k.

Lemma void_holds f k :
  handle_frame f = false →
  holds (f :: k) = holds k ∧ free (f :: k) = free k ∧ refs (f :: k) = refs k ∧
  arms (f :: k) = arms k.
Proof. by destruct f. Qed.

Lemma rtyped_completing k h : rtyped k → completing k = None ∧ top_ok h k.
Proof. intros [_ Ht]. by destruct k as [|[] k]. Qed.

Lemma base_top h k : base_ok h k → ok (h, k).
Proof.
  intros (Hc & Hr & Hf). destruct (rtyped_completing k h Hr) as [E Ht].
  destruct Hr as [Hv _]. split_and!; try done. unfold coreS. by rewrite E.
Qed.

Lemma base_pop h f k :
  handle_frame f = false → k ≠ [] → ok (h, f :: k) → base_ok h k ∧ frame_ok h f.
Proof.
  intros Hf Hk (Hc & Hv & _ & [Hfo Hfs]%Forall_cons_1). unfold coreS in Hc.
  destruct (void_holds f k Hf) as (E1 & E2 & E3 & E4). rewrite E1, E2, E3, E4 in Hc.
  assert (E : completing (f :: k) = None) by (by destruct f). rewrite E in Hc.
  split; [|done]. split_and!; [done| |done]. by apply (vtyped_pop f).
Qed.

Lemma ok_more h f k : f ≠ Code → ok (h, f :: k) → k ≠ [].
Proof. intros Hf (_ & Hv & _). by apply (vtyped_more f). Qed.

Lemma base_push h f k :
  handle_frame f = false → is_resumption f = false → transient f = false → frame_ok h f →
  base_ok h k → base_ok h (f :: k).
Proof.
  intros Hh Hr Ht Hf (Hc & Hk & Hfs). destruct (void_holds f k Hh) as (E1 & E2 & E3 & E4).
  unfold base_ok. rewrite E1, E2, E3, E4. split_and!; [done|by apply rtyped_push|by constructor].
Qed.

Lemma ok_push h f k :
  handle_frame f = false → is_resumption f = false → frame_ok h f → top_ok h (f :: k) →
  base_ok h k → ok (h, f :: k).
Proof.
  intros Hh Hr Hf Ht (Hc & Hk & Hfs). destruct (void_holds f k Hh) as (E1 & E2 & E3 & E4).
  split_and!; [|by apply vtyped_push|done|by constructor].
  unfold coreS. rewrite E1, E2, E3, E4. by replace (completing (f :: k)) with (@None (nat * nat))
    by (by destruct f).
Qed.

Lemma base_heap h h' k :
  base_ok h k → core h' (holds k) (free k) (refs k) (arms k) None →
  (∀ g, gone h g = true → gone h' g = true) → base_ok h' k.
Proof. intros (_ & Hr & Hf) Hc Hg. split_and!; try done. by apply (frame_ok_gone h). Qed.

Lemma free_held k t : t ∈ free k → t ∈ holds k.
Proof.
  unfold free, holds. rewrite !list_elem_of_In, !in_flat_map. intros (f & Hi & Hf).
  exists f. split; [done|]. destruct f as [| |[]| | | | | | | | | | | | | | | | | | |]; done.
Qed.

Lemma held_not_free h k t F R A C :
  core h (t :: holds k) F R A C → t ∉ free k.
Proof. intros Hc Hi%free_held. by apply (NoDup_cons_1_1 _ _ (c_nodup Hc)). Qed.

(** A frame that ends as [Handle] on top. *)
Lemma ok_handle h f k :
  handle_frame f = true → ok (h, f :: k) →
  ∃ o k', k = Resumption o :: k' ∧ rtyped k' ∧ Forall (frame_ok h) k' ∧ frame_ok h f ∧
    top_ok h (f :: k) ∧
    core h (holds1 f ++ holds k') (free1 f ++ free k') (refs1 f ++ refs k') (arms1 f ++ arms k')
      (completing [f]).
Proof.
  intros Hf (Hc & Hv & Ht & Hfs). destruct (handle_under f k Hf Hv) as (o & k' & -> & Hr).
  apply Forall_cons_1 in Hfs as [Hfo Hfs]. apply Forall_cons_1 in Hfs as [_ Hfs].
  exists o, k'. by split_and!.
Qed.

(** ** The runtime's steps *)

Definition waits (s : stack) : bool :=
  match s with Code :: _ | Body _ :: _ | CancelWait _ :: _ => true | _ => false end.

Lemma resume_base h k step :
  base_ok h k → good h (step (set_resuming h true)) (holds k) (free k) (refs k) (arms k) →
  ok (resume_and_drain h k step).
Proof. intros (_ & Hr & Hf) Hg. by apply resume_keeps. Qed.

(** [cancel_all] on an aggregate that has not ended. *)
Lemma cancel_all_good h op H F R A :
  core h H F R A None → is_aggregate op = true → done (state h op) = false →
  state h op = Running ∨ kind op = TaskGroup → good h (cancel_all h op) H F R A.
Proof.
  intros Hc Ha Hd Hs. split; [by apply pin_core|]. by repeat constructor.
Qed.

Lemma child_live_or_done h k n c :
  base_ok h k → child h n = Some c → live h c ∨ done (state h c) = true.
Proof.
  intros (Hcore & _) Hc. destruct (decide (n ∈ holds k)) as [Hi|Hi].
  - destruct (c_held Hcore n Hi) as (_ & _ & Hd). right. by apply Hd.
  - left. destruct (c_child Hcore n c Hc) as (Hk1 & Hk2 & _).
    destruct (c_susp Hcore n Hk1 Hk2 Hi) as (c' & E & E2 & E3).
    assert (c' = c) as -> by congruence. by exists n.
Qed.

Lemma cancel_keeps h n k : ok (h, CancelNode n :: k) → ok (cancel h n k).
Proof.
  intros Hok. assert (Hk : k ≠ []) by (by eapply ok_more; [|exact Hok]).
  assert (Hn : kind n = Task ∨ live h n ∨ done (state h n) = true) by apply Hok.
  destruct (base_pop h (CancelNode n) k eq_refl Hk Hok) as [Hb _].
  unfold cancel. case_if; [by apply base_top|]. bool_prop.
  assert (Hb1 : base_ok (set_cancel_requested h n true) k).
  { apply (base_heap h); [done| |done]. by same (proj1 Hb). }
  destruct (decide (kind n = Task)) as [Ht|Ht].
  - rewrite Ht. destruct (child (set_cancel_requested h n true) n) as [c|] eqn:Hc; [|by apply base_top].
    apply ok_push; try done. right. by apply (child_live_or_done h k n).
  - destruct Hn as [?|[Hn|?]]; [done| |congruence].
    assert (Hs : state h n = Running) by (by destruct Hn as (t & _ & _ & ?)).
    assert (Hagg : is_aggregate n = true → ok (resume_and_drain (set_cancel_requested h n true) k
      (λ h, cancel_all h n))).
    { intros Ha. apply resume_base; [done|].
      apply (good_gone (set_resuming (set_cancel_requested h n true) true)); [done|].
      apply cancel_all_good; [|done|simpl; by rewrite Hs|by left]. by same (proj1 Hb). }
    unfold is_aggregate in Hagg. destruct (kind n) eqn:Hkn; try done; try by apply Hagg.
    + by apply ok_push.
    + by apply base_top, base_push.
Qed.

Lemma complete_ok h n k :
  base_ok h k → live h n → kind n = SystemIO → n ∉ deferred h →
  ∃ r, complete h n k = Some r ∧ ok r.
Proof.
  intros Hb (p & Hp & Hch & Hs) Hk Hn. pose proof (proj1 Hb) as Hc.
  destruct (c_child Hc p n Hch) as (Hkp & _).
  unfold complete. simpl. rewrite Hp. eexists. split; [done|].
  set (e := if cancel_requested h n then Cancelled else Succeeded).
  assert (Hd : done e = true) by (unfold e; by case_if).
  pose proof (end_leaf h n p e _ _ _ _ Hc (or_intror Hk) Hp Hch Hn Hd) as Hc'.
  apply resume_keeps; [|apply Hb|apply Hb]. rewrite on_child_complete_task by done.
  split; [by same Hc'|]. split_and!; try done; [|by constructor].
  simpl. by rewrite fn_lookup_insert.
Qed.

Lemma end_wait_ok h w k :
  base_ok h k → live h w → kind w = Waiter → w ∉ deferred h →
  ∃ r, end_wait h w k = Some r ∧ ok r.
Proof.
  intros Hb (p & Hp & Hch & Hs) Hk Hn. pose proof (proj1 Hb) as Hc.
  destruct (c_child Hc p w Hch) as (Hkp & _).
  unfold end_wait. rewrite Hp. eexists. split; [done|].
  pose proof (end_leaf h w p Cancelled _ _ _ _ Hc (or_introl Hk) Hp Hch Hn eq_refl) as Hc'.
  apply resume_keeps; [|apply Hb|apply Hb]. rewrite on_child_complete_task by done.
  split; [by same Hc'|]. split_and!; try done; [|by constructor].
  simpl. by rewrite fn_lookup_insert.
Qed.

Lemma drain_keeps h n rest k :
  base_ok h k → deferred h = n :: rest →
  ∃ r, (if bool_decide (kind n = Waiter) then wait_resume (set_deferred h rest) n k
        else complete (set_deferred h rest) n k) = Some r ∧ ok r.
Proof.
  intros Hb E. pose proof (proj1 Hb) as Hc.
  destruct (c_deferred Hc n) as (Hk & Hl); [rewrite E; left|].
  destruct (deferred_pop h n rest _ _ _ _ _ Hc E) as [Hc1 Hn1].
  assert (Hb1 : base_ok (set_deferred h rest) k) by (by apply (base_heap h)).
  case_bool_decide as Hw; [|by apply complete_ok; try done; destruct Hk].
  destruct Hl as (t & Hp & Hch & Hs). unfold wait_resume. simpl. rewrite Hp.
  eexists. split; [done|].
  pose proof (wait_resume_core h n t rest _ _ _ _ Hc E Hw Hp) as Hc2.
  apply resume_keeps; [|apply Hb|apply Hb]. simpl. case_if.
  - apply (good_gone (set_resuming (set_child (set_deferred h rest) t None) true)); [done|].
    apply finish_good; try done. apply core_running. by same Hc2.
  - split; [by same Hc2|]. split_and!; try done. by constructor.
Qed.

Lemma destroy_ok h f k :
  base_ok h k → ok (set_destroyed h f true, Code :: k).
Proof.
  intros Hb. apply base_top, base_push; try done.
  apply (base_heap h); [done| |done]. by same (proj1 Hb).
Qed.

Lemma abandon_keeps h g k :
  base_ok h k → gone h g = true → ∃ r, tick h (Abandon g :: k) = Some r ∧ ok r.
Proof.
  intros Hb Hg. simpl. destruct (take_ended_core h g _ _ _ _ _ (proj1 Hb)) as [Hc1 Hg1].
  destruct (take_ended h g) as [h1 frames]. simpl in *.
  assert (Hb1 : base_ok h1 k) by (apply (base_heap h); [done..|by rewrite Hg1]).
  destruct frames as [|f frames].
  - destruct (kids h1 g) as [|c cs] eqn:Ek; [by eexists; split; [|apply base_top]|].
    eexists. split; [done|].
    destruct (abandon_core h1 g c _ _ _ _ Hc1) as [Hc2 Hkc];
      [by rewrite Hg1|rewrite Ek; left|].
    apply ok_push; try done; [by left|]. apply base_push; try done; [simpl; by rewrite Hg1|].
    by apply (base_heap h1).
  - eexists. split; [done|]. apply base_top. apply base_push; try done.
    apply base_push; try done. simpl. by rewrite Hg1.
Qed.

(** A frame that ends as [Handle] runs. *)
Lemma tick_handle h f k :
  ok (h, f :: k) → handle_frame f = true → waits (f :: k) = false →
  ∃ r, tick h (f :: k) = Some r ∧ ok r.
Proof.
  intros Hok Hf Hw. pose proof Hok as (o & k' & -> & Hr & Hfs & Hfo & Ht & Hc)%ok_handle; [|done].
  assert (Hrep : ∀ r, good h r (holds k') (free k') (refs k') (arms k') →
    ok (fst r, snd r ++ Resumption o :: k')) by (intros; by apply (good_replace h)).
  destruct f; try done; simpl in *.
  - destruct h0 as [t|].
    + eexists. split; [done|]. apply (Hrep (h, [Body t])). split; [done|].
      split_and!; try done. by constructor.
    + eexists. split; [done|].
      assert (Hb : base_ok h k') by (by split_and!).
      destruct o; [|by apply base_top]. by apply base_top, base_push.
  - specialize (Hrep _ (settle_good h op _ _ _ _ Hc Hfo)). unfold unpin.
    destruct (settle_if_idle _ op). eexists. by split.
  - destruct rest as [|c rest].
    + specialize (Hrep _ (settle_good h op _ _ _ _ Hc Hfo)). unfold unpin.
      destruct (settle_if_idle _ op). eexists. by split.
    + simpl in Hc. destruct (c_arm Hc op c) as (_ & Hp & _); [left|].
      rewrite bool_decide_true by done. eexists. split; [done|].
      apply resume_keeps; [|split; [by apply (hshape_typed [Arm op rest])|done]|by repeat constructor].
      apply (good_gone (set_resuming h true)); [done|]. apply start_good.
      pose proof (start_armed h op c _ _ _ _ Hc) as Hc'. by same Hc'.
  - destruct Ht as [Hch Hd].
    destruct (task_complete_good h t c _ _ _ _ Hc) as ([h1 fs] & -> & Hg); try done;
      [by eapply held_not_free|]. eexists. split; [done|]. by apply (Hrep (h1, fs)).
  - destruct (child_completed_good h op c _ _ _ _ Hc) as ([h1 fs] & -> & Hg).
    eexists. split; [done|]. by apply (Hrep (h1, fs)).
  - specialize (Hrep _ (child_counted_good h op c _ _ _ _ Hc Hfo)).
    destruct (child_counted h op c). eexists. by split.
  - specialize (Hrep _ (awaited_ended_good h t end_ caught _ _ _ _ Hc (held_not_free _ _ _ _ _ _ _ Hc))).
    destruct (awaited_ended h t end_ caught). eexists. by split.
  - eexists. split; [done|]. apply (Hrep (h, [Handle None])). split; [done|].
    split_and!; try done. by constructor.
Qed.

(** A frame that returns nothing runs. *)
Lemma tick_void h f k :
  ok (h, f :: k) → handle_frame f = false → is_resumption f = false → waits (f :: k) = false →
  ∃ r, tick h (f :: k) = Some r ∧ ok r.
Proof.
  intros Hok Hf Hr Hw. assert (Hk : k ≠ []) by (eapply ok_more; [|exact Hok]; by intros ->).
  destruct (base_pop h f k Hf Hk Hok) as [Hb Hfo].
  assert (Hret : ok (h, k)) by (by apply base_top).
  destruct f; try done; simpl in *.
  - eexists. split; [done|]. by apply cancel_keeps.
  - destruct count as [|count]; [by eexists|].
    destruct (kids h op) as [|c cs] eqn:Ek; [by eexists|]. eexists. split; [done|].
    assert (Hi : c ∈ kids h op) by (rewrite Ek; left).
    pose proof (rotate_core h op c _ _ _ _ (proj1 Hb) Hi) as Hc.
    destruct (c_kids (proj1 Hb) op c Hi) as (_ & Hkc & _).
    apply ok_push; try done; [by left|]. apply base_push; try done. by apply (base_heap h).
  - destruct frames as [|f fs]; [by eexists|]. eexists. split; [done|].
    by apply destroy_ok, base_push.
  - eexists. split; [done|]. case_if; apply base_top; repeat apply base_push; done.
  - case_if; eexists; (split; [done|]); apply base_top.
    + by repeat apply base_push.
    + apply (base_heap h); [done| |done]. by same (proj1 Hb).
  - eexists. split; [done|]. case_if; [|done]. by apply base_top, base_push.
  - destruct (last (ended_roots h)) as [r|]; eexists; (split; [done|]).
    + apply destroy_ok. apply base_push; try done. apply (base_heap h); [done| |done].
      by same (proj1 Hb).
    + by apply base_top, base_push.
  - destruct (groups_with_ended h) as [|g gs]; [eexists; split; [done|]; by apply base_top, base_push|].
    destruct (take_ended_core h g _ _ _ _ _ (proj1 Hb)) as [Hc1 Hg1].
    destruct (take_ended h g) as [h1 frames]. simpl in *.
    eexists. split; [done|]. apply base_top. repeat apply base_push; try done.
    apply (base_heap h); [done..|by rewrite Hg1].
  - destruct (deferred h) as [|n rest] eqn:E; [by eexists|].
    apply drain_keeps; [|done]. by apply base_push.
  - by apply abandon_keeps.
Qed.

Lemma tick_ok h s : ok (h, s) → waits s = false → ∃ r, tick h s = Some r ∧ ok r.
Proof.
  intros Hok Hw. destruct s as [|f k]; [by destruct Hok as (_ & [[] _] & _)|].
  destruct (handle_frame f) eqn:Hf; [by apply tick_handle|].
  apply tick_void; try done. by destruct Hok as (_ & [_ Hr] & _).
Qed.

(** ** The program's steps *)

Lemma guarded_Some {A} b (x : option A) y : guarded b x = Some y → b = true ∧ x = Some y.
Proof. by destruct b. Qed.

Lemma fresh_task_iff h t : fresh_task h t = true ↔ kind t = Task ∧ claimed h t = false.
Proof. unfold fresh_task, is_task. split; intros H; bool_prop; [done|]. destruct H as [-> ->]. done. Qed.

Lemma live_leaf_iff h n : live_leaf h n = true ↔ live h n ∧ n ∉ deferred h.
Proof.
  unfold live_leaf, live. destruct (parent h n) as [t|].
  - rewrite bool_decide_eq_true. naive_solver.
  - naive_solver.
Qed.

Lemma group_aggregate g : kind g = TaskGroup → is_aggregate g = true.
Proof. unfold is_aggregate. by intros ->. Qed.

End Safe.

Ltac guards H :=
  apply guarded_Some in H as [?H H]; bool_prop;
  repeat match goal with
  | G : fresh_task _ _ = true |- _ => apply fresh_task_iff in G as [? ?]
  | G : live_leaf _ _ = true |- _ => apply live_leaf_iff in G as [? ?]
  | G : is_task _ = true |- _ => apply bool_decide_eq_true in G
  end.

Section Steps.
Context `{P : Program}.

Lemma act_code_ok a h s r : base_ok h s → act_code a h s = Some r → ok r.
Proof.
  intros Hb Ha. pose proof (proj1 Hb) as Hc.
  assert (Hheap : ∀ h', core h' (holds s) (free s) (refs s) (arms s) None → gone h' = gone h →
    base_ok h' s) by (intros h' H1 H2; apply (base_heap h); [done..|by rewrite H2]).
  destruct a; try done; simpl in Ha; guards Ha.
  - simplify_eq. apply ok_push; try done. by left.
  - simplify_eq. unfold group_cancel. case_if; [by apply base_top|]. bool_prop.
    apply resume_base; [apply Hheap; [by same Hc|done]|].
    match goal with |- good ?x _ _ _ _ _ => apply (good_gone (set_resuming x true)); [done|] end.
    apply cancel_all_good; [by same Hc|by apply group_aggregate|done|by right].
  - simplify_eq. unfold spawn. case_if; [by apply base_top|]. bool_prop.
    apply resume_keeps; [|apply Hb|apply Hb].
    match goal with |- good ?x _ _ _ _ _ => apply (good_gone (set_resuming x true)); [done|] end.
    apply start_good. pose proof (start_spawned h g t _ _ _ _ Hc) as Hc1.
    eapply core_same; [apply Hc1; done|done..].
  - simplify_eq. apply base_top, base_push; try done; [by simpl; rewrite fn_lookup_insert|].
    apply (base_heap h); [done|by apply gone_core|]. intros x Hx. simpl. by fcase.
  - destruct (complete_ok h n s) as (r' & E & Hr); try done. congruence.
  - simplify_eq. apply base_top, Hheap; [|done]. apply defer_core; try done. by right.
  - simplify_eq. apply base_top, Hheap; [|done]. apply defer_core; try done. by left.
  - simplify_eq. apply base_top, Hheap; [|done]. by apply schedule_core.
  - unfold drop_task in Ha. case_if_in Ha.
    + simplify_eq. apply ok_push; try done; [by left|]. apply Hheap; [by same Hc|done].
    + apply guarded_Some in Ha as [_ Ha]. simplify_eq. apply base_top, base_push; try done.
      apply Hheap; [|done]. pose proof (claim_core h t _ _ _ _ _ Hc) as Hc1. by same Hc1.
Qed.

Lemma act_loop_ok a h r : base_ok h [Code] → act_loop a h = Some r → ok r.
Proof.
  intros Hb Ha. pose proof (proj1 Hb) as Hc. destruct a; try done; simpl in Ha.
  - destruct (tasks h) as [|t rest] eqn:E; [done|]. guards Ha. simplify_eq.
    apply resume_keeps; [|apply Hb|apply Hb].
    apply (good_gone (set_resuming (set_tasks h rest) true)); [done|].
    apply start_good. pose proof (start_root h t _ _ _ _ rest Hc E) as Hc1. by same Hc1.
  - guards Ha. simplify_eq. by apply base_top, base_push.
  - simplify_eq. apply base_top, (base_heap h); [done| |done]. by same Hc.
Qed.

Lemma finish_body h t e H F R A :
  core h (t :: H) (t :: F) R A None → done e = true →
  (e = Failed → threw h t = false → error h t ≠ None) → good h (finish h t e) H F R A.
Proof. intros Hc. apply finish_good. by apply core_running. Qed.

Lemma checkpoint_good h t r H F R A :
  core h (t :: H) (t :: F) R A None → checkpoint h t = Some r → good h r H F R A.
Proof.
  unfold checkpoint. intros Hc Hr. case_if_in Hr; [|done]. simplify_eq. by apply finish_body.
Qed.

Lemma handle_none_good h0 h H F R A :
  core h H F R A None → gone h = gone h0 → good h0 (h, [Handle None]) H F R A.
Proof. intros Hc Hg. split; [done|]. split_and!; try done. by constructor. Qed.

Lemma final_suspend_done h t : done (final_suspend h t) = true.
Proof. unfold final_suspend. by repeat case_if. Qed.

Lemma final_suspend_failed h t : final_suspend h t = Failed → threw h t = false → error h t ≠ None.
Proof.
  unfold final_suspend. intros H Ht. rewrite Ht in H. simpl in H. case_bool_decide; [done|].
  by case_if_in H.
Qed.

Lemma watch_core h cs t H F R A :
  core h (t :: H) (t :: F) R A None → (∀ c, c ∈ cs → kind c = Task ∧ claimed h c = false) →
  core (watch_all h cs) (t :: H) (t :: F) R A None.
Proof.
  intros Hc Hcs.
  assert (Hcs' : ∀ c, c ∈ cs → kind c = Task ∧ claimed h c = false ∧ state h c = Pending)
    by (intros c Hi; destruct (Hcs c Hi); split_and!; try done; by apply (c_fresh Hc)).
  clear Hcs. constructor; simpl; try keep Hc; crush Hc.
Qed.

Lemma act_body_good a h t r H F R A :
  core h (t :: H) (t :: F) R A None → act_body a h t = Some r → good h r H F R A.
Proof.
  intros Hc Ha. destruct a; try done; simpl in Ha.
  - guards Ha. destruct (checkpoint h t) eqn:Ec; simplify_eq; [by eapply checkpoint_good|].
    match goal with |- good _ (start ?x _ _) _ _ _ _ => apply (good_gone x); [done|] end.
    apply start_good, start_awaited; try done. intros ->. simpl in *. bool_prop. done.
  - guards Ha. apply orb_true_iff in H0. rewrite !bool_decide_eq_true in H0.
    assert (Hcs : ∀ c, c ∈ cs → kind c = Task ∧ claimed h c = false).
    { intros c Hi. apply fresh_task_iff.
      match goal with H : forallb _ _ = true |- _ => rewrite forallb_forall in H; apply H end.
      by apply list_elem_of_In. }
    destruct (checkpoint (watch_all h cs) t) eqn:Ec; simplify_eq.
    + eapply (good_gone (watch_all h cs)); [done|]. eapply checkpoint_good; [|done]. by apply watch_core.
    + pose proof (arm_core h op t cs _ _ _ _ Hc ltac:(done) ltac:(done) ltac:(done) Hcs) as Hc1.
      split; [|split_and!; try done].
      * simpl. by rewrite app_nil_r.
      * constructor; [|done]. simpl. unfold is_aggregate. by destruct H0 as [-> | ->].
  - guards Ha. case_if_in Ha.
    + bool_prop. assert (Hd : done (settled_state h g) = true)
        by (unfold settled_state; by repeat case_if).
      pose proof (join_ready_core h g _ _ _ _ _ _ Hc ltac:(done) ltac:(done) ltac:(done) Hd) as Hc1.
      destruct (take_ended_core _ g _ _ _ _ _ Hc1) as [Hc2 Hg2].
      destruct (take_ended _ g) as [h1 frames]. simplify_eq. simpl in *.
      split; [done|]. split_and!; try done. by repeat constructor.
    + bool_prop. pose proof (await_group h g t _ _ _ _ Hc ltac:(done) ltac:(done) ltac:(done)
        ltac:(done)) as Hc1. simplify_eq. case_if; [|by apply handle_none_good].
      apply (good_gone (set_cancel_requested (awaited_by h g t) g true)); [done|].
      apply cancel_all_good; [by same Hc1|by apply group_aggregate| |by right].
      simpl. by rewrite fn_lookup_insert.
  - guards Ha. destruct (checkpoint h t) eqn:Ec; simplify_eq; [by eapply checkpoint_good|].
    apply handle_none_good; [|done]. apply await_leaf; try done. by left.
  - guards Ha. simplify_eq.
    assert (Hc' : core (awaited_by h n t) H F R A None) by (apply await_leaf; try done; by right).
    case_if; [|by apply handle_none_good].
    split; [done|]. split_and!; try done; [|by repeat constructor].
    right. left. exists t. simpl. by rewrite !fn_lookup_insert.
  - simplify_eq. apply finish_body; [done|apply final_suspend_done|apply final_suspend_failed].
  - guards Ha. simplify_eq.
    apply (good_gone (set_error h t (Some e))); [done|].
    apply finish_body; [by apply error_core|apply final_suspend_done|apply final_suspend_failed].
  - simplify_eq. apply (good_gone (set_threw h t true)); [done|].
    apply finish_body; [by apply threw_core|apply final_suspend_done|apply final_suspend_failed].
  - simplify_eq. by apply finish_body.
Qed.

Lemma grant_ok h w s :
  ok (h, s) → live h w → w ∉ deferred h → kind w = Waiter →
  ok (set_deferred h (deferred h ++ [w]), s).
Proof.
  intros (Hc & Hv & Ht & Hf) Hl Hn Hk. split_and!; [|done|by destruct s as [|[] s]|done].
  apply defer_core; try done. by left.
Qed.

Lemma code_base h s : ok (h, s) → top_is transient s = false → base_ok h s.
Proof.
  intros (Hc & Hv & _ & Hf) Ht. split_and!; try done. unfold coreS in Hc.
  by destruct s as [|[] s].
Qed.

Lemma act_ok a h s r : ok (h, s) → act a h s = Some r → ok r.
Proof.
  intros Hok Ha.
  assert (Hcode : top_is transient s = false → ∀ r, act_code a h s = Some r → ok r).
  { intros Ht r' E. apply (act_code_ok a h s); [|done]. by apply code_base. }
  destruct s as [|[] k]; try done; simpl in Ha.
  - destruct k as [|f k].
    + destruct (act_loop a h) eqn:El; [|by apply Hcode]. simplify_eq.
      apply (act_loop_ok a h); [|done]. by apply code_base.
    + destruct a; try by apply Hcode. simplify_eq.
      destruct (base_pop h Code (f :: k) eq_refl ltac:(done) Hok) as [Hb _]. by apply base_top.
  - destruct (act_body a h t) as [[h1 fs]|] eqn:Eb; [|by apply Hcode]. simplify_eq.
    pose proof Hok as (o & k' & -> & Hr & Hfs & _ & _ & Hc)%ok_handle; [|done].
    by apply (good_replace h (h1, fs)); [apply (act_body_good a h t)|..].
  - assert (Hk : k ≠ []) by (by eapply ok_more; [|exact Hok]).
    destruct (base_pop h (CancelWait w) k eq_refl Hk Hok) as [Hb _].
    assert (Hw : kind w = Waiter ∧ live h w) by apply Hok. destruct Hw as [Hw Hl].
    destruct a; try done.
    + simpl in Ha. guards Ha. simplify_eq. by apply grant_ok.
    + guards Ha. destruct (end_wait_ok h w k Hb Hl Hw) as (r' & E & Hr); [done|]. congruence.
    + simplify_eq. by apply base_top.
Qed.

Lemma initial_ok : ok begin.
Proof.
  assert (Hn : ∀ x : nat, x ∉ []) by (intros x; apply not_elem_of_nil).
  split_and!; try done; [|by constructor].
  constructor; simpl; try constructor; intros; try done; try by apply not_elem_of_nil in H.
  all: naive_solver.
Qed.

Lemma reachable_ok hs : reachable hs → ok hs.
Proof.
  induction 1 as [|[h s] a hs' Hr IH Hs]; [apply initial_ok|]. destruct a as [a|]; simpl in Hs.
  - by apply (act_ok a h s).
  - destruct (waits s) eqn:Hw; [by destruct s as [|[] s]|].
    destruct (tick_ok h s IH Hw) as (r & E & Hr'). congruence.
Qed.

(** ** What the invariant gives *)

(** C2. Structured completion: once a when_all, when_any or task_group has
    settled, every task that was ever handed to it has ended. *)
Theorem structured_completion h s op n :
  reachable (h, s) → is_aggregate op = true → done (state h op) = true → home h n = Some op →
  done (state h n) = true.
Proof.
  intros (Hc & _)%reachable_ok Ha Hd Hh.
  pose proof (c_done Hc op Ha Hd) as Hp. rewrite (c_pending Hc op Ha) in Hp.
  destruct (c_home Hc n op Hh) as (_ & _ & _ & [Hi|[Hi|Hi]]); [|done|lia].
  destruct (kids h op); [by apply not_elem_of_nil in Hi|simpl in Hp; lia].
Qed.

(** C27. A coroutine body is on the stack once at most, and only while its task
    is running and awaits nothing: no task is resumed while it runs, while it
    waits or after it has ended. *)
Theorem one_body h s :
  reachable (h, s) →
  NoDup (free s) ∧
  ∀ t, t ∈ free s → kind t = Task ∧ state h t = Running ∧ child h t = None.
Proof.
  intros (Hc & _)%reachable_ok. split; [apply (c_free_nodup Hc)|]. apply (c_free Hc).
Qed.

(** C16. No completion is lost: when the loop is back in its own code, every
    started task that has not ended awaits a node that is running and points
    back at it, and every aggregate a task awaits has a child that is running
    and will report to it. *)
Theorem no_lost_completion h :
  reachable (h, [Code]) →
  (∀ t, kind t = Task → state h t = Running →
     ∃ c, child h t = Some c ∧ parent h c = Some t ∧ state h c = Running) ∧
  (∀ op t, is_aggregate op = true → parent h op = Some t →
     ∃ c, c ∈ kids h op ∧ parent h c = Some op ∧ state h c = Running).
Proof.
  intros (Hc & _)%reachable_ok. split.
  - intros t Hk Hs. apply (c_susp Hc t Hk Hs), not_elem_of_nil.
  - intros op t Ha Hp. pose proof (c_awaited Hc op t Ha Hp) as Hpos.
    rewrite (c_pending Hc op Ha) in Hpos. simpl in Hpos.
    assert (Hg : gone h op = false).
    { destruct (gone h op) eqn:E; [|done]. destruct (c_gone Hc op E). congruence. }
    rewrite (c_abandoned Hc op Hg) in Hpos.
    destruct (kids h op) as [|c cs] eqn:Ek; [simpl in Hpos; unfold occ in Hpos; simpl in Hpos; lia|].
    exists c. assert (Hi : c ∈ kids h op) by (rewrite Ek; left).
    split; [left|]. destruct (c_kids Hc op c Hi) as (_ & _ & _ & _ & [?|[[_ Hx]|[_ ?]]]); try done.
    by apply not_elem_of_nil in Hx.
Qed.
End Steps.
