(* ===== verification/NodeOutcome.v ===== *)
(** What an aggregate of the task tree (Node.v) settles as, and what the task
    that awaits it gets: errors outrank cancellation, cancellation outranks
    success, and no error is dropped. *)

From Stdlib Require Import Lia Bool.
From stdpp Require Import functions prelude list.
From S2P Require Import Prelude Node NodeTree NodeSafe.

Section Outcome.
Context `{P : Program}.

(** A child whose end the aggregate has taken. *)
Definition delivered (h : heap) (n op : nat) : Prop :=
  home h n = Some op ∧ gone h op = false ∧ n ∉ kids h op.

Record outcome (h : heap) : Prop := {
  u_failed n op : delivered h n op → state h n = Failed → decision h op = Error;
  u_cancelled n op : delivered h n op → state h n = Cancelled → kind op ≠ TaskGroup →
    decided h op = true;
  u_succeeded n op : delivered h n op → state h n = Succeeded → kind op = WhenAny →
    decided h op = true;
  u_threw n op : delivered h n op → state h n = Failed → threw h n = true →
    exception h op ≠ None;
  u_erred n op e : delivered h n op → state h n = Failed → threw h n = false →
    error h n = Some e → errors h op ≠ [] ∧ (kind op = TaskGroup → e ∈ errors h op);
  u_error op : decision h op = Error → ∃ n, home h n = Some op ∧ state h n = Failed;
  u_cancel op : decision h op = Cancel →
    kind op ≠ TaskGroup ∧ ∃ n, home h n = Some op ∧ state h n = Cancelled;
  u_resume op : decision h op = Resume →
    kind op = TaskGroup ∨ (kind op = WhenAny ∧
      ∃ w, winner h op = Some w ∧ home h w = Some op ∧ state h w = Succeeded);
  u_exception op c : exception h op = Some c →
    home h c = Some op ∧ state h c = Failed ∧ threw h c = true;
  u_errors op e : e ∈ errors h op →
    ∃ n, home h n = Some op ∧ state h n = Failed ∧ threw h n = false ∧ error h n = Some e;
  u_first op : kind op ≠ TaskGroup → length (errors h op) ≤ 1;
  u_done op : is_aggregate op = true → done (state h op) = true → gone h op = false →
    state h op = settled_state h op;
}.
End Outcome.

Arguments u_failed {P h} _.
Arguments u_cancelled {P h} _.
Arguments u_succeeded {P h} _.
Arguments u_threw {P h} _.
Arguments u_erred {P h} _.
Arguments u_error {P h} _.
Arguments u_cancel {P h} _.
Arguments u_resume {P h} _.
Arguments u_exception {P h} _.
Arguments u_errors {P h} _.
Arguments u_first {P h} _.
Arguments u_done {P h} _.

Ltac okeep Ho :=
  first [exact (u_failed Ho) | exact (u_cancelled Ho) | exact (u_succeeded Ho)
        | exact (u_threw Ho) | exact (u_erred Ho) | exact (u_error Ho) | exact (u_cancel Ho)
        | exact (u_resume Ho) | exact (u_exception Ho) | exact (u_errors Ho)
        | exact (u_first Ho) | exact (u_done Ho)].

Section Moves.
Context `{P : Program}.

Lemma out_same h h' :
  outcome h → (∀ op, kids h' op ≡ₚ kids h op) → state h' = state h → home h' = home h →
  gone h' = gone h → decision h' = decision h → winner h' = winner h →
  exception h' = exception h → errors h' = errors h → cancel_requested h' = cancel_requested h →
  threw h' = threw h → error h' = error h → outcome h'.
Proof.
  intros Ho Hk E1 E2 E3 E4 E5 E6 E7 E8 E9 E10.
  assert (Hd : ∀ n op, delivered h' n op ↔ delivered h n op).
  { intros n op. unfold delivered. by rewrite E2, E3, Hk. }
  assert (Hc : ∀ op, decided h' op = decided h op)
    by (intros op; unfold decided; by rewrite E4, E8).
  assert (Hs : ∀ op, settled_state h' op = settled_state h op)
    by (intros op; unfold settled_state; by rewrite E4, E8).
  constructor; rewrite ?E1, ?E2, ?E3, ?E4, ?E5, ?E6, ?E7, ?E9, ?E10; try okeep Ho;
    intros; rewrite ?Hc, ?Hs; try apply Hd in H.
  - by apply (u_failed Ho n).
  - by apply (u_cancelled Ho n).
  - by apply (u_succeeded Ho n).
  - by apply (u_threw Ho n).
  - by apply (u_erred Ho n).
  - by apply (u_done Ho).
Qed.

(** A child that has not ended is still listed. *)
Definition homed (h : heap) : Prop :=
  ∀ n op, home h n = Some op → gone h op = false → done (state h n) = false → n ∈ kids h op.

Lemma core_homed h H F R A C : core h H F R A C → homed h.
Proof.
  intros Hc n op Hh Hg Hd. destruct (c_home Hc n op Hh) as (_ & _ & _ & [?|[?|Hx]]); [done|congruence|].
  rewrite (c_abandoned Hc op Hg) in Hx. lia.
Qed.

(** A node that has not ended changes its state. *)
Lemma out_set_state h n e :
  homed h → done (state h n) = false →
  (is_aggregate n = true → done e = true → gone h n = false → e = settled_state h n) →
  outcome h → outcome (set_state h n e).
Proof.
  intros Hc Hd He Ho.
  assert (Hn : ∀ op, ¬ delivered h n op).
  { intros op (Hh & Hg & Hk). by apply Hk, Hc. }
  assert (Hs : ∀ m s, state h m = s → done s = true → <[n := e]> (state h) m = s).
  { intros m s Hm Hs. rewrite fn_lookup_insert_ne; [done|]. intros ->. congruence. }
  assert (Hdel : ∀ m op, delivered (set_state h n e) m op → m ≠ n).
  { intros m op Hx ->. by apply (Hn op). }
  constructor; simpl.
  1,2,3,4,5: intros m op; intros; match goal with D : delivered _ _ _ |- _ =>
    pose proof (Hdel _ _ D); rewrite fn_lookup_insert_ne in * by done end.
  - by apply (u_failed Ho m).
  - by apply (u_cancelled Ho m).
  - by apply (u_succeeded Ho m).
  - by apply (u_threw Ho m).
  - by apply (u_erred Ho m).
  - intros op (m & Hm & Hf)%(u_error Ho). exists m. auto.
  - intros op (? & m & Hm & Hf)%(u_cancel Ho). split; [done|]. exists m. auto.
  - intros op [?|(? & w & ? & ? & ?)]%(u_resume Ho); [by left|right]. split; [done|]. exists w. auto.
  - intros op c (? & ? & ?)%(u_exception Ho). auto.
  - intros op x (m & ? & ? & ?)%(u_errors Ho). exists m. auto.
  - apply (u_first Ho).
  - intros op Ha Hx Hg. change (settled_state (set_state h n e) op) with (settled_state h op).
    fcase; [auto|]. by apply (u_done Ho).
Qed.

Lemma out_cancel_requested h n :
  done (state h n) = false → outcome h → outcome (set_cancel_requested h n true).
Proof.
  intros Hd Ho.
  assert (Hdec : ∀ op, decided h op = true → decided (set_cancel_requested h n true) op = true).
  { intros op. unfold decided. simpl. intros [->| Hx]%orb_true_iff; [done|].
    apply orb_true_iff. right. by fcase. }
  constructor; simpl; try okeep Ho.
  - intros m op Hx Hs Hk. by apply Hdec, (u_cancelled Ho m).
  - intros m op Hx Hs Hk. by apply Hdec, (u_succeeded Ho m).
  - intros op Ha Hx Hg. rewrite (u_done Ho op Ha Hx Hg). unfold settled_state. simpl.
    destruct (decide (n = op)) as [->|]; [congruence|by rewrite fn_lookup_insert_ne].
Qed.

Lemma out_gone h g :
  outcome h → outcome (set_cancel_requested (set_gone h g true) g true).
Proof.
  intros Ho. assert (Hd : ∀ n op, delivered (set_cancel_requested (set_gone h g true) g true) n op →
    delivered h n op ∧ g ≠ op).
  { intros n op (H1 & H2 & H3). simpl in *. destruct (decide (g = op)) as [->|Hne].
    - by rewrite fn_lookup_insert in H2.
    - rewrite fn_lookup_insert_ne in H2 by done. by repeat split. }
  constructor; simpl; try okeep Ho;
    try (intros n op; intros; match goal with D : delivered _ _ _ |- _ => apply Hd in D as [D Hne] end).
  - by apply (u_failed Ho n).
  - unfold decided. simpl. rewrite fn_lookup_insert_ne by done. by apply (u_cancelled Ho n).
  - unfold decided. simpl. rewrite fn_lookup_insert_ne by done. by apply (u_succeeded Ho n).
  - by apply (u_threw Ho n).
  - by apply (u_erred Ho n).
  - intros op Ha Hx Hg. destruct (decide (g = op)) as [->|Hne]; [by rewrite fn_lookup_insert in Hg|].
    rewrite fn_lookup_insert_ne in Hg by done. rewrite (u_done Ho op Ha Hx Hg).
    unfold settled_state. simpl. by rewrite fn_lookup_insert_ne.
Qed.

(** Fresh tasks are handed to an aggregate. *)
Lemma out_link h op cs H F R A C :
  core h H F R A C → (∀ c, c ∈ cs → kind c = Task ∧ claimed h c = false) →
  outcome h → outcome (link_all (watch_all h cs) op cs).
Proof.
  intros Hc Hcs Ho.
  assert (Hp : ∀ c, c ∈ cs → done (state h c) = false).
  { intros c Hi. destruct (Hcs c Hi). by rewrite (c_fresh Hc). }
  assert (Hhome : ∀ n o, home h n = Some o → n ∉ cs).
  { intros n o Hh Hi. destruct (Hcs n Hi). destruct (c_home Hc n o Hh) as (_ & _ & ? & _).
    congruence. }
  assert (Hh' : ∀ n o, home h n = Some o → home (link_all (watch_all h cs) op cs) n = Some o).
  { intros n o Hh. simpl. rewrite bool_decide_false by (by apply (Hhome n o)). done. }
  assert (Hd : ∀ n o, delivered (link_all (watch_all h cs) op cs) n o → done (state h n) = true →
    delivered h n o).
  { intros n o (H1 & H2 & H3) Hx. simpl in *. case_bool_decide as Hi; [by rewrite (Hp n Hi) in Hx|].
    split_and!; try done. destruct (decide (op = o)) as [->|Hne].
    - rewrite fn_lookup_insert in H3. intros Hk. apply H3, elem_of_app. by left.
    - by rewrite fn_lookup_insert_ne in H3. }
  constructor; try okeep Ho.
  - intros n o D S. apply (u_failed Ho n); [|done]. apply Hd; [done|]. by simpl in S; rewrite S.
  - intros n o D S. apply (u_cancelled Ho n); [|done]. apply Hd; [done|]. by simpl in S; rewrite S.
  - intros n o D S. apply (u_succeeded Ho n); [|done]. apply Hd; [done|]. by simpl in S; rewrite S.
  - intros n o D S. apply (u_threw Ho n); [|done]. apply Hd; [done|]. by simpl in S; rewrite S.
  - intros n o e D S. apply (u_erred Ho n); [|done]. apply Hd; [done|]. by simpl in S; rewrite S.
  - intros o (m & Hm & Hf)%(u_error Ho). exists m. auto.
  - intros o (? & m & Hm & Hf)%(u_cancel Ho). split; [done|]. exists m. auto.
  - intros o [?|(? & w & ? & ? & ?)]%(u_resume Ho); [by left|right]. split; [done|]. exists w. auto.
  - intros o c (? & ? & ?)%(u_exception Ho). auto.
  - intros o x (m & ? & ? & ?)%(u_errors Ho). exists m. auto.
Qed.

(** The fields of an outcome of a task are written before it ends. *)
Lemma out_fields h h' n :
  outcome h → done (state h n) = false →
  (∀ m, m ≠ n → threw h' m = threw h m ∧ error h' m = error h m) →
  kids h' = kids h → state h' = state h → home h' = home h → gone h' = gone h →
  decision h' = decision h → winner h' = winner h → exception h' = exception h →
  errors h' = errors h → cancel_requested h' = cancel_requested h → outcome h'.
Proof.
  intros Ho Hd Hf E1 E2 E3 E4 E5 E6 E7 E8 E9.
  assert (Hf' : ∀ m, done (state h m) = true → threw h' m = threw h m ∧ error h' m = error h m).
  { intros m Hm. apply Hf. intros ->. congruence. }
  assert (Hdel : ∀ m op, delivered h' m op ↔ delivered h m op)
    by (intros; unfold delivered; by rewrite E1, E3, E4).
  constructor; unfold decided, settled_state; rewrite ?E2, ?E3, ?E4, ?E5, ?E6, ?E7, ?E8, ?E9;
    try okeep Ho; try (intros m op; rewrite Hdel; intros D S).
  - by apply (u_failed Ho m).
  - by apply (u_cancelled Ho m).
  - by apply (u_succeeded Ho m).
  - destruct (Hf' m) as [-> _]; [by rewrite S|]. by apply (u_threw Ho m).
  - intros m op e. rewrite Hdel. intros D S. destruct (Hf' m) as [-> ->]; [by rewrite S|].
    by apply (u_erred Ho m).
  - intros op c (? & S & ?)%(u_exception Ho). destruct (Hf' c) as [-> _]; [by rewrite S|]. done.
  - intros op x (m & ? & S & ? & ?)%(u_errors Ho). exists m.
    destruct (Hf' m) as [-> ->]; [by rewrite S|]. done.
Qed.

Lemma out_group_cancel h g :
  kind g = TaskGroup → decided h g = false → done (state h g) = false →
  outcome h → outcome (set_decision h g Resume).
Proof.
  intros Hk Hdec Hd Ho. unfold decided in Hdec. bool_prop.
  assert (Hdx : ∀ op, decided h op = true → decided (set_decision h g Resume) op = true).
  { intros op. unfold decided. simpl. destruct (decide (g = op)) as [->|Hne].
    - by rewrite fn_lookup_insert.
    - by rewrite fn_lookup_insert_ne. }
  constructor; simpl; try okeep Ho.
  - intros n op D S. destruct (decide (g = op)) as [->|Hne];
      [by pose proof (u_failed Ho n op D S); congruence|].
    rewrite fn_lookup_insert_ne by done. by apply (u_failed Ho n).
  - intros n op D S Hx. by apply Hdx, (u_cancelled Ho n).
  - intros n op D S Hx. by apply Hdx, (u_succeeded Ho n).
  - intros op Hx. apply (u_error Ho). by fcase.
  - intros op Hx. apply (u_cancel Ho). by fcase.
  - intros op Hx. fcase; [by left|]. by apply (u_resume Ho).
  - intros op Ha Hx Hg. rewrite (u_done Ho op Ha Hx Hg). unfold settled_state. simpl.
    destruct (decide (g = op)) as [->|Hne]; [congruence|by rewrite fn_lookup_insert_ne].
Qed.

(** A child let go by ~task_group. *)
Lemma out_abandon h h' g c :
  gone h g = true → outcome h → kids h' = <[g := filter (λ x, x ≠ c) (kids h g)]> (kids h) →
  state h' = state h → home h' = home h → gone h' = gone h → decision h' = decision h →
  winner h' = winner h → exception h' = exception h → errors h' = errors h →
  cancel_requested h' = cancel_requested h → threw h' = threw h → error h' = error h → outcome h'.
Proof.
  intros Hg Ho E1 E2 E3 E4 E5 E6 E7 E8 E9 E10 E11.
  assert (Hdel : ∀ m op, delivered h' m op ↔ delivered h m op).
  { intros m op. unfold delivered. rewrite E1, E3, E4.
    destruct (decide (g = op)) as [<-|Hne]; [rewrite Hg; naive_solver|].
    by rewrite fn_lookup_insert_ne. }
  constructor; unfold decided, settled_state;
    rewrite ?E2, ?E3, ?E4, ?E5, ?E6, ?E7, ?E8, ?E9, ?E10, ?E11; try okeep Ho;
    try (intros m op; rewrite Hdel; intros D).
  - by apply (u_failed Ho m).
  - by apply (u_cancelled Ho m).
  - by apply (u_succeeded Ho m).
  - by apply (u_threw Ho m).
  - intros m op e. rewrite Hdel. by apply (u_erred Ho m).
Qed.

(** What taking the end of child [c] does to [op]. *)
Record delivers (h h' : heap) (op c : nat) : Prop := {
  v_others o : o ≠ op → kids h' o = kids h o ∧ decision h' o = decision h o ∧
    winner h' o = winner h o ∧ exception h' o = exception h o ∧ errors h' o = errors h o;
  v_kids n : n ∈ kids h' op ↔ n ∈ kids h op ∧ n ≠ c;
  v_same : state h' = state h ∧ home h' = home h ∧ gone h' = gone h ∧ threw h' = threw h ∧
    error h' = error h ∧ cancel_requested h' = cancel_requested h;
  v_error : decision h' op = Error ↔ decision h op = Error ∨ state h c = Failed;
  v_decided : decided h op = true → decided h' op = true;
  v_cancelled : state h c = Cancelled → kind op ≠ TaskGroup → decided h' op = true;
  v_succeeded : state h c = Succeeded → kind op = WhenAny → decided h' op = true;
  v_cancel : decision h' op = Cancel →
    decision h op = Cancel ∨ (kind op ≠ TaskGroup ∧ state h c = Cancelled);
  v_resume : decision h' op = Resume →
    (decision h op = Resume ∧ winner h' op = winner h op) ∨
    (kind op = WhenAny ∧ winner h' op = Some c ∧ state h c = Succeeded);
  v_exception : exception h' op = exception h op ∨
    (exception h' op = Some c ∧ state h c = Failed ∧ threw h c = true ∧ exception h op = None);
  v_threw : state h c = Failed → threw h c = true → exception h' op ≠ None;
  v_errors : errors h' op = errors h op ∨
    ∃ e, state h c = Failed ∧ threw h c = false ∧ error h c = Some e ∧
      ((kind op = TaskGroup ∧ errors h' op = errors h op ++ [e]) ∨
       (kind op ≠ TaskGroup ∧ errors h op = [] ∧ errors h' op = [e]));
  v_erred e : state h c = Failed → threw h c = false → error h c = Some e →
    errors h' op ≠ [] ∧ (kind op = TaskGroup → e ∈ errors h' op);
}.

Lemma out_deliver h h' op c H F R A :
  core h H F R A (Some (op, c)) → delivers h h' op c → outcome h → outcome h'.
Proof.
  intros Hc V Ho. destruct (c_completing Hc op c eq_refl) as [Hi Hd].
  destruct (c_kids Hc op c Hi) as (Ha & _ & Hh & _).
  assert (Hnd : done (state h op) = false).
  { destruct (done (state h op)) eqn:E; [|done]. pose proof (c_done Hc op Ha E) as Hp.
    rewrite (c_pending Hc op Ha) in Hp. destruct (kids h op); [by apply not_elem_of_nil in Hi|].
    simpl in Hp. lia. }
  destruct V. destruct v_same0 as (E1 & E2 & E3 & E4 & E5 & E6).
  assert (Hdel : ∀ n o, delivered h' n o → delivered h n o ∨ (o = op ∧ n = c)).
  { intros n o (H1 & H2 & H3). rewrite E2 in H1. rewrite E3 in H2.
    destruct (decide (o = op)) as [->|Hne].
    - rewrite v_kids0 in H3. destruct (decide (n = c)) as [->|]; [by right|left].
      split_and!; try done. naive_solver.
    - left. split_and!; try done. by destruct (v_others0 o Hne) as (<- & _). }
  assert (Hoth : ∀ o, o ≠ op → decided h' o = decided h o ∧ settled_state h' o = settled_state h o).
  { intros o Hne. destruct (v_others0 o Hne) as (_ & Ed & _). unfold decided, settled_state.
    by rewrite Ed, E6. }
  assert (Herr : ∀ x, x ∈ errors h op → x ∈ errors h' op).
  { intros x Hx. destruct v_errors0 as [-> |(e & _ & _ & _ & [[_ ->]|(_ & E & _)])]; [done|..].
    - apply elem_of_app. by left.
    - rewrite E in Hx. by apply not_elem_of_nil in Hx. }
  constructor; rewrite ?E1, ?E2, ?E3, ?E4, ?E5.
  - intros n o [D|[-> ->]]%Hdel S; [|apply v_error0; by right].
    pose proof (u_failed Ho n o D S) as E. destruct (decide (o = op)) as [->|Hne];
      [apply v_error0; by left|]. by destruct (v_others0 o Hne) as (_ & -> & _).
  - intros n o [D|[-> ->]]%Hdel S Hk; [|by apply v_cancelled0].
    pose proof (u_cancelled Ho n o D S Hk) as E. destruct (decide (o = op)) as [->|Hne]; [auto|].
    by destruct (Hoth o Hne) as [-> _].
  - intros n o [D|[-> ->]]%Hdel S Hk; [|by apply v_succeeded0].
    pose proof (u_succeeded Ho n o D S Hk) as E. destruct (decide (o = op)) as [->|Hne]; [auto|].
    by destruct (Hoth o Hne) as [-> _].
  - intros n o [D|[-> ->]]%Hdel S Ht; [|by apply v_threw0].
    pose proof (u_threw Ho n o D S Ht) as E. destruct (decide (o = op)) as [->|Hne].
    + destruct v_exception0 as [-> |(-> & _)]; done.
    + by destruct (v_others0 o Hne) as (_ & _ & _ & -> & _).
  - intros n o e [D|[-> ->]]%Hdel S Ht Hx; [|by apply v_erred0].
    destruct (u_erred Ho n o e D S Ht Hx) as [N1 N2]. destruct (decide (o = op)) as [->|Hne].
    + split; [|auto]. destruct (errors h op) as [|y l]; [done|]. intros E.
      assert (Hy : y ∈ errors h' op) by (apply Herr; left). rewrite E in Hy.
      by apply not_elem_of_nil in Hy.
    + by destruct (v_others0 o Hne) as (_ & _ & _ & _ & ->).
  - intros o E. destruct (decide (o = op)) as [->|Hne].
    + apply v_error0 in E as [E|E]; [by apply (u_error Ho)|by exists c].
    + destruct (v_others0 o Hne) as (_ & Ed & _). rewrite Ed in E. by apply (u_error Ho).
  - intros o E. destruct (decide (o = op)) as [->|Hne].
    + apply v_cancel0 in E as [E|[Hk E]]; [by apply (u_cancel Ho)|]. split; [done|by exists c].
    + destruct (v_others0 o Hne) as (_ & Ed & _). rewrite Ed in E. by apply (u_cancel Ho).
  - intros o E. destruct (decide (o = op)) as [->|Hne].
    + apply v_resume0 in E as [[E ->]|(Hk & E & Hs)]; [by apply (u_resume Ho)|].
      right. split; [done|]. by exists c.
    + destruct (v_others0 o Hne) as (_ & Ed & -> & _). rewrite Ed in E. by apply (u_resume Ho).
  - intros o x E. destruct (decide (o = op)) as [->|Hne].
    + destruct v_exception0 as [Ex|(Ex & ? & ? & _)]; rewrite Ex in E;
        [by apply (u_exception Ho)|by simplify_eq].
    + destruct (v_others0 o Hne) as (_ & _ & _ & Ex & _). rewrite Ex in E. by apply (u_exception Ho).
  - intros o x E. destruct (decide (o = op)) as [->|Hne].
    + destruct v_errors0 as [Ex|(e & ? & ? & ? & [[_ Ex]|(_ & Ex0 & Ex)])]; rewrite Ex in E.
      * by apply (u_errors Ho).
      * apply elem_of_app in E as [E| ->%list_elem_of_singleton]; [by apply (u_errors Ho)|by exists c].
      * apply list_elem_of_singleton in E as ->. by exists c.
    + destruct (v_others0 o Hne) as (_ & _ & _ & _ & Ex). rewrite Ex in E. by apply (u_errors Ho).
  - intros o Hk. destruct (decide (o = op)) as [->|Hne].
    + destruct v_errors0 as [-> |(e & _ & _ & _ & [[? _]|(_ & _ & ->)])];
        [by apply (u_first Ho)|done|simpl; lia].
    + destruct (v_others0 o Hne) as (_ & _ & _ & _ & ->). by apply (u_first Ho).
  - intros o Hao Hx Hg. destruct (decide (o = op)) as [->|Hne]; [congruence|].
    destruct (Hoth o Hne) as [_ ->]. by apply (u_done Ho).
Qed.

Lemma decide_heap h op d :
  fst (decide_ h op d) =
  if decided h op then (if bool_decide (d = Error) then set_decision h op Error else h)
  else set_decision h op d.
Proof. unfold decide_. by case_if. Qed.

Lemma decide_error h op : fst (decide_ h op Error) = set_decision h op Error.
Proof. rewrite decide_heap. by case_if. Qed.

Lemma decided_unfold h op :
  decided h op = false ↔ decision h op = NoDecision ∧ cancel_requested h op = false.
Proof.
  unfold decided. rewrite orb_false_iff, negb_false_iff, bool_decide_eq_true. done.
Qed.

Ltac delivers_solve Hk Es :=
  bool_prop; constructor; simpl;
  try (intros ? ?; by rewrite ?fn_lookup_insert_ne by done); try exact Hk; clear Hk;
  unfold decided in *; simpl in *; rewrite ?fn_lookup_insert in *; rewrite ?Es; bool_prop;
  try done; try congruence; try (by left); try (intros; congruence); try naive_solver congruence.

Lemma child_completed_delivers h op c r :
  child_completed h op c = Some r → delivers h (fst r) op c.
Proof.
  unfold child_completed. case_if; [done|]. intros Hr.
  assert (Hk : ∀ n, n ∈ kids (unlink h op c) op ↔ n ∈ kids h op ∧ n ≠ c).
  { intros n. simpl. rewrite fn_lookup_insert, list_elem_of_filter. naive_solver. }
  destruct (state h c) eqn:Es; try done.
  - simplify_eq. simpl. case_if; [rewrite decide_heap; case_if|]; delivers_solve Hk Es.
    intros _ Hw. rewrite Hw in *. simpl in *. by apply negb_false_iff.
  - case_if_in Hr; [|case_if_in Hr; [destruct (error h c) as [e|] eqn:Ee|]]; simplify_eq; simpl;
      rewrite decide_error.
    + destruct (exception h op) eqn:Ex; delivers_solve Hk Es.
    + unfold take_error. case_if.
      * delivers_solve Hk Es. intros e0 _ _ He. simplify_eq. split; [by destruct (errors h op)|].
        intros _. apply elem_of_app. right. by apply list_elem_of_singleton.
      * simpl. destruct (errors h op) eqn:Er; delivers_solve Hk Es.
  - simplify_eq. simpl. case_if; [|rewrite decide_heap; repeat case_if]; delivers_solve Hk Es.
Qed.

(** ** The operations *)

Ltac osame Ho := apply (out_same _ _ Ho); try reflexivity.

Lemma out_finish h t e :
  homed h → done (state h t) = false → is_aggregate t = false → outcome h →
  outcome (fst (finish h t e)).
Proof.
  intros Hh Hd Ha Ho.
  assert (Ho1 : outcome (set_state h t e)) by (apply out_set_state; try done; congruence).
  unfold finish. destruct (parent h t); simpl; [by osame Ho1|]. case_if; [by osame Ho1|done].
Qed.

Lemma out_start h t p :
  homed h → done (state h t) = false → is_aggregate t = false → outcome h →
  outcome (fst (start h t p)).
Proof.
  intros Hh Hd Ha Ho. assert (Ho1 : outcome (set_parent h t p)) by (by osame Ho).
  unfold start. case_if; [by apply out_finish|]. simpl. by apply out_set_state.
Qed.

Lemma out_awaited_ended h t e b :
  homed h → done (state h t) = false → is_aggregate t = false → outcome h →
  outcome (fst (awaited_ended h t e b)).
Proof.
  intros Hh Hd Ha Ho. assert (Ho1 : outcome (set_child h t None)) by (by osame Ho).
  unfold awaited_ended. case_if; [by apply out_finish|done].
Qed.

Lemma out_task_complete h t c r :
  homed h → done (state h t) = false → is_aggregate t = false → outcome h →
  task_complete h t c = Some r → outcome (fst r).
Proof.
  intros Hh Hd Ha Ho. unfold task_complete. case_if.
  - destruct (error h c); [|done]. intros ?. simplify_eq. apply out_finish; try done.
    apply (out_fields h _ t); try done. intros m Hm. simpl. by rewrite fn_lookup_insert_ne.
  - intros ?. simplify_eq. by apply out_awaited_ended.
Qed.

Lemma out_take_ended h g : outcome h → outcome (fst (take_ended h g)).
Proof. intros Ho. unfold take_ended. destruct (ended h g); simpl; [done|]. by osame Ho. Qed.

Lemma out_settle h op :
  homed h → done (state h op) = false → outcome h → outcome (fst (settle_if_idle h op)).
Proof.
  intros Hh Hd Ho. unfold settle_if_idle. case_if; [done|]. destruct (parent h op) as [p|]; [|done].
  assert (Ho1 : outcome (set_parent (set_state h op (settled_state h op)) op None)).
  { assert (Ho1 : outcome (set_state h op (settled_state h op))) by (by apply out_set_state).
    by osame Ho1. }
  case_if; [done|]. pose proof (out_take_ended _ op Ho1) as Ho2. by destruct (take_ended _ op).
Qed.

Lemma out_child_counted h op c :
  homed h → done (state h op) = false → outcome h → outcome (fst (child_counted h op c)).
Proof.
  intros Hh Hd Ho. unfold child_counted.
  match goal with |- context [settle_if_idle (set_pending ?x _ _) _] => set (h1 := x) end.
  assert (H1 : homed h1 ∧ done (state h1 op) = false ∧ outcome h1).
  { unfold h1. case_if; [|done]. destruct (ended h op); split_and!; try done; by osame Ho. }
  destruct H1 as (Hh1 & Hd1 & Ho1). apply out_settle; try done. by osame Ho1.
Qed.

Lemma out_resume h k step :
  outcome (fst (step (set_resuming h true))) → outcome (fst (resume_and_drain h k step)).
Proof. unfold resume_and_drain. by destruct (step (set_resuming h true)). Qed.

Lemma out_cancel h n k : outcome h → outcome (fst (cancel h n k)).
Proof.
  intros Ho. unfold cancel. case_if; [done|]. bool_prop.
  assert (Ho1 : outcome (set_cancel_requested h n true)) by (by apply out_cancel_requested).
  destruct (kind n); try done; apply out_resume; by osame Ho1.
Qed.

Lemma out_complete h n k r :
  homed h → done (state h n) = false → is_aggregate n = false → outcome h →
  complete h n k = Some r → outcome (fst r).
Proof.
  intros Hh Hd Ha Ho. unfold complete. simpl. destruct (parent h n); [|done]. intros ?. simplify_eq.
  match goal with |- context [set_state h n ?e] =>
    assert (Ho1 : outcome (set_state h n e)) by (apply out_set_state; try done; congruence) end.
  apply out_resume. by osame Ho1.
Qed.

Lemma out_end_wait h w k r :
  homed h → done (state h w) = false → is_aggregate w = false → outcome h →
  end_wait h w k = Some r → outcome (fst r).
Proof.
  intros Hh Hd Ha Ho. unfold end_wait. simpl. destruct (parent h w); [|done]. intros ?. simplify_eq.
  assert (Ho1 : outcome (set_state h w Cancelled)) by (apply out_set_state; try done; congruence).
  apply out_resume. by osame Ho1.
Qed.

Lemma out_wait_resume h w k r :
  homed h → (∀ t, parent h w = Some t → done (state h t) = false ∧ is_aggregate t = false) →
  outcome h → wait_resume h w k = Some r → outcome (fst r).
Proof.
  intros Hh Ht Ho. unfold wait_resume. destruct (parent h w) as [t|]; [|done]. intros ?. simplify_eq.
  destruct (Ht t eq_refl) as [Hd Ha]. apply out_resume. simpl. case_if; [|by osame Ho].
  apply out_finish; try done. by osame Ho.
Qed.

(** ** Every step *)

Lemma held_open h H F R A C t :
  core h H F R A C → t ∈ H → done (state h t) = false ∧ is_aggregate t = false.
Proof.
  intros Hc Hi. destruct (c_held Hc t Hi) as (Hk & -> & _). split; [done|].
  unfold is_aggregate. by rewrite Hk.
Qed.

Lemma referred_open h H F R A C op :
  core h H F R A C → is_aggregate op = true → op ∈ R ∨ kids h op ≠ [] → done (state h op) = false.
Proof.
  intros Hc Ha Hr. destruct (done (state h op)) eqn:E; [|done].
  pose proof (c_done Hc op Ha E) as Hp. rewrite (c_pending Hc op Ha) in Hp.
  destruct Hr as [Hr|Hr]; [|by destruct (kids h op); simpl in Hp; [|lia]].
  apply list_elem_of_split in Hr as (a & b & ->). unfold occ in Hp.
  rewrite filter_app, filter_cons, decide_True, length_app in Hp by done. simpl in Hp. lia.
Qed.

Lemma out_tick h s r : ok (h, s) → outcome h → tick h s = Some r → outcome (fst r).
Proof.
  intros (Hc & Hv & Ht & Hf) Ho Hr. unfold coreS in Hc. pose proof (core_homed _ _ _ _ _ _ Hc) as Hh.
  destruct s as [|[] k]; try done; apply Forall_cons_1 in Hf as [Hf _]; simpl in *.
  - destruct h0 as [t|]; destruct k as [|[] k]; by simplify_eq.
  - simplify_eq. by apply out_cancel.
  - destruct count; [by simplify_eq|]. destruct (kids h op) as [|c cs] eqn:Ek; simplify_eq; [done|].
    simpl. osame Ho. intros o. apply rotate_perm; [apply (c_kids_nodup Hc)|rewrite Ek; left].
  - pose proof (referred_open _ _ _ _ _ _ op Hc Hf (or_introl (list_elem_of_here _ _))) as Hd.
    assert (Ho1 : outcome (unpin h op)) by (by osame Ho).
    pose proof (out_settle (unpin h op) op Hh Hd Ho1). destruct (settle_if_idle _ op). by simplify_eq.
  - pose proof (referred_open _ _ _ _ _ _ op Hc Hf (or_introl (list_elem_of_here _ _))) as Hd.
    destruct rest as [|c rest].
    + assert (Ho1 : outcome (unpin h op)) by (by osame Ho).
      pose proof (out_settle (unpin h op) op Hh Hd Ho1). destruct (settle_if_idle _ op). by simplify_eq.
    + destruct (c_arm Hc op c) as (Hi & Hs & _); [left|]. destruct (c_kids Hc op c Hi) as (_ & Hk & _).
      case_if_in Hr; [|done]. simplify_eq. apply out_resume, out_start; try done; [by simpl; rewrite Hs| |by osame Ho].
      unfold is_aggregate. by rewrite Hk.
  - destruct (held_open _ _ _ _ _ _ t Hc (list_elem_of_here _ _)) as [Hd Ha].
    destruct (task_complete h t c) as [[h1 fs]|] eqn:E; [|done]. simplify_eq.
    by apply (out_task_complete h t c (h1, fs)).
  - destruct (child_completed h op c) as [[h1 fs]|] eqn:E; [|done]. simplify_eq.
    pose proof (child_completed_delivers _ _ _ _ E) as V. by apply (out_deliver h _ op c _ _ _ _ Hc V).
  - pose proof (referred_open _ _ _ _ _ _ op Hc Hf (or_introl (list_elem_of_here _ _))) as Hd.
    pose proof (out_child_counted _ _ c Hh Hd Ho). destruct (child_counted h op c). by simplify_eq.
  - destruct (held_open _ _ _ _ _ _ t Hc (list_elem_of_here _ _)) as [Hd Ha].
    pose proof (out_awaited_ended h t end_ caught Hh Hd Ha Ho).
    destruct (awaited_ended h t end_ caught). by simplify_eq.
  - by simplify_eq.
  - destruct frames; simplify_eq; [done|]. by osame Ho.
  - by simplify_eq.
  - case_if_in Hr; simplify_eq; [done|]. by osame Ho.
  - by simplify_eq.
  - destruct (last (ended_roots h)); simplify_eq; [by osame Ho|done].
  - destruct (groups_with_ended h) as [|g gs]; [by simplify_eq|].
    pose proof (out_take_ended h g Ho). destruct (take_ended h g). by simplify_eq.
  - destruct (deferred h) as [|n rest] eqn:Ed; [by simplify_eq|].
    destruct (c_deferred Hc n) as (Hk & t & Hp & Hch & Hs); [rewrite Ed; left|].
    assert (Ho1 : outcome (set_deferred h rest)) by (by osame Ho). case_if_in Hr.
    + eapply out_wait_resume; [| |exact Ho1|exact Hr]; [done|]. intros t' Hp'.
      destruct (c_child Hc t n Hch) as (Hkt & Hst & _). simpl in Hp'. assert (t' = t) as -> by congruence.
      simpl. rewrite Hst. unfold is_aggregate. by rewrite Hkt.
    + eapply out_complete; [| | |exact Ho1|exact Hr]; try done; [by simpl; rewrite Hs|].
      unfold is_aggregate. by destruct Hk as [-> | ->].
  - pose proof (out_take_ended h g Ho) as Ho1.
    assert (Hg1 : gone (fst (take_ended h g)) = gone h) by (unfold take_ended; by destruct (ended h g)).
    destruct (take_ended h g) as [h1 frames]. simpl in *.
    destruct frames; [|by simplify_eq]. destruct (kids h1 g) as [|c cs] eqn:Ek; simplify_eq; [done|].
    apply (out_abandon h1 _ g c); try done. by rewrite Hg1.
Qed.

Lemma homed_link h op cs :
  homed h → homed (link_all (watch_all h cs) op cs).
Proof.
  intros Hh n o Hn Hg Hd. simpl in *. case_bool_decide as Hi.
  - simplify_eq. rewrite fn_lookup_insert. apply elem_of_app. by right.
  - specialize (Hh n o Hn Hg Hd). destruct (decide (op = o)) as [->|Hne].
    + rewrite fn_lookup_insert. apply elem_of_app. by left.
    + by rewrite fn_lookup_insert_ne.
Qed.

Lemma task_not_aggregate t : kind t = Task → is_aggregate t = false.
Proof. unfold is_aggregate. by intros ->. Qed.

Ltac pend := simpl; match goal with H : state _ ?x = Pending |- context [state _ ?x] => by rewrite H end.

Lemma out_act_code a h s r : base_ok h s → outcome h → act_code a h s = Some r → outcome (fst r).
Proof.
  intros Hb Ho Ha. pose proof (proj1 Hb) as Hc. pose proof (core_homed _ _ _ _ _ _ Hc) as Hh.
  destruct a; try done; simpl in Ha; guards Ha.
  - by simplify_eq.
  - simplify_eq. unfold group_cancel. case_if; [done|]. bool_prop. apply out_resume. simpl.
    assert (Ho1 : outcome (set_decision h g Resume)) by (by apply out_group_cancel). by osame Ho1.
  - simplify_eq. unfold spawn. case_if; [done|].
    assert (Hs : state h t = Pending) by (by apply (c_fresh Hc)).
    assert (Ho1 : outcome (link_all (watch_all h [t]) g [t])).
    { eapply out_link; [exact Hc| |done]. by intros c ->%list_elem_of_singleton. }
    apply out_resume, out_start; [by apply homed_link|by simpl; rewrite Hs|by apply task_not_aggregate|].
    by osame Ho1.
  - simplify_eq. by apply out_gone.
  - eapply out_complete; [exact Hh| | |exact Ho|exact Ha].
    + by match goal with H : live _ _ |- _ => destruct H as (? & _ & _ & ->) end.
    + unfold is_aggregate. by match goal with H : kind n = _ |- _ => rewrite H end.
  - simplify_eq. by osame Ho.
  - simplify_eq. by osame Ho.
  - simplify_eq. by osame Ho.
  - unfold drop_task in Ha. case_if_in Ha; [|apply guarded_Some in Ha as [_ Ha]]; simplify_eq; by osame Ho.
Qed.

Lemma out_act_body a h t r H F R A :
  core h (t :: H) (t :: F) R A None → outcome h → act_body a h t = Some r → outcome (fst r).
Proof.
  intros Hc Ho Ha. pose proof (core_homed _ _ _ _ _ _ Hc) as Hh.
  destruct (held_open _ _ _ _ _ _ t Hc (list_elem_of_here _ _)) as [Hd Hag].
  assert (Hchk : ∀ x, checkpoint h t = Some x → outcome (fst x)).
  { unfold checkpoint. intros x. case_if; [|done]. intros ?. simplify_eq. by apply out_finish. }
  assert (Haw : ∀ n, done (state h n) = false → outcome (awaited_by h n t)).
  { intros n Hn. assert (Ho1 : outcome (set_state h n Running)) by (by apply out_set_state).
    by osame Ho1. }
  destruct a; try done; simpl in Ha.
  - guards Ha. assert (Hs := c_fresh Hc c ltac:(done) ltac:(done)).
    destruct (checkpoint h t); simplify_eq; [by apply Hchk|].
    apply out_start; [done|by simpl; rewrite Hs|by apply task_not_aggregate|by osame Ho].
  - guards Ha. destruct (checkpoint (watch_all h cs) t) as [x|] eqn:Ec; simplify_eq.
    + unfold checkpoint in Ec. case_if_in Ec; [|done]. simplify_eq.
      apply out_finish; try done. by osame Ho.
    + assert (Ho1 : outcome (link_all (watch_all h cs) op cs)).
      { eapply out_link; [exact Hc| |done]. intros c Hi. apply fresh_task_iff.
        match goal with H : forallb _ _ = true |- _ => rewrite forallb_forall in H; apply H end.
        by apply list_elem_of_In. }
      assert (Ho2 : outcome (set_state (link_all (watch_all h cs) op cs) op Running)).
      { apply out_set_state; try done; [by apply homed_link|pend]. }
      simpl. by osame Ho2.
  - guards Ha. case_if_in Ha.
    + assert (Ho1 : outcome (set_state h g (settled_state h g)))
        by (apply out_set_state; try done; pend).
      pose proof (out_take_ended _ g Ho1). destruct (take_ended _ g). by simplify_eq.
    + pose proof (Haw g ltac:(pend)) as Ho1. simplify_eq. case_if; [|done].
      assert (Ho2 : outcome (set_cancel_requested (awaited_by h g t) g true)).
      { apply out_cancel_requested; [|done]. simpl. by rewrite fn_lookup_insert. }
      simpl. by osame Ho2.
  - guards Ha. destruct (checkpoint h t); simplify_eq; [by apply Hchk|]. apply Haw. pend.
  - guards Ha. simplify_eq. apply Haw. pend.
  - simplify_eq. by apply out_finish.
  - guards Ha. simplify_eq. apply out_finish; try done.
    apply (out_fields h _ t); try done. intros m Hm. simpl. by rewrite fn_lookup_insert_ne.
  - simplify_eq. apply out_finish; try done.
    apply (out_fields h _ t); try done. intros m Hm. simpl. by rewrite fn_lookup_insert_ne.
  - simplify_eq. by apply out_finish.
Qed.

Lemma out_act a h s r : ok (h, s) → outcome h → act a h s = Some r → outcome (fst r).
Proof.
  intros Hok Ho Ha.
  assert (Hcode : top_is transient s = false → act_code a h s = Some r → outcome (fst r)).
  { intros Ht E. apply (out_act_code a h s); [|done..]. by apply code_base. }
  destruct s as [|[] k]; try done; simpl in Ha.
  - destruct k as [|f k].
    + destruct (act_loop a h) eqn:El; [|by apply Hcode]. simplify_eq.
      pose proof (proj1 (code_base _ _ Hok eq_refl)) as Hc.
      destruct a; try done; simpl in El; [|guards El; by simplify_eq|simplify_eq; by osame Ho].
      destruct (tasks h) as [|t rest] eqn:E; [done|]. guards El. simplify_eq.
      destruct (c_tasks Hc t) as (Hk & _); [rewrite E; left|].
      apply out_resume, out_start; [exact (core_homed _ _ _ _ _ _ Hc)|pend
        |by apply task_not_aggregate|by osame Ho].
    + destruct a; try by apply Hcode. by simplify_eq.
  - destruct (act_body a h t) as [[h1 fs]|] eqn:Eb; [|by apply Hcode]. simplify_eq.
    pose proof Hok as (o & k' & -> & Hr & Hfs & _ & _ & Hc)%ok_handle; [|done].
    by apply (out_act_body a h t (h1, fs) _ _ _ _ Hc).
  - pose proof (proj1 Hok) as Hc. destruct Hok as (_ & _ & [Hw Hl] & _).
    destruct a; try done; simpl in Ha.
    + guards Ha. simplify_eq. by osame Ho.
    + guards Ha. destruct Hl as (t & Hp & _ & Hs).
      eapply out_end_wait; [exact (core_homed _ _ _ _ _ _ Hc)|by rewrite Hs| |exact Ho|exact Ha].
      unfold is_aggregate. by rewrite Hw.
    + by simplify_eq.
Qed.

Lemma initial_outcome : outcome initial.
Proof.
  constructor; simpl; try done; try (by intros ? ? (? & _)); try (by intros ? ? ? (? & _)).
  - intros op e H. by apply not_elem_of_nil in H.
  - intros. lia.
Qed.

Lemma reachable_outcome h s : reachable (h, s) → outcome h.
Proof.
  intros Hr. remember (h, s) as hs eqn:E. revert h s E.
  induction Hr as [|[h0 s0] a hs' Hr IH Hs]; intros h s E.
  - injection E as <- _. apply initial_outcome.
  - subst hs'. pose proof (reachable_ok _ Hr) as Hok. specialize (IH h0 s0 eq_refl).
    destruct a as [a|]; simpl in Hs.
    + by apply (out_act a h0 s0 (h, s)).
    + by apply (out_tick h0 s0 (h, s)).
Qed.

(** ** What the awaiting task gets *)

(** [co_await]'s result: an exception rethrown, the errors, a cancellation as
    a value, or success. *)
Inductive result := Rethrown (c : nat) | Errors (es : list nat) | CancelledValue | Success.

(** [when_op::await_resume]. *)
Definition when_await_resume (h : heap) (op : nat) : result :=
  match exception h op with
  | Some c => Rethrown c
  | None =>
      match errors h op with
      | e :: _ => Errors [e]
      | [] =>
          if cancel_channel op && bool_decide (state h op = Cancelled)
          then CancelledValue else Success
      end
  end.

(** [join_awaiter::await_resume]. *)
Definition join_await_resume (h : heap) (g : nat) : result :=
  match exception h g with
  | Some c => Rethrown c
  | None => match errors h g with [] => Success | es => Errors es end
  end.

Definition await_resume (h : heap) (op : nat) : result :=
  if bool_decide (kind op = TaskGroup) then join_await_resume h op else when_await_resume h op.

(** A settled aggregate has taken the end of all its children. *)
Lemma settled_delivered h s op n :
  reachable (h, s) → is_aggregate op = true → done (state h op) = true → gone h op = false →
  home h n = Some op → delivered h n op ∧ done (state h n) = true.
Proof.
  intros Hr Ha Hd Hg Hh. pose proof (reachable_ok _ Hr) as (Hc & _).
  assert (Hk : kids h op = []).
  { pose proof (c_done Hc op Ha Hd) as Hp. rewrite (c_pending Hc op Ha) in Hp.
    destruct (kids h op); [done|simpl in Hp; lia]. }
  split; [split_and!; try done; rewrite Hk; apply not_elem_of_nil|].
  destruct (c_home Hc n op Hh) as (_ & _ & _ & [Hi|[?|Hx]]); [|done|].
  - rewrite Hk in Hi. by apply not_elem_of_nil in Hi.
  - rewrite (c_abandoned Hc op Hg) in Hx. lia.
Qed.

Lemma settled_failed h s op :
  reachable (h, s) → is_aggregate op = true → done (state h op) = true → gone h op = false →
  state h op = Failed ↔ ∃ n, home h n = Some op ∧ state h n = Failed.
Proof.
  intros Hr Ha Hd Hg. pose proof (reachable_outcome _ _ Hr) as Ho.
  rewrite (u_done Ho op Ha Hd Hg). unfold settled_state. split.
  - intros E. case_bool_decide; [by apply (u_error Ho)|]. by case_if_in E.
  - intros (n & Hh & Hs). destruct (settled_delivered h s op n) as [D _]; try done.
    by rewrite (u_failed Ho n op D Hs).
Qed.

(** C5. What an aggregate settles as follows from how its children ended, in
    this order: failed exactly if a child failed; cancelled only if it was
    cancelled itself or a child of a when_all or when_any was; succeeded
    only if, for a when_all, every child succeeded and, for a when_any, the
    child it names as winner did. *)
Theorem outcome_ranking h s op m :
  reachable (h, s) → is_aggregate op = true → done (state h op) = true → gone h op = false →
  home h m = Some op →
  (state h op = Failed ↔ ∃ n, home h n = Some op ∧ state h n = Failed) ∧
  (state h op = Cancelled →
     cancel_requested h op = true ∨
     (kind op ≠ TaskGroup ∧ ∃ n, home h n = Some op ∧ state h n = Cancelled)) ∧
  (state h op = Succeeded → kind op = WhenAll →
     ∀ n, home h n = Some op → state h n = Succeeded) ∧
  (state h op = Succeeded → kind op = WhenAny →
     ∃ w, winner h op = Some w ∧ home h w = Some op ∧ state h w = Succeeded).
Proof.
  intros Hr Ha Hd Hg Hm. pose proof (reachable_outcome _ _ Hr) as Ho.
  assert (Hsucc : state h op = Succeeded → cancel_requested h op = false ∧
    (decision h op = NoDecision ∨ decision h op = Resume)).
  { rewrite (u_done Ho op Ha Hd Hg). unfold settled_state. intros E.
    repeat case_if_in E; try done. bool_prop. destruct (decision h op); auto; done. }
  assert (Hdec : cancel_requested h op = false → decision h op = NoDecision → decided h op = false)
    by (intros; by apply decided_unfold).
  split; [by apply (settled_failed h s)|]. split_and!.
  - rewrite (u_done Ho op Ha Hd Hg). unfold settled_state. case_if; [done|].
    destruct (bool_decide (decision h op = Cancel)) eqn:E; bool_prop; simpl.
    + intros _. right. by apply (u_cancel Ho).
    + case_if; [by left|done].
  - intros Hs Hk n Hn. destruct (Hsucc Hs) as [Hcr Hde].
    destruct (settled_delivered h s op n) as [D Hdn]; try done.
    destruct (state h n) eqn:En; try done.
    + pose proof (u_failed Ho n op D En). destruct Hde; congruence.
    + pose proof (u_cancelled Ho n op D En ltac:(by rewrite Hk)) as Hx.
      destruct Hde as [Hde|Hde]; [by rewrite Hdec in Hx|].
      apply (u_resume Ho) in Hde as [?|[? _]]; congruence.
  - intros Hs Hk. destruct (Hsucc Hs) as [Hcr [Hde|Hde]].
    + destruct (settled_delivered h s op m) as [D Hdn]; try done.
      destruct (state h m) eqn:En; try done.
      * pose proof (u_succeeded Ho m op D En Hk) as Hx. by rewrite Hdec in Hx.
      * pose proof (u_failed Ho m op D En). congruence.
      * pose proof (u_cancelled Ho m op D En ltac:(by rewrite Hk)) as Hx. by rewrite Hdec in Hx.
    + apply (u_resume Ho) in Hde as [?|[_ ?]]; [congruence|done].
Qed.

(** C24. Failures are never dropped: what [co_await] of a settled aggregate
    gives is the exception of a child that threw, if one did; else an error
    of a child that failed, if one did, and for a task_group the errors of all
    that failed; and an error or an exception only then. *)
Theorem failures_reported h s op :
  reachable (h, s) → is_aggregate op = true → done (state h op) = true → gone h op = false →
  match await_resume h op with
  | Rethrown c => home h c = Some op ∧ state h c = Failed ∧ threw h c = true
  | Errors es =>
      (∀ n, home h n = Some op → state h n = Failed → threw h n = false) ∧ es ≠ [] ∧
      (∀ e, e ∈ es → ∃ n, home h n = Some op ∧ state h n = Failed ∧ error h n = Some e) ∧
      (kind op = TaskGroup →
       ∀ n, home h n = Some op → state h n = Failed → ∃ e, error h n = Some e ∧ e ∈ es)
  | _ => ∀ n, home h n = Some op → state h n ≠ Failed
  end.
Proof.
  intros Hr Ha Hd Hg. pose proof (reachable_outcome _ _ Hr) as Ho.
  pose proof (reachable_ok _ Hr) as (Hc & _).
  assert (Hdel : ∀ n, home h n = Some op → delivered h n op) by (intros; by eapply settled_delivered).
  assert (Hthr : exception h op = None → ∀ n, home h n = Some op → state h n = Failed →
    threw h n = false ∧ ∃ e, error h n = Some e ∧ errors h op ≠ [] ∧ (kind op = TaskGroup → e ∈ errors h op)).
  { intros Hx n Hn Hs. assert (Ht : threw h n = false).
    { destruct (threw h n) eqn:E; [|done]. by destruct (u_threw Ho n op (Hdel n Hn) Hs E). }
    split; [done|]. destruct (c_home Hc n op Hn) as (Hk & _).
    destruct (error h n) as [e|] eqn:E; [|by destruct (c_failed Hc n Hk Hs Ht)].
    exists e. split; [done|]. by apply (u_erred Ho n op e (Hdel n Hn) Hs Ht). }
  assert (Hes : ∀ e, e ∈ errors h op → ∃ n, home h n = Some op ∧ state h n = Failed ∧
    error h n = Some e) by (intros e (n & ? & ? & _ & ?)%(u_errors Ho); eauto).
  unfold await_resume, join_await_resume, when_await_resume.
  destruct (exception h op) as [c|] eqn:Ex.
  { case_if; by apply (u_exception Ho). }
  specialize (Hthr eq_refl).
  assert (Hno : errors h op = [] → ∀ n, home h n = Some op → state h n ≠ Failed).
  { intros E n Hn Hs. by destruct (Hthr n Hn Hs) as (_ & e & _ & ? & _). }
  destruct (errors h op) as [|e es] eqn:Ee; [repeat case_if; auto|].
  case_if; bool_prop; (split; [intros n Hn Hs; by destruct (Hthr n Hn Hs)|]); (split; [done|]).
  - split; [done|]. intros _ n Hn Hs. destruct (Hthr n Hn Hs) as (_ & e' & ? & _ & ?). eauto.
  - split; [|done]. intros x ->%list_elem_of_singleton. apply Hes. left.
Qed.
End Moves.
