(* ===== verification/NodeCancel.v ===== *)
(** Cancellation in the task tree (Node.v) reaches everything below the node
    it was asked of: when the loop is back in its own code, no cancelled task
    awaits, and no decided aggregate has, a node the cancel has not reached. *)

From Stdlib Require Import Lia Bool.
From stdpp Require Import functions prelude list.
From S2P Require Import Prelude Node NodeTree NodeSafe.

(** The node the innermost frame is about to cancel. *)
Definition about (s : stack) (n : nat) : Prop :=
  match s with CancelNode m :: _ => m = n | _ => False end.

(** How many children the innermost [cancel_children] of [op] still reaches. *)
Fixpoint loop_left (op : nat) (s : stack) : nat :=
  match s with
  | [] => 0
  | CancelChildren o n :: s' => if decide (o = op) then n else loop_left op s'
  | _ :: s' => loop_left op s'
  end.

Definition quiet1 (f : frame) : bool :=
  match f with CancelChildren _ _ => false | _ => true end.
Definition quiet (fs : stack) : Prop := Forall (λ f, quiet1 f = true) fs.

Lemma loop_left_cons op f k : quiet1 f = true → loop_left op (f :: k) = loop_left op k.
Proof. by destruct f. Qed.

Lemma loop_left_app op fs k : quiet fs → loop_left op (fs ++ k) = loop_left op k.
Proof. induction 1 as [|f fs Hf _ IH]; [done|]. cbn [app]. by rewrite loop_left_cons. Qed.

Lemma sublist_app_split (l u r : list nat) :
  l `sublist_of` u ++ r → ∃ u' r', l = u' ++ r' ∧ length u' ≤ length u ∧ ∀ x, x ∈ r' → x ∈ r.
Proof.
  intros (u' & r' & -> & Hu & Hr)%sublist_app_r. exists u', r'. split; [done|].
  split; [by apply sublist_length|]. intros x Hx. by apply (elem_of_sublist r' r).
Qed.

Section Cancel.
Context `{P : Program}.

Record cancels (h : heap) (s : stack) : Prop := {
  x_child t c : cancel_requested h t = true → child h t = Some c →
    cancel_requested h c = true ∨ done (state h c) = true ∨ about s c;
  x_kids op : decided h op = true → gone h op = false →
    ∃ u r, kids h op = u ++ r ∧ length u ≤ loop_left op s ∧
      ∀ k, k ∈ r → cancel_requested h k = true ∨ about s k;
  x_idle op : kind op = WhenAll ∨ kind op = WhenAny → state h op = Pending → decided h op = false;
}.

(** Steps that cancel nothing, and add nothing that could be cancelled. *)
Record calm (h h' : heap) : Prop := {
  m_cancel : cancel_requested h' = cancel_requested h;
  m_decision : decision h' = decision h;
  m_gone : gone h' = gone h;
  m_kids : kids h' = kids h;
  m_done n : done (state h n) = true → done (state h' n) = true;
  m_pending n : state h' n = Pending → state h n = Pending;
  m_child t c : child h' t = Some c → child h t = Some c;
}.

Lemma calm_refl h : calm h h.
Proof. by constructor. Qed.

Lemma calm_trans h1 h2 h3 : calm h1 h2 → calm h2 h3 → calm h1 h3.
Proof.
  intros [] []. constructor; try congruence; auto.
Qed.

Lemma calm_same h h' :
  cancel_requested h' = cancel_requested h → decision h' = decision h → gone h' = gone h →
  kids h' = kids h → state h' = state h → child h' = child h → calm h h'.
Proof. intros ? ? ? ? E1 E2. constructor; try done; intros *; by rewrite ?E1, ?E2. Qed.

Lemma calm_decided h h' op : calm h h' → decided h' op = decided h op.
Proof. intros []. unfold decided. by rewrite m_cancel0, m_decision0. Qed.

Lemma cancels_calm h s h' s' :
  cancels h s → calm h h' → (∀ op, loop_left op s ≤ loop_left op s') →
  (∀ n, about s n → about s' n) → cancels h' s'.
Proof.
  intros X M Hl Hn. pose proof (calm_decided h h') as Hd. constructor.
  - intros t c. rewrite (m_cancel _ _ M). intros Hc Hch%(m_child _ _ M).
    destruct (x_child _ _ X t c Hc Hch) as [?|[?|?]]; [by left|right; left|right; right; auto].
    by apply (m_done _ _ M).
  - intros op. rewrite Hd, (m_gone _ _ M), (m_kids _ _ M), (m_cancel _ _ M) by done.
    intros H1 H2. destruct (x_kids _ _ X op H1 H2) as (u & r & E & Hu & Hr).
    exists u, r. split; [done|]. split; [by etrans|]. intros k [?|?]%Hr; auto.
  - intros op Hk Hp%(m_pending _ _ M). rewrite Hd by done. by apply (x_idle _ _ X).
Qed.

(** ** Operations that are calm *)

Lemma calm_state h n e :
  (done (state h n) = true → done e = true) → (e = Pending → state h n = Pending) →
  calm h (set_state h n e).
Proof.
  intros H1 H2. constructor; try done; intros m; simpl; destruct (decide (n = m)) as [->|];
    rewrite ?fn_lookup_insert, ?fn_lookup_insert_ne by done; auto.
Qed.

Lemma calm_child h t : calm h (set_child h t None).
Proof.
  constructor; try done. intros m c. simpl. destruct (decide (t = m)) as [->|];
    [by rewrite fn_lookup_insert|by rewrite fn_lookup_insert_ne].
Qed.

Lemma quiet_complete p c : quiet [on_child_complete p c].
Proof. unfold on_child_complete. case_if; by repeat constructor. Qed.

Definition calm_call (h : heap) (r : heap * stack) : Prop := calm h (fst r) ∧ quiet (snd r).

Lemma calm_call_trans h h1 r : calm h h1 → calm_call h1 r → calm_call h r.
Proof. intros H1 [H2 H3]. split; [by eapply calm_trans|done]. Qed.

Lemma calm_finish h t e : done e = true → calm_call h (finish h t e).
Proof.
  intros He. assert (Hs : calm h (set_state h t e)) by (apply calm_state; [done|by intros ->]).
  unfold finish. destruct (parent h t) as [p|].
  - split; [|apply quiet_complete].
    eapply calm_trans; [exact Hs|]. by apply calm_same.
  - split; [|by repeat constructor]. simpl. case_if; [|done].
    eapply calm_trans; [exact Hs|]. by apply calm_same.
Qed.

Lemma calm_start h t p : done (state h t) = false → calm_call h (start h t p).
Proof.
  intros Hd. assert (Hs : calm h (set_parent h t p)) by (by apply calm_same). unfold start.
  case_if; [by eapply calm_call_trans; [|apply calm_finish]|].
  split; [|by repeat constructor]. eapply calm_trans; [exact Hs|].
  apply calm_state; [simpl; congruence|done].
Qed.

Lemma calm_awaited_ended h t e b : calm_call h (awaited_ended h t e b).
Proof.
  pose proof (calm_child h t) as Hs. unfold awaited_ended.
  case_if; [by eapply calm_call_trans; [|apply calm_finish]|]. split; [done|by repeat constructor].
Qed.

Lemma calm_task_complete h t c r : task_complete h t c = Some r → calm_call h r.
Proof.
  unfold task_complete. case_if.
  - destruct (error h c); [|done]. intros ?. simplify_eq.
    eapply calm_call_trans; [|by apply calm_finish].
    eapply calm_trans; [apply (calm_child h t)|]. by apply calm_same.
  - intros ?. simplify_eq. apply calm_awaited_ended.
Qed.

Lemma calm_take_ended h g : calm h (fst (take_ended h g)).
Proof. unfold take_ended. destruct (ended h g); [apply calm_refl|by apply calm_same]. Qed.

Lemma settled_done h op : done (settled_state h op) = true.
Proof. unfold settled_state. by repeat case_if. Qed.

Lemma calm_settle h op : calm_call h (settle_if_idle h op).
Proof.
  unfold settle_if_idle. case_if; [split; [apply calm_refl|by repeat constructor]|].
  destruct (parent h op); [|split; [apply calm_refl|by repeat constructor]].
  assert (Hs : calm h (set_parent (set_state h op (settled_state h op)) op None)).
  { pose proof (settled_done h op) as Hd.
    apply (calm_trans _ (set_state h op (settled_state h op))); [|by apply calm_same].
    apply calm_state; [done|]. by intros E; rewrite E in Hd. }
  case_if; [split; [done|apply quiet_complete]|].
  pose proof (calm_take_ended (set_parent (set_state h op (settled_state h op)) op None) op) as Ht.
  destruct (take_ended _ op). split; [by eapply calm_trans|by repeat constructor].
Qed.

Lemma calm_unpin h op : calm_call h (settle_if_idle (unpin h op) op).
Proof. eapply calm_call_trans; [|apply calm_settle]. by apply calm_same. Qed.

Lemma calm_child_counted h op c : calm_call h (child_counted h op c).
Proof.
  unfold child_counted. eapply calm_call_trans; [|apply calm_settle].
  case_if; [destruct (ended h op)|]; by apply calm_same.
Qed.

(** A call run as one resumption. *)
Lemma calm_resume h k step :
  (calm_call (set_resuming h true) (step (set_resuming h true))) →
  calm h (fst (resume_and_drain h k step)) ∧
  ∀ op, loop_left op (snd (resume_and_drain h k step)) = loop_left op k.
Proof.
  intros [H1 H2]. unfold resume_and_drain. destruct (step (set_resuming h true)) as [h1 fs].
  simpl in *. split.
  - eapply calm_trans; [|exact H1]. by apply calm_same.
  - intros op. by rewrite loop_left_app.
Qed.

Lemma calm_complete h n k r :
  done (state h n) = false → complete h n k = Some r →
  calm h (fst r) ∧ ∀ op, loop_left op (snd r) = loop_left op k.
Proof.
  intros Hd. unfold complete. simpl. destruct (parent h n); [|done]. intros ?. simplify_eq.
  match goal with |- context [resume_and_drain ?x _ ?st] =>
    destruct (calm_resume x k st) as [H1 H2] end.
  { split; [apply calm_refl|]. apply quiet_complete. }
  split; [|done]. eapply calm_trans; [|exact H1].
  match goal with |- calm _ (set_parent ?x _ _) => apply (calm_trans _ x); [|by apply calm_same] end.
  apply calm_state; [congruence|]. by case_if.
Qed.

Lemma calm_end_wait h w k r :
  done (state h w) = false → end_wait h w k = Some r →
  calm h (fst r) ∧ ∀ op, loop_left op (snd r) = loop_left op k.
Proof.
  intros Hd. unfold end_wait. destruct (parent h w); [|done]. intros ?. simplify_eq.
  match goal with |- context [resume_and_drain ?x _ ?st] =>
    destruct (calm_resume x k st) as [H1 H2] end.
  { split; [by apply calm_same|]. apply quiet_complete. }
  split; [|done]. eapply calm_trans; [|exact H1]. apply calm_state; [congruence|done].
Qed.

Lemma calm_wait_resume h w k r :
  wait_resume h w k = Some r → calm h (fst r) ∧ ∀ op, loop_left op (snd r) = loop_left op k.
Proof.
  unfold wait_resume. destruct (parent h w) as [t|]; [|done]. intros ?. simplify_eq.
  match goal with |- context [resume_and_drain ?x _ ?st] =>
    destruct (calm_resume x k st) as [H1 H2] end.
  { simpl. case_if; [by apply calm_finish|]. split; [apply calm_refl|by repeat constructor]. }
  split; [|done]. eapply calm_trans; [|exact H1]. apply calm_child.
Qed.

(** ** Operations that cancel *)

Lemma nontask_no_child h H F R A C n c : core h H F R A C → kind n ≠ Task → child h n ≠ Some c.
Proof. intros Hc Hk Hch. by destruct (c_child Hc n c Hch). Qed.

Lemma nonagg_no_kids h H F R A C n : core h H F R A C → is_aggregate n = false → kids h n = [].
Proof.
  intros Hc Ha. destruct (kids h n) as [|c cs] eqn:E; [done|].
  destruct (c_kids Hc n c) as [Hx _]; [rewrite E; left|]. congruence.
Qed.

Lemma decided_requested h n op :
  decided (set_cancel_requested h n true) op = true → op ≠ n → decided h op = true.
Proof. unfold decided. simpl. intros Hd Hne. by rewrite fn_lookup_insert_ne in Hd. Qed.

(** A node is flagged: what is left to reach is below it. *)
Lemma flag_x h n s s' :
  cancels h s → (∀ m, about s m → m = n) →
  (kind n = WhenAll ∨ kind n = WhenAny → state h n ≠ Pending) →
  (∀ c, child h n = Some c → about s' c) → (∀ op, op ≠ n → loop_left op s ≤ loop_left op s') →
  gone h n = true ∨ length (kids h n) ≤ loop_left n s' → cancels (set_cancel_requested h n true) s'.
Proof.
  intros X Hs Ht Hch Hl Hn. constructor; simpl.
  - intros t c H1 H2. destruct (decide (n = c)) as [->|Hnc]; [left; by rewrite fn_lookup_insert|].
    rewrite fn_lookup_insert_ne by done. destruct (decide (n = t)) as [->|Hnt];
      [right; right; by apply Hch|].
    rewrite fn_lookup_insert_ne in H1 by done.
    destruct (x_child _ _ X t c H1 H2) as [?|[?|Hc%Hs]]; [by left|by right; left|congruence].
  - intros op H1 H2. destruct (decide (op = n)) as [->|Hne].
    + destruct Hn as [?|Hn]; [congruence|]. exists (kids h n), []. rewrite app_nil_r. split_and!; [done..|].
      intros x Hx. by apply not_elem_of_nil in Hx.
    + apply decided_requested in H1; [|done].
      destruct (x_kids _ _ X op H1 H2) as (u & r & E & Hu & Hr). exists u, r. split; [done|].
      split; [etrans; [exact Hu|by apply Hl]|]. intros x Hx. left.
      destruct (decide (n = x)) as [->|]; [by rewrite fn_lookup_insert|].
      rewrite fn_lookup_insert_ne by done. destruct (Hr x Hx) as [?|?%Hs]; congruence.
  - intros op Hk Hp. unfold decided. simpl. destruct (decide (n = op)) as [->|Hne]; [by destruct (Ht Hk)|].
    rewrite fn_lookup_insert_ne by done. by apply (x_idle _ _ X).
Qed.

(** The frames of [cancel_all] above [k]. *)
Lemma cancel_all_x h h0 op k o :
  cancels h (CancelChildren op (length (kids h op)) :: k) → calm h h0 →
  cancels (fst (cancel_all h0 op)) (snd (cancel_all h0 op) ++ Resumption o :: k).
Proof.
  intros X M. apply (cancels_calm h (CancelChildren op (length (kids h op)) :: k)); [done| | |done].
  - eapply calm_trans; [exact M|]. by apply calm_same.
  - intros o'. simpl. rewrite (m_kids _ _ M). lia.
Qed.

(** A cancel of a node that has ended, or that a cancel has reached. *)
Lemma ignored_x h n k :
  ok (h, CancelNode n :: k) → cancels h (CancelNode n :: k) →
  done (state h n) = true ∨ cancel_requested h n = true → cancels h k.
Proof.
  intros (Hc & _) X Hn. constructor.
  - intros t c H1 H2. destruct (x_child _ _ X t c H1 H2) as [?|[?|<-]]; [by left|by right; left|].
    destruct Hn; [by right; left|by left].
  - intros op H1 H2. destruct (x_kids _ _ X op H1 H2) as (u & r & E & Hu & Hr). exists u, r.
    split_and!; [done..|]. intros x Hx. left. destruct (Hr x Hx) as [?|<-]; [done|].
    destruct Hn as [Hd|]; [|done].
    destruct (c_kids Hc op n) as (_ & _ & _ & _ & [[_ E']|[[E' _]|[_ ?]]]);
      [rewrite E; apply elem_of_app; by right|..|done]; by rewrite E' in Hd.
  - apply (x_idle _ _ X).
Qed.

Lemma cancel_x h n k :
  ok (h, CancelNode n :: k) → cancels h (CancelNode n :: k) →
  cancels (fst (cancel h n k)) (snd (cancel h n k)).
Proof.
  intros Hok X. pose proof Hok as (Hc & _ & Ht & _). unfold cancel. case_if.
  { apply (ignored_x h n); try done. by apply orb_true_iff. }
  apply orb_false_iff in Heqb as [Hd _].
  assert (Hs : kind n = WhenAll ∨ kind n = WhenAny → state h n ≠ Pending).
  { intros Hk Hs. destruct Ht as [Ht|[(? & _ & _ & Ht)|Ht]]; [destruct Hk|..]; congruence. }
  assert (Hflag : ∀ s', (∀ c, child h n = Some c → about s' c) →
    (∀ op, loop_left op k ≤ loop_left op s') → length (kids h n) ≤ loop_left n s' →
    cancels (set_cancel_requested h n true) s').
  { intros s' H1 H2 H3. apply (flag_x h n (CancelNode n :: k)); try done; [by intros; apply H2|by right]. }
  assert (Hno : kind n ≠ Task → ∀ s' c, child h n = Some c → about s' c).
  { intros Hk s' c Hch. by destruct (nontask_no_child _ _ _ _ _ _ n c Hc Hk). }
  assert (Hleaf : is_aggregate n = false → length (kids h n) = 0).
  { intros Ha. by rewrite (nonagg_no_kids _ _ _ _ _ _ n Hc Ha). }
  assert (Hagg : is_aggregate n = true → cancels
    (fst (resume_and_drain (set_cancel_requested h n true) k (λ h, cancel_all h n)))
    (snd (resume_and_drain (set_cancel_requested h n true) k (λ h, cancel_all h n)))).
  { intros Ha. apply (cancel_all_x (set_cancel_requested h n true)); [|by apply calm_same].
    apply (flag_x h n (CancelNode n :: k)); [done|by intros m <-|done| | |].
    - apply Hno. by apply agg_kind.
    - intros op Hne. simpl. by rewrite decide_False.
    - right. simpl. by rewrite decide_True. }
  unfold is_aggregate in *. destruct (kind n) eqn:Hk; try by apply Hagg.
  - apply Hflag; [|intros op|]; simpl; destruct (child h n) as [c|]; try done;
      [by intros ? [= ->]|rewrite Hleaf by done; lia..].
  - apply Hflag; [by apply Hno|done|rewrite Hleaf by done; lia].
  - apply Hflag; [by apply Hno|done|rewrite Hleaf by done; lia].
Qed.

(** ** The loop over the children *)

Lemma loop_pop_x h op n k :
  cancels h (CancelChildren op n :: k) → n = 0 ∨ kids h op = [] → cancels h k.
Proof.
  intros X Hn. constructor.
  - intros t c H1 H2. destruct (x_child _ _ X t c H1 H2) as [?|[?|[]]]; auto.
  - intros o H1 H2. destruct (x_kids _ _ X o H1 H2) as (u & r & E & Hu & Hr). exists u, r.
    split; [done|]. split; [|by intros x [?|[]]%Hr; left]. simpl in Hu.
    case_decide; [subst o|done]. destruct Hn as [-> |Hn]; [lia|].
    rewrite Hn in E. destruct u; [simpl; lia|done].
  - apply (x_idle _ _ X).
Qed.

Lemma loop_step_x h op n c cs k :
  cancels h (CancelChildren op (S n) :: k) → NoDup (kids h op) → kids h op = c :: cs →
  cancels (link (unlink h op c) op c) (CancelNode c :: CancelChildren op n :: k).
Proof.
  intros X Hnd Ek.
  assert (Ek' : kids (link (unlink h op c) op c) op = cs ++ [c]).
  { simpl. rewrite !fn_lookup_insert. rewrite Ek in *.
    rewrite (filter_mid [] cs c Hnd). done. }
  constructor.
  - intros t x H1 H2. destruct (x_child _ _ X t x H1 H2) as [?|[?|[]]]; auto.
  - intros o H1 H2. destruct (x_kids _ _ X o H1 H2) as (u & r & E & Hu & Hr). simpl in Hu.
    assert (Hr' : ∀ x, x ∈ r → cancel_requested h x = true) by (by intros x [?|[]]%Hr).
    destruct (decide (op = o)) as [<-|Hne].
    + rewrite Ek'. rewrite Ek in E. simpl. rewrite decide_True by done. destruct u as [|y u].
      * exists [], (cs ++ [c]). split_and!; [done|simpl; lia|].
        intros x Hx. left. apply Hr'. simpl in E. rewrite <- E.
        apply elem_of_app in Hx as [?|Hx%list_elem_of_singleton]; [by right|subst; left].
      * simpl in E. injection E as -> ->. exists u, (r ++ [y]). rewrite app_assoc.
        split_and!; [done|simpl in Hu; lia|]. intros x [Hx|Hx]%elem_of_app; [by left; apply Hr'|].
        right. simpl. by apply list_elem_of_singleton in Hx.
    + exists u, r. simpl. rewrite !fn_lookup_insert_ne, decide_False by done.
      split_and!; [done..|]. intros x Hx. left. by apply Hr'.
  - apply (x_idle _ _ X).
Qed.

(** ** Completions *)

Lemma unlink_x h op c s : cancels h s → cancels (unlink h op c) s.
Proof.
  intros X. constructor; [apply (x_child _ _ X)| |apply (x_idle _ _ X)].
  intros o H1 H2. destruct (x_kids _ _ X o H1 H2) as (u & r & E & Hu & Hr). simpl.
  destruct (decide (op = o)) as [<-|]; [|rewrite fn_lookup_insert_ne by done; by exists u, r].
  rewrite fn_lookup_insert, E, filter_app. eexists _, _. split; [done|]. split.
  - etrans; [apply length_filter|done].
  - intros x [_ Hx]%list_elem_of_filter. by apply Hr.
Qed.

(** An aggregate is decided. *)
Lemma decision_x h op d k :
  cancels h k → (∀ n, ¬ about k n) →
  (kind op = WhenAll ∨ kind op = WhenAny → state h op ≠ Pending) →
  cancels (set_decision h op d) (CancelChildren op (length (kids h op)) :: k).
Proof.
  intros X Hk Hs.
  assert (Hd : ∀ o, op ≠ o → decided (set_decision h op d) o = decided h o).
  { intros o Ho. unfold decided. simpl. by rewrite fn_lookup_insert_ne. }
  constructor.
  - intros t c H1 H2. destruct (x_child _ _ X t c H1 H2) as [?|[?|[]%Hk]]; auto.
  - intros o H1 H2. destruct (decide (op = o)) as [<-|Ho].
    + exists (kids h op), []. rewrite app_nil_r. split; [done|]. split; [simpl; by rewrite decide_True|].
      intros x Hx. by apply not_elem_of_nil in Hx.
    + rewrite Hd in H1 by done. destruct (x_kids _ _ X o H1 H2) as (u & r & E & Hu & Hr).
      exists u, r. split; [done|]. split; [simpl; by rewrite decide_False|].
      intros x Hx. left. destruct (Hr x Hx) as [?|[]%Hk]; done.
  - intros o Ho Hp. destruct (decide (op = o)) as [<-|]; [by destruct (Hs Ho)|].
    rewrite Hd by done. by apply (x_idle _ _ X).
Qed.

Lemma decide_x h op d k :
  cancels h k → (∀ n, ¬ about k n) →
  (kind op = WhenAll ∨ kind op = WhenAny → state h op ≠ Pending) →
  cancels (fst (decide_ h op d)) (snd (decide_ h op d) ++ k).
Proof.
  intros X Hk Hs. unfold decide_. destruct (decided h op) eqn:Hd; [|exact (decision_x h op d k X Hk Hs)].
  case_if; [|done].
  assert (E : ∀ o, decided (set_decision h op Error) o = decided h o).
  { intros o. destruct (decide (op = o)) as [<-|]; unfold decided in *; simpl;
      [rewrite fn_lookup_insert|by rewrite fn_lookup_insert_ne]. by rewrite Hd. }
  constructor; [apply (x_child _ _ X)| |]; intros o; rewrite E; apply X.
Qed.

Lemma child_completed_x h op c k H F R A r :
  core h H F R A (Some (op, c)) → cancels h (ChildCompleted op c :: k) → (∀ n, ¬ about k n) →
  child_completed h op c = Some r → cancels (fst r) (snd r ++ k).
Proof.
  intros Hc X Hk Hr. destruct (c_completing Hc op c eq_refl) as [Hi _].
  destruct (c_kids Hc op c Hi) as (Ha & _).
  assert (Hs : kind op = WhenAll ∨ kind op = WhenAny → state h op ≠ Pending).
  { intros Ho Hp. pose proof (c_idle Hc op Ho Hp). pose proof (c_pending Hc op Ha).
    destruct (kids h op); [by apply not_elem_of_nil in Hi|simpl in *; lia]. }
  assert (X1 : ∀ h', calm (unlink h op c) h' → cancels h' (Decided op c :: k)).
  { intros h' M. apply (cancels_calm (unlink h op c) (ChildCompleted op c :: k)); [|done..].
    by apply unlink_x. }
  assert (Hdec : ∀ h' d, calm (unlink h op c) h' → state h' = state h →
    cancels (fst (decide_ h' op d)) ((snd (decide_ h' op d) ++ [Decided op c]) ++ k)).
  { intros h' d M E. rewrite <- app_assoc. apply decide_x; [by apply X1|by intros ? []|by rewrite E]. }
  unfold child_completed in Hr. case_if_in Hr; [done|]. destruct (state h c); try done.
  - simplify_eq. simpl. case_if; [|apply X1, calm_refl]. by apply Hdec; [apply calm_same|].
  - case_if_in Hr.
    + simplify_eq. apply Hdec; case_match; by try apply calm_same.
    + case_if_in Hr; [|done]. destruct (error h c); [|done]. simplify_eq.
      apply Hdec; unfold take_error; case_if; try destruct (errors (unlink h op c) op); by try apply calm_same.
  - simplify_eq. simpl. case_if; [apply X1, calm_refl|]. by apply Hdec; [apply calm_refl|].
Qed.

(** ** Every step *)

(** A call in place of the innermost frame. *)
Lemma call_x h f k r :
  cancels h (f :: k) → quiet1 f = true → (∀ n, ¬ about (f :: k) n) → calm_call h r →
  cancels (fst r) (snd r ++ k).
Proof.
  intros X Hf Hn [M Hq]. apply (cancels_calm h (f :: k)); [done..| |by intros n []%Hn].
  intros op. by rewrite loop_left_app, loop_left_cons.
Qed.

Lemma abandon_x h g k r :
  gone h g = true → cancels h (Abandon g :: k) → tick h (Abandon g :: k) = Some r →
  cancels (fst r) (snd r).
Proof.
  intros Hg X Hr. simpl in Hr. pose proof (calm_take_ended h g) as M.
  destruct (take_ended h g) as [h1 frames]. simpl in M.
  assert (Hgo : ∀ fs, quiet fs → cancels h1 (fs ++ k))
    by (intros fs Hq; apply (call_x h (Abandon g) k (h1, fs)); by try intros ? []).
  destruct frames as [|f frames]; [|simplify_eq; by apply (Hgo [_; _]); repeat constructor].
  destruct (kids h1 g) as [|c cs]; simplify_eq; [by apply (Hgo []); constructor|].
  apply (cancels_calm (unlink h1 g c) ([Abandon g] ++ k)); [|by apply calm_same|done|by intros ? []].
  apply unlink_x, Hgo. by repeat constructor.
Qed.

(** A call that [resume_and_drain] or the loop makes above [k]. *)
Lemma resumed_x h h1 k r :
  cancels h k → (∀ n, ¬ about k n) → calm h h1 →
  calm h1 (fst r) ∧ (∀ op, loop_left op (snd r) = loop_left op k) → cancels (fst r) (snd r).
Proof.
  intros X Hn M [M1 Hl]. apply (cancels_calm h k); [done|by eapply calm_trans| |by intros n []%Hn].
  intros op. by rewrite Hl.
Qed.

Lemma drain_x h n rest k r :
  ok (h, DrainDeferred :: k) → cancels h (DrainDeferred :: k) → deferred h = n :: rest →
  (if bool_decide (kind n = Waiter) then wait_resume (set_deferred h rest) n (DrainDeferred :: k)
   else complete (set_deferred h rest) n (DrainDeferred :: k)) = Some r →
  cancels (fst r) (snd r).
Proof.
  intros (Hc & _) X E Hr. destruct (c_deferred Hc n) as (_ & t & _ & _ & Hs); [rewrite E; left|].
  apply (resumed_x h (set_deferred h rest) (DrainDeferred :: k)); [done|by intros ? []|by apply calm_same|].
  case_if_in Hr; [by apply (calm_wait_resume _ n)|].
  apply (calm_complete _ n); [simpl; by rewrite Hs|done].
Qed.

Lemma tick_x h s r : ok (h, s) → cancels h s → tick h s = Some r → cancels (fst r) (snd r).
Proof.
  intros Hok X Hr. destruct s as [|f k]; [done|].
  assert (Hgo : quiet1 f = true → (∀ n, ¬ about (f :: k) n) → ∀ h' fs, calm h h' → quiet fs →
    cancels h' (fs ++ k)) by (intros Hf Hn h' fs M Hq; by apply (call_x h f k (h', fs))).
  assert (Hcall : quiet1 f = true → (∀ n, ¬ about (f :: k) n) → ∀ c, calm_call h c →
    (let '(h1, fs) := c in Some (h1, fs ++ k)) = Some r → cancels (fst r) (snd r)).
  { intros Hf Hn [h1 fs] [M Hq] E. simplify_eq. by apply (Hgo Hf Hn). }
  pose proof (calm_refl h) as M0.
  destruct f as [| |[t|]| |n| |op [|count]|op|op [|c rest]|t c|op c|op c|t e b| |[|f fs]| | | | | | |g];
    try done; simpl in Hr;
    try (specialize (Hgo eq_refl ltac:(by intros ? [])));
    try (specialize (Hcall eq_refl ltac:(by intros ? []))).
  - destruct k as [|[] k]; simplify_eq. apply (Hgo h [Body t]); by repeat constructor.
  - destruct k as [|[] k]; simplify_eq.
    apply (cancels_calm h (Handle None :: Resumption outermost :: k)); [done..| |by intros ? []].
    intros op. by destruct outermost.
  - simplify_eq. by apply cancel_x.
  - simplify_eq. apply (loop_pop_x h op 0 k X). by left.
  - destruct (kids h op) as [|c cs] eqn:E; simplify_eq.
    + apply (loop_pop_x h op (S count) k X). by right.
    + apply (loop_step_x h op count c cs k X); [|done]. apply (c_kids_nodup (proj1 Hok)).
  - by apply (Hcall _ (calm_unpin h op)).
  - by apply (Hcall _ (calm_unpin h op)).
  - case_if_in Hr; [|done]. simplify_eq. bool_prop.
    apply (resumed_x h h (Arm op rest :: k)); [|by intros ? []|done|].
    + apply (Hgo h [Arm op rest]); by repeat constructor.
    + apply calm_resume, calm_start. simpl. by rewrite Heqb.
  - destruct (task_complete h t c) as [r'|] eqn:E; [|done].
    apply (Hcall r'); [by eapply calm_task_complete|done].
  - destruct (child_completed h op c) as [[h1 fs]|] eqn:E; [|done]. simplify_eq.
    pose proof Hok as (o & k' & -> & _ & _ & _ & _ & Hc)%ok_handle; [|done].
    apply (child_completed_x h op c (Resumption o :: k') _ _ _ _ (h1, fs) Hc); by try intros ? [].
  - by apply (Hcall _ (calm_child_counted h op c)).
  - by apply (Hcall _ (calm_awaited_ended h t e b)).
  - simplify_eq. apply (Hgo h [Handle None]); by repeat constructor.
  - simplify_eq. apply (Hgo h []); by repeat constructor.
  - simplify_eq. apply (Hgo (set_destroyed h f true) [Code; DestroyFrames fs]);
      [by apply calm_same|by repeat constructor].
  - simplify_eq. case_if; [apply (Hgo h [_; _])|apply (Hgo h [_])]; by repeat constructor.
  - case_if_in Hr; simplify_eq; [apply (Hgo h [_; _])|apply (Hgo (set_resuming h false) [])];
      try (by apply calm_same); by repeat constructor.
  - simplify_eq. case_if; [apply (Hgo h [_])|apply (Hgo h [])]; by repeat constructor.
  - destruct (last (ended_roots h)) as [root|]; simplify_eq; [|apply (Hgo h [_]); by repeat constructor].
    apply (Hgo _ [_; _]); [by apply calm_same|by repeat constructor].
  - destruct (groups_with_ended h) as [|g gs]; [simplify_eq; apply (Hgo h [_]); by repeat constructor|].
    pose proof (calm_take_ended h g) as M. destruct (take_ended h g) as [h1 frames]. simplify_eq.
    apply (Hgo h1 [_; _]); [done|by repeat constructor].
  - destruct (deferred h) as [|n rest] eqn:E; [simplify_eq; apply (Hgo h []); by repeat constructor|].
    by apply (drain_x h n rest k).
  - apply (abandon_x h g k); [|done..]. destruct Hok as (_ & _ & _ & [Hg _]%Forall_cons_1). exact Hg.
Qed.

(** ** The program's steps *)

(** Children are linked to an aggregate that is not decided. *)
Lemma link_x h op cs s : cancels h s → decided h op = false → cancels (link_all h op cs) s.
Proof.
  intros X Hd. constructor; [apply (x_child _ _ X)| |apply (x_idle _ _ X)].
  intros o H1 H2. simpl. destruct (decide (op = o)) as [<-|Hne].
  - change (decided h op = true) in H1. congruence.
  - rewrite fn_lookup_insert_ne by done. by apply (x_kids _ _ X).
Qed.

(** A task awaits a node. *)
Lemma child_x h t n s s' :
  cancels h s → (∀ m, ¬ about s m) → (∀ op, loop_left op s ≤ loop_left op s') →
  (cancel_requested h t = true → cancel_requested h n = true ∨ about s' n) →
  cancels (set_child h t (Some n)) s'.
Proof.
  intros X Hn Hl Ht. assert (X' : cancels h s').
  { apply (cancels_calm h s); [done|apply calm_refl|done|by intros m []%Hn]. }
  constructor; [|apply (x_kids _ _ X')|apply (x_idle _ _ X')].
  intros p c H1. simpl. destruct (decide (t = p)) as [<-|Hne].
  - rewrite fn_lookup_insert. intros [= <-]. destruct (Ht H1); auto.
  - rewrite fn_lookup_insert_ne by done. by apply (x_child _ _ X').
Qed.

Lemma awaited_x h n t s s' :
  cancels h s → (∀ m, ¬ about s m) → (∀ op, loop_left op s ≤ loop_left op s') →
  state h n = Pending →
  (cancel_requested h t = true → cancel_requested h n = true ∨ about s' n) →
  cancels (awaited_by h n t) s'.
Proof.
  intros X Hn Hl Hs Ht.
  change (cancels (set_child (set_state (set_parent h n (Some t)) n Running) t (Some n)) s').
  apply (child_x _ t n s); [|done..].
  apply (cancels_calm h s); [done| |done..].
  apply (calm_trans _ (set_parent h n (Some t))); [by apply calm_same|].
  apply calm_state; [simpl; by rewrite Hs|done].
Qed.

Lemma spawn_x h g t s :
  cancels h s → (∀ n, ¬ about s n) → done (state h t) = false →
  cancels (fst (spawn h g t s)) (snd (spawn h g t s)).
Proof.
  intros X Hn Hd. unfold spawn. case_if; [done|]. apply orb_false_iff in Heqb as [Hg _].
  match goal with |- cancels (fst (resume_and_drain ?x _ _)) _ =>
    apply (resumed_x (link_all (watch_all h [t]) g [t]) x s); [|done|by apply calm_same|] end.
  - apply link_x; [|done]. apply (cancels_calm h s); [done|by apply calm_same|done..].
  - by apply calm_resume, calm_start.
Qed.

Lemma group_cancel_x h g s :
  cancels h s → (∀ n, ¬ about s n) → kind g = TaskGroup →
  cancels (fst (group_cancel h g s)) (snd (group_cancel h g s)).
Proof.
  intros X Hn Hk. unfold group_cancel. case_if; [done|].
  apply (cancel_all_x (set_decision h g Resume)); [|by apply calm_same].
  apply (decision_x h g Resume s X Hn). rewrite Hk. by intros [|].
Qed.

Lemma abandoned_x h g s :
  core h (holds s) (free s) (refs s) (arms s) None → cancels h s → (∀ n, ¬ about s n) →
  kind g = TaskGroup → cancels (set_cancel_requested (set_gone h g true) g true) (Abandon g :: s).
Proof.
  intros Hc X Hn Hk. apply (flag_x (set_gone h g true) g s); simpl.
  - constructor; [apply (x_child _ _ X)| |apply (x_idle _ _ X)]. intros op H1 H2. apply (x_kids _ _ X op H1).
    simpl in H2. destruct (decide (g = op)) as [<-|];
      [by rewrite fn_lookup_insert in H2|by rewrite fn_lookup_insert_ne in H2].
  - by intros m []%Hn.
  - rewrite Hk. by intros [|].
  - intros c Hch. destruct (nontask_no_child _ _ _ _ _ _ g c Hc); [by rewrite Hk|done].
  - done.
  - left. by rewrite fn_lookup_insert.
Qed.

Lemma act_code_x a h s r :
  base_ok h s → cancels h s → act_code a h s = Some r → cancels (fst r) (snd r).
Proof.
  intros Hb X Ha. pose proof (proj1 Hb) as Hc.
  assert (Hn : ∀ n, ¬ about s n) by (destruct Hb as (_ & [_ Ht] & _); intros n Hn; destruct s as [|[] s]; done).
  assert (Hgo : ∀ h' fs, calm h h' → quiet fs → cancels h' (fs ++ s)).
  { intros h' fs M Hq. apply (cancels_calm h s); [done..| |by intros n []%Hn].
    intros op. by rewrite loop_left_app. }
  destruct a; try done; simpl in Ha; guards Ha.
  - simplify_eq. apply (Hgo h [_]); [apply calm_refl|by repeat constructor].
  - simplify_eq. by apply group_cancel_x.
  - simplify_eq. apply spawn_x; try done. by rewrite (c_fresh Hc).
  - simplify_eq. by apply abandoned_x.
  - apply (resumed_x h h s); [done..|apply calm_refl|].
    apply (calm_complete h n s); [|done]. destruct H0 as (? & _ & _ & ->). done.
  - simplify_eq. by apply (Hgo _ []); [apply calm_same|constructor].
  - simplify_eq. by apply (Hgo _ []); [apply calm_same|constructor].
  - simplify_eq. by apply (Hgo _ []); [apply calm_same|constructor].
  - unfold drop_task in Ha. case_if_in Ha; [|guards Ha]; simplify_eq;
      by apply (Hgo _ [_]); [apply calm_same|repeat constructor].
Qed.

Lemma act_loop_x a h r :
  base_ok h [Code] → cancels h [Code] → act_loop a h = Some r → cancels (fst r) (snd r).
Proof.
  intros Hb X Ha. destruct a; try done; simpl in Ha.
  - destruct (tasks h) as [|t rest]; [done|]. guards Ha. simplify_eq.
    apply (resumed_x h (set_tasks h rest) [Code]); [done|by intros ? []|by apply calm_same|].
    apply calm_resume, calm_start. simpl. match goal with E : state h t = Pending |- _ => by rewrite E end.
  - guards Ha. simplify_eq. apply (cancels_calm h [Code]); by try apply calm_refl.
  - simplify_eq. apply (cancels_calm h [Code]); by try apply calm_same.
Qed.

(** A body's call. *)
Lemma join_x h g t o k :
  cancels h (Resumption o :: k) → kind g = TaskGroup → state h g = Pending →
  (∀ c, child h g ≠ Some c) →
  let r := cancel_all (set_cancel_requested (awaited_by h g t) g true) g in
  cancels (fst r) (snd r ++ Resumption o :: k).
Proof.
  intros X Hk Hs Hch. apply (cancel_all_x (set_cancel_requested (awaited_by h g t) g true)); [|apply calm_refl].
  change (cancels (awaited_by (set_cancel_requested h g true) g t)
    (CancelChildren g (length (kids h g)) :: k)).
  apply (awaited_x _ g t (CancelChildren g (length (kids h g)) :: k)); [|by intros ? []|done..|].
  - apply (flag_x h g (Resumption o :: k)); [done|by intros ? []| | | |].
    + rewrite Hk. by intros [|].
    + by intros c ?%Hch.
    + intros op Hne. simpl. by rewrite decide_False.
    + right. simpl. by rewrite decide_True.
  - intros _. left. simpl. by rewrite fn_lookup_insert.
Qed.

Lemma act_body_x a h t o k r H F R A :
  core h (t :: H) (t :: F) R A None → cancels h (Body t :: Resumption o :: k) →
  act_body a h t = Some r → cancels (fst r) (snd r ++ Resumption o :: k).
Proof.
  intros Hc X Ha. set (K := Resumption o :: k) in *.
  assert (Hcall : ∀ r, calm_call h r → cancels (fst r) (snd r ++ K))
    by (intros; by apply (call_x h (Body t)); try intros ? []).
  assert (X0 : ∀ h', calm h h' → cancels h' K)
    by (intros h' M; apply (Hcall (h', [])); split; [done|constructor]).
  assert (Hfin : ∀ h' e, calm h h' → done e = true →
    cancels (fst (finish h' t e)) (snd (finish h' t e) ++ K)).
  { intros h' e M He. by apply Hcall, (calm_call_trans _ h'), calm_finish. }
  destruct a; try done; simpl in Ha.
  - guards Ha. unfold checkpoint in Ha. destruct (cancel_requested h t) eqn:Hf; simplify_eq;
      [apply Hfin; [apply calm_refl|done]|].
    match goal with |- cancels (fst (start ?x _ _)) _ => apply (call_x x (Body t)) end;
      [|done|by intros ? []|].
    + apply (child_x _ t c (Body t :: K)); [|by intros ? []|done|simpl; congruence].
      apply (cancels_calm h (Body t :: K)); by try apply calm_same.
    + apply calm_start. simpl. by rewrite (c_fresh Hc).
  - guards Ha. unfold checkpoint in Ha. simpl in Ha. destruct (cancel_requested h t) eqn:Hf; simplify_eq.
    + apply (Hfin (watch_all h cs)); [by apply calm_same|done].
    + apply orb_true_iff in H0. rewrite !bool_decide_eq_true in H0.
      match goal with |- cancels (fst (pin ?x _, _)) _ => apply (cancels_calm x K);
        [|by apply calm_same|done|by intros ? []] end.
      apply link_x; [|by apply (x_idle _ _ X)].
      apply (cancels_calm (awaited_by (watch_all h cs) op t) K); [|by apply calm_same|done..].
      apply (awaited_x _ op t K); [by apply X0, calm_same|by intros ? []|done|done|simpl; congruence].
  - guards Ha. case_if_in Ha.
    + pose proof (calm_take_ended (set_state h g (settled_state h g)) g) as M.
      destruct (take_ended _ g) as [h1 frames]. simplify_eq. apply Hcall. split; [|by repeat constructor].
      eapply calm_trans; [|exact M]. pose proof (settled_done h g) as Hd.
      apply calm_state; [done|]. by intros E; rewrite E in Hd.
    + simplify_eq. case_if.
      * apply join_x; [by apply X0, calm_refl|done..|].
        intros c. apply (nontask_no_child _ _ _ _ _ _ g c Hc). by match goal with E : kind g = TaskGroup |- _ => rewrite E end.
      * apply (awaited_x h g t (Body t :: K)); [done|by intros ? []|done|done|].
        simpl in *. congruence.
  - guards Ha. unfold checkpoint in Ha. destruct (cancel_requested h t) eqn:Hf; simplify_eq;
      [apply Hfin; [apply calm_refl|done]|].
    apply (awaited_x h w t (Body t :: K)); [done|by intros ? []|done|done|]. congruence.
  - guards Ha. simplify_eq. apply (awaited_x h n t (Body t :: K)); [done|by intros ? []| |done|].
    + intros op. by case_if.
    + simpl. intros ->. by right.
  - simplify_eq. apply Hfin; [apply calm_refl|apply final_suspend_done].
  - guards Ha. simplify_eq. apply Hfin; [by apply calm_same|apply final_suspend_done].
  - simplify_eq. apply Hfin; [by apply calm_same|apply final_suspend_done].
  - simplify_eq. apply Hfin; [apply calm_refl|done].
Qed.

Lemma act_x a h s r : ok (h, s) → cancels h s → act a h s = Some r → cancels (fst r) (snd r).
Proof.
  intros Hok X Ha.
  assert (Hcode : top_is transient s = false → ∀ r, act_code a h s = Some r → cancels (fst r) (snd r)).
  { intros Ht r' E. apply (act_code_x a h s); [by apply code_base|done..]. }
  destruct s as [|[] k]; try done; simpl in Ha.
  - destruct k as [|f k].
    + destruct (act_loop a h) eqn:El; [|by apply Hcode]. simplify_eq.
      apply (act_loop_x a h); [by apply code_base|done..].
    + destruct a; try by apply Hcode. simplify_eq.
      apply (cancels_calm h (Code :: f :: k)); [done|apply calm_refl|done|by intros ? []].
  - destruct (act_body a h t) as [[h1 fs]|] eqn:Eb; [|by apply Hcode]. simplify_eq.
    pose proof Hok as (o & k' & -> & _ & _ & _ & _ & Hc)%ok_handle; [|done].
    by apply (act_body_x a h t o k' (h1, fs) _ _ _ _ Hc).
  - assert (Hw : live h w) by apply Hok.
    assert (Hk : ∀ h', calm h h' → cancels h' k).
    { intros h' M. apply (cancels_calm h (CancelWait w :: k)); [done..|by intros ? []]. }
    destruct a; try done.
    + simpl in Ha. guards Ha. simplify_eq.
      apply (cancels_calm h (CancelWait w :: k)); by try apply calm_same.
    + guards Ha. destruct Hw as (? & _ & _ & Hs).
      destruct (calm_end_wait h w k r) as [M Hl]; [by rewrite Hs|done|].
      apply (cancels_calm h (CancelWait w :: k)); [done..| |by intros ? []].
      intros op. by rewrite Hl.
    + simplify_eq. by apply Hk, calm_refl.
Qed.

Lemma reachable_cancels hs : reachable hs → cancels (fst hs) (snd hs).
Proof.
  induction 1 as [|[h s] a hs' Hr IH Hs].
  - constructor; simpl; try done.
  - apply reachable_ok in Hr. destruct a as [a|]; simpl in *; [by apply (act_x a h s)|by apply (tick_x h s)].
Qed.

(** C10. When the loop is back in its own code, a cancel has reached the whole
    tree below what it was asked of: the node that a cancelled task awaits is
    cancelled, and so is every running child of an aggregate that is cancelled
    or decided (and whose destructor has not let them go). *)
Theorem cancel_cascades h :
  reachable (h, [Code]) →
  (∀ t c, cancel_requested h t = true → child h t = Some c → cancel_requested h c = true) ∧
  (∀ op c, decided h op = true → gone h op = false → c ∈ kids h op → cancel_requested h c = true).
Proof.
  intros Hr. pose proof (reachable_cancels _ Hr) as X. destruct (reachable_ok _ Hr) as (Hc & _).
  simpl in X. split.
  - intros t c H1 H2. destruct (x_child _ _ X t c H1 H2) as [?|[Hd|[]]]; [done|].
    destruct (c_child Hc t c H2) as (Hk & Hs & _).
    destruct (c_susp Hc t Hk Hs) as (c' & E & _ & Hs'); [by apply not_elem_of_nil|].
    assert (c' = c) as -> by congruence. by rewrite Hs' in Hd.
  - intros op c H1 H2 H3. destruct (x_kids _ _ X op H1 H2) as (u & r & E & Hu & Hr').
    destruct u; [|simpl in Hu; lia]. simpl in E. rewrite E in H3. by destruct (Hr' c H3) as [?|[]].
Qed.
End Cancel.
