(* ===== verification/NodeLive.v ===== *)
(** The runtime of the task tree (Node.v) always comes back: from every
    reachable state its own code runs, in finitely many steps, to a point where
    the program is to go on.  A cancel goes down a tree without end, a
    completion up, and the destruction of what ended leaves nothing to destroy.

    The measure is a pair: what is left of the tree, the [weight] of the nodes
    in use, and the work the stack stands for, its [cost]. *)

From Stdlib Require Import Lia Bool.
From stdpp Require Import functions prelude list.
From S2P Require Import Prelude Node NodeTree NodeSafe NodeCancel.

(** Runs the runtime's own code, up to [fuel] steps. *)
Fixpoint ticks `{P : Program} (fuel : nat) (hs : heap * stack) : heap * stack :=
  match fuel with
  | 0 => hs
  | S fuel => match step None hs with Some hs' => ticks fuel hs' | None => hs end
  end.

(** ** The measure *)

Definition cost1 (f : frame) : nat :=
  match f with
  | Code | Body _ | CancelWait _ | ChildCompleted _ _ => 0
  | Handle _ | CancelNode _ | LeaveDrained | DestroyEnded | DrainDeferred | Abandon _ => 1
  | Unpin _ | TaskComplete _ _ | Decided _ _ | Settled _ _ _ | Noop | EndedGroups => 2
  | EndedRoots => 3
  | LeaveResumption => 4
  | Resumption _ => 5
  | CancelChildren _ n => 1 + 2 * n
  | Arm _ rest => 2 + 10 * length rest
  | DestroyFrames frames => 1 + length frames
  end.

Definition cost (s : stack) : nat := sum_list_with cost1 s.

Section Live.
Context `{P : Program}.

(** What is left to happen to a node. *)
Definition left_of (h : heap) (n : nat) : nat :=
  (if cancel_requested h n then 0 else 1) + (if done (state h n) then 0 else 1) + length (kids h n).

Definition weight (L : list nat) (h : heap) : nat :=
  sum_list_with (left_of h) L + length (deferred h).

(** A group that is listed has a frame to destroy. *)
Definition queued (h : heap) : Prop := ∀ g, g ∈ groups_with_ended h → ended h g ≠ [].

(** The nodes in use, and the one about to be cancelled, are in [L]. *)
Record supported (L : list nat) (h : heap) (s : stack) : Prop := {
  p_state n : state h n ≠ Pending → n ∈ L;
  p_kids op c : c ∈ kids h op → op ∈ L ∧ c ∈ L;
  p_about n : about s n → n ∈ L;
  p_queued : queued h;
}.

(** A step that uses no node but those of [L], and adds nothing to do. *)
Record tame (L : list nat) (h h' : heap) : Prop := {
  t_flag n : cancel_requested h n = true → cancel_requested h' n = true;
  t_done n : done (state h n) = true → done (state h' n) = true;
  t_state n : state h' n ≠ Pending → state h n ≠ Pending ∨ n ∈ L;
  t_kids op c : c ∈ kids h' op → c ∈ kids h op;
  t_len op : length (kids h' op) ≤ length (kids h op);
  t_deferred : length (deferred h') ≤ length (deferred h);
  t_queued : queued h → queued h';
}.

Lemma tame_trans L h1 h2 h3 : tame L h1 h2 → tame L h2 h3 → tame L h1 h3.
Proof.
  intros [] []. constructor; eauto using Nat.le_trans.
  intros n Hn. destruct (t_state1 n Hn); auto.
Qed.

Lemma tame_same L h h' :
  cancel_requested h' = cancel_requested h → state h' = state h → kids h' = kids h →
  deferred h' = deferred h → ended h' = ended h → groups_with_ended h' = groups_with_ended h →
  tame L h h'.
Proof.
  intros E1 E2 E3 E4 E5 E6. constructor; rewrite ?E1, ?E2, ?E3, ?E4; auto.
  unfold queued. by rewrite E5, E6.
Qed.

Lemma tame_refl L h : tame L h h.
Proof. by apply tame_same. Qed.

Lemma tame_state L h n e :
  n ∈ L → (done (state h n) = true → done e = true) → tame L h (set_state h n e).
Proof.
  intros Hn Hd. constructor; try done.
  - intros m. simpl. fcase; auto.
  - intros m. simpl. fcase; auto.
Qed.

Lemma tame_flag L h n : tame L h (set_cancel_requested h n true).
Proof. constructor; try done; [|by left]. intros m. simpl. by fcase. Qed.

Lemma supported_tame L h s h' s' :
  supported L h s → tame L h h' → (∀ n, about s' n → n ∈ L) → supported L h' s'.
Proof.
  intros Hp M Ha. constructor; [| |done|by apply (t_queued _ _ _ M), (p_queued _ _ _ Hp)].
  - intros n [?|?]%(t_state _ _ _ M); [by apply (p_state _ _ _ Hp)|done].
  - intros op c Hc%(t_kids _ _ _ M). by apply (p_kids _ _ _ Hp).
Qed.

Lemma left_tame L h h' n : tame L h h' → left_of h' n ≤ left_of h n.
Proof.
  intros M. unfold left_of. pose proof (t_len _ _ _ M n).
  pose proof (t_flag _ _ _ M n) as H1. pose proof (t_done _ _ _ M n) as H2.
  destruct (cancel_requested h n), (done (state h n)); rewrite ?H1, ?H2 by done; repeat case_if; lia.
Qed.

Lemma sum_le (f g : nat → nat) L :
  (∀ n, f n ≤ g n) → sum_list_with f L ≤ sum_list_with g L.
Proof. intros H. induction L as [|x L IH]; simpl; [lia|]. specialize (H x). lia. Qed.

Lemma sum_lt (f g : nat → nat) L x :
  (∀ n, f n ≤ g n) → x ∈ L → f x < g x → sum_list_with f L < sum_list_with g L.
Proof.
  intros H Hx Hlt. induction L as [|y L IH]; [by apply not_elem_of_nil in Hx|]. simpl.
  pose proof (sum_le f g L H). apply elem_of_cons in Hx as [->|Hx]; [lia|].
  specialize (IH Hx). specialize (H y). lia.
Qed.

Lemma weight_tame L h h' : tame L h h' → weight L h' ≤ weight L h.
Proof.
  intros M. unfold weight. pose proof (t_deferred _ _ _ M).
  pose proof (sum_le (left_of h') (left_of h) L (λ n, left_tame L h h' n M)). lia.
Qed.

Lemma weight_lt L h h' n :
  tame L h h' → n ∈ L → left_of h' n < left_of h n → weight L h' < weight L h.
Proof.
  intros M Hn Hlt. unfold weight. pose proof (t_deferred _ _ _ M).
  pose proof (sum_lt (left_of h') (left_of h) L n (λ n, left_tame L h h' n M) Hn Hlt). lia.
Qed.

(** What a call leaves to do, where there was [c] to do before. *)
Definition less (L : list nat) (h : heap) (c : nat) (r : heap * stack) : Prop :=
  tame L h (fst r) ∧ (∀ n, ¬ about (snd r) n) ∧
  (weight L (fst r) < weight L h ∨ cost (snd r) < c).

Lemma less_tame L h h1 c r : tame L h h1 → less L h1 c r → less L h c r.
Proof.
  intros M (M1 & Ha & Hl). pose proof (weight_tame L h h1 M).
  split; [by eapply tame_trans|]. split; [done|]. destruct Hl; [left; lia|by right].
Qed.

Lemma left_done h h' n :
  done (state h n) = false → done (state h' n) = true → cancel_requested h' n = cancel_requested h n →
  kids h' n = kids h n → left_of h' n < left_of h n.
Proof. intros H1 H2 H3 H4. unfold left_of. rewrite H1, H2, H3, H4. lia. Qed.

(** ** The functions that return a coroutine *)

Lemma not_about_complete p c k n : ¬ about (on_child_complete p c :: k) n.
Proof. unfold on_child_complete. case_if; by intros []. Qed.

Lemma cost_complete p c : cost [on_child_complete p c] < 5.
Proof. unfold on_child_complete. case_if; unfold cost; simpl; lia. Qed.

Lemma finish_less L h t e c :
  t ∈ L → done (state h t) = false → done e = true → less L h c (finish h t e).
Proof.
  intros Ht Hd He.
  assert (M : ∀ h' fs, cancel_requested h' = cancel_requested h → state h' = <[t := e]> (state h) →
    kids h' = kids h → deferred h' = deferred h → ended h' = ended h →
    groups_with_ended h' = groups_with_ended h → (∀ n, ¬ about fs n) → less L h c (h', fs)).
  { intros h' fs E1 E2 E3 E4 E5 E6 Hfs.
    assert (M : tame L h h').
    { apply (tame_trans _ _ (set_state h t e)); [by apply tame_state|by apply tame_same]. }
    split_and!; [done..|left; simpl]. apply (weight_lt _ _ _ t); [done..|].
    apply left_done; [done|by rewrite E2, fn_lookup_insert|by rewrite E1|by rewrite E3]. }
  unfold finish. destruct (parent h t) as [p|]; [|destruct (owned_by_loop h t)]; apply M; try done.
  - intros n. apply not_about_complete.
  - by intros n [].
  - by intros n [].
Qed.

Lemma start_less L h t p c :
  t ∈ L → done (state h t) = false → 2 ≤ c → less L h c (start h t p).
Proof.
  intros Ht Hd Hc. apply (less_tame _ _ (set_parent h t p)); [by apply tame_same|]. unfold start.
  case_if; [by apply finish_less|]. split_and!; [|by intros n []|right; simpl; lia].
  apply tame_state; [done|]. simpl. congruence.
Qed.

Lemma awaited_ended_less L h t e b c :
  t ∈ L → done (state h t) = false → 2 ≤ c → less L h c (awaited_ended h t e b).
Proof.
  intros Ht Hd Hc. apply (less_tame _ _ (set_child h t None)); [by apply tame_same|].
  unfold awaited_ended. case_if; [by apply finish_less|].
  split_and!; [apply tame_refl|by intros n []|right; simpl; lia].
Qed.

Lemma task_complete_less L h t n c r :
  t ∈ L → done (state h t) = false → 2 ≤ c → task_complete h t n = Some r → less L h c r.
Proof.
  intros Ht Hd Hc Hr. unfold task_complete in Hr. case_if_in Hr.
  - destruct (error h n) as [e|]; [|done]. simplify_eq.
    apply (less_tame _ _ (set_error (set_child h t None) t (Some e))); [by apply tame_same|].
    by apply finish_less.
  - simplify_eq. by apply awaited_ended_less.
Qed.

Lemma tame_take_ended L h g : tame L h (fst (take_ended h g)).
Proof.
  unfold take_ended. destruct (ended h g); [apply tame_refl|]. constructor; try done; [by left|].
  intros Hq x. simpl. intros [Hx Hi]%list_elem_of_filter. fcase; [done|]. by apply Hq.
Qed.

Lemma settle_less L h op c :
  (∀ p, parent h op = Some p → op ∈ L ∧ done (state h op) = false) → 2 ≤ c →
  less L h c (settle_if_idle h op).
Proof.
  intros Hp Hc. unfold settle_if_idle.
  assert (Hidle : less L h c (h, [Handle None])) by (split_and!; [apply tame_refl|by intros n []|right; simpl; lia]).
  case_if; [done|]. destruct (parent h op) as [p|] eqn:E; [|done].
  destruct (Hp p eq_refl) as [Hi Hd]. clear Hp.
  set (h1 := set_parent (set_state h op (settled_state h op)) op None).
  assert (M : tame L h h1).
  { apply (tame_trans _ _ (set_state h op (settled_state h op))); [|by apply tame_same].
    apply tame_state; [done|]. intros _. apply settled_done. }
  assert (Hw : weight L h1 < weight L h).
  { apply (weight_lt _ _ _ op); [done..|]. apply left_done; try done.
    simpl. rewrite fn_lookup_insert. apply settled_done. }
  case_if; [split_and!; [done|intros n; apply not_about_complete|by left]|].
  pose proof (tame_take_ended L h1 op) as M2. pose proof (weight_tame _ _ _ M2).
  destruct (take_ended h1 op) as [h2 frames].
  split_and!; [by eapply tame_trans|by intros n []|left; simpl in *; lia].
Qed.

Lemma child_counted_less L h op n c :
  (∀ p, parent h op = Some p → op ∈ L ∧ done (state h op) = false) → 2 ≤ c →
  less L h c (child_counted h op n).
Proof.
  intros Hp Hc. unfold child_counted.
  match goal with |- less _ _ _ (settle_if_idle ?x _) => set (h1 := x) end.
  assert (Hq : queued h → queued h1).
  { intros Hq x. unfold h1. destruct (bool_decide _), (ended h op) eqn:E; simpl.
    - intros [->|Hx]%elem_of_cons; fcase; try done. by apply Hq.
    - intros Hx. fcase; [done|]. by apply Hq.
    - apply Hq.
    - apply Hq. }
  apply (less_tame _ _ h1).
  - by constructor; unfold h1; destruct (bool_decide _), (ended h op); try done; left.
  - apply settle_less; [|done]. unfold h1. destruct (bool_decide _), (ended h op); apply Hp.
Qed.

Lemma tame_unlink L h op n : tame L h (unlink h op n).
Proof.
  constructor; try done; simpl; [by left| |].
  - intros o c. fcase; [|done]. by intros [_ ?]%list_elem_of_filter.
  - intros o. fcase; [apply length_filter|done].
Qed.

(** A child leaves its aggregate. *)
Lemma unlink_weight L h op n :
  op ∈ L → n ∈ kids h op → weight L (unlink h op n) < weight L h.
Proof.
  intros Ho Hn. apply (weight_lt _ _ _ op); [apply tame_unlink|done|].
  unfold left_of. simpl. rewrite fn_lookup_insert.
  pose proof (length_filter_lt (λ x, x ≠ n) (kids h op) n Hn ltac:(auto)). lia.
Qed.

Lemma tame_decide L h op d : tame L h (fst (decide_ h op d)).
Proof. unfold decide_. repeat case_if; by apply tame_same. Qed.

Lemma child_completed_less L h op n c r :
  op ∈ L → n ∈ kids h op → child_completed h op n = Some r → less L h c r.
Proof.
  intros Ho Hn Hr. pose proof (unlink_weight L h op n Ho Hn) as Hw.
  assert (Hgo : ∀ h' fs, tame L (unlink h op n) h' → (∀ m, ¬ about (fs ++ [Decided op n]) m) →
    less L h c (h', fs ++ [Decided op n])).
  { intros h' fs M Ha. pose proof (weight_tame _ _ _ M). split_and!; [|done|left; simpl; lia].
    eapply tame_trans; [apply tame_unlink|done]. }
  assert (Hdec : ∀ h' d, tame L (unlink h op n) h' →
    less L h c (fst (decide_ h' op d), snd (decide_ h' op d) ++ [Decided op n])).
  { intros h' d M. apply Hgo; [eapply tame_trans; [done|apply tame_decide]|].
    unfold decide_. repeat case_if; by intros m []. }
  unfold child_completed in Hr. case_if_in Hr; [done|]. destruct (state h n); try done.
  - simplify_eq. case_if; [by apply Hdec, tame_same|]. by apply Hgo; [apply tame_refl|intros m []].
  - case_if_in Hr; [simplify_eq; apply Hdec; case_match; by apply tame_same|].
    case_if_in Hr; [|done]. destruct (error h n); [|done]. simplify_eq.
    apply Hdec. unfold take_error. case_if; [|case_match]; by apply tame_same.
  - simplify_eq. case_if; [|by apply Hdec, tame_refl]. by apply Hgo; [apply tame_refl|intros m []].
Qed.

(** ** Every step *)

Definition yields (hs : heap * stack) : Prop := ∃ n, waits (snd (ticks n hs)) = true.

Lemma yields_now h s : waits s = true → yields (h, s).
Proof. by exists 0. Qed.

Lemma yields_step hs hs' : step None hs = Some hs' → yields hs' → yields hs.
Proof. intros E [n Hn]. exists (S n). cbn [ticks]. by rewrite E. Qed.

Lemma destroy_yields h f fs k : yields (h, DestroyFrames (f :: fs) :: k).
Proof. eapply yields_step; [done|]. by apply yields_now. Qed.

Lemma take_ended_frames h g f fs :
  ended h g = f :: fs → snd (take_ended h g) = f :: fs.
Proof. unfold take_ended. by intros ->. Qed.

Lemma groups_yield h g gs k :
  queued h → groups_with_ended h = g :: gs → yields (h, EndedGroups :: k).
Proof.
  intros Hq E. destruct (ended h g) as [|f fs] eqn:Eg; [destruct (Hq g); [rewrite E; left|done]|].
  pose proof (take_ended_frames h g f fs Eg) as Et.
  apply (yields_step _ (fst (take_ended h g), DestroyFrames (f :: fs) :: EndedGroups :: k));
    [|apply destroy_yields].
  simpl. rewrite E. destruct (take_ended h g). simpl in Et. by rewrite Et.
Qed.

Lemma roots_yield h k : queued h → anything_ended h = true → yields (h, EndedRoots :: k).
Proof.
  intros Hq Ha. destruct (last (ended_roots h)) as [root|] eqn:El;
    (eapply yields_step; [simpl; rewrite El; done|]); [by apply yields_now|].
  destruct (groups_with_ended h) as [|g gs] eqn:Eg; [|by eapply groups_yield].
  unfold anything_ended in Ha. rewrite Eg in Ha. apply last_None in El. by rewrite El in Ha.
Qed.

Lemma ended_yields h k : queued h → anything_ended h = true → yields (h, DestroyEnded :: k).
Proof. intros Hq Ha. eapply yields_step; [simpl; rewrite Ha; done|]. by apply roots_yield. Qed.

(** What a step leaves: nothing new in use, and less to do. *)
Definition shorter (L : list nat) (hs hs' : heap * stack) : Prop :=
  supported L (fst hs') (snd hs') ∧
  (weight L (fst hs') < weight L (fst hs) ∨
   (weight L (fst hs') ≤ weight L (fst hs) ∧ cost (snd hs') < cost (snd hs)) ∨
   yields hs').

Lemma cost_app fs k : cost (fs ++ k) = cost fs + cost k.
Proof. apply sum_list_with_app. Qed.

(** A call in place of a frame above [Resumption]. *)
Lemma call_shorter L h f o k r :
  supported L h (f :: Resumption o :: k) → less L h (cost1 f) r →
  shorter L (h, f :: Resumption o :: k) (fst r, snd r ++ Resumption o :: k).
Proof.
  intros Hp (M & Ha & Hl). pose proof (weight_tame _ _ _ M). split.
  - apply (supported_tame L h (f :: Resumption o :: k)); [done..|].
    intros n Hn. destruct r as [h' [|f' fs]]; [done|by destruct (Ha n)].
  - cbn [fst snd]. destruct Hl as [Hl|Hl]; [by left|right; left]. split; [done|].
    rewrite cost_app.
    change (cost (f :: Resumption o :: k)) with (cost1 f + cost (Resumption o :: k)). lia.
Qed.

Lemma parent_used L h s H F R A C op p :
  core h H F R A C → supported L h s → parent h op = Some p →
  op ∈ L ∧ done (state h op) = false.
Proof.
  intros Hc Hp E. destruct (c_parent Hc op p E) as [Hs _]. rewrite Hs. split; [|done].
  apply (p_state _ _ _ Hp). by rewrite Hs.
Qed.

Lemma held_used L h s H F R A C t :
  core h H F R A C → supported L h s → t ∈ H → t ∈ L ∧ done (state h t) = false.
Proof.
  intros Hc Hp Ht. destruct (c_held Hc t Ht) as (_ & Hs & _). rewrite Hs. split; [|done].
  apply (p_state _ _ _ Hp). by rewrite Hs.
Qed.

Lemma unpin_less L h s H F R A C op c :
  core h H F R A C → supported L h s → 2 ≤ c → less L h c (settle_if_idle (unpin h op) op).
Proof.
  intros Hc Hp H2. apply (less_tame _ _ (unpin h op)); [by apply tame_same|].
  apply settle_less; [|done]. intros p. by apply (parent_used L h s _ _ _ _ _ op p Hc).
Qed.

Lemma handle_shorter L h f k r :
  ok (h, f :: k) → handle_frame f = true → waits (f :: k) = false → supported L h (f :: k) →
  tick h (f :: k) = Some r → shorter L (h, f :: k) r.
Proof.
  intros Hok Hf Hw Hp Hr.
  pose proof Hok as (o & k' & -> & Hk & _ & _ & _ & Hc)%ok_handle; [|done].
  assert (Hcall : ∀ c, less L h (cost1 f) c →
    (let '(h1, fs) := c in Some (h1, fs ++ Resumption o :: k')) = Some r → shorter L (h, f :: Resumption o :: k') r).
  { intros [h1 fs] Hl E. simplify_eq. by apply (call_shorter L h f o k' (h1, fs)). }
  assert (Hend : ∀ g : option nat, 1 < cost1 f → less L h (cost1 f) (h, [Handle g])).
  { intros g H1. split_and!; [apply tame_refl|by intros n []|right; simpl; lia]. }
  destruct f as [|t|[t|]| | | | |op|op [|c rest]|t c|op c|op c|t e b| | | | | | | | |]; try done;
    simpl in Hr.
  - apply (Hcall (h, [Body t])); [|done]. split_and!; [apply tame_refl|by intros n []|right; simpl; lia].
  - simplify_eq. split.
    + apply (supported_tame L h (Handle None :: Resumption o :: k')); [done|apply tame_refl|].
      destruct Hk as [_ Ht]. destruct o; [by intros n []|]. intros n Hn. by destruct k' as [|[] k'].
    + right. left. split; [done|]. simpl. destruct o; unfold cost; simpl; lia.
  - apply (Hcall _ (unpin_less L h _ _ _ _ _ _ op 2 Hc Hp ltac:(lia)) Hr).
  - apply (Hcall _ (unpin_less L h _ _ _ _ _ _ op 2 Hc Hp ltac:(lia)) Hr).
  - case_if_in Hr; [|done]. simplify_eq. bool_prop. simpl in Hc.
    destruct (c_arm Hc op c) as (Hi & _); [left|]. destruct (p_kids _ _ _ Hp op c Hi) as [_ HL].
    assert (Hl : less L h 2 (start (set_resuming h true) c (Some op))).
    { apply (less_tame _ _ (set_resuming h true)); [by apply tame_same|].
      apply start_less; [done|simpl; by rewrite Heqb|lia]. }
    unfold resume_and_drain. destruct (start (set_resuming h true) c (Some op)) as [h1 fs].
    replace (fs ++ Resumption (negb (resuming h)) :: Arm op rest :: Resumption o :: k')
      with ((fs ++ [Resumption (negb (resuming h)); Arm op rest]) ++ Resumption o :: k')
      by (by rewrite <- app_assoc).
    apply (call_shorter L h (Arm op (c :: rest)) o k' (h1, fs ++ _)); [done|].
    destruct Hl as (M & Ha & Hl). split_and!; [done|intros n; destruct fs; [by intros []|apply Ha]|].
    destruct Hl as [Hl|Hl]; [by left|right]. simpl in *. rewrite cost_app. unfold cost at 2. simpl. lia.
  - destruct (held_used L h _ _ _ _ _ _ t Hc Hp ltac:(left)) as [HL Hd].
    destruct (task_complete h t c) as [c'|] eqn:E; [|done].
    apply (Hcall c'); [|done]. by apply (task_complete_less L h t c 2); auto.
  - destruct (c_completing Hc op c eq_refl) as [Hi _]. destruct (p_kids _ _ _ Hp op c Hi) as [HL _].
    destruct (child_completed h op c) as [c'|] eqn:E; [|done].
    apply (Hcall c'); [|done]. by apply (child_completed_less L h op c).
  - apply (Hcall (child_counted h op c)); [|done]. apply child_counted_less; [|simpl; lia].
    intros p. by apply (parent_used L h _ _ _ _ _ _ op p Hc Hp).
  - destruct (held_used L h _ _ _ _ _ _ t Hc Hp ltac:(left)) as [HL Hd].
    apply (Hcall (awaited_ended h t e b)); [|done]. by apply awaited_ended_less; auto.
  - simplify_eq. apply (call_shorter L h Noop o k' (h, [Handle None])); [done|]. apply Hend. simpl. lia.
Qed.

(** A frame that returns nothing leaves [fs] above [k]. *)
Lemma void_step L h f k h' fs :
  supported L h (f :: k) → tame L h h' → (∀ n, about (fs ++ k) n → n ∈ L) →
  weight L h' < weight L h ∨ cost fs < cost1 f ∨ yields (h', fs ++ k) →
  shorter L (h, f :: k) (h', fs ++ k).
Proof.
  intros Hp M Ha Hl. pose proof (weight_tame _ _ _ M). split; [by apply (supported_tame L h (f :: k))|].
  cbn [fst snd]. destruct Hl as [Hl|[Hl|Hl]]; [by left|right; left|by right; right]. split; [done|].
  rewrite cost_app. change (cost (f :: k)) with (cost1 f + cost k). lia.
Qed.

Lemma child_used L h s H F R A C t c :
  core h H F R A C → supported L h s → child h t = Some c → c ∈ L.
Proof. intros Hc Hp E. apply (p_state _ _ _ Hp). by apply (child_started Hc E). Qed.

Lemma flag_weight L h n :
  n ∈ L → cancel_requested h n = false → weight L (set_cancel_requested h n true) < weight L h.
Proof.
  intros Hn Hf. apply (weight_lt _ _ _ n); [apply tame_flag|done|].
  unfold left_of. simpl. rewrite fn_lookup_insert, Hf. lia.
Qed.

Lemma cancel_shorter L h n k :
  ok (h, CancelNode n :: k) → rtyped k → supported L h (CancelNode n :: k) →
  shorter L (h, CancelNode n :: k) (cancel h n k).
Proof.
  intros (Hc & _) [_ Ht] Hp. assert (HL : n ∈ L) by (by apply (p_about _ _ _ Hp)).
  assert (Hk : ∀ m, about k m → m ∈ L) by (intros m Hm; by destruct k as [|[] k]).
  unfold cancel. case_if; [by apply (void_step L h _ k h []); [|apply tame_refl|..|right; left; simpl; lia]|].
  apply orb_false_iff in Heqb as [_ Hf]. pose proof (flag_weight L h n HL Hf) as Hw.
  pose proof (tame_flag L h n) as M.
  assert (Hgo : ∀ fs, (∀ m, about (fs ++ k) m → m ∈ L) →
    shorter L (h, CancelNode n :: k) (set_cancel_requested h n true, fs ++ k))
    by (intros fs Ha; apply void_step; auto).
  assert (Hagg : shorter L (h, CancelNode n :: k)
    (resume_and_drain (set_cancel_requested h n true) k (λ h, cancel_all h n))).
  { unfold resume_and_drain. cbn [cancel_all fst snd].
    match goal with |- shorter _ _ (?h', _) =>
      assert (M' : tame L (set_cancel_requested h n true) h') by (by apply tame_same);
      apply (void_step L h _ k h' [_; _; _]) end; [done|by eapply tame_trans|by intros m []|left].
    pose proof (weight_tame _ _ _ M'). lia. }
  destruct (kind n); try done; [|by apply (Hgo [_]); intros m []..].
  simpl. destruct (child h n) as [c|] eqn:E; [|by apply (Hgo [])].
  apply (Hgo [_]). intros m <-. by apply (child_used L h _ _ _ _ _ _ n c Hc Hp).
Qed.

Lemma rotate_shorter L h op n c cs k :
  supported L h (CancelChildren op (S n) :: k) → kids h op = c :: cs →
  shorter L (h, CancelChildren op (S n) :: k)
    (link (unlink h op c) op c, CancelNode c :: CancelChildren op n :: k).
Proof.
  intros Hp E. assert (Hi : c ∈ kids h op) by (rewrite E; left).
  apply (void_step L h _ k _ [_; _]); [done| | |right; left; simpl; lia].
  - pose proof (length_filter_lt (λ x, x ≠ c) (kids h op) c Hi ltac:(auto)).
    constructor; try done; [by left|..]; simpl; intros o.
    + intros x. rewrite !fn_lookup_insert. fcase; [|done].
      intros [[_ ?]%list_elem_of_filter|?%list_elem_of_singleton]%elem_of_app; by subst.
    + rewrite !fn_lookup_insert. fcase; [|done]. rewrite length_app. simpl. lia.
  - intros m <-. by apply (p_kids _ _ _ Hp op c).
Qed.

Lemma weight_deferred L h h' :
  tame L h h' → length (deferred h') < length (deferred h) → weight L h' < weight L h.
Proof.
  intros M Hd. unfold weight.
  pose proof (sum_le (left_of h') (left_of h) L (λ n, left_tame L h h' n M)). lia.
Qed.

(** A call run as one resumption. *)
Definition calls (L : list nat) (h : heap) (k : stack) (r : heap * stack) : Prop :=
  tame L h (fst r) ∧ ∃ fs, snd r = fs ++ k ∧ ∀ n, ¬ about (fs ++ k) n.

Lemma resume_calls L h k c step :
  less L (set_resuming h true) c (step (set_resuming h true)) → calls L h k (resume_and_drain h k step).
Proof.
  intros (M & Ha & _). unfold resume_and_drain. destruct (step (set_resuming h true)) as [h1 fs].
  split; [eapply tame_trans; [|exact M]; by apply tame_same|].
  exists (fs ++ [Resumption (negb (resuming h))]). split; [by rewrite <- app_assoc|].
  destruct fs; [by intros n []|apply Ha].
Qed.

Lemma calls_tame L h h1 k r : tame L h h1 → calls L h1 k r → calls L h k r.
Proof. intros M [M1 Hr]. split; [by eapply tame_trans|done]. Qed.

Lemma complete_calls L h n k r : n ∈ L → done (state h n) = false → complete h n k = Some r → calls L h k r.
Proof.
  intros Hn Hd. unfold complete. simpl. destruct (parent h n) as [p|]; [|done]. intros ?. simplify_eq.
  match goal with |- calls _ _ _ (resume_and_drain ?x _ _) => apply (calls_tame _ _ x) end.
  - match goal with |- tame _ _ (set_parent ?x _ _) => apply (tame_trans _ _ x) end;
      [|by apply tame_same]. apply tame_state; [done|congruence].
  - apply (resume_calls _ _ _ 5).
    split_and!; [apply tame_refl|intros m; apply not_about_complete|right; apply cost_complete].
Qed.

Lemma end_wait_calls L h w k r : w ∈ L → done (state h w) = false → end_wait h w k = Some r → calls L h k r.
Proof.
  intros Hn Hd. unfold end_wait. destruct (parent h w) as [p|]; [|done]. intros ?. simplify_eq.
  apply (calls_tame _ _ (set_state h w Cancelled)); [by apply tame_state|].
  apply (resume_calls _ _ _ 5).
  split_and!; [by apply tame_same|intros m; apply not_about_complete|right; apply cost_complete].
Qed.

Lemma wait_resume_calls L h w k r :
  (∀ t, parent h w = Some t → t ∈ L ∧ done (state h t) = false) → wait_resume h w k = Some r → calls L h k r.
Proof.
  intros Ht. unfold wait_resume. destruct (parent h w) as [t|]; [|done]. intros ?. simplify_eq.
  destruct (Ht t eq_refl) as [HL Hd].
  apply (calls_tame _ _ (set_child h t None)); [by apply tame_same|].
  apply (resume_calls _ _ _ 5). simpl. case_if; [by apply finish_less|].
  split_and!; [apply tame_refl|by intros n []|right; simpl; lia].
Qed.

Lemma live_used L h s H F R A C n :
  core h H F R A C → supported L h s → live h n →
  (n ∈ L ∧ done (state h n) = false) ∧
  ∀ t, parent h n = Some t → t ∈ L ∧ done (state h t) = false.
Proof.
  intros Hc Hp (t & E1 & E2 & Hs). destruct (c_child Hc t n E2) as (_ & Ht & _).
  split; [split; [apply (p_state _ _ _ Hp); by rewrite Hs|by rewrite Hs]|].
  intros t' E. assert (t' = t) as -> by congruence.
  rewrite Ht. split; [apply (p_state _ _ _ Hp); by rewrite Ht|done].
Qed.

Lemma drain_shorter L h k r :
  ok (h, DrainDeferred :: k) → rtyped k → supported L h (DrainDeferred :: k) →
  tick h (DrainDeferred :: k) = Some r → shorter L (h, DrainDeferred :: k) r.
Proof.
  intros (Hc & _) [_ Ht] Hp Hr. simpl in Hr. destruct (deferred h) as [|n rest] eqn:E.
  { simplify_eq. apply (void_step L h _ k h []); [done|apply tame_refl| |right; left; simpl; lia].
    intros m Hm. by destruct k as [|[] k]. }
  destruct (c_deferred Hc n) as (_ & Hl); [rewrite E; left|].
  destruct (live_used L h _ _ _ _ _ _ n Hc Hp Hl) as [[HL Hd] Ht'].
  assert (M0 : tame L h (set_deferred h rest)) by (constructor; try done; [by left|simpl; rewrite E; simpl; lia]).
  assert (Hcalls : calls L (set_deferred h rest) (DrainDeferred :: k) r).
  { case_if_in Hr; [by apply (wait_resume_calls L _ n)|by apply (complete_calls L _ n)]. }
  destruct Hcalls as (M & fs & Efs & Ha). destruct r as [h' s']. simpl in *. subst s'.
  pose proof (t_deferred _ _ _ M) as Hlen.
  replace (fs ++ DrainDeferred :: k) with ((fs ++ [DrainDeferred]) ++ k) in * by (by rewrite <- app_assoc).
  apply void_step; [done|by eapply tame_trans|by intros m []%Ha|left].
  apply weight_deferred; [by eapply tame_trans|]. rewrite E. simpl in *. lia.
Qed.

Lemma abandon_shorter L h g k r :
  rtyped k → supported L h (Abandon g :: k) →
  tick h (Abandon g :: k) = Some r → shorter L (h, Abandon g :: k) r.
Proof.
  intros [_ Ht] Hp Hr. simpl in Hr. pose proof (tame_take_ended L h g) as M.
  destruct (take_ended h g) as [h1 frames]. simpl in M. destruct frames as [|f fs].
  - destruct (kids h1 g) as [|c cs] eqn:E; simplify_eq.
    + apply (void_step L h _ k h1 []); [done..| |right; left; simpl; lia].
      intros m Hm. by destruct k as [|[] k].
    + assert (Hi : c ∈ kids h1 g) by (rewrite E; left).
      destruct (p_kids _ _ _ Hp g c (t_kids _ _ _ M g c Hi)) as [HL HLc].
      match goal with |- shorter _ _ (?x, _) =>
        assert (M1 : tame L (unlink h1 g c) x) by (by apply tame_same);
        apply (void_step L h _ k x [_; _]) end; [done| |by intros m <-|left].
      * eapply tame_trans; [exact M|]. eapply tame_trans; [apply tame_unlink|exact M1].
      * pose proof (unlink_weight L h1 g c HL Hi). pose proof (weight_tame _ _ _ M).
        pose proof (weight_tame _ _ _ M1). lia.
  - simplify_eq. apply (void_step L h _ k h1 [_; _]); [done..|by intros m []|right; right].
    apply destroy_yields.
Qed.

Lemma tick_shorter L h s r :
  ok (h, s) → waits s = false → supported L h s → tick h s = Some r → shorter L (h, s) r.
Proof.
  intros Hok Hw Hp Hr. destruct s as [|f k]; [done|].
  destruct (handle_frame f) eqn:Hf; [by apply handle_shorter|].
  assert (Hre : is_resumption f = false) by (by destruct Hok as (_ & [_ ?] & _)).
  assert (Hk : k ≠ []) by (eapply ok_more; [|exact Hok]; by intros ->).
  destruct (base_pop h f k Hf Hk Hok) as [(_ & Hrt & _) _].
  assert (Hgo : ∀ h' fs, tame L h h' → (∀ m, ¬ about (fs ++ k) m) →
    cost fs < cost1 f ∨ yields (h', fs ++ k) → shorter L (h, f :: k) (h', fs ++ k)).
  { intros h' fs M Ha Hl. apply void_step; [done..|by intros m []%Ha|by right]. }
  assert (Ha : ∀ m, ¬ about k m) by (destruct Hrt as [_ Ht]; intros m Hm; by destruct k as [|[] k]).
  pose proof (tame_refl L h) as M0. pose proof (p_queued _ _ _ Hp) as Hq.
  destruct f as [| | | |n| |op [|count]| | | | | | | |[|f fs]| | | | | | |g]; try done; simpl in Hr.
  - simplify_eq. by apply cancel_shorter.
  - simplify_eq. apply (Hgo h []); [done..|left; simpl; lia].
  - destruct (kids h op) as [|c cs] eqn:E; simplify_eq; [|by apply (rotate_shorter L h op count c cs)].
    apply (Hgo h []); [done..|left; simpl; lia].
  - simplify_eq. apply (Hgo h []); [done..|left; simpl; lia].
  - simplify_eq. apply (Hgo _ [_; _]); [by apply tame_same|by intros m []|left; simpl; lia].
  - simplify_eq. case_if; [apply (Hgo h [_; _])|apply (Hgo h [_])]; try done; try (by intros m []);
      left; simpl; lia.
  - case_if_in Hr; simplify_eq.
    + apply (Hgo h [_; _]); [done|by intros m []|right]. by apply ended_yields.
    + apply (Hgo _ []); [by apply tame_same|done|left; simpl; lia].
  - simplify_eq. case_if; [|apply (Hgo h []); [done..|left; simpl; lia]].
    apply (Hgo h [_]); [done|by intros m []|right]. by apply roots_yield.
  - destruct (last (ended_roots h)) as [root|]; simplify_eq.
    + apply (Hgo _ [_; _]); [by apply tame_same|by intros m []|right]. by apply yields_now.
    + apply (Hgo h [_]); [done|by intros m []|left; simpl; lia].
  - destruct (groups_with_ended h) as [|g gs] eqn:Eg; simplify_eq.
    + apply (Hgo h [_]); [done|by intros m []|left; simpl; lia].
    + destruct (ended h g) as [|f fs] eqn:Ee; [by destruct (Hq g); [rewrite Eg; left|]|].
      pose proof (tame_take_ended L h g) as M. pose proof (take_ended_frames h g f fs Ee) as Et.
      destruct (take_ended h g) as [h1 frames]. simpl in *. simplify_eq.
      apply (Hgo h1 [_; _]); [done|by intros m []|right]. apply destroy_yields.
  - by apply drain_shorter.
  - by apply abandon_shorter.
Qed.

(** ** The program's steps *)

(** A step that uses no node but those of [L]. *)
Record grows (L : list nat) (h h' : heap) : Prop := {
  g_state n : state h' n ≠ Pending → state h n ≠ Pending ∨ n ∈ L;
  g_kids op c : c ∈ kids h' op → c ∈ kids h op ∨ (op ∈ L ∧ c ∈ L);
  g_queued : queued h → queued h';
}.

Lemma tame_grows L h h' : tame L h h' → grows L h h'.
Proof. intros []. constructor; auto. Qed.

Lemma grows_trans L h1 h2 h3 : grows L h1 h2 → grows L h2 h3 → grows L h1 h3.
Proof.
  intros [] []. constructor; auto.
  - intros n Hn. destruct (g_state1 n Hn); auto.
  - intros op c Hc. destruct (g_kids1 op c Hc); auto.
Qed.

Lemma supported_grows L h s h' s' :
  supported L h s → grows L h h' → (∀ n, about s' n → n ∈ L) → supported L h' s'.
Proof.
  intros Hp M Ha. constructor; [| |done|by apply (g_queued _ _ _ M), (p_queued _ _ _ Hp)].
  - intros n [?|?]%(g_state _ _ _ M); [by apply (p_state _ _ _ Hp)|done].
  - intros op c [Hc|?]%(g_kids _ _ _ M); [by apply (p_kids _ _ _ Hp)|done].
Qed.

Lemma supported_more L L' h s : supported L h s → L ⊆ L' → supported L' h s.
Proof. intros [] Hs. constructor; auto. naive_solver. Qed.

Lemma supported_calls L h s k h1 r :
  supported L h s → grows L h h1 → calls L h1 k r → supported L (fst r) (snd r).
Proof.
  intros Hp G (M & fs & E & Ha). apply (supported_grows L h s); [done| |rewrite E; by intros n []%Ha].
  eapply grows_trans; [done|]. by apply tame_grows.
Qed.

Lemma less_calls L h c r o k : less L h c r → calls L h (Resumption o :: k) (fst r, snd r ++ Resumption o :: k).
Proof.
  intros (M & Ha & _). split; [done|]. exists (snd r). split; [done|].
  destruct (snd r); [by intros n []|apply Ha].
Qed.

Lemma grows_link L h op cs : op ∈ L → cs ⊆ L → grows L h (link_all h op cs).
Proof.
  intros Ho Hcs. constructor; [by left| |done].
  intros o c. simpl. fcase; [|by left]. intros [?|?]%elem_of_app; [by left|right]. auto.
Qed.

(** The nodes an action names. *)
Definition named (a : action) : list nat :=
  match a with
  | ACancel n | AGroupCancel n | AAbandon n | AComplete n | ADefer n | AGrant n | ASchedule n _
  | ADrop n | AAwait n _ _ | AJoin n | AWait n | AAttach n => [n]
  | ASpawn g t => [g; t]
  | AArm op cs => op :: cs
  | _ => []
  end.

Lemma spawn_supported L h g t s :
  supported L h s → (∀ n, ¬ about s n) → g ∈ L → t ∈ L → done (state h t) = false →
  supported L (fst (spawn h g t s)) (snd (spawn h g t s)).
Proof.
  intros Hp Ha Hg Ht Hd. unfold spawn. case_if; [done|].
  match goal with |- supported _ (fst (resume_and_drain ?x _ _)) _ =>
    apply (supported_calls L h s s x); [done| |] end.
  - apply (grows_trans _ _ (watch_all h [t])); [apply tame_grows; by apply tame_same|].
    apply (grows_trans _ _ (link_all (watch_all h [t]) g [t])); [|apply tame_grows; by apply tame_same].
    apply grows_link; [done|]. intros x Hx%list_elem_of_singleton. by subst.
  - apply (resume_calls _ _ _ 5). apply start_less; [done..|lia].
Qed.

Lemma act_code_supported L a h s r :
  base_ok h s → supported L h s → named a ⊆ L → act_code a h s = Some r → supported L (fst r) (snd r).
Proof.
  intros Hb Hp Hn Ha. pose proof (proj1 Hb) as Hc.
  assert (Hs : ∀ n, ¬ about s n) by (destruct Hb as (_ & [_ Ht] & _); intros n Hx; by destruct s as [|[] s]).
  assert (Hgo : ∀ h' s', tame L h h' → (∀ n, about s' n → n ∈ L) → supported L h' s')
    by (intros h' s' M Hx; by apply (supported_tame L h s)).
  assert (Hdef : ∀ n, supported L (set_deferred h (deferred h ++ [n])) s).
  { intros n. apply (supported_grows L h s); [done| |by intros m []%Hs]. by constructor; auto. }
  assert (Hi : ∀ n, n ∈ named a → n ∈ L) by auto. clear Hn.
  destruct a; try done; simpl in Ha; guards Ha; simpl in Hi.
  - simplify_eq. apply Hgo; [apply tame_refl|]. intros m <-. apply Hi. left.
  - simplify_eq. unfold group_cancel. case_if; [done|].
    apply Hgo; [by apply tame_same|by intros m []].
  - simplify_eq. apply spawn_supported; [done..|apply Hi; left|apply Hi; right; left|].
    by rewrite (c_fresh Hc).
  - simplify_eq. apply Hgo; [|by intros m []].
    eapply tame_trans; [|apply tame_flag]. by apply tame_same.
  - destruct (live_used L h s _ _ _ _ _ n Hc Hp ltac:(done)) as [[HL Hd] _].
    apply (supported_calls L h s s h); [done|apply tame_grows, tame_refl|by apply (complete_calls L h n)].
  - simplify_eq. apply Hdef.
  - simplify_eq. apply Hdef.
  - simplify_eq. apply Hgo; [by apply tame_same|by intros m []%Hs].
  - unfold drop_task in Ha. case_if_in Ha; [|guards Ha]; simplify_eq;
      (apply Hgo; [by apply tame_same|]); [intros m <-; apply Hi; left|by intros m []].
Qed.

Lemma act_loop_supported L a h r :
  supported L h [Code] → tasks h ⊆ L → act_loop a h = Some r → supported L (fst r) (snd r).
Proof.
  intros Hp Ht Ha. destruct a; try done; simpl in Ha.
  - destruct (tasks h) as [|t rest]; [done|]. guards Ha. simplify_eq.
    apply (supported_calls L h [Code] [Code] (set_tasks h rest)); [done| |].
    + apply tame_grows. by apply tame_same.
    + apply (resume_calls _ _ _ 5). apply start_less; [apply Ht; left| |lia].
      by match goal with E : state h t = Pending |- _ => simpl; rewrite E end.
  - guards Ha. simplify_eq. apply (supported_tame L h [Code]); [done|apply tame_refl|by intros m []].
  - simplify_eq. apply (supported_tame L h [Code]); [done|by apply tame_same|by intros m []].
Qed.

Lemma awaited_tame L h n t : n ∈ L → state h n = Pending → tame L h (awaited_by h n t).
Proof.
  intros Hn Hs. apply (tame_trans _ _ (set_child (set_parent h n (Some t)) t (Some n))); [by apply tame_same|].
  apply tame_state; [done|]. simpl. by rewrite Hs.
Qed.

Lemma act_body_supported L a h t o k r H F R A :
  core h (t :: H) (t :: F) R A None → supported L h (Body t :: Resumption o :: k) → named a ⊆ L →
  act_body a h t = Some r → supported L (fst r) (snd r ++ Resumption o :: k).
Proof.
  intros Hc Hp Hn Ha. set (K := Resumption o :: k) in *.
  destruct (held_used L h _ _ _ _ _ _ t Hc Hp ltac:(left)) as [HL Hd].
  assert (Hi : ∀ n, n ∈ named a → n ∈ L) by auto. clear Hn.
  assert (Hcall : ∀ h1 c r, grows L h h1 → less L h1 c r → supported L (fst r) (snd r ++ K)).
  { intros h1 c r' G Hl. by apply (supported_calls L h _ K h1 (fst r', snd r' ++ K) Hp G), (less_calls L h1 c r'). }
  assert (Hfin : ∀ h1 e, tame L h h1 → state h1 = state h → done e = true →
    supported L (fst (finish h1 t e)) (snd (finish h1 t e) ++ K)).
  { intros h1 e M E He. apply (Hcall h1 0); [by apply tame_grows|].
    apply finish_less; [done|by rewrite E|done]. }
  assert (Hgo : ∀ h1 fs, grows L h h1 → (∀ n, about (fs ++ K) n → n ∈ L) → supported L h1 (fs ++ K))
    by (intros h1 fs G Hx; by apply (supported_grows L h _ h1 _ Hp)).
  destruct a; try done; simpl in Ha.
  - guards Ha. unfold checkpoint in Ha. destruct (cancel_requested h t); simplify_eq;
      [by apply Hfin; [apply tame_refl|..]|].
    match goal with |- supported _ (fst (start ?x _ _)) _ => apply (Hcall x 5) end;
      [by apply tame_grows, tame_same|]. apply start_less; [apply Hi; left| |lia].
    simpl. by rewrite (c_fresh Hc).
  - guards Ha. unfold checkpoint in Ha. simpl in Ha. destruct (cancel_requested h t); simplify_eq;
      [by apply (Hfin (watch_all h cs)); [apply tame_same|..]|].
    apply Hgo; [|by intros n []].
    apply (grows_trans _ _ (awaited_by (watch_all h cs) op t)).
    + apply (grows_trans _ _ (watch_all h cs)); [by apply tame_grows, tame_same|].
      apply tame_grows, awaited_tame; [apply Hi; left|done].
    + cbn [fst snd]. match goal with |- grows _ _ (pin (link_all ?x ?op ?cs) _) =>
        apply (grows_trans _ _ x); [by apply tame_grows, tame_same|];
        apply (grows_trans _ _ (link_all x op cs)); [|by apply tame_grows, tame_same] end.
      apply grows_link; [apply Hi; left|]. intros x Hx. apply Hi. by right.
  - guards Ha. case_if_in Ha.
    + pose proof (tame_take_ended L (set_state h g (settled_state h g)) g) as M.
      destruct (take_ended _ g) as [h1 frames]. simplify_eq. apply (Hgo h1 [_; _]); [|by intros n []].
      apply tame_grows. eapply tame_trans; [|exact M].
      apply tame_state; [apply Hi; left|]. intros _. apply settled_done.
    + simplify_eq. assert (M : tame L h (awaited_by h g t)) by (by apply awaited_tame; [apply Hi; left|]).
      case_if; [|by apply (Hgo _ [_]); [apply tame_grows|intros n []]].
      apply (Hgo _ [_; _]); [|by intros n []]. apply tame_grows.
      eapply tame_trans; [exact M|]. eapply tame_trans; [apply (tame_flag L _ g)|]. by apply tame_same.
  - guards Ha. unfold checkpoint in Ha. destruct (cancel_requested h t); simplify_eq;
      [by apply Hfin; [apply tame_refl|..]|].
    apply (Hgo _ [_]); [|by intros n []]. by apply tame_grows, awaited_tame; [apply Hi; left|].
  - guards Ha. simplify_eq. apply Hgo.
    + by apply tame_grows, awaited_tame; [apply Hi; left|].
    + intros m. case_if; [intros <-; apply Hi; left|by intros []].
  - simplify_eq. apply Hfin; [apply tame_refl|done|apply final_suspend_done].
  - guards Ha. simplify_eq. apply Hfin; [by apply tame_same|done|apply final_suspend_done].
  - simplify_eq. apply Hfin; [by apply tame_same|done|apply final_suspend_done].
  - simplify_eq. by apply Hfin; [apply tame_refl|..].
Qed.

Lemma act_supported L a h s r :
  ok (h, s) → supported L h s → named a ⊆ L → tasks h ⊆ L → act a h s = Some r →
  supported L (fst r) (snd r).
Proof.
  intros Hok Hp Hn Ht Ha.
  assert (Hcode : top_is transient s = false → ∀ r, act_code a h s = Some r → supported L (fst r) (snd r)).
  { intros Htr r' E. by apply (act_code_supported L a h s); [apply code_base|..]. }
  destruct s as [|[] k]; try done; simpl in Ha.
  - destruct k as [|f k].
    + destruct (act_loop a h) eqn:El; [|by apply Hcode]. simplify_eq. by apply (act_loop_supported L a h).
    + destruct a; try by apply Hcode. simplify_eq.
      destruct (base_pop h Code (f :: k) eq_refl ltac:(done) Hok) as [(_ & [_ Htr] & _) _].
      apply (supported_tame L h (Code :: f :: k)); [done|apply tame_refl|].
      intros n Hx. by destruct f.
  - destruct (act_body a h t) as [[h1 fs]|] eqn:Eb; [|by apply Hcode]. simplify_eq.
    pose proof Hok as (o & k' & -> & _ & _ & _ & _ & Hc)%ok_handle; [|done].
    by apply (act_body_supported L a h t o k' (h1, fs) _ _ _ _ Hc).
  - assert (Hk : k ≠ []) by (by eapply ok_more; [|exact Hok]).
    destruct (base_pop h (CancelWait w) k eq_refl Hk Hok) as [(Hc & [_ Htr] & _) _].
    assert (Hw : live h w) by apply Hok.
    destruct a; try done.
    + simpl in Ha. guards Ha. simplify_eq.
      apply (supported_grows L h (CancelWait w :: k)); [done|by constructor; auto|by intros n []].
    + guards Ha. destruct (live_used L h _ _ _ _ _ _ w Hc Hp Hw) as [[HL Hd] _].
      apply (supported_calls L h (CancelWait w :: k) k h); [done|apply tame_grows, tame_refl|].
      by apply (end_wait_calls L h w).
    + simplify_eq. apply (supported_tame L h (CancelWait w :: k)); [done|apply tame_refl|].
      intros n Hx. by destruct k as [|[] k].
Qed.

Lemma reachable_supported hs : reachable hs → ∃ L, supported L (fst hs) (snd hs).
Proof.
  induction 1 as [|[h s] a hs' Hr [L Hp] Hs].
  - exists []. constructor; simpl; try done.
    + intros op c Hc. by apply not_elem_of_nil in Hc.
    + intros g Hg. by apply not_elem_of_nil in Hg.
  - pose proof (reachable_ok _ Hr) as Hok. simpl in *. destruct a as [a|]; simpl in Hs.
    + exists (named a ++ tasks h ++ L). apply (act_supported _ a h s); [done| | | |done].
      * apply (supported_more L); [done|]. set_solver.
      * set_solver.
      * set_solver.
    + exists L. destruct (waits s) eqn:Hw; [by destruct s as [|[] s]|].
      by apply (tick_shorter L h s hs').
Qed.

(** ** Back to the program *)

Lemma supported_yields L h s : reachable (h, s) → supported L h s → yields (h, s).
Proof.
  revert s. remember (weight L h) as w eqn:Ew. revert h Ew.
  induction w as [w IHw] using lt_wf_ind. intros h -> s.
  remember (cost s) as c eqn:Ec. revert h IHw s Ec.
  induction c as [c IHc] using lt_wf_ind. intros h IHw s -> Hr Hp.
  destruct (waits s) eqn:Hw; [by apply yields_now|].
  destruct (tick_ok h s (reachable_ok _ Hr) Hw) as ([h' s'] & E & _).
  assert (Hr' : reachable (h', s')) by (by apply (reach_step (h, s) None)).
  apply (yields_step _ (h', s')); [done|].
  destruct (tick_shorter L h s (h', s') (reachable_ok _ Hr) Hw Hp E) as [Hp' [Hl|[[Hl Hc]|Hy]]];
    [by apply (IHw (weight L h'))| |done].
  simpl in *. apply (IHc (cost s')); try done. intros m Hm. apply IHw. lia.
Qed.

Lemma ticks_reachable fuel hs : reachable hs → reachable (ticks fuel hs).
Proof.
  revert hs. induction fuel as [|fuel IH]; intros hs Hr; [done|]. simpl.
  destruct (tick (fst hs) (snd hs)) eqn:E; [|done]. apply IH. by apply (reach_step hs None).
Qed.

(** C11. The runtime comes back: from every state a program can reach, its own
    code reaches in finitely many steps a point where the program's code is
    to go on, whatever is cancelled, completed, settled or destroyed on the
    way.  So none of its assertions fails on the way either (a task starts
    once, an aggregate sees no more children end than it started, an operation
    completes while a task awaits it), no null hook is called and no state
    that the source calls unreachable is reached: the steps end there. *)
Theorem runtime_returns h s :
  reachable (h, s) →
  ∃ n, waits (snd (ticks n (h, s))) = true ∧ reachable (ticks n (h, s)).
Proof.
  intros Hr. destruct (reachable_supported _ Hr) as [L Hp].
  destruct (supported_yields L h s Hr Hp) as [n Hn]. exists n. split; [done|]. by apply ticks_reachable.
Qed.
End Live.
