(* ===== verification/NodeRuns.v ===== *)
(** Runs of the task tree (Node.v) on a small program, and the theorems of
    NodeSafe.v, NodeOutcome.v, NodeCancel.v and NodeLive.v at the states they reach. *)

From Stdlib Require Import Lia Bool.
From stdpp Require Import functions prelude list.
From S2P Require Import Prelude Node NodeTree NodeSafe NodeOutcome NodeCancel NodeLive.

(** Does the program's steps [l], in turn; ends after the last one. *)
Fixpoint drive `{P : Program} (l : list action) (hs : heap * stack) : option (heap * stack) :=
  match l with
  | [] => Some hs
  | a :: l =>
      match step (Some a) (ticks 100 hs) with Some hs' => drive l hs' | None => None end
  end.

Definition after `{P : Program} (l : list action) : heap * stack := default begin (drive l begin).
Definition settled_after `{P : Program} (l : list action) : heap * stack := ticks 100 (after l).

Section Runs.
Context `{P : Program}.

Lemma drive_reachable l hs hs' : reachable hs → drive l hs = Some hs' → reachable hs'.
Proof.
  revert hs. induction l as [|a l IH]; intros hs Hr E; [by simplify_eq/=|].
  cbn [drive] in E. destruct (step (Some a) (ticks 100 hs)) eqn:Es; [|done].
  eapply IH; [|exact E]. eapply reach_step; [|exact Es]. by apply ticks_reachable.
Qed.

Lemma after_reached l : reachable (after l).
Proof.
  unfold after. destruct (drive l begin) eqn:E; simpl; [|apply reach_begin].
  by eapply drive_reachable; [apply reach_begin|].
Qed.

Lemma after_reachable l : reachable (fst (after l), snd (after l)).
Proof. rewrite <- surjective_pairing. apply after_reached. Qed.

Lemma settled_reachable l : reachable (fst (settled_after l), snd (settled_after l)).
Proof. rewrite <- surjective_pairing. apply ticks_reachable, after_reached. Qed.

Lemma idle_reachable l :
  snd (settled_after l) = [Code] → reachable (fst (settled_after l), [Code]).
Proof. intros <-. apply settled_reachable. Qed.
End Runs.

(** Tasks 0, 2 and 3 (and all above 7), a when_any 1, a when_all 7, a
    task_group 6, an operation 4 and a wait 5. *)
Definition demo : Program := {|
  kind n := match n with
            | 1 => WhenAny | 4 => SystemIO | 5 => Waiter | 6 => TaskGroup | 7 => WhenAll
            | _ => Task
            end;
  fallible _ := true;
  cancel_channel _ := false;
|}.
#[local] Existing Instance demo.

(** Task 0 awaits a when_any of 2, which awaits the operation, and 3, which
    awaits the wait. *)
Definition race : list action :=
  [ALoop true; ASchedule 0 true; ARunRoot; AArm 1 [2; 3]; AAttach 4; AWait 5].

(** The operation completes and 2 returns: 3 is cancelled, and 1 settles. *)
Definition race_won : list action := race ++ [AComplete 4; ACoReturn; AWaitEnds].

(** Task 0 is cancelled; the operation and the wait stay. *)
Definition race_cancelled : list action := race ++ [ACancel 0; AReturn; AWaitStays].

(** Task 0 joins a group whose only child fails with error 9. *)
Definition group_failed : list action :=
  [ALoop true; ASchedule 0 false; ARunRoot; ASpawn 6 2; AAttach 4; AJoin 6; AComplete 4; AFail 9].

(** The group's child has ended; as its frame is destroyed, the group goes,
    and task 0 is cancelled. *)
Definition group_freed : list action := group_failed ++ [AAbandon 6; ACancel 0].

(** ** The theorems at these states *)

Lemma structured_completion_witness :
  done (state (fst (settled_after race_won)) 3) = true.
Proof.
  apply (structured_completion _ (snd (settled_after race_won)) 1 3);
    [apply settled_reachable|vm_compute; reflexivity..].
Defined.

Lemma one_body_witness :
  kind 0 = Task ∧ state (fst (settled_after race_won)) 0 = Running ∧
  child (fst (settled_after race_won)) 0 = None.
Proof.
  apply (one_body _ (snd (settled_after race_won)) (settled_reachable race_won)).
  vm_compute. left.
Defined.

Lemma runtime_returns_witness :
  ∃ n, waits (snd (ticks n (fst (after race_won), snd (after race_won)))) = true ∧
    reachable (ticks n (fst (after race_won), snd (after race_won))).
Proof. exact (runtime_returns _ _ (after_reachable race_won)). Defined.

Lemma no_lost_completion_witness :
  ∃ c, c ∈ kids (fst (settled_after race)) 1 ∧ parent (fst (settled_after race)) c = Some 1 ∧
    state (fst (settled_after race)) c = Running.
Proof.
  assert (E : snd (settled_after race) = [Code]) by (vm_compute; reflexivity).
  destruct (no_lost_completion _ (idle_reachable race E)) as [_ H].
  apply (H 1 0); vm_compute; reflexivity.
Defined.

Lemma outcome_ranking_witness :
  ∃ w, winner (fst (settled_after race_won)) 1 = Some w ∧
    home (fst (settled_after race_won)) w = Some 1 ∧
    state (fst (settled_after race_won)) w = Succeeded.
Proof.
  destruct (outcome_ranking _ _ 1 2 (settled_reachable race_won)) as (_ & _ & _ & H);
    [vm_compute; reflexivity..|]. apply H; vm_compute; reflexivity.
Defined.

Lemma failures_reported_witness :
  await_resume (fst (settled_after group_failed)) 6 = Errors [9] ∧
  ∃ n, home (fst (settled_after group_failed)) n = Some 6 ∧
    state (fst (settled_after group_failed)) n = Failed ∧
    error (fst (settled_after group_failed)) n = Some 9.
Proof.
  assert (E : await_resume (fst (settled_after group_failed)) 6 = Errors [9])
    by (vm_compute; reflexivity).
  split; [exact E|].
  pose proof (failures_reported _ _ 6 (settled_reachable group_failed)) as H. rewrite E in H.
  destruct H as (_ & _ & H & _); [vm_compute; reflexivity..|]. apply H. left.
Defined.

Lemma cancel_cascades_witness :
  cancel_requested (fst (settled_after race_cancelled)) 1 = true ∧
  cancel_requested (fst (settled_after race_cancelled)) 3 = true.
Proof.
  assert (E : snd (settled_after race_cancelled) = [Code]) by (vm_compute; reflexivity).
  destruct (cancel_cascades _ (idle_reachable race_cancelled E)) as [H1 H2].
  split; [apply (H1 0 1)|apply (H2 1 3)]; vm_compute; try reflexivity.
  right. left.
Defined.

