(* ===== verification/Path.v ===== *)
(** Paths as text: include/kotatsu/fs/path.h and src/fs/path.cpp.

    A path is its bytes; a view of it is an offset and an end where the code
    compares or subtracts pointers, and its bytes elsewhere.  A loop over the
    path's characters is [skip_while] forwards and [back_while] backwards.
    [normalize] writes over the path it reads, as the code does.  PathNorm.v
    holds what [normalize], [push], [relative] and [resolve] do. *)

From Stdlib Require Import Strings.Byte ZArith Lia Bool.
From stdpp Require Import prelude strings.
From S2P Require Import Prelude.
Local Open Scope kota_scope.
Local Open Scope nat_scope.

(** ** Data *)

Inductive Style := Posix | Windows.

Inductive Prefix := NoPrefix | Drive | UNC | Device | VerbatimDrive | VerbatimUNC | Verbatim.

Inductive DotDot := Fold | Keep.

#[export] Instance style_eq_dec : EqDecision Style.
Proof. solve_decision. Defined.
#[export] Instance prefix_eq_dec : EqDecision Prefix.
Proof. solve_decision. Defined.
#[export] Instance dot_dot_eq_dec : EqDecision DotDot.
Proof. solve_decision. Defined.

Record Root := mkRoot { prefix : Prefix; root_name : bytes; directory : bytes }.

(** ** Loops *)

(** How many characters [f] holds for, from the start. *)
Fixpoint skip_while (f : byte → bool) (s : bytes) : nat :=
  match s with
  | [] => 0
  | c :: s' => if f c then S (skip_while f s') else 0
  end.

(** [while(at < p.size() && f(p[at])) ++at;] *)
Definition forward (f : byte → bool) (p : bytes) (at_ : nat) : nat := at_ + skip_while f (drop at_ p).

(** [while(end > lo && f(p[end - 1])) --end;] *)
Fixpoint back_while (f : byte → bool) (p : bytes) (lo end_ : nat) : nat :=
  match end_ with
  | O => O
  | S e => if (lo <? end_) && f (p !!! e) then back_while f p lo e else end_
  end.

(** ** Characters *)

Definition slash : byte := "/"%byte.
Definition backslash : byte := "\"%byte.

Definition is_ascii_letter (c : byte) : bool := in_range 97 122 c || in_range 65 90 c.

Definition ascii_lower (c : byte) : byte :=
  if in_range 65 90 c then to_byte (uval c - 65 + 97) else c.

Definition is_verbatim (prefix : Prefix) : bool :=
  match prefix with VerbatimDrive | VerbatimUNC | Verbatim => true | _ => false end.

Definition implies_root (prefix : Prefix) : bool :=
  match prefix with NoPrefix | Drive => false | _ => true end.

Definition is_separator (c : byte) (style : Style) : bool :=
  (c =?b slash) || (bool_decide (style = Windows) && (c =?b backslash)).

Definition separates (c : byte) (style : Style) (prefix : Prefix) : bool :=
  if is_verbatim prefix then c =?b backslash else is_separator c style.

Definition name_end (p : bytes) (at_ : nat) (style : Style) : nat :=
  forward (λ c, negb (is_separator c style)) p at_.

(** ** Roots *)

(** Whether the character at [i] satisfies [f], there being one. *)
Definition at_is (f : byte → bool) (p : bytes) (i : nat) : bool :=
  match p !! i with Some c => f c | None => false end.

Definition sep (c : byte) : bool := (c =?b slash) || (c =?b backslash).

(** Only backslashes separate past a verbatim prefix. *)
Definition component_end (p : bytes) (at_ : nat) : nat := forward (λ c, negb (c =?b backslash)) p at_.

(** [string_ref::starts_with_insensitive("unc")]. *)
Definition starts_with_unc (rest : bytes) : bool :=
  (3 <=? length rest) && bool_decide (ascii_lower <$> take 3 rest = lit "unc").

(** What follows a verbatim [\\?\]: the prefix, and the end [prefix_of] is given. *)
Definition verbatim_split (p : bytes) : Prefix * nat :=
  let rest := drop 4 p in
  if starts_with_unc rest && ((length rest =? 3) || at_is (λ c, c =?b backslash) rest 3) then
    let server_end := component_end p (Nat.min (length p) 8) in
    let share_end := if server_end <? length p then component_end p (server_end + 1) else server_end in
    (VerbatimUNC, share_end)
  else if (2 <=? length rest) && at_is is_ascii_letter rest 0 && at_is (λ c, c =?b ":"%byte) rest 1
       && ((length rest =? 2) || at_is (λ c, c =?b backslash) rest 2) then (VerbatimDrive, 6)
  else (Verbatim, component_end p 4).

(** The prefix a Windows path has, and the end [prefix_of] is given. *)
Definition windows_split (p : bytes) : option (Prefix * nat) :=
  if starts_with p (lit "\\?\") then Some (verbatim_split p)
  else if (4 <=? length p) && at_is sep p 0 && at_is sep p 1
       && at_is (λ c, (c =?b "."%byte) || (c =?b "?"%byte)) p 2 && at_is sep p 3 then
    Some (Device, name_end p 4 Windows)
  else if (3 <=? length p) && at_is sep p 0 && at_is sep p 1 && negb (at_is sep p 2) then
    let server_end := name_end p 2 Windows in
    if (server_end + 1 <? length p) && negb (at_is sep p (server_end + 1)) then
      Some (UNC, name_end p (server_end + 1) Windows)
    else Some (UNC, server_end)
  else if (2 <=? length p) && at_is is_ascii_letter p 0 && at_is (λ c, c =?b ":"%byte) p 1 then
    Some (Drive, 2)
  else None.

Definition no_root : Root := mkRoot NoPrefix [] [].

Definition prefix_of (p : bytes) (kind : Prefix) (end_ : nat) : Root :=
  mkRoot kind (take (back_while (λ c, separates c Windows kind) p 0 end_) p) [].

Definition windows_prefix (p : bytes) : Root :=
  match windows_split p with
  | Some (kind, end_) => prefix_of p kind end_
  | None => no_root
  end.

Definition root (p : bytes) (style : Style) : Root :=
  let result := match style with Windows => windows_prefix p | Posix => no_root end in
  let at_ := length (root_name result) in
  let end_ := forward (λ c, separates c style (prefix result)) p at_ in
  mkRoot (prefix result) (root_name result) (substr p at_ (end_ - at_)).

Definition root_end (r : Root) : nat := length (root_name r) + length (directory r).

Definition rooted (r : Root) : bool :=
  implies_root (prefix r) || negb (bool_decide (directory r = [])).

Definition is_absolute (p : bytes) (style : Style) : bool :=
  let r := root p style in
  implies_root (prefix r) || (bool_decide (prefix r = Drive) && negb (bool_decide (directory r = [])))
  || (bool_decide (style = Posix) && negb (bool_decide (directory r = []))).

Definition has_root (p : bytes) (style : Style) : bool := rooted (root p style).

(** ** Components *)

(** What separates the names of [p]. *)
Definition parts (p : bytes) (style : Style) : byte → bool :=
  λ c, separates c style (prefix (root p style)).

(** [components_view::iterator]: where the name starts and ends. *)
Record iterator := mkIterator { start : nat; end_ : nat }.

Definition increment (f : byte → bool) (path : bytes) (it : iterator) : iterator :=
  let start' := forward f path (end_ it) in
  mkIterator start' (forward (λ c, negb (f c)) path start').

Definition begin (p : bytes) (style : Style) : iterator :=
  let at_ := root_end (root p style) in increment (parts p style) p (mkIterator at_ at_).

(** The iterators of a loop over [components(p)]. *)
Fixpoint iterate (fuel : nat) (f : byte → bool) (p : bytes) (it : iterator) : list iterator :=
  match fuel with
  | O => []
  | S fuel' =>
      if start it =? length p then []
      else it :: iterate fuel' f p (increment f p it)
  end.

Definition views (p : bytes) (style : Style) : list iterator :=
  iterate (S (length p)) (parts p style) p (begin p style).

Definition deref (p : bytes) (it : iterator) : bytes := substr p (start it) (end_ it - start it).

Definition components (p : bytes) (style : Style) : list bytes := deref p <$> views p style.

(** ** Names *)

Definition trimmed_end (p : bytes) (r : Root) (style : Style) : nat :=
  back_while (λ c, separates c style (prefix r)) p (root_end r) (length p).

(** Where the filename of [p] starts and ends. *)
Definition filename_view (p : bytes) (style : Style) : iterator :=
  let r := root p style in
  let end_ := trimmed_end p r style in
  mkIterator (back_while (λ c, negb (separates c style (prefix r))) p (root_end r) end_) end_.

Definition filename (p : bytes) (style : Style) : bytes := deref p (filename_view p style).

Definition parent (p : bytes) (style : Style) : bytes :=
  if bool_decide (filename p style = []) then [] else
  let before := take (start (filename_view p style)) p in
  take (trimmed_end before (root p style) style) before.

Definition dot : bytes := lit ".".
Definition dot_dot : bytes := lit "..".

Definition extension_dot (name : bytes) : option nat :=
  if bool_decide (name = dot) || bool_decide (name = dot_dot) then None else
  match find_last (λ c, c =?b "."%byte) name with
  | Some O => None
  | found => found
  end.

Definition stem (p : bytes) (style : Style) : bytes :=
  let name := filename p style in
  match extension_dot name with Some i => take i name | None => name end.

Definition extension (p : bytes) (style : Style) : bytes :=
  let name := filename p style in
  match extension_dot name with Some i => drop i name | None => [] end.

(** [ancestors_view]: [p], then its parents, while there is one. *)
Fixpoint ancestors_from (fuel : nat) (p : bytes) (style : Style) : list bytes :=
  match fuel with
  | O => []
  | S fuel' => if bool_decide (p = []) then [] else p :: ancestors_from fuel' (parent p style) style
  end.

Definition ancestors (p : bytes) (style : Style) : list bytes := ancestors_from (S (length p)) p style.

(** ** Lemmas on the loops *)

Lemma skip_while_bound f s : skip_while f s ≤ length s.
Proof. induction s as [|c s IH]; cbn; [done|]. destruct (f c); lia. Qed.

Lemma skip_while_all f s i c : s !! i = Some c → i < skip_while f s → f c = true.
Proof.
  revert i. induction s as [|x s IH]; intros i Hc Hi; [done|]. cbn in Hi.
  destruct (f x) eqn:E; [|lia]. destruct i as [|i]; cbn in Hc; [congruence|]. apply (IH i); [done|lia].
Qed.

Lemma skip_while_stop f s c : s !! skip_while f s = Some c → f c = false.
Proof. induction s as [|x s IH]; [done|]. cbn. destruct (f x) eqn:E; cbn; [done|congruence]. Qed.

Lemma skip_while_take f s : Forall (λ c, f c = true) (take (skip_while f s) s).
Proof. induction s as [|x s IH]; cbn; [done|]. destruct (f x) eqn:E; cbn; [by constructor|done]. Qed.

Lemma skip_while_app f a b :
  Forall (λ c, f c = true) a → skip_while f (a ++ b) = length a + skip_while f b.
Proof. induction 1 as [|c a Hc _ IH]; cbn; [done|]. by rewrite Hc, IH. Qed.

Lemma skip_while_stopped f s : (∀ c, s !! 0 = Some c → f c = false) → skip_while f s = 0.
Proof. destruct s as [|c s]; [done|]. intros H. cbn. by rewrite (H c eq_refl). Qed.

Lemma forward_bound f p i : i ≤ length p → i ≤ forward f p i ≤ length p.
Proof. intros H. unfold forward. pose proof (skip_while_bound f (drop i p)). rewrite length_drop in *. lia. Qed.

Lemma forward_stop f p i c : p !! forward f p i = Some c → f c = false.
Proof. unfold forward. rewrite <- lookup_drop. apply skip_while_stop. Qed.

Lemma forward_all f p i j c : p !! j = Some c → i ≤ j < forward f p i → f c = true.
Proof.
  intros Hc Hj. unfold forward in Hj. apply (skip_while_all f (drop i p) (j - i)); [|lia].
  rewrite lookup_drop. by replace (i + (j - i)) with j by lia.
Qed.

Lemma forward_unique f p i k :
  i ≤ k ≤ length p → (∀ j c, p !! j = Some c → i ≤ j < k → f c = true) →
  (∀ c, p !! k = Some c → f c = false) → forward f p i = k.
Proof.
  intros Hk Hall Hstop. pose proof (forward_bound f p i ltac:(lia)).
  destruct (lt_eq_lt_dec (forward f p i) k) as [[Hlt|]|Hlt]; [|done|].
  - destruct (lookup_lt_is_Some_2 p (forward f p i)) as [c Hc]; [lia|].
    pose proof (forward_stop f p i c Hc). rewrite (Hall _ c Hc) in *; [done|lia].
  - destruct (lookup_lt_is_Some_2 p k) as [c Hc]; [lia|].
    pose proof (forward_all f p i k c Hc ltac:(lia)). by rewrite (Hstop c Hc) in *.
Qed.

(** A loop that stops before [k] reads nothing from [k] on. *)
Lemma forward_take f p i k : i ≤ k → forward f (take k p) i = Nat.min (forward f p i) k.
Proof.
  intros Hk. destruct (decide (i ≤ length p)) as [Hi|Hi].
  - pose proof (forward_bound f p i Hi). apply forward_unique.
    + rewrite length_take. lia.
    + intros j c Hc Hj. rewrite lookup_take_lt in Hc by lia. apply (forward_all f p i j c Hc). lia.
    + intros c Hc. destruct (decide (forward f p i < k)).
      * rewrite Nat.min_l, lookup_take_lt in Hc by lia. by eapply forward_stop.
      * rewrite Nat.min_r, lookup_take_ge in Hc by lia. done.
  - unfold forward. rewrite !drop_ge by (rewrite ?length_take; lia). cbn. lia.
Qed.

Lemma back_while_spec f p lo e :
  lo ≤ e → let r := back_while f p lo e in
  lo ≤ r ≤ e ∧ (∀ i, r ≤ i < e → f (p !!! i) = true) ∧ (r = lo ∨ f (p !!! (r - 1)) = false).
Proof.
  induction e as [|e IH]; intros Hlo; cbn [back_while].
  - assert (lo = 0) as -> by lia. split; [lia|]. split; [lia|by left].
  - destruct (Nat.ltb_spec lo (S e)) as [Hlt|Hge]; cbn [andb].
    + destruct (f (p !!! e)) eqn:E.
      * destruct IH as (H1 & H2 & H3); [lia|]. split; [lia|]. split; [|done].
        intros i Hi. destruct (decide (i = e)) as [->|]; [done|]. apply H2. lia.
      * split; [lia|]. split; [lia|]. right. by replace (S e - 1) with e by lia.
    + split; [lia|]. split; [lia|]. left. lia.
Qed.

Lemma back_while_ext f p q lo e :
  (∀ i, i < e → p !!! i = q !!! i) → back_while f p lo e = back_while f q lo e.
Proof.
  induction e as [|e IH]; intros H; [done|]. cbn [back_while]. rewrite (H e) by lia.
  rewrite IH; [done|]. intros i Hi. apply H. lia.
Qed.

(** ** The names a string of separated names holds *)

Section Fields.
Variable f : byte → bool.

Fixpoint fields (s : bytes) : list bytes :=
  match s with
  | [] => [[]]
  | c :: s' =>
      if f c then [] :: fields s'
      else match fields s' with w :: ws => (c :: w) :: ws | [] => [[c]] end
  end.

(** The names between the separators. *)
Definition names (s : bytes) : list bytes := filter (λ w, w ≠ []) (fields s).

Definition is_name (w : bytes) : Prop := w ≠ [] ∧ Forall (λ c, f c = false) w.

Lemma fields_cons s : ∃ w ws, fields s = w :: ws.
Proof.
  destruct s as [|c s]; [cbn; eauto|]. cbn. destruct (f c); [eauto|]. destruct (fields s); eauto.
Qed.

Lemma fields_word w s :
  Forall (λ c, f c = false) w →
  ∃ v vs, fields s = v :: vs ∧ fields (w ++ s) = (w ++ v) :: vs.
Proof.
  induction 1 as [|c w Hc _ IH]; [destruct (fields_cons s) as (v & vs & E); by exists v, vs|].
  destruct IH as (v & vs & E & E'). exists v, vs. split; [done|]. cbn. by rewrite Hc, E'.
Qed.

Lemma names_sep c s : f c = true → names (c :: s) = names s.
Proof. intros H. unfold names. cbn [fields]. rewrite H. by rewrite filter_cons, decide_False by naive_solver. Qed.

Lemma names_seps a s : Forall (λ c, f c = true) a → names (a ++ s) = names s.
Proof. induction 1 as [|c a Hc _ IH]; [done|]. cbn [app]. by rewrite names_sep, IH. Qed.

Lemma names_word w s :
  is_name w → (∀ c, s !! 0 = Some c → f c = true) → names (w ++ s) = w :: names s.
Proof.
  intros [Hne Hw] Hs. unfold names. destruct s as [|c s].
  - destruct (fields_word w [] Hw) as (v & vs & E & ->). cbn in E. injection E as <- <-.
    rewrite !app_nil_r. by rewrite filter_cons, decide_True by done.
  - specialize (Hs c eq_refl). destruct (fields_word w (c :: s) Hw) as (v & vs & E & ->).
    rewrite E. cbn in E. rewrite Hs in E. injection E as <- <-. rewrite app_nil_r.
    rewrite filter_cons, decide_True by done. by rewrite (filter_cons _ []), decide_False by naive_solver.
Qed.

Lemma names_nil : names [] = [].
Proof. done. Qed.

Lemma names_app_sep a c b : f c = true → names (a ++ c :: b) = names a ++ names b.
Proof.
  intros Hc. unfold names.
  assert (H : ∃ w ws, fields a = w :: ws) by apply fields_cons.
  assert (E : fields (a ++ c :: b) = fields a ++ fields b).
  { clear H. induction a as [|x a IH]; [cbn; by rewrite Hc|]. cbn. destruct (f x); [by rewrite IH|].
    rewrite IH. by destruct (fields_cons a) as (w & ws & ->). }
  by rewrite E, filter_app.
Qed.

Lemma names_valid s : Forall is_name (names s).
Proof.
  assert (H : Forall (Forall (λ c, f c = false)) (fields s)).
  { induction s as [|c s IH]; cbn; [by constructor|]. destruct (f c) eqn:E; [by constructor|].
    destruct (fields s); [by repeat constructor|]. inversion_clear IH. by repeat constructor. }
  unfold names. apply Forall_forall. intros w [Hne Hw]%list_elem_of_filter. split; [done|].
  rewrite Forall_forall in H. by apply H.
Qed.
End Fields.

(** ** Roots *)

Lemma forall_drop_take (P : byte → Prop) (p : bytes) i j :
  (∀ k c, p !! k = Some c → i ≤ k < j → P c) → Forall P (take (j - i) (drop i p)).
Proof.
  intros H. apply Forall_lookup. intros k c Hc. apply lookup_take_Some in Hc as [Hc Hk].
  rewrite lookup_drop in Hc. apply (H _ _ Hc). lia.
Qed.

Lemma root_name_prefix p style :
  root_name (root p style) = take (length (root_name (root p style))) p.
Proof.
  cbn. destruct style; [done|]. unfold windows_prefix. destruct (windows_split p) as [[K e]|]; [|done].
  cbn. rewrite length_take. destruct (decide (back_while (λ c, separates c Windows K) p 0 e ≤ length p)).
  - by rewrite Nat.min_l.
  - by rewrite Nat.min_r, !take_ge by lia.
Qed.

Lemma root_end_forward p style :
  let r := root p style in
  length (root_name r) ≤ length p ∧
  root_end r = forward (λ c, separates c style (prefix r)) p (length (root_name r)).
Proof.
  intros r. assert (Hn : length (root_name r) ≤ length p).
  { unfold r. rewrite root_name_prefix, length_take. lia. }
  split; [done|]. unfold root_end, r, root in *. clear r. cbn [prefix root_name directory] in *.
  set (r0 := match style with Windows => windows_prefix p | Posix => no_root end) in *.
  pose proof (forward_bound (λ c, separates c style (prefix r0)) p _ Hn).
  unfold substr. rewrite length_take, length_drop. lia.
Qed.

Lemma root_directory p style :
  let r := root p style in
  directory r = take (root_end r - length (root_name r)) (drop (length (root_name r)) p).
Proof. intros r. unfold r. rewrite (proj2 (root_end_forward p style)). done. Qed.

Lemma root_end_bound p style : root_end (root p style) ≤ length p.
Proof.
  destruct (root_end_forward p style) as [Hn ->]. apply forward_bound. done.
Qed.

(** What follows the root: its names, from the first on. *)
Definition after_root (p : bytes) (style : Style) : bytes := drop (root_end (root p style)) p.

Lemma root_split p style :
  let r := root p style in
  p = root_name r ++ directory r ++ after_root p style ∧
  Forall (λ c, parts p style c = true) (directory r) ∧
  (∀ c, after_root p style !! 0 = Some c → parts p style c = false).
Proof.
  intros r. destruct (root_end_forward p style) as [Hn He].
  pose proof (forward_bound (parts p style) p _ Hn) as Hb. split; [|split].
  - pose proof (root_name_prefix p style) as E1. pose proof (root_directory p style) as E2.
    fold r in Hn, He, E1, E2. cbv zeta in E2. unfold after_root. fold r.
    rewrite <- (take_drop (length (root_name r)) p) at 1. rewrite <- E1. f_equal. rewrite E2 at 1.
    rewrite <- (take_drop (root_end r - length (root_name r)) (drop (length (root_name r)) p)) at 1.
    f_equal. rewrite drop_drop. f_equal. unfold root_end. lia.
  - unfold r. rewrite (root_directory p style). apply forall_drop_take. intros k c Hc Hk.
    apply (forward_all _ p (length (root_name (root p style))) k); [done|]. unfold parts. by rewrite He in Hk.
  - intros c Hc. unfold after_root in Hc. rewrite lookup_drop, Nat.add_0_r, He in Hc.
    by eapply forward_stop.
Qed.

(** ** Components *)

Lemma drop_forward f (p : bytes) i :
  drop i p = take (forward f p i - i) (drop i p) ++ drop (forward f p i) p.
Proof.
  rewrite <- (take_drop (forward f p i - i) (drop i p)) at 1. f_equal.
  rewrite drop_drop. f_equal. unfold forward. lia.
Qed.

(** The names from [e] on are the one the iterator after [e] is at, and those
    after it. *)
Lemma increment_names f p e :
  e ≤ length p →
  let it := increment f p (mkIterator 0 e) in
  e ≤ start it ≤ end_ it ∧ end_ it ≤ length p ∧
  if start it =? length p then names f (drop e p) = []
  else start it < end_ it ∧ is_name f (deref p it) ∧
       names f (drop e p) = deref p it :: names f (drop (end_ it) p).
Proof.
  intros He. cbn [increment start end_]. set (s := forward f p e).
  pose proof (forward_bound f p e He) as Hs. fold s in Hs.
  pose proof (forward_bound (λ c, negb (f c)) p s ltac:(lia)) as Ht.
  set (t := forward (λ c, negb (f c)) p s) in *. split; [lia|]. split; [lia|].
  assert (E : names f (drop e p) = names f (drop s p)).
  { rewrite (drop_forward f p e). fold s. apply names_seps. apply forall_drop_take.
    intros k c Hc Hk. by apply (forward_all f p e k). }
  rewrite E. destruct (Nat.eqb_spec s (length p)) as [->|Hne]; [by rewrite drop_all|].
  destruct (lookup_lt_is_Some_2 p s) as [c Hc]; [lia|]. pose proof (forward_stop f p e c Hc) as Hf.
  assert (Hlt : s < t).
  { destruct (decide (s = t)) as [Hst|]; [|lia]. unfold t in Hst.
    assert (Hstop : p !! forward (λ c, negb (f c)) p s = Some c) by (by rewrite <- Hst).
    apply forward_stop in Hstop. by rewrite Hf in Hstop. }
  assert (Hw : is_name f (deref p (mkIterator s t))).
  { unfold deref, substr. cbn [start end_]. split.
    - intros Hnil%(f_equal length). rewrite length_take, length_drop in Hnil. cbn in Hnil. lia.
    - apply forall_drop_take. intros k d Hd Hk. apply negb_true_iff.
      by apply (forward_all (λ c, negb (f c)) p s k). }
  split; [done|]. split; [done|]. rewrite (drop_forward (λ c, negb (f c)) p s) at 1. fold t.
  apply names_word; [done|]. intros d Hd. rewrite lookup_drop, Nat.add_0_r in Hd.
  apply forward_stop in Hd. by apply negb_false_iff in Hd.
Qed.

Lemma iterate_names fuel f p it e :
  e ≤ length p → length p - e < fuel → it = increment f p (mkIterator 0 e) →
  deref p <$> iterate fuel f p it = names f (drop e p).
Proof.
  revert it e. induction fuel as [|fuel IH]; intros it e He Hf ->; [lia|]. cbn [iterate].
  destruct (increment_names f p e He) as (H1 & H2 & H3). destruct (Nat.eqb _ _); [by rewrite H3|].
  destruct H3 as (H3 & _ & ->). rewrite fmap_cons. f_equal. apply IH; [lia|lia|done].
Qed.

(** The components of a path, as its iterators give them, are the names
    between the separators after its root; the loop over them ends. *)
Theorem components_correct p style :
  components p style = names (parts p style) (after_root p style) ∧
  Forall (is_name (parts p style)) (components p style).
Proof.
  assert (E : components p style = names (parts p style) (after_root p style)).
  { apply iterate_names; [apply root_end_bound|pose proof (root_end_bound p style); lia|done]. }
  split; [done|]. rewrite E. apply names_valid.
Qed.

(** ** File names *)

Lemma names_cut f (x y : bytes) :
  (x = [] ∨ ∃ b c, x = b ++ [c] ∧ f c = true) → names f (x ++ y) = names f x ++ names f y.
Proof.
  intros [->|(b & c & -> & Hc)]; [done|]. rewrite <- app_assoc. cbn [app].
  by rewrite !names_app_sep, names_nil, app_nil_r.
Qed.

Lemma names_only_seps f a : Forall (λ c, f c = true) a → names f a = [].
Proof. intros H. rewrite <- (app_nil_r a). by rewrite names_seps. Qed.

(** Cutting at [k] a string from [lo] on, behind a separator. *)
Lemma names_cut_at f (p : bytes) lo k :
  lo ≤ k ≤ length p → k = lo ∨ f (p !!! (k - 1)) = true →
  names f (drop lo p) = names f (take (k - lo) (drop lo p)) ++ names f (drop k p).
Proof.
  intros Hk Hc. rewrite <- (take_drop (k - lo) (drop lo p)) at 1. rewrite drop_drop.
  replace (lo + (k - lo)) with k by lia. apply names_cut. destruct Hc as [->|Hc].
  - left. by rewrite Nat.sub_diag.
  - destruct (decide (k = lo)) as [->|Hne]; [left; by rewrite Nat.sub_diag|]. right.
    destruct (lookup_lt_is_Some_2 p (k - 1)) as [c E]; [lia|].
    rewrite list_lookup_total_alt, E in Hc. cbn in Hc. exists (take (k - 1 - lo) (drop lo p)), c.
    split; [|done]. replace (k - lo) with (S (k - 1 - lo)) by lia. apply take_S_r.
    rewrite lookup_drop. by replace (lo + (k - 1 - lo)) with (k - 1) by lia.
Qed.

Lemma view_spec p style :
  let r := root p style in
  let v := filename_view p style in
  (root_end r ≤ start v ≤ end_ v ∧ end_ v ≤ length p) ∧
  Forall (λ c, parts p style c = true) (drop (end_ v) p) ∧
  Forall (λ c, parts p style c = false) (filename p style) ∧
  (start v = root_end r ∨ parts p style (p !!! (start v - 1)) = true) ∧
  (start v = end_ v → end_ v = root_end r).
Proof.
  intros r v. set (f := parts p style).
  destruct (back_while_spec f p (root_end r) (length p) (root_end_bound p style)) as (A1 & A2 & A3).
  change (back_while f p (root_end r) (length p)) with (end_ v) in *.
  destruct (back_while_spec (λ c, negb (f c)) p (root_end r) (end_ v)) as (B1 & B2 & B3); [lia|].
  change (back_while (λ c, negb (f c)) p (root_end r) (end_ v)) with (start v) in *.
  split; [lia|]. split; [|split; [|split]].
  - rewrite <- (take_ge (drop (end_ v) p) (length p - end_ v)) by (rewrite length_drop; lia).
    apply forall_drop_take. intros k c Hc Hk. specialize (A2 k Hk).
    by rewrite list_lookup_total_alt, Hc in A2.
  - apply forall_drop_take. intros k c Hc Hk. specialize (B2 k Hk).
    rewrite list_lookup_total_alt, Hc in B2. by apply negb_true_iff in B2.
  - destruct B3 as [->|B3]; [by left|]. right. by apply negb_false_iff in B3.
  - intros E. destruct A3 as [A3|A3]; [done|]. destruct B3 as [B3|B3]; [congruence|].
    rewrite E, A3 in B3. done.
Qed.

Lemma filename_length p style :
  length (filename p style) = end_ (filename_view p style) - start (filename_view p style).
Proof.
  pose proof (view_spec p style) as ((H1 & H2) & _). unfold filename, deref, substr.
  rewrite length_take, length_drop. lia.
Qed.

(** The names of a path are those before its filename, and its filename. *)
Lemma filename_names p style :
  let s := start (filename_view p style) in
  names (parts p style) (after_root p style) =
    names (parts p style) (take (s - root_end (root p style)) (after_root p style)) ++
    (if decide (filename p style = []) then [] else [filename p style]).
Proof.
  intros s. destruct (view_spec p style) as ((H1 & H2) & Hs & Hw & Hc & _). fold s in H1, Hc.
  unfold after_root. rewrite (names_cut_at _ p _ s) at 1 by (done || lia). f_equal.
  rewrite <- (take_drop (end_ (filename_view p style) - s) (drop s p)), drop_drop.
  replace (s + (end_ (filename_view p style) - s)) with (end_ (filename_view p style)) by lia.
  change (take _ (drop s p)) with (filename p style). case_decide as Hn.
  - rewrite Hn. by apply names_only_seps.
  - rewrite names_word; [by rewrite names_only_seps|done|].
    intros c Hcc. rewrite Forall_lookup in Hs. by apply (Hs 0).
Qed.

Lemma filename_last p style :
  filename p style = default [] (last (names (parts p style) (after_root p style))).
Proof.
  rewrite filename_names. case_decide as Hn; [|by rewrite last_snoc]. rewrite app_nil_r.
  destruct (view_spec p style) as ((H1 & H2) & _ & _ & _ & He). pose proof (filename_length p style) as Hl.
  rewrite Hn in Hl. cbn [length] in Hl.
  assert (E : start (filename_view p style) = end_ (filename_view p style)) by (cbv zeta in *; lia).
  specialize (He E). cbv zeta in *. rewrite Hn. replace (start _ - root_end _) with 0 by lia. done.
Qed.

(** ** The root of a path cut past it *)

Lemma at_is_take f p k i : i < k → at_is f (take k p) i = at_is f p i.
Proof. intros H. unfold at_is. by rewrite lookup_take_lt. Qed.

Lemma at_is_take_true f p k i : at_is f (take k p) i = true → i < k ∧ at_is f p i = true.
Proof.
  unfold at_is. destruct (take k p !! i) as [c|] eqn:E; [|done]. apply lookup_take_Some in E as [E Hi].
  by rewrite E.
Qed.

Lemma at_is_lt f p i : at_is f p i = true → i < length p.
Proof. unfold at_is. destruct (p !! i) eqn:E; [|done]. intros _. by eapply lookup_lt_Some. Qed.

Lemma at_is_drop f p k i : at_is f (drop k p) i = at_is f p (k + i).
Proof. unfold at_is. by rewrite lookup_drop. Qed.

Lemma forward_ge f p i j :
  i ≤ j → (∀ k, i ≤ k < j → at_is f p k = true) → j ≤ forward f p i.
Proof.
  intros Hij H. destruct (decide (j = i)) as [->|Hne]; [unfold forward; lia|].
  assert (Hj : j - 1 < length p) by (eapply at_is_lt, (H (j - 1)); lia).
  pose proof (forward_bound f p i ltac:(lia)) as Hb.
  destruct (decide (j ≤ forward f p i)) as [|Hlt]; [done|].
  specialize (H (forward f p i) ltac:(lia)). unfold at_is in H.
  destruct (p !! forward f p i) as [c|] eqn:E; [|done]. apply forward_stop in E. congruence.
Qed.

Lemma starts_with_take (p l : bytes) k : length l ≤ k → starts_with (take k p) l = starts_with p l.
Proof. intros H. unfold starts_with. by rewrite take_take, Nat.min_l by lia. Qed.

Lemma starts_with_unc_take rest k :
  starts_with_unc (take k rest) = (3 <=? k) && starts_with_unc rest.
Proof.
  unfold starts_with_unc. rewrite length_take. destruct (Nat.leb_spec 3 k).
  - rewrite take_take, (Nat.min_l 3 k) by lia. cbn [andb]. f_equal.
    apply eq_true_iff_eq. rewrite !Nat.leb_le. lia.
  - cbn [andb]. destruct (Nat.leb_spec 3 (k `min` length rest)); [lia|done].
Qed.

(** The characters of [unc] are neither separators nor a colon. *)
Lemma starts_with_unc_chars rest i :
  starts_with_unc rest = true → i < 3 →
  at_is (λ c, negb (c =?b backslash)) rest i = true ∧ at_is (λ c, c =?b ":"%byte) rest i = false.
Proof.
  intros H Hi. unfold starts_with_unc in H. apply andb_prop in H as [Hl He].
  apply Nat.leb_le in Hl. apply bool_decide_eq_true in He.
  destruct (lookup_lt_is_Some_2 rest i) as [c Hc]; [lia|]. unfold at_is. rewrite Hc.
  assert (Hlow : ∃ d, lit "unc" !! i = Some d ∧ ascii_lower c = d).
  { exists (ascii_lower c). split; [|done]. rewrite <- He, list_lookup_fmap, lookup_take_lt, Hc by lia. done. }
  destruct Hlow as (d & Hd & Hcd).
  assert (Hno : ∀ c, implb (bool_decide (ascii_lower c ∈ lit "unc"))
     (negb (c =?b backslash) && negb (c =?b ":"%byte)) = true) by by_bytes.
  specialize (Hno c). rewrite bool_decide_true in Hno.
  - apply andb_prop in Hno as [H1 H2]. by apply negb_true_iff in H2.
  - rewrite Hcd. by eapply list_elem_of_lookup_2.
Qed.

Lemma letter_no_backslash c : is_ascii_letter c = true → negb (c =?b backslash) = true.
Proof.
  assert (H : ∀ c, implb (is_ascii_letter c) (negb (c =?b backslash)) = true) by by_bytes.
  specialize (H c). intros Hc. by rewrite Hc in H.
Qed.

Lemma component_end_take p i k : i ≤ k → component_end p i ≤ k → component_end (take k p) i = component_end p i.
Proof. intros Hi Hk. unfold component_end. rewrite forward_take by done. unfold component_end in Hk. lia. Qed.

Lemma name_end_take p i k style :
  i ≤ k → name_end p i style ≤ k → name_end (take k p) i style = name_end p i style.
Proof. intros Hi Hk. unfold name_end. rewrite forward_take by done. unfold name_end in Hk. lia. Qed.

Lemma component_end_ge p i : i ≤ component_end p i.
Proof. unfold component_end, forward. lia. Qed.

Lemma name_end_ge p i style : i ≤ name_end p i style.
Proof. unfold name_end, forward. lia. Qed.

(** The two tests of [verbatim_split], on what follows the verbatim prefix. *)
Definition unc_test (rest : bytes) : bool :=
  starts_with_unc rest && ((length rest =? 3) || at_is (λ c, c =?b backslash) rest 3).
Definition drive_test (rest : bytes) : bool :=
  (2 <=? length rest) && at_is is_ascii_letter rest 0 && at_is (λ c, c =?b ":"%byte) rest 1
  && ((length rest =? 2) || at_is (λ c, c =?b backslash) rest 2).

Definition not_backslash : byte → bool := λ c, negb (c =?b backslash).

(** A test that holds of a name cut short, and not of the name, holds of a name
    cut before its end. *)
Lemma unc_test_take rest j :
  j < length rest → unc_test (take j rest) = true → unc_test rest = true ∨ j < skip_while not_backslash rest.
Proof.
  unfold unc_test. rewrite starts_with_unc_take. intros Hj E. bool_prop. rewrite H1. cbn [andb].
  rewrite length_take, Nat.min_l in H0 by lia. apply orb_prop in H0 as [H0|H0].
  - bool_prop. subst j. destruct (at_is (λ c, c =?b backslash) rest 3) eqn:E3; [left; by rewrite orb_true_r|].
    right. apply (forward_ge not_backslash rest 0 4); [lia|]. intros i Hi.
    destruct (decide (i < 3)); [by apply starts_with_unc_chars|]. assert (i = 3) as -> by lia.
    unfold at_is in *. destruct (lookup_lt_is_Some_2 rest 3) as [c Hc]; [lia|]. rewrite Hc in *.
    unfold not_backslash. by rewrite E3.
  - apply at_is_take_true in H0 as [_ ->]. left. by rewrite orb_true_r.
Qed.

Lemma drive_test_take rest j :
  j < length rest → drive_test (take j rest) = true → drive_test rest = true ∨ j < skip_while not_backslash rest.
Proof.
  unfold drive_test. intros Hj E. bool_prop. rewrite length_take, Nat.min_l in * by lia.
  apply at_is_take_true in H2 as [_ H2], H1 as [_ H1]. rewrite H1, H2. 
  destruct (Nat.leb_spec 2 (length rest)) as [_|]; [|lia]. cbn [andb]. apply orb_prop in H0 as [H0|H0].
  - bool_prop. subst j. destruct (at_is (λ c, c =?b backslash) rest 2) eqn:E3; [left; by rewrite orb_true_r|].
    right. apply (forward_ge not_backslash rest 0 3); [lia|]. intros i Hi. unfold at_is, not_backslash in *.
    destruct (lookup_lt_is_Some_2 rest i) as [c Hc]; [lia|]. rewrite Hc.
    destruct i as [|[|[|i]]]; [..|lia]; rewrite Hc in *.
    + by apply letter_no_backslash.
    + apply byte_eqb_spec in H1 as ->. done.
    + by rewrite E3.
  - apply at_is_take_true in H0 as [_ ->]. left. by rewrite orb_true_r.
Qed.

Lemma verbatim_take p k :
  4 ≤ length p → 4 ≤ k → (verbatim_split p).2 ≤ k → verbatim_split (take k p) = verbatim_split p.
Proof.
  intros H4 Hk4 Hk. destruct (decide (length p ≤ k)) as [Hle|Hlt]; [by rewrite take_ge|].
  unfold verbatim_split in *. rewrite !skipn_firstn_comm.
  assert (Hlen : length (take k p) = k) by (rewrite length_take; lia).
  assert (Hrl : length (drop 4 p) = length p - 4) by apply length_drop.
  set (rest := drop 4 p) in *. fold (unc_test rest) (drive_test rest) in *.
  fold (unc_test (take (k - 4) rest)) (drive_test (take (k - 4) rest)).
  destruct (unc_test rest) eqn:Eu.
  - pose proof Eu as Eu'. unfold unc_test in Eu'. bool_prop. cbn [snd] in Hk.
    assert (Hr3 : 3 ≤ length rest).
    { unfold starts_with_unc in H. bool_prop. lia. }
    assert (Hs : 8 ≤ k).
    { pose proof (component_end_ge p (length p `min` 8)). destruct (Nat.ltb_spec (component_end p (length p `min` 8)) (length p)).
      - pose proof (component_end_ge p (component_end p (length p `min` 8) + 1)). lia.
      - lia. }
    assert (Et : unc_test (take (k - 4) rest) = true).
    { unfold unc_test. rewrite starts_with_unc_take, H. destruct (Nat.leb_spec 3 (k - 4)); [|lia]. cbn [andb].
      rewrite at_is_take by lia. destruct (Nat.eqb_spec (length rest) 3); [lia|]. cbn [orb] in H0.
      by rewrite H0, orb_true_r. }
    rewrite Et, Hlen. replace (length p `min` 8) with 8 in * by lia. replace (k `min` 8) with 8 by lia.
    f_equal. destruct (Nat.ltb_spec (component_end p 8) (length p)) as [Hse|Hse].
    + pose proof (component_end_ge p (component_end p 8 + 1)). rewrite component_end_take by lia.
      destruct (Nat.ltb_spec (component_end p 8) k); [|lia]. by rewrite component_end_take by lia.
    + lia.
  - destruct (drive_test rest) eqn:Ed; cbn [snd] in Hk.
    + pose proof Ed as Ed'. unfold drive_test in Ed'. bool_prop.
      assert (Ht : unc_test (take (k - 4) rest) = false).
      { unfold unc_test. rewrite starts_with_unc_take. destruct (starts_with_unc rest) eqn:Es;
          [|by rewrite andb_false_r]. destruct (starts_with_unc_chars rest 1 Es ltac:(lia)) as [_ ?]. congruence. }
      assert (Ht2 : drive_test (take (k - 4) rest) = true).
      { unfold drive_test. rewrite length_take, !(at_is_take _ _ _ 0), !(at_is_take _ _ _ 1), H1, H2 by lia.
        destruct (Nat.leb_spec 2 ((k - 4) `min` length rest)); [|lia]. cbn [andb].
        destruct (Nat.eqb_spec (length rest) 2); [lia|]. cbn [orb] in H0.
        destruct (Nat.eqb_spec ((k - 4) `min` length rest) 2); [done|]. by rewrite at_is_take, H0 by lia. }
      by rewrite Ht, Ht2.
    + assert (Hsk : skip_while not_backslash rest ≤ k - 4).
      { change (4 + skip_while not_backslash rest ≤ k) in Hk. lia. }
      destruct (unc_test (take (k - 4) rest)) eqn:Et.
      { apply unc_test_take in Et as [?|?]; [congruence|lia|lia]. }
      destruct (drive_test (take (k - 4) rest)) eqn:Et2.
      { apply drive_test_take in Et2 as [?|?]; [congruence|lia|lia]. }
      by rewrite component_end_take.
Qed.

(** The tests of [windows_split] that come after the verbatim one. *)
Definition device_test (p : bytes) : bool :=
  (4 <=? length p) && at_is sep p 0 && at_is sep p 1
  && at_is (λ c, (c =?b "."%byte) || (c =?b "?"%byte)) p 2 && at_is sep p 3.
Definition share_test (p : bytes) : bool :=
  (3 <=? length p) && at_is sep p 0 && at_is sep p 1 && negb (at_is sep p 2).
Definition letter_test (p : bytes) : bool :=
  (2 <=? length p) && at_is is_ascii_letter p 0 && at_is (λ c, c =?b ":"%byte) p 1.

Lemma device_test_take p k : 4 ≤ k → device_test (take k p) = device_test p.
Proof.
  intros Hk. unfold device_test. repeat (rewrite at_is_take by lia). rewrite length_take.
  f_equal; f_equal; f_equal; f_equal. apply eq_true_iff_eq. rewrite !Nat.leb_le. lia.
Qed.

Lemma share_test_take p k : 3 ≤ k → share_test (take k p) = share_test p.
Proof.
  intros Hk. unfold share_test. repeat (rewrite at_is_take by lia). rewrite length_take.
  f_equal; f_equal; f_equal. apply eq_true_iff_eq. rewrite !Nat.leb_le. lia.
Qed.

Lemma letter_test_take p k : 2 ≤ k → letter_test (take k p) = letter_test p.
Proof.
  intros Hk. unfold letter_test. repeat (rewrite at_is_take by lia). rewrite length_take.
  f_equal; f_equal. apply eq_true_iff_eq. rewrite !Nat.leb_le. lia.
Qed.

(** None of the tests holds of a path shorter than what it asks for. *)
Lemma tests_short p :
  (length p < 4 → starts_with p (lit "\\?\") = false ∧ device_test p = false) ∧
  (length p < 3 → share_test p = false) ∧ (length p < 2 → letter_test p = false).
Proof.
  split; [|split].
  - intros H. split.
    + destruct (starts_with _ _) eqn:E; [|done]. apply starts_with_length in E. cbn in E. lia.
    + unfold device_test. by destruct (Nat.leb_spec 4 (length p)); [lia|].
  - intros H. unfold share_test. by destruct (Nat.leb_spec 3 (length p)); [lia|].
  - intros H. unfold letter_test. by destruct (Nat.leb_spec 2 (length p)); [lia|].
Qed.

(** A test that does not hold of a path does not hold of it cut. *)
Lemma tests_cut p k :
  (starts_with p (lit "\\?\") = false → starts_with (take k p) (lit "\\?\") = false) ∧
  (device_test p = false → device_test (take k p) = false) ∧
  (share_test p = false → share_test (take k p) = false) ∧
  (letter_test p = false → letter_test (take k p) = false).
Proof.
  destruct (tests_short (take k p)) as (S1 & S2 & S3). rewrite length_take in *.
  split_and!; intros H.
  - destruct (decide (4 ≤ k)); [by rewrite starts_with_take|]. apply S1. lia.
  - destruct (decide (4 ≤ k)); [by rewrite device_test_take|]. apply S1. lia.
  - destruct (decide (3 ≤ k)); [by rewrite share_test_take|]. apply S2. lia.
  - destruct (decide (2 ≤ k)); [by rewrite letter_test_take|]. apply S3. lia.
Qed.

Lemma verbatim_ge p : 4 ≤ length p → 4 ≤ (verbatim_split p).2.
Proof.
  intros H. unfold verbatim_split. set (rest := drop 4 p). fold (unc_test rest) (drive_test rest).
  destruct (unc_test rest); cbn [snd].
  - pose proof (component_end_ge p (length p `min` 8)). destruct (Nat.ltb _ _); [|lia].
    pose proof (component_end_ge p (component_end p (length p `min` 8) + 1)). lia.
  - destruct (drive_test rest); cbn [snd]; [lia|apply component_end_ge].
Qed.

Lemma is_separator_windows c : is_separator c Windows = sep c.
Proof. done. Qed.

Lemma share_ge p : share_test p = true → 3 ≤ name_end p 2 Windows.
Proof.
  intros H. unfold share_test in H. bool_prop. apply forward_ge; [lia|]. intros i Hi.
  assert (i = 2) as -> by lia. unfold at_is in *. destruct (lookup_lt_is_Some_2 p 2) as [c Hc]; [lia|].
  rewrite Hc in *. by rewrite is_separator_windows, H0.
Qed.

Lemma windows_split_take p k :
  match windows_split p with Some (_, e) => e ≤ k | None => True end →
  windows_split (take k p) = windows_split p.
Proof.
  intros Hk. unfold windows_split in *. destruct (tests_cut p k) as (C1 & C2 & C3 & C4).
  fold (device_test p) (share_test p) (letter_test p) in *.
  fold (device_test (take k p)) (share_test (take k p)) (letter_test (take k p)).
  destruct (starts_with p _) eqn:E1.
  - assert (H4 : 4 ≤ length p) by (apply starts_with_length in E1; exact E1).
    pose proof (verbatim_ge p H4). destruct (verbatim_split p) as [K e] eqn:Ev. cbn [snd] in *.
    rewrite starts_with_take, E1 by (cbn; lia). f_equal. rewrite <- Ev. apply verbatim_take; [lia..|].
    rewrite Ev. exact Hk.
  - rewrite (C1 eq_refl). destruct (device_test p) eqn:E2.
    + pose proof (name_end_ge p 4 Windows). rewrite device_test_take, E2 by lia. by rewrite name_end_take by lia.
    + rewrite (C2 eq_refl). destruct (share_test p) eqn:E3.
      * pose proof (share_ge p E3). set (se := name_end p 2 Windows) in *.
        assert (Hse : se ≤ k).
        { destruct (_ && _); [|done]. pose proof (name_end_ge p (se + 1) Windows). lia. }
        rewrite share_test_take, E3 by lia. rewrite name_end_take by (unfold se in *; lia). fold se.
        rewrite length_take. destruct (Nat.ltb_spec (se + 1) (length p)) as [Hl|Hl]; cbn [andb] in *.
        -- destruct (at_is sep p (se + 1)) eqn:Es; cbn [negb] in *.
           ++ destruct (Nat.ltb_spec (se + 1) (k `min` length p)); [|done].
              rewrite at_is_take, Es by lia. done.
           ++ assert (Hg : se + 2 ≤ name_end p (se + 1) Windows).
              { apply forward_ge; [lia|]. intros i Hi. assert (i = se + 1) as -> by lia. unfold at_is in *.
                destruct (lookup_lt_is_Some_2 p (se + 1)) as [c Hc]; [lia|]. rewrite Hc in *.
                by rewrite is_separator_windows, Es. }
              destruct (Nat.ltb_spec (se + 1) (k `min` length p)); [|lia].
              rewrite at_is_take, Es by lia. cbn [negb andb]. by rewrite name_end_take by lia.
        -- destruct (Nat.ltb_spec (se + 1) (k `min` length p)); [lia|done].
      * rewrite (C3 eq_refl). destruct (letter_test p) eqn:E4; [by rewrite letter_test_take, E4|].
        by rewrite (C4 eq_refl).
Qed.

Lemma windows_split_bound p K e : windows_split p = Some (K, e) → e ≤ length p.
Proof.
  unfold windows_split. fold (device_test p) (share_test p) (letter_test p). intros E.
  destruct (starts_with p _) eqn:E1.
  - assert (H4 : 4 ≤ length p) by (apply starts_with_length in E1; exact E1).
    injection E as E. apply (f_equal snd) in E. cbn [snd] in E. subst e. unfold verbatim_split.
    set (rest := drop 4 p). fold (unc_test rest) (drive_test rest). destruct (unc_test rest); cbn [snd].
    + assert (H : component_end p (length p `min` 8) ≤ length p) by (apply forward_bound; lia).
      destruct (Nat.ltb_spec (component_end p (length p `min` 8)) (length p)); [|done].
      apply forward_bound. lia.
    + destruct (drive_test rest) eqn:Ed; cbn [snd]; [|by apply forward_bound].
      unfold drive_test, rest in Ed. rewrite length_drop in Ed. bool_prop. lia.
  - destruct (device_test p) eqn:E2.
    { injection E as <- <-. unfold device_test in E2. bool_prop. by apply forward_bound. }
    destruct (share_test p) eqn:E3.
    { unfold share_test in E3. bool_prop.
      assert (Hb : name_end p 2 Windows ≤ length p) by (apply forward_bound; lia).
      destruct (Nat.ltb_spec (name_end p 2 Windows + 1) (length p)); cbn [andb] in E.
      - destruct (negb _); simplify_eq; [apply forward_bound; unfold name_end, forward in *; lia|done].
      - by simplify_eq. }
    destruct (letter_test p) eqn:E4; [|done]. injection E as <- <-. unfold letter_test in E4. bool_prop. lia.
Qed.

Lemma prefix_end p K e :
  windows_split p = Some (K, e) → e ≤ root_end (root p Windows).
Proof.
  intros E. pose proof (windows_split_bound p K e E) as He.
  destruct (root_end_forward p Windows) as [_ ->].
  destruct (back_while_spec (λ c, separates c Windows K) p 0 e ltac:(lia)) as (B1 & B2 & _).
  assert (Hr : prefix (root p Windows) = K ∧
    length (root_name (root p Windows)) = back_while (λ c, separates c Windows K) p 0 e).
  { cbn. unfold windows_prefix. rewrite E. cbn. split; [done|]. rewrite length_take. lia. }
  destruct Hr as [-> ->]. apply forward_ge; [lia|]. intros i Hi. specialize (B2 i Hi). unfold at_is.
  destruct (lookup_lt_is_Some_2 p i) as [c Hc]; [lia|]. rewrite list_lookup_total_alt, Hc in B2. by rewrite Hc.
Qed.

Lemma windows_prefix_take p k :
  root_end (root p Windows) ≤ k → windows_prefix (take k p) = windows_prefix p.
Proof.
  intros Hk. unfold windows_prefix. rewrite windows_split_take.
  - destruct (windows_split p) as [[K e]|] eqn:E; [|done]. pose proof (prefix_end p K e E) as Hend.
    destruct (back_while_spec (λ c, separates c Windows K) p 0 e ltac:(lia)) as (B1 & _).
    unfold prefix_of. rewrite (back_while_ext _ (take k p) p).
    + by rewrite take_take, Nat.min_l by lia.
    + intros i Hi. rewrite !list_lookup_total_alt. by rewrite lookup_take_lt by lia.
  - destruct (windows_split p) as [[K e]|] eqn:E; [|done]. pose proof (prefix_end p K e E). lia.
Qed.

(** Cut anywhere past its root, a path keeps it. *)
Lemma root_take p style k : root_end (root p style) ≤ k → root (take k p) style = root p style.
Proof.
  intros Hk. destruct (root_end_forward p style) as [_ He].
  assert (E : match style with Windows => windows_prefix (take k p) | Posix => no_root end
            = match style with Windows => windows_prefix p | Posix => no_root end).
  { destruct style; [done|]. by apply windows_prefix_take. }
  unfold root in *. rewrite E. set (r0 := match style with Posix => _ | Windows => _ end) in *.
  cbn [prefix root_name directory] in *. unfold root_end in *. cbn [root_name directory] in *.
  assert (Hn : length (root_name r0) ≤ k) by lia. f_equal. rewrite forward_take by done.
  rewrite He in Hk. rewrite Nat.min_l by done. unfold substr. rewrite skipn_firstn_comm, take_take. f_equal. lia.
Qed.

Lemma parts_take p style k : root_end (root p style) ≤ k → parts (take k p) style = parts p style.
Proof. intros H. unfold parts. by rewrite root_take. Qed.

Lemma after_root_take p style k :
  root_end (root p style) ≤ k →
  after_root (take k p) style = take (k - root_end (root p style)) (after_root p style).
Proof. intros H. unfold after_root. rewrite root_take by done. apply skipn_firstn_comm. Qed.

(** ** Parents *)

(** Where a parent ends, past the root. *)
Lemma parent_take p style :
  filename p style ≠ [] →
  ∃ k, root_end (root p style) ≤ k ≤ start (filename_view p style) ∧ parent p style = take k p ∧
    names (parts p style) (take (k - root_end (root p style)) (after_root p style)) =
    names (parts p style) (take (start (filename_view p style) - root_end (root p style)) (after_root p style)).
Proof.
  intros Hf. unfold parent. rewrite bool_decide_false by done.
  set (s := start (filename_view p style)). destruct (view_spec p style) as ((H1 & H2) & _). fold s in H1.
  cbv zeta in *. set (re := root_end (root p style)) in *.
  assert (Hl : length (take s p) = s) by (rewrite length_take; lia).
  destruct (back_while_spec (parts p style) (take s p) re s) as (B1 & B2 & _); [lia|].
  unfold trimmed_end. rewrite Hl. fold (parts p style) re.
  set (k := back_while (parts p style) (take s p) re s) in *. exists k. split; [done|].
  split; [rewrite take_take; f_equal; lia|]. symmetry.
  rewrite <- (take_drop (k - re) (take (s - re) (after_root p style))).
  rewrite take_take, Nat.min_l by lia.
  assert (Hsep : Forall (λ c, parts p style c = true) (drop (k - re) (take (s - re) (after_root p style)))).
  { rewrite skipn_firstn_comm. unfold after_root. rewrite drop_drop. fold re.
    replace (s - re - (k - re)) with (s - k) by lia. replace (re + (k - re)) with k by lia.
    apply forall_drop_take. intros i c Hc Hi. specialize (B2 i Hi).
    rewrite list_lookup_total_alt, lookup_take_lt, Hc in B2 by lia. done. }
  set (a := take (k - re) (after_root p style)). set (b := drop _ _) in *.
  clearbody a b. destruct b as [|c b]; [by rewrite app_nil_r|]. inversion_clear Hsep as [|?? Hc Hb].
  rewrite names_app_sep by done. rewrite (names_only_seps _ b) by done. by rewrite app_nil_r.
Qed.

Lemma components_names p style : components p style = names (parts p style) (after_root p style).
Proof. apply iterate_names; [apply root_end_bound|pose proof (root_end_bound p style); lia|done]. Qed.

Lemma parent_step p style :
  filename p style ≠ [] →
  root (parent p style) style = root p style ∧
  components p style = components (parent p style) style ++ [filename p style].
Proof.
  intros Hf. rewrite !components_names. destruct (parent_take p style Hf) as (k & Hk & -> & Hn).
  rewrite root_take by lia. split; [done|]. rewrite parts_take, after_root_take, Hn by lia.
  rewrite filename_names at 1. by rewrite decide_False.
Qed.

Lemma filename_nil p style : filename p style = [] → components p style = [].
Proof.
  intros Hf. rewrite components_names.
  pose proof (names_valid (parts p style) (after_root p style)) as Hv. rewrite filename_last in Hf.
  destruct (last _) as [w|] eqn:El; [|by apply last_None]. cbn in Hf. subst w.
  apply last_Some in El as [l El]. rewrite El in Hv. apply Forall_app in Hv as [_ Hv].
  inversion_clear Hv as [|?? [Hv' _] _]. done.
Qed.

(** A path's filename is its last component, and nothing where it has none;
    its parent has the root of the path and the components before the last
    one, of a Windows path as of a POSIX one. *)
Theorem parent_correct p style :
  filename p style = default [] (last (components p style)) ∧
  (filename p style ≠ [] →
   root (parent p style) style = root p style ∧
   components p style = components (parent p style) style ++ [filename p style]) ∧
  (filename p style = [] → components p style = [] ∧ parent p style = []).
Proof.
  split; [rewrite components_names; apply filename_last|]. split; [apply parent_step|].
  intros Hf. split; [by apply filename_nil|]. unfold parent. by rewrite bool_decide_true.
Qed.

(** ** Ancestors *)

(** A path without names is its root. *)
Lemma no_names p style : components p style = [] → after_root p style = [].
Proof.
  rewrite components_names. intros E. destruct (root_split p style) as (_ & _ & H).
  destruct (after_root p style) as [|c s]; [done|]. specialize (H c eq_refl).
  assert (Hin : ∃ w ws, names (parts p style) (c :: s) = w :: ws); [|by rewrite E in Hin; destruct Hin as (?&?&?)].
  unfold names. cbn [fields]. rewrite H. destruct (fields_cons (parts p style) s) as (w & ws & ->).
  rewrite filter_cons, decide_True by done. eauto.
Qed.

Lemma names_length f s : length (names f s) ≤ length s.
Proof.
  assert (H : ∀ s, match fields f s with
                   | [] => True
                   | w :: ws => length (filter (λ v : bytes, v ≠ []) ws) + length w ≤ length s
                   end).
  { clear s. induction s as [|c s IH]; [cbn; lia|]. cbn [fields]. destruct (f c).
    - destruct (fields_cons f s) as (w & ws & E). rewrite E in *. cbn [length]. rewrite filter_cons.
      case_decide as Hw; cbn [length]; [|lia]. destruct w; [done|]. cbn [length] in IH. lia.
    - destruct (fields_cons f s) as (w & ws & E). rewrite E in *. cbn [length]. lia. }
  specialize (H s). unfold names. destruct (fields_cons f s) as (w & ws & E). rewrite E in *.
  rewrite filter_cons. case_decide as Hw; cbn [length]; [|lia]. destruct w; [done|]. cbn [length] in H. lia.
Qed.

Lemma ancestors_from_spec fuel p style :
  length (components p style) < fuel → p ≠ [] →
  let n := length (components p style) in
  let l := ancestors_from fuel p style in
  length l = (if root_end (root p style) =? 0 then n else S n) ∧
  ∀ i q, l !! i = Some q →
    root q style = root p style ∧ components q style = take (n - i) (components p style).
Proof.
  revert p. induction fuel as [|fuel IH]; intros p Hf Hp; [lia|]. cbv zeta. cbn [ancestors_from].
  rewrite bool_decide_false by done.
  assert (Hend : ∀ fuel, ancestors_from fuel [] style = []) by (by intros [|]).
  destruct (decide (filename p style = [])) as [Hn|Hn].
  - assert (parent p style = []) as -> by (unfold parent; by rewrite bool_decide_true).
    pose proof (filename_nil p style Hn) as Hc. rewrite Hend, Hc. cbn [length].
    assert (Hr : root_end (root p style) ≠ 0).
    { intros Hr. apply no_names in Hc. unfold after_root in Hc. by rewrite Hr in Hc. }
    destruct (Nat.eqb_spec (root_end (root p style)) 0); [done|]. split; [done|].
    intros [|i] q Hq; [|done]. cbn in Hq. injection Hq as <-. by rewrite Hc.
  - destruct (parent_step p style Hn) as [Hr Hc].
    assert (Hl : length (components p style) = S (length (components (parent p style) style)))
      by (rewrite Hc, length_app; cbn; lia).
    destruct (decide (parent p style = [])) as [He|He].
    + rewrite He, Hend in *. assert (Hz : root_end (root p style) = 0).
      { rewrite <- Hr. pose proof (root_end_bound [] style). cbn in *. lia. }
      assert (Hc0 : components [] style = []) by (rewrite components_names; unfold after_root; by rewrite drop_nil).
      rewrite Hz, Hl, Hc0. cbn [length Nat.eqb]. split; [done|]. intros [|i] q Hq; [|done]. cbn in Hq.
      injection Hq as <-. split; [done|]. rewrite take_ge; [done|]. rewrite Hl, Hc0. cbn. lia.
    + destruct (IH (parent p style)) as [IH1 IH2]; [lia|done|]. rewrite Hr in IH1, IH2.
      split; [cbn [length]; rewrite IH1, Hl; by destruct (Nat.eqb _ _)|].
      intros [|i] q Hq; cbn in Hq.
      * injection Hq as <-. split; [done|]. by rewrite take_ge by lia.
      * destruct (IH2 i q Hq) as [-> ->]. split; [done|]. rewrite Hl. rewrite Hc.
        rewrite take_app_le by lia. done.
Qed.

(** The ancestors of a path are finitely many: itself, then the path with
    one component less each time and the same root, down to one component, or
    to the root where there is one. *)
Theorem ancestors_correct p style :
  p ≠ [] →
  let n := length (components p style) in
  length (ancestors p style) = (if root_end (root p style) =? 0 then n else S n) ∧
  ∀ i q, ancestors p style !! i = Some q →
    root q style = root p style ∧ components q style = take (n - i) (components p style).
Proof.
  intros Hp. apply ancestors_from_spec; [|done]. rewrite components_names.
  pose proof (names_length (parts p style) (after_root p style)). unfold after_root in *.
  rewrite length_drop in *. lia.
Qed.

Lemma ancestors_correct_witness :
  length (ancestors (lit "\\server\share\a/b") Windows) = 3 ∧
  ancestors (lit "\\server\share\a/b") Windows
  = [lit "\\server\share\a/b"; lit "\\server\share\a"; lit "\\server\share\"].
Proof.
  split; [|vm_compute; reflexivity].
  exact (proj1 (ancestors_correct (lit "\\server\share\a/b") Windows ltac:(vm_compute; discriminate))).
Defined.

(** ** Extensions *)

Lemma find_last_spec {A} (f : A → bool) s i :
  find_last f s = Some i →
  (∃ c, s !! i = Some c ∧ f c = true) ∧ (∀ j c, i < j → s !! j = Some c → f c = false).
Proof.
  revert i. induction s as [|x s IH]; intros i H; [done|]. cbn in H.
  destruct (find_last f s) as [k|] eqn:E.
  - injection H as <-. destruct (IH k eq_refl) as [H1 H2]. split; [done|].
    intros [|j] c Hj Hc; [lia|]. apply (H2 j); [lia|done].
  - destruct (f x) eqn:Ex; [|done]. injection H as <-. split; [by exists x|].
    intros [|j] c Hj Hc; [lia|]. clear IH Hj Ex. cbn in Hc. revert j Hc. revert E.
    induction s as [|y s IH]; intros E j Hc; [done|]. cbn in E. destruct (find_last f s) eqn:E'; [done|].
    destruct (f y) eqn:Ey; [done|]. destruct j as [|j]; cbn in Hc; [congruence|]. by apply (IH eq_refl j).
Qed.

(** A filename is its stem and its extension: the extension is empty or
    starts at the last dot of the filename, the stem is not empty where the
    filename is not, and [.] and [..] have no extension. *)
Theorem stem_extension_correct p style :
  let name := filename p style in
  name = stem p style ++ extension p style ∧
  (extension p style = [] ∨
   ∃ e, extension p style = "."%byte :: e ∧ "."%byte ∉ e ∧ stem p style ≠ []) ∧
  (name = dot ∨ name = dot_dot → extension p style = []) ∧
  (name ≠ [] → stem p style ≠ []).
Proof.
  intros name. unfold stem, extension. fold name. clearbody name.
  assert (Hx : ∀ i, extension_dot name = Some i → i ≠ 0 ∧ find_last (λ c, c =?b "."%byte) name = Some i).
  { intros i. unfold extension_dot. destruct (_ || _); [done|].
    destruct (find_last _ name) as [[|j]|]; try done. by intros [= <-]. }
  destruct (extension_dot name) as [i|] eqn:E.
  - destruct (Hx i eq_refl) as [Hi Hl]. apply find_last_spec in Hl as [(c & Hc & Ec) Hno].
    apply byte_eqb_spec in Ec as ->. rewrite take_drop.
    assert (Hne : take i name ≠ []).
    { intros Hn%(f_equal length). rewrite length_take in Hn. apply lookup_lt_Some in Hc. cbn [length] in Hn. lia. }
    split; [done|]. split; [|split; [|done]].
    + right. exists (drop (S i) name). split; [by apply drop_S|]. split; [|done].
      intros (j & Hj)%list_elem_of_lookup_1. rewrite lookup_drop in Hj.
      apply Hno in Hj; [|lia]. by rewrite byte_eqb_refl in Hj.
    + intros Hd. unfold extension_dot in E. destruct Hd as [Hd|Hd]; rewrite Hd in E; done.
  - rewrite app_nil_r. split; [done|]. split; [by left|]. split; [done|]. done.
Qed.
