(* ===== verification/PathNorm.v ===== *)
(** Joining, normalizing and comparing paths: the functions of
    src/fs/path.cpp that write a path into a buffer, and those that compare
    two paths.

    The buffer is the bytes it holds.  [normalize] writes over the path its
    names are views of, as the code does: a kept name is the iterator it was
    read with, and is read again from the buffer when it is moved. *)

From Stdlib Require Import Strings.Byte ZArith Lia Bool.
From stdpp Require Import prelude strings.
From S2P Require Import Prelude Path.
Local Open Scope kota_scope.
Local Open Scope nat_scope.

(** ** Roots compared *)

Definition same_char (style : Style) (a b : Prefix) (x y : byte) : bool :=
  if separates x style a && separates y style b then true
  else ascii_lower x =?b ascii_lower y.

Fixpoint same_chars (style : Style) (a b : Prefix) (x y : bytes) : bool :=
  match x, y with
  | c :: x', d :: y' => if same_char style a b c d then same_chars style a b x' y' else false
  | _, _ => true
  end.

Definition same_prefix (a b : Root) (style : Style) : bool :=
  if negb (bool_decide (prefix a = prefix b)) || negb (length (root_name a) =? length (root_name b))
  then false
  else same_chars style (prefix a) (prefix b) (root_name a) (root_name b).

Definition same_root (a b : Root) (style : Style) : bool :=
  same_prefix a b style && eqb (rooted a) (rooted b).

Definition separator_of (p : bytes) (r : Root) (style : Style) (fallback : byte) : byte :=
  if is_verbatim (prefix r) then backslash
  else match find_index (λ c, is_separator c style) p with
       | Some i => p !!! i
       | None => fallback
       end.

(** [std::ranges::replace]. *)
Definition replace (s : bytes) (from to : byte) : bytes := (λ c, if c =?b from then to else c) <$> s.

(** ** [push] and [pop] *)

Definition push (path p : bytes) (style : Style) : bytes :=
  let base := path in
  if bool_decide (base = []) || is_absolute p style then p else
  let b := root base style in
  let r := root p style in
  if negb (bool_decide (prefix r = NoPrefix)) && negb (same_prefix r b style) then p else
  let rest := drop (length (root_name r)) p in
  let verbatim := is_verbatim (prefix b) in
  let path' :=
    if negb (bool_decide (directory r = [])) then take (length (root_name b)) path
    else
      let ends_in_separator :=
        (length (root_name b) <? length base) && separates (base !!! (length base - 1)) style (prefix b) in
      if negb (bool_decide (rest = [])) && negb ends_in_separator
         && ((length (root_name b) <? length base) || implies_root (prefix b)) then
        let sep := foldl (λ sep c, if is_separator c style then c else sep)
                     (separator_of rest r style slash) base in
        path ++ [if verbatim then backslash else sep]
      else path in
  path' ++ (if verbatim then replace rest slash backslash else rest).

Definition pop (path : bytes) (style : Style) : bool * bytes :=
  if bool_decide (filename path style = []) then (false, path)
  else (true, take (length (parent path style)) path).

Definition set_file_name (path name : bytes) (style : Style) : bytes := push (pop path style).2 name style.

Definition set_extension (path ext : bytes) (style : Style) : bool * bytes :=
  let name := filename path style in
  if bool_decide (name = []) || bool_decide (name = dot) || bool_decide (name = dot_dot) then (false, path)
  else
    let name_start := start (filename_view path style) in
    let path' := take (name_start + default (length name) (extension_dot name)) path in
    (true, if bool_decide (ext = []) then path'
           else (if starts_with ext dot then path' else path' ++ dot) ++ ext).

(** ** [normalize] *)

(** A component of [p], and the names kept of those before it. *)
Definition keep_name (p : bytes) (dd : DotDot) (climbs_stop : bool) (kept : list iterator)
  (it : iterator) : list iterator :=
  let name := deref p it in
  if bool_decide (name = dot) then kept
  else if bool_decide (name = dot_dot) && bool_decide (dd = Fold) then
    match last kept with
    | Some back =>
        if negb (bool_decide (deref p back = dot_dot)) then take (length kept - 1) kept
        else if climbs_stop then kept else kept ++ [it]
    | None => if climbs_stop then kept else kept ++ [it]
    end
  else kept ++ [it].

Definition memmove (chars : bytes) (to from n : nat) : bytes :=
  take to chars ++ substr chars from n ++ drop (to + n) chars.

(** The prefix, written over itself: [n] characters from the [i]-th on. *)
Fixpoint write_prefix (n i : nat) (chars : bytes) (change : byte → byte) : bytes :=
  match n with
  | O => chars
  | S n' => write_prefix n' (S i) (<[i := change (chars !!! i)]> chars) change
  end.

(** The kept names, the first without a separator before it. *)
Fixpoint write_names (kept : list iterator) (first : bool) (sep : byte) (chars : bytes) (length_ : nat)
  : bytes * nat :=
  match kept with
  | [] => (chars, length_)
  | it :: kept' =>
      let '(chars, length_) := if first then (chars, length_) else (<[length_ := sep]> chars, length_ + 1) in
      let size := end_ it - start it in
      write_names kept' false sep (memmove chars length_ (start it) size) (length_ + size)
  end.

Definition normalize (path : bytes) (dd : DotDot) (style : Style) : bytes :=
  let p := path in
  if bool_decide (p = []) then path else
  let r := root p style in
  let climbs_stop := rooted r in
  let kept := foldl (keep_name p dd climbs_stop) [] (views p style) in
  let sep := separator_of p r style slash in
  let n := length (root_name r) in
  let chars := write_prefix n 0 path
    (λ c, if negb (is_verbatim (prefix r)) && is_separator c style then sep else c) in
  let '(chars, length_) :=
    if negb (bool_decide (directory r = [])) then (<[n := sep]> chars, n + 1) else (chars, n) in
  let '(chars, length_) := write_names kept true sep chars length_ in
  if length_ =? 0 then dot else take length_ chars.

(** ** Two paths *)

Fixpoint common_names (a b : list bytes) : nat :=
  match a, b with
  | x :: a', y :: b' => if bool_decide (x = y) then S (common_names a' b') else 0
  | _, _ => 0
  end.

(** How far [relative] climbs; [None] where a [..] makes that unknown. *)
Fixpoint climbs_of (b : list bytes) : option nat :=
  match b with
  | [] => Some 0
  | x :: b' =>
      if bool_decide (x = dot_dot) then None
      else (λ n, (if bool_decide (x = dot) then 0 else 1) + n) <$> climbs_of b'
  end.

(** The loops that write the result: the climbs, then the names. *)
Fixpoint append_climbs (sep : byte) (n : nat) (first : bool) (out : bytes) : bytes :=
  match n with
  | O => out
  | S n' => append_climbs sep n' false ((if first then out else out ++ [sep]) ++ dot_dot)
  end.

Definition append_name (sep : byte) (out name : bytes) : bytes :=
  (if bool_decide (out = []) then out else out ++ [sep]) ++ name.

Definition relative (p base : bytes) (style : Style) : option bytes :=
  let pr := root p style in
  let br := root base style in
  if negb (same_root pr br style) then None else
  let a := components p style in
  let b := components base style in
  let common := common_names a b in
  match climbs_of (drop common b) with
  | None => None
  | Some climbs =>
      if (climbs =? 0) && (common =? length a) then Some dot
      else
        let sep := separator_of p pr style (separator_of base br style slash) in
        Some (foldl (append_name sep) (append_climbs sep climbs true []) (drop common a))
  end.

Definition resolve (p base : bytes) (dd : DotDot) (style : Style) : bytes :=
  normalize (push base p style) dd style.

Definition strip_prefix (p prefix : bytes) (style : Style) : option bytes :=
  let pr := root p style in
  let ar := root prefix style in
  if negb (same_root pr ar style) then None else
  let names := components p style in
  let ancestor := components prefix style in
  if (length names <? length ancestor) || negb (bool_decide (take (length ancestor) names = ancestor)) then None
  else if length ancestor =? length names then Some (drop (length p) p)
  else
    match views p style !! length ancestor with
    | Some it => Some (drop (start it) p)
    | None => None
    end.

Definition is_within (p ancestor : bytes) (style : Style) : bool :=
  match strip_prefix p ancestor style with Some _ => true | None => false end.

(** ** Separators changed *)

Definition to_slash (path : bytes) (style : Style) : bytes :=
  if bool_decide (style = Windows) && negb (is_verbatim (prefix (root path style)))
  then replace path backslash slash else path.

Definition lowercase_drive (path : bytes) (style : Style) : bytes :=
  if bool_decide (prefix (root path style) = Drive) then
    match path with letter :: rest => ascii_lower letter :: rest | [] => [] end
  else path.

Definition to_backslash (path : bytes) : bytes :=
  if negb (is_verbatim (prefix (root path Windows))) then replace path slash backslash else path.

(** ** Names and their spelling *)

(** What [keep_name] keeps, of the names alone. *)
Definition fold_name (dd : DotDot) (stop : bool) (kept : list bytes) (name : bytes) : list bytes :=
  if decide (name = dot) then kept
  else if decide (name = dot_dot ∧ dd = Fold) then
    match last kept with
    | Some back =>
        if decide (back = dot_dot) then (if stop then kept else kept ++ [name])
        else take (length kept - 1) kept
    | None => if stop then kept else kept ++ [name]
    end
  else kept ++ [name].

Definition fold_names (dd : DotDot) (stop : bool) (kept ws : list bytes) : list bytes :=
  foldl (fold_name dd stop) kept ws.

Lemma fold_names_cons dd stop kept w ws :
  fold_names dd stop kept (w :: ws) = fold_names dd stop (fold_name dd stop kept w) ws.
Proof. done. Qed.

Lemma fold_names_app dd stop kept a b :
  fold_names dd stop kept (a ++ b) = fold_names dd stop (fold_names dd stop kept a) b.
Proof. apply foldl_app. Qed.

Lemma keep_fold p dd stop kept its :
  deref p <$> foldl (keep_name p dd stop) kept its = fold_names dd stop (deref p <$> kept) (deref p <$> its).
Proof.
  revert kept. induction its as [|it its IH]; intros kept; [done|]. cbn [foldl fmap list_fmap].
  unfold fold_names. cbn [foldl]. fold (fold_names dd stop). rewrite IH. f_equal.
  unfold keep_name, fold_name. destruct (decide (deref p it = dot)) as [->|Hd];
    [by rewrite bool_decide_true|]. rewrite bool_decide_false by done.
  rewrite fmap_last, length_fmap. destruct (decide (deref p it = dot_dot ∧ dd = Fold)) as [[Hn Hf]|Hn].
  - rewrite !bool_decide_true by done. cbn [andb]. destruct (last kept) as [back|]; cbn [fmap option_fmap option_map].
    + destruct (decide (deref p back = dot_dot)) as [Hb|Hb].
      * rewrite bool_decide_true by done. cbn [negb]. destruct stop; [done|]. by rewrite fmap_app.
      * rewrite bool_decide_false by done. cbn [negb]. by rewrite fmap_take.
    + destruct stop; [done|]. by rewrite fmap_app.
  - assert (E : bool_decide (deref p it = dot_dot) && bool_decide (dd = Fold) = false).
    { apply andb_false_iff. destruct (decide (deref p it = dot_dot)); [right|left]; apply bool_decide_eq_false; naive_solver. }
    rewrite E. by rewrite fmap_app.
Qed.

(** Names with separators between them, and before the first unless [first]. *)
Fixpoint spell (first : bool) (sep : byte) (ws : list bytes) : bytes :=
  match ws with
  | [] => []
  | w :: ws' => (if first then [] else [sep]) ++ w ++ spell false sep ws'
  end.

(** The prefix, spelled with one separator. *)
Definition spell_prefix (r : Root) (sep : byte) (style : Style) : bytes :=
  (λ c, if negb (is_verbatim (prefix r)) && is_separator c style then sep else c) <$> root_name r.

(** What [normalize] comes to. *)
Definition normalized (p : bytes) (dd : DotDot) (style : Style) : bytes :=
  let r := root p style in
  let sep := separator_of p r style slash in
  let text := spell_prefix r sep style
    ++ (if decide (directory r = []) then [] else [sep])
    ++ spell true sep (fold_names dd (rooted r) [] (components p style)) in
  if decide (text = []) then dot else text.

(** ** Writing over the path *)

(** Views of [p] in order, from [lo] on, with something between any two. *)
Fixpoint spaced (p : bytes) (lo : nat) (its : list iterator) : Prop :=
  match its with
  | [] => True
  | it :: its' => lo ≤ start it < end_ it ∧ end_ it ≤ length p ∧ spaced p (S (end_ it)) its'
  end.

Lemma spaced_le p lo lo' its : lo' ≤ lo → spaced p lo its → spaced p lo' its.
Proof. intros H. destruct its as [|it its]; [done|]. intros ([] & H2 & H3). split; [lia|done]. Qed.

Lemma spaced_sublist p lo its its' : its' `sublist_of` its → spaced p lo its → spaced p lo its'.
Proof.
  intros H. revert lo. induction H as [|it its' its H IH|it its' its H IH]; intros lo Hs; [done|..].
  - destruct Hs as (H1 & H2 & H3). split; [done|]. split; [done|]. by apply IH.
  - destruct Hs as (H1 & H2 & H3). apply IH. eapply spaced_le; [|done]. lia.
Qed.

Lemma keep_sublist p dd stop kept its :
  foldl (keep_name p dd stop) kept its `sublist_of` kept ++ its.
Proof.
  revert kept. induction its as [|it its IH]; intros kept; [by rewrite app_nil_r|]. cbn [foldl].
  etrans; [apply IH|]. replace (kept ++ it :: its) with ((kept ++ [it]) ++ its) by (by rewrite <- app_assoc).
  apply sublist_app; [|done]. assert (Hk : kept `sublist_of` kept ++ [it]) by (by apply sublist_inserts_r).
  unfold keep_name. destruct (bool_decide _); [done|]. destruct (_ && _); [|done].
  destruct (last kept); [|by destruct stop]. destruct (negb _); [|by destruct stop].
  etrans; [apply sublist_take|done].
Qed.

Lemma iterate_spaced fuel f p e lo :
  e ≤ length p → (∀ c, p !! e = Some c → f c = false ∧ lo ≤ e ∨ lo ≤ S e ∧ f c = true) →
  spaced p lo (iterate fuel f p (increment f p (mkIterator 0 e))).
Proof.
  revert e lo. induction fuel as [|fuel IH]; intros e lo He Hlo; [done|]. cbn [iterate].
  destruct (increment_names f p e He) as (H1 & H2 & H3).
  set (it := increment f p (mkIterator 0 e)) in *. destruct (Nat.eqb_spec (start it) (length p)); [done|].
  destruct H3 as (H3 & _). split; [|split; [done|]].
  - split; [|done]. destruct (lookup_lt_is_Some_2 p e) as [c Hc]; [lia|].
    destruct (Hlo c Hc) as [[_ ?]|[Hl Hf]]; [lia|].
    assert (S e ≤ start it); [|lia]. apply (forward_ge f p e (S e)); [lia|]. intros i Hi.
    assert (i = e) as -> by lia. unfold at_is. by rewrite Hc.
  - apply (IH (end_ it)); [done|]. intros c Hc. right. split; [done|].
    apply forward_stop in Hc. by apply negb_false_iff in Hc.
Qed.

Lemma views_spaced p style : spaced p (root_end (root p style)) (views p style).
Proof.
  apply iterate_spaced; [apply root_end_bound|]. intros c Hc. left. split; [|done].
  destruct (root_split p style) as (_ & _ & H). apply H. unfold after_root. by rewrite lookup_drop, Nat.add_0_r.
Qed.

(** [chars] is [p] but for what has been written before [n]. *)
Definition written (p chars : bytes) (n : nat) : Prop := length chars = length p ∧ drop n chars = drop n p.

Lemma written_le p chars n n' : n ≤ n' → written p chars n → written p chars n'.
Proof.
  intros H [H1 H2]. split; [done|]. replace n' with (n + (n' - n)) by lia. rewrite <- !drop_drop. by rewrite H2.
Qed.

Lemma written_put p chars n c :
  n < length p → written p chars n →
  written p (<[n := c]> chars) (n + 1) ∧ take (n + 1) (<[n := c]> chars) = take n chars ++ [c].
Proof.
  intros Hn [H1 H2]. split; [split|].
  - by rewrite length_insert.
  - rewrite drop_insert_lt by lia. rewrite <- !drop_drop. by rewrite H2.
  - replace (n + 1) with (S n) by lia.
    rewrite (take_S_r _ n c); [|apply list_lookup_insert_eq; lia]. by rewrite take_insert_ge by lia.
Qed.

Lemma written_move p chars n it :
  n ≤ start it < end_ it → end_ it ≤ length p → written p chars n →
  let size := end_ it - start it in
  written p (memmove chars n (start it) size) (n + size) ∧
  take (n + size) (memmove chars n (start it) size) = take n chars ++ deref p it.
Proof.
  intros Hn He [H1 H2] size. unfold memmove.
  assert (Hs : substr chars (start it) size = deref p it).
  { unfold deref, substr. fold size. f_equal. replace (start it) with (n + (start it - n)) by lia.
    rewrite <- !drop_drop. by rewrite H2. }
  rewrite Hs.
  assert (Hd : length (deref p it) = size) by (unfold deref, substr; rewrite length_take, length_drop; lia).
  assert (Ht : length (take n chars) = n) by (rewrite length_take; lia).
  split; [split|].
  - rewrite !length_app, length_drop, Hd, Ht. lia.
  - rewrite app_assoc, drop_app_length' by (rewrite length_app; lia).
    rewrite <- !drop_drop. by rewrite H2.
  - rewrite app_assoc, take_app_length' by (rewrite length_app; lia). done.
Qed.

Lemma write_names_spec (kept : list iterator) (first : bool) sep p chars n :
  spaced p (if first then n else n + 1) kept → written p chars n →
  let ws := deref p <$> kept in
  let '(chars', n') := write_names kept first sep chars n in
  n' = n + length (spell first sep ws) ∧ take n' chars' = take n chars ++ spell first sep ws ∧
  length chars' = length p.
Proof.
  revert first chars n. induction kept as [|it kept IH]; intros first chars n Hs Hw.
  - cbn. rewrite app_nil_r. split; [lia|]. split; [done|]. apply Hw.
  - cbn [fmap list_fmap spell write_names]. destruct Hs as (H1 & H2 & H3).
    set (n1 := if first then n else n + 1).
    set (chars1 := if first then chars else <[n := sep]> chars).
    assert (Hw1 : written p chars1 n1 ∧ take n1 chars1 = take n chars ++ (if first then [] else [sep])).
    { unfold chars1, n1. destruct first; [by rewrite app_nil_r|]. apply written_put; [lia|done]. }
    destruct Hw1 as [Hw1 Ht1].
    destruct (written_move p chars1 n1 it) as [Hw2 Ht2]; [destruct first; unfold n1; lia|done|done|].
    specialize (IH false (memmove chars1 n1 (start it) (end_ it - start it)) (n1 + (end_ it - start it))).
    assert (E : (if first then (chars, n) else (<[n:=sep]> chars, n + 1)) = (chars1, n1)) by (by destruct first).
    rewrite E. destruct (write_names _ false _ _ _) as [chars' n'].
    destruct IH as (I1 & I2 & I3); [eapply spaced_le; [|exact H3]; destruct first; unfold n1; lia|done|].
    assert (Hd : length (deref p it) = end_ it - start it)
      by (unfold deref, substr; rewrite length_take, length_drop; lia).
    split; [|split; [|done]].
    + rewrite I1, !length_app, Hd. destruct first; unfold n1; cbn [length]; lia.
    + rewrite I2, Ht2, Ht1. by rewrite <- !app_assoc.
Qed.

Lemma write_prefix_spec n i (chars : bytes) g :
  i + n ≤ length chars →
  write_prefix n i chars g = take i chars ++ (g <$> take n (drop i chars)) ++ drop (i + n) chars.
Proof.
  revert i chars. induction n as [|n IH]; intros i chars H; cbn [write_prefix].
  - rewrite Nat.add_0_r. rewrite take_0, fmap_nil, app_nil_l. by rewrite take_drop.
  - rewrite IH by (rewrite length_insert; lia).
    destruct (lookup_lt_is_Some_2 chars i) as [c Hc]; [lia|].
    rewrite list_lookup_total_alt, Hc. cbn [default from_option id].
    rewrite (take_S_r _ i (g c)) by (apply list_lookup_insert_eq; lia).
    rewrite take_insert_ge by lia. rewrite !drop_insert_lt by lia. rewrite (drop_S chars c i Hc).
    cbn [take fmap list_fmap]. rewrite <- !app_assoc. cbn [app]. by replace (S i + n) with (i + S n) by lia.
Qed.

(** [normalize] and what it comes to. *)
Lemma normalize_eq path dd style :
  normalize path dd style = if decide (path = []) then [] else normalized path dd style.
Proof.
  unfold normalize, normalized. case_decide as Hp; [subst; done|]. rewrite bool_decide_false by done.
  set (r := root path style). set (sep := separator_of path r style slash).
  set (n := length (root_name r)). destruct (root_end_forward path style) as [Hn _]. fold r n in Hn.
  pose proof (root_end_bound path style) as He. fold r in He. unfold root_end in He. fold n in He.
  set (g := λ c, if negb (is_verbatim (prefix r)) && is_separator c style then sep else c).
  assert (Hwp : write_prefix n 0 path g = (g <$> root_name r) ++ drop n path).
  { rewrite write_prefix_spec by exact Hn. rewrite take_0, drop_0, app_nil_l, Nat.add_0_l.
    pose proof (root_name_prefix path style) as Hpre. fold r n in Hpre. by rewrite <- Hpre. }
  set (kept := foldl _ [] _).
  assert (Hk : deref path <$> kept = fold_names dd (rooted r) [] (components path style))
    by (unfold kept; by rewrite keep_fold).
  assert (Hsp : spaced path (root_end r) kept).
  { eapply spaced_sublist; [|apply views_spaced]. etrans; [apply keep_sublist|done]. }
  assert (Hlp : length (g <$> root_name r) = n) by (by rewrite length_fmap).
  assert (Hw0 : written path (write_prefix n 0 path g) n ∧ take n (write_prefix n 0 path g) = g <$> root_name r).
  { rewrite Hwp. split; [split|].
    - rewrite length_app, Hlp, length_drop. lia.
    - by rewrite drop_app_length' by done.
    - by rewrite take_app_length' by done. }
  destruct Hw0 as [Hw0 Ht0].
  set (m := if decide (directory r = []) then n else n + 1).
  assert (H1 : ∃ chars1, (if negb (bool_decide (directory r = [])) then (<[n:=sep]> (write_prefix n 0 path g), n + 1)
      else (write_prefix n 0 path g, n)) = (chars1, m) ∧ written path chars1 m ∧
    take m chars1 = (g <$> root_name r) ++ (if decide (directory r = []) then [] else [sep])).
  { unfold m. destruct (decide (directory r = [])) as [Hd|Hd].
    - rewrite bool_decide_true by done. eexists. split; [done|]. by rewrite app_nil_r.
    - rewrite bool_decide_false by done. eexists. split; [done|]. rewrite <- Ht0. apply written_put; [|done].
      destruct (directory r); [done|]. cbn [length] in He. lia. }
  destruct H1 as (chars1 & -> & Hw1 & Ht1).
  assert (Hm : m ≤ root_end r).
  { unfold m, root_end. fold n. case_decide as Hd; [lia|]. destruct (directory r); [done|]. cbn [length]. lia. }
  pose proof (write_names_spec kept true sep path chars1 m) as Hwn.
  destruct (write_names kept true sep chars1 m) as [chars2 l].
  destruct Hwn as (E1 & E2 & E3); [by eapply spaced_le|done|]. rewrite Hk in E1, E2.
  rewrite Ht1 in E2. unfold spell_prefix. fold g.
  assert (Hm' : m = length ((g <$> root_name r) ++ (if decide (directory r = []) then [] else [sep]))).
  { rewrite length_app, Hlp. unfold m. case_decide; cbn [length]; lia. }
  set (text := (g <$> root_name r) ++ _). assert (Htext : take l chars2 = text)
    by (rewrite E2; unfold text; by rewrite <- app_assoc).
  assert (Hlen : l = length text).
  { rewrite E1, Hm'. unfold text. by rewrite !length_app, Nat.add_assoc. }
  destruct (Nat.eqb_spec l 0) as [Hl|Hl].
  - rewrite decide_True; [done|]. apply nil_length_inv. lia.
  - rewrite decide_False; [done|]. intros Ht. rewrite Ht in Hlen. done.
Qed.

(** C31. [normalize] writes over the path it reads and spoils none of it: what
    it leaves is the path's prefix, its root directory and the names it keeps,
    each as it was, with one separator between them, or [.] where that is
    nothing; an empty path stays empty. *)
Theorem normalize_in_place path dd style :
  normalize path dd style = if decide (path = []) then [] else normalized path dd style.
Proof. apply normalize_eq. Qed.

(** ** POSIX paths *)

Abbreviation is_slash := (λ c, separates c Posix NoPrefix).

Lemma is_slash_eq c : is_slash c = true ↔ c = slash.
Proof.
  unfold separates, is_separator. cbn [is_verbatim]. rewrite bool_decide_false by done.
  cbn [andb]. rewrite orb_false_r. apply byte_eqb_spec.
Qed.

Lemma parts_posix p : parts p Posix = is_slash.
Proof. done. Qed.

Lemma root_posix p :
  prefix (root p Posix) = NoPrefix ∧ root_name (root p Posix) = [] ∧
  directory (root p Posix) = take (skip_while is_slash p) p.
Proof.
  split; [done|]. split; [done|]. cbn. unfold substr, forward. cbn [drop Nat.add]. by rewrite Nat.sub_0_r.
Qed.

(** The names of a POSIX path are those of all of it. *)
Lemma components_posix p : components p Posix = names is_slash p.
Proof.
  rewrite components_names, parts_posix. destruct (root_split p Posix) as (E & Hd & _).
  rewrite E at 2. cbn [root_name root no_root app]. by rewrite names_seps.
Qed.

(** Whether a path starts at a root directory. *)
Definition starts_slash (p : bytes) : bool := at_is is_slash p 0.

Lemma rooted_posix p : rooted (root p Posix) = starts_slash p.
Proof.
  unfold rooted. destruct (root_posix p) as (-> & _ & ->). cbn [implies_root orb]. unfold starts_slash, at_is.
  destruct p as [|c p]; [done|]. cbn [skip_while lookup list_lookup].
  by destruct (separates c Posix NoPrefix).
Qed.

Lemma absolute_posix p : is_absolute p Posix = starts_slash p.
Proof. rewrite <- rooted_posix. done. Qed.

Lemma separator_posix p r fallback :
  prefix r = NoPrefix → separator_of p r Posix fallback = slash ∨ separator_of p r Posix fallback = fallback.
Proof.
  intros Hr. unfold separator_of. rewrite Hr. cbn [is_verbatim].
  destruct (find_index _ p) as [i|] eqn:E; [left|by right]. 
  assert (H : ∀ s i, find_index (λ c, is_separator c Posix) s = Some i → s !!! i = slash).
  { clear. induction s as [|c s IH]; intros i E; [done|]. cbn [find_index] in E.
    destruct (is_separator c Posix) eqn:Ec.
    - injection E as <-. cbn. by apply is_slash_eq.
    - destruct (find_index _ s) as [j|]; [|done]. injection E as <-. by apply IH. }
  by apply H.
Qed.

Lemma spell_names first ws :
  Forall (is_name is_slash) ws → names is_slash (spell first slash ws) = ws.
Proof.
  assert (Hsep : ∀ ws, names is_slash (spell false slash ws) = names is_slash (spell true slash ws)).
  { intros [|w l]; [done|]. cbn [spell app]. by apply names_sep. }
  intros H. induction H as [|w ws Hw Hws IH] in first |- *; [by destruct first|].
  assert (E : names is_slash (spell true slash (w :: ws)) = w :: ws).
  { cbn [spell app]. rewrite names_word; [by rewrite IH|done|]. intros c. destruct ws as [|v ws]; [done|].
    cbn [spell app lookup list_lookup]. by intros [= <-]. }
  destruct first; [done|]. by rewrite Hsep.
Qed.

Lemma spell_nil ws first sep : Forall (is_name is_slash) ws → spell first sep ws = [] ↔ ws = [].
Proof.
  intros H. split; [|by intros ->]. destruct H as [|w ws [Hw _] _]; [done|]. cbn.
  destruct first; [|done]. by destruct w.
Qed.

Lemma spell_start ws sep : Forall (is_name is_slash) ws → starts_slash (spell true sep ws) = false.
Proof.
  destruct 1 as [|w ws [Hw Hc] _]; [done|]. cbn [spell app]. destruct w as [|c w]; [done|].
  inversion_clear Hc. unfold starts_slash, at_is. done.
Qed.

Lemma dot_name : is_name is_slash dot ∧ is_name is_slash dot_dot.
Proof. split; (split; [done|]); repeat constructor. Qed.

(** What is kept of names are names. *)
Lemma fold_names_forall (P : bytes → Prop) dd stop kept ws :
  Forall P kept → Forall P ws → Forall P (fold_names dd stop kept ws).
Proof.
  revert kept. induction ws as [|w ws IH]; intros kept Hk Hw; [done|]. inversion_clear Hw.
  apply IH; [|done]. unfold fold_name. repeat case_decide; [done| |].
  - destruct (last kept); [case_decide|]; try (destruct stop; [done|]); try (apply Forall_app; auto).
    by apply Forall_take.
  - apply Forall_app; auto.
Qed.

(** What [normalize] makes of a POSIX path. *)
Definition posix_text (rooted : bool) (ws : list bytes) : bytes :=
  let text := (if rooted then [slash] else []) ++ spell true slash ws in
  if decide (text = []) then dot else text.

Lemma normalized_posix p dd :
  normalized p dd Posix =
  posix_text (starts_slash p) (fold_names dd (starts_slash p) [] (names is_slash p)).
Proof.
  unfold normalized, posix_text. rewrite rooted_posix, components_posix.
  assert (Hs : separator_of p (root p Posix) Posix slash = slash)
    by (destruct (separator_posix p (root p Posix) slash); done).
  rewrite Hs. unfold spell_prefix. destruct (root_posix p) as (_ & -> & Hd). rewrite fmap_nil, app_nil_l.
  assert (E : (if decide (directory (root p Posix) = []) then [] else [slash])
            = (if starts_slash p then [slash] else [])).
  { pose proof (rooted_posix p) as Hr. unfold rooted in Hr. cbn [implies_root prefix root no_root orb] in Hr.
    case_decide as Hn.
    - rewrite bool_decide_true in Hr by done. by rewrite <- Hr.
    - rewrite bool_decide_false in Hr by done. by rewrite <- Hr. }
  by rewrite E.
Qed.

Lemma posix_text_names b ws :
  Forall (is_name is_slash) ws →
  starts_slash (posix_text b ws) = b ∧ posix_text b ws ≠ [] ∧
  names is_slash (posix_text b ws) = if decide (b = false ∧ ws = []) then [dot] else ws.
Proof.
  intros H. unfold posix_text. destruct b.
  - cbn [app]. rewrite decide_False by done. split; [done|]. split; [done|].
    rewrite decide_False by naive_solver. rewrite names_sep by done. by apply spell_names.
  - cbn [app]. case_decide as Hn.
    + apply spell_nil in Hn; [|done]. subst ws. by rewrite decide_True by done.
    + split; [by apply spell_start|]. split; [done|]. rewrite decide_False; [by apply spell_names|].
      intros [_ ->]. done.
Qed.

(** A lone [.] comes to nothing. *)
Lemma fold_posix_text dd b ws :
  Forall (is_name is_slash) ws →
  fold_names dd b [] (names is_slash (posix_text b ws)) = fold_names dd b [] ws.
Proof. intros H. destruct (posix_text_names b ws H) as (_ & _ & ->). by case_decide as Hb; [destruct Hb as [-> ->]|]. Qed.

(** ** Normal forms *)

(** No [.], and, folded, [..] only at the start of a path without a root. *)
Definition clean (dd : DotDot) (stop : bool) (ws : list bytes) : Prop :=
  dot ∉ ws ∧
  (dd = Fold → ∀ a b, ws = a ++ dot_dot :: b → stop = false ∧ Forall (λ w, w = dot_dot) a).

Lemma clean_prefix dd stop a b : clean dd stop (a ++ b) → clean dd stop a.
Proof.
  intros [H1 H2]. split; [set_solver|]. intros Hd x y ->. apply (H2 Hd x (y ++ b)).
  by rewrite <- app_assoc.
Qed.

Lemma clean_snoc dd stop ws w :
  clean dd stop ws → w ≠ dot →
  (dd = Fold → w = dot_dot → stop = false ∧ Forall (λ w, w = dot_dot) ws) → clean dd stop (ws ++ [w]).
Proof.
  intros [H1 H2] Hw Hd. split; [set_solver|]. intros Hf a b E.
  destruct b as [|x b _] using rev_ind.
  - apply app_inj_tail in E as [-> ->]. by apply Hd.
  - rewrite app_comm_cons, app_assoc in E. apply app_inj_tail in E as [-> _]. by eapply H2.
Qed.

Lemma clean_last stop ws :
  clean Fold stop ws → last ws = Some dot_dot → stop = false ∧ Forall (λ w, w = dot_dot) ws.
Proof.
  intros [_ H] [l ->]%last_Some. destruct (H eq_refl l [] eq_refl) as [-> Hl]. split; [done|].
  apply Forall_app. split; [done|]. by constructor.
Qed.

Lemma fold_name_clean dd stop kept w :
  clean dd stop kept → clean dd stop (fold_name dd stop kept w).
Proof.
  intros Hc. unfold fold_name. destruct (decide (w = dot)) as [|Hw]; [done|].
  destruct (decide (w = dot_dot ∧ dd = Fold)) as [[-> ->]|Hn].
  - destruct (last kept) as [back|] eqn:El.
    + destruct (decide (back = dot_dot)) as [->|Hb].
      * destruct stop; [done|]. apply clean_snoc; [done|done|]. intros _ _. by apply clean_last.
      * apply (clean_prefix _ _ _ (drop (length kept - 1) kept)). by rewrite take_drop.
    + apply last_None in El as ->. destruct stop; [done|]. by apply clean_snoc.
  - apply clean_snoc; [done|done|]. intros -> ->. by destruct Hn.
Qed.

Lemma fold_names_clean dd stop kept ws : clean dd stop kept → clean dd stop (fold_names dd stop kept ws).
Proof. revert kept. induction ws as [|w ws IH]; intros kept H; [done|]. apply IH. by apply fold_name_clean. Qed.

Lemma clean_nil dd stop : clean dd stop [].
Proof. split; [apply not_elem_of_nil|]. intros _ a b E. by destruct a. Qed.

Lemma fold_clean dd stop kept ws :
  clean dd stop (kept ++ ws) → fold_names dd stop kept ws = kept ++ ws.
Proof.
  revert kept. induction ws as [|w ws IH]; intros kept Hc; [by rewrite app_nil_r|].
  assert (E : fold_name dd stop kept w = kept ++ [w]).
  { destruct Hc as [H1 H2]. unfold fold_name. rewrite decide_False by set_solver.
    case_decide as Hd; [|done]. destruct Hd as [-> ->]. destruct (H2 eq_refl kept ws eq_refl) as [-> Hk].
    destruct (last kept) as [back|] eqn:El; [|done]. rewrite decide_True; [done|].
    apply last_Some in El as [l ->]. apply Forall_app in Hk as [_ Hk]. by inversion_clear Hk. }
  change (fold_names dd stop (fold_name dd stop kept w) ws = kept ++ w :: ws).
  rewrite E, IH; by rewrite <- app_assoc.
Qed.

(** A POSIX path normalized has the root directory the path had, if any,
    and the names left of its names in order, without [.] and, folded, without
    a [..] after a name or at a root; it never is empty unless the path was,
    and normalizing it again changes nothing. *)
Theorem normalize_posix p dd :
  p ≠ [] →
  let q := normalize p dd Posix in
  let ws := fold_names dd (starts_slash p) [] (components p Posix) in
  has_root q Posix = has_root p Posix ∧ q ≠ [] ∧
  components q Posix = (if decide (has_root p Posix = false ∧ ws = []) then [dot] else ws) ∧
  clean dd (has_root p Posix) ws ∧
  normalize q dd Posix = q.
Proof.
  intros Hp q ws. unfold has_root. rewrite !rooted_posix.
  assert (Hv : Forall (is_name is_slash) ws)
    by (unfold ws; rewrite components_posix; apply fold_names_forall; [done|apply names_valid]).
  assert (Hq : q = posix_text (starts_slash p) ws).
  { unfold q. rewrite normalize_eq, decide_False, normalized_posix by done. unfold ws. by rewrite components_posix. }
  destruct (posix_text_names (starts_slash p) ws Hv) as (T1 & T2 & T3). rewrite <- Hq in T1, T2, T3.
  split; [done|]. split; [done|]. rewrite components_posix. split; [done|].
  assert (Hc : clean dd (starts_slash p) ws) by apply fold_names_clean, clean_nil. split; [done|].
  rewrite normalize_eq, decide_False, normalized_posix, T1 by done. rewrite Hq at 2.
  rewrite Hq, fold_posix_text by done. by rewrite (fold_clean _ _ [] ws).
Qed.

Lemma normalize_posix_witness :
  components (normalize (lit "/a//./b/../c/") Fold Posix) Posix = [lit "a"; lit "c"] ∧
  normalize (normalize (lit "/a//./b/../c/") Fold Posix) Fold Posix = normalize (lit "/a//./b/../c/") Fold Posix.
Proof.
  destruct (normalize_posix (lit "/a//./b/../c/") Fold ltac:(vm_compute; discriminate))
    as (_ & _ & H & _ & Hi). split; [|exact Hi]. rewrite H. vm_compute. reflexivity.
Defined.

(** ** Joining POSIX paths *)

Lemma last_separator sep base :
  sep = slash → foldl (λ sep c, if is_separator c Posix then c else sep) sep base = slash.
Proof.
  revert sep. induction base as [|c base IH]; intros sep H; [done|]. cbn [foldl]. apply IH.
  destruct (is_separator c Posix) eqn:E; [by apply is_slash_eq|done].
Qed.

Lemma push_posix_eq base p :
  base ≠ [] → starts_slash p = false →
  push base p Posix = base ++ (if decide (p = [] ∨ is_slash (base !!! (length base - 1)) = true) then [] else [slash]) ++ p.
Proof.
  intros Hb Hp. unfold push. rewrite bool_decide_false, absolute_posix, Hp by done. cbn [orb].
  destruct (root_posix p) as (Hp1 & Hp2 & Hp3). destruct (root_posix base) as (Hb1 & Hb2 & _).
  rewrite Hp1, Hb1, Hp2, Hb2. rewrite bool_decide_true by done. cbn [negb andb is_verbatim length drop orb implies_root].
  assert (Hd : directory (root p Posix) = []).
  { rewrite Hp3. unfold starts_slash, at_is in Hp. destruct p as [|c p]; [done|]. cbn [lookup list_lookup] in Hp.
    cbn [skip_while]. by rewrite Hp. }
  rewrite Hd, bool_decide_true by done. cbn [negb].
  assert (Hl : 0 <? length base = true) by (apply Nat.ltb_lt; destruct base; [done|cbn; lia]).
  rewrite Hl. cbn [andb orb]. rewrite andb_true_r.
  rewrite last_separator; [|by destruct (separator_posix p (root p Posix) slash)].
  destruct (decide (p = [])) as [->|Hne].
  - rewrite bool_decide_true by done. cbn [negb andb]. by rewrite decide_True by (by left).
  - rewrite bool_decide_false by done. cbn [negb andb]. destruct (separates (base !!! (length base - 1)) Posix NoPrefix) eqn:E.
    + cbn [negb]. by rewrite decide_True by (by right).
    + cbn [negb]. rewrite decide_False by naive_solver. by rewrite <- app_assoc.
Qed.

Lemma push_posix base p :
  base ≠ [] → starts_slash p = false →
  push base p Posix ≠ [] ∧ starts_slash (push base p Posix) = starts_slash base ∧
  names is_slash (push base p Posix) = names is_slash base ++ names is_slash p.
Proof.
  intros Hb Hp. rewrite push_posix_eq by done. split; [by destruct base|]. split; [by destruct base|].
  case_decide as Hd; [|by apply names_app_sep]. cbn [app]. destruct Hd as [->|Hs]; [by rewrite !app_nil_r|].
  apply names_cut. right. destruct base as [|c b _] using rev_ind; [done|]. exists b, c. split; [done|].
  rewrite length_app in Hs. cbn [length] in Hs. replace (length b + 1 - 1) with (length b) in Hs by lia.
  rewrite list_lookup_total_alt, lookup_app_r, Nat.sub_diag in Hs by lia. done.
Qed.

(** Joining a POSIX path onto another: a relative one goes after it, names
    and all, whatever separators either has where they meet; an absolute one,
    or onto nothing, takes its place.  Popping what was joined, a single name,
    gives back the names there were. *)
Theorem push_correct base p :
  (base = [] ∨ is_absolute p Posix = true → push base p Posix = p) ∧
  (base ≠ [] → is_absolute p Posix = false →
   has_root (push base p Posix) Posix = has_root base Posix ∧
   components (push base p Posix) Posix = components base Posix ++ components p Posix ∧
   (length (components p Posix) = 1 →
    filename (push base p Posix) Posix = default [] (last (components p Posix)) ∧
    components (parent (push base p Posix) Posix) Posix = components base Posix)).
Proof.
  split.
  - intros H. unfold push. destruct (decide (base = [])) as [->|Hb]; [done|].
    destruct H as [|H]; [done|]. rewrite H. by rewrite orb_true_r.
  - rewrite absolute_posix. intros Hb Hp. unfold has_root. rewrite !rooted_posix, !components_posix.
    destruct (push_posix base p Hb Hp) as (H1 & H2 & H3). split; [done|]. split; [done|].
    intros Hl. destruct (names is_slash p) as [|w [|]] eqn:Ep; try done. cbn [last default from_option id].
    set (q := push base p Posix) in *.
    assert (Hf : filename q Posix = w).
    { rewrite filename_last, <- components_names, components_posix, H3, last_snoc. done. }
    split; [done|]. destruct (parent_step q Posix) as [_ Hc].
    + rewrite Hf. pose proof (names_valid is_slash p) as Hv. rewrite Ep in Hv. by inversion_clear Hv as [|?? []].
    + rewrite !components_posix, H3, Hf in Hc. by apply app_inj_tail in Hc as [-> _].
Qed.

(** ** From one path to another *)

Lemma append_names sep out ws :
  Forall (is_name is_slash) ws →
  foldl (append_name sep) out ws = out ++ spell (bool_decide (out = [])) sep ws.
Proof.
  intros H. revert out. induction H as [|w ws [Hw _] Hws IH]; intros out; [by rewrite app_nil_r|].
  cbn [foldl spell]. rewrite IH. unfold append_name. destruct (decide (out = [])) as [->|Ho].
  - rewrite bool_decide_true by done. cbn [app]. by rewrite bool_decide_false.
  - rewrite bool_decide_false by done. rewrite bool_decide_false; [by rewrite <- !app_assoc|].
    intros E. apply app_nil in E as [E _]. by apply app_nil in E as [-> _].
Qed.

Lemma append_climbs_spell sep n first out :
  append_climbs sep n first out = out ++ spell first sep (repeat dot_dot n).
Proof.
  revert first out. induction n as [|n IH]; intros first out; [by rewrite app_nil_r|].
  cbn [append_climbs repeat spell]. rewrite IH. destruct first; by rewrite <- !app_assoc.
Qed.

Lemma spell_app first sep a b :
  spell first sep (a ++ b) = spell first sep a ++ spell (first && bool_decide (a = [])) sep b.
Proof.
  revert first. induction a as [|w a IH]; intros first; [by rewrite bool_decide_true, andb_true_r by done|].
  cbn [app spell]. rewrite IH. cbn [andb]. rewrite bool_decide_false by done. rewrite andb_false_r. by rewrite <- !app_assoc.
Qed.

Lemma common_names_spec a b :
  common_names a b ≤ length a ∧ take (common_names a b) a = take (common_names a b) b.
Proof.
  revert b. induction a as [|x a IH]; intros [|y b]; cbn; [split; [lia|done]..|].
  case_bool_decide; [|split; [lia|done]]. subst. destruct (IH b) as [H1 H2]. split; [lia|]. cbn. by rewrite H2.
Qed.

(** Climbing out of the names of [b] leaves what was before them. *)
Lemma climbs_fold stop kept b n :
  climbs_of b = Some n → fold_names Fold stop kept (b ++ repeat dot_dot n) = kept.
Proof.
  revert kept n. induction b as [|x b IH]; intros kept n E; cbn [climbs_of] in E.
  - by injection E as <-.
  - destruct (decide (x = dot_dot)) as [Hx|Hx]; [by rewrite bool_decide_true in E|].
    rewrite bool_decide_false in E by done. destruct (climbs_of b) as [m|]; [|done]. injection E as <-.
    cbn [app]. rewrite fold_names_cons. destruct (decide (x = dot)) as [->|Hd].
    + rewrite bool_decide_true by done. unfold fold_name. rewrite decide_True by done. by apply IH.
    + rewrite bool_decide_false by done. cbn [Nat.add repeat]. rewrite repeat_cons, app_assoc, fold_names_app.
      unfold fold_name. rewrite decide_False, decide_False by naive_solver. rewrite IH by done.
      rewrite fold_names_cons. cbn [fold_names foldl].
      unfold fold_name. rewrite decide_False, decide_True by done. rewrite last_snoc, decide_False by done.
      rewrite length_app. cbn [length]. replace (length kept + 1 - 1) with (length kept) by lia.
      by rewrite take_app_length.
Qed.

(** What [relative] writes. *)
Lemma relative_posix p base r :
  relative p base Posix = Some r →
  let a := names is_slash p in
  let b := names is_slash base in
  let common := common_names a b in
  starts_slash p = starts_slash base ∧
  ∃ climbs, climbs_of (drop common b) = Some climbs ∧
    Forall (is_name is_slash) (repeat dot_dot climbs ++ drop common a) ∧
    r = posix_text false (repeat dot_dot climbs ++ drop common a).
Proof.
  intros E a b common. unfold relative, same_root in E. rewrite !rooted_posix, !components_posix in E.
  destruct (negb _) eqn:Er; [done|]. apply negb_false_iff, andb_prop in Er as [_ Er].
  apply eqb_prop in Er. split; [done|]. fold a b common in E.
  destruct (climbs_of (drop common b)) as [n|]; [|done]. exists n. split; [done|].
  assert (Hv : Forall (is_name is_slash) (repeat dot_dot n ++ drop common a)).
  { apply Forall_app. split; [|apply Forall_drop, names_valid]. apply Forall_forall. intros w Hw.
    apply list_elem_of_In, repeat_spec in Hw as ->. apply dot_name. }
  split; [done|].
  destruct (common_names_spec a b) as [Hc _]. fold common in Hc. unfold posix_text. rewrite app_nil_l.
  destruct (_ && _) eqn:E0.
  - apply andb_prop in E0 as [->%Nat.eqb_eq ->%Nat.eqb_eq]. injection E as <-. rewrite drop_all. done.
  - injection E as <-. rewrite append_climbs_spell, app_nil_l.
    rewrite append_names by (apply Forall_drop, names_valid).
    assert (Hs : separator_of p (root p Posix) Posix (separator_of base (root base Posix) Posix slash) = slash).
    { destruct (separator_posix base (root base Posix) slash eq_refl) as [-> | ->];
        by destruct (separator_posix p (root p Posix) slash eq_refl). }
    rewrite Hs, decide_False.
    + rewrite spell_app. cbn [andb]. f_equal. f_equal. apply bool_decide_ext. destruct n; [done|]. cbn. done.
    + intros Hn. apply spell_nil in Hn; [|done]. apply app_nil in Hn as [Hn1 Hn2].
      apply andb_false_iff in E0 as [E0|E0]; apply Nat.eqb_neq in E0; [by destruct n|].
      apply (f_equal length) in Hn2. rewrite length_drop in Hn2. cbn in Hn2. lia.
Qed.



(** ** Paths under others *)

Lemma views_length p style : length (views p style) = length (components p style).
Proof. unfold components. by rewrite length_fmap. Qed.

(** The names of a POSIX path from a view of it on. *)
Lemma drop_view_names p i it :
  views p Posix !! i = Some it →
  starts_slash (drop (start it) p) = false ∧ names is_slash (drop (start it) p) = drop i (components p Posix).
Proof.
  unfold components, views, begin. rewrite parts_posix.
  pose proof (root_end_bound p Posix) as He. revert He. generalize (root_end (root p Posix)). intros e He.
  assert (Hf : length p - e < S (length p)) by lia. revert Hf. generalize (S (length p)). intros fuel Hf.
  change (increment is_slash p (mkIterator e e)) with (increment is_slash p (mkIterator 0 e)).
  revert e i He Hf. induction fuel as [|fuel IH]; intros e i He Hf Hit; [lia|]. cbn [iterate] in *.
  destruct (increment_names is_slash p e He) as (H1 & H2 & H3).
  set (cur := increment is_slash p (mkIterator 0 e)) in *. destruct (Nat.eqb (start cur) (length p)); [done|].
  destruct H3 as (H3 & Hw & Hn). destruct i as [|i]; cbn in Hit.
  - injection Hit as <-. cbn [drop]. rewrite fmap_cons.
    rewrite (iterate_names fuel is_slash p _ (end_ cur)) by (done || lia). rewrite <- Hn.
    split.
    + unfold starts_slash, at_is. destruct (drop (start cur) p !! 0) as [d|] eqn:Ed; [|done].
      rewrite lookup_drop, Nat.add_0_r in Ed. by apply (forward_stop is_slash p e).
    + rewrite (drop_forward is_slash p e), names_seps; [done|]. apply forall_drop_take.
      intros k d Hd Hk. by apply (forward_all is_slash p e k).
  - rewrite fmap_cons. cbn [drop]. by apply (IH (end_ cur)); [lia|lia|].
Qed.

(** [p] lies within [ancestor] just where their roots agree and the
    components of [ancestor] are the first ones of [p], of a Windows path as of
    a POSIX one; what [strip_prefix] leaves of a POSIX path are the components
    after them, and joined onto [ancestor] it names the path again. *)
Theorem strip_prefix_correct p ancestor style :
  (is_within p ancestor style = true ↔
   same_root (root p style) (root ancestor style) style = true ∧
   components ancestor style `prefix_of` components p style) ∧
  (style = Posix → ∀ rest, strip_prefix p ancestor style = Some rest →
   is_absolute rest Posix = false ∧
   components p Posix = components ancestor Posix ++ components rest Posix ∧
   (ancestor ≠ [] → components (push ancestor rest Posix) Posix = components p Posix)).
Proof.
  assert (Hpre : ∀ a l : list bytes, take (length a) l = a ↔ a `prefix_of` l).
  { intros a l. split; [|intros [k ->]; apply take_app_length]. intros E. exists (drop (length a) l).
    rewrite <- E at 1. by rewrite take_drop. }
  split.
  - unfold is_within, strip_prefix. destruct (same_root _ _ _) eqn:Es; cbn [negb]; [|split; [done|by intros []]].
    destruct (bool_decide_reflect (take (length (components ancestor style)) (components p style) = components ancestor style)) as [Ht|Ht].
    + pose proof (proj1 (Hpre _ _) Ht) as Hp. pose proof (prefix_length _ _ Hp).
      destruct (Nat.ltb_spec (length (components p style)) (length (components ancestor style))); [lia|]. cbn [orb negb].
      destruct (Nat.eqb_spec (length (components ancestor style)) (length (components p style))); [done|].
      destruct (lookup_lt_is_Some_2 (views p style) (length (components ancestor style))) as [it ->]; [|done].
      rewrite views_length. lia.
    + rewrite orb_true_r. split; [done|]. intros [_ Hp%Hpre]. done.
  - intros -> rest E. unfold strip_prefix in E. destruct (negb _); [done|].
    destruct (_ || _) eqn:Et; [done|]. apply orb_false_iff in Et as [_ Et].
    apply negb_false_iff, bool_decide_eq_true in Et.
    assert (Hr : starts_slash rest = false ∧
      components rest Posix = drop (length (components ancestor Posix)) (components p Posix)).
    { destruct (Nat.eqb_spec (length (components ancestor Posix)) (length (components p Posix))) as [El|El].
      - injection E as <-. rewrite drop_all, El, drop_all. done.
      - destruct (views p Posix !! _) as [it|] eqn:Ev; [|done]. injection E as <-.
        rewrite (components_posix (drop _ _)). by apply drop_view_names. }
    destruct Hr as [H1 H2]. rewrite absolute_posix. split; [done|].
    assert (H3 : components p Posix = components ancestor Posix ++ components rest Posix)
      by (rewrite H2, <- Et at 1; by rewrite take_drop).
    split; [done|]. intros Ha. rewrite H3, !components_posix. by apply push_posix.
Qed.

Lemma strip_prefix_correct_witness :
  components (lit "/a//b/c/d") Posix = components (lit "/a/b/") Posix ++ components (lit "c/d") Posix.
Proof.
  exact (proj1 (proj2 (proj2 (strip_prefix_correct (lit "/a//b/c/d") (lit "/a/b/") Posix) eq_refl (lit "c/d")
    ltac:(vm_compute; reflexivity)))).
Defined.

(** ** Extensions of POSIX paths *)

(** A filename comes first or after a slash. *)
Lemma filename_after_slash p :
  let s := start (filename_view p Posix) in
  s ≤ length p ∧ (take s p = [] ∨ ∃ b c, take s p = b ++ [c] ∧ is_slash c = true).
Proof.
  intros s. destruct (view_spec p Posix) as ((H1 & H2) & _ & _ & Hc & _). fold s in H1, Hc. cbv zeta in *.
  split; [lia|]. destruct (decide (s = 0)) as [->|Hs]; [by left|]. right.
  destruct (lookup_lt_is_Some_2 p (s - 1)) as [c Ec]; [lia|]. exists (take (s - 1) p), c. split.
  - replace s with (S (s - 1)) at 1 by lia. by apply take_S_r.
  - destruct Hc as [Hc|Hc]; [|by rewrite list_lookup_total_alt, Ec in Hc].
    destruct (root_end_forward p Posix) as [_ He]. destruct (root_posix p) as (Hx & Hy & _).
    rewrite Hx, Hy in He. apply (forward_all is_slash p 0 (s - 1)); [done|]. cbn [length] in He. rewrite <- He. lia.
Qed.

Lemma stem_take p style :
  let name := filename p style in
  stem p style = take (default (length name) (extension_dot name)) name.
Proof. intros name. unfold stem. fold name. destruct (extension_dot name); [done|]. cbn [default from_option id]. rewrite take_ge; done. Qed.

Lemma stem_ne p style : filename p style ≠ [] → stem p style ≠ [].
Proof.
  intros Hn. rewrite stem_take. set (name := filename p style) in *. intros E%(f_equal length).
  rewrite length_take in E. assert (Hl : length name ≠ 0) by (intros Hl; by apply nil_length_inv in Hl).
  destruct (extension_dot name) as [i|] eqn:Ei; cbn [default from_option id length] in E; [|lia].
  assert (i ≠ 0); [|lia]. intros ->. unfold extension_dot in Ei. destruct (_ || _); [done|].
  by destruct (find_last _ name) as [[|]|].
Qed.

Lemma components_before p :
  let name := filename p Posix in
  name ≠ [] →
  components p Posix = names is_slash (take (start (filename_view p Posix)) p) ++ [name].
Proof.
  intros name Hn. set (s := start (filename_view p Posix)).
  destruct (filename_after_slash p) as [Hs Hcut]. fold s in Hs, Hcut.
  destruct (view_spec p Posix) as ((H1 & H2) & Hsep & Hv & _). fold s in H1. cbv zeta in *.
  rewrite components_posix. rewrite <- (take_drop s p) at 1. rewrite names_cut by done. f_equal.
  rewrite <- (take_drop (end_ (filename_view p Posix) - s) (drop s p)), drop_drop.
  replace (s + (end_ (filename_view p Posix) - s)) with (end_ (filename_view p Posix)) by lia.
  change (take _ (drop s p)) with name.
  rewrite names_word; [by rewrite names_only_seps|by split|]. intros c Hc. rewrite Forall_lookup in Hsep.
  by apply (Hsep 0).
Qed.

(** The name [set_extension] writes is one. *)
Lemma new_name p ext :
  filename p Posix ≠ [] → slash ∉ ext →
  is_name is_slash (stem p Posix ++
    (if decide (ext = []) then [] else if starts_with ext dot then ext else dot ++ ext)).
Proof.
  intros Hn Hext. split; [pose proof (stem_ne p Posix Hn); by destruct (stem p Posix)|].
  apply Forall_app. split.
  - rewrite stem_take. destruct (view_spec p Posix) as (_ & _ & Hv & _). by apply Forall_take.
  - assert (He : Forall (λ c, is_slash c = false) ext).
    { apply Forall_forall. intros c Hc. apply not_true_iff_false. intros ->%is_slash_eq. done. }
    case_decide; [constructor|]. destruct (starts_with ext dot); [done|]. by repeat constructor.
Qed.

(** How far a stem reaches. *)
Lemma stem_bound name : default (length name) (extension_dot name) ≤ length name.
Proof.
  destruct (extension_dot name) as [i|] eqn:Ei; cbn [default from_option id]; [|done].
  unfold extension_dot in Ei. destruct (_ || _); [done|].
  destruct (find_last _ name) as [[|j]|] eqn:Ef; try done. injection Ei as <-.
  apply find_last_spec in Ef as [(c & Hc & _) _]. apply lookup_lt_Some in Hc. lia.
Qed.

(** [set_extension] leaves a path without a filename, or whose filename is
    [.] or [..], as it is; of another POSIX path it replaces the extension of
    the last component by the one given, with a single dot before it, or takes
    it away, and keeps the root and the other components. *)
Theorem set_extension_correct p ext :
  slash ∉ ext →
  let name := filename p Posix in
  let '(ok, q) := set_extension p ext Posix in
  let ext' := if decide (ext = []) then [] else if starts_with ext dot then ext else dot ++ ext in
  if ok then
    has_root q Posix = has_root p Posix ∧ filename q Posix = stem p Posix ++ ext' ∧
    ∃ before, components p Posix = before ++ [name] ∧ components q Posix = before ++ [stem p Posix ++ ext']
  else q = p ∧ (name = [] ∨ name = dot ∨ name = dot_dot).
Proof.
  intros Hext name. unfold set_extension. fold name. destruct (_ || _) eqn:Eb.
  { split; [done|]. apply orb_prop in Eb as [Eb|Eb]; [apply orb_prop in Eb as [Eb|Eb]|]; bool_prop; auto. }
  apply orb_false_iff in Eb as [Eb _]. apply orb_false_iff in Eb as [Eb _]. apply bool_decide_eq_false in Eb.
  set (s := start (filename_view p Posix)). destruct (filename_after_slash p) as [Hs Hcut]. fold s in Hs, Hcut.
  set (ext' := if decide (ext = []) then [] else _).
  assert (Hlen : length name = end_ (filename_view p Posix) - s) by apply filename_length.
  assert (Hdrop : name = take (length name) (drop s p)) by (rewrite Hlen; done).
  set (k := default (length name) (extension_dot name)).
  assert (Hstem : stem p Posix = take k name) by apply stem_take.
  assert (Hk : take (s + k) p = take s p ++ take k (drop s p)).
  { rewrite <- (take_drop s p) at 1. rewrite take_app_ge by (rewrite length_take; lia). do 2 f_equal.
    rewrite length_take. lia. }
  pose proof (stem_bound name : k ≤ length name) as Hkl.
  assert (Hk2 : take k (drop s p) = stem p Posix).
  { rewrite Hstem, Hdrop, take_take. f_equal. lia. }
  set (q := if bool_decide (ext = []) then _ else _).
  assert (Hq : q = take s p ++ stem p Posix ++ ext').
  { unfold q, ext'. rewrite Hk, Hk2. destruct (decide (ext = [])) as [He|He].
    - rewrite bool_decide_true by done. by rewrite app_nil_r.
    - rewrite bool_decide_false by done. destruct (starts_with ext dot); by rewrite <- !app_assoc. }
  assert (Hne : stem p Posix ≠ []) by (by apply stem_ne).
  assert (Hw : is_name is_slash (stem p Posix ++ ext')) by (by apply new_name).
  assert (Hnq : components q Posix = names is_slash (take s p) ++ [stem p Posix ++ ext']).
  { rewrite components_posix, Hq, names_cut by done. f_equal.
    rewrite <- (app_nil_r (stem p Posix ++ ext')) at 1. by rewrite names_word. }
  assert (Hnp : components p Posix = names is_slash (take s p) ++ [name]) by (by apply components_before).
  split; [|split; [rewrite filename_last, <- components_names, Hnq, last_snoc; done|by exists (names is_slash (take s p))]].
  unfold has_root. rewrite !rooted_posix, Hq.
  assert (Hsp : p = take s p ++ stem p Posix ++ drop k (drop s p)) by (by rewrite <- Hk2, !take_drop).
  assert (Hst : ∀ x, starts_slash (take s p ++ stem p Posix ++ x) = starts_slash (take s p ++ stem p Posix))
    by (intros x; destruct (take s p); [by destruct (stem p Posix)|done]).
  rewrite Hst, <- (Hst (drop k (drop s p))). by rewrite <- Hsp.
Qed.

Lemma set_extension_correct_witness :
  set_extension (lit "/src/archive.tar.gz") (lit "xz") Posix = (true, lit "/src/archive.tar.xz") ∧
  filename (lit "/src/archive.tar.xz") Posix = stem (lit "/src/archive.tar.gz") Posix ++ lit ".xz".
Proof.
  split; [vm_compute; reflexivity|].
  assert (H := set_extension_correct (lit "/src/archive.tar.gz") (lit "xz")
    ltac:(apply (bool_decide_unpack (slash ∉ lit "xz")); vm_compute; exact I)).
  exact (proj1 (proj2 H)).
Defined.

(** ** A name that looks like a drive *)

(** A relative Windows path whose first names go can end up starting with a
    name that reads as a drive: normalized, [./C:/x] and [a/../C:/x], which
    name something under the current directory, are the absolute [C:/x]. *)
Lemma normalize_makes_drive :
  let p := lit "a/../C:/x" in
  let q := normalize p Fold Windows in
  prefix (root p Windows) = NoPrefix ∧ is_absolute p Windows = false ∧
  q = lit "C:/x" ∧ prefix (root q Windows) = Drive ∧ is_absolute q Windows = true.
Proof. vm_compute. repeat split. Qed.
