(* ===== verification/Glob.v ===== *)
(** Glob patterns taken apart: the parts of src/support/glob_pattern.cpp that
    read a pattern's text, and the character classes of
    include/kotatsu/support/glob_pattern.h.

    A code point is a [Z], an offset a [nat] (the source keeps 32 bits of
    them, which it asserts are enough).  GlobMatch.v matches with what is read
    here. *)

From Stdlib Require Import Strings.Byte ZArith Lia Bool Sorting.Permutation.
From stdpp Require Import prelude strings.
From S2P Require Import Prelude Swar Utf8.
Local Open Scope kota_scope.
Local Open Scope nat_scope.

(** ** Errors *)

Inductive GlobErrorKind :=
| UnmatchedBracket | StrayBackslash | NestedBrace | EmptyBrace | IncompleteBrace | InvalidRange
| MultipleSlash | MultipleStar | TooManyExpansions | InvalidUTF8 | InvalidEscape.

Record GlobError := mkGlobError {
  error_kind : GlobErrorKind;
  error_begin : nat;
  error_end : nat;
  message : bytes;
}.

(** ** Atoms *)

Record UTF8Atom := mkAtom { cp : Z; len : nat }.

Definition invalid_atom_base : Z := 0x110000.

(** The atom at [s[at_]]; callers keep [at_] inside the text. *)
Definition decode_utf8_atom (s : bytes) (at_ : nat) : UTF8Atom :=
  let sequence := decode_utf8 (drop at_ s) in
  if negb (valid sequence) then mkAtom (invalid_atom_base + uval (s !!! at_)) 1
  else mkAtom (code_point sequence) (seq_length sequence).

Fixpoint find_invalid_from (fuel : nat) (s : bytes) (at_ : nat) : option nat :=
  match fuel with
  | O => None
  | S fuel' =>
      if at_ =? length s then None
      else
        let atom := decode_utf8_atom s at_ in
        if (invalid_atom_base <=? cp atom)%Z then Some at_
        else find_invalid_from fuel' s (at_ + len atom)
  end.

Definition find_invalid_utf8 (s : bytes) : option nat := find_invalid_from (S (length s)) s 0.

(** ** The literal head, and escapes *)

Definition wildcards : bytes := lit "?*[{".
Definition special_bytes : bytes := lit "\?*[]{},".
Definition contains (s : bytes) (c : byte) : bool := existsb (λ x, x =?b c) s.

Definition slash : byte := "/"%byte.
Definition backslash : byte := "\"%byte.

Record LiteralHead := mkHead { head_text : bytes; head_end : nat }.

(** [i] is where the loop is, [pattern] what it has still to read. *)
Fixpoint literal_head_from (pattern : bytes) (i : nat) (text : bytes) : LiteralHead :=
  match pattern with
  | [] => mkHead text i
  | c :: rest =>
      if contains wildcards c then mkHead text i
      else if c =?b backslash then
        match rest with
        | [] => mkHead text i
        | d :: rest' =>
            if d =?b slash then mkHead text i else literal_head_from rest' (i + 2) (text ++ [d])
        end
      else literal_head_from rest (i + 1) (text ++ [c])
  end.

Definition literal_head (pattern : bytes) : LiteralHead := literal_head_from pattern 0 [].

Fixpoint escape (literal : bytes) : bytes :=
  match literal with
  | [] => []
  | c :: rest => if contains special_bytes c then backslash :: c :: escape rest else c :: escape rest
  end.

Record GlobRoot := mkGlobRoot { directory : bytes; rest : bytes }.

(** [rfind('/') + 1]: [npos + 1] is [0]. *)
Definition after_last_slash (s : bytes) : nat :=
  match find_last (λ c, c =?b slash) s with Some i => i + 1 | None => 0 end.

Definition split_root (pattern : bytes) : GlobRoot :=
  let head := literal_head pattern in
  let cut := after_last_slash (take (head_end head) pattern) in
  mkGlobRoot (take (after_last_slash (head_text head)) (head_text head)) (drop cut pattern).

(** ** Bracket expressions *)

Definition unmatched (open_ : nat) : GlobError :=
  mkGlobError UnmatchedBracket open_ (open_ + 1) (lit "unmatched `[`").

(** The loop of [scan_bracket]; [s] is the pattern from [j] on. *)
Fixpoint scan_bracket_from (s : bytes) (j open_ : nat) : expected nat GlobError :=
  match s with
  | [] => Err (unmatched open_)
  | c :: s' =>
      if c =?b "]"%byte then Ok j
      else if c =?b backslash then
        match s' with
        | [] => Err (mkGlobError StrayBackslash j (j + 1) (lit "unmatched `[` with stray `\` inside"))
        | _ :: s'' => scan_bracket_from s'' (j + 2) open_
        end
      else scan_bracket_from s' (j + 1) open_
  end.

Definition scan_bracket (s : bytes) (open_ : nat) : expected nat GlobError :=
  let j := open_ + 1 in
  if j =? length s then Err (unmatched open_)
  else
    let j := if (s !!! j =?b "!"%byte) || (s !!! j =?b "^"%byte) then j + 1 else j in
    let j := if negb (j =? length s) && (s !!! j =?b "]"%byte) then j + 1 else j in
    scan_bracket_from (drop j s) j open_.

(** A class member at [it], a backslash before it taken away, and where the
    next one starts. *)
Definition next_member (s : bytes) (it : nat) : Z * nat :=
  let it := if s !!! it =?b backslash then it + 1 else it in
  let atom := decode_utf8_atom s it in
  (cp atom, it + len atom).

(** [{:04X}] of a code point. *)
Definition hex_digits : bytes := lit "0123456789ABCDEF".
Fixpoint hex_from (fuel : nat) (z : Z) (out : bytes) : bytes :=
  match fuel with
  | O => out
  | S fuel' =>
      let out := (hex_digits !!! Z.to_nat (z mod 16)) :: out in
      if (z / 16 =? 0)%Z then out else hex_from fuel' (z / 16) out
  end.
Definition format_04x (z : Z) : bytes :=
  let digits := hex_from 16 z [] in repeat "0"%byte (4 - length digits) ++ digits.

Definition range_message (lo hi : Z) : bytes :=
  lit "`U+" ++ format_04x lo ++ lit "` is larger than `U+" ++ format_04x hi ++ lit "`".

(** The loop over the members: [pending] is one held back, with where it
    began. *)
Fixpoint members_from (fuel : nat) (s : bytes) (it : nat) (pending : option (Z * nat))
  (ranges : list (Z * Z)) : expected (list (Z * Z)) GlobError :=
  match fuel with
  | O => Ok ranges
  | S fuel' =>
      if it =? length s then
        Ok (match pending with Some (p, _) => ranges ++ [(p, p)] | None => ranges end)
      else
        match pending with
        | Some (p, pending_begin) =>
            if (s !!! it =?b "-"%byte) && negb (it + 1 =? length s) then
              let '(hi, it') := next_member s (it + 1) in
              if (hi <? p)%Z then Err (mkGlobError InvalidRange pending_begin it' (range_message p hi))
              else members_from fuel' s it' None (ranges ++ [(p, hi)])
            else
              let '(c, it') := next_member s it in
              members_from fuel' s it' (Some (c, it)) (ranges ++ [(p, p)])
        | None =>
            let '(c, it') := next_member s it in members_from fuel' s it' (Some (c, it)) ranges
        end
  end.

(** [std::ranges::sort] of pairs. *)
Definition pair_le (a b : Z * Z) : bool :=
  ((a.1 <? b.1) || ((a.1 =? b.1) && (a.2 <=? b.2)))%Z.
Fixpoint insert_range (r : Z * Z) (l : list (Z * Z)) : list (Z * Z) :=
  match l with
  | [] => [r]
  | x :: l' => if pair_le r x then r :: l else x :: insert_range r l'
  end.
Definition sort_ranges (l : list (Z * Z)) : list (Z * Z) := foldr insert_range [] l.

(** A range, and the ranges merged before it. *)
Definition merge_range (merged : list (Z * Z)) (range : Z * Z) : list (Z * Z) :=
  match last merged with
  | Some back =>
      if (range.1 <=? back.2 + 1)%Z then take (length merged - 1) merged ++ [(back.1, Z.max back.2 range.2)]
      else merged ++ [range]
  | None => merged ++ [range]
  end.

Definition parse_bracket_charset (s : bytes) : expected (list (Z * Z)) GlobError :=
  try ranges := members_from (S (length s)) s 0 None [] in
  Ok (foldl merge_range [] (sort_ranges ranges)).

Record CharClass := mkClass { negated : bool; ranges : list (Z * Z) }.

(** [std::ranges::lower_bound] over the upper bounds: [n] ranges from [first]. *)
Fixpoint lower_bound (fuel : nat) (l : list (Z * Z)) (c : Z) (first n : nat) : nat :=
  match fuel with
  | O => first
  | S fuel' =>
      if n =? 0 then first
      else
        let half := n / 2 in
        let middle := first + half in
        if ((l !!! middle).2 <? c)%Z then lower_bound fuel' l c (middle + 1) (n - half - 1)
        else lower_bound fuel' l c first half
  end.

Definition class_contains (k : CharClass) (c : Z) : bool :=
  let it := lower_bound (S (length (ranges k))) (ranges k) c 0 (length (ranges k)) in
  let hit := match ranges k !! it with Some r => (r.1 <=? c)%Z | None => false end in
  if negated k then negb hit else hit.

(** ** Classes *)

(** Whether a code point lies in one of the ranges. *)
Definition in_ranges (rs : list (Z * Z)) (c : Z) : bool :=
  existsb (λ r, (r.1 <=? c)%Z && (c <=? r.2)%Z) rs.

Lemma in_ranges_spec rs c : in_ranges rs c = true ↔ ∃ r, r ∈ rs ∧ (r.1 ≤ c ≤ r.2)%Z.
Proof.
  unfold in_ranges. rewrite existsb_exists. setoid_rewrite list_elem_of_In.
  split; intros (r & Hr & H); exists r; (split; [done|]); [bool_prop; lia|].
  rewrite !(proj2 (Z.leb_le _ _)) by lia. done.
Qed.

(** Ranges in order, with a code point between any two. *)
Fixpoint disjoint_from (lo : Z) (rs : list (Z * Z)) : Prop :=
  match rs with
  | [] => True
  | r :: rs' => (lo < r.1 ≤ r.2)%Z ∧ disjoint_from (r.2 + 1) rs'
  end.

Definition range_ok (r : Z * Z) : Prop := (0 ≤ r.1 ≤ r.2)%Z.

Lemma insert_range_perm r l : insert_range r l ≡ₚ r :: l.
Proof.
  induction l as [|x l IH]; [done|]. cbn [insert_range]. destruct (pair_le r x); [done|].
  rewrite IH. apply Permutation_swap.
Qed.

Lemma sort_ranges_perm l : sort_ranges l ≡ₚ l.
Proof.
  induction l as [|r l IH]; [done|]. cbn [sort_ranges foldr]. fold (sort_ranges l).
  by rewrite insert_range_perm, IH.
Qed.

(** Sorted by where they start. *)
Fixpoint starts_sorted (lo : Z) (l : list (Z * Z)) : Prop :=
  match l with
  | [] => True
  | r :: l' => (lo ≤ r.1)%Z ∧ starts_sorted r.1 l'
  end.

Lemma starts_sorted_le lo lo' l : (lo' ≤ lo)%Z → starts_sorted lo l → starts_sorted lo' l.
Proof. intros H. destruct l as [|r l]; [done|]. intros [H1 H2]. split; [lia|done]. Qed.

Lemma insert_range_sorted r l lo :
  (lo ≤ r.1)%Z → starts_sorted lo l → starts_sorted lo (insert_range r l).
Proof.
  revert lo. induction l as [|x l IH]; intros lo Hr Hl; [done|]. cbn [insert_range].
  destruct Hl as [Hx Hl]. destruct (pair_le r x) eqn:E; unfold pair_le in E.
  - split; [done|]. split; [|done]. apply orb_prop in E as [E|E]; bool_prop; lia.
  - split; [done|]. apply IH; [|done]. apply orb_false_iff in E as [E _]. bool_prop. lia.
Qed.

Lemma sort_ranges_sorted l : Forall range_ok l → starts_sorted 0 (sort_ranges l).
Proof.
  induction 1 as [|r l Hr _ IH]; [done|]. cbn [sort_ranges foldr]. apply insert_range_sorted; [|done].
  unfold range_ok in Hr. lia.
Qed.

Lemma disjoint_snoc lo rs r :
  disjoint_from lo rs → (r.1 ≤ r.2)%Z →
  match last rs with Some b => (b.2 + 1 < r.1)%Z | None => (lo < r.1)%Z end →
  disjoint_from lo (rs ++ [r]).
Proof.
  revert lo. induction rs as [|x rs IH]; intros lo Hd Hr Hl; cbn [app disjoint_from] in *; [cbn in Hl; split; [lia|done]|].
  destruct Hd as [Hx Hd]. split; [done|]. apply IH; [done..|]. rewrite last_cons in Hl.
  by destruct (last rs).
Qed.

Lemma disjoint_init lo rs b : disjoint_from lo (rs ++ [b]) →
  disjoint_from lo rs ∧ (b.1 ≤ b.2)%Z ∧ match last rs with Some x => (x.2 + 1 < b.1)%Z | None => (lo < b.1)%Z end.
Proof.
  revert lo. induction rs as [|x rs IH]; intros lo Hd; cbn [app disjoint_from] in *; [split_and!; [done|lia|cbn; lia]|].
  destruct Hd as [Hx Hd]. destruct (IH _ Hd) as (H1 & H2 & H3). split; [done|]. split; [done|].
  rewrite last_cons. by destruct (last rs).
Qed.

(** Coalescing keeps what the ranges cover, and leaves them apart. *)
Lemma merge_ranges_spec l lo merged :
  starts_sorted lo l → Forall range_ok l → disjoint_from (-1) merged →
  (∀ b, last merged = Some b → (b.1 ≤ lo)%Z) → (0 ≤ lo)%Z →
  disjoint_from (-1) (foldl merge_range merged l) ∧
  ∀ c, in_ranges (foldl merge_range merged l) c = in_ranges merged c || in_ranges l c.
Proof.
  revert lo merged. induction l as [|r l IH]; intros lo merged Hs Ho Hd Hb Hlo.
  - split; [done|]. intros c. by rewrite orb_false_r.
  - destruct Hs as [Hr Hs]. inversion_clear Ho as [|?? Ho1 Ho2]. cbn [foldl].
    assert (Hstep : disjoint_from (-1) (merge_range merged r) ∧
      (∀ b, last (merge_range merged r) = Some b → (b.1 ≤ r.1)%Z) ∧
      ∀ c, in_ranges (merge_range merged r) c = in_ranges merged c || in_ranges [r] c).
    { unfold merge_range. unfold range_ok in Ho1. destruct (last merged) as [b|] eqn:El.
      - specialize (Hb b eq_refl). apply last_Some in El as [l0 ->].
        destruct (disjoint_init _ _ _ Hd) as (D1 & D2 & D3). destruct (Z.leb_spec r.1 (b.2 + 1)).
        + rewrite length_app. cbn [length]. replace (length l0 + 1 - 1) with (length l0) by lia.
          rewrite take_app_length. split; [apply disjoint_snoc; cbn; [done|lia|done]|]. split.
          * intros x. rewrite last_snoc. intros [= <-]. cbn. lia.
          * intros c. unfold in_ranges. rewrite !existsb_app. cbn [existsb]. rewrite !orb_false_r, <- orb_assoc. f_equal. cbn.
            apply eq_true_iff_eq. rewrite orb_true_iff, !andb_true_iff, !Z.leb_le. lia.
        + split; [apply disjoint_snoc; [done|lia|rewrite last_snoc; lia]|]. split.
          * intros x. rewrite last_snoc. intros [= <-]. lia.
          * intros c. unfold in_ranges. by rewrite existsb_app.
      - apply last_None in El as ->. split; [cbn; lia|]. split; [by intros x [= <-]|done]. }
    destruct Hstep as (S1 & S2 & S3). destruct (IH r.1 (merge_range merged r)) as [I1 I2]; [done..|lia|].
    split; [done|]. intros c. rewrite I2, S3, <- orb_assoc. f_equal. unfold in_ranges. cbn [existsb]. by rewrite orb_false_r.
Qed.

(** [lower_bound] is the first range that ends at [c] or after. *)
Lemma lower_bound_spec fuel l c first n :
  n < fuel → first + n ≤ length l →
  (∀ i j a b, i ≤ j → l !! i = Some a → l !! j = Some b → (a.2 ≤ b.2)%Z) →
  (∀ i a, i < first → l !! i = Some a → (a.2 < c)%Z) →
  (∀ i a, first + n ≤ i → l !! i = Some a → (c ≤ a.2)%Z) →
  let k := lower_bound fuel l c first n in
  (∀ i a, i < k → l !! i = Some a → (a.2 < c)%Z) ∧ (∀ i a, k ≤ i → l !! i = Some a → (c ≤ a.2)%Z).
Proof.
  revert first n. induction fuel as [|fuel IH]; intros first n Hf Hn Hs Hlo Hhi; [lia|]. cbn [lower_bound].
  destruct (Nat.eqb_spec n 0) as [->|Hn0].
  - split; [done|]. intros i a Hi. apply Hhi. lia.
  - assert (Hh : n / 2 < n) by (apply Nat.div_lt; lia).
    destruct (lookup_lt_is_Some_2 l (first + n / 2)) as [m Hm]; [lia|].
    rewrite list_lookup_total_alt, Hm. cbn [default from_option id].
    destruct (Z.ltb_spec m.2 c).
    + apply IH; [lia|lia|done| |].
      * intros i a Hi Ha. assert (a.2 ≤ m.2)%Z by (eapply (Hs i (first + n / 2)); [lia|done|done]). lia.
      * intros i a Hi. apply Hhi. lia.
    + apply IH; [lia|lia|done|done|]. intros i a Hi Ha.
      assert (m.2 ≤ a.2)%Z by (eapply (Hs (first + n / 2) i); [lia|done|done]). lia.
Qed.

Lemma disjoint_sorted lo rs :
  disjoint_from lo rs →
  (∀ i j a b, i ≤ j → rs !! i = Some a → rs !! j = Some b → (a.2 ≤ b.2)%Z) ∧
  (∀ i j a b, i < j → rs !! i = Some a → rs !! j = Some b → (a.2 < b.1)%Z) ∧
  (∀ i a, rs !! i = Some a → (lo < a.1 ≤ a.2)%Z).
Proof.
  revert lo. induction rs as [|r rs IH]; intros lo Hd; [done|]. destruct Hd as [Hr Hd].
  destruct (IH _ Hd) as (I1 & I2 & I3). split; [|split].
  - intros [|i] [|j] a b Hij Ha Hb; cbn in Ha, Hb; simplify_eq; [lia| |lia|by eapply (I1 i j); [lia|..]].
    specialize (I3 j b Hb). lia.
  - intros [|i] [|j] a b Hij Ha Hb; cbn in Ha, Hb; simplify_eq; [lia| |lia|by eapply (I2 i j); [lia|..]].
    specialize (I3 j b Hb). lia.
  - intros [|i] a Ha; cbn in Ha; simplify_eq; [lia|]. specialize (I3 i a Ha). lia.
Qed.

(** The search over coalesced ranges tells what they cover. *)
Lemma class_contains_ranges neg rs c :
  disjoint_from (-1) rs → class_contains (mkClass neg rs) c = xorb neg (in_ranges rs c).
Proof.
  intros Hd. destruct (disjoint_sorted _ _ Hd) as (D1 & D2 & D3). unfold class_contains. cbn [ranges negated].
  destruct (lower_bound_spec (S (length rs)) rs c 0 (length rs)) as [L1 L2]; [lia|lia|done|lia| |].
  { intros i a Hi Ha. apply lookup_lt_Some in Ha. lia. }
  set (k := lower_bound _ rs c 0 (length rs)) in *.
  assert (Hhit : (match rs !! k with Some r => (r.1 <=? c)%Z | None => false end) = in_ranges rs c).
  { apply eq_true_iff_eq. rewrite in_ranges_spec. split.
    - destruct (rs !! k) as [r|] eqn:Ek; [|done]. intros H%Z.leb_le. exists r.
      split; [by eapply list_elem_of_lookup_2|]. specialize (L2 k r (le_n k) Ek). lia.
    - intros (r & (i & Hi)%list_elem_of_lookup & Hr). destruct (lt_eq_lt_dec i k) as [[Hlt|<-]|Hgt].
      + specialize (L1 i r Hlt Hi). lia.
      + rewrite Hi. apply Z.leb_le. lia.
      + destruct (lookup_lt_is_Some_2 rs k) as [x Hx]; [apply lookup_lt_Some in Hi; lia|].
        specialize (D2 k i x r Hgt Hx Hi). specialize (L2 k x (le_n k) Hx). lia. }
  rewrite Hhit. by destruct neg, (in_ranges rs c).
Qed.

Lemma in_ranges_perm l l' c : l ≡ₚ l' → in_ranges l c = in_ranges l' c.
Proof. intros H. apply eq_true_iff_eq. rewrite !in_ranges_spec. setoid_rewrite H. done. Qed.

(** Sorting, coalescing and searching tell what the ranges as read cover. *)
Lemma charset_contains neg rs c :
  Forall range_ok rs →
  class_contains (mkClass neg (foldl merge_range [] (sort_ranges rs))) c = xorb neg (in_ranges rs c).
Proof.
  intros H. destruct (merge_ranges_spec (sort_ranges rs) 0 []) as [H1 H2];
    [by apply sort_ranges_sorted|by rewrite sort_ranges_perm|done|done|lia|].
  rewrite class_contains_ranges by done. f_equal. rewrite H2. cbn [in_ranges existsb orb].
  apply in_ranges_perm, sort_ranges_perm.
Qed.

(** ** What a class written out contains *)

(** A member of a class: a code point, or two and those between. *)
Definition item_range (i : Z + Z * Z) : Z * Z := match i with inl c => (c, c) | inr r => r end.

Definition item_ok (i : Z + Z * Z) : Prop :=
  scalar false (item_range i).1 ∧ scalar false (item_range i).2 ∧
  ((item_range i).1 ≤ (item_range i).2)%Z.

(** A code point, escaped: any may be. *)
Definition escaped (c : Z) : bytes := backslash :: put_code_point c.

Definition item_text (i : Z + Z * Z) : bytes :=
  match i with inl c => escaped c | inr (lo, hi) => escaped lo ++ "-"%byte :: escaped hi end.

Definition items_text (items : list (Z + Z * Z)) : bytes := mjoin (item_text <$> items).

Lemma decode_atom_put s i c rest :
  drop i s = put_code_point c ++ rest → scalar false c →
  decode_utf8_atom s i = mkAtom c (length (put_code_point c)).
Proof. intros E H. unfold decode_utf8_atom, decode_utf8. rewrite E, decode_put by done. done. Qed.

Lemma drop_lookup (s : bytes) i c rest : drop i s = c :: rest → s !! i = Some c.
Proof. intros E. rewrite <- (Nat.add_0_r i), <- lookup_drop, E. done. Qed.

Lemma drop_length_lt (s : bytes) i t : drop i s = t → t ≠ [] → i < length s.
Proof. intros <- H. destruct (decide (i < length s)); [done|]. by rewrite drop_ge in H by lia. Qed.

Lemma next_member_escaped s i c rest :
  drop i s = escaped c ++ rest → scalar false c →
  next_member s i = (c, i + length (escaped c)) ∧ drop (i + length (escaped c)) s = rest.
Proof.
  intros E H. unfold escaped in *. cbn [app length] in *. split.
  - unfold next_member. rewrite list_lookup_total_alt, (drop_lookup _ _ _ _ E). cbn [default from_option id].
    rewrite byte_eqb_refl, (decode_atom_put s (i + 1) c rest); [|rewrite <- drop_drop, E; done|done].
    cbn [cp len]. f_equal. lia.
  - rewrite <- drop_drop, E. cbn [drop]. by rewrite drop_app_length.
Qed.

(** The members read from [it] on, one held back or none. *)
Lemma members_items fuel s it pending rs items :
  length s - it < fuel → it ≤ length s → drop it s = items_text items → Forall item_ok items →
  members_from fuel s it pending rs =
  Ok (rs ++ (match pending with Some (p, _) => [(p, p)] | None => [] end) ++ (item_range <$> items)).
Proof.
  revert fuel it pending rs. induction items as [|i items IH]; intros [|fuel] it pending rs Hf Hit E Hok; try lia.
  - assert (it = length s) as -> by (apply (f_equal length) in E; rewrite length_drop in E; cbn in E; lia).
    cbn [members_from]. rewrite Nat.eqb_refl. destruct pending as [[p pb]|]; by rewrite ?app_nil_r.
  - inversion_clear Hok as [|?? Hi Hitems]. cbn [items_text fmap list_fmap mjoin list_join] in E.
    fold (items_text items) in E. destruct Hi as (Hlo & Hhi & Hle).
    assert (Hfirst : ∃ c rest, drop it s = escaped c ++ rest ∧ scalar false c ∧
      match i with inl x => c = x ∧ rest = items_text items
                 | inr (lo, hi) => c = lo ∧ rest = "-"%byte :: escaped hi ++ items_text items end).
    { destruct i as [c|[lo hi]]; cbn in *; [by exists c, (items_text items)|].
      exists lo, ("-"%byte :: escaped hi ++ items_text items). rewrite E, <- app_assoc. done. }
    destruct Hfirst as (c & rest & E1 & Hc & Hrest).
    destruct (next_member_escaped s it c rest E1 Hc) as [Hn Hd].
    assert (Hlt : it < length s) by (eapply drop_length_lt; [exact E1|done]).
    assert (Hle1 : it + length (escaped c) ≤ length s).
    { apply (f_equal length) in E1. rewrite length_drop, length_app in E1. lia. }
    assert (Hl1 : 2 ≤ length (escaped c)).
    { unfold escaped. cbn [length]. pose proof (put_code_point_nonempty c). destruct (put_code_point c); [done|]. cbn. lia. }
    assert (Hstep : members_from (S fuel) s it pending rs = members_from fuel s (it + length (escaped c)) (Some (c, it))
       (rs ++ match pending with Some (p, _) => [(p, p)] | None => [] end)).
    { cbn [members_from]. destruct (Nat.eqb_spec it (length s)); [lia|]. rewrite Hn.
      destruct pending as [[p pb]|]; [|by rewrite app_nil_r].
      unfold escaped in E1. rewrite list_lookup_total_alt, (drop_lookup _ _ _ _ E1). done. }
    rewrite Hstep. destruct i as [x|[lo hi]].
    + destruct Hrest as [-> ->]. rewrite IH by (done || lia). by rewrite <- !app_assoc.
    + destruct Hrest as [-> ->]. destruct fuel as [|fuel]; [lia|]. set (it1 := it + length (escaped lo)) in *.
      assert (Hlt1 : it1 < length s) by (eapply drop_length_lt; [exact Hd|done]).
      assert (E2 : drop (it1 + 1) s = escaped hi ++ items_text items) by (rewrite <- drop_drop, Hd; done).
      destruct (next_member_escaped s (it1 + 1) hi _ E2 Hhi) as [Hn2 Hd2].
      assert (Hlt2 : it1 + 1 < length s) by (eapply drop_length_lt; [exact E2|done]).
      assert (Hle2 : it1 + 1 + length (escaped hi) ≤ length s).
      { apply (f_equal length) in E2. rewrite length_drop, length_app in E2. lia. }
      cbn [members_from]. destruct (Nat.eqb_spec it1 (length s)); [lia|].
      rewrite list_lookup_total_alt, (drop_lookup _ _ _ _ Hd). cbn [default from_option id].
      destruct (Nat.eqb_spec (it1 + 1) (length s)); [lia|]. rewrite byte_eqb_refl. cbn [negb andb].
      rewrite Hn2. cbn in Hle. destruct (Z.ltb_spec hi lo); [lia|].
      rewrite IH by (done || lia). by rewrite <- !app_assoc.
Qed.

(** A class written with every code point escaped, single or the ends of a
    range, is read without an error and contains exactly the code points of its
    members, or, negated, the others: holding members back, sorting, coalescing
    and the search lose and add none. *)
Theorem bracket_class_correct items neg c :
  Forall item_ok items →
  ∃ rs, parse_bracket_charset (items_text items) = Ok rs ∧
    class_contains (mkClass neg rs) c
    = xorb neg (existsb (λ i, ((item_range i).1 <=? c)%Z && (c <=? (item_range i).2)%Z) items).
Proof.
  intros H. exists (foldl merge_range [] (sort_ranges (item_range <$> items))). split.
  - unfold parse_bracket_charset. rewrite (members_items _ _ _ _ _ items) by (done || lia). done.
  - rewrite charset_contains.
    + f_equal. unfold in_ranges. clear H. induction items as [|i items IH]; [done|].
      rewrite fmap_cons. cbn [existsb]. by rewrite IH.
    + apply Forall_fmap. eapply Forall_impl; [exact H|]. intros i (Hlo & _ & Hle). unfold compose, range_ok.
      destruct Hlo as [Hlo _]. lia.
Qed.

Lemma bracket_class_correct_witness :
  ∃ rs, parse_bracket_charset (lit "\a-\z\_\0-\9") = Ok rs ∧ class_contains (mkClass false rs) 98 = true.
Proof.
  refine (bracket_class_correct [inr (97, 122)%Z; inl 95%Z; inr (48, 57)%Z] false 98 _).
  repeat constructor; cbn; try lia; right; lia.
Defined.
