(* ===== verification/GlobMatch.v ===== *)
(** Matching one path segment: [match_tokens] and [match_affix] of
    src/support/glob_pattern.cpp, over the tokens of
    include/kotatsu/support/glob_pattern.h.

    Tokens index the pattern's pools of literal bytes and classes, as in the
    source.  The reference matches the tokens against the atoms of the input,
    its decoded characters, with a star standing for any number of them; the
    code looks for literals byte by byte and forgets every star but the last.
    [match_tokens] is a loop over four indices, whose fuel [tokens_fuel] the
    theorem shows to be enough. *)

From Stdlib Require Import Strings.Byte ZArith Lia Bool.
From stdpp Require Import prelude strings.
From S2P Require Import Prelude Swar Utf8 Glob.
Local Open Scope kota_scope.
Local Open Scope nat_scope.

(** ** Data *)

Inductive TokenKind := TLiteral | TStar | TAny | TClass.

#[export] Instance token_kind_eq_dec : EqDecision TokenKind.
Proof. solve_decision. Defined.

Record Token := mkToken { token_kind : TokenKind; token_begin : nat; token_size : nat }.

#[export] Instance token_inhabited : Inhabited Token := populate (mkToken TStar 0 0).
#[export] Instance class_inhabited : Inhabited CharClass := populate (mkClass false []).

(** What matching reads of a pattern: its pools. *)
Record Pools := mkPools { literals : bytes; tokens : list Token; classes : list CharClass }.

Definition literal (g : Pools) (token : Token) : bytes :=
  substr (literals g) (token_begin token) (token_size token).

(** ** [match_tokens] *)

(** Where the loop is, and where the latest star resumes. *)
Record cursor := mkCursor { token : nat; offset : nat; retry_token : nat; retry_offset : nat }.

(** [input.find(text, from)]. *)
Definition find_from (input text : bytes) (from : nat) : option nat :=
  (λ i, from + i) <$> find_sub text (drop from input).

(** What an iteration comes to: an answer, or where the loop goes on. *)
Definition retry (seg_end : nat) (input : bytes) (c : cursor) : bool + cursor :=
  if (retry_token c =? seg_end) || (retry_offset c =? length input) then inl false
  else
    let ro := retry_offset c + len (decode_utf8_atom input (retry_offset c)) in
    inr (mkCursor (retry_token c) ro (retry_token c) ro).

Definition match_step (g : Pools) (seg_end : nat) (input : bytes) (c : cursor) : bool + cursor :=
  if token c =? seg_end then
    if offset c =? length input then inl true else retry seg_end input c
  else
    let op := tokens g !!! token c in
    match token_kind op with
    | TStar =>
        let t := token c + 1 in
        if t =? seg_end then inl true else inr (mkCursor t (offset c) t (offset c))
    | TLiteral =>
        let text := literal g op in
        if token c =? retry_token c then
          if token c + 1 =? seg_end then
            inl ((length text <=? length input - offset c) && ends_with input text)
          else
            match find_from input text (offset c) with
            | None => inl false
            | Some at_ => inr (mkCursor (token c + 1) (at_ + length text) (retry_token c) at_)
            end
        else if starts_with (drop (offset c) input) text then
          inr (mkCursor (token c + 1) (offset c + length text) (retry_token c) (retry_offset c))
        else retry seg_end input c
    | TAny | TClass =>
        if negb (offset c =? length input) then
          let atom := decode_utf8_atom input (offset c) in
          if bool_decide (token_kind op = TAny)
             || class_contains (classes g !!! token_begin op) (cp atom) then
            inr (mkCursor (token c + 1) (offset c + len atom) (retry_token c) (retry_offset c))
          else retry seg_end input c
        else retry seg_end input c
    end.

(** The loop; [None] is fuel run out. *)
Fixpoint match_loop (fuel : nat) (g : Pools) (seg_end : nat) (input : bytes) (c : cursor) : option bool :=
  match fuel with
  | O => None
  | S fuel' =>
      match match_step g seg_end input c with
      | inl answer => Some answer
      | inr c' => match_loop fuel' g seg_end input c'
      end
  end.

(** Every iteration takes a token, or moves where the star resumes. *)
Definition tokens_fuel (seg_begin seg_end : nat) (input : bytes) : nat :=
  S (length input * (seg_end - seg_begin + 1) + (seg_end - seg_begin)).

Definition match_tokens (g : Pools) (seg_begin seg_end : nat) (input : bytes) : bool :=
  default false (match_loop (tokens_fuel seg_begin seg_end input) g seg_end input
    (mkCursor seg_begin 0 seg_end 0)).

(** ** [match_affix] *)

Definition match_affix (g : Pools) (seg_begin seg_end : nat) (input : bytes) : bool :=
  let head := tokens g !!! seg_begin in
  let tail := tokens g !!! (seg_end - 1) in
  let prefix := if bool_decide (token_kind head = TLiteral) then literal g head else [] in
  let suffix := if bool_decide (token_kind tail = TLiteral) then literal g tail else [] in
  (length prefix + length suffix <=? length input) && starts_with input prefix && ends_with input suffix.

(** ** The reference *)

(** The characters of a text: code points, and bytes that spell none. *)
Fixpoint atoms_from (fuel : nat) (s : bytes) : list Z :=
  match fuel, s with
  | S fuel', _ :: _ => let a := decode_utf8_atom s 0 in cp a :: atoms_from fuel' (drop (len a) s)
  | _, _ => []
  end.

Definition atoms (s : bytes) : list Z := atoms_from (length s) s.

(** A token on its own: a literal's code points, any number of characters, or
    one of those a predicate tells. *)
Inductive op := OLit (cps : list Z) | OStar | OOne (f : Z → bool).

Inductive matches : list op → list Z → Prop :=
| m_nil : matches [] []
| m_lit cps ops a : matches ops a → matches (OLit cps :: ops) (cps ++ a)
| m_one f ops c a : f c = true → matches ops a → matches (OOne f :: ops) (c :: a)
| m_star ops l a : matches ops a → matches (OStar :: ops) (l ++ a).

(** What a token of the pools stands for. *)
Definition token_op (g : Pools) (t : Token) : op :=
  match token_kind t with
  | TLiteral => OLit (atoms (literal g t))
  | TStar => OStar
  | TAny => OOne (λ _, true)
  | TClass => OOne (class_contains (classes g !!! token_begin t))
  end.

Definition segment_ops (g : Pools) (seg_begin seg_end : nat) : list op :=
  token_op g <$> take (seg_end - seg_begin) (drop seg_begin (tokens g)).

(** A literal is UTF-8, and not empty. *)
Definition token_ok (g : Pools) (t : Token) : Prop :=
  token_kind t = TLiteral → ∃ cps, cps ≠ [] ∧ scalars cps ∧ literal g t = Utf8.spell cps.

(** ** Lemmas on atoms *)

Lemma atom_len s : s ≠ [] → 1 ≤ len (decode_utf8_atom s 0) ≤ length s.
Proof.
  intros H. unfold decode_utf8_atom, decode_utf8. rewrite drop_0.
  destruct (decode_sequence_progress s false H) as [H1 H2].
  destruct (negb _); cbn [len]; [|lia]. destruct s; [done|]. cbn. lia.
Qed.

Lemma decode_drop s i : decode_utf8_atom s i = decode_utf8_atom (drop i s) 0.
Proof.
  unfold decode_utf8_atom. rewrite drop_0, !list_lookup_total_alt, lookup_drop, Nat.add_0_r. done.
Qed.

Lemma atoms_from_fuel fuel s : length s ≤ fuel → atoms_from fuel s = atoms s.
Proof.
  unfold atoms. revert s. assert (H : ∀ n m s, length s ≤ n → length s ≤ m → atoms_from n s = atoms_from m s).
  { induction n as [|n IH]; intros m s Hn Hm; [destruct s; [by destruct m|cbn in Hn; lia]|].
    destruct s as [|c s]; [by destruct m|]. destruct m as [|m]; [cbn in Hm; lia|]. cbn [atoms_from]. f_equal.
    pose proof (atom_len (c :: s) ltac:(done)). apply IH; rewrite length_drop; cbn in *; lia. }
  intros s Hf. by apply H.
Qed.

Lemma atoms_cons s :
  s ≠ [] → atoms s = cp (decode_utf8_atom s 0) :: atoms (drop (len (decode_utf8_atom s 0)) s).
Proof.
  intros H. destruct s as [|c s]; [done|]. unfold atoms at 1. cbn [length atoms_from]. f_equal.
  apply atoms_from_fuel. pose proof (atom_len (c :: s) H). rewrite length_drop. cbn in *. lia.
Qed.

Lemma atoms_nil s : atoms s = [] ↔ s = [].
Proof. split; [|by intros ->]. destruct s as [|c s]; [done|]. by rewrite atoms_cons. Qed.

Lemma atoms_put c rest : scalar false c → atoms (put_code_point c ++ rest) = c :: atoms rest.
Proof.
  intros H. rewrite atoms_cons by (pose proof (put_code_point_nonempty c); by destruct (put_code_point c)).
  rewrite (decode_atom_put _ 0 c rest) by (done || by rewrite drop_0). cbn [cp len]. by rewrite drop_app_length.
Qed.

Lemma atoms_spell cps rest : scalars cps → atoms (Utf8.spell cps ++ rest) = cps ++ atoms rest.
Proof.
  induction 1 as [|c cps Hc _ IH]; [done|]. rewrite spell_cons, <- app_assoc, atoms_put, IH by done. done.
Qed.

(** An atom that is a code point is its spelling. *)
Lemma atoms_put_inv s c a :
  scalar false c → atoms s = c :: a → ∃ rest, s = put_code_point c ++ rest ∧ atoms rest = a.
Proof.
  intros Hc E. destruct s as [|x s]; [done|]. rewrite atoms_cons in E by done. injection E as E1 E2.
  unfold decode_utf8_atom, decode_utf8 in E1, E2. rewrite drop_0 in E1, E2.
  destruct (decode_sequence (x :: s) false) as [z n v] eqn:Ed. cbn [valid code_point seq_length] in *.
  destruct v; cbn [negb cp len] in E1, E2.
  - subst z. apply decode_valid in Ed as (_ & rest & E & ->). exists rest. split; [done|].
    by rewrite E, drop_app_length in E2.
  - exfalso. destruct Hc as [Hc _]. unfold invalid_atom_base in E1. pose proof (uval_range ((x :: s) !!! 0)). lia.
Qed.

Lemma atoms_spell_inv cps s a :
  scalars cps → atoms s = cps ++ a → ∃ rest, s = Utf8.spell cps ++ rest ∧ atoms rest = a.
Proof.
  intros H. revert s. induction H as [|c cps Hc _ IH]; intros s E; [by exists s|].
  cbn [app] in E. apply atoms_put_inv in E as (r1 & -> & E); [|done].
  destruct (IH r1 E) as (r2 & -> & E2). exists r2. by rewrite spell_cons, <- app_assoc.
Qed.

(** ** Where atoms start *)

Definition continuation (b : byte) : bool := in_range 128 191 b.

(** The first byte of a spelling continues nothing; the others do. *)
Lemma put_bytes c i b :
  scalar false c → put_code_point c !! i = Some b → continuation b = negb (i =? 0).
Proof.
  intros [Hc _] Hb. rewrite put_code_point_arith in Hb by lia. rewrite list_lookup_fmap in Hb.
  destruct (put_arith c !! i) as [z|] eqn:Ez; [|done]. cbn in Hb. injection Hb as <-.
  pose proof (put_arith_bytes c ltac:(lia)) as Hr. rewrite Forall_lookup in Hr. specialize (Hr i z Ez).
  unfold continuation, in_range. rewrite uval_to_byte_small by lia.
  assert (Hz : match i with O => (z < 128 ∨ 192 ≤ z)%Z | S _ => (128 ≤ z ≤ 191)%Z end).
  { unfold put_arith in Ez. repeat case_if_in Ez; bool_prop;
      destruct i as [|[|[|[|i]]]]; cbn in Ez; simplify_eq; dlia. }
  destruct i as [|i]; cbn [Nat.eqb negb].
  - apply andb_false_iff. rewrite !Z.leb_gt. lia.
  - apply andb_true_iff. rewrite !Z.leb_le. lia.
Qed.

Lemma spell_head cps : cps ≠ [] → scalars cps → ∃ b rest, Utf8.spell cps = b :: rest ∧ continuation b = false.
Proof.
  intros Hn H. destruct H as [|c cps Hc _]; [done|]. rewrite spell_cons.
  destruct (put_code_point c) as [|b r] eqn:E; [by destruct (put_code_point_nonempty c)|].
  exists b, (r ++ Utf8.spell cps). split; [done|]. by apply (put_bytes c 0 b Hc); rewrite E.
Qed.

(** The offset of the [k]-th atom. *)
Fixpoint atom_pos (k : nat) (s : bytes) : nat :=
  match k with
  | O => 0
  | S k' => let l := len (decode_utf8_atom s 0) in l + atom_pos k' (drop l s)
  end.

Lemma atom_pos_drop k s :
  k ≤ length (atoms s) →
  atom_pos k s ≤ length s ∧ atoms (drop (atom_pos k s) s) = drop k (atoms s).
Proof.
  revert s. induction k as [|k IH]; intros s Hk; [split; [cbn; lia|done]|].
  assert (Hs : s ≠ []) by (intros ->; cbn in Hk; lia). rewrite (atoms_cons s Hs) in Hk |- *. cbn [length] in Hk.
  cbn [atom_pos drop]. pose proof (atom_len s Hs). set (l := len (decode_utf8_atom s 0)) in *.
  destruct (IH (drop l s)) as [H1 H2]; [lia|]. rewrite length_drop in H1. split; [lia|].
  by rewrite <- drop_drop.
Qed.

Lemma atom_pos_add j k s : atom_pos (j + k) s = atom_pos j s + atom_pos k (drop (atom_pos j s) s).
Proof.
  revert s. induction j as [|j IH]; intros s; [done|]. cbn [Nat.add atom_pos]. rewrite IH, <- drop_drop. lia.
Qed.

Lemma atom_pos_lt j k s : j < k → k ≤ length (atoms s) → atom_pos j s < atom_pos k s.
Proof.
  intros Hjk Hk. replace k with (j + S (k - j - 1)) by lia. rewrite atom_pos_add. cbn [atom_pos].
  destruct (atom_pos_drop j s) as [_ E]; [lia|].
  assert (drop (atom_pos j s) s ≠ []) as Hne.
  { intros Hn. rewrite Hn in E. symmetry in E. apply (f_equal length) in E. rewrite length_drop in E. cbn in E. lia. }
  pose proof (atom_len _ Hne). lia.
Qed.

(** A literal cannot start inside a character: UTF-8 synchronizes itself. *)
Lemma literal_boundary cps s j rest :
  cps ≠ [] → scalars cps → drop j s = Utf8.spell cps ++ rest →
  ∃ k, k ≤ length (atoms s) ∧ atom_pos k s = j.
Proof.
  intros Hn Hc. remember (length s) as n eqn:Hlen. revert s j Hlen.
  induction n as [n IH] using lt_wf_ind. intros s j -> E.
  destruct (spell_head cps Hn Hc) as (b & r & Eb & Hb).
  assert (Hj : s !! j = Some b) by (apply (drop_lookup s j b (r ++ rest)); by rewrite E, Eb).
  assert (Hs : s ≠ []) by (by intros ->). pose proof (atom_len s Hs) as Hl.
  destruct j as [|j]; [exists 0; split; [lia|done]|].
  set (l := len (decode_utf8_atom s 0)) in *. destruct (decide (l ≤ S j)) as [Hle|Hgt].
  - destruct (IH (length (drop l s)) ltac:(rewrite length_drop; lia) (drop l s) (S j - l) eq_refl) as (k & Hk & Ek).
    { rewrite drop_drop. by replace (l + (S j - l)) with (S j) by lia. }
    exists (S k). rewrite (atoms_cons s Hs). cbn [length atom_pos]. fold l. split; [lia|]. lia.
  - exfalso. unfold l, decode_utf8_atom, decode_utf8 in Hgt. rewrite drop_0 in Hgt.
    destruct (decode_sequence s false) as [z m v] eqn:Ed. cbn [valid code_point seq_length] in Hgt.
    destruct v; cbn [negb len] in Hgt; [|lia]. apply decode_valid in Ed as (Hz & r' & -> & ->).
    rewrite lookup_app_l in Hj by lia. by rewrite (put_bytes z (S j) b Hz Hj) in Hb.
Qed.

(** Literals and characters *)

(** A literal at an offset is its code points among the atoms there. *)
Lemma starts_with_atoms cps s :
  scalars cps → starts_with s (Utf8.spell cps) = true ↔ take (length cps) (atoms s) = cps.
Proof.
  intros Hc. rewrite starts_with_iff. split.
  - intros E. rewrite <- (take_drop (length (Utf8.spell cps)) s), E, atoms_spell by done. apply take_app_length.
  - intros E. destruct (atoms_spell_inv cps s (drop (length cps) (atoms s)) Hc) as (rest & -> & _).
    { rewrite <- E at 1. by rewrite take_drop. }
    apply take_app_length.
Qed.

Lemma atoms_drop_literal cps s :
  scalars cps → starts_with s (Utf8.spell cps) = true →
  atoms (drop (length (Utf8.spell cps)) s) = drop (length cps) (atoms s).
Proof.
  intros Hc E%starts_with_iff. rewrite <- (take_drop (length (Utf8.spell cps)) s) at 2.
  rewrite E, atoms_spell by done. by rewrite drop_app_length.
Qed.

(** A byte search finds the first place a literal stands at. *)
Lemma find_literal cps s :
  cps ≠ [] → scalars cps →
  match find_sub (Utf8.spell cps) s with
  | None => ∀ k, take (length cps) (drop k (atoms s)) ≠ cps
  | Some j => ∃ k, k ≤ length (atoms s) ∧ atom_pos k s = j ∧
      take (length cps) (drop k (atoms s)) = cps ∧
      ∀ i, i < k → take (length cps) (drop i (atoms s)) ≠ cps
  end.
Proof.
  intros Hn Hc. assert (Hne : Utf8.spell cps ≠ []).
  { destruct (spell_head cps Hn Hc) as (b & r & -> & _). done. }
  assert (Hat : ∀ k, take (length cps) (drop k (atoms s)) = cps →
    k ≤ length (atoms s) ∧ occurs (Utf8.spell cps) s (atom_pos k s)).
  { intros k E. assert (Hk : k ≤ length (atoms s)).
    { destruct (decide (k ≤ length (atoms s))); [done|]. rewrite drop_ge in E by lia. by destruct cps. }
    split; [done|]. destruct (atom_pos_drop k s Hk) as [_ Ed]. rewrite <- Ed in E.
    by apply starts_with_iff, starts_with_atoms. }
  pose proof (find_sub_first (Utf8.spell cps) s Hne) as H. destruct (find_sub _ s) as [j|].
  - destruct H as [Ho Hmin]. unfold occurs in Ho.
    destruct (literal_boundary cps s j (drop (length (Utf8.spell cps)) (drop j s)) Hn Hc) as (k & Hk & Ek).
    { rewrite <- (take_drop (length (Utf8.spell cps)) (drop j s)) at 1. by rewrite Ho. }
    exists k. split; [done|]. split; [done|]. split.
    + destruct (atom_pos_drop k s Hk) as [_ Ed]. rewrite <- Ed, Ek. by apply starts_with_atoms, starts_with_iff.
    + intros i Hi E. destruct (Hat i E) as [Hik Hoc]. apply (Hmin (atom_pos i s)); [|done]. rewrite <- Ek.
      by apply atom_pos_lt.
  - intros k E. destruct (Hat k E) as [_ Hoc]. by apply (H (atom_pos k s)).
Qed.

(** A literal ends a text where its code points end the atoms of it. *)
Lemma ends_with_atoms cps s o :
  cps ≠ [] → scalars cps → o ≤ length s →
  (length (Utf8.spell cps) <=? length s - o) && ends_with s (Utf8.spell cps) = true ↔
  ∃ k, k ≤ length (atoms (drop o s)) ∧
    take (length cps) (drop k (atoms (drop o s))) = cps ∧ drop (length cps) (drop k (atoms (drop o s))) = [].
Proof.
  intros Hn Hc Ho. unfold ends_with. set (t := Utf8.spell cps). set (u := drop o s).
  assert (Hu : length u = length s - o) by apply length_drop. split.
  - intros H. bool_prop. set (j := length s - o - length t).
    assert (Ej : drop j u = t) by (unfold u; rewrite drop_drop, <- H1; f_equal; unfold j; lia).
    destruct (literal_boundary cps u j [] Hn Hc) as (k & Hk & Ek); [by rewrite app_nil_r|].
    destruct (atom_pos_drop k u Hk) as [_ Ed]. rewrite Ek, Ej in Ed. exists k. split; [done|]. rewrite <- Ed.
    unfold t. rewrite <- (app_nil_r (Utf8.spell cps)), atoms_spell, app_nil_r by done.
    by rewrite take_ge, drop_all.
  - intros (k & Hk & Et & Ed). destruct (atom_pos_drop k u Hk) as [Hp Ea].
    destruct (atoms_spell_inv cps (drop (atom_pos k u) u) [] Hc) as (r & Er & Hr).
    { rewrite Ea. rewrite <- (take_drop (length cps) (drop k (atoms u))), Et, Ed. done. }
    apply atoms_nil in Hr as ->. rewrite app_nil_r in Er. fold t in Er.
    assert (Hl : length t = length u - atom_pos k u) by (by rewrite <- Er, length_drop).
    apply andb_true_iff. split; [apply Nat.leb_le; lia|]. apply andb_true_iff. split; [apply Nat.leb_le; lia|].
    apply bool_decide_eq_true. replace (length s - length t) with (o + atom_pos k u) by lia. by rewrite <- drop_drop.
Qed.

(** ** What matches *)

Lemma matches_nil_iff a : matches [] a ↔ a = [].
Proof. split; [by inversion 1|]. intros ->. constructor. Qed.

Lemma matches_lit_iff cps ops a :
  matches (OLit cps :: ops) a ↔ take (length cps) a = cps ∧ matches ops (drop (length cps) a).
Proof.
  split.
  - inversion 1; subst. by rewrite take_app_length, drop_app_length.
  - intros [E H]. rewrite <- (take_drop (length cps) a), E. by constructor.
Qed.

Lemma matches_one_iff f ops a :
  matches (OOne f :: ops) a ↔ ∃ c a', a = c :: a' ∧ f c = true ∧ matches ops a'.
Proof. split; [inversion 1; subst; eauto|]. intros (c & a' & -> & Hf & H). by constructor. Qed.

Lemma matches_star_iff ops a :
  matches (OStar :: ops) a ↔ ∃ k, k ≤ length a ∧ matches ops (drop k a).
Proof.
  split.
  - inversion 1; subst. exists (length l). rewrite length_app, drop_app_length. split; [lia|done].
  - intros (k & _ & H). rewrite <- (take_drop k a). by constructor.
Qed.

(** ** The loop *)

Section Loop.
Variables (g : Pools) (e : nat) (s : bytes).
Hypothesis He : e ≤ length (tokens g).
Hypothesis Hok : ∀ t, t ∈ tokens g → token_ok g t.

Abbreviation ops t := (segment_ops g t e).
Abbreviation rest o := (atoms (drop o s)).

Lemma ops_cons t : t < e → ops t = token_op g (tokens g !!! t) :: ops (t + 1).
Proof.
  intros H. unfold segment_ops. destruct (lookup_lt_is_Some_2 (tokens g) t) as [x Hx]; [lia|].
  rewrite (drop_S _ _ _ Hx), list_lookup_total_alt, Hx. cbn [default from_option id].
  replace (e - t) with (S (e - (t + 1))) by lia. cbn [take]. rewrite fmap_cons.
  by replace (S t) with (t + 1) by lia.
Qed.

Lemma ops_end : ops e = [].
Proof. unfold segment_ops. by rewrite Nat.sub_diag. Qed.

Lemma token_literal t :
  t < e → token_kind (tokens g !!! t) = TLiteral →
  ∃ cps, cps ≠ [] ∧ scalars cps ∧ literal g (tokens g !!! t) = Utf8.spell cps ∧
    token_op g (tokens g !!! t) = OLit cps.
Proof.
  intros H Hk. destruct (Hok (tokens g !!! t)) as (cps & Hn & Hc & E); [|done|].
  - apply list_elem_of_lookup_2 with t. apply list_lookup_lookup_total_lt. lia.
  - exists cps. split; [done|]. split; [done|]. split; [done|]. unfold token_op. rewrite Hk, E. f_equal.
    rewrite <- (app_nil_r (Utf8.spell cps)), atoms_spell by done. apply app_nil_r.
Qed.

(** Whether the loop should answer yes: the rest matches here, or the star
    takes more. *)
Definition want (c : cursor) : Prop :=
  matches (ops (token c)) (rest (offset c)) ∨
  (retry_token c ≠ e ∧ ∃ k, 1 ≤ k ≤ length (rest (retry_offset c)) ∧
     matches (ops (retry_token c)) (drop k (rest (retry_offset c)))).

(** What matches after the star takes [k] characters more, matches [k]
    characters further on from where the loop is. *)
Definition shifts (c : cursor) : Prop :=
  ∀ k, k ≤ length (rest (retry_offset c)) →
    matches (ops (retry_token c)) (drop k (rest (retry_offset c))) →
    k ≤ length (rest (offset c)) ∧ matches (ops (token c)) (drop k (rest (offset c))).

Definition loop_inv (c : cursor) : Prop :=
  token c ≤ e ∧ retry_offset c ≤ offset c ≤ length s ∧
  (retry_token c = e ∨
   (retry_token c < e ∧ retry_token c ≤ token c ∧ shifts c ∧
    (token c = retry_token c → offset c = retry_offset c))).

Definition measure (b : nat) (c : cursor) : nat :=
  (length s - retry_offset c) * (e - b + 1) + (e - token c).

Lemma rest_step o :
  o < length s → rest o = cp (decode_utf8_atom s o) :: rest (o + len (decode_utf8_atom s o)) ∧
    1 ≤ len (decode_utf8_atom s o) ≤ length s - o.
Proof.
  intros H. assert (Hne : drop o s ≠ []).
  { intros E%(f_equal length). rewrite length_drop in E. cbn in E. lia. }
  rewrite (decode_drop s o). split.
  - rewrite (atoms_cons _ Hne) at 1. by rewrite drop_drop.
  - pose proof (atom_len _ Hne) as Hl. rewrite length_drop in Hl. done.
Qed.

Lemma rest_end : rest (length s) = [].
Proof. by rewrite drop_all. Qed.

(** What an iteration answers is what is wanted, and where it goes on wants the
    same and is nearer the end. *)
Definition step_ok (b : nat) (c : cursor) (r : bool + cursor) : Prop :=
  match r with
  | inl answer => answer = true ↔ want c
  | inr c' => loop_inv c' ∧ b ≤ token c' ∧ (retry_token c' = e ∨ b ≤ retry_token c') ∧
      (want c' ↔ want c) ∧ measure b c' < measure b c
  end.

Lemma retry_ok b c :
  loop_inv c → b ≤ token c → (retry_token c = e ∨ b ≤ retry_token c) →
  ¬ matches (ops (token c)) (rest (offset c)) → step_ok b c (retry e s c).
Proof.
  intros (Ht & Ho & Hr) Hb Hbr Hno. unfold retry. destruct (Nat.eqb_spec (retry_token c) e) as [Er|Er].
  - cbn [orb step_ok]. split; [done|]. intros [?|[? _]]; done.
  - cbn [orb]. destruct Hr as [?|(Hr & _)]; [done|]. destruct Hbr as [?|Hbr]; [done|].
    destruct (Nat.eqb_spec (retry_offset c) (length s)) as [El|El]; cbn [step_ok].
    + split; [done|]. intros [?|[_ (k & Hk & _)]]; [done|]. rewrite El, rest_end in Hk. cbn in Hk. lia.
    + destruct (rest_step (retry_offset c)) as [Es Hl]; [lia|].
      set (l := len (decode_utf8_atom s (retry_offset c))) in *.
      split; [|split; [done|split; [by right|split]]].
      * split; [cbn; lia|]. split; [cbn; lia|]. right. split; [done|]. split; [done|]. split; [|done].
        by intros k Hk Hm.
      * unfold want. cbn [token offset retry_token retry_offset]. rewrite Es. split.
        -- intros Hw. right. split; [done|]. destruct Hw as [Hw|[_ (k & Hk & Hw)]].
           ++ exists 1. cbn [length drop]. split; [lia|done].
           ++ exists (S k). cbn [length drop]. split; [lia|done].
        -- intros [?|[_ (k & Hk & Hw)]]; [by destruct Hno|]. destruct k as [|k]; [lia|]. cbn [length drop] in *.
           destruct k as [|k]; [by left|]. right. split; [done|]. exists (S k). split; [lia|done].
      * unfold measure. cbn [token retry_offset]. nia.
Qed.

(** Taking a token of fixed width. *)
Lemma take_token_ok b c w :
  loop_inv c → b ≤ token c → token c < e → (retry_token c = e ∨ b ≤ retry_token c) →
  offset c + w ≤ length s →
  (∃ n, rest (offset c + w) = drop n (rest (offset c)) ∧
     (∀ a, matches (ops (token c)) a → n ≤ length a ∧ matches (ops (token c + 1)) (drop n a)) ∧
     (matches (ops (token c + 1)) (rest (offset c + w)) → matches (ops (token c)) (rest (offset c)))) →
  step_ok b c (inr (mkCursor (token c + 1) (offset c + w) (retry_token c) (retry_offset c))).
Proof.
  intros (Ht & Ho & Hr) Hb Hlt Hbr Hw (n & En & Hf & Hback). cbn [step_ok].
  split; [|split; [cbn; lia|split; [done|split]]].
  - split; [cbn; lia|]. split; [cbn; lia|]. destruct Hr as [Hr|(Hr & Hrt & Hs & Hro)]; [by left|]. right.
    split; [done|]. split; [cbn; lia|]. split; [|cbn; lia].
    intros k Hk Hm. cbn [token offset retry_token retry_offset] in *. destruct (Hs k Hk Hm) as [Hk2 Hm2].
    destruct (Hf _ Hm2) as [Hn Hm3]. rewrite length_drop in Hn. rewrite En, length_drop, drop_drop.
    rewrite drop_drop in Hm3. rewrite (Nat.add_comm n k). split; [lia|done].
  - unfold want. cbn [token offset retry_token retry_offset]. split.
    + intros [H|H]; [left; by apply Hback|by right].
    + intros [H|H]; [left|by right]. destruct (Hf _ H) as [_ H']. by rewrite En.
  - unfold measure. cbn [token retry_offset]. lia.
Qed.

Lemma star_ok b c :
  loop_inv c → b ≤ token c → token c < e → token_kind (tokens g !!! token c) = TStar →
  step_ok b c (if token c + 1 =? e then inl true
               else inr (mkCursor (token c + 1) (offset c) (token c + 1) (offset c))).
Proof.
  intros (Ht & Ho & Hr) Hb Hlt Hk.
  assert (Eops : ops (token c) = OStar :: ops (token c + 1)).
  { rewrite (ops_cons _ Hlt). unfold token_op. by rewrite Hk. }
  destruct (Nat.eqb_spec (token c + 1) e) as [E|E]; cbn [step_ok].
  - split; [|done]. intros _. left. rewrite Eops, E, ops_end. apply matches_star_iff.
    exists (length (rest (offset c))). rewrite drop_all. split; [done|constructor].
  - split; [|split; [cbn; lia|split; [right; cbn; lia|split]]].
    + split; [cbn; lia|]. split; [cbn; lia|]. right. split; [cbn; lia|]. split; [cbn; lia|]. by split; [intros k|].
    + unfold want. cbn [token offset retry_token retry_offset]. rewrite Eops, matches_star_iff.
      assert (Hstar : (matches (ops (token c + 1)) (rest (offset c)) ∨
          (token c + 1 ≠ e ∧ ∃ k, 1 ≤ k ≤ length (rest (offset c)) ∧
             matches (ops (token c + 1)) (drop k (rest (offset c))))) ↔
        ∃ k, k ≤ length (rest (offset c)) ∧ matches (ops (token c + 1)) (drop k (rest (offset c)))).
      { split.
        - intros [H|[_ (k & Hk1 & H)]]; [exists 0; split; [lia|done]|exists k; split; [lia|done]].
        - intros (k & Hk1 & H). destruct k as [|k]; [by left|right]. split; [done|]. exists (S k). split; [lia|done]. }
      rewrite Hstar. split; [by left|]. intros [H|[Hre (k & Hk1 & H)]]; [done|].
      destruct Hr as [?|(_ & _ & Hs & _)]; [done|]. destruct (Hs k ltac:(lia) H) as [Hk2 H2].
      rewrite Eops, matches_star_iff in H2. destruct H2 as (j & Hj & H2). rewrite length_drop in Hj.
      exists (k + j). rewrite drop_drop in H2. split; [lia|done].
    + unfold measure. cbn [token retry_offset]. nia.
Qed.

(** A literal right after the latest star. *)
Lemma star_literal_ok b c cps :
  loop_inv c → b ≤ token c → token c < e → token c = retry_token c →
  cps ≠ [] → scalars cps → ops (token c) = OLit cps :: ops (token c + 1) →
  step_ok b c
    (if token c + 1 =? e then
       inl ((length (Utf8.spell cps) <=? length s - offset c) && ends_with s (Utf8.spell cps))
     else match find_from s (Utf8.spell cps) (offset c) with
          | None => inl false
          | Some at_ => inr (mkCursor (token c + 1) (at_ + length (Utf8.spell cps)) (retry_token c) at_)
          end).
Proof.
  intros (Ht & Ho & Hr) Hb Hlt Etr Hn Hc Eops.
  destruct Hr as [?|(Hr & _ & Hs & Hro)]; [lia|]. specialize (Hro Etr).
  assert (Hwant : want c ↔ ∃ k, k ≤ length (rest (offset c)) ∧ matches (ops (token c)) (drop k (rest (offset c)))).
  { unfold want. rewrite <- Etr, <- Hro. split.
    - intros [H|[_ (k & Hk & H)]]; [exists 0; split; [lia|done]|exists k; split; [lia|done]].
    - intros (k & Hk & H). destruct k as [|k]; [by left|right]. split; [lia|]. exists (S k). split; [lia|done]. }
  destruct (Nat.eqb_spec (token c + 1) e) as [E|E]; cbn [step_ok].
  - rewrite Hwant, Eops, E, ops_end. setoid_rewrite matches_lit_iff. setoid_rewrite matches_nil_iff.
    apply ends_with_atoms; [done..|lia].
  - unfold find_from. pose proof (find_literal cps (drop (offset c) s) Hn Hc) as Hfl.
    destruct (find_sub _ _) as [j|]; cbn [fmap option_fmap option_map step_ok].
    + destruct Hfl as (k & Hk & Ej & Ek & Hmin). destruct (atom_pos_drop k _ Hk) as [Hj Ed].
      rewrite drop_drop, Ej in Ed. rewrite Ej, length_drop in Hj.
      set (at_ := offset c + j) in *. set (t := Utf8.spell cps) in *.
      assert (Hst : starts_with (drop at_ s) t = true) by (apply starts_with_atoms; [done|]; by rewrite Ed).
      pose proof (starts_with_length _ _ Hst) as Hlen. rewrite length_drop in Hlen.
      pose proof (atoms_drop_literal cps (drop at_ s) Hc Hst) as Er. rewrite drop_drop in Er. fold t in Er.
      assert (Hlit : ∀ a, matches (ops (token c)) a →
        length cps ≤ length a ∧ matches (ops (token c + 1)) (drop (length cps) a)).
      { intros a Ha. rewrite Eops in Ha. apply matches_lit_iff in Ha as [Ha1 Ha2]. split; [|done].
        apply (f_equal length) in Ha1. rewrite length_take in Ha1. lia. }
      split; [|split; [cbn; lia|split; [right; cbn; lia|split]]].
      * split; [cbn; lia|]. split; [cbn; lia|]. right. split; [done|]. split; [cbn; lia|]. split; [|cbn; lia].
        intros i Hi Hm. cbn [token offset retry_token retry_offset] in *. rewrite <- Etr in Hm.
        destruct (Hlit _ Hm) as [Hl Hm2]. rewrite length_drop in Hl. rewrite Er, length_drop, drop_drop.
        rewrite drop_drop in Hm2. rewrite (Nat.add_comm (length cps) i). split; [lia|done].
      * rewrite Hwant. unfold want. cbn [token offset retry_token retry_offset]. rewrite <- Etr, Er, Ed.
        rewrite length_drop. setoid_rewrite drop_drop. split.
        -- intros [H|[_ (i & Hi & H)]].
           ++ exists k. split; [done|]. rewrite Eops. apply matches_lit_iff. rewrite drop_drop. by split.
           ++ exists (k + i). split; [lia|done].
        -- intros (i & Hi & H). destruct (lt_eq_lt_dec i k) as [[Hlt'|<-]|Hgt].
           ++ exfalso. rewrite Eops in H. apply matches_lit_iff in H as [H _]. by apply (Hmin i Hlt').
           ++ left. rewrite <- drop_drop. by apply Hlit.
           ++ right. split; [lia|]. exists (i - k). split; [lia|]. by replace (k + (i - k)) with i by lia.
      * unfold measure. cbn [token retry_offset]. unfold at_. nia.
    + split; [done|]. rewrite Hwant, Eops. intros (k & _ & H). apply matches_lit_iff in H as [H _].
      by destruct (Hfl k).
Qed.
Lemma one_ok b c f (test : Z → bool) :
  loop_inv c → b ≤ token c → token c < e → (retry_token c = e ∨ b ≤ retry_token c) →
  ops (token c) = OOne f :: ops (token c + 1) → (∀ z, test z = f z) →
  step_ok b c
    (if negb (offset c =? length s) then
       if test (cp (decode_utf8_atom s (offset c))) then
         inr (mkCursor (token c + 1) (offset c + len (decode_utf8_atom s (offset c))) (retry_token c) (retry_offset c))
       else retry e s c
     else retry e s c).
Proof.
  intros Hi Hb Hlt Hbr Eops Ht. pose proof Hi as (_ & Ho & _).
  destruct (Nat.eqb_spec (offset c) (length s)) as [El|El]; cbn [negb].
  - apply retry_ok; [done..|]. rewrite Eops, El, rest_end. intros (? & ? & ? & _)%matches_one_iff. done.
  - destruct (rest_step (offset c)) as [Es Hl]; [lia|]. rewrite Ht.
    destruct (f (cp (decode_utf8_atom s (offset c)))) eqn:Ef.
    + apply take_token_ok; [done..|lia|]. exists 1. split; [by rewrite Es|]. rewrite Eops. split.
      * intros a (z & a' & -> & _ & H)%matches_one_iff. cbn. split; [lia|done].
      * intros H. apply matches_one_iff. rewrite Es. eauto.
    + apply retry_ok; [done..|]. rewrite Eops, Es. intros (z & a' & E & Hf & _)%matches_one_iff. congruence.
Qed.

Lemma match_step_ok b c :
  loop_inv c → b ≤ token c → (retry_token c = e ∨ b ≤ retry_token c) → step_ok b c (match_step g e s c).
Proof.
  intros Hi Hb Hbr. pose proof Hi as (Ht & Ho & Hr). unfold match_step.
  destruct (Nat.eqb_spec (token c) e) as [Ee|Ee].
  - destruct (Nat.eqb_spec (offset c) (length s)) as [El|El].
    + cbn [step_ok]. split; [|done]. intros _. left. rewrite Ee, ops_end, El, rest_end. constructor.
    + apply retry_ok; [done..|]. rewrite Ee, ops_end, matches_nil_iff, atoms_nil.
      intros E%(f_equal length). rewrite length_drop in E. cbn in E. lia.
  - assert (Hlt : token c < e) by lia. destruct (token_kind (tokens g !!! token c)) eqn:Ek.
    + destruct (token_literal _ Hlt Ek) as (cps & Hn & Hc & -> & Eop).
      assert (Eops : ops (token c) = OLit cps :: ops (token c + 1)) by (by rewrite (ops_cons _ Hlt), Eop).
      destruct (Nat.eqb_spec (token c) (retry_token c)) as [Er|Er]; [by apply star_literal_ok|].
      destruct (starts_with _ _) eqn:Es.
      * pose proof (starts_with_length _ _ Es) as Hl. rewrite length_drop in Hl.
        apply take_token_ok; [done..|lia|]. exists (length cps).
        pose proof (atoms_drop_literal cps _ Hc Es) as Ed. rewrite drop_drop in Ed. split; [done|].
        rewrite Eops. split.
        -- intros a [E1 E2]%matches_lit_iff. split; [|done]. apply (f_equal length) in E1.
           rewrite length_take in E1. lia.
        -- intros H. apply matches_lit_iff. rewrite <- Ed. split; [by apply starts_with_atoms|done].
      * apply retry_ok; [done..|]. rewrite Eops. intros [E _]%matches_lit_iff.
        apply starts_with_atoms in E; [congruence|done].
    + by apply star_ok.
    + apply (one_ok b c (λ _, true) (λ z, bool_decide (TAny = TAny) ||
        class_contains (classes g !!! token_begin (tokens g !!! token c)) z)); [done..|by rewrite (ops_cons _ Hlt); unfold token_op; rewrite Ek|].
      intros z. by rewrite bool_decide_true.
    + apply (one_ok b c (class_contains (classes g !!! token_begin (tokens g !!! token c)))
        (λ z, bool_decide (TClass = TAny) || class_contains (classes g !!! token_begin (tokens g !!! token c)) z));
        [done..|by rewrite (ops_cons _ Hlt); unfold token_op; rewrite Ek|].
      intros z. by rewrite bool_decide_false.
Qed.
End Loop.

(** The loop answers, and as the reference does. *)
Lemma match_loop_ok fuel g b e s c :
  e ≤ length (tokens g) → (∀ t, t ∈ tokens g → token_ok g t) →
  loop_inv g e s c → b ≤ token c → (retry_token c = e ∨ b ≤ retry_token c) → measure e s b c < fuel →
  ∃ answer, match_loop fuel g e s c = Some answer ∧ (answer = true ↔ want g e s c).
Proof.
  intros He Hok. revert c. induction fuel as [|fuel IH]; intros c Hi Hb Hbr Hm; [lia|]. cbn [match_loop].
  pose proof (match_step_ok g e s He Hok b c Hi Hb Hbr) as H. destruct (match_step g e s c) as [answer|c'].
  - by exists answer.
  - destruct H as (Hi' & Hb' & Hbr' & Hw & Hm'). destruct (IH c' Hi' Hb' Hbr') as (answer & E & Ha); [lia|].
    exists answer. split; [done|]. by rewrite Ha.
Qed.

Lemma match_tokens_ok g b e input :
  b ≤ e → e ≤ length (tokens g) → (∀ t, t ∈ tokens g → token_ok g t) →
  match_loop (tokens_fuel b e input) g e input (mkCursor b 0 e 0) ≠ None ∧
  (match_tokens g b e input = true ↔ matches (segment_ops g b e) (atoms input)).
Proof.
  intros Hbe He Hok.
  destruct (match_loop_ok (tokens_fuel b e input) g b e input (mkCursor b 0 e 0) He Hok) as (answer & E & Ha).
  - split; [done|]. split; [cbn; lia|]. by left.
  - done.
  - by left.
  - unfold measure, tokens_fuel. cbn [token retry_offset]. lia.
  - unfold match_tokens. rewrite E. split; [done|]. cbn [default from_option id]. rewrite Ha. unfold want.
    cbn [token offset retry_token retry_offset]. rewrite drop_0. split; [|by left]. by intros [H|[? _]].
Qed.

(** Matching the tokens of a segment answers for every input, and yes just
    where the characters of the input match them one by one, a star standing
    for any number of characters: searching for literals byte by byte, and
    giving up on every star but the latest, miss no match and find no other. *)
Theorem match_tokens_correct g b e input :
  b ≤ e → e ≤ length (tokens g) → (∀ t, t ∈ tokens g → token_ok g t) →
  match_loop (tokens_fuel b e input) g e input (mkCursor b 0 e 0) ≠ None ∧
  (match_tokens g b e input = true ↔ matches (segment_ops g b e) (atoms input)).
Proof. exact (match_tokens_ok g b e input). Qed.

(** The tokens of [a*b?[0-9]]: a literal, a star, a literal, any and a class. *)
Definition demo_pools : Pools :=
  mkPools (lit "ab")
    [mkToken TLiteral 0 1; mkToken TStar 0 0; mkToken TLiteral 1 1; mkToken TAny 0 0; mkToken TClass 0 0]
    [mkClass false [(48, 57)%Z]].

Lemma demo_tokens_ok t : t ∈ tokens demo_pools → token_ok demo_pools t.
Proof.
  intros H Hk. cbn [demo_pools tokens] in H.
  repeat (apply elem_of_cons in H as [->|H]; [|]); try done; try by apply elem_of_nil in H.
  - exists [97%Z]. split; [done|]. split; [repeat constructor; cbn; lia || (right; lia)|]. vm_compute. reflexivity.
  - exists [98%Z]. split; [done|]. split; [repeat constructor; cbn; lia || (right; lia)|]. vm_compute. reflexivity.
Qed.

Lemma match_tokens_correct_witness :
  match_tokens demo_pools 0 5 (lit "abbxbc7") = true ∧
  (match_tokens demo_pools 0 5 (lit "abbxbc7") = true ↔
   matches (segment_ops demo_pools 0 5) (atoms (lit "abbxbc7"))) ∧
  match_tokens demo_pools 0 5 (lit "abbxbc7") = match_tokens demo_pools 0 5 (lit "abz7").
Proof.
  split; [vm_compute; reflexivity|]. split; [|vm_compute; reflexivity].
  refine (proj2 (match_tokens_correct demo_pools 0 5 (lit "abbxbc7") _ _ demo_tokens_ok)); cbn; lia.
Defined.

(** ** A literal, a star and a literal *)

(** The tokens of an affix segment: at most a literal on either side of the
    star. *)
Definition affix_tokens (head tail : option Token) : list Token :=
  (match head with Some t => [t] | None => [] end) ++ [mkToken TStar 0 0] ++
  (match tail with Some t => [t] | None => [] end).

Definition affix_text (g : Pools) (t : option Token) : bytes :=
  match t with Some t => literal g t | None => [] end.

(** Both ends of a text, and what lies between. *)
Lemma affix_atoms p q s :
  scalars p → scalars q →
  (length (Utf8.spell p) + length (Utf8.spell q) <=? length s) && starts_with s (Utf8.spell p)
    && ends_with s (Utf8.spell q) = true ↔
  take (length p) (atoms s) = p ∧
  ∃ k, k ≤ length (drop (length p) (atoms s)) ∧ drop k (drop (length p) (atoms s)) = q.
Proof.
  intros Hp Hq. destruct (starts_with s (Utf8.spell p)) eqn:Es.
  - pose proof (proj1 (starts_with_atoms p s Hp) Es) as Ep. pose proof (starts_with_length _ _ Es) as Hl.
    rewrite <- (atoms_drop_literal p s Hp Es). rewrite andb_true_r.
    assert (Eo : (length (Utf8.spell p) + length (Utf8.spell q) <=? length s)
      = (length (Utf8.spell q) <=? length s - length (Utf8.spell p))).
    { apply eq_true_iff_eq. rewrite !Nat.leb_le. lia. }
    rewrite Eo. destruct (decide (q = [])) as [->|Hn].
    + assert (Hends : ends_with s (Utf8.spell []) = true).
      { unfold ends_with. cbn. rewrite Nat.sub_0_r, drop_all. done. }
      rewrite Hends. cbn. split; [|done]. intros _. split; [done|].
      eexists. split; [done|]. by rewrite drop_all.
    + rewrite (ends_with_atoms q s (length (Utf8.spell p)) Hn Hq Hl).
      set (a := atoms (drop (length (Utf8.spell p)) s)). split.
      * intros (k & Hk & E1 & E2). split; [done|]. exists k. split; [done|].
        rewrite <- (take_drop (length q) (drop k a)), E1, E2. apply app_nil_r.
      * intros [_ (k & Hk & E)]. exists k. split; [done|]. rewrite E. by rewrite take_ge, drop_all.
  - rewrite andb_false_r. split; [done|]. intros [E _]. apply starts_with_atoms in E; [congruence|done].
Qed.

Lemma optional_literal g (t : option Token) :
  (∀ x, t = Some x → token_kind x = TLiteral ∧ token_ok g x) →
  ∃ cps, scalars cps ∧ affix_text g t = Utf8.spell cps ∧
    ∀ ops a, matches ((token_op g <$> match t with Some x => [x] | None => [] end) ++ ops) a ↔
      take (length cps) a = cps ∧ matches ops (drop (length cps) a).
Proof.
  intros H. destruct t as [x|].
  - destruct (H x eq_refl) as [Hk Hx]. destruct (Hx Hk) as (cps & _ & Hc & E). exists cps. split; [done|].
    split; [done|]. intros ops a. cbn [fmap list_fmap app]. unfold token_op. rewrite Hk, E.
    rewrite <- (app_nil_r (Utf8.spell cps)), atoms_spell, app_nil_r by done. apply matches_lit_iff.
  - exists []. split; [constructor|]. split; [done|]. intros ops a. cbn. rewrite take_0, drop_0. naive_solver.
Qed.

Lemma segment_lookup g b e l i t :
  e ≤ length (tokens g) → take (e - b) (drop b (tokens g)) = l → l !! i = Some t → tokens g !!! (b + i) = t.
Proof.
  intros He <- Hl. apply lookup_take_Some in Hl as [Hl _]. rewrite lookup_drop in Hl.
  by rewrite list_lookup_total_alt, Hl.
Qed.

Lemma match_affix_ok g b e head tail input :
  e ≤ length (tokens g) → take (e - b) (drop b (tokens g)) = affix_tokens head tail →
  (∀ x, head = Some x → token_kind x = TLiteral ∧ token_ok g x) →
  (∀ x, tail = Some x → token_kind x = TLiteral ∧ token_ok g x) →
  match_affix g b e input = true ↔ matches (segment_ops g b e) (atoms input).
Proof.
  intros He Et Hh Htl. destruct (optional_literal g head Hh) as (p & Hp & Ep & Mp).
  destruct (optional_literal g tail Htl) as (q & Hq & Eq & Mq).
  assert (Hlen : length (affix_tokens head tail) = e - b)
    by (rewrite <- Et, length_take, length_drop; lia).
  assert (Hhead : (if bool_decide (token_kind (tokens g !!! b) = TLiteral) then literal g (tokens g !!! b) else [])
    = affix_text g head).
  { assert (Hx : tokens g !!! b = default (mkToken TStar 0 0) head).
    { rewrite <- (Nat.add_0_r b). apply (segment_lookup g b e _ 0 _ He Et). by destruct head. }
    rewrite Hx. destruct head as [x|]; [|done]. cbn [default from_option id]. destruct (Hh x eq_refl) as [Hk _].
    by rewrite bool_decide_true. }
  assert (Htail : (if bool_decide (token_kind (tokens g !!! (e - 1)) = TLiteral) then literal g (tokens g !!! (e - 1)) else [])
    = affix_text g tail).
  { assert (Hx : tokens g !!! (e - 1) = default (mkToken TStar 0 0) tail).
    { replace (e - 1) with (b + (length (affix_tokens head tail) - 1)) by (destruct head, tail; cbn in *; lia).
      apply (segment_lookup g b e _ _ _ He Et). by destruct head, tail. }
    rewrite Hx. destruct tail as [x|]; [|done]. cbn [default from_option id]. destruct (Htl x eq_refl) as [Hk _].
    by rewrite bool_decide_true. }
  unfold match_affix. rewrite Hhead, Htail, Ep, Eq, (affix_atoms p q input Hp Hq).
  unfold segment_ops. rewrite Et. unfold affix_tokens. rewrite !fmap_app, Mp. cbn [fmap list_fmap app].
  change (token_op g (mkToken TStar 0 0)) with OStar. rewrite matches_star_iff.
  specialize (Mq []). setoid_rewrite app_nil_r in Mq. setoid_rewrite Mq. setoid_rewrite matches_nil_iff.
  split; intros [Hp1 (k & Hk & H)]; (split; [done|]); exists k; (split; [done|]).
  - rewrite H. by rewrite take_ge, drop_all.
  - destruct H as [H1 H2]. rewrite <- (take_drop (length q) (drop k _)), H1, H2. apply app_nil_r.
Qed.
