(* ===== verification/GlobExec.v ===== *)
(** Matching whole paths: [find_segment], [execute] and what they need of
    src/support/glob_pattern.cpp, over the segments of
    include/kotatsu/support/glob_pattern.h.

    The reference matches the pattern's segments against the names between the
    slashes of a path, a globstar standing for any number of them.  The loop
    of [execute] keeps the latest globstar only, delimits a segment when it
    must, and jumps between segments that start with the character the next
    literal starts with.  [execute]'s cache of the last segment end found
    ([seen_offset], [seen_end]) is left out: what it returns is [segment_end]. *)

From Stdlib Require Import Strings.Byte ZArith Lia Bool.
From stdpp Require Import prelude strings.
From S2P Require Import Prelude Swar Utf8 Glob GlobMatch.
Local Open Scope kota_scope.
Local Open Scope nat_scope.

(** ** Data *)

Inductive SegmentKind := Recursive | LiteralSegment | Affix | General.

#[export] Instance segment_kind_eq_dec : EqDecision SegmentKind.
Proof. solve_decision. Defined.

Record Segment := mkSegment {
  seg_kind : SegmentKind;
  nullable : bool;
  optional_rest : bool;
  has_first : bool;
  first : byte;
  seg_begin : nat;
  seg_end : nat;
}.

#[export] Instance segment_inhabited : Inhabited Segment :=
  populate (mkSegment General false false false x00 0 0).

(** ** Operations *)

(** [str.find(c, from)]. *)
Definition find_char (str : bytes) (c : byte) (from : nat) : option nat :=
  (λ i, from + i) <$> find_index (λ x, x =?b c) (drop from str).

(** Whether a segment starts at [at_]. *)
Definition starts_segment (str : bytes) (at_ : nat) : bool :=
  (at_ =? 0) || (str !!! (at_ - 1) =?b slash).

Fixpoint find_segment_from (fuel : nat) (str : bytes) (from : nat) (c : byte) (text : bytes) : option nat :=
  match fuel with
  | O => None
  | S fuel' =>
      match find_char str c from with
      | None => None
      | Some at_ =>
          let end_ := at_ + length text in
          if length str <? end_ then None
          else if starts_segment str at_
                  && (bool_decide (text = [])
                      || (((end_ =? length str) || (str !!! end_ =?b slash))
                          && bool_decide (substr str at_ (length text) = text))) then Some at_
          else find_segment_from fuel' str (at_ + 1) c text
      end
  end.

Definition find_segment (str : bytes) (from : nat) (c : byte) (text : bytes) : option nat :=
  find_segment_from (S (length str)) str from c text.

Definition segment_end (str : bytes) (begin : nat) : nat := default (length str) (find_char str slash begin).

(** Where [execute] is, and where its latest globstar resumes. *)
Record place := mkPlace { segment : nat; at_ : nat; retry_segment : nat; retry_at : nat }.

Section Execute.
Variables (g : Pools) (segments : list Segment) (arm_end : nat) (str : bytes).

(** Whether a segment other than a globstar matches at [offset], and where the
    input's segment ends. *)
Definition match_segment (part : Segment) (offset : nat) : bool * nat :=
  match seg_kind part with
  | LiteralSegment =>
      let text := if seg_begin part =? seg_end part then [] else literal g (tokens g !!! seg_begin part) in
      let end_ := offset + length text in
      ((end_ <=? length str) && ((end_ =? length str) || (str !!! end_ =?b slash))
         && bool_decide (substr str offset (length text) = text), end_)
  | _ =>
      let end_ := segment_end str offset in
      let input := substr str offset (end_ - offset) in
      (if bool_decide (seg_kind part = Affix) then match_affix g (seg_begin part) (seg_end part) input
       else match_tokens g (seg_begin part) (seg_end part) input, end_)
  end.

(** Jumping to the next segment that starts as the retry segment does. *)
Definition jump (p : place) (from : nat) : bool + place :=
  match find_segment str from (first (segments !!! retry_segment p)) [] with
  | None => inl false
  | Some o => inr (mkPlace (retry_segment p) o (retry_segment p) o)
  end.

(** A segment that did not match: the latest globstar takes one more. *)
Definition exec_retry (p : place) : bool + place :=
  if retry_segment p =? arm_end then inl false
  else if negb (has_first (segments !!! retry_segment p)) then
    let end_ := segment_end str (retry_at p) in
    let o := if end_ =? length str then end_ else end_ + 1 in
    inr (mkPlace (retry_segment p) o (retry_segment p) o)
  else jump p (retry_at p + 1).

Definition exec_step (p : place) : bool + place :=
  let part := segments !!! segment p in
  if at_ p =? length str then inl (nullable part)
  else
    match seg_kind part with
    | Recursive =>
        let s := segment p + 1 in
        if s =? arm_end then inl true
        else
          let p' := mkPlace s (at_ p) s (at_ p) in
          if negb (has_first (segments !!! s)) then inr p' else jump p' (at_ p)
    | _ =>
        if negb (has_first part) || (str !!! at_ p =?b first part) then
          let '(matched, end_) := match_segment part (at_ p) in
          if matched then
            if end_ =? length str then (if optional_rest part then inl true else exec_retry p)
            else if negb (segment p + 1 =? arm_end) then
              inr (mkPlace (segment p + 1) (end_ + 1) (retry_segment p) (retry_at p))
            else exec_retry p
          else exec_retry p
        else exec_retry p
    end.

Fixpoint exec_loop (fuel : nat) (p : place) : option bool :=
  match fuel with
  | O => None
  | S fuel' =>
      match exec_step p with
      | inl answer => Some answer
      | inr p' => exec_loop fuel' p'
      end
  end.

(** Every iteration takes a segment of the pattern, or moves where the globstar
    resumes. *)
Definition exec_fuel (arm_begin : nat) : nat := S (length str * (arm_end - arm_begin + 1) + (arm_end - arm_begin)).

Definition execute (arm_begin : nat) : bool :=
  default false (exec_loop (exec_fuel arm_begin) (mkPlace arm_begin 0 arm_end 0)).
End Execute.

(** ** The reference *)

(** The names between the slashes of a path; a path has one more of them than
    slashes. *)
Fixpoint split_path (s : bytes) : list bytes :=
  match s with
  | [] => [[]]
  | c :: s' =>
      if c =?b slash then [] :: split_path s'
      else match split_path s' with w :: ws => (c :: w) :: ws | [] => [[c]] end
  end.

(** A segment of a pattern: a globstar, or tokens for one name. *)
Inductive seg := Globstar | Name (ops : list op).

Inductive path_matches : list seg → list bytes → Prop :=
| pm_nil : path_matches [] []
| pm_name ops segs w ws : matches ops (atoms w) → path_matches segs ws → path_matches (Name ops :: segs) (w :: ws)
| pm_star segs l ws : path_matches segs ws → path_matches (Globstar :: segs) (l ++ ws).

(** What a segment of the pools stands for. *)
Definition segment_spec (g : Pools) (s : Segment) : seg :=
  if decide (seg_kind s = Recursive) then Globstar else Name (segment_ops g (seg_begin s) (seg_end s)).

Definition arm_segs (g : Pools) (segments : list Segment) (b e : nat) : list seg :=
  segment_spec g <$> take (e - b) (drop b segments).


(** ** Splitting a path *)

Lemma split_path_nonempty s : split_path s ≠ [].
Proof. destruct s as [|c s]; [done|]. cbn. destruct (c =?b slash); [done|]. by destruct (split_path s). Qed.

Lemma split_path_slash a b : split_path (a ++ slash :: b) = split_path a ++ split_path b.
Proof.
  induction a as [|c a IH]; [done|]. cbn [app split_path]. rewrite IH. destruct (c =?b slash); [done|].
  destruct (split_path a) eqn:E; [by destruct (split_path_nonempty a)|done].
Qed.

Lemma split_path_single s : slash ∉ s → split_path s = [s].
Proof.
  induction s as [|c s IH]; [done|]. intros [Hc Hs]%not_elem_of_cons. cbn [split_path].
  rewrite IH by done. by rewrite (proj2 (byte_eqb_neq c slash)).
Qed.

(** What follows the first [k] names is what follows a slash. *)
Lemma split_path_drop k s :
  1 ≤ k → k < length (split_path s) → ∃ a b, s = a ++ slash :: b ∧ split_path b = drop k (split_path s).
Proof.
  revert k. induction s as [|c s IH]; intros k H1 Hk; [cbn in Hk; lia|]. cbn [split_path] in Hk |- *.
  destruct (c =?b slash) eqn:Ec.
  - apply byte_eqb_spec in Ec as ->. cbn [length] in Hk. destruct k as [|k]; [lia|]. cbn [drop].
    destruct k as [|k]; [by exists [], s|]. destruct (IH (S k)) as (a & b & -> & E); [lia..|].
    by exists (slash :: a), b.
  - destruct (split_path s) as [|w ws] eqn:E; [by destruct (split_path_nonempty s)|]. cbn [length] in Hk.
    destruct (IH k) as (a & b & -> & E2); [lia|cbn; lia|]. exists (c :: a), b. split; [done|].
    rewrite E2. by destruct k; [lia|].
Qed.

Section Paths.
Variable str : bytes.

(** The names from an offset on. *)
Notation segs o := (split_path (drop o str)).

Lemma segs_end : segs (length str) = [[]].
Proof. by rewrite drop_all. Qed.

(** A segment starts at [o']: its names are some of those from [o] on. *)
Lemma segs_suffix o o' :
  o < o' → o' ≤ length str → str !!! (o' - 1) = slash →
  ∃ k, 1 ≤ k < length (segs o) ∧ drop k (segs o) = segs o'.
Proof.
  intros Ho Hl Hs. assert (E : drop o str = substr str o (o' - 1 - o) ++ slash :: drop o' str).
  { unfold substr. rewrite <- (take_drop (o' - 1 - o) (drop o str)) at 1. f_equal. rewrite drop_drop.
    replace (o + (o' - 1 - o)) with (o' - 1) by lia.
    rewrite (drop_S str slash (o' - 1)) by (rewrite <- Hs; apply list_lookup_lookup_total_lt; lia).
    by replace (S (o' - 1)) with o' by lia. }
  rewrite E, split_path_slash. set (a := split_path (substr _ _ _)). exists (length a).
  rewrite length_app, drop_app_length. pose proof (split_path_nonempty (drop o' str)).
  assert (a ≠ []) by apply split_path_nonempty. destruct a; [done|]. destruct (split_path (drop o' str)); [done|].
  cbn. split; [lia|done].
Qed.

Lemma segs_drop o k :
  o ≤ length str → 1 ≤ k < length (segs o) →
  ∃ o', o < o' ≤ length str ∧ str !!! (o' - 1) = slash ∧ segs o' = drop k (segs o).
Proof.
  intros Ho Hk. destruct (split_path_drop k (drop o str)) as (a & b & E & Eb); [lia..|].
  assert (Hl : length (drop o str) = length a + S (length b)) by (rewrite E, length_app; done).
  rewrite length_drop in Hl. exists (o + length a + 1). split; [lia|]. split.
  - replace (o + length a + 1 - 1) with (o + length a) by lia. apply list_lookup_total_correct.
    rewrite <- lookup_drop, E, lookup_app_r by lia. by rewrite Nat.sub_diag.
  - rewrite <- Eb. f_equal. rewrite <- Nat.add_assoc, <- drop_drop, E, drop_app.
    rewrite drop_ge by lia. by replace (length a + 1 - length a) with 1 by lia.
Qed.

Lemma segment_end_range o : o ≤ length str → o ≤ segment_end str o ≤ length str.
Proof.
  intros Ho. unfold segment_end, find_char. destruct (find_index _ _) as [i|] eqn:E; cbn; [|lia].
  apply find_index_bound in E. rewrite length_drop in E. lia.
Qed.

(** The first name, and those after it. *)
Lemma segs_head o :
  o ≤ length str →
  let e := segment_end str o in
  slash ∉ substr str o (e - o) ∧ (e = length str ∨ str !!! e = slash) ∧
  segs o = substr str o (e - o) :: (if e =? length str then [] else segs (e + 1)).
Proof.
  intros Ho e. unfold e, segment_end, find_char. destruct (find_index _ _) as [i|] eqn:E; cbn [fmap option_fmap option_map default from_option id].
  - apply find_byte_some in E as (Ei & Hn & Hi). rewrite length_drop in Hi. replace (o + i - o) with i by lia.
    fold (substr str o i). split; [done|]. split.
    + right. apply list_lookup_total_correct. rewrite <- lookup_drop, Ei, lookup_app_r, length_take, length_drop
        by (rewrite length_take, length_drop; lia). by replace (i - i `min` (length str - o)) with 0 by lia.
    + destruct (Nat.eqb_spec (o + i) (length str)) as [|_]; [lia|]. rewrite Ei at 1.
      rewrite split_path_slash, split_path_single, drop_drop by done. by rewrite Nat.add_assoc.
  - apply find_byte_none in E. unfold substr. rewrite take_ge by (rewrite length_drop; lia).
    rewrite Nat.eqb_refl. split; [done|]. split; [by left|]. by apply split_path_single.
Qed.
End Paths.

(** ** Finding a segment *)

Lemma find_char_ok str c from :
  match find_char str c from with
  | None => ∀ o, from ≤ o → str !! o ≠ Some c
  | Some o => from ≤ o ∧ str !! o = Some c ∧ ∀ o', from ≤ o' < o → str !! o' ≠ Some c
  end.
Proof.
  unfold find_char. destruct (find_index _ _) as [i|] eqn:E; cbn [fmap option_fmap option_map].
  - apply find_byte_some in E as (E & Hn & Hi). split; [lia|]. split.
    + rewrite <- lookup_drop, E, lookup_app_r by (rewrite length_take; lia).
      rewrite length_take. by replace (i - i `min` length (drop from str)) with 0 by lia.
    + intros o' Ho' Hc. apply Hn. apply list_elem_of_lookup. exists (o' - from).
      rewrite lookup_take_lt by lia. rewrite lookup_drop. by replace (from + (o' - from)) with o' by lia.
  - apply find_byte_none in E. intros o Ho Hc. apply E. apply list_elem_of_lookup. exists (o - from).
    rewrite lookup_drop. by replace (from + (o - from)) with o by lia.
Qed.

(** A segment that starts with [c] and, when there is a text, is it. *)
Definition candidate (str : bytes) (c : byte) (text : bytes) (o : nat) : Prop :=
  str !! o = Some c ∧ o + length text ≤ length str ∧ starts_segment str o = true ∧
  (text = [] ∨ (o + length text = length str ∨ str !!! (o + length text) = slash) ∧ substr str o (length text) = text).

Lemma find_segment_from_ok fuel str from c text :
  length str < from + fuel →
  match find_segment_from fuel str from c text with
  | None => ∀ o, from ≤ o → ¬ candidate str c text o
  | Some o => from ≤ o ∧ candidate str c text o ∧ ∀ o', from ≤ o' < o → ¬ candidate str c text o'
  end.
Proof.
  revert from. induction fuel as [|fuel IH]; intros from Hf; cbn [find_segment_from].
  { intros o Ho (H%lookup_lt_Some & _). lia. }
  pose proof (find_char_ok str c from) as Hc. destruct (find_char str c from) as [a|].
  2:{ intros o Ho (H & _). by apply (Hc o). }
  destruct Hc as (Ha & Ea & Hb). pose proof (lookup_lt_Some _ _ _ Ea) as Hlt.
  assert (Hbefore : ∀ o', from ≤ o' < a → ¬ candidate str c text o') by (intros o' Ho' (H & _); by apply (Hb o')).
  destruct (Nat.ltb_spec (length str) (a + length text)) as [Hend|Hend].
  { intros o Ho Hcand. destruct (decide (o < a)); [by apply (Hbefore o); [lia|]|].
    destruct Hcand as (_ & H & _). lia. }
  destruct (starts_segment str a && _) eqn:Et.
  - split; [done|]. split; [|done]. apply andb_true_iff in Et as [E1 E2]. split; [done|]. split; [done|].
    split; [done|]. apply orb_true_iff in E2 as [E2|E2]; [left; by apply bool_decide_eq_true in E2|right].
    apply andb_true_iff in E2 as [E2 E3]. apply bool_decide_eq_true in E3. split; [|done].
    apply orb_true_iff in E2 as [E2|E2]; [left; by apply Nat.eqb_eq|right; by apply byte_eqb_spec].
  - assert (Hno : ¬ candidate str c text a).
    { intros (_ & _ & H1 & H2). rewrite H1 in Et. cbn [andb] in Et. apply orb_false_iff in Et as [Et1 Et2].
      destruct H2 as [->|[H2 H3]]; [done|]. rewrite (bool_decide_true _ H3), andb_true_r in Et2.
      apply orb_false_iff in Et2 as [Et2 Et3]. destruct H2 as [H2|H2].
      - by apply Nat.eqb_neq in Et2. - by apply byte_eqb_neq in Et3. }
    specialize (IH (a + 1) ltac:(lia)).
    assert (Hupto : ∀ o', from ≤ o' < a + 1 → ¬ candidate str c text o').
    { intros o' Ho'. destruct (decide (o' = a)) as [->|]; [done|]. apply Hbefore. lia. }
    destruct (find_segment_from fuel str (a + 1) c text) as [o|].
    + destruct IH as (H1 & H2 & H3). split; [lia|]. split; [done|]. intros o' Ho'.
      destruct (decide (o' < a + 1)); [apply Hupto; lia|apply H3; lia].
    + intros o Ho. destruct (decide (o < a + 1)); [apply Hupto; lia|apply IH; lia].
Qed.

Lemma find_segment_ok str from c text :
  match find_segment str from c text with
  | None => ∀ o, from ≤ o → ¬ candidate str c text o
  | Some o => from ≤ o ∧ candidate str c text o ∧ ∀ o', from ≤ o' < o → ¬ candidate str c text o'
  end.
Proof. apply find_segment_from_ok. lia. Qed.

Lemma starts_segment_iff str o : starts_segment str o = true ↔ o = 0 ∨ str !!! (o - 1) = slash.
Proof. unfold starts_segment. by rewrite orb_true_iff, Nat.eqb_eq, byte_eqb_spec. Qed.

(** ** The reference's laws *)

Lemma path_name_iff ops l ws :
  path_matches (Name ops :: l) ws ↔ ∃ w ws', ws = w :: ws' ∧ matches ops (atoms w) ∧ path_matches l ws'.
Proof. split; [inversion 1; subst; eauto|]. intros (w & ws' & -> & H1 & H2). by constructor. Qed.

Lemma path_star_iff l ws :
  path_matches (Globstar :: l) ws ↔ ∃ k, k ≤ length ws ∧ path_matches l (drop k ws).
Proof.
  split.
  - inversion 1 as [| |segs l0 ws' H0]; subst. exists (length l0). rewrite length_app, drop_app_length. split; [lia|done].
  - intros (k & _ & H). rewrite <- (take_drop k ws). by constructor.
Qed.

Lemma path_nil_iff ws : path_matches [] ws ↔ ws = [].
Proof. split; [by inversion 1|]. intros ->. constructor. Qed.

Lemma path_star_absorb l k ws : path_matches (Globstar :: l) (drop k ws) → path_matches (Globstar :: l) ws.
Proof.
  rewrite !path_star_iff. intros (j & _ & H). rewrite drop_drop in H.
  destruct (decide (k + j ≤ length ws)); [by exists (k + j)|]. exists (length ws). split; [lia|].
  rewrite drop_all. by rewrite drop_ge in H by lia.
Qed.

(** Globstars alone match no name at all, and then anything. *)
Lemma path_empty l ws : path_matches l [] → path_matches l ws ∨ l = [].
Proof.
  destruct l as [|[|ops] l]; [by right| |]; intros H; left.
  - apply (path_star_absorb l (length ws)). by rewrite drop_all.
  - apply path_name_iff in H as (? & ? & ? & _). done.
Qed.

(** ** Well-formed arms *)

Definition segment_tokens (g : Pools) (s : Segment) : list Token :=
  take (seg_end s - seg_begin s) (drop (seg_begin s) (tokens g)).

Definition recursive (s : Segment) : bool := bool_decide (seg_kind s = Recursive).

Definition is_star (t : Token) : bool := bool_decide (token_kind t = TStar).

(** A segment's kind says how its tokens look, and [first] is where its text
    starts. *)
Definition segment_ok (g : Pools) (s : Segment) : Prop :=
  seg_begin s ≤ seg_end s ∧ seg_end s ≤ length (tokens g) ∧
  match seg_kind s with
  | Recursive => has_first s = false
  | LiteralSegment =>
      segment_tokens g s = [] ∨ ∃ t, segment_tokens g s = [t] ∧ token_kind t = TLiteral
  | Affix => ∃ head tail, segment_tokens g s = affix_tokens head tail ∧
      (∀ x, head = Some x → token_kind x = TLiteral) ∧ (∀ x, tail = Some x → token_kind x = TLiteral)
  | General => segment_tokens g s ≠ []
  end ∧
  (has_first s = true → ∃ t ts, segment_tokens g s = t :: ts ∧ token_kind t = TLiteral ∧
     literal g t !! 0 = Some (first s)).

(** [optional_rest]: only globstars follow.  [nullable]: from here on the
    pattern matches an empty name. *)
Fixpoint flags_ok (g : Pools) (l : list Segment) : Prop :=
  match l with
  | [] => True
  | s :: l' =>
      flags_ok g l' ∧ optional_rest s = forallb recursive l' ∧
      nullable s = (if recursive s then match l' with s' :: _ => nullable s' | [] => true end
                    else forallb recursive l' && forallb is_star (segment_tokens g s))
  end.

(** A globstar is followed by another, or by a segment that has tokens. *)
Definition resumable (g : Pools) (s : Segment) : Prop := recursive s = true ∨ segment_tokens g s ≠ [].

(** The pools hold UTF-8 literals without a slash. *)
Definition pools_ok (g : Pools) : Prop :=
  ∀ t, t ∈ tokens g → token_ok g t ∧ (token_kind t = TLiteral → slash ∉ literal g t).

Definition arm_ok (g : Pools) (segments : list Segment) (b e : nat) : Prop :=
  b < e ∧ e ≤ length segments ∧ pools_ok g ∧
  (∀ s, s ∈ take (e - b) (drop b segments) → segment_ok g s) ∧ flags_ok g (take (e - b) (drop b segments)) ∧
  (∀ i, b ≤ i → i + 1 < e → recursive (segments !!! i) = true → resumable g (segments !!! (i + 1))).

Lemma segment_token_elem g s t : t ∈ segment_tokens g s → t ∈ tokens g.
Proof. intros H. apply list_elem_of_lookup in H as [i H]. apply lookup_take_Some in H as [H _].
  rewrite lookup_drop in H. by apply list_elem_of_lookup_2 in H. Qed.

Lemma only_globstars g l : path_matches (segment_spec g <$> l) [] ↔ forallb recursive l = true.
Proof.
  induction l as [|s l IH]; [split; [done|constructor]|]. cbn [fmap list_fmap forallb].
  unfold segment_spec at 1, recursive at 1. case_decide as E.
  - rewrite bool_decide_true by done. cbn [andb]. rewrite <- IH, path_star_iff. split.
    + intros (k & _ & H). by rewrite drop_nil in H.
    + intros H. exists 0. split; [cbn; lia|done].
  - rewrite bool_decide_false by done. split; [|done]. intros (? & ? & ? & _)%path_name_iff. done.
Qed.

Lemma only_stars g ts :
  (∀ t, t ∈ ts → token_ok g t) → matches (token_op g <$> ts) [] ↔ forallb is_star ts = true.
Proof.
  induction ts as [|t ts IH]; intros Hok; [split; [done|constructor]|]. cbn [fmap list_fmap forallb].
  specialize (IH ltac:(intros x Hx; apply Hok; by right)). pose proof (Hok t ltac:(left)) as Ht.
  unfold token_op at 1, is_star at 1. destruct (token_kind t) eqn:Ek.
  - rewrite bool_decide_false by done. split; [|done]. intros [E _]%matches_lit_iff. exfalso.
    destruct (Ht Ek) as (cps & Hn & Hc & El). rewrite El in E. rewrite <- (app_nil_r (Utf8.spell cps)) in E.
    rewrite atoms_spell in E by done. by destruct cps.
  - rewrite bool_decide_true by done. cbn [andb]. rewrite <- IH, matches_star_iff. split.
    + intros (k & _ & H). by rewrite drop_nil in H.
    + intros H. exists 0. split; [cbn; lia|done].
  - rewrite bool_decide_false by done. split; [|done]. intros (? & ? & ? & _)%matches_one_iff. done.
  - rewrite bool_decide_false by done. split; [|done]. intros (? & ? & ? & _)%matches_one_iff. done.
Qed.

Lemma segment_spec_name g s : recursive s = false → segment_spec g s = Name (token_op g <$> segment_tokens g s).
Proof. intros H%bool_decide_eq_false. unfold segment_spec. by rewrite decide_False. Qed.

Lemma segment_spec_star g s : recursive s = true → segment_spec g s = Globstar.
Proof. intros H%bool_decide_eq_true. unfold segment_spec. by rewrite decide_True. Qed.

Lemma nullable_ok g s l :
  pools_ok g → flags_ok g (s :: l) → path_matches (segment_spec g <$> s :: l) [[]] ↔ nullable s = true.
Proof.
  intros Hp. revert s. induction l as [|s' l IH]; intros s (Hf & _ & ->); cbn [fmap list_fmap].
  - destruct (recursive s) eqn:Er.
    + rewrite segment_spec_star by done. split; [done|]. intros _. apply path_star_iff. exists 1.
      split; [cbn; lia|constructor].
    + rewrite segment_spec_name, path_name_iff by done. cbn [forallb andb]. rewrite <- (only_stars g).
      2:{ intros t Ht. apply Hp. by apply (segment_token_elem g s). }
      split.
      * intros (w & ws & [= <- <-] & H & _). done.
      * intros H. eexists _, _. split; [done|]. split; [done|constructor].
  - destruct (recursive s) eqn:Er.
    + rewrite segment_spec_star by done. rewrite <- (IH s' Hf), path_star_iff. split.
      * intros (k & Hk & H). destruct k as [|k]; [done|]. rewrite drop_ge in H by (cbn in *; lia).
        apply (path_empty _ [[]]) in H as [H|H]; done.
      * intros H. exists 0. split; [cbn; lia|done].
    + rewrite segment_spec_name, path_name_iff by done. rewrite andb_true_iff, <- (only_globstars g), <- (only_stars g).
      2:{ intros t Ht. apply Hp. by apply (segment_token_elem g s). }
      split.
      * intros (w & ws & [= <- <-] & H & H2). done.
      * intros [H1 H2]. by eexists _, _.
Qed.

(** ** Matching one segment *)

Lemma segment_end_unique str o n :
  o + n ≤ length str → slash ∉ substr str o n → o + n = length str ∨ str !!! (o + n) = slash →
  segment_end str o = o + n.
Proof.
  intros Hl Hn Hs. unfold segment_end. pose proof (find_char_ok str slash o) as Hf.
  destruct (find_char str slash o) as [a|]; cbn [default from_option id].
  - destruct Hf as (H1 & H2 & H3). pose proof (lookup_lt_Some _ _ _ H2).
    destruct (Nat.lt_total a (o + n)) as [Hlt|[->|Hgt]]; [|done|].
    + destruct Hn. apply list_elem_of_lookup. exists (a - o). unfold substr.
      rewrite lookup_take_lt, lookup_drop by lia. by replace (o + (a - o)) with a by lia.
    + destruct Hs as [Hs|Hs]; [lia|]. exfalso. apply (H3 (o + n)); [lia|].
      rewrite <- Hs. apply list_lookup_lookup_total_lt. lia.
  - destruct Hs as [Hs|Hs]; [done|]. destruct (decide (o + n = length str)); [done|]. exfalso.
    apply (Hf (o + n)); [lia|]. rewrite <- Hs. apply list_lookup_lookup_total_lt. lia.
Qed.

(** A text without a slash is the name at [o] when it stands there and ends
    where the name does. *)
Lemma literal_name str o text :
  o ≤ length str → slash ∉ text →
  (o + length text <=? length str) && ((o + length text =? length str) || (str !!! (o + length text) =?b slash))
    && bool_decide (substr str o (length text) = text) = true ↔
  substr str o (segment_end str o - o) = text.
Proof.
  intros Ho Hn. rewrite !andb_true_iff, Nat.leb_le, orb_true_iff, Nat.eqb_eq, byte_eqb_spec, bool_decide_eq_true.
  split.
  - intros [[H1 H2] H3]. rewrite (segment_end_unique str o (length text)) by (rewrite ?H3; done).
    by replace (o + length text - o) with (length text) by lia.
  - intros E. destruct (segs_head str o Ho) as (_ & Hend & _). pose proof (segment_end_range str o Ho).
    assert (El : length text = segment_end str o - o) by (rewrite <- E, length_substr; lia).
    rewrite El. replace (o + (segment_end str o - o)) with (segment_end str o) by lia. split; [|done]. split; [lia|done].
Qed.

Lemma literal_ops g t w :
  token_kind t = TLiteral → token_ok g t → matches [token_op g t] (atoms w) ↔ w = literal g t.
Proof.
  intros Hk Ht. destruct (Ht Hk) as (cps & _ & Hc & E). unfold token_op. rewrite Hk, E.
  assert (Ea : atoms (Utf8.spell cps) = cps) by (by rewrite <- (app_nil_r (Utf8.spell cps)), atoms_spell, app_nil_r).
  rewrite Ea, matches_lit_iff, matches_nil_iff. split.
  - intros [E1 E2]. destruct (atoms_spell_inv cps w [] Hc) as (rest & -> & Er).
    { by rewrite <- E2, <- E1 at 1; rewrite take_drop. }
    apply atoms_nil in Er as ->. apply app_nil_r.
  - intros ->. by rewrite Ea, take_ge, drop_all.
Qed.

Lemma match_segment_ok g str s o :
  pools_ok g → segment_ok g s → recursive s = false → o ≤ length str →
  let w := substr str o (segment_end str o - o) in
  ((match_segment g str s o).1 = true ↔ matches (token_op g <$> segment_tokens g s) (atoms w)) ∧
  ((match_segment g str s o).1 = true → (match_segment g str s o).2 = segment_end str o).
Proof.
  intros Hp (Hbe & Hlen & Hkind & _) Hr Ho w. unfold match_segment, recursive in *. apply bool_decide_eq_false in Hr.
  destruct (seg_kind s) eqn:Ek; [done| | |].
  - cbn [fst snd]. set (text := if _ : bool then [] else _).
    assert (Htext : slash ∉ text ∧ (matches (token_op g <$> segment_tokens g s) (atoms w) ↔ w = text)).
    { destruct Hkind as [E|(t & E & Hk)]; unfold text; rewrite E.
      - assert (seg_begin s = seg_end s) as ->.
        { apply (f_equal length) in E. unfold segment_tokens in E. rewrite length_take, length_drop in E. cbn in E. lia. }
        rewrite Nat.eqb_refl. split; [apply not_elem_of_nil|]. cbn [fmap list_fmap].
        by rewrite matches_nil_iff, atoms_nil.
      - assert (Hin : t ∈ tokens g) by (apply (segment_token_elem g s); rewrite E; left).
        destruct (Hp t Hin) as [Ht Hsl]. pose proof E as E1. apply (f_equal length) in E1.
        unfold segment_tokens in E1. rewrite length_take, length_drop in E1. cbn in E1.
        destruct (Nat.eqb_spec (seg_begin s) (seg_end s)) as [|_]; [lia|].
        assert (Hx : tokens g !!! seg_begin s = t).
        { rewrite <- (Nat.add_0_r (seg_begin s)). by apply (segment_lookup g _ _ _ 0 _ Hlen E). }
        rewrite Hx. split; [by apply Hsl|]. cbn [fmap list_fmap]. by apply literal_ops. }
    destruct Htext as [Hns ->]. rewrite (literal_name str o text Ho Hns). split; [done|]. intros E.
    assert (El : length text = segment_end str o - o).
    { pose proof (segment_end_range str o Ho). rewrite <- E, length_substr; lia. }
    pose proof (segment_end_range str o Ho). lia.
  - cbn [fst snd]. split; [|done]. rewrite bool_decide_true by done. fold w.
    destruct Hkind as (head & tail & E & Hh & Ht). apply (match_affix_ok g _ _ head tail w Hlen E).
    + intros x ->. split; [by apply Hh|]. apply Hp. apply (segment_token_elem g s). rewrite E. left.
    + intros x ->. split; [by apply Ht|]. apply Hp. apply (segment_token_elem g s). rewrite E.
      unfold affix_tokens. rewrite !elem_of_app. right. right. left.
  - cbn [fst snd]. split; [|done]. rewrite bool_decide_false by done. fold w.
    apply match_tokens_ok; [done..|]. intros t Ht. by apply Hp.
Qed.

(** ** The loop *)

Section Loop.
Variables (g : Pools) (segments : list Segment) (b e : nat) (str : bytes).
Hypothesis Hok : arm_ok g segments b e.

Notation segs o := (split_path (drop o str)).
Notation pat i := (arm_segs g segments i e).

Lemma pat_cons i : i < e → pat i = segment_spec g (segments !!! i) :: pat (i + 1).
Proof.
  intros H. destruct Hok as (_ & He & _). unfold arm_segs.
  destruct (lookup_lt_is_Some_2 segments i) as [x Hx]; [lia|].
  rewrite (drop_S _ _ _ Hx), list_lookup_total_alt, Hx. cbn [default from_option id].
  replace (e - i) with (S (e - (i + 1))) by lia. cbn [take]. rewrite fmap_cons. by replace (S i) with (i + 1) by lia.
Qed.

Lemma pat_end : pat e = [].
Proof. unfold arm_segs. by rewrite Nat.sub_diag. Qed.

Lemma pat_nonempty i : i < e → pat i ≠ [].
Proof. intros H. by rewrite pat_cons. Qed.

Lemma segment_wf i : b ≤ i < e → segment_ok g (segments !!! i).
Proof.
  intros H. destruct Hok as (_ & He & _ & Hs & _). apply Hs. apply list_elem_of_lookup. exists (i - b).
  rewrite lookup_take_lt, lookup_drop by lia. replace (b + (i - b)) with i by lia.
  apply list_lookup_lookup_total_lt. lia.
Qed.

Lemma flags_suffix l k : flags_ok g l → flags_ok g (drop k l).
Proof. revert k. induction l as [|s l IH]; intros [|k] H; try done. apply IH. apply H. Qed.

Lemma flags_at i : b ≤ i < e → flags_ok g (segments !!! i :: take (e - (i + 1)) (drop (i + 1) segments)).
Proof.
  intros H. destruct Hok as (_ & He & _ & _ & Hf & _). apply (flags_suffix _ (i - b)) in Hf.
  rewrite skipn_firstn_comm, drop_drop in Hf. replace (b + (i - b)) with i in Hf by lia.
  replace (e - b - (i - b)) with (S (e - (i + 1))) in Hf by lia.
  destruct (lookup_lt_is_Some_2 segments i) as [x Hx]; [lia|]. rewrite (drop_S _ _ _ Hx) in Hf. cbn [take] in Hf.
  replace (S i) with (i + 1) in Hf by lia. by rewrite list_lookup_total_alt, Hx.
Qed.

Lemma nullable_at i : b ≤ i < e → path_matches (pat i) [[]] ↔ nullable (segments !!! i) = true.
Proof.
  intros H. rewrite <- (nullable_ok g _ _ ltac:(apply Hok) (flags_at i H)). rewrite pat_cons by lia. done.
Qed.

Lemma optional_rest_at i : b ≤ i < e → path_matches (pat (i + 1)) [] ↔ optional_rest (segments !!! i) = true.
Proof. intros H. destruct (flags_at i H) as (_ & -> & _). apply only_globstars. Qed.

Lemma pat_name i :
  i < e → recursive (segments !!! i) = false →
  pat i = Name (token_op g <$> segment_tokens g (segments !!! i)) :: pat (i + 1).
Proof. intros H Hr. by rewrite pat_cons, segment_spec_name. Qed.

Lemma pat_star i : i < e → recursive (segments !!! i) = true → pat i = Globstar :: pat (i + 1).
Proof. intros H Hr. by rewrite pat_cons, segment_spec_star. Qed.

(** A segment with a head matches only names that start with it. *)
Lemma first_needed i o :
  b ≤ i < e → o ≤ length str → has_first (segments !!! i) = true → path_matches (pat i) (segs o) →
  str !! o = Some (first (segments !!! i)).
Proof.
  intros Hi Ho Hf Hm. destruct (segment_wf i Hi) as (_ & _ & Hk & H). destruct (H Hf) as (t & ts & Et & Hlit & Hfst).
  assert (Hr : recursive (segments !!! i) = false).
  { unfold recursive. apply bool_decide_eq_false. intros E. rewrite E in Hk. congruence. }
  rewrite pat_name, Et in Hm by (lia || done). apply path_name_iff in Hm as (w & ws & Ew & Hm & _).
  destruct (segs_head str o Ho) as (_ & _ & Eh). rewrite Eh in Ew. injection Ew as Ew _.
  cbn [fmap list_fmap] in Hm. assert (Ht : token_ok g t).
  { destruct Hok as (_ & _ & Hp & _). apply Hp. apply (segment_token_elem g (segments !!! i)). rewrite Et. left. }
  destruct (Ht Hlit) as (cps & _ & Hc & El). unfold token_op in Hm. rewrite Hlit, El in Hm.
  rewrite <- (app_nil_r (Utf8.spell cps)), atoms_spell, app_nil_r in Hm by done.
  apply matches_lit_iff in Hm as [Hm _]. apply starts_with_atoms, starts_with_iff in Hm; [|done].
  rewrite El, <- Hm, <- Ew in Hfst. apply lookup_take_Some in Hfst as [Hfst _].
  unfold substr in Hfst. apply lookup_take_Some in Hfst as [Hfst _]. by rewrite lookup_drop, Nat.add_0_r in Hfst.
Qed.

(** What is left to find out. *)
Definition path_want (p : place) : Prop :=
  path_matches (pat (segment p)) (segs (at_ p)) ∨
  (retry_segment p ≠ e ∧ ∃ k, 1 ≤ k < length (segs (retry_at p)) ∧
     path_matches (pat (retry_segment p)) (drop k (segs (retry_at p)))).

(** What matches after the globstar takes [k] names more, matches [k] names
    further on from where the loop is. *)
Definition path_shifts (p : place) : Prop :=
  ∀ k, k ≤ length (segs (retry_at p)) →
    path_matches (pat (retry_segment p)) (drop k (segs (retry_at p))) →
    k ≤ length (segs (at_ p)) ∧ path_matches (pat (segment p)) (drop k (segs (at_ p))).

Definition exec_inv (p : place) : Prop :=
  b ≤ segment p < e ∧ retry_at p ≤ at_ p ≤ length str ∧
  (at_ p < length str → starts_segment str (at_ p) = true) ∧
  (retry_segment p = e ∨
   (b ≤ retry_segment p ≤ segment p ∧ path_shifts p ∧ resumable g (segments !!! retry_segment p) ∧
    (segment p = retry_segment p → at_ p = retry_at p) ∧
    (segment p ≠ retry_segment p →
     retry_at p < at_ p ∧ str !!! (at_ p - 1) = slash ∧ recursive (segments !!! retry_segment p) = false))).

Definition exec_measure (p : place) : nat := (length str - retry_at p) * (e - b + 1) + (e - segment p).

Definition exec_ok (p : place) (r : bool + place) : Prop :=
  match r with
  | inl answer => answer = true ↔ path_want p
  | inr p' => exec_inv p' ∧ (path_want p' ↔ path_want p) ∧ exec_measure p' < exec_measure p
  end.

(** Where a segment can resume: it matches from there, or from a later start. *)
Definition from_start (i o : nat) : Prop :=
  ∃ o', o ≤ o' ≤ length str ∧ starts_segment str o' = true ∧ path_matches (pat i) (segs o').

Lemma later_starts i o :
  o ≤ length str →
  (∃ k, 1 ≤ k < length (segs o) ∧ path_matches (pat i) (drop k (segs o))) ↔ from_start i (o + 1).
Proof.
  intros Ho. split.
  - intros (k & Hk & H). destruct (segs_drop str o k Ho Hk) as (o' & Ho' & Hs & E). exists o'.
    rewrite starts_segment_iff, E. split; [lia|]. split; [by right|done].
  - intros (o' & Ho' & [Hs|Hs]%starts_segment_iff & H); [lia|].
    destruct (segs_suffix str o o') as (k & Hk & E); [lia..|done|]. exists k. by rewrite E.
Qed.

Lemma resume_want i o :
  o ≤ length str → starts_segment str o = true → i < e → path_want (mkPlace i o i o) ↔ from_start i o.
Proof.
  intros Ho Hs Hi. unfold path_want. cbn [segment at_ retry_segment retry_at]. rewrite (later_starts i o Ho). split.
  - intros [H|[_ (o' & Ho' & Hs' & H)]]; [by exists o|]. exists o'. split; [lia|done].
  - intros (o' & Ho' & Hs' & H). destruct (decide (o' = o)) as [->|]; [by left|]. right. split; [lia|].
    exists o'. split; [lia|done].
Qed.

(** The jump finds the first place the segment can match at. *)
Lemma jump_ok p from :
  b ≤ retry_segment p < e → has_first (segments !!! retry_segment p) = true →
  match jump segments str p from with
  | inl answer => answer = false ∧ ¬ from_start (retry_segment p) from
  | inr p' => ∃ o, p' = mkPlace (retry_segment p) o (retry_segment p) o ∧ from ≤ o < length str ∧
      starts_segment str o = true ∧ (path_want p' ↔ from_start (retry_segment p) from)
  end.
Proof.
  intros Hi Hf. unfold jump. set (i := retry_segment p) in *.
  assert (Hc : ∀ o', starts_segment str o' = true → o' ≤ length str → path_matches (pat i) (segs o') →
    candidate str (first (segments !!! i)) [] o').
  { intros o' Hs Ho' H. split; [by apply first_needed|]. cbn [length]. split; [lia|]. split; [done|by left]. }
  pose proof (find_segment_ok str from (first (segments !!! i)) []) as H.
  destruct (find_segment str from (first (segments !!! i)) []) as [o|].
  - destruct H as (H1 & (H2 & _ & H3 & _) & H4). apply lookup_lt_Some in H2. exists o. split; [done|].
    split; [lia|]. split; [done|]. rewrite resume_want by (lia || done). split.
    + intros (o' & Ho' & H). exists o'. split; [lia|done].
    + intros (o' & Ho' & Hs & H). destruct (decide (o ≤ o')); [exists o'; split; [lia|done]|]. exfalso. apply (H4 o'); [lia|].
      apply Hc; [done|lia|done].
  - split; [done|]. intros (o' & Ho' & Hs & Hm). apply (H o'); [lia|]. apply Hc; [done|lia|done].
Qed.

Lemma resume_inv i o :
  b ≤ i < e → o ≤ length str → (o < length str → starts_segment str o = true) → resumable g (segments !!! i) →
  exec_inv (mkPlace i o i o).
Proof.
  intros Hi Ho Hs Hr. split; [done|]. cbn [segment at_ retry_segment retry_at]. split; [lia|]. split; [done|].
  right. split; [lia|]. split; [intros k; done|]. done.
Qed.

Lemma resume_measure p i o :
  b ≤ i < e → o ≤ length str → retry_at p ≤ o → (retry_at p = o → segment p < i) →
  exec_measure (mkPlace i o i o) < exec_measure p.
Proof.
  intros Hi Ho Hr Hs. unfold exec_measure. cbn [segment at_ retry_segment retry_at].
  destruct (decide (retry_at p = o)) as [E|]; [specialize (Hs E); rewrite E; lia|].
  assert ((length str - o) * (e - b + 1) + (e - b + 1) ≤ (length str - retry_at p) * (e - b + 1)); [|lia].
  replace ((length str - o) * (e - b + 1) + (e - b + 1)) with ((length str - o + 1) * (e - b + 1)) by lia.
  apply Nat.mul_le_mono_r. lia.
Qed.

(** Stars alone match whatever is to be matched. *)
Lemma stars_match ts a : ts ≠ [] → forallb is_star ts = true → matches (token_op g <$> ts) a.
Proof.
  intros Hn H. destruct ts as [|t ts]; [done|]. clear Hn. revert t H. induction ts as [|t' ts IH]; intros t H;
    cbn [forallb] in H; apply andb_true_iff in H as [Ht H]; unfold is_star in Ht; apply bool_decide_eq_true in Ht;
    cbn [fmap list_fmap]; unfold token_op at 1; rewrite Ht; apply matches_star_iff.
  - exists (length a). split; [done|]. rewrite drop_all. constructor.
  - exists 0. split; [lia|]. by apply (IH t').
Qed.

(** No name left for the globstar to take: the segment it resumes cannot match
    nothing, for it would have matched. *)
Lemma exhausted i w :
  b ≤ i < e → recursive (segments !!! i) = false → resumable g (segments !!! i) →
  path_matches (pat i) [[]] → path_matches (pat i) [w].
Proof.
  intros Hi Hr Hres. rewrite pat_name by (lia || done). rewrite !path_name_iff. intros (w' & ws & [= <- <-] & H & H2).
  exists w, []. split; [done|]. split; [|done]. destruct Hres as [?|Hne]; [congruence|]. apply stars_match; [done|].
  apply (only_stars g); [|done]. intros t Ht. apply Hok. by apply (segment_token_elem g (segments !!! i)).
Qed.

Lemma retry_path_ok p :
  exec_inv p → at_ p < length str → recursive (segments !!! segment p) = false →
  ¬ path_matches (pat (segment p)) (segs (at_ p)) →
  exec_ok p (exec_retry segments e str p).
Proof.
  intros (Hsg & Hat & Hst & Hr) Hlt Hrec Hno. unfold exec_retry.
  destruct (Nat.eqb_spec (retry_segment p) e) as [Ee|Ee].
  { cbn [exec_ok]. split; [done|]. intros [?|[? _]]; done. }
  destruct Hr as [?|(Hrs & Hsh & Hres & Heq & Hne)]; [done|].
  assert (Hw : path_want p ↔ from_start (retry_segment p) (retry_at p + 1)).
  { unfold path_want. rewrite later_starts by lia. split; [by intros [?|[_ ?]]|]. intros H. by right. }
  destruct (has_first (segments !!! retry_segment p)) eqn:Ef; cbn [negb].
  - pose proof (jump_ok p (retry_at p + 1) ltac:(lia) Ef) as Hj. destruct (jump segments str p _) as [answer|p'].
    + destruct Hj as [-> Hj]. cbn [exec_ok]. split; [done|]. by rewrite Hw.
    + destruct Hj as (o & -> & Ho & Hs & Hwant). split; [apply resume_inv; try done; lia|].
      split; [by rewrite Hw|]. apply resume_measure; lia.
  - pose proof (segment_end_range str (retry_at p) ltac:(lia)) as Hend.
    destruct (segs_head str (retry_at p) ltac:(lia)) as (_ & Hslash & Eh).
    set (e' := segment_end str (retry_at p)) in *. destruct (Nat.eqb_spec e' (length str)) as [E|E].
    + split; [apply resume_inv; try done; lia|]. split; [|apply resume_measure; lia].
      assert (Hnw : ¬ path_want p).
      { intros [H|[_ (k & Hk & _)]]; [done|]. rewrite Eh in Hk. cbn in Hk. lia. }
      split; [|done]. intros [H|[_ (k & Hk & _)]]; cbn [segment at_ retry_segment retry_at] in *;
        rewrite E, segs_end in *; [|cbn in Hk; lia]. exfalso.
      destruct (decide (segment p = retry_segment p)) as [Es|Hd].
      * rewrite <- Es in H, Hres. apply Hno. rewrite (Heq Es), Eh. by apply exhausted.
      * destruct (Hne Hd) as (H1 & H2 & _). destruct (segs_suffix str (retry_at p) (at_ p)) as (k & Hk & _); [lia..|done|].
        rewrite Eh in Hk. cbn in Hk. lia.
    + destruct Hslash as [?|Hslash]; [done|].
      assert (Hs : starts_segment str (e' + 1) = true).
      { apply starts_segment_iff. right. by replace (e' + 1 - 1) with e' by lia. }
      split; [apply resume_inv; try done; lia|]. split; [|apply resume_measure; lia].
      rewrite resume_want by (lia || done). rewrite Hw. split; intros (o' & Ho' & Hs' & H); exists o'; split; try done; [lia|].
      split; [|lia]. apply starts_segment_iff in Hs' as [?|Hs']; [lia|]. destruct (decide (e' + 1 ≤ o')); [done|].
      exfalso. destruct (segs_head str (retry_at p) ltac:(lia)) as (Hin & _). fold e' in Hin. apply Hin.
      apply list_elem_of_lookup. exists (o' - 1 - retry_at p). unfold substr. rewrite lookup_take_lt, lookup_drop by lia.
      replace (retry_at p + (o' - 1 - retry_at p)) with (o' - 1) by lia. rewrite <- Hs'.
      apply list_lookup_lookup_total_lt. lia.
Qed.

Lemma star_path_ok p :
  exec_inv p → at_ p < length str → recursive (segments !!! segment p) = true →
  exec_ok p (let s := segment p + 1 in
    if s =? e then inl true
    else let p' := mkPlace s (at_ p) s (at_ p) in
      if negb (has_first (segments !!! s)) then inr p' else jump segments str p' (at_ p)).
Proof.
  intros (Hsg & Hat & Hst & Hr) Hlt Hrec. specialize (Hst Hlt).
  assert (Epat : pat (segment p) = Globstar :: pat (segment p + 1)) by (apply pat_star; [lia|done]).
  assert (Hw : path_want p ↔ path_matches (pat (segment p)) (segs (at_ p))).
  { split; [|by left]. intros [H|[Hne (k & Hk & H)]]; [done|]. destruct Hr as [?|(_ & Hsh & _)]; [done|].
    destruct (Hsh k ltac:(lia) H) as [_ H2]. rewrite Epat in *. by apply path_star_absorb in H2. }
  cbv zeta. destruct (Nat.eqb_spec (segment p + 1) e) as [Es|Es].
  { cbn [exec_ok]. split; [|done]. intros _. rewrite Hw, Epat, Es, pat_end. apply path_star_iff.
    exists (length (segs (at_ p))). split; [done|]. rewrite drop_all. constructor. }
  assert (Hres : resumable g (segments !!! (segment p + 1))) by (apply Hok; [lia|lia|done]).
  assert (Hwant : path_want p ↔ from_start (segment p + 1) (at_ p)).
  { rewrite <- resume_want by (lia || done). rewrite Hw, Epat, path_star_iff. unfold path_want.
    cbn [segment at_ retry_segment retry_at]. split.
    - intros (k & Hk & H). destruct (decide (k = 0)) as [->|]; [by left|].
      destruct (decide (k < length (segs (at_ p)))); [right; split; [lia|]; exists k; split; [lia|done]|].
      rewrite drop_ge in H by lia. left. apply (path_empty _ (segs (at_ p))) in H as [H|H]; [done|].
      by destruct (pat_nonempty (segment p + 1)); [lia|].
    - intros [H|[_ (k & Hk & H)]]; [exists 0; split; [lia|done]|]. exists k. split; [lia|done]. }
  destruct (has_first (segments !!! (segment p + 1))) eqn:Ef; cbn [negb].
  - pose proof (jump_ok (mkPlace (segment p + 1) (at_ p) (segment p + 1) (at_ p)) (at_ p)) as Hj.
    cbn [retry_segment] in Hj. specialize (Hj ltac:(lia) Ef). destruct (jump segments str _ _) as [answer|p'].
    + destruct Hj as [-> Hj]. cbn [exec_ok]. split; [done|]. by rewrite Hwant.
    + destruct Hj as (o & -> & Ho & Hs & Hwn). split; [apply resume_inv; try done; lia|].
      split; [by rewrite Hwant|]. apply resume_measure; lia.
  - split; [apply resume_inv; try done; lia|]. split; [|apply resume_measure; lia].
    by rewrite resume_want by (lia || done).
Qed.

(** A name that matched: the loop goes on after it. *)
Lemma take_path_ok p :
  let end_ := segment_end str (at_ p) in
  exec_inv p → recursive (segments !!! segment p) = false →
  end_ ≠ length str → segment p + 1 ≠ e →
  matches (token_op g <$> segment_tokens g (segments !!! segment p)) (atoms (substr str (at_ p) (end_ - at_ p))) →
  exec_ok p (inr (mkPlace (segment p + 1) (end_ + 1) (retry_segment p) (retry_at p))).
Proof.
  intros end_ (Hsg & Hat & Hst & Hr) Hrec Hend Hse Hm. pose proof (segment_end_range str (at_ p) ltac:(lia)) as Hrange.
  destruct (segs_head str (at_ p) ltac:(lia)) as (_ & [?|Hslash] & Eh); [done|]. fold end_ in Hrange, Hslash, Eh.
  destruct (Nat.eqb_spec end_ (length str)) as [|_]; [done|].
  assert (Hpat : ∀ ws, path_matches (pat (segment p)) ws → ∃ w, ws = w :: drop 1 ws ∧ path_matches (pat (segment p + 1)) (drop 1 ws)).
  { intros ws H. rewrite pat_name in H by (lia || done). apply path_name_iff in H as (w & ws' & -> & _ & H). by exists w. }
  split; [|split].
  - split; [cbn; lia|]. cbn [segment at_ retry_segment retry_at]. split; [lia|]. split.
    { intros _. apply starts_segment_iff. right. by replace (end_ + 1 - 1) with end_ by lia. }
    destruct Hr as [Hr|(Hrs & Hsh & Hres & Heq & Hne)]; [by left|right]. split; [lia|]. split; [|split; [done|split; [lia|]]].
    + intros k Hk H. destruct (Hsh k Hk H) as [H1 H2]. rewrite Eh in H1, H2. cbn [length] in H1.
      destruct (Hpat _ H2) as (w & E & H3). rewrite drop_drop in H3. rewrite (Nat.add_1_r k) in H3. cbn [drop] in H3.
      split; [|done]. cbn [at_]. apply (f_equal length) in E. rewrite length_drop in E. cbn in E. lia.
    + intros _. split; [lia|]. split; [by replace (end_ + 1 - 1) with end_ by lia|].
      destruct (decide (segment p = retry_segment p)) as [<-|Hd]; [done|]. by apply Hne.
  - unfold path_want. cbn [segment at_ retry_segment retry_at].
    enough (path_matches (pat (segment p + 1)) (segs (end_ + 1)) ↔ path_matches (pat (segment p)) (segs (at_ p))) as ->; [done|].
    rewrite Eh, (pat_name (segment p)) by (lia || done). rewrite path_name_iff. split; [intros H; by eexists _, _|].
    by intros (w & ws & [= <- <-] & _ & H).
  - unfold exec_measure. cbn [segment retry_at]. lia.
Qed.

Lemma exec_step_ok p : exec_inv p → exec_ok p (exec_step g segments e str p).
Proof.
  intros Hi. pose proof Hi as (Hsg & Hat & Hst & Hr). unfold exec_step.
  destruct (Nat.eqb_spec (at_ p) (length str)) as [Ee|Ee].
  { cbn [exec_ok]. rewrite <- nullable_at by done. unfold path_want. rewrite Ee, segs_end. split; [by left|].
    intros [H|[Hne (k & Hk & H)]]; [done|]. destruct Hr as [?|(_ & Hsh & _)]; [done|].
    destruct (Hsh k ltac:(lia) H) as [_ H2]. rewrite Ee, segs_end in H2. rewrite drop_ge in H2 by (cbn; lia).
    apply (path_empty _ [[]]) in H2 as [H2|H2]; [done|]. by destruct (pat_nonempty (segment p)); [lia|]. }
  assert (Hlt : at_ p < length str) by lia. destruct (recursive (segments !!! segment p)) eqn:Hrec.
  { pose proof (star_path_ok p Hi Hlt Hrec) as H. unfold recursive in Hrec. apply bool_decide_eq_true in Hrec.
    by rewrite Hrec. }
  assert (Hgo : ∀ r, exec_ok p r → exec_ok p match seg_kind (segments !!! segment p) with Recursive =>
     let s := segment p + 1 in
        if s =? e then inl true
        else
          let p' := mkPlace s (at_ p) s (at_ p) in
          if negb (has_first (segments !!! s)) then inr p' else jump segments str p' (at_ p) | _ => r end).
  { intros r H. unfold recursive in Hrec. apply bool_decide_eq_false in Hrec. by destruct (seg_kind _). }
  pose proof (retry_path_ok p Hi Hlt Hrec) as Hretry.
  set (body := if negb _ || _ then _ else _). enough (Hbody : exec_ok p body) by (specialize (Hgo _ Hbody);
    by destruct (seg_kind (segments !!! segment p))). clear Hgo. unfold body. clear body.
  destruct (segs_head str (at_ p) ltac:(lia)) as (_ & _ & Eh).
  assert (Hop : pat (segment p) = Name (token_op g <$> segment_tokens g (segments !!! segment p)) :: pat (segment p + 1))
    by (apply pat_name; [lia|done]).
  destruct (negb _ || _) eqn:Ef.
  - destruct (match_segment_ok g str (segments !!! segment p) (at_ p)) as [Hm Hend];
      [apply Hok|apply segment_wf; lia|done|lia|]. destruct (match_segment g str _ _) as [matched end_]. cbn [fst snd] in *.
    destruct matched.
    + rewrite (Hend eq_refl). specialize (Hend eq_refl). apply proj1 in Hm. specialize (Hm eq_refl).
      destruct (Nat.eqb_spec (segment_end str (at_ p)) (length str)) as [E|E].
      * assert (Hiff : path_matches (pat (segment p)) (segs (at_ p)) ↔ optional_rest (segments !!! segment p) = true).
        { rewrite <- optional_rest_at by lia. rewrite Eh, Hop, path_name_iff. split.
          - by intros (w & ws & [= <- <-] & _ & H). - intros H. by eexists _, _. }
        destruct (optional_rest _) eqn:Eo.
        -- cbn [exec_ok]. split; [|done]. intros _. left. by apply Hiff.
        -- apply Hretry. rewrite Hiff. done.
      * destruct (Nat.eqb_spec (segment p + 1) e) as [Es|Es]; cbn [negb].
        -- apply Hretry. rewrite Eh, Hop, Es, pat_end. intros (w & ws & [= <- <-] & _ & H)%path_name_iff.
           apply path_nil_iff in H. by apply split_path_nonempty in H.
        -- by apply take_path_ok.
    + apply Hretry. rewrite Eh, Hop. intros (w & ws & [= <- <-] & H & _)%path_name_iff. by apply Hm in H.
  - apply Hretry. apply orb_false_iff in Ef as [E1 E2]. apply negb_false_iff in E1. apply byte_eqb_neq in E2.
    intros H. apply E2. apply list_lookup_total_correct. apply first_needed; [lia|lia|done|done].
Qed.

Lemma exec_loop_ok fuel p :
  exec_inv p → exec_measure p < fuel →
  ∃ answer, exec_loop g segments e str fuel p = Some answer ∧ (answer = true ↔ path_want p).
Proof.
  revert p. induction fuel as [|fuel IH]; intros p Hi Hm; [lia|]. cbn [exec_loop].
  pose proof (exec_step_ok p Hi) as H. destruct (exec_step _ _ _ _ p) as [answer|p'].
  - by exists answer.
  - destruct H as (Hi' & Hw & Hm'). destruct (IH p' Hi') as (answer & E & Ha); [lia|]. exists answer. by rewrite <- Hw.
Qed.

Lemma execute_ok :
  exec_loop g segments e str (exec_fuel e str b) (mkPlace b 0 e 0) ≠ None ∧
  (execute g segments e str b = true ↔ path_matches (pat b) (split_path str)).
Proof.
  destruct (exec_loop_ok (exec_fuel e str b) (mkPlace b 0 e 0)) as (answer & E & Ha).
  - split; [cbn; destruct Hok; lia|]. cbn [segment at_ retry_segment retry_at]. split; [lia|]. split; [done|by left].
  - unfold exec_measure, exec_fuel. cbn [segment retry_at]. lia.
  - unfold execute. rewrite E. split; [done|]. cbn [default from_option id]. rewrite Ha. unfold path_want.
    cbn [segment at_ retry_segment retry_at]. rewrite drop_0. split; [intros [?|[? _]]; done|by left].
Qed.
End Loop.

(** The segment loop of [execute] ends, and tells whether the path's names
    match the arm's segments, a globstar standing for any number of names:
    keeping the latest globstar only, jumping between candidates and testing
    heads lose no match, whatever bytes the path holds. *)
Theorem execute_correct g segments b e str :
  arm_ok g segments b e →
  exec_loop g segments e str (exec_fuel e str b) (mkPlace b 0 e 0) ≠ None ∧
  (execute g segments e str b = true ↔ path_matches (arm_segs g segments b e) (split_path str)).
Proof. exact (execute_ok g segments b e str). Qed.

(** [**/a*/**/b?]. *)
Definition demo_path_pools : Pools :=
  mkPools (lit "ab") [mkToken TLiteral 0 1; mkToken TStar 0 0; mkToken TLiteral 1 1; mkToken TAny 0 0] [].

Definition demo_segments : list Segment :=
  [mkSegment Recursive false false false x00 0 0; mkSegment Affix false false true "a" 0 2;
   mkSegment Recursive false false false x00 2 2; mkSegment General false true true "b" 2 4].

Lemma demo_arm_ok : arm_ok demo_path_pools demo_segments 0 4.
Proof.
  split; [lia|]. split; [cbn; lia|]. split; [|split; [|split]].
  - intros t H. cbn [demo_path_pools tokens] in H.
    repeat (apply elem_of_cons in H as [->|H]); try by apply elem_of_nil in H.
    all: split; [intros Hk; try done|intros Hk; try done; vm_compute; intros Hin; repeat (inversion Hin; subst; clear Hin;
      match goal with Hin : _ ∈ _ |- _ => rename Hin into Hin' | _ => idtac end); by inversion Hin'].
    + exists [97%Z]. split; [done|]. split; [repeat constructor; cbn; lia || (right; lia)|]. vm_compute. reflexivity.
    + exists [98%Z]. split; [done|]. split; [repeat constructor; cbn; lia || (right; lia)|]. vm_compute. reflexivity.
  - intros s H. cbn [demo_segments take drop Nat.sub] in H.
    repeat (apply elem_of_cons in H as [->|H]); try by apply elem_of_nil in H.
    all: split; [cbn; lia|]; split; [cbn; lia|]; split; cbn [seg_kind has_first]; try done.
    + exists (Some (mkToken TLiteral 0 1)), None. split; [done|]. split; [|done]. by intros x [= <-].
    + intros _. by eexists _, _.
    + intros _. by eexists _, _.
  - vm_compute. tauto.
  - intros i _ Hi Hr. destruct i as [|[|[|i]]]; vm_compute in Hr; try done; [| |lia]; right; vm_compute; done.
Qed.

Lemma execute_correct_witness :
  execute demo_path_pools demo_segments 4 (lit "x/ab/c/d/b7") 0 = true ∧
  (execute demo_path_pools demo_segments 4 (lit "x/ab/c/d/b7") 0 = true ↔
   path_matches (arm_segs demo_path_pools demo_segments 0 4) (split_path (lit "x/ab/c/d/b7"))) ∧
  execute demo_path_pools demo_segments 4 (lit "x/ab/c/d/b") 0 = false.
Proof.
  split; [vm_compute; reflexivity|]. split; [|vm_compute; reflexivity].
  apply (execute_correct demo_path_pools demo_segments 0 4 (lit "x/ab/c/d/b7") demo_arm_ok).
Defined.
