(* ===== verification/GlobSyntax.v ===== *)
(** What a glob pattern says: a reader of patterns as lists of code points.

    The comments of include/kotatsu/support/glob_pattern.h give the syntax:
    [*], [?], [[...]], [\\] and [**] as a whole segment.  The reader here
    follows them on code points, without offsets, pools or merged literals, and
    gives the segments ([seg]) and operations ([op]) that GlobExec.v and
    GlobMatch.v match with.  GlobCompile.v shows that compiling an arm means
    the same. *)

From Stdlib Require Import Strings.Byte ZArith Lia Bool.
From stdpp Require Import prelude strings.
From S2P Require Import Prelude Swar Utf8 Glob GlobMatch GlobExec.
Local Open Scope kota_scope.
Local Open Scope Z_scope.

(** ** The reader *)

(** A character of the syntax as a code point. *)
Definition is_ch (c : Z) (b : byte) : bool := c =? uval b.

(** A class's text up to the bracket that closes it, and what follows. *)
Fixpoint class_body (p : list Z) : option (list Z * list Z) :=
  match p with
  | [] => None
  | c :: p' =>
      if is_ch c "]" then Some ([], p')
      else if is_ch c backslash then
        match p' with
        | [] => None
        | d :: p'' => '(body, rest) ← class_body p''; Some (c :: d :: body, rest)
        end
      else '(body, rest) ← class_body p'; Some (c :: body, rest)
  end.

(** The same where a bracket is a member when it comes first. *)
Definition bracket_body (p : list Z) : option (list Z * list Z) :=
  match p with
  | c :: p' =>
      if is_ch c "]" then '(body, rest) ← class_body p'; Some (c :: body, rest) else class_body p
  | [] => None
  end.

(** One member: what an escape escapes, or itself. *)
Definition read_member (p : list Z) : option (Z * list Z) :=
  match p with
  | [] => None
  | c :: p' =>
      if is_ch c backslash then match p' with d :: p'' => Some (d, p'') | [] => None end else Some (c, p')
  end.

(** The ranges of a class's text; [pending] was read, and starts a range when a
    hyphen with something after it follows. *)
Fixpoint read_members (fuel : nat) (p : list Z) (pending : option Z) : option (list (Z * Z)) :=
  match fuel with
  | O => None
  | S fuel' =>
      match p, pending with
      | [], None => Some []
      | [], Some lo => Some [(lo, lo)]
      | c :: p', Some lo =>
          if is_ch c "-" && negb (bool_decide (p' = [])) then
            '(hi, r) ← read_member p';
            if hi <? lo then None else rs ← read_members fuel' r None; Some ((lo, hi) :: rs)
          else '(m, r) ← read_member p; rs ← read_members fuel' r (Some m); Some ((lo, lo) :: rs)
      | _ :: _, None => '(m, r) ← read_member p; read_members fuel' r (Some m)
      end
  end.

(** A class after its opening bracket, and what follows it. *)
Definition read_class (p : list Z) : option (op * list Z) :=
  let neg := match p with c :: _ => is_ch c "!" || is_ch c "^" | [] => false end in
  '(body, rest) ← bracket_body (if neg then drop 1 p else p);
  rs ← read_members (S (length body)) body None;
  Some (OOne (λ c, xorb neg (in_ranges rs c)), rest).

Fixpoint stars_at (p : list Z) : nat :=
  match p with
  | c :: p' => if is_ch c "*" then S (stars_at p') else 0
  | [] => 0
  end.

(** What starts with [c]; [p] is what follows. *)
Definition read_op (c : Z) (p : list Z) : option (op * list Z) :=
  if is_ch c "[" then read_class p
  else if is_ch c "*" then (if (1 <? stars_at p)%nat then None else Some (OStar, drop (stars_at p) p))
  else if is_ch c "?" then Some (OOne (λ _, true), p)
  else if is_ch c backslash then
    match p with
    | d :: p' => if is_ch d slash then None else Some (OLit [d], p')
    | [] => None
    end
  else Some (OLit [c], p).

(** The operations up to a separator, and what is left. *)
Fixpoint read_name (fuel : nat) (p : list Z) : option (list op * list Z) :=
  match fuel with
  | O => None
  | S fuel' =>
      match p with
      | [] => Some ([], [])
      | c :: p' =>
          if is_ch c slash then Some ([], p)
          else '(o, r) ← read_op c p'; '(ops, r') ← read_name fuel' r; Some (o :: ops, r')
      end
  end.

(** A segment that is nothing but two stars. *)
Definition globstar_at (p : list Z) : option (list Z) :=
  match p with
  | a :: b :: r =>
      if is_ch a "*" && is_ch b "*" && (match r with c :: _ => is_ch c slash | [] => true end)
      then Some r else None
  | _ => None
  end.

Definition read_segment (at_start : bool) (p : list Z) : option (seg * list Z) :=
  match (if at_start then globstar_at p else None) with
  | Some r => Some (Globstar, r)
  | None => '(ops, r) ← read_name (S (length p)) p; Some (Name ops, r)
  end.

(** The segments; a separator is not followed by another. *)
Fixpoint read_segments (fuel : nat) (at_start : bool) (p : list Z) : option (list seg) :=
  match fuel with
  | O => None
  | S fuel' =>
      '(s, r) ← read_segment at_start p;
      match r with
      | [] => Some [s]
      | _ :: r' =>
          if match r' with c :: _ => is_ch c slash | [] => false end then None
          else segs ← read_segments fuel' true r'; Some (s :: segs)
      end
  end.

(** A globstar before a separator that ends the pattern takes anything. *)
Fixpoint close_globstar (segs : list seg) : list seg :=
  match segs with
  | [Globstar; Name []] => [Globstar; Name [OStar]]
  | s :: segs' => s :: close_globstar segs'
  | [] => []
  end.

(** The segments of a pattern that starts a segment, or goes on inside one. *)
Definition read_pattern (at_start : bool) (p : list Z) : option (list seg) :=
  close_globstar <$> read_segments (S (length p)) at_start p.

(** ** Patterns that mean the same *)

Definition ops_equiv (a b : list op) : Prop := ∀ l, matches a l ↔ matches b l.

#[export] Instance ops_equiv_equivalence : Equivalence ops_equiv.
Proof.
  split.
  - intros a l. done.
  - intros a b H l. by rewrite (H l).
  - intros a b c H1 H2 l. by rewrite (H1 l), (H2 l).
Qed.

Lemma matches_app a b l : matches (a ++ b) l ↔ ∃ l1 l2, l = l1 ++ l2 ∧ matches a l1 ∧ matches b l2.
Proof.
  revert l. induction a as [|o a IH]; intros l.
  - split; [intros H; exists [], l; split; [done|]; split; [constructor|done]|].
    intros (l1 & l2 & -> & H1 & H2). apply matches_nil_iff in H1 as ->. done.
  - cbn [app]. destruct o as [cps| |f].
    + rewrite matches_lit_iff, IH. split.
      * intros (E & l1 & l2 & E2 & H1 & H2). exists (cps ++ l1), l2. split; [|split; [by constructor|done]].
        by rewrite <- app_assoc, <- E2, <- E at 1; rewrite take_drop.
      * intros (l1 & l2 & -> & H1 & H2). apply matches_lit_iff in H1 as [E H1].
        assert (length cps ≤ length l1)%nat by (apply (f_equal length) in E; rewrite length_take in E; lia).
        rewrite take_app_le, drop_app_le by done. split; [done|]. by eexists _, _.
    + rewrite matches_star_iff. setoid_rewrite IH. split.
      * intros (k & Hk & l1 & l2 & E & H1 & H2). exists (take k l ++ l1), l2.
        split; [by rewrite <- app_assoc, <- E, take_drop|]. split; [by constructor|done].
      * intros (l1 & l2 & -> & H1 & H2). apply matches_star_iff in H1 as (k & Hk & H1). exists k.
        rewrite length_app. split; [lia|]. rewrite drop_app_le by done. by eexists _, _.
    + rewrite matches_one_iff. setoid_rewrite IH. split.
      * intros (c & a' & -> & Hf & l1 & l2 & -> & H1 & H2). exists (c :: l1), l2. split; [done|]. split; [by constructor|done].
      * intros (l1 & l2 & -> & H1 & H2). apply matches_one_iff in H1 as (c & a' & -> & Hf & H1).
        exists c, (a' ++ l2). split; [done|]. split; [done|]. by eexists _, _.
Qed.

#[export] Instance ops_app_proper : Proper (ops_equiv ==> ops_equiv ==> ops_equiv) app.
Proof.
  intros a a' Ha b b' Hb l. rewrite !matches_app. split; intros (l1 & l2 & -> & H1 & H2);
    exists l1, l2; (split; [done|]); split; by (apply Ha || apply Hb).
Qed.

Lemma ops_lit_app a b : ops_equiv [OLit (a ++ b)] ([OLit a] ++ [OLit b]).
Proof.
  intros l. cbn [app]. rewrite !matches_lit_iff, !matches_nil_iff, length_app, drop_drop. split.
  - intros [E1 E2]. assert (l = a ++ b) as -> by (rewrite <- (take_drop (length a + length b) l), E1, E2; apply app_nil_r).
    rewrite take_app_length, drop_app_length, take_ge by lia. done.
  - intros [E1 [E2 E3]]. split; [|done]. by rewrite <- take_take_drop, E1, E2.
Qed.

Lemma ops_stars : ops_equiv ([OStar] ++ [OStar]) [OStar].
Proof.
  intros l. cbn [app]. split; intros _; apply matches_star_iff.
  - exists (length l). split; [done|]. rewrite drop_all. constructor.
  - exists 0%nat. split; [lia|]. apply matches_star_iff. exists (length l). split; [done|]. rewrite drop_0, drop_all. constructor.
Qed.

Lemma ops_one f f' : (∀ c, f c = f' c) → ops_equiv [OOne f] [OOne f'].
Proof. intros H l. rewrite !matches_one_iff. by setoid_rewrite H. Qed.

Inductive seg_equiv : seg → seg → Prop :=
| se_star : seg_equiv Globstar Globstar
| se_name a b : ops_equiv a b → seg_equiv (Name a) (Name b).

Abbreviation segs_equiv := (Forall2 seg_equiv).

#[export] Instance seg_equiv_equivalence : Equivalence seg_equiv.
Proof.
  split.
  - intros [|a]; by constructor.
  - intros ?? [|a b H]; by constructor.
  - intros ??? [|a b H] H2; [done|]. inversion_clear H2. constructor. by transitivity b.
Qed.

#[export] Instance path_matches_proper : Proper (segs_equiv ==> eq ==> iff) path_matches.
Proof.
  intros a b H ws ? <-. revert ws. induction H as [|s t a b Hs H IH]; intros ws; [done|].
  destruct Hs as [|o o' Ho].
  - rewrite !path_star_iff. by setoid_rewrite IH.
  - rewrite !path_name_iff. setoid_rewrite IH. by setoid_rewrite (Ho _).
Qed.

Example read_demo :
  length <$> read_pattern true (uval <$> lit "**/a\[b*c/[!a-z]?/**/") = Some 5%nat ∧
  read_pattern true (uval <$> lit "a//b") = None ∧ read_pattern true (uval <$> lit "[z-a]") = None.
Proof. vm_compute. done. Qed.
