(* ===== verification/GlobCompile.v ===== *)
(** Compiling an arm: [compile_arm] of src/support/glob_pattern.cpp.

    An arm's text becomes tokens, segments and an [Arm] in the pattern's pools,
    which every arm shares and none of the earlier arms' entries of which it
    changes.  The loops over the text keep the offset they read at, as the
    source does; their fuel is the length of the text. *)

From Stdlib Require Import Strings.Byte ZArith Lia Bool.
From stdpp Require Import prelude strings.
From S2P Require Import Prelude Swar Utf8 Glob GlobMatch GlobExec GlobSyntax.
Local Open Scope kota_scope.
Local Open Scope nat_scope.

(** ** Arms *)

Inductive Plan :=
| PrefixTree | DirectoryTree | Suffix | PathSuffix | SegmentSuffix | AffixPlan | Final | GeneralPlan.

#[export] Instance plan_eq_dec : EqDecision Plan.
Proof. solve_decision. Defined.

(** A literal the input must end with, and its last sixteen bytes as words. *)
Record PackedLiteral := mkPacked {
  lit_begin : nat;
  lit_size : nat;
  word : Z;
  mask : Z;
  lead_word : Z;
  lead_mask : Z;
}.

Record Arm := mkArm {
  plan : Plan;
  basename : bool;
  absorbs_separator : bool;
  arm_begin : nat;
  arm_end : nat;
  head_begin : nat;
  head_size : nat;
  arm_literal : PackedLiteral;
}.

#[export] Instance packed_inhabited : Inhabited PackedLiteral := populate (mkPacked 0 0 0 0 0 0).
#[export] Instance arm_inhabited : Inhabited Arm := populate (mkArm GeneralPlan false false 0 0 0 0 inhabitant).

(** What compiling adds to. *)
Record Program := mkProgram { pools : Pools; segments : list Segment; arms : list Arm }.

(** ** Tokens *)

Definition push_token (g : Pools) (t : Token) : Pools := mkPools (literals g) (tokens g ++ [t]) (classes g).

Definition back (g : Pools) : Token := default inhabitant (last (tokens g)).

(** [tokens.size() == token_begin || tokens.back().kind != kind], [tb] where
    the segment's tokens begin. *)
Definition needs_new (g : Pools) (tb : nat) (kind : TokenKind) : bool :=
  (length (tokens g) =? tb) || negb (bool_decide (token_kind (back g) = kind)).

Definition push_literal (tb : nat) (g : Pools) (c : byte) : Pools :=
  let g := if needs_new g tb TLiteral then push_token g (mkToken TLiteral (length (literals g)) 0) else g in
  let t := back g in
  mkPools (literals g ++ [c])
    (take (length (tokens g) - 1) (tokens g) ++ [mkToken (token_kind t) (token_begin t) (token_size t + 1)])
    (classes g).

(** An error found in a class, its offsets from [base] on. *)
Definition shift_error (base : nat) (e : GlobError) : GlobError :=
  mkGlobError (error_kind e) (error_begin e + base) (error_end e + base) (message e).

(** [case '\[']: a class. *)
Definition compile_class (s : bytes) (i : nat) (g : Pools) : expected (nat * Pools) GlobError :=
  try close := scan_bracket s i in
  let body := substr s (i + 1) (close - i - 1) in
  let negated := (body !!! 0 =?b "!"%byte) || (body !!! 0 =?b "^"%byte) in
  match parse_bracket_charset (if negated then drop 1 body else body) with
  | Err e => Err (shift_error (i + 1 + Nat.b2n negated) e)
  | Ok ranges =>
      Ok (close + 1,
          mkPools (literals g) (tokens g ++ [mkToken TClass (length (classes g)) 0])
            (classes g ++ [mkClass negated ranges]))
  end.

(** How many stars there are at the start of a text. *)
Fixpoint star_run (s : bytes) : nat :=
  match s with
  | c :: s' => if c =?b "*"%byte then S (star_run s') else 0
  | [] => 0
  end.

(** [case '*']: a run of stars. *)
Definition compile_star (s : bytes) (i tb : nat) (g : Pools) : expected (nat * Pools) GlobError :=
  let n := star_run (drop i s) in
  if 2 <? n then Err (mkGlobError MultipleStar i (i + 3) (lit "multiple `*` is not allowed"))
  else Ok (i + n, if needs_new g tb TStar then push_token g (mkToken TStar 0 0) else g).

(** [case '\\']. *)
Definition compile_escape (s : bytes) (i tb : nat) (g : Pools) : expected (nat * Pools) GlobError :=
  if i + 1 =? length s then Err (mkGlobError StrayBackslash i (i + 1) (lit "stray `\`"))
  else if s !!! (i + 1) =?b slash then Err (mkGlobError InvalidEscape i (i + 2) (lit "`/` cannot be escaped"))
  else Ok (i + 2, push_literal tb g (s !!! (i + 1))).

(** The switch. *)
Definition compile_item (s : bytes) (i tb : nat) (g : Pools) : expected (nat * Pools) GlobError :=
  let c := s !!! i in
  if c =?b "["%byte then compile_class s i g
  else if c =?b "*"%byte then compile_star s i tb g
  else if c =?b "?"%byte then Ok (i + 1, push_token g (mkToken TAny 0 0))
  else if c =?b backslash then compile_escape s i tb g
  else Ok (i + 1, push_literal tb g c).

(** [while(i != e && s\[i\] != '/')]: the tokens of one segment. *)
Fixpoint compile_name (fuel : nat) (s : bytes) (i tb : nat) (g : Pools) : expected (nat * Pools) GlobError :=
  match fuel with
  | O => Ok (i, g)
  | S fuel' =>
      if (i =? length s) || (s !!! i =?b slash) then Ok (i, g)
      else try r := compile_item s i tb g in compile_name fuel' s r.1 tb r.2
  end.

(** ** Segments *)

Definition count_stars (ops : list Token) : nat := length (filter (λ t, token_kind t = TStar) ops).

Definition simple (ops : list Token) : bool :=
  negb (existsb (λ t, bool_decide (token_kind t = TAny) || bool_decide (token_kind t = TClass)) ops).

Definition segment_kind_of (ops : list Token) : SegmentKind :=
  if negb (simple ops) || (1 <? count_stars ops) then General
  else if count_stars ops =? 1 then Affix else LiteralSegment.

(** The segment of the tokens from [tb] on, and whether its text is a globstar,
    which takes the token back. *)
Definition close_segment (globstar : bool) (tb : nat) (g : Pools) : Pools * Segment :=
  if globstar then
    (mkPools (literals g) (take (length (tokens g) - 1) (tokens g)) (classes g),
     mkSegment Recursive false false false x00 tb tb)
  else
    let ops := drop tb (tokens g) in
    let e := length (tokens g) in
    match ops with
    | t :: _ =>
        if bool_decide (token_kind t = TLiteral) then
          (g, mkSegment (segment_kind_of ops) false false true (literals g !!! token_begin t) tb e)
        else (g, mkSegment (segment_kind_of ops) false false false x00 tb e)
    | [] => (g, mkSegment (segment_kind_of ops) false false false x00 tb e)
    end.

(** [while(true)]: the segments of the arm, from [i] on. *)
Fixpoint compile_segments (fuel : nat) (s : bytes) (at_segment_start : bool) (i : nat) (g : Pools)
  (segs : list Segment) : expected (Pools * list Segment) GlobError :=
  match fuel with
  | O => Ok (g, segs)
  | S fuel' =>
      let tb := length (tokens g) in
      try r := compile_name (S (length s)) s i tb g in
      let j := r.1 in
      let globstar := (negb (i =? 0) || at_segment_start) && bool_decide (substr s i (j - i) = lit "**") in
      let '(g', segment) := close_segment globstar tb r.2 in
      let segs' := segs ++ [segment] in
      if j =? length s then Ok (g', segs')
      else if negb (j + 1 =? length s) && (s !!! (j + 1) =?b slash) then
        Err (mkGlobError MultipleSlash j (j + 2) (lit "multiple `/` is not allowed"))
      else compile_segments fuel' s at_segment_start (j + 1) g' segs'
  end.

(** [**/] at the end matches like [**/*]. *)
Definition trailing_globstar (g : Pools) (segs : list Segment) : Pools * list Segment :=
  let n := length segs in
  let last_ := segs !!! (n - 1) in
  if (2 <=? n) && recursive (segs !!! (n - 2)) && bool_decide (seg_kind last_ = LiteralSegment)
     && (seg_begin last_ =? seg_end last_) then
    let g := push_token g (mkToken TStar 0 0) in
    (g, take (n - 1) segs ++
        [mkSegment Affix (nullable last_) (optional_rest last_) (has_first last_) (first last_)
           (seg_begin last_) (length (tokens g))])
  else (g, segs).

(** The loop that sets [nullable] and [optional_rest] backwards; what it carries
    to the segment before: [following_nullable], [following_absorbs]. *)
Fixpoint set_flags (g : Pools) (segs : list Segment) : list Segment * (bool * bool) :=
  match segs with
  | [] => ([], (true, false))
  | s :: segs' =>
      let '(rest, (following_nullable, following_absorbs)) := set_flags g segs' in
      let last_ := bool_decide (segs' = []) in
      let opt := last_ || following_absorbs in
      let null :=
        if recursive s then last_ || following_nullable
        else opt && forallb is_star (segment_tokens g s) in
      (mkSegment (seg_kind s) null opt (has_first s) (first s) (seg_begin s) (seg_end s) :: rest,
       (null, recursive s && opt))
  end.

(** ** The plan *)

(** Sixteen bytes, the literal at their end, and the mask of it. *)
Definition packed_value (text : bytes) : bytes := repeat x00 (16 - length text) ++ text.
Definition packed_mask (size : nat) : bytes := repeat x00 (16 - size) ++ repeat xff size.

Definition pack_literal (g : Pools) (text : Token) : PackedLiteral :=
  if token_size text <=? 16 then
    let value := packed_value (literal g text) in
    let m := packed_mask (token_size text) in
    mkPacked (token_begin text) (token_size text) (le_word (drop 8 value)) (le_word (drop 8 m))
      (le_word (take 8 value)) (le_word (take 8 m))
  else mkPacked (token_begin text) (token_size text) 0 0 0 0.

Definition is_kind (k : SegmentKind) (s : Segment) : bool := bool_decide (seg_kind s = k).

(** The trailing literal of the arm's last segment. *)
Definition trailing_literal (g : Pools) (last_ : Segment) : PackedLiteral :=
  if negb (recursive last_) && negb (seg_begin last_ =? seg_end last_)
     && bool_decide (token_kind (tokens g !!! (seg_end last_ - 1)) = TLiteral) then
    pack_literal g (tokens g !!! (seg_end last_ - 1))
  else inhabitant.

(** The plan read off the segments, and the token of the head it starts with. *)
Definition choose_plan (g : Pools) (segs : list Segment) : Plan * option Token :=
  let count := length segs in
  let first_ := segs !!! 0 in
  let last_ := segs !!! (count - 1) in
  let basename := (count =? 2) && recursive first_ && negb (recursive last_) in
  if (count =? 2) && is_kind LiteralSegment first_ && recursive last_ then
    (PrefixTree, if seg_begin first_ =? seg_end first_ then None else Some (tokens g !!! seg_begin first_))
  else if (count =? 3) && recursive first_ && is_kind LiteralSegment (segs !!! 1) && recursive last_ then
    (DirectoryTree, Some (tokens g !!! seg_begin (segs !!! 1)))
  else if basename || ((count =? 1) && negb (recursive first_)) then
    if is_kind Affix last_ && bool_decide (token_kind (tokens g !!! seg_begin last_) = TStar) then
      (if basename then Suffix else SegmentSuffix, None)
    else if is_kind Affix last_ then (AffixPlan, Some (tokens g !!! seg_begin last_))
    else if basename && is_kind LiteralSegment last_ then (PathSuffix, None)
    else (Final, None)
  else (GeneralPlan, None).

Definition make_arm (g : Pools) (segs : list Segment) (begin : nat) (absorbs : bool) : Arm :=
  let count := length segs in
  let first_ := segs !!! 0 in
  let last_ := segs !!! (count - 1) in
  let '(p, head) := choose_plan g segs in
  mkArm p ((count =? 2) && recursive first_ && negb (recursive last_)) absorbs begin (begin + count)
    (match head with Some t => token_begin t | None => 0 end)
    (match head with Some t => token_size t | None => 0 end)
    (trailing_literal g last_).

Definition compile_arm (s : bytes) (at_segment_start : bool) (p : Program) : expected Program GlobError :=
  try r := compile_segments (S (length s)) s at_segment_start 0 (pools p) [] in
  let '(g, segs) := trailing_globstar r.1 r.2 in
  let '(segs, (_, following_absorbs)) := set_flags g segs in
  let begin := length (segments p) in
  Ok (mkProgram g (segments p ++ segs) (arms p ++ [make_arm g segs begin following_absorbs])).

Example compile_demo :
  (λ p, (plan <$> arms p, seg_kind <$> segments p, token_kind <$> tokens (pools p)))
  <$> (match compile_arm (lit "**/a\[b*c/[!a-z]?") true (mkProgram (mkPools [] [] []) [] []) with Ok p => Some p | _ => None end)
  = Some ([GeneralPlan], [Recursive; Affix; General], [TLiteral; TStar; TLiteral; TClass; TAny]).
Proof. vm_compute. reflexivity. Qed.

(** ** Reading bytes as reading code points *)

Definition high (b : byte) : Prop := (128 ≤ uval b)%Z.

(** The bytes of a code point: a test of the first against a character of the
    syntax is one of the code point, and the others are none of them. *)
Lemma put_head c :
  scalar false c →
  ∃ x xs, put_code_point c = x :: xs ∧ Forall high xs ∧
    ∀ b, (uval b < 128)%Z → (x =?b b) = is_ch c b.
Proof.
  intros [Hc _]. destruct (Z_lt_le_dec c 128) as [Hlt|Hge].
  - assert (Ec : uval (to_byte c) = c) by (rewrite uval_to_byte_small; lia).
    exists (to_byte c), []. split; [rewrite <- Ec at 1; apply put_ascii; lia|]. split; [constructor|].
    intros b _. by rewrite byte_eqb_uval, Ec.
  - pose proof (put_arith_bytes c Hc) as Hb. rewrite put_code_point_arith by done.
    assert (Hall : Forall (λ z, 128 ≤ z)%Z (put_arith c)).
    { unfold put_arith in *. repeat case_if; bool_prop; repeat constructor; dlia. }
    destruct (put_arith c) as [|z zs] eqn:E.
    { unfold put_arith in E. repeat case_if_in E; done. }
    inversion_clear Hb as [|?? Hz Hzs]. inversion_clear Hall as [|?? Hz' Hzs']. exists (to_byte z), (to_byte <$> zs).
    split; [done|]. split.
    + apply Forall_fmap. apply Forall_forall. intros y Hy. rewrite Forall_forall in Hzs, Hzs'.
      specialize (Hzs y Hy). specialize (Hzs' y Hy). unfold compose, high. rewrite uval_to_byte_small; lia.
    + intros b Hlt. rewrite byte_eqb_uval, uval_to_byte_small by lia. unfold is_ch.
      rewrite (proj2 (Z.eqb_neq z (uval b))), (proj2 (Z.eqb_neq c (uval b))) by lia. done.
Qed.

Lemma high_neq b x : high b → (uval x < 128)%Z → (b =?b x) = false.
Proof. intros Hb Hx. apply byte_eqb_neq. intros ->. unfold high in Hb. lia. Qed.

(** Whether every backslash has something after it. *)
Fixpoint complete (p : list Z) : bool :=
  match p with
  | [] => true
  | c :: p' => if is_ch c backslash then match p' with [] => false | _ :: p'' => complete p'' end else complete p'
  end.

Lemma scan_high xs s j o :
  Forall high xs → scan_bracket_from (xs ++ s) j o = scan_bracket_from s (j + length xs) o.
Proof.
  intros H. revert j. induction H as [|x xs Hx _ IH]; intros j; [cbn; by rewrite Nat.add_0_r|].
  cbn [app scan_bracket_from length]. rewrite !high_neq by (done || (vm_compute; reflexivity)). rewrite IH. f_equal. lia.
Qed.

Lemma scan_body n p j o :
  length p < n → scalars p →
  match class_body p with
  | None => ∃ e, scan_bracket_from (spell p) j o = Err e
  | Some (body, rest) => scan_bracket_from (spell p) j o = Ok (j + length (spell body)) ∧
      p = body ++ uval "]"%byte :: rest ∧ complete body = true
  end.
Proof.
  revert p j. induction n as [|n IH]; intros p j Hn Hp; [lia|]. destruct p as [|c p]; [by eexists|].
  apply Forall_cons in Hp as [Hc Hp]. destruct (put_head c Hc) as (x & xs & Ex & Hxs & Hch).
  cbn [class_body]. rewrite spell_cons, Ex. cbn [app scan_bracket_from length] in *.
  rewrite !Hch by (vm_compute; reflexivity). destruct (is_ch c "]") eqn:E1.
  { apply Z.eqb_eq in E1 as ->. cbn. by rewrite Nat.add_0_r. }
  destruct (is_ch c backslash) eqn:E2.
  - pose proof E2 as E2'. apply Z.eqb_eq in E2' as ->. rewrite put_ascii in Ex by (vm_compute; reflexivity).
    injection Ex as <- <-. destruct p as [|d p]; [by eexists|]. apply Forall_cons in Hp as [Hd Hp].
    destruct (put_head d Hd) as (y & ys & Ey & Hys & _). rewrite app_nil_l, spell_cons, Ey. cbn [app].
    rewrite scan_high by done. cbn [length] in Hn. specialize (IH p (j + 2 + length ys) ltac:(lia) Hp).
    destruct (class_body p) as [[body rest]|]; cbn [mbind option_bind]; [|done]. destruct IH as (H1 & -> & H3).
    split; [|split; [done|cbn [complete]; by rewrite E2]]. rewrite H1. f_equal.
    rewrite !spell_cons, Ey, (put_ascii backslash) by (vm_compute; reflexivity). rewrite !length_app. cbn [length]. lia.
  - rewrite scan_high by done. specialize (IH p (j + 1 + length xs) ltac:(lia) Hp).
    destruct (class_body p) as [[body rest]|]; cbn [mbind option_bind]; [|done]. destruct IH as (H1 & -> & H3).
    split; [|split; [done|cbn [complete]; by rewrite E2]]. rewrite H1, spell_cons, Ex, length_app. cbn [length]. f_equal. lia.
Qed.

(** The byte at an offset where code points start. *)
Lemma lookup_spell s i c p :
  drop i s = spell (c :: p) → scalar false c →
  i < length s ∧ ∃ xs, s !! i = Some (s !!! i) ∧ put_code_point c = (s !!! i) :: xs ∧ Forall high xs ∧
    ∀ b, (uval b < 128)%Z → (s !!! i =?b b) = is_ch c b.
Proof.
  intros E Hc. destruct (put_head c Hc) as (x & xs & Ex & Hxs & Hch). rewrite spell_cons, Ex in E.
  pose proof (drop_lookup s i x _ E) as Hx. split; [by apply lookup_lt_Some in Hx|]. exists xs.
  assert (s !!! i = x) as -> by (by rewrite list_lookup_total_alt, Hx). done.
Qed.

Lemma drop_spell_ascii s i c p b :
  drop i s = spell (c :: p) → is_ch c b = true → (uval b < 128)%Z → drop (i + 1) s = spell p.
Proof.
  intros E Ec%Z.eqb_eq Hb. subst c. rewrite spell_cons, put_ascii in E by done. rewrite <- drop_drop, E. done.
Qed.

Lemma drop_spell_nil s i : drop i s = spell [] → i ≤ length s → i = length s.
Proof. intros E H. apply (f_equal length) in E. rewrite length_drop in E. cbn in E. lia. Qed.

Definition negation (p : list Z) : bool := match p with c :: _ => is_ch c "!" || is_ch c "^" | [] => false end.

Lemma scan_bracket_ok s i p :
  drop (i + 1) s = spell p → i + 1 ≤ length s → scalars p →
  match bracket_body (if negation p then drop 1 p else p) with
  | None => ∃ e, scan_bracket s i = Err e
  | Some (body, rest) =>
      scan_bracket s i = Ok (i + 1 + Nat.b2n (negation p) + length (spell body)) ∧ body ≠ [] ∧
      p = (if negation p then take 1 p else []) ++ body ++ uval "]"%byte :: rest ∧ complete body = true
  end.
Proof.
  intros E Hi Hp. unfold scan_bracket. destruct p as [|c p].
  { rewrite (drop_spell_nil s (i + 1) E Hi), Nat.eqb_refl. cbn. by eexists. }
  pose proof (Forall_inv Hp) as Hc. destruct (lookup_spell s (i + 1) c p E Hc) as (Hlt & xs & _ & Ex & Hxs & Hch).
  destruct (Nat.eqb_spec (i + 1) (length s)) as [|_]; [lia|]. rewrite !Hch by (vm_compute; reflexivity).
  change (is_ch c "!" || is_ch c "^") with (negation (c :: p)). set (neg := negation (c :: p)).
  set (j := if neg then i + 1 + 1 else i + 1). set (q := if neg then drop 1 (c :: p) else c :: p).
  assert (Ej : drop j s = spell q ∧ j ≤ length s ∧ j = i + 1 + Nat.b2n neg).
  { unfold j, q, neg, negation. destruct (is_ch c "!") eqn:E1; [|destruct (is_ch c "^") eqn:E2]; cbn [orb Nat.b2n].
    - split; [by apply (drop_spell_ascii s (i + 1) c p "!")|lia].
    - split; [by apply (drop_spell_ascii s (i + 1) c p "^")|lia].
    - split; [done|lia]. }
  assert (Hq : scalars q) by (unfold q; destruct neg; [by apply Forall_drop|done]).
  assert (Epq : c :: p = (if neg then take 1 (c :: p) else []) ++ q) by (unfold q; by destruct neg).
  destruct Ej as (Ej & Hj & Ejn). rewrite <- Ejn. clearbody j q. destruct q as [|d q].
  { rewrite (drop_spell_nil s j Ej Hj), Nat.eqb_refl. cbn [negb andb bracket_body]. rewrite drop_all. by eexists. }
  destruct (lookup_spell s j d q Ej (Forall_inv Hq)) as (Hlt' & _ & _ & _ & _ & Hch').
  destruct (Nat.eqb_spec j (length s)) as [|_]; [lia|]. cbn [negb andb bracket_body].
  rewrite Hch' by (vm_compute; reflexivity). destruct (is_ch d "]") eqn:Ed.
  - rewrite (drop_spell_ascii s j d q "]" Ej Ed) by (vm_compute; reflexivity).
    pose proof (scan_body (S (length q)) q (j + 1) i ltac:(lia) (Forall_inv_tail Hq)) as H.
    destruct (class_body q) as [[body rest]|]; cbn [mbind option_bind]; [|done]. destruct H as (H1 & -> & H3).
    split; [|split; [done|split; [exact Epq|]]].
    + rewrite H1. f_equal. apply Z.eqb_eq in Ed as ->. rewrite spell_cons, put_ascii by (vm_compute; reflexivity).
      rewrite length_app. cbn [length]. lia.
    + apply Z.eqb_eq in Ed as ->. done.
  - rewrite Ej. pose proof (scan_body (S (length (d :: q))) (d :: q) j i ltac:(lia) Hq) as H.
    destruct (class_body (d :: q)) as [[body rest]|]; [|done]. destruct H as (H1 & H2 & H3).
    split; [done|]. split; [|split; [by rewrite H2 in Epq|done]]. intros ->. injection H2 as -> _. done.
Qed.

(** ** Members *)

Lemma next_member_ok s it p :
  drop it s = spell p → scalars p → p ≠ [] → complete p = true →
  ∃ m r, read_member p = Some (m, r) ∧ next_member s it = (m, length s - length (spell r)) ∧
    drop (length s - length (spell r)) s = spell r ∧ scalar false m ∧ scalars r ∧ complete r = true ∧ length r < length p.
Proof.
  intros E Hp Hne Hcp. destruct p as [|c p]; [done|]. apply Forall_cons in Hp as [Hc Hp].
  destruct (lookup_spell s it c p E Hc) as (Hlt & xs & _ & Ex & Hxs & Hch).
  assert (Hlen : length s - it = length (spell (c :: p))) by (by rewrite <- E, length_drop).
  assert (Hone : ∀ it' m r, drop it' s = put_code_point m ++ spell r → it' < length s → scalar false m →
    decode_utf8_atom s it' = mkAtom m (length (put_code_point m)) ∧
    it' + length (put_code_point m) = length s - length (spell r) ∧ drop (length s - length (spell r)) s = spell r).
  { intros it' m r Em Hit Hm. split; [by apply (decode_atom_put _ _ _ _ Em)|].
    assert (El : it' + length (put_code_point m) = length s - length (spell r)).
    { apply (f_equal length) in Em. rewrite length_drop, length_app in Em. lia. }
    split; [done|]. by rewrite <- El, <- drop_drop, Em, drop_app_length. }
  cbn [read_member complete] in *. unfold next_member. rewrite Hch by (vm_compute; reflexivity).
  destruct (is_ch c backslash) eqn:Eb.
  - destruct p as [|d p]; [done|]. apply Forall_cons in Hp as [Hd Hp].
    pose proof (drop_spell_ascii s it c (d :: p) backslash E Eb ltac:(vm_compute; reflexivity)) as E1.
    destruct (lookup_spell s (it + 1) d p E1 Hd) as (Hlt1 & _). rewrite spell_cons in E1.
    destruct (Hone _ _ _ E1 Hlt1 Hd) as (-> & H2 & H3). exists d, p. cbn [cp len]. rewrite H2.
    split_and!; try done. cbn. lia.
  - rewrite spell_cons in E. destruct (Hone _ _ _ E Hlt Hc) as (-> & H2 & H3). exists c, p. cbn [cp len]. rewrite H2.
    split_and!; try done. cbn. lia.
Qed.

Lemma members_ok fuel fuel' s it p pending rs :
  drop it s = spell p → it ≤ length s → scalars p → complete p = true → length p < fuel → length p < fuel' →
  (∀ x, pending = Some x → scalar false x.1) →
  match read_members fuel p (fst <$> pending) with
  | None => ∃ e, members_from fuel' s it pending rs = Err e
  | Some rs' => members_from fuel' s it pending rs = Ok (rs ++ rs') ∧ Forall range_ok rs'
  end.
Proof.
  revert fuel' p it pending rs. induction fuel as [|fuel IH]; intros fuel' p it pending rs E Hit Hp Hcp Hf Hf' Hpend; [lia|].
  destruct fuel' as [|fuel']; [lia|]. cbn [read_members members_from].
  assert (Hpos : ∀ x y, pending = Some (x, y) → (0 ≤ x)%Z) by (intros x y ->; specialize (Hpend _ eq_refl); destruct Hpend; cbn in *; lia).
  assert (Hcons : ∀ (r : Z * Z) m y q rs0, range_ok r → drop (length s - length (spell q)) s = spell q → scalar false m →
    scalars q → complete q = true → length q < length p → 
    match (l ← read_members fuel q (Some m); Some (r :: l)) with
    | None => ∃ e, members_from fuel' s (length s - length (spell q)) (Some (m, y)) (rs0 ++ [r]) = Err e
    | Some rs' => members_from fuel' s (length s - length (spell q)) (Some (m, y)) (rs0 ++ [r]) = Ok (rs0 ++ rs') ∧ Forall range_ok rs'
    end).
  { intros r m y q rs0 Hr Eq Hm Hq Hcq Hlq.
    assert (Hpm : ∀ x, Some (m, y) = Some x → scalar false x.1) by (by intros x [= <-]).
    specialize (IH fuel' q (length s - length (spell q)) (Some (m, y)) (rs0 ++ [r]) Eq ltac:(lia) Hq Hcq ltac:(lia) ltac:(lia) Hpm).
    cbn [fmap option_fmap option_map fst] in IH.
    destruct (read_members fuel q (Some m)); cbn [mbind option_bind]; [|done]. destruct IH as [-> ?].
    rewrite <- app_assoc. split; [done|]. by constructor. }
  destruct p as [|c p].
  { rewrite (drop_spell_nil s it E Hit), Nat.eqb_refl. destruct pending as [[x y]|]; cbn.
    - split; [done|]. repeat constructor; cbn; [by eapply Hpos|lia].
    - rewrite app_nil_r. split; [done|constructor]. }
  destruct (lookup_spell s it c p E (Forall_inv Hp)) as (Hlt & _ & _ & _ & _ & Hch).
  destruct (Nat.eqb_spec it (length s)) as [|_]; [lia|].
  destruct (next_member_ok s it (c :: p) E Hp ltac:(done) Hcp) as (m & r & Er & En & Ed & Hm & Hr & Hcr & Hlr).
  destruct pending as [[lo y]|]; cbn [fmap option_fmap option_map fst].
  - rewrite Hch by (vm_compute; reflexivity). destruct (is_ch c "-") eqn:Eh; cbn [andb].
    + pose proof (drop_spell_ascii s it c p "-" E Eh ltac:(vm_compute; reflexivity)) as E1.
      assert (Hcp' : complete p = true).
      { cbn [complete] in Hcp. apply Z.eqb_eq in Eh. subst c. exact Hcp. }
      destruct (decide (p = [])) as [->|Hpn].
      * rewrite (drop_spell_nil s (it + 1) E1) by lia. rewrite Nat.eqb_refl. cbn [negb].
        rewrite bool_decide_true by done. cbn [negb]. rewrite Er, En. cbn [mbind option_bind].
        apply (Hcons (lo, lo)); try done. split; cbn; [by eapply Hpos|lia].
      * rewrite bool_decide_false by done. cbn [negb].
        destruct (Nat.eqb_spec (it + 1) (length s)) as [El|_].
        { rewrite El, drop_all in E1. destruct p as [|d p]; [done|]. rewrite spell_cons in E1.
          symmetry in E1. apply app_nil in E1 as [E1 _]. by destruct (put_code_point_nonempty d). }
        cbn [negb]. destruct (next_member_ok s (it + 1) p E1 (Forall_inv_tail Hp) Hpn Hcp') as (hi & r' & -> & -> & Ed' & Hhi & Hr' & Hcr' & Hlr').
        cbn [mbind option_bind]. destruct (Z.ltb_spec hi lo); [by eexists|].
        cbn [length] in Hf, Hf'.
        assert (Hnone : ∀ x : Z * nat, None = Some x → scalar false x.1) by done.
        specialize (IH fuel' r' (length s - length (spell r')) None (rs ++ [(lo, hi)]) Ed' ltac:(lia) Hr' Hcr' ltac:(lia) ltac:(lia) Hnone).
        cbn [fmap option_fmap option_map] in IH. destruct (read_members fuel r' None); cbn; [|done].
        destruct IH as [-> ?]. rewrite <- app_assoc. split; [done|]. constructor; [|done]. split; cbn; [by eapply Hpos|lia].
    + rewrite Er, En. cbn [mbind option_bind]. apply (Hcons (lo, lo)); try done. split; cbn; [by eapply Hpos|lia].
  - rewrite Er, En. cbn [mbind option_bind]. assert (Hpm : ∀ x, Some (m, it) = Some x → scalar false x.1) by (by intros x [= <-]).
    exact (IH fuel' r _ (Some (m, it)) rs Ed ltac:(lia) Hr Hcr ltac:(cbn in *; lia) ltac:(cbn in *; lia) Hpm).
Qed.

(** ** Pools that grow *)

(** A token indexes what is in the pools. *)
Definition token_in (g : Pools) (t : Token) : Prop :=
  match token_kind t with
  | TLiteral => token_begin t + token_size t ≤ length (literals g)
  | TClass => token_begin t < length (classes g)
  | _ => True
  end.

Definition extends (g g' : Pools) : Prop :=
  (∃ l, literals g' = literals g ++ l) ∧ (∃ l, classes g' = classes g ++ l).

Lemma extends_refl g : extends g g.
Proof. split; exists []; by rewrite app_nil_r. Qed.

Lemma extends_trans a b c : extends a b → extends b c → extends a c.
Proof.
  intros [[l1 E1] [k1 F1]] [[l2 E2] [k2 F2]]. split.
  - exists (l1 ++ l2). by rewrite E2, E1, app_assoc.
  - exists (k1 ++ k2). by rewrite F2, F1, app_assoc.
Qed.

Lemma token_in_extends g g' t : extends g g' → token_in g t → token_in g' t.
Proof.
  intros [[l El] [k Ek]]. unfold token_in. rewrite El, Ek, !length_app. destruct (token_kind t); lia.
Qed.

Lemma literal_extends g g' t :
  extends g g' → token_kind t = TLiteral → token_in g t → literal g' t = literal g t.
Proof.
  intros [[l El] _] Hk Hin. unfold token_in in Hin. rewrite Hk in Hin. unfold literal, substr. rewrite El.
  rewrite drop_app_le, take_app_le by (rewrite ?length_drop; lia). done.
Qed.

Lemma token_op_extends g g' t : extends g g' → token_in g t → token_op g' t = token_op g t.
Proof.
  intros He Hin. unfold token_op. destruct (token_kind t) eqn:Ek; try done.
  - by rewrite (literal_extends g g').
  - unfold token_in in Hin. rewrite Ek in Hin. destruct He as [_ [k ->]]. by rewrite lookup_total_app_l by done.
Qed.

(** What holds of every token. *)
Definition token_wf (g : Pools) (t : Token) : Prop :=
  token_in g t ∧ token_ok g t ∧ (token_kind t = TLiteral → slash ∉ literal g t).

Definition pools_wf (g : Pools) : Prop := ∀ t, t ∈ tokens g → token_wf g t.

Lemma token_wf_extends g g' t : extends g g' → token_wf g t → token_wf g' t.
Proof.
  intros He (H1 & H2 & H3). split; [by apply (token_in_extends g)|]. split.
  - intros Hk. rewrite (literal_extends g g') by done. by apply H2.
  - intros Hk. rewrite (literal_extends g g') by done. by apply H3.
Qed.

Lemma pools_wf_ok g : pools_wf g → pools_ok g.
Proof. intros H t Ht. by apply H. Qed.

(** ** The tokens of a segment *)

(** Literals are merged, and stars are all alike. *)
Fixpoint tidy (l : list Token) : Prop :=
  match l with
  | [] => True
  | t :: l' =>
      (token_kind t = TStar → t = mkToken TStar 0 0) ∧
      match l' with u :: _ => ¬ (token_kind t = TLiteral ∧ token_kind u = TLiteral) | [] => True end ∧ tidy l'
  end.

Lemma tidy_snoc l t :
  tidy (l ++ [t]) ↔ tidy l ∧ (token_kind t = TStar → t = mkToken TStar 0 0) ∧
    ∀ u, last l = Some u → ¬ (token_kind u = TLiteral ∧ token_kind t = TLiteral).
Proof.
  induction l as [|x l IH]; [cbn; naive_solver|]. cbn [app tidy]. rewrite IH. destruct l as [|y l]; [cbn; naive_solver|].
  cbn [app]. rewrite (last_cons x (y :: l)). destruct (last (y :: l)) as [z|] eqn:E; [naive_solver|].
  by apply last_None in E.
Qed.

(** The segment whose tokens start at [tb]: they are tidy, and a literal that
    can still grow ends where the literals do. *)
Record name_inv (g : Pools) (tb : nat) : Prop := {
  inv_wf : pools_wf g;
  inv_begin : tb ≤ length (tokens g);
  inv_tidy : tidy (drop tb (tokens g));
  inv_last t : last (drop tb (tokens g)) = Some t → token_kind t = TLiteral →
    token_begin t + token_size t = length (literals g);
}.

Definition name_ops (g : Pools) (tb : nat) : list op := token_op g <$> drop tb (tokens g).

(** What compiling part of a segment leaves: the pools grown, earlier tokens
    kept. *)
Definition grown (g g' : Pools) (tb : nat) : Prop := extends g g' ∧ take tb (tokens g') = take tb (tokens g).

Lemma grown_refl g tb : grown g g tb.
Proof. split; [apply extends_refl|done]. Qed.

Lemma grown_trans a b c tb : grown a b tb → grown b c tb → grown a c tb.
Proof. intros [E1 T1] [E2 T2]. split; [by apply (extends_trans a b)|congruence]. Qed.

(** A new token. *)
Lemma push_inv g g' tb t :
  name_inv g tb → extends g g' → tokens g' = tokens g ++ [t] → token_wf g' t →
  (token_kind t = TStar → t = mkToken TStar 0 0) →
  (token_kind t = TLiteral → needs_new g tb TLiteral = true ∧ token_begin t + token_size t = length (literals g')) →
  name_inv g' tb ∧ grown g g' tb ∧ name_ops g' tb = name_ops g tb ++ [token_op g' t].
Proof.
  intros [Hwf Hb Ht Hl] He Et Hw Hs Hlit.
  assert (Ed : drop tb (tokens g') = drop tb (tokens g) ++ [t]) by (rewrite Et; by apply drop_app_le).
  split; [|split].
  - split.
    + intros u Hu. rewrite Et, elem_of_app in Hu. destruct Hu as [Hu|Hu].
      * apply (token_wf_extends g); [done|]. by apply Hwf.
      * apply list_elem_of_singleton in Hu as ->. done.
    + rewrite Et, length_app. lia.
    + rewrite Ed. apply tidy_snoc. split; [done|]. split; [done|]. intros u Hu [Hk1 Hk2].
      destruct (Hlit Hk2) as [Hn _]. unfold needs_new in Hn. apply orb_true_iff in Hn as [Hn|Hn].
      * apply Nat.eqb_eq in Hn. by rewrite drop_ge in Hu by lia.
      * apply negb_true_iff, bool_decide_eq_false in Hn. apply Hn. unfold back.
        rewrite <- (take_drop tb (tokens g)), last_app, Hu. done.
    + intros u. rewrite Ed, last_snoc. intros [= <-] Hk. by apply Hlit.
  - split; [done|]. rewrite Et. by apply take_app_le.
  - unfold name_ops. rewrite Ed, fmap_app. cbn [fmap list_fmap]. f_equal. apply list_fmap_ext.
    intros i u Hu. apply token_op_extends; [done|]. apply Hwf. apply list_elem_of_lookup_2 in Hu.
    rewrite <- (take_drop tb (tokens g)), elem_of_app. by right.
Qed.

(** ** Literals *)

Definition push_bytes (tb : nat) (g : Pools) (bs : bytes) : Pools := foldl (push_literal tb) g bs.

Definition grow (t : Token) (n : nat) : Token := mkToken (token_kind t) (token_begin t) (token_size t + n).

Lemma push_literal_grows tb g c :
  tb < length (tokens g) → token_kind (back g) = TLiteral →
  push_literal tb g c =
  mkPools (literals g ++ [c]) (take (length (tokens g) - 1) (tokens g) ++ [grow (back g) 1]) (classes g).
Proof.
  intros Hl Hk. unfold push_literal, needs_new. rewrite Hk.
  rewrite (proj2 (Nat.eqb_neq (length (tokens g)) tb)), bool_decide_true by (lia || done). cbn [negb orb].
  unfold grow. by rewrite Hk.
Qed.

Lemma push_bytes_grow tb g bs :
  tb < length (tokens g) → token_kind (back g) = TLiteral →
  push_bytes tb g bs =
  mkPools (literals g ++ bs) (take (length (tokens g) - 1) (tokens g) ++ [grow (back g) (length bs)]) (classes g).
Proof.
  revert g. induction bs as [|c bs IH]; intros g Hl Hk.
  - unfold push_bytes. cbn [foldl]. rewrite app_nil_r. destruct g as [ls ts cs]. cbn in *. f_equal.
    unfold back in *. cbn in *. destruct (last ts) as [t|] eqn:E; [|by apply last_None in E as ->; cbn in *; lia].
    apply last_Some in E as [init ->]. rewrite length_app, Nat.add_sub, take_app_length. cbn [default from_option id].
    destruct t. unfold grow. cbn. by rewrite Nat.add_0_r.
  - unfold push_bytes in *. cbn [foldl]. rewrite push_literal_grows by done.
    assert (Hlen : length (take (length (tokens g) - 1) (tokens g) ++ [grow (back g) 1]) = length (tokens g))
      by (rewrite length_app, length_take; cbn; lia).
    set (g1 := mkPools _ _ _). assert (Eb : back g1 = grow (back g) 1) by (unfold back; cbn [tokens g1]; by rewrite last_snoc).
    rewrite IH; [|unfold g1; cbn [tokens]; by rewrite Hlen|by rewrite Eb]. rewrite Eb. unfold g1. cbn [tokens literals classes].
    rewrite Hlen. f_equal; [by rewrite <- app_assoc|]. f_equal.
    + rewrite take_app_le by (rewrite length_take; lia). by rewrite take_take, Nat.min_id.
    + unfold grow. cbn. do 2 f_equal. lia.
Qed.

(** One code point more in the segment's literal, or a literal of its own. *)
Lemma push_char_ok tb g c :
  name_inv g tb → scalar false c → is_ch c slash = false →
  let g' := push_bytes tb g (put_code_point c) in
  name_inv g' tb ∧ grown g g' tb ∧ ops_equiv (name_ops g' tb) (name_ops g tb ++ [OLit [c]]).
Proof.
  intros Hi Hc Hs. destruct (put_head c Hc) as (x & xs & Ex & Hxs & Hch).
  assert (Hns : slash ∉ put_code_point c).
  { rewrite Ex. intros [E|Hin]%elem_of_cons.
    - pose proof (Hch slash ltac:(vm_compute; reflexivity)) as H. rewrite Hs in H. apply byte_eqb_neq in H. done.
    - rewrite Forall_forall in Hxs. specialize (Hxs slash Hin). vm_compute in Hxs. done. }
  assert (Hsc : scalars [c]) by (by constructor).
  assert (Hsp : spell [c] = put_code_point c) by (rewrite spell_cons; apply app_nil_r).
  assert (Hne : put_code_point c ≠ []) by (by rewrite Ex).
  set (bs := put_code_point c) in *. destruct (needs_new g tb TLiteral) eqn:En.
  - set (t := mkToken TLiteral (length (literals g)) (length bs)).
    assert (Eg : push_bytes tb g bs = mkPools (literals g ++ bs) (tokens g ++ [t]) (classes g)).
    { rewrite Ex. unfold push_bytes. cbn [foldl]. fold (push_bytes tb (push_literal tb g x) xs).
      assert (E1 : push_literal tb g x = mkPools (literals g ++ [x]) (tokens g ++ [mkToken TLiteral (length (literals g)) 1]) (classes g)).
      { unfold push_literal. rewrite En. unfold push_token, back. cbn [tokens literals classes]. rewrite last_snoc, length_app.
        cbn [length default from_option id token_kind token_begin token_size]. by rewrite Nat.add_sub, take_app_length. }
      pose proof (inv_begin g tb Hi). rewrite E1, push_bytes_grow; cbn [tokens literals classes].
      - unfold back. cbn [tokens]. rewrite last_snoc, length_app. cbn [length default from_option id].
        rewrite Nat.add_sub, take_app_length, <- app_assoc. unfold t. rewrite Ex. done.
      - rewrite length_app. cbn. lia.
      - unfold back. cbn [tokens]. by rewrite last_snoc. }
    rewrite Eg. set (g' := mkPools _ _ _).
    assert (El : literal g' t = bs).
    { unfold literal, substr, g', t. cbn [literals token_begin token_size]. by rewrite drop_app_length, firstn_all. }
    destruct (push_inv g g' tb t Hi) as (H1 & H2 & H3); try done.
    + split; [by exists bs|exists []; by rewrite app_nil_r].
    + split; [unfold token_in; cbn; rewrite length_app; lia|]. split; [|intros _; by rewrite El].
      intros _. exists [c]. rewrite El, Hsp. done.
    + intros _. split; [done|]. unfold t, g'. cbn. rewrite length_app. done.
    + split; [done|]. split; [done|]. rewrite H3. assert (token_op g' t = OLit (atoms bs)) as -> by (unfold token_op; by rewrite El).
      by rewrite <- Hsp, <- (app_nil_r (spell [c])), atoms_spell by done.
  - unfold needs_new in En. apply orb_false_iff in En as [En1 En2]. apply Nat.eqb_neq in En1.
    apply negb_false_iff, bool_decide_eq_true in En2. pose proof Hi as [Hwf Hb Ht Hl].
    assert (Hlt : tb < length (tokens g)) by lia.
    rewrite push_bytes_grow by done. set (t := back g) in *. set (g' := mkPools _ _ _).
    assert (Etok : tokens g = take (length (tokens g) - 1) (tokens g) ++ [t]).
    { unfold t, back in *. destruct (last (tokens g)) as [u|] eqn:E; [|apply last_None in E; rewrite E in Hlt; cbn in Hlt; lia].
      apply last_Some in E as [init E]. rewrite E, length_app, Nat.add_sub, take_app_length. done. }
    set (init := take (length (tokens g) - 1) (tokens g)) in *.
    assert (Hlen : length (tokens g) = length init + 1) by (rewrite Etok, length_app; done).
    assert (Ed : drop tb (tokens g) = drop tb init ++ [t]) by (rewrite Etok; apply drop_app_le; lia).
    assert (Ed' : drop tb (tokens g') = drop tb init ++ [grow t (length bs)]) by (apply drop_app_le; lia).
    assert (Hend : token_begin t + token_size t = length (literals g)) by (apply Hl; [by rewrite Ed, last_snoc|done]).
    destruct (Hwf t) as (Hin & Hok & Hsl); [rewrite Etok, elem_of_app; right; left|].
    destruct (Hok En2) as (cps & Hcn & Hcs & Ecps).
    assert (He : extends g g') by (split; [by exists bs|exists []; by rewrite app_nil_r]).
    assert (El : literal g' (grow t (length bs)) = literal g t ++ bs).
    { unfold literal, substr, g', grow. cbn [literals token_begin token_size].
      rewrite drop_app_le by lia. rewrite take_app. f_equal.
      - rewrite !take_ge by (rewrite length_drop; lia). done.
      - rewrite length_drop. rewrite take_ge by lia. done. }
    assert (Hgt : token_kind (grow t (length bs)) = TLiteral) by done.
    split; [|split].
    + split.
      * intros u Hu. apply elem_of_app in Hu as [Hu|Hu].
        -- apply (token_wf_extends g); [done|]. apply Hwf. rewrite Etok, elem_of_app. by left.
        -- apply list_elem_of_singleton in Hu as ->. split; [|split].
           ++ unfold token_in. rewrite Hgt. cbn. rewrite length_app. lia.
           ++ intros _. exists (cps ++ [c]). split; [by destruct cps|]. split; [by apply Forall_app|].
              rewrite El, Ecps. unfold spell. rewrite fmap_app, join_app. cbn. by rewrite app_nil_r.
           ++ intros _. rewrite El, elem_of_app. intros [H|H]; [by apply Hsl|done].
      * unfold g'. cbn. rewrite length_app. cbn. lia.
      * rewrite Ed'. rewrite Ed in Ht. apply tidy_snoc in Ht as (H1 & H2 & H3). apply tidy_snoc. split; [done|].
        split; [by rewrite Hgt|]. intros u Hu [K1 K2]. by apply (H3 u Hu).
      * intros u. rewrite Ed', last_snoc. intros [= <-] _. unfold g'. cbn. rewrite length_app. lia.
    + split; [done|]. unfold g'. cbn [tokens]. rewrite Etok, !take_app_le by lia. done.
    + unfold name_ops. rewrite Ed', Ed, !fmap_app. cbn [fmap list_fmap].
      assert (Einit : token_op g' <$> drop tb init = token_op g <$> drop tb init).
      { apply list_fmap_ext. intros k u Hu. apply token_op_extends; [done|]. apply Hwf.
        rewrite Etok, elem_of_app. left. apply list_elem_of_lookup_2 in Hu. rewrite <- (take_drop tb init), elem_of_app. by right. }
      rewrite Einit, <- app_assoc. apply ops_app_proper; [done|]. unfold token_op. rewrite Hgt, En2, El, Ecps.
      rewrite <- (app_nil_r (spell cps)), atoms_spell, app_nil_r by done.
      fold bs. rewrite <- Hsp. rewrite app_nil_r, atoms_spell by done.
      rewrite <- (app_nil_r (spell [c])), atoms_spell, app_nil_r by done. apply ops_lit_app.
Qed.

(** ** One step of the loop *)

(** Where the loop gets to by reading what the reader reads. *)
Definition name_step (s : bytes) (i tb : nat) (g : Pools) (fuel : nat) (res : option (op * list Z)) : Prop :=
  match res with
  | None => ∃ e, compile_name fuel s i tb g = Err e
  | Some (o, r) => ∃ i' g' fuel',
      compile_name fuel s i tb g = compile_name fuel' s i' tb g' ∧ length s - i' < fuel' ∧
      i < i' ≤ length s ∧ drop i' s = spell r ∧ name_inv g' tb ∧ grown g g' tb ∧
      ops_equiv (name_ops g' tb) (name_ops g tb ++ [o])
  end.

Lemma spelled_app a b : spell (a ++ b) = spell a ++ spell b.
Proof. unfold spell. by rewrite fmap_app, join_app. Qed.

Lemma drop_spell_app s i a b : drop i s = spell (a ++ b) → drop (i + length (spell a)) s = spell b.
Proof. intros E. rewrite <- drop_drop, E, spelled_app. apply drop_app_length. Qed.

Lemma drop_spell_bound s i p : i ≤ length s → drop i s = spell p → i + length (spell p) = length s.
Proof. intros Hi E. apply (f_equal length) in E. rewrite length_drop in E. lia. Qed.

(** A token that is pushed by one pass of the loop. *)
Lemma push_step s i i' tb g g' t o r fuel :
  s !!! i ≠ slash → i < length s → length s - i < fuel →
  compile_item s i tb g = Ok (i', g') → i < i' ≤ length s → drop i' s = spell r →
  name_inv g tb → extends g g' → tokens g' = tokens g ++ [t] → token_wf g' t →
  (token_kind t = TStar → t = mkToken TStar 0 0) → token_kind t ≠ TLiteral →
  ops_equiv [token_op g' t] [o] →
  name_step s i tb g fuel (Some (o, r)).
Proof.
  intros Hs Hi Hf Hc Hi' Ed Hinv He Et Hw Hst Hl Ho.
  destruct (push_inv g g' tb t Hinv He Et Hw Hst) as (H1 & H2 & H3); [done|].
  destruct fuel as [|fuel]; [lia|]. exists i', g', fuel. cbn [compile_name].
  rewrite (proj2 (Nat.eqb_neq i (length s))), (proj2 (byte_eqb_neq (s !!! i) slash)) by (lia || done).
  cbn [orb]. rewrite Hc. cbn [ebind fst snd]. split; [done|]. split; [lia|]. split; [done|]. split; [done|].
  split; [done|]. split; [done|]. rewrite H3. by apply ops_app_proper.
Qed.

Lemma item_error s i tb g e fuel :
  s !!! i ≠ slash → i < length s → length s - i < fuel → compile_item s i tb g = Err e →
  name_step s i tb g fuel None.
Proof.
  intros Hs Hi Hf Hc. destruct fuel as [|fuel]; [lia|]. exists e. cbn [compile_name].
  rewrite (proj2 (Nat.eqb_neq i (length s))), (proj2 (byte_eqb_neq (s !!! i) slash)) by (lia || done).
  cbn [orb]. by rewrite Hc.
Qed.

Lemma class_step s i p tb g fuel :
  drop i s = spell (uval "["%byte :: p) → scalars p → name_inv g tb → length s - i < fuel →
  name_step s i tb g fuel (read_class p).
Proof.
  intros E Hp Hinv Hf. destruct (lookup_spell s i _ _ E) as (Hlt & xs & _ & Ex & _ & Hch); [apply scalar_ascii; vm_compute; reflexivity|].
  assert (Ei : s !!! i = "["%byte) by (apply byte_eqb_spec; rewrite Hch by (vm_compute; reflexivity); reflexivity).
  assert (Hs : s !!! i ≠ slash) by (by rewrite Ei).
  assert (E1 : drop (i + 1) s = spell p) by (apply (drop_spell_ascii s i _ p "[" E); vm_compute; reflexivity).
  assert (Hitem : compile_item s i tb g = compile_class s i g) by (unfold compile_item; by rewrite Ei).
  pose proof (scan_bracket_ok s i p E1 ltac:(lia) Hp) as Hscan. unfold read_class. fold (negation p). cbv zeta.
  destruct (bracket_body (if negation p then drop 1 p else p)) as [[body rest]|]; cbn [mbind option_bind].
  2:{ destruct Hscan as [e He]. apply (item_error _ _ _ _ e); try done. rewrite Hitem. unfold compile_class. by rewrite He. }
  destruct Hscan as (Hscan & Hbn & Ep & Hcb). set (neg := negation p) in *. set (np := if neg then take 1 p else []) in *.
  assert (Hnp : length (spell np) = Nat.b2n neg).
  { unfold np, neg, negation. destruct p as [|c p]; [done|]. destruct (is_ch c "!") eqn:X1; [|destruct (is_ch c "^") eqn:X2]; cbn [orb]; [..|done].
    - apply Z.eqb_eq in X1 as ->. vm_compute. reflexivity. - apply Z.eqb_eq in X2 as ->. vm_compute. reflexivity. }
  assert (Hb : scalars body) by (rewrite Ep in Hp; by apply Forall_app in Hp as [_ [Hp _]%Forall_app]).
  set (text := substr s (i + 1) (i + 1 + Nat.b2n neg + length (spell body) - i - 1)).
  assert (Etext : text = spell (np ++ body)).
  { unfold text, substr. rewrite E1, Ep, app_assoc, (spelled_app (np ++ body)). apply take_app_length'.
    rewrite spelled_app, length_app. lia. }
  assert (Hneg : (text !!! 0 =?b "!"%byte) || (text !!! 0 =?b "^"%byte) = neg).
  { destruct (np ++ body) as [|c q] eqn:Eq; [by apply app_nil in Eq as [_ ->]|].
    assert (Hq : drop 0 text = spell (c :: q)) by (by rewrite drop_0).
    assert (Epc : p = c :: q ++ uval "]"%byte :: rest) by (rewrite Ep, app_assoc, Eq; done).
    assert (Hc : scalar false c) by (rewrite Epc in Hp; by apply Forall_inv in Hp).
    destruct (lookup_spell text 0 c q Hq Hc) as (_ & _ & _ & _ & _ & Hch'). rewrite !Hch' by (vm_compute; reflexivity).
    unfold neg. by rewrite Epc. }
  assert (Ebody : (if neg then drop 1 text else text) = spell body).
  { rewrite Etext, spelled_app. unfold np in *. destruct neg; cbn [Nat.b2n] in Hnp; [|done]. by apply drop_app_length'. }
  assert (Hmem : match read_members (S (length body)) body None with
    | None => ∃ e, parse_bracket_charset (spell body) = Err e
    | Some rs => parse_bracket_charset (spell body) = Ok (foldl merge_range [] (sort_ranges rs)) ∧ Forall range_ok rs end).
  { unfold parse_bracket_charset.
    assert (Hlb : length body ≤ length (spell body)).
    { clear. induction body as [|c b IH]; [done|]. rewrite spell_cons, length_app. pose proof (length_put_pos c). cbn. lia. }
    pose proof (members_ok (S (length body)) (S (length (spell body))) (spell body) 0 body None [] ltac:(done) ltac:(lia) Hb Hcb
      ltac:(lia) ltac:(lia) ltac:(done)) as H. cbn [fmap option_fmap option_map] in H.
    destruct (read_members _ _ _) as [rs|]; [|destruct H as [e ->]; by exists e]. destruct H as [-> ?]. done. }
  unfold compile_class in Hitem. rewrite Hscan in Hitem. cbn [ebind] in Hitem. fold text in Hitem.
  rewrite Hneg, Ebody in Hitem. destruct (read_members _ _ _) as [rs|]; cbn [mbind option_bind].
  2:{ destruct Hmem as [e He]. rewrite He in Hitem. by eapply item_error. }
  destruct Hmem as [Hpar Hrs]. rewrite Hpar in Hitem.
  assert (Erest : drop (i + 1 + Nat.b2n neg + length (spell body) + 1) s = spell rest).
  { rewrite Ep, app_assoc in E1. apply drop_spell_app in E1. rewrite spelled_app, length_app, Hnp in E1.
    rewrite Nat.add_assoc in E1. by apply (drop_spell_ascii _ _ _ _ "]" E1). }
  eapply push_step; [done|done|done|exact Hitem| |exact Erest|exact Hinv| |reflexivity| |done|done|].
  - assert (Hlen := f_equal length Ep). pose proof (drop_spell_bound s (i + 1) p ltac:(lia) E1) as Hbd.
    rewrite Ep, !spelled_app, !length_app, spell_cons, length_app, Hnp in Hbd. pose proof (length_put_pos (uval "]"%byte)). lia.
  - split; [exists []; cbn; by rewrite app_nil_r|]. by eexists.
  - split; [unfold token_in; cbn; rewrite length_app; cbn; lia|]. done.
  - unfold token_op. cbn [token_kind token_begin classes]. apply ops_one. intros c.
    rewrite lookup_total_app_r, Nat.sub_diag by done. by apply charset_contains.
Qed.

Lemma star_run_spell p : scalars p → star_run (spell p) = stars_at p.
Proof.
  induction 1 as [|c p Hc _ IH]; [done|]. destruct (put_head c Hc) as (x & xs & Ex & Hxs & Hch).
  rewrite spell_cons, Ex. cbn [app star_run stars_at]. rewrite Hch by (vm_compute; reflexivity).
  destruct (is_ch c "*") eqn:E; [|done]. apply Z.eqb_eq in E as ->. rewrite put_ascii in Ex by (vm_compute; reflexivity).
  injection Ex as <- <-. by rewrite app_nil_l, IH.
Qed.

Lemma stars_length p : stars_at p ≤ length p ∧ length (spell (take (stars_at p) p)) = stars_at p.
Proof.
  induction p as [|c p [IH1 IH2]]; [done|]. cbn [stars_at]. destruct (is_ch c "*") eqn:E; [|split; [lia|done]].
  cbn [take length]. split; [lia|]. apply Z.eqb_eq in E as ->. rewrite spell_cons, length_app, IH2.
  by rewrite put_ascii by (vm_compute; reflexivity).
Qed.

Lemma star_step s i p tb g fuel :
  drop i s = spell (uval "*"%byte :: p) → scalars p → name_inv g tb → length s - i < fuel →
  name_step s i tb g fuel (if 1 <? stars_at p then None else Some (OStar, drop (stars_at p) p)).
Proof.
  intros E Hp Hinv Hf. assert (Hsc : scalar false (uval "*"%byte)) by (apply scalar_ascii; vm_compute; reflexivity).
  destruct (lookup_spell s i _ _ E Hsc) as (Hlt & xs & _ & _ & _ & Hch).
  assert (Ei : s !!! i = "*"%byte) by (apply byte_eqb_spec; rewrite Hch by (vm_compute; reflexivity); reflexivity).
  assert (Hs : s !!! i ≠ slash) by (by rewrite Ei).
  assert (E1 : drop (i + 1) s = spell p) by (apply (drop_spell_ascii s i _ p "*" E); vm_compute; reflexivity).
  assert (Hitem : compile_item s i tb g = compile_star s i tb g) by (unfold compile_item; by rewrite Ei).
  unfold compile_star in Hitem. rewrite E, star_run_spell in Hitem by (by constructor). cbn [stars_at] in Hitem.
  change (is_ch (uval "*"%byte) "*") with true in Hitem. cbv iota in Hitem.
  destruct (stars_length p) as [Hl1 Hl2]. pose proof (drop_spell_bound s (i + 1) p ltac:(lia) E1) as Hb.
  destruct (Nat.ltb_spec 2 (S (stars_at p))) as [Hm|Hm].
  { rewrite (proj2 (Nat.ltb_lt 1 (stars_at p))) by lia. by eapply item_error. }
  rewrite (proj2 (Nat.ltb_ge 1 (stars_at p))) by lia.
  assert (Er : drop (i + S (stars_at p)) s = spell (drop (stars_at p) p)).
  { replace (i + S (stars_at p)) with (i + 1 + length (spell (take (stars_at p) p))) by lia.
    apply drop_spell_app. by rewrite take_drop. }
  assert (Hi' : i < i + S (stars_at p) ≤ length s).
  { rewrite <- (take_drop (stars_at p) p), spelled_app, length_app, Hl2 in Hb. lia. }
  destruct (needs_new g tb TStar) eqn:En.
  - eapply push_step; [done|done|done|exact Hitem|exact Hi'|exact Er|exact Hinv| |reflexivity| |done|done|done].
    + split; exists []; cbn; by rewrite app_nil_r.
    + split_and!; done.
  - destruct fuel as [|fuel]; [lia|]. exists (i + S (stars_at p)), g, fuel. cbn [compile_name].
    rewrite (proj2 (Nat.eqb_neq i (length s))), (proj2 (byte_eqb_neq (s !!! i) slash)) by (lia || done).
    cbn [orb]. rewrite Hitem. cbn [ebind fst snd]. split; [done|]. split; [lia|]. split; [done|]. split; [done|].
    split; [done|]. split; [apply grown_refl|]. unfold needs_new in En. apply orb_false_iff in En as [En1 En2].
    apply Nat.eqb_neq in En1. apply negb_false_iff, bool_decide_eq_true in En2. pose proof (inv_begin g tb Hinv) as Hb'.
    unfold name_ops, back in *. destruct (last (tokens g)) as [t|] eqn:El.
    2:{ apply last_None in El. rewrite El in En1, Hb'. cbn in *. lia. }
    cbn [default from_option id] in En2. apply last_Some in El as [init El]. rewrite El, length_app in En1, Hb'. cbn [length] in *.
    rewrite El, drop_app_le by lia. rewrite fmap_app, <- app_assoc. cbn [fmap list_fmap]. unfold token_op at 2 4. rewrite En2.
    apply ops_app_proper; [done|]. symmetry. apply ops_stars.
Qed.

(** The bytes of a code point after its first. *)
Lemma high_run fuel s j tb g xs t :
  Forall high xs → drop j s = xs ++ t → length s - j < fuel →
  ∃ fuel', compile_name fuel s j tb g = compile_name fuel' s (j + length xs) tb (push_bytes tb g xs) ∧
    length s - (j + length xs) < fuel'.
Proof.
  intros H. revert fuel j g. induction H as [|x xs Hx _ IH]; intros fuel j g E Hf.
  - exists fuel. cbn [length]. rewrite Nat.add_0_r. done.
  - cbn [app] in E. pose proof (drop_lookup s j x _ E) as Hl. pose proof (lookup_lt_Some _ _ _ Hl) as Hlt.
    destruct fuel as [|fuel]; [lia|]. cbn [compile_name].
    assert (Ex : s !!! j = x) by (by rewrite list_lookup_total_alt, Hl).
    rewrite (proj2 (Nat.eqb_neq j (length s))) by lia. unfold compile_item. rewrite Ex.
    rewrite !high_neq by (done || (vm_compute; reflexivity)). cbn [orb ebind fst snd].
    destruct (IH fuel (j + 1) (push_literal tb g x)) as (fuel' & E' & Hf'); [by rewrite <- drop_drop, E|lia|].
    exists fuel'. cbn [length]. rewrite E'. replace (j + S (length xs)) with (j + 1 + length xs) by lia. done.
Qed.

(** A code point whose first byte one pass of the loop pushes. *)
Lemma char_step s i j c r tb g fuel :
  s !!! i ≠ slash → i ≤ j → length s - i < fuel → scalar false c → is_ch c slash = false → scalars r →
  drop j s = spell (c :: r) → name_inv g tb →
  compile_item s i tb g = Ok (j + 1, push_literal tb g (s !!! j)) →
  name_step s i tb g fuel (Some (OLit [c], r)).
Proof.
  intros Hs Hij Hf Hc Hns Hr E Hinv Hitem. destruct (lookup_spell s j c r E Hc) as (Hlt & xs & _ & Ex & Hxs & Hch).
  destruct fuel as [|fuel]; [lia|]. cbn [name_step compile_name].
  rewrite (proj2 (Nat.eqb_neq i (length s))), (proj2 (byte_eqb_neq (s !!! i) slash)) by (lia || done).
  cbn [orb]. rewrite Hitem. cbn [ebind fst snd].
  assert (E1 : drop (j + 1) s = xs ++ spell r) by (rewrite spell_cons, Ex in E; by rewrite <- drop_drop, E).
  destruct (high_run fuel s (j + 1) tb (push_literal tb g (s !!! j)) xs (spell r) Hxs E1) as (fuel' & E2 & Hf2); [lia|].
  exists (j + 1 + length xs), (push_bytes tb g (put_code_point c)), fuel'. rewrite E2, Ex.
  split; [done|]. split; [done|].
  assert (Hl := f_equal length E1). rewrite length_drop, length_app in Hl. split; [lia|].
  split; [by rewrite <- drop_drop, E1, drop_app_length|]. rewrite <- Ex. by apply push_char_ok.
Qed.

Lemma item_step s i c p tb g fuel :
  drop i s = spell (c :: p) → scalars (c :: p) → is_ch c slash = false → name_inv g tb → length s - i < fuel →
  name_step s i tb g fuel (read_op c p).
Proof.
  intros E Hcp Hns Hinv Hf. pose proof (Forall_inv Hcp) as Hc. pose proof (Forall_inv_tail Hcp) as Hp. simpl in Hp.
  destruct (lookup_spell s i c p E Hc) as (Hlt & xs & _ & Ex & Hxs & Hch).
  assert (Hs : s !!! i ≠ slash) by (apply byte_eqb_neq; by rewrite Hch by (vm_compute; reflexivity)).
  unfold read_op. destruct (is_ch c "[") eqn:E1; [apply Z.eqb_eq in E1 as ->; by apply class_step|].
  destruct (is_ch c "*") eqn:E2; [apply Z.eqb_eq in E2 as ->; by apply star_step|].
  assert (Hitem : compile_item s i tb g = if is_ch c "?" then Ok (i + 1, push_token g (mkToken TAny 0 0))
    else if is_ch c backslash then compile_escape s i tb g else Ok (i + 1, push_literal tb g (s !!! i))).
  { unfold compile_item. rewrite !Hch by (vm_compute; reflexivity). by rewrite E1, E2. }
  destruct (is_ch c "?") eqn:E3.
  { pose proof (drop_spell_ascii s i c p "?" E E3 ltac:(vm_compute; reflexivity)) as E4.
    eapply push_step; [done|done|done|exact Hitem|lia|exact E4|exact Hinv| |reflexivity| |done|done|done].
    + split; exists []; cbn; by rewrite app_nil_r.
    + split_and!; done. }
  destruct (is_ch c backslash) eqn:E4.
  - pose proof (drop_spell_ascii s i c p backslash E E4 ltac:(vm_compute; reflexivity)) as E5. unfold compile_escape in Hitem.
    destruct p as [|d p].
    { rewrite <- (drop_spell_nil s (i + 1) E5) in Hitem at 1 by lia. rewrite Nat.eqb_refl in Hitem. by eapply item_error. }
    destruct (lookup_spell s (i + 1) d p E5 (Forall_inv Hp)) as (Hlt' & _ & _ & _ & _ & Hch').
    rewrite (proj2 (Nat.eqb_neq (i + 1) (length s))) in Hitem by lia. rewrite Hch' in Hitem by (vm_compute; reflexivity).
    destruct (is_ch d slash) eqn:E6; [by eapply item_error|].
    apply (char_step s i (i + 1) d p); try done; [lia|by apply Forall_inv in Hp|by apply Forall_inv_tail in Hp|].
    rewrite Hitem. do 2 f_equal. lia.
  - by apply (char_step s i i c p).
Qed.

(** What is left after an operation is a shorter end of the text. *)
Lemma class_body_rest n p body r : length p < n → class_body p = Some (body, r) → p = body ++ uval "]"%byte :: r.
Proof.
  revert p body. induction n as [|n IH]; intros p body Hn H; [lia|]. destruct p as [|c p]; [done|]. cbn [class_body length] in *.
  destruct (is_ch c "]") eqn:E1; [apply Z.eqb_eq in E1; by simplify_eq|]. destruct (is_ch c backslash).
  - destruct p as [|d p]; [done|]. destruct (class_body p) as [[b q]|] eqn:E; [|done]. cbn in H. simplify_eq.
    cbn [length] in Hn. cbn [app]. do 2 f_equal. apply (IH p b); [lia|done].
  - destruct (class_body p) as [[b q]|] eqn:E; [|done]. cbn in H. simplify_eq. cbn [app]. f_equal. apply (IH p b); [lia|done].
Qed.

Lemma read_op_rest c p o r : read_op c p = Some (o, r) → ∃ q, p = q ++ r.
Proof.
  unfold read_op, read_class. intros H. destruct (is_ch c "[").
  - set (neg := match p with [] => _ | _ => _ end) in H.
    destruct (bracket_body (if neg then drop 1 p else p)) as [[body rest]|] eqn:E; [|done]. cbn [mbind option_bind] in H.
    destruct (read_members _ _ _); [|done]. cbn in H. simplify_eq.
    assert (Hq : ∃ q, (if neg then drop 1 p else p) = q ++ r).
    { unfold bracket_body in E. destruct (if neg then drop 1 p else p) as [|d q]; [done|]. destruct (is_ch d "]").
      - destruct (class_body q) as [[b r']|] eqn:Eb; [|done]. cbn in E. simplify_eq.
        rewrite (class_body_rest _ _ _ _ (Nat.lt_succ_diag_r _) Eb). exists (d :: b ++ [uval "]"%byte]). cbn. by rewrite <- app_assoc.
      - rewrite (class_body_rest _ _ _ _ (Nat.lt_succ_diag_r _) E). exists (body ++ [uval "]"%byte]). by rewrite <- app_assoc. }
    destruct Hq as [q Hq]. destruct neg; [|by exists q]. exists (take 1 p ++ q). by rewrite <- app_assoc, <- Hq, take_drop.
  - destruct (is_ch c "*").
    + destruct (1 <? stars_at p)%nat; [done|]. simplify_eq. exists (take (stars_at p) p). by rewrite take_drop.
    + destruct (is_ch c "?"); [simplify_eq; by exists []|]. destruct (is_ch c backslash); [|simplify_eq; by exists []].
      destruct p as [|d p]; [done|]. destruct (is_ch d slash); [done|]. simplify_eq. by exists [d].
Qed.

Lemma name_ok n s p i tb g fuel :
  length p < n → scalars p → drop i s = spell p → i ≤ length s → name_inv g tb → length s - i < fuel →
  match read_name n p with
  | None => ∃ e, compile_name fuel s i tb g = Err e
  | Some (ops, r) => ∃ j g', compile_name fuel s i tb g = Ok (j, g') ∧ i ≤ j ≤ length s ∧ drop j s = spell r ∧
      (∃ q, p = q ++ r) ∧ match r with c :: _ => is_ch c slash = true | [] => True end ∧
      name_inv g' tb ∧ grown g g' tb ∧ ops_equiv (name_ops g' tb) (name_ops g tb ++ ops)
  end.
Proof.
  revert p i g fuel. induction n as [|n IH]; intros p i g fuel Hn Hp E Hi Hinv Hf; [lia|]. cbn [read_name].
  destruct p as [|c p].
  { pose proof (drop_spell_nil s i E Hi) as ->. destruct fuel as [|fuel]; [lia|]. exists (length s), g. cbn [compile_name].
    rewrite Nat.eqb_refl. split_and!; try done; [by exists []|apply grown_refl|by rewrite app_nil_r]. }
  destruct (lookup_spell s i c p E (Forall_inv Hp)) as (Hlt & _ & _ & _ & _ & Hch).
  destruct (is_ch c slash) eqn:Es.
  { destruct fuel as [|fuel]; [lia|]. exists i, g. cbn [compile_name]. rewrite Hch, Es, orb_true_r by (vm_compute; reflexivity).
    split_and!; try done; [by exists []|apply grown_refl|by rewrite app_nil_r]. }
  pose proof (item_step s i c p tb g fuel E Hp Es Hinv Hf) as Hstep.
  destruct (read_op c p) as [[o r]|] eqn:Er; cbn [mbind option_bind]; [|done].
  destruct Hstep as (i' & g' & fuel' & E1 & Hf' & Hi' & Ed & Hinv' & Hg & Ho). rewrite E1.
  destruct (read_op_rest c p o r Er) as [q ->]. cbn [length] in Hn. rewrite length_app in Hn.
  assert (Hr : scalars r) by (apply Forall_inv_tail in Hp; by apply Forall_app in Hp as [_ Hp]).
  specialize (IH r i' g' fuel' ltac:(lia) Hr Ed ltac:(lia) Hinv' Hf').
  destruct (read_name n r) as [[ops r']|]; cbn [mbind option_bind]; [|done].
  destruct IH as (j & g'' & E2 & Hj & Ed' & [q' ->] & Hend & Hinv'' & Hg' & Ho'). exists j, g''.
  split; [done|]. split; [lia|]. split; [done|]. split; [exists (c :: q ++ q'); cbn [app]; by rewrite <- app_assoc|].
  split; [done|]. split; [done|]. split; [by apply (grown_trans g g')|]. rewrite Ho'.
  rewrite (app_assoc _ [o] ops : name_ops g tb ++ o :: ops = _). by apply ops_app_proper.
Qed.

(** ** Segments *)

Definition extends_all (g g' : Pools) : Prop := extends g g' ∧ ∃ l, tokens g' = tokens g ++ l.

Lemma extends_all_refl g : extends_all g g.
Proof. split; [apply extends_refl|]. exists []. by rewrite app_nil_r. Qed.

Lemma extends_all_trans a b c : extends_all a b → extends_all b c → extends_all a c.
Proof.
  intros [E1 [l1 T1]] [E2 [l2 T2]]. split; [by apply (extends_trans a b)|]. exists (l1 ++ l2).
  by rewrite T2, T1, app_assoc.
Qed.

Lemma grown_extends_all g g' : grown g g' (length (tokens g)) → extends_all g g'.
Proof.
  intros [He Ht]. split; [done|]. exists (drop (length (tokens g)) (tokens g')).
  rewrite <- (take_drop (length (tokens g)) (tokens g')) at 1. by rewrite Ht, firstn_all.
Qed.

Lemma segment_tokens_extends g g' s :
  extends_all g g' → seg_begin s ≤ seg_end s → seg_end s ≤ length (tokens g) → segment_tokens g' s = segment_tokens g s.
Proof.
  intros [_ [l E]] H1 H2. unfold segment_tokens. rewrite E, drop_app_le, take_app_le by (rewrite ?length_drop; lia). done.
Qed.

Lemma segment_ok_extends g g' s : pools_wf g → extends_all g g' → segment_ok g s → segment_ok g' s.
Proof.
  intros Hwf He (H1 & H2 & H3 & H4). pose proof (segment_tokens_extends g g' s He H1 H2) as Et.
  destruct He as [He [l El]]. split; [done|]. split; [rewrite El, length_app; lia|]. rewrite Et. split; [done|].
  intros Hf. destruct (H4 Hf) as (t & ts & E & Hk & Hl). exists t, ts. split; [done|]. split; [done|].
  rewrite (literal_extends g g'); [done|done|done|]. apply Hwf. apply (segment_token_elem g s). rewrite E. left.
Qed.

Lemma segment_spec_extends g g' s : pools_wf g → extends_all g g' → segment_ok g s → segment_spec g' s = segment_spec g s.
Proof.
  intros Hwf He (H1 & H2 & _). unfold segment_spec. case_decide; [done|]. f_equal. unfold segment_ops.
  pose proof (segment_tokens_extends g g' s He H1 H2) as Et. unfold segment_tokens in Et. rewrite Et.
  apply list_fmap_ext. intros i t Ht. apply token_op_extends; [apply He|]. apply Hwf. apply (segment_token_elem g s).
  by apply list_elem_of_lookup_2 in Ht.
Qed.

(** A segment's kind is how its tokens look. *)
Lemma simple_kinds ops t : simple ops = true → t ∈ ops → token_kind t = TLiteral ∨ token_kind t = TStar.
Proof.
  unfold simple. intros H%negb_true_iff Ht. destruct (token_kind t) eqn:E; [by left|by right|exfalso..];
    (enough (existsb (λ t, bool_decide (token_kind t = TAny) || bool_decide (token_kind t = TClass)) ops = true) by congruence);
    apply existsb_exists; exists t; rewrite E; (split; [by apply list_elem_of_In|done]).
Qed.

Lemma count_stars_cons t ops : count_stars (t :: ops) = (if decide (token_kind t = TStar) then 1 else 0) + count_stars ops.
Proof. unfold count_stars. rewrite filter_cons. by case_decide. Qed.

Lemma no_stars ops :
  tidy ops → (∀ t, t ∈ ops → token_kind t = TLiteral ∨ token_kind t = TStar) → count_stars ops = 0 →
  ops = [] ∨ ∃ t, ops = [t] ∧ token_kind t = TLiteral.
Proof.
  intros Ht Hk Hc. destruct ops as [|t ops]; [by left|right]. rewrite count_stars_cons in Hc.
  destruct (Hk t ltac:(left)) as [Ek|Ek]; [|by rewrite Ek in Hc]. exists t. destruct ops as [|u ops]; [done|].
  exfalso. destruct Ht as (_ & Hadj & _). rewrite count_stars_cons in Hc.
  destruct (Hk u ltac:(right; left)) as [Eu|Eu]; [by apply Hadj|]. rewrite Eu, (decide_True (P := TStar = TStar)) in Hc by done. lia.
Qed.

Lemma one_star ops :
  tidy ops → (∀ t, t ∈ ops → token_kind t = TLiteral ∨ token_kind t = TStar) → count_stars ops = 1 →
  ∃ head tail, ops = affix_tokens head tail ∧
    (∀ x, head = Some x → token_kind x = TLiteral) ∧ (∀ x, tail = Some x → token_kind x = TLiteral).
Proof.
  intros Ht Hk Hc.
  assert (Htail : ∀ t rest, token_kind t = TStar → (t = mkToken TStar 0 0) → tidy rest →
    (∀ u, u ∈ rest → token_kind u = TLiteral ∨ token_kind u = TStar) → count_stars rest = 0 →
    ∃ tail, t :: rest = affix_tokens None tail ∧ ∀ x, tail = Some x → token_kind x = TLiteral).
  { intros t rest _ -> Htr Hkr Hcr. destruct (no_stars rest Htr Hkr Hcr) as [->|(u & -> & Hu)].
    - by exists None. - exists (Some u). split; [done|]. by intros x [= <-]. }
  destruct ops as [|t ops]; [done|]. rewrite count_stars_cons in Hc. destruct Ht as (Hs & Hadj & Ht).
  destruct (Hk t ltac:(left)) as [Ek|Ek]; rewrite Ek in Hc.
  - rewrite decide_False in Hc by done. destruct ops as [|u ops]; [done|]. rewrite count_stars_cons in Hc.
    destruct (Hk u ltac:(right; left)) as [Eu|Eu]; [by destruct Hadj|]. rewrite Eu, decide_True in Hc by done.
    destruct Ht as (Hus & _ & Ht).
    destruct (Htail u ops Eu (Hus Eu) Ht ltac:(intros v Hv; apply Hk; right; by right) ltac:(lia)) as (tail & E & Hl).
    exists (Some t), tail. rewrite E. split; [done|]. split; [by intros x [= <-]|done].
  - rewrite decide_True in Hc by done.
    destruct (Htail t ops Ek (Hs Ek) Ht ltac:(intros v Hv; apply Hk; by right) ltac:(lia)) as (tail & E & Hl).
    by exists None, tail.
Qed.

Lemma close_segment_ok g tb :
  name_inv g tb →
  let '(g', s) := close_segment false tb g in
  g' = g ∧ segment_ok g s ∧ segment_tokens g s = drop tb (tokens g) ∧ recursive s = false ∧ seg_end s = length (tokens g).
Proof.
  intros [Hwf Hb Ht Hl]. set (ops := drop tb (tokens g)) in *.
  assert (Hgen : ∀ hf fb, (hf = true → ∃ t ts, ops = t :: ts ∧ token_kind t = TLiteral ∧ literal g t !! 0 = Some fb) →
    let s := mkSegment (segment_kind_of ops) false false hf fb tb (length (tokens g)) in
    segment_ok g s ∧ segment_tokens g s = ops ∧ recursive s = false ∧ seg_end s = length (tokens g)).
  { intros hf fb Hf s. assert (Es : segment_tokens g s = ops).
    { unfold segment_tokens, s. cbn. fold ops. apply take_ge. unfold ops. rewrite length_drop. lia. }
    split; [|split; [done|split; [|done]]].
    - split; [done|]. split; [done|]. rewrite Es. split; [|done]. unfold s. cbn [seg_kind]. unfold segment_kind_of.
      destruct (simple ops) eqn:Esim; cbn [negb orb]; [|by intros E; rewrite E in Esim].
      destruct (Nat.ltb_spec 1 (count_stars ops)) as [Hgt|]; [intros E; rewrite E in Hgt; cbn in Hgt; lia|].
      destruct (Nat.eqb_spec (count_stars ops) 1).
      + apply one_star; [done|by intros t; apply simple_kinds|done].
      + apply no_stars; [done|by intros t; apply simple_kinds|lia].
    - unfold recursive, s. cbn [seg_kind]. apply bool_decide_eq_false. unfold segment_kind_of. by repeat case_if. }
  unfold close_segment. fold ops. destruct ops as [|t ts] eqn:Eops.
  { split; [done|]. by apply Hgen. }
  destruct (bool_decide (token_kind t = TLiteral)) eqn:Ek; (split; [done|]); [|by apply Hgen].
  apply Hgen. intros _. apply bool_decide_eq_true in Ek. exists t, ts. split; [done|]. split; [done|].
  destruct (Hwf t) as (Hin & Hok & _).
  { rewrite <- (take_drop tb (tokens g)), elem_of_app. right. fold ops. rewrite Eops. left. }
  destruct (Hok Ek) as (cps & Hn & Hc & E). destruct (spell_head cps Hn Hc) as (b & r & Eb & _).
  unfold token_in in Hin. rewrite Ek in Hin. assert (Hsz : literal g t !! 0 = Some b) by (by rewrite E, Eb).
  rewrite Hsz. unfold literal, substr in Hsz. apply lookup_take_Some in Hsz as [Hsz _]. rewrite lookup_drop, Nat.add_0_r in Hsz.
  by rewrite list_lookup_total_alt, Hsz.
Qed.

(** ** Globstars *)

Definition star_ch : Z := uval "*"%byte.

Lemma globstar_at_iff p r :
  globstar_at p = Some r ↔ p = star_ch :: star_ch :: r ∧ match r with c :: _ => is_ch c slash = true | [] => True end.
Proof.
  unfold globstar_at. split.
  - destruct p as [|a [|b q]]; try done. destruct (is_ch a "*") eqn:Ea; [|done]. destruct (is_ch b "*") eqn:Eb; [|done].
    apply Z.eqb_eq in Ea as ->. apply Z.eqb_eq in Eb as ->. cbn [andb]. destruct q as [|c q]; [by intros [= <-]|].
    destruct (is_ch c slash) eqn:Ec; [|done]. by intros [= <-].
  - intros [-> H]. unfold is_ch at 1 2, star_ch. rewrite !Z.eqb_refl. cbn [andb]. destruct r as [|c r]; [done|]. by rewrite H.
Qed.

(** The text of a segment is two stars when the reader finds a globstar. *)
Lemma globstar_text s i j p q r :
  drop i s = spell p → drop j s = spell r → i ≤ j ≤ length s → p = q ++ r → scalars p →
  match r with c :: _ => is_ch c slash = true | [] => True end →
  bool_decide (substr s i (j - i) = lit "**") = bool_decide (globstar_at p = Some r).
Proof.
  intros E Er Hij -> Hp Hr. apply Forall_app in Hp as [Hq _].
  assert (Et : substr s i (j - i) = spell q).
  { pose proof (drop_spell_bound s i _ ltac:(lia) E) as H1. pose proof (drop_spell_bound s j _ ltac:(lia) Er) as H2.
    rewrite spelled_app, length_app in H1. unfold substr. rewrite E, spelled_app. apply take_app_length'. lia. }
  rewrite Et. apply bool_decide_ext. rewrite globstar_at_iff. split.
  - intros E2. split; [|done]. enough (q = [star_ch; star_ch]) as -> by done. apply spell_inj; [done| |by rewrite E2].
    assert (scalar false star_ch) by (apply scalar_ascii; vm_compute; reflexivity). by rewrite !Forall_cons, Forall_nil.
  - intros [E2 _]. change (star_ch :: star_ch :: r) with ([star_ch; star_ch] ++ r) in E2. by apply app_inv_tail in E2 as ->.
Qed.

(** A globstar's text compiles to one star, which is taken back. *)
Lemma compile_globstar s i p r g fuel :
  drop i s = spell p → i ≤ length s → scalars p → globstar_at p = Some r → length s - i < fuel →
  compile_name fuel s i (length (tokens g)) g = Ok (i + 2, push_token g (mkToken TStar 0 0)).
Proof.
  intros E Hi Hp H Hf. apply globstar_at_iff in H as [-> Hr].
  assert (Hst : scalar false star_ch) by (apply scalar_ascii; vm_compute; reflexivity).
  destruct (lookup_spell s i _ _ E Hst) as (Hlt & _ & _ & _ & _ & Hch).
  pose proof (drop_spell_bound s i _ Hi E) as Hb. rewrite !spell_cons, !length_app in Hb.
  change (length (put_code_point star_ch)) with 1 in Hb.
  destruct fuel as [|[|fuel]]; [lia|lia|]. cbn [compile_name]. rewrite !Hch by (vm_compute; reflexivity).
  rewrite (proj2 (Nat.eqb_neq i (length s))) by lia. cbn [orb]. change (is_ch star_ch slash) with false. cbv iota.
  unfold compile_item. rewrite !Hch by (vm_compute; reflexivity). change (is_ch star_ch "[") with false.
  change (is_ch star_ch "*") with true. cbv iota. unfold compile_star. rewrite E, star_run_spell by done.
  cbn [stars_at]. change (is_ch star_ch "*") with true. cbv iota.
  assert (Hr0 : stars_at r = 0).
  { destruct r as [|c r]; [done|]. cbn. apply Z.eqb_eq in Hr as ->. done. }
  rewrite Hr0. cbn [Nat.ltb Nat.leb ebind fst snd]. unfold needs_new. rewrite Nat.eqb_refl. cbn [orb].
  assert (Er : drop (i + 2) s = spell r).
  { rewrite (drop_spell_app s i [star_ch; star_ch] r E : drop (i + 2) s = _). done. }
  enough ((i + 2 =? length s) || (s !!! (i + 2) =?b slash) = true) as -> by done. destruct r as [|c r].
  - rewrite (drop_spell_nil s (i + 2) Er) by lia. by rewrite Nat.eqb_refl.
  - assert (Hc : scalar false c) by (apply Z.eqb_eq in Hr as ->; apply scalar_ascii; vm_compute; reflexivity).
    destruct (lookup_spell s (i + 2) c r Er Hc) as (_ & _ & _ & _ & _ & Hch').
    rewrite Hch' by (vm_compute; reflexivity). rewrite Hr. apply orb_true_r.
Qed.

Lemma name_inv_start g : pools_wf g → name_inv g (length (tokens g)).
Proof. intros H. split; [done|done|by rewrite drop_all|by rewrite drop_all]. Qed.

(** One segment, and the separator's place. *)
Lemma segment_step s i (at_start : bool) p g :
  drop i s = spell p → i ≤ length s → scalars p → pools_wf g →
  match read_segment at_start p with
  | None => ∃ e, compile_name (S (length s)) s i (length (tokens g)) g = Err e
  | Some (sg, r) => ∃ j g1 q, compile_name (S (length s)) s i (length (tokens g)) g = Ok (j, g1) ∧
      i ≤ j ≤ length s ∧ drop j s = spell r ∧ p = q ++ r ∧ match r with c :: _ => is_ch c slash = true | [] => True end ∧
      let '(g', seg) := close_segment (at_start && bool_decide (substr s i (j - i) = lit "**")) (length (tokens g)) g1 in
      extends_all g g' ∧ pools_wf g' ∧ segment_ok g' seg ∧ seg_end seg = length (tokens g') ∧ seg_equiv (segment_spec g' seg) sg
  end.
Proof.
  intros E Hi Hp Hwf. unfold read_segment. destruct (if at_start then globstar_at p else None) as [r|] eqn:Eg.
  - destruct at_start; [|done]. pose proof Eg as Hg. apply globstar_at_iff in Hg as [-> Hr].
    assert (Er : drop (i + 2) s = spell r).
    { rewrite (drop_spell_app s i [star_ch; star_ch] r E : drop (i + 2) s = _). done. }
    assert (Hj : i ≤ i + 2 ≤ length s).
    { pose proof (drop_spell_bound s i _ Hi E) as Hb. rewrite !spell_cons, !length_app in Hb.
      change (length (put_code_point star_ch)) with 1 in Hb. lia. }
    exists (i + 2), (push_token g (mkToken TStar 0 0)), [star_ch; star_ch].
    rewrite (compile_globstar s i _ r) by (done || lia). split; [done|]. split; [done|]. split; [done|]. split; [done|]. split; [done|].
    rewrite (globstar_text s i (i + 2) (star_ch :: star_ch :: r) [star_ch; star_ch] r) by done.
    rewrite bool_decide_true by done. cbn [andb close_segment]. unfold push_token. cbn [literals tokens classes].
    rewrite length_app, Nat.add_sub, take_app_length. destruct g as [ls ts cs]. cbn [literals tokens classes] in *.
    split; [apply extends_all_refl|]. split; [done|]. split; [split_and!; done|]. split; [done|constructor].
  - pose proof (name_ok (S (length p)) s p i (length (tokens g)) g (S (length s)) ltac:(lia) Hp E Hi (name_inv_start g Hwf) ltac:(lia)) as Hn.
    destruct (read_name (S (length p)) p) as [[ops r]|]; cbn [mbind option_bind]; [|done].
    destruct Hn as (j & g1 & Ec & Hj & Er & [q Eq] & Hr & Hinv & Hgr & Ho). exists j, g1, q. split; [done|].
    split; [done|]. split; [done|]. split; [done|]. split; [done|].
    assert (Hng : at_start && bool_decide (substr s i (j - i) = lit "**") = false).
    { destruct at_start; [|done]. cbn [andb]. rewrite (globstar_text s i j p q r) by done.
      apply bool_decide_eq_false. by rewrite Eg. }
    rewrite Hng. pose proof (close_segment_ok g1 (length (tokens g)) Hinv) as Hc.
    destruct (close_segment false (length (tokens g)) g1) as [g' seg]. destruct Hc as (-> & Hok & Et & Hrec & Hend).
    split; [by apply grown_extends_all|]. split; [apply Hinv|]. split; [done|]. split; [done|].
    rewrite segment_spec_name by done. constructor. rewrite Et.
    unfold name_ops in Ho. rewrite drop_all in Ho. exact Ho.
Qed.

Lemma segments_ok n s (at_segment_start : bool) p i g segs fuel :
  length p < n → scalars p → drop i s = spell p → i ≤ length s → pools_wf g → length s - i < fuel →
  match read_segments n (negb (i =? 0) || at_segment_start) p with
  | None => ∃ e, compile_segments fuel s at_segment_start i g segs = Err e
  | Some l => ∃ g' new, compile_segments fuel s at_segment_start i g segs = Ok (g', segs ++ new) ∧
      extends_all g g' ∧ pools_wf g' ∧ Forall (segment_ok g') new ∧ segs_equiv (segment_spec g' <$> new) l ∧
      ∃ s', last new = Some s' ∧ seg_end s' = length (tokens g')
  end.
Proof.
  revert p i g segs fuel. induction n as [|n IH]; intros p i g segs fuel Hn Hp E Hi Hwf Hf; [lia|].
  destruct fuel as [|fuel]; [lia|]. cbn [read_segments compile_segments].
  set (at_ := negb (i =? 0) || at_segment_start). pose proof (segment_step s i at_ p g E Hi Hp Hwf) as Hstep.
  destruct (read_segment at_ p) as [[sg r]|]; cbn [mbind option_bind]; [|destruct Hstep as [e ->]; by exists e].
  destruct Hstep as (j & g1 & q & -> & Hj & Er & -> & Hr & Hclose). cbn [ebind fst snd].
  destruct (close_segment (at_ && bool_decide (substr s i (j - i) = lit "**")) (length (tokens g)) g1) as [g' seg].
  destruct Hclose as (He & Hwf' & Hok & Hend & Heq). destruct r as [|c r].
  { pose proof (drop_spell_nil s j Er ltac:(lia)) as ->. rewrite Nat.eqb_refl. exists g', [seg]. split; [done|].
    split; [done|]. split; [done|]. split; [by constructor|]. split; [cbn; by repeat constructor|]. by exists seg. }
  apply Forall_app in Hp as [_ Hp]. pose proof (Forall_inv_tail Hp) as Hp'. simpl in Hp'.
  destruct (lookup_spell s j c r Er (Forall_inv Hp)) as (Hlt & _). rewrite (proj2 (Nat.eqb_neq j (length s))) by lia.
  pose proof (drop_spell_ascii s j c r slash Er Hr ltac:(vm_compute; reflexivity)) as Er'.
  assert (Hdouble : negb (j + 1 =? length s) && (s !!! (j + 1) =?b slash) = match r with d :: _ => is_ch d slash | [] => false end).
  { destruct r as [|d r].
    - rewrite (drop_spell_nil s (j + 1) Er') by lia. by rewrite Nat.eqb_refl.
    - destruct (lookup_spell s (j + 1) d r Er' (Forall_inv Hp')) as (Hlt' & _ & _ & _ & _ & Hch).
      rewrite (proj2 (Nat.eqb_neq (j + 1) (length s))) by lia. by rewrite Hch by (vm_compute; reflexivity). }
  rewrite Hdouble. destruct (match r with d :: _ => is_ch d slash | [] => false end); [by eexists|].
  rewrite length_app in Hn. cbn [length] in Hn.
  specialize (IH r (j + 1) g' (segs ++ [seg]) fuel ltac:(lia) Hp' Er' ltac:(lia) Hwf' ltac:(lia)).
  rewrite (proj2 (Nat.eqb_neq (j + 1) 0)) in IH by lia. cbn [negb orb] in IH.
  destruct (read_segments n true r) as [l|]; cbn [mbind option_bind]; [|done].
  destruct IH as (g'' & new & -> & He' & Hwf'' & Hall & Heqs & s' & Hl' & Hend'). exists g'', (seg :: new). rewrite <- app_assoc.
  split; [done|]. split; [by apply (extends_all_trans g g')|]. split; [done|].
  split; [constructor; [by apply (segment_ok_extends g')|done]|]. split.
  - cbn [fmap list_fmap]. constructor; [|done]. by rewrite (segment_spec_extends g' g'').
  - exists s'. by rewrite last_cons, Hl'.
Qed.

(** ** Empty names *)

(** An operation a reader gives, or a token stands for, never has an empty
    literal. *)
Definition op_proper (o : op) : Prop := match o with OLit cps => cps ≠ [] | _ => True end.

Lemma no_ops a : Forall op_proper a → ops_equiv [] a → a = [].
Proof.
  intros Hp He. destruct a as [|o a]; [done|]. exfalso. pose proof (proj1 (He []) m_nil) as H0.
  assert (Hall : ∀ l, Forall op_proper l → matches l [] → Forall (λ o, o = OStar) l).
  { clear. induction l as [|o l IH]; [by constructor|]. intros [Ho Hl]%Forall_cons H. destruct o as [cps| |f].
    - apply matches_lit_iff in H as [H _]. rewrite take_nil in H. by destruct Ho.
    - constructor; [done|]. apply IH; [done|]. apply matches_star_iff in H as (k & _ & H). by rewrite drop_nil in H.
    - apply matches_one_iff in H as (? & ? & ? & _). done. }
  specialize (Hall (o :: a) Hp H0). apply Forall_cons in Hall as [-> Hall].
  assert (H1 : matches (OStar :: a) [0%Z]).
  { apply matches_star_iff. exists 1. split; [done|]. cbn. clear -Hall. induction Hall as [|o a -> _ IH]; [constructor|].
    apply matches_star_iff. exists 0. by split; [cbn; lia|]. }
  apply He, matches_nil_iff in H1. done.
Qed.

Lemma token_op_proper g t : token_wf g t → op_proper (token_op g t).
Proof.
  intros (_ & Hok & _). unfold token_op. destruct (token_kind t) eqn:E; [|done..]. cbn. rewrite atoms_nil.
  destruct (Hok E) as (cps & Hn & Hc & ->). destruct (spell_head cps Hn Hc) as (b & r & -> & _). done.
Qed.

Lemma read_op_proper c p o r : read_op c p = Some (o, r) → op_proper o.
Proof.
  unfold read_op, read_class. intros H. destruct (is_ch c "[").
  - destruct (bracket_body _) as [[body rest]|]; [|done]. cbn [mbind option_bind] in H.
    destruct (read_members _ _ _); [|done]. cbn in H. by simplify_eq.
  - destruct (is_ch c "*"); [destruct (1 <? stars_at p)%nat; by simplify_eq|].
    destruct (is_ch c "?"); [by simplify_eq|]. destruct (is_ch c backslash); [|by simplify_eq].
    destruct p as [|d p]; [done|]. destruct (is_ch d slash); by simplify_eq.
Qed.

Lemma read_name_proper n p ops r : read_name n p = Some (ops, r) → Forall op_proper ops.
Proof.
  revert p ops. induction n as [|n IH]; intros p ops H; [done|]. cbn [read_name] in H. destruct p as [|c p]; [by simplify_eq; constructor|].
  destruct (is_ch c slash); [simplify_eq; constructor|]. destruct (read_op c p) as [[o q]|] eqn:E; [|done]. cbn [mbind option_bind] in H.
  destruct (read_name n q) as [[ops' r']|] eqn:E2; [|done]. cbn in H. simplify_eq. constructor; [by eapply read_op_proper|].
  by eapply IH.
Qed.

Definition seg_proper (s : seg) : Prop := match s with Name ops => Forall op_proper ops | Globstar => True end.

Lemma segment_empty g s t :
  pools_wf g → seg_equiv (segment_spec g s) t → seg_proper t → recursive s = false →
  t = Name [] ↔ segment_tokens g s = [].
Proof.
  intros Hwf He Hp Hr. rewrite segment_spec_name in He by done. inversion He as [|? ops Ho]; subst. cbn in Hp. split.
  - intros [= ->]. apply fmap_nil_inv with (f := token_op g). apply no_ops; [|by symmetry].
    apply Forall_fmap, Forall_forall. intros u Hu. apply token_op_proper, Hwf. by apply (segment_token_elem g s).
  - intros E. rewrite E in Ho. f_equal. by apply no_ops.
Qed.

Lemma read_segments_proper n at_ p l : read_segments n at_ p = Some l → Forall seg_proper l ∧ l ≠ [].
Proof.
  revert at_ p l. induction n as [|n IH]; intros at_ p l H; [done|]. cbn [read_segments] in H.
  destruct (read_segment at_ p) as [[s r]|] eqn:E; [|done]. cbn [mbind option_bind] in H.
  assert (Hs : seg_proper s).
  { unfold read_segment in E. destruct (if at_ then globstar_at p else None); [by simplify_eq|].
    destruct (read_name _ _) as [[ops r']|] eqn:E2; [|done]. cbn in E. simplify_eq. by eapply read_name_proper. }
  destruct r as [|c r]; [simplify_eq; split; [by constructor|done]|].
  destruct (match r with d :: _ => is_ch d slash | [] => false end); [done|].
  destruct (read_segments n true r) as [l'|] eqn:E2; [|done]. cbn in H. simplify_eq. split; [|done].
  constructor; [done|]. by apply (IH true r).
Qed.

(** A name that starts a text is empty when the text is, or starts with a
    separator. *)
Lemma read_empty_name n at_ p l :
  read_segments n at_ p = Some (Name [] :: l) → (p = [] ∧ l = []) ∨ ∃ c p', p = c :: p' ∧ is_ch c slash = true.
Proof.
  destruct n as [|n]; [done|]. cbn [read_segments]. destruct (read_segment at_ p) as [[s r]|] eqn:E; [|done]. cbn [mbind option_bind].
  unfold read_segment in E. destruct p as [|c p].
  { intros H. left. split; [done|]. assert (s = Name [] ∧ r = []) as [-> ->] by (destruct at_; cbn in E; by simplify_eq). by simplify_eq. }
  destruct (is_ch c slash) eqn:Ec; [intros _; right; by exists c, p|]. intros H. exfalso.
  assert (Es : s = Name []).
  { destruct r as [|d r]; [by simplify_eq|]. destruct (match r with x :: _ => is_ch x slash | [] => false end); [done|].
    destruct (read_segments n true r); [|done]. cbn in H. by simplify_eq. }
  subst s. destruct (if at_ then globstar_at (c :: p) else None); [done|]. cbn [length] in E.
  generalize dependent (S (length p)). intros m E. cbn [read_name] in E. rewrite Ec in E.
  destruct (read_op c p) as [[o q]|]; [|done]. cbn [mbind option_bind] in E.
  destruct (read_name m q) as [[ops r']|]; by simplify_eq.
Qed.

Lemma read_segments_placed n at_ p l k :
  read_segments n at_ p = Some l → l !! S k = Some (Name []) → S (S k) = length l.
Proof.
  revert at_ p l k. induction n as [|n IH]; intros at_ p l k H Hk; [done|]. cbn [read_segments] in H.
  destruct (read_segment at_ p) as [[s r]|] eqn:E; [|done]. cbn [mbind option_bind] in H.
  destruct r as [|c r]; [by simplify_eq|].
  destruct (match r with d :: _ => is_ch d slash | [] => false end) eqn:Ed; [done|].
  destruct (read_segments n true r) as [l'|] eqn:E2; [|done]. cbn in H. simplify_eq. cbn [length] in *. cbn in Hk.
  destruct k as [|k]; [|f_equal; by apply (IH true r)]. destruct l' as [|x l']; [done|]. cbn in Hk. simplify_eq.
  apply read_empty_name in E2 as [[_ ->]|(d & r' & -> & Hd)]; [done|]. congruence.
Qed.

Lemma close_globstar_spec l :
  (∃ l0, l = l0 ++ [Globstar; Name []] ∧ close_globstar l = l0 ++ [Globstar; Name [OStar]]) ∨
  ((∀ l0, l ≠ l0 ++ [Globstar; Name []]) ∧ close_globstar l = l).
Proof.
  induction l as [|s l IH]; [right; split; [by intros [|??]|done]|].
  assert (Hc : (s = Globstar ∧ l = [Name []]) ∨ (¬ (s = Globstar ∧ l = [Name []]) ∧ close_globstar (s :: l) = s :: close_globstar l)).
  { destruct s as [|ops]; [|right; split; [by intros [??]|done]]. destruct l as [|t l]; [right; split; [by intros [??]|done]|].
    destruct t as [|[|o ops]]; try (right; split; [by intros [??]|done]). destruct l as [|u l]; [by left|]. right. split; [by intros [??]|done]. }
  destruct Hc as [[-> ->]|[Hn ->]]; [left; by exists []|].
  destruct IH as [(l0 & -> & ->)|[Hl ->]]; [left; by exists (s :: l0)|right]. split; [|done].
  intros [|x l0] E; cbn [app] in E; simplify_eq; [by apply Hn|by apply (Hl l0)].
Qed.

(** A globstar is not followed by an empty name. *)
Lemma closed_placed n at_ p l k :
  read_segments n at_ p = Some l → close_globstar l !! k = Some Globstar → close_globstar l !! S k ≠ Some (Name []).
Proof.
  intros H Hk Hsk. destruct (close_globstar_spec l) as [(l0 & -> & E)|[Hl E]]; rewrite E in Hk, Hsk.
  - destruct (decide (S k < length l0 + 1)) as [Hlt|Hge].
    + assert (Hl : (l0 ++ [Globstar; Name []]) !! S k = Some (Name [])).
      { destruct (decide (S k < length l0)); [by rewrite lookup_app_l in Hsk |- * by lia|].
        rewrite lookup_app_r in Hsk |- * by lia. by replace (S k - length l0) with 0 in Hsk |- * by lia. }
      apply (read_segments_placed _ _ _ _ _ H) in Hl. rewrite length_app in Hl. cbn in Hl. lia.
    + rewrite lookup_app_r in Hsk by lia. destruct (S k - length l0) as [|[|m]] eqn:Em; [lia|done|done].
  - pose proof (read_segments_placed _ _ _ _ _ H Hsk) as Hlen. apply (Hl (take k l)).
    rewrite <- (take_drop k l) at 1. f_equal. rewrite (drop_S _ _ _ Hk), (drop_S _ _ _ Hsk). do 2 f_equal. apply drop_ge. lia.
Qed.

(** ** The end of an arm *)

Definition same_segment (s s' : Segment) : Prop :=
  seg_kind s' = seg_kind s ∧ has_first s' = has_first s ∧ first s' = first s ∧
  seg_begin s' = seg_begin s ∧ seg_end s' = seg_end s.

Lemma same_segment_tokens g s s' : same_segment s s' → segment_tokens g s' = segment_tokens g s.
Proof. intros (_ & _ & _ & Eb & Ee). unfold segment_tokens. by rewrite Eb, Ee. Qed.

Lemma same_segment_recursive s s' : same_segment s s' → recursive s' = recursive s.
Proof. intros (Ek & _). unfold recursive. by rewrite Ek. Qed.

Lemma same_segment_ok g s s' : same_segment s s' → segment_ok g s → segment_ok g s'.
Proof.
  intros Hs (H1 & H2 & H3 & H4). pose proof (same_segment_tokens g s s' Hs) as Et. destruct Hs as (Ek & Eh & Ef & Eb & Ee).
  split; [lia|]. split; [lia|]. rewrite Ek, Eh, Et, Ef. done.
Qed.

Lemma same_segment_spec g s s' : same_segment s s' → segment_spec g s' = segment_spec g s.
Proof. intros (Ek & _ & _ & Eb & Ee). unfold segment_spec. by rewrite Ek, Eb, Ee. Qed.

Lemma set_flags_ok g segs :
  let '(segs', (n, a)) := set_flags g segs in
  flags_ok g segs' ∧ Forall2 same_segment segs segs' ∧
  a = negb (bool_decide (segs = [])) && forallb recursive segs ∧
  n = match segs' with s :: _ => nullable s | [] => true end.
Proof.
  induction segs as [|s segs IH]; [done|]. cbn [set_flags].
  destruct (set_flags g segs) as [segs' [n a]]. destruct IH as (Hf & Hs & -> & ->).
  set (s' := mkSegment _ _ _ _ _ _ _).
  assert (Hss : same_segment s s') by (by split_and!).
  assert (Hopt : bool_decide (segs = []) || negb (bool_decide (segs = [])) && forallb recursive segs = forallb recursive segs).
  { destruct (decide (segs = [])) as [->|Hn]; [done|]. by rewrite bool_decide_false. }
  assert (Hfr : forallb recursive segs' = forallb recursive segs).
  { clear -Hs. induction Hs as [|x y l k Hxy _ IH]; [done|]. cbn. by rewrite IH, (same_segment_recursive x y). }
  assert (Hnil : bool_decide (segs = []) = bool_decide (segs' = [])) by (apply bool_decide_ext; destruct Hs; done).
  split; [|split; [by constructor|]].
  - cbn [flags_ok]. split; [done|]. rewrite (same_segment_recursive s s' Hss), (same_segment_tokens g s s' Hss), Hfr.
    unfold s'. cbn [optional_rest nullable]. rewrite Hopt. split; [done|]. destruct (recursive s); [|done].
    rewrite Hnil. destruct segs'; [done|]. by rewrite bool_decide_false.
  - split; [|done]. rewrite Hopt. rewrite bool_decide_false by done. cbn [negb forallb andb]. done.
Qed.

Lemma spec_globstar g s t : seg_equiv (segment_spec g s) t → recursive s = true ↔ t = Globstar.
Proof.
  intros H. destruct (recursive s) eqn:E.
  - rewrite segment_spec_star in H by done. by inversion H.
  - rewrite segment_spec_name in H by done. inversion H. by subst.
Qed.

Lemma empty_literal g s :
  segment_ok g s → recursive s = false → segment_tokens g s = [] ↔ seg_kind s = LiteralSegment ∧ seg_begin s = seg_end s.
Proof.
  intros (H1 & H2 & H3 & _) Hr. split.
  - intros E. split; [|apply (f_equal length) in E; unfold segment_tokens in E; rewrite length_take, length_drop in E; cbn in E; lia].
    unfold recursive in Hr. apply bool_decide_eq_false in Hr. destruct (seg_kind s); [done|done| |done].
    destruct H3 as (head & tail & E2 & _). rewrite E in E2. by destruct head.
  - intros [_ E]. unfold segment_tokens. by rewrite E, Nat.sub_diag.
Qed.

Lemma two_last {A} (l : list A) : 2 ≤ length l → ∃ l0 a b, l = l0 ++ [a; b].
Proof.
  intros H. exists (take (length l - 2) l). destruct (drop (length l - 2) l) as [|a [|b [|c r]]] eqn:E;
    pose proof (f_equal length E) as Hl; rewrite length_drop in Hl; cbn in Hl; try lia.
  exists a, b. by rewrite <- E, take_drop.
Qed.

(** The test for a globstar before the separator that ends the arm. *)
Lemma trailing_test g segs0 a b t u :
  pools_wf g → segment_ok g b → seg_equiv (segment_spec g a) t → seg_equiv (segment_spec g b) u → seg_proper u →
  let segs := segs0 ++ [a; b] in
  (2 <=? length segs) && recursive (segs !!! (length segs - 2)) && bool_decide (seg_kind (segs !!! (length segs - 1)) = LiteralSegment)
    && (seg_begin (segs !!! (length segs - 1)) =? seg_end (segs !!! (length segs - 1))) = true ↔
  t = Globstar ∧ u = Name [].
Proof.
  intros Hwf Hb Ha Hu Hp segs. assert (Hlen : length segs = length segs0 + 2) by (unfold segs; rewrite length_app; done).
  rewrite Hlen. replace (length segs0 + 2 - 2) with (length segs0 + 0) by lia. replace (length segs0 + 2 - 1) with (length segs0 + 1) by lia.
  unfold segs. rewrite !list_lookup_total_alt, !lookup_app_r by lia. rewrite !Nat.add_comm with (n := length segs0), !Nat.add_sub.
  cbn [lookup list_lookup default from_option id]. rewrite (proj2 (Nat.leb_le 2 (2 + length segs0))) by lia. cbn [andb].
  rewrite !andb_true_iff, bool_decide_eq_true, Nat.eqb_eq, (spec_globstar g a t Ha).
  enough (seg_kind b = LiteralSegment ∧ seg_begin b = seg_end b ↔ u = Name []) by tauto. destruct (recursive b) eqn:Er.
  - apply (spec_globstar g b u Hu) in Er as ->. split; [|done]. intros [Hk _]. exfalso.
    assert (recursive b = true) as E by (by apply (spec_globstar g b Globstar)). unfold recursive in E.
    apply bool_decide_eq_true in E. congruence.
  - rewrite <- (empty_literal g b Hb Er). symmetry. by apply segment_empty.
Qed.

Lemma trailing_ok g segs l :
  pools_wf g → Forall (segment_ok g) segs → segs_equiv (segment_spec g <$> segs) l → Forall seg_proper l → segs ≠ [] →
  (∃ s, last segs = Some s ∧ seg_end s = length (tokens g)) →
  let '(g', segs') := trailing_globstar g segs in
  extends_all g g' ∧ pools_wf g' ∧ Forall (segment_ok g') segs' ∧ segs_equiv (segment_spec g' <$> segs') (close_globstar l) ∧ segs' ≠ [].
Proof.
  intros Hwf Hok He Hp Hn (sl & Hsl & Hend). unfold trailing_globstar.
  destruct (decide (2 ≤ length segs)) as [H2|H2].
  2:{ rewrite (proj2 (Nat.leb_gt 2 (length segs))) by lia. cbn [andb]. split; [apply extends_all_refl|]. do 2 (split; [done|]).
      split; [|done]. destruct (close_globstar_spec l) as [(l0 & -> & _)|[_ ->]]; [|done].
      apply Forall2_length in He. rewrite length_fmap, length_app in He. cbn in He. lia. }
  destruct (two_last segs H2) as (segs0 & a & b & ->). rewrite fmap_app in He.
  apply Forall2_app_inv_l in He as (l0 & l1 & He0 & He1 & ->). cbn [fmap list_fmap] in He1.
  apply Forall2_cons_inv_l in He1 as (t & l2 & Ha & He1 & ->). apply Forall2_cons_inv_l in He1 as (u & l3 & Hb & He1 & ->).
  apply Forall2_nil_inv_l in He1 as ->. apply Forall_app in Hok as [Hok0 Hok1]. rewrite !Forall_cons in Hok1. destruct Hok1 as (Hoka & Hokb & _).
  apply Forall_app in Hp as [_ Hp]. rewrite !Forall_cons in Hp. destruct Hp as (_ & Hpu & _).
  pose proof (trailing_test g segs0 a b t u Hwf Hokb Ha Hb Hpu) as Htest. cbv zeta in Htest.
  destruct ((2 <=? length (segs0 ++ [a; b])) && recursive _ && _ && _).
  2:{ split; [apply extends_all_refl|]. split; [done|]. split; [rewrite Forall_app, !Forall_cons; done|]. split; [|by destruct segs0].
      destruct (close_globstar_spec (l0 ++ [t; u])) as [(l' & E & _)|[_ ->]].
      - apply app_inj_2 in E as [_ E]; [|done]. simplify_eq. exfalso. apply diff_false_true. by apply Htest.
      - rewrite fmap_app. apply Forall2_app; [done|]. cbn. by repeat constructor. }
  destruct (proj1 Htest eq_refl) as [-> ->]. clear Htest.
  assert (Erb : recursive b = false) by (destruct (recursive b) eqn:E; [by apply (spec_globstar g b _ Hb) in E|done]).
  assert (Etb : segment_tokens g b = []) by (by apply (segment_empty g b (Name []))).
  destruct (proj1 (empty_literal g b Hokb Erb) Etb) as [Hkb Hbe].
  assert (Hseg : seg_begin b = length (tokens g)).
  { change [a; b] with ([a] ++ [b]) in Hsl. rewrite app_assoc, last_snoc in Hsl. injection Hsl as <-. lia. }
  set (g' := push_token g (mkToken TStar 0 0)). set (n := length (segs0 ++ [a; b])).
  assert (Eb : (segs0 ++ [a; b]) !!! (n - 1) = b).
  { unfold n. rewrite length_app. cbn [length]. rewrite list_lookup_total_alt, lookup_app_r by lia.
    by replace (length segs0 + 2 - 1 - length segs0) with 1 by lia. }
  rewrite Eb. set (b' := mkSegment _ _ _ _ _ _ _).
  assert (Etake : take (n - 1) (segs0 ++ [a; b]) = segs0 ++ [a]).
  { unfold n. rewrite length_app. cbn [length]. change [a; b] with ([a] ++ [b]). rewrite app_assoc.
    apply take_app_length'. rewrite length_app. cbn. lia. }
  rewrite Etake. assert (He : extends_all g g').
  { split; [split; exists []; cbn; by rewrite app_nil_r|]. by eexists. }
  assert (Hwf' : pools_wf g').
  { intros x Hx. unfold g' in Hx. cbn in Hx. apply elem_of_app in Hx as [Hx|Hx].
    - apply (token_wf_extends g); [apply He|]. by apply Hwf.
    - apply list_elem_of_singleton in Hx as ->. done. }
  assert (Hlb' : segment_tokens g' b' = [mkToken TStar 0 0]).
  { unfold segment_tokens, b', g'. cbn. rewrite length_app, Hseg, drop_app_length. cbn. by rewrite Nat.add_comm, Nat.add_sub. }
  split; [done|]. split; [done|]. split; [|split; [|by destruct segs0]].
  - rewrite !Forall_app, !Forall_cons. split; [split; [|split; [by apply (segment_ok_extends g)|done]]|split; [|done]].
    + eapply Forall_impl; [exact Hok0|]. intros x Hx. by apply (segment_ok_extends g).
    + split; [unfold b', g'; cbn; rewrite length_app; lia|]. split; [unfold b'; cbn; lia|]. rewrite Hlb'. split.
      * exists None, None. done.
      * unfold b'. cbn [has_first]. intros Hf. destruct Hokb as (_ & _ & _ & Hfb). destruct (Hfb Hf) as (x & xs & E & _). by rewrite Etb in E.
  - destruct (close_globstar_spec (l0 ++ [Globstar; Name []])) as [(l' & E & ->)|[E _]]; [|by destruct (E l0)].
    apply app_inj_2 in E as [<- _]; [|done]. rewrite !fmap_app, <- app_assoc. apply Forall2_app.
    + rewrite (list_fmap_ext (segment_spec g') (segment_spec g)); [done|]. intros i x Hx.
      apply segment_spec_extends; [done|done|]. rewrite Forall_forall in Hok0. apply Hok0. by apply list_elem_of_lookup_2 in Hx.
    + cbn [fmap list_fmap app]. constructor; [by rewrite (segment_spec_extends g g')|]. constructor; [|constructor].
      rewrite segment_spec_name by done. rewrite Hlb'. done.
Qed.

(** The segments of an arm as compiled. *)
Record segs_ok (g : Pools) (segs : list Segment) : Prop := {
  segs_nonempty : segs ≠ [];
  segs_segment_ok : Forall (segment_ok g) segs;
  segs_flags : flags_ok g segs;
  segs_resumable i s s' : segs !! i = Some s → segs !! S i = Some s' → recursive s = true → resumable g s';
}.

Lemma closed_resumable g segs n at_ p l i s s' :
  pools_wf g → read_segments n at_ p = Some l → segs_equiv (segment_spec g <$> segs) (close_globstar l) →
  segs !! i = Some s → segs !! S i = Some s' → recursive s = true → resumable g s'.
Proof.
  intros Hwf Hread He Hs Hs' Hr. destruct (recursive s') eqn:Er; [by left|right]. intros Et.
  assert (Hp : Forall seg_proper (close_globstar l)).
  { apply read_segments_proper in Hread as [Hp _]. destruct (close_globstar_spec l) as [(l0 & -> & ->)|[_ ->]]; [|done].
    apply Forall_app in Hp as [Hp _]. apply Forall_app. split; [done|]. repeat constructor. }
  assert (Hat : ∀ j x, segs !! j = Some x → ∃ t, close_globstar l !! j = Some t ∧ seg_equiv (segment_spec g x) t).
  { intros j x Hx. apply (Forall2_lookup_l _ _ _ j (segment_spec g x)) in He; [done|]. by rewrite list_lookup_fmap, Hx. }
  destruct (Hat i s Hs) as (t & Ht & Hst). destruct (Hat (S i) s' Hs') as (t' & Ht' & Hst').
  apply (spec_globstar g s t Hst) in Hr as ->. apply (closed_placed n at_ p l i Hread Ht).
  rewrite Ht'. f_equal. apply (segment_empty g s' t'); try done. rewrite Forall_forall in Hp. apply Hp. by apply list_elem_of_lookup_2 in Ht'.
Qed.

Lemma compile_arm_ok p (at_segment_start : bool) prog :
  pools_wf (pools prog) → scalars p →
  match read_pattern at_segment_start p with
  | None => ∃ e, compile_arm (spell p) at_segment_start prog = Err e
  | Some l => ∃ g segs absorbs,
      compile_arm (spell p) at_segment_start prog =
        Ok (mkProgram g (segments prog ++ segs) (arms prog ++ [make_arm g segs (length (segments prog)) absorbs])) ∧
      extends_all (pools prog) g ∧ pools_wf g ∧ segs_ok g segs ∧ segs_equiv (segment_spec g <$> segs) l ∧
      (absorbs = true ↔ path_matches l [])
  end.
Proof.
  intros Hwf Hp. unfold read_pattern, compile_arm.
  assert (Hlp : length p ≤ length (spell p)).
  { clear. induction p as [|c b IH]; [done|]. rewrite spell_cons, length_app. pose proof (length_put_pos c). cbn. lia. }
  pose proof (segments_ok (S (length p)) (spell p) at_segment_start p 0 (pools prog) [] (S (length (spell p)))
    ltac:(lia) Hp ltac:(done) ltac:(lia) Hwf ltac:(lia)) as H. cbn [Nat.eqb negb orb] in H.
  destruct (read_segments (S (length p)) at_segment_start p) as [l|] eqn:Er; cbn [fmap option_fmap option_map].
  2:{ destruct H as [e ->]. by exists e. }
  destruct H as (g1 & new & -> & He1 & Hwf1 & Hok1 & Heq1 & Hlast). cbn [ebind fst snd app].
  destruct (read_segments_proper _ _ _ _ Er) as [Hprop Hlne].
  assert (Hnew : new ≠ []) by (intros ->; by apply Forall2_nil_inv_l in Heq1).
  pose proof (trailing_ok g1 new l Hwf1 Hok1 Heq1 Hprop Hnew Hlast) as Ht.
  destruct (trailing_globstar g1 new) as [g segs]. destruct Ht as (He2 & Hwf2 & Hok2 & Heq2 & Hne2).
  pose proof (set_flags_ok g segs) as Hf. destruct (set_flags g segs) as [segs' [nl a]]. destruct Hf as (Hf & Hsame & -> & _).
  exists g, segs', (negb (bool_decide (segs = [])) && forallb recursive segs). split; [done|].
  split; [by apply (extends_all_trans _ g1)|]. split; [done|].
  assert (Hspec : segment_spec g <$> segs' = segment_spec g <$> segs).
  { clear -Hsame. induction Hsame as [|x y k m Hxy _ IH]; [done|]. cbn. by rewrite (same_segment_spec g x y), IH. }
  assert (Heq : segs_equiv (segment_spec g <$> segs') (close_globstar l)) by (by rewrite Hspec).
  split; [|split; [done|]].
  - split.
    + intros ->. by apply Forall2_nil_inv_r in Hsame.
    + clear -Hsame Hok2. induction Hsame as [|x y k m Hxy _ IH]; [constructor|]. apply Forall_cons in Hok2 as [Hx Hk].
      constructor; [by apply (same_segment_ok g x)|by apply IH].
    + done.
    + intros i s s'. exact (closed_resumable g segs' _ _ _ l i s s' Hwf2 Er Heq).
  - rewrite bool_decide_false by done. cbn [negb andb]. rewrite <- (only_globstars g segs). by rewrite Heq2.
Qed.
