(* ===== verification/GlobPlan.v ===== *)
(** Matching a compiled pattern: [GlobPattern::match] and [match_arms] with the
    plans they decide by, of include/kotatsu/support/glob_pattern.h and
    src/support/glob_pattern.cpp.

    A plan answers from the ends of the path, a word at a time where the
    literal is short, what the segment loop would answer.  Words are read in
    little-endian order; the tests compare them whole, so the order of the
    bytes does not matter to them. *)

From Stdlib Require Import Strings.Byte ZArith Lia Bool.
From stdpp Require Import prelude strings.
From S2P Require Import Prelude Swar Utf8 Glob GlobMatch GlobExec GlobSyntax GlobCompile.
Local Open Scope kota_scope.
Local Open Scope nat_scope.

(** ** Data *)

Inductive Mode :=
| LiteralMode | AnyMode | PrefixTreeMode | SuffixMode | PathSuffixMode | SegmentSuffixMode
| ArmsMode | SuffixArms | SegmentSuffixArms | ExtensionArms.

#[export] Instance mode_eq_dec : EqDecision Mode.
Proof. solve_decision. Defined.

Record GlobPattern := mkPattern {
  prefix : bytes;
  prefix_at_seg_end : bool;
  mode : Mode;
  program : Program;
}.

(** ** Trailing literals *)

(** The last eight bytes of a text, as a word. *)
Definition last_word (s : bytes) : Z := le_word (drop (length s - 8) s).

Definition packed_matches (p : PackedLiteral) (input lits : bytes) : bool :=
  if length input <? lit_size p then false
  else if (lit_size p <=? 8) && (8 <=? length input) then (Z.land (last_word input) (mask p) =? word p)%Z
  else if (lit_size p <=? 16) && (16 <=? length input) then
    (Z.land (last_word input) (mask p) =? word p)%Z
    && (Z.land (le_word (substr input (length input - 16) 8)) (lead_mask p) =? lead_word p)%Z
  else ends_with input (substr lits (lit_begin p) (lit_size p)).

(** ** Plans *)

Definition base_name (path : bytes) : bytes :=
  match find_last (λ c, c =?b slash) path with Some i => drop (i + 1) path | None => path end.

Definition head (g : Pools) (a : Arm) : bytes := substr (literals g) (head_begin a) (head_size a).

Section Plans.
Variables (g : Pools) (segs : list Segment).

Definition literal_matches (a : Arm) (str : bytes) : bool := packed_matches (arm_literal a) str (literals g).

Definition match_final (a : Arm) (str : bytes) : bool :=
  if negb (literal_matches a str) then false
  else
    let name := if basename a then base_name str else str in
    if negb (basename a) && contains name slash then false
    else if bool_decide (plan a = AffixPlan) then
      (head_size a + lit_size (arm_literal a) <=? length name) && starts_with name (head g a)
    else
      let last_ := segs !!! (arm_end a - 1) in
      if is_kind LiteralSegment last_ then length name =? lit_size (arm_literal a)
      else match_tokens g (seg_begin last_) (seg_end last_) name.

Definition arm_hit (a : Arm) (str : bytes) : bool :=
  match plan a with
  | PrefixTree =>
      let text := head g a in
      starts_with str text && ((length str =? length text) || (str !!! length text =?b slash))
  | DirectoryTree =>
      let text := head g a in bool_decide (is_Some (find_segment str 0 (text !!! 0) text))
  | Suffix => literal_matches a str
  | PathSuffix =>
      literal_matches a str
      && ((length str =? lit_size (arm_literal a)) || (str !!! (length str - lit_size (arm_literal a) - 1) =?b slash))
  | SegmentSuffix => literal_matches a str && negb (contains str slash)
  | AffixPlan | Final => match_final a str
  | GeneralPlan => literal_matches a str && execute g segs (arm_end a) str (arm_begin a)
  end.
End Plans.

(** ** Sets of extensions *)

(** The last eight bytes, or all there are at the end of a word. *)
Definition tail_word (str : bytes) : Z :=
  if 8 <=? length str then last_word str else le_word (repeat x00 (8 - length str) ++ str).

Fixpoint search_extensions (fuel : nat) (arms : list Arm) (len : nat) (w : Z) (first last_ : nat) : bool :=
  match fuel with
  | O => false
  | S fuel' =>
      if first <? last_ then
        let middle := first + (last_ - first) / 2 in
        let l := arm_literal (arms !!! middle) in
        let candidate := Z.land w (mask l) in
        if (len =? lit_size l) && (candidate =? word l)%Z then true
        else if (len <? lit_size l) || ((len =? lit_size l) && (candidate <? word l)%Z) then
          search_extensions fuel' arms len w first middle
        else search_extensions fuel' arms len w (middle + 1) last_
      else false
  end.

Definition match_extension_set (arms : list Arm) (str : bytes) : bool :=
  match find_last (λ c, c =?b "."%byte) str with
  | None => false
  | Some dot =>
      if 8 <? length str - dot then false
      else search_extensions (S (length arms)) arms (length str - dot) (tail_word str) 0 (length arms)
  end.

(** ** The pattern *)

Definition match_arms (p : GlobPattern) (str : bytes) : bool :=
  let g := pools (program p) in
  let segs := segments (program p) in
  let arms := arms (program p) in
  if negb (bool_decide (prefix p = [])) && negb (starts_with str (prefix p)) then false
  else
    let str := drop (length (prefix p)) str in
    if prefix_at_seg_end p && bool_decide (str = []) then existsb absorbs_separator arms
    else if prefix_at_seg_end p && negb (str !!! 0 =?b slash) then false
    else
      let str := if prefix_at_seg_end p then drop 1 str else str in
      match mode p with
      | ExtensionArms => match_extension_set arms str
      | SegmentSuffixArms =>
          if contains str slash then false else existsb (λ a, literal_matches g a str) arms
      | SuffixArms => existsb (λ a, literal_matches g a str) arms
      | _ => existsb (λ a, arm_hit g segs a str) arms
      end.

Definition glob_match (p : GlobPattern) (s : bytes) : bool :=
  let g := pools (program p) in
  let front := arms (program p) !!! 0 in
  match mode p with
  | LiteralMode => bool_decide (s = prefix p)
  | AnyMode => true
  | PrefixTreeMode =>
      starts_with s (prefix p) && ((length s =? length (prefix p)) || (s !!! length (prefix p) =?b slash))
  | SuffixMode => literal_matches g front s
  | PathSuffixMode =>
      literal_matches g front s
      && ((length s =? lit_size (arm_literal front)) || (s !!! (length s - lit_size (arm_literal front) - 1) =?b slash))
  | SegmentSuffixMode => literal_matches g front s && negb (contains s slash)
  | ArmsMode | SuffixArms | SegmentSuffixArms | ExtensionArms => match_arms p s
  end.

(** ** Words under a mask *)

Definition mask_bytes (u m : bytes) : bytes := zip_with (λ x y, to_byte (Z.land (uval x) (uval y))) u m.

Lemma land_le_word u m : length u = length m → Z.land (le_word u) (le_word m) = le_word (mask_bytes u m).
Proof.
  revert m. induction u as [|x u IH]; intros [|y m] H; try done.
  unfold mask_bytes. cbn [zip_with]. fold (mask_bytes u m). rewrite !le_word_cons. injection H as H. rewrite <- IH by done.
  pose proof (uval_range x). pose proof (uval_range y). rewrite land_low by lia.
  pose proof (land_bound (uval x) (uval y) 8 ltac:(lia) ltac:(lia)). by rewrite uval_to_byte_small by lia.
Qed.

Lemma le_word_inj a b : length a = length b → le_word a = le_word b → a = b.
Proof.
  revert b. induction a as [|x a IH]; intros [|y b] H E; try done. rewrite !le_word_cons in E. injection H as H.
  pose proof (uval_range x). pose proof (uval_range y).
  assert (uval x = uval y ∧ le_word a = le_word b) as [Ex Ea] by lia. f_equal; [by apply uval_inj|by apply IH].
Qed.

Lemma land_word_eqb u m v :
  length u = length m → length u = length v → (Z.land (le_word u) (le_word m) =? le_word v)%Z = bool_decide (mask_bytes u m = v).
Proof.
  intros Hm Hv. rewrite land_le_word by done. apply eq_true_iff_eq. rewrite Z.eqb_eq, bool_decide_eq_true. split; [|by intros ->].
  apply le_word_inj. unfold mask_bytes. rewrite length_zip_with. lia.
Qed.

Lemma mask_byte_zero x : to_byte (Z.land (uval x) (uval x00)) = x00.
Proof. change (uval x00) with 0%Z. by rewrite Z.land_0_r. Qed.

Lemma mask_byte_ones x : to_byte (Z.land (uval x) (uval xff)) = x.
Proof.
  change (uval xff) with (2 ^ 8 - 1)%Z. rewrite land_mask, Z.mod_small by (pose proof (uval_range x); lia). apply to_byte_uval.
Qed.

Lemma mask_bytes_app a b m n : length a = length m → mask_bytes (a ++ b) (m ++ n) = mask_bytes a m ++ mask_bytes b n.
Proof. intros H. unfold mask_bytes. by apply zip_with_app. Qed.

Lemma mask_zeros u : mask_bytes u (repeat x00 (length u)) = repeat x00 (length u).
Proof. induction u as [|x u IH]; [done|]. unfold mask_bytes in *. cbn [length repeat zip_with]. by rewrite mask_byte_zero, IH. Qed.

Lemma mask_ones u : mask_bytes u (repeat xff (length u)) = u.
Proof. induction u as [|x u IH]; [done|]. unfold mask_bytes in *. cbn [length repeat zip_with]. by rewrite mask_byte_ones, IH. Qed.

Lemma mask_bytes_take n u m : mask_bytes (take n u) (take n m) = take n (mask_bytes u m).
Proof. unfold mask_bytes. symmetry. apply zip_with_take. Qed.

Lemma mask_bytes_drop n u m : mask_bytes (drop n u) (drop n m) = drop n (mask_bytes u m).
Proof. unfold mask_bytes. symmetry. apply zip_with_drop. Qed.

(** A window's bytes under the mask of a literal are zeros and its end. *)
Lemma mask_window w text :
  length w = 16 → length text ≤ 16 →
  mask_bytes w (packed_mask (length text)) = packed_value text ↔ drop (16 - length text) w = text.
Proof.
  intros Hw Ht. unfold packed_mask, packed_value. rewrite <- (take_drop (16 - length text) w) at 1.
  set (u := take (16 - length text) w). set (v := drop (16 - length text) w).
  assert (Hu : length u = 16 - length text) by (unfold u; rewrite length_take; lia).
  assert (Hv : length v = length text) by (unfold v; rewrite length_drop; lia).
  rewrite mask_bytes_app by (by rewrite repeat_length). rewrite <- Hu, mask_zeros, <- Hv, mask_ones. split; [|by intros ->].
  apply app_inv_head.
Qed.

Lemma drop_window {A} (s : list A) n : n ≤ 8 → 8 ≤ length s → drop (8 - n) (drop (length s - 8) s) = drop (length s - n) s.
Proof. intros H1 H2. rewrite drop_drop. f_equal. lia. Qed.

(** The word tests are the test for the literal's bytes at the end. *)
Lemma packed_matches_ok g t input :
  token_kind t = TLiteral → token_in g t →
  packed_matches (pack_literal g t) input (literals g) = ends_with input (literal g t).
Proof.
  intros Hk Hin. unfold token_in in Hin. rewrite Hk in Hin.
  assert (Hlen : length (literal g t) = token_size t) by (unfold literal; rewrite length_substr; lia).
  unfold packed_matches, ends_with. set (text := literal g t) in *.
  assert (Esize : lit_size (pack_literal g t) = token_size t) by (unfold pack_literal; by case_if).
  rewrite Esize, Hlen. destruct (Nat.ltb_spec (length input) (token_size t)) as [Hs|Hs].
  { by rewrite (proj2 (Nat.leb_gt (token_size t) (length input))). }
  rewrite (proj2 (Nat.leb_le (token_size t) (length input))) by done. cbn [andb].
  assert (Hval : length (packed_value text) = 16 - length text + length text) by (unfold packed_value; by rewrite length_app, repeat_length).
  assert (Hmask : length (packed_mask (token_size t)) = 16 - length text + length text)
    by (unfold packed_mask; by rewrite length_app, !repeat_length, Hlen).
  destruct (Nat.leb_spec (token_size t) 8) as [H8|H8]; cbn [andb].
  - destruct (Nat.leb_spec 8 (length input)) as [Hi|Hi].
    + unfold pack_literal. rewrite (proj2 (Nat.leb_le (token_size t) 16)) by lia. cbn [mask word]. fold text. unfold last_word.
      rewrite land_word_eqb by (rewrite !length_drop; lia).
      apply bool_decide_ext. rewrite <- (drop_window input (token_size t)) by done. set (w := drop (length input - 8) input).
      assert (Hw : length w = 8) by (unfold w; rewrite length_drop; lia).
      assert (Hbig : drop 8 (repeat x00 8 ++ w) = w) by done. rewrite <- Hbig at 1. rewrite mask_bytes_drop.
      pose proof (mask_window (repeat x00 8 ++ w) text ltac:(rewrite length_app, Hw; done) ltac:(lia)) as Hmw. rewrite Hlen in Hmw.
      rewrite drop_app, drop_ge in Hmw by (cbn; lia). cbn [app] in Hmw. change (length (repeat x00 8)) with 8 in Hmw.
      replace (16 - token_size t - 8) with (8 - token_size t) in Hmw by lia. rewrite <- Hmw.
      split; [|by intros ->]. intros E. rewrite <- (take_drop 8 (mask_bytes _ _)), E. unfold packed_mask, packed_value.
      rewrite Hlen. replace (16 - token_size t) with (8 + (8 - token_size t)) by lia. rewrite !repeat_app, <- !app_assoc.
      rewrite mask_bytes_app by done. done.
    + destruct (Nat.leb_spec 16 (length input)); [lia|]. rewrite andb_false_r.
      unfold pack_literal. rewrite (proj2 (Nat.leb_le (token_size t) 16)) by lia. cbn [lit_begin lit_size].
      change (substr (literals g) (token_begin t) (token_size t)) with text. rewrite Hlen.
      by rewrite (proj2 (Nat.leb_le (token_size t) (length input))).
  - destruct (Nat.leb_spec (token_size t) 16) as [H16|H16]; cbn [andb].
    + unfold pack_literal. rewrite (proj2 (Nat.leb_le (token_size t) 16)) by lia. cbn [mask word lead_mask lead_word lit_begin lit_size].
      fold text. destruct (Nat.leb_spec 16 (length input)) as [Hi|Hi].
      * unfold last_word. set (w := drop (length input - 16) input).
        assert (Hw : length w = 16) by (unfold w; rewrite length_drop; lia).
        assert (E1 : drop (length input - 8) input = drop 8 w) by (unfold w; rewrite drop_drop; f_equal; lia).
        assert (E2 : substr input (length input - 16) 8 = take 8 w) by done. rewrite E1, E2.
        rewrite !land_word_eqb by (rewrite ?length_take, ?length_drop; lia). rewrite mask_bytes_drop, mask_bytes_take.
        rewrite <- bool_decide_and. apply bool_decide_ext.
        pose proof (mask_window w text Hw ltac:(lia)) as Hmw. rewrite Hlen in Hmw. unfold w in Hmw at 2. rewrite drop_drop in Hmw.
        replace (length input - 16 + (16 - token_size t)) with (length input - token_size t) in Hmw by lia. rewrite <- Hmw.
        split; [|by intros ->]. intros [Ed Et]. by rewrite <- (take_drop 8 (mask_bytes _ _)), Et, Ed, take_drop.
      * change (substr (literals g) (token_begin t) (token_size t)) with text. rewrite Hlen.
        by rewrite (proj2 (Nat.leb_le (token_size t) (length input))).
    + unfold pack_literal. rewrite (proj2 (Nat.leb_gt (token_size t) 16)) by lia. cbn [lit_begin lit_size].
      change (substr (literals g) (token_begin t) (token_size t)) with text. rewrite Hlen.
      by rewrite (proj2 (Nat.leb_le (token_size t) (length input))).
Qed.

(** ** The last name of a path *)

Lemma contains_spec s c : contains s c = true ↔ c ∈ s.
Proof.
  unfold contains. rewrite existsb_exists. setoid_rewrite <- list_elem_of_In. split.
  - intros (x & Hx & E%byte_eqb_spec). by subst.
  - intros H. exists c. split; [done|]. apply byte_eqb_refl.
Qed.

Lemma find_last_slash s :
  match find_last (λ c, c =?b slash) s with
  | Some i => s = take i s ++ slash :: drop (i + 1) s ∧ slash ∉ drop (i + 1) s
  | None => slash ∉ s
  end.
Proof.
  induction s as [|c s IH]; [apply not_elem_of_nil|]. cbn [find_last]. destruct (find_last _ s) as [i|].
  - destruct IH as [E Hn]. cbn [take]. replace (S i + 1) with (S (i + 1)) by lia. cbn [drop app]. split; [by rewrite <- E|done].
  - destruct (c =?b slash) eqn:Ec.
    + apply byte_eqb_spec in Ec as ->. cbn. by rewrite drop_0.
    + apply byte_eqb_neq in Ec. apply not_elem_of_cons. done.
Qed.

Lemma base_name_split s :
  slash ∉ base_name s ∧
  ((slash ∉ s ∧ base_name s = s) ∨ ∃ pre, s = pre ++ slash :: base_name s).
Proof.
  unfold base_name. pose proof (find_last_slash s) as H. destruct (find_last _ s) as [i|].
  - destruct H as [E Hn]. split; [done|]. right. by exists (take i s).
  - split; [done|]. by left.
Qed.

Lemma split_path_last s : ∃ init, split_path s = init ++ [base_name s].
Proof.
  destruct (base_name_split s) as [Hb [[Hs E]|[pre E]]].
  - exists []. by rewrite E, split_path_single.
  - exists (split_path pre). rewrite E at 1. by rewrite split_path_slash, (split_path_single (base_name s)).
Qed.

Lemma split_path_one s w : split_path s = [w] ↔ slash ∉ s ∧ w = s.
Proof.
  split.
  - intros E. destruct (base_name_split s) as [Hb [[Hs Ew]|[pre Ep]]].
    + rewrite split_path_single in E by done. by simplify_eq.
    + rewrite Ep, split_path_slash in E. apply (f_equal length) in E. rewrite length_app in E.
      pose proof (split_path_nonempty pre). pose proof (split_path_nonempty (base_name s)).
      destruct (split_path pre), (split_path (base_name s)); cbn in *; try done; lia.
  - intros [Hs ->]. by apply split_path_single.
Qed.

(** A text without a slash ends a path when it ends the last name. *)
Lemma ends_with_base s text : slash ∉ text → ends_with s text = ends_with (base_name s) text.
Proof.
  intros Hn. destruct (base_name_split s) as [Hb [[_ ->]|[pre E]]]; [done|]. set (w := base_name s) in *. clearbody w. subst s.
  unfold ends_with. rewrite length_app. cbn [length]. destruct (Nat.leb_spec (length text) (length w)) as [Hle|Hgt].
  - rewrite (proj2 (Nat.leb_le _ _)) by lia. cbn [andb]. f_equal.
    rewrite drop_app, drop_ge by lia. cbn [app]. replace (length pre + S (length w) - length text - length pre) with (S (length w - length text)) by lia.
    done.
  - cbn [andb]. apply andb_false_iff. destruct (Nat.leb_spec (length text) (length pre + S (length w))); [right|by left].
    apply bool_decide_eq_false. intros E. apply Hn. rewrite <- E, drop_app. apply elem_of_app. right.
    replace (length pre + S (length w) - length text - length pre) with 0 by lia. left.
Qed.

Lemma ends_with_nil {A} `{EqDecision A} (s : list A) : ends_with s [] = true.
Proof. unfold ends_with. cbn. by rewrite Nat.sub_0_r, drop_all. Qed.

Lemma ends_with_iff {A} `{EqDecision A} (s text : list A) : ends_with s text = true ↔ ∃ pre, s = pre ++ text.
Proof.
  unfold ends_with. rewrite andb_true_iff, Nat.leb_le, bool_decide_eq_true. split.
  - intros [_ E]. exists (take (length s - length text) s). by rewrite <- E at 2; rewrite take_drop.
  - intros [pre ->]. rewrite length_app. split; [lia|]. rewrite Nat.add_sub. apply drop_app_length.
Qed.

Lemma path_last_iff ops s : path_matches [Globstar; Name ops] (split_path s) ↔ matches ops (atoms (base_name s)).
Proof.
  destruct (split_path_last s) as [init E]. rewrite E, path_star_iff. split.
  - intros (k & Hk & H). apply path_name_iff in H as (w & ws & Ed & Hm & H). apply path_nil_iff in H as ->.
    assert (k = length init) as ->.
    { apply (f_equal length) in Ed. rewrite length_drop, length_app in Ed. cbn in Ed. lia. }
    rewrite drop_app_length in Ed. by injection Ed as ->.
  - intros H. exists (length init). rewrite length_app, drop_app_length. split; [lia|]. constructor; [done|constructor].
Qed.

Lemma path_one_iff ops s : path_matches [Name ops] (split_path s) ↔ slash ∉ s ∧ matches ops (atoms s).
Proof.
  rewrite path_name_iff. split.
  - intros (w & ws & E & Hm & H). apply path_nil_iff in H as ->. apply split_path_one in E as [Hs ->]. done.
  - intros [Hs Hm]. exists s, []. split; [by apply split_path_one|]. split; [done|constructor].
Qed.

(** A trailing literal ends the name. *)
Lemma trailing_literal_needed ops cps w : scalars cps → matches (ops ++ [OLit cps]) (atoms w) → ends_with w (spell cps) = true.
Proof.
  intros Hc (a1 & a2 & E & _ & H2)%matches_app. apply matches_lit_iff in H2 as [E1 E2]. apply matches_nil_iff in E2.
  assert (Ea : atoms w = a1 ++ cps) by (rewrite E; f_equal; rewrite <- (take_drop (length cps) a2), E1, E2; apply app_nil_r).
  destruct (atom_pos_drop (length a1) w) as [_ Hd]; [rewrite Ea, length_app; lia|]. rewrite Ea, drop_app_length in Hd.
  rewrite <- (app_nil_r cps) in Hd. apply (atoms_spell_inv _ _ _ Hc) in Hd as (r & Hd & Hr). apply atoms_nil in Hr as ->.
  apply ends_with_iff. exists (take (atom_pos (length a1) w) w). by rewrite <- (app_nil_r (spell cps)), <- Hd, take_drop.
Qed.

(** ** The trailing literal of a segment *)

Definition trail_text (g : Pools) (s : Segment) : bytes :=
  match last (segment_tokens g s) with
  | Some t => if decide (token_kind t = TLiteral) then literal g t else []
  | None => []
  end.

Lemma segment_last g s t :
  segment_ok g s → last (segment_tokens g s) = Some t → seg_begin s < seg_end s ∧ tokens g !!! (seg_end s - 1) = t.
Proof.
  intros (Hb & He & _) Hl. assert (Hlen : length (segment_tokens g s) = seg_end s - seg_begin s).
  { unfold segment_tokens. rewrite length_take, length_drop. lia. }
  pose proof Hl as Hs. apply last_Some in Hs as [i Ei]. rewrite Ei, length_app in Hlen. cbn in Hlen. split; [lia|].
  replace (seg_end s - 1) with (seg_begin s + length i) by lia. apply (segment_lookup g _ _ _ _ _ He Ei).
  rewrite lookup_app_r, Nat.sub_diag by lia. done.
Qed.

Lemma packed_none input lits : packed_matches inhabitant input lits = true.
Proof.
  unfold packed_matches. change (lit_size inhabitant) with 0. rewrite (proj2 (Nat.ltb_ge (length input) 0)) by lia. cbn [Nat.leb andb].
  change (mask inhabitant) with 0%Z. change (word inhabitant) with 0%Z. change (lead_mask inhabitant) with 0%Z.
  change (lead_word inhabitant) with 0%Z. rewrite !Z.land_0_r. repeat case_if; try done.
  change (substr lits (lit_begin inhabitant) 0) with (@nil byte). apply ends_with_nil.
Qed.

Lemma trail_packed g s input :
  pools_wf g → segment_ok g s → recursive s = false →
  packed_matches (trailing_literal g s) input (literals g) = ends_with input (trail_text g s) ∧
  lit_size (trailing_literal g s) = length (trail_text g s).
Proof.
  intros Hwf Hok Hr. unfold trailing_literal, trail_text. rewrite Hr. cbn [negb andb].
  assert (Hnone : packed_matches inhabitant input (literals g) = ends_with input [] ∧ lit_size inhabitant = 0)
    by (by rewrite packed_none, ends_with_nil).
  destruct (last (segment_tokens g s)) as [t|] eqn:El.
  - destruct (segment_last g s t Hok El) as [Hlt Et]. rewrite (proj2 (Nat.eqb_neq (seg_begin s) (seg_end s))) by lia.
    rewrite Et. cbn [negb andb]. destruct (decide (token_kind t = TLiteral)) as [Hk|Hk].
    + rewrite bool_decide_true by done. assert (Hin : token_in g t).
      { apply Hwf. apply (segment_token_elem g s). apply last_Some in El as [i ->]. apply elem_of_app. right. left. }
      split; [by apply packed_matches_ok|]. unfold token_in in Hin. rewrite Hk in Hin. unfold pack_literal, literal.
      rewrite length_substr. case_if; cbn [lit_size]; lia.
    + by rewrite bool_decide_false.
  - apply last_None in El. assert (seg_begin s = seg_end s) as ->; [|by rewrite Nat.eqb_refl].
    destruct Hok as (Hb & He & _). apply (f_equal length) in El. unfold segment_tokens in El. rewrite length_take, length_drop in El. cbn in El. lia.
Qed.

Lemma trail_slash g s : pools_wf g → slash ∉ trail_text g s.
Proof.
  intros Hwf. unfold trail_text. destruct (last (segment_tokens g s)) as [t|] eqn:El; [|apply not_elem_of_nil].
  case_decide; [|apply not_elem_of_nil]. apply Hwf; [|done]. apply (segment_token_elem g s).
  apply last_Some in El as [i ->]. apply elem_of_app. right. left.
Qed.

Lemma trail_needed g s w :
  pools_wf g → matches (token_op g <$> segment_tokens g s) (atoms w) → ends_with w (trail_text g s) = true.
Proof.
  intros Hwf Hm. unfold trail_text. destruct (last (segment_tokens g s)) as [t|] eqn:El; [|apply ends_with_nil].
  case_decide as Hk; [|apply ends_with_nil].
  assert (Ht : t ∈ tokens g).
  { apply (segment_token_elem g s). apply last_Some in El as [i ->]. apply elem_of_app. right. left. }
  apply last_Some in El as [i E]. rewrite E, fmap_app in Hm. cbn [fmap list_fmap] in Hm. destruct (Hwf t Ht) as (_ & Hok & _).
  destruct (Hok Hk) as (cps & _ & Hc & El). unfold token_op at 2 in Hm. rewrite Hk, El in Hm. rewrite El.
  rewrite <- (app_nil_r (spell cps)), atoms_spell, app_nil_r in Hm by done. by apply (trailing_literal_needed _ cps) in Hm.
Qed.

(** ** Plans for one name *)

Lemma affix_iff g s w :
  pools_wf g → segment_ok g s → seg_kind s = Affix →
  matches (token_op g <$> segment_tokens g s) (atoms w) ↔
  length (match segment_tokens g s with t :: _ => if decide (token_kind t = TLiteral) then literal g t else [] | [] => [] end)
    + length (trail_text g s) ≤ length w ∧
  starts_with w (match segment_tokens g s with t :: _ => if decide (token_kind t = TLiteral) then literal g t else [] | [] => [] end) = true ∧
  ends_with w (trail_text g s) = true.
Proof.
  intros Hwf Hok Hk. pose proof Hok as (Hb & He & Hkind & _). rewrite Hk in Hkind. destruct Hkind as (head & tail & E & Hh & Ht).
  assert (Hwf' : ∀ x, x ∈ segment_tokens g s → token_ok g x) by (intros x Hx; apply Hwf; by apply (segment_token_elem g s)).
  rewrite E in Hwf'.
  assert (Hm := match_affix_ok g (seg_begin s) (seg_end s) head tail w He E).
  assert (Hm1 : ∀ x, head = Some x → token_kind x = TLiteral ∧ token_ok g x).
  { intros x ->. split; [by apply Hh|]. apply Hwf'. left. }
  assert (Hm2 : ∀ x, tail = Some x → token_kind x = TLiteral ∧ token_ok g x).
  { intros x ->. split; [by apply Ht|]. apply Hwf'. unfold affix_tokens. rewrite !elem_of_app. right. right. left. }
  specialize (Hm Hm1 Hm2). unfold segment_ops in Hm. fold (segment_tokens g s) in Hm. rewrite <- Hm. clear Hm.
  unfold match_affix. rewrite !andb_true_iff, Nat.leb_le.
  assert (Ehd : tokens g !!! seg_begin s = default (mkToken TStar 0 0) head).
  { rewrite <- (Nat.add_0_r (seg_begin s)). apply (segment_lookup g _ _ _ 0 _ He E). by destruct head. }
  assert (Elast : last (segment_tokens g s) = Some (default (mkToken TStar 0 0) tail)) by (rewrite E; by destruct head, tail).
  destruct (segment_last g s _ Hok Elast) as [_ ->]. rewrite Ehd. unfold trail_text. rewrite Elast, E.
  assert (Eif : ∀ t, (if bool_decide (token_kind t = TLiteral) then literal g t else []) = (if decide (token_kind t = TLiteral) then literal g t else [])).
  { intros t. by case_decide; [rewrite bool_decide_true|rewrite bool_decide_false]. }
  rewrite !Eif. destruct head as [h|]; cbn [affix_tokens app default from_option id]; tauto.
Qed.

Lemma literal_iff g s w :
  pools_wf g → segment_ok g s → seg_kind s = LiteralSegment →
  matches (token_op g <$> segment_tokens g s) (atoms w) ↔ w = trail_text g s.
Proof.
  intros Hwf (Hb & He & Hkind & _) Hk. rewrite Hk in Hkind. unfold trail_text. destruct Hkind as [->|(t & E & Hl)].
  - cbn [fmap list_fmap last]. by rewrite matches_nil_iff, atoms_nil.
  - rewrite E. cbn [last fmap list_fmap]. rewrite decide_True by done. apply literal_ops; [done|].
    apply Hwf. apply (segment_token_elem g s). rewrite E. left.
Qed.

(** ** Arms *)

Lemma path_app_name l ops ws : path_matches (l ++ [Name ops]) ws → ∃ ws0 w, ws = ws0 ++ [w] ∧ matches ops (atoms w).
Proof.
  revert ws. induction l as [|s l IH]; intros ws H; cbn [app] in H.
  - apply path_name_iff in H as (w & ws' & -> & Hm & H). apply path_nil_iff in H as ->. by exists [], w.
  - destruct s as [|o].
    + apply path_star_iff in H as (k & Hk & H). destruct (IH _ H) as (ws0 & w & E & Hm). exists (take k ws ++ ws0), w.
      by rewrite <- app_assoc, <- E, take_drop.
    + apply path_name_iff in H as (x & ws' & -> & _ & H). destruct (IH _ H) as (ws0 & w & -> & Hm). by exists (x :: ws0), w.
Qed.

Lemma starts_with_nil {A} `{EqDecision A} (s : list A) : starts_with s [] = true.
Proof. by apply starts_with_iff. Qed.

(** The token a segment starts with. *)
Lemma segment_first g s t ts :
  segment_ok g s → segment_tokens g s = t :: ts → seg_begin s < seg_end s ∧ tokens g !!! seg_begin s = t.
Proof.
  intros (Hb & He & _) E. pose proof (f_equal length E) as Hl. unfold segment_tokens in Hl. rewrite length_take, length_drop in Hl. cbn in Hl.
  split; [lia|]. rewrite <- (Nat.add_0_r (seg_begin s)). by apply (segment_lookup g _ _ _ 0 _ He E).
Qed.

Section NamePlan.
Variables (g : Pools) (all : list Segment) (a : Arm) (b : Segment) (str : bytes).
Hypothesis Hwf : pools_wf g.
Hypothesis Hok : segment_ok g b.
Hypothesis Hrec : recursive b = false.
Hypothesis Hlit : arm_literal a = trailing_literal g b.
Hypothesis Hlast : all !!! (arm_end a - 1) = b.

Let name := if basename a then base_name str else str.

(** What the plan is to find out. *)
Definition name_wanted : Prop :=
  (basename a = true ∨ slash ∉ str) ∧ matches (token_op g <$> segment_tokens g b) (atoms name).

Lemma literal_matches_trail s : literal_matches g a s = ends_with s (trail_text g b).
Proof. unfold literal_matches. rewrite Hlit. by apply trail_packed. Qed.

Lemma literal_size_trail : lit_size (arm_literal a) = length (trail_text g b).
Proof. rewrite Hlit. by apply trail_packed. Qed.

Lemma ends_with_name : ends_with str (trail_text g b) = ends_with name (trail_text g b).
Proof. unfold name. destruct (basename a); [|done]. apply ends_with_base. by apply trail_slash. Qed.

Lemma suffix_plans_ok :
  seg_kind b = Affix → token_kind (tokens g !!! seg_begin b) = TStar →
  plan a = (if basename a then Suffix else SegmentSuffix) → arm_hit g all a str = true ↔ name_wanted.
Proof.
  intros Hk Hst Hp. unfold arm_hit, name_wanted. rewrite Hp. pose proof (affix_iff g b name Hwf Hok Hk) as Ha.
  assert (Hhead : match segment_tokens g b with t :: _ => if decide (token_kind t = TLiteral) then literal g t else [] | [] => [] end = []).
  { destruct (segment_tokens g b) as [|t ts] eqn:E; [done|]. destruct (segment_first g b t ts Hok E) as [_ Et]. rewrite Et in Hst.
    by rewrite decide_False by congruence. }
  rewrite Hhead in Ha. rewrite Ha, starts_with_nil, <- ends_with_name.
  assert (Hle : ends_with str (trail_text g b) = true → length (trail_text g b) ≤ length name).
  { rewrite ends_with_name. intros [pre ->]%ends_with_iff. rewrite length_app. lia. }
  destruct (basename a); rewrite literal_matches_trail; cbn [length Nat.add].
  - split; [intros H; split; [by left|]; split; [by apply Hle|done]|]. by intros [_ (_ & _ & H)].
  - rewrite andb_true_iff, negb_true_iff, <- not_true_iff_false, contains_spec. split.
    + intros [H Hs]. split; [by right|]. split; [by apply Hle|done].
    + intros [[Hf|Hs] (_ & _ & H)]; [discriminate|done].
Qed.

Lemma path_suffix_ok :
  basename a = true → seg_kind b = LiteralSegment → plan a = PathSuffix →
  arm_hit g all a str = true ↔ name_wanted.
Proof.
  intros Hb Hk Hp. unfold arm_hit, name_wanted. rewrite Hp, literal_size_trail, literal_matches_trail, (literal_iff g b name Hwf Hok Hk).
  pose proof (trail_slash g b Hwf) as Hs. set (text := trail_text g b) in *. unfold name. rewrite Hb.
  destruct (base_name_split str) as [Hbn Hsplit]. rewrite andb_true_iff, orb_true_iff, Nat.eqb_eq, byte_eqb_spec. split.
  - intros [He H]. split; [by left|]. apply ends_with_iff in He as [pre E]. destruct H as [H|H].
    + rewrite E, length_app in H. destruct pre; [|cbn in H; lia]. cbn in E. subst str. destruct Hsplit as [[_ ?]|[p Ep]]; [done|].
      exfalso. apply Hs. rewrite Ep. apply elem_of_app. right. left.
    + destruct (decide (pre = [])) as [->|Hn].
      * cbn in E. subst str. destruct Hsplit as [[_ ?]|[p Ep]]; [done|]. exfalso. apply Hs. rewrite Ep. apply elem_of_app. right. left.
      * rewrite E, length_app in H. replace (length pre + length text - length text - 1) with (length pre - 1) in H by lia.
        assert (0 < length pre) by (destruct pre; [done|cbn; lia]).
        rewrite lookup_total_app_l in H by lia. destruct (split_path_last str) as [i1 E1].
        assert (Epre : pre = take (length pre - 1) pre ++ [slash]).
        { rewrite <- (take_drop (length pre - 1) pre) at 1. f_equal.
          rewrite (drop_S pre slash (length pre - 1)) by (rewrite <- H; apply list_lookup_lookup_total_lt; lia).
          f_equal. apply drop_ge. lia. }
        assert (E2 : split_path str = split_path (take (length pre - 1) pre) ++ [text]).
        { rewrite E, Epre at 1. rewrite <- app_assoc. cbn [app]. by rewrite split_path_slash, (split_path_single text). }
        rewrite E2 in E1. apply app_inj_2 in E1 as [_ E1]; [|done]. by injection E1 as <-.
  - intros [_ E]. assert (He : ends_with str text = true) by (rewrite (ends_with_base str text Hs), E; apply ends_with_iff; by exists []).
    split; [done|]. destruct Hsplit as [[_ ?]|[p Ep]]; [left; congruence|right]. rewrite <- E, Ep at 1. rewrite length_app. cbn [length].
    replace (length p + S (length (base_name str)) - length (base_name str) - 1) with (length p) by lia.
    rewrite Ep, lookup_total_app_r, Nat.sub_diag by lia. done.
Qed.

(** [match_final], given what it decides by when the trailing literal and the
    slashes have been looked at. *)
Lemma match_final_ok (test : bool) :
  (ends_with name (trail_text g b) = true → test = true ↔ matches (token_op g <$> segment_tokens g b) (atoms name)) →
  (if negb (literal_matches g a str) then false
   else if negb (basename a) && contains name slash then false else test) = true ↔ name_wanted.
Proof.
  intros Htest. unfold name_wanted. rewrite literal_matches_trail, ends_with_name.
  pose proof (trail_needed g b name Hwf) as Hneed. destruct (ends_with name (trail_text g b)) eqn:Ee; cbn [negb].
  2:{ split; [done|]. intros [_ H]. by apply Hneed in H. }
  assert (Ht : test = true ↔ matches (token_op g <$> segment_tokens g b) (atoms name)) by (by apply Htest).
  destruct (basename a) eqn:Eb; cbn [negb andb].
  - rewrite Ht. split; [intros H; split; [by left|done]|by intros [_ H]].
  - destruct (contains name slash) eqn:Ec.
    + split; [done|]. intros [[?|Hs] _]; [done|]. apply contains_spec in Ec. by unfold name in Ec; rewrite ?Eb in Ec.
    + apply not_true_iff_false in Ec. rewrite contains_spec in Ec. unfold name in Ec. rewrite Ht.
      split; [intros H; split; [by right|done]|by intros [_ H]].
Qed.

Lemma affix_plan_ok t ts :
  seg_kind b = Affix → segment_tokens g b = t :: ts → token_kind t = TLiteral →
  plan a = AffixPlan → head_begin a = token_begin t → head_size a = token_size t →
  arm_hit g all a str = true ↔ name_wanted.
Proof.
  intros Hk Et Hlt Hp Hhb Hhs. unfold arm_hit, match_final. rewrite Hp. cbv zeta. fold name.
  rewrite bool_decide_true by done. apply match_final_ok. intros Hends.
  rewrite (affix_iff g b name Hwf Hok Hk), Et, decide_True by done. rewrite andb_true_iff, Nat.leb_le.
  assert (Eh : head g a = literal g t) by (unfold head, literal; by rewrite Hhb, Hhs).
  assert (El : length (literal g t) = token_size t).
  { assert (Hin : token_in g t) by (apply Hwf; apply (segment_token_elem g b); rewrite Et; left).
    unfold token_in in Hin. rewrite Hlt in Hin. unfold literal. rewrite length_substr. lia. }
  rewrite Eh, Hhs, El, literal_size_trail. tauto.
Qed.

Lemma final_plan_ok :
  seg_kind b = LiteralSegment ∨ seg_kind b = General → plan a = Final → arm_hit g all a str = true ↔ name_wanted.
Proof.
  intros Hk Hp. unfold arm_hit, match_final. rewrite Hp, Hlast. cbv zeta. fold name.
  rewrite bool_decide_false by done. apply match_final_ok. intros Hends. unfold is_kind. destruct Hk as [Hk|Hk]; rewrite Hk.
  - rewrite bool_decide_true by done. rewrite (literal_iff g b name Hwf Hok Hk), literal_size_trail, Nat.eqb_eq.
    apply ends_with_iff in Hends as [pre E]. split; [|by intros ->]. intros El. rewrite E, length_app in El.
    destruct pre; [done|cbn in El; lia].
  - rewrite bool_decide_false by done. pose proof Hok as (Hb & He & _).
    apply (match_tokens_ok g (seg_begin b) (seg_end b) name Hb He). intros x Hx. by apply Hwf.
Qed.
End NamePlan.

(** ** Every plan *)

Section ArmHit.
Variables (g : Pools) (pre segs post : list Segment) (absorbs : bool) (str : bytes).
Hypothesis Hwf : pools_wf g.
Hypothesis Hsegs : segs_ok g segs.

Let all := pre ++ segs ++ post.
Let a := make_arm g segs (length pre) absorbs.

Lemma arm_slice : take (length pre + length segs - length pre) (drop (length pre) all) = segs.
Proof. unfold all. rewrite drop_app_length, Nat.add_comm, Nat.add_sub. apply take_app_length. Qed.

Lemma arm_slice_lookup i s : segs !! i = Some s → all !!! (length pre + i) = s.
Proof.
  intros H. apply list_lookup_total_correct. unfold all. rewrite lookup_app_r by lia.
  replace (length pre + i - length pre) with i by lia. rewrite lookup_app_l by (by apply lookup_lt_Some in H). done.
Qed.

Lemma arm_slice_ok : arm_ok g all (length pre) (length pre + length segs).
Proof.
  destruct Hsegs as [Hn Hok Hf Hr]. assert (0 < length segs) by (destruct segs; [done|cbn; lia]).
  split; [lia|]. split; [unfold all; rewrite !length_app; lia|]. split; [by apply pools_wf_ok|]. rewrite arm_slice.
  split; [intros s Hs; rewrite Forall_forall in Hok; by apply Hok|]. split; [done|]. intros i Hi1 Hi2 Hrec.
  destruct (lookup_lt_is_Some_2 segs (i - length pre)) as [s Hs]; [lia|].
  destruct (lookup_lt_is_Some_2 segs (S (i - length pre))) as [s' Hs']; [lia|].
  replace i with (length pre + (i - length pre)) in Hrec |- * by lia. rewrite (arm_slice_lookup _ s Hs) in Hrec.
  replace (length pre + (i - length pre) + 1) with (length pre + S (i - length pre)) by lia.
  rewrite (arm_slice_lookup _ s' Hs'). by apply (Hr (i - length pre) s s').
Qed.

Lemma arm_meaning : arm_segs g all (length pre) (length pre + length segs) = segment_spec g <$> segs.
Proof. unfold arm_segs. by rewrite arm_slice. Qed.

Lemma general_plan_ok :
  literal_matches g a str && execute g all (length pre + length segs) str (length pre) = true ↔
  path_matches (segment_spec g <$> segs) (split_path str).
Proof.
  destruct (execute_ok g all (length pre) (length pre + length segs) str arm_slice_ok) as [_ He].
  rewrite arm_meaning in He. rewrite andb_true_iff, He. split; [by intros [_ H]|]. intros H. split; [|done].
  destruct Hsegs as [Hn Hok _ _]. unfold literal_matches, a, make_arm. destruct (choose_plan g segs) as [pl hd]. cbn [arm_literal].
  destruct (last segs) as [s|] eqn:El; [|by apply last_None in El]. apply last_Some in El as [i El].
  assert (Es : segs !!! (length segs - 1) = s).
  { apply list_lookup_total_correct. rewrite El, length_app, Nat.add_sub, lookup_app_r, Nat.sub_diag by lia. done. }
  rewrite Es. destruct (recursive s) eqn:Er; [unfold trailing_literal; rewrite Er; apply packed_none|].
  assert (Hs : segment_ok g s) by (rewrite Forall_forall in Hok; apply Hok; rewrite El; apply elem_of_app; right; left).
  rewrite (proj1 (trail_packed g s str Hwf Hs Er)). rewrite El, fmap_app in H. cbn [fmap list_fmap] in H.
  rewrite (segment_spec_name g s Er) in H. apply path_app_name in H as (ws0 & w & Ew & Hm).
  destruct (split_path_last str) as [i' E']. rewrite E' in Ew. apply app_inj_2 in Ew as [_ Ew]; [|done]. injection Ew as Ew. subst w.
  rewrite (ends_with_base str) by (by apply trail_slash). by apply trail_needed.
Qed.

(** The plans for one name, the one the arm's only segment stands for or the
    last after a globstar. *)
Lemma name_plans_ok s (bn : bool) :
  segment_ok g s → recursive s = false → (bn = true → segment_tokens g s ≠ []) →
  all !!! (length pre + length segs - 1) = s →
  (let '(pl, hd) :=
     (if is_kind Affix s && bool_decide (token_kind (tokens g !!! seg_begin s) = TStar) then
        (if bn then Suffix else SegmentSuffix, None)
      else if is_kind Affix s then (AffixPlan, Some (tokens g !!! seg_begin s))
      else if bn && is_kind LiteralSegment s then (PathSuffix, None)
      else (Final, None)) in
   arm_hit g all (mkArm pl bn absorbs (length pre) (length pre + length segs)
     (match hd with Some t => token_begin t | None => 0 end) (match hd with Some t => token_size t | None => 0 end)
     (trailing_literal g s)) str) = true ↔
  (bn = true ∨ slash ∉ str) ∧ matches (token_op g <$> segment_tokens g s) (atoms (if bn then base_name str else str)).
Proof.
  intros Hok Hr Htok Hlast. unfold is_kind. destruct (seg_kind s) eqn:Ek.
  - unfold recursive in Hr. by rewrite Ek in Hr.
  - change (bool_decide (LiteralSegment = Affix)) with false. change (bool_decide (LiteralSegment = LiteralSegment)) with true.
    cbn [andb]. rewrite andb_true_r. destruct bn.
    + apply (path_suffix_ok g all (mkArm PathSuffix true absorbs _ _ 0 0 (trailing_literal g s)) s str); done.
    + apply (final_plan_ok g all (mkArm Final false absorbs _ _ 0 0 (trailing_literal g s)) s str); try done. by left.
  - change (bool_decide (Affix = Affix)) with true. cbn [andb]. pose proof Hok as (_ & _ & Hkind & _). rewrite Ek in Hkind.
    destruct Hkind as (hd & tl & E & Hh & _).
    assert (Hne : ∃ t ts, segment_tokens g s = t :: ts ∧ (token_kind t = TLiteral ∨ token_kind t = TStar)).
    { rewrite E. destruct hd as [h|]; cbn; eexists _, _; (split; [done|]); [left; by apply Hh|by right]. }
    destruct Hne as (t & ts & Et & Hkt). destruct (segment_first g s t ts Hok Et) as [_ Ef]. rewrite Ef.
    destruct Hkt as [Hkt|Hkt]; rewrite Hkt.
    + rewrite bool_decide_false by done. apply (affix_plan_ok g all (mkArm AffixPlan bn absorbs _ _ (token_begin t) (token_size t) (trailing_literal g s)) s str Hwf Hok Hr eq_refl t ts); done.
    + rewrite bool_decide_true by done.
      apply (suffix_plans_ok g all (mkArm (if bn then Suffix else SegmentSuffix) bn absorbs _ _ 0 0 (trailing_literal g s)) s str); try done.
      by rewrite Ef.
  - change (bool_decide (General = Affix)) with false. change (bool_decide (General = LiteralSegment)) with false.
    rewrite andb_false_r. cbn [andb].
    apply (final_plan_ok g all (mkArm Final bn absorbs _ _ 0 0 (trailing_literal g s)) s str); try done. by right.
Qed.

Lemma globstar_any ws : path_matches [Globstar] ws.
Proof. apply path_star_iff. exists (length ws). split; [done|]. rewrite drop_all. constructor. Qed.

Lemma prefix_tree_ok x y :
  segment_ok g x → seg_kind x = LiteralSegment → recursive y = true →
  starts_with str (trail_text g x) && ((length str =? length (trail_text g x)) || (str !!! length (trail_text g x) =?b slash)) = true ↔
  path_matches (segment_spec g <$> [x; y]) (split_path str).
Proof.
  intros Hx Hk Hy. assert (Hrx : recursive x = false) by (unfold recursive; by rewrite Hk).
  cbn [fmap list_fmap]. rewrite segment_spec_name, segment_spec_star by done. rewrite path_name_iff.
  destruct (segs_head str 0 ltac:(lia)) as (_ & _ & Eh). rewrite drop_0, Nat.sub_0_r in Eh. rewrite Eh.
  pose proof (literal_name str 0 (trail_text g x) ltac:(lia) (trail_slash g x Hwf)) as Hl. rewrite Nat.sub_0_r in Hl.
  set (text := trail_text g x) in *. cbn [Nat.add] in Hl.
  assert (Hs : (length text <=? length str) && ((length text =? length str) || (str !!! length text =?b slash)) && bool_decide (substr str 0 (length text) = text)
    = starts_with str text && ((length str =? length text) || (str !!! length text =?b slash))).
  { unfold starts_with, substr. rewrite drop_0, (Nat.eqb_sym (length str)). destruct (decide (take (length text) str = text)) as [E|E].
    - rewrite !bool_decide_true by done. apply (f_equal length) in E. rewrite length_take in E.
      rewrite (proj2 (Nat.leb_le _ _)) by lia. by rewrite andb_true_r.
    - rewrite !bool_decide_false by done. by rewrite andb_false_r. }
  rewrite Hs in Hl. rewrite Hl. split.
  - intros E. eexists _, _. split; [done|]. split; [by apply literal_iff|]. apply globstar_any.
  - intros (w & ws & [= <- _] & Hm & _). by apply literal_iff in Hm.
Qed.

Lemma directory_tree_ok x y z :
  recursive x = true → segment_ok g y → seg_kind y = LiteralSegment → segment_tokens g y ≠ [] → recursive z = true →
  is_Some (find_segment str 0 (trail_text g y !!! 0) (trail_text g y)) ↔ path_matches (segment_spec g <$> [x; y; z]) (split_path str).
Proof.
  intros Hx Hy Hk Hne Hz. assert (Hry : recursive y = false) by (unfold recursive; by rewrite Hk).
  cbn [fmap list_fmap]. rewrite (segment_spec_star g x), (segment_spec_name g y), (segment_spec_star g z), path_star_iff by done.
  setoid_rewrite path_name_iff. pose proof (trail_slash g y Hwf) as Hs. pose proof (λ w, literal_iff g y w Hwf Hy Hk) as Hl.
  assert (Htext : trail_text g y ≠ []).
  { pose proof Hy as (_ & _ & Hkind & _). rewrite Hk in Hkind. destruct Hkind as [?|(t & E & Ht)]; [done|]. unfold trail_text. rewrite E. cbn [last].
    rewrite decide_True by done. destruct (Hwf t) as (_ & Hok & _); [apply (segment_token_elem g y); rewrite E; left|].
    destruct (Hok Ht) as (cps & Hn & Hc & ->). destruct (spell_head cps Hn Hc) as (u & r & -> & _). done. }
  set (text := trail_text g y) in *.
  assert (Hcand : ∀ o, o ≤ length str → candidate str (text !!! 0) text o ↔ starts_segment str o = true ∧ substr str o (segment_end str o - o) = text).
  { intros o Ho. rewrite <- (literal_name str o text Ho Hs). unfold candidate.
    rewrite !andb_true_iff, orb_true_iff, Nat.leb_le, Nat.eqb_eq, byte_eqb_spec, bool_decide_eq_true. split.
    - intros (_ & H1 & H2 & [?|[H3 H4]]); done.
    - intros (H1 & (H2 & H3) & H4). split; [|split_and!; try done; by right]. destruct text as [|u r]; [done|].
      unfold substr in H4. assert (H5 : take (length (u :: r)) (drop o str) !! 0 = Some u) by (by rewrite H4).
      apply lookup_take_Some in H5 as [H5 _]. by rewrite lookup_drop, Nat.add_0_r in H5. }
  pose proof (find_segment_ok str 0 (text !!! 0) text) as Hf. split.
  - intros [o Eo]. rewrite Eo in Hf. destruct Hf as (_ & Hc & _). assert (Ho : o ≤ length str) by (destruct Hc as (_ & H & _); lia).
    apply (Hcand o Ho) in Hc as [Hst En]. destruct (segs_head str o Ho) as (_ & _ & Eh). rewrite En in Eh.
    assert (Hk' : ∃ k, k ≤ length (split_path str) ∧ drop k (split_path str) = split_path (drop o str)).
    { apply starts_segment_iff in Hst as [->|Hst]; [exists 0; split; [lia|done]|].
      destruct (decide (o = 0)) as [->|]; [exists 0; split; [lia|done]|].
      destruct (segs_suffix str 0 o ltac:(lia) Ho Hst) as (k & Hk1 & Ek). rewrite drop_0 in *. exists k. split; [lia|done]. }
    destruct Hk' as (k & Hk1 & Ek). exists k. split; [done|]. rewrite Ek, Eh. eexists _, _. split; [done|]. split; [by apply Hl|]. apply globstar_any.
  - intros (k & Hk1 & w & ws & Ew & Hm & _). apply Hl in Hm as ->.
    assert (Ho : ∃ o, o ≤ length str ∧ starts_segment str o = true ∧ split_path (drop o str) = drop k (split_path str)).
    { destruct (decide (k = 0)) as [->|]; [exists 0; split; [lia|done]|].
      assert (Hkl : 1 ≤ k < length (split_path (drop 0 str))).
      { split; [lia|]. apply (f_equal length) in Ew. rewrite length_drop in Ew. rewrite drop_0. cbn in Ew. lia. }
      destruct (segs_drop str 0 k ltac:(lia) Hkl) as (o & Ho & Hs' & Eo). exists o. split; [lia|]. split; [|done].
      apply starts_segment_iff. by right. }
    destruct Ho as (o & Ho & Hst & Eo). destruct (segs_head str o Ho) as (_ & _ & Eh). rewrite Eo, Ew in Eh. injection Eh as Eh _.
    destruct (find_segment str 0 (text !!! 0) text) as [o'|]; [done|]. exfalso. apply (Hf o); [lia|]. by apply Hcand.
Qed.

(** The text of a literal segment is its only token's, or empty. *)
Lemma head_literal s (t : option Token) :
  segment_ok g s → seg_kind s = LiteralSegment →
  t = (if seg_begin s =? seg_end s then None else Some (tokens g !!! seg_begin s)) →
  substr (literals g) (match t with Some t => token_begin t | None => 0 end) (match t with Some t => token_size t | None => 0 end)
  = trail_text g s.
Proof.
  intros Hs Hk ->. pose proof Hs as (_ & _ & Hkind & _). rewrite Hk in Hkind. unfold trail_text.
  destruct Hkind as [E|(u & E & Hu)]; rewrite E; cbn [last].
  - assert (recursive s = false) by (unfold recursive; by rewrite Hk).
    destruct (proj1 (empty_literal g s Hs ltac:(done)) E) as [_ ->]. by rewrite Nat.eqb_refl.
  - destruct (segment_first g s u [] Hs E) as [Hlt ->]. rewrite (proj2 (Nat.eqb_neq _ _)) by lia. by rewrite decide_True.
Qed.
End ArmHit.

(** Whatever its plan, an arm matches what its segments do. *)
Lemma arm_hit_ok g pre segs post absorbs str :
  pools_wf g → segs_ok g segs →
  arm_hit g (pre ++ segs ++ post) (make_arm g segs (length pre) absorbs) str = true ↔
  path_matches (segment_spec g <$> segs) (split_path str).
Proof.
  intros Hwf Hsegs. pose proof (general_plan_ok g pre segs post absorbs str Hwf Hsegs) as Hgen.
  pose proof (name_plans_ok g pre segs post absorbs str Hwf) as Hname.
  pose proof (arm_slice_lookup pre segs post) as Hlook. destruct Hsegs as [Hn Hok _ Hres]. unfold make_arm in *.
  destruct segs as [|x [|y [|z r]]]; [done| | |]; unfold choose_plan in *; rewrite ?Forall_cons in Hok.
  - destruct Hok as [Hx _]. change ([x] !!! 0) with x in *. change ([x] !!! (length [x] - 1)) with x in *.
    cbn [length Nat.eqb andb] in *. destruct (recursive x) eqn:Er; cbn [negb andb orb] in *; [exact Hgen|].
    specialize (Hname x false Hx Er ltac:(done)). cbn [andb] in Hname.
    cbn [fmap list_fmap]. rewrite segment_spec_name, path_one_iff by done.
    assert (Hl : (pre ++ [x] ++ post) !!! (length pre + 1 - 1) = x).
    { replace (length pre + 1 - 1) with (length pre + 0) by lia. by apply Hlook. }
    specialize (Hname Hl). unfold make_arm. destruct (if is_kind Affix x && _ then _ else _) as [pl hd]. rewrite Hname. naive_solver.
  - destruct Hok as (Hx & Hy & _). change ([x; y] !!! 0) with x in *. change ([x; y] !!! (length [x; y] - 1)) with y in *.
    cbn [length Nat.eqb andb] in *. destruct (recursive y) eqn:Ery; cbn [negb] in *.
    + rewrite !andb_true_r in *. destruct (is_kind LiteralSegment x) eqn:Ek; [|rewrite !andb_false_r in *; exact Hgen].
      unfold is_kind in Ek. apply bool_decide_eq_true in Ek. unfold arm_hit, head. cbn [plan head_begin head_size].
      rewrite (head_literal g x _ Hx Ek eq_refl). by apply prefix_tree_ok.
    + rewrite !andb_false_r in *. rewrite andb_true_r, !orb_false_r in *. destruct (recursive x) eqn:Erx; cbn [andb] in *; [|exact Hgen].
      assert (Htok : segment_tokens g y ≠ []).
      { destruct (Hres 0 x y eq_refl eq_refl Erx) as [?|?]; [congruence|done]. }
      specialize (Hname y true Hy Ery ltac:(done)). cbn [andb] in Hname.
      cbn [fmap list_fmap]. rewrite (segment_spec_star g x), (segment_spec_name g y), path_last_iff by done.
      assert (Hl : (pre ++ [x; y] ++ post) !!! (length pre + 2 - 1) = y).
      { replace (length pre + 2 - 1) with (length pre + 1) by lia. by apply Hlook. }
      specialize (Hname Hl). destruct (if is_kind Affix y && _ then _ else _) as [pl hd]. rewrite Hname. naive_solver.
  - destruct Hok as (Hx & Hy & Hz & _). change ((x :: y :: z :: r) !!! 0) with x in *. change ((x :: y :: z :: r) !!! 1) with y in *.
    set (last_ := (x :: y :: z :: r) !!! (length (x :: y :: z :: r) - 1)) in *. cbn [length Nat.eqb andb orb] in *.
    destruct r as [|u r]; cbn [length Nat.eqb andb] in *; [|exact Hgen]. change last_ with z in *.
    destruct (recursive x) eqn:Erx; cbn [andb] in *; [|exact Hgen]. destruct (is_kind LiteralSegment y) eqn:Ek; cbn [andb] in *; [|exact Hgen].
    destruct (recursive z) eqn:Erz; [|exact Hgen]. unfold is_kind in Ek. apply bool_decide_eq_true in Ek.
    assert (Htok : segment_tokens g y ≠ []).
    { destruct (Hres 0 x y eq_refl eq_refl Erx) as [Hr|?]; [|done]. unfold recursive in Hr. apply bool_decide_eq_true in Hr. congruence. }
    unfold arm_hit, head. cbn [plan head_begin head_size].
    assert (Ht : substr (literals g) (token_begin (tokens g !!! seg_begin y)) (token_size (tokens g !!! seg_begin y)) = trail_text g y).
    { apply (head_literal g y (Some (tokens g !!! seg_begin y)) Hy Ek). destruct (segment_tokens g y) as [|t ts] eqn:E; [done|].
      destruct (segment_first g y t ts Hy E) as [Hlt _]. by rewrite (proj2 (Nat.eqb_neq _ _)) by lia. }
    rewrite Ht, bool_decide_eq_true. by apply directory_tree_ok.
Qed.

(** ** Sets of extensions *)

(** A dot and what follows it, at most a word. *)
Definition is_extension (text : bytes) : bool :=
  (length text <=? 8) && starts_with text (lit ".") && negb (contains (drop 1 text) "."%byte).

(** A packed literal of at most eight bytes. *)
Definition packs (l : PackedLiteral) (text : bytes) : Prop :=
  lit_size l = length text ∧ word l = le_word (repeat x00 (8 - length text) ++ text) ∧
  mask l = le_word (repeat x00 (8 - length text) ++ repeat xff (length text)).

Lemma pack_literal_packs g t :
  token_kind t = TLiteral → token_in g t → token_size t ≤ 8 → packs (pack_literal g t) (literal g t).
Proof.
  intros Hk Hin Hs. unfold token_in in Hin. rewrite Hk in Hin.
  assert (Hlen : length (literal g t) = token_size t) by (unfold literal; rewrite length_substr; lia).
  unfold pack_literal, packs. rewrite (proj2 (Nat.leb_le (token_size t) 16)) by lia. cbn [lit_size word mask]. rewrite Hlen.
  unfold packed_value, packed_mask. rewrite Hlen. replace (16 - token_size t) with (8 + (8 - token_size t)) by lia.
  rewrite !repeat_app, <- !app_assoc. done.
Qed.

(** The word of the input's end under an extension's mask is its extension's. *)
Lemma tail_word_mask l text str ext :
  packs l text → length text ≤ 8 → length ext = length text → (∃ pre, str = pre ++ ext) →
  Z.land (tail_word str) (mask l) = le_word (repeat x00 (8 - length ext) ++ ext).
Proof.
  intros (_ & _ & ->) Ht He [pre ->]. rewrite <- He.
  assert (Hw : ∃ u, length u = 8 - length ext ∧ tail_word (pre ++ ext) = le_word (u ++ ext)).
  { unfold tail_word, last_word. rewrite length_app. destruct (Nat.leb_spec 8 (length pre + length ext)).
    - exists (drop (length pre + length ext - 8) pre). rewrite length_drop. split; [lia|]. f_equal. apply drop_app_le. lia.
    - exists (repeat x00 (8 - (length pre + length ext)) ++ pre). rewrite length_app, repeat_length. split; [lia|]. by rewrite app_assoc. }
  destruct Hw as (u & Hu & ->). rewrite land_le_word by (rewrite !length_app, !repeat_length; lia).
  rewrite <- Hu, mask_bytes_app by (by rewrite repeat_length). by rewrite mask_zeros, mask_ones.
Qed.

Definition arm_key (a : Arm) : nat * Z := (lit_size (arm_literal a), word (arm_literal a)).

(** [std::pair]'s order. *)
Definition key_lt (a b : nat * Z) : bool := (a.1 <? b.1) || ((a.1 =? b.1) && (a.2 <? b.2)%Z).
Definition key_sorted (l : list Arm) : Prop := ∀ i j a b, i ≤ j → l !! i = Some a → l !! j = Some b → key_lt (arm_key b) (arm_key a) = false.

Lemma key_lt_trans a b c : key_lt b a = false → key_lt c b = false → key_lt c a = false.
Proof.
  unfold key_lt. rewrite !orb_false_iff, !andb_false_iff, !Nat.ltb_ge, !Z.ltb_ge, !Nat.eqb_neq. lia.
Qed.

Lemma search_extensions_ok fuel arms len w W first last_ :
  last_ - first < fuel → last_ ≤ length arms → key_sorted arms →
  (∀ a, a ∈ arms → lit_size (arm_literal a) = len → Z.land w (mask (arm_literal a)) = W) →
  search_extensions fuel arms len w first last_ = true ↔
  ∃ i a, first ≤ i < last_ ∧ arms !! i = Some a ∧ arm_key a = (len, W).
Proof.
  intros Hf Hl Hs Hw. revert first last_ Hf Hl. induction fuel as [|fuel IH]; intros first last_ Hf Hl; [lia|].
  cbn [search_extensions]. destruct (Nat.ltb_spec first last_) as [Hlt|Hge].
  2:{ split; [done|]. intros (i & a & Hi & _). lia. }
  set (middle := first + (last_ - first) / 2).
  assert (Hm : first ≤ middle < last_) by (unfold middle; pose proof (Nat.div_lt (last_ - first) 2); lia).
  destruct (lookup_lt_is_Some_2 arms middle) as [m Em]; [lia|]. rewrite list_lookup_total_alt, Em. cbn [default from_option id].
  assert (Hin : m ∈ arms) by (by apply list_elem_of_lookup_2 in Em).
  assert (Hcmp : (len =? lit_size (arm_literal m)) && (Z.land w (mask (arm_literal m)) =? word (arm_literal m))%Z = bool_decide (arm_key m = (len, W))
    ∧ (len <? lit_size (arm_literal m)) || ((len =? lit_size (arm_literal m)) && (Z.land w (mask (arm_literal m)) <? word (arm_literal m))%Z)
      = key_lt (len, W) (arm_key m)).
  { unfold key_lt, arm_key. cbn [fst snd]. destruct (Nat.eqb_spec len (lit_size (arm_literal m))) as [E|E]; cbn [andb].
    - rewrite (Hw m Hin (eq_sym E)). split; [|done]. destruct (Z.eqb_spec W (word (arm_literal m))) as [->|Hne].
      + by rewrite E, bool_decide_true. + rewrite bool_decide_false; [done|]. by intros [= _ ?].
    - rewrite bool_decide_false; [done|]. intros [= ? _]. done. }
  destruct Hcmp as [-> ->]. destruct (decide (arm_key m = (len, W))) as [E|E].
  { rewrite bool_decide_true by done. split; [|done]. intros _. by exists middle, m. }
  rewrite bool_decide_false by done. destruct (key_lt (len, W) (arm_key m)) eqn:Ek.
  - rewrite IH by lia. split; intros (i & a & Hi & Ea & Hk); exists i, a; (split; [|done]); [lia|].
    split; [lia|]. destruct (decide (i < middle)); [done|]. exfalso.
    specialize (Hs middle i m a ltac:(lia) Em Ea). rewrite Hk in Hs. congruence.
  - rewrite IH by lia. split; intros (i & a & Hi & Ea & Hk); exists i, a; (split; [|done]); [lia|].
    split; [|lia]. destruct (decide (middle < i)); [lia|]. exfalso.
    specialize (Hs i middle a m ltac:(lia) Ea Em). rewrite Hk in Hs. apply E.
    unfold key_lt, arm_key in *. cbn [fst snd] in *. rewrite !orb_false_iff, !andb_false_iff, !Nat.ltb_ge, !Z.ltb_ge, !Nat.eqb_neq in *.
    f_equal; lia.
Qed.

(** Searching the sorted set is asking every arm. *)
Lemma match_extension_set_ok g arms str :
  key_sorted arms →
  (∀ a, a ∈ arms → ∃ text, is_extension text = true ∧ packs (arm_literal a) text ∧ ∀ s, literal_matches g a s = ends_with s text) →
  match_extension_set arms str = existsb (λ a, literal_matches g a str) arms.
Proof.
  intros Hs Hall. apply eq_true_iff_eq. rewrite existsb_exists. setoid_rewrite <- list_elem_of_In.
  assert (Htext : ∀ text, is_extension text = true → length text ≤ 8 ∧ ∃ r, text = "."%byte :: r ∧ "."%byte ∉ r).
  { unfold is_extension. intros text. rewrite !andb_true_iff, Nat.leb_le, negb_true_iff, <- not_true_iff_false, contains_spec, starts_with_iff.
    intros [[Hl Hd] Hn]. split; [done|]. destruct text as [|c r]; [done|]. cbn in Hd. simplify_eq. by exists r. }
  assert (Hlast : ∀ pre r, "."%byte ∉ r → find_last (λ c, c =?b "."%byte) (pre ++ "."%byte :: r) = Some (length pre)).
  { intros pre r Hr. assert (Hnone : find_last (λ c, c =?b "."%byte) r = None).
    { clear -Hr. induction r as [|c r IH]; [done|]. apply not_elem_of_cons in Hr as [Hc Hr]. cbn. rewrite (IH Hr).
      by rewrite (proj2 (byte_eqb_neq c "."%byte)). }
    induction pre as [|c pre IH]; cbn [app find_last length]; [by rewrite Hnone|by rewrite IH]. }
  unfold match_extension_set. destruct (find_last (λ c, c =?b "."%byte) str) as [dot|] eqn:Ed.
  - set (ext := drop dot str).
    assert (Hends : ∀ text, is_extension text = true → ends_with str text = true ↔ text = ext).
    { intros text Ht. destruct (Htext text Ht) as (_ & r & -> & Hr). rewrite ends_with_iff. split.
      - intros [pre E]. subst str. rewrite Hlast in Ed by done. injection Ed as <-. unfold ext. by rewrite drop_app_length.
      - intros ->. exists (take dot str). unfold ext. by rewrite take_drop. }
    assert (Hle : dot ≤ length str).
    { clear -Ed. revert dot Ed. induction str as [|c s IH]; intros dot Ed; [done|]. cbn in Ed. destruct (find_last _ s) as [i|]; [|destruct (c =?b "."%byte); [simplify_eq; cbn; lia|done]].
      simplify_eq. specialize (IH i eq_refl). cbn. lia. }
    assert (Hel : length ext = length str - dot) by (unfold ext; by rewrite length_drop).
    destruct (Nat.ltb_spec 8 (length str - dot)) as [H8|H8].
    + split; [done|]. intros (a & Ha & Hm). destruct (Hall a Ha) as (text & Ht & _ & Hlm). rewrite Hlm, (Hends text Ht) in Hm.
      destruct (Htext text Ht) as [Hl _]. subst text. lia.
    + rewrite <- Hel. rewrite (search_extensions_ok _ _ _ _ (le_word (repeat x00 (8 - length ext) ++ ext))); [|lia|lia|done|].
      2:{ intros a Ha Hsz. destruct (Hall a Ha) as (text & Ht & Hp & _). destruct (Htext text Ht) as [Hl _]. pose proof Hp as (Hps & _).
          apply (tail_word_mask _ text); [done|done|congruence|]. exists (take dot str). unfold ext. by rewrite take_drop. }
      split.
      * intros (i & a & Hi & Ea & Hk). exists a. assert (Ha : a ∈ arms) by (by apply list_elem_of_lookup_2 in Ea). split; [done|].
        destruct (Hall a Ha) as (text & Ht & (Hp1 & Hp2 & _) & ->). apply (Hends text Ht). unfold arm_key in Hk. rewrite Hp1, Hp2 in Hk.
        injection Hk as Hk1 Hk2. rewrite <- Hk1 in Hk2. apply le_word_inj in Hk2; [|rewrite !length_app; lia]. by apply app_inv_head in Hk2.
      * intros (a & Ha & Hm). destruct (Hall a Ha) as (text & Ht & (Hp1 & Hp2 & _) & Hlm). rewrite Hlm, (Hends text Ht) in Hm. subst text.
        apply list_elem_of_lookup in Ha as [i Ea]. exists i, a. split; [apply lookup_lt_Some in Ea; lia|]. split; [done|]. unfold arm_key. by rewrite Hp1, Hp2.
  - split; [done|]. intros (a & Ha & Hm). destruct (Hall a Ha) as (text & Ht & _ & Hlm). rewrite Hlm in Hm.
    destruct (Htext text Ht) as (_ & r & -> & Hr). apply ends_with_iff in Hm as [pre ->]. by rewrite Hlast in Ed.
Qed.
