(* ===== verification/GlobCreate.v ===== *)
(** Creating a pattern: brace expressions, the arms they expand to and
    [GlobPattern::create], of src/support/glob_pattern.cpp.

    A view of the pattern is where it starts and how long it is.  Offsets are
    [nat]; the source keeps 32 bits of them, and asserts that is enough.
    [arm_count] is kept at the width of [size_t], for its overflow test. *)

From Stdlib Require Import Strings.Byte ZArith Lia Bool Sorting.Permutation.
From stdpp Require Import prelude strings.
From S2P Require Import Prelude Swar Utf8 Glob GlobMatch GlobExec GlobSyntax GlobCompile GlobPlan.
Local Open Scope kota_scope.
Local Open Scope nat_scope.

(** ** Brace expressions *)

Record View := mkView { view_begin : nat; view_size : nat }.

Definition view_text (pattern : bytes) (v : View) : bytes := substr pattern (view_begin v) (view_size v).

Record Brace := mkBrace { brace_begin : nat; brace_end : nat; terms : list View }.

#[export] Instance view_inhabited : Inhabited View := populate (mkView 0 0).

(** The loop of [parse_braces].  [open_] is where the brace that is open began
    and the terms it has so far; the source keeps it last in [braces]. *)
Fixpoint braces_from (fuel : nat) (pattern : bytes) (i : nat) (braces : list Brace) (open_ : option (nat * list View))
  (term_begin : nat) : expected (list Brace) GlobError :=
  match fuel with
  | O => Ok braces
  | S fuel' =>
      if i =? length pattern then
        match open_ with
        | Some (begin, _) => Err (mkGlobError IncompleteBrace begin (begin + 1) (lit "incomplete brace expansion"))
        | None => Ok braces
        end
      else
        let c := pattern !!! i in
        if c =?b "["%byte then
          try close := scan_bracket pattern i in braces_from fuel' pattern (close + 1) braces open_ term_begin
        else if c =?b "{"%byte then
          match open_ with
          | Some _ => Err (mkGlobError NestedBrace i (i + 1) (lit "nested brace expansions are not supported"))
          | None => braces_from fuel' pattern (i + 1) braces (Some (i, [])) (i + 1)
          end
        else if c =?b ","%byte then
          match open_ with
          | None => braces_from fuel' pattern (i + 1) braces open_ term_begin
          | Some (begin, ts) =>
              braces_from fuel' pattern (i + 1) braces (Some (begin, ts ++ [mkView term_begin (i - term_begin)])) (i + 1)
          end
        else if c =?b "}"%byte then
          match open_ with
          | None => braces_from fuel' pattern (i + 1) braces open_ term_begin
          | Some (begin, ts) =>
              if bool_decide (ts = []) && (i =? term_begin) then
                Err (mkGlobError EmptyBrace begin (i + 1) (lit "empty brace expression"))
              else
                braces_from fuel' pattern (i + 1)
                  (braces ++ [mkBrace begin (i + 1) (ts ++ [mkView term_begin (i - term_begin)])]) None term_begin
          end
        else if c =?b backslash then
          if i + 1 =? length pattern then Err (mkGlobError StrayBackslash i (i + 1) (lit "stray `\`"))
          else braces_from fuel' pattern (i + 2) braces open_ term_begin
        else braces_from fuel' pattern (i + 1) braces open_ term_begin
  end.

Definition parse_braces (pattern : bytes) (from : nat) : expected (list Brace) GlobError :=
  braces_from (S (length pattern)) pattern from [] None 0.

(** ** The text of an arm *)

(** [ArmText::build]: the pieces of the pattern the arm is made of, from
    [cursor] on. *)
Fixpoint arm_pieces (pattern : bytes) (cursor : nat) (braces : list Brace) (choice : list nat) : list View :=
  match braces, choice with
  | b :: braces', k :: choice' =>
      mkView cursor (brace_begin b - cursor) :: terms b !!! k :: arm_pieces pattern (brace_end b) braces' choice'
  | _, _ => [mkView cursor (length pattern - cursor)]
  end.

Definition arm_text (pattern : bytes) (pieces : list View) : bytes := mjoin (view_text pattern <$> pieces).

(** [ArmText::origin]; callers give an offset inside the arm. *)
Fixpoint origin (pieces : list View) (offset : nat) : nat :=
  match pieces with
  | [] => 0
  | v :: pieces' => if offset <? view_size v then view_begin v + offset else origin pieces' (offset - view_size v)
  end.

(** [ArmText::rebase]. *)
Definition rebase (pieces : list View) (e : GlobError) : GlobError :=
  mkGlobError (error_kind e) (origin pieces (error_begin e)) (origin pieces (error_end e - 1) + 1) (message e).

(** [next_choice], on the choice and the numbers of terms from the last brace
    on: the next choice, and whether there is one. *)
Fixpoint next_choice_from (choice counts : list nat) : list nat * bool :=
  match choice, counts with
  | c :: choice', n :: counts' =>
      if negb (c + 1 =? n) then (c + 1 :: choice', true)
      else let '(rest, more) := next_choice_from choice' counts' in (0 :: rest, more)
  | _, _ => ([], false)
  end.

Definition next_choice (choice : list nat) (braces : list Brace) : list nat * bool :=
  let '(r, more) := next_choice_from (reverse choice) (reverse ((λ b, length (terms b)) <$> braces)) in (reverse r, more).

(** ** [create] *)

Definition size_max : Z := 2 ^ 64 - 1.

(** How many arms there are, or more than [size_t] holds. *)
Fixpoint count_arms (count : Z) (braces : list Brace) : Z :=
  match braces with
  | [] => count
  | b :: braces' =>
      let n := Z.of_nat (length (terms b)) in
      if (size_max / n <? count)%Z then size_max else count_arms (count * n) braces'
  end.

(** The loop over the arms. *)
Fixpoint compile_arms (fuel : nat) (s : bytes) (from : nat) (braces : list Brace) (at_seg_end at_segment_start root : bool)
  (choice : list nat) (prog : Program) (match_all : bool) : expected (Program * bool) GlobError :=
  match fuel with
  | O => Ok (prog, match_all)
  | S fuel' =>
      let pieces := arm_pieces s from braces choice in
      let text := arm_text s pieces in
      if at_seg_end && starts_with text (lit "/") then
        Err (mkGlobError MultipleSlash (from - 1) (origin pieces 0 + 1) (lit "multiple `/` is not allowed"))
      else
        match compile_arm text at_segment_start prog with
        | Err e => Err (rebase pieces e)
        | Ok prog' =>
            let match_all := match_all || (root && (bool_decide (text = lit "**") || bool_decide (text = lit "**/"))) in
            let '(choice', more) := next_choice choice braces in
            if more then compile_arms fuel' s from braces at_seg_end at_segment_start root choice' prog' match_all
            else Ok (prog', match_all)
        end
  end.

(** Two separators in a row, from [i] on. *)
Fixpoint double_slash (s : bytes) (i : nat) : option nat :=
  match s with
  | a :: (b :: _) as s' => if (b =?b slash) && (a =?b slash) then Some i else double_slash s' (i + 1)
  | _ => None
  end.

(** [std::ranges::sort] of the arms by their literals. *)
Fixpoint insert_arm (a : Arm) (l : list Arm) : list Arm :=
  match l with
  | [] => [a]
  | x :: l' => if key_lt (arm_key x) (arm_key a) then x :: insert_arm a l' else a :: l
  end.
Definition sort_arms (l : list Arm) : list Arm := foldr insert_arm [] l.

(** The mode, and whether the arms are to be sorted for it. *)
Definition choose_mode (prog : Program) (at_seg_end root match_all : bool) : Mode :=
  let arm := arms prog !!! 0 in
  let one := length (arms prog) =? 1 in
  let all_ p := forallb (λ a, bool_decide (plan a = p)) (arms prog) in
  if match_all then AnyMode
  else if one && at_seg_end && (arm_end arm =? arm_begin arm + 1) && recursive (segments prog !!! arm_begin arm) then PrefixTreeMode
  else if one && root && bool_decide (plan arm = Suffix) then SuffixMode
  else if one && root && bool_decide (plan arm = PathSuffix) then PathSuffixMode
  else if one && root && bool_decide (plan arm = SegmentSuffix) then SegmentSuffixMode
  else if all_ Suffix then
    if (16 <=? length (arms prog))
       && forallb (λ a, is_extension (substr (literals (pools prog)) (lit_begin (arm_literal a)) (lit_size (arm_literal a)))) (arms prog)
    then ExtensionArms else SuffixArms
  else if all_ SegmentSuffix then SegmentSuffixArms
  else ArmsMode.

Definition no_program : Program := mkProgram (mkPools [] [] []) [] [].

(** What [create] has read of the pattern before it expands braces: the
    prefix, whether it ends a segment, and where the arms start. *)
Definition finish (s : bytes) (max_arms : Z) (text : bytes) (from : nat) : expected GlobPattern GlobError :=
  let at_seg_end := bool_decide (last text = Some slash) in
  let text := if at_seg_end then take (length text - 1) text else text in
  try braces :=
    (if negb (max_arms =? 0)%Z && contains (drop from s) "{"%byte then parse_braces s from else Ok []) in
  if (max_arms <? count_arms 1 braces)%Z && negb (max_arms =? 0)%Z then
    Err (mkGlobError TooManyExpansions 0 0 (lit "too many brace expansions"))
  else
    let root := bool_decide (text = []) && negb at_seg_end in
    let at_segment_start := bool_decide (text = []) || at_seg_end in
    try r := compile_arms (Z.to_nat (count_arms 1 braces)) s from braces at_seg_end at_segment_start root
      (replicate (length braces) 0) no_program false in
    let prog := r.1 in
    let mode := choose_mode prog at_seg_end root r.2 in
    let prog := if bool_decide (mode = ExtensionArms) then mkProgram (pools prog) (segments prog) (sort_arms (arms prog)) else prog in
    Ok (mkPattern text at_seg_end mode prog).

Definition create (s : bytes) (max_arms : Z) : expected GlobPattern GlobError :=
  match find_invalid_utf8 s with
  | Some pos => Err (mkGlobError InvalidUTF8 pos (pos + 1) (lit "pattern is not valid UTF-8"))
  | None =>
      let h := literal_head s in
      let size := head_end h in
      if (size <? length s) && (s !!! size =?b backslash) then
        if size + 1 =? length s then Err (mkGlobError StrayBackslash size (size + 1) (lit "stray `\`"))
        else Err (mkGlobError InvalidEscape size (size + 2) (lit "`/` cannot be escaped"))
      else
        match double_slash (take size s) 0 with
        | Some i => Err (mkGlobError MultipleSlash i (i + 2) (lit "multiple `/` is not allowed"))
        | None =>
            if size =? length s then Ok (mkPattern (head_text h) false LiteralMode no_program)
            else finish s max_arms (head_text h) size
        end
  end.

Definition try_match (pattern path : bytes) : option bool :=
  match create pattern 100 with Ok p => Some (glob_match p path) | Err _ => None end.

Example create_demo :
  try_match (lit "src/**/*.{c,h}pp") (lit "src/a/b.hpp") = Some true ∧
  try_match (lit "src/**/*.{c,h}pp") (lit "src/b.cpp") = Some true ∧
  try_match (lit "src/**") (lit "src") = Some true ∧
  try_match (lit "src/**/x") (lit "src") = Some false ∧
  try_match (lit "a//b") (lit "a") = None ∧
  try_match (lit "{a,b/{c}") (lit "a") = None.
Proof. vm_compute. done. Qed.
