(* ===== verification/GlobArms.v ===== *)
(** The arms of a pattern, as they are compiled one after another: what each
    stands for, and that compiling more of them changes none. *)

From Stdlib Require Import Strings.Byte ZArith Lia Bool Sorting.Permutation.
From stdpp Require Import prelude strings.
From S2P Require Import Prelude Swar Utf8 Glob GlobMatch GlobExec GlobSyntax GlobCompile GlobPlan GlobCreate.
Local Open Scope kota_scope.
Local Open Scope nat_scope.

(** ** Programs that grow *)

Record prog_extends (a b : Program) : Prop := {
  pe_pools : extends_all (pools a) (pools b);
  pe_segments : ∃ l, segments b = segments a ++ l;
}.

Lemma prog_extends_refl a : prog_extends a a.
Proof. split; [apply extends_all_refl|]. exists []. by rewrite app_nil_r. Qed.

Lemma prog_extends_trans a b c : prog_extends a b → prog_extends b c → prog_extends a c.
Proof.
  intros [H1 [l1 E1]] [H2 [l2 E2]]. split; [by apply (extends_all_trans _ (pools b))|]. exists (l1 ++ l2). by rewrite E2, E1, app_assoc.
Qed.

Lemma flags_ok_extends g g' l :
  extends_all g g' → Forall (segment_ok g) l → flags_ok g l → flags_ok g' l.
Proof.
  intros He Hok. induction Hok as [|s l Hs _ IH]; [done|]. intros (Hf & Ho & Hn). cbn [flags_ok]. split; [by apply IH|]. split; [done|].
  destruct Hs as (H1 & H2 & _). by rewrite (segment_tokens_extends g g').
Qed.

Lemma segs_ok_extends g g' segs : pools_wf g → extends_all g g' → segs_ok g segs → segs_ok g' segs.
Proof.
  intros Hwf He [Hn Hok Hf Hr]. split; [done| |by apply (flags_ok_extends g)|].
  - eapply Forall_impl; [exact Hok|]. intros s Hs. by apply (segment_ok_extends g).
  - intros i s s' Hs Hs' Hrec. destruct (Hr i s s' Hs Hs' Hrec) as [?|Hne]; [by left|right].
    rewrite Forall_forall in Hok. destruct (Hok s') as (H1 & H2 & _); [by apply list_elem_of_lookup_2 in Hs'|].
    by rewrite (segment_tokens_extends g g').
Qed.

Lemma tokens_extends g g' i : extends_all g g' → i < length (tokens g) → tokens g' !!! i = tokens g !!! i.
Proof. intros [_ [l ->]] H. by apply lookup_total_app_l. Qed.

Lemma pack_literal_extends g g' t :
  extends g g' → token_kind t = TLiteral → token_in g t → pack_literal g' t = pack_literal g t.
Proof. intros He Hk Hin. unfold pack_literal. by rewrite (literal_extends g g'). Qed.

Lemma trailing_literal_extends g g' s :
  pools_wf g → extends_all g g' → segment_ok g s → trailing_literal g' s = trailing_literal g s.
Proof.
  intros Hwf He (H1 & H2 & _). unfold trailing_literal. destruct (Nat.eqb_spec (seg_begin s) (seg_end s)) as [_|Hne].
  { by rewrite !andb_false_r. }
  rewrite (tokens_extends g g' (seg_end s - 1)) by (done || lia). destruct (negb (recursive s)); [|done]. cbn [negb andb].
  destruct (bool_decide _) eqn:Ek; [|done]. apply bool_decide_eq_true in Ek. apply pack_literal_extends; [apply He|done|].
  apply Hwf. apply list_elem_of_lookup_2 with (seg_end s - 1). apply list_lookup_lookup_total_lt. lia.
Qed.

Lemma segment_in segs g i : segs_ok g segs → i < length segs → segment_ok g (segs !!! i).
Proof.
  intros [_ Hok _ _] Hi. rewrite Forall_forall in Hok. apply Hok. apply list_elem_of_lookup_2 with i.
  by apply list_lookup_lookup_total_lt.
Qed.

Lemma choose_plan_extends g g' segs :
  extends_all g g' → segs_ok g segs → choose_plan g' segs = choose_plan g segs.
Proof.
  intros He Hs. assert (Hl : 0 < length segs) by (destruct Hs as [Hn _ _ _]; destruct segs; [done|cbn; lia]).
  assert (Haff : ∀ s, segment_ok g s → is_kind Affix s = true → tokens g' !!! seg_begin s = tokens g !!! seg_begin s).
  { intros s (H1 & H2 & Hk & _) E. unfold is_kind in E. apply bool_decide_eq_true in E. rewrite E in Hk. destruct Hk as (h & t & Et & _).
    apply tokens_extends; [done|]. apply (f_equal length) in Et. unfold segment_tokens in Et. rewrite length_take, length_drop in Et.
    unfold affix_tokens in Et. rewrite !length_app in Et. cbn in Et. lia. }
  pose proof (segment_in segs g 0 Hs Hl) as H0. pose proof (segment_in segs g (length segs - 1) Hs ltac:(lia)) as Hlast.
  unfold choose_plan. set (first_ := segs !!! 0) in *. set (last_ := segs !!! (length segs - 1)) in *.
  destruct ((length segs =? 2) && is_kind LiteralSegment first_ && recursive last_).
  { destruct (Nat.eqb_spec (seg_begin first_) (seg_end first_)); [done|]. rewrite tokens_extends with (g := g); [done|done|].
    destruct H0 as (H1 & H2 & _). lia. }
  destruct ((length segs =? 3) && recursive first_ && is_kind LiteralSegment (segs !!! 1) && recursive last_) eqn:Ed.
  { rewrite !andb_true_iff, Nat.eqb_eq in Ed. destruct Ed as [[[E3 Er] Ek] _]. rewrite tokens_extends with (g := g); [done|done|].
    pose proof (segment_in segs g 1 Hs ltac:(lia)) as (H1 & H2 & _).
    destruct Hs as [_ _ _ Hres]. destruct (Hres 0 first_ (segs !!! 1)) as [Hr1|Hne]; try done.
    - apply list_lookup_lookup_total_lt. lia. - apply list_lookup_lookup_total_lt. lia.
    - unfold recursive, is_kind in *. apply bool_decide_eq_true in Hr1. apply bool_decide_eq_true in Ek. congruence.
    - destruct (segment_tokens g (segs !!! 1)) as [|t ts] eqn:E; [done|]. apply (f_equal length) in E. unfold segment_tokens in E.
      rewrite length_take, length_drop in E. cbn in E. lia. }
  destruct (is_kind Affix last_) eqn:Ea; [|done]. by rewrite (Haff last_ Hlast Ea).
Qed.

Lemma make_arm_extends g g' segs b absorbs :
  pools_wf g → extends_all g g' → segs_ok g segs → make_arm g' segs b absorbs = make_arm g segs b absorbs.
Proof.
  intros Hwf He Hs. assert (Hlast : segment_ok g (segs !!! (length segs - 1))).
  { apply segment_in; [done|]. destruct Hs as [Hn _ _ _]. destruct segs; [done|cbn; lia]. }
  unfold make_arm. by rewrite (choose_plan_extends g g'), (trailing_literal_extends g g').
Qed.

(** ** What an arm stands for *)

(** The arm's segments are among the program's, and mean what the reader reads
    in its text. *)
Definition arm_entry (prog : Program) (at_start : bool) (a : Arm) (p : list Z) : Prop :=
  ∃ pre segs post absorbs l,
    segments prog = pre ++ segs ++ post ∧ a = make_arm (pools prog) segs (length pre) absorbs ∧
    segs_ok (pools prog) segs ∧ read_pattern at_start p = Some l ∧
    segs_equiv (segment_spec (pools prog) <$> segs) l ∧ (absorbs = true ↔ path_matches l []).

Lemma arm_entry_extends prog prog' at_start a p :
  pools_wf (pools prog) → prog_extends prog prog' → arm_entry prog at_start a p → arm_entry prog' at_start a p.
Proof.
  intros Hwf [He [m Em]] (pre & segs & post & absorbs & l & Hall & -> & Hok & Hread & Heq & Habs).
  exists pre, segs, (post ++ m), absorbs, l. split; [by rewrite Em, Hall, <- !app_assoc|].
  split; [by rewrite (make_arm_extends (pools prog) (pools prog'))|]. split; [by apply (segs_ok_extends (pools prog))|].
  split; [done|]. split; [|done].
  rewrite (list_fmap_ext (segment_spec (pools prog')) (segment_spec (pools prog))); [done|].
  intros i s Hs. apply segment_spec_extends; [done|done|]. destruct Hok as [_ Hok _ _]. rewrite Forall_forall in Hok.
  apply Hok. by apply list_elem_of_lookup_2 in Hs.
Qed.

(** An arm's plan answers for its text. *)
Lemma arm_entry_hit prog at_start a p str :
  pools_wf (pools prog) → arm_entry prog at_start a p →
  ∃ l, read_pattern at_start p = Some l ∧
    (arm_hit (pools prog) (segments prog) a str = true ↔ path_matches l (split_path str)) ∧
    (absorbs_separator a = true ↔ path_matches l []).
Proof.
  intros Hwf (pre & segs & post & absorbs & l & Hall & -> & Hok & Hread & Heq & Habs). exists l. split; [done|]. split.
  - rewrite Hall, arm_hit_ok by done. by rewrite Heq.
  - rewrite <- Habs. unfold make_arm. by destruct (choose_plan _ _).
Qed.

(** Compiling one more arm. *)
Lemma compile_arm_entry p (at_start : bool) prog :
  pools_wf (pools prog) → scalars p →
  match read_pattern at_start p with
  | None => ∃ e, compile_arm (spell p) at_start prog = Err e
  | Some _ => ∃ prog' a, compile_arm (spell p) at_start prog = Ok prog' ∧ prog_extends prog prog' ∧
      pools_wf (pools prog') ∧ arms prog' = arms prog ++ [a] ∧ arm_entry prog' at_start a p
  end.
Proof.
  intros Hwf Hp. pose proof (compile_arm_ok p at_start prog Hwf Hp) as H. destruct (read_pattern at_start p) as [l|] eqn:El; [|done].
  destruct H as (g & segs & absorbs & -> & He & Hwf' & Hok & Heq & Habs).
  eexists _, (make_arm g segs (length (segments prog)) absorbs). split; [done|]. split; [split; [done|by eexists]|]. split; [done|]. split; [done|].
  exists (segments prog), segs, [], absorbs, l. rewrite app_nil_r. done.
Qed.

(** ** Choices *)

Definition counts (braces : list Brace) : list nat := (λ b, length (terms b)) <$> braces.

(** A term of every brace. *)
Definition choice_ok (braces : list Brace) (choice : list nat) : Prop := Forall2 lt choice (counts braces).

(** Choices as numbers, the first of a reversed list changing fastest. *)
Fixpoint rank (c n : list nat) : nat :=
  match c, n with x :: c', m :: n' => x + m * rank c' n' | _, _ => 0 end.
Definition total_ (n : list nat) : nat := foldr Nat.mul 1 n.

Lemma rank_lt c n : Forall2 lt c n → rank c n < total_ n.
Proof. induction 1 as [|x m c n Hx _ IH]; cbn [rank total_ foldr]; [lia|]. fold (total_ n). nia. Qed.

Lemma rank_inj c c' n : Forall2 lt c n → Forall2 lt c' n → rank c n = rank c' n → c = c'.
Proof.
  intros H. revert c'. induction H as [|x m c n Hx _ IH]; intros c' H' E; inversion H' as [|y ? k ? Hy Hk]; subst; [done|].
  cbn [rank] in E. assert (x = y ∧ rank c n = rank k n) as [-> Er].
  { assert (rank c n = rank k n) by (destruct (Nat.lt_trichotomy (rank c n) (rank k n)) as [?|[?|?]]; nia). nia. }
  f_equal. by apply IH.
Qed.

Lemma next_from_ok c n :
  Forall2 lt c n →
  let '(r, more) := next_choice_from c n in
  if more then Forall2 lt r n ∧ rank r n = rank c n + 1 else rank c n + 1 = total_ n.
Proof.
  induction 1 as [|x m c n Hx Hc IH]; [done|]. cbn [next_choice_from rank total_ foldr]. fold (total_ n).
  destruct (Nat.eqb_spec (x + 1) m) as [E|E]; cbn [negb].
  - destruct (next_choice_from c n) as [r more]. destruct more.
    + destruct IH as [H1 H2]. split; [constructor; [lia|done]|]. cbn [rank]. rewrite H2. nia.
    + nia.
  - split; [constructor; [lia|done]|]. cbn [rank]. lia.
Qed.

Definition choice_rank (braces : list Brace) (choice : list nat) : nat := rank (reverse choice) (reverse (counts braces)).
Definition choice_total (braces : list Brace) : nat := total_ (reverse (counts braces)).

Lemma choice_ok_reverse braces choice : choice_ok braces choice ↔ Forall2 lt (reverse choice) (reverse (counts braces)).
Proof.
  unfold choice_ok. split; [apply Forall2_reverse|]. intros H%Forall2_reverse. by rewrite !reverse_involutive in H.
Qed.

(** [next_choice] goes through the choices in order, and stops at the last. *)
Lemma next_choice_ok braces choice :
  choice_ok braces choice →
  let '(r, more) := next_choice choice braces in
  if more then choice_ok braces r ∧ choice_rank braces r = choice_rank braces choice + 1
  else choice_rank braces choice + 1 = choice_total braces.
Proof.
  intros H%choice_ok_reverse. unfold next_choice. fold (counts braces). pose proof (next_from_ok _ _ H) as Hn.
  destruct (next_choice_from _ _) as [r more]. destruct more; [|done]. destruct Hn as [H1 H2].
  unfold choice_rank. rewrite choice_ok_reverse, reverse_involutive. done.
Qed.

Lemma choice_rank_lt braces choice : choice_ok braces choice → choice_rank braces choice < choice_total braces.
Proof. intros H%choice_ok_reverse. by apply rank_lt. Qed.

Lemma choice_rank_inj braces c c' :
  choice_ok braces c → choice_ok braces c' → choice_rank braces c = choice_rank braces c' → c = c'.
Proof.
  intros H%choice_ok_reverse H'%choice_ok_reverse E.
  apply (rank_inj _ _ _ H H') in E. rewrite <- (reverse_involutive c), E. apply reverse_involutive.
Qed.

Lemma first_choice braces :
  Forall (λ b, terms b ≠ []) braces →
  choice_ok braces (replicate (length braces) 0) ∧ choice_rank braces (replicate (length braces) 0) = 0.
Proof.
  intros H. assert (Hok : choice_ok braces (replicate (length braces) 0)).
  { induction H as [|b braces Hb _ IH]; [constructor|]. unfold choice_ok, counts in *. cbn [length replicate fmap list_fmap].
    constructor; [|done]. destruct (terms b); [done|cbn; lia]. }
  split; [done|]. unfold choice_rank. rewrite reverse_replicate. clear. generalize (reverse (counts braces)). induction (length braces) as [|n IH]; intros l; [done|].
  cbn [replicate rank]. destruct l as [|m l]; [done|]. rewrite IH. lia.
Qed.

(** ** Every arm *)

Definition utf8 (s : bytes) : Prop := ∃ p, scalars p ∧ s = spell p.

Lemma utf8_atoms s : utf8 s → scalars (atoms s) ∧ s = spell (atoms s).
Proof.
  intros (p & Hp & ->). assert (atoms (spell p) = p) as -> by (by rewrite <- (app_nil_r (spell p)), atoms_spell, app_nil_r). done.
Qed.

Section CompileArms.
Variables (s : bytes) (from : nat) (braces : list Brace) (at_seg_end at_start root : bool).

Definition choice_text (c : list nat) : bytes := arm_text s (arm_pieces s from braces c).

Hypothesis Htext : ∀ c, choice_ok braces c → utf8 (choice_text c).

(** An arm that compiles. *)
Definition readable (c : list nat) : Prop :=
  at_seg_end && starts_with (choice_text c) (lit "/") = false ∧ is_Some (read_pattern at_start (atoms (choice_text c))).

Definition is_match_all (c : list nat) : Prop := root = true ∧ (choice_text c = lit "**" ∨ choice_text c = lit "**/").

Lemma compile_arms_ok fuel choice prog match_all :
  choice_ok braces choice → fuel + choice_rank braces choice = choice_total braces → pools_wf (pools prog) →
  match compile_arms fuel s from braces at_seg_end at_start root choice prog match_all with
  | Err _ => ∃ c, choice_ok braces c ∧ ¬ readable c
  | Ok (prog', all_) =>
      prog_extends prog prog' ∧ pools_wf (pools prog') ∧ ∃ new, arms prog' = arms prog ++ new ∧ new ≠ [] ∧
        (∀ a, a ∈ new → ∃ c, choice_ok braces c ∧ arm_entry prog' at_start a (atoms (choice_text c))) ∧
        (∀ c, choice_ok braces c → choice_rank braces choice ≤ choice_rank braces c →
           readable c ∧ ∃ a, a ∈ new ∧ arm_entry prog' at_start a (atoms (choice_text c))) ∧
        (all_ = true ↔ match_all = true ∨
           ∃ c, choice_ok braces c ∧ choice_rank braces choice ≤ choice_rank braces c ∧ is_match_all c)
  end.
Proof.
  revert choice prog match_all. induction fuel as [|fuel IH]; intros choice prog match_all Hc Hf Hwf.
  { pose proof (choice_rank_lt braces choice Hc). lia. }
  cbn [compile_arms]. fold (choice_text choice).
  destruct (at_seg_end && starts_with (choice_text choice) (lit "/")) eqn:Eslash.
  { exists choice. split; [done|]. intros [H _]. congruence. }
  destruct (utf8_atoms _ (Htext choice Hc)) as [Hsc Hsp]. pose proof (compile_arm_entry (atoms (choice_text choice)) at_start prog Hwf Hsc) as Hcomp.
  rewrite <- Hsp in Hcomp. destruct (read_pattern at_start (atoms (choice_text choice))) as [l|] eqn:El.
  2:{ destruct Hcomp as [e ->]. exists choice. split; [done|]. intros [_ H]. rewrite El in H. by destruct H. }
  destruct Hcomp as (prog1 & a & -> & He1 & Hwf1 & Ea & Hent).
  assert (Hread : readable choice) by (split; [done|by rewrite El]).
  set (all1 := match_all || _).
  assert (Hall1 : all1 = true ↔ match_all = true ∨ is_match_all choice).
  { unfold all1, is_match_all. rewrite orb_true_iff, andb_true_iff, orb_true_iff, !bool_decide_eq_true. done. }
  pose proof (next_choice_ok braces choice Hc) as Hnext. destruct (next_choice choice braces) as [choice' more].
  assert (Hsame : ∀ c, choice_ok braces c → choice_rank braces c = choice_rank braces choice → c = choice)
    by (intros c Hc'; by apply choice_rank_inj).
  destruct more.
  - destruct Hnext as [Hc' Hr]. specialize (IH choice' prog1 all1 Hc' ltac:(lia) Hwf1).
    destruct (compile_arms fuel _ _ _ _ _ _ choice' prog1 all1) as [[prog' all_]|e]; [|done].
    destruct IH as (He & Hwf' & new & En & Hne & Hnew & Hall & Hm). split; [by apply (prog_extends_trans _ prog1)|]. split; [done|].
    exists (a :: new). split; [by rewrite En, Ea, <- app_assoc|]. split; [done|].
    assert (Hent' : arm_entry prog' at_start a (atoms (choice_text choice))) by (by apply (arm_entry_extends prog1)).
    split; [|split].
    + intros x [->|Hx]%elem_of_cons; [by exists choice|]. by apply Hnew.
    + intros c Hcc Hle. destruct (decide (choice_rank braces c = choice_rank braces choice)) as [E|E].
      * rewrite (Hsame c Hcc E). split; [done|]. exists a. split; [left|done].
      * destruct (Hall c Hcc ltac:(lia)) as [Hrd (x & Hx & Hxe)]. split; [done|]. exists x. split; [by right|done].
    + rewrite Hm, Hall1. split.
      * intros [[?|?]|(c & H1 & H2 & H3)]; [by left|right; by exists choice|right]. exists c. split; [done|]. split; [lia|done].
      * intros [?|(c & H1 & H2 & H3)]; [by left; left|]. destruct (decide (choice_rank braces c = choice_rank braces choice)) as [E|E].
        -- rewrite (Hsame c H1 E) in H3. left. by right. -- right. exists c. split; [done|]. split; [lia|done].
  - split; [done|]. split; [done|]. exists [a]. split; [done|]. split; [done|].
    assert (Honly : ∀ c, choice_ok braces c → choice_rank braces choice ≤ choice_rank braces c → c = choice).
    { intros c Hcc Hle. apply Hsame; [done|]. pose proof (choice_rank_lt braces c Hcc). lia. }
    split; [|split].
    + intros x ->%list_elem_of_singleton. by exists choice.
    + intros c Hcc Hle. rewrite (Honly c Hcc Hle). split; [done|]. exists a. split; [left|done].
    + rewrite Hall1. split; [intros [?|?]; [by left|right; by exists choice]|].
      intros [?|(c & H1 & H2 & H3)]; [by left|]. rewrite (Honly c H1 H2) in H3. by right.
Qed.
End CompileArms.
