(* ===== verification/GlobBraces.v ===== *)
(** Brace expressions read and expanded: where [parse_braces] finds them, what
    it takes for their terms, and the texts of the arms. *)

From Stdlib Require Import Strings.Byte ZArith Lia Bool.
From stdpp Require Import prelude strings.
From S2P Require Import Prelude Swar Utf8 Glob GlobMatch GlobExec GlobSyntax GlobCompile GlobPlan GlobCreate GlobArms.
Local Open Scope kota_scope.
Local Open Scope nat_scope.

(** ** Bracket expressions end inside the pattern *)

Lemma scan_bracket_from_bound n s j o k :
  length s < n → scan_bracket_from s j o = Ok k → j ≤ k < j + length s.
Proof.
  revert s j. induction n as [|n IH]; intros s j Hn H; [lia|]. destruct s as [|c s]; [done|]. cbn [scan_bracket_from length] in *.
  destruct (c =?b "]"%byte); [simplify_eq; lia|]. destruct (c =?b backslash).
  - destruct s as [|d s]; [done|]. cbn [length] in *. apply IH in H; lia.
  - apply IH in H; lia.
Qed.

Lemma scan_bracket_bound s i k : i < length s → scan_bracket s i = Ok k → i < k < length s.
Proof.
  intros Hi. unfold scan_bracket. destruct (Nat.eqb_spec (i + 1) (length s)); [done|].
  set (j1 := if _ || _ then _ else _). set (j2 := if _ && _ then _ else _). intros H.
  apply (scan_bracket_from_bound (S (length (drop j2 s)))) in H; [|lia]. rewrite length_drop in H.
  assert (i < j2) by (unfold j2, j1; repeat case_if; lia). lia.
Qed.

(** ** Braces *)

(** The texts of terms, each followed by a comma. *)
Definition comma_texts (s : bytes) (ts : list View) : bytes := mjoin ((λ v, view_text s v ++ lit ",") <$> ts).

(** How a brace expression with these terms is written. *)
Definition brace_text (s : bytes) (ts : list View) : bytes :=
  match last ts with
  | Some v => lit "{" ++ comma_texts s (take (length ts - 1) ts) ++ view_text s v ++ lit "}"
  | None => []
  end.

Definition ends_term (c : byte) : Prop := c = ","%byte ∨ c = "}"%byte.
Definition starts_term (c : byte) : Prop := c = ","%byte ∨ c = "{"%byte.

(** A view of a term, with what is before it and after it. *)
Definition term_ok (s : bytes) (begin end_ : nat) (v : View) : Prop :=
  begin < view_begin v ∧ view_begin v + view_size v < end_ ∧
  (∃ c, s !! (view_begin v - 1) = Some c ∧ starts_term c) ∧
  (∃ c, s !! (view_begin v + view_size v) = Some c ∧ ends_term c).

Record brace_ok (s : bytes) (b : Brace) : Prop := {
  brace_terms : terms b ≠ [];
  brace_range : brace_begin b < brace_end b ≤ length s;
  brace_open : s !! brace_begin b = Some "{"%byte;
  brace_close : s !! (brace_end b - 1) = Some "}"%byte;
  brace_views : Forall (term_ok s (brace_begin b) (brace_end b)) (terms b);
  brace_written : substr s (brace_begin b) (brace_end b - brace_begin b) = brace_text s (terms b);
}.

(** Braces one after another, between two offsets. *)
Fixpoint chain (s : bytes) (a : nat) (braces : list Brace) (e : nat) : Prop :=
  match braces with
  | [] => a ≤ e
  | b :: braces' => a ≤ brace_begin b ∧ brace_ok s b ∧ chain s (brace_end b) braces' e
  end.

Lemma chain_le s a braces e e' : chain s a braces e → e ≤ e' → chain s a braces e'.
Proof. revert a. induction braces as [|b braces IH]; intros a H Hle; [cbn in *; lia|]. destruct H as (H1 & H2 & H3). split; [done|]. split; [done|]. by apply IH. Qed.

Lemma chain_snoc s a braces e b e' :
  chain s a braces e → e ≤ brace_begin b → brace_ok s b → brace_end b ≤ e' → chain s a (braces ++ [b]) e'.
Proof.
  revert a. induction braces as [|x braces IH]; intros a H Hb Hok He; [cbn in *; split; [lia|done]|].
  destruct H as (H1 & H2 & H3). cbn [app chain]. split; [done|]. split; [done|]. by apply IH.
Qed.

Lemma chain_terms s a braces e : chain s a braces e → Forall (λ b, terms b ≠ []) braces.
Proof.
  revert a. induction braces as [|b braces IH]; intros a H; [constructor|]. destruct H as (_ & [H _ _ _ _ _] & H3). constructor; [done|]. by apply (IH (brace_end b)).
Qed.

(** What is open. *)
Definition open_ok (s : bytes) (e i : nat) (open_ : option (nat * list View)) (term_begin : nat) : Prop :=
  match open_ with
  | None => True
  | Some (begin, ts) =>
      e ≤ begin ∧ begin < term_begin ≤ i ∧ s !! begin = Some "{"%byte ∧
      (∃ c, s !! (term_begin - 1) = Some c ∧ starts_term c) ∧
      Forall (term_ok s begin term_begin) ts ∧
      substr s begin (term_begin - begin) = lit "{" ++ comma_texts s ts
  end.

Lemma substr_snoc (s : bytes) a n c : s !! (a + n) = Some c → substr s a (n + 1) = substr s a n ++ [c].
Proof.
  intros H. unfold substr. rewrite Nat.add_1_r. apply take_S_r. by rewrite lookup_drop.
Qed.

Lemma substr_cut (s : bytes) a m n : substr s a (m + n) = substr s a m ++ substr s (a + m) n.
Proof. unfold substr. rewrite <- drop_drop. symmetry. apply take_take_drop. Qed.

Lemma comma_texts_snoc s ts v : comma_texts s (ts ++ [v]) = comma_texts s ts ++ view_text s v ++ lit ",".
Proof. unfold comma_texts. rewrite fmap_app, join_app. cbn. by rewrite app_nil_r. Qed.

(** The term that ends at [i]. *)
Lemma term_written s begin term_begin i ts :
  begin < term_begin ≤ i → substr s begin (term_begin - begin) = lit "{" ++ comma_texts s ts →
  substr s begin (i - begin) = lit "{" ++ comma_texts s ts ++ view_text s (mkView term_begin (i - term_begin)).
Proof.
  intros H E. replace (i - begin) with ((term_begin - begin) + (i - term_begin)) by lia.
  rewrite substr_cut, E, <- app_assoc. by replace (begin + (term_begin - begin)) with term_begin by lia.
Qed.

Lemma term_ok_wider s begin e e' v : term_ok s begin e v → e ≤ e' → term_ok s begin e' v.
Proof. intros (H1 & H2 & H3 & H4) Hle. split; [done|]. split; [lia|done]. Qed.

Lemma comma_ok s e i begin ts term_begin :
  open_ok s e i (Some (begin, ts)) term_begin → s !! i = Some ","%byte →
  open_ok s e (i + 1) (Some (begin, ts ++ [mkView term_begin (i - term_begin)])) (i + 1).
Proof.
  intros (H1 & H2 & H3 & H4 & H5 & H6) Hc. split; [done|]. split; [lia|]. split; [done|].
  assert (Hv : term_ok s begin (i + 1) (mkView term_begin (i - term_begin))).
  { split; [cbn; lia|]. split; [cbn; lia|]. split; [done|]. cbn. replace (term_begin + (i - term_begin)) with i by lia.
    eexists. split; [done|]. by left. }
  split; [exists ","%byte; split; [by replace (i + 1 - 1) with i by lia|by left]|]. split.
  - apply Forall_app. split; [|by constructor]. eapply Forall_impl; [exact H5|]. intros v Hv'. apply (term_ok_wider _ _ term_begin); [done|lia].
  - rewrite comma_texts_snoc. replace (i + 1 - begin) with ((i - begin) + 1) by lia.
    rewrite (substr_snoc s begin (i - begin) ","%byte) by (by replace (begin + (i - begin)) with i by lia).
    rewrite (term_written s begin term_begin i ts) by (done || lia). by rewrite <- !app_assoc.
Qed.

Lemma close_ok s e i begin ts term_begin :
  open_ok s e i (Some (begin, ts)) term_begin → s !! i = Some "}"%byte →
  brace_ok s (mkBrace begin (i + 1) (ts ++ [mkView term_begin (i - term_begin)])).
Proof.
  intros (H1 & H2 & H3 & H4 & H5 & H6) Hc. pose proof (lookup_lt_Some _ _ _ Hc) as Hlt. split; cbn [terms brace_begin brace_end].
  - by destruct ts.
  - lia.
  - done.
  - by replace (i + 1 - 1) with i by lia.
  - apply Forall_app. split.
    + eapply Forall_impl; [exact H5|]. intros v Hv. apply (term_ok_wider _ _ term_begin); [done|lia].
    + constructor; [|constructor]. split; [cbn; lia|]. split; [cbn; lia|]. split; [done|]. cbn.
      replace (term_begin + (i - term_begin)) with i by lia. eexists. split; [done|]. by right.
  - unfold brace_text. rewrite last_snoc, length_app, Nat.add_sub, take_app_length.
    replace (i + 1 - begin) with ((i - begin) + 1) by lia.
    rewrite (substr_snoc s begin (i - begin) "}"%byte) by (by replace (begin + (i - begin)) with i by lia).
    rewrite (term_written s begin term_begin i ts) by (done || lia). by rewrite <- !app_assoc.
Qed.

Lemma open_ok_later s e i i' o tb : open_ok s e i o tb → i ≤ i' → open_ok s e i' o tb.
Proof. destruct o as [[begin ts]|]; [|done]. intros (H1 & H2 & H) Hle. split; [done|]. split; [lia|done]. Qed.

Lemma braces_from_ok fuel s from i braces open_ term_begin e out :
  length s - i < fuel → i ≤ length s → e ≤ i → chain s from braces e → open_ok s e i open_ term_begin →
  braces_from fuel s i braces open_ term_begin = Ok out → chain s from out (length s).
Proof.
  revert i braces open_ term_begin e. induction fuel as [|fuel IH]; intros i braces open_ tb e Hf Hi He Hch Hopen H; [lia|].
  cbn [braces_from] in H. destruct (Nat.eqb_spec i (length s)) as [->|Hne].
  { destruct open_ as [[begin ts]|]; [done|]. simplify_eq. by apply (chain_le _ _ _ e). }
  assert (Hlt : i < length s) by lia.
  assert (Hc : ∀ c, (s !!! i =?b c) = true → s !! i = Some c).
  { intros c E%byte_eqb_spec. rewrite <- E. by apply list_lookup_lookup_total_lt. }
  assert (Hskip : ∀ k, i < k ≤ length s → braces_from fuel s k braces open_ tb = Ok out → chain s from out (length s)).
  { intros k Hk. apply (IH k braces open_ tb e); [lia|lia|lia|done|]. apply (open_ok_later _ _ i); [done|lia]. }
  destruct (s !!! i =?b "["%byte).
  { destruct (scan_bracket s i) as [k|] eqn:Ek; [|done]. cbn [ebind] in H. apply scan_bracket_bound in Ek; [|done]. apply (Hskip (k + 1)); [lia|done]. }
  destruct (s !!! i =?b "{"%byte) eqn:Eo.
  { destruct open_; [done|]. apply (IH (i + 1) braces (Some (i, [])) (i + 1) e) in H; [done|lia|lia|lia|done|].
    split; [done|]. split; [lia|]. split; [by apply Hc|]. split.
    - exists "{"%byte. split; [replace (i + 1 - 1) with i by lia; by apply Hc|by right].
    - split; [constructor|]. replace (i + 1 - i) with (0 + 1) by lia. rewrite (substr_snoc s i 0 "{"%byte) by (rewrite Nat.add_0_r; by apply Hc). done. }
  destruct (s !!! i =?b ","%byte) eqn:Ec.
  { destruct open_ as [[begin ts]|]; [|apply (Hskip (i + 1)); [lia|done]].
    apply (IH _ _ _ _ e) in H; [done|lia|lia|lia|done|]. apply comma_ok; [done|by apply Hc]. }
  destruct (s !!! i =?b "}"%byte) eqn:Ecl.
  { destruct open_ as [[begin ts]|]; [|apply (Hskip (i + 1)); [lia|done]]. destruct (bool_decide (ts = []) && (i =? tb)); [done|].
    apply (IH _ _ _ _ (i + 1)) in H; [done|lia|lia|lia| |done].
    apply (chain_snoc _ _ _ e); [done|by destruct Hopen| |done]. by apply (close_ok s e); [|apply Hc]. }
  destruct (s !!! i =?b backslash).
  { destruct (Nat.eqb_spec (i + 1) (length s)); [done|]. apply (Hskip (i + 2)); [lia|done]. }
  apply (Hskip (i + 1)); [lia|done].
Qed.

Lemma parse_braces_ok s from braces : from ≤ length s → parse_braces s from = Ok braces → chain s from braces (length s).
Proof. intros Hf H. apply (braces_from_ok (S (length s)) s from from [] None 0 from) in H; [done|lia|lia|done|cbn; lia|done]. Qed.

(** ** Texts stay UTF-8 *)

Lemma utf8_app a b : utf8 a → utf8 b → utf8 (a ++ b).
Proof. intros (p & Hp & ->) (q & Hq & ->). exists (p ++ q). split; [by apply Forall_app|]. by rewrite spelled_app. Qed.

Lemma utf8_nil : utf8 [].
Proof. by exists []. Qed.

(** Cutting before an ASCII byte. *)
Lemma utf8_cut p a b c :
  scalars p → spell p = a ++ b :: c → (uval b < 128)%Z →
  ∃ p1 p2, p = p1 ++ p2 ∧ a = spell p1 ∧ b :: c = spell p2.
Proof.
  revert a. induction p as [|x p IH]; intros a Hp E Hb; [by destruct a|]. destruct a as [|y a]; [by exists [], (x :: p)|].
  apply Forall_cons in Hp as [Hx Hp]. destruct (put_head x Hx) as (h & hs & Eh & Hhs & _). rewrite spell_cons, Eh in E. cbn [app] in E.
  injection E as <- E.
  assert (Hlen : length hs ≤ length a).
  { destruct (decide (length hs ≤ length a)) as [?|Hgt]; [done|]. exfalso.
    assert (Hin : hs !! length a = Some b).
    { rewrite <- (lookup_app_l hs (spell p)) by lia. rewrite E, lookup_app_r by lia. by rewrite Nat.sub_diag. }
    rewrite Forall_forall in Hhs. specialize (Hhs b (list_elem_of_lookup_2 _ _ _ Hin)). unfold high in Hhs. lia. }
  assert (Ea : a = hs ++ drop (length hs) a).
  { rewrite <- (take_drop (length hs) a) at 1. f_equal. apply (f_equal (take (length hs))) in E.
    rewrite take_app_length, take_app_le in E by done. done. }
  rewrite Ea, <- app_assoc in E. apply app_inv_head in E. destruct (IH _ Hp E Hb) as (p1 & p2 & -> & E1 & E2).
  exists (x :: p1), p2. split; [done|]. split; [|done]. rewrite spell_cons, Eh, <- E1. cbn [app]. by rewrite <- Ea.
Qed.

Lemma utf8_take s e c : utf8 s → s !! e = Some c → (uval c < 128)%Z → utf8 (take e s).
Proof.
  intros (p & Hp & ->) He Hc. pose proof (take_drop_middle _ _ _ He) as E. symmetry in E. destruct (utf8_cut p _ c _ Hp E Hc) as (p1 & p2 & -> & E1 & _).
  exists p1. split; [by apply Forall_app in Hp as [? _]|done].
Qed.

Lemma utf8_drop s a c : utf8 s → s !! a = Some c → (uval c < 128)%Z → utf8 (drop (a + 1) s).
Proof.
  intros (p & Hp & ->) Ha Hc. pose proof (take_drop_middle _ _ _ Ha) as E. symmetry in E.
  destruct (utf8_cut p _ c _ Hp E Hc) as (p1 & p2 & -> & _ & E2). apply Forall_app in Hp as [_ Hp].
  destruct (spell_ascii_inv [c] (drop (S a) (spell (p1 ++ p2))) p2) as (p3 & Hp3 & E3); [done|by constructor|by rewrite <- E2|].
  rewrite Nat.add_1_r. by exists p3.
Qed.

Lemma utf8_substr s a e :
  utf8 (drop a s) → a ≤ e → (e = length s ∨ ∃ c, s !! e = Some c ∧ (uval c < 128)%Z) → utf8 (substr s a (e - a)).
Proof.
  intros H Hae [->|(c & Hc & Ha)]; unfold substr.
  - by rewrite take_ge by (rewrite length_drop; lia).
  - apply (utf8_take _ _ c); [done| |done]. rewrite lookup_drop. by replace (a + (e - a)) with e by lia.
Qed.

(** The text of every arm is UTF-8. *)
Lemma arm_text_utf8 s braces choice cursor :
  utf8 s → utf8 (drop cursor s) → cursor ≤ length s → chain s cursor braces (length s) → choice_ok braces choice →
  utf8 (arm_text s (arm_pieces s cursor braces choice)).
Proof.
  intros Hs. revert choice cursor. induction braces as [|b braces IH]; intros choice cursor Hd Hcur Hch Hc; unfold choice_ok, counts in Hc; cbn [fmap list_fmap] in Hc.
  - apply Forall2_nil_inv_r in Hc as ->. cbn. rewrite app_nil_r. unfold view_text. cbn. apply utf8_substr; [done|done|by left].
  - apply Forall2_cons_inv_r in Hc as (k & choice' & Hk & Hc & ->). destruct Hch as (Hb & Hok & Hch).
    destruct Hok as [Hne Hrange Hopen Hclose Hviews _]. cbn [arm_pieces].
    unfold arm_text. cbn [fmap list_fmap]. cbn [mjoin list_join]. apply utf8_app; [|apply utf8_app].
    + unfold view_text. cbn. apply utf8_substr; [done|done|right]. exists "{"%byte. done.
    + assert (Hv : term_ok s (brace_begin b) (brace_end b) (terms b !!! k)).
      { rewrite Forall_forall in Hviews. apply Hviews. apply list_elem_of_lookup_2 with k. by apply list_lookup_lookup_total_lt. }
      destruct Hv as (H1 & H2 & (c & Hc1 & Hc2) & (d & Hd1 & Hd2)). unfold view_text.
      replace (view_size (terms b !!! k)) with (view_begin (terms b !!! k) + view_size (terms b !!! k) - view_begin (terms b !!! k)) by lia.
      apply utf8_substr; [|lia|right].
      * replace (view_begin (terms b !!! k)) with (view_begin (terms b !!! k) - 1 + 1) by lia. apply (utf8_drop s _ c); [done|done|].
        destruct Hc2 as [->| ->]; vm_compute; done.
      * exists d. split; [done|]. destruct Hd2 as [->| ->]; vm_compute; done.
    + apply IH; [|lia|done|done]. replace (brace_end b) with (brace_end b - 1 + 1) by lia. apply (utf8_drop s _ "}"%byte); done.
Qed.
