(* ===== verification/GlobTop.v ===== *)
(** A glob pattern from its text to its answers: what [create] accepts, and
    what the pattern it makes matches. *)

From Stdlib Require Import Strings.Byte ZArith Lia Bool Sorting.Permutation Sorting.Sorted.
From stdpp Require Import prelude strings.
From S2P Require Import Prelude Swar Utf8 Glob GlobMatch GlobExec GlobSyntax GlobCompile GlobPlan GlobCreate GlobArms GlobBraces.
Local Open Scope kota_scope.
Local Open Scope nat_scope.

(** ** The reader's fuel *)

Lemma read_name_fuel n m p : length p < n → length p < m → read_name n p = read_name m p.
Proof.
  revert m p. induction n as [|n IH]; intros m p Hn Hm; [lia|]. destruct m as [|m]; [lia|]. cbn [read_name].
  destruct p as [|c p]; [done|]. destruct (is_ch c slash); [done|]. destruct (read_op c p) as [[o r]|] eqn:E; [|done]. cbn [mbind option_bind].
  destruct (read_op_rest _ _ _ _ E) as [q ->]. cbn [length] in *. rewrite length_app in *. by rewrite (IH m r) by lia.
Qed.

Lemma read_name_rest n p ops r : read_name n p = Some (ops, r) → ∃ q, p = q ++ r.
Proof.
  revert p ops. induction n as [|n IH]; intros p ops H; [done|]. cbn [read_name] in H. destruct p as [|c p]; [simplify_eq; by exists []|].
  destruct (is_ch c slash); [simplify_eq; by exists []|]. destruct (read_op c p) as [[o r']|] eqn:E; [|done]. cbn [mbind option_bind] in H.
  destruct (read_op_rest _ _ _ _ E) as [q ->]. destruct (read_name n r') as [[ops' r'']|] eqn:E2; [|done]. cbn in H. simplify_eq.
  destruct (IH _ _ E2) as [q' ->]. exists (c :: q ++ q'). cbn. by rewrite <- app_assoc.
Qed.

Lemma read_segment_rest at_ p s r : read_segment at_ p = Some (s, r) → ∃ q, p = q ++ r.
Proof.
  unfold read_segment. destruct (if at_ then globstar_at p else None) as [x|] eqn:E.
  - destruct at_; [|done]. apply globstar_at_iff in E as [-> _]. intros H. simplify_eq. by exists [star_ch; star_ch].
  - destruct (read_name _ p) as [[ops x]|] eqn:E2; [|done]. cbn. intros H. simplify_eq. by apply read_name_rest in E2.
Qed.

Lemma read_segments_fuel n m at_ p : length p < n → length p < m → read_segments n at_ p = read_segments m at_ p.
Proof.
  revert m at_ p. induction n as [|n IH]; intros m at_ p Hn Hm; [lia|]. destruct m as [|m]; [lia|]. cbn [read_segments].
  destruct (read_segment at_ p) as [[s r]|] eqn:E; [|done]. cbn [mbind option_bind]. destruct (read_segment_rest _ _ _ _ E) as [q ->].
  destruct r as [|c r]; [done|]. rewrite length_app in *. cbn [length] in *. by rewrite (IH m true r) by lia.
Qed.

(** ** Reading a character, or a separator *)

(** A character that stands for itself. *)
Definition plain (c : Z) : bool :=
  negb (existsb (λ b, is_ch c b) wildcards) && negb (is_ch c backslash).

Definition push_lit (c : Z) (l : list seg) : list seg :=
  match l with Name ops :: l' => Name (OLit [c] :: ops) :: l' | _ => l end.

Lemma plain_tests c : plain c = true → is_ch c "[" = false ∧ is_ch c "*" = false ∧ is_ch c "?" = false ∧ is_ch c backslash = false.
Proof.
  unfold plain. rewrite andb_true_iff, !negb_true_iff. cbn [wildcards existsb lit String.list_byte_of_string].
  intros [H ->]. cbn in H. rewrite !orb_false_iff in H. destruct H as (H1 & H2 & H3 & _). done.
Qed.

(** A literal that starts a name reads as one more operation of it. *)
Lemma read_segment_lit at_ c p q :
  globstar_at p = None → (∀ n, read_name (S n) p = '(ops, r) ← read_name n q; Some (OLit [c] :: ops, r)) → length q < length p →
  read_segment at_ p = '(s, r) ← read_segment false q; Some (match s with Name ops => Name (OLit [c] :: ops) | Globstar => Globstar end, r).
Proof.
  intros Hg Hn Hl. unfold read_segment. rewrite Hg. assert ((if at_ then @None (list Z) else None) = None) as -> by (by destruct at_).
  rewrite Hn, (read_name_fuel (length p) (S (length q))) by lia. by destruct (read_name _ q) as [[ops r]|].
Qed.

Lemma read_segments_head n p l : read_segments n false p = Some l → ∃ ops l', l = Name ops :: l'.
Proof.
  destruct n as [|n]; [done|]. cbn [read_segments]. unfold read_segment. destruct (read_name _ p) as [[ops r]|]; [|done]. cbn [mbind option_bind].
  destruct r as [|c r]; [intros H; simplify_eq; by exists ops, []|]. destruct (match r with d :: _ => is_ch d slash | [] => false end); [done|].
  destruct (read_segments n true r); [|done]. cbn. intros H. simplify_eq. by eexists _, _.
Qed.

Lemma read_pattern_lit at_ c p q :
  globstar_at p = None → (∀ n, read_name (S n) p = '(ops, r) ← read_name n q; Some (OLit [c] :: ops, r)) → length q < length p →
  read_pattern at_ p = push_lit c <$> read_pattern false q.
Proof.
  intros Hg Hn Hl. unfold read_pattern. rewrite (read_segments_fuel (S (length q)) (S (length p)) false q) by lia.
  assert (H : read_segments (S (length p)) at_ p = push_lit c <$> read_segments (S (length p)) false q).
  { cbn [read_segments]. rewrite (read_segment_lit at_ c p q) by done. unfold read_segment at 1 2.
    destruct (read_name _ q) as [[ops r]|]; [|done]. cbn [mbind option_bind]. destruct r as [|d r]; [done|].
    destruct (match r with x :: _ => is_ch x slash | [] => false end); [done|]. by destruct (read_segments (length p) true r). }
  rewrite H. destruct (read_segments (S (length p)) false q) as [l|] eqn:E; [|done]. cbn.
  destruct (read_segments_head _ _ _ E) as (ops & l' & ->). done.
Qed.

Lemma read_pattern_char at_ c q :
  plain c = true → is_ch c slash = false → read_pattern at_ (c :: q) = push_lit c <$> read_pattern false q.
Proof.
  intros Hp Hs. destruct (plain_tests c Hp) as (H1 & H2 & H3 & H4). apply read_pattern_lit; [| |cbn; lia].
  - unfold globstar_at. destruct q; [done|]. by rewrite H2.
  - intros n. cbn [read_name]. rewrite Hs. unfold read_op. by rewrite H1, H2, H3, H4.
Qed.

Definition backslash_ch : Z := uval backslash.
Definition slash_ch : Z := uval slash.

Lemma read_pattern_escape at_ d q :
  is_ch d slash = false → read_pattern at_ (backslash_ch :: d :: q) = push_lit d <$> read_pattern false q.
Proof. intros Hs. apply read_pattern_lit; [done| |cbn; lia]. intros n. cbn [read_name]. unfold read_op. cbn. by rewrite Hs. Qed.

Definition starts_slash (p : list Z) : bool := match p with c :: _ => is_ch c slash | [] => false end.

Lemma read_pattern_slash at_ q :
  read_pattern at_ (slash_ch :: q) = if starts_slash q then None else cons (Name []) <$> read_pattern true q.
Proof.
  unfold read_pattern. cbn [length]. generalize (S (length q)). intros n. cbn [read_segments].
  assert (read_segment at_ (slash_ch :: q) = Some (Name [], slash_ch :: q)) as -> by (by destruct at_, q). cbn [mbind option_bind].
  fold (starts_slash q). destruct (starts_slash q); [done|]. destruct (read_segments n true q) as [l|]; [|done].
  done.
Qed.

(** ** Literal prefixes *)

(** What a pattern read from a text matches. *)
Definition reads (at_ : bool) (p : list Z) (ws : list bytes) : Prop :=
  ∃ l, read_pattern at_ p = Some l ∧ path_matches l ws.

Lemma split_path_prefix a s w ws : slash ∉ a → split_path s = w :: ws → split_path (a ++ s) = (a ++ w) :: ws.
Proof.
  intros Ha E. induction a as [|c a IH]; [done|]. apply not_elem_of_cons in Ha as [Hc Ha]. cbn [app split_path]. rewrite (IH Ha).
  by rewrite (proj2 (byte_eqb_neq c slash)).
Qed.

Lemma put_no_slash c : scalar false c → is_ch c slash = false → slash ∉ put_code_point c.
Proof.
  intros Hc Hs. destruct (put_head c Hc) as (x & xs & -> & Hxs & Hch). intros [E|Hin]%elem_of_cons.
  - pose proof (Hch slash ltac:(vm_compute; reflexivity)) as H. rewrite Hs in H. apply byte_eqb_neq in H. done.
  - rewrite Forall_forall in Hxs. specialize (Hxs slash Hin). vm_compute in Hxs. done.
Qed.

(** A character before a pattern is a character before the path. *)
Lemma push_lit_matches c ops l str :
  scalar false c → is_ch c slash = false →
  path_matches (Name (OLit [c] :: ops) :: l) (split_path str) ↔
  ∃ str', str = put_code_point c ++ str' ∧ path_matches (Name ops :: l) (split_path str').
Proof.
  intros Hc Hs. pose proof (put_no_slash c Hc Hs) as Hns. rewrite path_name_iff. split.
  - intros (w & ws & E & Hm & Hl). apply matches_lit_iff in Hm as [E1 Hm]. cbn [length] in E1, Hm.
    assert (Ea : atoms w = c :: drop 1 (atoms w)) by (rewrite <- (take_drop 1 (atoms w)) at 1; by rewrite E1).
    destruct (atoms_put_inv w c _ Hc Ea) as (w' & -> & Ew').
    destruct (segs_head str 0 ltac:(lia)) as (_ & _ & Eh). rewrite drop_0, Nat.sub_0_r in Eh. rewrite E in Eh. injection Eh as Eh _.
    unfold substr in Eh. rewrite drop_0 in Eh. exists (w' ++ drop (segment_end str 0) str).
    assert (Estr : str = put_code_point c ++ w' ++ drop (segment_end str 0) str) by (by rewrite app_assoc, Eh, take_drop).
    split; [done|]. set (str' := w' ++ drop (segment_end str 0) str) in *. destruct (split_path str') as [|v vs] eqn:Ev; [by apply split_path_nonempty in Ev|].
    rewrite Estr, (split_path_prefix _ str' v vs Hns Ev) in E. injection E as E ->. apply app_inv_head in E as ->.
    apply path_name_iff. exists w', ws. rewrite Ew'. done.
  - intros (str' & -> & H). apply path_name_iff in H as (w & ws & E & Hm & Hl). exists (put_code_point c ++ w), ws.
    rewrite (split_path_prefix _ _ _ _ Hns E). split; [done|]. split; [|done]. rewrite atoms_put by done. apply matches_lit_iff. done.
Qed.

Lemma reads_lit at_ c p q str :
  scalar false c → is_ch c slash = false → read_pattern at_ p = push_lit c <$> read_pattern false q →
  reads at_ p (split_path str) ↔ ∃ str', str = put_code_point c ++ str' ∧ reads false q (split_path str').
Proof.
  intros Hc Hs E. unfold reads. rewrite E. destruct (read_pattern false q) as [l|] eqn:El.
  2:{ split; [by intros (? & ? & _)|]. intros (? & _ & ? & ? & _). done. }
  assert (Hh : ∃ ops l', l = Name ops :: l').
  { unfold read_pattern in El. destruct (read_segments _ false q) as [k|] eqn:Ek; [|done]. cbn in El. simplify_eq.
    destruct (read_segments_head _ _ _ Ek) as (ops & l' & ->). exists ops. by destruct l' as [|x l']; eexists. }
  destruct Hh as (ops & l' & ->). split.
  - intros (k & [= <-] & H). apply push_lit_matches in H as (str' & -> & H); [|done|done]. exists str'. split; [done|]. by eexists.
  - intros (str' & -> & k & [= <-] & H). eexists. split; [done|]. apply push_lit_matches; [done|done|]. by exists str'.
Qed.

Lemma reads_lit_empty at_ c p q : read_pattern at_ p = push_lit c <$> read_pattern false q → ¬ reads at_ p [].
Proof.
  intros E (l & El & H). rewrite E in El. destruct (read_pattern false q) as [k|] eqn:Ek; [|done]. cbn in El. simplify_eq.
  unfold read_pattern in Ek. destruct (read_segments _ false q) as [k'|] eqn:Ek'; [|done]. cbn in Ek. simplify_eq.
  destruct (read_segments_head _ _ _ Ek') as (ops & l' & ->). assert (H' : ∃ o r, push_lit c (close_globstar (Name ops :: l')) = Name o :: r).
  { destruct l'; by eexists _, _. }
  destruct H' as (o & r & E'). rewrite E' in H. apply path_name_iff in H as (? & ? & ? & _). done.
Qed.

(** A separator: the path ends before it, or has one too. *)
Lemma reads_slash at_ q str :
  reads at_ (slash_ch :: q) (split_path str) ↔
  starts_slash q = false ∧ ((str = [] ∧ reads true q []) ∨ ∃ str', str = slash :: str' ∧ reads true q (split_path str')).
Proof.
  unfold reads at 1. rewrite read_pattern_slash. destruct (starts_slash q); [split; [by intros (? & ? & _)|by intros [? _]]|].
  assert (Hsplit : ∀ ws, split_path str = [] :: ws ↔ (str = [] ∧ ws = []) ∨ ∃ str', str = slash :: str' ∧ ws = split_path str').
  { intros ws. destruct str as [|c str].
    - split; [intros [= <-]; by left|]. by intros [[_ ->]|(? & ? & _)].
    - cbn [split_path]. destruct (c =?b slash) eqn:Ec.
      + apply byte_eqb_spec in Ec as ->. split; [intros [= <-]; right; by exists str|]. intros [[? _]|(str' & [= <-] & ->)]; done.
      + apply byte_eqb_neq in Ec. destruct (split_path str) eqn:E; (split; [done|]); intros [[? _]|(str' & E' & _)]; try done; by injection E' as -> _. }
  unfold reads. split.
  - intros (l & El & H). split; [done|]. destruct (read_pattern true q) as [k|]; [|done]. cbn in El. simplify_eq.
    apply path_name_iff in H as (w & ws & E & Hm & H). apply matches_nil_iff, atoms_nil in Hm as ->.
    apply Hsplit in E as [[-> ->]|(str' & -> & ->)]; [left|right]; [|exists str']; (split; [done|]); by exists k.
  - intros [_ H].
    assert (Hw : ∃ k ws, read_pattern true q = Some k ∧ path_matches k ws ∧ split_path str = [] :: ws).
    { destruct H as [[-> (k & Ek & H)]|(str' & -> & k & Ek & H)]; [exists k, []|exists k, (split_path str')]; (split; [done|]); (split; [done|]); apply Hsplit; [by left|right; by exists str']. }
    destruct Hw as (k & ws & -> & H' & ->). eexists. split; [done|]. apply pm_name; [apply m_nil|done].
Qed.

Lemma reads_slash_empty at_ q : ¬ reads at_ (slash_ch :: q) [].
Proof.
  intros (l & El & H). rewrite read_pattern_slash in El. destruct (starts_slash q); [done|]. destruct (read_pattern true q); [|done]. cbn in El. simplify_eq.
  by apply path_name_iff in H as (? & ? & ? & _).
Qed.

(** A prefix without wildcards, and the text it stands for. *)
Inductive resolves : list Z → list Z → Prop :=
| res_nil : resolves [] []
| res_char c p t : plain c = true → resolves p t → resolves (c :: p) (c :: t)
| res_escape d p t : is_ch d slash = false → resolves p t → resolves (backslash_ch :: d :: p) (d :: t).

(** No separator of the prefix is followed by another. *)
Fixpoint clean (p1 p2 : list Z) : bool :=
  match p1 with
  | [] => true
  | c :: p1' => (if is_ch c slash then negb (starts_slash (p1' ++ p2)) else true) && clean p1' p2
  end.

Definition ends_slash (t : list Z) : bool := match last t with Some c => is_ch c slash | None => false end.

Definition start_after (at_ : bool) (t : list Z) : bool := if decide (t = []) then at_ else ends_slash t.

Definition after_prefix (at_ : bool) (t p2 : list Z) (str : bytes) : Prop :=
  if decide (t = []) then reads at_ p2 (split_path str)
  else if ends_slash t then
    (str = spell (take (length t - 1) t) ∧ reads true p2 []) ∨
    ∃ str', str = spell t ++ str' ∧ reads true p2 (split_path str')
  else ∃ str', str = spell t ++ str' ∧ reads false p2 (split_path str').

Lemma after_prefix_nil at_ p2 str : after_prefix at_ [] p2 str ↔ reads at_ p2 (split_path str).
Proof. unfold after_prefix. by rewrite decide_True. Qed.

(** A code point before the prefix's text. *)
Lemma after_prefix_cons at_ c t p2 str :
  is_ch c slash = false ∨ t ≠ [] →
  after_prefix at_ (c :: t) p2 str ↔ ∃ str', str = put_code_point c ++ str' ∧ after_prefix (is_ch c slash) t p2 str'.
Proof.
  intros Hs. unfold after_prefix. rewrite decide_False by done. destruct (decide (t = [])) as [->|Hn].
  - destruct Hs as [Hs|?]; [|done]. unfold ends_slash. cbn [last]. rewrite Hs. change (spell [c]) with (put_code_point c ++ []). by rewrite app_nil_r.
  - assert (ends_slash (c :: t) = ends_slash t) as -> by (unfold ends_slash; destruct t; done). destruct (ends_slash t).
    + assert (Ei : spell (take (length (c :: t) - 1) (c :: t)) = put_code_point c ++ spell (take (length t - 1) t)).
      { destruct t as [|d t]; [done|]. cbn [length Nat.sub take]. by rewrite Nat.sub_0_r. }
      rewrite Ei, spell_cons. split.
      * intros [[-> H]|(str' & -> & H)].
        -- eexists. split; [done|]. by left.
        -- exists (spell t ++ str'). rewrite <- app_assoc. split; [done|]. right. by exists str'.
      * intros (str' & -> & [[-> H]|(str'' & -> & H)]); [by left|right]. exists str''. by rewrite <- app_assoc.
    + rewrite spell_cons. split.
      * intros (str' & -> & H). exists (spell t ++ str'). rewrite <- app_assoc. split; [done|]. by exists str'.
      * intros (str' & -> & str'' & -> & H). exists str''. by rewrite <- app_assoc.
Qed.

Lemma prefix_reads_empty at_ p1 t p2 : resolves p1 t → p1 ≠ [] → ¬ reads at_ (p1 ++ p2) [].
Proof.
  intros H Hn. destruct H as [|c p t Hc H|d p t Hd H]; [done| |].
  - cbn [app]. destruct (is_ch c slash) eqn:Es; [apply Z.eqb_eq in Es as ->; apply reads_slash_empty|].
    eapply reads_lit_empty. by apply read_pattern_char.
  - cbn [app]. eapply reads_lit_empty. by apply read_pattern_escape.
Qed.

(** Matching a pattern with a prefix: the prefix's text, then the rest. *)
Lemma prefix_reads p1 t p2 :
  resolves p1 t → scalars p1 → ∀ at_ str,
  reads at_ (p1 ++ p2) (split_path str) ↔ clean p1 p2 = true ∧ after_prefix at_ t p2 str.
Proof.
  intros H Hsc. induction H as [|c p t Hc H IH|d p t Hd H IH]; intros at_ str.
  - cbn [app clean]. unfold after_prefix. rewrite decide_True by done. naive_solver.
  - apply Forall_cons in Hsc as [Hcs Hsc]. specialize (IH Hsc). cbn [app clean]. destruct (is_ch c slash) eqn:Es.
    + apply Z.eqb_eq in Es as ->. fold slash_ch. rewrite reads_slash. setoid_rewrite IH. rewrite andb_true_iff, negb_true_iff.
      assert (Eput : put_code_point slash_ch = [slash]) by (vm_compute; reflexivity).
      destruct (decide (t = [])) as [->|Hn].
      * assert (p = []) as -> by (by inversion H). cbn [app clean]. setoid_rewrite after_prefix_nil.
        unfold after_prefix. rewrite decide_False by done. change (ends_slash [slash_ch]) with true. cbn [length Nat.sub take].
        change (spell [slash_ch]) with [slash]. change (spell []) with (@nil byte). naive_solver.
      * assert (Hp : p ≠ []) by (intros ->; by inversion H). pose proof (prefix_reads_empty true p t p2 H Hp) as Hne.
        rewrite after_prefix_cons by (by right). change (is_ch slash_ch slash) with true. rewrite Eput. cbn [app]. naive_solver.
    + cbn [andb]. rewrite (reads_lit at_ c (c :: p ++ p2) (p ++ p2)) by (done || by apply read_pattern_char).
      setoid_rewrite IH. rewrite after_prefix_cons by (by left). rewrite Es. naive_solver.
  - rewrite !Forall_cons in Hsc. destruct Hsc as (_ & Hds & Hsc). specialize (IH Hsc). cbn [app clean].
    change (is_ch backslash_ch slash) with false. cbn [andb]. rewrite Hd. cbn [andb].
    rewrite (reads_lit at_ d (backslash_ch :: d :: p ++ p2) (p ++ p2)) by (done || by apply read_pattern_escape).
    setoid_rewrite IH. rewrite after_prefix_cons by (by left). rewrite Hd. naive_solver.
Qed.

Lemma is_Some_fmap {A B} (f : A → B) (x : option A) : is_Some (f <$> x) ↔ is_Some x.
Proof. apply fmap_is_Some. Qed.

Lemma prefix_readable p1 t p2 at_ :
  resolves p1 t → is_Some (read_pattern at_ (p1 ++ p2)) ↔ clean p1 p2 = true ∧ is_Some (read_pattern (start_after at_ t) p2).
Proof.
  intros H. revert at_.
  assert (Hst : ∀ at_ c t, start_after at_ (c :: t) = start_after (is_ch c slash) t).
  { intros at_ c t0. unfold start_after. rewrite decide_False by done. destruct t0; [done|]. by rewrite decide_False. }
  induction H as [|c p t Hc H IH|d p t Hd H IH]; intros at_.
  - cbn [app clean]. unfold start_after. rewrite decide_True by done. naive_solver.
  - rewrite Hst. cbn [app clean]. destruct (is_ch c slash) eqn:Es.
    + apply Z.eqb_eq in Es as ->. fold slash_ch. rewrite read_pattern_slash, andb_true_iff, negb_true_iff.
      destruct (starts_slash (p ++ p2)); [split; [by intros [??]|by intros [[? _] _]]|]. rewrite is_Some_fmap, IH. naive_solver.
    + rewrite read_pattern_char, is_Some_fmap, IH by done. done.
  - rewrite Hst, Hd. cbn [app clean]. change (is_ch backslash_ch slash) with false. rewrite Hd. cbn [andb].
    rewrite read_pattern_escape, is_Some_fmap, IH by done. done.
Qed.

(** ** The literal head *)

Lemma existsb_ch x c l :
  (∀ b, (uval b < 128)%Z → (x =?b b) = is_ch c b) → Forall (λ b, (uval b < 128)%Z) l →
  existsb (λ y, y =?b x) l = existsb (λ b, is_ch c b) l.
Proof.
  intros H Hl. induction Hl as [|b l Hb _ IH]; [done|]. cbn [existsb]. by rewrite IH, byte_eqb_sym, H.
Qed.

Lemma wildcards_ascii : Forall (λ b, (uval b < 128)%Z) wildcards.
Proof. repeat constructor. Qed.

Lemma contains_ch x c :
  (∀ b, (uval b < 128)%Z → (x =?b b) = is_ch c b) → contains wildcards x = existsb (λ b, is_ch c b) wildcards.
Proof. intros H. apply existsb_ch; [done|apply wildcards_ascii]. Qed.

Lemma high_plain x : high x → contains wildcards x = false.
Proof.
  intros Hx. unfold contains. pose proof wildcards_ascii as H. induction H as [|b l Hb _ IH]; [done|]. cbn [existsb].
  by rewrite IH, byte_eqb_sym, high_neq.
Qed.

Lemma head_high xs s i text :
  Forall high xs → literal_head_from (xs ++ s) i text = literal_head_from s (i + length xs) (text ++ xs).
Proof.
  intros H. revert i text. induction H as [|x xs Hx _ IH]; intros i text; [cbn; by rewrite Nat.add_0_r, app_nil_r|].
  cbn [app literal_head_from]. rewrite high_plain by done. rewrite high_neq by (done || (vm_compute; reflexivity)). rewrite IH. cbn [length]. rewrite <- app_assoc. f_equal. lia.
Qed.

(** Where the head stops. *)
Definition head_stop (p : list Z) : Prop :=
  match p with
  | [] => True
  | c :: r => existsb (λ b, is_ch c b) wildcards = true ∨ (is_ch c backslash = true ∧ (r = [] ∨ starts_slash r = true))
  end.

Lemma literal_head_from_ok n p i text :
  length p < n → scalars p →
  ∃ p1 p2 t, p = p1 ++ p2 ∧ resolves p1 t ∧ head_stop p2 ∧
    literal_head_from (spell p) i text = mkHead (text ++ spell t) (i + length (spell p1)).
Proof.
  revert p i text. induction n as [|n IH]; intros p i text Hn Hp; [lia|]. destruct p as [|c p].
  { exists [], [], []. split; [done|]. split; [constructor|]. split; [done|]. cbn. by rewrite app_nil_r, Nat.add_0_r. }
  apply Forall_cons in Hp as [Hc Hp]. destruct (put_head c Hc) as (x & xs & Ex & Hxs & Hch). cbn [length] in Hn.
  rewrite spell_cons, Ex. cbn [app literal_head_from]. rewrite (contains_ch x c Hch). destruct (existsb (λ b, is_ch c b) wildcards) eqn:Ew.
  { exists [], (c :: p), []. split; [done|]. split; [constructor|]. split; [by left|]. cbn. by rewrite app_nil_r, Nat.add_0_r. }
  rewrite Hch by (vm_compute; reflexivity). destruct (is_ch c backslash) eqn:Eb.
  - pose proof Eb as Ec. apply Z.eqb_eq in Ec as ->. rewrite put_ascii in Ex by (vm_compute; reflexivity). injection Ex as <- <-. cbn [app].
    destruct p as [|d p].
    { exists [], [uval backslash], []. split; [done|]. split; [constructor|]. split; [right; split; [done|by left]|]. cbn. by rewrite app_nil_r, Nat.add_0_r. }
    apply Forall_cons in Hp as [Hd Hp]. destruct (put_head d Hd) as (y & ys & Ey & Hys & Hdh). rewrite spell_cons, Ey. cbn [app].
    rewrite Hdh by (vm_compute; reflexivity). destruct (is_ch d slash) eqn:Es.
    { exists [], (uval backslash :: d :: p), []. split; [done|]. split; [constructor|]. split; [right; split; [done|by right]|]. cbn. by rewrite app_nil_r, Nat.add_0_r. }
    cbn [length] in Hn. rewrite head_high by done. destruct (IH p (i + 2 + length ys) ((text ++ [y]) ++ ys) ltac:(lia) Hp) as (p1 & p2 & t & -> & Hr & Hst & ->).
    exists (backslash_ch :: d :: p1), p2, (d :: t). split; [done|]. split; [by constructor|]. split; [done|].
    rewrite !spell_cons, Ey, <- !app_assoc. change (put_code_point backslash_ch) with [backslash]. cbn [app length]. f_equal. rewrite length_app. lia.
  - rewrite head_high by done. destruct (IH p (i + 1 + length xs) ((text ++ [x]) ++ xs) ltac:(lia) Hp) as (p1 & p2 & t & -> & Hr & Hst & ->).
    exists (c :: p1), p2, (c :: t). split; [done|]. split; [constructor; [unfold plain; by rewrite Ew, Eb|done]|]. split; [done|].
    rewrite !spell_cons, Ex, <- !app_assoc. cbn [app length]. f_equal. rewrite length_app. lia.
Qed.

Lemma literal_head_ok p :
  scalars p →
  ∃ p1 p2 t, p = p1 ++ p2 ∧ resolves p1 t ∧ head_stop p2 ∧ literal_head (spell p) = mkHead (spell t) (length (spell p1)).
Proof. intros Hp. apply (literal_head_from_ok (S (length p)) p 0 []); [lia|done]. Qed.

Lemma resolves_scalars p t : resolves p t → scalars p → scalars t.
Proof.
  induction 1 as [|c p t _ _ IH|d p t _ _ IH]; [done| |].
  - rewrite !Forall_cons. naive_solver. - rewrite !Forall_cons. naive_solver.
Qed.

(** ** Separators in the prefix *)

Lemma double_high xs s i : Forall high xs → double_slash (xs ++ s) i = double_slash s (i + length xs).
Proof.
  intros H. revert i. induction H as [|x xs Hx _ IH]; intros i; [cbn; by rewrite Nat.add_0_r|]. cbn [app].
  assert (double_slash (x :: xs ++ s) i = double_slash (xs ++ s) (i + 1)) as ->.
  { destruct (xs ++ s) as [|y r] eqn:E; [done|]. cbn [double_slash].
    by rewrite (high_neq x slash), andb_false_r by (done || (vm_compute; reflexivity)). }
  rewrite IH. cbn [length]. f_equal. lia.
Qed.

Lemma double_slash_clean p i : scalars p → double_slash (spell p) i = None ↔ clean p [] = true.
Proof.
  intros Hp. revert i. induction Hp as [|c p Hc Hp IH]; intros i; [done|]. destruct (put_head c Hc) as (x & xs & Ex & Hxs & Hch).
  cbn [clean]. rewrite app_nil_r, andb_true_iff, spell_cons, Ex. cbn [app].
  assert (Hstep : double_slash (x :: xs ++ spell p) i = if is_ch c slash && starts_slash p then Some i else double_slash (xs ++ spell p) (i + 1)).
  { destruct (is_ch c slash) eqn:Es; cbn [andb].
    - apply Z.eqb_eq in Es as ->. rewrite put_ascii in Ex by (vm_compute; reflexivity). injection Ex as <- <-. cbn [app].
      destruct p as [|d p]; [done|]. destruct (put_head d (Forall_inv Hp)) as (y & ys & Ey & _ & Hdh). rewrite spell_cons, Ey. cbn [app double_slash starts_slash].
      by rewrite byte_eqb_refl, andb_true_r, Hdh by (vm_compute; reflexivity).
    - destruct (xs ++ spell p) as [|y r]; [done|]. cbn [double_slash]. by rewrite (Hch slash), Es, andb_false_r by (vm_compute; reflexivity). }
  rewrite Hstep, (double_high xs) by done. destruct (is_ch c slash); cbn [andb].
  - destruct (starts_slash p); cbn [negb]; [naive_solver|]. rewrite IH. naive_solver.
  - rewrite IH. naive_solver.
Qed.

Lemma clean_app p1 t p2 : resolves p1 t → clean p1 p2 = clean p1 [] && negb (ends_slash t && starts_slash p2).
Proof.
  induction 1 as [|c p t Hc H IH|d p t Hd H IH]; [done| |].
  - cbn [clean]. rewrite IH, app_nil_r. destruct (decide (t = [])) as [->|Hn].
    + assert (p = []) as -> by (by inversion H). cbn [app clean starts_slash]. unfold ends_slash. cbn [last].
      destruct (is_ch c slash); [|done]. cbn. by rewrite andb_true_r.
    + assert (ends_slash (c :: t) = ends_slash t) as -> by (unfold ends_slash; destruct t; done).
      assert (Hp : p ≠ []) by (intros ->; by inversion H). assert (starts_slash (p ++ p2) = starts_slash p) as -> by (by destruct p).
      by rewrite andb_assoc.
  - cbn [clean]. change (is_ch backslash_ch slash) with false. rewrite Hd. cbn [andb]. rewrite IH. destruct (decide (t = [])) as [->|Hn].
    + unfold ends_slash. cbn [last]. rewrite Hd. by rewrite !andb_true_r || done.
    + by assert (ends_slash (d :: t) = ends_slash t) as -> by (unfold ends_slash; destruct t; done).
Qed.

(** The prefix ends a segment when its last byte is a separator. *)
Lemma last_spell t : scalars t → bool_decide (last (spell t) = Some slash) = ends_slash t.
Proof.
  intros Ht. unfold ends_slash. destruct (last t) as [c|] eqn:El; [|apply last_None in El as ->; done]. apply last_Some in El as [i ->].
  apply Forall_app in Ht as [_ Hc%Forall_inv]. rewrite spelled_app. change (spell [c]) with (put_code_point c ++ []). rewrite app_nil_r.
  destruct (put_head c Hc) as (x & xs & Ex & Hxs & Hch). rewrite Ex, last_app. rewrite <- Hch by (vm_compute; reflexivity).
  destruct (last (x :: xs)) as [y|] eqn:Ey; [|by apply last_None in Ey]. rewrite last_cons in Ey. apply eq_true_iff_eq.
  rewrite bool_decide_eq_true, byte_eqb_spec. destruct (last xs) as [z|] eqn:Ez.
  - simplify_eq. assert (Hz : high y) by (rewrite Forall_forall in Hxs; apply Hxs; apply last_Some in Ez as [? ->]; apply elem_of_app; right; left).
    split.
    + intros [= ->]. vm_compute in Hz. done.
    + intros ->. exfalso. pose proof (Hch slash ltac:(vm_compute; reflexivity)) as Hx. rewrite byte_eqb_refl in Hx. symmetry in Hx.
      apply Z.eqb_eq in Hx as ->. rewrite put_ascii in Ex by (vm_compute; reflexivity). by simplify_eq.
  - simplify_eq. naive_solver.
Qed.

(** ** UTF-8 *)

Lemma find_invalid_from_ok fuel s i :
  i ≤ length s → length s - i < fuel → find_invalid_from fuel s i = None ↔ utf8 (drop i s).
Proof.
  revert i. induction fuel as [|fuel IH]; intros i Hi Hf; [lia|]. cbn [find_invalid_from]. destruct (Nat.eqb_spec i (length s)) as [->|Hne].
  { rewrite drop_all. split; [intros _; apply utf8_nil|done]. }
  assert (Hd : drop i s ≠ []) by (intros E%(f_equal length); rewrite length_drop in E; cbn in E; lia).
  rewrite (decode_drop s i). pose proof (atom_len _ Hd) as Hl. rewrite length_drop in Hl. set (rest := drop i s) in *.
  unfold decode_utf8_atom in *. rewrite drop_0 in *. unfold decode_utf8 in *. destruct (decode_sequence rest false) as [z n v] eqn:Ed.
  cbn [valid code_point seq_length] in *. destruct v; cbn [negb cp len] in *.
  - apply decode_valid in Ed as ([Hz Hz'] & r & Er & ->). unfold invalid_atom_base. rewrite (proj2 (Z.leb_gt _ _)) by lia. rewrite IH by lia.
    rewrite <- drop_drop. fold rest. rewrite Er, drop_app_length. split.
    + intros H. apply utf8_app; [|done]. exists [z]. split; [by rewrite Forall_singleton|]. by rewrite spell_cons, app_nil_r.
    + intros (p & Hp & E). destruct p as [|c p].
      { apply app_nil in E as [E _]. by apply put_code_point_nonempty in E. }
      apply Forall_cons in Hp as [Hc Hp]. pose proof (decode_spell c p false Hc) as D. rewrite <- E, decode_put in D by done.
      injection D as -> _. rewrite spell_cons in E. apply app_inv_head in E as ->. by exists p.
  - unfold invalid_atom_base. pose proof (uval_range (rest !!! 0)). rewrite (proj2 (Z.leb_le _ _)) by lia. split; [done|].
    intros (p & Hp & E). destruct p as [|c p]; [done|]. apply Forall_cons in Hp as [Hc Hp]. rewrite E, decode_spell in Ed by done. done.
Qed.

Lemma find_invalid_utf8_ok s : find_invalid_utf8 s = None ↔ utf8 s.
Proof. unfold find_invalid_utf8. rewrite find_invalid_from_ok by lia. done. Qed.

(** ** Counting the arms *)

Lemma total_mul_app a b : total_ (a ++ b) = total_ a * total_ b.
Proof. unfold total_. induction a as [|x a IH]; cbn [app foldr]; [lia|]. by rewrite IH, Nat.mul_assoc. Qed.

Lemma total_reverse l : total_ (reverse l) = total_ l.
Proof. induction l as [|x l IH]; [done|]. rewrite reverse_cons, total_mul_app, IH. unfold total_. cbn [foldr]. lia. Qed.

Lemma count_arms_ok count braces :
  (1 ≤ count ≤ size_max)%Z → Forall (λ b, terms b ≠ []) braces → (count_arms count braces < size_max)%Z →
  count_arms count braces = (count * Z.of_nat (choice_total braces))%Z.
Proof.
  intros Hc Ht. unfold choice_total. rewrite total_reverse. revert count Hc. induction Ht as [|b braces Hb _ IH]; intros count Hc H; cbn in *; [lia|].
  fold (counts braces) in *. fold (total_ (counts braces)). set (n := Z.of_nat (length (terms b))) in *.
  assert (Hn : (1 ≤ n)%Z) by (unfold n; destruct (terms b); [done|cbn; lia]).
  destruct (Z.ltb_spec (size_max / n) count); [lia|].
  assert (count * n ≤ size_max)%Z by (pose proof (Z.mul_div_le size_max n ltac:(lia)); nia).
  rewrite IH by (lia || nia). rewrite Nat2Z.inj_mul. unfold n. lia.
Qed.

(** ** What a pattern stands for *)

Definition arms_begin (s : bytes) : nat := head_end (literal_head s).

Definition braces_of (s : bytes) (max_arms : Z) : expected (list Brace) GlobError :=
  if negb (max_arms =? 0)%Z && contains (drop (arms_begin s) s) "{"%byte then parse_braces s (arms_begin s) else Ok [].

(** The pattern with every brace expression replaced by one of its terms. *)
Definition expansion (s : bytes) (max_arms : Z) (t : bytes) : Prop :=
  ∃ braces c, braces_of s max_arms = Ok braces ∧ choice_ok braces c ∧
    t = take (arms_begin s) s ++ choice_text s (arms_begin s) braces c.

(** The parts of a pattern that is UTF-8. *)
Lemma pattern_parts s :
  utf8 s → ∃ p1 p2 t, scalars p1 ∧ scalars p2 ∧ resolves p1 t ∧ scalars t ∧ head_stop p2 ∧ s = spell p1 ++ spell p2 ∧
    literal_head s = mkHead (spell t) (length (spell p1)).
Proof.
  intros (p & Hp & ->). destruct (literal_head_ok p Hp) as (p1 & p2 & t & -> & Hr & Hst & Eh). apply Forall_app in Hp as [Hp1 Hp2].
  exists p1, p2, t. split; [done|]. split; [done|]. split; [done|]. split; [by apply (resolves_scalars p1)|]. split; [done|].
  split; [apply spelled_app|done].
Qed.

Lemma braces_of_ok s max_arms braces :
  arms_begin s ≤ length s → braces_of s max_arms = Ok braces → chain s (arms_begin s) braces (length s).
Proof.
  unfold braces_of. intros Hf. case_if; [by apply parse_braces_ok|]. intros [= <-]. done.
Qed.

(** ** The arms, asked together *)

Section Answer.
Variables (s : bytes) (from : nat) (braces : list Brace) (at_start : bool) (prog : Program).
Hypothesis Hwf : pools_wf (pools prog).
Hypothesis Hsound : ∀ a, a ∈ arms prog → ∃ c, choice_ok braces c ∧ arm_entry prog at_start a (atoms (choice_text s from braces c)).
Hypothesis Hcomplete : ∀ c, choice_ok braces c → ∃ a, a ∈ arms prog ∧ arm_entry prog at_start a (atoms (choice_text s from braces c)).

(** Some arm's text reads as a pattern for these names. *)
Definition some_arm (ws : list bytes) : Prop :=
  ∃ c, choice_ok braces c ∧ reads at_start (atoms (choice_text s from braces c)) ws.

Lemma any_hit str : existsb (λ a, arm_hit (pools prog) (segments prog) a str) (arms prog) = true ↔ some_arm (split_path str).
Proof.
  rewrite existsb_exists. setoid_rewrite <- list_elem_of_In. split.
  - intros (a & Ha & H). destruct (Hsound a Ha) as (c & Hc & He). exists c. split; [done|].
    destruct (arm_entry_hit _ _ _ _ str Hwf He) as (l & El & Hh & _). exists l. split; [done|]. by apply Hh.
  - intros (c & Hc & l & El & H). destruct (Hcomplete c Hc) as (a & Ha & He). exists a. split; [done|].
    destruct (arm_entry_hit _ _ _ _ str Hwf He) as (l' & El' & Hh & _). apply Hh. rewrite El in El'. by simplify_eq.
Qed.

Lemma any_absorbs : existsb absorbs_separator (arms prog) = true ↔ some_arm [].
Proof.
  rewrite existsb_exists. setoid_rewrite <- list_elem_of_In. split.
  - intros (a & Ha & H). destruct (Hsound a Ha) as (c & Hc & He). exists c. split; [done|].
    destruct (arm_entry_hit _ _ _ _ [] Hwf He) as (l & El & _ & Hh). exists l. split; [done|]. by apply Hh.
  - intros (c & Hc & l & El & H). destruct (Hcomplete c Hc) as (a & Ha & He). exists a. split; [done|].
    destruct (arm_entry_hit _ _ _ _ [] Hwf He) as (l' & El' & _ & Hh). apply Hh. rewrite El in El'. by simplify_eq.
Qed.
End Answer.

(** ** Sorting the arms *)

Lemma insert_arm_perm a l : insert_arm a l ≡ₚ a :: l.
Proof.
  induction l as [|x l IH]; [done|]. cbn [insert_arm]. destruct (key_lt (arm_key x) (arm_key a)); [|done]. rewrite IH. apply Permutation_swap.
Qed.

Lemma sort_arms_perm l : sort_arms l ≡ₚ l.
Proof. induction l as [|a l IH]; [done|]. cbn [sort_arms foldr]. fold (sort_arms l). by rewrite insert_arm_perm, IH. Qed.

Definition key_le (a b : Arm) : Prop := key_lt (arm_key b) (arm_key a) = false.

Lemma insert_arm_sorted a l : StronglySorted key_le l → StronglySorted key_le (insert_arm a l).
Proof.
  induction 1 as [|x l Hl IH Hx]; [by repeat constructor|]. cbn [insert_arm]. destruct (key_lt (arm_key x) (arm_key a)) eqn:E.
  - constructor; [done|]. rewrite insert_arm_perm. constructor; [|done]. unfold key_le, key_lt in *.
    rewrite orb_true_iff, andb_true_iff, Nat.ltb_lt, Nat.eqb_eq, Z.ltb_lt in E. rewrite orb_false_iff, andb_false_iff, Nat.ltb_ge, Nat.eqb_neq, Z.ltb_ge. lia.
  - constructor; [by constructor|]. constructor; [done|]. eapply Forall_impl; [exact Hx|]. intros y Hy. unfold key_le in *. by apply (key_lt_trans _ (arm_key x)).
Qed.

Lemma sort_arms_sorted l : key_sorted (sort_arms l).
Proof.
  assert (H : StronglySorted key_le (sort_arms l)).
  { induction l as [|a l IH]; [constructor|]. cbn [sort_arms foldr]. by apply insert_arm_sorted. }
  revert H. generalize (sort_arms l). clear l. intros l. unfold key_sorted. induction 1 as [|x l Hl IH Hx]; [done|].
  intros [|i] [|j] a b Hij Ha Hb; cbn in Ha, Hb; simplify_eq; [|rewrite Forall_forall in Hx; apply Hx; by apply list_elem_of_lookup_2 in Hb|lia|apply (IH i j); [lia|done|done]].
  unfold key_lt. rewrite Nat.ltb_irrefl, Z.ltb_irrefl. by rewrite andb_false_r.
Qed.

(** ** The modes *)

Lemma arm_literal_packed prog at_start a p :
  pools_wf (pools prog) → arm_entry prog at_start a p →
  arm_literal a = inhabitant ∨ ∃ t, token_kind t = TLiteral ∧ token_in (pools prog) t ∧ arm_literal a = pack_literal (pools prog) t.
Proof.
  intros Hwf (pre & segs & post & absorbs & l & _ & -> & Hok & _). unfold make_arm. destruct (choose_plan (pools prog) segs) as [pl hd].
  cbn [arm_literal]. unfold trailing_literal. set (s := segs !!! (length segs - 1)).
  assert (Hs : segment_ok (pools prog) s) by (apply segment_in; [done|]; destruct Hok as [Hn _ _ _]; destruct segs; [done|cbn; lia]).
  destruct (negb (recursive s) && negb (seg_begin s =? seg_end s) && _) eqn:E; [right|by left].
  rewrite !andb_true_iff, !negb_true_iff, Nat.eqb_neq, bool_decide_eq_true in E. destruct E as [[_ Hne] Hk]. destruct Hs as (H1 & H2 & _).
  eexists. split; [exact Hk|]. split; [|done]. apply Hwf. apply list_elem_of_lookup_2 with (seg_end s - 1). apply list_lookup_lookup_total_lt. lia.
Qed.

Lemma existsb_perm {A} (f : A → bool) l l' : l ≡ₚ l' → existsb f l = existsb f l'.
Proof. intros H. apply eq_true_iff_eq. rewrite !existsb_exists. setoid_rewrite <- list_elem_of_In. by setoid_rewrite H. Qed.

Lemma existsb_ext_in {A} (f f' : A → bool) l : (∀ a, a ∈ l → f a = f' a) → existsb f l = existsb f' l.
Proof.
  intros H. induction l as [|a l IH]; [done|]. cbn [existsb]. rewrite (H a) by left. rewrite IH; [done|]. intros x Hx. apply H. by right.
Qed.

Lemma forallb_elem {A} (f : A → bool) l a : forallb f l = true → a ∈ l → f a = true.
Proof. rewrite forallb_forall. intros H Ha. apply H. by apply list_elem_of_In. Qed.

(** What [match_arms] asks of the arms, after the prefix. *)
Definition ask (m : Mode) (prog : Program) (str : bytes) : bool :=
  match m with
  | ExtensionArms => match_extension_set (arms prog) str
  | SegmentSuffixArms => if contains str slash then false else existsb (λ a, literal_matches (pools prog) a str) (arms prog)
  | SuffixArms => existsb (λ a, literal_matches (pools prog) a str) (arms prog)
  | _ => existsb (λ a, arm_hit (pools prog) (segments prog) a str) (arms prog)
  end.

Definition with_mode (m : Mode) (prog : Program) : Program :=
  if bool_decide (m = ExtensionArms) then mkProgram (pools prog) (segments prog) (sort_arms (arms prog)) else prog.

Lemma ask_ok prog at_start at_seg_end root match_all str :
  pools_wf (pools prog) → (∀ a, a ∈ arms prog → ∃ p, arm_entry prog at_start a p) →
  let m := choose_mode prog at_seg_end root match_all in
  ask m (with_mode m prog) str = existsb (λ a, arm_hit (pools prog) (segments prog) a str) (arms prog).
Proof.
  intros Hwf Hent. unfold choose_mode.
  destruct match_all; [done|]. destruct ((length (arms prog) =? 1) && at_seg_end && _ && _); [done|].
  do 3 (destruct ((length (arms prog) =? 1) && root && _); [done|]).
  destruct (forallb (λ a, bool_decide (plan a = Suffix)) (arms prog)) eqn:Es.
  - assert (Hlit : existsb (λ a, literal_matches (pools prog) a str) (arms prog) = existsb (λ a, arm_hit (pools prog) (segments prog) a str) (arms prog)).
    { apply existsb_ext_in. intros a Ha. pose proof (forallb_elem _ _ a Es Ha) as Hp. cbn beta in Hp. apply bool_decide_eq_true in Hp.
      unfold arm_hit. by rewrite Hp. }
    destruct ((16 <=? length (arms prog)) && _) eqn:Ex; [|exact Hlit]. apply andb_true_iff in Ex as [_ Ex]. rewrite <- Hlit.
    unfold with_mode, ask. cbn [arms]. rewrite bool_decide_true by done. cbn [arms]. rewrite (match_extension_set_ok (pools prog)).
    + apply existsb_perm, sort_arms_perm.
    + apply sort_arms_sorted.
    + intros a Ha. rewrite sort_arms_perm in Ha. pose proof (forallb_elem _ _ a Ex Ha) as Hx. cbn beta in Hx. destruct (Hent a Ha) as [p Hp].
      destruct (arm_literal_packed _ _ _ _ Hwf Hp) as [El|(t & Hk & Hin & El)]; [rewrite El in Hx; done|].
      assert (Htext : substr (literals (pools prog)) (lit_begin (arm_literal a)) (lit_size (arm_literal a)) = literal (pools prog) t).
      { rewrite El. unfold pack_literal. by case_if. }
      rewrite Htext in Hx. exists (literal (pools prog) t). split; [done|].
      assert (Hlen : length (literal (pools prog) t) = token_size t).
      { unfold token_in in Hin. rewrite Hk in Hin. unfold literal. rewrite length_substr. lia. }
      unfold is_extension in Hx. rewrite !andb_true_iff, Nat.leb_le in Hx. destruct Hx as [[Hx _] _]. rewrite El. split; [apply pack_literal_packs; [done|done|lia]|].
      intros s. unfold literal_matches. rewrite El. by apply packed_matches_ok.
  - destruct (forallb (λ a, bool_decide (plan a = SegmentSuffix)) (arms prog)) eqn:Ess; [|done]. unfold with_mode, ask.
    rewrite bool_decide_false by done.
    assert (Hlit : existsb (λ a, arm_hit (pools prog) (segments prog) a str) (arms prog) = existsb (λ a, literal_matches (pools prog) a str && negb (contains str slash)) (arms prog)).
    { apply existsb_ext_in. intros a Ha. pose proof (forallb_elem _ _ a Ess Ha) as Hp. cbn beta in Hp. apply bool_decide_eq_true in Hp.
      unfold arm_hit. by rewrite Hp. }
    rewrite Hlit. destruct (contains str slash).
    + symmetry. clear. induction (arms prog) as [|a l IH]; [done|]. cbn [existsb]. by rewrite andb_false_r, IH.
    + apply existsb_ext_in. intros a _. by rewrite andb_true_r.
Qed.

(** ** The prefix, then the arms *)

(** The prefix's text stands before what [some] accepts; a separator that ends
    it may be missing where nothing follows. *)
Definition after_text (t : list Z) (some : list bytes → Prop) (str : bytes) : Prop :=
  if decide (t = []) then some (split_path str)
  else if ends_slash t then
    (str = spell (take (length t - 1) t) ∧ some []) ∨ ∃ str', str = spell t ++ str' ∧ some (split_path str')
  else ∃ str', str = spell t ++ str' ∧ some (split_path str').

Lemma after_prefix_text at_ t p2 str : after_prefix at_ t p2 str ↔ after_text t (reads (start_after at_ t) p2) str.
Proof.
  unfold after_prefix, after_text, start_after. destruct (decide (t = [])); [done|]. by destruct (ends_slash t).
Qed.

Lemma after_text_some {A} t (P : A → Prop) (R : A → list bytes → Prop) str :
  (∃ c, P c ∧ after_text t (R c) str) ↔ after_text t (λ ws, ∃ c, P c ∧ R c ws) str.
Proof.
  unfold after_text. destruct (decide (t = [])); [done|]. destruct (ends_slash t).
  - split.
    + intros (c & Hc & [[E H]|(str' & E & H)]); [left|right; exists str']; (split; [done|]); by exists c.
    + intros [[E (c & Hc & H)]|(str' & E & c & Hc & H)]; exists c; (split; [done|]); [by left|right; by exists str'].
  - split.
    + intros (c & Hc & str' & E & H). exists str'. split; [done|]. by exists c.
    + intros (str' & E & c & Hc & H). exists c. split; [done|]. by exists str'.
Qed.

(** The prefix as [create] keeps it. *)
Definition kept_prefix (t : list Z) : bytes := if ends_slash t then spell (take (length t - 1) t) else spell t.

Lemma ends_slash_split t : ends_slash t = true → t = take (length t - 1) t ++ [slash_ch].
Proof.
  unfold ends_slash. destruct (last t) as [c|] eqn:E; [|done]. intros Ec. apply Z.eqb_eq in Ec as ->. apply last_Some in E as [i ->].
  by rewrite length_app, Nat.add_sub, take_app_length.
Qed.

Lemma spell_slash t : ends_slash t = true → spell t = spell (take (length t - 1) t) ++ [slash].
Proof. intros H. rewrite (ends_slash_split t H) at 1. rewrite spelled_app. done. Qed.

Lemma spell_nil_iff t : spell t = [] ↔ t = [].
Proof.
  split; [|by intros ->]. destruct t as [|c t]; [done|]. rewrite spell_cons. intros [H _]%app_nil. by apply put_code_point_nonempty in H.
Qed.

Lemma starts_with_split (str p : bytes) : starts_with str p = true ↔ str = p ++ drop (length p) str.
Proof.
  rewrite starts_with_iff. split; [intros E; by rewrite <- E at 1; rewrite take_drop|]. intros ->. apply take_app_length.
Qed.

(** Taking the prefix off the path. *)
Lemma prefix_answer t (some : list bytes → Prop) (absorbs : bool) (answer : bytes → bool) str :
  (∀ r, answer r = true ↔ some (split_path r)) → (absorbs = true ↔ some []) →
  (if negb (bool_decide (kept_prefix t = [])) && negb (starts_with str (kept_prefix t)) then false
   else
     let r := drop (length (kept_prefix t)) str in
     if ends_slash t && bool_decide (r = []) then absorbs
     else if ends_slash t && negb (r !!! 0 =?b slash) then false
     else answer (if ends_slash t then drop 1 r else r)) = true ↔ after_text t some str.
Proof.
  intros Ha Hb. unfold after_text. set (p := kept_prefix t).
  assert (Hpre : (if negb (bool_decide (p = [])) && negb (starts_with str p) then false
     else let r := drop (length p) str in
     if ends_slash t && bool_decide (r = []) then absorbs
     else if ends_slash t && negb (r !!! 0 =?b slash) then false
     else answer (if ends_slash t then drop 1 r else r)) = true ↔
    ∃ r, str = p ++ r ∧ (if ends_slash t then (r = [] ∧ some []) ∨ ∃ r', r = slash :: r' ∧ some (split_path r') else some (split_path r))).
  { assert (Hrest : ∀ r, (if ends_slash t && bool_decide (r = []) then absorbs
       else if ends_slash t && negb (r !!! 0 =?b slash) then false
       else answer (if ends_slash t then drop 1 r else r)) = true ↔
      (if ends_slash t then (r = [] ∧ some []) ∨ ∃ r', r = slash :: r' ∧ some (split_path r') else some (split_path r))).
    { intros r. destruct (ends_slash t); cbn [andb]; [|by rewrite Ha]. destruct r as [|c r]; cbn [bool_decide].
      - rewrite bool_decide_true by done. rewrite Hb. split; [by left|]. intros [[_ H]|(r' & ? & _)]; done.
      - rewrite bool_decide_false by done. change ((c :: r) !!! 0) with c. destruct (c =?b slash) eqn:Ec; cbn [negb].
        + apply byte_eqb_spec in Ec as ->. change (drop 1 (slash :: r)) with r. rewrite Ha. split; [intros H; right; by exists r|].
          intros [[? _]|(r' & [= <-] & H)]; done.
        + apply byte_eqb_neq in Ec. split; [done|]. intros [[? _]|(r' & [= ? _] & _)]; done. }
    destruct (starts_with str p) eqn:Es.
    - rewrite andb_false_r. cbv zeta. rewrite Hrest. apply starts_with_split in Es. split; [intros H; by eexists|].
      intros (r & -> & H). by rewrite drop_app_length.
    - rewrite andb_true_r. destruct (decide (p = [])) as [E|E]; [rewrite E in Es; done|]. rewrite bool_decide_false by done. cbn [negb].
      split; [done|]. intros (r & -> & _). apply not_true_iff_false in Es. destruct Es. apply starts_with_iff. apply take_app_length. }
  rewrite Hpre. unfold p, kept_prefix. destruct (decide (t = [])) as [->|Hn].
  { change (ends_slash []) with false. cbn [spell]. split; [by intros (r & -> & H)|]. intros H. by exists str. }
  destruct (ends_slash t) eqn:Et.
  - rewrite (spell_slash t Et). split.
    + intros (r & -> & [[-> H]|(r' & -> & H)]); [left; by rewrite app_nil_r|right]. exists r'. by rewrite <- app_assoc.
    + intros [[-> H]|(str' & -> & H)].
      * exists []. rewrite app_nil_r. split; [done|]. by left.
      * exists (slash :: str'). rewrite <- app_assoc. split; [done|]. right. by exists str'.
  - done.
Qed.

Lemma kept_prefix_ok t :
  scalars t → (if ends_slash t then take (length (spell t) - 1) (spell t) else spell t) = kept_prefix t.
Proof.
  intros Ht. unfold kept_prefix. destruct (ends_slash t) eqn:E; [|done]. rewrite (spell_slash t E), length_app. cbn [length].
  by rewrite Nat.add_sub, take_app_length.
Qed.

Lemma kept_prefix_start t : bool_decide (kept_prefix t = []) || ends_slash t = start_after true t.
Proof.
  unfold start_after, kept_prefix. destruct (decide (t = [])) as [->|Hn]; [done|]. destruct (ends_slash t); [by rewrite orb_true_r|].
  rewrite orb_false_r. apply bool_decide_false. by rewrite spell_nil_iff.
Qed.

Lemma kept_prefix_root t : bool_decide (kept_prefix t = []) && negb (ends_slash t) = bool_decide (t = []).
Proof.
  unfold kept_prefix. destruct (ends_slash t) eqn:E.
  - rewrite andb_false_r. symmetry. apply bool_decide_false. by intros ->.
  - rewrite andb_true_r. apply bool_decide_ext, spell_nil_iff.
Qed.

(** ** Every mode *)

Lemma globstar_all ws : path_matches [Globstar] ws.
Proof. rewrite <- (app_nil_r ws). apply pm_star, pm_nil. Qed.

Lemma star_matches l : matches [OStar] l.
Proof. apply matches_star_iff. exists (length l). split; [done|]. rewrite drop_all. constructor. Qed.

(** Two stars alone match every path. *)
Lemma match_all_reads text str : text = lit "**" ∨ text = lit "**/" → reads true (atoms text) (split_path str).
Proof.
  intros [-> | ->]; (eexists; split; [vm_compute; reflexivity|]).
  - apply globstar_all.
  - destruct (exists_last (split_path_nonempty str)) as (ws & w & ->). apply pm_star. apply pm_name; [apply star_matches|apply pm_nil].
Qed.

(** An arm of one segment that is a globstar. *)
Lemma globstar_arm prog at_start a p ws :
  arm_entry prog at_start a p → arm_end a = arm_begin a + 1 → recursive (segments prog !!! arm_begin a) = true → reads at_start p ws.
Proof.
  intros (pre & segs & post & absorbs & l & Hall & -> & _ & Hread & Heq & _). unfold make_arm. destruct (choose_plan (pools prog) segs) as [pl hd].
  cbn [arm_begin arm_end]. intros Hl Hr. destruct segs as [|x [|y segs]]; cbn [length] in Hl; [lia| |lia]. exists l. split; [done|]. rewrite <- Heq.
  rewrite Hall, lookup_total_app_r, Nat.sub_diag in Hr by lia. cbn in Hr. cbn [fmap list_fmap]. unfold segment_spec. unfold recursive in Hr.
  apply bool_decide_eq_true in Hr. rewrite decide_True by done. apply globstar_all.
Qed.

Section Modes.
Variables (s : bytes) (from : nat) (braces : list Brace) (t : list Z) (prog : Program) (match_all : bool).
Hypothesis Hwf : pools_wf (pools prog).
Hypothesis Harms : arms prog ≠ [].
Hypothesis Hsound : ∀ a, a ∈ arms prog → ∃ c, choice_ok braces c ∧ arm_entry prog (start_after true t) a (atoms (choice_text s from braces c)).
Hypothesis Hcomplete : ∀ c, choice_ok braces c → ∃ a, a ∈ arms prog ∧ arm_entry prog (start_after true t) a (atoms (choice_text s from braces c)).
Hypothesis Hall : match_all = true → ∃ c, choice_ok braces c ∧ is_match_all s from braces (bool_decide (t = [])) c.

Abbreviation some_ := (some_arm s from braces (start_after true t)).
Abbreviation m := (choose_mode prog (ends_slash t) (bool_decide (t = [])) match_all).
Abbreviation pat := (mkPattern (kept_prefix t) (ends_slash t) m (with_mode m prog)).

(** The arms behind the prefix, whatever the mode. *)
Lemma match_arms_ok str : match_arms pat str = true ↔ after_text t some_ str.
Proof.
  rewrite <- (prefix_answer t some_ (existsb absorbs_separator (arms (with_mode m prog))) (ask m (with_mode m prog)) str).
  - unfold match_arms. cbn [prefix prefix_at_seg_end mode program]. generalize (with_mode m prog). intros q. by destruct m.
  - intros r. rewrite (ask_ok prog (start_after true t)) by (done || (intros a Ha; destruct (Hsound a Ha) as (c & _ & H); by eexists)).
    by apply any_hit.
  - rewrite <- (any_absorbs s from braces (start_after true t) prog) by done. unfold with_mode. destruct (bool_decide (m = ExtensionArms)); [|done]. cbn [arms].
    by rewrite (existsb_perm _ _ _ (sort_arms_perm (arms prog))).
Qed.

(** One arm, at the root. *)
Lemma single_arm_ok str a :
  arms prog = [a] → t = [] → arm_hit (pools prog) (segments prog) a str = true ↔ after_text t some_ str.
Proof.
  intros Ha Ht. unfold after_text. rewrite decide_True by done. rewrite <- (any_hit s from braces (start_after true t) prog) by done.
  rewrite Ha. cbn [existsb]. by rewrite orb_false_r.
Qed.

(** The prefix and everything below it. *)
Lemma prefix_tree_mode_ok str a :
  arms prog = [a] → ends_slash t = true → arm_end a = arm_begin a + 1 → recursive (segments prog !!! arm_begin a) = true →
  starts_with str (kept_prefix t) && ((length str =? length (kept_prefix t)) || (str !!! length (kept_prefix t) =?b slash)) = true
  ↔ after_text t some_ str.
Proof.
  intros Ha Ht Hone Hrec. assert (Hsome : ∀ ws, some_ ws).
  { intros ws. destruct (Hsound a ltac:(rewrite Ha; left)) as (c & Hc & He). exists c. split; [done|]. by apply (globstar_arm prog _ a). }
  unfold after_text. rewrite decide_False by (by intros ->). rewrite Ht, (spell_slash t Ht). unfold kept_prefix. rewrite Ht.
  set (p := spell (take (length t - 1) t)). rewrite andb_true_iff, starts_with_split, orb_true_iff, Nat.eqb_eq, byte_eqb_spec. split.
  - intros [E H]. rewrite E in H. rewrite E. set (r := drop (length p) str) in *. clearbody r. rewrite length_app in H.
    rewrite lookup_total_app_r, Nat.sub_diag in H by lia. destruct r as [|x r]; [left; by rewrite app_nil_r|]. cbn in H.
    destruct H as [?| ->]; [lia|]. right. exists r. by rewrite <- app_assoc.
  - intros [[-> _]|(str' & -> & _)]; [by rewrite drop_all, app_nil_r; auto|]. rewrite <- app_assoc, drop_app_length. split; [done|]. right.
    by rewrite lookup_total_app_r, Nat.sub_diag by lia.
Qed.

(** What makes each mode be chosen. *)
Lemma mode_cases :
  match m with
  | LiteralMode => False
  | AnyMode => match_all = true
  | PrefixTreeMode => ∃ a, arms prog = [a] ∧ ends_slash t = true ∧ arm_end a = arm_begin a + 1 ∧ recursive (segments prog !!! arm_begin a) = true
  | SuffixMode => ∃ a, arms prog = [a] ∧ t = [] ∧ plan a = Suffix
  | PathSuffixMode => ∃ a, arms prog = [a] ∧ t = [] ∧ plan a = PathSuffix
  | SegmentSuffixMode => ∃ a, arms prog = [a] ∧ t = [] ∧ plan a = SegmentSuffix
  | ArmsMode | SuffixArms | SegmentSuffixArms | ExtensionArms => True
  end.
Proof.
  assert (Hone : length (arms prog) =? 1 = true → arms prog = [arms prog !!! 0]).
  { intros H%Nat.eqb_eq. by destruct (arms prog) as [|a [|]]. }
  unfold choose_mode. destruct match_all; [done|].
  destruct ((length (arms prog) =? 1) && ends_slash t && _ && _) eqn:E.
  { rewrite !andb_true_iff in E. destruct E as [[[H1 H2] H3] H4]. apply Nat.eqb_eq in H3. exists (arms prog !!! 0).
    split; [by apply Hone|done]. }
  clear E.
  do 3 (match goal with |- context [if ?x && bool_decide (t = []) && bool_decide ?y then _ else _] => destruct (x && bool_decide (t = []) && bool_decide y) eqn:E end;
    [rewrite !andb_true_iff, !bool_decide_eq_true in E; destruct E as [[H1 H2] H3]; exists (arms prog !!! 0); split; [by apply Hone|done]|clear E]).
  by repeat match goal with |- context [if ?x then _ else _] => destruct x end.
Qed.

Lemma modes_ok str : glob_match pat str = true ↔ after_text t some_ str.
Proof.
  pose proof (match_arms_ok str) as Hgen. pose proof mode_cases as Hcase. unfold glob_match. cbn [mode prefix program prefix_at_seg_end].
  destruct m eqn:Em; try done; unfold with_mode in *; cbn [bool_decide] in *; rewrite ?bool_decide_false by done.
  - destruct (Hall Hcase) as (c & Hc & Hr & Htext). apply bool_decide_eq_true in Hr.
    unfold after_text. rewrite decide_True by done. split; [|done]. intros _. exists c. split; [done|].
    unfold start_after. rewrite decide_True by done. by apply match_all_reads.
  - destruct Hcase as (a & Ha & Ht & Hone & Hrec). by apply (prefix_tree_mode_ok str a).
  - destruct Hcase as (a & Ha & Ht & Hp). rewrite <- (single_arm_ok str a) by done. rewrite Ha. unfold arm_hit. by rewrite Hp.
  - destruct Hcase as (a & Ha & Ht & Hp). rewrite <- (single_arm_ok str a) by done. rewrite Ha. unfold arm_hit. by rewrite Hp.
  - destruct Hcase as (a & Ha & Ht & Hp). rewrite <- (single_arm_ok str a) by done. rewrite Ha. unfold arm_hit. by rewrite Hp.
Qed.
End Modes.

(** ** [finish] *)

Lemma count_arms_le count braces :
  (1 ≤ count)%Z → Forall (λ b, terms b ≠ []) braces → (count_arms count braces ≤ count * Z.of_nat (choice_total braces))%Z.
Proof.
  intros Hc Ht. unfold choice_total. rewrite total_reverse. revert count Hc.
  assert (Hpos : ∀ l : list Brace, Forall (λ b, terms b ≠ []) l → 1 ≤ total_ (counts l)).
  { induction 1 as [|b l Hb _ IH]; [done|]. cbn. fold (counts l). fold (total_ (counts l)). destruct (terms b); [done|cbn [length]; lia]. }
  induction Ht as [|b braces Hb Ht IH]; intros count Hc; cbn [count_arms]; [cbn; lia|].
  specialize (Hpos braces Ht). cbn. fold (counts braces) in *. fold (total_ (counts braces)). set (n := Z.of_nat (length (terms b))) in *.
  assert (Hn : (1 ≤ n)%Z) by (unfold n; destruct (terms b); [done|cbn; lia]). rewrite Nat2Z.inj_mul. fold n.
  destruct (Z.ltb_spec (size_max / n) count) as [H|H].
  - apply Z.div_lt_upper_bound in H || (assert (size_max < count * n)%Z by (pose proof (Z.mul_succ_div_gt size_max n ltac:(lia)); nia)). nia.
  - specialize (IH (count * n)%Z ltac:(nia)). nia.
Qed.

Lemma starts_with_slash text : utf8 text → starts_with text (lit "/") = starts_slash (atoms text).
Proof.
  intros Hu. destruct (utf8_atoms _ Hu) as [Ha E]. revert E Ha. generalize (atoms text). intros p -> Hp. destruct p as [|c p]; [done|].
  apply Forall_cons in Hp as [Hc _]. destruct (put_head c Hc) as (x & xs & Ex & _ & Hch). rewrite spell_cons, Ex. cbn [app starts_slash].
  rewrite <- (Hch slash) by (vm_compute; reflexivity). apply eq_true_iff_eq. rewrite starts_with_iff, byte_eqb_spec. cbn. split; [by intros [= ->]|by intros ->].
Qed.

(** The text of an expansion. *)
Definition expanded (s : bytes) (braces : list Brace) (c : list nat) : bytes :=
  take (arms_begin s) s ++ choice_text s (arms_begin s) braces c.

(** What [create] asks of a pattern. *)
Definition few (max_arms : Z) (braces : list Brace) : Prop := max_arms = 0%Z ∨ (Z.of_nat (choice_total braces) ≤ max_arms)%Z.

Definition acceptable (s : bytes) (max_arms : Z) : Prop :=
  utf8 s ∧ ∃ braces, braces_of s max_arms = Ok braces ∧ few max_arms braces ∧
    ∀ c, choice_ok braces c → is_Some (read_pattern true (atoms (expanded s braces c))).

Definition answers (s : bytes) (max_arms : Z) (pat : GlobPattern) : Prop :=
  ∀ str, glob_match pat str = true ↔ ∃ t, expansion s max_arms t ∧ reads true (atoms t) (split_path str).

Lemma no_choice c : choice_ok [] c ↔ c = [].
Proof. unfold choice_ok, counts. cbn. split; [by inversion 1|intros ->; constructor]. Qed.

Lemma reads_nil at_ ws : reads at_ [] ws ↔ ws = [[]].
Proof.
  assert (E : read_pattern at_ [] = Some [Name []]) by (by destruct at_). unfold reads. rewrite E. split.
  - intros (l & [= <-] & H). apply path_name_iff in H as (w & ws' & -> & Hm & H). inversion H; subst. apply matches_nil_iff, atoms_nil in Hm as ->. done.
  - intros ->. eexists. split; [done|]. apply pm_name; [apply m_nil|apply pm_nil].
Qed.

Lemma split_path_empty str : split_path str = [[]] ↔ str = [].
Proof.
  split; [|by intros ->]. destruct str as [|c str]; [done|]. cbn [split_path]. pose proof (split_path_nonempty str).
  destruct (c =?b slash); [by intros [= E]|]. by destruct (split_path str).
Qed.

(** An escape of a separator, or of nothing, is in every expansion. *)
Lemma read_pattern_bad at_ r : r = [] ∨ starts_slash r = true → read_pattern at_ (backslash_ch :: r) = None.
Proof.
  intros Hr. unfold read_pattern. cbn [read_segments]. unfold read_segment.
  assert ((if at_ then globstar_at (backslash_ch :: r) else None) = None) as -> by (destruct at_, r as [|? [|??]]; done).
  cbn [read_name]. change (is_ch backslash_ch slash) with false. cbn [read_op]. unfold read_op. cbn.
  destruct Hr as [->|Hr]; [done|]. destruct r as [|d r]; [done|]. cbn in Hr. by rewrite Hr.
Qed.

Section Create.
Variables (s : bytes) (max_arms : Z) (p1 p2 t : list Z).
Hypothesis Hmax : (0 ≤ max_arms < size_max)%Z.
Hypothesis Hp1 : scalars p1.
Hypothesis Hp2 : scalars p2.
Hypothesis Hres : resolves p1 t.
Hypothesis Ht : scalars t.
Hypothesis Es : s = spell p1 ++ spell p2.
Hypothesis Ehead : literal_head s = mkHead (spell t) (length (spell p1)).

Abbreviation from := (length (spell p1)).

Lemma arms_begin_eq : arms_begin s = from.
Proof. unfold arms_begin. by rewrite Ehead. Qed.

Lemma from_le : from ≤ length s.
Proof. rewrite Es, length_app. lia. Qed.

Lemma pattern_utf8 : utf8 s ∧ utf8 (drop from s).
Proof.
  split.
  - exists (p1 ++ p2). split; [by apply Forall_app|]. by rewrite spelled_app.
  - exists p2. split; [done|]. by rewrite Es, drop_app_length.
Qed.

Lemma expanded_atoms braces c : atoms (expanded s braces c) = p1 ++ atoms (choice_text s from braces c).
Proof. unfold expanded. rewrite arms_begin_eq. rewrite Es at 1. rewrite take_app_length. by apply atoms_spell. Qed.

Lemma expanded_readable braces c :
  is_Some (read_pattern true (atoms (expanded s braces c))) ↔
  clean p1 [] = true ∧ ends_slash t && starts_slash (atoms (choice_text s from braces c)) = false ∧
  is_Some (read_pattern (start_after true t) (atoms (choice_text s from braces c))).
Proof.
  rewrite expanded_atoms, (prefix_readable p1 t) by done. rewrite (clean_app p1 t), andb_true_iff, negb_true_iff by done. tauto.
Qed.

Lemma expanded_reads braces c str :
  reads true (atoms (expanded s braces c)) (split_path str) ↔
  clean p1 (atoms (choice_text s from braces c)) = true ∧ after_text t (reads (start_after true t) (atoms (choice_text s from braces c))) str.
Proof. rewrite expanded_atoms, (prefix_reads p1 t) by done. by rewrite after_prefix_text. Qed.

Lemma choice_utf8 braces c : braces_of s max_arms = Ok braces → choice_ok braces c → utf8 (choice_text s from braces c).
Proof.
  intros Hb Hc. destruct pattern_utf8 as [Hu Hd]. apply arm_text_utf8; [done|done|apply from_le| |done].
  rewrite <- arms_begin_eq. apply (braces_of_ok s max_arms); [rewrite arms_begin_eq; apply from_le|done].
Qed.

Lemma braces_terms braces : braces_of s max_arms = Ok braces → Forall (λ b, terms b ≠ []) braces.
Proof. intros Hb. eapply chain_terms, braces_of_ok; [|done]. rewrite arms_begin_eq. apply from_le. Qed.

(** The arms, once the braces are known. *)
Lemma arms_ok braces :
  clean p1 [] = true → braces_of s max_arms = Ok braces → (count_arms 1 braces < size_max)%Z →
  match compile_arms (Z.to_nat (count_arms 1 braces)) s from braces (ends_slash t) (start_after true t) (bool_decide (t = []))
    (replicate (length braces) 0) no_program false with
  | Ok (prog, all_) =>
      let m := choose_mode prog (ends_slash t) (bool_decide (t = [])) all_ in
      (∀ c, choice_ok braces c → is_Some (read_pattern true (atoms (expanded s braces c)))) ∧
      answers s max_arms (mkPattern (kept_prefix t) (ends_slash t) m (with_mode m prog))
  | Err _ => ∃ c, choice_ok braces c ∧ ¬ is_Some (read_pattern true (atoms (expanded s braces c)))
  end.
Proof.
  intros Hclean Hb Hcount. pose proof (braces_terms braces Hb) as Hterms. destruct (first_choice braces Hterms) as [Hfirst Hrank].
  assert (Htext := λ c, choice_utf8 braces c Hb).
  assert (Hread : ∀ c, choice_ok braces c →
    readable s from braces (ends_slash t) (start_after true t) c ↔ is_Some (read_pattern true (atoms (expanded s braces c)))).
  { intros c Hc. rewrite expanded_readable. unfold readable. rewrite (starts_with_slash _ (Htext c Hc)). tauto. }
  assert (Hfuel : Z.to_nat (count_arms 1 braces) + choice_rank braces (replicate (length braces) 0) = choice_total braces).
  { rewrite Hrank, count_arms_ok by (done || (unfold size_max; lia)). lia. }
  pose proof (compile_arms_ok s from braces (ends_slash t) (start_after true t) (bool_decide (t = [])) Htext
    (Z.to_nat (count_arms 1 braces)) (replicate (length braces) 0) no_program false Hfirst Hfuel ltac:(by intros ? ?%elem_of_nil)) as H.
  destruct (compile_arms _ _ _ _ _ _ _ _ _ _) as [[prog all_]|e].
  2:{ destruct H as (c & Hc & H). exists c. split; [done|]. by rewrite <- Hread. }
  destruct H as (_ & Hwf & new & Ha & Hn & Hsound & Hcomplete & Hall). cbn [app] in Ha. change (arms no_program ++ new) with new in Ha.
  assert (Hr : ∀ c, choice_ok braces c → is_Some (read_pattern true (atoms (expanded s braces c)))).
  { intros c Hc. apply Hread; [done|]. apply Hcomplete; [done|]. rewrite Hrank. lia. }
  split; [done|]. intros str.
  rewrite (modes_ok s from braces); [|done|by rewrite Ha|by rewrite Ha| |].
  - unfold some_arm. rewrite <- after_text_some. split.
    + intros (c & Hc & H). exists (expanded s braces c). split; [by exists braces, c|]. apply expanded_reads. split; [|done].
      specialize (Hr c Hc). apply expanded_readable in Hr as (_ & Hr & _). by rewrite (clean_app p1 t), Hclean, Hr by done.
    + intros (x & (braces' & c & Hb' & Hc & ->) & H). rewrite Hb in Hb'. injection Hb' as <-. exists c. split; [done|]. by apply expanded_reads in H as [_ H].
  - intros c Hc. rewrite Ha. apply Hcomplete; [done|]. rewrite Hrank. lia.
  - intros E. apply Hall in E as [?|(c & Hc & _ & H)]; [done|]. by exists c.
Qed.

Lemma finish_ok :
  clean p1 [] = true →
  match finish s max_arms (spell t) from with
  | Ok pat => acceptable s max_arms ∧ answers s max_arms pat
  | Err _ => ¬ acceptable s max_arms
  end.
Proof.
  intros Hclean. destruct pattern_utf8 as [Hu _]. unfold finish. cbv zeta. rewrite last_spell, kept_prefix_ok, kept_prefix_root, kept_prefix_start by done.
  assert (Eb : (if negb (max_arms =? 0)%Z && contains (drop from s) "{"%byte then parse_braces s from else Ok []) = braces_of s max_arms).
  { unfold braces_of. by rewrite arms_begin_eq. }
  rewrite Eb. destruct (braces_of s max_arms) as [braces|e] eqn:Hb; cbn [ebind].
  2:{ intros (_ & braces & Hb' & _). by rewrite Hb in Hb'. }
  pose proof (braces_terms braces Hb) as Hterms. pose proof (count_arms_le 1 braces ltac:(lia) Hterms) as Hle.
  destruct ((max_arms <? count_arms 1 braces)%Z && negb (max_arms =? 0)%Z) eqn:Emany.
  { rewrite andb_true_iff, Z.ltb_lt, negb_true_iff, Z.eqb_neq in Emany. intros (_ & braces' & Hb' & [H|H] & _); [lia|]. rewrite Hb in Hb'. injection Hb' as <-. lia. }
  assert (Hcount : (count_arms 1 braces < size_max)%Z ∧ few max_arms braces).
  { destruct (Z.eqb_spec max_arms 0) as [->|Hm].
    - unfold braces_of in Hb. cbn in Hb. injection Hb as <-. split; [done|]. by left.
    - rewrite andb_true_r, Z.ltb_ge in Emany. split; [lia|]. right. rewrite count_arms_ok in Emany by (done || (unfold size_max in *; lia)). lia. }
  destruct Hcount as [Hcount Hfew]. pose proof (arms_ok braces Hclean Hb Hcount) as H.
  destruct (compile_arms _ _ _ _ _ _ _ _ _ _) as [[prog all_]|e]; cbn [ebind].
  - destruct H as [Hr Hans]. split; [|done]. split; [done|]. by exists braces.
  - intros (_ & braces' & Hb' & _ & Hall). rewrite Hb in Hb'. injection Hb' as <-. destruct H as (c & Hc & H). apply H. by apply Hall.
Qed.
(** A choice there always is. *)
Lemma some_choice braces : braces_of s max_arms = Ok braces → ∃ c, choice_ok braces c.
Proof. intros Hb. destruct (first_choice braces (braces_terms braces Hb)) as [Hc _]. by eexists. Qed.

Lemma unclean_rejected : clean p1 [] = false → ¬ acceptable s max_arms.
Proof.
  intros Hcl (_ & braces & Hb & _ & H). destruct (some_choice braces Hb) as [c Hc]. apply (H c), expanded_readable in Hc as [? _]. by rewrite Hcl in *.
Qed.

(** A pattern without wildcards. *)
Lemma literal_braces : p2 = [] → braces_of s max_arms = Ok [].
Proof. intros ->. unfold braces_of. rewrite arms_begin_eq, Es, drop_app_length. cbn. by rewrite andb_false_r. Qed.

Lemma literal_text : p2 = [] → choice_text s from [] [] = [].
Proof.
  intros E. unfold choice_text, arm_text. cbn. rewrite app_nil_r. unfold view_text. cbn. rewrite Es, E. cbn [spell mbind list_bind].
  unfold substr. change (spell []) with (@nil byte). rewrite app_nil_r, Nat.sub_diag. by rewrite take_0.
Qed.

Lemma literal_answers str : after_text t (reads (start_after true t) []) str ↔ str = spell t.
Proof.
  unfold after_text. destruct (decide (t = [])) as [->|Hn]; [by rewrite reads_nil, split_path_empty|].
  destruct (ends_slash t); setoid_rewrite reads_nil; setoid_rewrite split_path_empty.
  - split; [intros [[_ ?]|(? & -> & ->)]; [done|apply app_nil_r]|]. intros ->. right. exists []. by rewrite app_nil_r.
  - split; [intros (? & -> & ->); apply app_nil_r|]. intros ->. exists []. by rewrite app_nil_r.
Qed.

Lemma literal_ok :
  clean p1 [] = true → p2 = [] →
  acceptable s max_arms ∧ answers s max_arms (mkPattern (spell t) false LiteralMode no_program).
Proof.
  intros Hcl E. pose proof (literal_braces E) as Hb. destruct pattern_utf8 as [Hu _]. pose proof (literal_text E) as Etext.
  assert (Hr : is_Some (read_pattern true (atoms (expanded s [] [])))).
  { apply expanded_readable. rewrite Etext. split; [done|]. split; [by rewrite andb_false_r|]. by destruct (start_after true t). }
  split.
  - split; [done|]. exists []. split; [done|]. split; [|intros c ->%no_choice; exact Hr]. unfold few, choice_total. cbn. lia.
  - intros str. unfold glob_match. cbn [mode prefix]. rewrite bool_decide_eq_true, <- literal_answers. split.
    + intros H. exists (expanded s [] []). split; [exists [], []; by rewrite no_choice|]. apply expanded_reads. rewrite Etext. done.
    + intros (x & (braces & c & Hb' & Hc & ->) & H). rewrite Hb in Hb'. injection Hb' as <-. apply no_choice in Hc as ->.
      apply expanded_reads in H as [_ H]. by rewrite Etext in H.
Qed.

(** An escape that is not one stays where it is in every expansion. *)
Lemma bad_text braces c r :
  p2 = backslash_ch :: r → r = [] ∨ starts_slash r = true → braces_of s max_arms = Ok braces → choice_ok braces c →
  ∃ r', atoms (choice_text s from braces c) = backslash_ch :: r' ∧ (r' = [] ∨ starts_slash r' = true).
Proof.
  intros E Hr Hb Hc. assert (Ed : drop from s = spell p2) by (by rewrite Es, drop_app_length).
  destruct r as [|d r].
  { assert (braces = []) as ->.
    { unfold braces_of in Hb. rewrite arms_begin_eq, Ed, E in Hb. cbn in Hb. rewrite andb_false_r in Hb. by injection Hb. }
    apply no_choice in Hc as ->. exists []. split; [|by left]. unfold choice_text, arm_text. cbn. rewrite app_nil_r. unfold view_text, substr. cbn.
    rewrite Ed, take_ge; [by rewrite E|]. rewrite Es, length_app. lia. }
  destruct Hr as [?|Hd]; [done|]. cbn in Hd. apply Z.eqb_eq in Hd as ->.
  assert (Ex : drop from s = [backslash; slash] ++ spell r) by (by rewrite Ed, E).
  assert (Htwo : ∀ x, atoms (([backslash; slash] ++ x) : bytes) = backslash_ch :: slash_ch :: atoms x).
  { intros x. change [backslash; slash] with (spell [backslash_ch; slash_ch]). apply atoms_spell. pose proof Hp2 as H. rewrite E, !Forall_cons in H. rewrite !Forall_cons. by destruct H as (? & ? & _). }
  assert (Hview : ∀ n, 2 ≤ n → view_text s (mkView from n) = [backslash; slash] ++ take (n - 2) (spell r)).
  { intros n Hn. unfold view_text, substr. cbn [view_begin view_size]. rewrite Ex. destruct n as [|[|n]]; [lia|lia|]. cbn. by rewrite Nat.sub_0_r. }
  assert (Hlen : 2 ≤ length s - from) by (rewrite <- length_drop, Ex, length_app; cbn; lia).
  assert (Ht2 : ∃ x, choice_text s from braces c = [backslash; slash] ++ x).
  { unfold choice_text, arm_text. assert (Hch : chain s from braces (length s)).
    { rewrite <- arms_begin_eq. apply (braces_of_ok s max_arms); [rewrite arms_begin_eq; apply from_le|done]. }
    destruct braces as [|b braces]; cbn [arm_pieces fmap list_fmap mjoin list_join].
    - eexists. rewrite Hview by done. by rewrite <- app_assoc.
    - destruct c as [|k c]; [by inversion Hc|]. cbn [fmap list_fmap mjoin list_join]. destruct Hch as (Hle & Hok & _). pose proof (brace_open s b Hok) as Ho.
      assert (2 ≤ brace_begin b - from).
      { replace (brace_begin b) with (from + (brace_begin b - from)) in Ho by lia. rewrite <- lookup_drop, Ex in Ho.
        destruct (brace_begin b - from) as [|[|n]]; [done|done|lia]. }
      eexists. rewrite Hview by done. by rewrite <- app_assoc. }
  destruct Ht2 as [x ->]. rewrite Htwo. eexists. split; [done|]. by right.
Qed.

Lemma bad_escape_rejected r : p2 = backslash_ch :: r → r = [] ∨ starts_slash r = true → ¬ acceptable s max_arms.
Proof.
  intros E Hr (_ & braces & Hb & _ & H). destruct (some_choice braces Hb) as [c Hc]. destruct (bad_text braces c r E Hr Hb Hc) as (r' & Er & Hr').
  apply (H c), expanded_readable in Hc as (_ & _ & [l Hl]). by rewrite Er, read_pattern_bad in Hl.
Qed.
End Create.

(** ** [create] *)

Lemma create_ok s max_arms :
  (0 ≤ max_arms < size_max)%Z →
  match create s max_arms with
  | Ok pat => acceptable s max_arms ∧ answers s max_arms pat
  | Err _ => ¬ acceptable s max_arms
  end.
Proof.
  intros Hmax. unfold create. destruct (find_invalid_utf8 s) as [pos|] eqn:Ef.
  { intros [Hu _]. apply find_invalid_utf8_ok in Hu. by rewrite Hu in Ef. }
  apply find_invalid_utf8_ok in Ef. destruct (pattern_parts s Ef) as (p1 & p2 & t & Hp1 & Hp2 & Hres & Ht & Hstop & Es & Eh).
  rewrite Eh. cbn [head_end head_text]. cbv zeta.
  assert (Hbad : ((length (spell p1) <? length s) && (s !!! length (spell p1) =?b backslash)) = match p2 with c :: _ => is_ch c backslash | [] => false end).
  { rewrite Es at 1. rewrite length_app. destruct p2 as [|c p2].
    - cbn [spell mbind list_bind length]. by rewrite (proj2 (Nat.ltb_ge _ _)) by (cbn; lia).
    - apply Forall_cons in Hp2 as [Hc _]. destruct (put_head c Hc) as (x & xs & Ex & _ & Hch). rewrite Es, lookup_total_app_r, Nat.sub_diag by lia.
      rewrite spell_cons, Ex. rewrite (proj2 (Nat.ltb_lt _ _)) by (cbn [app length]; lia). cbn. apply Hch. vm_compute. reflexivity. }
  rewrite Hbad. destruct (match p2 with c :: _ => is_ch c backslash | [] => false end) eqn:Eb.
  { destruct p2 as [|c r]; [done|]. assert (Hr : r = [] ∨ starts_slash r = true).
    { cbn in Hstop. destruct Hstop as [H|[_ H]]; [|done]. apply Z.eqb_eq in Eb as ->. done. }
    assert (¬ acceptable s max_arms).
    { apply Z.eqb_eq in Eb as ->. by apply (bad_escape_rejected s max_arms p1 (backslash_ch :: r) t) with r. }
    by case_if. }
  assert (Hds : double_slash (take (length (spell p1)) s) 0 = None ↔ clean p1 [] = true).
  { rewrite Es, take_app_length. by apply double_slash_clean. }
  destruct (double_slash _ 0) as [i|].
  { apply (unclean_rejected s max_arms p1 p2 t); try done. destruct (clean p1 []); [|done]. by specialize (proj2 Hds eq_refl). }
  pose proof (proj1 Hds eq_refl) as Hcl. destruct (Nat.eqb_spec (length (spell p1)) (length s)) as [E|E].
  - apply (literal_ok s max_arms p1 p2 t); try done. apply spell_nil_iff, length_zero_iff_nil.
    rewrite Es, length_app in E. lia.
  - by apply (finish_ok s max_arms p1 p2 t).
Qed.

(** C1. A pattern that is created matches a path exactly when one of the
    texts its braces expand to does, read as a pattern from the start: every
    shortcut [create] takes (the literal prefix, the plan of each arm, the
    packed words, the sorted extensions and the modes) agrees with reading and
    matching the expanded text segment by segment. *)
Theorem create_match_correct s max_arms pat str :
  (0 ≤ max_arms < size_max)%Z → create s max_arms = Ok pat →
  glob_match pat str = true ↔ ∃ t, expansion s max_arms t ∧ reads true (atoms t) (split_path str).
Proof. intros Hmax E. pose proof (create_ok s max_arms Hmax) as H. rewrite E in H. apply H. Qed.

Definition demo_pattern : GlobPattern :=
  match create (lit "a/{b,**}/*.{c,h}") 8 with Ok p => p | Err _ => mkPattern [] false LiteralMode no_program end.

Lemma create_match_witness :
  create (lit "a/{b,**}/*.{c,h}") 8 = Ok demo_pattern ∧
  ∃ t, expansion (lit "a/{b,**}/*.{c,h}") 8 t ∧ reads true (atoms t) (split_path (lit "a/x/y.h")).
Proof.
  assert (E : create (lit "a/{b,**}/*.{c,h}") 8 = Ok demo_pattern) by (vm_compute; reflexivity). split; [exact E|].
  apply (create_match_correct _ 8 demo_pattern); [unfold size_max; lia|exact E|vm_compute; reflexivity].
Defined.



(** ** Escaping a text *)

Lemma special_wildcard c : contains special_bytes c = false → contains wildcards c = false ∧ (c =?b backslash) = false.
Proof.
  unfold contains. change special_bytes with [backslash; "?"; "*"; "["; "]"; "{"; "}"; ","]%byte. change wildcards with ["?"; "*"; "["; "{"]%byte.
  cbn [existsb]. rewrite !orb_false_iff. intros (H1 & H2 & H3 & H4 & _ & H5 & _).
  rewrite byte_eqb_sym in H1. done.
Qed.

Lemma special_slash c : contains special_bytes c = true → (c =?b slash) = false.
Proof. intros H. apply byte_eqb_neq. intros ->. vm_compute in H. done. Qed.

Lemma escape_head l i text : literal_head_from (escape l) i text = mkHead (text ++ l) (i + length (escape l)).
Proof.
  revert i text. induction l as [|c l IH]; intros i text; [cbn; by rewrite app_nil_r, Nat.add_0_r|]. cbn [escape].
  destruct (contains special_bytes c) eqn:E.
  - cbn [literal_head_from]. change (contains wildcards backslash) with false. rewrite byte_eqb_refl, special_slash, IH by done.
    rewrite <- app_assoc. cbn [app length]. f_equal. lia.
  - destruct (special_wildcard c E) as [H1 H2]. cbn [literal_head_from]. rewrite H1, H2, IH. rewrite <- app_assoc. cbn [app length]. f_equal. lia.
Qed.

Lemma double_slash_cons a b s i :
  double_slash (a :: b :: s) i = if (b =?b slash) && (a =?b slash) then Some i else double_slash (b :: s) (i + 1).
Proof. done. Qed.

Lemma escape_double l i j : double_slash (escape l) i = None ↔ double_slash l j = None.
Proof.
  revert i j. induction l as [|c l IH]; intros i j; [done|]. cbn [escape].
  assert (Hgo : ∀ i, double_slash (c :: escape l) i = None ↔ double_slash (c :: l) j = None).
  { intros k. destruct l as [|d l]; [done|]. specialize (IH (k + 1) (j + 1)). cbn [escape] in *. destruct (contains special_bytes d) eqn:E.
    - rewrite double_slash_cons, (double_slash_cons c d). change (backslash =?b slash) with false. rewrite (special_slash d E). exact IH.
    - rewrite !double_slash_cons. destruct ((d =?b slash) && (c =?b slash)); [done|]. exact IH. }
  destruct (contains special_bytes c) eqn:E; [|apply Hgo]. rewrite double_slash_cons. change (backslash =?b slash) with false. rewrite andb_false_r. apply Hgo.
Qed.

Lemma escape_utf8 l : utf8 (escape l) ↔ utf8 l.
Proof.
  split.
  - intros H. destruct (pattern_parts _ H) as (p1 & p2 & t & _ & _ & _ & Ht & _ & _ & Eh). unfold literal_head in Eh.
    rewrite escape_head in Eh. cbn [app] in Eh. injection Eh as -> _. by exists t.
  - intros (p & Hp & ->). induction Hp as [|c p Hc Hp IH]; [apply utf8_nil|]. rewrite spell_cons.
    destruct (put_head c Hc) as (x & xs & Ex & Hxs & Hch).
    assert (Hhigh : ∀ r, escape (xs ++ r) = xs ++ escape r).
    { intros r. clear -Hxs. induction Hxs as [|y ys Hy _ IHy]; [done|]. cbn [app escape].
      assert (contains special_bytes y = false) as ->; [|by rewrite IHy].
      destruct (contains special_bytes y) eqn:E; [|done]. unfold contains in E. apply existsb_exists in E as (z & Hz & E). apply byte_eqb_spec in E as ->.
      exfalso. unfold high in Hy. assert (Hs : forallb (λ b, uval b <? 128)%Z special_bytes = true) by reflexivity.
      rewrite forallb_forall in Hs. apply Hs, Z.ltb_lt in Hz. lia. }
    assert (E : escape (put_code_point c ++ spell p) = (if contains special_bytes x then [backslash] else []) ++ put_code_point c ++ escape (spell p)).
    { rewrite Ex. cbn [app escape]. rewrite Hhigh. by case_if. }
    rewrite E. apply utf8_app; [|apply utf8_app; [|exact IH]].
    + case_if; [|apply utf8_nil]. exists [backslash_ch]. split; [rewrite Forall_singleton; vm_compute; intuition congruence|done].
    + exists [c]. split; [by rewrite Forall_singleton|]. by rewrite spell_cons, app_nil_r.
Qed.

Lemma create_escape l max_arms :
  create (escape l) max_arms =
  match find_invalid_utf8 (escape l) with
  | Some pos => Err (mkGlobError InvalidUTF8 pos (pos + 1) (lit "pattern is not valid UTF-8"))
  | None =>
      match double_slash (escape l) 0 with
      | Some i => Err (mkGlobError MultipleSlash i (i + 2) (lit "multiple `/` is not allowed"))
      | None => Ok (mkPattern l false LiteralMode no_program)
      end
  end.
Proof.
  unfold create, literal_head. rewrite escape_head. cbn [head_end head_text app Nat.add]. cbv zeta.
  rewrite Nat.ltb_irrefl, Nat.eqb_refl, take_ge by done. cbn [andb]. done.
Qed.

(** C26. [escape] of a text is a pattern that matches the text and nothing
    else; a text that is not UTF-8 or holds two separators in a row has no
    pattern, and [create] says which. *)
Theorem escape_correct l max_arms :
  match create (escape l) max_arms with
  | Ok pat => utf8 l ∧ double_slash l 0 = None ∧ ∀ str, glob_match pat str = true ↔ str = l
  | Err e => (¬ utf8 l ∧ error_kind e = InvalidUTF8) ∨ (utf8 l ∧ double_slash l 0 ≠ None ∧ error_kind e = MultipleSlash)
  end.
Proof.
  rewrite create_escape. pose proof (find_invalid_utf8_ok (escape l)) as Hu. rewrite escape_utf8 in Hu.
  pose proof (escape_double l 0 0) as Hd. destruct (find_invalid_utf8 (escape l)) as [pos|].
  - left. split; [|done]. intros H. by apply Hu in H.
  - destruct (double_slash (escape l) 0) as [i|].
    + right. split; [by apply Hu|]. split; [|done]. intros H. by apply Hd in H.
    + split; [by apply Hu|]. split; [by apply Hd|]. intros str. unfold glob_match. cbn [mode prefix]. by rewrite bool_decide_eq_true.
Qed.

(** ** The root of a pattern *)

Lemma after_last_slash_end s : after_last_slash (s ++ [slash]) = length (s ++ [slash]).
Proof.
  unfold after_last_slash. assert (E : find_last (λ c, c =?b slash) (s ++ [slash]) = Some (length s)).
  { induction s as [|c s IH]; [done|]. cbn [app find_last]. by rewrite IH. }
  rewrite E, length_app. done.
Qed.

Lemma directory_ok s t : head_text (literal_head s) = spell t → ∃ r, spell t = directory (split_root s) ++ r ∧ (ends_slash t = true → r = []).
Proof.
  intros E. unfold split_root. cbn [directory]. rewrite E. exists (drop (after_last_slash (spell t)) (spell t)).
  split; [by rewrite take_drop|]. intros Hs. rewrite (spell_slash t Hs), after_last_slash_end. apply drop_all.
Qed.

(** Every path a pattern matches is in the directory its root names, or
    is that directory. *)
Theorem split_root_correct s max_arms pat str :
  (0 ≤ max_arms < size_max)%Z → create s max_arms = Ok pat → glob_match pat str = true →
  starts_with str (directory (split_root s)) = true ∨ str ++ lit "/" = directory (split_root s).
Proof.
  intros Hmax E Hm. pose proof (create_ok s max_arms Hmax) as H. rewrite E in H. destruct H as [[Hu _] Hans].
  apply Hans in Hm as (x & (braces & c & Hb & Hc & ->) & Hr). destruct (pattern_parts s Hu) as (p1 & p2 & t & Hp1 & Hp2 & Hres & Ht & _ & Es & Eh).
  change (take (arms_begin s) s ++ choice_text s (arms_begin s) braces c) with (expanded s braces c) in Hr.
  apply (expanded_reads s p1 p2 t) in Hr as [_ Hr]; try done. destruct (directory_ok s t) as (r & Er & Hend); [by rewrite Eh|].
  assert (Hin : ∀ str', str = spell t ++ str' → starts_with str (directory (split_root s)) = true).
  { intros str' ->. rewrite Er, <- app_assoc. apply starts_with_iff, take_app_length. }
  unfold after_text in Hr. destruct (decide (t = [])) as [->|Hn]; [left; by apply (Hin str)|].
  destruct (ends_slash t) eqn:Et; [|destruct Hr as (str' & -> & _); left; by eapply Hin].
  destruct Hr as [[-> _]|(str' & -> & _)]; [right|left; by eapply Hin]. rewrite Hend, app_nil_r in Er by done. by rewrite <- Er, (spell_slash t Et).
Qed.

Lemma split_root_witness :
  directory (split_root (lit "a/b/{c,**}")) = lit "a/b/" ∧
  (starts_with (lit "a/b") (lit "a/b/") = true ∨ lit "a/b" ++ lit "/" = lit "a/b/").
Proof.
  split; [vm_compute; reflexivity|]. change (lit "a/b/") with (directory (split_root (lit "a/b/{c,**}"))).
  refine (split_root_correct (lit "a/b/{c,**}") 4 (match create (lit "a/b/{c,**}") 4 with Ok p => p | Err _ => demo_pattern end) _ _ _ _).
  - unfold size_max. lia.
  - vm_compute. reflexivity.
  - vm_compute. reflexivity.
Defined.
