(* ===== verification/Peer.v ===== *)
(** One end of a JSON-RPC connection (include/kotatsu/ipc/peer.h, peer.inl, with
    the messages of codec.h, transport.h and protocol.h): requests sent and
    awaited, with timeouts and cancels; messages read and dispatched; handlers
    and their answers; the queue of what is written; half-close, close and
    failure.

    Everything runs on one event loop, so that code between two suspensions is
    one step.  [Peer] is the state, in the groups of its parts; [step] is the
    transition of an [Event]: what the program does ([Act]), what the transport
    reports, what the loop resumes, and the passing of time.  The peer calls the
    program in the middle of its own code: a notification's handler, the first
    part of a request's, the callbacks of a token it fires.  [stack] holds what
    the peer has left to do after each of these calls, and the program may do
    anything meanwhile; the loop resumes nothing until the stack is empty.

    The codec is the template's parameter, the interface [Codec]; the transport
    is its events and the limit [remote_max_payload].  [PendingRequest*] is an
    index into [requests], a handler one into [handlers].  What is recorded only
    to state theorems: the tag of a message, [queued], [written], [half_closed],
    [answers] and [dispatched].  A payload is its text.  Left out: the logger,
    the data of an error, the decoding of params and results (it is part of what
    the program does), and exceptions but those of handlers. *)

From Stdlib Require Import Strings.Byte ZArith Lia Bool.
From stdpp Require Import prelude gmap strings list.
From S2P Require Import Prelude Charconv Framing.
Local Open Scope kota_scope.
Local Open Scope nat_scope.

(** ** Messages *)

Inductive RequestID := NumberID (n : Z) | StringID (s : bytes).

#[export] Instance byte_countable : Countable byte := inj_countable Byte.to_N Byte.of_N Byte.of_to_N.
#[export] Instance request_id_eq_dec : EqDecision RequestID.
Proof. solve_decision. Defined.
#[export] Program Instance request_id_countable : Countable RequestID :=
  inj_countable' (λ i, match i with NumberID n => inl n | StringID s => inr s end)
    (λ x, match x with inl n => NumberID n | inr s => StringID s end) _.
Next Obligation. by intros []. Qed.

Inductive ErrorCode :=
| ParseError | InvalidRequest | MethodNotFound | InvalidParams | InternalError
| RequestFailed | MessageTooLarge | ConnectionClosed | RequestCancelled.

Definition error_code (c : ErrorCode) : Z :=
  match c with
  | ParseError => -32700
  | InvalidRequest => -32600
  | MethodNotFound => -32601
  | InvalidParams => -32602
  | InternalError => -32603
  | RequestFailed => -32000
  | MessageTooLarge => -32010
  | ConnectionClosed => -32011
  | RequestCancelled => -32800
  end.

Record Error := mkError { code : Z; error_text : bytes }.
Definition error (c : ErrorCode) (message : bytes) : Error := mkError (error_code c) message.

Abbreviation Result := (expected bytes Error).

Inductive IncomingMessage :=
| IncomingRequest (id : RequestID) (method params : bytes)
| IncomingNotification (method params : bytes)
| IncomingResponse (id : RequestID) (result : bytes)
| IncomingErrorResponse (id : option RequestID) (e : Error) (unreadable : bool)
| IncomingParseError (id : option RequestID) (e : Error) (notification : bool).

Inductive HeadKind := UnknownHead | RequestHead | NotificationHead | ResponseHead.
Record MessageHead := mkHead { head_kind : HeadKind; head_id : option RequestID }.

(** What [Peer<CodecT>] asks of [CodecT]. *)
Class Codec := {
  Params : Type;
  parse_message : bytes → IncomingMessage;
  peek : bytes → MessageHead;
  encode_request : RequestID → bytes → Params → Result;
  encode_notification : bytes → Params → Result;
  encode_error_response : option RequestID → Error → Result;
  cancel_request_params : RequestID → Params;
  read_cancel_request : bytes → option RequestID;
}.

(** ** State *)

(** A request sent, and once it is settled what settled it. *)
Record PendingRequest := mkPending {
  id : RequestID;
  response : option Result;
  deadline : option Z;
  cancel_sent : bool;
}.
#[export] Instance pending_inhabited : Inhabited PendingRequest := populate (mkPending (NumberID 0) None None false).

Record Sends := mkSends {
  requests : list PendingRequest;
  next_request_id : Z;
  pending_requests : gmap RequestID nat;
  deadlines : list (Z * nat);          (* a multimap: in order of time, then of insertion *)
  deadline_changed : bool;
}.

(** What a message is, besides its text. *)
Inductive Tag := OfRequest (k : nat) | OfCancel (k : nat) | OfAnswer (id : option RequestID) | OfNotification.
Record Message := mkMessage { tag : Tag; payload : bytes }.

Record Output := mkOutput {
  outgoing_queue : list Message;
  output_open : bool;
  closing_output : bool;
  write_event : bool;
  queued : list Message;
  written : list Message;
  half_closed : bool;
}.

(** Where an answer went, and whether it answers a request that was dispatched
    rather than a message that could not be read. *)
Inductive Fate := Queued (m : Message) | OutputShut | NoRoom | Unencodable.
Record Answer := mkAnswer { answer_to : option RequestID; to_dispatched : bool; fate : Fate }.

(** A request's handler: from its dispatch until its answer. *)
Record Handler := mkHandler { handled : RequestID; method_of : bytes; fired : bool; ended : bool }.

Record Serves := mkServes {
  request_callbacks : list bytes;
  notification_callbacks : list bytes;
  incoming_requests : gmap RequestID nat;
  handlers : list Handler;
  group_decided : bool;
  dispatched : list RequestID;
  answers : list Answer;
}.

Inductive EndKind := InputEnded | MalformedInput | WriteFailed | ShutDown.
Record ConversationEnd := mkEnd { end_kind : EndKind; end_message : bytes }.
Inductive ViolationPolicy := Tolerate | EndAtViolation.

Record Life := mkLife {
  input_open : bool;
  closed : bool;
  answers_done : bool;
  violation_policy : ViolationPolicy;
  ending : option ConversationEnd;
  started : bool;
  running : bool;
  transport_closed : bool;
  gone : bool;
}.

(** Where the three coroutines of run() are. *)
Inductive ReadLoop := ReadNotStarted | AwaitRead | Dispatching | Joining | ReadDone.
Inductive WriteLoop := WriteNotStarted | WriteWaiting | Writing | ClosingOutput | Failing | WriteDone.
Inductive DeadlineLoop := DeadlineNotStarted | DeadlineWaiting | DeadlineSleeping (until : Z) | DeadlineDone.

(** What is left to do once the program's code returns. *)
Inductive Tail := AfterClose | AfterFailOutput.
Inductive Frame :=
| AfterNotification                              (* a notification's handler was called *)
| AfterDispatch                                  (* a handler was started, or its token fired *)
| CancelHandlers (sources : list nat) (t : Tail) (* cancel_handlers: the sources left to cancel *)
| AfterGroupCancel.                              (* handlers.cancel() *)

Record Loops := mkLoops {
  reading : ReadLoop;
  writing : WriteLoop;
  timing : DeadlineLoop;
  run_cancelled : bool;
  now : Z;
  stack : list Frame;
}.

Record Peer := mkPeer { sends : Sends; out : Output; serves : Serves; life : Life; loops : Loops }.

Definition with_sends (p : Peer) (s : Sends) : Peer := mkPeer s (out p) (serves p) (life p) (loops p).
Definition with_out (p : Peer) (o : Output) : Peer := mkPeer (sends p) o (serves p) (life p) (loops p).
Definition with_serves (p : Peer) (s : Serves) : Peer := mkPeer (sends p) (out p) s (life p) (loops p).
Definition with_life (p : Peer) (l : Life) : Peer := mkPeer (sends p) (out p) (serves p) l (loops p).
Definition with_loops (p : Peer) (l : Loops) : Peer := mkPeer (sends p) (out p) (serves p) (life p) l.

Definition with_reading (p : Peer) (r : ReadLoop) : Peer :=
  let l := loops p in with_loops p (mkLoops r (writing l) (timing l) (run_cancelled l) (now l) (stack l)).
Definition with_writing (p : Peer) (w : WriteLoop) : Peer :=
  let l := loops p in with_loops p (mkLoops (reading l) w (timing l) (run_cancelled l) (now l) (stack l)).
Definition with_timing (p : Peer) (t : DeadlineLoop) : Peer :=
  let l := loops p in with_loops p (mkLoops (reading l) (writing l) t (run_cancelled l) (now l) (stack l)).
Definition with_stack (p : Peer) (fs : list Frame) : Peer :=
  let l := loops p in with_loops p (mkLoops (reading l) (writing l) (timing l) (run_cancelled l) (now l) fs).
Definition push (p : Peer) (f : Frame) : Peer := with_stack p (f :: stack (loops p)).

Definition new_peer : Peer :=
  mkPeer (mkSends [] 1 ∅ [] false) (mkOutput [] true false false [] [] false) (mkServes [] [] ∅ [] false [] [])
    (mkLife true false false Tolerate None false false false false)
    (mkLoops ReadNotStarted WriteNotStarted DeadlineNotStarted false 0 []).

(** ** Requests sent *)

(** [steady_clock] counts nanoseconds in 64 bits; a timeout is in milliseconds. *)
Definition clock_max : Z := 2 ^ 63 - 1.
Definition millisecond : Z := 1000000.
Definition floor_ms (d : Z) : Z := d / millisecond.
Definition ceil_ms (d : Z) : Z := - (- d / millisecond).

Definition with_requests (s : Sends) (l : list PendingRequest) : Sends :=
  mkSends l (next_request_id s) (pending_requests s) (deadlines s) (deadline_changed s).
Definition with_deadlines (s : Sends) (l : list (Z * nat)) (changed : bool) : Sends :=
  mkSends (requests s) (next_request_id s) (pending_requests s) l changed.
Definition with_response (r : PendingRequest) (x : Result) : PendingRequest :=
  mkPending (id r) (Some x) (deadline r) (cancel_sent r).
Definition with_deadline (r : PendingRequest) (at_ : Z) : PendingRequest :=
  mkPending (id r) (response r) (Some at_) (cancel_sent r).
Definition with_cancel_sent (r : PendingRequest) : PendingRequest := mkPending (id r) (response r) (deadline r) true.

Definition forget (s : Sends) (k : nat) : Sends :=
  let r := requests s !!! k in
  mkSends (requests s) (next_request_id s) (delete (id r) (pending_requests s))
    (if bool_decide (deadline r = None) then deadlines s else filter (λ e, e.2 ≠ k) (deadlines s)) (deadline_changed s).

Definition settle (s : Sends) (k : nat) (x : Result) : Sends :=
  let s := forget s k in with_requests s (alter (λ r, with_response r x) k (requests s)).

Fixpoint emplace_deadline (at_ : Z) (k : nat) (l : list (Z * nat)) : list (Z * nat) :=
  match l with
  | [] => [(at_, k)]
  | e :: l' => if (at_ <? e.1)%Z then (at_, k) :: l else e :: emplace_deadline at_ k l'
  end.

Definition file_deadline (s : Sends) (time : Z) (k : nat) (timeout : Z) : Sends :=
  let room := floor_ms (clock_max - time) in
  let at_ := if (timeout <? room)%Z then (time + timeout * millisecond)%Z else clock_max in
  let l := emplace_deadline at_ k (deadlines s) in
  with_deadlines (with_requests s (alter (λ r, with_deadline r at_) k (requests s))) l
    (if bool_decide (head l = Some (at_, k)) then true else deadline_changed s).

Definition complete_pending_request (s : Sends) (i : RequestID) (x : Result) : Sends :=
  match pending_requests s !! i with
  | None => s
  | Some k => settle s k x
  end.

Definition fail_pending_requests (s : Sends) (e : Error) : Sends :=
  foldl (λ s k, settle s k (Err e)) s (map_to_list (pending_requests s)).*2.

(** ** What is written *)

Definition enqueue_outgoing (o : Output) (m : Message) : Output :=
  if negb (output_open o) || closing_output o then o
  else mkOutput (outgoing_queue o ++ [m]) (output_open o) (closing_output o) true (queued o ++ [m]) (written o) (half_closed o).

Definition shut_output (o : Output) (q : list Message) : Output :=
  mkOutput q false false (write_event o) (queued o) (written o) (half_closed o).

Definition set_write_event (o : Output) (b : bool) : Output :=
  mkOutput (outgoing_queue o) (output_open o) (closing_output o) b (queued o) (written o) (half_closed o).

Definition enqueued (o : Output) (m : Message) : Output * Fate :=
  (enqueue_outgoing o m, if negb (output_open o) || closing_output o then OutputShut else Queued m).

Definition unsendable (p : Peer) (expects_answer : bool) : option Error :=
  if closed (life p) then Some (error ConnectionClosed (lit "peer closed"))
  else if negb (output_open (out p)) || closing_output (out p) then
    Some (error ConnectionClosed (lit "peer output closed"))
  else if expects_answer && negb (input_open (life p)) then
    Some (error ConnectionClosed (lit "peer input closed"))
  else None.

Section Peer.
Context `{C : Codec}.
Variable remote_max_payload : nat.

Definition fits (text : bytes) : bool := length text <=? remote_max_payload.

Definition too_large (what : bytes) (size : nat) : Error :=
  error MessageTooLarge
    (lit "a " ++ what ++ lit " of " ++ format_u64 (Z.of_nat size) ++ lit " bytes exceeds the limit of " ++
     format_u64 (Z.of_nat remote_max_payload) ++ lit " bytes").

Definition send_answer (o : Output) (i : option RequestID) (text : bytes) : Output * Fate :=
  if fits text then enqueued o (mkMessage (OfAnswer i) text)
  else
    match encode_error_response i (too_large (lit "response") (length text)) with
    | Ok replacement =>
        if fits replacement then enqueued o (mkMessage (OfAnswer i) replacement) else (o, NoRoom)
    | Err _ => (o, NoRoom)
    end.

Definition send_error (o : Output) (i : option RequestID) (e : Error) : Output * Fate :=
  match encode_error_response i e with
  | Ok text => send_answer o i text
  | Err _ => (o, Unencodable)
  end.

(** The answer [x] to [i] is sent, and recorded. *)
Definition answered (p : Peer) (i : option RequestID) (d : bool) (x : Output * Fate) : Peer :=
  let s := serves p in
  with_serves (with_out p x.1)
    (mkServes (request_callbacks s) (notification_callbacks s) (incoming_requests s) (handlers s) (group_decided s)
       (dispatched s) (answers s ++ [mkAnswer i d x.2])).

Definition send_notification (p : Peer) (t : Tag) (method : bytes) (params : Params) : Peer * option Error :=
  match unsendable p false with
  | Some e => (p, Some e)
  | None =>
      match encode_notification method params with
      | Err e => (p, Some e)
      | Ok text =>
          if fits text then (with_out p (enqueue_outgoing (out p) (mkMessage t text)), None)
          else (p, Some (too_large (lit "notification") (length text)))
      end
  end.

Definition cancel_method : bytes := lit "$/cancelRequest".

(** Marks request [k] as cancelled and tells the remote. *)
Definition send_cancel_request (p : Peer) (k : nat) : Peer * option Error :=
  let s := sends p in
  send_notification (with_sends p (with_requests s (alter with_cancel_sent k (requests s)))) (OfCancel k) cancel_method
    (cancel_request_params (id (requests s !!! k))).

Definition cancel_remote (p : Peer) (k : nat) : Peer :=
  let r := requests (sends p) !!! k in
  if negb (bool_decide (response r = None)) || cancel_sent r then p
  else
    match send_cancel_request p k with
    | (p', None) => p'
    | (p', Some _) =>
        with_sends p' (settle (sends p') k (Err (error RequestCancelled (lit "request cancelled"))))
    end.

(** [expire_due]; [fuel], at most the number of deadlines. *)
Fixpoint expire_due (fuel : nat) (p : Peer) : Peer :=
  match fuel, deadlines (sends p) with
  | S fuel, (at_, k) :: _ =>
      if (at_ <=? now (loops p))%Z then
        let p' := if cancel_sent (requests (sends p) !!! k) then p else (send_cancel_request p k).1 in
        expire_due fuel
          (with_sends p' (settle (sends p') k (Err (error RequestCancelled (lit "request timed out")))))
      else p
  | _, _ => p
  end.

Definition refuse_request (p : Peer) (token_cancelled : bool) (timeout : option Z) : option Error :=
  if match timeout with Some t => (t <=? 0)%Z | None => false end then
    Some (error RequestCancelled (lit "request timed out"))
  else
    match unsendable p true with
    | Some e => Some e
    | None => if token_cancelled then Some (error RequestCancelled (lit "request cancelled")) else None
    end.

(** [send_request_impl] until it waits: the request's index. *)
Definition send_request_impl (p : Peer) (i : RequestID) (text : bytes) (timeout : option Z) : Peer * expected nat Error :=
  if fits text then
    let s := sends p in
    let k := length (requests s) in
    let s1 := mkSends (requests s ++ [mkPending i None None false]) (next_request_id s)
                (match pending_requests s !! i with
                 | Some _ => pending_requests s
                 | None => <[i := k]> (pending_requests s)
                 end) (deadlines s) (deadline_changed s) in
    let s2 := match timeout with Some t => file_deadline s1 (now (loops p)) k t | None => s1 end in
    (with_out (with_sends p s2) (enqueue_outgoing (out p) (mkMessage (OfRequest k) text)), Ok k)
  else (p, Err (too_large (lit "request") (length text))).

Definition send_request (p : Peer) (method : bytes) (params : Params) (token_cancelled : bool) (timeout : option Z)
    : Peer * expected nat Error :=
  match refuse_request p token_cancelled timeout with
  | Some e => (p, Err e)
  | None =>
      let s := sends p in
      let i := NumberID (next_request_id s) in
      let p1 := with_sends p (mkSends (requests s) (next_request_id s + 1) (pending_requests s) (deadlines s) (deadline_changed s)) in
      match encode_request i method params with
      | Err e => (p1, Err e)
      | Ok text => send_request_impl p1 i text timeout
      end
  end.

(** ** The end of the conversation *)

Definition end_conversation (l : Life) (why : ConversationEnd) : Life :=
  match ending l with
  | Some _ => l
  | None =>
      mkLife (input_open l) (closed l) (answers_done l) (violation_policy l) (Some why) (started l) (running l)
        (transport_closed l) (gone l)
  end.

Definition with_input_closed (l : Life) : Life :=
  mkLife false (closed l) (answers_done l) (violation_policy l) (ending l) (started l) (running l) (transport_closed l)
    (gone l).
Definition with_closed (l : Life) (transport : bool) : Life :=
  mkLife (input_open l) true (answers_done l) (violation_policy l) (ending l) (started l) (running l)
    (transport_closed l || transport) (gone l).
Definition with_answers_done (l : Life) : Life :=
  mkLife (input_open l) (closed l) true (violation_policy l) (ending l) (started l) (running l) (transport_closed l)
    (gone l).

Definition run_cancelled_end : ConversationEnd := mkEnd ShutDown (lit "run() cancelled").

(** [end_input]; the reading coroutine then joins the handlers. *)
Definition end_input (p : Peer) (why : ConversationEnd) : Peer :=
  let l := end_conversation (with_input_closed (life p)) why in
  let reason := match ending l with Some e => end_message e | None => [] end in
  let s := fail_pending_requests (sends p) (error ConnectionClosed reason) in
  with_sends (with_life p l) (with_deadlines s (deadlines s) true).

(** The write loop is over; [cancelled] with run(). *)
Definition write_end (p : Peer) (cancelled : bool) : Peer :=
  let p1 := with_writing (with_out p (mkOutput (outgoing_queue (out p)) false (closing_output (out p))
              (write_event (out p)) (queued (out p)) (written (out p)) (half_closed (out p)))) WriteDone in
  if cancelled && negb (closed (life p1))
  then with_life p1 (with_closed (end_conversation (life p1) run_cancelled_end) true)
  else p1.

(** What follows [cancel_handlers]: the rest of close() or of fail_output(),
    which ends the write loop. *)
Definition after_cancel (p : Peer) (t : Tail) : Peer :=
  match t with
  | AfterClose =>
      with_life (with_out p (mkOutput [] (output_open (out p)) (closing_output (out p)) true (queued (out p))
        (written (out p)) (half_closed (out p)))) (with_closed (life p) true)
  | AfterFailOutput => write_end (with_life p (with_closed (life p) true)) false
  end.

Definition with_incoming (s : Serves) (m : gmap RequestID nat) : Serves :=
  mkServes (request_callbacks s) (notification_callbacks s) m (handlers s) (group_decided s) (dispatched s) (answers s).
Definition with_handlers (s : Serves) (l : list Handler) : Serves :=
  mkServes (request_callbacks s) (notification_callbacks s) (incoming_requests s) l (group_decided s) (dispatched s)
    (answers s).
Definition fire (s : Serves) (h : nat) : Serves :=
  with_handlers s (alter (λ x, mkHandler (handled x) (method_of x) true (ended x)) h (handlers s)).

(** The loop of [cancel_handlers]: each source's cancel() calls the program. *)
Definition cancel_sources (p : Peer) (sources : list nat) (t : Tail) : Peer :=
  match sources with
  | h :: rest => push (with_serves p (fire (serves p) h)) (CancelHandlers rest t)
  | [] => after_cancel (with_serves p (with_incoming (serves p) ∅)) t
  end.
Definition cancel_handlers (p : Peer) (t : Tail) : Peer :=
  cancel_sources p (map_to_list (incoming_requests (serves p))).*2 t.

Definition fail_output (p : Peer) (message : bytes) : Peer :=
  if closed (life p) then write_end p false
  else
    let p1 := with_life (with_out p (shut_output (out p) []))
                (end_conversation (life p) (mkEnd WriteFailed message)) in
    let p2 := with_sends p1 (fail_pending_requests (sends p1) (error ConnectionClosed message)) in
    cancel_handlers (with_writing (with_life p2 (with_closed (life p2) false)) Failing) AfterFailOutput.

Definition close (p : Peer) : Peer :=
  if closed (life p) then p
  else
    let l := end_conversation (with_input_closed (with_closed (life p) false)) (mkEnd ShutDown (lit "peer closed")) in
    let p1 := with_life (with_out p (shut_output (out p) (outgoing_queue (out p)))) l in
    cancel_handlers (with_sends p1 (fail_pending_requests (sends p1) (error ConnectionClosed (lit "peer closed"))))
      AfterClose.

Definition close_output (p : Peer) : Peer :=
  let o := out p in
  if output_open o && negb (closing_output o)
  then with_out p (mkOutput (outgoing_queue o) (output_open o) true true (queued o) (written o) (half_closed o))
  else p.

(** ** The write loop *)

(** From the top of the loop until it waits. *)
Definition write_run (p : Peer) : Peer :=
  let o := out p in
  match outgoing_queue o with
  | [] =>
      if closing_output o || (answers_done (life p) && output_open o) then
        with_writing (with_out p (mkOutput [] false false (write_event o) (queued o) (written o) true)) ClosingOutput
      else if output_open o then with_writing (with_out p (set_write_event o false)) WriteWaiting
      else write_end p false
  | batch =>
      with_writing (with_out p (mkOutput [] (output_open o) (closing_output o) (write_event o) (queued o)
        (written o ++ batch) (half_closed o))) Writing
  end.

(** ** The deadline loop *)

Definition deadline_run (p : Peer) : Peer :=
  if input_open (life p) then
    let p1 := expire_due (length (deadlines (sends p))) p in
    let p2 := with_sends p1 (with_deadlines (sends p1) (deadlines (sends p1)) false) in
    match deadlines (sends p2) with
    | [] => with_timing p2 DeadlineWaiting
    | (at_, _) :: _ =>
        let left := ceil_ms (at_ - now (loops p2)) in
        with_timing p2 (DeadlineSleeping (now (loops p2) + Z.max left 0 * millisecond))
    end
  else with_timing p DeadlineDone.

(** ** The read loop *)

(** How the dispatch of a message goes: it is over, with what in it broke the
    protocol if anything, or the program was called. *)
Inductive Dispatch := Over (violation : option bytes) | Called.

Definition dispatch_notification (p : Peer) (method params : bytes) : Peer * Dispatch :=
  if bool_decide (method = cancel_method) then
    match read_cancel_request params ≫= (λ i, incoming_requests (serves p) !! i) with
    | Some h => (push (with_serves p (fire (serves p) h)) AfterDispatch, Called)
    | None => (p, Over None)
    end
  else if bool_decide (method ∈ notification_callbacks (serves p)) then (push p AfterNotification, Called)
  else (p, Over (Some (lit "unhandled notification: " ++ method))).

Definition dispatch_request (p : Peer) (method : bytes) (i : RequestID) : Peer * Dispatch :=
  let s := serves p in
  let p0 := with_serves p (mkServes (request_callbacks s) (notification_callbacks s) (incoming_requests s) (handlers s)
              (group_decided s) (dispatched s ++ [i]) (answers s)) in
  let refused e := (answered p0 (Some i) true (send_error (out p0) (Some i) e), Over None) in
  if bool_decide (is_Some (incoming_requests s !! i)) then refused (error InvalidRequest (lit "duplicate request id"))
  else if negb (bool_decide (method ∈ request_callbacks s)) then
    refused (error MethodNotFound (lit "method not found: " ++ method))
  else if group_decided s then refused (error RequestCancelled (lit "request cancelled"))
  else
    let s1 := serves p0 in
    (push (with_serves p0 (with_handlers (with_incoming s1 (<[i := length (handlers s1)]> (incoming_requests s1)))
       (handlers s1 ++ [mkHandler i method false false]))) AfterDispatch, Called).

Definition dispatch_incoming_message (p : Peer) (text : bytes) : Peer * Dispatch :=
  match parse_message text with
  | IncomingRequest i method _ => dispatch_request p method i
  | IncomingNotification method params => dispatch_notification p method params
  | IncomingResponse i result => (with_sends p (complete_pending_request (sends p) i (Ok result)), Over None)
  | IncomingErrorResponse None e _ => (p, Over (Some (lit "error response without an id: " ++ error_text e)))
  | IncomingErrorResponse (Some i) e unreadable =>
      (with_sends p (complete_pending_request (sends p) i (Err e)), Over (if unreadable then Some (error_text e) else None))
  | IncomingParseError i e notification =>
      (if notification then p else answered p i false (send_error (out p) i e), Over (Some (error_text e)))
  end.

Definition skip_oversized (p : Peer) (skipped : ReadError) : Peer :=
  let e := error MessageTooLarge (message skipped) in
  let head := peek (error_prefix skipped) in
  match head_kind head, head_id head with
  | RequestHead, i => answered p i false (send_error (out p) i e)
  | ResponseHead, Some i => with_sends p (complete_pending_request (sends p) i (Err e))
  | UnknownHead, _ => with_sends p (fail_pending_requests (sends p) e)
  | _, _ => p
  end.

(** The read loop goes on, or ends at a violation. *)
Definition read_on (p : Peer) (violation : option bytes) : Peer :=
  match violation, violation_policy (life p) with
  | Some v, EndAtViolation => with_reading (end_input p (mkEnd MalformedInput v)) Joining
  | _, _ => with_reading p AwaitRead
  end.

Definition read_message (p : Peer) (r : expected bytes ReadError) : Peer :=
  match r with
  | Ok text =>
      match dispatch_incoming_message p text with
      | (p', Over violation) => read_on p' violation
      | (p', Called) => with_reading p' Dispatching
      end
  | Err e =>
      match kind e with
      | Oversized => skip_oversized p e
      | Malformed => with_reading (end_input p (mkEnd MalformedInput (message e))) Joining
      | Closed => with_reading (end_input p (mkEnd InputEnded (message e))) Joining
      end
  end.

(** ** Handlers *)

Inductive HandlerOutcome := Answered (text : bytes) | Failed (e : Error) | HandlerCancelled | Threw.

(** The end of [run_request]. *)
Definition run_request_end (p : Peer) (h : nat) (i : RequestID) (o : HandlerOutcome) : Peer :=
  let x :=
    match o with
    | HandlerCancelled => send_error (out p) (Some i) (error RequestCancelled (lit "request cancelled"))
    | Failed e => send_error (out p) (Some i) e
    | Threw => send_error (out p) (Some i) (error InternalError (lit "request handler threw"))
    | Answered text => send_answer (out p) (Some i) text
    end in
  let p1 := answered p (Some i) true x in
  let s := serves p1 in
  with_serves p1 (with_handlers (with_incoming s (delete i (incoming_requests s)))
    (alter (λ y, mkHandler (handled y) (method_of y) (fired y) true) h (handlers s))).

Definition all_ended (s : Serves) : bool := forallb ended (handlers s).

(** ** Steps *)

(** What the program does. *)
Inductive Act :=
| SendRequest (method : bytes) (params : Params) (token_cancelled : bool) (timeout : option Z)
| SendNotification (method : bytes) (params : Params)
| CancelRemote (k : nat)          (* the sender's task or its token is cancelled *)
| Close
| CloseOutput
| SetViolationPolicy (v : ViolationPolicy)
| OnRequest (method : bytes)
| OnNotification (method : bytes)
| HandlerEnds (h : nat) (o : HandlerOutcome)
| Run
| CancelRun
| Destroy.

Definition act (p : Peer) (a : Act) : option Peer :=
  let s := serves p in
  let l := life p in
  let w := loops p in
  match a with
  | SendRequest method params token timeout => Some (send_request p method params token timeout).1
  | SendNotification method params => Some (send_notification p OfNotification method params).1
  | CancelRemote k => if k <? length (requests (sends p)) then Some (cancel_remote p k) else None
  | Close => Some (close p)
  | CloseOutput => Some (close_output p)
  | SetViolationPolicy v =>
      Some (with_life p (mkLife (input_open l) (closed l) (answers_done l) v (ending l) (started l) (running l)
        (transport_closed l) (gone l)))
  | OnRequest m =>
      Some (with_serves p (mkServes (m :: request_callbacks s) (notification_callbacks s) (incoming_requests s)
        (handlers s) (group_decided s) (dispatched s) (answers s)))
  | OnNotification m =>
      Some (with_serves p (mkServes (request_callbacks s) (m :: notification_callbacks s) (incoming_requests s)
        (handlers s) (group_decided s) (dispatched s) (answers s)))
  | HandlerEnds h o =>
      match handlers s !! h with
      | Some x => if ended x then None else Some (run_request_end p h (handled x) o)
      | None => None
      end
  | Run =>
      if started l then None
      else Some (with_loops (with_life p (mkLife (input_open l) (closed l) (answers_done l) (violation_policy l) (ending l)
             true true (transport_closed l) (gone l)))
             (mkLoops AwaitRead (writing w) (timing w) (run_cancelled w) (now w) (stack w)))
  | CancelRun =>
      if running l then Some (with_loops p (mkLoops (reading w) (writing w) (timing w) true (now w) (stack w))) else None
  | Destroy =>
      if running l || negb (bool_decide (stack w = [])) then None
      else Some (with_sends (with_life p (mkLife (input_open l) (closed l) (answers_done l) (violation_policy l) (ending l)
             (started l) (running l) (transport_closed l) true))
             (fail_pending_requests (sends p) (error ConnectionClosed (lit "peer destroyed"))))
  end.

(** The program's code returns to the peer's. *)
Definition return_to (p : Peer) (violation : option bytes) : option Peer :=
  match stack (loops p) with
  | [] => None
  | f :: rest =>
      let p' := with_stack p rest in
      Some match f with
           | AfterNotification => read_on p' violation
           | AfterDispatch => read_on p' None
           | CancelHandlers sources t => cancel_sources p' sources t
           | AfterGroupCancel => with_reading p' Joining
           end
  end.

Inductive Event :=
| Does (a : Act)
| Returns (violation : option bytes)
| Read (r : expected bytes ReadError)
| ReadCancelled
| Joined
| JoinCancelled
| WriteStarts
| WriteWoken
| Written (failure : option bytes)
| WriteCancelled
| OutputClosed (failure : option bytes)
| DeadlineStarts
| DeadlineWoken
| TimerFired
| DeadlineCancelled
| RunEnded
| Tick (d : Z).

(** What the loop may resume now, by itself. *)
Definition write_ready (p : Peer) : bool :=
  match writing (loops p) with
  | WriteNotStarted => running (life p)
  | WriteWaiting => write_event (out p)
  | _ => false
  end.
Definition deadline_ready (p : Peer) : bool :=
  match timing (loops p) with
  | DeadlineNotStarted => running (life p)
  | DeadlineWaiting => deadline_changed (sends p)
  | DeadlineSleeping until => deadline_changed (sends p) || (until <=? now (loops p))%Z
  | DeadlineDone => false
  end.
Definition join_ready (p : Peer) : bool :=
  match reading (loops p) with Joining => all_ended (serves p) | _ => false end.
Definition run_ready (p : Peer) : bool :=
  running (life p) &&
  match reading (loops p), writing (loops p), timing (loops p) with
  | ReadDone, WriteDone, DeadlineDone => true
  | _, _, _ => false
  end.

(** What a transport reports: once it was closed, no more messages. *)
Definition readable (p : Peer) (r : expected bytes ReadError) : bool :=
  match r with
  | Ok _ => negb (transport_closed (life p))
  | Err e => match kind e with Oversized => negb (transport_closed (life p)) | _ => true end
  end.

(** An event of the loop, [stack] being empty. *)
Definition resume (p : Peer) (e : Event) : option Peer :=
  let w := loops p in
  match e, reading w, writing w, timing w with
  | Read r, AwaitRead, _, _ => if readable p r then Some (read_message p r) else None
  | ReadCancelled, AwaitRead, _, _ =>
      if run_cancelled w then
        let p1 := end_input p run_cancelled_end in
        let s := serves p1 in
        Some (with_reading (push (with_serves p1 (mkServes (request_callbacks s) (notification_callbacks s)
          (incoming_requests s) (handlers s) true (dispatched s) (answers s))) AfterGroupCancel) Dispatching)
      else None
  | Joined, Joining, _, _ =>
      if all_ended (serves p) then
        Some (with_reading (with_out (with_life p (with_answers_done (life p))) (set_write_event (out p) true)) ReadDone)
      else None
  | JoinCancelled, Joining, _, _ =>
      if all_ended (serves p) && run_cancelled w then Some (with_reading p ReadDone) else None
  | WriteStarts, _, WriteNotStarted, _ => if running (life p) then Some (write_run p) else None
  | WriteWoken, _, WriteWaiting, _ => if write_event (out p) then Some (write_run p) else None
  | Written None, _, Writing, _ => Some (write_run p)
  | Written (Some why), _, Writing, _ => Some (fail_output p why)
  | WriteCancelled, _, (WriteWaiting | Writing), _ => if run_cancelled w then Some (write_end p true) else None
  | OutputClosed None, _, ClosingOutput, _ => Some (write_end p false)
  | OutputClosed (Some why), _, ClosingOutput, _ => Some (fail_output p why)
  | DeadlineStarts, _, _, DeadlineNotStarted => if running (life p) then Some (deadline_run p) else None
  | DeadlineWoken, _, _, (DeadlineWaiting | DeadlineSleeping _) =>
      if deadline_changed (sends p) then Some (deadline_run p) else None
  | TimerFired, _, _, DeadlineSleeping until => if (until <=? now w)%Z then Some (deadline_run p) else None
  | DeadlineCancelled, _, _, (DeadlineWaiting | DeadlineSleeping _) =>
      if run_cancelled w then Some (with_timing p DeadlineDone) else None
  | RunEnded, ReadDone, WriteDone, DeadlineDone =>
      let l := life p in
      if running l then
        Some (with_life p (mkLife (input_open l) (closed l) (answers_done l) (violation_policy l) (ending l) (started l)
          false (transport_closed l) (gone l)))
      else None
  | _, _, _, _ => None
  end.

Definition step (p : Peer) (e : Event) : option Peer :=
  if gone (life p) then None
  else
    match e with
    | Does a => act p a
    | Returns violation => return_to p violation
    | Tick d =>
        let w := loops p in
        if ((0 <=? d) && (now w + d <=? clock_max))%Z
        then Some (with_loops p (mkLoops (reading w) (writing w) (timing w) (run_cancelled w) (now w + d) (stack w)))
        else None
    | _ => if bool_decide (stack (loops p) = []) then resume p e else None
    end.

Inductive reachable : Peer → Prop :=
| reachable_new : reachable new_peer
| reachable_step p e p' : reachable p → step p e = Some p' → reachable p'.

Fixpoint steps (p : Peer) (es : list Event) : option Peer :=
  match es with
  | [] => Some p
  | e :: es => step p e ≫= (λ p', steps p' es)
  end.

Lemma steps_reachable es p p' : reachable p → steps p es = Some p' → reachable p'.
Proof.
  revert p. induction es as [|e es IH]; intros p Hp; cbn; [by intros [= <-]|].
  destruct (step p e) as [q|] eqn:E; cbn; [|done]. apply IH. by eapply reachable_step.
Qed.
End Peer.
