(* ===== verification/PeerSends.v ===== *)
(** The requests a peer (Peer.v) has sent: which are pending and which settled,
    their ids and their deadlines.

    [sends_ok] is the invariant of the group [Sends], and [keeps] relates it to
    itself later: a request stays, and what settled it stays what settled it. *)

From Stdlib Require Import Strings.Byte ZArith Lia Bool.
From stdpp Require Import prelude gmap strings list sorting.
From S2P Require Import Prelude Charconv Framing Peer.
Local Open Scope kota_scope.
Local Open Scope nat_scope.

(** Request [k] is awaited. *)
Definition unsettled (s : Sends) (k : nat) : Prop := ∃ r, requests s !! k = Some r ∧ response r = None.

Record sends_ok (s : Sends) : Prop := {
  ok_pending : ∀ i k, pending_requests s !! i = Some k ↔
    ∃ r, requests s !! k = Some r ∧ id r = i ∧ response r = None;
  ok_ids : ∀ k r, requests s !! k = Some r → ∃ n, id r = NumberID n ∧ (n < next_request_id s)%Z;
  ok_distinct : ∀ j k r r', requests s !! j = Some r → requests s !! k = Some r' → id r = id r' → j = k;
  ok_deadlines : ∀ t k, (t, k) ∈ deadlines s ↔
    ∃ r, requests s !! k = Some r ∧ deadline r = Some t ∧ response r = None;
  ok_once : NoDup (deadlines s).*2;
  ok_sorted : StronglySorted (λ a b, (a.1 ≤ b.1)%Z) (deadlines s);
  ok_clock : ∀ t k, (t, k) ∈ deadlines s → (t ≤ clock_max)%Z;
}.

(** What later states keep of a request. *)
Definition keeps (s s' : Sends) : Prop :=
  ∀ k r, requests s !! k = Some r → ∃ r', requests s' !! k = Some r' ∧ id r' = id r ∧
    (∀ x, response r = Some x → response r' = Some x) ∧ (∀ t, deadline r = Some t → deadline r' = Some t) ∧
    (cancel_sent r = true → cancel_sent r' = true).

#[export] Instance keeps_preorder : PreOrder keeps.
Proof.
  split.
  - intros s k r Hr. by exists r.
  - intros s1 s2 s3 H12 H23 k r Hr. destruct (H12 k r Hr) as (r2 & Hr2 & Hi & Hx & Ht & Hc).
    destruct (H23 k r2 Hr2) as (r3 & Hr3 & Hi' & Hx' & Ht' & Hc'). exists r3. split_and!; eauto. congruence.
Qed.

Lemma keeps_same s s' : requests s' = requests s → keeps s s'.
Proof. intros E k r Hr. exists r. by rewrite E. Qed.

Lemma keeps_app s s' l : requests s' = requests s ++ l → keeps s s'.
Proof. intros E k r Hr. exists r. split_and!; try done. rewrite E. by apply lookup_app_l_Some. Qed.

Lemma keeps_alter s s' f k0 :
  requests s' = alter f k0 (requests s) →
  (∀ r, requests s !! k0 = Some r → id (f r) = id r ∧ (∀ x, response r = Some x → response (f r) = Some x) ∧
    (∀ t, deadline r = Some t → deadline (f r) = Some t) ∧ (cancel_sent r = true → cancel_sent (f r) = true)) →
  keeps s s'.
Proof.
  intros E Hf k r Hr. rewrite E. destruct (decide (k = k0)) as [->|Hne].
  - rewrite list_lookup_alter_eq, Hr. exists (f r). split; [done|by apply Hf].
  - rewrite list_lookup_alter_ne by congruence. exists r. done.
Qed.

(** ** Settling *)

Lemma sends_ok_new : sends_ok (sends new_peer).
Proof.
  split; cbn.
  - intros i k. split; [intros H; by rewrite lookup_empty in H|by intros (r & H & _)].
  - done.
  - done.
  - intros t k. split; [by intros ?%elem_of_nil|by intros (r & H & _)].
  - constructor.
  - constructor.
  - by intros t k ?%elem_of_nil.
Qed.

Lemma forget_deadlines s k r t j :
  sends_ok s → requests s !! k = Some r → response r = None →
  (t, j) ∈ deadlines (forget s k) ↔ (t, j) ∈ deadlines s ∧ j ≠ k.
Proof.
  intros Hs Hk Hr. unfold forget. cbn. rewrite (list_lookup_total_correct _ _ _ Hk). case_bool_decide as Hd.
  - split; [|by intros []]. intros Hin. split; [done|]. intros ->.
    apply (ok_deadlines _ Hs) in Hin as (r' & Hk' & Ht & _). congruence.
  - rewrite list_elem_of_filter. cbn. tauto.
Qed.

Lemma settle_lookup s k x j :
  requests (settle s k x) !! j = if decide (j = k) then (λ r, with_response r x) <$> requests s !! k else requests s !! j.
Proof.
  unfold settle. cbn. case_decide as Hj; [subst; apply list_lookup_alter_eq|apply list_lookup_alter_ne; congruence].
Qed.

Lemma settle_pending s k x : pending_requests (settle s k x) = delete (id (requests s !!! k)) (pending_requests s).
Proof. done. Qed.

Lemma sorted_filter {A} (R : A → A → Prop) (P : A → Prop) `{∀ x, Decision (P x)} l :
  StronglySorted R l → StronglySorted R (filter P l).
Proof.
  induction 1 as [|a l Hl IH Ha]; [constructor|]. rewrite filter_cons. case_decide; [|done].
  constructor; [done|]. rewrite Forall_forall in Ha |- *. intros y [_ Hy]%list_elem_of_filter. by apply Ha.
Qed.

Lemma settle_ok s k r x :
  sends_ok s → requests s !! k = Some r → response r = None → sends_ok (settle s k x).
Proof.
  intros Hs Hk Hr. pose proof (forget_deadlines s k r) as Hfd.
  assert (Hid : id (requests s !!! k) = id r) by by rewrite (list_lookup_total_correct _ _ _ Hk).
  split.
  - intros i j. rewrite settle_pending, Hid, lookup_delete_Some, (ok_pending _ Hs). split.
    + intros (Hne & r' & Hj & Hi & Hr'). exists r'. rewrite settle_lookup, decide_False; [done|]. intros ->. congruence.
    + rewrite settle_lookup. case_decide as Hj; [subst j; rewrite Hk; cbn; intros (r' & [= <-] & _ & [=])|].
      intros (r' & Hj' & Hi & Hr'). split; [|by exists r']. intros E. apply Hj.
      apply (ok_distinct _ Hs j k r' r); congruence.
  - intros j r'. rewrite settle_lookup. case_decide; [subst j; rewrite Hk; intros [= <-]; exact (ok_ids _ Hs k r Hk)|].
    by apply (ok_ids _ Hs).
  - intros j j' r1 r2. rewrite !settle_lookup.
    pose proof (ok_distinct _ Hs) as Hd. repeat case_decide; subst; rewrite ?Hk; cbn; intros H1 H2 H3; simplify_eq; eauto.
  - intros t j. change (deadlines (settle s k x)) with (deadlines (forget s k)).
    rewrite Hfd, (ok_deadlines _ Hs) by done. split.
    + intros ((r' & Hj & H) & Hne). exists r'. by rewrite settle_lookup, decide_False.
    + rewrite settle_lookup. case_decide as Hj; [subst j; rewrite Hk; cbn; intros (r' & [= <-] & _ & [=])|].
      intros (r' & H). split; [by exists r'|done].
  - cbn. case_bool_decide; [apply (ok_once _ Hs)|]. eapply sublist_NoDup; [apply (ok_once _ Hs)|].
    apply fmap_sublist, sublist_filter.
  - cbn. case_bool_decide; [apply (ok_sorted _ Hs)|apply sorted_filter, (ok_sorted _ Hs)].
  - intros t j. change (deadlines (settle s k x)) with (deadlines (forget s k)).
    rewrite Hfd by done. intros [H _]. by apply (ok_clock _ Hs t j).
Qed.

Lemma settle_keeps s k r x : requests s !! k = Some r → response r = None → keeps s (settle s k x).
Proof.
  intros Hk Hr. eapply keeps_alter; [done|]. intros r' Hk'. simplify_eq. cbn. split_and!; try done. by rewrite Hr.
Qed.

Lemma pending_settle s i k x :
  sends_ok s → pending_requests s !! i = Some k →
  sends_ok (settle s k x) ∧ keeps s (settle s k x) ∧ pending_requests (settle s k x) = delete i (pending_requests s).
Proof.
  intros Hs Hi. apply (ok_pending _ Hs) in Hi as (r & Hk & <- & Hr). split_and!.
  - by eapply settle_ok.
  - by eapply settle_keeps.
  - by rewrite settle_pending, (list_lookup_total_correct _ _ _ Hk).
Qed.

Lemma complete_request_ok s i x :
  sends_ok s → sends_ok (complete_pending_request s i x) ∧ keeps s (complete_pending_request s i x) ∧
    pending_requests (complete_pending_request s i x) = delete i (pending_requests s).
Proof.
  intros Hs. unfold complete_pending_request. destruct (pending_requests s !! i) as [k|] eqn:E.
  - by apply pending_settle.
  - split_and!; [done|done|]. by rewrite delete_id.
Qed.

(** ** All of them fail *)

Lemma fail_list_ok e (l : list (RequestID * nat)) s :
  NoDup l.*1 → sends_ok s → (∀ i k, (i, k) ∈ l → pending_requests s !! i = Some k) →
  let s' := foldl (λ s k, settle s k (Err e)) s l.*2 in
  sends_ok s' ∧ keeps s s' ∧ (∀ i, i ∉ l.*1 → pending_requests s' !! i = pending_requests s !! i) ∧
  (∀ i, i ∈ l.*1 → pending_requests s' !! i = None).
Proof.
  revert s. induction l as [|[i k] l IH]; intros s Hnd Hs Hl; cbn.
  { split_and!; try done. by intros i ?%elem_of_nil. }
  apply NoDup_cons in Hnd as [Hni Hnd].
  destruct (pending_settle s i k (Err e) Hs) as (H1 & H2 & H3); [apply Hl; constructor|].
  destruct (IH (settle s k (Err e)) Hnd H1) as (H4 & H5 & H6 & H7).
  { intros j m Hj. rewrite H3, lookup_delete_ne; [apply Hl; by constructor|].
    intros ->. apply Hni, list_elem_of_fmap. by exists (j, m). }
  split_and!; [done|by etrans|..].
  - intros j [Hj Hjl]%not_elem_of_cons. rewrite H6 by done. by rewrite H3, lookup_delete_ne.
  - intros j [->|Hj]%elem_of_cons; [|by apply H7].
    rewrite H6 by done. by rewrite H3, lookup_delete_eq.
Qed.

Lemma fail_ok s e :
  sends_ok s → sends_ok (fail_pending_requests s e) ∧ keeps s (fail_pending_requests s e) ∧
    pending_requests (fail_pending_requests s e) = ∅.
Proof.
  intros Hs. destruct (fail_list_ok e (map_to_list (pending_requests s)) s) as (H1 & H2 & H3 & H4).
  - apply NoDup_fst_map_to_list.
  - done.
  - intros i k Hi. by apply elem_of_map_to_list.
  - split_and!; [done|done|]. apply map_empty. intros i.
    destruct (decide (i ∈ (map_to_list (pending_requests s)).*1)) as [Hi|Hi]; [by apply H4|].
    unfold fail_pending_requests. rewrite (H3 i) by done. apply eq_None_not_Some. intros [k Hk].
    apply Hi, list_elem_of_fmap. exists (i, k). by rewrite elem_of_map_to_list.
Qed.

(** With nothing pending there is no deadline, and every request is settled. *)
Lemma no_deadlines s : sends_ok s → pending_requests s = ∅ → deadlines s = [].
Proof.
  intros Hs Hp. destruct (deadlines s) as [|[t k] l] eqn:E; [done|].
  destruct (proj1 (ok_deadlines _ Hs t k)) as (r & Hk & _ & Hr); [rewrite E; constructor|].
  assert (H : pending_requests s !! id r = Some k) by (apply (ok_pending _ Hs); by exists r).
  by rewrite Hp, lookup_empty in H.
Qed.

Lemma all_settled s k r : sends_ok s → pending_requests s = ∅ → requests s !! k = Some r → response r ≠ None.
Proof.
  intros Hs Hp Hk Hr. assert (H : pending_requests s !! id r = Some k) by (apply (ok_pending _ Hs); by exists r).
  by rewrite Hp, lookup_empty in H.
Qed.

(** ** A new request *)

Definition next_id (s : Sends) : Sends :=
  mkSends (requests s) (next_request_id s + 1) (pending_requests s) (deadlines s) (deadline_changed s).

Lemma next_id_ok s : sends_ok s → sends_ok (next_id s).
Proof.
  intros [H1 H2 H3 H4 H5 H6 H7]. split; try done. intros k r Hk. destruct (H2 k r Hk) as (n & -> & Hn).
  exists n. split; [done|]. cbn. lia.
Qed.

(** The request [n], without its deadline yet. *)
Definition add_request (s : Sends) (n : Z) : Sends :=
  mkSends (requests s ++ [mkPending (NumberID n) None None false]) (n + 1)
    (<[NumberID n := length (requests s)]> (pending_requests s)) (deadlines s) (deadline_changed s).

Lemma add_lookup s n k r :
  requests (add_request s n) !! k = Some r ↔
  requests s !! k = Some r ∨ k = length (requests s) ∧ r = mkPending (NumberID n) None None false.
Proof.
  cbn. rewrite lookup_app_Some. split.
  - intros [?|[Hle H]]; [by left|right]. apply list_lookup_singleton_Some in H as [? <-]. split; [lia|done].
  - intros [?|[-> ->]]; [by left|right]. by rewrite Nat.sub_diag.
Qed.

Lemma add_ok s : sends_ok s → sends_ok (add_request s (next_request_id s)).
Proof.
  intros Hs. set (n := next_request_id s).
  assert (Hold : ∀ k r, requests s !! k = Some r → id r ≠ NumberID n).
  { intros k r Hk. destruct (ok_ids _ Hs k r Hk) as (m & -> & Hm). intros [= ->]. lia. }
  assert (Hlen : ∀ k r, requests s !! k = Some r → k ≠ length (requests s)).
  { intros k r Hk%lookup_lt_Some. lia. }
  split; try apply Hs.
  - intros i k. cbn. rewrite lookup_insert_Some, (ok_pending _ Hs). split.
    + intros [[<- <-]|(Hne & r & Hk & Hi & Hr)]; [|exists r; split; [by apply add_lookup; left|done]].
      eexists. split; [apply add_lookup; by right|done].
    + intros (r & [Hk|[-> ->]]%add_lookup & Hi & Hr); [right|by left].
      split; [|by exists r]. intros <-. by apply (Hold k r).
  - intros k r [Hk|[-> ->]]%add_lookup; cbn; [|exists n; split; [done|lia]].
    destruct (ok_ids _ Hs k r Hk) as (m & -> & Hm). exists m. split; [done|lia].
  - intros j k r r' [Hj|[-> ->]]%add_lookup [Hk|[-> ->]]%add_lookup E; try done.
    + by apply (ok_distinct _ Hs j k r r').
    + by apply Hold in Hj.
    + by symmetry in E; apply Hold in Hk.
  - intros t k. cbn. rewrite (ok_deadlines _ Hs). split.
    + intros (r & Hk & H). exists r. split; [by apply add_lookup; left|done].
    + intros (r & [Hk|[-> ->]]%add_lookup & Ht & Hr); [by exists r|done].
Qed.

(** ** Deadlines *)

Lemma emplace_perm at_ k l : emplace_deadline at_ k l ≡ₚ (at_, k) :: l.
Proof.
  induction l as [|e l IH]; [done|]. cbn. destruct (at_ <? e.1)%Z; [done|]. rewrite IH. apply Permutation_swap.
Qed.

Lemma emplace_sorted at_ k l :
  StronglySorted (λ a b, (a.1 ≤ b.1)%Z) l → StronglySorted (λ a b, (a.1 ≤ b.1)%Z) (emplace_deadline at_ k l).
Proof.
  induction 1 as [|e l Hl IH He]; cbn; [constructor; constructor|].
  destruct (at_ <? e.1)%Z eqn:E.
  - constructor; [by constructor|]. constructor; [cbn; lia|]. eapply Forall_impl; [exact He|]. cbn. intros; lia.
  - constructor; [done|]. rewrite emplace_perm. constructor; [cbn; lia|done].
Qed.

Lemma emplace_head at_ k l : head (emplace_deadline at_ k l) = Some (at_, k) ∨ ∃ e, e ∈ l ∧ (e.1 ≤ at_)%Z.
Proof.
  destruct l as [|e l]; [by left|]. cbn. destruct (at_ <? e.1)%Z eqn:E; [by left|right].
  exists e. split; [constructor|lia].
Qed.

(** The time a timeout ends at is one the clock counts. *)
Definition due (time timeout : Z) : Z :=
  if (timeout <? floor_ms (clock_max - time))%Z then (time + timeout * millisecond)%Z else clock_max.

Lemma due_clock time timeout : (due time timeout ≤ clock_max)%Z.
Proof.
  unfold due, floor_ms, millisecond. destruct (timeout <? _)%Z eqn:E; [|lia]. apply Z.ltb_lt in E. dlia.
Qed.

Lemma file_ok s time k timeout r :
  sends_ok s → requests s !! k = Some r → response r = None → deadline r = None → sends_ok (file_deadline s time k timeout).
Proof.
  intros Hs Hk Hr Hd. unfold file_deadline. fold (due time timeout). set (at_ := due time timeout).
  assert (Hl : ∀ j, alter (λ r, with_deadline r at_) k (requests s) !! j =
    if decide (k = j) then Some (with_deadline r at_) else requests s !! j).
  { intros j. rewrite list_lookup_alter. case_decide; [by rewrite Hk|done]. }
  assert (Hno : ∀ t, (t, k) ∉ deadlines s).
  { intros t Hin. apply (ok_deadlines _ Hs) in Hin as (r' & Hk' & Ht & _). congruence. }
  split; cbn.
  - intros i j. rewrite (ok_pending _ Hs), Hl. case_decide as Hj; [subst j|done]. rewrite Hk. split.
    + intros (r' & [= <-] & H). by eexists.
    + intros (r' & [= <-] & H). by exists r.
  - intros j r'. rewrite Hl. case_decide; [intros [= <-]; exact (ok_ids _ Hs k r Hk)|apply (ok_ids _ Hs)].
  - intros i j r1 r2. pose proof (ok_distinct _ Hs) as Hdis. rewrite !Hl. repeat case_decide; subst; try done; intros; simplify_eq; eauto.
  - intros t j. rewrite emplace_perm, elem_of_cons, (ok_deadlines _ Hs), Hl. case_decide as Hj; [subst j|].
    + split; [intros [[= ->]|(r' & Hk' & Ht & _)]; [by eexists|congruence]|].
      intros (r' & [= <-] & [= <-] & _). by left.
    + split; [intros [[= -> ->]|?]; done|]. by right.
  - rewrite emplace_perm. cbn. apply NoDup_cons. split; [|apply Hs].
    intros ([t j] & E & Hin)%list_elem_of_fmap. cbn in E. subst j. by apply (Hno t).
  - apply emplace_sorted, Hs.
  - intros t j. rewrite emplace_perm, elem_of_cons. intros [[= -> ->]|Hin]; [apply due_clock|by apply (ok_clock _ Hs t j)].
Qed.

Lemma file_keeps s time k timeout r :
  requests s !! k = Some r → deadline r = None → keeps s (file_deadline s time k timeout).
Proof.
  intros Hk Hd. eapply keeps_alter; [done|]. intros r' Hk'. simplify_eq. cbn. split_and!; try done. by rewrite Hd.
Qed.

(** The deadline loop is woken by a deadline before all others. *)
Lemma file_changes s time k timeout :
  deadline_changed (file_deadline s time k timeout) = true ∨
  deadline_changed (file_deadline s time k timeout) = deadline_changed s ∧
    ∃ e, e ∈ deadlines s ∧ (e.1 ≤ due time timeout)%Z.
Proof.
  unfold file_deadline. fold (due time timeout). cbn. case_bool_decide as E; [by left|right]. split; [done|].
  by destruct (emplace_head (due time timeout) k (deadlines s)).
Qed.

(** What marks a request as cancelled changes nothing else. *)
Definition mark_cancel (s : Sends) (k : nat) : Sends := with_requests s (alter with_cancel_sent k (requests s)).

Lemma mark_lookup s k j :
  requests (mark_cancel s k) !! j = (λ r, if decide (k = j) then with_cancel_sent r else r) <$> requests s !! j.
Proof.
  cbn. rewrite list_lookup_alter. case_decide; [by subst|]. by destruct (requests s !! j).
Qed.

Lemma mark_ok s k : sends_ok s → sends_ok (mark_cancel s k).
Proof.
  intros Hs. assert (Hl : ∀ j r', requests (mark_cancel s k) !! j = Some r' →
    ∃ r, requests s !! j = Some r ∧ id r' = id r ∧ response r' = response r ∧ deadline r' = deadline r).
  { intros j r'. rewrite mark_lookup. destruct (requests s !! j) as [r|]; [|done]. intros [= <-]. exists r. by case_decide. }
  assert (Hl' : ∀ j r, requests s !! j = Some r → ∃ r', requests (mark_cancel s k) !! j = Some r' ∧
    id r' = id r ∧ response r' = response r ∧ deadline r' = deadline r).
  { intros j r Hj. rewrite mark_lookup, Hj. eexists. split; [done|]. by case_decide. }
  split; try apply Hs.
  - intros i j. change (pending_requests (mark_cancel s k)) with (pending_requests s). rewrite (ok_pending _ Hs). split.
    + intros (r & Hj & Hi & Hr). destruct (Hl' j r Hj) as (r' & ? & E1 & E2 & _). exists r'. by rewrite E1, E2.
    + intros (r' & Hj & Hi & Hr). destruct (Hl j r' Hj) as (r & ? & E1 & E2 & _). exists r. by rewrite <- E1, <- E2.
  - intros j r' Hj. destruct (Hl j r' Hj) as (r & Hr & -> & _). by apply (ok_ids _ Hs j).
  - intros i j r1 r2 H1 H2 E. destruct (Hl i r1 H1) as (r1' & ? & E1 & _), (Hl j r2 H2) as (r2' & ? & E2 & _).
    apply (ok_distinct _ Hs i j r1' r2'); congruence.
  - intros t j. change (deadlines (mark_cancel s k)) with (deadlines s). rewrite (ok_deadlines _ Hs). split.
    + intros (r & Hj & Ht & Hr). destruct (Hl' j r Hj) as (r' & ? & _ & E2 & E3). exists r'. by rewrite E2, E3.
    + intros (r' & Hj & Ht & Hr). destruct (Hl j r' Hj) as (r & ? & _ & E2 & E3). exists r. by rewrite <- E2, <- E3.
Qed.

Lemma mark_keeps s k : keeps s (mark_cancel s k).
Proof. by eapply keeps_alter. Qed.

(** The loop is woken or not: no other part changes. *)
Lemma changed_ok s b : sends_ok s → sends_ok (with_deadlines s (deadlines s) b).
Proof. by intros []. Qed.

Lemma sorted_lookup {A} (R : A → A → Prop) l i j a b :
  StronglySorted R l → l !! i = Some a → l !! j = Some b → i < j → R a b.
Proof.
  intros Hl. revert i j. induction Hl as [|x l Hl IH Hx]; intros i j Ha Hb Hij; [done|].
  destruct j as [|j]; [lia|]. cbn in Hb. destruct i as [|i]; cbn in Ha; [|by apply (IH i j); [..|lia]].
  injection Ha as <-. rewrite Forall_forall in Hx. apply Hx. by eapply list_elem_of_lookup_2.
Qed.
