(* ===== verification/PeerSteps.v ===== *)
(** The steps of a peer (Peer.v) as a relation, a constructor for each way
    [step] goes on, and what the operations inside a step change. *)

From Stdlib Require Import Strings.Byte ZArith Lia Bool.
From stdpp Require Import prelude gmap strings list relations.
From S2P Require Import Prelude Charconv Framing Peer PeerSends.
Local Open Scope kota_scope.
Local Open Scope nat_scope.

Section Steps.
Context `{C : Codec}.
Variable limit : nat.

Definition idle (p : Peer) : Prop := stack (loops p) = [].

Inductive transition (p : Peer) : Peer → Prop :=
| t_send_request method params token timeout : transition p (send_request limit p method params token timeout).1
| t_send_notification method params : transition p (send_notification limit p OfNotification method params).1
| t_cancel_remote k : k < length (requests (sends p)) → transition p (cancel_remote limit p k)
| t_close : transition p (close p)
| t_close_output : transition p (close_output p)
| t_policy v : transition p (with_life p (mkLife (input_open (life p)) (closed (life p)) (answers_done (life p)) v
    (ending (life p)) (started (life p)) (running (life p)) (transport_closed (life p)) (gone (life p))))
| t_callbacks rs ns : transition p (with_serves p (mkServes rs ns (incoming_requests (serves p)) (handlers (serves p))
    (group_decided (serves p)) (dispatched (serves p)) (answers (serves p))))
| t_handler_ends h x o : handlers (serves p) !! h = Some x → ended x = false →
    transition p (run_request_end limit p h (handled x) o)
| t_run : started (life p) = false →
    transition p (with_loops (with_life p (mkLife (input_open (life p)) (closed (life p)) (answers_done (life p))
      (violation_policy (life p)) (ending (life p)) true true (transport_closed (life p)) (gone (life p))))
      (mkLoops AwaitRead (writing (loops p)) (timing (loops p)) (run_cancelled (loops p)) (now (loops p)) (stack (loops p))))
| t_cancel_run : running (life p) = true →
    transition p (with_loops p (mkLoops (reading (loops p)) (writing (loops p)) (timing (loops p)) true (now (loops p))
      (stack (loops p))))
| t_destroy : running (life p) = false → idle p →
    transition p (with_sends (with_life p (mkLife (input_open (life p)) (closed (life p)) (answers_done (life p))
      (violation_policy (life p)) (ending (life p)) (started (life p)) false (transport_closed (life p)) true))
      (fail_pending_requests (sends p) (error ConnectionClosed (lit "peer destroyed"))))
| t_return_dispatch f rest v : stack (loops p) = f :: rest → f = AfterNotification ∨ f = AfterDispatch →
    transition p (read_on (with_stack p rest) v)
| t_return_cancel sources t rest : stack (loops p) = CancelHandlers sources t :: rest →
    transition p (cancel_sources (with_stack p rest) sources t)
| t_return_group rest : stack (loops p) = AfterGroupCancel :: rest →
    transition p (with_reading (with_stack p rest) Joining)
| t_read r : idle p → reading (loops p) = AwaitRead → readable p r = true → transition p (read_message limit p r)
| t_read_cancelled : idle p → reading (loops p) = AwaitRead → run_cancelled (loops p) = true →
    transition p (let p1 := end_input p run_cancelled_end in
      with_reading (push (with_serves p1 (mkServes (request_callbacks (serves p1)) (notification_callbacks (serves p1))
        (incoming_requests (serves p1)) (handlers (serves p1)) true (dispatched (serves p1)) (answers (serves p1))))
        AfterGroupCancel) Dispatching)
| t_joined : idle p → reading (loops p) = Joining → all_ended (serves p) = true →
    transition p (with_reading (with_out (with_life p (with_answers_done (life p))) (set_write_event (out p) true)) ReadDone)
| t_join_cancelled : idle p → reading (loops p) = Joining → all_ended (serves p) = true → run_cancelled (loops p) = true →
    transition p (with_reading p ReadDone)
| t_write_run : idle p → running (life p) = true ∧ writing (loops p) = WriteNotStarted ∨
    (writing (loops p) = WriteWaiting ∧ write_event (out p) = true) ∨ writing (loops p) = Writing →
    transition p (write_run p)
| t_write_fails why : idle p → writing (loops p) = Writing ∨ writing (loops p) = ClosingOutput →
    transition p (fail_output p why)
| t_write_cancelled : idle p → run_cancelled (loops p) = true → writing (loops p) = WriteWaiting ∨ writing (loops p) = Writing →
    transition p (write_end p true)
| t_output_closed : idle p → writing (loops p) = ClosingOutput → transition p (write_end p false)
| t_deadline_run : idle p → deadline_ready p = true → transition p (deadline_run limit p)
| t_deadline_cancelled : idle p → run_cancelled (loops p) = true →
    timing (loops p) = DeadlineWaiting ∨ (∃ u, timing (loops p) = DeadlineSleeping u) → transition p (with_timing p DeadlineDone)
| t_run_ended : idle p → running (life p) = true → reading (loops p) = ReadDone → writing (loops p) = WriteDone →
    timing (loops p) = DeadlineDone →
    transition p (with_life p (mkLife (input_open (life p)) (closed (life p)) (answers_done (life p))
      (violation_policy (life p)) (ending (life p)) (started (life p)) false (transport_closed (life p)) (gone (life p))))
| t_tick d : (0 ≤ d)%Z → (now (loops p) + d ≤ clock_max)%Z →
    transition p (with_loops p (mkLoops (reading (loops p)) (writing (loops p)) (timing (loops p)) (run_cancelled (loops p))
      (now (loops p) + d) (stack (loops p)))).

Lemma act_transition p a p' : act limit p a = Some p' → transition p p'.
Proof.
  destruct a; cbn; try (intros [= <-]; by constructor).
  - case_if; [|done]. intros [= <-]. constructor. by apply Nat.ltb_lt.
  - destruct (handlers _ !! h) as [x|] eqn:E; [|done]. destruct (ended x) eqn:Ex; [done|]. intros [= <-]. by constructor.
  - destruct (started _) eqn:E; [done|]. intros [= <-]. by constructor.
  - destruct (running _) eqn:E; [|done]. intros [= <-]. by constructor.
  - destruct (running _) eqn:E; [done|]. cbn. case_bool_decide as Es; [|done]. intros [= <-]. by constructor.
Qed.

Lemma return_transition p v p' : return_to p v = Some p' → transition p p'.
Proof.
  unfold return_to. destruct (stack _) as [|f rest] eqn:E; [done|]. intros [= <-].
  destruct f; [apply (t_return_dispatch p AfterNotification rest v); eauto|apply (t_return_dispatch p AfterDispatch rest None); eauto
    |by apply t_return_cancel|by apply t_return_group].
Qed.

Lemma resume_transition p e p' : idle p → resume limit p e = Some p' → transition p p'.
Proof.
  intros Hi. unfold resume. destruct e; cbn; try done;
    repeat match goal with
    | |- match ?x with _ => _ end = _ → _ => destruct x eqn:?
    | |- (if ?x then _ else _) = _ → _ => destruct x eqn:?
    | |- _ => done
    end; intros [= <-]; bool_prop;
    try (by econstructor; eauto); try (apply t_write_run; by eauto); try (apply t_write_fails; by eauto);
    try (apply t_deadline_run; [done|]; unfold deadline_ready;
      match goal with H : timing _ = _ |- _ => rewrite H end; try done; apply orb_true_iff; by (left + (right; apply Z.leb_le))).
Qed.

Lemma step_transition p e p' : step limit p e = Some p' → gone (life p) = false ∧ transition p p'.
Proof.
  unfold step. destruct (gone _) eqn:Eg; [done|]. intros H. split; [done|]. destruct e.
  1: by apply (act_transition p a).
  1: by apply (return_transition p violation).
  all: try (case_bool_decide as Hs; [by eapply resume_transition|done]).
  cbn in H. case_if_in H; [|done]. injection H as <-. bool_prop. constructor; lia.
Qed.

(** ** What operations change *)

(** An open output takes [m]. *)
Definition pushed (o : Output) (m : Message) : Output :=
  mkOutput (outgoing_queue o ++ [m]) true false true (queued o ++ [m]) (written o) (half_closed o).

Lemma enqueue_open o m : output_open o = true → closing_output o = false → enqueue_outgoing o m = pushed o m.
Proof. intros H1 H2. unfold enqueue_outgoing, pushed. by rewrite H1, H2. Qed.

Lemma sendable p b :
  unsendable p b = None → closed (life p) = false ∧ output_open (out p) = true ∧ closing_output (out p) = false ∧
    (b = true → input_open (life p) = true).
Proof.
  unfold unsendable. destruct (closed _); [done|]. destruct (output_open _); [|done]. destruct (closing_output _); [done|].
  cbn. destruct b; cbn; [|done]. by destruct (input_open _).
Qed.

Lemma notify_cases p t m x :
  (∃ e, send_notification limit p t m x = (p, Some e)) ∨
  (∃ text, (unsendable p false = None ∧ fits limit text = true) ∧ send_notification limit p t m x = (with_out p (pushed (out p) (mkMessage t text)), None)).
Proof.
  unfold send_notification. destruct (unsendable p false) eqn:E; [left; by eexists|].
  destruct (encode_notification m x) as [text|e]; [|left; by eexists]. destruct (fits limit text) eqn:Ef; [|left; by eexists].
  right. exists text. split; [done|]. apply sendable in E as (_ & H1 & H2 & _). by rewrite enqueue_open.
Qed.

(** Request [k] is marked and the remote told, or not. *)
Lemma cancel_cases p k :
  let s := mark_cancel (sends p) k in
  (∃ e, send_cancel_request limit p k = (with_sends p s, Some e)) ∨
  (∃ text, (unsendable p false = None ∧ fits limit text = true) ∧
    send_cancel_request limit p k = (with_out (with_sends p s) (pushed (out p) (mkMessage (OfCancel k) text)), None)).
Proof.
  cbn zeta. unfold send_cancel_request. fold (mark_cancel (sends p) k).
  by destruct (notify_cases (with_sends p (mark_cancel (sends p) k)) (OfCancel k) cancel_method
    (cancel_request_params (id (requests (sends p) !!! k)))) as [H|H]; [left|right].
Qed.

(** One request ends before its answer: told to the remote ([told]), or not, or
    told before. *)
Inductive gives_up (p : Peer) (k : nat) (x : Result) : Peer → Prop :=
| gives_up_told_before : cancel_sent (requests (sends p) !!! k) = true →
    gives_up p k x (with_sends p (settle (sends p) k x))
| gives_up_silent : cancel_sent (requests (sends p) !!! k) = false →
    gives_up p k x (with_sends p (settle (mark_cancel (sends p) k) k x))
| gives_up_told text : cancel_sent (requests (sends p) !!! k) = false → (unsendable p false = None ∧ fits limit text = true) →
    gives_up p k x (with_out (with_sends p (settle (mark_cancel (sends p) k) k x))
      (pushed (out p) (mkMessage (OfCancel k) text))).

Inductive cancels (p : Peer) (k : nat) : Peer → Prop :=
| cancels_not : cancels p k p
| cancels_told text : cancel_sent (requests (sends p) !!! k) = false → response (requests (sends p) !!! k) = None →
    (unsendable p false = None ∧ fits limit text = true) →
    cancels p k (with_out (with_sends p (mark_cancel (sends p) k)) (pushed (out p) (mkMessage (OfCancel k) text)))
| cancels_fails x p' : response (requests (sends p) !!! k) = None → gives_up p k x p' → cancels p k p'.

Lemma cancel_remote_cancels p k : cancels p k (cancel_remote limit p k).
Proof.
  unfold cancel_remote. case_bool_decide as Hr; cbn; [|constructor]. destruct (cancel_sent _) eqn:Ec; [constructor|].
  destruct (cancel_cases p k) as [[e ->]|(text & Hu & ->)]; [|by constructor].
  eapply cancels_fails; [done|]. exact (gives_up_silent p k _ Ec).
Qed.

Definition timed_out : Result := Err (error RequestCancelled (lit "request timed out")).

(** Every deadline is of a request that waits. *)
Lemma deadline_unsettled s t k l :
  sends_ok s → deadlines s = (t, k) :: l → ∃ r, requests s !! k = Some r ∧ response r = None ∧ deadline r = Some t.
Proof.
  intros Hs El. destruct (proj1 (ok_deadlines _ Hs t k)) as (r & H1 & H2 & H3); [rewrite El; constructor|]. by exists r.
Qed.

Inductive expires (p : Peer) : Peer → Prop :=
| expires_one t k l p' : deadlines (sends p) = (t, k) :: l → (t ≤ now (loops p))%Z → gives_up p k timed_out p' → expires p p'.

Lemma gives_up_ok p k r x p' :
  sends_ok (sends p) → requests (sends p) !! k = Some r → response r = None → gives_up p k x p' →
  sends_ok (sends p') ∧ keeps (sends p) (sends p') ∧ (∀ i j, pending_requests (sends p') !! i = Some j → pending_requests (sends p) !! i = Some j).
Proof.
  intros Hs Hk Hr Hg.
  assert (Hm : requests (mark_cancel (sends p) k) !! k = Some (with_cancel_sent r)) by by rewrite mark_lookup, Hk; cbn; rewrite decide_True.
  pose proof (mark_ok _ k Hs) as Hs'. pose proof (mark_keeps (sends p) k) as Hmk.
  destruct Hg as [_|_|text _ _]; cbn [sends with_sends with_out].
  - split_and!; [by eapply settle_ok|by eapply settle_keeps|]. intros i j. rewrite settle_pending. by intros [_ ?]%lookup_delete_Some.
  - split_and!; [by eapply settle_ok|etrans; [done|by eapply settle_keeps]|].
    intros i j. rewrite settle_pending. by intros [_ ?]%lookup_delete_Some.
  - split_and!; [by eapply settle_ok|etrans; [done|by eapply settle_keeps]|].
    intros i j. rewrite settle_pending. by intros [_ ?]%lookup_delete_Some.
Qed.

Lemma expire_one_gives_up p k :
  gives_up p k timed_out
    (let p' := if cancel_sent (requests (sends p) !!! k) then p else (send_cancel_request limit p k).1 in
     with_sends p' (settle (sends p') k timed_out)).
Proof.
  cbn zeta. destruct (cancel_sent _) eqn:Ec; [by apply gives_up_told_before|].
  destruct (cancel_cases p k) as [[e ->]|(text & Hu & ->)];
    [exact (gives_up_silent p k _ Ec)|exact (gives_up_told p k timed_out text Ec Hu)].
Qed.

Lemma expire_expires fuel p : sends_ok (sends p) → rtc expires p (expire_due limit fuel p).
Proof.
  revert p. induction fuel as [|fuel IH]; intros p Hs; [done|]. cbn [expire_due].
  destruct (deadlines (sends p)) as [|[t k] l] eqn:El; [done|]. destruct (t <=? _)%Z eqn:Et; [|done]. bool_prop.
  destruct (deadline_unsettled _ _ _ _ Hs El) as (r & Hk & Hr & _).
  pose proof (expire_one_gives_up p k) as Hg. eapply rtc_l; [by eapply expires_one|]. apply IH. by eapply gives_up_ok.
Qed.

Lemma gives_up_frame p k x p' : gives_up p k x p' → serves p' = serves p ∧ life p' = life p ∧ loops p' = loops p.
Proof. by destruct 1. Qed.

Lemma gives_up_deadlines p k r x p' :
  sends_ok (sends p) → requests (sends p) !! k = Some r → response r = None → gives_up p k x p' →
  ∀ t j, (t, j) ∈ deadlines (sends p') ↔ (t, j) ∈ deadlines (sends p) ∧ j ≠ k.
Proof.
  intros Hs Hk Hr Hg t j. destruct Hg as [_|_|text _ _]; cbn [sends with_sends with_out].
  1: by apply (forget_deadlines _ k r t j).
  all: apply (forget_deadlines (mark_cancel (sends p) k) k (with_cancel_sent r) t j); [by apply mark_ok| |done];
    rewrite mark_lookup, Hk; cbn; by rewrite decide_True.
Qed.

Lemma expire_frame fuel p :
  sends_ok (sends p) → let p' := expire_due limit fuel p in serves p' = serves p ∧ life p' = life p ∧ loops p' = loops p.
Proof.
  intros Hs. cbn zeta. induction (expire_expires fuel p Hs) as [|p1 p2 p3 H12 _ IH]; [done|].
  destruct H12 as [t k l p2 Hd Ht Hg]. destruct (deadline_unsettled _ _ _ _ Hs Hd) as (r & Hk & Hr & _).
  destruct (gives_up_ok _ _ _ _ _ Hs Hk Hr Hg) as (Hs2 & _). destruct (IH Hs2) as (-> & -> & ->). by eapply gives_up_frame.
Qed.

(** Of the deadlines that have passed, none is left. *)
Lemma expire_done fuel p :
  sends_ok (sends p) → length (deadlines (sends p)) ≤ fuel →
  ∀ t k, (t, k) ∈ deadlines (sends (expire_due limit fuel p)) → (now (loops p) < t)%Z ∧ (t, k) ∈ deadlines (sends p).
Proof.
  revert p. induction fuel as [|fuel IH]; intros p Hs Hlen t k.
  { cbn. destruct (deadlines (sends p)); [by intros ?%elem_of_nil|cbn in Hlen; lia]. }
  pose proof (expire_expires 1 p Hs) as H1. revert H1. cbn [expire_due].
  destruct (deadlines (sends p)) as [|[t0 k0] l] eqn:El; [by rewrite El; intros _ ?%elem_of_nil|].
  destruct (t0 <=? _)%Z eqn:Et; bool_prop.
  - set (q := with_sends _ _). intros _ Hin. destruct (deadline_unsettled _ _ _ _ Hs El) as (r & Hk & Hr & _).
    pose proof (expire_one_gives_up p k0) as Hg. change (gives_up p k0 timed_out q) in Hg.
    destruct (gives_up_ok _ _ _ _ _ Hs Hk Hr Hg) as (Hs2 & _). pose proof (gives_up_deadlines _ _ _ _ _ Hs Hk Hr Hg) as Hd.
    destruct (gives_up_frame _ _ _ _ Hg) as (_ & _ & Hw). apply IH in Hin as [Hlt Hin]; [| done |].
    + rewrite Hw in Hlt. apply Hd in Hin as [Hin _]. by rewrite El in Hin.
    + assert (Hsub : ∀ e, e ∈ deadlines (sends q) → e ∈ l).
      { intros [t1 k1] [H1 H2]%Hd. rewrite El in H1. apply elem_of_cons in H1 as [[= -> ->]|?]; done. }
      assert (Hle : length (deadlines (sends q)) ≤ length l).
      { apply submseteq_length, NoDup_submseteq; [|done]. eapply NoDup_fmap_1, Hs2. }
      cbn in Hlen. lia.
  - intros _ Hin. rewrite El in Hin. split; [|done]. pose proof (ok_sorted _ Hs) as Hso. rewrite El in Hso.
    inversion_clear Hso as [|? ? _ Hall]. apply elem_of_cons in Hin as [[= -> ->]|Hin]; [done|].
    rewrite Forall_forall in Hall. specialize (Hall _ Hin). cbn in Hall. lia.
Qed.
End Steps.
