(* ===== verification/PeerInv.v ===== *)
(** Invariants of a peer (Peer.v) through all its steps (PeerSteps.v).

    [requests_inv]: of the requests it sent, those pending are those not settled,
    and none is once the input has ended.  [output_inv]: what was queued, in its
    order, was written, is queued or was thrown away by a close.  [control]:
    where the three loops are and what the stack holds. *)

From Stdlib Require Import Strings.Byte ZArith Lia Bool.
From stdpp Require Import prelude gmap strings list relations.
From S2P Require Import Prelude Charconv Framing Peer PeerSends PeerSteps.
Local Open Scope kota_scope.
Local Open Scope nat_scope.

Section Inv.
Context `{C : Codec}.
Variable limit : nat.

(** ** Requests *)

Definition requests_inv (p : Peer) : Prop :=
  sends_ok (sends p) ∧ (input_open (life p) = false ∨ gone (life p) = true → pending_requests (sends p) = ∅).

(** A step from [p] to [p'] as far as requests go. *)
Definition requests_next (p p' : Peer) : Prop := requests_inv p → requests_inv p' ∧ keeps (sends p) (sends p').

Lemma next_trans p q r : requests_next p q → requests_next q r → requests_next p r.
Proof. intros H1 H2 Hp. destruct (H1 Hp) as [Hq K1]. destruct (H2 Hq) as [Hr K2]. split; [done|by etrans]. Qed.

Lemma next_same p p' :
  sends p' = sends p → input_open (life p') = input_open (life p) → gone (life p') = gone (life p) → requests_next p p'.
Proof. intros E1 E2 E3 [H1 H2]. unfold requests_inv. rewrite E1, E2, E3. done. Qed.

(** Settling requests, whatever else changes but the end of the input. *)
Lemma next_settles p p' :
  (sends_ok (sends p) → sends_ok (sends p') ∧ keeps (sends p) (sends p') ∧
    (pending_requests (sends p) = ∅ → pending_requests (sends p') = ∅)) →
  input_open (life p') = input_open (life p) → gone (life p') = gone (life p) → requests_next p p'.
Proof. intros H E1 E2 [H1 H2]. destruct (H H1) as (H3 & H4 & H5). unfold requests_inv. rewrite E1, E2. eauto. Qed.

(** All of them failing, whatever else changes. *)
Lemma next_fails p p' e b :
  sends p' = (let s := fail_pending_requests (sends p) e in if b : bool then with_deadlines s (deadlines s) true else s) →
  requests_next p p'.
Proof.
  intros E [H1 _]. destruct (fail_ok _ e H1) as (H2 & H3 & H4). unfold requests_inv. rewrite E. destruct b; cbn [with_deadlines].
  - split; [split; [by apply changed_ok|done]|]. etrans; [done|]. by apply keeps_same.
  - by split.
Qed.

Lemma next_complete p i x : requests_next p (with_sends p (complete_pending_request (sends p) i x)).
Proof.
  apply next_settles; [|done..]. intros Hs. destruct (complete_request_ok _ i x Hs) as (H1 & H2 & H3). split_and!; [done..|].
  cbn. rewrite H3. intros ->. apply delete_empty.
Qed.

Lemma next_end_input p why : requests_next p (end_input p why).
Proof. eapply (next_fails _ _ _ true). done. Qed.

Lemma cancel_sources_same p l t :
  let p' := cancel_sources p l t in
  sends p' = sends p ∧ input_open (life p') = input_open (life p) ∧ gone (life p') = gone (life p) ∧
  ending (life p') = ending (life p) ∧ queued (out p') = queued (out p) ∧ written (out p') = written (out p) ∧
  answers (serves p') = answers (serves p).
Proof. by destruct l, t. Qed.

Lemma next_cancel_sources p l t : requests_next p (cancel_sources p l t).
Proof. destruct (cancel_sources_same p l t) as (H1 & H2 & H3 & _). by apply next_same. Qed.

Lemma next_gives_up p k x p' :
  (sends_ok (sends p) → unsettled (sends p) k) → gives_up limit p k x p' → requests_next p p'.
Proof.
  intros Hu Hg. destruct (gives_up_frame _ _ _ _ _ Hg) as (_ & El & _). apply next_settles; [|by rewrite El..].
  intros Hs. destruct (Hu Hs) as (r & Hk & Hr). destruct (gives_up_ok _ _ _ _ _ _ Hs Hk Hr Hg) as (H1 & H2 & H3).
  split_and!; [done..|]. intros Hp. apply map_empty. intros i. apply eq_None_not_Some. intros [j Hj].
  apply H3 in Hj. by rewrite Hp, lookup_empty in Hj.
Qed.

Lemma next_cancel_remote p k : k < length (requests (sends p)) → requests_next p (cancel_remote limit p k).
Proof.
  intros Hk. destruct (lookup_lt_is_Some_2 _ _ Hk) as [r Hr].
  pose proof (list_lookup_total_correct _ _ _ Hr) as Et.
  destruct (cancel_remote_cancels limit p k) as [|text Hc Hn [Hu Hfit]|x p' Hn Hg].
  - by apply next_same.
  - apply next_settles; [|done..]. intros Hs. split_and!; [by apply mark_ok|apply mark_keeps|done].
  - apply (next_gives_up p k x); [|done]. intros _. exists r. split; [done|]. by rewrite <- Et.
Qed.

Lemma next_expire p fuel : requests_next p (expire_due limit fuel p).
Proof.
  intros Hp. induction (expire_expires limit fuel p (proj1 Hp)) as [|p1 p2 p3 H12 _ IH]; [by split|].
  destruct H12 as [t k l p2 Hd Ht Hg]. revert Hp.
  apply (next_trans _ p2); [|done]. apply (next_gives_up p1 k timed_out); [|done]. intros Hs.
  destruct (deadline_unsettled _ _ _ _ Hs Hd) as (r & ? & ? & _). by exists r.
Qed.

Lemma next_send_request p m x token timeout : gone (life p) = false → requests_next p (send_request limit p m x token timeout).1.
Proof.
  intros Hgone. unfold send_request, refuse_request. case_if; [by apply next_same|].
  destruct (unsendable p true) eqn:Eu; [by apply next_same|]. destruct token; [by apply next_same|].
  apply sendable in Eu as (_ & _ & _ & Hi). specialize (Hi eq_refl). fold (next_id (sends p)).
  assert (Hn : requests_next p (with_sends p (next_id (sends p)))).
  { apply next_settles; [|done..]. intros Hs. split_and!; [by apply next_id_ok|by apply keeps_same|done]. }
  destruct (encode_request _ _ _) as [text|e]; [|done]. unfold send_request_impl. case_if; [|done].
  intros [Hs Hp]. set (n := next_request_id (sends p)).
  assert (Hf : pending_requests (sends p) !! NumberID n = None).
  { apply eq_None_not_Some. intros [k (r & Hk & Hid & _)%(ok_pending _ Hs)].
    destruct (ok_ids _ Hs k r Hk) as (m' & E & Hlt). rewrite Hid in E. injection E as <-. unfold n in Hlt. lia. }
  cbn. fold n. rewrite Hf. change (mkSends _ _ _ _ _) with (add_request (sends p) n).
  pose proof (add_ok _ Hs) as Ha. fold n in Ha.
  assert (Hk : requests (add_request (sends p) n) !! length (requests (sends p)) = Some (mkPending (NumberID n) None None false))
    by (apply add_lookup; by right).
  assert (Kadd : keeps (sends p) (add_request (sends p) n)) by by eapply keeps_app.
  split.
  - split; [destruct timeout; cbn; [by eapply file_ok|done]|]. cbn. rewrite Hi, Hgone. by intros [].
  - cbn. destruct timeout; [|done]. etrans; [done|]. by eapply file_keeps.
Qed.

Lemma next_read_on p v : requests_next p (read_on p v).
Proof.
  unfold read_on. destruct v; [|by apply next_same]. destruct (violation_policy _); [by apply next_same|].
  eapply next_trans; [apply next_end_input|by apply next_same].
Qed.

Lemma next_dispatch p text : requests_next p (dispatch_incoming_message limit p text).1.
Proof.
  unfold dispatch_incoming_message. destruct (parse_message text) as [i m x|m x|i r|[i|] e u|i e n]; cbn.
  - unfold dispatch_request. repeat case_if; by apply next_same.
  - unfold dispatch_notification. repeat case_if; [destruct (_ ≫= _)|..]; by apply next_same.
  - apply next_complete.
  - apply next_complete.
  - by apply next_same.
  - destruct n; by apply next_same.
Qed.

Lemma next_read p r : requests_next p (read_message limit p r).
Proof.
  destruct r as [text|e]; cbn.
  - pose proof (next_dispatch p text) as H. destruct (dispatch_incoming_message limit p text) as [p' [v|]]; cbn in H.
    + eapply next_trans; [done|apply next_read_on].
    + eapply next_trans; [done|by apply next_same].
  - destruct (kind e).
    + eapply next_trans; [apply next_end_input|by apply next_same].
    + eapply next_trans; [apply next_end_input|by apply next_same].
    + unfold skip_oversized. cbn zeta. destruct (peek _) as [[] [i|]]; cbn; try (by apply next_same); try apply next_complete;
        by eapply (next_fails _ _ _ false).
Qed.

Lemma write_end_same p b : sends (write_end p b) = sends p ∧ input_open (life (write_end p b)) = input_open (life p) ∧
  gone (life (write_end p b)) = gone (life p) ∧ serves (write_end p b) = serves p.
Proof. unfold write_end. case_if; [|done]. cbn. unfold end_conversation. by destruct (ending _). Qed.

Lemma next_write_end p b : requests_next p (write_end p b).
Proof. destruct (write_end_same p b) as (? & ? & ? & _). by apply next_same. Qed.

Lemma next_fail_output p why : requests_next p (fail_output p why).
Proof.
  unfold fail_output. destruct (closed _); [apply next_write_end|]. unfold cancel_handlers.
  eapply next_trans; [|apply next_cancel_sources]. by eapply (next_fails _ _ _ false).
Qed.

Lemma next_close p : requests_next p (close p).
Proof.
  unfold close. destruct (closed _); [by apply next_same|]. unfold cancel_handlers.
  eapply next_trans; [|apply next_cancel_sources]. by eapply (next_fails _ _ _ false).
Qed.

Lemma next_write_run p : requests_next p (write_run p).
Proof. unfold write_run. destruct (outgoing_queue _); [|by apply next_same]. repeat case_if; try (by apply next_same); apply next_write_end. Qed.

Lemma next_deadline_run p : requests_next p (deadline_run limit p).
Proof.
  unfold deadline_run. case_if; [|by apply next_same]. set (q := expire_due _ _ _). apply (next_trans _ q); [apply next_expire|].
  assert (H : requests_next q (with_sends q (with_deadlines (sends q) (deadlines (sends q)) false))).
  { apply next_settles; [|done..]. intros Hs. split_and!; [by apply changed_ok|by apply keeps_same|done]. }
  cbn zeta. revert H. generalize (with_sends q (with_deadlines (sends q) (deadlines (sends q)) false)). intros r H.
  destruct (deadlines (sends r)) as [|[]]; (eapply next_trans; [exact H|by apply next_same]).
Qed.

Lemma transition_requests p p' : gone (life p) = false → transition limit p p' → requests_next p p'.
Proof.
  intros Hg Ht. destruct Ht; try (by apply next_same).
  - by apply next_send_request.
  - destruct (notify_cases limit p OfNotification method params) as [[e ->]|(text & _ & ->)]; by apply next_same.
  - by apply next_cancel_remote.
  - apply next_close.
  - unfold close_output. case_if; by apply next_same.
  - by eapply (next_fails _ _ _ false).
  - eapply next_trans; [|apply next_read_on]. by apply next_same.
  - eapply next_trans; [|apply next_cancel_sources]. by apply next_same.
  - apply next_read.
  - eapply next_trans; [apply next_end_input|by apply next_same].
  - apply next_write_run.
  - apply next_fail_output.
  - apply next_write_end.
  - apply next_deadline_run.
Qed.

Lemma reachable_requests p : reachable limit p → requests_inv p.
Proof.
  induction 1 as [|p e p' _ IH Hst].
  - split; [apply sends_ok_new|]. cbn. by intros [].
  - apply step_transition in Hst as [Hg Ht]. by destruct (transition_requests p p' Hg Ht IH).
Qed.

(** ** What is written, and the end of the conversation *)

Definition shut (o : Output) : Prop := output_open o = false.
(** Nothing more is queued. *)
Definition finishing (o : Output) : Prop := output_open o = false ∨ closing_output o = true.

Record out_ok (o : Output) (is_closed : bool) : Prop := {
  out_order : ∃ lost, queued o = written o ++ outgoing_queue o ++ lost ∧ (is_closed = false → lost = []);
  out_half : half_closed o = true → queued o = written o ∧ shut o;
  out_closed : is_closed = true → shut o;
}.

Definition output_inv (p : Peer) : Prop :=
  out_ok (out p) (closed (life p)) ∧ (closed (life p) = true ∨ input_open (life p) = false ↔ ending (life p) ≠ None) ∧
  (closed (life p) = true → closing_output (out p) = false ∨ writing (loops p) = WriteDone).

(** The conversation's end is told once; an output that is closed, or will be
    once the queue is written, stays so. *)
Record output_later (p p' : Peer) : Prop := {
  later_ending : ∀ e, ending (life p) = Some e → ending (life p') = Some e;
  later_finishing : finishing (out p) → finishing (out p');
  later_input : input_open (life p) = false → input_open (life p') = false;
  later_closed : closed (life p) = true → closed (life p') = true;
}.

#[local] Instance later_preorder : PreOrder output_later.
Proof. split; [by split|]. intros p q r [] []. split; auto. Qed.

Definition output_next (p p' : Peer) : Prop := output_inv p → output_inv p' ∧ output_later p p'.

Lemma onext_trans p q r : output_next p q → output_next q r → output_next p r.
Proof. intros H1 H2 Hp. destruct (H1 Hp) as [Hq K1]. destruct (H2 Hq) as [Hr K2]. split; [done|by etrans]. Qed.

Lemma onext_same p p' :
  out p' = out p → closed (life p') = closed (life p) → input_open (life p') = input_open (life p) →
  ending (life p') = ending (life p) → (writing (loops p) = WriteDone → writing (loops p') = WriteDone) → output_next p p'.
Proof.
  intros E1 E2 E3 E4 E5. unfold output_next, output_inv. rewrite E1, E2, E3, E4. intros (H1 & H2 & H3).
  split; [|by split; rewrite ?E1, ?E2, ?E3, ?E4]. split_and!; [done..|]. intros Hc. destruct (H3 Hc); [by left|right; auto].
Qed.

Lemma enqueue_ok o m b :
  out_ok o b → out_ok (enqueue_outgoing o m) b ∧ (finishing o → finishing (enqueue_outgoing o m)) ∧
    closing_output (enqueue_outgoing o m) = closing_output o.
Proof.
  intros Ho. unfold enqueue_outgoing. destruct (output_open o) eqn:E1, (closing_output o) eqn:E2; cbn; try done.
  destruct Ho as [(lost & H1 & H1') H2 H3]. split; [|split; [intros [Hf|Hf]; congruence|done]].
  assert (b = false) as -> by (destruct b; [|done]; pose proof (H3 eq_refl); unfold shut in *; congruence).
  split; cbn; [|intros Hh; destruct (H2 Hh); unfold shut in *; congruence|done].
  exists []. split; [|done]. rewrite H1, (H1' eq_refl). by rewrite !app_nil_r, app_assoc.
Qed.

(** A message is sent, and what else changes is of other parts. *)
Lemma onext_enqueue p p' m :
  out p' = enqueue_outgoing (out p) m ∨ out p' = out p → life p' = life p → loops p' = loops p → output_next p p'.
Proof.
  intros [E1|E1] E2 E3; [|apply onext_same; by rewrite ?E1, ?E2, ?E3]. intros (H1 & H2 & H5). unfold output_inv. rewrite E2, E1, E3.
  destruct (enqueue_ok _ m _ H1) as (H3 & H4 & ->). split; [done|]. by split; rewrite ?E2, ?E1.
Qed.

Lemma onext_pushed p p' m :
  unsendable p false = None → out p' = pushed (out p) m → life p' = life p → loops p' = loops p → output_next p p'.
Proof.
  intros Hu E1 E2 E3. apply sendable in Hu as (_ & H1 & H2 & _). apply (onext_enqueue _ _ m); [left|done..].
  by rewrite E1, enqueue_open.
Qed.

Lemma send_answer_enqueues o i text :
  ∃ m, (send_answer limit o i text).1 = enqueue_outgoing o m ∨ (send_answer limit o i text).1 = o.
Proof.
  unfold send_answer. case_if; [eexists; by left|]. destruct (encode_error_response i _) as [t|e].
  - case_if; [eexists; by left|exists (mkMessage OfNotification []); by right].
  - exists (mkMessage OfNotification []). by right.
Qed.

Lemma send_error_enqueues o i e :
  ∃ m, (send_error limit o i e).1 = enqueue_outgoing o m ∨ (send_error limit o i e).1 = o.
Proof.
  unfold send_error. destruct (encode_error_response i e); [apply send_answer_enqueues|].
  exists (mkMessage OfNotification []). by right.
Qed.

Lemma onext_error p p' i e : out p' = (send_error limit (out p) i e).1 → life p' = life p → loops p' = loops p → output_next p p'.
Proof.
  intros E1 E2 E3. destruct (send_error_enqueues (out p) i e) as [m Hm]. rewrite <- E1 in Hm.
  by apply (onext_enqueue _ _ m).
Qed.

Lemma onext_answer p p' i text : out p' = (send_answer limit (out p) i text).1 → life p' = life p → loops p' = loops p → output_next p p'.
Proof.
  intros E1 E2 E3. destruct (send_answer_enqueues (out p) i text) as [m Hm]. rewrite <- E1 in Hm.
  by apply (onext_enqueue _ _ m).
Qed.

Lemma end_conversation_spec l why :
  let l' := end_conversation l why in
  ending l' = Some (default why (ending l)) ∧ closed l' = closed l ∧ input_open l' = input_open l ∧
  gone l' = gone l ∧ started l' = started l ∧ running l' = running l ∧ transport_closed l' = transport_closed l ∧
  answers_done l' = answers_done l.
Proof. unfold end_conversation. by destruct (ending l) eqn:E. Qed.

Lemma onext_end_input p why : output_next p (end_input p why).
Proof.
  intros (H1 & H2 & H3). destruct (end_conversation_spec (with_input_closed (life p)) why) as (E1 & E2 & E3 & _).
  unfold end_input. split; [split_and!|split]; cbn; rewrite ?E1, ?E2, ?E3; cbn; try done; try (by intros e ->). split; [done|by right].
Qed.

Lemma onext_gives_up p k x p' : gives_up limit p k x p' → output_next p p'.
Proof.
  intros [_|_|text _ [Hu Hfit]]; [by apply onext_same..|]. by eapply onext_pushed.
Qed.

Lemma onext_cancel_sources p l t :
  closed (life p) = true → output_next p (cancel_sources p l t).
Proof.
  intros Hc. destruct l as [|h l]; [|by apply onext_same]. intros ([(lost & H1 & _) H3 H4] & H5 & H6).
  specialize (H4 Hc). specialize (H6 Hc). destruct t; cbn -[write_end].
  - split; [split_and!; cbn; [split; cbn|..]|split; cbn]; try done.
    + by exists (outgoing_queue (out p) ++ lost).
    + split; [intros _; apply H5; by left|by left].
  - split; [split_and!; cbn; [split; cbn|..]|split; cbn]; try done.
    + by exists lost.
    + intros Hh. by destruct (H3 Hh).
    + split; [intros _; apply H5; by left|by left].
    + by right.
    + by left.
Qed.

(** ** Where the loops are, and what is on the stack *)

Definition read_frame (f : Frame) : bool := match f with CancelHandlers _ _ => false | _ => true end.
Definition fail_frame (f : Frame) : bool := match f with CancelHandlers _ AfterFailOutput => true | _ => false end.
Definition reading_frames (r : ReadLoop) : nat := match r with Dispatching => 1 | _ => 0 end.
Definition writing_frames (w : WriteLoop) : nat := match w with Failing => 1 | _ => 0 end.

(** [n] more frames of a failed output are to come. *)
Record control (n : nat) (p : Peer) : Prop := {
  c_cancel : ∀ l t, CancelHandlers l t ∈ stack (loops p) → closed (life p) = true;
  c_group : AfterGroupCancel ∈ stack (loops p) → input_open (life p) = false;
  c_reads : length (List.filter read_frame (stack (loops p))) = reading_frames (reading (loops p));
  c_fails : length (List.filter fail_frame (stack (loops p))) + n = writing_frames (writing (loops p));
  c_over : reading (loops p) = Joining ∨ reading (loops p) = ReadDone → input_open (life p) = false;
  c_fresh : started (life p) = false → reading (loops p) = ReadNotStarted ∧ writing (loops p) = WriteNotStarted ∧
    timing (loops p) = DeadlineNotStarted ∧ running (life p) = false;
  c_started : started (life p) = true → reading (loops p) ≠ ReadNotStarted;
  c_finished : started (life p) = true → running (life p) = false →
    reading (loops p) = ReadDone ∧ writing (loops p) = WriteDone ∧ timing (loops p) = DeadlineDone;
  c_done : writing (loops p) = WriteDone → output_open (out p) = false;
  c_failing : writing (loops p) = Failing → closed (life p) = true;
}.

Definition same_run (p p' : Peer) : Prop := started (life p') = started (life p) ∧ running (life p') = running (life p).

Lemma control_same n p p' :
  loops p' = loops p → same_run p p' → (closed (life p) = true → closed (life p') = true) →
  (input_open (life p) = false → input_open (life p') = false) →
  (output_open (out p) = false → output_open (out p') = false) → control n p → control n p'.
Proof.
  intros E [E1 E2] H1 H2 H3 []. split; rewrite ?E, ?E1, ?E2; eauto.
Qed.

Lemma control_out n p o : (output_open (out p) = false → output_open o = false) → control n p → control n (with_out p o).
Proof. intros H. by apply control_same. Qed.

Lemma enqueue_open_same o m : output_open (enqueue_outgoing o m) = output_open o.
Proof. unfold enqueue_outgoing. by case_if. Qed.

Lemma error_open_same o i e : output_open (send_error limit o i e).1 = output_open o.
Proof. destruct (send_error_enqueues o i e) as [m [->| ->]]; [apply enqueue_open_same|done]. Qed.
Lemma answer_open_same o i text : output_open (send_answer limit o i text).1 = output_open o.
Proof. destruct (send_answer_enqueues o i text) as [m [->| ->]]; [apply enqueue_open_same|done]. Qed.

Lemma pushed_open p m : unsendable p false = None → output_open (pushed (out p) m) = output_open (out p).
Proof. by intros (_ & -> & _)%sendable. Qed.

Lemma gives_up_open p k x p' : gives_up limit p k x p' → output_open (out p') = output_open (out p).
Proof. intros [_|_|text _ [Hu Hfit]]; try done. by apply pushed_open. Qed.

Lemma expire_open fuel p : sends_ok (sends p) → output_open (out (expire_due limit fuel p)) = output_open (out p).
Proof.
  intros Hs. induction (expire_expires limit fuel p Hs) as [|p1 p2 p3 H12 _ IH]; [done|].
  destruct H12 as [t k l p2 Hd Ht Hg]. destruct (deadline_unsettled _ _ _ _ Hs Hd) as (r & Hk & Hr & _).
  destruct (gives_up_ok _ _ _ _ _ _ Hs Hk Hr Hg) as (Hs2 & _). rewrite (IH Hs2). by eapply gives_up_open.
Qed.

(** The write loop ends. *)
Lemma control_write_end p b n :
  control n p → length (List.filter fail_frame (stack (loops p))) = 0 → started (life p) = true → control 0 (write_end p b).
Proof.
  intros [H1 H2 H3 H4 H5 H6 H7 H8 H9 H10] Hf Hst. destruct (end_conversation_spec (life p) run_cancelled_end)
    as (_ & E2 & E3 & _ & E5 & E6 & _). unfold write_end.
  case_if; split; cbn; rewrite ?E2, ?E3, ?E5, ?E6; cbn; try done; rewrite ?Nat.add_0_r, ?Hst; try done;
    intros _ Hr; by destruct (H8 Hst Hr) as (? & ? & ?).
Qed.

Lemma control_cancel_sources p l t :
  control (if t is AfterFailOutput then 1 else 0) p → closed (life p) = true → control 0 (cancel_sources p l t).
Proof.
  intros Hc Hcl. destruct l as [|h l].
  - destruct t; cbn -[write_end]; [by apply (control_same 0 p)|].
    eapply control_write_end; [by apply (control_same 1 p)|..]; cbn.
    + destruct Hc. cbn in *. destruct (writing _); cbn in *; lia.
    + apply not_false_is_true. intros Hs. destruct (c_fresh _ _ Hc Hs) as (_ & Hw & _). pose proof (c_fails _ _ Hc) as Hf.
      rewrite Hw in Hf. cbn in Hf. lia.
  - destruct Hc as [H1 H2 H3 H4 H5 H6 H7 H8 H9 H10]. split; cbn; try done.
    + by intros [[=]|?]%elem_of_cons; auto.
    + rewrite <- H4. destruct t; cbn; lia.
Qed.

Lemma idle_frames p : idle p → control 0 p → reading (loops p) ≠ Dispatching ∧ writing (loops p) ≠ Failing.
Proof.
  intros Hi Hc. pose proof (c_reads _ _ Hc) as H1. pose proof (c_fails _ _ Hc) as H2. rewrite Hi in H1, H2. cbn in H1, H2.
  split; intros E; rewrite E in *; done.
Qed.

Lemma control_reading p r :
  control 0 p → started (life p) = true → running (life p) = true →
  length (List.filter read_frame (stack (loops p))) = reading_frames r → r ≠ ReadNotStarted →
  (r = Joining ∨ r = ReadDone → input_open (life p) = false) → control 0 (with_reading p r).
Proof. intros [] Hst Hrun Hf Hr Ho. split; cbn; try done; by rewrite ?Hst, ?Hrun. Qed.

(** While run() runs, it reads. *)
Lemma control_running n p : control n p → reading (loops p) ≠ ReadNotStarted → reading (loops p) ≠ ReadDone →
  started (life p) = true ∧ running (life p) = true.
Proof.
  intros Hc H1 H2. destruct (started (life p)) eqn:Es; [|by destruct (c_fresh _ _ Hc Es) as (? & _)]. split; [done|].
  destruct (running (life p)) eqn:Er; [done|]. by destruct (c_finished _ _ Hc Es Er) as (? & _).
Qed.

Lemma control_end_input n p why : control n p → control n (end_input p why).
Proof.
  destruct (end_conversation_spec (with_input_closed (life p)) why) as (_ & E2 & E3 & _ & E5 & E6 & _).
  apply control_same; cbn; rewrite ?E2, ?E3; try done.
Qed.

Lemma end_input_frame p why :
  let p' := end_input p why in
  input_open (life p') = false ∧ closed (life p') = closed (life p) ∧ started (life p') = started (life p) ∧
  running (life p') = running (life p) ∧ loops p' = loops p ∧ out p' = out p ∧ serves p' = serves p ∧
  deadline_changed (sends p') = true ∧ answers_done (life p') = answers_done (life p).
Proof.
  destruct (end_conversation_spec (with_input_closed (life p)) why) as (_ & E2 & E3 & _ & E5 & E6 & _ & E8).
  cbn. by rewrite E2, E3, E5, E6, E8.
Qed.

(** A message was dispatched: the loop goes on, or ends. *)
Lemma control_read_on p v :
  control 0 p → started (life p) = true → running (life p) = true →
  length (List.filter read_frame (stack (loops p))) = 0 → control 0 (read_on p v).
Proof.
  intros Hc Hst Hrun Hf. unfold read_on.
  assert (Hj : ∀ why, control 0 (with_reading (end_input p why) Joining)).
  { intros why. destruct (end_input_frame p why) as (E1 & _ & E3 & E4 & E5 & _).
    apply control_reading; [by apply control_end_input|..]; rewrite ?E1, ?E3, ?E4, ?E5; done. }
  assert (Ha : control 0 (with_reading p AwaitRead)) by (apply control_reading; try done; by intros []).
  destruct v; [|done]. by destruct (violation_policy _).
Qed.

(** Popping a frame of the read loop leaves none. *)
Lemma pop_read p f rest :
  control 0 p → stack (loops p) = f :: rest → read_frame f = true →
  reading (loops p) = Dispatching ∧ length (List.filter read_frame rest) = 0 ∧
  length (List.filter fail_frame rest) = writing_frames (writing (loops p)).
Proof.
  intros Hc Es Hf. pose proof (c_reads _ _ Hc) as H1. pose proof (c_fails _ _ Hc) as H2. rewrite Es in H1, H2. cbn in H1, H2.
  rewrite Hf in H1. assert (Hn : fail_frame f = false) by by destruct f. rewrite Hn in H2. cbn in H1.
  destruct (reading _); cbn in H1; try done. split; [done|]. split; lia.
Qed.

Lemma dispatch_frame p text :
  let '(p', d) := dispatch_incoming_message limit p text in
  life p' = life p ∧ output_open (out p') = output_open (out p) ∧
  match d with
  | Over _ => loops p' = loops p
  | Called => ∃ f, (f = AfterNotification ∨ f = AfterDispatch) ∧ loops p' = loops (push p f)
  end.
Proof.
  unfold dispatch_incoming_message. destruct (parse_message text) as [i m x|m x|i r|[i|] e u|i e n]; try done.
  - unfold dispatch_request. repeat case_if; cbn; rewrite ?error_open_same; try done. split_and!; try done.
    exists AfterDispatch. by split; [right|].
  - unfold dispatch_notification. repeat case_if; [destruct (_ ≫= _)|..]; try done.
    + split_and!; try done. exists AfterDispatch. by split; [right|].
    + split_and!; try done. exists AfterNotification. by split; [left|].
  - destruct n; cbn; by rewrite ?error_open_same.
Qed.

Lemma control_read p r : idle p → reading (loops p) = AwaitRead → control 0 p → control 0 (read_message limit p r).
Proof.
  intros Hi Hr Hc. assert (Hrun : started (life p) = true ∧ running (life p) = true) by (by apply (control_running 0 p Hc); rewrite Hr).
  destruct Hrun as [Hst Hrun].
  assert (Hend : ∀ why, control 0 (with_reading (end_input p why) Joining)).
  { intros why. destruct (end_input_frame p why) as (E1 & _ & E3 & E4 & E5 & _).
    apply control_reading; [by apply control_end_input|..]; rewrite ?E1, ?E3, ?E4, ?E5, ?Hi; done. }
  destruct r as [text|e]; cbn.
  - pose proof (dispatch_frame p text) as Hd. destruct (dispatch_incoming_message limit p text) as [p' d].
    destruct Hd as (El & Eo & Hd). destruct d as [v|].
    + apply control_read_on; rewrite ?El, ?Hd, ?Hi; try done.
      eapply (control_same _ p); rewrite ?El, ?Hd, ?Eo; try done. split; by rewrite El.
    + destruct Hd as (f & Hf & Ew). destruct Hc as [H1 H2 H3 H4 H5 H6 H7 H8 H9 H10].
      unfold idle in Hi. rewrite Hi in *. split; cbn; rewrite ?Ew, ?El, ?Eo; cbn; rewrite ?Hi, ?Hst, ?Hrun; try done.
      * intros l t Hin. destruct Hf; subst f; by apply list_elem_of_singleton in Hin.
      * intros Hin. destruct Hf; subst f; by apply list_elem_of_singleton in Hin.
      * by destruct Hf; subst f.
      * by destruct Hf; subst f.
      * by intros [].
  - destruct (kind e); [apply Hend..|]. unfold skip_oversized. cbn zeta.
    destruct (peek _) as [[] [i|]]; cbn; try done; try (apply (control_same _ p); cbn; rewrite ?error_open_same; done).
Qed.

(** The write loop runs only while run() does. *)
Lemma control_writing p : idle p → control 0 p →
  running (life p) = true ∧ writing (loops p) = WriteNotStarted ∨
    writing (loops p) ≠ WriteNotStarted ∧ writing (loops p) ≠ WriteDone →
  started (life p) = true ∧ running (life p) = true.
Proof.
  intros Hi Hc Hw. destruct (started (life p)) eqn:Es.
  - split; [done|]. destruct (running (life p)) eqn:Er; [done|]. destruct (c_finished _ _ Hc Es Er) as (_ & ? & _). naive_solver.
  - destruct (c_fresh _ _ Hc Es) as (_ & ? & _ & ?). naive_solver congruence.
Qed.

Lemma control_with_writing p w o :
  idle p → control 0 p → started (life p) = true → running (life p) = true → w ≠ Failing →
  (w = WriteDone → output_open o = false) → control 0 (with_writing (with_out p o) w).
Proof.
  intros Hi [H1 H2 H3 H4 H5 H6 H7 H8 H9 H10] Hst Hrun Hw Ho. unfold idle in Hi. rewrite Hi in *.
  split; cbn; rewrite ?Hi, ?Hst, ?Hrun; try done; [by destruct w|auto].
Qed.

Lemma control_write_run p : idle p → control 0 p → started (life p) = true → running (life p) = true → control 0 (write_run p).
Proof.
  intros Hi Hc Hst Hrun. unfold write_run. destruct (outgoing_queue _); [|by apply control_with_writing].
  case_if; [by apply control_with_writing|]. case_if; [by apply control_with_writing|].
  eapply control_write_end; [done|by rewrite Hi|done].
Qed.

Lemma control_fail_output p why :
  idle p → control 0 p → started (life p) = true → running (life p) = true → control 0 (fail_output p why).
Proof.
  intros Hi Hc Hst Hrun. unfold fail_output. destruct (closed _) eqn:Ec.
  - eapply control_write_end; [done|by rewrite Hi|done].
  - unfold cancel_handlers. apply control_cancel_sources; [|done].
    destruct (end_conversation_spec (life p) (mkEnd WriteFailed why)) as (_ & E2 & E3 & _ & E5 & E6 & _).
    destruct Hc as [H1 H2 H3 H4 H5 H6 H7 H8 H9 H10]. unfold idle in Hi. rewrite Hi in *.
    split; cbn; rewrite ?E2, ?E3, ?E5, ?E6, ?Hi, ?Hst, ?Hrun; auto; done.
Qed.

Lemma control_close p : control 0 p → control 0 (close p).
Proof.
  intros Hc. unfold close. destruct (closed _) eqn:Ec; [done|]. unfold cancel_handlers.
  set (l := end_conversation _ _).
  assert (El : closed l = true ∧ input_open l = false ∧ started l = started (life p) ∧ running l = running (life p)).
  { destruct (end_conversation_spec (with_input_closed (with_closed (life p) false)) (mkEnd ShutDown (lit "peer closed")))
      as (_ & E2 & E3 & _ & E5 & E6 & _). unfold l. by rewrite E2, E3, E5, E6. }
  destruct El as (E1 & E2 & E3 & E4). apply control_cancel_sources; [|done]. by apply (control_same 0 p).
Qed.

Lemma control_with_timing p t :
  control 0 p → started (life p) = true → running (life p) = true → control 0 (with_timing p t).
Proof. intros [] Hst Hrun. split; cbn; rewrite ?Hst, ?Hrun; auto; done. Qed.

Lemma control_deadline_run p :
  sends_ok (sends p) → control 0 p → started (life p) = true → running (life p) = true → control 0 (deadline_run limit p).
Proof.
  intros Hs Hc Hst Hrun. unfold deadline_run. case_if; [|by apply control_with_timing].
  destruct (expire_frame limit (length (deadlines (sends p))) p Hs) as (_ & E2 & E3).
  pose proof (expire_open (length (deadlines (sends p))) p Hs) as Eo. set (q := expire_due _ _ _) in *. cbn zeta.
  set (r := with_sends q _). assert (Hr : control 0 r).
  { apply (control_same 0 p); unfold r, same_run; cbn; by rewrite ?E2, ?Eo. }
  destruct (deadlines (sends r)) as [|[]]; (apply control_with_timing; [done|..]); unfold r; cbn; by rewrite E2.
Qed.

Lemma read_on_reading p v : read_on p v = read_on (with_reading p AwaitRead) v.
Proof. unfold read_on. destruct v; [|done]. cbn. by destruct (violation_policy _). Qed.

Lemma deadline_runs n p : control n p → deadline_ready p = true ∨ timing (loops p) = DeadlineWaiting ∨
    (∃ u, timing (loops p) = DeadlineSleeping u) → started (life p) = true ∧ running (life p) = true.
Proof.
  intros Hc Hd. unfold deadline_ready in Hd. destruct (started (life p)) eqn:Es.
  - split; [done|]. destruct (running (life p)) eqn:Er; [done|]. destruct (c_finished _ _ Hc Es Er) as (_ & _ & Et).
    rewrite Et in Hd. naive_solver.
  - destruct (c_fresh _ _ Hc Es) as (_ & _ & Et & Er). rewrite Et, Er in Hd. naive_solver.
Qed.

Lemma transition_control p p' : requests_inv p → control 0 p → transition limit p p' → control 0 p'.
Proof.
  intros [Hs _] Hc Ht. destruct Ht.
  - pose proof (control_same 0 p) as Hsame. unfold send_request, send_request_impl. destruct (refuse_request _ _ _); [done|].
    destruct (encode_request _ _ _); [|by apply Hsame]. case_if; [|by apply Hsame].
    apply Hsame; try done. cbn. by rewrite enqueue_open_same.
  - destruct (notify_cases limit p OfNotification method params) as [[e ->]|(text & [Hu Hfit] & ->)]; [done|].
    apply control_out; [|done]. by rewrite pushed_open.
  - destruct (cancel_remote_cancels limit p k) as [|text _ _ [Hu Hfit]|x p' _ Hg]; [done|..].
    + apply (control_same 0 p); try done. cbn -[pushed]. by rewrite pushed_open.
    + destruct (gives_up_frame _ _ _ _ _ Hg) as (_ & E2 & E3).
      apply (control_same 0 p); rewrite ?E2, ?E3, ?(gives_up_open _ _ _ _ Hg); try done. by split; rewrite E2.
  - by apply control_close.
  - unfold close_output. case_if; [|done]. by apply control_out.
  - by apply (control_same 0 p).
  - by apply (control_same 0 p).
  - apply (control_same 0 p); try done. cbn. destruct o; by rewrite ?error_open_same, ?answer_open_same.
  - destruct Hc as [H1 H2 H3 H4 H5 H6 H7 H8 H9 H10]. destruct (H6 H) as (Er & Ew & Et & _). rewrite Er in H3.
    split; cbn; try done; by intros [].
  - by destruct Hc; split.
  - by apply (control_same 0 p).
  - assert (Hf : read_frame f = true) by by destruct H0; subst f.
    destruct (pop_read p f rest Hc H Hf) as (Er & Hr & Hw).
    destruct (control_running 0 p Hc) as [Hst Hrun]; [by rewrite Er..|].
    assert (Hno : AfterGroupCancel ∉ rest).
    { intros Hin. assert (Hl : List.filter read_frame rest = []) by by apply nil_length_inv.
      assert (Hx : List.In AfterGroupCancel (List.filter read_frame rest)) by (apply List.filter_In; by rewrite list_elem_of_In in Hin).
      by rewrite Hl in Hx. }
    rewrite read_on_reading. apply control_read_on; try done.
    destruct Hc as [H1 H2 H3 H4 H5 H6 H7 H8 H9 H10]. split; cbn; rewrite ?Hst, ?Hrun; try done.
    + intros l t Hin. apply (H1 l t). rewrite H. by constructor.
    + lia.
    + by intros [].
  - apply control_cancel_sources.
    + destruct Hc as [H1 H2 H3 H4 H5 H6 H7 H8 H9 H10]. rewrite H in *. split; cbn; try done.
      * intros l t' Hin. apply (H1 l t'). by constructor.
      * intros Hin. apply H2. by constructor.
      * rewrite <- H4. destruct t; cbn; lia.
    + apply (c_cancel _ _ Hc sources t). rewrite H. constructor.
  - destruct (pop_read p _ rest Hc H eq_refl) as (Er & Hr & Hw).
    destruct (control_running 0 p Hc) as [Hst Hrun]; [by rewrite Er..|].
    destruct Hc as [H1 H2 H3 H4 H5 H6 H7 H8 H9 H10]. rewrite H in *. split; cbn; rewrite ?Hst, ?Hrun; try done.
    + intros l t' Hin. apply (H1 l t'). by constructor.
    + intros Hin. apply H2. by constructor.
    + intros _. apply H2. constructor.
  - by apply control_read.
  - cbn zeta. destruct (control_running 0 p Hc) as [Hst Hrun]; [by rewrite H0..|].
    destruct (end_input_frame p run_cancelled_end) as (E1 & E2 & E3 & E4 & E5 & E6 & _).
    destruct Hc as [H1' H2 H3 H4 H5 H6 H7 H8 H9 H10]. unfold idle in H. rewrite H in *.
    split; cbn -[end_input]; rewrite ?E1, ?E2, ?E3, ?E4, ?E5, ?E6, ?H, ?Hst, ?Hrun; try done.
    by intros l t ?%list_elem_of_singleton.
  - destruct (control_running 0 p Hc) as [Hst Hrun]; [by rewrite H0..|]. apply control_reading; try done.
    + by apply (control_same 0 p).
    + cbn. by rewrite H.
    + intros _. cbn. apply (c_over _ _ Hc). by left.
  - destruct (control_running 0 p Hc) as [Hst Hrun]; [by rewrite H0..|]. apply control_reading; try done.
    + by rewrite H.
    + intros _. apply (c_over _ _ Hc). by left.
  - destruct (control_writing p H Hc) as [Hst Hrun]; [naive_solver congruence|]. by apply control_write_run.
  - destruct (control_writing p H Hc) as [Hst Hrun]; [naive_solver congruence|]. by apply control_fail_output.
  - destruct (control_writing p H Hc) as [Hst Hrun]; [naive_solver congruence|].
    eapply control_write_end; [done|by rewrite H|done].
  - destruct (control_writing p H Hc) as [Hst Hrun]; [naive_solver congruence|].
    eapply control_write_end; [done|by rewrite H|done].
  - destruct (deadline_runs 0 p Hc) as [Hst Hrun]; [by left|]. by apply control_deadline_run.
  - destruct (deadline_runs 0 p Hc) as [Hst Hrun]; [by right|]. by apply control_with_timing.
  - destruct Hc as [H1' H2' H3' H4' H5 H6 H7 H8 H9 H10]. split; cbn; try done. intros Hf. by destruct (H6 Hf) as (? & ? & ? & ?).
  - by destruct Hc; split.
Qed.

Lemma control_new : control 0 new_peer.
Proof. split; cbn; try done; try (by intros ?? ?%elem_of_nil); try (by intros ?%elem_of_nil); by intros []. Qed.

(** ** The output, step by step *)

Lemma onext_write_end p b : output_next p (write_end p b).
Proof.
  intros ([(lost & H1 & H1') H2 H3] & H4 & H5).
  destruct (end_conversation_spec (life p) run_cancelled_end) as (E1 & E2 & E3 & _).
  unfold write_end. cbn. destruct (closed (life p)) eqn:Ec; rewrite ?andb_false_r, ?andb_true_r; [|destruct b; cbn].
  all: split; [split_and!; [split; cbn|..]|split]; cbn; rewrite ?E1, ?E2, ?E3, ?Ec; try done; try (by exists lost);
    try (intros Hh; by destruct (H2 Hh)); try (by left); try (by right); try (by intros e ->).
  split; [done|by left].
Qed.

Lemma onext_write_run p : idle p → control 0 p → writing (loops p) ≠ WriteDone → output_next p (write_run p).
Proof.
  intros Hi Hc Hw. unfold write_run. destruct (outgoing_queue (out p)) as [|m l] eqn:Eq.
  - case_if; [|case_if; [|apply onext_write_end]].
    + intros ([(lost & H1 & H1') H2 H3] & H4 & H5).
      assert (Ec : closed (life p) = false).
      { apply not_true_is_false. intros Ec. destruct (H5 Ec) as [E|E]; [|done]. pose proof (H3 Ec) as Eo. unfold shut in Eo.
        rewrite E, Eo, andb_false_r in Heqb. done. }
      rewrite Eq, (H1' Ec) in H1. cbn in H1. rewrite app_nil_r in H1.
      split; [split_and!; [split; cbn|..]|split]; cbn; rewrite ?Ec; try done; try (by left).
      * exists []. split; [|done]. by rewrite H1, !app_nil_r.
      * by rewrite <- H4, Ec.
    + intros (H1 & H2 & H3). split; [split_and!; [|done|]|by split].
      * by destruct H1; split.
      * cbn. intros Ec. by destruct (H3 Ec); [left|].
  - intros ([(lost & H1 & H1') H2 H3] & H4 & H5).
    split; [split_and!; [split; cbn|..]|split]; cbn; try done.
    + exists lost. split; [|done]. by rewrite H1, Eq, <- app_assoc.
    + intros Hh. destruct (H2 Hh) as [Hq Hsh]. split; [|done]. rewrite Hq in H1. rewrite Eq in H1.
      rewrite <- (app_nil_r (written (out p))) in H1 at 1. apply app_inv_head in H1. done.
    + intros Ec. by destruct (H5 Ec); [left|].
Qed.

Lemma onext_fail_output p why : writing (loops p) ≠ WriteDone → output_next p (fail_output p why).
Proof.
  intros Hw. unfold fail_output. destruct (closed _) eqn:Ec; [apply onext_write_end|]. unfold cancel_handlers.
  eapply onext_trans; [|by apply onext_cancel_sources].
  destruct (end_conversation_spec (life p) (mkEnd WriteFailed why)) as (E1 & E2 & E3 & _).
  intros ([(lost & H1 & H1') H2 H3] & H4 & H5). rewrite (H1' Ec) in H1.
  split; [split_and!; [split; cbn|..]|split]; cbn; rewrite ?E1, ?E2, ?E3; try done; try (by left); try (by intros e ->).
  - exists (outgoing_queue (out p)). by rewrite H1, app_nil_r.
  - intros Hh. by destruct (H2 Hh).
  - split; [done|by left].
Qed.

Lemma onext_close p : output_next p (close p).
Proof.
  unfold close. destruct (closed _) eqn:Ec; [by apply onext_same|]. unfold cancel_handlers.
  destruct (end_conversation_spec (with_input_closed (with_closed (life p) false)) (mkEnd ShutDown (lit "peer closed"))) as (E1 & E2 & E3 & _).
  set (l := end_conversation _ _) in *. eapply onext_trans; [|apply onext_cancel_sources; cbn; by rewrite E2].
  intros ([(lost & H1 & H1') H2 H3] & H4 & H5). rewrite (H1' Ec) in H1.
  split; [split_and!; [split; cbn|..]|split]; cbn; rewrite ?E1, ?E2, ?E3; cbn; try done; try (by left); try (by intros e ->).
  - exists []. by rewrite H1.
  - intros Hh. by destruct (H2 Hh).
  - split; [done|by left].
Qed.

Lemma onext_read_on p v : output_next p (read_on p v).
Proof.
  unfold read_on. destruct v; [|by apply onext_same]. destruct (violation_policy _); [by apply onext_same|].
  eapply onext_trans; [apply onext_end_input|by apply onext_same].
Qed.

Lemma onext_dispatch p text : output_next p (dispatch_incoming_message limit p text).1.
Proof.
  unfold dispatch_incoming_message. destruct (parse_message text) as [i m x|m x|i r|[i|] e u|i e n]; try (by apply onext_same).
  - unfold dispatch_request. repeat case_if; cbn; first [by eapply onext_error|by apply onext_same].
  - unfold dispatch_notification. repeat case_if; [destruct (_ ≫= _)|..]; by apply onext_same.
  - destruct n; cbn; first [by eapply onext_error|by apply onext_same].
Qed.

Lemma onext_read p r : output_next p (read_message limit p r).
Proof.
  destruct r as [text|e]; cbn.
  - pose proof (onext_dispatch p text) as H. destruct (dispatch_incoming_message limit p text) as [p' [v|]]; cbn in H.
    + eapply onext_trans; [done|apply onext_read_on].
    + eapply onext_trans; [done|by apply onext_same].
  - destruct (kind e); [eapply onext_trans; [apply onext_end_input|by apply onext_same]..|].
    unfold skip_oversized. cbn zeta. destruct (peek _) as [[] [i|]]; cbn; first [by eapply onext_error|by apply onext_same].
Qed.

Lemma onext_expire fuel p : sends_ok (sends p) → output_next p (expire_due limit fuel p).
Proof.
  intros Hs. induction (expire_expires limit fuel p Hs) as [|p1 p2 p3 H12 _ IH]; [by apply onext_same|].
  destruct H12 as [t k l p2 Hd Ht Hg]. destruct (deadline_unsettled _ _ _ _ Hs Hd) as (r & Hk & Hr & _).
  destruct (gives_up_ok _ _ _ _ _ _ Hs Hk Hr Hg) as (Hs2 & _). eapply onext_trans; [by eapply onext_gives_up|by apply IH].
Qed.

Lemma onext_deadline_run p : sends_ok (sends p) → output_next p (deadline_run limit p).
Proof.
  intros Hs. unfold deadline_run. case_if; [|by apply onext_same]. set (q := expire_due _ _ _).
  apply (onext_trans _ q); [by apply onext_expire|]. cbn zeta.
  destruct (deadlines (sends (with_sends q _))) as [|[]]; by apply onext_same.
Qed.

Lemma onext_send_request p m x token timeout : output_next p (send_request limit p m x token timeout).1.
Proof.
  unfold send_request, send_request_impl. destruct (refuse_request _ _ _); [by apply onext_same|].
  destruct (encode_request _ _ _); [|by apply onext_same]. case_if; [|by apply onext_same].
  eapply onext_enqueue; [by left|done..].
Qed.

Lemma transition_output p p' : requests_inv p → control 0 p → transition limit p p' → output_next p p'.
Proof.
  intros [Hs _] Hc Ht. destruct Ht; try (by apply onext_same).
  - apply onext_send_request.
  - destruct (notify_cases limit p OfNotification method params) as [[e ->]|(text & [Hu Hfit] & ->)]; [by apply onext_same|].
    by eapply onext_pushed.
  - destruct (cancel_remote_cancels limit p k) as [|text _ _ [Hu Hfit]|x p' _ Hg]; [by apply onext_same|by eapply onext_pushed|].
    by eapply onext_gives_up.
  - apply onext_close.
  - unfold close_output. case_if; [|by apply onext_same]. bool_prop. intros ([H1 H2 H3] & H4 & H5).
    split; [split_and!; [split; cbn|..]|split]; cbn; try done; try (by right).
    intros Hcl. pose proof (H3 Hcl). unfold shut in *. congruence.
  - cbn. destruct o; first [by eapply onext_error|by eapply onext_answer].
  - eapply onext_trans; [|apply onext_read_on]. by apply onext_same.
  - eapply onext_trans; [|apply onext_cancel_sources]; [by apply onext_same|].
    apply (c_cancel _ _ Hc sources t). rewrite H. constructor.
  - apply onext_read.
  - eapply onext_trans; [apply onext_end_input|by apply onext_same].
  - intros ([H1' H2 H3] & H4 & H5). split; [split_and!; [split; cbn|..]|split]; cbn; done.
  - apply onext_write_run; [done..|]. naive_solver congruence.
  - apply onext_fail_output. naive_solver congruence.
  - apply onext_write_end.
  - apply onext_write_end.
  - by apply onext_deadline_run.
Qed.
End Inv.
