(* ===== verification/PeerTold.v ===== *)
(** What a peer (Peer.v) tells its remote of its requests, through all its steps.

    [told]: every request it sends is queued once, and a $/cancelRequest at most
    once and after its request.  [grows] and [fate_of] say what an operation
    queues. *)

From Stdlib Require Import Strings.Byte ZArith Lia Bool.
From stdpp Require Import prelude gmap strings list relations.
From S2P Require Import Prelude Charconv Framing Peer PeerSends PeerSteps PeerInv.
Local Open Scope kota_scope.
Local Open Scope nat_scope.

Section Told.
Context `{C : Codec}.
Variable limit : nat.

(** ** What the remote is told of requests *)

(** Of requests, rather than of answers and notifications. *)
Definition own_tag (t : Tag) : bool := match t with OfRequest _ | OfCancel _ => true | _ => false end.

Record told (q : list Message) (s : Sends) : Prop := {
  told_requests : ∀ k, k < length (requests s) ↔ OfRequest k ∈ tag <$> q;
  told_once : NoDup (filter (λ t, own_tag t = true) (tag <$> q));
  told_marked : ∀ k, OfCancel k ∈ tag <$> q → ∃ r, requests s !! k = Some r ∧ cancel_sent r = true;
  told_after : ∀ k l l', tag <$> q = l ++ OfCancel k :: l' → OfRequest k ∈ l;
}.

(** No request is added, and none loses its mark. *)
Definition marks_kept (s s' : Sends) : Prop :=
  length (requests s') = length (requests s) ∧
  ∀ k r, requests s !! k = Some r → cancel_sent r = true → ∃ r', requests s' !! k = Some r' ∧ cancel_sent r' = true.

#[local] Instance marks_kept_preorder : PreOrder marks_kept.
Proof.
  split; [split; [done|]; by eauto|]. intros s1 s2 s3 [E1 H1] [E2 H2]. split; [congruence|]. intros k r Hk Hr.
  destruct (H1 k r Hk Hr) as (r' & Hk' & Hr'). by eapply H2.
Qed.

Lemma marks_alter s s' f k0 :
  requests s' = alter f k0 (requests s) → (∀ r, cancel_sent r = true → cancel_sent (f r) = true) → marks_kept s s'.
Proof.
  intros E Hf. split; [by rewrite E, length_alter|]. intros k r Hk Hr. rewrite E, list_lookup_alter. case_decide as Hd.
  - subst k. rewrite Hk. cbn. eauto.
  - eauto.
Qed.

Lemma marks_same s s' : requests s' = requests s → marks_kept s s'.
Proof. intros E. unfold marks_kept. rewrite E. eauto. Qed.

Lemma marks_settle s k x : marks_kept s (settle s k x).
Proof. by eapply marks_alter. Qed.
Lemma marks_complete s i x : marks_kept s (complete_pending_request s i x).
Proof. unfold complete_pending_request. destruct (_ !! i); [apply marks_settle|done]. Qed.
Lemma marks_fail s e : marks_kept s (fail_pending_requests s e).
Proof.
  unfold fail_pending_requests. generalize (map_to_list (pending_requests s)).*2. intros l. revert s.
  induction l as [|k l IH]; intros s; cbn; [done|]. etrans; [apply marks_settle|apply IH].
Qed.
Lemma marks_mark s k : marks_kept s (mark_cancel s k).
Proof. by eapply marks_alter. Qed.

Definition plain (m : Message) : Prop := own_tag (tag m) = false.

Lemma told_same q s s' : marks_kept s s' → told q s → told q s'.
Proof.
  intros [E H] [H1 H2 H3 H4]. split; [by rewrite E|done| |done].
  intros k Hk. destruct (H3 k Hk) as (r & Hr & Hc). by eapply H.
Qed.

Lemma snoc_split {A} (l l1 l2 : list A) x y : l ++ [x] = l1 ++ y :: l2 → (l1 = l ∧ y = x) ∨ ∃ l', l = l1 ++ y :: l'.
Proof.
  destruct l2 as [|z l2 _] using rev_ind; intros E.
  - apply app_inj_tail in E as [-> ->]. by left.
  - right. rewrite app_comm_cons, app_assoc in E. apply app_inj_tail in E as [-> _]. by exists l2.
Qed.

Lemma told_plain q s m : plain m → told q s → told (q ++ [m]) s.
Proof.
  intros Hm [H1 H2 H3 H4]. unfold plain in Hm. split; rewrite ?fmap_app; cbn.
  - intros k. rewrite H1, elem_of_app, list_elem_of_singleton. split; [by left|]. intros [?|E]; [done|]. by rewrite <- E in Hm.
  - rewrite filter_app, filter_cons, filter_nil. rewrite decide_False by congruence. by rewrite app_nil_r.
  - intros k [?|E%list_elem_of_singleton]%elem_of_app; [auto|]. by rewrite <- E in Hm.
  - intros k l l' [[_ E]|[l2 E]]%snoc_split; [by rewrite <- E in Hm|]. by apply (H4 k l l2).
Qed.

Lemma told_cancel q s s' k text :
  k < length (requests s) → cancel_sent (requests s !!! k) = false → marks_kept s s' →
  (∃ r, requests s' !! k = Some r ∧ cancel_sent r = true) → told q s → told (q ++ [mkMessage (OfCancel k) text]) s'.
Proof.
  intros Hk Hc Hm Hr Ht. destruct (told_same _ _ _ Hm Ht) as [H1 H2 H3 H4]. destruct Ht as [G1 _ G3 _].
  assert (Hno : OfCancel k ∉ tag <$> q).
  { intros Hin. destruct (G3 k Hin) as (r & Hr' & Hc'). rewrite (list_lookup_total_correct _ _ _ Hr') in Hc. congruence. }
  split; rewrite ?fmap_app; cbn.
  - intros j. rewrite H1, elem_of_app, list_elem_of_singleton. naive_solver.
  - rewrite filter_app, filter_cons, filter_nil, decide_True by done. apply NoDup_app. split_and!.
    + done.
    + intros t Ht ->%list_elem_of_singleton. by apply list_elem_of_filter in Ht as [_ ?].
    + apply NoDup_singleton.
  - intros j [?|E%list_elem_of_singleton]%elem_of_app; [auto|]. by injection E as ->.
  - intros j l l' [[-> E]|[l2 E]]%snoc_split; [injection E as ->; by apply G1|]. by apply (H4 j l l2).
Qed.

Lemma told_request q s s' text :
  length (requests s') = S (length (requests s)) →
  (∀ k r, requests s !! k = Some r → cancel_sent r = true → ∃ r', requests s' !! k = Some r' ∧ cancel_sent r' = true) →
  told q s → told (q ++ [mkMessage (OfRequest (length (requests s))) text]) s'.
Proof.
  intros E H [H1 H2 H3 H4]. assert (Hno : OfRequest (length (requests s)) ∉ tag <$> q) by (rewrite <- H1; lia).
  split; rewrite ?fmap_app; cbn.
  - intros j. rewrite E, elem_of_app, list_elem_of_singleton, <- H1. split; [|naive_solver lia].
    intros Hj. destruct (decide (j = length (requests s))) as [->|]; [by right|left; lia].
  - rewrite filter_app, filter_cons, filter_nil, decide_True by done. apply NoDup_app. split_and!.
    + done.
    + intros t Ht ->%list_elem_of_singleton. by apply list_elem_of_filter in Ht as [_ ?].
    + apply NoDup_singleton.
  - intros j [Hj|?%list_elem_of_singleton]%elem_of_app; [|done]. destruct (H3 j Hj) as (r & ? & ?). by eapply H.
  - intros j l l' [[-> [=]]|[l2 E2]]%snoc_split. by apply (H4 j l l2).
Qed.

(** ** Steps, as far as the remote is told of requests *)

Definition told_next (p p' : Peer) : Prop := told (queued (out p)) (sends p) → told (queued (out p')) (sends p').

Lemma told_trans p q r : told_next p q → told_next q r → told_next p r.
Proof. unfold told_next. auto. Qed.

(** At most one message more is queued, and [P] of its tag. *)
Definition grows (P : Tag → Prop) (o o' : Output) : Prop :=
  queued o' = queued o ∨ ∃ m, P (tag m) ∧ queued o' = queued o ++ [m].

Lemma tnext_plain p p' :
  marks_kept (sends p) (sends p') → grows (λ t, own_tag t = false) (out p) (out p') → told_next p p'.
Proof.
  intros Hm [E|(m & Hp & E)] Ht; rewrite E; [by eapply told_same|]. apply told_plain; [done|]. by eapply told_same.
Qed.

Lemma tnext_same p p' : marks_kept (sends p) (sends p') → queued (out p') = queued (out p) → told_next p p'.
Proof. intros Hm E. apply tnext_plain; [done|by left]. Qed.

(** A step that queues nothing and touches no request. *)
Ltac unchanged := first [exact (λ H, H) | apply tnext_same; [by apply marks_same|done] | done].

Lemma enqueue_grows o m : grows (λ t, t = tag m) o (enqueue_outgoing o m).
Proof. unfold enqueue_outgoing. case_if; [by left|]. right. by exists m. Qed.

(** Where an answer goes: what [Fate] says. *)
Definition fate_of (o o' : Output) (i : option RequestID) (f : Fate) : Prop :=
  match f with
  | Queued m => tag m = OfAnswer i ∧ queued o' = queued o ++ [m]
  | OutputShut => finishing o ∧ o' = o
  | _ => o' = o
  end.

Lemma enqueued_fate o i text : let '(o', f) := enqueued o (mkMessage (OfAnswer i) text) in fate_of o o' i f.
Proof.
  unfold enqueued, enqueue_outgoing. destruct (negb (output_open o) || closing_output o) eqn:E; cbn; [|done].
  split; [|done]. apply orb_true_iff in E as [E|E]; [left|by right]. by apply negb_true_iff in E.
Qed.

Lemma answer_fate o i text : let '(o', f) := send_answer limit o i text in fate_of o o' i f.
Proof.
  unfold send_answer. case_if; [apply enqueued_fate|]. destruct (encode_error_response i _); [|done].
  case_if; [apply enqueued_fate|done].
Qed.

Lemma error_fate o i e : let '(o', f) := send_error limit o i e in fate_of o o' i f.
Proof. unfold send_error. destruct (encode_error_response i e); [apply answer_fate|done]. Qed.

Lemma fate_grows o o' i f : fate_of o o' i f → grows (λ t, t = OfAnswer i) o o'.
Proof. destruct f as [m| | |]; cbn; [|intros; destruct_and?; subst; by left..]. intros [? ?]. right. by exists m. Qed.

Lemma error_grows o i e : grows (λ t, t = OfAnswer i) o (send_error limit o i e).1.
Proof. pose proof (error_fate o i e) as H. destruct (send_error _ _ _ _). by eapply fate_grows. Qed.
Lemma answer_grows o i text : grows (λ t, t = OfAnswer i) o (send_answer limit o i text).1.
Proof. pose proof (answer_fate o i text) as H. destruct (send_answer _ _ _ _). by eapply fate_grows. Qed.

Lemma grows_impl (P Q : Tag → Prop) o o' : (∀ t, P t → Q t) → grows P o o' → grows Q o o'.
Proof. intros H [?|(m & ? & ?)]; [by left|]. right. exists m. auto. Qed.

Lemma tnext_error p p' i e :
  marks_kept (sends p) (sends p') → out p' = (send_error limit (out p) i e).1 → told_next p p'.
Proof.
  intros Hm E. apply tnext_plain; [done|]. rewrite E. eapply grows_impl; [|apply error_grows]. by intros t ->.
Qed.
Lemma tnext_answer p p' i text :
  marks_kept (sends p) (sends p') → out p' = (send_answer limit (out p) i text).1 → told_next p p'.
Proof.
  intros Hm E. apply tnext_plain; [done|]. rewrite E. eapply grows_impl; [|apply answer_grows]. by intros t ->.
Qed.

Lemma tnext_gives_up p k x p' : k < length (requests (sends p)) → gives_up limit p k x p' → told_next p p'.
Proof.
  intros Hk [Hc|Hc|text Hc [Hu Hfit]].
  - by apply tnext_same; [apply marks_settle|].
  - by apply tnext_same; [etrans; [apply marks_mark|apply marks_settle]|].
  - unfold told_next. cbn [out with_out with_sends pushed queued sends]. apply told_cancel; [done|done|..].
    + etrans; [apply marks_mark|apply marks_settle].
    + destruct (lookup_lt_is_Some_2 _ _ Hk) as [r Hr]. eexists. rewrite settle_lookup, decide_True, mark_lookup, Hr by done.
      split; [done|]. cbn. by rewrite decide_True.
Qed.

Lemma tnext_cancel_remote p k : k < length (requests (sends p)) → told_next p (cancel_remote limit p k).
Proof.
  intros Hk. destruct (cancel_remote_cancels limit p k) as [|text Hc _ [Hu Hfit]|x p' _ Hg]; [unchanged| |by eapply tnext_gives_up].
  unfold told_next. cbn [out with_out with_sends pushed queued sends]. apply told_cancel; [done|done|apply marks_mark|].
  destruct (lookup_lt_is_Some_2 _ _ Hk) as [r Hr]. eexists. rewrite mark_lookup, Hr. split; [done|]. cbn. by rewrite decide_True.
Qed.

Lemma tnext_expire fuel p : sends_ok (sends p) → told_next p (expire_due limit fuel p).
Proof.
  intros Hs. induction (expire_expires limit fuel p Hs) as [|p1 p2 p3 H12 _ IH]; [unchanged|].
  destruct H12 as [t k l p2 Hd Ht Hg]. destruct (deadline_unsettled _ _ _ _ Hs Hd) as (r & Hk & Hr & _).
  destruct (gives_up_ok _ _ _ _ _ _ Hs Hk Hr Hg) as (Hs2 & _). eapply told_trans; [|by apply IH].
  eapply tnext_gives_up; [by eapply lookup_lt_Some|done].
Qed.

Lemma tnext_send_request p m x token timeout : told_next p (send_request limit p m x token timeout).1.
Proof.
  unfold send_request. destruct (refuse_request _ _ _) eqn:Er; [unchanged|]. 
  destruct (encode_request _ _ _) as [text|e]; [|unchanged].
  unfold send_request_impl. case_if; [|unchanged].
  assert (Hu : unsendable p true = None).
  { unfold refuse_request in Er. case_if_in Er; [done|]. by destruct (unsendable p true). }
  apply sendable in Hu as (_ & H1 & H2 & _). unfold told_next. cbn -[file_deadline enqueue_outgoing].
  rewrite enqueue_open by done. apply told_request.
  - destruct timeout; cbn; rewrite ?length_alter, length_app; cbn; lia.
  - intros k r Hk Hc. assert (Hlt := lookup_lt_Some _ _ _ Hk). exists r. split; [|done].
    destruct timeout; cbn; [rewrite list_lookup_alter_ne by lia|]; by apply lookup_app_l_Some.
Qed.

Lemma tnext_end_input p why : told_next p (end_input p why).
Proof. apply tnext_same; [|done]. etrans; [apply marks_fail|by apply marks_same]. Qed.

Lemma tnext_cancel_sources p l t : told_next p (cancel_sources p l t).
Proof. destruct (cancel_sources_same p l t) as (E1 & _ & _ & _ & E2 & _). apply tnext_same; [|done]. by apply marks_same; rewrite E1. Qed.

Lemma tnext_write_end p b : told_next p (write_end p b).
Proof. unfold write_end. case_if; unchanged. Qed.

Lemma tnext_read_on p v : told_next p (read_on p v).
Proof.
  unfold read_on. destruct v; [|unchanged]. destruct (violation_policy _); [unchanged|].
  eapply told_trans; [apply tnext_end_input|unchanged].
Qed.

Lemma tnext_read p r : told_next p (read_message limit p r).
Proof.
  destruct r as [text|e]; cbn.
  - assert (H : told_next p (dispatch_incoming_message limit p text).1).
    { unfold dispatch_incoming_message. destruct (parse_message text) as [i m x|m x|i r|[i|] e u|i e n]; try unchanged.
      - unfold dispatch_request. repeat case_if; cbn; first [by eapply tnext_error|unchanged].
      - unfold dispatch_notification. repeat case_if; [destruct (_ ≫= _)|..]; unchanged.
      - by apply tnext_same; [apply marks_complete|].
      - by apply tnext_same; [apply marks_complete|].
      - destruct n; cbn; [unchanged|by eapply tnext_error]. }
    destruct (dispatch_incoming_message limit p text) as [p' [v|]]; cbn in H; [|eapply told_trans; [exact H|unchanged]].
    eapply told_trans; [exact H|apply tnext_read_on].
  - destruct (kind e); [eapply told_trans; [apply tnext_end_input|exact (λ H, H)]..|].
    unfold skip_oversized. cbn zeta. destruct (peek _) as [[] [i|]]; cbn; try unchanged; try (by eapply tnext_error);
      (apply tnext_same; [|done]); [apply marks_fail..|apply marks_complete].
Qed.

Lemma transition_told p p' : requests_inv p → transition limit p p' → told_next p p'.
Proof.
  intros [Hs _] Ht. destruct Ht; try unchanged.
  - apply tnext_send_request.
  - destruct (notify_cases limit p OfNotification method params) as [[e ->]|(text & [Hu Hfit] & ->)]; [unchanged|].
    apply tnext_plain; [done|]. right. exists (mkMessage OfNotification text). by split.
  - by apply tnext_cancel_remote.
  - unfold close. destruct (closed _); [unchanged|]. unfold cancel_handlers. eapply told_trans; [|apply tnext_cancel_sources].
    by apply tnext_same; [apply marks_fail|].
  - unfold close_output. case_if; unchanged.
  - destruct o; first [by eapply tnext_error|by eapply tnext_answer].
  - by apply tnext_same; [apply marks_fail|].
  - eapply told_trans; [|apply tnext_read_on]. unchanged.
  - eapply told_trans; [|apply tnext_cancel_sources]. unchanged.
  - apply tnext_read.
  - eapply told_trans; [apply tnext_end_input|unchanged].
  - unfold write_run. destruct (outgoing_queue _); [|unchanged]. repeat case_if; try unchanged; apply tnext_write_end.
  - unfold fail_output. destruct (closed _); [apply tnext_write_end|]. unfold cancel_handlers.
    eapply told_trans; [|apply tnext_cancel_sources]. by apply tnext_same; [apply marks_fail|].
  - apply tnext_write_end.
  - unfold deadline_run. case_if; [|unchanged]. set (q := expire_due _ _ _). apply (told_trans _ q); [by apply tnext_expire|].
    cbn zeta. destruct (deadlines (sends (with_sends q _))) as [|[]]; (apply tnext_same; [|done]); by apply marks_same.
Qed.

(** ** No message is larger than the remote reads *)

Definition sized (o o' : Output) : Prop :=
  ∃ l, queued o' = queued o ++ l ∧ Forall (λ m, fits limit (payload m) = true) l.

Lemma sized_same o o' : queued o' = queued o → sized o o'.
Proof. intros E. exists []. by rewrite E, app_nil_r. Qed.

Lemma sized_trans o1 o2 o3 : sized o1 o2 → sized o2 o3 → sized o1 o3.
Proof. intros (l & E & H) (l' & E' & H'). exists (l ++ l'). rewrite E', E, app_assoc. split; [done|by apply Forall_app]. Qed.

Lemma sized_enqueue o m : fits limit (payload m) = true → sized o (enqueue_outgoing o m).
Proof. intros Hm. unfold enqueue_outgoing. case_if; [by apply sized_same|]. exists [m]. by repeat constructor. Qed.

Lemma sized_pushed o m : fits limit (payload m) = true → sized o (pushed o m).
Proof. intros Hm. exists [m]. by repeat constructor. Qed.

Lemma sized_answer o i text : sized o (send_answer limit o i text).1.
Proof.
  unfold send_answer. destruct (fits limit text) eqn:Ef; [by apply sized_enqueue|].
  destruct (encode_error_response i _) as [t|e]; [|by apply sized_same]. destruct (fits limit t) eqn:Et; [by apply sized_enqueue|by apply sized_same].
Qed.

Lemma sized_error o i e : sized o (send_error limit o i e).1.
Proof. unfold send_error. destruct (encode_error_response i e); [apply sized_answer|by apply sized_same]. Qed.

Lemma sized_gives_up p k x p' : gives_up limit p k x p' → sized (out p) (out p').
Proof. intros [_|_|text _ [_ Hf]]; [by apply sized_same..|]. by apply sized_pushed. Qed.

Lemma sized_expire fuel p : sends_ok (sends p) → sized (out p) (out (expire_due limit fuel p)).
Proof.
  intros Hs. induction (expire_expires limit fuel p Hs) as [|p1 p2 p3 H12 _ IH]; [by apply sized_same|].
  destruct H12 as [t k l p2 Hd Ht Hg]. destruct (deadline_unsettled _ _ _ _ Hs Hd) as (r & Hk & Hr & _).
  destruct (gives_up_ok _ _ _ _ _ _ Hs Hk Hr Hg) as (Hs2 & _). eapply sized_trans; [by eapply sized_gives_up|by apply IH].
Qed.

Lemma sized_read_on p v : sized (out p) (out (read_on p v)).
Proof. apply sized_same. unfold read_on. destruct v; [|done]. by destruct (violation_policy _). Qed.

Lemma sized_read p r : sized (out p) (out (read_message limit p r)).
Proof.
  destruct r as [text|e]; cbn.
  - assert (Hd : sized (out p) (out (dispatch_incoming_message limit p text).1)).
    { unfold dispatch_incoming_message. destruct (parse_message text) as [i m x|m x|i r|[i|] e u|i e n]; try (by apply sized_same).
      - unfold dispatch_request. repeat case_if; first [apply sized_error|by apply sized_same].
      - unfold dispatch_notification. repeat case_if; [destruct (_ ≫= _)|..]; by apply sized_same.
      - destruct n; [by apply sized_same|apply sized_error]. }
    destruct (dispatch_incoming_message limit p text) as [p' [v|]]; [|done]. eapply sized_trans; [exact Hd|apply sized_read_on].
  - destruct (kind e); [by apply sized_same..|]. unfold skip_oversized. cbn zeta.
    destruct (peek _) as [[] [i|]]; cbn; first [apply sized_error|by apply sized_same].
Qed.

Lemma sized_cancel_sources p l t : sized (out p) (out (cancel_sources p l t)).
Proof. apply sized_same. by destruct (cancel_sources_same p l t) as (_ & _ & _ & _ & E & _). Qed.

Lemma transition_sized p p' : requests_inv p → transition limit p p' → sized (out p) (out p').
Proof.
  intros [Hs _] Ht. destruct Ht; try (by apply sized_same).
  - unfold send_request, send_request_impl. destruct (refuse_request _ _ _); [by apply sized_same|].
    destruct (encode_request _ _ _) as [text|e]; [|by apply sized_same]. destruct (fits limit text) eqn:Ef; [by apply sized_enqueue|by apply sized_same].
  - destruct (notify_cases limit p OfNotification method params) as [[e ->]|(text & [Hu Hf] & ->)]; [by apply sized_same|by apply sized_pushed].
  - destruct (cancel_remote_cancels limit p k) as [|text _ _ [_ Hf]|x p' _ Hg]; [by apply sized_same|by apply sized_pushed|].
    by eapply sized_gives_up.
  - unfold close. destruct (closed _); [by apply sized_same|]. eapply sized_trans; [|apply sized_cancel_sources]. by apply sized_same.
  - unfold close_output. case_if; by apply sized_same.
  - destruct o; first [apply sized_error|apply sized_answer].
  - apply (sized_read_on (with_stack p rest)).
  - apply (sized_cancel_sources (with_stack p rest)).
  - apply sized_read.
  - unfold write_run. destruct (outgoing_queue _); [|by apply sized_same]. repeat case_if; by apply sized_same.
  - unfold fail_output. destruct (closed _); [by apply sized_same|]. eapply sized_trans; [|apply sized_cancel_sources]. by apply sized_same.
  - unfold write_end. case_if; by apply sized_same.
  - unfold deadline_run. case_if; [|by apply sized_same]. set (q := expire_due _ _ _). apply (sized_trans _ (out q)); [by apply sized_expire|].
    cbn zeta. destruct (deadlines (sends (with_sends q _))) as [|[]]; by apply sized_same.
Qed.
End Told.
