(* ===== verification/PeerServed.v ===== *)
(** How a peer (Peer.v) answers the requests it reads, through all its steps.

    [matched]: the answers queued are those sent, in their order, and one is
    dropped for the output only when that takes no more.  [accounted]: every
    request dispatched has one answer or a handler that runs, and the requests
    listed are those whose handlers run. *)

From Stdlib Require Import Strings.Byte ZArith Lia Bool.
From stdpp Require Import prelude gmap strings list relations.
From S2P Require Import Prelude Charconv Framing Peer PeerSends PeerSteps PeerInv PeerTold.
Local Open Scope kota_scope.
Local Open Scope nat_scope.

(** The answers among messages, and the messages of answers. *)
Definition answer_message (m : Message) : option Message := match tag m with OfAnswer _ => Some m | _ => None end.
Definition sent_message (a : Answer) : option Message := match fate a with Queued m => Some m | _ => None end.
(** The request an answer is to, if it was dispatched. *)
Definition answered_request (a : Answer) : option RequestID := if to_dispatched a then answer_to a else None.
Definition unanswered (s : Serves) : list RequestID := handled <$> filter (λ x, ended x = false) (handlers s).

Record matched (s : Serves) (o : Output) : Prop := {
  m_messages : omap answer_message (queued o) = omap sent_message (answers s);
  m_dropped : ∀ a, a ∈ answers s → fate a = OutputShut → finishing o;
}.

Record accounted (s : Serves) (is_closed : bool) : Prop := {
  a_once : omap answered_request (answers s) ++ unanswered s ≡ₚ dispatched s;
  a_listed : ∀ i h, incoming_requests s !! i = Some h → ∃ x, handlers s !! h = Some x ∧ handled x = i ∧ ended x = false;
  a_running : is_closed = false → ∀ h x, handlers s !! h = Some x → ended x = false → incoming_requests s !! handled x = Some h;
}.

Definition served (p : Peer) : Prop := matched (serves p) (out p) ∧ accounted (serves p) (closed (life p)).

Section Served.
Context `{C : Codec}.
Variable limit : nat.

(** Messages that are no answers. *)
Lemma matched_grows s o o' :
  grows (λ t, ∀ i, t ≠ OfAnswer i) o o' → (finishing o → finishing o') → matched s o → matched s o'.
Proof.
  intros [E|(m & Hm & E)] Hf [H1 H2]; split; try (by eauto); rewrite E; [done|].
  rewrite omap_app, H1. cbn. unfold answer_message. destruct (tag m) as [k|k|i|]; [by rewrite app_nil_r..| |by rewrite app_nil_r].
  by specialize (Hm i).
Qed.

(** An answer. *)
Lemma matched_answer s s' o o' i d f :
  fate_of o o' i f → (finishing o → finishing o') → answers s' = answers s ++ [mkAnswer i d f] → matched s o → matched s' o'.
Proof.
  intros Hf Hfin E [H1 H2]. split; rewrite E.
  - rewrite omap_app, <- H1. cbn. destruct f as [m| | |]; cbn in Hf.
    + destruct Hf as [Ht ->]. rewrite omap_app. cbn. unfold answer_message at 2. by rewrite Ht.
    + destruct Hf as [_ ->]. by rewrite app_nil_r.
    + subst o'. by rewrite app_nil_r.
    + subst o'. by rewrite app_nil_r.
  - intros a [Ha| ->%list_elem_of_singleton]%elem_of_app E2; [eauto|]. cbn in E2. subst f. apply Hfin. by destruct Hf.
Qed.

Lemma matched_same s s' o : answers s' = answers s → matched s o → matched s' o.
Proof. intros E []. split; by rewrite E. Qed.

(** ** Handlers *)

Lemma accounted_closed s b b' : (b = true → b' = true) → accounted s b → accounted s b'.
Proof. intros Hb [H1 H2 H3]. split; try done. intros ->. apply H3. destruct b; [by specialize (Hb eq_refl)|done]. Qed.

Lemma accounted_same s s' b :
  answers s' = answers s → handlers s' = handlers s → incoming_requests s' = incoming_requests s →
  dispatched s' = dispatched s → accounted s b → accounted s' b.
Proof. intros E1 E2 E3 E4 []. split; unfold unanswered; rewrite ?E1, ?E2, ?E3, ?E4; done. Qed.

(** Changing a handler but for its request. *)
Lemma unanswered_alter (f : Handler → Handler) (l : list Handler) (h : nat) :
  (∀ x, handled (f x) = handled x ∧ ended (f x) = ended x) →
  handled <$> filter (λ x, ended x = false) (alter f h l) = handled <$> filter (λ x, ended x = false) l.
Proof.
  intros Hf. revert h. induction l as [|x l IH]; intros h; [done|]. destruct h as [|h]; cbn [alter list_alter].
  - rewrite !filter_cons. destruct (Hf x) as [E1 E2]. rewrite E2. case_decide; [|done]. cbn. by rewrite E1.
  - rewrite !filter_cons. case_decide; [rewrite !fmap_cons; f_equal|]; apply IH.
Qed.

Lemma accounted_fire s h b : accounted s b → accounted (fire s h) b.
Proof.
  intros [H1 H2 H3]. assert (Hl : ∀ j x', handlers (fire s h) !! j = Some x' →
    ∃ x, handlers s !! j = Some x ∧ handled x' = handled x ∧ ended x' = ended x).
  { intros j x'. cbn. rewrite list_lookup_alter. case_decide as Hd; [subst|by eauto].
    destruct (handlers s !! j) as [x|]; [|done]. intros [= <-]. by exists x. }
  assert (Hl' : ∀ j x, handlers s !! j = Some x → ∃ x', handlers (fire s h) !! j = Some x' ∧ handled x' = handled x ∧ ended x' = ended x).
  { intros j x Hx. cbn. rewrite list_lookup_alter. case_decide as Hd; [subst; rewrite Hx; by eexists|by eauto]. }
  split.
  - unfold unanswered, fire. cbn. by rewrite unanswered_alter.
  - intros i j Hi. destruct (H2 i j Hi) as (x & Hx & E1 & E2). destruct (Hl' j x Hx) as (x' & ? & E3 & E4).
    exists x'. by rewrite E3, E4.
  - intros Hb j x' Hx' He. destruct (Hl j x' Hx') as (x & Hx & E1 & E2). rewrite E1. apply (H3 Hb j x Hx). by rewrite <- E2.
Qed.

(** A request that is refused: its answer comes with it. *)
Lemma accounted_refused s s' b i f :
  answers s' = answers s ++ [mkAnswer (Some i) true f] → handlers s' = handlers s → incoming_requests s' = incoming_requests s →
  dispatched s' = dispatched s ++ [i] → accounted s b → accounted s' b.
Proof.
  intros E1 E2 E3 E4 [H1 H2 H3]. split; unfold unanswered; rewrite ?E2, ?E3; [|done..]. rewrite E1, E4, omap_app. cbn.
  rewrite <- H1. unfold unanswered. solve_Permutation.
Qed.

(** An answer to what could not be read. *)
Lemma accounted_unread s s' b i f :
  answers s' = answers s ++ [mkAnswer i false f] → handlers s' = handlers s → incoming_requests s' = incoming_requests s →
  dispatched s' = dispatched s → accounted s b → accounted s' b.
Proof.
  intros E1 E2 E3 E4 [H1 H2 H3]. split; unfold unanswered; rewrite ?E2, ?E3; [|done..]. rewrite E1, E4, omap_app. cbn.
  by rewrite app_nil_r.
Qed.

(** A handler starts. *)
Lemma accounted_starts s s' b i m :
  answers s' = answers s → handlers s' = handlers s ++ [mkHandler i m false false] →
  incoming_requests s' = <[i := length (handlers s)]> (incoming_requests s) → dispatched s' = dispatched s ++ [i] →
  incoming_requests s !! i = None → accounted s b → accounted s' b.
Proof.
  intros E1 E2 E3 E4 Hn [H1 H2 H3]. split; rewrite ?E1, ?E2, ?E3, ?E4.
  - unfold unanswered. rewrite E2, filter_app, fmap_app, <- H1. cbn. rewrite app_assoc. done.
  - intros j h [[<- <-]|[Hne Hj]]%lookup_insert_Some.
    + eexists. rewrite list_lookup_middle by done. done.
    + destruct (H2 j h Hj) as (x & Hx & Hr). exists x. split; [by apply lookup_app_l_Some|done].
  - intros Hb h x [Hx|[Hle Hx]]%lookup_app_Some He.
    + rewrite lookup_insert_ne; [by apply (H3 Hb)|]. intros E. rewrite E in Hn. by rewrite (H3 Hb h x Hx He) in Hn.
    + apply list_lookup_singleton_Some in Hx as [Hz <-]. cbn. rewrite lookup_insert_eq. f_equal. lia.
Qed.

(** A handler ends. *)
Lemma accounted_ends s s' b h x f :
  handlers s !! h = Some x → ended x = false → answers s' = answers s ++ [mkAnswer (Some (handled x)) true f] →
  handlers s' = alter (λ y, mkHandler (handled y) (method_of y) (fired y) true) h (handlers s) →
  incoming_requests s' = delete (handled x) (incoming_requests s) → dispatched s' = dispatched s →
  accounted s b → accounted s' b.
Proof.
  intros Hx He E1 E2 E3 E4 [H1 H2 H3].
  assert (Hl : ∀ j, handlers s' !! j = if decide (h = j) then Some (mkHandler (handled x) (method_of x) (fired x) true) else handlers s !! j).
  { intros j. rewrite E2, list_lookup_alter. case_decide; [by rewrite Hx|done]. }
  split.
  - rewrite E1, E4, <- H1, omap_app. cbn. unfold unanswered. rewrite E2.
    destruct (list_elem_of_split_length _ _ _ Hx) as (l1 & l2 & -> & ->).
    rewrite <- (Nat.add_0_r (length l1)), alter_app_r. cbn [alter list_alter].
    rewrite !filter_app, !filter_cons, !fmap_app. cbn [ended]. rewrite decide_False, decide_True by done. cbn. solve_Permutation.
  - intros i j. rewrite E3, lookup_delete_Some. intros [Hne Hi]. destruct (H2 i j Hi) as (y & Hy & E5 & E6).
    exists y. rewrite Hl, decide_False; [done|]. intros ->. congruence.
  - intros Hb j y. rewrite Hl. case_decide; [by intros [= <-]|]. intros Hy Hey. rewrite E3, lookup_delete_ne; [by apply (H3 Hb)|].
    intros E. pose proof (H3 Hb h x Hx He) as G1. pose proof (H3 Hb j y Hy Hey) as G2. rewrite <- E in G2. congruence.
Qed.

(** ** Steps *)

Section Step.
Variables p p' : Peer.
Hypothesis Hlater : output_later p p'.

(** The answers and handlers stay; what is queued is no answer. *)
Lemma served_kept :
  answers (serves p') = answers (serves p) → handlers (serves p') = handlers (serves p) →
  incoming_requests (serves p') = incoming_requests (serves p) → dispatched (serves p') = dispatched (serves p) →
  grows (λ t, ∀ i, t ≠ OfAnswer i) (out p) (out p') → served p → served p'.
Proof using Hlater.
  intros E1 E2 E3 E4 Hg [H1 H2]. split.
  - apply (matched_same (serves p)); [done|]. eapply matched_grows; [done|apply Hlater|done].
  - apply (accounted_closed _ (closed (life p))); [apply Hlater|]. by apply (accounted_same (serves p)).
Qed.

(** An answer is sent, and the requests are accounted for. *)
Lemma served_answer i d f :
  fate_of (out p) (out p') i f → answers (serves p') = answers (serves p) ++ [mkAnswer i d f] →
  (accounted (serves p) (closed (life p)) → accounted (serves p') (closed (life p))) → served p → served p'.
Proof using Hlater.
  intros Hf E Ha [H1 H2]. split.
  - eapply matched_answer; [done|apply Hlater|done|done].
  - apply (accounted_closed _ (closed (life p))); [apply Hlater|]. by apply Ha.
Qed.

(** Nothing is answered and nothing queued. *)
Lemma served_silent :
  answers (serves p') = answers (serves p) → queued (out p') = queued (out p) →
  (accounted (serves p) (closed (life p)) → accounted (serves p') (closed (life p))) → served p → served p'.
Proof using Hlater.
  intros E1 E2 Ha [H1 H2]. split.
  - apply (matched_same (serves p)); [done|]. eapply matched_grows; [by left|apply Hlater|done].
  - apply (accounted_closed _ (closed (life p))); [apply Hlater|]. by apply Ha.
Qed.
End Step.

Lemma accounted_cancel_sources p l t :
  accounted (serves p) true → accounted (serves (cancel_sources p l t)) true.
Proof.
  intros Ha. destruct l as [|h l]; [|by apply accounted_fire].
  assert (H : accounted (with_incoming (serves p) ∅) true).
  { destruct Ha as [H1 H2 H3]. split; [done| |done]. intros i h Hi. cbn in Hi. by rewrite lookup_empty in Hi. }
  by destruct t.
Qed.

Lemma served_cancel_sources p q l t :
  output_later p (cancel_sources q l t) → serves q = serves p → queued (out q) = queued (out p) →
  closed (life (cancel_sources q l t)) = true → served p → served (cancel_sources q l t).
Proof.
  intros Hl E1 E2 Hc [H1 H2]. destruct (cancel_sources_same q l t) as (_ & _ & _ & _ & Eq & _ & Ea). split.
  - apply (matched_same (serves p)); [by rewrite Ea, E1|]. eapply matched_grows; [left; by rewrite Eq|apply Hl|done].
  - rewrite Hc. apply accounted_cancel_sources. rewrite E1. by apply (accounted_closed _ (closed (life p))).
Qed.

Lemma served_dispatch_request p m i :
  let p' := (dispatch_request limit p m i).1 in output_later p p' → served p → served p'.
Proof.
  cbn zeta. intros Hl. unfold dispatch_request in *.
  assert (Hrefuse : ∀ e, let p0 := with_serves p (mkServes (request_callbacks (serves p)) (notification_callbacks (serves p))
      (incoming_requests (serves p)) (handlers (serves p)) (group_decided (serves p)) (dispatched (serves p) ++ [i]) (answers (serves p))) in
    output_later p (answered p0 (Some i) true (send_error limit (out p0) (Some i) e)) → served p →
    served (answered p0 (Some i) true (send_error limit (out p0) (Some i) e))).
  { intros e p0 Hle. pose proof (error_fate limit (out p) (Some i) e) as Hf. change (out p0) with (out p) in *.
    destruct (send_error limit (out p) (Some i) e) as [o f].
    apply (served_answer _ _ Hle (Some i) true f); [exact Hf|done|]. by apply accounted_refused with i f. }
  repeat case_if; cbn [fst] in *; try (by apply Hrefuse). clear Hrefuse. bool_prop.
  apply served_silent; [done..|]. apply accounted_starts with i m; try done. cbn.
  by apply eq_None_not_Some.
Qed.

Lemma gives_up_grows p k x q : gives_up limit p k x q → grows (λ t, ∀ i, t ≠ OfAnswer i) (out p) (out q).
Proof. intros [_|_|text _ [Hu Hfit]]; [by left..|]. right. by exists (mkMessage (OfCancel k) text). Qed.

(** Expiring deadlines queues cancels only. *)
Lemma expire_served fuel p : sends_ok (sends p) → output_inv p → served p → served (expire_due limit fuel p).
Proof.
  intros Hs Ho. induction (expire_expires limit fuel p Hs) as [|p1 p2 p3 H12 _ IH]; [done|]. intros Hp.
  destruct H12 as [t k l p2 Hd Ht Hg]. destruct (deadline_unsettled _ _ _ _ Hs Hd) as (r & Hk & Hr & _).
  destruct (gives_up_ok _ _ _ _ _ _ Hs Hk Hr Hg) as (Hs2 & _). destruct (gives_up_frame _ _ _ _ _ Hg) as (E1 & _ & _).
  destruct (onext_gives_up _ _ _ _ _ Hg Ho) as [Ho2 Hl]. apply (IH Hs2 Ho2). revert Hp.
  apply served_kept; rewrite ?E1; try done. by eapply gives_up_grows.
Qed.

Lemma served_read_on p q v :
  output_later p (read_on q v) → serves q = serves p → queued (out q) = queued (out p) → served p → served (read_on q v).
Proof.
  intros Hl E1 E2. apply served_kept; try done; unfold read_on; destruct v, (violation_policy (life q)); cbn; rewrite ?E1; try done; by left.
Qed.

Lemma served_same p p' :
  output_later p p' → answers (serves p') = answers (serves p) → handlers (serves p') = handlers (serves p) →
  incoming_requests (serves p') = incoming_requests (serves p) → dispatched (serves p') = dispatched (serves p) →
  queued (out p') = queued (out p) → served p → served p'.
Proof. intros Hl E1 E2 E3 E4 E5. apply served_kept; try done. by left. Qed.

Lemma dispatch_served p text :
  let p' := (dispatch_incoming_message limit p text).1 in output_later p p' → served p → served p'.
Proof.
  cbn zeta. unfold dispatch_incoming_message. destruct (parse_message text) as [i m x|m x|i r|[i|] e u|i e n]; intros Hl; cbn [fst] in *.
  - by apply served_dispatch_request.
  - revert Hl. unfold dispatch_notification. repeat case_if; [destruct (_ ≫= _) as [h|]|..]; intros Hl; try (by apply served_same).
    apply served_silent; [done..|]. apply accounted_fire.
  - by apply served_same.
  - by apply served_same.
  - done.
  - destruct n; [done|]. pose proof (error_fate limit (out p) i e) as Hf. destruct (send_error _ _ _ _) as [o f].
    apply (served_answer _ _ Hl i false f); [done..|]. by apply accounted_unread with i f.
Qed.

Lemma read_served p r : output_inv p → served p → served (read_message limit p r).
Proof.
  intros Ho Hp. destruct (onext_read limit p r Ho) as [_ Hl]. revert Hl. destruct r as [text|e]; cbn.
  - destruct (onext_dispatch limit p text Ho) as [Ho' Hld]. pose proof (dispatch_served p text Hld Hp) as Hd. revert Ho' Hld Hd.
    destruct (dispatch_incoming_message limit p text) as [p' [v|]]; cbn; intros Ho' Hld Hd Hl.
    + apply (served_read_on p'); try done. by apply onext_read_on.
    + apply (served_same p'); try done.
  - destruct (kind e); intros Hl; [by apply (served_same p)..|]. revert Hl. unfold skip_oversized. cbn zeta.
    pose proof (λ i, error_fate limit (out p) i (error MessageTooLarge (message e))) as Hf.
    destruct (peek _) as [[] [i|]]; cbn; intros Hl; try (by apply (served_same p)); try done.
    + specialize (Hf (Some i)). destruct (send_error _ _ _ _) as [o f].
      apply (served_answer _ _ Hl (Some i) false f); [done..| |done]. by apply accounted_unread with (Some i) f.
    + specialize (Hf None). destruct (send_error _ _ _ _) as [o f].
      apply (served_answer _ _ Hl None false f); [done..| |done]. by apply accounted_unread with None f.
Qed.

Lemma transition_served p p' :
  requests_inv p → control 0 p → output_inv p → transition limit p p' → served p → served p'.
Proof.
  intros Hr Hc Ho Ht Hp. destruct (transition_output limit p p' Hr Hc Ht Ho) as [_ Hl]. destruct Hr as [Hs _]. revert Hp.
  destruct Ht; try (by apply served_same).
  - revert Hl. unfold send_request, send_request_impl. destruct (refuse_request _ _ _); [done|].
    destruct (encode_request _ _ _); [|by intros; apply (served_same p)]. case_if; [|by intros; apply (served_same p)].
    intros Hl. apply served_kept; try done. eapply grows_impl; [|apply enqueue_grows]. by intros t ->.
  - revert Hl. destruct (notify_cases limit p OfNotification method params) as [[e ->]|(text & [Hu Hfit] & ->)]; [done|]. intros Hl.
    apply served_kept; try done. right. by exists (mkMessage OfNotification text).
  - revert Hl. destruct (cancel_remote_cancels limit p k) as [|text _ _ [Hu Hfit]|x p' _ Hg]; intros Hl; [done|..].
    + apply served_kept; try done. right. by exists (mkMessage (OfCancel k) text).
    + destruct (gives_up_frame _ _ _ _ _ Hg) as (E1 & _ & _). apply served_kept; rewrite ?E1; try done. by eapply gives_up_grows.
  - revert Hl. unfold close. destruct (closed _) eqn:Ec; [done|]. unfold cancel_handlers. intros Hl.
    apply served_cancel_sources; try done.
    destruct (end_conversation_spec (with_input_closed (with_closed (life p) false)) (mkEnd ShutDown (lit "peer closed"))) as (_ & E2 & _).
    set (q := with_sends _ _). destruct (map_to_list _).*2; [done|exact E2].
  - revert Hl. unfold close_output. case_if; [|done]. intros Hl. by apply (served_same p).
  - intros Hp. revert Hp Hl. unfold run_request_end.
    pose proof (λ e, error_fate limit (out p) (Some (handled x)) e) as He.
    pose proof (λ t, answer_fate limit (out p) (Some (handled x)) t) as Ha.
    set (y := match o with Answered _ => _ | _ => _ end).
    assert (Hy : fate_of (out p) y.1 (Some (handled x)) y.2).
    { unfold y. destruct o as [t|e| |]; [specialize (Ha t); by destruct (send_answer _ _ _ _)|..];
        match goal with |- context [send_error _ _ _ ?e] => specialize (He e); by destruct (send_error _ _ _ _) end. }
    intros Hp Hl. revert Hp. apply (served_answer _ _ Hl (Some (handled x)) true y.2); [done..|].
    by apply accounted_ends with h x y.2.
  - by apply (served_read_on p).
  - apply served_cancel_sources; try done. pose proof (c_cancel _ _ Hc sources t) as Hcl. rewrite H in Hcl.
    apply (later_closed _ _ Hl), Hcl. constructor.
  - by apply read_served.
  - revert Hl. unfold write_run. destruct (outgoing_queue _); [|by intros; apply (served_same p)].
    repeat case_if; intros Hl; by apply (served_same p).
  - revert Hl. unfold fail_output. destruct (closed _) eqn:Ec; [by intros; apply (served_same p)|]. unfold cancel_handlers. intros Hl.
    apply served_cancel_sources; try done. by destruct (map_to_list _).*2.
  - destruct (write_end_same p true) as (_ & _ & _ & E). apply served_kept; rewrite ?E; try done.
    left. unfold write_end. by case_if.
  - revert Hl. unfold deadline_run. case_if; [|done]. intros Hl Hp.
    pose proof (expire_served (length (deadlines (sends p))) p Hs Ho Hp) as Hq. revert Hl Hq.
    destruct (onext_expire limit (length (deadlines (sends p))) p Hs Ho) as [Hoq _]. revert Hoq.
    set (q := expire_due _ _ _). cbn zeta. intros Hoq Hl Hq. clear Hl. revert Hq.
    destruct (deadlines (sends (with_sends q _))) as [|[]]; apply served_same; try done; by apply onext_same.
Qed.
End Served.
