(* ===== verification/PeerLive.v ===== *)
(** What the loops of a peer (Peer.v) wait for: nothing they wait for has happened
    unnoticed.

    [awake]: the write loop that waits has nothing to do, or is woken.
    [timely]: the deadline loop that waits wakes up before every deadline, but for
    the millisecond its timer counts in, and at the end of the input. *)

From Stdlib Require Import Strings.Byte ZArith Lia Bool.
From stdpp Require Import prelude gmap strings list relations.
From S2P Require Import Prelude Charconv Framing Peer PeerSends PeerSteps PeerInv PeerTold PeerServed.
Local Open Scope kota_scope.
Local Open Scope nat_scope.

Section Live.
Context `{C : Codec}.
Variable limit : nat.

(** ** The write loop *)

(** There is nothing to write, and nothing to close. *)
Definition quiet (p : Peer) : Prop :=
  outgoing_queue (out p) = [] ∧ output_open (out p) = true ∧ closing_output (out p) = false ∧ answers_done (life p) = false.

(** close() is under way, and wakes the loop at its end. *)
Definition closing (p : Peer) : Prop := ∃ l, CancelHandlers l AfterClose ∈ stack (loops p).

Definition awake (p : Peer) : Prop :=
  writing (loops p) = WriteWaiting → write_event (out p) = true ∨ quiet p ∨ closing p.

Lemma awake_next p p' :
  (writing (loops p') = WriteWaiting → writing (loops p) = WriteWaiting) →
  (write_event (out p) = true → write_event (out p') = true) →
  (quiet p → write_event (out p') = true ∨ quiet p' ∨ closing p') →
  (closing p → write_event (out p') = true ∨ closing p') → awake p → awake p'.
Proof.
  intros H1 H2 H3 H4 Ha Hw. destruct (Ha (H1 Hw)) as [?|[?|Hc]]; [by left; auto|by auto|]. destruct (H4 Hc); auto.
Qed.

Lemma awake_same p p' :
  out p' = out p → answers_done (life p') = answers_done (life p) → stack (loops p') = stack (loops p) →
  writing (loops p') = writing (loops p) → awake p → awake p'.
Proof.
  intros E1 E2 E3 E4. apply awake_next; unfold quiet, closing; rewrite ?E1, ?E2, ?E3, ?E4; auto.
Qed.

Lemma awake_done p : writing (loops p) ≠ WriteWaiting → awake p.
Proof. by intros H ?. Qed.

(** A message may have been queued. *)
Definition queues (o o' : Output) : Prop := o' = o ∨ write_event o' = true.

Lemma awake_queues p p' :
  queues (out p) (out p') → answers_done (life p') = answers_done (life p) → stack (loops p') = stack (loops p) →
  writing (loops p') = writing (loops p) → awake p → awake p'.
Proof. intros [E|E] E2 E3 E4; [by apply awake_same|]. intros _ _. by left. Qed.

Lemma enqueue_queues o m : queues o (enqueue_outgoing o m).
Proof. unfold enqueue_outgoing. case_if; [by left|by right]. Qed.
Lemma error_queues o i e : queues o (send_error limit o i e).1.
Proof. destruct (send_error_enqueues limit o i e) as [m [->| ->]]; [apply enqueue_queues|by left]. Qed.
Lemma answer_queues o i t : queues o (send_answer limit o i t).1.
Proof. destruct (send_answer_enqueues limit o i t) as [m [->| ->]]; [apply enqueue_queues|by left]. Qed.

Lemma awake_gives_up p k x p' : gives_up limit p k x p' → awake p → awake p'.
Proof. intros [_|_|text _ _]; [by apply awake_same..|]. apply awake_queues; try done. by right. Qed.

Lemma awake_expire fuel p : sends_ok (sends p) → awake p → awake (expire_due limit fuel p).
Proof.
  intros Hs. induction (expire_expires limit fuel p Hs) as [|p1 p2 p3 H12 _ IH]; [done|]. intros Hp.
  destruct H12 as [t k l p2 Hd Ht Hg]. destruct (deadline_unsettled _ _ _ _ Hs Hd) as (r & Hk & Hr & _).
  destruct (gives_up_ok _ _ _ _ _ _ Hs Hk Hr Hg) as (Hs2 & _). apply (IH Hs2). by eapply awake_gives_up.
Qed.

Lemma awake_cancel_sources p l : awake (cancel_sources p l AfterClose).
Proof.
  destruct l as [|h l]; intros _; [by left|]. right. right. exists l. constructor.
Qed.

Lemma awake_end_input p why : awake p → awake (end_input p why).
Proof. destruct (end_input_frame p why) as (_ & _ & _ & _ & E1 & E2 & _ & _ & E3). apply awake_same; by rewrite ?E1, ?E2, ?E3. Qed.

Lemma awake_read_on p v : awake p → awake (read_on p v).
Proof.
  intros Ha. unfold read_on. destruct v as [v|]; [|by apply (awake_same p)]. destruct (violation_policy _); [by apply (awake_same p)|].
  by apply (awake_same (end_input p (mkEnd MalformedInput v))), awake_end_input.
Qed.

(** Popping a frame that is not close()'s. *)
Lemma awake_pop p f rest :
  stack (loops p) = f :: rest → (∀ l, f ≠ CancelHandlers l AfterClose) → awake p → awake (with_stack p rest).
Proof.
  intros Es Hf. apply awake_next; try done; [by auto|]. intros [l Hin]. right. exists l. rewrite Es in Hin.
  apply elem_of_cons in Hin as [E|?]; [by destruct (Hf l)|done].
Qed.

Lemma awake_push p f : awake p → awake (push p f).
Proof. apply awake_next; try done; [by auto|]. intros [l Hin]. right. exists l. by constructor. Qed.

Lemma awake_read p r : awake p → awake (read_message limit p r).
Proof.
  intros Ha. destruct r as [text|e]; cbn.
  - assert (Hd : awake (dispatch_incoming_message limit p text).1).
    { unfold dispatch_incoming_message. destruct (parse_message text) as [i m x|m x|i r|[i|] e u|i e n]; try done.
      - unfold dispatch_request. repeat case_if; cbn [fst]; first
          [by apply (awake_queues p); [apply error_queues|..]
          |apply (awake_same (push p AfterDispatch)); [done..|by apply awake_push]].
      - unfold dispatch_notification. repeat case_if; [destruct (_ ≫= _)|..]; cbn [fst]; try done; by apply awake_push.
      - destruct n; cbn [fst]; [done|]. by apply (awake_queues p); [apply error_queues|..]. }
    destruct (dispatch_incoming_message limit p text) as [p' [v|]]; cbn in Hd; [by apply awake_read_on|by apply (awake_same p')].
  - destruct (kind e); [by eapply awake_same; [..|apply awake_end_input]..|].
    unfold skip_oversized. cbn zeta. destruct (peek _) as [[] [i|]]; cbn; try done; try (by apply (awake_same p));
      by apply (awake_queues p); [apply error_queues|..].
Qed.

Lemma transition_awake p p' : requests_inv p → control 0 p → transition limit p p' → awake p → awake p'.
Proof.
  intros [Hs _] Hc Ht. destruct Ht; try (by apply awake_same).
  - unfold send_request, send_request_impl. destruct (refuse_request _ _ _); [done|].
    destruct (encode_request _ _ _); [|by apply awake_same]. case_if; [|by apply awake_same].
    apply awake_queues; try done. apply enqueue_queues.
  - destruct (notify_cases limit p OfNotification method params) as [[e ->]|(text & [Hu Hfit] & ->)]; [done|].
    apply awake_queues; try done. by right.
  - destruct (cancel_remote_cancels limit p k) as [|text _ _ [Hu Hfit]|x p' _ Hg]; [done| |by eapply awake_gives_up].
    apply awake_queues; try done. by right.
  - unfold close. destruct (closed _); [done|]. intros _. apply awake_cancel_sources.
  - unfold close_output. case_if; [|done]. apply awake_queues; try done. by right.
  - apply awake_queues; try done. cbn. destruct o; first [apply error_queues|apply answer_queues].
  - intros Ha. apply awake_read_on, (awake_pop p f); [done| |done]. intros l. by destruct H0; subst f.
  - intros Ha. destruct t; [apply awake_cancel_sources|].
    pose proof (awake_pop p _ rest H ltac:(done) Ha) as Hq. destruct sources as [|h l].
    + by apply awake_done.
    + by apply (awake_same (push (with_stack p rest) (CancelHandlers l AfterFailOutput))); [..|apply awake_push].
  - intros Ha. eapply awake_same; [..|apply (awake_pop p _ rest H ltac:(done) Ha)]; done.
  - apply awake_read.
  - intros Ha. pose proof (awake_push (end_input p run_cancelled_end) AfterGroupCancel (awake_end_input p run_cancelled_end Ha)) as Hq.
    by eapply awake_same; [..|exact Hq].
  - intros _ _. by left.
  - intros _ Hw. revert Hw. unfold write_run. destruct (outgoing_queue _) eqn:Eq; [|done].
    case_if; [done|]. case_if; [|unfold write_end; by case_if]. intros _. right. left. cbn. bool_prop. split_and!; try done.
    by destruct (answers_done _), (output_open _).
  - intros _. apply awake_done. unfold fail_output. destruct (closed _); [unfold write_end; by case_if|].
    unfold cancel_handlers. destruct (map_to_list _).*2; cbn; by try case_if.
  - intros _. apply awake_done. unfold write_end. by case_if.
  - intros _. apply awake_done. unfold write_end. by case_if.
  - intros Ha. unfold deadline_run. case_if; [|by apply (awake_same p)].
    pose proof (awake_expire (length (deadlines (sends p))) p Hs Ha) as Hq. revert Hq. set (q := expire_due _ _ _). cbn zeta.
    destruct (deadlines (sends (with_sends q _))) as [|[]]; by apply awake_same.
Qed.

(** ** The deadline loop *)

(** The read loop is over, and will not start again. *)
Definition over (p : Peer) : Prop :=
  reading (loops p) = Joining ∨ reading (loops p) = ReadDone ∨ AfterGroupCancel ∈ stack (loops p).

(** The loop wakes up for a deadline at [t]. *)
Definition alarm (d : DeadlineLoop) (t : Z) : Prop :=
  match d with
  | DeadlineWaiting => False
  | DeadlineSleeping until => (until < t + millisecond)%Z
  | _ => True
  end.
Definition waits (d : DeadlineLoop) : Prop := match d with DeadlineWaiting | DeadlineSleeping _ => True | _ => False end.

Definition timely (p : Peer) : Prop :=
  waits (timing (loops p)) → deadline_changed (sends p) = true ∨
    (∀ t k, (t, k) ∈ deadlines (sends p) → alarm (timing (loops p)) t) ∧ ¬ over p.

Lemma alarm_later d t t' : (t ≤ t')%Z → alarm d t → alarm d t'.
Proof. destruct d; cbn; try done. lia. Qed.

(** Deadlines go, or the loop is told. *)
Definition sheds (s s' : Sends) : Prop :=
  deadline_changed s' = true ∨ deadline_changed s' = deadline_changed s ∧ (∀ e, e ∈ deadlines s' → e ∈ deadlines s).

Lemma sheds_trans s1 s2 s3 : sheds s1 s2 → sheds s2 s3 → sheds s1 s3.
Proof. unfold sheds. intros [H|[E H]] [H'|[E' H']]; try (left; congruence). right. split; [congruence|auto]. Qed.

Lemma sheds_same s s' : deadline_changed s' = deadline_changed s → deadlines s' = deadlines s → sheds s s'.
Proof. intros E1 E2. right. by rewrite E2. Qed.

Lemma sheds_settle s k x : sheds s (settle s k x).
Proof. right. split; [done|]. intros e. cbn. case_bool_decide; [done|]. by intros [_ ?]%list_elem_of_filter. Qed.

Lemma sheds_complete s i x : sheds s (complete_pending_request s i x).
Proof. unfold complete_pending_request. destruct (_ !! i); [apply sheds_settle|by apply sheds_same]. Qed.

Lemma sheds_fail s e : sheds s (fail_pending_requests s e).
Proof.
  unfold fail_pending_requests. generalize (map_to_list (pending_requests s)).*2. intros l. revert s.
  induction l as [|k l IH]; intros s; cbn; [by apply sheds_same|]. eapply sheds_trans; [apply sheds_settle|apply IH].
Qed.

Lemma timely_next p p' :
  timing (loops p') = timing (loops p) → sheds (sends p) (sends p') →
  (over p' → over p ∨ deadline_changed (sends p') = true) → timely p → timely p'.
Proof.
  intros E Hs Ho Ht Hw. rewrite E in *. destruct Hs as [Hs|[E2 Hs]]; [by left|].
  destruct (deadline_changed (sends p')) eqn:Ed; [by left|]. destruct (Ht Hw) as [Hc|[Ha Hn]]; [congruence|]. right.
  split; [eauto|]. intros H. by destruct (Ho H).
Qed.

Lemma timely_same p p' :
  sends p' = sends p → timing (loops p') = timing (loops p) → reading (loops p') = reading (loops p) →
  stack (loops p') = stack (loops p) → timely p → timely p'.
Proof. intros E1 E2 E3 E4. apply timely_next; [done|rewrite E1; by apply sheds_same|]. unfold over. rewrite E3, E4. auto. Qed.

Lemma timely_sheds p p' : loops p' = loops p → sheds (sends p) (sends p') → timely p → timely p'.
Proof. intros E Hs. apply timely_next; [by rewrite E|done|]. unfold over. rewrite E. auto. Qed.

Lemma sheds_gives_up p k x p' : gives_up limit p k x p' → sheds (sends p) (sends p').
Proof.
  intros [_|_|text _ _]; cbn [sends with_sends with_out]; [apply sheds_settle|..];
    (eapply sheds_trans; [|apply sheds_settle]; by apply sheds_same).
Qed.

Lemma timely_end_input p why q : timing (loops q) = timing (loops p) → sends q = sends (end_input p why) → timely q.
Proof. intros _ E Hw. left. by rewrite E. Qed.

(** The frames of the loops that wait stay as they were. *)
Lemma over_pop p f rest : stack (loops p) = f :: rest → over (with_stack p rest) → over p.
Proof. intros E. unfold over. cbn. rewrite E. intros [?|[?|?]]; [auto..|]. right. right. by constructor. Qed.

Lemma timely_read_on p q v :
  timing (loops q) = timing (loops p) → sends q = sends p → AfterGroupCancel ∉ stack (loops q) → timely p → timely (read_on q v).
Proof.
  intros E1 E2 Hn Ht. assert (Ha : timely (with_reading q AwaitRead)).
  { revert Ht. apply timely_next; [done|rewrite <- E2; by apply sheds_same|]. by intros [?|[?|?]]. }
  unfold read_on. destruct v as [v|]; [|done]. destruct (violation_policy _); [done|].
  by apply (timely_end_input q (mkEnd MalformedInput v)).
Qed.

Lemma timely_read p r : idle p → reading (loops p) = AwaitRead → timely p → timely (read_message limit p r).
Proof.
  intros Hi Hr Ht. destruct r as [text|e]; cbn.
  - pose proof (dispatch_frame limit p text) as Hf.
    assert (Hs : sheds (sends p) (sends (dispatch_incoming_message limit p text).1)).
    { unfold dispatch_incoming_message. destruct (parse_message text) as [i m x|m x|i r|[i|] e u|i e n]; try (by apply sheds_same).
      - unfold dispatch_request. repeat case_if; by apply sheds_same.
      - unfold dispatch_notification. repeat case_if; [destruct (_ ≫= _)|..]; by apply sheds_same.
      - apply sheds_complete.
      - apply sheds_complete.
      - destruct n; by apply sheds_same. }
    destruct (dispatch_incoming_message limit p text) as [p' d]. destruct Hf as (_ & _ & Hd). cbn in Hs. destruct d as [v|].
    + apply (timely_read_on p'); [done|done|rewrite Hd, Hi; by intros ?%elem_of_nil|]. revert Ht. by apply timely_sheds.
    + destruct Hd as (f & Hf & Ew). revert Ht. apply timely_next; cbn; rewrite ?Ew; [done|done|]. unfold over. cbn. rewrite Ew. cbn. rewrite Hi.
      intros [?|[?|Hin%list_elem_of_singleton]]; [done..|]. by destruct Hf; subst f.
  - destruct (kind e); [by apply (timely_end_input p (mkEnd InputEnded (message e)))|by apply (timely_end_input p (mkEnd MalformedInput (message e)))|]. revert Ht. unfold skip_oversized. cbn zeta.
    destruct (peek _) as [[] [i|]]; cbn; try done; try (by apply timely_same); apply timely_sheds; try done;
      [apply sheds_fail..|apply sheds_complete].
Qed.

Lemma timely_send_request p m x token timeout : timely p → timely (send_request limit p m x token timeout).1.
Proof.
  unfold send_request, send_request_impl. destruct (refuse_request _ _ _); [done|].
  destruct (encode_request _ _ _); [|by apply timely_sheds; [|by apply sheds_same]]. case_if; [|by apply timely_sheds; [|by apply sheds_same]].
  destruct timeout as [d|]; [|by apply timely_sheds; [|by apply sheds_same]].
  intros Ht Hw. cbn -[file_deadline] in *. specialize (Ht Hw).
  match goal with |- context [file_deadline ?s ?now ?k d] => destruct (file_changes s now k d) as [?|(Ec & e & He & Hle)] end; [by left|].
  rewrite Ec. cbn. destruct Ht as [?|[Ha Hn]]; [by left|]. right. split; [|done]. intros t k Hin.
  unfold file_deadline in Hin. cbn in Hin. rewrite emplace_perm, elem_of_cons in Hin. destruct Hin as [[= -> _]|Hin]; [|by apply (Ha t k)].
  destruct e as [t0 k0]. eapply alarm_later; [exact Hle|]. by apply (Ha t0 k0).
Qed.

Lemma ceil_bounds d : (0 < d)%Z → (Z.max (ceil_ms d) 0 * millisecond < d + millisecond)%Z.
Proof. unfold ceil_ms, millisecond. intros Hd. dlia. Qed.

Lemma expire_ok fuel p : sends_ok (sends p) → sends_ok (sends (expire_due limit fuel p)).
Proof.
  intros Hs. induction (expire_expires limit fuel p Hs) as [|p1 p2 p3 H12 _ IH]; [done|]. apply IH.
  destruct H12 as [t k l p2 Hd Ht Hg]. destruct (deadline_unsettled _ _ _ _ Hs Hd) as (r & Hk & Hr & _). by eapply gives_up_ok.
Qed.

Lemma timely_deadline_run p : sends_ok (sends p) → control 0 p → idle p → timely (deadline_run limit p).
Proof.
  intros Hs Hc Hi. unfold deadline_run. case_if; [|by intros ?].
  pose proof (expire_done limit (length (deadlines (sends p))) p Hs (le_n _)) as Hd.
  destruct (expire_frame limit (length (deadlines (sends p))) p Hs) as (_ & El & Ew).
  pose proof (expire_ok (length (deadlines (sends p))) p Hs) as Hsq.
  revert Hd El Ew Hsq. set (q := expire_due _ _ _). intros Hd El Ew Hsq. cbn zeta.
  assert (Hno : ¬ over p).
  { intros [?|[?|Hin]]; [| |by rewrite Hi in Hin; apply elem_of_nil in Hin];
      (assert (input_open (life p) = false) by (apply (c_over _ _ Hc); auto); congruence). }
  cbn [sends with_sends with_deadlines deadlines].
  destruct (deadlines (sends q)) as [|[at_ k0] l] eqn:Eq; intros _; right; cbn -[ceil_ms].
  - split; [by intros t k ?%elem_of_nil|]. unfold over in *. cbn. by rewrite Ew.
  - split; [|unfold over in *; cbn; by rewrite Ew]. intros t k Hin. rewrite Ew.
    assert (Hat : (now (loops p) < at_)%Z) by (apply (Hd at_ k0); constructor).
    assert (Hle : (at_ ≤ t)%Z).
    { pose proof (ok_sorted _ Hsq) as Hso. rewrite Eq in Hso. inversion_clear Hso as [|? ? _ Hall].
      apply elem_of_cons in Hin as [[= -> _]|Hin]; [done|]. rewrite Forall_forall in Hall. apply (Hall _ Hin). }
    pose proof (ceil_bounds (at_ - now (loops p)) ltac:(lia)). lia.
Qed.

Lemma timely_cancel_sources p l t : timely p → timely (cancel_sources p l t).
Proof.
  destruct l as [|h l].
  - destruct t; by apply timely_same.
  - apply timely_next; [done|by apply sheds_same|]. unfold over. cbn. intros [?|[?|Hin]]; [auto..|].
    apply elem_of_cons in Hin as [[=]|?]. auto.
Qed.

Lemma transition_timely p p' : requests_inv p → control 0 p → transition limit p p' → timely p → timely p'.
Proof.
  intros [Hs _] Hc Ht. destruct Ht; try (by apply timely_same).
  - apply timely_send_request.
  - destruct (notify_cases limit p OfNotification method params) as [[e ->]|(text & [Hu Hfit] & ->)]; by apply timely_same.
  - destruct (cancel_remote_cancels limit p k) as [|text _ _ [Hu Hfit]|x p' _ Hg]; [done|by apply timely_sheds; [|by apply sheds_same]|].
    destruct (gives_up_frame _ _ _ _ _ Hg) as (_ & _ & Ew). apply timely_sheds; [done|by eapply sheds_gives_up].
  - unfold close. destruct (closed _); [done|]. intros Ht. apply timely_cancel_sources. revert Ht. apply timely_sheds; [done|apply sheds_fail].
  - unfold close_output. by case_if; [apply timely_same|].
  - apply timely_next; [done|by apply sheds_same|]. intros [?|[?|Hin]]; [done..|]. left. by right; right.
  - apply timely_sheds; [done|apply sheds_fail].
  - intros Ht. assert (Hf : read_frame f = true) by by destruct H0; subst f.
    destruct (pop_read p f rest Hc H Hf) as (Er & Hr & _). apply (timely_read_on p); [done..| |done]. cbn. intros Hin.
    apply nil_length_inv in Hr. rewrite list_elem_of_In in Hin.
    assert (Hx : List.In AfterGroupCancel (List.filter read_frame rest)) by by apply List.filter_In. by rewrite Hr in Hx.
  - intros Ht. apply timely_cancel_sources. revert Ht. apply timely_next; [done|by apply sheds_same|]. intros Ho. left. by eapply over_pop.
  - apply timely_next; [done|by apply sheds_same|]. intros _. left. right. right. rewrite H. constructor.
  - by apply timely_read.
  - intros _. by apply (timely_end_input p run_cancelled_end).
  - apply timely_next; [done|by apply sheds_same|]. intros _. left. by left.
  - apply timely_next; [done|by apply sheds_same|]. intros _. left. by left.
  - unfold write_run. destruct (outgoing_queue _); [|by apply timely_same]. repeat case_if; by apply timely_same.
  - unfold fail_output. destruct (closed _); [by apply timely_same|]. intros Ht. apply timely_cancel_sources. revert Ht.
    apply timely_next; [done|apply sheds_fail|]. auto.
  - unfold write_end. case_if; by apply timely_same.
  - intros _. by apply timely_deadline_run.
  - by intros _ ?.
Qed.

(** The read loop ends with every answer given, or with run(). *)
Definition answered_all (p : Peer) : Prop :=
  reading (loops p) = ReadDone → answers_done (life p) = true ∨ run_cancelled (loops p) = true.

Lemma answered_next p p' :
  (reading (loops p') = ReadDone → reading (loops p) = ReadDone) → answers_done (life p') = answers_done (life p) →
  run_cancelled (loops p') = run_cancelled (loops p) → answered_all p → answered_all p'.
Proof. unfold answered_all. intros H -> ->. auto. Qed.

Lemma answered_frame p p' : loops p' = loops p → life p' = life p → answered_all p → answered_all p'.
Proof. intros E1 E2. apply answered_next; by rewrite ?E1, ?E2. Qed.

Lemma answered_write_end p b : answered_all p → answered_all (write_end p b).
Proof. unfold write_end, end_conversation. apply answered_next; case_if; try done; cbn; by destruct (ending _). Qed.

Lemma answered_end_input p why r : r ≠ ReadDone → answered_all p → answered_all (with_reading (end_input p why) r).
Proof. intros Hr _ ?. done. Qed.

Lemma answered_cancel_sources p l t : answered_all p → answered_all (cancel_sources p l t).
Proof. destruct l as [|h l]; [|by apply answered_next]. by destruct t; apply answered_next. Qed.

Lemma transition_answered p p' : requests_inv p → transition limit p p' → answered_all p → answered_all p'.
Proof.
  intros [Hs _] Ht. destruct Ht; try (by apply answered_next).
  - apply answered_frame; unfold send_request, send_request_impl; destruct (refuse_request _ _ _); try done;
      destruct (encode_request _ _ _); try done; by case_if.
  - destruct (notify_cases limit p OfNotification method params) as [[e ->]|(text & [Hu Hfit] & ->)]; by apply answered_frame.
  - destruct (cancel_remote_cancels limit p k) as [|text _ _ [Hu Hfit]|x p' _ Hg]; [done|by apply answered_frame|].
    destruct (gives_up_frame _ _ _ _ _ Hg) as (_ & ? & ?). by apply answered_frame.
  - unfold close. destruct (closed _); [done|]. intros Ha. apply answered_cancel_sources. revert Ha.
    unfold end_conversation. cbn. apply answered_next; try done. by destruct (ending _).
  - unfold close_output. by case_if; [apply answered_frame|].
  - intros _ _. by right.
  - unfold read_on. destruct v; [|by intros _ ?]. destruct (violation_policy _); [by intros _ ?|by intros _ ?].
  - intros Ha. apply answered_cancel_sources. by apply (answered_next p).
  - intros _. destruct r as [text|e]; cbn.
    + pose proof (dispatch_frame limit p text) as Hd. destruct (dispatch_incoming_message limit p text) as [p' d].
      destruct Hd as (El & _ & Hd). destruct d as [v|]; [|by intros ?].
      unfold read_on. destruct v; [|by intros ?]. by destruct (violation_policy _); intros ?.
    + destruct (kind e); [by intros ?..|]. unfold skip_oversized. cbn zeta.
      destruct (peek _) as [[] [i|]]; cbn; intros Hw; cbn in Hw; congruence.
  - by intros _ ?.
  - intros _ _. by left.
  - intros _ _. by right.
  - unfold write_run. destruct (outgoing_queue _); [|by apply answered_next].
    case_if; [by apply answered_next|]. case_if; [by apply answered_next|apply answered_write_end].
  - unfold fail_output. destruct (closed _); [apply answered_write_end|]. intros Ha. apply answered_cancel_sources. revert Ha.
    unfold end_conversation. apply answered_next; try done. cbn. by destruct (ending _).
  - apply answered_write_end.
  - unfold deadline_run. case_if; [|by apply answered_next].
    destruct (expire_frame limit (length (deadlines (sends p))) p Hs) as (_ & E1 & E2). cbn zeta.
    set (q := expire_due _ _ _) in *. destruct (deadlines (sends (with_sends q _))) as [|[]]; apply answered_next; cbn; by rewrite ?E1, ?E2.
Qed.

(** The deadline loop ends with the input, or with run(). *)
Definition timed_all (p : Peer) : Prop :=
  timing (loops p) = DeadlineDone → input_open (life p) = false ∨ run_cancelled (loops p) = true.

(** What a step leaves of the deadline loop. *)
Definition same_clockwork (p p' : Peer) : Prop :=
  timing (loops p') = timing (loops p) ∧ run_cancelled (loops p') = run_cancelled (loops p).

Lemma clockwork_loops p p' : loops p' = loops p → same_clockwork p p'.
Proof. by intros E; split; rewrite E. Qed.

Lemma clockwork_cancel_sources p q l t : same_clockwork p q → same_clockwork p (cancel_sources q l t).
Proof. intros [H1 H2]. by destruct l, t. Qed.

Lemma clockwork_write_end p b : same_clockwork p (write_end p b).
Proof. unfold write_end. by case_if. Qed.

Lemma clockwork_read_on p v : same_clockwork p (read_on p v).
Proof. unfold read_on. destruct v; [|done]. by destruct (violation_policy _). Qed.

Lemma timed_same p p' : output_later p p' → same_clockwork p p' → timed_all p → timed_all p'.
Proof. intros Hl [E1 E2] Ht. unfold timed_all. rewrite E1, E2. intros H. destruct (Ht H); [left; by apply Hl|by right]. Qed.

Lemma transition_timed p p' : output_later p p' → requests_inv p → transition limit p p' → timed_all p → timed_all p'.
Proof.
  intros Hl [Hs _] Ht. destruct Ht; try (by apply timed_same).
  - apply timed_same; [done|]. apply clockwork_loops. unfold send_request, send_request_impl.
    destruct (refuse_request _ _ _); [done|]. destruct (encode_request _ _ _); [|done]. by case_if.
  - revert Hl. destruct (notify_cases limit p OfNotification method params) as [[e ->]|(text & [Hu Hfit] & ->)]; intros Hl; by apply timed_same.
  - revert Hl. destruct (cancel_remote_cancels limit p k) as [|text _ _ Hu|x p' _ Hg]; intros Hl; [done|by apply timed_same|].
    destruct (gives_up_frame _ _ _ _ _ Hg) as (_ & _ & E). by apply timed_same; [|apply clockwork_loops].
  - apply timed_same; [done|]. unfold close. destruct (closed _); [done|]. unfold cancel_handlers. by apply clockwork_cancel_sources.
  - apply timed_same; [done|]. unfold close_output. by case_if.
  - intros _ _. by right.
  - apply timed_same; [done|]. apply (clockwork_read_on (with_stack p rest)).
  - apply timed_same; [done|]. by apply clockwork_cancel_sources.
  - apply timed_same; [done|]. destruct r as [text|e]; cbn.
    + pose proof (dispatch_frame limit p text) as Hd. destruct (dispatch_incoming_message limit p text) as [p' d].
      destruct Hd as (_ & _ & Hd). destruct d as [v|].
      * destruct (clockwork_read_on p' v) as [E1 E2]. split; by rewrite ?E1, ?E2, Hd.
      * destruct Hd as (f & _ & E). split; cbn; by rewrite E.
    + destruct (kind e); [done..|]. unfold skip_oversized. cbn zeta. by destruct (peek _) as [[] [i|]].
  - apply timed_same; [done|]. unfold write_run. destruct (outgoing_queue _); [|done]. repeat case_if; try done; apply clockwork_write_end.
  - apply timed_same; [done|]. unfold fail_output. destruct (closed _); [apply clockwork_write_end|]. unfold cancel_handlers.
    by apply clockwork_cancel_sources.
  - apply timed_same; [done|]. apply clockwork_write_end.
  - intros _. revert Hl. unfold deadline_run. destruct (input_open (life p)) eqn:Ei; [|by left].
    destruct (deadlines (sends (with_sends _ _))) as [|[]]; by intros _ ?.
  - intros _ _. by right.
Qed.

(** ** Every state a program and a transport lead to *)

Record good (p : Peer) : Prop := {
  g_requests : requests_inv p;
  g_control : control 0 p;
  g_output : output_inv p;
  g_told : told (queued (out p)) (sends p);
  g_sized : Forall (λ m, fits limit (payload m) = true) (queued (out p));
  g_served : served p;
  g_awake : awake p;
  g_timely : timely p;
  g_answered : answered_all p;
  g_timed : timed_all p;
}.

Lemma good_new : good new_peer.
Proof.
  split; try done.
  - split; [apply sends_ok_new|]. cbn. by intros [].
  - apply control_new.
  - split_and!; [split; cbn; [by exists []|done..]|cbn; split; [by intros []|done]|done].
  - split; cbn; [|constructor|by intros k ?%elem_of_nil|by intros k []]. intros k. split; [lia|by intros ?%elem_of_nil].
  - split; split; cbn; try done; by intros a ?%elem_of_nil.
  - by intros [].
Qed.

Lemma transition_good p p' : gone (life p) = false → transition limit p p' → good p →
  good p' ∧ keeps (sends p) (sends p') ∧ output_later p p'.
Proof.
  intros Hg Ht [H1 H2 H3 H4 H9 H5 H6 H7 H8 H10].
  destruct (transition_requests limit p p' Hg Ht H1) as [G1 K1]. destruct (transition_output limit p p' H1 H2 Ht H3) as [G3 K3].
  split; [|done]. split; try done.
  - by apply (transition_control limit p).
  - by apply (transition_told limit p p').
  - destruct (transition_sized limit p p' H1 Ht) as (l & -> & Hl). by apply Forall_app.
  - by apply (transition_served limit p).
  - by apply (transition_awake p).
  - by apply (transition_timely p).
  - by apply (transition_answered p).
  - by apply (transition_timed p).
Qed.

Lemma reachable_good p : reachable limit p → good p.
Proof.
  induction 1 as [|p e p' _ IH Hst]; [apply good_new|]. apply step_transition in Hst as [Hg Ht].
  by destruct (transition_good p p' Hg Ht IH).
Qed.
End Live.
