(* ===== verification/PeerSafe.v ===== *)
(** What a peer (Peer.v) promises, in every state that any program and any remote
    lead to, from the invariants of PeerInv.v, PeerTold.v, PeerServed.v and
    PeerLive.v; and a small codec and a conversation to run it with. *)

From Stdlib Require Import Strings.Byte ZArith Lia Bool.
From stdpp Require Import prelude gmap strings list relations.
From S2P Require Import Prelude Charconv Framing Peer PeerSends PeerSteps PeerInv PeerTold PeerServed PeerLive.
Local Open Scope kota_scope.
Local Open Scope nat_scope.

(** C18. A request is settled once.  The requests pending are those that are not
    settled, each under an id of its own; the deadlines filed are those of the
    requests that wait and have one, in order, and none past what the clock
    counts; and whatever happens next, what settled a request stays. *)
Theorem requests_settle_once `{C : Codec} (limit : nat) (p : Peer) :
  reachable limit p →
  let s := sends p in
  (∀ i k, pending_requests s !! i = Some k ↔ ∃ r, requests s !! k = Some r ∧ id r = i ∧ response r = None) ∧
  (∀ j k r r', requests s !! j = Some r → requests s !! k = Some r' → id r = id r' → j = k) ∧
  (∀ t k, (t, k) ∈ deadlines s ↔ ∃ r, requests s !! k = Some r ∧ deadline r = Some t ∧ response r = None) ∧
  (∀ i j a b, i < j → deadlines s !! i = Some a → deadlines s !! j = Some b → (a.1 ≤ b.1 ≤ clock_max)%Z) ∧
  (∀ e p' k r x, step limit p e = Some p' → requests s !! k = Some r → response r = Some x →
    ∃ r', requests (sends p') !! k = Some r' ∧ id r' = id r ∧ response r' = Some x).
Proof.
  intros Hr. pose proof (reachable_good limit p Hr) as Hg. destruct (g_requests _ _ Hg) as [Hs _]. split_and!; try apply Hs.
  - intros i j [t k] [t' k'] Hij Ha Hb. split; [|eapply (ok_clock _ Hs), list_elem_of_lookup_2, Hb].
    pose proof (ok_sorted _ Hs) as Hso. by apply (sorted_lookup _ _ i j _ _ Hso Ha Hb Hij).
  - intros e p' k r x [Hgo Ht]%step_transition Hk Hx. destruct (transition_good limit p p' Hgo Ht Hg) as (_ & Hkeeps & _).
    destruct (Hkeeps k r Hk) as (r' & ? & ? & Hx' & _). exists r'. auto.
Qed.

(** C6. A conversation that has ended leaves nobody waiting.  Once the input has
    ended, run() has returned or the peer is gone, every request ever sent is
    settled; the conversation has ended exactly when the input has or the
    transport was closed; its reason is kept; and from then on a request fails at
    once with ConnectionClosed. *)
Theorem conversation_ends `{C : Codec} (limit : nat) (p : Peer) :
  reachable limit p →
  (input_open (life p) = false ∨ gone (life p) = true ∨ (started (life p) = true ∧ running (life p) = false) →
    ∀ k r, requests (sends p) !! k = Some r → response r ≠ None) ∧
  (ending (life p) ≠ None ↔ closed (life p) = true ∨ input_open (life p) = false) ∧
  (∀ e p' why, step limit p e = Some p' → ending (life p) = Some why → ending (life p') = Some why) ∧
  (ending (life p) ≠ None → ∀ method params token timeout, (∀ t, timeout = Some t → (0 < t)%Z) →
    ∃ e, send_request limit p method params token timeout = (p, Err e) ∧ code e = error_code ConnectionClosed).
Proof.
  intros Hr. pose proof (reachable_good limit p Hr) as Hg. destruct (g_requests _ _ Hg) as [Hs Hp].
  destruct (g_output _ _ Hg) as (Ho & He & _). split_and!.
  - intros H k r Hk. apply (all_settled (sends p) k r Hs); [|done]. apply Hp. destruct H as [?|[?|[H1 H2]]]; [by left|by right|].
    left. destruct (c_finished _ _ (g_control _ _ Hg) H1 H2) as (H3 & _). apply (c_over _ _ (g_control _ _ Hg)). by right.
  - by rewrite He.
  - intros e p' why [Hgo Ht]%step_transition Hw. destruct (transition_good limit p p' Hgo Ht Hg) as (_ & _ & Hl). by apply Hl.
  - intros Hend method params token timeout Ht. unfold send_request, refuse_request.
    assert (Htime : match timeout with Some t => (t <=? 0)%Z | None => false end = false).
    { destruct timeout as [t|]; [|done]. apply Z.leb_gt, (Ht t eq_refl). }
    rewrite Htime. assert (Hu : ∃ e, unsendable p true = Some e ∧ code e = error_code ConnectionClosed); [|by destruct Hu as (e & -> & ?); exists e].
    unfold unsendable. apply He in Hend as [->|Hi]; [by eexists|]. destruct (closed _); [by eexists|].
    case_if; [by eexists|]. rewrite Hi. by eexists.
Qed.

(** C7. Every request read is answered once.  The requests dispatched are those
    answered and those whose handlers still run, each as often; the answers queued
    are the ones sent, in their order, and one is dropped for the output only when
    that takes no more; and until the transport is closed the requests listed as
    unanswered are exactly those whose handlers run, no two under one id. *)
Theorem requests_answered_once `{C : Codec} (limit : nat) (p : Peer) :
  reachable limit p →
  let s := serves p in
  omap answered_request (answers s) ++ unanswered s ≡ₚ dispatched s ∧
  omap answer_message (queued (out p)) = omap sent_message (answers s) ∧
  (∀ a, a ∈ answers s → fate a = OutputShut → output_open (out p) = false ∨ closing_output (out p) = true) ∧
  (∀ i h, incoming_requests s !! i = Some h → ∃ x, handlers s !! h = Some x ∧ handled x = i ∧ ended x = false) ∧
  (closed (life p) = false → ∀ h x, handlers s !! h = Some x → ended x = false → incoming_requests s !! handled x = Some h).
Proof.
  intros Hr. pose proof (reachable_good limit p Hr) as Hg. destruct (g_served _ _ Hg) as [[H1 H2] [H3 H4 H5]]. done.
Qed.

(** C19. The output keeps its order.  What is handed to the transport is the start
    of what was queued, in order; nothing queued is lost but to a close or a failed
    write; the output is half-closed only once all that was queued was written,
    and an output that is closed stays so; and no message is larger than the
    remote reads. *)
Theorem output_in_order `{C : Codec} (limit : nat) (p : Peer) :
  reachable limit p →
  let o := out p in
  (∃ rest, queued o = written o ++ rest) ∧
  (closed (life p) = false → queued o = written o ++ outgoing_queue o) ∧
  (half_closed o = true → queued o = written o ∧ output_open o = false) ∧
  (∀ e p', step limit p e = Some p' → output_open o = false ∨ closing_output o = true →
    output_open (out p') = false ∨ closing_output (out p') = true) ∧
  (∀ m, m ∈ queued o → length (payload m) ≤ limit).
Proof.
  intros Hr. pose proof (reachable_good limit p Hr) as Hg. destruct (g_output _ _ Hg) as ([(lost & H1 & H1') H2 H3] & _).
  split_and!.
  - by eexists.
  - intros Hc. rewrite H1, (H1' Hc). by rewrite app_nil_r.
  - done.
  - intros e p' [Hgo Ht]%step_transition Hf. destruct (transition_good limit p p' Hgo Ht Hg) as (_ & _ & Hl). by apply Hl.
  - intros m Hm. pose proof (g_sized _ _ Hg) as Hz. rewrite Forall_forall in Hz. by apply Nat.leb_le, Hz.
Qed.

(** C20. The remote is told of a cancel once, and after its request: every request
    sent is queued exactly once, a $/cancelRequest of it at most once and after it,
    and only one that was cancelled or timed out has one. *)
Theorem cancel_told_once `{C : Codec} (limit : nat) (p : Peer) :
  reachable limit p →
  let tags := tag <$> queued (out p) in
  (∀ k, k < length (requests (sends p)) ↔ OfRequest k ∈ tags) ∧
  NoDup (filter (λ t, own_tag t = true) tags) ∧
  (∀ k l l', tags = l ++ OfCancel k :: l' → OfRequest k ∈ l) ∧
  (∀ k, OfCancel k ∈ tags → ∃ r, requests (sends p) !! k = Some r ∧ cancel_sent r = true).
Proof. intros Hr. destruct (g_told _ _ (reachable_good limit p Hr)) as [H1 H2 H3 H4]. done. Qed.

(** C8. A peer that runs never sleeps over what it has to do.  When the loop can
    resume nothing of it, the write loop has nothing to write and nothing to
    close, no timeout has passed by a millisecond or more, and run() waits for the
    transport or for a handler: once the input has ended, the handlers are done
    and the output is written, it has returned. *)
Theorem peer_waits_for_others `{C : Codec} (limit : nat) (p : Peer) :
  reachable limit p → stack (loops p) = [] → running (life p) = true → run_cancelled (loops p) = false →
  write_ready p = false → deadline_ready p = false → join_ready p = false → run_ready p = false →
  (writing (loops p) = WriteWaiting → outgoing_queue (out p) = [] ∧ output_open (out p) = true ∧ closing_output (out p) = false) ∧
  (∀ k r t, requests (sends p) !! k = Some r → response r = None → deadline r = Some t → (now (loops p) < t + millisecond)%Z) ∧
  (reading (loops p) = AwaitRead ∨ (reading (loops p) = Joining ∧ all_ended (serves p) = false) ∨
    writing (loops p) = Writing ∨ writing (loops p) = ClosingOutput).
Proof.
  intros Hr Hi Hrun Hnc Hw Hd Hj Hq. pose proof (reachable_good limit p Hr) as Hg. destruct (g_requests _ _ Hg) as [Hs Hp].
  pose proof (g_control _ _ Hg) as Hc. destruct (idle_frames p Hi Hc) as [Hnd Hnf].
  assert (Hwait : writing (loops p) = WriteWaiting → quiet p).
  { intros E. unfold write_ready in Hw. rewrite E in Hw. destruct (g_awake _ _ Hg E) as [?|[?|[l Hin]]]; [congruence|done|].
    rewrite Hi in Hin. by apply elem_of_nil in Hin. }
  assert (Hst : started (life p) = true).
  { apply not_false_is_true. intros E. destruct (c_fresh _ _ Hc E) as (_ & _ & _ & ?). congruence. }
  assert (Hclock : waits (timing (loops p)) → (∀ t k, (t, k) ∈ deadlines (sends p) → alarm (timing (loops p)) t) ∧ ¬ over p).
  { intros E. destruct (g_timely _ _ Hg E) as [Hch|?]; [|done]. unfold deadline_ready in Hd. rewrite Hch in Hd. by destruct (timing _). }
  split_and!.
  - intros E. by destruct (Hwait E) as (? & ? & ? & _).
  - intros k r t Hk Hn Ht. assert (Hin : (t, k) ∈ deadlines (sends p)) by (apply (ok_deadlines _ Hs); by exists r).
    unfold deadline_ready in Hd. destruct (timing (loops p)) as [| |u|] eqn:Et; [congruence|by destruct (Hclock I) as [H _]; apply H in Hin|..].
    + destruct (Hclock I) as [H _]. apply H in Hin. cbn in Hin. bool_prop. lia.
    + destruct (g_timed _ _ Hg Et) as [Hin'|?]; [|congruence]. exfalso. by apply (all_settled (sends p) k r Hs (Hp (or_introl Hin')) Hk).
  - destruct (reading (loops p)) eqn:Er; [by destruct (c_started _ _ Hc Hst)|by left|done|..].
    + right. left. split; [done|]. unfold join_ready in Hj. by rewrite Er in Hj.
    + destruct (g_answered _ _ Hg Er) as [Ha|?]; [|congruence]. right. right. unfold write_ready in Hw.
      destruct (writing (loops p)) eqn:Ew; [congruence| |by left|by right|done|].
      * destruct (Hwait eq_refl) as (_ & _ & _ & ?). congruence.
      * exfalso. unfold deadline_ready in Hd. unfold run_ready in Hq. rewrite Hrun, Er, Ew in Hq.
        destruct (timing (loops p)) eqn:Et; [congruence|..|done]; destruct (Hclock I) as [_ Hno]; apply Hno; by right; left.
Qed.
