(* ===== verification/PeerDemo.v ===== *)
(** A small codec and a conversation of a peer (Peer.v): a request sent with a
    timeout that passes, a request read and answered, and the end of the input.
    The theorems of PeerSafe.v hold along it. *)

From Stdlib Require Import Strings.Byte ZArith Lia Bool.
From stdpp Require Import prelude gmap strings list.
From S2P Require Import Prelude Charconv Framing Peer PeerSends PeerSteps PeerInv PeerTold PeerServed PeerLive PeerSafe.
Local Open Scope kota_scope.
Local Open Scope nat_scope.

(** A message is a letter, the byte of its id where it has one, and its text. *)
Definition id_byte (i : RequestID) : byte := match i with NumberID n => to_byte n | StringID _ => x00 end.
Definition byte_id (b : byte) : RequestID := NumberID (uval b).

Definition demo_parse (text : bytes) : IncomingMessage :=
  match text with
  | x72 :: b :: method => IncomingRequest (byte_id b) method []
  | x6e :: method => IncomingNotification method []
  | x63 :: params => IncomingNotification cancel_method params
  | x61 :: b :: result => IncomingResponse (byte_id b) result
  | x65 :: b :: reason => IncomingErrorResponse (Some (byte_id b)) (mkError 0 reason) false
  | _ => IncomingParseError None (error ParseError (lit "unreadable")) false
  end.

#[local] Instance demo_codec : Codec := {|
  Params := bytes;
  parse_message := demo_parse;
  peek _ := mkHead UnknownHead None;
  encode_request i method _ := Ok (x72 :: id_byte i :: method);
  encode_notification method params := Ok (if bool_decide (method = cancel_method) then x63 :: params else x6e :: method);
  encode_error_response i e := Ok (x65 :: match i with Some i => id_byte i | None => x00 end :: error_text e);
  cancel_request_params i := [id_byte i];
  read_cancel_request params := byte_id <$> head params;
|}.

Definition demo_limit : nat := 64.

(** Until the peer has nothing to do but read. *)
Definition demo_start : list Event := [
  Does (OnRequest (lit "sum"));
  Does Run; WriteStarts; DeadlineStarts;
  Does (SendRequest (lit "ask") [] false (Some 5%Z));
  WriteWoken; Written None; DeadlineWoken;
  Read (Ok (x72 :: x07 :: lit "sum")); Returns None;
  Does (HandlerEnds 0 (Answered (x61 :: x07 :: lit "3")));
  WriteWoken; Written None;
  Tick 5000000; TimerFired; WriteWoken; Written None].

(** Until run() has returned. *)
Definition demo_end : list Event := [
  Read (Ok (x72 :: x08 :: lit "other"));
  Read (Err (mkReadError Closed (lit "the input ended") 0 []));
  Joined; WriteWoken; Written None; OutputClosed None; DeadlineWoken; RunEnded].

Definition demo_peer (es : list Event) : Peer := default new_peer (steps demo_limit new_peer es).

Lemma demo_runs es : is_Some (steps demo_limit new_peer es) → reachable demo_limit (demo_peer es).
Proof.
  intros [p E]. unfold demo_peer. rewrite E. cbn. eapply steps_reachable; [apply reachable_new|exact E].
Qed.

(** The request ended with its timeout, and the remote was told. *)
Example demo_times_out :
  response <$> requests (sends (demo_peer demo_start)) = [Some (Err (error RequestCancelled (lit "request timed out")))] ∧
  payload <$> queued (out (demo_peer demo_start)) =
    [x72 :: x01 :: lit "ask"; x61 :: x07 :: lit "3"; x63 :: [x01]].
Proof. vm_compute. split; reflexivity. Qed.

(** The last request has no handler and is answered so; then all is over. *)
Example demo_ends :
  let p := demo_peer (demo_start ++ demo_end) in
  running (life p) = false ∧ half_closed (out p) = true ∧ length (written (out p)) = 4 ∧
  ending (life p) = Some (mkEnd InputEnded (lit "the input ended")).
Proof. vm_compute. split_and!; reflexivity. Qed.

Lemma demo_start_runs : reachable demo_limit (demo_peer demo_start).
Proof. apply demo_runs. vm_compute. by eexists. Qed.

Lemma demo_end_runs : reachable demo_limit (demo_peer (demo_start ++ demo_end)).
Proof. apply demo_runs. vm_compute. by eexists. Qed.

(** Its one request is settled, and not pending. *)
Lemma requests_settle_once_witness :
  let p := demo_peer demo_start in
  reachable demo_limit p ∧ length (requests (sends p)) = 1 ∧ pending_requests (sends p) !! NumberID 1 = None.
Proof.
  split; [apply demo_start_runs|]. split; [vm_compute; reflexivity|].
  destruct (requests_settle_once demo_limit _ demo_start_runs) as (H & _).
  apply eq_None_not_Some. intros [k Hk]. apply H in Hk as (r & Hk & _ & Hr).
  assert (E : requests (sends (demo_peer demo_start)) = [mkPending (NumberID 1) (Some timed_out) (Some 5000000%Z) true])
    by (vm_compute; reflexivity).
  rewrite E in Hk. apply list_lookup_singleton_Some in Hk as [_ <-]. discriminate Hr.
Defined.

Lemma conversation_ends_witness :
  let p := demo_peer (demo_start ++ demo_end) in
  reachable demo_limit p ∧ input_open (life p) = false ∧ (∀ k r, requests (sends p) !! k = Some r → response r ≠ None).
Proof.
  assert (E : input_open (life (demo_peer (demo_start ++ demo_end))) = false) by (vm_compute; reflexivity).
  split; [apply demo_end_runs|]. split; [exact E|].
  destruct (conversation_ends demo_limit _ demo_end_runs) as (H & _). apply H. left. exact E.
Defined.

(** Both requests read were answered. *)
Lemma requests_answered_once_witness :
  let s := serves (demo_peer (demo_start ++ demo_end)) in
  reachable demo_limit (demo_peer (demo_start ++ demo_end)) ∧ dispatched s = [NumberID 7; NumberID 8] ∧
  omap answered_request (answers s) ++ unanswered s ≡ₚ dispatched s.
Proof.
  split; [apply demo_end_runs|]. split; [vm_compute; reflexivity|].
  destruct (requests_answered_once demo_limit _ demo_end_runs) as (H & _). exact H.
Defined.

Lemma output_in_order_witness :
  let o := out (demo_peer (demo_start ++ demo_end)) in
  reachable demo_limit (demo_peer (demo_start ++ demo_end)) ∧ half_closed o = true ∧ queued o = written o.
Proof.
  assert (E : half_closed (out (demo_peer (demo_start ++ demo_end))) = true) by (vm_compute; reflexivity).
  split; [apply demo_end_runs|]. split; [exact E|].
  destruct (output_in_order demo_limit _ demo_end_runs) as (_ & _ & H & _). by destruct (H E).
Defined.

(** Request 0 was cancelled by its timeout: told, and after it. *)
Lemma cancel_told_once_witness :
  let tags := tag <$> queued (out (demo_peer demo_start)) in
  reachable demo_limit (demo_peer demo_start) ∧ tags = [OfRequest 0; OfAnswer (Some (NumberID 7)); OfCancel 0] ∧
  OfRequest 0 ∈ [OfRequest 0; OfAnswer (Some (NumberID 7))].
Proof.
  assert (E : tag <$> queued (out (demo_peer demo_start)) = [OfRequest 0; OfAnswer (Some (NumberID 7)); OfCancel 0])
    by (vm_compute; reflexivity).
  split; [apply demo_start_runs|]. split; [exact E|].
  destruct (cancel_told_once demo_limit _ demo_start_runs) as (_ & _ & H & _). by apply (H 0 _ []).
Defined.

(** With all it had to do done, the peer waits to read. *)
Lemma peer_waits_for_others_witness :
  let p := demo_peer demo_start in
  reachable demo_limit p ∧ outgoing_queue (out p) = [] ∧ reading (loops p) = AwaitRead.
Proof.
  assert (E : writing (loops (demo_peer demo_start)) = WriteWaiting) by (vm_compute; reflexivity).
  destruct (peer_waits_for_others demo_limit _ demo_start_runs) as (H & _ & _); [vm_compute; reflexivity..|].
  split; [apply demo_start_runs|]. split; [apply H, E|vm_compute; reflexivity].
Defined.
