(* ===== verification/CliTable.v ===== *)
(** The option table of the command line: include/kotatsu/cli/table/ and
    src/cli/table/.

    An argv is a list of byte strings.  A value the parser hands out is a view
    (the source keeps [std::string_view]s): of an element of argv, of the
    iterator's group buffer, which the next step overwrites, or of the
    characters of the table.  [ParsedArg::spelling] is a copy, so it is the text
    itself.  Indices are [nat]; the source counts argv in 32 bits.  Case folding
    is [std::tolower] of the C locale, and [char] is signed, as on the platforms
    the program builds for. *)

From Stdlib Require Import Strings.Byte ZArith Lia Bool.
From stdpp Require Import prelude strings.
From S2P Require Import Prelude Swar Naming.
Local Open Scope kota_scope.
Local Open Scope nat_scope.

(** ** Options *)

Inductive OptionKind :=
  Group | Input | Unknown | Flag | Joined | Separate | CommaJoined | MultiArg
  | JoinedOrSeparate | JoinedAndSeparate | RemainingArgs | RemainingArgsJoined.

Inductive RenderStyle := StyleCommaJoined | StyleJoined | StyleSeparate | StyleValues.

#[export] Instance option_kind_eq_dec : EqDecision OptionKind.
Proof. solve_decision. Defined.

(** [DriverFlag] *)
Definition RenderAsInput : Z := 2.
Definition RenderJoined : Z := 4.
Definition RenderSeparate : Z := 8.

(** [help_text] and [meta_var], which only a usage prints, are left out. *)
Record Option := mkOption {
  prefixes : list bytes;
  prefixed_name : bytes;
  id : nat;
  kind : OptionKind;
  group_id : nat;
  alias_id : nat;
  alias_args : option bytes;
  flags : Z;
  visibility : Z;
  num_args : nat;
}.

Definition has_no_prefix (o : Option) : bool := bool_decide (prefixes o = []).

(** [Option::name]: the name without its first prefix. *)
Definition name (o : Option) : bytes :=
  drop (match prefixes o with [] => 0 | p :: _ => length p end) (prefixed_name o).

Definition unaliased_one (prefixes : list bytes) (prefixed_name : bytes) (id : nat) (kind : OptionKind) (num_args : nat) : Option :=
  mkOption prefixes prefixed_name id kind 0 0 None 0 1 num_args.

Definition unknown (id : nat) : Option := unaliased_one [] (lit "<unknown>") id Unknown 0.
Definition input (id : nat) : Option := unaliased_one [] (lit "<input>") id Input 0.

#[export] Instance option_inhabited : Inhabited Option := populate (unknown 0).

(** [Option::alias_of]: ids are cut to an [unsigned short]. *)
Definition alias_of (o : Option) (origin_id : nat) (origin_args : option bytes) : Option :=
  mkOption (prefixes o) (prefixed_name o) (id o) (kind o) (group_id o) (Z.to_nat (Z.of_nat origin_id mod 2 ^ 16)) origin_args
    (flags o) (visibility o) (num_args o).

(** ** Parsed arguments *)

(** A [std::string_view] the parser hands out. *)
Inductive value :=
| InArgv (i offset size : nat)
| InGroup (offset size : nat)
| InTable (text : bytes).

Record ParsedArg := mkParsed {
  arg_id : nat;
  arg_index : nat;
  next_index : nat;
  spelling : bytes;
  values : list value;
}.

(** [ParsedArg::clear], and what a default one is. *)
Definition cleared : ParsedArg := mkParsed 0 0 0 [] [].

Definition set_next (a : ParsedArg) (n : nat) : ParsedArg := mkParsed (arg_id a) (arg_index a) n (spelling a) (values a).
Definition set_values (a : ParsedArg) (vs : list value) : ParsedArg := mkParsed (arg_id a) (arg_index a) (next_index a) (spelling a) vs.

(** ** The table *)

Record OptTable := mkTable {
  option_infos : list Option;
  prefixes_union : list bytes;
  prefix_chars : bytes;
  input_option_id : nat;
  unknown_option_id : nat;
  first_searchable_index : nat;
  ignore_case : bool;
  tablegen_mode : bool;
  search_includes_input : bool;
}.

(** The order of [std::string_view], and sets in it. *)
Fixpoint bytes_lt (a b : bytes) : bool :=
  match a, b with
  | _, [] => false
  | [], _ => true
  | x :: a', y :: b' => if (uval x <? uval y)%Z then true else if (uval y <? uval x)%Z then false else bytes_lt a' b'
  end.

Fixpoint set_insert {A} (lt : A → A → bool) (x : A) (l : list A) : list A :=
  match l with
  | [] => [x]
  | y :: l' => if lt x y then x :: l else if lt y x then y :: set_insert lt x l' else l
  end.

Definition set_of {A} (lt : A → A → bool) (l : list A) : list A := foldl (λ s x, set_insert lt x s) [] l.

(** [char] is signed. *)
Definition sval (b : byte) : Z := if (uval b <? 128)%Z then uval b else uval b - 256.
Definition char_lt (a b : byte) : bool := (sval a <? sval b)%Z.

(** The loop of the constructor: the ids, and the first searchable index. *)
Fixpoint scan_infos (infos : list Option) (i : nat) (t : nat * nat * option nat) : nat * nat * option nat :=
  match infos with
  | [] => t
  | o :: infos' =>
      let '(inp, unk, first) := t in
      scan_infos infos' (i + 1)
        (match kind o with
         | Input => (id o, unk, first)
         | Unknown => (inp, id o, first)
         | Group => t
         | _ => (inp, unk, match first with None => Some i | _ => first end)
         end)
  end.

Definition new_table (infos : list Option) (ignore_case : bool) (union : list bytes) : OptTable :=
  let '(inp, unk, first) := scan_infos infos 0 (0, 0, None) in
  let first := default 0 first in
  let union := if bool_decide (union = []) then set_of bytes_lt (mjoin (prefixes <$> drop first infos)) else union in
  mkTable infos union (set_of char_lt (mjoin union)) inp unk first ignore_case false false.

(** [OptTable::option]; an id past the table is asserted away. *)
Definition option_at (t : OptTable) (opt_id : nat) : option Option :=
  match opt_id with O => None | S i => option_infos t !! i end.

(** [OptionRef::alias] and [group]. *)
Definition alias (t : OptTable) (o : Option) : option Option := option_at t (alias_id o).
Definition group (t : OptTable) (o : Option) : option Option := option_at t (group_id o).

(** [OptionRef::unaliased_option]; [OptionRef] asserts that an alias is of no
    alias, so the chain is of one step. *)
Fixpoint unaliased_from (fuel : nat) (t : OptTable) (o : Option) : Option :=
  match fuel with
  | O => o
  | S fuel' => match alias t o with Some a => unaliased_from fuel' t a | None => o end
  end.
Definition unaliased_option (t : OptTable) (o : Option) : Option := unaliased_from (S (length (option_infos t))) t o.

(** [OptionRef::matches]: the aliased option, or a group around it. *)
Fixpoint matches_from (fuel : nat) (t : OptTable) (o : Option) (opt_id : nat) : bool :=
  match fuel with
  | O => false
  | S fuel' =>
      match alias t o with
      | Some a => matches_from fuel' t a opt_id
      | None =>
          if id o =? opt_id then true
          else match group t o with Some g => matches_from fuel' t g opt_id | None => false end
      end
  end.
Definition matches (t : OptTable) (o : Option) (opt_id : nat) : bool := matches_from (S (length (option_infos t))) t o opt_id.

Definition has_bits (word bits : Z) : bool := negb (Z.land word bits =? 0)%Z.

Definition render_style (o : Option) : RenderStyle :=
  if has_bits (flags o) RenderJoined then StyleJoined
  else if has_bits (flags o) RenderSeparate then StyleSeparate
  else match kind o with
       | Group | Input | Unknown => StyleValues
       | Joined | JoinedAndSeparate => StyleJoined
       | CommaJoined => StyleCommaJoined
       | Flag | Separate | MultiArg | JoinedOrSeparate | RemainingArgs | RemainingArgsJoined => StyleSeparate
       end.

(** ** What a parse is asked *)

Record ParseOptions := mkOptions {
  grouped_short_options : bool;
  dash_dash_parsing : bool;
  dash_dash_packing : bool;
  greedy_unknown : bool;
  opts_visibility : Z;
  include_flags : Z;
  exclude_flags : Z;
}.

Definition default_options : ParseOptions := mkOptions false false false false (2 ^ 32 - 1) 0 0.

Definition excludes (p : ParseOptions) (o : Option) : bool :=
  if negb (has_bits (visibility o) (opts_visibility p)) then true
  else if negb (include_flags p =? 0)%Z && negb (has_bits (flags o) (include_flags p)) then true
  else negb (exclude_flags p =? 0)%Z && has_bits (flags o) (exclude_flags p).

(** ** Argv, and a group read in place of an element *)

Record Args := mkArgs { list_ : list bytes; overlay : option (nat * bytes) }.

Definition in_overlay (a : Args) (i : nat) : bool := match overlay a with Some (j, _) => i =? j | None => false end.

Definition arg_text (a : Args) (i : nat) : bytes :=
  match overlay a with Some (j, g) => if i =? j then g else list_ a !!! i | None => list_ a !!! i end.

(** A view of bytes of an element. *)
Definition arg_view (a : Args) (i offset size : nat) : value :=
  if in_overlay a i then InGroup offset size else InArgv i offset size.

Definition args_size (a : Args) : nat := length (list_ a).

(** All of an element from an offset on. *)
Definition arg_from (a : Args) (i offset : nat) : value := arg_view a i offset (length (arg_text a i) - offset).

(** ** Names *)

Definition safe_tolower (c : byte) : byte := to_lower c.

Fixpoint starts_with_insensitive (text prefix : bytes) : bool :=
  match prefix, text with
  | [], _ => true
  | p :: prefix', c :: text' => if safe_tolower c =?b safe_tolower p then starts_with_insensitive text' prefix' else false
  | _ :: _, [] => false
  end.

(** [compare_insensitive] and [std::string_view::compare], as signs. *)
Fixpoint compare_insensitive (a b : bytes) : Z :=
  match a, b with
  | x :: a', y :: b' =>
      let c1 := safe_tolower x in
      let c2 := safe_tolower y in
      if c1 =?b c2 then compare_insensitive a' b' else if (sval c1 <? sval c2)%Z then -1 else 1
  | [], [] => 0
  | [], _ => -1
  | _, [] => 1
  end.

Definition compare_bytes (a b : bytes) : Z := if bytes_lt a b then -1 else if bytes_lt b a then 1 else 0.

Definition str_cmp_opt_name (a b : bytes) (fallback_case_sensitive : bool) : Z :=
  let min_sz := length a `min` length b in
  let res := compare_insensitive (take min_sz a) (take min_sz b) in
  if negb (res =? 0)%Z then res
  else if length a =? length b then (if fallback_case_sensitive then compare_bytes a b else 0)
  else if length a =? min_sz then 1 else -1.

Definition opt_name_less (o : Option) (n : bytes) : bool := (str_cmp_opt_name (name o) n false <? 0)%Z.

(** [std::lower_bound]: [n] options from [first]. *)
Fixpoint lower_bound (fuel : nat) (l : list Option) (n : bytes) (first count : nat) : nat :=
  match fuel with
  | O => first
  | S fuel' =>
      if count =? 0 then first
      else
        let half := count / 2 in
        if opt_name_less (l !!! (first + half)) n then lower_bound fuel' l n (first + half + 1) (count - half - 1)
        else lower_bound fuel' l n first half
  end.

(** [ltrim_all_of] *)
Fixpoint ltrim_all_of (str chars : bytes) : bytes :=
  match str with
  | [] => []
  | c :: str' => if existsb (λ x, x =?b c) chars then ltrim_all_of str' chars else str
  end.

Definition is_input (t : OptTable) (arg : bytes) : bool :=
  bool_decide (arg = lit "-") || negb (existsb (λ p, starts_with arg p) (prefixes_union t)).

(** How much of an element an option's prefix and name are, or 0. *)
Fixpoint match_prefixes (ps : list bytes) (n str : bytes) (ignore_case : bool) : nat :=
  match ps with
  | [] => 0
  | p :: ps' =>
      if starts_with str p
         && (let rest := drop (length p) str in if ignore_case then starts_with_insensitive rest n else starts_with rest n)
      then length p + length n else match_prefixes ps' n str ignore_case
  end.

Definition match_opt (o : Option) (str : bytes) (ignore_case : bool) : nat := match_prefixes (prefixes o) (name o) str ignore_case.

(** ** Accepting an option *)

Inductive AcceptResult := Matched | NoMatch | MissingValue.

#[export] Instance accept_result_eq_dec : EqDecision AcceptResult.
Proof. solve_decision. Defined.

(** Where the parts of [rest] between commas are, those that are empty left
    out; [start] is where the part being read began, [i] where the loop is. *)
Fixpoint comma_parts (rest : bytes) (start i : nat) : list (nat * nat) :=
  let part := if start =? i then [] else [(start, i - start)] in
  match rest with
  | [] => part
  | c :: rest' => if c =?b ","%byte then part ++ comma_parts rest' (i + 1) (i + 1) else comma_parts rest' start (i + 1)
  end.

(** The elements from [i] on, [n] of them. *)
Definition elements_from (a : Args) (i n : nat) : list value := (λ j, arg_from a j 0) <$> seq i n.

(** [accept_internal]: the result, the index behind, and the argument. *)
Definition accept_internal (o : Option) (a : Args) (sp : bytes) (index : nat) : AcceptResult * nat * ParsedArg :=
  let spelling_sz := length sp in
  let args_idx_sz := length (arg_text a index) in
  let out i vs := mkParsed 0 i 0 sp vs in
  let none := (NoMatch, index, out 0 []) in
  let rest := arg_from a index spelling_sz in
  match kind o with
  | Flag => if negb (spelling_sz =? args_idx_sz) then none else (Matched, index + 1, out index [])
  | Joined => (Matched, index + 1, out index [rest])
  | CommaJoined =>
      (Matched, index + 1,
       out index ((λ p, arg_view a index p.1 p.2) <$> comma_parts (drop spelling_sz (arg_text a index)) spelling_sz spelling_sz))
  | Separate =>
      if negb (spelling_sz =? args_idx_sz) then none
      else if args_size a <? index + 2 then (MissingValue, index + 2, out index [])
      else (Matched, index + 2, out index [arg_from a (index + 1) 0])
  | MultiArg =>
      if negb (spelling_sz =? args_idx_sz) then none
      else if args_size a <? index + (1 + num_args o) then (MissingValue, index + (1 + num_args o), out index [])
      else (Matched, index + (1 + num_args o), out index (elements_from a (index + 1) (num_args o)))
  | JoinedOrSeparate =>
      if negb (spelling_sz =? args_idx_sz) then (Matched, index + 1, out index [rest])
      else if args_size a <? index + 2 then (MissingValue, index + 2, out index [])
      else (Matched, index + 2, out index [arg_from a (index + 1) 0])
  | JoinedAndSeparate =>
      if args_size a <? index + 2 then (MissingValue, index + 2, out index [])
      else (Matched, index + 2, out index [rest; arg_from a (index + 1) 0])
  | RemainingArgs =>
      if negb (spelling_sz =? args_idx_sz) then none
      else (Matched, args_size a `max` (index + 1), out index (elements_from a (index + 1) (args_size a - (index + 1))))
  | RemainingArgsJoined =>
      (Matched, args_size a `max` (index + 1),
       out index ((if negb (spelling_sz =? args_idx_sz) then [rest] else []) ++ elements_from a (index + 1) (args_size a - (index + 1))))
  | Group | Input | Unknown => none
  end.

(** The strings of an alias's arguments: each ends at a NUL, an empty one ends
    them; the end of the text is a NUL. *)
Fixpoint alias_strings (fuel : nat) (val : bytes) : list bytes :=
  match fuel with
  | O => []
  | S fuel' =>
      let n := default (length val) (find_index (λ c, c =?b x00) val) in
      if n =? 0 then [] else take n val :: alias_strings fuel' (drop (n + 1) val)
  end.

Definition with_id (a : ParsedArg) (i : nat) : ParsedArg := mkParsed i (arg_index a) (next_index a) (spelling a) (values a).
Definition add_values (a : ParsedArg) (vs : list value) : ParsedArg := set_values a (values a ++ vs).

Definition accept_opt (t : OptTable) (o : Option) (a : Args) (sp : bytes) (grouped_short_option : bool) (index : nat)
  : AcceptResult * nat * ParsedArg :=
  let '(result, index', out) :=
    if grouped_short_option && bool_decide (kind o = Flag) then (Matched, index, mkParsed 0 index 0 sp [])
    else accept_internal o a sp index in
  if negb (bool_decide (result = Matched)) then (result, index', out)
  else
    let target := unaliased_option t o in
    if id o =? id target then (Matched, index', with_id out (id o))
    else
      let out := with_id out (id target) in
      if negb (bool_decide (kind o = Flag)) then (Matched, index', out)
      else
        let out :=
          match alias_args o with
          | Some val => add_values out (InTable <$> alias_strings (S (length val)) val)
          | None => if bool_decide (kind target = Joined) then add_values out [InTable []] else out
          end in
        (Matched, index', out).

(** ** Searching the table *)

Definition search_range (t : OptTable) : list Option :=
  drop (if search_includes_input t then 0 else first_searchable_index t) (option_infos t).

Record ScanResult := mkScan { result : AcceptResult; scan_out : ParsedArg; new_index : nat; fallback_flag : option Option }.

(** What the loop of [scan_and_accept] carries: the best match and the best
    option missing its value, each with its size and the index behind it. *)
Record scanning := mkScanning {
  best_out : ParsedArg;
  best_match_size : nat;
  best_index : nat;
  missing_match_size : nat;
  missing_index : nat;
  flag : option Option;
}.

Fixpoint scan_loop (t : OptTable) (opts : list Option) (a : Args) (index : nat) (first_match : bool) (p : ParseOptions) (s : scanning)
  : ScanResult :=
  match opts with
  | [] =>
      if 0 <? best_match_size s then mkScan Matched (best_out s) (best_index s) (flag s)
      else if negb (missing_match_size s =? 0) then
        mkScan MissingValue (mkParsed 0 index 0 [] []) (missing_index s) (flag s)
      else mkScan NoMatch cleared 0 (flag s)
  | o :: opts' =>
      let arg_sz := match_opt o (arg_text a index) (ignore_case t) in
      if (arg_sz =? 0) || excludes p o then scan_loop t opts' a index first_match p s
      else
        let '(r, try_index, try_out) := accept_opt t o a (take arg_sz (arg_text a index)) false index in
        if bool_decide (r = Matched) then
          if first_match then mkScan Matched try_out try_index (flag s)
          else
            scan_loop t opts' a index first_match p
              (if best_match_size s <? arg_sz
               then mkScanning try_out arg_sz try_index (missing_match_size s) (missing_index s) (flag s) else s)
        else
          let s := if (arg_sz =? 2) && bool_decide (kind o = Flag)
                   then mkScanning (best_out s) (best_match_size s) (best_index s) (missing_match_size s) (missing_index s) (Some o) else s in
          if negb (try_index =? index) then
            if first_match then mkScan MissingValue (mkParsed 0 index 0 [] []) try_index (flag s)
            else
              scan_loop t opts' a index first_match p
                (if missing_match_size s <? arg_sz
                 then mkScanning (best_out s) (best_match_size s) (best_index s) arg_sz try_index (flag s) else s)
          else scan_loop t opts' a index first_match p s
  end.

Definition scan_and_accept (t : OptTable) (range : list Option) (a : Args) (index : nat) (first_match : bool) (p : ParseOptions) : ScanResult :=
  let opts :=
    if tablegen_mode t
    then drop (lower_bound (S (length range)) range (ltrim_all_of (arg_text a index) (prefix_chars t)) 0 (length range)) range
    else range in
  scan_loop t opts a index first_match p (mkScanning cleared 0 index 0 index None).

Definition joins (k : OptionKind) : bool :=
  match k with Joined | CommaJoined | JoinedOrSeparate | JoinedAndSeparate | RemainingArgsJoined => true | _ => false end.

Definition is_known_option (range : list Option) (arg : bytes) (t : OptTable) (p : ParseOptions) : bool :=
  existsb (λ o,
    let arg_sz := match_opt o arg (ignore_case t) in
    negb (arg_sz =? 0) && ((arg_sz =? length arg) || joins (kind o)) && negb (excludes p o)) range.

(** How many elements an unknown option takes: [consume_unknown_values]. *)
Fixpoint unknown_values (fuel : nat) (t : OptTable) (range : list Option) (a : Args) (index : nat) (p : ParseOptions) : nat :=
  match fuel with
  | O => 0
  | S fuel' =>
      if index <? args_size a then
        let next := arg_text a index in
        if bool_decide (next = lit "--") then 0
        else if negb (is_input t next) && is_known_option range next t p then 0
        else S (unknown_values fuel' t range a (index + 1) p)
      else 0
  end.

Definition consume_unknown_values (t : OptTable) (range : list Option) (a : Args) (index : nat) (out : ParsedArg) (p : ParseOptions)
  : nat * ParsedArg :=
  let n := unknown_values (args_size a - index) t range a index p in
  (index + n, add_values out (elements_from a index n)).

(** ** One step *)

Definition unknown_step (t : OptTable) (a : Args) (index : nat) (p : ParseOptions) : nat * ParsedArg :=
  let str := arg_text a index in
  let out := mkParsed (unknown_option_id t) index 0 str [] in
  if greedy_unknown p && negb (bool_decide (str = lit "--")) then consume_unknown_values t (search_range t) a (index + 1) out p
  else (index + 1, out).

Definition parse_step (t : OptTable) (a : Args) (index : nat) (p : ParseOptions) : AcceptResult * nat * ParsedArg :=
  let str := arg_text a index in
  let as_input := (Matched, index + 1, mkParsed (input_option_id t) index 0 str []) in
  if is_input t str then as_input
  else
    let scan := scan_and_accept t (search_range t) a index (tablegen_mode t) p in
    match result scan with
    | Matched => (Matched, new_index scan, scan_out scan)
    | MissingValue => (MissingValue, new_index scan, mkParsed 0 index 0 [] [])
    | NoMatch =>
        if str !!! 0 =?b "/"%byte then as_input
        else let '(index', out) := unknown_step t a index p in (Matched, index', out)
    end.

(** [parse_step_grouped], with the rest of the group. *)
Definition parse_step_grouped (t : OptTable) (a : Args) (index : nat) (p : ParseOptions) : (AcceptResult * nat * ParsedArg) * bytes :=
  let str := arg_text a index in
  if is_input t str then ((Matched, index + 1, mkParsed (input_option_id t) index 0 str []), [])
  else
    let scan := scan_and_accept t (search_range t) a index true p in
    match result scan with
    | Matched => ((Matched, new_index scan, scan_out scan), [])
    | MissingValue => ((MissingValue, new_index scan, mkParsed 0 index 0 [] []), [])
    | NoMatch =>
        match fallback_flag scan with
        | Some o =>
            if str !!! 2 =?b "="%byte then ((Matched, index + 1, mkParsed (unknown_option_id t) index 0 str []), [])
            else
              let '(_, index', out) := accept_opt t o a (take 2 str) true index in
              ((Matched, index', out), drop 2 str)
        | None =>
            if (1 <? length str) && negb (str !!! 1 =?b "-"%byte) then
              let out := mkParsed (unknown_option_id t) index 0 (take 2 str) [] in
              if 2 <? length str then ((Matched, index, out), drop 2 str) else ((Matched, index + 1, out), [])
            else let '(index', out) := unknown_step t a index p in ((Matched, index', out), [])
        end
    end.

(** Values in the group buffer, put where they are in the element. *)
Definition rebase_value (group element : bytes) (index : nat) (v : value) : value :=
  match v with
  | InGroup offset size => let from_end := length group - offset in InArgv index (length element - from_end) size
  | _ => v
  end.

Definition rebase_group_values (out : ParsedArg) (group element : bytes) (index : nat) : ParsedArg :=
  set_values out (rebase_value group element index <$> values out).

(** ** Iterating *)

Record Error := mkError { error_message : bytes; error_argv : list bytes; error_begin : nat; error_end : nat }.

(** [detail::error_at] with the kind [MissingValue]. *)
Definition missing_value (argv : list bytes) (begin end_ : nat) : Error :=
  mkError (lit "missing argument value") argv begin end_.

Record ParseIter := mkIter {
  index : nat;
  done_ : bool;
  current : expected ParsedArg Error;
  group_buf : bytes;
  past_dash_dash : bool;
}.

Section Iter.
Variables (t : OptTable) (argv : list bytes) (p : ParseOptions).

Definition new_iter : ParseIter := mkIter 0 false (Ok cleared) [] false.

(** What [advance] gives for a step's result. *)
Definition give (r : AcceptResult) (out : ParsedArg) (index' : nat) : expected ParsedArg Error :=
  match r with
  | MissingValue => Err (missing_value argv (arg_index out) (arg_index out + 1))
  | _ => Ok (set_next out index')
  end.

(** The step of [advance] at an element that is not behind a [--]. *)
Definition advance_option (it : ParseIter) : ParseIter :=
  let i := index it in
  if negb (grouped_short_options p) then
    let '(r, i', out) := parse_step t (mkArgs argv None) i p in
    mkIter i' false (give r out i') (group_buf it) (past_dash_dash it)
  else
    let in_group := negb (bool_decide (group_buf it = [])) in
    let '((r, i', out), rest) := parse_step_grouped t (mkArgs argv (if in_group then Some (i, group_buf it) else None)) i p in
    let out := if in_group then rebase_group_values out (group_buf it) (argv !!! arg_index out) (arg_index out) else out in
    mkIter i' false (give r out i') (if bool_decide (rest = []) then [] else lit "-" ++ rest) (past_dash_dash it).

(** [advance] at an element behind a [--]. *)
Definition advance_input (it : ParseIter) : ParseIter :=
  let i := index it in
  mkIter (i + 1) false (Ok (mkParsed (input_option_id t) i (i + 1) (argv !!! i) [])) (group_buf it) true.

Definition advance (it : ParseIter) : ParseIter :=
  if done_ it then it
  else
    let i := index it in
    let finished it := mkIter (index it) true (current it) (group_buf it) (past_dash_dash it) in
    if i <? length argv then
      if negb (past_dash_dash it) && dash_dash_parsing p && bool_decide (argv !!! i = lit "--") then
        if dash_dash_packing p then
          mkIter (length argv) false
            (Ok (mkParsed (input_option_id t) i (length argv) (lit "--")
                  ((λ j, InArgv j 0 (length (argv !!! j))) <$> seq (i + 1) (length argv - (i + 1))))) (group_buf it) true
        else
          let it := mkIter (i + 1) false (current it) (group_buf it) true in
          if i + 1 <? length argv then advance_input it else finished it
      else if past_dash_dash it then advance_input it
      else advance_option it
    else finished it.

(** [OptTable::parse]: what the iterator gives, from its first to its last. *)
Fixpoint parse_from (fuel : nat) (it : ParseIter) : option (list (expected ParsedArg Error)) :=
  match fuel with
  | O => None
  | S fuel' =>
      let it := advance it in
      if done_ it then Some [] else cons (current it) <$> parse_from fuel' it
  end.

(** Enough steps for every byte and every element. *)
Definition parse_fuel : nat := S (foldr (λ s n, length s + 1 + n) 0 argv).

Definition parse : list (expected ParsedArg Error) := default [] (parse_from parse_fuel new_iter).
End Iter.

(** ** Finding, and writing back *)

(** [OptTable::find_option] *)
Definition find_option (t : OptTable) (argument : bytes) (vis : Z) : option Option :=
  let arg_str := if ends_with argument (lit "=") then argument ++ lit "placeholder" else argument in
  let scan := scan_and_accept t (search_range t) (mkArgs [arg_str; lit "placeholder"] None) 0 false
    (mkOptions false false false false vis 0 0) in
  match result scan with Matched => option_at t (arg_id (scan_out scan)) | _ => None end.

(** The text of a view. *)
Definition value_text (argv : list bytes) (group : bytes) (v : value) : bytes :=
  match v with
  | InArgv i offset size => substr (argv !!! i) offset size
  | InGroup offset size => substr group offset size
  | InTable text => text
  end.

(** [OptTable::render], on the texts of the argument's values. *)
Definition render (t : OptTable) (arg_id : nat) (spelling : bytes) (vs : list bytes) : list bytes :=
  match option_at t arg_id with
  | None => spelling :: vs
  | Some o =>
      match kind o with
      | Input | Unknown => spelling :: vs
      | _ =>
          if has_bits (flags o) RenderAsInput then vs
          else
            let n := prefixed_name (unaliased_option t o) in
            match render_style o with
            | StyleValues => vs
            | StyleJoined => (n ++ default [] (vs !! 0)) :: drop 1 vs
            | StyleSeparate => n :: vs
            | StyleCommaJoined => [n ++ mjoin (imap (λ i v, if i =? 0 then v else ","%byte :: v) vs)]
            end
      end
  end.

(** ** A small table *)

Definition demo_table : OptTable :=
  let d := [lit "-"] in
  let dd := [lit "--"] in
  new_table
    [input 1; unknown 2; unaliased_one d (lit "-a") 3 Flag 0; unaliased_one d (lit "-b") 4 Flag 0;
     unaliased_one d (lit "-o") 5 JoinedOrSeparate 0; unaliased_one dd (lit "--list,") 6 CommaJoined 0;
     unaliased_one dd (lit "--out") 7 Separate 0;
     alias_of (unaliased_one dd (lit "--all") 8 Flag 0) 6 (Some (lit "x"));
     unaliased_one dd (lit "--run") 9 RemainingArgs 0] false [].

Definition grouped_options : ParseOptions := mkOptions true true true false (2 ^ 32 - 1) 0 0.

(** Ids, indices and texts of what is parsed. *)
Definition parsed_texts (t : OptTable) (argv : list bytes) (p : ParseOptions) : list (option (nat * nat * bytes * list bytes)) :=
  (λ r, match r with
        | Ok out => Some (arg_id out, arg_index out, spelling out, value_text argv [] <$> values out)
        | Err _ => None
        end) <$> parse t argv p.

Example parse_demo :
  parsed_texts demo_table [lit "-abofile"; lit "x"; lit "--list,p,,q"; lit "--all"; lit "--"; lit "-a"] grouped_options =
    [Some (3, 0, lit "-a", []); Some (4, 0, lit "-b", []); Some (5, 0, lit "-o", [lit "file"]); Some (1, 1, lit "x", []);
     Some (6, 2, lit "--list,", [lit "p"; lit "q"]); Some (6, 3, lit "--all", [lit "x"]); Some (1, 4, lit "--", [lit "-a"])] ∧
  parsed_texts demo_table [lit "--bogus"; lit "--out"] default_options = [Some (2, 0, lit "--bogus", []); None].
Proof. vm_compute. done. Qed.
