(* ===== verification/CliParse.v ===== *)
(** Parsing with an option table ends, takes every element of argv once and in
    order, and hands out views of argv only. *)

From Stdlib Require Import Strings.Byte ZArith Lia Bool.
From stdpp Require Import prelude strings.
From S2P Require Import Prelude Swar Naming CliTable.
Local Open Scope kota_scope.
Local Open Scope nat_scope.

(** ** Sizes of matches *)

Lemma begins_length {A} `{EqDecision A} (s p : list A) : starts_with s p = true → length p ≤ length s.
Proof. unfold starts_with. rewrite bool_decide_eq_true. intros E. rewrite <- E, length_take. lia. Qed.

Lemma insensitive_length text p : starts_with_insensitive text p = true → length p ≤ length text.
Proof.
  revert text. induction p as [|c p IH]; intros [|d text]; cbn; try done; [lia|]. destruct (_ =?b _); [|done]. intros H%IH. lia.
Qed.

Lemma match_opt_le o str ic : match_opt o str ic ≤ length str.
Proof.
  unfold match_opt. induction (prefixes o) as [|p ps IH]; cbn [match_prefixes]; [lia|]. case_if; [|done].
  bool_prop. assert (length (name o) ≤ length (drop (length p) str)).
  { destruct ic; [by apply insensitive_length|by apply begins_length]. }
  apply begins_length in H. rewrite length_drop in *. lia.
Qed.

(** ** Views *)

(** A view of bytes there are; one of the group lies behind its dash. *)
Definition value_ok (a : Args) (v : value) : Prop :=
  match v with
  | InArgv i offset size => i < args_size a ∧ offset + size ≤ length (list_ a !!! i)
  | InGroup offset size => 1 ≤ offset ∧ ∃ i g, overlay a = Some (i, g) ∧ offset + size ≤ length g
  | InTable _ => True
  end.

Definition group_text (a : Args) : bytes := match overlay a with Some (_, g) => g | None => [] end.

Definition text_of (a : Args) (v : value) : bytes := value_text (list_ a) (group_text a) v.

Definition from_argv (v : value) : bool := match v with InTable _ => false | _ => true end.

(** The texts of the values that are in argv. *)
Definition own_texts (a : Args) (vs : list value) : list bytes := text_of a <$> List.filter from_argv vs.

Lemma arg_view_ok a i offset size :
  i < args_size a → (in_overlay a i = true → 1 ≤ offset) → offset + size ≤ length (arg_text a i) → value_ok a (arg_view a i offset size).
Proof.
  intros Hi Ho H. unfold arg_view, arg_text, in_overlay in *. destruct (overlay a) as [[j g]|] eqn:E.
  - destruct (i =? j) eqn:Ej; cbn [value_ok]; [split; [by apply Ho|by exists j, g]|done].
  - done.
Qed.

Lemma arg_view_text a i offset size : text_of a (arg_view a i offset size) = substr (arg_text a i) offset size.
Proof.
  unfold text_of, arg_view, arg_text, in_overlay, group_text. destruct (overlay a) as [[j g]|]; [|done]. by destruct (i =? j).
Qed.

Lemma arg_from_text a i offset : text_of a (arg_from a i offset) = drop offset (arg_text a i).
Proof. unfold arg_from. rewrite arg_view_text. unfold substr. apply take_ge. by rewrite length_drop. Qed.

Lemma from_argv_view a i offset size : from_argv (arg_view a i offset size) = true.
Proof. unfold arg_view. by destruct (in_overlay a i). Qed.

Lemma own_texts_view a i offset size vs : own_texts a (arg_view a i offset size :: vs) = substr (arg_text a i) offset size :: own_texts a vs.
Proof. unfold own_texts. cbn [List.filter]. rewrite from_argv_view. cbn [fmap list_fmap]. by rewrite arg_view_text. Qed.

Lemma own_texts_from a i offset vs : own_texts a (arg_from a i offset :: vs) = drop offset (arg_text a i) :: own_texts a vs.
Proof. unfold arg_from. rewrite own_texts_view. unfold substr. by rewrite take_ge by (by rewrite length_drop). Qed.

Lemma own_texts_app a vs ws : own_texts a (vs ++ ws) = own_texts a vs ++ own_texts a ws.
Proof. unfold own_texts. by rewrite List.filter_app, fmap_app. Qed.

Lemma own_texts_table a l : own_texts a (InTable <$> l) = [].
Proof. induction l as [|x l IH]; [done|]. exact IH. Qed.

Lemma comma_parts_ok rest start i :
  start ≤ i → Forall (λ q, start ≤ q.1 ∧ 0 < q.2 ∧ q.1 + q.2 ≤ i + length rest) (comma_parts rest start i).
Proof.
  revert start i. induction rest as [|c rest IH]; intros start i Hle; cbn [comma_parts].
  - destruct (Nat.eqb_spec start i); [constructor|]. rewrite Forall_singleton. cbn. lia.
  - destruct (c =?b ","%byte).
    + rewrite Forall_app. split.
      * destruct (Nat.eqb_spec start i); [constructor|]. rewrite Forall_singleton. cbn. lia.
      * eapply Forall_impl; [apply IH; lia|]. intros q. cbn. lia.
    + eapply Forall_impl; [apply IH; lia|]. intros q. cbn. lia.
Qed.

(** The parts of a text between commas. *)
Fixpoint split_commas (s : bytes) : list bytes :=
  match s with
  | [] => [[]]
  | c :: s' =>
      if c =?b ","%byte then [] :: split_commas s'
      else match split_commas s' with w :: ws => (c :: w) :: ws | [] => [[c]] end
  end.

Definition comma_texts (s : bytes) : list bytes := List.filter (λ w, negb (bool_decide (w = []))) (split_commas s).

(** Reading on from inside a part. *)
Lemma comma_parts_text (str rest : bytes) start i :
  start ≤ i ≤ length str → drop i str = rest →
  (λ q, substr str q.1 q.2) <$> comma_parts rest start i =
  List.filter (λ w, negb (bool_decide (w = [])))
    (match split_commas rest with w :: ws => (substr str start (i - start) ++ w) :: ws | [] => [] end).
Proof.
  intros Hle E. revert start i Hle E. induction rest as [|c rest IH]; intros start i Hle E.
  - assert (Hlen : length str ≤ i) by (rewrite <- Nat.sub_0_le, <- length_drop, E; done). cbn [comma_parts split_commas]. rewrite app_nil_r. cbn [List.filter].
    destruct (Nat.eqb_spec start i) as [->|Hne]; [rewrite Nat.sub_diag; by unfold substr; rewrite take_0|].
    destruct (substr str start (i - start)) as [|x xs] eqn:Et; [|cbn [bool_decide negb fmap list_fmap fst snd]; rewrite bool_decide_false by done; cbn [negb]; by rewrite Et].
    exfalso. apply (f_equal length) in Et. rewrite length_substr in Et. cbn in Et. lia.
  - assert (Hd : drop (i + 1) str = rest) by (rewrite <- drop_drop, E; done).
    assert (Hc : str !! i = Some c) by (rewrite <- (Nat.add_0_r i), <- lookup_drop, E; done).
    assert (Hlt : i < length str) by (by apply lookup_lt_Some in Hc). cbn [comma_parts split_commas]. destruct (c =?b ","%byte) eqn:Ec.
    + rewrite fmap_app, IH, app_nil_r by (done || lia). rewrite Nat.sub_diag. unfold substr at 2. rewrite take_0. cbn [List.filter app].
      assert (Hrest : match split_commas rest with w :: ws => w :: ws | [] => [] end = split_commas rest) by (by destruct (split_commas rest)).
      assert (Hsame : match split_commas rest with w :: ws => ([] ++ w) :: ws | [] => [] end = split_commas rest) by (by destruct (split_commas rest)).
      cbn [app] in Hsame. rewrite Hsame.
      destruct (Nat.eqb_spec start i) as [->|Hne]; [rewrite Nat.sub_diag; unfold substr; by rewrite take_0|].
      destruct (substr str start (i - start)) as [|x xs] eqn:Et.
      { exfalso. apply (f_equal length) in Et. rewrite length_substr in Et. cbn in Et. lia. }
      rewrite bool_decide_false by done. cbn [negb fmap list_fmap fst snd app]. by rewrite Et.
    + rewrite IH by (done || lia). destruct (split_commas rest) as [|w ws] eqn:Es.
      { exfalso. destruct rest as [|d rest]; [done|]. cbn in Es. destruct (d =?b _); [done|]. by destruct (split_commas rest). }
      do 2 f_equal. replace (i + 1 - start) with ((i - start) + 1) by lia. unfold substr. rewrite <- (take_drop (i - start) (drop start str)) at 1.
      rewrite take_app_add' by (rewrite length_take, length_drop; lia). rewrite drop_drop. replace (start + (i - start)) with i by lia.
      rewrite E. cbn. by rewrite <- app_assoc.
Qed.

(** ** Accepting *)

Section Accept.
Variables (t : OptTable) (a : Args) (index : nat).
Hypothesis Hindex : index < args_size a.
Hypothesis Hover : ∀ j g, overlay a = Some (j, g) → j = index.

Lemma later_element j : index < j → in_overlay a j = false ∧ arg_text a j = list_ a !!! j.
Proof.
  intros Hj. unfold in_overlay, arg_text. destruct (overlay a) as [[k g]|] eqn:E; [|done]. rewrite (Hover k g eq_refl).
  by rewrite (proj2 (Nat.eqb_neq j index)) by lia.
Qed.

Lemma elements_ok i n : index < i → i + n ≤ args_size a → Forall (value_ok a) (elements_from a i n).
Proof.
  intros Hi H. unfold elements_from. rewrite Forall_fmap, Forall_forall. intros j [? ?]%elem_of_seq.
  apply arg_view_ok; [lia| |lia]. by rewrite (proj1 (later_element j ltac:(lia))).
Qed.

Lemma elements_texts i n : index < i → i + n ≤ args_size a → own_texts a (elements_from a i n) = substr (list_ a) i n.
Proof.
  revert i. induction n as [|n IH]; intros i Hi H; [done|]. unfold elements_from in *. cbn [seq fmap list_fmap]. rewrite own_texts_from, drop_0, IH by lia.
  rewrite (proj2 (later_element i Hi)). unfold substr, args_size in *. rewrite (drop_S _ (list_ a !!! i) i); [done|]. apply list_lookup_lookup_total_lt. lia.
Qed.

(** How an argument is written in an element's text and the elements behind
    it: as it is, or its values joined by commas. *)
Inductive written (cur : bytes) (more : list bytes) (out : ParsedArg) : Prop :=
| written_plain : spelling out ++ mjoin (own_texts a (values out)) = cur ++ mjoin more → written cur more out
| written_commas rest :
    cur = spelling out ++ rest → more = [] → own_texts a (values out) = comma_texts rest → written cur more out.

(** What a result says of the index behind it and of the argument. *)
Definition accepted (r : AcceptResult) (i' : nat) (out : ParsedArg) : Prop :=
  match r with
  | Matched =>
      index < i' ≤ args_size a ∧ arg_index out = index ∧ Forall (value_ok a) (values out) ∧
      written (arg_text a index) (substr (list_ a) (index + 1) (i' - (index + 1))) out
  | MissingValue => args_size a < i'
  | NoMatch => i' = index
  end.

Lemma substr_none {A} (l : list A) i : substr l i 0 = [].
Proof. apply take_0. Qed.

Lemma substr_one {A} `{Inhabited A} (l : list A) i : i < length l → substr l i 1 = [l !!! i].
Proof. intros Hi. unfold substr. rewrite (drop_S _ (l !!! i) i); [done|]. by apply list_lookup_lookup_total_lt. Qed.

Lemma accept_internal_ok o sz :
  0 < sz ≤ length (arg_text a index) →
  let '(r, i', out) := accept_internal o a (take sz (arg_text a index)) index in accepted r i' out.
Proof.
  intros Hsz. set (cur := arg_text a index) in *. assert (Hlen : length (take sz cur) = sz) by (rewrite length_take; lia).
  assert (Hrest : value_ok a (arg_from a index sz)) by (apply arg_view_ok; [done|lia|unfold cur in *; lia]).
  assert (Hnext : index + 2 ≤ args_size a → value_ok a (arg_from a (index + 1) 0)).
  { intros H. apply arg_view_ok; [lia| |lia]. by rewrite (proj1 (later_element (index + 1) ltac:(lia))). }
  assert (Etext : arg_text a (index + 1) = list_ a !!! (index + 1)) by (apply later_element; lia).
  assert (Hnone : index + 1 - (index + 1) = 0) by lia. assert (Htwo : index + 2 - (index + 1) = 1) by lia.
  unfold accept_internal. fold cur. rewrite Hlen. unfold accepted. fold cur.
  assert (Hall : ∀ n, take n cur = cur → spelling (mkParsed 0 index 0 (take n cur) []) = cur) by (intros n E; exact E).
  assert (Hfull : sz = length cur → take sz cur = cur) by (intros ->; apply take_ge; lia).
  assert (Hplain : ∀ vs n, sz = length cur → index + 1 + n ≤ args_size a → own_texts a vs = substr (list_ a) (index + 1) n →
    written cur (substr (list_ a) (index + 1) n) (mkParsed 0 index 0 (take sz cur) vs)).
  { intros vs n E Hn Ev. apply written_plain. cbn [spelling values]. by rewrite Hfull, Ev. }
  assert (Hjoin : ∀ vs n, own_texts a vs = substr (list_ a) (index + 1) n →
    written cur (substr (list_ a) (index + 1) n) (mkParsed 0 index 0 (take sz cur) (arg_from a index sz :: vs))).
  { intros vs n Ev. apply written_plain. cbn [spelling values]. rewrite own_texts_from, Ev. fold cur. cbn [mjoin list_join]. by rewrite app_assoc, take_drop. }
  assert (Hone : index + 2 ≤ args_size a → own_texts a [arg_from a (index + 1) 0] = substr (list_ a) (index + 1) 1).
  { intros H. rewrite own_texts_from, drop_0, Etext, substr_one by (unfold args_size in *; lia). done. }
  assert (Hmany : ∀ n, index + 1 + n ≤ args_size a → own_texts a (elements_from a (index + 1) n) = substr (list_ a) (index + 1) n).
  { intros n H. apply elements_texts; lia. }
  assert (Hmore : ∀ n, index + 1 + n ≤ args_size a → Forall (value_ok a) (elements_from a (index + 1) n)) by (intros n H; apply elements_ok; lia).
  destruct (kind o) eqn:Ek; cbn [accepted]; try done.
  - (* Flag *) destruct (Nat.eqb_spec sz (length cur)); [|done]. cbn. rewrite Hnone. repeat split; try lia; [by constructor|]. apply Hplain; [done|lia|done].
  - (* Joined *) rewrite Hnone. repeat split; try lia; [by repeat constructor|]. by apply Hjoin.
  - (* Separate *) destruct (Nat.eqb_spec sz (length cur)); [|done]. cbn [negb]. destruct (Nat.ltb_spec (args_size a) (index + 2)); [done|].
    rewrite Htwo. repeat split; try lia; [constructor; [by apply Hnext|done]|]. apply Hplain; [done|lia|by apply Hone].
  - (* CommaJoined *) rewrite Hnone. repeat split; try lia.
    + cbn [values]. rewrite Forall_fmap. eapply Forall_impl; [apply (comma_parts_ok _ sz); lia|]. intros q (? & ? & Hq). rewrite length_drop in Hq.
      apply arg_view_ok; [done|lia|]. fold cur. lia.
    + apply written_commas with (drop sz cur); [cbn [spelling]; by rewrite take_drop|apply substr_none|]. cbn [values].
      assert (Ho : ∀ l, own_texts a ((λ q, arg_view a index q.1 q.2) <$> l) = (λ q, substr cur q.1 q.2) <$> l).
      { induction l as [|q l IHl]; [done|]. cbn [fmap list_fmap]. rewrite own_texts_view. fold cur. f_equal. exact IHl. }
      rewrite Ho, (comma_parts_text cur) by (done || lia). rewrite Nat.sub_diag, substr_none. unfold comma_texts.
      f_equal. cbn. by destruct (split_commas (drop sz cur)).
  - (* MultiArg *) destruct (Nat.eqb_spec sz (length cur)); [|done]. cbn [negb]. destruct (Nat.ltb_spec (args_size a) (index + (1 + num_args o))); [done|].
    replace (index + (1 + num_args o) - (index + 1)) with (num_args o) by lia.
    repeat split; try lia; [apply Hmore; lia|]. apply Hplain; [done|lia|apply Hmany; lia].
  - (* JoinedOrSeparate *) destruct (Nat.eqb_spec sz (length cur)); cbn [negb].
    + destruct (Nat.ltb_spec (args_size a) (index + 2)); [done|]. rewrite Htwo. repeat split; try lia; [constructor; [by apply Hnext|done]|].
      apply Hplain; [done|lia|by apply Hone].
    + rewrite Hnone. repeat split; try lia; [by repeat constructor|]. by apply Hjoin.
  - (* JoinedAndSeparate *) destruct (Nat.ltb_spec (args_size a) (index + 2)); [done|]. rewrite Htwo. repeat split; try lia; [repeat constructor; [done|by apply Hnext]|].
    apply Hjoin. by apply Hone.
  - (* RemainingArgs *) destruct (Nat.eqb_spec sz (length cur)); [|done]. cbn [negb]. rewrite Nat.max_l by lia.
    repeat split; try lia; [apply Hmore; lia|]. apply Hplain; [done|lia|apply Hmany; lia].
  - (* RemainingArgsJoined *) rewrite Nat.max_l by lia. destruct (Nat.eqb_spec sz (length cur)); cbn [negb app].
    + repeat split; try lia; [apply Hmore; lia|]. apply Hplain; [done|lia|apply Hmany; lia].
    + repeat split; try lia; [constructor; [done|apply Hmore; lia]|]. apply Hjoin, Hmany. lia.
Qed.

(** Nothing an alias adds is in argv. *)
Lemma written_add cur more out i l : written cur more out → written cur more (add_values (with_id out i) (InTable <$> l)).
Proof.
  assert (E : own_texts a (values out ++ (InTable <$> l)) = own_texts a (values out)) by (by rewrite own_texts_app, own_texts_table, app_nil_r).
  intros [H|rest H1 H2 H3]; [apply written_plain|apply written_commas with rest]; cbn [spelling values add_values set_values with_id]; by rewrite ?E.
Qed.

Lemma written_id cur more out i : written cur more out → written cur more (with_id out i).
Proof. intros [H|rest H1 H2 H3]; [by apply written_plain|by apply written_commas with rest]. Qed.

(** An option, behind its alias. *)
Lemma accept_opt_ok o sz :
  0 < sz ≤ length (arg_text a index) →
  let '(r, i', out) := accept_opt t o a (take sz (arg_text a index)) false index in accepted r i' out.
Proof.
  intros Hsz. unfold accept_opt. cbn [andb]. pose proof (accept_internal_ok o sz Hsz) as H.
  destruct (accept_internal o a _ index) as [[r i'] out]. destruct r; cbn [bool_decide negb]; rewrite ?bool_decide_true, ?bool_decide_false by done; cbn [negb]; try done.
  destruct H as (H1 & H2 & H3 & H4). pose proof (λ i, written_id _ _ _ i H4) as H5. destruct (id o =? _); [done|]. destruct (negb _); [done|].
  assert (Hadd : ∀ i l, accepted Matched i' (add_values (with_id out i) (InTable <$> l))).
  { intros i l. split; [done|]. split; [done|]. split; [|by apply written_add]. cbn [values add_values set_values with_id]. rewrite Forall_app, Forall_fmap.
    split; [done|]. apply Forall_forall. done. }
  destruct (alias_args o) as [val|]; [apply Hadd|]. case_bool_decide; [exact (Hadd (id (unaliased_option t o)) [[]])|done].
Qed.

(** A flag at the start of a group. *)
Lemma accept_grouped_ok o sp :
  kind o = Flag →
  let '(r, i', out) := accept_opt t o a sp true index in
  r = Matched ∧ i' = index ∧ arg_index out = index ∧ spelling out = sp ∧ Forall (value_ok a) (values out) ∧ own_texts a (values out) = [].
Proof.
  intros Hk. unfold accept_opt. rewrite bool_decide_true by done. cbn [andb]. rewrite bool_decide_true by done. cbn [negb].
  destruct (id o =? _); [by repeat split; try constructor|]. cbn [bool_decide negb].
  assert (Hstr : ∀ l, Forall (value_ok a) (InTable <$> l)) by (intros l; rewrite Forall_fmap; by apply Forall_forall).
  destruct (alias_args o); [|case_bool_decide]; cbn; repeat split; try done; [apply own_texts_table|by repeat constructor].
Qed.
End Accept.

(** ** Scanning the options *)

Section Scan.
Variables (t : OptTable) (a : Args) (index : nat) (p : ParseOptions).
Hypothesis Hindex : index < args_size a.
Hypothesis Hover : ∀ j g, overlay a = Some (j, g) → j = index.

(** What an option makes of the element: how much of it names the option, and
    what accepting it gives. *)
Definition attempt (o : Option) : option (nat * (AcceptResult * nat * ParsedArg)) :=
  let arg_sz := match_opt o (arg_text a index) (ignore_case t) in
  if (arg_sz =? 0) || excludes p o then None
  else Some (arg_sz, accept_opt t o a (take arg_sz (arg_text a index)) false index).

Lemma attempt_ok o sz r i' out :
  attempt o = Some (sz, (r, i', out)) → 0 < sz ≤ length (arg_text a index) ∧ excludes p o = false ∧ accepted a index r i' out.
Proof.
  unfold attempt. case_if; [done|]. bool_prop. pose proof (match_opt_le o (arg_text a index) (ignore_case t)) as Hle. intros [= <- E].
  split; [lia|]. split; [done|]. pose proof (accept_opt_ok t a index Hindex Hover o (match_opt o (arg_text a index) (ignore_case t)) ltac:(lia)) as Ha.
  by rewrite E in Ha.
Qed.

(** The options of [l] with the result [want], the longest first among equals. *)
Definition best (want : AcceptResult) (l : list Option) (sz i' : nat) (out : ParsedArg) : Prop :=
  ∃ l1 o l2, l = l1 ++ o :: l2 ∧ attempt o = Some (sz, (want, i', out)) ∧
    (∀ o' sz' i'' out', o' ∈ l1 → attempt o' = Some (sz', (want, i'', out')) → sz' < sz) ∧
    (∀ o' sz' i'' out', o' ∈ l2 → attempt o' = Some (sz', (want, i'', out')) → sz' ≤ sz).

Definition none (want : AcceptResult) (l : list Option) : Prop :=
  ∀ o sz i' out, o ∈ l → attempt o ≠ Some (sz, (want, i', out)).

Lemma none_snoc want l o : none want l → (∀ sz i' out, attempt o ≠ Some (sz, (want, i', out))) → none want (l ++ [o]).
Proof. intros Hl Ho x sz i' out [Hx| ->%list_elem_of_singleton]%elem_of_app; [by apply Hl|apply Ho]. Qed.

Lemma best_skip want l sz i' out o :
  best want l sz i' out → (∀ sz' i'' out', attempt o = Some (sz', (want, i'', out')) → sz' ≤ sz) → best want (l ++ [o]) sz i' out.
Proof.
  intros (l1 & x & l2 & -> & Hx & H1 & H2) Ho. exists l1, x, (l2 ++ [o]). rewrite <- app_assoc. split; [done|]. split; [done|]. split; [done|].
  intros o' sz' i'' out' [Hin| ->%list_elem_of_singleton]%elem_of_app; [by apply H2|apply Ho].
Qed.

Lemma best_take want l sz i' out o :
  attempt o = Some (sz, (want, i', out)) → (∀ o' sz' i'' out', o' ∈ l → attempt o' = Some (sz', (want, i'', out')) → sz' < sz) →
  best want (l ++ [o]) sz i' out.
Proof. intros Ho Hl. exists l, o, []. split; [done|]. split; [done|]. split; [done|]. by intros o' ? ? ? ?%elem_of_nil. Qed.

Lemma best_bound want l sz i' out o sz' i'' out' :
  best want l sz i' out → o ∈ l → attempt o = Some (sz', (want, i'', out')) → sz' ≤ sz.
Proof.
  intros (l1 & x & l2 & -> & Hx & H1 & H2) Hin Ho. apply elem_of_app in Hin as [Hin|[->|Hin]%elem_of_cons]; [|rewrite Hx in Ho; by simplify_eq|by eapply H2].
  assert (sz' < sz) by (by eapply H1). lia.
Qed.

(** What the loop has found in the options it has seen. *)
Definition tracks (want : AcceptResult) (l : list Option) (sz i' : nat) (out : option ParsedArg) : Prop :=
  (sz = 0 ∧ none want l) ∨ ∃ out', best want l sz i' out' ∧ (∀ x, out = Some x → x = out').

Definition flag_ok (l : list Option) (f : option Option) : Prop :=
  ∀ o, f = Some o → o ∈ l ∧ kind o = Flag ∧ excludes p o = false ∧ match_opt o (arg_text a index) (ignore_case t) = 2 ∧ 2 < length (arg_text a index).

Record scan_inv (l : list Option) (s : scanning) : Prop := {
  inv_best : tracks Matched l (best_match_size s) (best_index s) (Some (best_out s));
  inv_missing : tracks MissingValue l (missing_match_size s) (missing_index s) None;
  inv_flag : flag_ok l (flag s);
}.

(** A result of the whole scan. *)
Definition longest_result (l : list Option) (r : ScanResult) : Prop :=
  match result r with
  | Matched => ∃ sz, best Matched l sz (new_index r) (scan_out r)
  | MissingValue => none Matched l ∧ ∃ sz out, best MissingValue l sz (new_index r) out
  | NoMatch => none Matched l ∧ none MissingValue l
  end ∧ flag_ok l (fallback_flag r).

Lemma tracks_skip want l sz i' out o :
  tracks want l sz i' out → (∀ sz' i'' out', attempt o = Some (sz', (want, i'', out')) → sz' ≤ sz) → tracks want (l ++ [o]) sz i' out.
Proof.
  intros [[-> Hn]|(out' & Hb & Hx)] Ho; [left; split; [done|]|right; exists out'; split; [by apply best_skip|done]].
  apply none_snoc; [done|]. intros sz' i'' out' E. pose proof (attempt_ok _ _ _ _ _ E) as [? _]. specialize (Ho _ _ _ E). lia.
Qed.

Lemma tracks_take want l sz i' out o sz' i'' out' x :
  tracks want l sz i' out → attempt o = Some (sz', (want, i'', out')) → sz < sz' → (∀ y, x = Some y → y = out') →
  tracks want (l ++ [o]) sz' i'' x.
Proof.
  intros H Ho Hlt Hx. right. exists out'. split; [|done]. apply best_take; [done|]. intros o2 sz2 i2 out2 Hin E2.
  destruct H as [[-> Hn]|(out1 & Hb & _)]; [by apply Hn in E2|]. pose proof (best_bound _ _ _ _ _ _ _ _ _ Hb Hin E2). lia.
Qed.

Lemma flag_skip l o f : flag_ok l f → flag_ok (l ++ [o]) f.
Proof. intros H x Hx. destruct (H x Hx) as [H1 H2]. split; [apply elem_of_app; by left|done]. Qed.

Lemma flag_take l o r i' out :
  attempt o = Some (2, (r, i', out)) → r ≠ Matched → kind o = Flag → flag_ok (l ++ [o]) (Some o).
Proof.
  intros Ho Hr Hk x [= <-]. split; [apply elem_of_app; right; left|]. split; [done|]. pose proof (attempt_ok _ _ _ _ _ Ho) as (_ & Hx & _). split; [done|].
  unfold attempt in Ho. case_if_in Ho; [done|]. injection Ho as Hsz E. split; [done|]. rewrite Hsz in E.
  unfold accept_opt in E. cbn [andb] in E. unfold accept_internal in E. rewrite Hk in E. cbv zeta in E.
  pose proof (match_opt_le o (arg_text a index) (ignore_case t)) as Hle. rewrite Hsz in Hle.
  destruct (negb (length (take 2 (arg_text a index)) =? length (arg_text a index))) eqn:En.
  - rewrite length_take in En. bool_prop. lia.
  - rewrite bool_decide_true in E by done. cbn [negb] in E. destruct (id o =? _); [by simplify_eq|]. rewrite bool_decide_true in E by done. cbn [negb] in E. by simplify_eq.
Qed.

Lemma scan_longest l opts s : scan_inv l s → longest_result (l ++ opts) (scan_loop t opts a index false p s).
Proof.
  revert l s. induction opts as [|o opts IH]; intros l s [Hb Hm Hf]; cbn [scan_loop].
  - rewrite app_nil_r. unfold longest_result. destruct Hb as [[Eb Hnb]|(ob & Hb & Ho)].
    + rewrite Eb. cbn. destruct Hm as [[Em Hnm]|(om & Hm & _)].
      * rewrite Em. cbn. done.
      * destruct Hm as (l1 & x & l2 & El & Hx & H12). pose proof (attempt_ok _ _ _ _ _ Hx) as [? _].
        rewrite (proj2 (Nat.eqb_neq _ _)) by lia. cbn. split; [|done]. split; [done|]. exists (missing_match_size s), om. by exists l1, x, l2.
    + pose proof (Ho _ eq_refl) as ->. destruct Hb as (l1 & x & l2 & El & Hx & H12). pose proof (attempt_ok _ _ _ _ _ Hx) as [? _].
      rewrite (proj2 (Nat.ltb_lt _ _)) by lia. cbn. split; [|done]. exists (best_match_size s). by exists l1, x, l2.
  - rewrite cons_middle, app_assoc. fold (attempt o).
    assert (Eat : attempt o = let arg_sz := match_opt o (arg_text a index) (ignore_case t) in
      if (arg_sz =? 0) || excludes p o then None else Some (arg_sz, accept_opt t o a (take arg_sz (arg_text a index)) false index)) by done.
    cbv zeta in *. destruct ((match_opt o _ _ =? 0) || excludes p o).
    { apply IH. split; [apply tracks_skip; [done|]|apply tracks_skip; [done|]|by apply flag_skip]; intros ? ? ?; by rewrite Eat. }
    destruct (accept_opt _ _ _ _ _ _) as [[r i'] out]. set (sz := match_opt o _ _) in *.
    assert (Hother : ∀ want sz', want ≠ r → ∀ sz'' i'' out', attempt o = Some (sz'', (want, i'', out')) → sz'' ≤ sz').
    { intros want sz' Hne sz'' i'' out' E. rewrite Eat in E. by simplify_eq. }
    pose proof (attempt_ok _ _ _ _ _ Eat) as (Hsz & _ & Hacc). case_bool_decide as Er.
    + subst r. apply IH. assert (tracks MissingValue (l ++ [o]) (missing_match_size s) (missing_index s) None) by (by apply tracks_skip, Hother).
      destruct (Nat.ltb_spec (best_match_size s) sz) as [Hlt|Hge]; split; try (by apply flag_skip); try done; cbn.
      * eapply tracks_take; [exact Hb|exact Eat|done|]. by intros y [= ->].
      * apply tracks_skip; [done|]. intros ? ? ? E. rewrite Eat in E. by simplify_eq.
    + set (s' := if (sz =? 2) && bool_decide (kind o = Flag) then _ else s).
      assert (Hs' : best_match_size s' = best_match_size s ∧ best_index s' = best_index s ∧ best_out s' = best_out s ∧
        missing_match_size s' = missing_match_size s ∧ missing_index s' = missing_index s ∧ flag_ok (l ++ [o]) (flag s')).
      { unfold s'. destruct ((sz =? 2) && bool_decide (kind o = Flag)) eqn:Ef; cbn; (do 5 (split; [done|])); [|by apply flag_skip]. bool_prop.
        match goal with H : sz = 2 |- _ => rewrite H in Eat end. by eapply flag_take. }
      destruct Hs' as (E1 & E2 & E3 & E4 & E5 & Hf'). clearbody s'.
      assert (Hb' : tracks Matched (l ++ [o]) (best_match_size s') (best_index s') (Some (best_out s'))).
      { rewrite E1, E2, E3. by apply tracks_skip, Hother. }
      destruct (Nat.eqb_spec i' index) as [Ei|Ei]; cbn [negb].
      * apply IH. split; [done| |done]. rewrite E4, E5. apply tracks_skip; [done|]. intros ? ? ? E. rewrite Eat in E. simplify_eq. cbn in Hacc. lia.
      * assert (Er' : r = MissingValue) by (destruct r; [done|by cbn in Hacc|done]). subst r. apply IH. rewrite E4.
        destruct (Nat.ltb_spec (missing_match_size s) sz) as [Hlt|Hge]; split; try done; cbn.
        -- eapply tracks_take; [exact Hm|exact Eat|done|done].
        -- rewrite E4, E5. apply tracks_skip; [done|]. intros ? ? ? E. rewrite Eat in E. by simplify_eq.
Qed.

(** The first option that accepts the element or misses its value. *)
Definition first_result (l : list Option) (r : ScanResult) : Prop :=
  match result r with
  | NoMatch => none Matched l ∧ none MissingValue l
  | want =>
      ∃ l1 o l2 sz out, l = l1 ++ o :: l2 ∧ attempt o = Some (sz, (want, new_index r, out)) ∧ (want = Matched → scan_out r = out) ∧
        none Matched l1 ∧ none MissingValue l1
  end.

Lemma scan_first l opts s :
  none Matched l → none MissingValue l → best_match_size s = 0 → missing_match_size s = 0 → flag_ok l (flag s) →
  let r := scan_loop t opts a index true p s in
  first_result (l ++ opts) r ∧ (result r = NoMatch → flag_ok (l ++ opts) (fallback_flag r)).
Proof.
  revert l s. induction opts as [|o opts IH]; intros l s Hn1 Hn2 Eb Em Hf; cbn [scan_loop].
  - rewrite app_nil_r, Eb, Em. cbn. done.
  - rewrite cons_middle, app_assoc.
    assert (Eat : attempt o = let arg_sz := match_opt o (arg_text a index) (ignore_case t) in
      if (arg_sz =? 0) || excludes p o then None else Some (arg_sz, accept_opt t o a (take arg_sz (arg_text a index)) false index)) by done.
    cbv zeta in *. destruct ((match_opt o _ _ =? 0) || excludes p o).
    { apply IH; [apply none_snoc; [done|] .. |done|done|by apply flag_skip]; intros; by rewrite Eat. }
    destruct (accept_opt _ _ _ _ _ _) as [[r i'] out]. set (sz := match_opt o _ _) in *.
    pose proof (attempt_ok _ _ _ _ _ Eat) as (Hsz & _ & Hacc). case_bool_decide as Er.
    + subst r. cbn. split; [|done]. exists l, o, opts, sz, out. by rewrite <- app_assoc.
    + set (s' := if (sz =? 2) && bool_decide (kind o = Flag) then _ else s).
      assert (Hs' : best_match_size s' = 0 ∧ missing_match_size s' = 0 ∧ flag_ok (l ++ [o]) (flag s')).
      { unfold s'. destruct ((sz =? 2) && bool_decide (kind o = Flag)) eqn:Ef; cbn; (do 2 (split; [done|])); [|by apply flag_skip]. bool_prop.
        match goal with H : sz = 2 |- _ => rewrite H in Eat end. by eapply flag_take. }
      destruct Hs' as (E1 & E2 & Hf'). clearbody s'. destruct (Nat.eqb_spec i' index) as [Ei|Ei]; cbn [negb].
      * apply IH; [apply none_snoc; [done|] .. |done|done|done]; intros sz' i'' out' E; rewrite Eat in E; simplify_eq. cbn in Hacc. lia.
      * assert (Er' : r = MissingValue) by (destruct r; [done|by cbn in Hacc|done]). subst r. cbn. split; [|done].
        exists l, o, opts, sz, out. by rewrite <- app_assoc.
Qed.

(** What any scan gives. *)
Lemma scan_ok range first_match :
  let r := scan_and_accept t range a index first_match p in
  match result r with
  | NoMatch => flag_ok range (fallback_flag r)
  | want => accepted a index want (new_index r) (scan_out r)
  end.
Proof.
  unfold scan_and_accept. set (opts := if tablegen_mode t then _ else range).
  assert (Hin : ∀ o, o ∈ opts → o ∈ range).
  { unfold opts. destruct (tablegen_mode t); [|done]. set (k := lower_bound _ _ _ _ _). intros o Ho. rewrite <- (take_drop k range). apply elem_of_app. by right. }
  clearbody opts. assert (Hflag : ∀ f, flag_ok opts f → flag_ok range f).
  { intros f H o Ho. destruct (H o Ho) as [H1 H2]. split; [by apply Hin|done]. }
  set (s0 := mkScanning cleared 0 index 0 index None). cbv zeta. destruct first_match.
  - pose proof (scan_first [] opts s0) as H. destruct H as [H Hf]; try done. 1,2: by intros ? ? ? ? ?%elem_of_nil. cbn [app] in *.
    unfold first_result in H. destruct (result _) eqn:E.
    + destruct H as (l1 & o & l2 & sz & out & _ & Ho & Hs & _). rewrite Hs by done. by apply attempt_ok in Ho as (_ & _ & Ho).
    + by apply Hflag, Hf.
    + destruct H as (l1 & o & l2 & sz & out & _ & Ho & Hs & _). by apply attempt_ok in Ho as (_ & _ & Ho).
  - pose proof (scan_longest [] opts s0) as H. destruct H as [H Hf].
    { split; [left|left|done]; (split; [done|]); by intros ? ? ? ? ?%elem_of_nil. }
    cbn [app] in *. destruct (result _) eqn:E.
    + destruct H as (sz & l1 & o & l2 & _ & Ho & _). by apply attempt_ok in Ho as (_ & _ & Ho).
    + by apply Hflag.
    + destruct H as (_ & sz & out & l1 & o & l2 & _ & Ho & _). by apply attempt_ok in Ho as (_ & _ & Ho).
Qed.
End Scan.

(** ** One step *)

Section Step.
Variables (t : OptTable) (a : Args) (index : nat) (p : ParseOptions).
Hypothesis Hindex : index < args_size a.
Hypothesis Hover : ∀ j g, overlay a = Some (j, g) → j = index.

(** An argument that is the element itself. *)
Lemma whole_element i sp :
  sp = arg_text a index → accepted a index Matched (index + 1) (mkParsed i index 0 sp []).
Proof.
  intros ->. split; [lia|]. split; [done|]. split; [constructor|]. apply written_plain. cbn [spelling values].
  rewrite Nat.sub_diag, substr_none. done.
Qed.

Lemma unknown_values_bound fuel range i : i ≤ args_size a → i + unknown_values fuel t range a i p ≤ args_size a.
Proof.
  revert i. induction fuel as [|fuel IH]; intros i Hi; cbn [unknown_values]; [lia|]. destruct (Nat.ltb_spec i (args_size a)); [|lia].
  destruct (bool_decide _); [lia|]. destruct (negb _ && _); [lia|]. specialize (IH (i + 1)). lia.
Qed.

Lemma unknown_step_ok :
  let '(i', out) := unknown_step t a index p in accepted a index Matched i' out.
Proof.
  unfold unknown_step. destruct (greedy_unknown p && _); [|by apply whole_element]. unfold consume_unknown_values.
  pose proof (unknown_values_bound (args_size a - (index + 1)) (search_range t) (index + 1) ltac:(lia)) as Hn.
  set (n := unknown_values _ _ _ _ _ _) in *. cbn [accepted]. split; [lia|]. split; [done|]. cbn [values add_values set_values app].
  split; [apply elements_ok with index; (done || lia)|]. apply written_plain. cbn [spelling values add_values set_values app].
  rewrite elements_texts with (index := index) by (done || lia). by replace (index + 1 + n - (index + 1)) with n by lia.
Qed.

Definition step_ok (r : AcceptResult) (i' : nat) (out : ParsedArg) : Prop :=
  r ≠ NoMatch ∧ arg_index out = index ∧ accepted a index r i' out.

Lemma parse_step_ok : let '(r, i', out) := parse_step t a index p in step_ok r i' out.
Proof.
  unfold parse_step. destruct (is_input t (arg_text a index)); [split; [done|]; split; [done|]; by apply whole_element|].
  pose proof (scan_ok t a index p Hindex Hover (search_range t) (tablegen_mode t)) as H. cbv zeta in H.
  destruct (result _); [by split; [done|]; destruct H as (H1 & H2 & H3)| |by split].
  case_if; [split; [done|]; split; [done|]; by apply whole_element|]. pose proof unknown_step_ok as Hu.
  destruct (unknown_step t a index p) as [i' out]. split; [done|]. by destruct Hu as (H1 & H2 & H3).
Qed.

(** A step of a group: it takes the element, or one letter of it. *)
Definition grouped_ok (r : AcceptResult) (i' : nat) (out : ParsedArg) (rest : bytes) : Prop :=
  (rest = [] ∧ step_ok r i' out) ∨
  (rest ≠ [] ∧ r = Matched ∧ i' = index ∧ arg_index out = index ∧ Forall (value_ok a) (values out) ∧
   own_texts a (values out) = [] ∧ rest = drop 2 (arg_text a index) ∧ spelling out = take 2 (arg_text a index)).

Lemma parse_step_grouped_ok : let '((r, i', out), rest) := parse_step_grouped t a index p in grouped_ok r i' out rest.
Proof.
  unfold parse_step_grouped. assert (Hwhole : ∀ i, grouped_ok Matched (index + 1) (mkParsed i index 0 (arg_text a index) []) []).
  { intros i. left. split; [done|]. split; [done|]. split; [done|]. by apply whole_element. }
  destruct (is_input t (arg_text a index)); [done|].
  pose proof (scan_ok t a index p Hindex Hover (search_range t) true) as H. cbv zeta in H. destruct (result _).
  - left. split; [done|]. split; [done|]. by destruct H as (H1 & H2 & H3).
  - destruct (fallback_flag _) as [o|].
    + destruct (H o eq_refl) as (_ & Hk & _ & _ & Hlen). case_if; [done|].
      pose proof (accept_grouped_ok t a index o (take 2 (arg_text a index)) Hk) as Hg.
      destruct (accept_opt t o a _ true index) as [[r i'] out]. destruct Hg as (-> & -> & H2 & H3 & H4 & H5). right.
      split; [intros E%(f_equal length); rewrite length_drop in E; cbn in E; lia|]. done.
    + destruct ((1 <? length (arg_text a index)) && _) eqn:E.
      * destruct (Nat.ltb_spec 2 (length (arg_text a index))) as [Hlen|Hlen].
        -- right. split; [intros Ed%(f_equal length); rewrite length_drop in Ed; cbn in Ed; lia|]. by repeat split.
        -- rewrite take_ge by done. done.
      * pose proof unknown_step_ok as Hu. destruct (unknown_step t a index p) as [i' out]. left. split; [done|]. split; [done|]. by destruct Hu as (H1 & H2 & H3).
  - left. by repeat split.
Qed.
End Step.

(** ** The whole parse *)

Section Parse.
Variables (t : OptTable) (argv : list bytes) (p : ParseOptions).

(** A view of argv, or of the table: what outlives the parse. *)
Definition value_in (v : value) : Prop :=
  match v with
  | InArgv i offset size => i < length argv ∧ offset + size ≤ length (argv !!! i)
  | InGroup _ _ => False
  | InTable _ => True
  end.

Abbreviation here := (mkArgs argv None).

(** What a parse gives of argv from [pos] on.  [g] is what is left of a group
    of short options at [pos], behind a dash, and [past] whether [--] was read. *)
Inductive reading : bool → nat → bytes → list (expected ParsedArg Error) → Prop :=
| reading_end past : reading past (length argv) [] []
| reading_dashes pos l :
    dash_dash_parsing p = true → dash_dash_packing p = false → argv !! pos = Some (lit "--") →
    reading true (pos + 1) [] l → reading false pos [] l
| reading_packed pos out l :
    dash_dash_parsing p = true → dash_dash_packing p = true → argv !! pos = Some (lit "--") →
    arg_id out = input_option_id t → arg_index out = pos → next_index out = length argv → spelling out = lit "--" →
    Forall value_in (values out) → own_texts here (values out) = drop (pos + 1) argv →
    l = [] → reading false pos [] (Ok out :: l)
| reading_input pos out l :
    argv !! pos = Some (spelling out) → arg_id out = input_option_id t → arg_index out = pos → next_index out = pos + 1 → values out = [] →
    reading true (pos + 1) [] l → reading true pos [] (Ok out :: l)
| reading_element pos g out l :
    pos < length argv → arg_index out = pos → pos < next_index out ≤ length argv → Forall value_in (values out) →
    written here (if bool_decide (g = []) then argv !!! pos else g) (substr argv (pos + 1) (next_index out - (pos + 1))) out →
    reading false (next_index out) [] l → reading false pos g (Ok out :: l)
| reading_letter pos g out rest l :
    grouped_short_options p = true → rest ≠ [] →
    pos < length argv → arg_index out = pos → next_index out = pos → Forall value_in (values out) → own_texts here (values out) = [] →
    (if bool_decide (g = []) then argv !!! pos else g) = spelling out ++ rest → length (spelling out) = 2 →
    reading false pos (lit "-" ++ rest) l → reading false pos g (Ok out :: l)
| reading_missing pos g e :
    pos < length argv → error_begin e = pos → error_end e = pos + 1 → reading false pos g [Err e].

(** *** Values of a group, put where they are in argv *)

Definition group_of (i : nat) (g : bytes) : Prop :=
  ∃ k, 2 ≤ k < length (argv !!! i) ∧ g = lit "-" ++ drop k (argv !!! i).

Lemma rebase_value_ok i g v :
  i < length argv → group_of i g → value_ok (mkArgs argv (Some (i, g))) v →
  value_in (rebase_value g (argv !!! i) i v) ∧ from_argv (rebase_value g (argv !!! i) i v) = from_argv v ∧
  text_of here (rebase_value g (argv !!! i) i v) = text_of (mkArgs argv (Some (i, g))) v.
Proof.
  intros Hi (k & Hk & Eg) Hv. set (e := argv !!! i) in *. assert (Hlen : length g = 1 + (length e - k)) by (rewrite Eg; cbn; by rewrite length_drop).
  destruct v as [j offset size|offset size|text]; cbn [rebase_value value_in from_argv]; [done| |done].
  destruct Hv as [H1 (j & g' & [= <- <-] & H2)]. fold e. split; [|split; [done|]].
  - split; [done|]. lia.
  - unfold text_of, group_text. cbn [overlay value_text list_]. fold e. unfold substr. f_equal.
    replace (length e - (length g - offset)) with (k + (offset - 1)) by lia. rewrite <- drop_drop, Eg. destruct offset as [|offset]; [lia|].
    cbn. by rewrite Nat.sub_0_r.
Qed.

Lemma plain_value_ok v : value_ok here v → value_in v.
Proof. destruct v; cbn; [done|by intros [_ (? & ? & ? & _)]|done]. Qed.

Lemma rebase_texts i g vs :
  i < length argv → group_of i g → Forall (value_ok (mkArgs argv (Some (i, g)))) vs →
  Forall value_in (rebase_value g (argv !!! i) i <$> vs) ∧
  own_texts here (rebase_value g (argv !!! i) i <$> vs) = own_texts (mkArgs argv (Some (i, g))) vs.
Proof.
  intros Hi Hg H. induction H as [|v vs Hv _ [IH1 IH2]]; [done|]. destruct (rebase_value_ok i g v Hi Hg Hv) as (H1 & H2 & H3).
  split; [by constructor|]. unfold own_texts in *. cbn [fmap list_fmap List.filter]. rewrite H2. destruct (from_argv v); [|done].
  cbn [fmap list_fmap]. by rewrite H3, IH2.
Qed.

Lemma written_same a a' cur more out out' :
  spelling out = spelling out' → own_texts a (values out) = own_texts a' (values out') → written a cur more out → written a' cur more out'.
Proof. intros E1 E2 [H|rest H1 H2 H3]; [apply written_plain|apply written_commas with rest]; congruence. Qed.

(** *** The iterator *)

Record iter_ok (it : ParseIter) : Prop := {
  it_running : done_ it = false;
  it_index : index it ≤ length argv;
  it_group : group_buf it = [] ∨
    (grouped_short_options p = true ∧ past_dash_dash it = false ∧ index it < length argv ∧ group_of (index it) (group_buf it));
}.

Definition bytes_left (i : nat) : nat := foldr (λ s n, length s + 1 + n) 0 (drop i argv).

Definition iter_measure (it : ParseIter) : nat :=
  if bool_decide (group_buf it = []) then bytes_left (index it) else length (group_buf it) + 1 + bytes_left (index it + 1).

Lemma bytes_left_step i : i < length argv → bytes_left i = length (argv !!! i) + 1 + bytes_left (i + 1).
Proof.
  intros Hi. unfold bytes_left. rewrite (drop_S _ (argv !!! i) i), (Nat.add_1_r i); [done|]. by apply list_lookup_lookup_total_lt.
Qed.

Lemma bytes_left_le i j : i ≤ j → bytes_left j ≤ bytes_left i.
Proof.
  intros H. unfold bytes_left. replace j with (i + (j - i)) by lia. rewrite <- drop_drop. generalize (drop i argv) (j - i). clear.
  intros l n. revert l. induction n as [|n IH]; intros [|x l]; cbn; try lia. specialize (IH l). lia.
Qed.

Lemma measure_ge it : iter_ok it → index it < length argv → bytes_left (index it + 1) < iter_measure it.
Proof.
  intros _ Hi. unfold iter_measure. case_bool_decide; [rewrite (bytes_left_step (index it)) by done|]; lia.
Qed.

(** What one [advance] at an element gives. *)
Definition advanced (it it' : ParseIter) : Prop :=
  done_ it' = false ∧
  ((∃ e, current it' = Err e ∧ length argv < index it' ∧ error_begin e = index it ∧ error_end e = index it + 1 ∧ past_dash_dash it = false) ∨
   (∃ out, current it' = Ok out ∧ iter_ok it' ∧ iter_measure it' < iter_measure it ∧
      ∀ l, reading (past_dash_dash it') (index it') (group_buf it') l → reading (past_dash_dash it) (index it) (group_buf it) (Ok out :: l))).

Lemma advance_input_ok it :
  iter_ok it → past_dash_dash it = true → index it < length argv → advanced it (advance_input t argv it).
Proof.
  intros Hok Hp Hi. assert (Hg : group_buf it = []) by (destruct (it_group it Hok) as [?|(_ & H & _)]; [done|by rewrite Hp in H]).
  split; [done|]. right. eexists. split; [done|]. cbn [index past_dash_dash group_buf advance_input]. rewrite Hg.
  split; [split; cbn; [done|lia|by left]|]. split.
  - unfold iter_measure. cbn [group_buf index advance_input]. rewrite Hg, bool_decide_true by done. rewrite (bytes_left_step (index it)) by done. lia.
  - intros l Hl. rewrite Hp. apply reading_input; try done. cbn. by apply list_lookup_lookup_total_lt.
Qed.

(** The element, or what is left of its group. *)
Definition pending (it : ParseIter) : bytes := if bool_decide (group_buf it = []) then argv !!! index it else group_buf it.

Lemma measure_pending it : index it < length argv → iter_measure it = length (pending it) + 1 + bytes_left (index it + 1).
Proof. intros Hi. unfold iter_measure, pending. case_bool_decide; [by apply bytes_left_step|done]. Qed.

(** A step that takes the element. *)
Lemma step_advanced it a r i' out out' :
  iter_ok it → index it < length argv → past_dash_dash it = false → list_ a = argv → arg_text a (index it) = pending it →
  step_ok a (index it) r i' out → arg_index out' = arg_index out → spelling out' = spelling out →
  (r = Matched → Forall value_in (values out') ∧ own_texts here (values out') = own_texts a (values out)) →
  advanced it (mkIter i' false (give argv r out' i') [] (past_dash_dash it)).
Proof.
  intros Hok Hi Hp El Et (Hr & Hx & Hacc) Ex Es Hv. split; [done|]. destruct r; [right|done|left].
  - destruct (Hv eq_refl) as [Hin Hown]. destruct Hacc as (H1 & H2 & H3 & H4). unfold args_size in H1. rewrite El in H1, H4. eexists. split; [done|].
    cbn [index past_dash_dash group_buf]. split; [split; cbn; [done|lia|by left]|]. split.
    { rewrite (measure_pending it) by done. unfold iter_measure. cbn [group_buf index]. rewrite bool_decide_true by done.
      pose proof (bytes_left_le (index it + 1) i' ltac:(lia)). lia. }
    intros l Hl. rewrite Hp in *. apply reading_element; cbn [arg_index next_index values set_next]; try done; [congruence|].
    fold (pending it). rewrite <- Et. eapply written_same; [| |exact H4]; cbn [spelling values set_next]; [done|symmetry; exact Hown].
  - eexists. split; [done|]. cbn in Hacc. unfold args_size in Hacc. rewrite El in Hacc. cbn. rewrite Ex, Hx. done.
Qed.

Lemma plain_step_advanced it r i' out :
  iter_ok it → index it < length argv → past_dash_dash it = false → group_buf it = [] → step_ok here (index it) r i' out →
  advanced it (mkIter i' false (give argv r out i') [] (past_dash_dash it)).
Proof.
  intros Hok Hi Hp Hg Hs. eapply (step_advanced it here r i' out out); try done.
  - unfold pending. by rewrite bool_decide_true.
  - intros ->. destruct Hs as (_ & _ & _ & _ & H & _). split; [|done]. eapply Forall_impl; [exact H|]. apply plain_value_ok.
Qed.

(** A step that takes a letter of a group. *)
Lemma letter_advanced it a out out' rest :
  iter_ok it → index it < length argv → past_dash_dash it = false → grouped_short_options p = true →
  rest ≠ [] → rest = drop 2 (pending it) → spelling out = take 2 (pending it) → arg_index out' = index it → spelling out' = spelling out →
  Forall value_in (values out') → own_texts here (values out') = own_texts a (values out) → own_texts a (values out) = [] →
  advanced it (mkIter (index it) false (Ok (set_next out' (index it))) (lit "-" ++ rest) (past_dash_dash it)).
Proof.
  intros Hok Hi Hp Hgr Hne Er Es Ex Es' Hin Hown Hnone.
  assert (Hlen : 2 < length (pending it)).
  { destruct (decide (2 < length (pending it))) as [|Hle]; [done|]. destruct Hne. rewrite Er. apply drop_ge. lia. }
  assert (Hgroup : group_of (index it) (lit "-" ++ rest)).
  { unfold pending in *. case_bool_decide as Eg; [exists 2; split; [lia|by rewrite Er]|].
    destruct (it_group it Hok) as [?|(_ & _ & _ & k & Hk & Ek)]; [done|]. exists (k + 1).
    assert (Ed : rest = drop (k + 1) (argv !!! index it)) by (rewrite Er, Ek; cbn; rewrite drop_drop; done).
    rewrite <- Ed. split; [|done]. destruct (decide (k + 1 < length (argv !!! index it))); [lia|]. destruct Hne. rewrite Ed. apply drop_ge. lia. }
  split; [done|]. right. eexists. split; [done|]. cbn [index past_dash_dash group_buf]. split; [split; cbn; [done|lia|right; by repeat split]|]. split.
  { rewrite !measure_pending by done. cbn [index]. unfold pending at 1. cbn [group_buf]. rewrite bool_decide_false by done.
    rewrite Er. cbn [lit app length String.list_byte_of_string]. change (length (lit "-" ++ drop 2 (pending it))) with (1 + length (drop 2 (pending it))).
    rewrite length_drop. lia. }
  intros l Hl. rewrite Hp in *. eapply reading_letter with (rest := rest); cbn [arg_index next_index values spelling set_next]; try done.
  - by rewrite Hown. - fold (pending it). by rewrite Es', Es, Er, take_drop. - rewrite Es', Es, length_take. lia.
Qed.

Lemma advance_option_ok it :
  iter_ok it → past_dash_dash it = false → index it < length argv → advanced it (advance_option t argv p it).
Proof.
  intros Hok Hp Hi. unfold advance_option. destruct (grouped_short_options p) eqn:Hgr; cbn [negb].
  2:{ assert (Hg : group_buf it = []) by (destruct (it_group it Hok) as [?|(H & _)]; [done|by rewrite Hgr in H]).
      pose proof (parse_step_ok t here (index it) p Hi ltac:(done)) as Hs. destruct (parse_step t here (index it) p) as [[r i'] out].
      rewrite Hg. by apply plain_step_advanced. }
  destruct (it_group it Hok) as [Hg|(_ & _ & _ & Hg)].
  - rewrite Hg. rewrite bool_decide_true by done. cbn [negb]. pose proof (parse_step_grouped_ok t here (index it) p Hi ltac:(done)) as Hs.
    destruct (parse_step_grouped t here (index it) p) as [[[r i'] out] rest]. destruct Hs as [[-> Hs]|(Hne & -> & -> & Hx & Hv & Hn & Er & Es)].
    + by apply plain_step_advanced.
    + rewrite bool_decide_false by done. assert (Epend : arg_text here (index it) = pending it) by (unfold pending; by rewrite bool_decide_true).
      rewrite Epend in Er, Es. apply (letter_advanced it here out out rest); try done. eapply Forall_impl; [exact Hv|]. apply plain_value_ok.
  - assert (Hng : group_buf it ≠ []) by (destruct Hg as (k & _ & ->); done). rewrite (bool_decide_false (group_buf it = [])) by done. cbn [negb].
    set (a := mkArgs argv (Some (index it, group_buf it))).
    pose proof (parse_step_grouped_ok t a (index it) p Hi ltac:(by intros j g [= <- _])) as Hs.
    assert (Epend : arg_text a (index it) = pending it).
    { unfold pending, arg_text, a. cbn [overlay]. by rewrite Nat.eqb_refl, bool_decide_false. }
    destruct (parse_step_grouped t a (index it) p) as [[[r i'] out] rest].
    assert (Hreb : ∀ vs, Forall (value_ok a) vs →
      Forall value_in (rebase_value (group_buf it) (argv !!! index it) (index it) <$> vs) ∧
      own_texts here (rebase_value (group_buf it) (argv !!! index it) (index it) <$> vs) = own_texts a vs).
    { intros vs Hvs. by apply rebase_texts. }
    destruct Hs as [[-> Hs]|(Hne & -> & -> & Hx & Hv & Hn & Er & Es)].
    + rewrite bool_decide_true by done. pose proof Hs as (_ & Hx & _). rewrite Hx.
      eapply (step_advanced it a r i' out); try done. intros ->. destruct Hs as (_ & _ & _ & _ & Hv & _). by apply Hreb.
    + rewrite bool_decide_false by done. rewrite Hx, Epend in *. destruct (Hreb _ Hv) as [H1 H2].
      eapply (letter_advanced it a out _ rest); try done.
Qed.

Lemma group_not_dashes it : iter_ok it → argv !!! index it = lit "--" → group_buf it = [].
Proof.
  intros Hok E. destruct (it_group it Hok) as [?|(_ & _ & _ & k & Hk & _)]; [done|]. rewrite E in Hk. cbn in Hk. lia.
Qed.

Lemma dashes_texts i : own_texts here ((λ j, InArgv j 0 (length (argv !!! j))) <$> seq i (length argv - i)) = drop i argv.
Proof.
  remember (length argv - i) as n eqn:En. revert i En. induction n as [|n IH]; intros i En.
  - cbn. symmetry. apply drop_ge. lia.
  - cbn [seq fmap list_fmap]. assert (Hi : i < length argv) by lia. unfold own_texts in *. cbn [List.filter from_argv fmap list_fmap].
    rewrite IH by lia. rewrite (drop_S argv (argv !!! i) i) by (by apply list_lookup_lookup_total_lt). f_equal.
    unfold text_of. cbn [value_text list_]. unfold substr. rewrite drop_0. by apply take_ge.
Qed.

Lemma parse_from_ok fuel it :
  iter_ok it → iter_measure it < fuel →
  ∃ l, parse_from t argv p fuel it = Some l ∧ reading (past_dash_dash it) (index it) (group_buf it) l.
Proof.
  revert it. induction fuel as [|fuel IH]; intros it Hok Hm; [lia|]. cbn [parse_from].
  assert (Hgo : ∀ it1 it', index it1 < length argv → iter_measure it1 ≤ iter_measure it → iter_ok it1 → advanced it1 it' →
    ∃ l, cons (current it') <$> parse_from t argv p fuel it' = Some l ∧ reading (past_dash_dash it1) (index it1) (group_buf it1) l).
  { intros it1 it' Hi Hle Hok1 (Hd & [(e & Ec & Hi' & He1 & He2 & Hp)|(out & Ec & Hok' & Hlt & Hread)]).
    - pose proof (measure_ge it1 Hok1 Hi). destruct fuel as [|f]; [lia|]. exists [Err e]. cbn [parse_from]. unfold advance. rewrite Hd.
      rewrite (proj2 (Nat.ltb_ge _ _)) by lia. cbn [done_ fmap option_fmap option_map]. rewrite Ec, Hp. split; [done|]. by apply reading_missing.
    - destruct (IH it' Hok' ltac:(lia)) as (l & El & Hl). exists (Ok out :: l). rewrite El, Ec. split; [done|]. by apply Hread. }
  pose proof (it_index it Hok) as Hle. unfold advance. rewrite (it_running it Hok). destruct (Nat.ltb_spec (index it) (length argv)) as [Hi|Hi].
  2:{ cbn [done_]. exists []. split; [done|]. replace (index it) with (length argv) by lia.
      assert (group_buf it = []) as -> by (destruct (it_group it Hok) as [?|(_ & _ & ? & _)]; [done|lia]). apply reading_end. }
  destruct (negb (past_dash_dash it) && dash_dash_parsing p && bool_decide (argv !!! index it = lit "--")) eqn:Edd.
  - bool_prop. match goal with H : argv !!! index it = _ |- _ => rename H into Ed end. match goal with H : past_dash_dash it = _ |- _ => rename H into Hp end.
    pose proof (group_not_dashes it Hok Ed) as Hg. rewrite Hp, Hg.
    assert (Hl : argv !! index it = Some (lit "--")) by (rewrite <- Ed; by apply list_lookup_lookup_total_lt).
    destruct (dash_dash_packing p) eqn:Epk.
    + cbn [done_ current]. set (out := mkParsed _ _ _ _ _).
      destruct fuel as [|f]; [pose proof (measure_ge it Hok Hi); lia|]. cbn [parse_from]. unfold advance. cbn [done_ index]. rewrite Nat.ltb_irrefl. cbn [done_ fmap option_fmap option_map].
      eexists. split; [done|]. apply reading_packed; try done; [|apply dashes_texts].
      cbn [values out]. rewrite Forall_fmap, Forall_forall. intros j [? ?]%elem_of_seq. cbn. lia.
    + set (it1 := mkIter (index it + 1) false (current it) [] true).
      assert (Hok1 : iter_ok it1) by (split; cbn; [done|lia|by left]).
      assert (Hm1 : iter_measure it1 ≤ iter_measure it).
      { unfold iter_measure. cbn [group_buf index it1]. rewrite Hg, !bool_decide_true by done. apply bytes_left_le. lia. }
      destruct (Nat.ltb_spec (index it + 1) (length argv)) as [Hi1|Hi1].
      * destruct (Hgo it1 (advance_input t argv it1) Hi1 Hm1 Hok1 (advance_input_ok it1 Hok1 eq_refl Hi1)) as (l & El & Hread). cbn [advance_input done_].
        exists l. split; [exact El|]. apply reading_dashes; try done.
      * cbn [done_]. exists []. split; [done|]. apply reading_dashes; try done. replace (index it + 1) with (length argv) by lia. apply reading_end.
  - destruct (past_dash_dash it) eqn:Hp.
    + destruct (Hgo it (advance_input t argv it) Hi ltac:(lia) Hok (advance_input_ok it Hok Hp Hi)) as (l & El & Hread). rewrite <- Hp. by exists l.
    + pose proof (advance_option_ok it Hok Hp Hi) as Hadv. destruct (Hgo it _ Hi ltac:(lia) Hok Hadv) as (l & El & Hread). rewrite Hp in Hread.
      destruct Hadv as [Hd _]. rewrite Hd. by exists l.
Qed.

Lemma parse_ok : parse_from t argv p (parse_fuel argv) new_iter = Some (parse t argv p) ∧ reading false 0 [] (parse t argv p).
Proof.
  destruct (parse_from_ok (parse_fuel argv) new_iter) as (l & El & Hl).
  - split; cbn; [done|lia|by left].
  - unfold iter_measure, new_iter, parse_fuel. cbn [group_buf index]. rewrite bool_decide_true by done. unfold bytes_left. rewrite drop_0. lia.
  - unfold parse. rewrite El. done.
Qed.
End Parse.


Lemma reading_values t argv p past pos g l out :
  reading t argv p past pos g l → Ok out ∈ l → Forall (value_in argv) (values out).
Proof.
  induction 1 as [|pos l|pos o l ? ? ? ? ? ? ? Hv ? ->|pos o l ? ? ? ? Hv Hl IH|pos g o l ? ? ? Hv ? Hl IH|pos g o rest l ? ? ? ? ? Hv ? ? ? Hl IH|]; try done.
  - by intros ?%elem_of_nil.
  - intros [[= ->]|?%elem_of_nil]%elem_of_cons; done.
  - intros [[= ->]|?]%elem_of_cons; [rewrite Hv; constructor|by apply IH].
  - intros [[= ->]|?]%elem_of_cons; [done|by apply IH].
  - intros [[= ->]|?]%elem_of_cons; [done|by apply IH].
  - by intros [?|?%elem_of_nil]%elem_of_cons.
Qed.

(** C25. Every value a parse gives is a view of bytes of argv, or of the table:
    none views the buffer of a group, which is overwritten. *)
Theorem values_outlive_parse t argv p out : Ok out ∈ parse t argv p → Forall (value_in argv) (values out).
Proof. apply (reading_values t argv p false 0 []), parse_ok. Qed.

Lemma values_outlive_parse_witness :
  Ok (mkParsed 5 0 1 (lit "-o") [InArgv 0 4 4]) ∈ parse demo_table [lit "-abofile"] grouped_options ∧
  Forall (value_in [lit "-abofile"]) [InArgv 0 4 4].
Proof.
  assert (H : Ok (mkParsed 5 0 1 (lit "-o") [InArgv 0 4 4]) ∈ parse demo_table [lit "-abofile"] grouped_options).
  { vm_compute. right. right. left. }
  split; [exact H|]. exact (values_outlive_parse _ _ _ _ H).
Defined.
