(* ===== verification/CliLookup.v ===== *)
(** Which option an element of argv names: the longest, by a scan of the table
    or by the search of a sorted one; and options written back into argv. *)

From Stdlib Require Import Strings.Byte ZArith Lia Bool Sorting.Sorted.
From stdpp Require Import prelude strings.
From S2P Require Import Prelude Swar Naming CliTable CliParse.
Local Open Scope kota_scope.
Local Open Scope nat_scope.

(** ** The longest match *)

Lemma scan_linear t range a index p :
  index < args_size a → (∀ j g, overlay a = Some (j, g) → j = index) → tablegen_mode t = false →
  longest_result t a index p range (scan_and_accept t range a index false p).
Proof.
  intros Hi Ho Ht. unfold scan_and_accept. rewrite Ht. apply (scan_longest t a index p Hi Ho []).
  split; [left|left|done]; (split; [done|]); by intros ? ? ? ? ?%elem_of_nil.
Qed.

(** ** The order of names *)

(** Names in order, case folded, a longer one before its beginnings. *)
Fixpoint name_cmp (a b : bytes) : Z :=
  match a, b with
  | [], [] => 0
  | [], _ => 1
  | _, [] => -1
  | x :: a', y :: b' =>
      if safe_tolower x =?b safe_tolower y then name_cmp a' b'
      else if (sval (safe_tolower x) <? sval (safe_tolower y))%Z then -1 else 1
  end.

Lemma name_cmp_ok a b : str_cmp_opt_name a b false = name_cmp a b.
Proof.
  revert b. induction a as [|x a IH]; intros [|y b]; try done. specialize (IH b). unfold str_cmp_opt_name in *. cbn [length take name_cmp Nat.min compare_insensitive Nat.eqb].
  destruct (safe_tolower x =?b safe_tolower y); [exact IH|]. by destruct (sval _ <? sval _)%Z.
Qed.

Lemma sval_inj x y : sval x = sval y → x = y.
Proof.
  unfold sval. intros H. apply uval_inj. pose proof (uval_range x). pose proof (uval_range y).
  destruct (Z.ltb_spec (uval x) 128), (Z.ltb_spec (uval y) 128); lia.
Qed.

Lemma name_cmp_trans a b c : (name_cmp a b ≤ 0 → name_cmp b c < 0 → name_cmp a c < 0)%Z.
Proof.
  revert b c. induction a as [|x a IH]; intros [|y b] [|z c]; cbn [name_cmp]; try lia.
  destruct (safe_tolower x =?b safe_tolower y) eqn:Exy.
  - apply byte_eqb_spec in Exy as ->. destruct (safe_tolower y =?b safe_tolower z); [apply IH|]. lia.
  - destruct (Z.ltb_spec (sval (safe_tolower x)) (sval (safe_tolower y))); [|lia]. intros _. destruct (safe_tolower y =?b safe_tolower z) eqn:Eyz.
    + apply byte_eqb_spec in Eyz as <-. rewrite Exy. rewrite (proj2 (Z.ltb_lt _ _)) by done. lia.
    + destruct (Z.ltb_spec (sval (safe_tolower y)) (sval (safe_tolower z))); [|lia]. intros _. destruct (safe_tolower x =?b safe_tolower z) eqn:Exz.
      * apply byte_eqb_spec in Exz. rewrite Exz in *. lia.
      * rewrite (proj2 (Z.ltb_lt _ _)) by lia. lia.
Qed.

(** A beginning of a name comes at it or behind it. *)
Lemma name_cmp_prefix n rest : starts_with_insensitive rest n = true → (0 ≤ name_cmp n rest)%Z.
Proof.
  revert rest. induction n as [|c n IH]; intros [|d rest]; cbn; try done. destruct (safe_tolower d =?b safe_tolower c) eqn:E; [|done].
  apply byte_eqb_spec in E as ->. rewrite byte_eqb_refl. apply IH.
Qed.

(** Of two beginnings of a text, the one in front is the longer. *)
Lemma name_cmp_longer n n' rest :
  starts_with_insensitive rest n = true → starts_with_insensitive rest n' = true → (name_cmp n n' ≤ 0)%Z → length n' ≤ length n.
Proof.
  revert n' rest. induction n as [|c n IH]; intros [|c' n'] [|d rest]; cbn; try done; try lia.
  destruct (safe_tolower d =?b safe_tolower c) eqn:E; [|done]. destruct (safe_tolower d =?b safe_tolower c') eqn:E'; [|done].
  apply byte_eqb_spec in E, E'. rewrite <- E, <- E', byte_eqb_refl. intros H1 H2 H3. specialize (IH _ _ H1 H2 H3). lia.
Qed.

(** ** A sorted table *)

Definition name_le (o o' : Option) : Prop := (str_cmp_opt_name (name o) (name o') false ≤ 0)%Z.

Definition names_sorted (range : list Option) : Prop := StronglySorted name_le range.

(** An option whose prefixes are of the table's prefix characters, and whose
    name starts with none of them. *)
Definition plain_name (t : OptTable) (o : Option) : Prop :=
  Forall (Forall (λ c, c ∈ prefix_chars t)) (prefixes o) ∧
  Forall (λ x, Some (safe_tolower x) ≠ safe_tolower <$> head (name o)) (prefix_chars t) ∧ name o ≠ [].

#[export] Instance plain_name_dec t o : Decision (plain_name t o).
Proof. unfold plain_name. apply _. Defined.

Lemma names_sorted_lookup range i j o o' :
  names_sorted range → i < j → range !! i = Some o → range !! j = Some o' → name_le o o'.
Proof.
  intros H. revert i j. induction H as [|x l Hl IH Hx]; intros i j Hij Hi Hj; [done|]. destruct i as [|i], j as [|j]; try lia; cbn in Hi, Hj; simplify_eq.
  - rewrite Forall_forall in Hx. apply Hx. by apply list_elem_of_lookup_2 in Hj.
  - by apply (IH i j); [lia|..].
Qed.

Lemma plain_name_parts t o :
  plain_name t o → (∀ pf c, pf ∈ prefixes o → c ∈ pf → c ∈ prefix_chars t) ∧
  ∃ c r, name o = c :: r ∧ ∀ x, x ∈ prefix_chars t → safe_tolower x ≠ safe_tolower c.
Proof.
  intros (H1 & H2 & H3). rewrite Forall_forall in H1. rewrite Forall_forall in H2. split.
  - intros pf c Hp Hc. specialize (H1 pf Hp). rewrite Forall_forall in H1. by apply H1.
  - destruct (name o) as [|c r]; [done|]. exists c, r. split; [done|]. intros x Hx E. apply (H2 x Hx). cbn. by rewrite E.
Qed.

Lemma option_bound_spec fuel l n first count :
  count < fuel → first + count ≤ length l →
  (∀ i j o o', i < j → l !! i = Some o → l !! j = Some o' → opt_name_less o' n = true → opt_name_less o n = true) →
  (∀ i o, i < first → l !! i = Some o → opt_name_less o n = true) →
  let k := lower_bound fuel l n first count in k ≤ length l ∧ ∀ i o, i < k → l !! i = Some o → opt_name_less o n = true.
Proof.
  intros Hf Hb Hmono. revert first count Hf Hb. induction fuel as [|fuel IH]; intros first count Hf Hb Hlo; [lia|]. cbn [lower_bound].
  destruct (Nat.eqb_spec count 0) as [->|Hc]; [split; [lia|done]|]. pose proof (Nat.div_lt count 2 ltac:(lia) ltac:(lia)) as Hh.
  set (half := count / 2) in *. destruct (opt_name_less (l !!! (first + half)) n) eqn:El.
  - apply IH; [lia|lia|]. intros i o Hi Ho. destruct (decide (i = first + half)) as [->|Hne].
    + apply list_lookup_total_correct in Ho. by rewrite Ho in El.
    + eapply (Hmono i (first + half)); [lia|done| |exact El]. apply list_lookup_lookup_total_lt. lia.
  - apply IH; [lia|lia|done].
Qed.

Lemma sensitive_insensitive rest n : starts_with rest n = true → starts_with_insensitive rest n = true.
Proof.
  rewrite starts_with_iff. revert rest. induction n as [|c n IH]; intros [|d rest]; cbn; try done. intros [= -> H]. rewrite byte_eqb_refl. by apply IH.
Qed.

Lemma ltrim_prefix pf s chars : (∀ x, x ∈ pf → x ∈ chars) → ltrim_all_of (pf ++ s) chars = ltrim_all_of s chars.
Proof.
  intros H. induction pf as [|c pf IH]; [done|]. cbn [app ltrim_all_of].
  assert (existsb (λ x, x =?b c) chars = true) as ->.
  { apply existsb_exists. exists c. split; [apply list_elem_of_In, H; left|apply byte_eqb_refl]. }
  apply IH. intros x Hx. apply H. by right.
Qed.

(** The text an option's name is at the start of. *)
Lemma match_opt_trim t o str :
  plain_name t o → match_opt o str (ignore_case t) ≠ 0 →
  starts_with_insensitive (ltrim_all_of str (prefix_chars t)) (name o) = true ∧
  match_opt o str (ignore_case t) = length str - length (ltrim_all_of str (prefix_chars t)) + length (name o).
Proof.
  intros [Hp (c & r & En & Hc)]%plain_name_parts. unfold match_opt. induction (prefixes o) as [|pf ps IH]; cbn [match_prefixes]; [done|].
  case_if; [|apply IH; intros pf' x Hin Hx; by apply (Hp pf' x); [right|]]. intros _. bool_prop.
  assert (Hr : starts_with_insensitive (drop (length pf) str) (name o) = true) by (destruct (ignore_case t); [done|by apply sensitive_insensitive]).
  apply starts_with_iff in H. set (rest := drop (length pf) str) in *. assert (Estr : str = pf ++ rest) by (unfold rest; rewrite <- (take_drop (length pf) str) at 1; by rewrite H).
  assert (Etrim : ltrim_all_of str (prefix_chars t) = rest).
  { rewrite Estr, ltrim_prefix by (intros x Hx; eapply Hp; [left|done]). rewrite En in Hr. destruct rest as [|d rest']; [done|]. cbn in Hr.
    destruct (safe_tolower d =?b safe_tolower c) eqn:Ed; [|done]. apply byte_eqb_spec in Ed. cbn [ltrim_all_of].
    destruct (existsb _ _) eqn:Ex; [|done]. apply existsb_exists in Ex as (x & Hx%list_elem_of_In & E). apply byte_eqb_spec in E as ->. by apply Hc in Hx. }
  rewrite Etrim. split; [done|]. assert (length str = length pf + length rest) by (rewrite Estr at 1; apply length_app). lia.
Qed.

(** Options that do not name the element make no difference. *)
Lemma scan_skip t l opts a index fm p s :
  (∀ o, o ∈ l → match_opt o (arg_text a index) (ignore_case t) = 0) →
  scan_loop t (l ++ opts) a index fm p s = scan_loop t opts a index fm p s.
Proof.
  intros H. induction l as [|o l IH]; [done|]. cbn [app scan_loop]. rewrite (H o) by left. cbn [Nat.eqb orb]. apply IH. intros x Hx. apply H. by right.
Qed.

Section Sorted.
Variables (t : OptTable) (range : list Option) (a : Args) (index : nat) (p : ParseOptions).
Hypothesis Hindex : index < args_size a.
Hypothesis Hover : ∀ j g, overlay a = Some (j, g) → j = index.
Hypothesis Hsorted : names_sorted range.
Hypothesis Hplain : Forall (plain_name t) range.

Abbreviation rest := (ltrim_all_of (arg_text a index) (prefix_chars t)).

Lemma less_skips o : o ∈ range → opt_name_less o rest = true → match_opt o (arg_text a index) (ignore_case t) = 0.
Proof.
  intros Ho Hl. destruct (decide (match_opt o (arg_text a index) (ignore_case t) = 0)) as [|Hne]; [done|]. exfalso.
  rewrite Forall_forall in Hplain. apply match_opt_trim in Hne as [Hs _]; [|by apply Hplain]. apply name_cmp_prefix in Hs.
  unfold opt_name_less in Hl. rewrite name_cmp_ok in Hl. apply Z.ltb_lt in Hl. lia.
Qed.

(** Starting at the lower bound loses no option. *)
Lemma search_loses_nothing fm :
  tablegen_mode t = true → scan_and_accept t range a index fm p = scan_loop t range a index fm p (mkScanning cleared 0 index 0 index None).
Proof.
  intros Ht. unfold scan_and_accept. rewrite Ht.
  destruct (option_bound_spec (S (length range)) range rest 0 (length range)) as [Hk Hless]; [lia|lia| |lia|].
  { intros i j o o' Hij Ho Ho'. unfold opt_name_less. rewrite !name_cmp_ok, !Z.ltb_lt. apply name_cmp_trans.
    rewrite <- name_cmp_ok. by apply (names_sorted_lookup range i j). }
  set (k := lower_bound _ _ _ _ _) in *. rewrite <- (take_drop k range) at 2. symmetry. apply scan_skip. intros o Ho.
  apply elem_of_take in Ho as (i & Ho & Hi). apply less_skips; [by apply list_elem_of_lookup_2 in Ho|by apply (Hless i)].
Qed.

(** The first option that names the element has the longest name. *)
Lemma first_longest l1 o l2 sz i' out :
  range = l1 ++ o :: l2 → attempt t a index p o = Some (sz, (Matched, i', out)) → none t a index p Matched l1 → best t a index p Matched range sz i' out.
Proof.
  intros E Ho Hn. exists l1, o, l2. split; [done|]. split; [done|]. split; [intros o' sz' i'' out' Hin Ha; by apply Hn in Ha|].
  intros o' sz' i'' out' Hin Ha. rewrite Forall_forall in Hplain.
  assert (Hsz : ∀ x n rr ii oo, attempt t a index p x = Some (n, (rr, ii, oo)) → n = match_opt x (arg_text a index) (ignore_case t) ∧ n ≠ 0).
  { intros x n rr ii oo. unfold attempt. case_if; [done|]. bool_prop. intros [= <- _]. done. }
  apply Hsz in Ho as [-> Hne], Ha as [-> Hne']. 
  assert (Hino : o ∈ range) by (rewrite E; apply elem_of_app; right; left). assert (Hino' : o' ∈ range) by (rewrite E; apply elem_of_app; right; by right).
  apply match_opt_trim in Hne as [Hs ->]; [|by apply Hplain]. apply match_opt_trim in Hne' as [Hs' ->]; [|by apply Hplain].
  enough (length (name o') ≤ length (name o)) by lia. apply (name_cmp_longer _ _ rest Hs Hs'). rewrite <- name_cmp_ok.
  apply list_elem_of_lookup in Hin as [j Hj]. apply (names_sorted_lookup range (length l1) (length l1 + S j)); [done|lia|rewrite E; by apply list_lookup_middle|].
  rewrite E, lookup_app_r by lia. replace (length l1 + S j - length l1) with (S j) by lia. done.
Qed.
End Sorted.

(** An option named by the start of an element is the longest the table
    has, the first of those equally long; an option missing its value counts
    only where none is matched, and an element is unknown only where none
    names it. *)
Theorem longest_match t argv i p :
  tablegen_mode t = false → i < length argv → longest_result t (mkArgs argv None) i p (search_range t) (scan_and_accept t (search_range t) (mkArgs argv None) i false p).
Proof. intros Ht Hi. by apply scan_linear. Qed.

Lemma longest_match_witness :
  longest_result demo_table (mkArgs [lit "--out"; lit "x"] None) 0 default_options (search_range demo_table)
    (scan_and_accept demo_table (search_range demo_table) (mkArgs [lit "--out"; lit "x"] None) 0 false default_options).
Proof. apply longest_match; [vm_compute; reflexivity|cbn; lia]. Defined.

(** C34. In a table sorted by name, searching from the lower bound of the
    element's name gives what scanning the whole table would, and the first
    option that matches is the longest that does. *)
Theorem sorted_search t argv i p :
  i < length argv → names_sorted (search_range t) → Forall (plain_name t) (search_range t) → tablegen_mode t = true →
  let a := mkArgs argv None in
  let r := scan_and_accept t (search_range t) a i true p in
  r = scan_loop t (search_range t) a i true p (mkScanning cleared 0 i 0 i None) ∧
  match result r with
  | Matched => ∃ sz, best t a i p Matched (search_range t) sz (new_index r) (scan_out r)
  | NoMatch => none t a i p Matched (search_range t) ∧ none t a i p MissingValue (search_range t)
  | MissingValue => length argv < new_index r
  end.
Proof.
  intros Hi Hs Hp Ht a r. assert (Hover : ∀ j g, overlay a = Some (j, g) → j = i) by done.
  pose proof (search_loses_nothing t (search_range t) a i p Hi Hs Hp true Ht) as E. split; [exact E|].
  destruct (scan_first t a i p Hi Hover [] (search_range t) (mkScanning cleared 0 i 0 i None)) as [H _]; try done. 1,2: by intros ? ? ? ? ?%elem_of_nil.
  fold r in E. rewrite <- E in H. cbn [app] in H. unfold first_result in H. destruct (result r) eqn:Er; [| done|].
  - destruct H as (l1 & o & l2 & sz & out & El & Ho & Hout & Hn & _). exists sz. rewrite Hout by done. by apply (first_longest t _ a i p Hi Hs Hp l1 o l2).
  - destruct H as (l1 & o & l2 & sz & out & El & Ho & _). by apply (attempt_ok t a i p Hi Hover) in Ho as (_ & _ & Ho).
Qed.

Definition sorted_table : OptTable :=
  let d := [lit "-"] in
  let t := new_table
    [input 1; unknown 2; unaliased_one d (lit "-all") 3 Flag 0; unaliased_one d (lit "-a") 4 Joined 0;
     unaliased_one d (lit "-out") 5 Separate 0; unaliased_one d (lit "-o") 6 JoinedOrSeparate 0] true [] in
  mkTable (option_infos t) (prefixes_union t) (prefix_chars t) 1 2 (first_searchable_index t) true true false.

Lemma sorted_search_witness :
  let a := mkArgs [lit "-Output"] None in
  let r := scan_and_accept sorted_table (search_range sorted_table) a 0 true default_options in
  r = scan_loop sorted_table (search_range sorted_table) a 0 true default_options (mkScanning cleared 0 0 0 0 None) ∧ arg_id (scan_out r) = 6.
Proof.
  intros a r. split; [|vm_compute; reflexivity]. apply (sorted_search sorted_table [lit "-Output"] 0 default_options).
  - cbn. lia.
  - change (search_range sorted_table) with (drop 2 (option_infos sorted_table)). cbn [drop option_infos sorted_table].
    repeat (constructor; [|repeat (constructor; [vm_compute; discriminate|]); constructor]). constructor.
  - apply (bool_decide_eq_true_1 _). vm_compute. reflexivity.
  - reflexivity.
Defined.

(** ** Writing an option back *)

Definition commas (vs : list bytes) : bytes := mjoin (imap (λ i v, if i =? 0 then v else ","%byte :: v) vs).

Lemma commas_cons v vs : commas (v :: vs) = v ++ mjoin ((λ w, ","%byte :: w) <$> vs).
Proof.
  unfold commas. cbn [imap mjoin list_join]. f_equal. f_equal. rewrite <- imap_const with (f := λ w, ","%byte :: w).
  apply imap_ext. intros i x _. cbn. done.
Qed.

Lemma split_commas_word v s : ","%byte ∉ v → split_commas (v ++ s) = match split_commas s with w :: ws => (v ++ w) :: ws | [] => [v] end.
Proof.
  intros H. induction v as [|c v IH].
  - cbn [app]. destruct s as [|d s]; [done|]. cbn [split_commas]. destruct (d =?b ","%byte); [done|]. by destruct (split_commas s).
  - apply not_elem_of_cons in H as [Hc H]. cbn [app split_commas]. rewrite (proj2 (byte_eqb_neq c ","%byte)) by congruence. rewrite IH by done.
    by destruct (split_commas s).
Qed.

Lemma split_commas_join v vs : Forall (λ w, ","%byte ∉ w) (v :: vs) → split_commas (commas (v :: vs)) = v :: vs.
Proof.
  intros H. rewrite commas_cons. revert v H. induction vs as [|w vs IH]; intros v H; apply Forall_cons in H as [Hv H].
  - cbn. rewrite split_commas_word by done. cbn. by rewrite app_nil_r.
  - rewrite split_commas_word by done. cbn [fmap list_fmap mjoin list_join app split_commas]. rewrite byte_eqb_refl, IH by done. by rewrite app_nil_r.
Qed.

Lemma split_commas_clean s : Forall (λ w, ","%byte ∉ w) (split_commas s).
Proof.
  induction s as [|c s IH]; cbn [split_commas]; [rewrite Forall_singleton; apply not_elem_of_nil|]. destruct (c =?b ","%byte) eqn:E; [constructor; [apply not_elem_of_nil|done]|].
  apply byte_eqb_neq in E. destruct (split_commas s) as [|w ws]; [rewrite Forall_singleton, list_elem_of_singleton; congruence|].
  apply Forall_cons in IH as [Hw Hws]. constructor; [|done]. apply not_elem_of_cons. split; [congruence|done].
Qed.

Lemma filter_all {A} (f : A → bool) l : Forall (λ x, f x = true) l → List.filter f l = l.
Proof. induction 1 as [|x l Hx _ IH]; [done|]. cbn. by rewrite Hx, IH. Qed.

Lemma filter_Forall {A} (f : A → bool) (P : A → Prop) l : Forall P l → Forall P (List.filter f l) ∧ Forall (λ x, f x = true) (List.filter f l).
Proof. induction 1 as [|x l Hx _ [IH1 IH2]]; [done|]. cbn. destruct (f x) eqn:E; [|done]. split; by constructor. Qed.

(** Values joined by commas are read back. *)
Lemma comma_texts_join s : comma_texts (commas (comma_texts s)) = comma_texts s.
Proof.
  unfold comma_texts at 2 3. destruct (filter_Forall (λ w : bytes, negb (bool_decide (w = []))) _ _ (split_commas_clean s)) as [Hc Hn].
  destruct (List.filter _ (split_commas s)) as [|v vs]; [done|]. unfold comma_texts. rewrite split_commas_join by done. by apply filter_all.
Qed.

Lemma comma_values_text a index sz :
  sz ≤ length (arg_text a index) →
  text_of a <$> ((λ q, arg_view a index q.1 q.2) <$> comma_parts (drop sz (arg_text a index)) sz sz) = comma_texts (drop sz (arg_text a index)).
Proof.
  intros Hsz. rewrite <- list_fmap_compose.
  assert (Ho : (text_of a ∘ (λ q, arg_view a index q.1 q.2)) <$> comma_parts (drop sz (arg_text a index)) sz sz =
               (λ q, substr (arg_text a index) q.1 q.2) <$> comma_parts (drop sz (arg_text a index)) sz sz).
  { apply list_fmap_ext. intros i q _. cbn. apply arg_view_text. }
  rewrite Ho, (comma_parts_text (arg_text a index)) by (done || lia). rewrite Nat.sub_diag, substr_none. unfold comma_texts. f_equal. cbn.
  by destruct (split_commas (drop sz (arg_text a index))).
Qed.

(** An option of the table that is no alias and is rendered in its own style. *)
Definition canonical (t : OptTable) (o : Option) : Prop :=
  option_at t (id o) = Some o ∧ alias_id o = 0 ∧ has_bits (flags o) RenderAsInput = false ∧ has_bits (flags o) RenderJoined = false ∧
  has_bits (flags o) RenderSeparate = false.

Lemma canonical_accept t o a sp index :
  canonical t o → accept_opt t o a sp false index =
  let '(r, i', out) := accept_internal o a sp index in if bool_decide (r = Matched) then (Matched, i', with_id out (id o)) else (r, i', out).
Proof.
  intros (_ & Ha & _). unfold accept_opt. cbn [andb]. destruct (accept_internal o a sp index) as [[r i'] out].
  destruct (bool_decide (r = Matched)); [|done]. cbn [negb]. assert (unaliased_option t o = o) as ->.
  { unfold unaliased_option. cbn [unaliased_from]. unfold alias. by rewrite Ha. }
  by rewrite Nat.eqb_refl.
Qed.

Lemma frag_texts l i n : i + n ≤ length l → text_of (mkArgs l None) <$> elements_from (mkArgs l None) i n = substr l i n.
Proof.
  intros H. unfold elements_from. rewrite <- list_fmap_compose. apply list_eq. intros k. unfold substr.
  destruct (decide (k < n)) as [Hk|Hk].
  - rewrite list_lookup_fmap, lookup_seq_lt by done. cbn [fmap option_fmap option_map compose]. rewrite arg_from_text, drop_0.
    rewrite lookup_take_lt, lookup_drop by done. symmetry. assert (Hl : i + k < length l) by lia. exact (list_lookup_lookup_total_lt l (i + k) Hl).
  - rewrite list_lookup_fmap, lookup_seq_ge, lookup_take_ge by lia. done.
Qed.

(** The number of values of an option of its kind. *)
Definition values_count (o : Option) (n : nat) : Prop :=
  match kind o with
  | Flag => n = 0
  | Joined | Separate | JoinedOrSeparate => n = 1
  | JoinedAndSeparate => n = 2
  | MultiArg => n = num_args o
  | _ => True
  end.

(** What accepting an option says of its values. *)
Lemma accept_internal_values o a sz index i' out :
  sz ≤ length (arg_text a index) → accept_internal o a (take sz (arg_text a index)) index = (Matched, i', out) →
  values_count o (length (values out)) ∧
  (kind o = CommaJoined → text_of a <$> values out = comma_texts (drop sz (arg_text a index))).
Proof.
  intros Hsz. unfold accept_internal, values_count. rewrite length_take, Nat.min_l by done.
  destruct (kind o); repeat case_if; intros [= <- <-]; (split; [|done || (intros _; by apply comma_values_text)]); try done.
  cbn. unfold elements_from. by rewrite length_fmap, length_seq.
Qed.

(** Kinds whose values stand behind the name, and kinds whose first is joined to it. *)
Definition spaced (k : OptionKind) : bool :=
  match k with Flag | Separate | MultiArg | JoinedOrSeparate | RemainingArgs | RemainingArgsJoined => true | _ => false end.
Definition glued (k : OptionKind) : bool := match k with Joined | JoinedAndSeparate => true | _ => false end.

Section Reparse.
Variables (o : Option) (texts : list bytes).
Abbreviation n := (prefixed_name o).

(** The name and then the values, each an element. *)
Lemma reparse_separate :
  values_count o (length texts) → spaced (kind o) = true →
  let b := mkArgs (n :: texts) None in
  ∃ out, accept_internal o b n 0 = (Matched, length (n :: texts), out) ∧ text_of b <$> values out = texts.
Proof.
  intros Hc Hk b. assert (Hall : text_of b <$> elements_from b 1 (length texts) = texts).
  { unfold b. rewrite frag_texts by (cbn; lia). unfold substr. cbn [drop]. by apply take_ge. }
  assert (Hone : ∀ v, texts = [v] → text_of b (arg_from b 1 0) = v) by (intros v E; unfold b; rewrite arg_from_text, E; done).
  assert (Et : arg_text b 0 = n) by done. assert (Es : args_size b = S (length texts)) by done.
  assert (Hmax : S (length texts) `max` (0 + 1) = S (length texts)) by lia. assert (Hsub : S (length texts) - (0 + 1) = length texts) by lia.
  unfold accept_internal, values_count in *. rewrite Et, Es, Nat.eqb_refl, Hmax, Hsub. cbn [negb app].
  destruct (kind o); try done; cbn [length].
  - destruct texts; [|done]. eexists. split; [done|done].
  - destruct texts as [|v [|]]; try done. eexists. split; [done|]. cbn [values fmap list_fmap Nat.add]. by rewrite (Hone v).
  - rewrite <- Hc. rewrite (proj2 (Nat.ltb_ge _ _)) by lia. eexists. split; [done|]. exact Hall.
  - destruct texts as [|v [|]]; try done. eexists. split; [done|]. cbn [values fmap list_fmap Nat.add]. by rewrite (Hone v).
  - eexists. split; [done|]. exact Hall.
  - eexists. split; [done|]. exact Hall.
Qed.

(** The first value behind the name. *)
Lemma reparse_joined :
  values_count o (length texts) → glued (kind o) = true →
  let b := mkArgs ((n ++ default [] (texts !! 0)) :: drop 1 texts) None in
  ∃ out, accept_internal o b n 0 = (Matched, length (list_ b), out) ∧ text_of b <$> values out = texts.
Proof.
  intros Hc Hk b. assert (Hr : text_of b (arg_from b 0 (length n)) = default [] (texts !! 0)) by (unfold b; rewrite arg_from_text; apply drop_app_length).
  unfold accept_internal, values_count in *. destruct (kind o); try done.
  - destruct texts as [|v [|]]; try done. eexists. split; [done|]. cbn [values fmap list_fmap]. by rewrite Hr.
  - destruct texts as [|v [|w [|]]]; try done. eexists. split; [done|]. cbn [values fmap list_fmap]. rewrite Hr, arg_from_text. done.
Qed.

Lemma reparse_commas s :
  texts = comma_texts s → kind o = CommaJoined →
  let b := mkArgs [n ++ commas texts] None in
  ∃ out, accept_internal o b n 0 = (Matched, 1, out) ∧ text_of b <$> values out = texts.
Proof.
  intros E Hk b. unfold accept_internal. rewrite Hk. eexists. split; [done|]. cbn [values].
  assert (Et : arg_text b 0 = n ++ commas texts) by done. rewrite (comma_values_text b 0 (length n)) by (rewrite Et, length_app; lia).
  rewrite Et, drop_app_length, E. apply comma_texts_join.
Qed.
End Reparse.

Lemma render_reparse_ok t o a sz index i' out :
  canonical t o → sz ≤ length (arg_text a index) → accept_opt t o a (take sz (arg_text a index)) false index = (Matched, i', out) →
  let texts := text_of a <$> values out in
  let frags := render t (arg_id out) (spelling out) texts in
  ∃ out', accept_opt t o (mkArgs frags None) (prefixed_name o) false 0 = (Matched, length frags, out') ∧
    arg_id out' = arg_id out ∧ text_of (mkArgs frags None) <$> values out' = texts.
Proof.
  intros Hcan Hsz. rewrite canonical_accept by done. destruct (accept_internal o a _ index) as [[r j] out0] eqn:Ea.
  case_bool_decide as Er; [|intros [= -> _ _]; done]. intros [= _ <-]. subst r. intros texts frags. cbn [arg_id spelling values with_id] in *.
  destruct (accept_internal_values o a sz index j out0 Hsz Ea) as [Hc Hcomma].
  assert (Hcount : values_count o (length texts)) by (unfold texts; by rewrite length_fmap).
  assert (Hgo : ∀ out', accept_internal o (mkArgs frags None) (prefixed_name o) 0 = (Matched, length frags, out') →
    text_of (mkArgs frags None) <$> values out' = texts → ∃ out'', accept_opt t o (mkArgs frags None) (prefixed_name o) false 0 = (Matched, length frags, out'') ∧
    arg_id out'' = id o ∧ text_of (mkArgs frags None) <$> values out'' = texts).
  { intros out' E Ht. rewrite canonical_accept, E by done. rewrite bool_decide_true by done. eexists. split; [done|]. done. }
  destruct Hcan as (Hat & Hal & H1 & H2 & H3). 
  assert (Eu : unaliased_option t o = o) by (unfold unaliased_option; cbn [unaliased_from]; unfold alias; by rewrite Hal).
  assert (Ef : frags = render t (id o) (spelling out0) texts) by done. clearbody frags. unfold render in Ef.
  rewrite Hat, Eu, H1 in Ef. unfold render_style in Ef. rewrite H2, H3 in Ef.
  destruct (kind o) eqn:Ek; try (by unfold accept_internal in Ea; rewrite Ek in Ea); subst frags;
    try (destruct (reparse_separate o texts Hcount ltac:(by rewrite Ek)) as (out' & E1 & E2); exact (Hgo out' E1 E2));
    try (destruct (reparse_joined o texts Hcount ltac:(by rewrite Ek)) as (out' & E1 & E2); exact (Hgo out' E1 E2)).
  destruct (reparse_commas o texts _ (Hcomma eq_refl) Ek) as (out' & E1 & E2). exact (Hgo out' E1 E2).
Qed.


