(* ===== verification/CliError.v ===== *)
(** How an error of the command line is shown: src/cli/error.cc and
    src/cli/ansi.h.

    Sizes are [nat]; where the source subtracts it has just compared, so that
    nothing wraps around. *)

From Stdlib Require Import Strings.Byte ZArith Lia Bool.
From stdpp Require Import prelude strings.
From S2P Require Import Prelude Swar Naming Charconv CliTable.
Local Open Scope kota_scope.
Local Open Scope nat_scope.

(** ** Colors *)

Definition esc (s : bytes) : bytes := x1b :: s.
Definition ansi_reset : bytes := esc (lit "[0m").
Definition ansi_bold : bytes := esc (lit "[1m").
Definition ansi_syntax : bytes := esc (lit "[1;38;5;117m").
Definition ansi_help : bytes := esc (lit "[39m").
Definition ansi_error : bytes := esc (lit "[1;38;5;203m").
Definition ansi_marker : bytes := esc (lit "[1;38;5;204m").

Definition paint (ansi text : bytes) : bytes := if bool_decide (text = []) then [] else ansi ++ text ++ ansi_reset.

Record Style := mkStyle { color : bool; help_column : nat; argv_width : nat }.
Definition default_style : Style := mkStyle false 32 96.

(** ** The line of an argv *)

(** The elements joined by spaces, and where each starts: [join_argv]. *)
Definition join_step (joined : bytes * list nat) (argument : bytes) : bytes * list nat :=
  let '(line, starts) := joined in
  let line := if bool_decide (starts = []) then line else line ++ lit " " in
  (line ++ argument, starts ++ [length line]).

Definition join_argv (argv : list bytes) : bytes * list nat := foldl join_step ([], []) argv.

Record Excerpt := mkExcerpt { shown_line : bytes; marker_start : nat; marker_width : nat }.

Definition ellipsis : bytes := lit "...".

(** Where the part that is kept starts and ends, and whether each side is cut. *)
Definition window (size start max_width : nat) : nat * nat * bool * bool :=
  let between := if 2 * 3 <? max_width then max_width - 2 * 3 else 0 in
  let context := 16 `min` (if between =? 0 then 0 else between - 1) in
  let content_start :=
    if size <=? start then size - (max_width - 3) else if context <? start then start - context else 0 in
  let crop_left := 0 <? content_start in
  let available := if crop_left then max_width - 3 else max_width in
  let content_end := size `min` (content_start + available) in
  let crop_right := content_end <? size in
  let '(available, content_end, crop_right) :=
    if crop_right then
      if 3 <? available then (available - 3, content_start + (available - 3), true) else (available, content_end, false)
    else (available, content_end, crop_right) in
  let content_start := if content_end =? size then size - available else content_start in
  (content_start, content_end, crop_left, crop_right).

Definition excerpt (line : bytes) (start width max_width : nat) : Excerpt :=
  if (max_width =? 0) || (length line <=? max_width) then mkExcerpt line start width
  else if max_width <=? 3 then mkExcerpt (take max_width ellipsis) 0 1
  else
    let '(content_start, content_end, crop_left, crop_right) := window (length line) start max_width in
    let cut := (if crop_left then ellipsis else []) ++ substr line content_start (content_end - content_start)
               ++ (if crop_right then ellipsis else []) in
    let visible_start := if start <=? content_start then 0 else start - content_start in
    let visible_width := if start <? content_end then content_end - (start `max` content_start) else 0 in
    mkExcerpt cut ((if crop_left then 3 else 0) + visible_start) (1 `max` (width `min` visible_width)).

Definition highlight (text : bytes) (start width : nat) (ansi : bytes) : bytes :=
  if length text <=? start then text
  else
    let width := width `min` (length text - start) in
    take start text ++ ansi ++ substr text start width ++ ansi_reset ++ drop (start + width) text.

(** ** Rendering *)

(** The box-drawing characters, in UTF-8. *)
Definition bar : bytes := [xe2; x94; x82].
Definition arrow : bytes := [xe2; x95; xb0; xe2; x94; x80; xe2; x96; xb6].

Definition said (message suggestion : bytes) : bytes :=
  if bool_decide (suggestion = []) then message else message ++ lit "; did you mean '" ++ suggestion ++ lit "'?".

(** Where the mark goes in the joined line: its start and width. *)
Definition mark (argv : list bytes) (begin end_ : nat) : nat * nat :=
  let argc := length argv in
  let first := begin `min` argc in
  let last := (end_ `min` argc) `max` (first + 1) in
  let '(line, starts) := join_argv argv in
  if first =? argc then (length line, 1)
  else
    let at_ := starts !!! first in
    (at_, 1 `max` (starts !!! (last - 1) + length (argv !!! (last - 1)) - at_)).

(** The line an error shows of its argv. *)
Definition shown (argv : list bytes) (begin end_ W : nat) : Excerpt :=
  let '(start, width) := mark argv begin end_ in excerpt (join_argv argv).1 start width W.

Definition newline : bytes := [x0a].

Definition render_error (e : Error) (suggestion : bytes) (style : Style) : bytes :=
  let said := said (error_message e) suggestion in
  match error_argv e with
  | [] => if color style then paint ansi_error (lit "error") ++ lit " " ++ paint ansi_bold said else said
  | argv =>
      let first := error_begin e `min` length argv in
      let at_end := first =? length argv in
      let shown := shown argv (error_begin e) (error_end e) (argv_width style) in
      let number := format_u64 (Z.of_nat first) in
      if negb (color style) then
        (if at_end then lit "at end of argv" else lit "at argv[" ++ number ++ lit "]") ++ lit ":" ++ newline
        ++ lit "  " ++ shown_line shown ++ newline
        ++ lit "  " ++ replicate (marker_start shown) " "%byte ++ lit "^" ++ replicate (marker_width shown - 1) "~"%byte ++ newline
        ++ lit "  " ++ said
      else
        paint ansi_error (lit "error") ++ lit " "
        ++ paint ansi_help (if at_end then lit "[argv[end]]" else lit "[argv[" ++ number ++ lit "]]") ++ newline
        ++ paint ansi_help bar ++ newline
        ++ paint ansi_help bar ++ lit " " ++ highlight (shown_line shown) (marker_start shown) (marker_width shown) ansi_syntax ++ newline
        ++ paint ansi_help bar ++ lit " " ++ replicate (marker_start shown) " "%byte ++ paint ansi_marker arrow ++ lit " " ++ paint ansi_bold said
  end.

Example render_demo :
  render_error (mkError (lit "invalid integer value: many") [lit "--jobs"; lit "many"] 1 2) [] default_style =
  lit "at argv[1]:" ++ newline ++ lit "  --jobs many" ++ newline ++ lit "         ^~~~" ++ newline ++ lit "  invalid integer value: many".
Proof. vm_compute. reflexivity. Qed.

(** ** The excerpt *)

Ltac window_cases := repeat split; intros; try done; lia.

Lemma window_ok size start W :
  3 < W < size →
  let '(cs, ce, cl, cr) := window size start W in
  cs ≤ ce ≤ size ∧ (if cl then 3 else 0) + (ce - cs) + (if cr then 3 else 0) ≤ W ∧
  (cl = false → cs = 0) ∧ (cr = false → ce = size ∨ W ≤ 6) ∧
  (start < size → cs ≤ start < ce) ∧ (size ≤ start → ce = size ∧ cl = true ∧ cr = false).
Proof.
  intros HW. unfold window.
  destruct (Nat.ltb_spec (2 * 3) W) as [Hb|Hb].
  - set (context := 16 `min` _). assert (Hctx : context ≤ W - 7) by (unfold context; case_if; lia). clearbody context.
    destruct (Nat.leb_spec size start) as [Hs|Hs].
    + destruct (Nat.ltb_spec 0 (size - (W - 3))); [|lia]. rewrite Nat.min_l by lia. rewrite Nat.ltb_irrefl, Nat.eqb_refl. window_cases.
    + destruct (Nat.ltb_spec context start) as [Hc|Hc].
      * destruct (Nat.ltb_spec 0 (start - context)); [|lia].
        destruct (Nat.ltb_spec (size `min` (start - context + (W - 3))) size) as [He|He].
        -- destruct (Nat.ltb_spec 3 (W - 3)) as [Ha|Ha].
           ++ destruct (Nat.eqb_spec (start - context + (W - 3 - 3)) size); window_cases.
           ++ lia.
        -- destruct (Nat.eqb_spec (size `min` (start - context + (W - 3))) size); window_cases.
      * change (0 <? 0) with false. cbv iota. rewrite Nat.add_0_l. rewrite (proj2 (Nat.ltb_lt (size `min` W) size)) by lia.
        rewrite (proj2 (Nat.ltb_lt 3 W)) by lia. rewrite Nat.add_0_l, (proj2 (Nat.eqb_neq (W - 3) size)) by lia. window_cases.
  - cbn [Nat.eqb]. rewrite Nat.min_0_r. destruct (Nat.leb_spec size start) as [Hs|Hs].
    + destruct (Nat.ltb_spec 0 (size - (W - 3))); [|lia]. rewrite Nat.min_l by lia. rewrite Nat.ltb_irrefl, Nat.eqb_refl. window_cases.
    + destruct (Nat.ltb_spec 0 start) as [Hc|Hc].
      * rewrite Nat.sub_0_r. destruct (Nat.ltb_spec 0 start); [|lia].
        destruct (Nat.ltb_spec (size `min` (start + (W - 3))) size) as [He|He].
        -- destruct (Nat.ltb_spec 3 (W - 3)) as [Ha|Ha]; [lia|].
           destruct (Nat.eqb_spec (size `min` (start + (W - 3))) size); window_cases.
        -- destruct (Nat.eqb_spec (size `min` (start + (W - 3))) size); window_cases.
      * change (0 <? 0) with false. cbv iota. rewrite Nat.add_0_l. rewrite (proj2 (Nat.ltb_lt (size `min` W) size)) by lia.
        rewrite (proj2 (Nat.ltb_lt 3 W)) by lia. rewrite Nat.add_0_l, (proj2 (Nat.eqb_neq (W - 3) size)) by lia. window_cases.
Qed.

Lemma substr_app_left {A} (a b : list A) i n : i + n ≤ length a → substr (a ++ b) i n = substr a i n.
Proof. intros H. unfold substr. rewrite drop_app_le, take_app_le by (rewrite ?length_drop; lia). done. Qed.

Lemma substr_app_right {A} (a b : list A) i n : length a ≤ i → substr (a ++ b) i n = substr b (i - length a) n.
Proof. intros H. unfold substr. by rewrite drop_app_ge. Qed.

Lemma substr_substr {A} (s : list A) a m i n : i + n ≤ m → substr (substr s a m) i n = substr s (a + i) n.
Proof. intros H. unfold substr. rewrite skipn_firstn_comm, take_take, Nat.min_l, drop_drop by lia. done. Qed.

Lemma excerpt_ok line start width W :
  1 ≤ width → start < length line → start + width ≤ length line →
  let e := excerpt line start width W in
  (W ≠ 0 → length (shown_line e) ≤ W) ∧ 1 ≤ marker_width e ≤ width ∧
  (W = 0 ∨ 3 < W → marker_start e + marker_width e ≤ length (shown_line e) ∧
     substr (shown_line e) (marker_start e) (marker_width e) = substr line start (marker_width e)).
Proof.
  intros Hw Hs Hsw. unfold excerpt. destruct (Nat.eqb_spec W 0) as [->|HW]; [cbn; by repeat split; lia|]. cbn [orb].
  destruct (Nat.leb_spec (length line) W) as [Hle|Hlt]; [cbn; by repeat split; lia|].
  destruct (Nat.leb_spec W 3) as [H3|H3]; [cbn; rewrite length_take; cbn; by repeat split; lia|].
  pose proof (window_ok (length line) start W ltac:(lia)) as Hwin. destruct (window (length line) start W) as [[[cs ce] cl] cr].
  destruct Hwin as (Hc & Hlen & Hleft & Hright & Hin & _). specialize (Hin Hs). cbv zeta. cbn [shown_line marker_start marker_width].
  rewrite (proj2 (Nat.ltb_lt start ce)) by lia. rewrite (Nat.max_l start cs) by lia.
  assert (Hmid : length (substr line cs (ce - cs)) = ce - cs) by (rewrite length_substr; lia).
  assert (Hvis : (if start <=? cs then 0 else start - cs) = start - cs) by (destruct (Nat.leb_spec start cs); lia). rewrite Hvis.
  set (pre := if cl then ellipsis else []). assert (Hpre : length pre = if cl then 3 else 0) by (unfold pre; by destruct cl). rewrite <- Hpre in *.
  assert (Hpost : length (if cr then ellipsis else []) = if cr then 3 else 0) by (by destruct cr).
  set (mw := 1 `max` (width `min` (ce - start))). assert (Hmw : 1 ≤ mw ≤ width ∧ start + mw ≤ ce) by (unfold mw; lia).
  split; [intros _; rewrite !length_app, Hmid, Hpost; lia|]. split; [lia|]. intros _. rewrite !length_app, Hmid. split; [lia|].
  rewrite substr_app_right by lia. rewrite substr_app_left by (rewrite Hmid; lia). rewrite substr_substr by lia. f_equal. lia.
Qed.

(** ** The mark *)

Lemma join_argv_snoc argv x : join_argv (argv ++ [x]) = join_step (join_argv argv) x.
Proof. unfold join_argv. by rewrite foldl_app. Qed.

(** Every element stands in the line where it is said to start. *)
Lemma join_argv_ok argv :
  let '(line, starts) := join_argv argv in
  length starts = length argv ∧
  ∀ i x, argv !! i = Some x → starts !!! i + length x ≤ length line ∧ substr line (starts !!! i) (length x) = x.
Proof.
  induction argv as [|x argv IH] using rev_ind; [done|]. rewrite join_argv_snoc. destruct (join_argv argv) as [line starts]. destruct IH as [Hl Hi].
  cbn [join_step]. set (line' := if bool_decide (starts = []) then line else line ++ lit " ").
  assert (Hpre : ∃ s, line' = line ++ s) by (unfold line'; case_bool_decide; [exists []; by rewrite app_nil_r|by eexists]). destruct Hpre as [s Es].
  split; [rewrite !length_app; cbn; lia|]. intros i y Hy. destruct (decide (i < length argv)) as [Hlt|Hge].
  - rewrite lookup_app_l in Hy by done. destruct (Hi i y Hy) as [H1 H2]. rewrite lookup_total_app_l by lia. rewrite Es, <- app_assoc, !length_app. split; [lia|].
    by rewrite substr_app_left by lia.
  - apply lookup_lt_Some in Hy as Hb. rewrite length_app in Hb. cbn in Hb. assert (i = length argv) as -> by lia.
    rewrite lookup_app_r, Nat.sub_diag in Hy by lia. injection Hy as <-. rewrite lookup_total_app_r by lia. rewrite Hl, Nat.sub_diag.
    change ([length line'] !!! 0) with (length line'). rewrite length_app. split; [lia|]. rewrite substr_app_right, Nat.sub_diag by lia. unfold substr. rewrite drop_0. by apply take_ge.
Qed.

Lemma starts_mono argv i j x :
  i ≤ j → argv !! j = Some x → let starts := (join_argv argv).2 in starts !!! i ≤ starts !!! j.
Proof.
  revert i j x. induction argv as [|y argv IH] using rev_ind; intros i j x Hij Hx; [done|]. rewrite join_argv_snoc.
  pose proof (join_argv_ok argv) as Hok. cbv zeta in *. destruct (join_argv argv) as [line starts]. destruct Hok as [Hl Hi]. cbn [join_step snd] in *.
  apply lookup_lt_Some in Hx as Hj. rewrite length_app in Hj. cbn in Hj. destruct (decide (j < length argv)) as [Hlt|Hge].
  - rewrite !lookup_total_app_l by lia. eapply IH; [done|]. rewrite lookup_app_l in Hx by done. exact Hx.
  - assert (j = length argv) as -> by lia. rewrite (lookup_total_app_r _ _ (length argv)) by lia. rewrite Hl, Nat.sub_diag.
    set (line' := if bool_decide (starts = []) then line else line ++ lit " "). change ([length line'] !!! 0) with (length line').
    assert (Hlen : length line ≤ length line') by (unfold line'; case_bool_decide; [lia|rewrite length_app; lia]).
    destruct (decide (i < length argv)) as [Hi'|Hi'].
    + rewrite lookup_total_app_l by lia. destruct (Hi i (argv !!! i)) as [H _]; [by apply list_lookup_lookup_total_lt|]. lia.
    + assert (i = length argv) as -> by lia. rewrite lookup_total_app_r by lia. rewrite Hl, Nat.sub_diag. done.
Qed.

(** The text of the element at fault stands at the mark. *)
Lemma shown_ok argv begin end_ W :
  begin < end_ → end_ ≤ length argv → Forall (λ x, x ≠ []) argv → W = 0 ∨ 3 < W →
  let e := shown argv begin end_ W in
  let x := argv !!! begin in
  let n := marker_width e `min` length x in
  (W ≠ 0 → length (shown_line e) ≤ W) ∧ 1 ≤ n ∧ substr (shown_line e) (marker_start e) n = take n x.
Proof.
  intros Hb He Hne HW. unfold shown, mark. pose proof (join_argv_ok argv) as Hok. pose proof (λ i j x, starts_mono argv i j x) as Hmono. cbv zeta in *.
  destruct (join_argv argv) as [line starts]. destruct Hok as [Hl Hi]. cbn [fst snd] in *.
  rewrite !Nat.min_l by lia. rewrite (Nat.max_l end_) by lia. rewrite (proj2 (Nat.eqb_neq _ _)) by lia.
  assert (Hx : argv !! begin = Some (argv !!! begin)) by (apply list_lookup_lookup_total_lt; lia).
  assert (Hy : argv !! (end_ - 1) = Some (argv !!! (end_ - 1))) by (apply list_lookup_lookup_total_lt; lia).
  destruct (Hi _ _ Hx) as [Hx1 Hx2]. destruct (Hi _ _ Hy) as [Hy1 Hy2]. pose proof (Hmono begin (end_ - 1) _ ltac:(lia) Hy) as Hle.
  set (x := argv !!! begin) in *. set (y := argv !!! (end_ - 1)) in *. set (width := 1 `max` _).
  assert (Hlx : 1 ≤ length x) by (rewrite Forall_forall in Hne; apply list_elem_of_lookup_2, Hne in Hx; destruct x; [done|cbn; lia]).
  assert (Hly : 1 ≤ length y) by (rewrite Forall_forall in Hne; apply list_elem_of_lookup_2, Hne in Hy; destruct y; [done|cbn; lia]).
  destruct (excerpt_ok line (starts !!! begin) width W) as (H1 & H2 & H3); [unfold width; lia|lia|unfold width; lia|].
  split; [done|]. split; [lia|]. destruct (H3 HW) as [H4 H5]. set (e := excerpt _ _ _ _) in *.
  assert (Ecut : ∀ (s : bytes) i a b, b ≤ a → substr s i b = take b (substr s i a)).
  { intros s i a b Hab. unfold substr. by rewrite take_take, Nat.min_l. }
  rewrite (Ecut _ _ (marker_width e)) by lia. rewrite H5, <- Ecut by lia. rewrite (Ecut _ _ (length x)) by lia. by rewrite Hx2.
Qed.

(** The line an error shows of its argv is cut to its width, and wherever
    it is cut the element at fault stands at the mark: what is marked starts
    with at least the first column of it. *)
Theorem mark_correct argv begin end_ W :
  begin < end_ → end_ ≤ length argv → Forall (λ x, x ≠ []) argv → W = 0 ∨ 3 < W →
  let e := shown argv begin end_ W in
  let x := argv !!! begin in
  let n := marker_width e `min` length x in
  (W ≠ 0 → length (shown_line e) ≤ W) ∧ 1 ≤ n ∧ substr (shown_line e) (marker_start e) n = take n x.
Proof. exact (shown_ok argv begin end_ W). Qed.

Lemma mark_witness :
  let e := shown [lit "--alpha"; lit "one"; lit "--gamma"; lit "three"; lit "--delta"] 2 4 20 in
  length (shown_line e) ≤ 20 ∧ substr (shown_line e) (marker_start e) (marker_width e `min` 7) = take (marker_width e `min` 7) (lit "--gamma").
Proof.
  pose proof (mark_correct [lit "--alpha"; lit "one"; lit "--gamma"; lit "three"; lit "--delta"] 2 4 20
    ltac:(lia) ltac:(cbn; lia) ltac:(by repeat constructor) ltac:(lia)) as (H1 & H2 & H3).
  split; [apply H1; lia|exact H3].
Defined.
