(* ===== verification/CliNode.v ===== *)
(** What an argv gives a command's fields: the tree the decode reads
    (include/kotatsu/cli/parse.h, [Node]), and how src/cli/command.cc finds and
    makes its nodes.

    [make_node] gives a reference to a node, which the caller then changes: here
    it takes the change.  The theorems say that what is made is found, changed
    as asked, and that nodes which are not on the way stay as they are. *)

From Stdlib Require Import Strings.Byte Lia Bool.
From stdpp Require Import prelude list.
From S2P Require Import Prelude.

(** [Node::Kind]. *)
Inductive NodeKind := Flag | Count | Text | List | Object | Variant.

#[export] Instance node_kind_eq_dec : EqDecision NodeKind.
Proof. solve_decision. Defined.

(** [Node]: [keys] names the [items] of an [Object]. *)
Inductive Node := mkNode (kind : NodeKind) (count : nat) (text : bytes) (begin end_ : nat) (keys : list bytes) (items : list Node).

Definition kind (n : Node) : NodeKind := let 'mkNode k _ _ _ _ _ _ := n in k.
Definition count (n : Node) : nat := let 'mkNode _ c _ _ _ _ _ := n in c.
Definition text (n : Node) : bytes := let 'mkNode _ _ t _ _ _ _ := n in t.
Definition begin (n : Node) : nat := let 'mkNode _ _ _ b _ _ _ := n in b.
Definition end_ (n : Node) : nat := let 'mkNode _ _ _ _ e _ _ := n in e.
Definition keys (n : Node) : list bytes := let 'mkNode _ _ _ _ _ ks _ := n in ks.
Definition items (n : Node) : list Node := let 'mkNode _ _ _ _ _ _ l := n in l.

(** A node with the default fields but its kind. *)
Definition new_node (k : NodeKind) : Node := mkNode k 0 [] 0 0 [] [].
Definition text_node (t : bytes) (b e : nat) : Node := mkNode Text 0 t b e [] [].

Definition with_items (n : Node) (l : list Node) : Node :=
  mkNode (kind n) (count n) (text n) (begin n) (end_ n) (keys n) l.
Definition with_count (n : Node) (c : nat) : Node :=
  mkNode (kind n) c (text n) (begin n) (end_ n) (keys n) (items n).
Definition with_span (n : Node) (b e : nat) : Node :=
  mkNode (kind n) (count n) (text n) b e (keys n) (items n).
Definition with_field (n : Node) (k : bytes) (m : Node) : Node :=
  mkNode (kind n) (count n) (text n) (begin n) (end_ n) (keys n ++ [k]) (items n ++ [m]).

(** The alternative an exclusive field holds is its fields. *)
Definition enter (n : Node) : Node :=
  if bool_decide (kind n = Variant) then match items n with m :: _ => m | [] => n end else n.

Definition key_index (n : Node) (k : bytes) : option nat :=
  find_index (λ x, bool_decide (x = k)) (keys n).

Fixpoint find_node (n : Node) (ks : list bytes) : option Node :=
  match ks with
  | [] => Some n
  | k :: ks =>
      let n := enter n in
      if negb (bool_decide (kind n = Object)) then None
      else match key_index n k with
           | None => None
           | Some i => match items n !! i with Some m => find_node m ks | None => None end
           end
  end.

(** [make_node], and the change [f] of the node it gives.  A [Variant] on the
    way has its item. *)
Fixpoint make_node (n : Node) (ks : list bytes) (kd : NodeKind) (f : Node → Node) : Node :=
  match ks with
  | [] => f n
  | k :: ks =>
      let go m :=
        match key_index m k with
        | Some i => with_items m (alter (λ x, make_node x ks kd f) i (items m))
        | None =>
            let fresh := new_node (if bool_decide (ks = []) then kd else Object) in
            with_field m k (make_node fresh ks kd f)
        end in
      if bool_decide (kind n = Variant) then with_items n (alter go 0 (items n)) else go n
  end.

(** ** What is made is found *)

(** The nodes from [n] along [ks] take fields: objects, and variants that hold
    one, with a name for every item.  At its end the path may be anything. *)
Fixpoint open (n : Node) (ks : list bytes) : Prop :=
  match ks with
  | [] => True
  | k :: ks =>
      kind (enter n) = Object ∧ length (keys (enter n)) = length (items (enter n)) ∧
      (kind n = Variant → items n ≠ []) ∧
      ∀ i m, key_index (enter n) k = Some i → items (enter n) !! i = Some m → open m ks
  end.

Lemma enter_variant n m ms : kind n = Variant → items n = m :: ms → enter n = m.
Proof. intros H1 H2. unfold enter. by rewrite bool_decide_true, H2. Qed.

Lemma enter_other n : kind n ≠ Variant → enter n = n.
Proof. intros H. unfold enter. by rewrite bool_decide_false. Qed.

Lemma key_index_bound n k i : key_index n k = Some i → i < length (keys n).
Proof. apply find_index_bound. Qed.

Lemma key_index_snoc n k m :
  key_index n k = None → key_index (with_field n k m) k = Some (length (keys n)).
Proof.
  intros H. unfold key_index in *. destruct n. simpl in *. rewrite find_index_app, H. simpl.
  rewrite bool_decide_true by done. simpl. by rewrite Nat.add_0_r.
Qed.

(** One round of [make_node]. *)
Definition make_field (n : Node) (k : bytes) (ks : list bytes) (kd : NodeKind) (f : Node → Node) : Node :=
  match key_index n k with
  | Some i => with_items n (alter (λ x, make_node x ks kd f) i (items n))
  | None => with_field n k (make_node (new_node (if bool_decide (ks = []) then kd else Object)) ks kd f)
  end.

Lemma make_node_cons n k ks kd f :
  make_node n (k :: ks) kd f =
  if bool_decide (kind n = Variant) then with_items n (alter (λ m, make_field m k ks kd f) 0 (items n))
  else make_field n k ks kd f.
Proof. done. Qed.

Lemma make_field_kind n k ks kd f : kind (make_field n k ks kd f) = kind n.
Proof. unfold make_field. by case_match; destruct n. Qed.

Lemma enter_make n k ks kd f :
  (kind n = Variant → items n ≠ []) → kind (enter n) = Object →
  enter (make_node n (k :: ks) kd f) = make_field (enter n) k ks kd f.
Proof.
  intros Hv Hk. rewrite make_node_cons. case_bool_decide as E.
  - destruct (items n) as [|m ms] eqn:Ei; [by destruct (Hv E)|].
    rewrite (enter_variant n m ms) in * by done. apply enter_variant with ms; by destruct n.
  - rewrite (enter_other n) by done. apply enter_other. by rewrite make_field_kind.
Qed.

Lemma make_kind n k ks kd f : kind (make_node n (k :: ks) kd f) = kind n.
Proof. rewrite make_node_cons. case_bool_decide; [by destruct n|apply make_field_kind]. Qed.

Lemma open_new ks : ks ≠ [] → open (new_node Object) ks.
Proof. destruct ks; [done|]. intros _. by split_and!. Qed.

Lemma field_index n k ks kd f :
  length (keys n) = length (items n) →
  ∃ i, key_index (make_field n k ks kd f) k = Some i ∧
    items (make_field n k ks kd f) !! i = Some (make_node (default
      (new_node (if bool_decide (ks = []) then kd else Object)) (key_index n k ≫= (items n !!.))) ks kd f).
Proof.
  intros Hl. unfold make_field. destruct (key_index n k) as [i|] eqn:Ei.
  - assert (Hi : i < length (items n)) by (rewrite <- Hl; by apply (key_index_bound _ k)).
    apply lookup_lt_is_Some in Hi as [m Hm]. exists i. simpl. rewrite Hm.
    destruct n. simpl in *. split; [done|]. by rewrite list_lookup_alter_eq, Hm.
  - exists (length (keys n)). split; [by apply key_index_snoc|]. rewrite Hl. destruct n. simpl.
    by rewrite lookup_app_r, Nat.sub_diag.
Qed.

(** What [make_node] gives is the node its keys find, or a new one. *)
Lemma find_make n ks kd f :
  open n ks → find_node (make_node n ks kd f) ks = Some (f (default (new_node kd) (find_node n ks))).
Proof.
  revert n. induction ks as [|k ks IH]; intros n Ho; [done|].
  destruct Ho as (Hk & Hl & Hv & Hnext). cbn [find_node].
  rewrite enter_make, make_field_kind by done. rewrite !bool_decide_true by done. simpl.
  destruct (field_index (enter n) k ks kd f Hl) as (j & E1 & E2). rewrite E1, E2. clear E1 E2.
  destruct (key_index (enter n) k) as [i|] eqn:Ei; simpl.
  - assert (Hi : i < length (items (enter n))) by (rewrite <- Hl; by apply (key_index_bound _ k)).
    apply lookup_lt_is_Some in Hi as [m Hm]. rewrite Hm. simpl. apply IH. by apply (Hnext i).
  - case_bool_decide as Eks; [by subst|]. rewrite IH by (by apply open_new).
    f_equal. f_equal. destruct ks; [done|]. done.
Qed.

(** ** Nodes off the way *)

Lemma find_index_holds {A} (f : A → bool) s i :
  find_index f s = Some i → ∃ x, s !! i = Some x ∧ f x = true.
Proof.
  revert i. induction s as [|x s IH]; intros i H; [done|]. cbn [find_index] in H.
  destruct (f x) eqn:E; [simplify_eq; by exists x|].
  destruct (find_index f s) as [j|]; [|done]. simplify_eq/=. by apply IH.
Qed.

Lemma key_index_key n k i : key_index n k = Some i → keys n !! i = Some k.
Proof. intros (x & E & Hx)%find_index_holds. apply bool_decide_eq_true in Hx. by subst. Qed.

(** [make_field] leaves what is under other keys. *)
Lemma field_other n k k' ks kd f :
  k' ≠ k → length (keys n) = length (items n) →
  key_index (make_field n k ks kd f) k' = key_index n k' ∧
  ∀ i, key_index n k' = Some i → items (make_field n k ks kd f) !! i = items n !! i.
Proof.
  intros Hne Hl. unfold make_field. destruct (key_index n k) as [j|] eqn:Ej.
  - split; [by destruct n|]. intros i Hi%key_index_key. apply key_index_key in Ej.
    assert (j ≠ i) by (intros ->; congruence). destruct n. simpl in *. by apply list_lookup_alter_ne.
  - split.
    + unfold key_index. destruct n as [? ? ? ? ? kl il]. simpl. rewrite find_index_app. simpl.
      rewrite bool_decide_false by done. by destruct (find_index _ kl).
    + intros i Hi%key_index_bound. destruct n. simpl in *. rewrite lookup_app_l; [done|lia].
Qed.

(** Neither path leads to the other. *)
Fixpoint apart (a b : list bytes) : Prop :=
  match a, b with
  | x :: a, y :: b => x ≠ y ∨ (x = y ∧ apart a b)
  | _, _ => False
  end.

Lemma apart_new a b : apart a b → find_node (new_node Object) b = None.
Proof. destruct a, b; try done. Qed.

Lemma find_make_apart n ks ks' kd f :
  open n ks → apart ks ks' → find_node (make_node n ks kd f) ks' = find_node n ks'.
Proof.
  revert n ks'. induction ks as [|k ks IH]; intros n [|k' ks'] Ho Ha; try done.
  destruct Ho as (Hk & Hl & Hv & Hnext). cbn [find_node].
  rewrite enter_make, make_field_kind by done. rewrite !bool_decide_true by done. simpl.
  destruct Ha as [Hne|[<- Ha]].
  - destruct (field_other (enter n) k k' ks kd f) as [E1 E2]; [done..|]. rewrite E1.
    destruct (key_index (enter n) k') as [i|]; [|done]. by rewrite E2.
  - destruct (field_index (enter n) k ks kd f Hl) as (j & E1 & E2). rewrite E1, E2. clear E1 E2.
    destruct (key_index (enter n) k) as [i|] eqn:Ei; simpl.
    + assert (Hi : i < length (items (enter n))) by (rewrite <- Hl; by apply (key_index_bound _ k)).
      apply lookup_lt_is_Some in Hi as [m Hm]. rewrite Hm. simpl. apply IH; [by apply (Hnext i)|done].
    + assert (Hks : ks ≠ []) by (by destruct ks). rewrite bool_decide_false by done.
      rewrite IH by (done || by apply open_new). by apply (apart_new ks).
Qed.

(** The node at the start of the way keeps what it is. *)
Lemma find_make_above n ks q k kd f m :
  open n (ks ++ k :: q) → find_node n ks = Some m →
  find_node (make_node n (ks ++ k :: q) kd f) ks = Some (make_node m (k :: q) kd f).
Proof.
  revert n. induction ks as [|x ks IH]; intros n Ho Hm; [by simplify_eq/=|].
  destruct Ho as (Hk & Hl & Hv & Hnext). cbn [find_node app] in *.
  rewrite enter_make, make_field_kind by done. rewrite !bool_decide_true in * by done. simpl in *.
  destruct (field_index (enter n) x (ks ++ k :: q) kd f Hl) as (j & E1 & E2). rewrite E1, E2. clear E1 E2.
  destruct (key_index (enter n) x) as [i|] eqn:Ei; [|done]. simpl.
  destruct (items (enter n) !! i) as [m'|] eqn:Em; [|done]. simpl. apply IH; [by apply (Hnext i)|done].
Qed.

(** Paths stay open, whatever is put at the end of the way. *)
Lemma open_make n ks p kd f :
  open n ks → open n p → (∀ q, p = ks ++ q → open (f (default (new_node kd) (find_node n ks))) q) →
  open (make_node n ks kd f) p.
Proof.
  revert n p. induction ks as [|k ks IH]; intros n p Ho Hp Hq; [by apply Hq|].
  destruct p as [|k' p]; [done|]. destruct Ho as (Hk & Hl & Hv & Hnext). destruct Hp as (_ & _ & _ & Hp).
  assert (Hlen : length (keys (make_field (enter n) k ks kd f)) = length (items (make_field (enter n) k ks kd f))).
  { unfold make_field. destruct (key_index (enter n) k), (enter n); simpl in *;
      [by rewrite length_alter|rewrite !length_app; simpl; lia]. }
  cbn [open]. rewrite enter_make, make_field_kind by done. split_and!; [done..| |].
  - rewrite make_kind. intros E. rewrite make_node_cons, bool_decide_true by done.
    destruct (items n) as [|x l] eqn:Ei; [by destruct (Hv E)|]. by destruct n; simpl in *; subst.
  - intros i m Hi Hm. destruct (decide (k' = k)) as [->|Hne].
    + destruct (field_index (enter n) k ks kd f Hl) as (j & E1 & E2). rewrite E1 in Hi. injection Hi as <-.
      rewrite E2 in Hm. injection Hm as <-. clear E1 E2.
      assert (Hq' : ∀ x q, find_node n (k :: ks) = find_node x ks ∨
        (find_node n (k :: ks) = None ∧ default (new_node kd) (find_node x ks) = new_node kd) →
        p = ks ++ q → open (f (default (new_node kd) (find_node x ks))) q).
      { intros x q Hx ->. specialize (Hq q eq_refl). destruct Hx as [Hx|[Hx Hy]]; [by rewrite <- Hx|].
        rewrite Hx in Hq. by rewrite Hy. }
      cbn [find_node] in Hq'. rewrite bool_decide_true in Hq' by done. simpl in Hq'.
      destruct (key_index (enter n) k) as [i'|] eqn:Ei; simpl.
      * assert (Hi : i' < length (items (enter n))) by (rewrite <- Hl; by apply (key_index_bound _ k)).
        apply lookup_lt_is_Some in Hi as [m Hm]. rewrite Hm in *. simpl.
        apply IH; [by apply (Hnext i')|by apply (Hp i')|]. intros q. apply Hq'. by left.
      * case_bool_decide as Eks.
        -- subst ks. simpl in *. apply (Hq' (new_node kd) p); [by right|done].
        -- apply IH; [by apply open_new|destruct p; [done|by apply open_new]|].
           intros q. apply Hq'. right. split; [done|]. by destruct ks.
    + destruct (field_other (enter n) k k' ks kd f) as [E1 E2]; [done..|]. rewrite E1 in Hi.
      rewrite (E2 i Hi) in Hm. by apply (Hp i).
Qed.

(** The way to a node goes by the nodes before it. *)
Lemma find_node_app n a b : find_node n (a ++ b) = find_node n a ≫= λ m, find_node m b.
Proof.
  revert n. induction a as [|k a IH]; intros n; [done|]. cbn [app find_node].
  destruct (negb _); [done|]. destruct (key_index _ _); [|done]. destruct (_ !! _); [|done]. apply IH.
Qed.

Lemma with_items_same n : with_items n (items n) = n.
Proof. by destruct n. Qed.

(** To change nothing at a node that is there is to change nothing. *)
Lemma make_same n ks kd f m : open n ks → find_node n ks = Some m → f m = m → make_node n ks kd f = n.
Proof.
  revert n. induction ks as [|k ks IH]; intros n Ho Hf Hm; [by simplify_eq/=|].
  destruct Ho as (Hk & Hl & Hv & Hnext). cbn [find_node] in Hf. rewrite bool_decide_true in Hf by done. simpl in Hf.
  destruct (key_index (enter n) k) as [i|] eqn:Ei; [|done]. destruct (items (enter n) !! i) as [x|] eqn:Ex; [|done].
  assert (Hsame : make_field (enter n) k ks kd f = enter n).
  { unfold make_field. rewrite Ei, (list_alter_ext _ Datatypes.id _ (items (enter n)) i); [|by intros y Hy; simplify_eq; apply IH; eauto|done].
    rewrite list_alter_id by done. apply with_items_same. }
  rewrite make_node_cons. case_bool_decide as E.
  - destruct (items n) as [|y l] eqn:El; [by destruct (Hv E)|]. rewrite (enter_variant n y l) in Hsame by done. simpl.
    rewrite Hsame, <- El. apply with_items_same.
  - by rewrite enter_other in Hsame.
Qed.

(** A variant on the way keeps what it holds. *)
Lemma make_variant n m k ks kd f :
  kind n = Variant → items n = [m] →
  make_node n (k :: ks) kd f = with_items n [make_field m k ks kd f].
Proof. intros Hk Hi. rewrite make_node_cons, bool_decide_true, Hi by done. done. Qed.

Lemma apart_sym a b : apart a b → apart b a.
Proof.
  revert b. induction a as [|x a IH]; intros [|y b]; try done. intros [Hne|[-> Ha]]; [left; congruence|right].
  split; [done|by apply IH].
Qed.

Lemma apart_extend a b q : apart a b → apart a (b ++ q).
Proof. revert b. induction a as [|x a IH]; intros [|y b]; try done. intros [?|[? ?]]; [by left|right; eauto]. Qed.

Lemma apart_not_prefix a b q : apart a b → b ≠ a ++ q.
Proof. revert b. induction a as [|x a IH]; intros [|y b]; try done. intros [?|[-> Ha]] [=]; [done|]. by apply (IH b). Qed.

(** Past the end of a way there is, there is nothing in the way. *)
Lemma open_missing n ks q : open n ks → find_node n ks = None → open n (ks ++ q).
Proof.
  revert n. induction ks as [|k ks IH]; intros n Ho Hf; [done|]. destruct Ho as (Hk & Hl & Hv & Hnext).
  cbn [app open]. split_and!; [done..|]. intros i m Hi Hm. apply IH; [by apply (Hnext i)|].
  cbn [find_node] in Hf. rewrite bool_decide_true in Hf by done. simpl in Hf. by rewrite Hi, Hm in Hf.
Qed.

Lemma open_object ks : open (new_node Object) ks.
Proof. by destruct ks. Qed.
