(* ===== verification/CliSuggest.v ===== *)
(** What an error offers for a name nothing declares (src/cli/parse.cc):
    [edit_distance] and [closest].

    [aligned] says what an edit is; the table [edit_distance] fills gives the
    least number of edits, and [closest] a name that takes as few as any, when
    they are few enough. *)

From Stdlib Require Import Strings.Byte Lia Bool.
From stdpp Require Import prelude strings list.
From S2P Require Import Prelude.

(** ** The code *)

(** The table [d], by rows. *)
Definition cell (d : list (list nat)) (i j : nat) : nat := (d !!! i) !!! j.
Definition set_cell (d : list (list nat)) (i j v : nat) : list (list nat) := alter (λ row, <[j := v]> row) i d.

(** [d[i][j]] from the cells above and before it. *)
Definition edit_cell (a b : bytes) (d : list (list nat)) (i j : nat) : list (list nat) :=
  let cost := if bool_decide (a !! (i - 1) = b !! (j - 1)) then 0 else 1 in
  let v := min (min (cell d (i - 1) j + 1) (cell d i (j - 1) + 1)) (cell d (i - 1) (j - 1) + cost) in
  let d := set_cell d i j v in
  if (1 <? i) && (1 <? j) && bool_decide (a !! (i - 1) = b !! (j - 2)) && bool_decide (a !! (i - 2) = b !! (j - 1))
  then set_cell d i j (min (cell d i j) (cell d (i - 2) (j - 2) + 1))
  else d.

Definition edit_row (a b : bytes) (d : list (list nat)) (i : nat) : list (list nat) :=
  foldl (λ d j, edit_cell a b d i j) d (seq 1 (length b)).

Definition edit_distance (a b : bytes) : nat :=
  let d := replicate (length a + 1) (replicate (length b + 1) 0) in
  let d := foldl (λ d i, set_cell d i 0 i) d (seq 0 (length a + 1)) in
  let d := foldl (λ d j, set_cell d 0 j j) d (seq 0 (length b + 1)) in
  let d := foldl (λ d i, edit_row a b d i) d (seq 1 (length a)) in
  cell d (length a) (length b).

(** The name without the ['='], [':'] or [','] it takes its value after. *)
Definition bare_name (name : bytes) : bytes :=
  if ends_with name (lit "=") || ends_with name (lit ":") || ends_with name (lit ",")
  then take (length name - 1) name else name.

Definition stem (word : bytes) : bytes :=
  drop (default (length word) (find_index (λ c, negb (bool_decide (c ∈ lit "-/"))) word)) word.

Fixpoint closest_from (word : bytes) (names : list bytes) (best : bytes) (best_distance : nat) : bytes :=
  match names with
  | [] => best
  | spelling :: names =>
      let name := bare_name spelling in
      let distance := edit_distance word name in
      if distance <? best_distance then closest_from word names name distance
      else closest_from word names best best_distance
  end.

Definition closest (word : bytes) (names : list bytes) : bytes :=
  closest_from word names [] (length (stem word) / 3 + 1).

(** ** Edits *)

(** [aligned a b n]: [n] edits, each an insertion, a deletion, a substitution
    or a swap of two neighbours, none touching what another has, lead from [a]
    to [b]. *)
Inductive aligned : bytes → bytes → nat → Prop :=
| al_nil : aligned [] [] 0
| al_keep a b c n : aligned a b n → aligned (a ++ [c]) (b ++ [c]) n
| al_substitute a b x y n : aligned a b n → aligned (a ++ [x]) (b ++ [y]) (S n)
| al_insert a b y n : aligned a b n → aligned a (b ++ [y]) (S n)
| al_delete a b x n : aligned a b n → aligned (a ++ [x]) b (S n)
| al_swap a b x y n : aligned a b n → aligned (a ++ [x; y]) (b ++ [y; x]) (S n).

Definition least (a b : bytes) (n : nat) : Prop := aligned a b n ∧ ∀ m, aligned a b m → n ≤ m.

Lemma aligned_length a b n : aligned a b n → length a ≤ length b + n ∧ length b ≤ length a + n.
Proof. induction 1; rewrite ?length_app; simpl; lia. Qed.

Lemma least_nil_r a : least a [] (length a).
Proof.
  split.
  - induction a as [|x a IH] using rev_ind; [constructor|]. rewrite length_app. simpl.
    rewrite Nat.add_1_r. by constructor.
  - intros m []%aligned_length. simpl in *. lia.
Qed.

Lemma least_nil_l b : least [] b (length b).
Proof.
  split.
  - induction b as [|x b IH] using rev_ind; [constructor|]. rewrite length_app. simpl.
    rewrite Nat.add_1_r. by constructor.
  - intros m []%aligned_length. simpl in *. lia.
Qed.

(** How the last edit of an alignment of two texts that are not empty goes. *)
Lemma aligned_snoc a x b y m :
  aligned (a ++ [x]) (b ++ [y]) m →
  (∃ n, aligned a b n ∧ (if bool_decide (x = y) then n ≤ m else n + 1 ≤ m)) ∨
  (∃ n, aligned (a ++ [x]) b n ∧ m = n + 1) ∨ (∃ n, aligned a (b ++ [y]) n ∧ m = n + 1) ∨
  (∃ a' b' n, a = a' ++ [y] ∧ b = b' ++ [x] ∧ aligned a' b' n ∧ m = n + 1).
Proof.
  intros H. remember (a ++ [x]) as u eqn:Eu. remember (b ++ [y]) as v eqn:Ev.
  destruct H as [|u v c n H|u v x' y' n H|u v y' n H|u v x' n H|u v x' y' n H].
  - by destruct a.
  - apply app_inj_2 in Eu as [-> [= ->]]; [|done]. apply app_inj_2 in Ev as [-> [= ->]]; [|done].
    left. exists n. rewrite bool_decide_true by done. done.
  - apply app_inj_2 in Eu as [-> [= ->]]; [|done]. apply app_inj_2 in Ev as [-> [= ->]]; [|done].
    left. exists n. split; [done|]. case_bool_decide; lia.
  - apply app_inj_2 in Ev as [-> [= ->]]; [|done]. right. left. exists n. split; [by subst|lia].
  - apply app_inj_2 in Eu as [-> [= ->]]; [|done]. right. right. left. exists n. split; [by subst|lia].
  - change [x'; y'] with ([x'] ++ [y']) in Eu. change [y'; x'] with ([y'] ++ [x']) in Ev.
    rewrite app_assoc in Eu, Ev.
    apply app_inj_2 in Eu as [<- [= ->]]; [|done]. apply app_inj_2 in Ev as [<- [= ->]]; [|done].
    right. right. right. exists u, v, n. split_and!; [done..|lia].
Qed.

(** One cell of the table, from what the ones around it are. *)
Lemma least_step a x b y up before diagonal :
  least a (b ++ [y]) up → least (a ++ [x]) b before → least a b diagonal →
  (∀ a' b', a = a' ++ [y] → b = b' ++ [x] → False) →
  least (a ++ [x]) (b ++ [y]) (min (min (up + 1) (before + 1)) (diagonal + (if bool_decide (x = y) then 0 else 1))).
Proof.
  intros [U1 U2] [B1 B2] [D1 D2] Hno. split.
  - set (c := if bool_decide (x = y) then 0 else 1).
    destruct (decide (up + 1 ≤ min (before + 1) (diagonal + c))).
    { replace (min _ _) with (S up) by lia. by constructor. }
    destruct (decide (before + 1 ≤ diagonal + c)).
    { replace (min _ _) with (S before) by lia. by constructor. }
    replace (min _ _) with (diagonal + c) by lia. unfold c. case_bool_decide; [subst|].
    + rewrite Nat.add_0_r. by constructor.
    + rewrite Nat.add_1_r. by constructor.
  - intros m [(n & H & Hm)|[(n & H & ->)|[(n & H & ->)|(a' & b' & n & Ea & Eb & _)]]]%aligned_snoc.
    + apply D2 in H. case_bool_decide; lia.
    + apply B2 in H. lia.
    + apply U2 in H. lia.
    + by destruct (Hno a' b').
Qed.

Lemma least_swap_step a x b y up before diagonal swapped :
  least (a ++ [y]) ((b ++ [x]) ++ [y]) up → least ((a ++ [y]) ++ [x]) (b ++ [x]) before →
  least (a ++ [y]) (b ++ [x]) diagonal → least a b swapped →
  least ((a ++ [y]) ++ [x]) ((b ++ [x]) ++ [y])
    (min (min (min (up + 1) (before + 1)) (diagonal + (if bool_decide (x = y) then 0 else 1))) (swapped + 1)).
Proof.
  intros [U1 U2] [B1 B2] [D1 D2] [S1 S2]. split.
  - set (c := if bool_decide (x = y) then 0 else 1).
    destruct (decide (swapped + 1 ≤ min (min (up + 1) (before + 1)) (diagonal + c))).
    { replace (min _ _) with (S swapped) by lia. rewrite <- !app_assoc. by constructor. }
    destruct (decide (up + 1 ≤ min (before + 1) (diagonal + c))).
    { replace (min _ _) with (S up) by lia. by constructor. }
    destruct (decide (before + 1 ≤ diagonal + c)).
    { replace (min _ _) with (S before) by lia. by constructor. }
    replace (min _ _) with (diagonal + c) by lia. unfold c. case_bool_decide; [subst|].
    + rewrite Nat.add_0_r. by constructor.
    + rewrite Nat.add_1_r. by constructor.
  - intros m [(n & H & Hm)|[(n & H & ->)|[(n & H & ->)|(a' & b' & n & Ea & Eb & H & ->)]]]%aligned_snoc.
    + apply D2 in H. case_bool_decide; lia.
    + apply B2 in H. lia.
    + apply U2 in H. lia.
    + apply app_inj_2 in Ea as [-> _]; [|done]. apply app_inj_2 in Eb as [-> _]; [|done].
      apply S2 in H. lia.
Qed.

(** ** The table *)

Definition shaped (n m : nat) (d : list (list nat)) : Prop :=
  length d = n + 1 ∧ ∀ i row, d !! i = Some row → length row = m + 1.

Lemma cell_set n m d i j v i' j' :
  shaped n m d → i ≤ n → j ≤ m →
  shaped n m (set_cell d i j v) ∧
  cell (set_cell d i j v) i' j' = if bool_decide (i' = i ∧ j' = j) then v else cell d i' j'.
Proof.
  intros [Hl Hr] Hi Hj. assert (is_Some (d !! i)) as [row Hrow] by (apply lookup_lt_is_Some; lia).
  unfold set_cell, cell. split.
  - split; [by rewrite length_alter|]. intros k row'. destruct (decide (k = i)) as [->|].
    + rewrite list_lookup_alter_eq, Hrow. intros [= <-]. rewrite length_insert. by apply (Hr i).
    + rewrite list_lookup_alter_ne by done. apply Hr.
  - destruct (decide (i' = i)) as [->|].
    + rewrite (list_lookup_total_correct _ i (<[j := v]> row)) by (by rewrite list_lookup_alter_eq, Hrow).
      rewrite (list_lookup_total_correct d i row) by done.
      destruct (decide (j' = j)) as [->|].
      * rewrite bool_decide_true by done. apply list_lookup_total_insert_eq. rewrite (Hr i row Hrow). lia.
      * rewrite bool_decide_false by naive_solver. by apply list_lookup_total_insert_ne.
    + rewrite bool_decide_false by naive_solver. f_equal.
      by rewrite !list_lookup_total_alt, list_lookup_alter_ne.
Qed.

Lemma foldl_seq {A} (I : nat → A → Prop) f s n x :
  I s x → (∀ i x, s ≤ i < s + n → I i x → I (S i) (f x i)) → I (s + n) (foldl f x (seq s n)).
Proof.
  revert s x. induction n as [|n IH]; intros s x H0 Hs; simpl; [by rewrite Nat.add_0_r|].
  rewrite Nat.add_succ_r. apply (IH (S s)); [apply Hs; [lia|done]|]. intros i y Hi. apply Hs. lia.
Qed.

Section Table.
Variables (a b : bytes).

(** The cells of [P] are what they should be. *)
Definition filled (P : nat → nat → Prop) (d : list (list nat)) : Prop :=
  shaped (length a) (length b) d ∧
  ∀ i j, i ≤ length a → j ≤ length b → P i j → least (take i a) (take j b) (cell d i j).

Lemma take_prev (s : bytes) i : 1 ≤ i ≤ length s → ∃ c, s !! (i - 1) = Some c ∧ take i s = take (i - 1) s ++ [c].
Proof.
  intros Hi. destruct (lookup_lt_is_Some_2 s (i - 1)) as [c Hc]; [lia|]. exists c. split; [done|].
  replace i with (S (i - 1)) at 1 by lia. by apply take_S_r.
Qed.

(** The cells before [(i, j)], by rows, and the first of each row and column. *)
Definition before (i j : nat) (i' j' : nat) : Prop := i' = 0 ∨ j' = 0 ∨ i' < i ∨ (i' = i ∧ j' < j).

Lemma edit_cell_filled i j d :
  1 ≤ i ≤ length a → 1 ≤ j ≤ length b → filled (before i j) d → filled (before i (S j)) (edit_cell a b d i j).
Proof.
  intros Hi Hj [Hs Hd]. unfold edit_cell.
  destruct (take_prev a i Hi) as (x & Ex & Ta). destruct (take_prev b j Hj) as (y & Ey & Tb).
  set (v := min _ _).
  assert (Hup : least (take (i - 1) a) (take (j - 1) b ++ [y]) (cell d (i - 1) j))
    by (rewrite <- Tb; apply Hd; unfold before; lia).
  assert (Hbefore : least (take (i - 1) a ++ [x]) (take (j - 1) b) (cell d i (j - 1)))
    by (rewrite <- Ta; apply Hd; unfold before; lia).
  assert (Hdiag : least (take (i - 1) a) (take (j - 1) b) (cell d (i - 1) (j - 1)))
    by (apply Hd; unfold before; lia).
  assert (Hset : ∀ d' w, shaped (length a) (length b) d' →
    (∀ i' j', before i j i' j' → cell d' i' j' = cell d i' j') → least (take i a) (take j b) w →
    filled (before i (S j)) (set_cell d' i j w)).
  { intros d' w Hs' Hc Hw. split; [by apply (cell_set _ _ d' i j w 0 0); [|lia..]|].
    intros i' j' Hi' Hj' HP. destruct (cell_set _ _ d' i j w i' j' Hs') as [_ E]; [lia..|]. rewrite E.
    case_bool_decide as Eij; [by destruct Eij; subst|].
    assert (before i j i' j') by (unfold before in *; lia). rewrite Hc by done. by apply Hd. }
  destruct (cell_set _ _ d i j v i j Hs) as [Hs1 E1]; [lia..|].
  rewrite bool_decide_true in E1 by done.
  assert (Hv : v = min (min (cell d (i - 1) j + 1) (cell d i (j - 1) + 1))
    (cell d (i - 1) (j - 1) + (if bool_decide (x = y) then 0 else 1))).
  { unfold v. rewrite Ex, Ey. repeat f_equal. repeat case_bool_decide; naive_solver. }
  destruct ((1 <? i) && (1 <? j) && _ && _) eqn:Esw.
  - bool_prop. destruct (take_prev a (i - 1) ltac:(lia)) as (x2 & Ex2 & Ta2).
    destruct (take_prev b (j - 1) ltac:(lia)) as (y2 & Ey2 & Tb2).
    replace (i - 1 - 1) with (i - 2) in * by lia. replace (j - 1 - 1) with (j - 2) in * by lia.
    assert (x2 = y) as -> by congruence. assert (y2 = x) as -> by congruence.
    assert (Hsw : least (take (i - 2) a) (take (j - 2) b) (cell d (i - 2) (j - 2)))
      by (apply Hd; unfold before; lia).
    assert (E2 : cell (set_cell d i j v) (i - 2) (j - 2) = cell d (i - 2) (j - 2)).
    { destruct (cell_set _ _ d i j v (i - 2) (j - 2) Hs) as [_ ->]; [lia..|].
      rewrite bool_decide_false by lia. done. }
    rewrite E1, E2. apply Hset; [done| |].
    + intros i' j' Hb'. destruct (cell_set _ _ d i j v i' j' Hs) as [_ ->]; [lia..|].
      rewrite bool_decide_false by (unfold before in Hb'; lia). done.
    + rewrite Hv, Ta, Tb, Ta2, Tb2. rewrite Ta2, Tb2 in Hup, Hbefore, Hdiag.
      by apply least_swap_step.
  - apply Hset; [done..|]. rewrite Hv, Ta, Tb. apply least_step; [done..|].
    intros a' b' Ha Hb.
    assert (1 < i) by (destruct (decide (i = 1)) as [->|]; [by destruct a'|lia]).
    assert (1 < j) by (destruct (decide (j = 1)) as [->|]; [by destruct b'|lia]).
    destruct (take_prev a (i - 1) ltac:(lia)) as (x2 & Ex2 & Ta2).
    destruct (take_prev b (j - 1) ltac:(lia)) as (y2 & Ey2 & Tb2).
    replace (i - 1 - 1) with (i - 2) in * by lia. replace (j - 1 - 1) with (j - 2) in * by lia.
    rewrite Ta2 in Ha. rewrite Tb2 in Hb.
    apply app_inj_2 in Ha as [_ [= ->]]; [|done]. apply app_inj_2 in Hb as [_ [= ->]]; [|done].
    rewrite Ex, Ey, Ex2, Ey2, !bool_decide_true, !andb_true_r in Esw by done.
    apply andb_false_iff in Esw as [E|E]; apply Nat.ltb_ge in E; lia.
Qed.

Lemma edit_row_filled i d :
  1 ≤ i ≤ length a → filled (before i 1) d → filled (before (S i) 1) (edit_row a b d i).
Proof.
  intros Hi Hd. unfold edit_row.
  destruct (foldl_seq (λ j d, filled (before i j) d) (λ d j, edit_cell a b d i j) 1 (length b) d Hd) as [Hs H].
  - intros j d' Hj. apply edit_cell_filled; lia.
  - split; [done|]. intros i' j' Hi' Hj' HP. apply H; [done..|]. unfold before in *. lia.
Qed.

Lemma edit_distance_least : least a b (edit_distance a b).
Proof.
  unfold edit_distance. set (d0 := replicate _ _).
  assert (H0 : shaped (length a) (length b) d0).
  { split; [apply length_replicate|]. intros i row [-> _]%lookup_replicate. apply length_replicate. }
  set (d1 := foldl _ d0 _).
  assert (H1 : filled (λ i' j', j' = 0) d1).
  { destruct (foldl_seq (λ k d, filled (λ i' j', j' = 0 ∧ i' < k) d) (λ d i, set_cell d i 0 i) 0
      (length a + 1) d0) as [Hs H].
    - split; [done|]. intros. lia.
    - intros i d Hi [Hs H]. split; [by apply (cell_set _ _ d i 0 i 0 0); [|lia..]|].
      intros i' j' Hi' Hj' [-> Hlt]. destruct (cell_set _ _ d i 0 i i' 0 Hs) as [_ ->]; [lia..|].
      case_bool_decide as E; [|apply H; [done..|lia]]. destruct E as [-> _].
      pose proof (least_nil_r (take i a)) as Hn. rewrite length_take, Nat.min_l in Hn by lia. by rewrite take_0.
    - split; [done|]. intros i' j' Hi' Hj' ->. apply H; [done..|lia]. }
  set (d2 := foldl _ d1 _).
  assert (H2 : filled (before 1 1) d2).
  { destruct (foldl_seq (λ k d, filled (λ i' j', j' = 0 ∨ (i' = 0 ∧ j' < k)) d) (λ d j, set_cell d 0 j j) 0
      (length b + 1) d1) as [Hs H].
    - destruct H1 as [Hs H]. split; [done|]. intros i' j' ? ? [?|?]; [by apply H|lia].
    - intros j d Hj [Hs H]. split; [by apply (cell_set _ _ d 0 j j 0 0); [|lia..]|].
      intros i' j' Hi' Hj' HP. destruct (cell_set _ _ d 0 j j i' j' Hs) as [_ ->]; [lia..|].
      case_bool_decide as E; [|apply H; [done..|lia]]. destruct E as [-> ->].
      pose proof (least_nil_l (take j b)) as Hn. rewrite length_take, Nat.min_l in Hn by lia. by rewrite take_0.
    - split; [done|]. intros i' j' Hi' Hj' HP. apply H; [done..|]. unfold before in HP. lia. }
  destruct (foldl_seq (λ i d, filled (before i 1) d) (λ d i, edit_row a b d i) 1 (length a) d2 H2) as [_ H].
  { intros i d Hi. apply edit_row_filled. lia. }
  specialize (H (length a) (length b) ltac:(lia) ltac:(lia)). rewrite !firstn_all in H.
  apply H. unfold before. lia.
Qed.
End Table.

(** ** The closest name *)

Lemma closest_from_correct word names best limit :
  let r := closest_from word names best limit in
  (r = best ∧ ∀ s, s ∈ names → limit ≤ edit_distance word (bare_name s)) ∨
  (∃ s, s ∈ names ∧ r = bare_name s ∧ edit_distance word r < limit ∧
   ∀ s', s' ∈ names → edit_distance word r ≤ edit_distance word (bare_name s')).
Proof.
  revert best limit. induction names as [|s names IH]; intros best limit; simpl.
  - left. split; [done|]. by intros s ?%not_elem_of_nil.
  - destruct (_ <? _) eqn:E.
    + apply Nat.ltb_lt in E. right.
      destruct (IH (bare_name s) (edit_distance word (bare_name s))) as [[-> H]|(s' & Hi & -> & Hlt & H)].
      * exists s. split_and!; [left|done..|]. intros s' [->|Hs']%elem_of_cons; [done|by apply H].
      * exists s'. split_and!; [by right|done|lia|]. intros s'' [->|Hs']%elem_of_cons; [lia|by apply H].
    + apply Nat.ltb_ge in E.
      destruct (IH best limit) as [[-> H]|(s' & Hi & -> & Hlt & H)].
      * left. split; [done|]. intros s' [->|Hs']%elem_of_cons; [done|by apply H].
      * right. exists s'. split_and!; [by right|done..|]. intros s'' [->|Hs']%elem_of_cons; [lia|by apply H].
Qed.

(** The name offered for a word nothing declares is one of those shown, no
    further from the word than a third of it in edits, and none takes fewer;
    nothing is offered only if every name takes more. *)
Theorem closest_correct word names :
  (closest word names = [] ∧ ∀ s n, s ∈ names → aligned word (bare_name s) n → length (stem word) / 3 < n) ∨
  (∃ s n, s ∈ names ∧ closest word names = bare_name s ∧ aligned word (bare_name s) n ∧
   n ≤ length (stem word) / 3 ∧ ∀ s' m, s' ∈ names → aligned word (bare_name s') m → n ≤ m).
Proof.
  assert (Hl : ∀ s m, aligned word (bare_name s) m → edit_distance word (bare_name s) ≤ m)
    by (intros s m; apply edit_distance_least).
  unfold closest. destruct (closest_from_correct word names [] (length (stem word) / 3 + 1)) as [[-> H]|(s & Hi & E & Hlt & H)].
  - left. split; [done|]. intros s n Hs Ha%Hl. specialize (H s Hs). lia.
  - right. exists s, (edit_distance word (bare_name s)). rewrite E in *.
    split_and!; [done..|apply edit_distance_least|lia|]. intros s' m Hs' Ha%Hl. specialize (H s' Hs'). lia.
Qed.
