(* ===== verification/CliNumber.v ===== *)
(** Numbers as the command line reads and bounds them: [number_of] and
    [refused_number] of src/cli/parse.cc, over the numbers a schema states
    (include/kotatsu/codec/attribute.h).

    What is of floating point is a parameter, the class [Doubles]. *)

From Stdlib Require Import Strings.Byte ZArith Lia Bool.
From stdpp Require Import prelude strings list.
From S2P Require Import Prelude Naming Charconv.
Local Open Scope kota_scope.
Local Open Scope nat_scope.

(** ** Numbers *)

(** What the program takes of [double]: [strtod] on the whole of a text,
    comparing with integers and with each other, and writing one. *)
Class Doubles := {
  double : Type;
  strtod : bytes → option double;
  compare_double : double → double → option comparison;
  compare_exact : Z → double → option comparison;
  double_text : double → bytes;
}.

Section Numbers.
Context `{D : Doubles}.

(** [codec::schema_number]; both integer types are [Z], and [Unset] is its [monostate]. *)
Inductive schema_number := Unset | Integer (z : Z) | Double (d : double).

Definition compare_numbers (a b : schema_number) : option comparison :=
  match a, b with
  | Unset, _ | _, Unset => None
  | Double x, Double y => compare_double x y
  | Integer x, Double y => compare_exact x y
  | Double x, Integer y => CompOpp <$> compare_exact y x
  | Integer x, Integer y => Some (x ?= y)%Z
  end.

(** [std::format("{}")] and [std::from_chars] of an [int64_t]. *)
Definition format_i64 (z : Z) : bytes :=
  if (z <? 0)%Z then lit "-" ++ format_u64 (- z) else format_u64 z.

Definition from_chars_i64 (s : bytes) : option Z * bytes :=
  if starts_with s (lit "-") then
    let '(z, rest) := scan_digits (drop 1 s) 0 in
    if (length rest =? length s - 1)%nat then (None, s)
    else if (z <=? 2 ^ 63)%Z then (Some (- z)%Z, rest) else (None, rest)
  else
    let '(z, rest) := scan_digits s 0 in
    if (length rest =? length s)%nat then (None, s)
    else if (z <? 2 ^ 63)%Z then (Some z, rest) else (None, rest).

(** [read_integer]: the number the whole text is. *)
Definition read_integer (read : bytes → option Z * bytes) (text : bytes) : option Z :=
  match read text with
  | (Some z, []) => Some z
  | _ => None
  end.

Definition is_space (c : byte) : bool := in_range 9 13 c || bool_decide (c = x20).

(** [read_number] of a [double]. *)
Definition read_double (text : bytes) : option double :=
  match text with
  | [] => None
  | c :: _ => if is_space c then None else strtod text
  end.

Definition number_of (text : bytes) (integer_kind : bool) : schema_number :=
  match read_integer from_chars_i64 text with
  | Some z => Integer z
  | None =>
      match read_integer from_chars_u64 text with
      | Some z => Integer z
      | None => if integer_kind then Unset
                else match read_double text with Some d => Double d | None => Unset end
      end
  end.

Definition number_text (n : schema_number) : bytes :=
  match n with Unset => [] | Integer z => format_i64 z | Double d => double_text d end.

Definition is_unset (n : schema_number) : bool := match n with Unset => true | _ => false end.

Definition refused_number (minimum maximum number : schema_number) (text : bytes) : option bytes :=
  if is_unset number then None else
  match compare_numbers number minimum, compare_numbers number maximum with
  | Some Lt, _ => Some (lit "value " ++ text ++ lit " is below the minimum " ++ number_text minimum)
  | _, Some Gt => Some (lit "value " ++ text ++ lit " is above the maximum " ++ number_text maximum)
  | below, above =>
      if (negb (is_unset minimum) && bool_decide (below = None)) ||
         (negb (is_unset maximum) && bool_decide (above = None))
      then Some (lit "value " ++ text ++ lit " is not a number in " ++ number_text minimum ++ lit ".." ++ number_text maximum)
      else None
  end.
End Numbers.
