(* ===== verification/CliDeclare.v ===== *)
(** What a struct of options declares: include/kotatsu/cli/detail/declaration.h,
    over the type infos of include/kotatsu/codec/type_info.h and the attributes
    of include/kotatsu/cli/spec.h.

    A [TypeInfo] is a tree: what the source reaches by a function is its child.
    A field of type [cli::Commands] carries the entries of its set.  [use_of]
    says what a field is on a command line, [name_forms] the names an option
    registers, and [check_declaration] is the check at compile time, its
    [KOTATSU_THROW]s errors. *)

From Stdlib Require Import Strings.Byte ZArith Lia Bool.
From stdpp Require Import prelude strings list.
From S2P Require Import Prelude Naming CliTable CliNumber.
Local Open Scope kota_scope.
Local Open Scope nat_scope.

(** ** Attributes *)

(** [KVStyle], and its bits. *)
Inductive KVStyle := StyleJoinedOnly | StyleSeparateOnly | StyleEither.

Definition has_joined (s : KVStyle) : bool := match s with StyleSeparateOnly => false | _ => true end.
Definition has_separate (s : KVStyle) : bool := match s with StyleJoinedOnly => false | _ => true end.

(** [max] is [None] where the source has [unbounded]. *)
Record ArgNum := mkArgNum { arg_min : nat; arg_max : option nat }.

(** [ArgSpec], less the set of [commands], which the field has. *)
Record ArgSpec := mkSpec {
  spec_names : list bytes;
  meta_var : bytes;
  spec_positional : bool;
  spec_rest : bool;
  spec_count : bool;
  spec_stop : bool;
  style : KVStyle;
  comma : bool;
  spec_arg_num : ArgNum;
  spec_forward : list bytes;
  spec_hidden : bool;
  exclusive : bool;
  hidden_sub : list bytes;
  spec_global : bool;
}.

Definition default_spec : ArgSpec :=
  mkSpec [] [] false false false false StyleEither false (mkArgNum 1 None) [] false false [] false.

(** [ArgSpec::validate]. *)
Definition validate (s : ArgSpec) : expected unit bytes :=
  if spec_positional s && spec_rest s then
    Err (lit "cli: an argument is positional or takes the rest, not both")
  else if (arg_min (spec_arg_num s) =? 0) ||
          match arg_max (spec_arg_num s) with Some m => (m <? arg_min (spec_arg_num s)) | None => false end then
    Err (lit "cli: arg_num takes 1 or more, its min no more than its max")
  else Ok ().

(** ** Types *)

(** The kinds of which the command line reads no more than the kind. *)
Inductive leaf_kind :=
| NullKind | BooleanKind | Int8 | Int16 | Int32 | Int64 | Uint8 | Uint16 | Uint32 | Uint64 | Float32 | Float64
| CharacterKind | StringKind | BytesKind | MapKind | PointerKind | UnknownKind | AnyKind.

#[export] Instance leaf_kind_eq_dec : EqDecision leaf_kind.
Proof. solve_decision. Defined.

Inductive tag_mode := TagNone | TagExternal | TagInternal | TagAdjacent.

#[export] Instance tag_mode_eq_dec : EqDecision tag_mode.
Proof. solve_decision. Defined.

Inductive TypeInfo `{D : Doubles} :=
| LeafInfo (type_name : bytes) (kind : leaf_kind)
| EnumInfo (type_name : bytes) (member_names : list bytes)
| ArrayInfo (type_name : bytes) (is_set : bool) (element : TypeInfo)
| TupleInfo (type_name : bytes) (elements : list TypeInfo)
| OptionalInfo (type_name : bytes) (inner : TypeInfo)
| VariantInfo (type_name : bytes) (tagging : tag_mode) (alt_names : list bytes) (alternatives : list TypeInfo)
| StructInfo (type_name description : bytes) (fields : list field_info)
with field_info `{D : Doubles} :=
  mkField (field_name declared_name field_description : bytes) (presence_required : bool) (field_type : TypeInfo)
    (extension : option ArgSpec) (field_commands : option (list CommandEntry))
    (field_minimum field_maximum : schema_number) (field_choices : list bytes)
with CommandEntry `{D : Doubles} :=
  mkEntry (entry_name entry_description : bytes) (entry_hidden : bool) (entry_type : TypeInfo).

Section Infos.
Context `{D : Doubles}.

Definition type_name (t : TypeInfo) : bytes :=
  match t with
  | LeafInfo n _ | EnumInfo n _ | ArrayInfo n _ _ | TupleInfo n _ | OptionalInfo n _ | VariantInfo n _ _ _
  | StructInfo n _ _ => n
  end.
Definition type_fields (t : TypeInfo) : list field_info := match t with StructInfo _ _ fs => fs | _ => [] end.
Definition type_description (t : TypeInfo) : bytes := match t with StructInfo _ d _ => d | _ => [] end.
Definition is_structure (t : TypeInfo) : bool := match t with StructInfo _ _ _ => true | _ => false end.

Definition field_name (f : field_info) := let 'mkField x _ _ _ _ _ _ _ _ _ := f in x.
Definition declared_name (f : field_info) := let 'mkField _ x _ _ _ _ _ _ _ _ := f in x.
Definition field_description (f : field_info) := let 'mkField _ _ x _ _ _ _ _ _ _ := f in x.
Definition presence_required (f : field_info) := let 'mkField _ _ _ x _ _ _ _ _ _ := f in x.
Definition field_type (f : field_info) := let 'mkField _ _ _ _ x _ _ _ _ _ := f in x.
Definition extension (f : field_info) := let 'mkField _ _ _ _ _ x _ _ _ _ := f in x.
Definition field_commands (f : field_info) := let 'mkField _ _ _ _ _ _ x _ _ _ := f in x.
Definition field_minimum (f : field_info) := let 'mkField _ _ _ _ _ _ _ x _ _ := f in x.
Definition field_maximum (f : field_info) := let 'mkField _ _ _ _ _ _ _ _ x _ := f in x.
Definition field_choices (f : field_info) := let 'mkField _ _ _ _ _ _ _ _ _ x := f in x.
Definition entry_name (e : CommandEntry) := let 'mkEntry x _ _ _ := e in x.
Definition entry_description (e : CommandEntry) := let 'mkEntry _ x _ _ := e in x.
Definition entry_hidden (e : CommandEntry) := let 'mkEntry _ _ x _ := e in x.
Definition entry_type (e : CommandEntry) := let 'mkEntry _ _ _ x := e in x.

(** [meta::is_integer_kind] of a type's kind. *)
Definition is_integer_kind (t : TypeInfo) : bool :=
  match t with
  | LeafInfo _ (Int8 | Int16 | Int32 | Int64 | Uint8 | Uint16 | Uint32 | Uint64) => true
  | _ => false
  end.
End Infos.

(** ** What a field is on a command line *)

Inductive Shape := FlagShape | CountShape | ValueShape | TupleShape | AliasShape.

#[export] Instance shape_eq_dec : EqDecision Shape.
Proof. solve_decision. Defined.

Inductive UseKind := UseArg | UseGroup | UseSubcommands | UseExclusive | UseCommands.

#[export] Instance use_kind_eq_dec : EqDecision UseKind.
Proof. solve_decision. Defined.

Section Declare.
Context `{D : Doubles}.

Record FieldUse := mkUse {
  use_kind : UseKind;
  use_spec : ArgSpec;
  use_required : bool;
  use_optional : bool;
  use_type : TypeInfo;
  use_shape : Shape;
  use_list : bool;
  tuple_size : nat;
  value_type : TypeInfo;
}.

Definition strip_optional (t : TypeInfo) : TypeInfo := match t with OptionalInfo _ inner => inner | _ => t end.
Definition is_optional (t : TypeInfo) : bool := match t with OptionalInfo _ _ => true | _ => false end.

Definition use_of (f : field_info) : FieldUse :=
  let spec := default default_spec (extension f) in
  let required := presence_required f in
  let optional := is_optional (field_type f) in
  let type := strip_optional (field_type f) in
  let other k := mkUse k spec required optional type ValueShape false 0 type in
  let arg shape list size value_type :=
    mkUse UseArg spec (required || (spec_positional spec && negb list && negb optional)) optional type shape list size value_type in
  let valued list value_type :=
    match value_type with
    | TupleInfo _ elements => arg TupleShape list (length elements) value_type
    | _ =>
        if match value_type with LeafInfo _ BooleanKind => true | _ => false end && negb list &&
           negb (spec_positional spec) && negb (spec_rest spec) then arg FlagShape list 0 value_type
        else arg (if spec_count spec then CountShape else ValueShape) list 0 value_type
    end in
  match field_commands f with
  | Some _ => other UseCommands
  | None =>
      if negb (bool_decide (spec_forward spec = [])) then arg AliasShape false 0 type
      else
        match type with
        | StructInfo _ _ _ => other UseGroup
        | VariantInfo _ _ _ _ => other (if exclusive spec then UseExclusive else UseSubcommands)
        | ArrayInfo _ _ element => valued true element
        | _ => valued false type
        end
  end.

Definition joined_name (s : KVStyle) (name : bytes) : bool :=
  if negb (has_joined s) then false
  else negb (has_separate s) || ends_with name (lit "=") || ends_with name (lit ":").

Definition kebab (text : bytes) : bytes :=
  (λ c, if c =?b underscore then "-"%byte else c) <$> normalize_to_lower_snake text.

(** ** Names *)

(** [Spelling]; no [suffix] is the source's '\0'. *)
Record Spelling := mkSpelling { dashes : bytes; stem : bytes; suffix : option byte }.

Definition generated (s : Spelling) : bool := negb (bool_decide (dashes s = [])).

(** The characters [Spelling::each] passes, which its size, its index and its equality read. *)
Definition text_of_spelling (s : Spelling) : bytes :=
  dashes s ++ ((λ c, if generated s && (c =?b underscore) then "-"%byte else c) <$> stem s) ++ option_list (suffix s).

Definition with_suffix (s : Spelling) (c : option byte) : Spelling := mkSpelling (dashes s) (stem s) c.

Inductive Role := Own | Equals | OnlyEquals.

#[export] Instance role_eq_dec : EqDecision Role.
Proof. solve_decision. Defined.

Record NameForm := mkForm { form_name : Spelling; form_kind : OptionKind; form_role : Role }.

(** The names of an option: those given, else its declared one. *)
Definition names_of (use : FieldUse) (declared : bytes) : list Spelling :=
  if bool_decide (spec_names (use_spec use) = [])
  then [mkSpelling (if length declared =? 1 then lit "-" else lit "--") declared None]
  else (λ n, mkSpelling [] n None) <$> spec_names (use_spec use).

(** The forms of the name of an option that takes a value. *)
Definition value_forms (s : KVStyle) (name : Spelling) : list NameForm :=
  let joins := if generated name then negb (has_separate s) else joined_name s (stem name) in
  if joins && negb (generated name) then [mkForm name Joined Own]
  else
    (if joins then [] else [mkForm name Separate Own]) ++
    (if has_joined s
     then [mkForm (with_suffix name (Some x3d)) Joined (if joins then OnlyEquals else Equals)] else []).

Definition name_forms (use : FieldUse) (declared : bytes) : list NameForm :=
  let each := names_of use declared in
  match use_shape use with
  | FlagShape | CountShape | AliasShape => (λ n, mkForm n CliTable.Flag Own) <$> each
  | TupleShape => (λ n, mkForm n MultiArg Own) <$> each
  | ValueShape =>
      if comma (use_spec use) then
        (λ n, mkForm (if ends_with (stem n) (lit ",") then n else with_suffix n (Some x2c)) CommaJoined Own) <$> each
      else mjoin (value_forms (style (use_spec use)) <$> each)
  end.

Definition subcommand_name (tagging : tag_mode) (alt_names : list bytes) (index : nat) (alternative : TypeInfo) : bytes :=
  match alt_names !! index with
  | Some n => if bool_decide (tagging = TagNone) then kebab (type_name alternative) else n
  | None => kebab (type_name alternative)
  end.

(** ** The check of a declaration *)

(** [Name]: the hash tells most names apart. *)
Definition fnv1a (text : bytes) : Z :=
  foldl (λ h c, Z.lxor h (uval c) * 0x100000001b3 mod 2 ^ 64)%Z 0xcbf29ce484222325%Z text.

Definition name_eqb (a b : bytes) : bool := (fnv1a a =? fnv1a b)%Z && bool_decide (a = b).

Definition holds {A} (eqb : A → A → bool) (values : list A) (value : A) : bool := existsb (λ held, eqb held value) values.

Fixpoint repeats {A} (eqb : A → A → bool) (values : list A) : bool :=
  match values with
  | [] => false
  | v :: values => holds eqb values v || repeats eqb values
  end.

(** The members of [DeclarationCheck]. *)
Record Checking := mkChecking {
  checked_names : list bytes;
  checked_equals : list NameForm;
  alias_names : list bytes;
  forwards : list bytes;
  has_rest : bool;
  has_subcommands : bool;
  in_alternative : bool;
  alternative_positional : bool;
  required_subcommands : bool;
  own_argument : bool;
}.

Definition new_checking : Checking := mkChecking [] [] [] [] false false false false false false.

Definition set_rest (st : Checking) : Checking :=
  mkChecking (checked_names st) (checked_equals st) (alias_names st) (forwards st) true (has_subcommands st)
    (in_alternative st) (alternative_positional st) (required_subcommands st) (own_argument st).
Definition set_alternative (st : Checking) (inside positional : bool) : Checking :=
  mkChecking (checked_names st) (checked_equals st) (alias_names st) (forwards st) (has_rest st) (has_subcommands st)
    inside positional (required_subcommands st) (own_argument st).
Definition add_required (st : Checking) (required : bool) : Checking :=
  mkChecking (checked_names st) (checked_equals st) (alias_names st) (forwards st) (has_rest st) (has_subcommands st)
    (in_alternative st) (alternative_positional st) (required_subcommands st || required) (own_argument st).
Definition add_own (st : Checking) (own : bool) : Checking :=
  mkChecking (checked_names st) (checked_equals st) (alias_names st) (forwards st) (has_rest st) (has_subcommands st)
    (in_alternative st) (alternative_positional st) (required_subcommands st) (own_argument st || own).
Definition add_forwards (st : Checking) (l : list bytes) : Checking :=
  mkChecking (checked_names st) (checked_equals st) (alias_names st) (forwards st ++ l) (has_rest st) (has_subcommands st)
    (in_alternative st) (alternative_positional st) (required_subcommands st) (own_argument st).

Definition claim_subcommands (st : Checking) : expected Checking bytes :=
  if has_subcommands st then Err (lit "cli: a command has one field of subcommands")
  else Ok (mkChecking (checked_names st) (checked_equals st) (alias_names st) (forwards st) (has_rest st) true
             (in_alternative st) (alternative_positional st) (required_subcommands st) (own_argument st)).

Definition check_name (name : bytes) : expected unit bytes :=
  if (length name <? 2) || (negb (name !!! 0 =?b "-"%byte) && negb (name !!! 0 =?b "/"%byte))
  then Err (lit "cli: an option name starts with '-', '--' or '/' and goes on")
  else Ok ().

(** A form of the name of an option, an alias or not. *)
Definition check_form (is_alias : bool) (st : Checking) (form : NameForm) : expected Checking bytes :=
  let name := text_of_spelling (form_name form) in
  try _ := check_name name in
  Ok (mkChecking
        (if bool_decide (form_role form = Own) then checked_names st ++ [name] else checked_names st)
        (if bool_decide (form_role form = Own) then checked_equals st else checked_equals st ++ [form])
        (if is_alias then alias_names st ++ [name] else alias_names st) (forwards st) (has_rest st) (has_subcommands st)
        (in_alternative st) (alternative_positional st) (required_subcommands st) (own_argument st)).

Section TryFold.
Context {A B E : Type} (f : B → A → expected B E).
Fixpoint try_fold (l : list A) (b : B) : expected B E :=
  match l with
  | [] => Ok b
  | a :: l => try b := f b a in try_fold l b
  end.
End TryFold.

Definition check_arg_use (st : Checking) (f : field_info) (use : FieldUse) : expected Checking bytes :=
  if spec_rest (use_spec use) then
    if negb (use_list use) then Err (lit "cli: the rest is a list")
    else if has_rest st then Err (lit "cli: one field takes the rest")
    else Ok (set_rest st)
  else if spec_positional (use_spec use) then Ok (set_alternative st (in_alternative st) (in_alternative st))
  else if comma (use_spec use) && negb (use_list use) then Err (lit "cli: a comma option is a list")
  else
    let is_alias := bool_decide (use_shape use = AliasShape) in
    try st := try_fold (check_form is_alias) (name_forms use (declared_name f)) st in
    Ok (if is_alias then add_forwards st (spec_forward (use_spec use)) else st).

(** What [check] does once the fields are added. *)
Definition check_equals (st : Checking) (form : NameForm) : expected Checking bytes :=
  let name := text_of_spelling (form_name form) in
  let named := holds name_eqb (checked_names st) name in
  if named && bool_decide (form_role form = OnlyEquals) then Err (lit "cli: two options are named the same")
  else Ok (mkChecking (if named then checked_names st else checked_names st ++ [name]) (checked_equals st)
             (alias_names st) (forwards st) (has_rest st) (has_subcommands st) (in_alternative st)
             (alternative_positional st) (required_subcommands st) (own_argument st)).

Definition check_all (st : Checking) : expected unit bytes :=
  if required_subcommands st && own_argument st then
    Err (lit "cli: beside a subcommand that must be given, an argument is cli::global or stops the parse")
  else
    try st := try_fold check_equals (checked_equals st) st in
    if existsb (holds name_eqb (alias_names st)) (forwards st) then Err (lit "cli: an alias stands for another alias")
    else if repeats name_eqb (checked_names st) then Err (lit "cli: two options are named the same")
    else Ok ().

(** The words of a variant of subcommands. *)
Definition variant_words (tagging : tag_mode) (alt_names : list bytes) (alternatives : list TypeInfo) : list bytes :=
  imap (subcommand_name tagging alt_names) alternatives.

(** [DeclarationCheck::add_struct], field by field. *)
Fixpoint check_struct (t : TypeInfo) (global conditional : bool) (st : Checking) {struct t} : expected Checking bytes :=
  match t with
  | StructInfo _ _ fields => try_fold (λ st f, check_field f global conditional st) fields st
  | _ => Ok st
  end
with check_field (f : field_info) (global conditional : bool) (st : Checking) {struct f} : expected Checking bytes :=
  match f with
  | mkField _ _ _ _ field_type _ _ _ _ _ =>
      let use := use_of f in
      let field_global := global || spec_global (use_spec use) in
      if exclusive (use_spec use) && negb (bool_decide (use_kind use = UseExclusive)) then
        Err (lit "cli: an exclusive field is a std::variant of structs")
      else if in_alternative st && negb (bool_decide (use_kind use = UseGroup)) && negb (bool_decide (use_kind use = UseArg)) then
        Err (lit "cli: an alternative of an exclusive field has no subcommands, and no exclusive field")
      else
        match use_kind use with
        | UseGroup => check_struct (strip_optional field_type) field_global (conditional || use_optional use) st
        | UseSubcommands =>
            match strip_optional field_type with
            | VariantInfo _ tagging alt_names alternatives =>
                try st := claim_subcommands st in
                if negb (bool_decide (tagging = TagNone)) && negb (bool_decide (tagging = TagExternal)) then
                  Err (lit "cli: subcommands are named by their tag names alone")
                else
                  try _ := try_fold (λ _ alternative,
                    if negb (is_structure alternative) then Err (lit "cli: a subcommand is a struct")
                    else try inner := check_struct alternative false false new_checking in check_all inner) alternatives () in
                  let words := variant_words tagging alt_names alternatives in
                  if negb (forallb (λ h, bool_decide (h ∈ words)) (hidden_sub (use_spec use))) then
                    Err (lit "cli: a hidden subcommand is one of the field's")
                  else if repeats (λ a b, bool_decide (a = b)) words then
                    Err (lit "cli: two subcommands are named the same")
                  else Ok (add_required st (negb (use_optional use) && negb conditional))
            | _ => Ok st
            end
        | UseCommands =>
            try st := claim_subcommands st in
            Ok (add_required st (use_required use && negb conditional))
        | UseExclusive =>
            match strip_optional field_type with
            | VariantInfo _ tagging _ alternatives =>
                if negb (bool_decide (tagging = TagNone)) then Err (lit "cli: an exclusive field is untagged")
                else
                  try '(st, positional) := try_fold (λ '(st, positional) alternative,
                    if negb (is_structure alternative) then Err (lit "cli: an alternative of an exclusive field is a struct")
                    else
                      try st := check_struct alternative field_global true (set_alternative st true false) in
                      Ok (st, positional + if alternative_positional st then 1 else 0)) alternatives
                    (set_alternative st true (alternative_positional st), 0) in
                  if 1 <? positional then Err (lit "cli: one alternative of an exclusive field has positional arguments")
                  else Ok (set_alternative st false (alternative_positional st))
            | _ => Ok st
            end
        | UseArg =>
            try st := check_arg_use st f use in
            Ok (add_own st (negb field_global && negb (spec_stop (use_spec use)) &&
                            negb (bool_decide (use_shape use = AliasShape))))
        end
  end.

(** [DeclarationCheck::check], and [check_declaration]. *)
Definition check_command (t : TypeInfo) : expected unit bytes :=
  try st := check_struct t false false new_checking in check_all st.

Definition check_declaration (t : TypeInfo) : expected unit bytes :=
  if negb (is_structure t) then Err (lit "cli: options are declared in a struct") else check_command t.
End Declare.
