(* ===== verification/CliCommand.v ===== *)
(** Commands (src/cli/command.h), and how [Builder] (src/cli/command.cc) builds
    one from the declaration of a struct (CliDeclare.v).

    [Building] is the command being built, with the members of the builder;
    the functions keep the source's names.  A command that would hold itself
    has no tree of types, so the abort of [make_command] is left out.  Ids and
    counts are natural numbers. *)

From Stdlib Require Import Strings.Byte ZArith Lia Bool.
From stdpp Require Import prelude strings list.
From S2P Require Import Prelude Naming Charconv CliTable CliNumber CliDeclare.
Local Open Scope kota_scope.
Local Open Scope nat_scope.

(** ** Commands *)

Inductive Form := FormEquals | FormJoined | FormSeparate.

#[export] Instance form_eq_dec : EqDecision Form.
Proof. solve_decision. Defined.

Record Arg `{D : Doubles} := mkArg {
  arg_use : FieldUse;
  arg_field : field_info;
  arg_group : option nat;
  alternative : option nat;
  global : bool;
  arg_keys : list bytes;
  path : bytes;
  usage : bytes;
  synopsis : bytes;
  write_name : bytes;
  form : Form;
}.

Section ArgFields.
Context `{D : Doubles}.
Definition arg_spec (a : Arg) : ArgSpec := use_spec (arg_use a).
Definition shape (a : Arg) : Shape := use_shape (arg_use a).
Definition is_list (a : Arg) : bool := use_list (arg_use a).
Definition required (a : Arg) : bool := use_required (arg_use a).
Definition positional (a : Arg) : bool := spec_positional (arg_spec a).
Definition stop (a : Arg) : bool := spec_stop (arg_spec a).
Definition hidden (a : Arg) : bool := spec_hidden (arg_spec a).
Definition arg_num (a : Arg) : ArgNum := spec_arg_num (arg_spec a).
Definition forward (a : Arg) : list bytes := spec_forward (arg_spec a).
Definition choices (a : Arg) : list bytes := field_choices (arg_field a).
Definition minimum (a : Arg) : schema_number := field_minimum (arg_field a).
Definition maximum (a : Arg) : schema_number := field_maximum (arg_field a).
Definition integer_kind (a : Arg) : bool := is_integer_kind (value_type (arg_use a)).
End ArgFields.

Record Group := mkGroup {
  group_parent : option nat;
  group_optional : bool;
  group_global : bool;
  group_keys : list bytes;
  group_description : bytes;
  group_exclusive : option nat;
  group_alternative : nat;
}.

Record Exclusive := mkExclusive {
  exclusive_keys : list bytes;
  exclusive_group : option nat;
  exclusive_required : bool;
  exclusive_alternatives : list nat;
  first_args : list (option nat);
  exclusive_global : bool;
}.

(** What an option of the table reads into. *)
Inductive Target := NoArg | HelpArg | ArgAt (i : nat).

Inductive Command `{D : Doubles} := mkCommand
  (command_type : TypeInfo) (groups : list Group) (args : list Arg) (positionals : list nat) (positional_count : ArgNum)
  (rest : option nat) (subcommands : option Subcommands) (exclusives : list Exclusive) (help_usage : bytes)
  (spellings : list bytes) (arg_of : list Target) (table : OptTable) (parse_options : ParseOptions)
with Subcommands `{D : Doubles} := mkSubcommands
  (sub_keys : list bytes) (sub_path : bytes) (sub_optional : bool) (sub_group : option nat) (sub_meta_var : bytes)
  (sub_names : list bytes) (sub_descriptions : list bytes) (sub_hidden : list bool) (commands : list Command).

Section Fields.
Context `{D : Doubles}.
Definition command_type (c : Command) := let 'mkCommand x _ _ _ _ _ _ _ _ _ _ _ _ := c in x.
Definition groups (c : Command) := let 'mkCommand _ x _ _ _ _ _ _ _ _ _ _ _ := c in x.
Definition args (c : Command) := let 'mkCommand _ _ x _ _ _ _ _ _ _ _ _ _ := c in x.
Definition positionals (c : Command) := let 'mkCommand _ _ _ x _ _ _ _ _ _ _ _ _ := c in x.
Definition positional_count (c : Command) := let 'mkCommand _ _ _ _ x _ _ _ _ _ _ _ _ := c in x.
Definition rest (c : Command) := let 'mkCommand _ _ _ _ _ x _ _ _ _ _ _ _ := c in x.
Definition subcommands (c : Command) := let 'mkCommand _ _ _ _ _ _ x _ _ _ _ _ _ := c in x.
Definition exclusives (c : Command) := let 'mkCommand _ _ _ _ _ _ _ x _ _ _ _ _ := c in x.
Definition help_usage (c : Command) := let 'mkCommand _ _ _ _ _ _ _ _ x _ _ _ _ := c in x.
Definition spellings (c : Command) := let 'mkCommand _ _ _ _ _ _ _ _ _ x _ _ _ := c in x.
Definition arg_of (c : Command) := let 'mkCommand _ _ _ _ _ _ _ _ _ _ x _ _ := c in x.
Definition table (c : Command) := let 'mkCommand _ _ _ _ _ _ _ _ _ _ _ x _ := c in x.
Definition parse_options (c : Command) := let 'mkCommand _ _ _ _ _ _ _ _ _ _ _ _ x := c in x.
Definition sub_keys (s : Subcommands) := let 'mkSubcommands x _ _ _ _ _ _ _ _ := s in x.
Definition sub_path (s : Subcommands) := let 'mkSubcommands _ x _ _ _ _ _ _ _ := s in x.
Definition sub_optional (s : Subcommands) := let 'mkSubcommands _ _ x _ _ _ _ _ _ := s in x.
Definition sub_group (s : Subcommands) := let 'mkSubcommands _ _ _ x _ _ _ _ _ := s in x.
Definition sub_meta_var (s : Subcommands) := let 'mkSubcommands _ _ _ _ x _ _ _ _ := s in x.
Definition sub_names (s : Subcommands) := let 'mkSubcommands _ _ _ _ _ x _ _ _ := s in x.
Definition sub_descriptions (s : Subcommands) := let 'mkSubcommands _ _ _ _ _ _ x _ _ := s in x.
Definition sub_hidden (s : Subcommands) := let 'mkSubcommands _ _ _ _ _ _ _ x _ := s in x.
Definition commands (s : Subcommands) := let 'mkSubcommands _ _ _ _ _ _ _ _ x := s in x.
End Fields.

Definition join (parts : list bytes) (separator : bytes) : bytes :=
  match parts with
  | [] => []
  | p :: parts => p ++ foldr (λ q s, separator ++ q ++ s) [] parts
  end.

Definition decimal (n : nat) : bytes := format_u64 (Z.of_nat n).

(** ** What a usage shows of a value *)

Definition choices_token (names : list bytes) (kebab_case : bool) : bytes :=
  let shown := 6 in
  lit "<" ++ join ((λ n, if kebab_case then kebab n else n) <$> take (min (length names) shown) names) (lit "|") ++
  (if shown <? length names then lit "|...>" else lit ">").

Section Build.
Context `{D : Doubles}.

Definition value_token (a : Arg) : bytes :=
  if negb (bool_decide (meta_var (arg_spec a) = [])) then meta_var (arg_spec a)
  else if negb (bool_decide (choices a = [])) then choices_token (choices a) false
  else match value_type (arg_use a) with
       | EnumInfo _ member_names => if bool_decide (member_names = []) then lit "<value>" else choices_token member_names true
       | _ => lit "<value>"
       end.

Definition contains (s : bytes) (c : byte) : bool := existsb (λ x, x =?b c) s.

Definition numbered (token : bytes) (count : nat) : bytes :=
  if (count <=? 1) || contains token x20 then token
  else
    let base := if (2 <=? length token) && starts_with token (lit "<") && ends_with token (lit ">")
                then take (length token - 2) (drop 1 token) else token in
    join ((λ i, if contains token "|"%byte then token else lit "<" ++ base ++ decimal i ++ lit ">") <$> seq 1 count) (lit " ").

(** ** The builder *)

Definition prefixes_of (name : bytes) : list bytes :=
  if starts_with name (lit "--") then [lit "--"]
  else if starts_with name (lit "-") then [lit "-"] else [lit "/"; lit "-"].

Definition takes (spelling name : bytes) : bool :=
  let stem := drop (if starts_with spelling (lit "--") then 2 else 1) spelling in
  existsb (λ prefix, (length name =? length prefix + length stem) && starts_with name prefix && ends_with name stem)
    (prefixes_of spelling).

(** The command being built, with [current_alternative] and [equals_forms]. *)
Record Building := mkBuilding {
  b_groups : list Group;
  b_args : list Arg;
  b_positionals : list nat;
  b_count : ArgNum;
  b_rest : option nat;
  b_subcommands : option Subcommands;
  b_exclusives : list Exclusive;
  b_spellings : list bytes;
  b_options : list Option;
  b_arg_of : list Target;
  current_alternative : option nat;
  equals_forms : list (NameForm * nat);
}.

Definition start_building : Building :=
  mkBuilding [] [] [] (mkArgNum 0 (Some 0)) None None [] [] [unknown 1; input 2] [NoArg; NoArg; NoArg] None [].

Definition set_args (b : Building) (l : list Arg) : Building :=
  mkBuilding (b_groups b) l (b_positionals b) (b_count b) (b_rest b) (b_subcommands b) (b_exclusives b) (b_spellings b)
    (b_options b) (b_arg_of b) (current_alternative b) (equals_forms b).
Definition set_groups (b : Building) (l : list Group) : Building :=
  mkBuilding l (b_args b) (b_positionals b) (b_count b) (b_rest b) (b_subcommands b) (b_exclusives b) (b_spellings b)
    (b_options b) (b_arg_of b) (current_alternative b) (equals_forms b).
Definition set_exclusives (b : Building) (l : list Exclusive) : Building :=
  mkBuilding (b_groups b) (b_args b) (b_positionals b) (b_count b) (b_rest b) (b_subcommands b) l (b_spellings b)
    (b_options b) (b_arg_of b) (current_alternative b) (equals_forms b).
Definition set_current (b : Building) (g : option nat) : Building :=
  mkBuilding (b_groups b) (b_args b) (b_positionals b) (b_count b) (b_rest b) (b_subcommands b) (b_exclusives b) (b_spellings b)
    (b_options b) (b_arg_of b) g (equals_forms b).
Definition set_subcommands (b : Building) (s : Subcommands) : Building :=
  mkBuilding (b_groups b) (b_args b) (b_positionals b) (b_count b) (b_rest b) (Some s) (b_exclusives b) (b_spellings b)
    (b_options b) (b_arg_of b) (current_alternative b) (equals_forms b).
Definition set_rest_arg (b : Building) (i : nat) : Building :=
  mkBuilding (b_groups b) (b_args b) (b_positionals b) (b_count b) (Some i) (b_subcommands b) (b_exclusives b) (b_spellings b)
    (b_options b) (b_arg_of b) (current_alternative b) (equals_forms b).
Definition set_positionals (b : Building) (l : list nat) (count : ArgNum) : Building :=
  mkBuilding (b_groups b) (b_args b) l count (b_rest b) (b_subcommands b) (b_exclusives b) (b_spellings b)
    (b_options b) (b_arg_of b) (current_alternative b) (equals_forms b).
Definition add_equals (b : Building) (f : NameForm) (i : nat) : Building :=
  mkBuilding (b_groups b) (b_args b) (b_positionals b) (b_count b) (b_rest b) (b_subcommands b) (b_exclusives b) (b_spellings b)
    (b_options b) (b_arg_of b) (current_alternative b) (equals_forms b ++ [(f, i)]).

Definition with_texts (a : Arg) (usage synopsis : bytes) : Arg :=
  mkArg _ (arg_use a) (arg_field a) (arg_group a) (alternative a) (global a) (arg_keys a) (path a) usage synopsis
    (write_name a) (form a).
Definition with_writing (a : Arg) (name : bytes) (f : Form) : Arg :=
  mkArg _ (arg_use a) (arg_field a) (arg_group a) (alternative a) (global a) (arg_keys a) (path a) (usage a) (synopsis a)
    name f.

Definition add_option (b : Building) (name : bytes) (kind : OptionKind) (arg : Target) : Building :=
  let id := length (b_options b) + 1 in
  let num_args :=
    match kind, arg with
    | MultiArg, ArgAt i => match b_args b !! i with Some a => tuple_size (arg_use a) mod 256 | None => 0 end
    | _, _ => 0
    end in
  mkBuilding (b_groups b) (b_args b) (b_positionals b) (b_count b) (b_rest b) (b_subcommands b) (b_exclusives b)
    (b_spellings b ++ [name]) (b_options b ++ [unaliased_one (prefixes_of name) name id kind num_args])
    (b_arg_of b ++ [arg]) (current_alternative b) (equals_forms b).

Definition name_equals_form (b : Building) (f : NameForm * nat) : Building :=
  let '(form_, index) := f in
  let name := text_of_spelling (form_name form_) in
  if bool_decide (name ∈ b_spellings b) then
    set_args b (alter (λ a, if bool_decide (form a = FormEquals) && bool_decide (write_name a ++ lit "=" = name)
                            then with_writing a (write_name a) FormSeparate else a) index (b_args b))
  else add_option b name (form_kind form_) (ArgAt index).

Definition name_equals_forms (b : Building) : Building := foldl name_equals_form b (equals_forms b).

(** The options and the '=' forms the forms of argument [index] give. *)
Definition name_form (index : nat) (b : Building) (f : NameForm) : Building :=
  match form_role f with
  | Own => add_option b (text_of_spelling (form_name f)) (form_kind f) (ArgAt index)
  | Equals | OnlyEquals => add_equals b f index
  end.

Definition kind_is (k : OptionKind) (f : NameForm) : bool := bool_decide (form_kind f = k).
Definition is_own (f : NameForm) : bool := bool_decide (form_role f = Own).
Definition form_text (f : NameForm) : bytes := text_of_spelling (form_name f).

(** How a usage writes a joined form. *)
Definition joined_text (token : bytes) (f : NameForm) : option bytes :=
  match form_role f, form_kind f with
  | Own, Joined => Some (form_text f ++ token)
  | Own, CommaJoined => Some (form_text f ++ token ++ lit "[," ++ token ++ lit "...]")
  | OnlyEquals, _ => Some (form_text f ++ token)
  | _, _ => None
  end.

Definition name_texts (a : Arg) (forms : list NameForm) : Arg :=
  match forms with
  | [] => a
  | first :: others =>
      let token := value_token a in
      let own := form_text <$> List.filter is_own forms in
      let separate := form_text <$> List.filter (λ f, is_own f && kind_is Separate f) forms in
      let joined := omap (joined_text token) forms in
      let write := if is_own first then form_name first else with_suffix (form_name first) None in
      let written :=
        if negb (is_own first) || match others with f :: _ => negb (is_own f) | [] => false end then FormEquals
        else if kind_is Joined first || kind_is CommaJoined first then FormJoined else form a in
      let a := with_writing a (text_of_spelling write) written in
      match shape a with
      | FlagShape | CountShape | AliasShape => with_texts a (join own (lit "|")) (form_text first)
      | TupleShape =>
          let values := numbered token (tuple_size (arg_use a)) in
          with_texts a (join own (lit "|") ++ lit " " ++ values) (form_text first ++ lit " " ++ values)
      | ValueShape =>
          let usages := (if bool_decide (separate = []) then [] else [join separate (lit "|") ++ lit " " ++ token]) ++ joined in
          with_texts a (join usages (lit "|"))
            (if kind_is Separate first then form_text first ++ lit " " ++ token else default [] (head joined))
      end
  end.

(** [Builder::name]. *)
Definition name_arg (b : Building) (index : nat) : Building :=
  match b_args b !! index with
  | None => b
  | Some a =>
      let forms := name_forms (arg_use a) (declared_name (arg_field a)) in
      let b := foldl (name_form index) b forms in
      set_args b (alter (λ a, name_texts a forms) index (b_args b))
  end.

Definition add_count (count num : ArgNum) : ArgNum :=
  mkArgNum (arg_min count + arg_min num)
    (match arg_max num, arg_max count with Some n, Some m => Some (m + n) | _, _ => None end).

(** The first argument of the alternative it is in. *)
Definition note_first (b : Building) (a : Arg) (index : nat) : Building :=
  match alternative a ≫= (λ gi, b_groups b !! gi) with
  | Some g =>
      match group_exclusive g with
      | Some x =>
          set_exclusives b (alter (λ e,
            mkExclusive (exclusive_keys e) (exclusive_group e) (exclusive_required e) (exclusive_alternatives e)
              (alter (λ first, match first with None => Some index | _ => first end) (group_alternative g) (first_args e))
              (exclusive_global e)) x (b_exclusives b))
      | None => b
      end
  | None => b
  end.

Definition add_arg (b : Building) (a : Arg) : Building :=
  let index := length (b_args b) in
  let b := note_first b a index in
  let token := value_token a in
  if spec_rest (arg_spec a) then
    let text := lit "-- " ++ token ++ lit "..." in
    set_rest_arg (set_args b (b_args b ++ [with_texts a text text])) index
  else if negb (positional a) then name_arg (set_args b (b_args b ++ [a])) index
  else
    let num := if is_list a then arg_num a else mkArgNum 1 (Some 1) in
    let text := if negb (is_list a) then token
                else if bool_decide (arg_max num = Some (arg_min num)) then numbered token (arg_min num)
                else token ++ lit "..." in
    set_positionals (set_args b (b_args b ++ [with_texts a text text])) (b_positionals b ++ [index])
      (add_count (b_count b) num).

(** What [build] does once the fields are added. *)
Definition finish (t : TypeInfo) (b : Building) : Command :=
  let b := name_equals_forms b in
  let helps :=
    foldl (λ '(b, l) name,
      if existsb (λ s, takes s name) (b_spellings b) then (b, l)
      else (add_option b name CliTable.Flag HelpArg, l ++ [name])) (b, []) [lit "-h"; lit "--help"] in
  let b := fst helps in
  let union := set_of bytes_lt ([lit "-"; lit "--"] ++ mjoin (prefixes <$> b_options b)) in
  let built := new_table (b_options b) false union in
  mkCommand t (b_groups b) (b_args b) (b_positionals b) (b_count b) (b_rest b) (b_subcommands b) (b_exclusives b)
    (join (snd helps) (lit "|")) (b_spellings b) (b_arg_of b)
    (mkTable (option_infos built) (prefixes_union built) (prefix_chars built) (input_option_id built)
       (unknown_option_id built) (first_searchable_index built) (ignore_case built) (tablegen_mode built) true)
    (mkOptions false true (bool_decide (b_rest b ≠ None)) false (opts_visibility default_options)
       (include_flags default_options) (exclude_flags default_options)).

(** The group of an alternative of exclusive field [index]. *)
Definition alternative_group (f : field_info) (group : option nat) (global : bool) (keys : list bytes) (index i : nat)
    (alternative : TypeInfo) : Group :=
  let title := if bool_decide (field_description f = []) then declared_name f else field_description f in
  mkGroup group false global keys
    (title ++ lit ", one of: " ++
     if bool_decide (type_description alternative = []) then kebab (type_name alternative) else type_description alternative)
    (Some index) i.

(** A new alternative of exclusive field [index], whose fields are added next. *)
Definition enter_alternative (b : Building) (g : Group) (index : nat) : Building :=
  let inner := length (b_groups b) in
  let b := set_groups b (b_groups b ++ [g]) in
  let b := set_exclusives b (alter (λ e,
    mkExclusive (exclusive_keys e) (exclusive_group e) (exclusive_required e) (exclusive_alternatives e ++ [inner])
      (first_args e) (exclusive_global e)) index (b_exclusives b)) in
  set_current b (Some inner).

Definition is_global (b : Building) (use : FieldUse) (group : option nat) : bool :=
  spec_global (use_spec use) ||
  match group ≫= (λ g, b_groups b !! g) with Some g => group_global g | None => false end.

(** [Builder::add_struct], field by field; the command of a subcommand is
    [make_command] of its type. *)
Fixpoint add_struct (t : TypeInfo) (group : option nat) (keys : list bytes) (path : bytes) (b : Building) {struct t} : Building :=
  match t with
  | StructInfo _ _ fields => foldl (λ b f, add_field f group keys path b) b fields
  | _ => b
  end
with add_field (f : field_info) (group : option nat) (keys : list bytes) (path : bytes) (b : Building) {struct f} : Building :=
  match f with
  | mkField name declared description _ field_type _ commands _ _ _ =>
      let field_keys := keys ++ [name] in
      let field_path := if bool_decide (path = []) then declared else path ++ lit "." ++ declared in
      let use := use_of f in
      let global := is_global b use group in
      match use_kind use with
      | UseGroup =>
          let members := strip_optional field_type in
          let inner := length (b_groups b) in
          let text := if bool_decide (description = []) then type_description members else description in
          add_struct members (Some inner) field_keys field_path
            (set_groups b (b_groups b ++ [mkGroup group (use_optional use) global field_keys text None 0]))
      | UseSubcommands =>
          match strip_optional field_type with
          | VariantInfo _ tagging alt_names alternatives =>
              let words := variant_words tagging alt_names alternatives in
              set_subcommands b (mkSubcommands field_keys field_path (use_optional use) group (meta_var (use_spec use)) words
                (type_description <$> alternatives) ((λ w, bool_decide (w ∈ hidden_sub (use_spec use))) <$> words)
                (map (λ t, finish t (add_struct t None [] [] start_building)) alternatives))
          | _ => b
          end
      | UseCommands =>
          match commands with
          | Some entries =>
              set_subcommands b (mkSubcommands field_keys field_path (negb (use_required use)) group (meta_var (use_spec use))
                (entry_name <$> entries) (entry_description <$> entries) (entry_hidden <$> entries)
                (map (λ e, let 'mkEntry _ _ _ t := e in finish t (add_struct t None [] [] start_building)) entries))
          | None => b
          end
      | UseExclusive =>
          match strip_optional field_type with
          | VariantInfo _ _ _ alternatives =>
              let index := length (b_exclusives b) in
              let b := set_exclusives b (b_exclusives b ++
                [mkExclusive field_keys group (use_required use) [] (replicate (length alternatives) None) global]) in
              snd (foldl (λ '(i, b) alternative,
                (S i, set_current (add_struct alternative (Some (length (b_groups b))) field_keys field_path
                  (enter_alternative b (alternative_group f group global field_keys index i alternative) index)) None))
                (0, b) alternatives)
          | _ => b
          end
      | UseArg =>
          add_arg b (mkArg _ use f group (current_alternative b) global field_keys field_path [] [] [] FormSeparate)
      end
  end.

(** [make_command], and [build_command]. *)
Definition build_command (t : TypeInfo) : Command := finish t (add_struct t None [] [] start_building).
End Build.
