(* ===== verification/CliRead.v ===== *)
(** Reading an argv as a command takes it (src/cli/parse.cc, with [held] and
    [present] of src/cli/command.cc): options, positional arguments, groups,
    exclusive fields, aliases and subcommands, over the option table of
    CliTable.v, into the tree of CliNode.v.

    A [Command] is what the builder made of the options struct.  A [Level] is
    the state of one command being read and [Reading] that of the whole read.
    The reader goes over what the table's parse gives ([read_results]); an alias
    stops it and the level is parsed again from the alias on, a subcommand's
    word stops it too and the subcommand's level reads the rest.  [run] has
    fuel, one unit for every alias and every subcommand.

    The source keeps pointers into the tree for the subcommand's fields; here the
    subcommand reads into a tree of its own, which is then put in its place.
    What is of floating point is a parameter ([Doubles]). *)

From Stdlib Require Import Strings.Byte ZArith Lia Bool.
From stdpp Require Import prelude strings list.
From S2P Require Import Prelude Naming Charconv CliTable CliNumber CliDeclare CliCommand CliNode CliSuggest.
Local Open Scope kota_scope.
Local Open Scope nat_scope.

(** ** The state of a read *)

Inductive ErrorKind :=
| UnknownOption | MissingValueError | InvalidValue | UnexpectedArgument | MissingRequired | Conflict
| UnknownSubcommand | MissingSubcommand.

(** [cli::Error], less the argv it copies. *)
Record ReadError := mkReadError {
  error_kind : ErrorKind;
  message : bytes;
  at_begin : nat;
  at_end : nat;
  in_subcommands : list bytes;
  suggestion : bytes;
}.

Record Given := mkGiven { given_path : bytes; given_values : list bytes }.

Record Reading := mkReading {
  active : list bytes;
  origin : list nat;
  given : list Given;
  subcommand_words : list nat;
  stopped : bool;
  help : bool;
}.

Record Level := mkLevel {
  root : Node;
  prefix : bytes;
  occurrences : list nat;
  chosen_by : list (option nat);
  positional_at : nat;
  cursor : nat;
  first_own : option nat;
}.

(** A text and, if it is one whole element of [active], which. *)
Record View := mkView { view_element : option nat; view_text : bytes }.

(** The views a parse of [active] from [base] on gives. *)
Definition view_of (l : list bytes) (base : nat) (v : value) : View :=
  let t := value_text (drop base l) [] v in
  match v with
  | InArgv i 0 size => mkView (if size =? length (l !!! (base + i)) then Some (base + i) else None) t
  | _ => mkView None t
  end.

Definition input_args_text (num : ArgNum) : bytes :=
  let noun := if arg_min num =? 1 then lit "input argument" else lit "input arguments" in
  if bool_decide (arg_max num = Some (arg_min num)) then decimal (arg_min num) ++ lit " " ++ noun
  else match arg_max num with
       | None => lit "at least " ++ decimal (arg_min num) ++ lit " " ++ noun
       | Some m => decimal (arg_min num) ++ lit " to " ++ decimal m ++ lit " input arguments"
       end.

Section Reader.
Context `{D : Doubles}.
Variable argv : list bytes.

(** [error_from]. *)
Definition error_from (rd : Reading) (k : ErrorKind) (msg : bytes) (begin end_ : nat) : ReadError :=
  let size := length (active rd) in
  let argc := length argv in
  let first := if size <=? begin then argc else origin rd !!! begin in
  let past := if end_ <=? begin then first
              else if size <? end_ then argc else origin rd !!! (end_ - 1) + 1 in
  mkReadError k msg first (max first past)
    ((λ w, active rd !!! w) <$> filter (λ w, w < begin) (subcommand_words rd)) [].

Definition with_suggestion (e : ReadError) (s : bytes) : ReadError :=
  mkReadError (error_kind e) (message e) (at_begin e) (at_end e) (in_subcommands e) s.

(** ** Exclusive fields and groups *)

Definition held (c : Command) (r : Node) (exclusive : nat) : option nat :=
  match exclusives c !! exclusive with
  | None => None
  | Some x =>
      match find_node r (exclusive_keys x) with
      | Some n => if bool_decide (kind n = Variant) then Some (count n) else None
      | None => None
      end
  end.

(** [present]: the groups from [g] out; [fuel] bounds how deep they nest. *)
Fixpoint present_from (fuel : nat) (c : Command) (r : Node) (g : option nat) : bool :=
  match fuel, g with
  | S fuel, Some i =>
      match groups c !! i with
      | None => true
      | Some gr =>
          match group_exclusive gr with
          | Some x => bool_decide (held c r x = Some (group_alternative gr))
          | None => true
          end &&
          (negb (group_optional gr) ||
           match find_node r (group_keys gr) with
           | Some n => bool_decide (kind n = Object)
           | None => false
           end) && present_from fuel c r (group_parent gr)
      end
  | _, _ => true
  end.
Definition present (c : Command) (r : Node) (g : option nat) : bool :=
  present_from (S (length (groups c))) c r g.

(** The exclusive field that holds another alternative than the argument's. *)
Definition excluding (c : Command) (lv : Level) (a : Arg) : option nat :=
  match alternative a with
  | None => None
  | Some gi =>
      match groups c !! gi with
      | Some g =>
          match group_exclusive g with
          | Some x =>
              match held c (root lv) x with
              | Some holds => if holds =? group_alternative g then None else Some x
              | None => None
              end
          | None => None
          end
      | None => None
      end
  end.

Definition usage_at (c : Command) (i : nat) : bytes := match args c !! i with Some a => usage a | None => [] end.

Definition conflict (c : Command) (lv : Level) (rd : Reading) (arg_index exclusive begin end_ : nat) : ReadError :=
  error_from rd Conflict
    (usage_at c arg_index ++ lit " cannot be used with " ++
     match chosen_by lv !! exclusive with Some (Some j) => usage_at c j | _ => [] end) begin end_.

Definition with_root (lv : Level) (r : Node) : Level :=
  mkLevel r (prefix lv) (occurrences lv) (chosen_by lv) (positional_at lv) (cursor lv) (first_own lv).
Definition with_chosen (lv : Level) (l : list (option nat)) : Level :=
  mkLevel (root lv) (prefix lv) (occurrences lv) l (positional_at lv) (cursor lv) (first_own lv).
Definition with_positional (lv : Level) (n : nat) : Level :=
  mkLevel (root lv) (prefix lv) (occurrences lv) (chosen_by lv) n (cursor lv) (first_own lv).
Definition with_cursor (lv : Level) (n : nat) : Level :=
  mkLevel (root lv) (prefix lv) (occurrences lv) (chosen_by lv) (positional_at lv) n (first_own lv).
Definition with_occurrence (lv : Level) (i : nat) (own : bool) : Level :=
  mkLevel (root lv) (prefix lv) (alter S i (occurrences lv)) (chosen_by lv) (positional_at lv) (cursor lv)
    (if own && bool_decide (first_own lv = None) then Some i else first_own lv).

(** [choose]: the change of the variant, when it holds nothing yet. *)
Definition hold (alternative begin end_ : nat) (n : Node) : Node :=
  match items n with
  | [] => mkNode (kind n) alternative (text n) begin end_ (keys n) [new_node Object]
  | _ => n
  end.

Definition choose (c : Command) (lv : Level) (rd : Reading) (arg_index begin end_ : nat) (a : Arg)
    : expected Level ReadError :=
  match alternative a with
  | None => Ok lv
  | Some gi =>
      match excluding c lv a with
      | Some other => Err (conflict c lv rd arg_index other begin end_)
      | None =>
          match groups c !! gi with
          | Some g =>
              match group_exclusive g with
              | Some x =>
                  match exclusives c !! x with
                  | Some ex =>
                      let fresh := match find_node (root lv) (exclusive_keys ex) with
                                   | Some n => bool_decide (items n = [])
                                   | None => true
                                   end in
                      let lv1 := with_root lv (make_node (root lv) (exclusive_keys ex) Variant
                                   (hold (group_alternative g) begin end_)) in
                      Ok (if fresh then with_chosen lv1 (<[x := Some arg_index]> (chosen_by lv1)) else lv1)
                  | None => Ok lv
                  end
              | None => Ok lv
              end
          | None => Ok lv
          end
      end
  end.

(** ** Storing values *)

Definition node_kind (a : Arg) : NodeKind :=
  match shape a with
  | FlagShape => Flag
  | CountShape => Count
  | _ => if is_list a || bool_decide (shape a = TupleShape) then List else Text
  end.

(** The nodes of [values]; a value that is an element from [from] on is marked
    there, any other at the whole argument. *)
Fixpoint text_nodes (vs : list View) (from begin end_ : nat) : list Node :=
  match vs with
  | [] => []
  | v :: vs =>
      match view_element v with
      | Some i =>
          if (from <=? i) && (i <? end_) then text_node (view_text v) i (i + 1) :: text_nodes vs (i + 1) begin end_
          else text_node (view_text v) begin end_ :: text_nodes vs from begin end_
      | None => text_node (view_text v) begin end_ :: text_nodes vs from begin end_
      end
  end.

Definition check_constraints (rd : Reading) (a : Arg) (n : Node) : option ReadError :=
  if negb (bool_decide (choices a = [])) && negb (bool_decide (text n ∈ choices a)) then
    Some (error_from rd InvalidValue
      (lit "invalid value '" ++ text n ++ lit "' (supported: " ++ join (choices a) (lit ", ") ++ lit ")")
      (begin n) (end_ n))
  else match refused_number (minimum a) (maximum a) (number_of (text n) (integer_kind a)) (text n) with
       | Some msg => Some (error_from rd InvalidValue msg (begin n) (end_ n))
       | None => None
       end.

Definition first_error (rd : Reading) (a : Arg) (ns : list Node) : option ReadError :=
  foldr (λ n e, match check_constraints rd a n with Some e' => Some e' | None => e end) None ns.

(** The change of the argument's node; [ns] are the nodes of its values. *)
Definition store_node (a : Arg) (ns : list Node) (begin end_ : nat) (n : Node) : Node :=
  let n1 :=
    match shape a with
    | FlagShape | AliasShape => n
    | CountShape => with_count n (count n + 1)
    | ValueShape =>
        if is_list a then with_items n (items n ++ ns) else default n (last ns)
    | TupleShape =>
        let tuple := mkNode List 0 [] begin end_ [] ns in
        if is_list a then with_items n (items n ++ [tuple]) else tuple
    end in
  match kind n1, items n1, last (items n1) with
  | List, first :: _, Some final => with_span n1 (CliNode.begin first) (CliNode.end_ final)
  | Text, _, _ => n1
  | _, _, _ => with_span n1 begin end_
  end.

Definition with_given (rd : Reading) (g : Given) : Reading :=
  mkReading (active rd) (origin rd) (given rd ++ [g]) (subcommand_words rd) (stopped rd) (help rd).

Definition store (c : Command) (lv : Level) (rd : Reading) (arg_index : nat) (vs : list View) (begin end_ : nat)
    : expected (Level * Reading) ReadError :=
  match args c !! arg_index with
  | None => Ok (lv, rd)
  | Some a =>
      try lv1 := choose c lv rd arg_index begin end_ a in
      let lv2 := with_occurrence lv1 arg_index (negb (global a)) in
      let ns := text_nodes vs begin begin end_ in
      let checked := match shape a with ValueShape | TupleShape => first_error rd a ns | _ => None end in
      match checked with
      | Some e => Err e
      | None =>
          let r := make_node (root lv2) (arg_keys a) (node_kind a) (store_node a ns begin end_) in
          Ok (with_root lv2 r, with_given rd (mkGiven (prefix lv2 ++ path a) (view_text <$> vs)))
      end
  end.

(** [store_input]: the positional argument element [index] goes to.  [excluded]
    is the first one passed over for its alternative; [fuel], how many are left. *)
Fixpoint store_input_from (fuel : nat) (c : Command) (lv : Level) (rd : Reading) (index : nat)
    (excluded : option (nat * nat)) : expected (Level * Reading) ReadError :=
  let spelling := active rd !!! index in
  let refuse :=
    match excluded with
    | Some (arg_index, other) => Err (conflict c lv rd arg_index other index (index + 1))
    | None =>
        Err (error_from rd UnexpectedArgument
          (if bool_decide (positionals c = []) then lit "unexpected input argument " ++ spelling
           else lit "unexpected input argument " ++ spelling ++ lit ": expected " ++
                input_args_text (positional_count c)) index (index + 1))
    end in
  match fuel, positionals c !! positional_at lv with
  | S fuel, Some arg_index =>
      match args c !! arg_index with
      | None => refuse
      | Some a =>
          match excluding c lv a with
          | Some other =>
              store_input_from fuel c (with_positional lv (positional_at lv + 1)) rd index
                (match excluded with Some e => Some e | None => Some (arg_index, other) end)
          | None =>
              if negb (is_list a) ||
                 match arg_max (arg_num a) with Some m => (occurrences lv !!! arg_index <? m) | None => true end
              then store c (with_positional lv (positional_at lv + if is_list a then 0 else 1)) rd arg_index
                     [mkView (Some index) spelling] index (index + 1)
              else store_input_from fuel c (with_positional lv (positional_at lv + 1)) rd index excluded
          end
      end
  | _, _ => refuse
  end.
Definition store_input (c : Command) (lv : Level) (rd : Reading) (index : nat) : expected (Level * Reading) ReadError :=
  store_input_from (S (length (positionals c))) c lv rd index None.

(** [expand]: the alias at [index] gives way to what it stands for. *)
Definition expand (rd : Reading) (a : Arg) (index next : nat) : Reading :=
  mkReading (take index (active rd) ++ forward a ++ drop next (active rd))
    (take index (origin rd) ++ ((λ _, origin rd !!! index) <$> forward a) ++ drop next (origin rd))
    (given rd) (subcommand_words rd) (stopped rd) (help rd).

(** ** What a command requires *)

Definition given_subcommand (lv : Level) (s : Subcommands) : bool :=
  bool_decide (find_node (root lv) (sub_keys s) ≠ None).

Definition alternatives_text (c : Command) (x : Exclusive) : bytes :=
  join (usage_at c <$> omap (λ i, i) (first_args x)) (lit " or ").

(** The check of argument [i], given [n] times. *)
Definition check_arg (c : Command) (lv : Level) (rd : Reading) (subcommand : bool) (i : nat) (a : Arg)
    : option ReadError :=
  let at_end := cursor lv in
  let n := occurrences lv !!! i in
  let missing msg := Some (error_from rd MissingRequired msg at_end at_end) in
  if positional a && is_list a && negb (n =? 0) && (n <? arg_min (arg_num a)) then
    missing (lit "expected " ++ input_args_text (arg_num a) ++ lit ", got " ++ decimal n)
  else
    match (if bool_decide (shape a = CountShape) && negb (n =? 0)
           then refused_number (minimum a) (maximum a) (Integer (Z.of_nat n)) (decimal n) else None) with
    | Some msg => Some (error_from rd InvalidValue msg at_end at_end)
    | None =>
        if negb (n =? 0) || negb (required a) || (subcommand && negb (global a)) ||
           negb (present c (root lv) (arg_group a)) then None
        else if positional a && is_list a then
          missing (lit "expected " ++ input_args_text (arg_num a) ++ lit ", got 0")
        else missing (lit "required " ++ (if positional a then lit "argument" else lit "option") ++ lit " " ++
                      usage a ++ lit " is missing")
    end.

Fixpoint check_args (c : Command) (lv : Level) (rd : Reading) (subcommand : bool) (i : nat) (l : list Arg)
    : option ReadError :=
  match l with
  | [] => None
  | a :: l =>
      match check_arg c lv rd subcommand i a with
      | Some e => Some e
      | None => check_args c lv rd subcommand (S i) l
      end
  end.

Fixpoint check_exclusives (c : Command) (lv : Level) (rd : Reading) (subcommand : bool) (l : list Exclusive)
    : option ReadError :=
  match l with
  | [] => None
  | x :: l =>
      if exclusive_required x && (negb subcommand || exclusive_global x) &&
         present c (root lv) (exclusive_group x) && bool_decide (find_node (root lv) (exclusive_keys x) = None)
      then Some (error_from rd MissingRequired (lit "one of " ++ alternatives_text c x ++ lit " is required")
                   (cursor lv) (cursor lv))
      else check_exclusives c lv rd subcommand l
  end.

Definition check (c : Command) (lv : Level) (rd : Reading) (subcommand : bool) : option ReadError :=
  match check_args c lv rd subcommand 0 (args c) with
  | Some e => Some e
  | None =>
      match check_exclusives c lv rd subcommand (exclusives c) with
      | Some e => Some e
      | None =>
          match subcommands c with
          | Some s =>
              if negb (sub_optional s) && negb (given_subcommand lv s) && present c (root lv) (sub_group s)
              then Some (error_from rd MissingSubcommand (lit "subcommand is required") (cursor lv) (cursor lv))
              else None
          | None => None
          end
      end
  end.

(** ** Reading *)

(** The names a suggestion may give: those a usage lists. *)
Definition shown_options (c : Command) : list bytes :=
  omap (λ '(i, s),
    match arg_of c !! (i + 3) with
    | Some HelpArg => Some s
    | Some (ArgAt j) => match args c !! j with Some a => if hidden a then None else Some s | None => None end
    | _ => None
    end) (imap pair (spellings c)).

Definition shown_subcommands (s : Subcommands) : list bytes :=
  omap (λ '(i, n), if default false (sub_hidden s !! i) then None else Some n) (imap pair (sub_names s)).

(** How a round over what the table gave ends. *)
Inductive Outcome :=
| Done (lv : Level) (rd : Reading)                        (* all is read *)
| Ended (lv : Level) (rd : Reading)                       (* help, or an argument that ends the parse *)
| Again (lv : Level) (rd : Reading) (base : nat)          (* an alias was expanded *)
| Descend (lv : Level) (rd : Reading) (alternative index next : nat)
| Bad (e : ReadError).

Definition end_parse (rd : Reading) (asks_help : bool) : Reading :=
  mkReading (active rd) (origin rd) (given rd) (subcommand_words rd) true (help rd || asks_help).

(** What one parsed argument does: [inl] if the round goes on. *)
Definition read_input (c : Command) (lv : Level) (rd : Reading) (base : nat) (parsed : ParsedArg)
    : Level * Reading + Outcome :=
  let index := base + arg_index parsed in
  let next := base + next_index parsed in
  let span_end := max next (index + 1) in
  let went_on (r : expected (Level * Reading) ReadError) :=
    match r with Ok (lv', rd') => inl (with_cursor lv' span_end, rd') | Err e => inr (Bad e) end in
  if bool_decide (spelling parsed = lit "--") && dash_dash_packing (parse_options c) then
    match rest c with
    | Some r => went_on (store c lv rd r (view_of (active rd) base <$> values parsed) index span_end)
    | None => inl (lv, rd)
    end
  else
    match subcommands c with
    | Some s =>
        match find_index (λ n, bool_decide (n = spelling parsed)) (sub_names s) with
        | Some alternative =>
            match first_own lv with
            | Some own =>
                inr (Bad (error_from rd Conflict
                  (lit "subcommand '" ++ spelling parsed ++ lit "' cannot be used with " ++ usage_at c own)
                  index (index + 1)))
            | None => inr (Descend lv rd alternative index next)
            end
        | None =>
            if bool_decide (positionals c = []) then
              inr (Bad (with_suggestion (error_from rd UnknownSubcommand
                (lit "unknown subcommand '" ++ spelling parsed ++ lit "'") index (index + 1))
                (closest (spelling parsed) (shown_subcommands s))))
            else went_on (store_input c lv rd index)
        end
    | None => went_on (store_input c lv rd index)
    end.

Definition read_result (c : Command) (lv : Level) (rd : Reading) (base : nat) (r : expected ParsedArg Error)
    : Level * Reading + Outcome :=
  match r with
  | Err e => inr (Bad (error_from rd MissingValueError (error_message e) (base + error_begin e) (base + error_end e)))
  | Ok parsed =>
      let index := base + arg_index parsed in
      let next := base + next_index parsed in
      let span_end := max next (index + 1) in
      if arg_id parsed =? unknown_option_id (table c) then
        let name := take (default (length (spelling parsed)) (find_index (λ x, bool_decide (x = x3d)) (spelling parsed)))
                      (spelling parsed) in
        inr (Bad (with_suggestion (error_from rd UnknownOption (lit "unknown option '" ++ spelling parsed ++ lit "'")
          index span_end) (closest name (shown_options c))))
      else if arg_id parsed =? input_option_id (table c) then read_input c lv rd base parsed
      else
        match arg_of c !! arg_id parsed with
        | Some HelpArg => inr (Ended lv (end_parse rd true))
        | Some (ArgAt i) =>
            match args c !! i with
            | None => inl (lv, rd)
            | Some a =>
                if bool_decide (shape a = AliasShape) then inr (Again lv (expand rd a index next) index)
                else
                  match store c lv rd i (view_of (active rd) base <$> values parsed) index span_end with
                  | Err e => inr (Bad e)
                  | Ok (lv', rd') =>
                      let lv' := with_cursor lv' span_end in
                      if stop a then inr (Ended lv' (end_parse rd' false)) else inl (lv', rd')
                  end
            end
        | _ => inl (lv, rd)
        end
  end.

Fixpoint read_results (c : Command) (lv : Level) (rd : Reading) (base : nat) (l : list (expected ParsedArg Error))
    : Outcome :=
  match l with
  | [] => Done lv rd
  | r :: l =>
      match read_result c lv rd base r with
      | inl (lv', rd') => read_results c lv' rd' base l
      | inr o => o
      end
  end.

Definition new_level (c : Command) (prefix : bytes) (start : nat) : Level :=
  mkLevel (new_node Object) prefix (replicate (length (args c)) 0) (replicate (length (exclusives c)) None) 0 start None.

Definition with_word (rd : Reading) (w : nat) : Reading :=
  mkReading (active rd) (origin rd) (given rd) (subcommand_words rd ++ [w]) (stopped rd) (help rd).

(** The variant of a subcommand, its fields [r]. *)
Definition sub_variant (alternative index : nat) (r : Node) (n : Node) : Node :=
  mkNode (kind n) alternative (text n) index (index + 1) (keys n) (items n ++ [r]).

(** [run] of a level, from [base] on.  [None]: the fuel is out. *)
Fixpoint run (fuel : nat) (c : Command) (lv : Level) (rd : Reading) (base : nat)
    : option (expected (Level * Reading) ReadError) :=
  match fuel with
  | 0 => None
  | S fuel =>
      match read_results c lv rd base (parse (table c) (drop base (active rd)) (parse_options c)) with
      | Bad e => Some (Err e)
      | Ended lv rd => Some (Ok (lv, rd))
      | Again lv rd base => run fuel c lv rd base
      | Done lv rd =>
          Some (match check c lv rd false with Some e => Err e | None => Ok (lv, rd) end)
      | Descend lv rd alternative index next =>
          match subcommands c ≫= (λ s, pair s <$> commands s !! alternative) with
          | None => Some (Ok (lv, rd))
          | Some (s, sub) =>
              let rd1 := with_given (with_word rd index) (mkGiven (prefix lv ++ sub_path s) [active rd !!! index]) in
              match run fuel sub (new_level sub (prefix lv ++ sub_path s ++ lit ".") next) rd1 next with
              | None => None
              | Some (Err e) => Some (Err e)
              | Some (Ok (inner, rd2)) =>
                  let lv1 := with_cursor (with_root lv (make_node (root lv) (sub_keys s) Variant
                               (sub_variant alternative index (root inner)))) index in
                  Some (if stopped rd2 then Ok (lv1, rd2)
                        else match check c lv1 rd2 true with Some e => Err e | None => Ok (lv1, rd2) end)
              end
          end
      end
  end.

Definition new_reading : Reading := mkReading argv (seq 0 (length argv)) [] [] false false.

(** [read]: [inl] the fields, or [inr] the subcommands help is asked of. *)
Definition read (fuel : nat) (c : Command) : option (expected ((Node * Reading) + list bytes) ReadError) :=
  match run fuel c (new_level c [] 0) new_reading 0 with
  | None => None
  | Some (Err e) => Some (Err e)
  | Some (Ok (lv, rd)) =>
      Some (Ok (if help rd then inr ((λ w, active rd !!! w) <$> subcommand_words rd) else inl (root lv, rd)))
  end.
End Reader.
