(* ===== verification/CliReadMarks.v ===== *)
(** What a read of an argv (CliRead.v) does with its elements: where an error
    points, and that a read ends.

    The elements read are the argv's, with aliases expanded in place; [origin]
    says which element of the argv each comes from, so that an error points
    into what the user wrote. *)

From Stdlib Require Import Strings.Byte ZArith Lia Bool.
From stdpp Require Import prelude strings list.
From S2P Require Import Prelude Naming Charconv CliTable CliParse CliNumber CliDeclare CliCommand CliNode CliSuggest CliRead.
Local Open Scope kota_scope.
Local Open Scope nat_scope.

(** ** What the table's parse gives *)

Section Parsed.
Variables (t : OptTable) (p : ParseOptions).

(** An argument takes elements of the argv from its index up to the next. *)
Definition spans (l : list bytes) (out : ParsedArg) : Prop :=
  arg_index out < length l ∧ arg_index out ≤ next_index out ≤ length l ∧
  (grouped_short_options p = false → arg_index out < next_index out).

Lemma reading_spans l past pos g rs out :
  reading t l p past pos g rs → Ok out ∈ rs → spans l out.
Proof.
  induction 1 as [|pos rs|pos o rs ? ? Hl ? Hi Hn ? ? ? ->|pos o rs Hl ? Hi Hn ? Hr IH|pos g o rs Hp Hi Hn ? ? Hr IH
    |pos g o rest rs Hg ? Hp Hi Hn ? ? ? ? Hr IH|]; try done.
  - by intros ?%elem_of_nil.
  - apply lookup_lt_Some in Hl. intros [[= ->]|?%elem_of_nil]%elem_of_cons; [|done]. unfold spans. lia.
  - apply lookup_lt_Some in Hl. intros [[= ->]|?]%elem_of_cons; [unfold spans; lia|by apply IH].
  - intros [[= ->]|?]%elem_of_cons; [unfold spans; lia|by apply IH].
  - intros [[= ->]|?]%elem_of_cons; [|by apply IH]. split_and!; [lia..|]. intros E. by rewrite Hg in E.
  - by intros [?|?%elem_of_nil]%elem_of_cons.
Qed.

Lemma parse_spans l out : Ok out ∈ parse t l p → spans l out.
Proof. apply (reading_spans l false 0 []), parse_ok. Qed.

(** The option an argument was read as names its element; a flag, all of it. *)
Definition names (o : Option) (element : bytes) : bool :=
  let n := match_opt o element (ignore_case t) in
  negb (n =? 0) && (negb (bool_decide (CliTable.kind o = CliTable.Flag)) || (n =? length element)).

Definition recognized (l : list bytes) (out : ParsedArg) : Prop :=
  arg_id out = input_option_id t ∨ arg_id out = unknown_option_id t ∨
  ∃ o, o ∈ search_range t ∧ names o (l !!! arg_index out) = true ∧ arg_id out = id (unaliased_option t o).

Lemma scan_matched a index range first_match :
  index < args_size a → (∀ j g, overlay a = Some (j, g) → j = index) →
  let r := scan_and_accept t range a index first_match p in
  result r = Matched → ∃ o sz i', o ∈ range ∧ attempt t a index p o = Some (sz, (Matched, i', scan_out r)).
Proof.
  intros Hi Ho. unfold scan_and_accept. set (opts := if tablegen_mode t then _ else range).
  assert (Hin : ∀ o, o ∈ opts → o ∈ range).
  { unfold opts. destruct (tablegen_mode t); [|done]. set (k := lower_bound _ _ _ _ _). intros o Hx.
    rewrite <- (take_drop k range). apply elem_of_app. by right. }
  clearbody opts. set (s0 := mkScanning cleared 0 index 0 index None). cbv zeta. intros Hr.
  assert (Hf : flag_ok t a index p [] (flag s0)) by done.
  destruct first_match.
  - destruct (scan_first t a index p Hi Ho [] opts s0) as [H _]; try done; [by intros ? ? ? ? ?%elem_of_nil..|].
    cbn [app] in H. unfold first_result in H. rewrite Hr in H.
    destruct H as (l1 & o & l2 & sz & out & -> & Ha & Hs & _). exists o, sz, (new_index (scan_loop t (l1 ++ o :: l2) a index true p s0)).
    rewrite Hs by done. split; [|done]. apply Hin, elem_of_app. right. left.
  - destruct (scan_longest t a index p Hi Ho [] opts s0) as [H _].
    { split; [left|left|done]; (split; [done|]); by intros ? ? ? ? ?%elem_of_nil. }
    cbn [app] in H. rewrite Hr in H. destruct H as (sz & l1 & o & l2 & -> & Ha & _).
    exists o, sz, (new_index (scan_loop t (l1 ++ o :: l2) a index false p s0)). split; [|done].
    apply Hin, elem_of_app. right. left.
Qed.

Lemma accept_opt_id o a sp grouped index i' out :
  accept_opt t o a sp grouped index = (Matched, i', out) → arg_id out = id (unaliased_option t o).
Proof.
  unfold accept_opt. destruct (if grouped && _ then _ else _) as [[r j] x].
  destruct (negb (bool_decide (r = Matched))) eqn:E; [intros; simplify_eq; by rewrite bool_decide_true in E|].
  destruct (id o =? id (unaliased_option t o)) eqn:Ei; [apply Nat.eqb_eq in Ei; intros; by simplify_eq|].
  destruct (negb (bool_decide (CliTable.kind o = CliTable.Flag))); [intros; by simplify_eq|].
  intros H. injection H as _ <-. by repeat case_match.
Qed.

Lemma accept_opt_whole o a sp index i' out :
  CliTable.kind o = CliTable.Flag → accept_opt t o a sp false index = (Matched, i', out) →
  length sp = length (arg_text a index).
Proof.
  intros Hk. unfold accept_opt, accept_internal. rewrite Hk. cbn [andb].
  destruct (Nat.eqb_spec (length sp) (length (arg_text a index))); [done|]. cbn. by intros.
Qed.

Lemma unknown_step_id a index i' out :
  unknown_step t a index p = (i', out) → arg_id out = unknown_option_id t.
Proof.
  unfold unknown_step, consume_unknown_values. destruct (greedy_unknown p && _); intros; by simplify_eq.
Qed.

Lemma parse_step_recognized l index i' out :
  index < length l → parse_step t (mkArgs l None) index p = (Matched, i', out) →
  arg_index out = index → recognized l out.
Proof.
  intros Hi E Ei. unfold parse_step in E. destruct (is_input t _); [injection E as <- <-; by left|].
  destruct (result _) eqn:Er in E; [| |done].
  - injection E as <- <-.
    destruct (scan_matched (mkArgs l None) index (search_range t) (tablegen_mode t) Hi ltac:(done) Er)
      as (o & sz & i'' & Ho & Ha).
    right. right. exists o. split; [done|]. unfold attempt in Ha. case_match eqn:Em; [done|].
    injection Ha as Hsz Ha. rewrite Ei. split; [|by apply accept_opt_id in Ha].
    change (arg_text (mkArgs l None) index) with (l !!! index) in *. apply orb_false_iff in Em as [Em _].
    unfold names. rewrite Em. cbn [negb andb]. destruct (decide (CliTable.kind o = CliTable.Flag)) as [Hk|Hk];
      [|by rewrite bool_decide_false].
    rewrite bool_decide_true by done. cbn [negb orb]. apply accept_opt_whole in Ha; [|done].
    change (arg_text (mkArgs l None) index) with (l !!! index) in Ha. rewrite length_take in Ha.
    apply Nat.eqb_eq. pose proof (match_opt_le o (l !!! index) (ignore_case t)). lia.
  - destruct (_ =?b _) in E; [injection E as <- <-; by left|].
    destruct (unknown_step t _ index p) as [j x] eqn:Eu in E. simplify_eq. right. left. by apply unknown_step_id in Eu.
Qed.

Lemma advance_recognized l it out :
  grouped_short_options p = false → done_ it = false → done_ (advance t l p it) = false →
  current (advance t l p it) = Ok out → recognized l out.
Proof.
  intros Hg Hd. unfold advance. rewrite Hd. case_match eqn:Hi; [|done]. apply Nat.ltb_lt in Hi.
  case_match; [case_match; [intros _ [= <-]; by left|case_match; [intros _ [= <-]; by left|done]]|].
  case_match; [intros _ [= <-]; by left|]. unfold advance_option. rewrite Hg. cbn [negb].
  pose proof (parse_step_ok t (mkArgs l None) (index it) p Hi ltac:(done)) as Hs.
  destruct (parse_step _ _ _ _) as [[r i'] x] eqn:E. destruct Hs as (Hr & Hx & _).
  intros _ Hc. cbn [current] in Hc. destruct r; [|done|done]. injection Hc as <-.
  change (recognized l x). by apply parse_step_recognized with (index it) i'.
Qed.

Lemma parse_recognized l : grouped_short_options p = false →
  Forall (λ r, ∀ out, r = Ok out → recognized l out) (parse t l p).
Proof.
  intros Hg. unfold parse. generalize (parse_fuel l). intros n.
  assert (Hd : done_ new_iter = false) by done. revert Hd. generalize new_iter.
  induction n as [|n IH]; intros it Hd; [constructor|]. cbn [parse_from].
  destruct (done_ (advance t l p it)) eqn:E; [constructor|].
  specialize (IH _ E). destruct (parse_from t l p n _); cbn [default fmap option_fmap option_map] in *; [|constructor].
  constructor; [|done]. intros out. by apply advance_recognized.
Qed.
End Parsed.

(** ** Where errors point *)

Section Marks.
Context `{D : Doubles}.
Variable argv : list bytes.

(** Every element read comes from one of the argv. *)
Definition marked (rd : Reading) : Prop :=
  length (origin rd) = length (active rd) ∧ Forall (λ i, i < length argv) (origin rd).

Definition pointed (e : ReadError) : Prop := at_begin e ≤ at_end e ≤ length argv.

Lemma origin_lt rd i : marked rd → i < length (active rd) → origin rd !!! i < length argv.
Proof.
  intros [Hl Hf] Hi. rewrite <- Hl in Hi. destruct (lookup_lt_is_Some_2 _ _ Hi) as [k Hk].
  rewrite (list_lookup_total_correct _ _ _ Hk). by eapply Forall_lookup_1 in Hf.
Qed.

Lemma error_from_pointed rd k msg b e : marked rd → pointed (error_from argv rd k msg b e).
Proof.
  intros Hm. unfold pointed, error_from. cbn [at_begin at_end]. split; [lia|].
  assert ((if length (active rd) <=? b then length argv else origin rd !!! b) ≤ length argv).
  { case_match eqn:E; [done|]. apply Nat.leb_gt in E. pose proof (origin_lt rd b Hm E). lia. }
  apply Nat.max_lub; [done|]. destruct (Nat.leb_spec e b); [done|]. destruct (Nat.ltb_spec (length (active rd)) e); [done|].
  pose proof (origin_lt rd (e - 1) Hm). lia.
Qed.
Local Hint Resolve error_from_pointed : core.

(** A step keeps the marks and its error points into the argv. *)
Definition keeps (rd : Reading) (r : expected (Level * Reading) ReadError) : Prop :=
  match r with
  | Ok (_, rd') => active rd' = active rd ∧ origin rd' = origin rd
  | Err e => pointed e
  end.

Lemma keeps_marked rd lv rd' : keeps rd (Ok (lv, rd')) → marked rd → marked rd'.
Proof. unfold marked. by intros [-> ->]. Qed.

Lemma choose_pointed c lv rd i b e a err :
  marked rd → choose argv c lv rd i b e a = Err err → pointed err.
Proof.
  intros Hm. unfold choose, conflict. repeat case_match; intros [=]; subst; eauto.
Qed.

Lemma check_constraints_pointed rd a n err : marked rd → check_constraints argv rd a n = Some err → pointed err.
Proof. intros Hm. unfold check_constraints. repeat case_match; intros [=]; subst; eauto. Qed.

Lemma first_error_pointed rd a ns err : marked rd → first_error argv rd a ns = Some err → pointed err.
Proof.
  intros Hm. induction ns as [|n ns IH]; [done|]. cbn. case_match eqn:E; [|done].
  intros [= <-]. by apply check_constraints_pointed in E.
Qed.

Lemma store_keeps c lv rd i vs b e : marked rd → keeps rd (store argv c lv rd i vs b e).
Proof.
  intros Hm. unfold store. destruct (args c !! i) as [a|]; [|done].
  destruct (choose argv c lv rd i b e a) as [lv1|err] eqn:E; [|by apply choose_pointed in E].
  cbn. case_match eqn:Ec; [|done]. case_match; try done; by apply first_error_pointed in Ec.
Qed.

Lemma store_input_keeps c lv rd index : marked rd → keeps rd (store_input argv c lv rd index).
Proof.
  intros Hm. unfold store_input. generalize (@None (nat * nat)) as ex. generalize (S (length (positionals c))).
  intros n. revert lv. induction n as [|n IH]; intros lv ex; cbn [store_input_from].
  - case_match; [case_match|]; cbn; unfold conflict; eauto.
  - repeat case_match; try (apply IH); try (by apply store_keeps); cbn; unfold conflict; eauto.
Qed.

Lemma check_pointed c lv rd sub err : marked rd → check argv c lv rd sub = Some err → pointed err.
Proof.
  intros Hm. unfold check.
  assert (Ha : ∀ l i, check_args argv c lv rd sub i l = Some err → pointed err).
  { induction l as [|a l IH]; intros i; [done|]. cbn. case_match eqn:E; [|by apply IH].
    intros [= <-]. unfold check_arg in E. repeat case_match; simplify_eq; eauto. }
  assert (Hx : ∀ l, check_exclusives argv c lv rd sub l = Some err → pointed err).
  { induction l as [|a l IH]; [done|]. cbn. case_match eqn:E; [|by apply IH]. intros [= <-]. eauto. }
  case_match eqn:E; [intros [= <-]; by eapply Ha|]. case_match eqn:E2; [intros [= <-]; by eapply Hx|].
  repeat case_match; intros [=]; subst; eauto.
Qed.

(** What a round over the parsed arguments ends in. *)
Definition round_ok (o : Outcome) : Prop :=
  match o with
  | Done _ rd' | Ended _ rd' => marked rd'
  | Again _ rd' base => marked rd' ∧ base ≤ length (active rd')
  | Descend _ rd' _ index next => marked rd' ∧ next ≤ length (active rd')
  | Bad e => pointed e
  end.

Lemma expand_marked rd a index next : marked rd → index < length (active rd) → marked (expand rd a index next).
Proof.
  intros Hm Hi. pose proof (origin_lt rd index Hm Hi). destruct Hm as [Hl Hf]. split; cbn [expand active origin].
  - rewrite !length_app, !length_take, !length_drop, length_fmap. lia.
  - rewrite !Forall_app, Forall_fmap. split_and!; [by apply Forall_take| |by apply Forall_drop].
    by apply Forall_true.
Qed.

Definition within (rd : Reading) (base : nat) (r : expected ParsedArg Error) : Prop :=
  ∀ out, r = Ok out → base + arg_index out < length (active rd) ∧ base + next_index out ≤ length (active rd).

Definition goes_ok (rd : Reading) (s : Level * Reading + Outcome) : Prop :=
  match s with
  | inl x => keeps rd (Ok x)
  | inr o => round_ok o
  end.

Lemma went_on_ok rd n (r : expected (Level * Reading) ReadError) :
  keeps rd r → goes_ok rd (match r with Ok (lv, rd') => inl (with_cursor lv n, rd') | Err e => inr (Bad e) end).
Proof. by destruct r as [[lv rd']|e]. Qed.

Lemma read_result_ok c lv rd base r :
  marked rd → within rd base r → goes_ok rd (read_result argv c lv rd base r).
Proof.
  intros Hm Hw. unfold read_result. destruct r as [parsed|e]; [|cbn; eauto].
  destruct (Hw _ eq_refl) as [Hi Hn]. case_match; [by apply error_from_pointed|].
  assert (Hs : ∀ lv i vs b e, keeps rd (store argv c lv rd i vs b e)) by (intros; by apply store_keeps).
  pose proof (store_input_keeps c lv rd (base + arg_index parsed) Hm) as Hin. case_match.
  - unfold read_input. repeat first [apply went_on_ok|case_match]; try done; by apply error_from_pointed.
  - destruct (arg_of c !! arg_id parsed) as [[| |i]|]; [done..| |done]. destruct (args c !! i) as [a|]; [|done].
    case_match; [split; [by apply expand_marked|cbn; rewrite length_app, length_take; lia]|].
    specialize (Hs lv i (view_of (active rd) base <$> values parsed) (base + arg_index parsed)
      (max (base + next_index parsed) (base + arg_index parsed + 1))).
    destruct (store _ _ _ _ _ _ _ _) as [[lv' rd']|e]; [|done]. case_match; [|done].
    by apply (keeps_marked rd lv' rd').
Qed.

Lemma read_results_ok c lv rd base l :
  marked rd → Forall (within rd base) l → round_ok (read_results argv c lv rd base l).
Proof.
  intros Hm Hw. revert lv rd Hm Hw. induction l as [|r l IH]; intros lv rd Hm Hw; [done|]. cbn [read_results].
  apply Forall_cons in Hw as [Hr Hl]. pose proof (read_result_ok c lv rd base r Hm Hr) as Ho.
  destruct (read_result _ _ _ _ _ _) as [[lv' rd']|o]; [|done].
  apply IH; [by apply (keeps_marked rd lv')|]. destruct Ho as [E _]. unfold within. by rewrite E.
Qed.

Lemma parse_within c rd base : base ≤ length (active rd) →
  Forall (within rd base) (parse (table c) (drop base (active rd)) (parse_options c)).
Proof.
  intros Hb. apply Forall_forall. intros r Hr out ->. apply parse_spans in Hr as (H1 & H2 & _).
  rewrite length_drop in *. lia.
Qed.

Lemma run_ok fuel c lv rd base r :
  marked rd → base ≤ length (active rd) → run argv fuel c lv rd base = Some r →
  match r with Ok (_, rd') => marked rd' | Err e => pointed e end.
Proof.
  revert c lv rd base r. induction fuel as [|fuel IH]; intros c lv rd base r Hm Hb; [done|]. cbn [run].
  pose proof (read_results_ok c lv rd base _ Hm (parse_within c rd base Hb)) as Ho.
  destruct (read_results _ _ _ _ _ _) as [lv' rd'|lv' rd'|lv' rd' base'|lv' rd' alt index next|e].
  - intros [= <-]. destruct (check _ _ _ _ _) eqn:E; [by apply check_pointed in E|done].
  - by intros [= <-].
  - destruct Ho. by apply IH.
  - destruct Ho as [Hm' Hn]. case_match; [|by intros [= <-]]. case_match.
    case_match eqn:E; [|done]. apply IH in E; [|done..]. case_match; [|by intros [= <-]].
    case_match. intros [= <-]. destruct (stopped _); [done|].
    destruct (check _ _ _ _ _) eqn:Ec; [by apply check_pointed in Ec|done].
  - by intros [= <-].
Qed.
End Marks.

(** C29. Every error of a read points into the argv: the elements it marks are a
    range of it, however many aliases were expanded before. *)
Theorem read_error_in_argv `{D : Doubles} (argv : list bytes) (fuel : nat) (c : Command) (e : ReadError) :
  read argv fuel c = Some (Err e) → at_begin e ≤ at_end e ≤ length argv.
Proof.
  unfold read. case_match eqn:E; [|done].
  apply run_ok in E; [|split; [apply length_seq|apply Forall_forall; intros x Hx%elem_of_seq; lia]|cbn; lia].
  case_match; [by case_match|]. by intros [= <-].
Qed.
