(* ===== verification/CliReadEnd.v ===== *)
(** A read of an argv (CliRead.v) ends.

    An alias gives way to the elements it stands for, and the level is parsed
    again from there on: were one of them an alias again, the read could go on
    forever.  A command is [settled] if none of the elements its aliases stand
    for is one its table takes for an alias.  The check of the declaration is
    weaker: it compares the spellings only, and a [/x] is also taken as [-x]. *)

From Stdlib Require Import Strings.Byte ZArith Lia Bool.
From stdpp Require Import prelude strings list.
From S2P Require Import Prelude Naming Charconv CliTable CliParse CliNumber CliDeclare CliCommand CliNode CliSuggest CliRead CliReadMarks.
Local Open Scope kota_scope.
Local Open Scope nat_scope.

Section Ends.
Context `{D : Doubles}.

(** ** Settled commands *)

Definition is_alias (a : Arg) : bool := bool_decide (shape a = AliasShape).

(** Whether an option of the table stands for an alias of the command. *)
Definition expands (c : Command) (o : Option) : bool :=
  match arg_of c !! id (unaliased_option (table c) o) with
  | Some (ArgAt i) => match args c !! i with Some a => is_alias a | None => false end
  | _ => false
  end.

(** Whether the table may take an element for an alias. *)
Definition alias_taken (c : Command) (element : bytes) : bool :=
  existsb (λ o, expands c o && names (table c) o element) (search_range (table c)).

(** The arguments the options of the table read into. *)
Definition named_args (c : Command) : list Arg :=
  omap (λ target, match target with ArgAt i => args c !! i | _ => None end) (arg_of c).

Definition own_settled (c : Command) : bool :=
  negb (grouped_short_options (parse_options c)) &&
  forallb (λ a, negb (is_alias a) || forallb (λ f, negb (alias_taken c f)) (forward a)) (named_args c).

Fixpoint settled (c : Command) : bool :=
  own_settled c &&
  match c with
  | mkCommand _ _ _ _ _ _ (Some s) _ _ _ _ _ _ => sub_settled s
  | _ => true
  end
with sub_settled (s : Subcommands) : bool :=
  match s with
  | mkSubcommands _ _ _ _ _ _ _ _ cs => forallb settled cs
  end.

(** How deep subcommands nest. *)
Fixpoint depth (c : Command) : nat :=
  match c with
  | mkCommand _ _ _ _ _ _ (Some s) _ _ _ _ _ _ => S (sub_depth s)
  | _ => 0
  end
with sub_depth (s : Subcommands) : nat :=
  match s with
  | mkSubcommands _ _ _ _ _ _ _ _ cs => max_list (depth <$> cs)
  end.

Lemma settled_own c : settled c = true → own_settled c = true.
Proof. destruct c. cbn. by intros [? ?]%andb_true_iff. Qed.

Lemma settled_sub c s i sub :
  subcommands c = Some s → commands s !! i = Some sub → settled c = true → settled sub = true ∧ depth sub < depth c.
Proof.
  destruct c as [ty g a ps pc r subs x hu sp ao t p]. cbn [subcommands]. intros -> Hs [_ H]%andb_true_iff.
  destruct s as [k pa o gr mv ns ds hs cs]. cbn [commands sub_settled] in *. split.
  - rewrite forallb_forall in H. by apply H, list_elem_of_In, list_elem_of_lookup_2 with i.
  - cbn. apply Nat.lt_succ_r, max_list_elem_of_le, list_elem_of_fmap. exists sub.
    split; [done|]. by apply list_elem_of_lookup_2 with i.
Qed.

(** ** Aliases *)

Definition sound (c : Command) (l : list bytes) (base : nat) (r : expected ParsedArg Error) : Prop :=
  ∀ out, r = Ok out →
  spans (parse_options c) (drop base l) out ∧ recognized (table c) (drop base l) out.

Lemma parse_sound c l base : own_settled c = true → Forall (sound c l base) (parse (table c) (drop base l) (parse_options c)).
Proof.
  intros [Hg _]%andb_true_iff. apply negb_true_iff in Hg.
  pose proof (parse_recognized (table c) (parse_options c) (drop base l) Hg) as Hr. rewrite Forall_forall in *.
  intros r Hin out ->. split; [by apply parse_spans with (table c)|by apply (Hr _ Hin)].
Qed.

(** An alias was read at [index], up to [next]. *)
Definition expanded (c : Command) (l : list bytes) (base index next : nat) (a : Arg) : Prop :=
  base ≤ index < next ∧ next ≤ length l ∧ a ∈ named_args c ∧ is_alias a = true ∧ alias_taken c (l !!! index) = true.

Variable argv : list bytes.

Lemma read_result_again c lv rd base r lv' rd' index :
  own_settled c = true → sound c (active rd) base r → read_result argv c lv rd base r = inr (Again lv' rd' index) →
  ∃ a next, expanded c (active rd) base index next a ∧ rd' = expand rd a index next.
Proof.
  intros [Hg _]%andb_true_iff Hs. apply negb_true_iff in Hg. unfold read_result. destruct r as [parsed|e]; [|done].
  destruct (Hs _ eq_refl) as [(H1 & H2 & H3) Hr]. specialize (H3 Hg). rewrite length_drop in *.
  destruct (arg_id parsed =? unknown_option_id (table c)) eqn:Eu; [done|]. apply Nat.eqb_neq in Eu.
  destruct (arg_id parsed =? input_option_id (table c)) eqn:Ei.
  - unfold read_input. repeat case_match; try done; intros; simplify_eq.
  - apply Nat.eqb_neq in Ei. destruct Hr as [?|[?|(o & Ho & Hn & Eid)]]; [done..|].
    destruct (arg_of c !! arg_id parsed) as [[| |i]|] eqn:Ea; [done..| |done].
    destruct (args c !! i) as [a|] eqn:Ear; [|done]. destruct (bool_decide (shape a = AliasShape)) eqn:Esh.
    + intros [= <- <- <-]. exists a, (base + next_index parsed). split; [|done]. split; [lia|]. split; [lia|].
      split; [|split; [done|]].
      { apply list_elem_of_omap. exists (ArgAt i). split; [by apply list_elem_of_lookup_2 with (arg_id parsed)|done]. }
      apply existsb_exists. exists o.
      split; [by apply list_elem_of_In|]. apply andb_true_iff. split; [unfold expands, is_alias; by rewrite <- Eid, Ea, Ear|].
      by rewrite lookup_total_drop in Hn.
    + repeat case_match; try done; intros; simplify_eq.
Qed.

Lemma store_active c lv rd i vs b e lv' rd' : store argv c lv rd i vs b e = Ok (lv', rd') → active rd' = active rd.
Proof.
  unfold store. destruct (args c !! i) as [a|]; [|by intros [= <- <-]].
  destruct (choose _ _ _ _ _ _ _ _); [|done]. cbn. case_match; [done|]. by intros [= <- <-].
Qed.

Lemma store_input_active c lv rd index lv' rd' :
  store_input argv c lv rd index = Ok (lv', rd') → active rd' = active rd.
Proof.
  unfold store_input. generalize (@None (nat * nat)) as ex. generalize (S (length (positionals c))).
  intros n. revert lv. induction n as [|n IH]; intros lv ex; cbn [store_input_from]; [by case_match; [case_match|]|].
  repeat case_match; try done; try (apply IH); apply store_active.
Qed.

Lemma read_result_active c lv rd base r lv' rd' :
  read_result argv c lv rd base r = inl (lv', rd') → active rd' = active rd.
Proof.
  unfold read_result, read_input. intros H.
  repeat case_match; simplify_eq; try done; eauto using store_active, store_input_active.
Qed.

Lemma read_results_again c lv rd base l lv' rd' index :
  own_settled c = true → Forall (sound c (active rd) base) l →
  read_results argv c lv rd base l = Again lv' rd' index →
  ∃ a next, expanded c (active rd) base index next a ∧
  active rd' = take index (active rd) ++ forward a ++ drop next (active rd).
Proof.
  intros Hc. revert lv rd. induction l as [|r l IH]; intros lv rd Hs; [done|]. cbn [read_results].
  apply Forall_cons in Hs as [Hr Hl]. destruct (read_result _ _ _ _ _ _) as [[lv1 rd1]|o] eqn:E.
  - apply read_result_active in E. rewrite <- E in *. by apply IH.
  - intros ->. destruct (read_result_again _ _ _ _ _ _ _ _ Hc Hr E) as (a & next & He & ->). by exists a, next.
Qed.

(** ** The end *)

(** Enough fuel gives a result. *)
Definition returns (c : Command) (lv : Level) (rd : Reading) (base : nat) : Prop :=
  ∃ n r, ∀ fuel, n ≤ fuel → run argv fuel c lv rd base = Some r.

Lemma run_returns c lv rd base : settled c = true → returns c lv rd base.
Proof.
  revert c lv rd base.
  enough (H : ∀ d c u lv rd base, depth c = d → settled c = true →
    (∀ i, base ≤ i < length (active rd) - u → alias_taken c (active rd !!! i) = false) → returns c lv rd base).
  { intros c lv rd base Hc. apply (H (depth c) c (length (active rd))); [done..|lia]. }
  intros d. induction (lt_wf d) as [d _ IHd]. intros c u. induction (lt_wf u) as [u _ IHu].
  intros lv rd base Hd Hc Hu. pose proof (settled_own c Hc) as Ho.
  pose proof (parse_sound c (active rd) base Ho) as Hs.
  destruct (read_results argv c lv rd base (parse (table c) (drop base (active rd)) (parse_options c)))
    as [lv' rd'|lv' rd'|lv' rd' base'|lv' rd' alt index next|e] eqn:E.
  - exists 1. eexists. intros [|fuel] Hf; [lia|]. cbn [run]. by rewrite E.
  - exists 1. eexists. intros [|fuel] Hf; [lia|]. cbn [run]. by rewrite E.
  - destruct (read_results_again _ _ _ _ _ _ _ _ Ho Hs E) as (a & next & (H1 & H2 & H3 & H4 & H5) & Ea).
    destruct (IHu (length (active rd) - next)) with lv' rd' base' as (n & r & Hn); try done.
    { destruct (decide (base' < length (active rd) - u)); [|lia]. rewrite Hu in H5 by lia. done. }
    { intros i Hi. rewrite Ea in *. rewrite !length_app, length_take, length_drop in Hi.
      rewrite lookup_total_app_r, length_take by (rewrite length_take; lia). rewrite lookup_total_app_l by lia.
      apply andb_true_iff in Ho as [_ Ho]. rewrite forallb_forall in Ho. apply list_elem_of_In in H3.
      specialize (Ho _ H3). rewrite H4 in Ho. cbn [negb orb] in Ho. rewrite forallb_forall in Ho.
      apply negb_true_iff, Ho, list_elem_of_In, list_elem_of_lookup_total_2. lia. }
    exists (S n), r. intros [|fuel] Hf; [lia|]. cbn [run]. rewrite E. apply Hn. lia.
  - destruct (subcommands c ≫= (λ s, pair s <$> commands s !! alt)) as [[s sub]|] eqn:Esub.
    + assert (Hsub : settled sub = true ∧ depth sub < depth c).
      { apply bind_Some in Esub as (s' & Es & (sub' & Ec & [= -> ->])%fmap_Some). by eapply settled_sub. }
      destruct Hsub as [Hsub Hlt].
      destruct (IHd (depth sub) ltac:(lia) sub (length (active rd'))
        (new_level sub (prefix lv' ++ sub_path s ++ lit ".") next)
        (with_given (with_word rd' index) (mkGiven (prefix lv' ++ sub_path s) [active rd' !!! index])) next)
        as (n & r & Hn); [done..|cbn [active with_given with_word]; lia|].
      exists (S n). destruct r as [[inner rd2]|e]; eexists; intros [|fuel] Hf; [lia| |lia|];
        cbn [run]; rewrite E, Esub, Hn by lia; reflexivity.
    + exists 1. eexists. intros [|fuel] Hf; [lia|]. cbn [run]. by rewrite E, Esub.
  - exists 1. eexists. intros [|fuel] Hf; [lia|]. cbn [run]. by rewrite E.
Qed.
End Ends.
