(* ===== verification/CliCollect.v ===== *)
(** What a read of an argv (CliRead.v) puts in the tree is what the argv gives.

    [keyed] says that the places of a command's fields do not meet: none leads
    to another, but for those of two alternatives of one exclusive field, which
    are never given together.  An entry of the log is an argument stored; [tree]
    says that the tree is what the entries make of it, and every step of a level
    keeps it.  [collects] is the whole of it, subcommands included, in terms of
    the arguments given ([Given]). *)

From Stdlib Require Import Strings.Byte ZArith Lia Bool.
From stdpp Require Import prelude strings list.
From S2P Require Import Prelude Naming Charconv CliTable CliParse CliNumber CliDeclare CliCommand CliNode CliSuggest CliRead CliReadMarks CliReadEnd.
Local Open Scope kota_scope.
Local Open Scope nat_scope.

(** ** Places that do not meet *)

Fixpoint apartb (a b : list bytes) : bool :=
  match a, b with
  | x :: a, y :: b => negb (bool_decide (x = y)) || apartb a b
  | _, _ => false
  end.

Lemma apartb_apart a b : apartb a b = true → apart a b.
Proof.
  revert b. induction a as [|x a IH]; intros [|y b]; try done. cbn [apartb apart].
  case_bool_decide; [|by left]. intros Ha. right. split; [done|by apply IH].
Qed.

Lemma not_decided (P : Prop) `{Decision P} : negb (bool_decide P) = true → ¬ P.
Proof. by case_bool_decide. Qed.

(** [b] goes on from [a]. *)
Definition belowb (a b : list bytes) : bool := bool_decide (take (length a) b = a) && (length a <? length b).

Lemma belowb_below a b : belowb a b = true → ∃ k q, b = a ++ k :: q.
Proof.
  unfold belowb. intros [H1%bool_decide_eq_true H2%Nat.ltb_lt]%andb_true_iff.
  destruct (drop (length a) b) as [|k q] eqn:E; [apply (f_equal length) in E; rewrite length_drop in E; cbn in E; lia|].
  exists k, q. by rewrite <- E, <- H1 at 1; rewrite take_drop.
Qed.

(** Every two of a list, by index. *)
Definition pairwise {A} (p : A → A → bool) (l : list A) : bool :=
  forallb (λ x, forallb (λ y, (fst x =? fst y) || p (snd x) (snd y)) (imap pair l)) (imap pair l).

Lemma pairwise_spec {A} (p : A → A → bool) l i j x y :
  pairwise p l = true → l !! i = Some x → l !! j = Some y → i ≠ j → p x y = true.
Proof.
  unfold pairwise. rewrite forallb_forall. intros H Hi Hj Hne.
  assert (Hin : ∀ k z, l !! k = Some z → In (k, z) (imap pair l)).
  { intros k z Hz. apply list_elem_of_In, list_elem_of_lookup_2 with k. by rewrite list_lookup_imap, Hz. }
  specialize (H _ (Hin _ _ Hi)). rewrite forallb_forall in H. specialize (H _ (Hin _ _ Hj)). cbn in H.
  apply orb_true_iff in H as [H%Nat.eqb_eq|]; done.
Qed.

Section Keyed.
Context `{D : Doubles}.

(** The exclusive field an argument is in, and the alternative. *)
Definition choice_of (c : Command) (a : Arg) : option (nat * nat) :=
  match alternative a with
  | None => None
  | Some gi =>
      match groups c !! gi with
      | Some g => (λ x, (x, group_alternative g)) <$> group_exclusive g
      | None => None
      end
  end.

(** Two alternatives of one exclusive field. *)
Definition rivals (c : Command) (a b : Arg) : bool :=
  match choice_of c a, choice_of c b with
  | Some (x, i), Some (y, j) => (x =? y) && negb (i =? j)
  | _, _ => false
  end.

Definition in_exclusive (c : Command) (a : Arg) (x : nat) : bool :=
  match choice_of c a with Some (y, _) => y =? x | None => false end.

(** Where an argument is among the exclusive fields. *)
Definition placed (c : Command) (a : Arg) : bool :=
  negb (bool_decide (arg_keys a = [])) &&
  (bool_decide (alternative a = None) ||
   match choice_of c a with Some (x, _) => bool_decide (x < length (exclusives c)) | None => false end) &&
  forallb (λ e, if in_exclusive c a (fst e) then belowb (exclusive_keys (snd e)) (arg_keys a)
                else apartb (exclusive_keys (snd e)) (arg_keys a)) (imap pair (exclusives c)).

Definition sub_placed (c : Command) (s : Subcommands) : bool :=
  (negb (bool_decide (sub_keys s = [])) && (length (sub_names s) =? length (commands s))) &&
  forallb (λ a, apartb (sub_keys s) (arg_keys a) && negb (bool_decide (path a = sub_path s)) &&
                negb (starts_with (path a) (sub_path s ++ lit "."))) (args c) &&
  forallb (λ e, apartb (sub_keys s) (exclusive_keys e)) (exclusives c).

Definition own_keyed (c : Command) : bool :=
  pairwise (λ a b, (negb (bool_decide (path a = path b)) && apartb (arg_keys a) (arg_keys b)) || rivals c a b) (args c) &&
  forallb (placed c) (args c) &&
  pairwise (λ e f, apartb (exclusive_keys e) (exclusive_keys f)) (exclusives c) &&
  forallb (λ e, negb (bool_decide (exclusive_keys e = []))) (exclusives c) &&
  match subcommands c with Some s => sub_placed c s | None => true end.

Fixpoint keyed (c : Command) : bool :=
  own_keyed c &&
  match c with
  | mkCommand _ _ _ _ _ _ (Some s) _ _ _ _ _ _ => sub_keyed s
  | _ => true
  end
with sub_keyed (s : Subcommands) : bool :=
  match s with
  | mkSubcommands _ _ _ _ _ _ _ _ cs => forallb keyed cs
  end.

(** ** Facts of a keyed command *)

Section Facts.
Variable c : Command.
Hypothesis Hk : own_keyed c = true.

Lemma keyed_parts :
  pairwise (λ a b, (negb (bool_decide (path a = path b)) && apartb (arg_keys a) (arg_keys b)) || rivals c a b) (args c) = true ∧
  forallb (placed c) (args c) = true ∧
  pairwise (λ e f, apartb (exclusive_keys e) (exclusive_keys f)) (exclusives c) = true ∧
  forallb (λ e, negb (bool_decide (exclusive_keys e = []))) (exclusives c) = true ∧
  match subcommands c with Some s => sub_placed c s = true | None => True end.
Proof.
  unfold own_keyed in Hk. apply andb_true_iff in Hk as [[[[H1 H2]%andb_true_iff H3]%andb_true_iff H4]%andb_true_iff H5].
  split_and!; try done. by destruct (subcommands c).
Qed.

Lemma args_apart i j a b : args c !! i = Some a → args c !! j = Some b → i ≠ j →
  (path a ≠ path b ∧ apart (arg_keys a) (arg_keys b)) ∨ rivals c a b = true.
Proof.
  intros Hi Hj Hne. destruct keyed_parts as (H & _). pose proof (pairwise_spec _ _ _ _ _ _ H Hi Hj Hne) as Hp.
  apply orb_true_iff in Hp as [[H1 H2]%andb_true_iff|Hp]; [left|by right].
  split; [by apply not_decided in H1|by apply apartb_apart].
Qed.

Lemma arg_placed i a : args c !! i = Some a →
  arg_keys a ≠ [] ∧ (alternative a = None ∨ ∃ x n ex, choice_of c a = Some (x, n) ∧ exclusives c !! x = Some ex) ∧
  ∀ x ex, exclusives c !! x = Some ex →
    if in_exclusive c a x then ∃ k q, arg_keys a = exclusive_keys ex ++ k :: q else apart (exclusive_keys ex) (arg_keys a).
Proof.
  intros Hi. destruct keyed_parts as (_ & H & _). rewrite forallb_forall in H.
  specialize (H a (proj1 (list_elem_of_In _ _) (list_elem_of_lookup_2 _ _ _ Hi))). unfold placed in H.
  apply andb_true_iff in H as [[H1 H2]%andb_true_iff H3]. split; [by apply not_decided in H1|]. split.
  - apply orb_true_iff in H2 as [H2|H2]; [left; by apply bool_decide_eq_true in H2|right].
    destruct (choice_of c a) as [[x n]|] eqn:E; [|done]. apply bool_decide_eq_true in H2.
    destruct (lookup_lt_is_Some_2 _ _ H2) as [ex Hx]. by exists x, n, ex.
  - intros x ex Hx. rewrite forallb_forall in H3. specialize (H3 (x, ex)). cbn [fst snd] in H3.
    assert (Hin : In (x, ex) (imap pair (exclusives c))).
    { apply list_elem_of_In, list_elem_of_lookup_2 with x. by rewrite list_lookup_imap, Hx. }
    specialize (H3 Hin). case_match; [by apply belowb_below|by apply apartb_apart].
Qed.

Lemma exclusives_apart x y ex ey : exclusives c !! x = Some ex → exclusives c !! y = Some ey → x ≠ y →
  apart (exclusive_keys ex) (exclusive_keys ey).
Proof.
  intros Hx Hy Hne. destruct keyed_parts as (_ & _ & H & _). by apply apartb_apart, (pairwise_spec _ _ _ _ _ _ H Hx Hy Hne).
Qed.

Lemma exclusive_nonempty x ex : exclusives c !! x = Some ex → exclusive_keys ex ≠ [].
Proof.
  intros Hx. destruct keyed_parts as (_ & _ & _ & H & _). rewrite forallb_forall in H.
  specialize (H ex (proj1 (list_elem_of_In _ _) (list_elem_of_lookup_2 _ _ _ Hx))). by apply not_decided in H.
Qed.

Lemma sub_apart s : subcommands c = Some s →
  (sub_keys s ≠ [] ∧ length (sub_names s) = length (commands s)) ∧
  (∀ i a, args c !! i = Some a → apart (sub_keys s) (arg_keys a) ∧ path a ≠ sub_path s ∧
    starts_with (path a) (sub_path s ++ lit ".") = false) ∧
  (∀ x ex, exclusives c !! x = Some ex → apart (sub_keys s) (exclusive_keys ex)).
Proof.
  intros Hs. destruct keyed_parts as (_ & _ & _ & _ & H). rewrite Hs in H. unfold sub_placed in H.
  apply andb_true_iff in H as [[H1 H2]%andb_true_iff H3]. rewrite forallb_forall in H2. rewrite forallb_forall in H3.
  apply andb_true_iff in H1 as [H1 H0%Nat.eqb_eq]. split; [split; [by apply not_decided in H1|done]|]. split.
  - intros i a Ha. specialize (H2 a (proj1 (list_elem_of_In _ _) (list_elem_of_lookup_2 _ _ _ Ha))).
    apply andb_true_iff in H2 as [[H4 H5]%andb_true_iff H6]. split_and!; [by apply apartb_apart|by apply not_decided in H5|].
    by apply negb_true_iff.
  - intros x ex Hx. by apply apartb_apart, H3, list_elem_of_In, list_elem_of_lookup_2 with x.
Qed.
End Facts.

(** ** The tree *)

(** An argument stored, with its values and the elements it was read from. *)
Record LogEntry := mkLog { log_arg : nat; log_views : list View; log_begin : nat; log_end : nat }.

Definition entries (l : list LogEntry) (i : nat) : list LogEntry := List.filter (λ e, log_arg e =? i) l.

(** The node of an argument that was given these. *)
Definition put (a : Arg) (n : option Node) (e : LogEntry) : option Node :=
  Some (store_node a (text_nodes (log_views e) (log_begin e) (log_begin e) (log_end e)) (log_begin e) (log_end e)
    (default (new_node (node_kind a)) n)).
Definition put_all (a : Arg) (l : list LogEntry) : option Node := foldl (put a) None l.

(** The argument is in no exclusive field, or in the alternative it holds. *)
Definition current (c : Command) (H : nat → option nat) (a : Arg) : Prop :=
  match choice_of c a with None => True | Some (x, n) => H x = Some n end.

Definition holds_at (r : Node) (ks : list bytes) (h : option nat) : Prop :=
  match h with
  | None => find_node r ks = None
  | Some n => ∃ m o, find_node r ks = Some m ∧ kind m = Variant ∧ count m = n ∧ items m = [o] ∧ kind o = Object
  end.

(** The tree is what the log [l] makes it; [H] is what the exclusive fields hold. *)
Record tree (c : Command) (H : nat → option nat) (l : list LogEntry) (r : Node) : Prop := {
  tree_open : ∀ i a, args c !! i = Some a → current c H a → open r (arg_keys a);
  tree_open_exclusive : ∀ x ex, exclusives c !! x = Some ex → open r (exclusive_keys ex);
  tree_open_sub : ∀ s, subcommands c = Some s → open r (sub_keys s);
  tree_exclusive : ∀ x ex, exclusives c !! x = Some ex → holds_at r (exclusive_keys ex) (H x);
  tree_arg : ∀ i a, args c !! i = Some a → current c H a → find_node r (arg_keys a) = put_all a (entries l i);
  tree_log : Forall (λ e, ∃ a, args c !! log_arg e = Some a ∧ current c H a) l;
  tree_sub : ∀ s, subcommands c = Some s → find_node r (sub_keys s) = None;
}.

Lemma tree_new c : own_keyed c = true → tree c (λ _, None) [] (new_node Object).
Proof.
  intros Hk. split; try (intros; apply open_object); [| |by constructor|].
  - intros x ex Hx. pose proof (exclusive_nonempty c Hk x ex Hx). cbn. by destruct (exclusive_keys ex).
  - intros i a Ha _. destruct (arg_placed c Hk i a Ha) as (Hne & _). cbn. by destruct (arg_keys a).
  - intros s Hs. destruct (sub_apart c Hk s Hs) as ([Hne _] & _). by destruct (sub_keys s).
Qed.

Lemma held_eq c H l r x ex : tree c H l r → exclusives c !! x = Some ex → held c r x = H x.
Proof.
  intros Ht Hx. pose proof (tree_exclusive _ _ _ _ Ht x ex Hx) as He. unfold held. rewrite Hx.
  destruct (H x) as [n|]; cbn in He; [|by rewrite He]. destruct He as (m & o & -> & Hm & <- & _). by rewrite bool_decide_true.
Qed.

Lemma entries_none c H l r i a : tree c H l r → args c !! i = Some a → ¬ current c H a → entries l i = [].
Proof.
  intros Ht Ha Hc. pose proof (tree_log _ _ _ _ Ht) as Hl. rewrite Forall_forall in Hl.
  unfold entries. destruct (List.filter _ l) as [|e es] eqn:E; [done|]. exfalso. apply Hc.
  assert (Hin : In e (List.filter (λ e, log_arg e =? i) l)) by (rewrite E; by left).
  apply filter_In in Hin as [Hin Hi%Nat.eqb_eq]. destruct (Hl e (proj2 (list_elem_of_In _ _) Hin)) as (a' & Ha' & Hcur).
  rewrite Hi in Ha'. by simplify_eq.
Qed.

(** *** Choosing an alternative *)

Definition choosing (H : nat → option nat) (x n : nat) : nat → option nat := λ y, if y =? x then Some n else H y.

Lemma current_choosing c H x n a : H x = None → current c H a → current c (choosing H x n) a.
Proof.
  unfold current, choosing. intros Hx. destruct (choice_of c a) as [[y k]|]; [|done]. destruct (Nat.eqb_spec y x); [congruence|done].
Qed.

Lemma current_chosen c H x n a : current c (choosing H x n) a → current c H a ∨ choice_of c a = Some (x, n).
Proof.
  unfold current, choosing. destruct (choice_of c a) as [[y k]|]; [|by left]. destruct (Nat.eqb_spec y x) as [->|]; [|by left].
  intros [= ->]. by right.
Qed.

Lemma not_below c H x a : H x = None → current c H a → in_exclusive c a x = false.
Proof.
  unfold current, in_exclusive. destruct (choice_of c a) as [[y k]|]; [|done]. intros Hx Hc.
  apply Nat.eqb_neq. intros ->. congruence.
Qed.

Lemma open_hold n b e q : open (hold n b e (new_node Variant)) q.
Proof. by destruct q. Qed.

Lemma hold_tree c H l r x ex n b e :
  own_keyed c = true → tree c H l r → exclusives c !! x = Some ex → H x = None →
  tree c (choosing H x n) l (make_node r (exclusive_keys ex) Variant (hold n b e)).
Proof.
  intros Hk Ht Hx Hn. pose proof (tree_open_exclusive _ _ _ _ Ht x ex Hx) as Ho.
  pose proof (tree_exclusive _ _ _ _ Ht x ex Hx) as He. rewrite Hn in He. cbn in He.
  assert (Hopen : ∀ p, open r p → open (make_node r (exclusive_keys ex) Variant (hold n b e)) p).
  { intros p Hp. apply open_make; [done..|]. intros q _. rewrite He. apply open_hold. }
  assert (Hbelow : ∀ i a, args c !! i = Some a → choice_of c a = Some (x, n) → ∃ k q, arg_keys a = exclusive_keys ex ++ k :: q).
  { intros i a Ha Hc. destruct (arg_placed c Hk i a Ha) as (_ & _ & H3). specialize (H3 x ex Hx). unfold in_exclusive in H3.
    by rewrite Hc, Nat.eqb_refl in H3. }
  split.
  - intros i a Ha [Hc|Hc]%current_chosen; apply Hopen; [by apply (tree_open _ _ _ _ Ht i)|].
    destruct (Hbelow i a Ha Hc) as (k & q & ->). by apply open_missing.
  - intros y ey Hy. by apply Hopen, (tree_open_exclusive _ _ _ _ Ht y).
  - intros s Hs. by apply Hopen, (tree_open_sub _ _ _ _ Ht).
  - intros y ey Hy. unfold choosing. destruct (Nat.eqb_spec y x) as [->|Hne].
    + rewrite Hx in Hy. injection Hy as <-. cbn. rewrite find_make, He by done. by eexists _, _.
    + pose proof (tree_exclusive _ _ _ _ Ht y ey Hy) as Hy'. unfold holds_at in *.
      rewrite find_make_apart by (done || by apply (exclusives_apart c Hk x y)). done.
  - intros i a Ha Hcur. destruct (current_chosen _ _ _ _ _ Hcur) as [Hc|Hc].
    + destruct (arg_placed c Hk i a Ha) as (_ & _ & H3). specialize (H3 x ex Hx). rewrite (not_below c H x a Hn Hc) in H3.
      rewrite find_make_apart by done. by apply (tree_arg _ _ _ _ Ht).
    + destruct (Hbelow i a Ha Hc) as (k & q & ->). rewrite find_node_app, find_make, He by done.
      rewrite (entries_none c H l r i a Ht Ha); [done|]. unfold current. by rewrite Hc, Hn.
  - eapply Forall_impl; [apply (tree_log _ _ _ _ Ht)|]. intros z (a & Ha & Hc). exists a. split; [done|]. by apply current_choosing.
  - intros s Hs. destruct (sub_apart c Hk s Hs) as (_ & _ & H3). rewrite find_make_apart; [by apply (tree_sub _ _ _ _ Ht)|done|].
    by apply apart_sym, (H3 x).
Qed.

Lemma choose_tree argv c H l lv rd i b e a lv1 :
  own_keyed c = true → args c !! i = Some a → tree c H l (root lv) → choose argv c lv rd i b e a = Ok lv1 →
  ∃ H', tree c H' l (root lv1) ∧ current c H' a.
Proof.
  intros Hk Ha Ht. destruct (arg_placed c Hk i a Ha) as (_ & Hp & _). unfold choose.
  destruct (alternative a) as [gi|] eqn:Ealt.
  2: { intros [= <-]. exists H. split; [done|]. unfold current, choice_of. by rewrite Ealt. }
  destruct Hp as [?|(x & n & ex & Hch & Hx)]; [done|]. unfold excluding. rewrite Ealt.
  pose proof Hch as Hch'. unfold choice_of in Hch'. rewrite Ealt in Hch'.
  destruct (groups c !! gi) as [g|]; [|done]. destruct (group_exclusive g) as [x'|]; [|done]. cbn in Hch'. injection Hch' as -> <-.
  rewrite (held_eq c H l (root lv) x ex Ht Hx), Hx. destruct (H x) as [n|] eqn:Hn.
  - destruct (Nat.eqb_spec n (group_alternative g)) as [->|]; [|done]. intros Hlv.
    exists H. split; [|unfold current; by rewrite Hch].
    pose proof (tree_exclusive _ _ _ _ Ht x ex Hx) as He. rewrite Hn in He. destruct He as (m & o & Hf & _ & _ & Hi & _).
    assert (Hsame : make_node (root lv) (exclusive_keys ex) Variant (hold (group_alternative g) b e) = root lv).
    { apply make_same with m; [by apply (tree_open_exclusive _ _ _ _ Ht x)|done|]. unfold hold. by rewrite Hi. }
    rewrite Hsame in Hlv. injection Hlv as <-. by case_match.
  - intros Hlv. exists (choosing H x (group_alternative g)). split; [|unfold current, choosing; by rewrite Hch, Nat.eqb_refl].
    injection Hlv as <-. pose proof (hold_tree c H l (root lv) x ex (group_alternative g) b e Hk Ht Hx Hn). by case_match.
Qed.

(** *** Storing an argument *)

Lemma not_rivals c H a b : current c H a → current c H b → rivals c a b = false.
Proof.
  unfold current, rivals. destruct (choice_of c a) as [[x i]|], (choice_of c b) as [[y j]|]; try done. intros Ha Hb.
  destruct (Nat.eqb_spec x y) as [->|]; [|done]. rewrite Ha in Hb. injection Hb as ->. by rewrite Nat.eqb_refl.
Qed.

Lemma entries_snoc l e i : entries (l ++ [e]) i = entries l i ++ if log_arg e =? i then [e] else [].
Proof. unfold entries. rewrite List.filter_app. cbn. by destruct (_ =? _). Qed.

Lemma fill_snoc a l e : put_all a (l ++ [e]) = put a (put_all a l) e.
Proof. unfold put_all. by rewrite foldl_app. Qed.

Lemma store_tree c H l r e a :
  own_keyed c = true → args c !! log_arg e = Some a → tree c H l r → current c H a →
  tree c H (l ++ [e]) (make_node r (arg_keys a) (node_kind a)
    (store_node a (text_nodes (log_views e) (log_begin e) (log_begin e) (log_end e)) (log_begin e) (log_end e))).
Proof.
  intros Hk Ha Ht Hc. destruct (arg_placed c Hk _ a Ha) as (Hne & _ & Hex).
  pose proof (tree_open _ _ _ _ Ht _ a Ha Hc) as Ho. set (f := store_node _ _ _ _).
  assert (Hargs : ∀ j b, args c !! j = Some b → current c H b → j ≠ log_arg e → apart (arg_keys a) (arg_keys b)).
  { intros j b Hb Hcb Hj. destruct (args_apart c Hk (log_arg e) j a b Ha Hb) as [[_ ?]|Hr]; [done..|].
    by rewrite (not_rivals c H a b Hc Hcb) in Hr. }
  assert (Hsub : ∀ s, subcommands c = Some s → apart (arg_keys a) (sub_keys s)).
  { intros s Hs. destruct (sub_apart c Hk s Hs) as (_ & H2 & _). apply apart_sym, (H2 (log_arg e) a Ha). }
  assert (Hopen : ∀ p, open r p → (∀ q, p = arg_keys a ++ q → q = []) → open (make_node r (arg_keys a) (node_kind a) f) p).
  { intros p Hp Hq. apply open_make; [done..|]. intros q E. by rewrite (Hq q E). }
  split.
  - intros j b Hb Hcb. apply Hopen; [by apply (tree_open _ _ _ _ Ht j)|]. intros q E.
    destruct (decide (j = log_arg e)) as [->|Hj].
    + rewrite Ha in Hb. injection Hb as <-. apply (f_equal length) in E. rewrite length_app in E. by destruct q; [|cbn in E; lia].
    + by destruct (apart_not_prefix _ _ q (Hargs j b Hb Hcb Hj)).
  - intros x ex Hx. apply Hopen; [by apply (tree_open_exclusive _ _ _ _ Ht x)|]. intros q E. specialize (Hex x ex Hx). case_match.
    + destruct Hex as (k & q' & Ek). rewrite Ek in E. apply (f_equal length) in E. rewrite !length_app in E. cbn in E. lia.
    + by destruct (apart_not_prefix _ _ q (apart_sym _ _ Hex)).
  - intros s Hs. apply Hopen; [by apply (tree_open_sub _ _ _ _ Ht)|]. intros q E.
    by destruct (apart_not_prefix _ _ q (Hsub s Hs)).
  - intros x ex Hx. pose proof (tree_exclusive _ _ _ _ Ht x ex Hx) as He. specialize (Hex x ex Hx).
    destruct (in_exclusive c a x) eqn:Ein.
    + unfold in_exclusive in Ein. unfold current in Hc. destruct (choice_of c a) as [[y n]|]; [|done].
      apply Nat.eqb_eq in Ein as ->. rewrite Hc in *. destruct He as (m & o & Hf & Hm & Hn & Hi & Hob).
      destruct Hex as (k & q & Ek). rewrite Ek in *. cbn. eexists _, _. rewrite (find_make_above _ _ _ _ _ _ m) by done.
      split; [done|]. rewrite (make_variant _ o) by done. destruct m. cbn in *. split_and!; try done. by rewrite make_field_kind.
    + unfold holds_at in *. rewrite find_make_apart; [done..|]. by apply apart_sym.
  - intros j b Hb Hcb. rewrite entries_snoc. destruct (Nat.eqb_spec (log_arg e) j) as [Hj|Hj].
    + subst j. rewrite Ha in Hb. injection Hb as <-. rewrite find_make, fill_snoc by done. unfold put.
      by rewrite <- (tree_arg _ _ _ _ Ht _ a Ha Hc).
    + rewrite app_nil_r, find_make_apart; [by apply (tree_arg _ _ _ _ Ht)|done|]. by apply (Hargs j b).
  - apply Forall_app. split; [apply (tree_log _ _ _ _ Ht)|]. apply Forall_singleton. by exists a.
  - intros s Hs. rewrite find_make_apart; [by apply (tree_sub _ _ _ _ Ht)|done|]. by apply Hsub.
Qed.

(** ** What a node says of the values given *)

Definition gives (a : Arg) (vs : list (list bytes)) (n : option Node) : Prop :=
  match n with
  | None => vs = []
  | Some n =>
      vs ≠ [] ∧ kind n = node_kind a ∧
      match shape a with
      | FlagShape | AliasShape => True
      | CountShape => count n = length vs
      | ValueShape => if is_list a then text <$> items n = mjoin vs else text n = default [] (last (mjoin vs))
      | TupleShape =>
          if is_list a then (λ t, text <$> items t) <$> items n = vs else text <$> items n = default [] (last vs)
      end
  end.

Lemma text_nodes_texts vs from b e : text <$> text_nodes vs from b e = view_text <$> vs.
Proof.
  revert from. induction vs as [|v vs IH]; intros from; [done|]. cbn [text_nodes]. repeat case_match; cbn; by rewrite IH.
Qed.

Lemma text_nodes_kind vs from b e : Forall (λ n, kind n = Text) (text_nodes vs from b e).
Proof. revert from. induction vs as [|v vs IH]; intros from; [constructor|]. cbn [text_nodes]. repeat case_match; by constructor. Qed.

Lemma spanned_same n b e :
  let n' := match kind n, items n, last (items n) with
            | List, first :: _, Some final => with_span n (CliNode.begin first) (CliNode.end_ final)
            | Text, _, _ => n
            | _, _, _ => with_span n b e
            end in
  kind n' = kind n ∧ count n' = count n ∧ text n' = text n ∧ items n' = items n.
Proof. by destruct n as [[] ? ? ? ? ? [|x l]]; cbn; repeat case_match. Qed.

Lemma mjoin_snoc {A} (l : list (list A)) x : mjoin (l ++ [x]) = mjoin l ++ x.
Proof. rewrite join_app. cbn. by rewrite app_nil_r. Qed.

Lemma put_gives a vs n e :
  gives a vs n → gives a (vs ++ [view_text <$> log_views e]) (put a n e).
Proof.
  intros Hg. unfold put, gives at 1, store_node. set (ns := text_nodes _ _ _ _).
  assert (Hns : text <$> ns = view_text <$> log_views e) by apply text_nodes_texts.
  assert (Hnk : Forall (λ n, kind n = Text) ns) by apply text_nodes_kind. clearbody ns.
  set (m := default (new_node (node_kind a)) n). split; [by destruct vs|].
  assert (Hm : kind m = node_kind a ∧
    match shape a with
    | FlagShape | AliasShape => True
    | CountShape => count m = length vs
    | ValueShape => if is_list a then text <$> items m = mjoin vs else text m = default [] (last (mjoin vs))
    | TupleShape => if is_list a then (λ t, text <$> items t) <$> items m = vs else True
    end).
  { destruct n as [n|]; cbn [m default].
    - destruct Hg as (_ & H1 & H2). split; [done|]. repeat case_match; done.
    - unfold gives in Hg. subst vs. split; [done|]. by repeat case_match. }
  destruct Hm as [Hk Hm]. clearbody m.
  match goal with |- context [match kind ?x with _ => _ end] => set (m1 := x) in * end.
  destruct (spanned_same m1 (log_begin e) (log_end e)) as (E1 & E2 & E3 & E4). rewrite E1, E2, E3, E4.
  unfold m1. unfold node_kind in *. destruct (shape a) eqn:Es.
  - done.
  - split; [done|]. rewrite length_app, Nat.add_1_r. cbn. by rewrite Hm, Nat.add_1_r.
  - destruct (is_list a).
    + split; [done|]. rewrite mjoin_snoc. cbn. by rewrite fmap_app, Hns, Hm.
    + cbn in Hk. rewrite mjoin_snoc, last_app, <- Hns, fmap_last. destruct (last ns) as [x|] eqn:El; cbn; [|done].
      split; [|done]. apply last_Some_elem_of in El. by rewrite Forall_forall in Hnk; apply Hnk.
  - destruct (is_list a).
    + split; [done|]. cbn. rewrite fmap_app, Hm. cbn. by rewrite Hns.
    + split; [done|]. rewrite last_snoc. done.
  - done.
Qed.

Lemma fill_gives a l : gives a ((λ e, view_text <$> log_views e) <$> l) (put_all a l).
Proof. induction l as [|e l IH] using rev_ind; [done|]. rewrite fill_snoc, fmap_app. by apply put_gives. Qed.

(** ** A level being read *)

(** A value the bounds and choices of its field take. *)
Definition vetted (a : Arg) (t : bytes) : Prop :=
  (choices a = [] ∨ t ∈ choices a) ∧ refused_number (minimum a) (maximum a) (number_of t (integer_kind a)) t = None.

Definition valued (a : Arg) : bool := match shape a with ValueShape | TupleShape => true | _ => false end.

Lemma first_error_vetted argv rd a ns :
  first_error argv rd a ns = None → Forall (vetted a) (text <$> ns).
Proof.
  induction ns as [|n ns IH]; [constructor|]. cbn. destruct (check_constraints argv rd a n) eqn:E; [done|].
  intros Hn. constructor; [|by apply IH]. unfold check_constraints in E. destruct (_ && _) eqn:Eb; [done|].
  destruct (refused_number _ _ _ _) eqn:Er; [done|]. split; [|done].
  apply andb_false_iff in Eb as [Eb|Eb]; apply negb_false_iff, bool_decide_eq_true in Eb; [by left|by right].
Qed.

Definition log_given (c : Command) (p : bytes) (e : LogEntry) : Given :=
  mkGiven (p ++ default [] (path <$> args c !! log_arg e)) (view_text <$> log_views e).

Record level_at (c : Command) (p : bytes) (g0 : list Given) (lv : Level) (rd : Reading)
    (H : nat → option nat) (l : list LogEntry) : Prop := {
  level_tree : tree c H l (root lv);
  level_prefix : prefix lv = p;
  level_given : given rd = g0 ++ (log_given c p <$> l);
  level_counts : ∀ i, i < length (args c) → occurrences lv !! i = Some (length (entries l i));
  level_vetted : Forall (λ e, ∀ a, args c !! log_arg e = Some a → valued a = true →
    Forall (vetted a) (view_text <$> log_views e)) l;
}.

Definition level_ok (c : Command) (p : bytes) (g0 : list Given) (lv : Level) (rd : Reading) : Prop :=
  ∃ H l, level_at c p g0 lv rd H l.

Variables (argv : list bytes) (c : Command) (p : bytes) (g0 : list Given).
Hypothesis Hk : own_keyed c = true.

Lemma level_new start rd : given rd = g0 → level_ok c p g0 (new_level c p start) rd.
Proof.
  intros Hg. exists (λ _, None), []. split; [by apply tree_new|done|by rewrite app_nil_r| |constructor].
  intros i Hi. cbn. by apply lookup_replicate.
Qed.

(** Only these fields matter. *)
Lemma level_same lv rd lv' rd' :
  root lv' = root lv → prefix lv' = prefix lv → occurrences lv' = occurrences lv → given rd' = given rd →
  level_ok c p g0 lv rd → level_ok c p g0 lv' rd'.
Proof. intros E1 E2 E3 E4 (H & l & [H1 H2 H3 H4 H5]). exists H, l. split; by rewrite ?E1, ?E2, ?E3, ?E4. Qed.

Lemma choose_same lv rd i b e a lv1 :
  choose argv c lv rd i b e a = Ok lv1 → prefix lv1 = prefix lv ∧ occurrences lv1 = occurrences lv.
Proof. unfold choose. repeat case_match; intros [=]; subst; try done; by case_match. Qed.

Lemma store_level lv rd i vs b e lv' rd' :
  level_ok c p g0 lv rd → store argv c lv rd i vs b e = Ok (lv', rd') → level_ok c p g0 lv' rd'.
Proof.
  intros (H & l & [H1 H2 H3 H4 H5]). unfold store. destruct (args c !! i) as [a|] eqn:Ha.
  2: { intros [= <- <-]. by exists H, l. }
  destruct (choose argv c lv rd i b e a) as [lv1|] eqn:Ech; [|done]. cbn [ebind].
  destruct (choose_same _ _ _ _ _ _ _ Ech) as [Ep Eo].
  destruct (choose_tree argv c H l lv rd i b e a lv1 Hk Ha H1 Ech) as (H' & Ht & Hc).
  case_match eqn:Ec; [done|]. intros [= <- <-]. exists H', (l ++ [mkLog i vs b e]). split; cbn [root with_root prefix with_occurrence occurrences given with_given].
  - by apply (store_tree c H' l (root lv1) (mkLog i vs b e) a).
  - by rewrite Ep.
  - rewrite H3, Ep, H2, fmap_app, <- app_assoc. cbn. unfold log_given at 3. cbn. by rewrite Ha.
  - intros j Hj. rewrite entries_snoc, length_app, Eo. cbn [log_arg]. specialize (H4 j Hj).
    destruct (Nat.eqb_spec i j) as [->|Hne].
    + rewrite list_lookup_alter_eq, H4. cbn. f_equal. lia.
    + rewrite list_lookup_alter_ne, H4 by done. cbn. f_equal. lia.
  - apply Forall_app. split; [done|]. apply Forall_singleton. cbn [log_arg log_views]. intros a' Ha' Hv.
    rewrite Ha in Ha'. injection Ha' as <-. rewrite <- (text_nodes_texts vs b b e). apply (first_error_vetted argv rd).
    unfold valued in Hv. by destruct (shape a).
Qed.

Lemma store_input_level lv rd index lv' rd' :
  level_ok c p g0 lv rd → store_input argv c lv rd index = Ok (lv', rd') → level_ok c p g0 lv' rd'.
Proof.
  unfold store_input. generalize (@None (nat * nat)) as ex. generalize (S (length (positionals c))).
  intros n. revert lv. induction n as [|n IH]; intros lv ex Hl; cbn [store_input_from]; [by case_match; [case_match|]|].
  repeat case_match; try done; try (apply IH; by eapply level_same, Hl); apply store_level; by eapply level_same, Hl.
Qed.

(** What a round keeps, whatever it ends in. *)
Definition round_level (o : Outcome) : Prop :=
  match o with
  | Done lv rd | Again lv rd _ => level_ok c p g0 lv rd
  | Ended lv rd => level_ok c p g0 lv rd ∧ stopped rd = true
  | Descend lv rd alternative _ _ =>
      level_ok c p g0 lv rd ∧ ∃ s, subcommands c = Some s ∧ alternative < length (sub_names s)
  | Bad _ => True
  end.

Lemma read_result_level lv rd base r :
  level_ok c p g0 lv rd →
  match read_result argv c lv rd base r with
  | inl (lv', rd') => level_ok c p g0 lv' rd'
  | inr o => round_level o
  end.
Proof.
  intros Hl. unfold read_result. destruct r as [parsed|]; [|done]. destruct (_ =? unknown_option_id _); [done|].
  destruct (_ =? input_option_id _).
  - assert (Hw : ∀ n (r : expected (Level * Reading) ReadError), (∀ lv' rd', r = Ok (lv', rd') → level_ok c p g0 lv' rd') →
      match (match r with Ok (lv', rd') => inl (with_cursor lv' n, rd') | Err e => inr (Bad e) end : Level * Reading + Outcome) with
      | inl (lv', rd') => level_ok c p g0 lv' rd' | inr o => round_level o end).
    { intros n [[lv' rd']|] Hr; [|done]. specialize (Hr _ _ eq_refl). by eapply level_same, Hr. }
    unfold read_input. destruct (bool_decide _ && _).
    + destruct (rest c); [|done]. apply Hw. intros lv' rd'. by apply store_level.
    + destruct (subcommands c) as [s|] eqn:Es; [|by apply Hw; intros lv' rd'; apply store_input_level].
      destruct (find_index _ _) as [i|] eqn:Ei.
      * apply find_index_bound in Ei. destruct (first_own lv); [done|]. cbn [round_level]. split; [done|]. by exists s.
      * destruct (bool_decide _); [done|]. apply Hw. intros lv' rd'. by apply store_input_level.
  - destruct (arg_of c !! _) as [[| |i]|]; [done| | |done];
      [split; [by eapply level_same, Hl|done]|]. destruct (args c !! i) as [a|]; [|done].
    destruct (bool_decide _); [by cbn [round_level]; eapply level_same, Hl|].
    destruct (store _ _ _ _ _ _ _ _) as [[lv' rd']|] eqn:E; [|done]. apply store_level in E; [|done].
    destruct (stop a); [split; [by eapply level_same, E|done]|by eapply level_same, E].
Qed.

Lemma read_results_level lv rd base l :
  level_ok c p g0 lv rd → round_level (read_results argv c lv rd base l).
Proof.
  revert lv rd. induction l as [|r l IH]; intros lv rd Hl; [done|]. cbn [read_results].
  pose proof (read_result_level lv rd base r Hl) as Hr. destruct (read_result _ _ _ _ _ _) as [[lv' rd']|o]; [by apply IH|done].
Qed.
End Keyed.
