(* ===== verification/CliReadOk.v ===== *)
(** Reading an argv gives what the argv says: the theorem on the whole of a read
    (CliRead.v), from the lemmas on its levels (CliCollect.v).

    [collects] relates a command, the arguments given and the tree.  The tree
    has for each field what its arguments were given, of the alternatives of an
    exclusive field only one was given, every value is one its field takes, and
    unless the parse was ended early nothing required is missing; and so for the
    subcommand the argv names, in the variant of its field. *)

From Stdlib Require Import Strings.Byte ZArith Lia Bool.
From stdpp Require Import prelude strings list.
From S2P Require Import Prelude Naming Charconv CliTable CliParse CliNumber CliDeclare CliCommand CliNode CliSuggest CliRead CliReadMarks CliReadEnd CliCollect.
Local Open Scope kota_scope.
Local Open Scope nat_scope.

Section ReadOk.
Context `{D : Doubles}.

(** The values given under a path, an argument each. *)
Definition given_for (gs : list Given) (q : bytes) : list (list bytes) :=
  given_values <$> List.filter (λ g, bool_decide (given_path g = q)) gs.

(** The argument is in no exclusive field, or in the alternative the tree holds. *)
Definition chosen (c : Command) (r : Node) (a : Arg) : bool :=
  match choice_of c a with None => true | Some (x, n) => bool_decide (held c r x = Some n) end.

(** Two alternatives may name their fields alike: what is given is then the one's
    the tree holds. *)
Definition args_collected (c : Command) (p : bytes) (gs : list Given) (r : Node) : Prop :=
  ∀ i a, args c !! i = Some a →
    if chosen c r a then
      gives a (given_for gs (p ++ path a)) (find_node r (arg_keys a)) ∧
      (valued a = true → Forall (Forall (vetted a)) (given_for gs (p ++ path a)))
    else
      (∀ j b, args c !! j = Some b → chosen c r b = true → path b ≠ path a) → given_for gs (p ++ path a) = [].

(** Nothing required is missing; before a subcommand only what goes with it is required. *)
Definition complete (c : Command) (p : bytes) (gs : list Given) (r : Node) (subcommand : bool) : Prop :=
  (∀ i a, args c !! i = Some a → chosen c r a = true →
    let n := length (given_for gs (p ++ path a)) in
    (positional a = true → is_list a = true → n ≠ 0 → arg_min (arg_num a) ≤ n) ∧
    (shape a = CountShape → n ≠ 0 → refused_number (minimum a) (maximum a) (Integer (Z.of_nat n)) (decimal n) = None) ∧
    (required a = true → (subcommand = true → global a = true) → present c r (arg_group a) = true → n ≠ 0)) ∧
  (∀ x ex, exclusives c !! x = Some ex → exclusive_required ex = true → (subcommand = true → exclusive_global ex = true) →
    present c r (exclusive_group ex) = true → find_node r (exclusive_keys ex) ≠ None) ∧
  (∀ s, subcommands c = Some s → sub_optional s = false → present c r (sub_group s) = true → find_node r (sub_keys s) ≠ None).

Inductive collects (ended : bool) : Command → bytes → list Given → Node → Prop :=
| collects_own c p gs r :
    args_collected c p gs r → (ended = false → complete c p gs r false) →
    (∀ s, subcommands c = Some s → find_node r (sub_keys s) = None) →
    collects ended c p gs r
| collects_sub c p gs r s sub m r' :
    args_collected c p gs r → (ended = false → complete c p gs r true) →
    subcommands c = Some s → find_node r (sub_keys s) = Some m → kind m = Variant → items m = [r'] →
    commands s !! count m = Some sub → collects ended sub (p ++ sub_path s ++ lit ".") gs r' →
    collects ended c p gs r.

(** ** The log and the arguments given *)

Lemma given_for_app gs gs' q : given_for (gs ++ gs') q = given_for gs q ++ given_for gs' q.
Proof. unfold given_for. by rewrite List.filter_app, fmap_app. Qed.

Lemma given_for_none gs q : Forall (λ g, given_path g ≠ q) gs → given_for gs q = [].
Proof.
  unfold given_for. induction 1 as [|g gs Hg Hgs IH]; [done|]. cbn. by rewrite bool_decide_false by done.
Qed.

Lemma given_for_log c p H l r i a :
  own_keyed c = true → tree c H l r → args c !! i = Some a → current c H a →
  given_for (log_given c p <$> l) (p ++ path a) = (λ e, view_text <$> log_views e) <$> entries l i.
Proof.
  intros Hk Ht Ha Hc. pose proof (tree_log _ _ _ _ Ht) as Hl. clear Ht.
  induction Hl as [|e l (b & Hb & Hcb) Hl IH]; [done|]. unfold given_for, entries in *. cbn.
  destruct (Nat.eqb_spec (log_arg e) i) as [Hi|Hi].
  - subst i. rewrite bool_decide_true by (cbn; by rewrite Ha). cbn. by rewrite IH.
  - rewrite bool_decide_false; [done|]. cbn. rewrite Hb. cbn. intros E%app_inv_head.
    destruct (args_apart c Hk (log_arg e) i b a Hb Ha Hi) as [[? _]|Hr]; [done|].
    by rewrite (not_rivals c H b a Hcb Hc) in Hr.
Qed.

(** ** What a level collected *)

(** The roots have the same at the places of the command's own fields. *)
Definition agree (c : Command) (r r' : Node) : Prop :=
  (∀ i a, args c !! i = Some a → find_node r' (arg_keys a) = find_node r (arg_keys a)) ∧
  (∀ x ex, exclusives c !! x = Some ex → find_node r' (exclusive_keys ex) = find_node r (exclusive_keys ex)).

Section Level.
Variables (c : Command) (p : bytes) (g0 : list Given) (lv : Level) (rd : Reading) (H : nat → option nat) (l : list LogEntry).
Hypothesis Hk : own_keyed c = true.
Hypothesis Hlv : level_at c p g0 lv rd H l.
Variables (r : Node) (more : list Given).
Hypothesis Hr : agree c (root lv) r.
Hypothesis Hmore : ∀ i a, args c !! i = Some a → Forall (λ g, given_path g ≠ p ++ path a) more.
Abbreviation gs := ((log_given c p <$> l) ++ more).

Lemma level_known : Forall (λ e, is_Some (args c !! log_arg e)) l.
Proof.
  eapply Forall_impl; [apply (tree_log _ _ _ _ (level_tree _ _ _ _ _ _ _ Hlv))|]. intros e (a & Ha & _). by exists a.
Qed.

Lemma level_given_for i a : args c !! i = Some a → current c H a →
  given_for gs (p ++ path a) = (λ e, view_text <$> log_views e) <$> entries l i.
Proof.
  intros Ha Hc. rewrite given_for_app, (given_for_none more), app_nil_r by (by apply (Hmore i)).
  apply (given_for_log c p H l (root lv)); [done|apply Hlv|done..].
Qed.

Lemma level_given_none i a : args c !! i = Some a →
  (∀ j b, args c !! j = Some b → current c H b → path b ≠ path a) → given_for gs (p ++ path a) = [].
Proof.
  intros Ha Hne. rewrite given_for_app, (given_for_none more), app_nil_r by (by apply (Hmore i)).
  apply given_for_none. apply Forall_fmap. eapply Forall_impl; [apply (tree_log _ _ _ _ (level_tree _ _ _ _ _ _ _ Hlv))|].
  intros e (b & Hb & Hcb). cbn. rewrite Hb. cbn. intros E%app_inv_head. by apply (Hne _ b Hb Hcb).
Qed.

Lemma level_chosen i a : args c !! i = Some a → chosen c r a = true ↔ current c H a.
Proof.
  intros Ha. destruct (arg_placed c Hk i a Ha) as (_ & Hp & _). unfold chosen, current.
  destruct (choice_of c a) as [[x n]|] eqn:Ec; [|done]. rewrite bool_decide_eq_true.
  destruct Hp as [Hp|(x' & n' & ex & E & Hx)]; [unfold choice_of in Ec; by rewrite Hp in Ec|]. simplify_eq.
  rewrite <- (held_eq c H l (root lv) x' ex (level_tree _ _ _ _ _ _ _ Hlv) Hx). unfold held. rewrite Hx.
  by rewrite (proj2 Hr x' ex Hx).
Qed.

Lemma level_args_collected : args_collected c p gs r.
Proof.
  intros i a Ha. pose proof (level_chosen i a Ha) as Hc. pose proof (level_tree _ _ _ _ _ _ _ Hlv) as Ht.
  destruct (chosen c r a).
  - assert (Hcur : current c H a) by (by apply Hc). rewrite (level_given_for i a Ha Hcur). split.
    + rewrite (proj1 Hr i a Ha), (tree_arg _ _ _ _ Ht i a Ha) by done. apply fill_gives.
    + intros Hv. pose proof (level_vetted _ _ _ _ _ _ _ Hlv) as Hl. rewrite Forall_fmap. apply Forall_forall.
      intros e [Hin Hi%Nat.eqb_eq]%list_elem_of_In%filter_In. rewrite Forall_forall in Hl.
      apply (Hl e (proj2 (list_elem_of_In _ _) Hin) a); [by rewrite Hi|done].
  - intros Hne. apply (level_given_none i a Ha). intros j b Hb Hcb. by apply (Hne j b Hb), (level_chosen j b Hb).
Qed.

Lemma check_args_none argv rd' sub i0 l0 lv' :
  check_args argv c lv' rd' sub i0 l0 = None → ∀ i a, l0 !! i = Some a → check_arg argv c lv' rd' sub (i0 + i) a = None.
Proof.
  revert i0. induction l0 as [|a l0 IH]; intros i0 Hc [|i] b Hb; [done..| |]; cbn in *.
  - injection Hb as <-. rewrite Nat.add_0_r. by destruct (check_arg _ _ _ _ _ _ _).
  - destruct (check_arg argv c lv' rd' sub i0 a); [done|]. rewrite <- Nat.add_succ_comm. by apply IH.
Qed.

Lemma check_exclusives_none argv rd' sub l0 lv' :
  check_exclusives argv c lv' rd' sub l0 = None → Forall (λ ex,
    exclusive_required ex = true → (sub = true → exclusive_global ex = true) →
    present c (root lv') (exclusive_group ex) = true → find_node (root lv') (exclusive_keys ex) ≠ None) l0.
Proof.
  induction l0 as [|x l0 IH]; [constructor|]. cbn. destruct (_ && _) eqn:E; [done|]. intros Hc. constructor; [|by apply IH].
  intros H1 H2 H3 H4. rewrite H1, H3, H4, bool_decide_true in E by done. destruct sub; cbn in E; [|done]. by rewrite H2 in E.
Qed.

Lemma level_complete argv lv' rd' sub :
  root lv' = r → occurrences lv' = occurrences lv → check argv c lv' rd' sub = None → complete c p gs r sub.
Proof.
  intros Er Eo. unfold check. destruct (check_args _ _ _ _ _ _ _) eqn:Ea; [done|].
  destruct (check_exclusives _ _ _ _ _ _) eqn:Ex; [done|]. intros Hs. split_and!.
  - intros i a Ha Hch. rewrite (level_given_for i a Ha), length_fmap by (by apply (level_chosen i a Ha)). cbn zeta.
    pose proof (check_args_none _ _ _ _ _ _ Ea i a Ha) as Hc. cbn [Nat.add] in Hc. unfold check_arg in Hc.
    assert (Hn : occurrences lv' !!! i = length (entries l i)).
    { rewrite Eo. apply list_lookup_total_correct, (level_counts _ _ _ _ _ _ _ Hlv). by apply lookup_lt_Some in Ha. }
    rewrite Hn, Er in Hc. destruct (positional a && is_list a && _ && _) eqn:E1; [done|].
    destruct (if bool_decide (shape a = CountShape) && negb (length (entries l i) =? 0) then _ else None) eqn:E2; [done|]. split_and!.
    + intros H1 H2 H3. rewrite H1, H2 in E1. apply Nat.eqb_neq in H3. rewrite H3 in E1. cbn in E1. by apply Nat.ltb_ge in E1.
    + intros H1 H2. apply Nat.eqb_neq in H2. rewrite bool_decide_true, H2 in E2 by done. done.
    + intros H1 H2 H3 H4. rewrite H1, H3, H4 in Hc. cbn in Hc. destruct sub; cbn in Hc; [rewrite H2 in Hc by done; cbn in Hc|];
        by destruct (positional a && is_list a).
  - intros x ex Hx. apply check_exclusives_none in Ex. rewrite Er in Ex. by apply (Forall_lookup_1 _ _ _ _ Ex Hx).
  - intros s Es H1 H2 H3. rewrite Es, H1, Er, H2 in Hs. unfold given_subcommand in Hs. rewrite Er, H3 in Hs. by vm_compute in Hs.
Qed.
End Level.

(** ** A run *)

Lemma starts_with_more (s q z : bytes) : starts_with s (q ++ z) = true → starts_with s q = true.
Proof.
  rewrite !starts_with_iff. intros E. apply (f_equal (take (length q))) in E.
  rewrite length_app, take_take, Nat.min_l, take_app_length in E by lia. done.
Qed.

Lemma starts_with_self (q z : bytes) : starts_with (q ++ z) q = true.
Proof. apply starts_with_iff. by rewrite take_app_length. Qed.

Lemma starts_with_cancel (q s z : bytes) : starts_with (q ++ s) (q ++ z) = starts_with s z.
Proof.
  apply eq_true_iff_eq. rewrite !starts_with_iff, length_app, take_app_add. split; [by intros ?%app_inv_head|by intros ->].
Qed.

(** What was given elsewhere does not matter. *)
Lemma given_for_elsewhere gs' gs q z :
  Forall (λ g, starts_with (given_path g) q = false) gs' → given_for (gs' ++ gs) (q ++ z) = given_for gs (q ++ z).
Proof.
  intros Hg. rewrite given_for_app, given_for_none; [done|]. eapply Forall_impl; [apply Hg|]. cbn. intros g Hf E.
  by rewrite E, starts_with_self in Hf.
Qed.

Lemma args_elsewhere c p gs gs' r :
  Forall (λ g, starts_with (given_path g) p = false) gs' → args_collected c p gs r → args_collected c p (gs' ++ gs) r.
Proof. intros Hg Ha i a E. rewrite given_for_elsewhere by done. by apply (Ha i). Qed.

Lemma complete_elsewhere c p gs gs' r sub :
  Forall (λ g, starts_with (given_path g) p = false) gs' → complete c p gs r sub → complete c p (gs' ++ gs) r sub.
Proof.
  intros Hg (H1 & H2 & H3). split_and!; [|done..]. intros i a Ea. rewrite given_for_elsewhere by done. by apply (H1 i).
Qed.

Lemma collects_more ended c p gs gs' r :
  Forall (λ g, starts_with (given_path g) p = false) gs' → collects ended c p gs r → collects ended c p (gs' ++ gs) r.
Proof.
  intros Hg Hc. induction Hc as [c p gs r Ha Hd Hn|c p gs r s sub m r' Ha Hd Hs Hf Hm Hi Hsub Hin IH].
  - apply collects_own; [| |done].
    + by apply args_elsewhere.
    + intros E. by apply complete_elsewhere, Hd.
  - eapply collects_sub; [| |done..|].
    + by apply args_elsewhere.
    + intros E. by apply complete_elsewhere, Hd.
    + apply IH. eapply Forall_impl; [apply Hg|]. cbn. intros g Hx. apply not_true_iff_false.
      intros Hy%starts_with_more. congruence.
Qed.

Lemma keyed_own c : keyed c = true → own_keyed c = true.
Proof. destruct c. cbn. by intros [? ?]%andb_true_iff. Qed.

Lemma keyed_sub c s i sub : subcommands c = Some s → commands s !! i = Some sub → keyed c = true → keyed sub = true.
Proof.
  destruct c as [ty g a ps pc r subs x hu sp ao t pp]. cbn [subcommands]. intros -> Hs [_ H]%andb_true_iff.
  destruct s as [k pa o gr mv ns ds hs cs]. cbn [commands sub_keyed] in *. rewrite forallb_forall in H.
  by apply H, list_elem_of_In, list_elem_of_lookup_2 with i.
Qed.

Lemma log_starts c p l : Forall (λ g, starts_with (given_path g) p = true) (log_given c p <$> l).
Proof. apply Forall_fmap, Forall_true. intros e. apply starts_with_self. Qed.

(** A level that ends on its own, [ended] or checked. *)
Lemma level_collects argv c p g0 lv rd ended :
  own_keyed c = true → level_ok c p g0 lv rd → (ended = false → check argv c lv rd false = None) →
  ∃ gs, given rd = g0 ++ gs ∧ Forall (λ g, starts_with (given_path g) p = true) gs ∧ collects ended c p gs (root lv).
Proof.
  intros Hk (H & l & Hlv) Hc. exists (log_given c p <$> l). split; [apply (level_given _ _ _ _ _ _ _ Hlv)|].
  split; [apply log_starts|]. rewrite <- (app_nil_r (log_given c p <$> l)).
  assert (Hag : agree c (root lv) (root lv)) by done.
  apply collects_own.
  - apply (level_args_collected c p g0 lv rd H l Hk Hlv); [done|by constructor].
  - intros E. apply (level_complete c p g0 lv rd H l Hk Hlv (root lv) [] Hag) with argv lv rd; try done. by apply Hc.
  - apply (tree_sub _ _ _ _ (level_tree _ _ _ _ _ _ _ Hlv)).
Qed.

(** A level whose subcommand was read. *)
Lemma sub_collects argv c p g0 lv rd rd1 rd2 s sub alternative index w gs' inner :
  own_keyed c = true → level_ok c p g0 lv rd → subcommands c = Some s → commands s !! alternative = Some sub →
  given rd1 = given rd ++ [mkGiven (p ++ sub_path s) w] → given rd2 = given rd1 ++ gs' →
  Forall (λ g, starts_with (given_path g) (p ++ sub_path s ++ lit ".") = true) gs' →
  collects (stopped rd2) sub (p ++ sub_path s ++ lit ".") gs' inner →
  let lv1 := with_cursor (with_root lv (make_node (root lv) (sub_keys s) Variant (sub_variant alternative index inner))) index in
  (stopped rd2 = false → check argv c lv1 rd2 true = None) →
  ∃ gs, given rd2 = g0 ++ gs ∧ Forall (λ g, starts_with (given_path g) p = true) gs ∧ collects (stopped rd2) c p gs (root lv1).
Proof.
  intros Hk (H & l & Hlv) Hs Hsub Hg1 Hg2 Hp Hin lv1 Hc. pose proof (level_tree _ _ _ _ _ _ _ Hlv) as Ht.
  destruct (sub_apart c Hk s Hs) as (_ & Hap & Hex). pose proof (tree_open_sub _ _ _ _ Ht s Hs) as Ho.
  set (word := mkGiven (p ++ sub_path s) w) in *. exists ((log_given c p <$> l) ++ ([word] ++ gs')).
  assert (Hag : agree c (root lv) (root lv1)).
  { split; [intros i a Ha|intros x ex Hx]; apply find_make_apart; try done; [by destruct (Hap i a Ha)|by apply (Hex x)]. }
  assert (Hmore : ∀ i a, args c !! i = Some a → Forall (λ g, given_path g ≠ p ++ path a) ([word] ++ gs')).
  { intros i a Ha. destruct (Hap i a Ha) as (_ & H2 & H3). constructor; [cbn; by intros ?%app_inv_head|].
    eapply Forall_impl; [apply Hp|]. cbn beta. intros g Hx E. rewrite E, starts_with_cancel in Hx. congruence. }
  split; [rewrite Hg2, Hg1, (level_given _ _ _ _ _ _ _ Hlv), <- !app_assoc; done|]. split.
  { apply Forall_app. split; [apply log_starts|]. constructor; [apply starts_with_self|].
    eapply Forall_impl; [apply Hp|]. intros g. apply starts_with_more. }
  pose proof (find_make (root lv) (sub_keys s) Variant (sub_variant alternative index inner) Ho) as Hf.
  rewrite (tree_sub _ _ _ _ Ht s Hs) in Hf. eapply collects_sub.
  - by apply (level_args_collected c p g0 lv rd H l Hk Hlv).
  - intros E. apply (level_complete c p g0 lv rd H l Hk Hlv (root lv1) _ Hag Hmore) with argv lv1 rd2; try done. by apply Hc.
  - done.
  - exact Hf.
  - done.
  - done.
  - exact Hsub.
  - rewrite (app_assoc (log_given c p <$> l)). apply collects_more; [|done]. apply Forall_app. split; [|constructor; [|constructor]].
    + apply Forall_fmap, Forall_forall. intros e He. pose proof (level_known c p g0 lv rd H l Hlv) as Hkn.
      rewrite Forall_forall in Hkn. destruct (Hkn e He) as [a Ha]. cbn. rewrite Ha. cbn. rewrite starts_with_cancel.
      by destruct (Hap _ a Ha) as (_ & _ & ?).
    + cbn. rewrite starts_with_cancel. apply not_true_iff_false. intros Hx%starts_with_length. rewrite length_app in Hx. cbn in Hx. lia.
Qed.

Lemma run_collects argv fuel c lv rd base lv' rd' p g0 :
  keyed c = true → level_ok c p g0 lv rd → run argv fuel c lv rd base = Some (Ok (lv', rd')) →
  ∃ gs, given rd' = g0 ++ gs ∧ Forall (λ g, starts_with (given_path g) p = true) gs ∧ collects (stopped rd') c p gs (root lv').
Proof.
  revert c lv rd base lv' rd' p g0. induction fuel as [|fuel IH]; intros c lv rd base lv' rd' p g0 Hk Hl; [done|]. cbn [run].
  pose proof (keyed_own c Hk) as Ho. pose proof (read_results_level argv c p g0 Ho lv rd base
    (parse (table c) (drop base (active rd)) (parse_options c)) Hl) as Hr.
  destruct (read_results _ _ _ _ _ _) as [lv1 rd1|lv1 rd1|lv1 rd1 base1|lv1 rd1 alt index next|e]; cbn [round_level] in Hr.
  - destruct (check argv c lv1 rd1 false) eqn:E; [done|]. intros [= <- <-]. by apply (level_collects argv).
  - intros [= <- <-]. destruct Hr as [Hr Hst]. apply (level_collects argv); [done..|]. by rewrite Hst.
  - by apply IH.
  - destruct Hr as (Hr & s & Hs & Halt). destruct (sub_apart c Ho s Hs) as ([_ Hlen] & _). rewrite Hlen in Halt.
    destruct (lookup_lt_is_Some_2 _ _ Halt) as [sub Hsub]. rewrite Hs. cbn [mbind option_bind]. rewrite Hsub. cbn [fmap option_fmap option_map].
    assert (Ep : prefix lv1 = p) by (destruct Hr as (H & l & Hlv); apply (level_prefix _ _ _ _ _ _ _ Hlv)). rewrite Ep.
    set (rd2 := with_given _ _). destruct (run argv fuel sub _ rd2 next) as [[[inner rd3]|]|] eqn:Erun; [|done..].
    pose proof (keyed_sub c s alt sub Hs Hsub Hk) as Hks.
    apply (IH _ _ _ _ _ _ (p ++ sub_path s ++ lit ".") (given rd2)) in Erun as (gs' & Hg & Hp & Hc); [|done|].
    2: { apply level_new; [by apply keyed_own|done]. }
    intros Hfin. assert (Efin : rd' = rd3 ∧ lv' = with_cursor (with_root lv1 (make_node (root lv1) (sub_keys s) Variant
      (sub_variant alt index (root inner)))) index ∧ (stopped rd3 = false → check argv c lv' rd3 true = None)).
    { destruct (stopped rd3); [by injection Hfin as <- <-|]. destruct (check _ _ _ _ _) eqn:E; [done|]. injection Hfin as <- <-. done. }
    destruct Efin as (-> & -> & Hchk).
    by apply (sub_collects argv c p g0 lv1 rd1 rd2 rd3 s sub alt index [active rd1 !!! index] gs' (root inner)).
  - done.
Qed.
End ReadOk.

(** C21. A read that succeeds leaves in the tree what it reports as given: the node
    of an argument has the values of all its occurrences, in order (a count
    their number, a value the last), of an exclusive field one alternative alone
    was given, each value is one its field takes, nothing required is missing
    unless an argument ended the parse, and the same holds of the subcommand
    named. *)
Theorem read_collects `{D : Doubles} (argv : list bytes) (fuel : nat) (c : Command) (r : Node) (rd : Reading) :
  keyed c = true → read argv fuel c = Some (Ok (inl (r, rd))) → collects (stopped rd) c [] (given rd) r.
Proof.
  intros Hk. unfold read. destruct (run argv fuel c _ _ 0) as [[[lv rd1]|]|] eqn:E; [|done..].
  destruct (help rd1); [done|]. intros [= <- <-].
  apply (run_collects _ _ _ _ _ _ _ _ [] []) in E as (gs & -> & _ & Hc); [done|done|].
  apply level_new; [by apply keyed_own|done].
Qed.
