(* ===== verification/CliBuilt.v ===== *)
(** What [build_command] (CliCommand.v) makes of a declaration that passes its
    check (CliDeclare.v): the arguments are the fields, the options of the
    table are their names, and no alias stands for another, so that a read ends
    (CliReadEnd.v).

    [level_fields] are the fields of one command's arguments, through its groups
    and exclusive fields.  The builder and the check both go over them, and the
    lemmas tie each to the fields rather than to the other. *)

From Stdlib Require Import Strings.Byte ZArith Lia Bool.
From stdpp Require Import prelude strings list.
From S2P Require Import Prelude Naming Charconv CliTable CliParse CliNumber CliDeclare CliCommand CliNode CliSuggest CliRead CliReadMarks CliReadEnd.
Local Open Scope kota_scope.
Local Open Scope nat_scope.

Section Built.
Context `{D : Doubles}.

(** ** Induction on declarations *)

Definition alternatives_of (t : TypeInfo) : list TypeInfo :=
  match t with VariantInfo _ _ _ alternatives => alternatives | _ => [] end.

Definition entry_types (f : field_info) : list TypeInfo := entry_type <$> default [] (field_commands f).

Section Induction.
Variables (P : TypeInfo → Prop) (Q : field_info → Prop).
Hypothesis Hother : ∀ t, is_structure t = false → P t.
Hypothesis Hstruct : ∀ n d fs, Forall Q fs → P (StructInfo n d fs).
Hypothesis Hfield : ∀ f,
  P (strip_optional (field_type f)) → Forall P (alternatives_of (strip_optional (field_type f))) →
  Forall P (entry_types f) → Q f.

Definition reached (t : TypeInfo) : Prop :=
  P t ∧ P (strip_optional t) ∧ Forall P (alternatives_of (strip_optional t)).

Lemma declaration_reached : ∀ t, reached t.
Proof.
  assert (fields : ∀ f, Forall (λ e, reached (entry_type e)) (default [] (field_commands f)) → reached (field_type f) → Q f).
  { intros f He (_ & H2 & H3). apply Hfield; [done..|]. apply Forall_fmap. eapply Forall_impl; [apply He|]. by intros e (? & _). }
  fix types 1. intros [n k|n ms|n s e|n es|n i|n tg an alts|n d fs].
  1-4: split_and!; [by apply Hother..|constructor].
  - destruct (types i) as (H1 & H2 & H3). split_and!; [by apply Hother|done|].
    by destruct i; cbn in *; try constructor.
  - assert (H : Forall P alts) by (induction alts as [|a alts IH]; constructor; [apply (types a)|apply IH]).
    split_and!; [by apply Hother..|done].
  - assert (H : Forall Q fs).
    { induction fs as [|[fn dn ds pr ty ex cs mi ma ch] fs IH]; constructor; [|apply IH].
      apply fields; [|apply types]. destruct cs as [cs|]; [|constructor].
      induction cs as [|[en ed eh et] cs IHc]; constructor; [apply (types et)|apply IHc]. }
    split_and!; [by apply Hstruct..|constructor].
Qed.

Lemma declaration_ind t : P t.
Proof. apply (declaration_reached t). Qed.
End Induction.

(** ** The fields of a command's arguments *)

Fixpoint level_fields (t : TypeInfo) : list field_info :=
  match t with
  | StructInfo _ _ fields => flat_map level_field fields
  | _ => []
  end
with level_field (f : field_info) : list field_info :=
  match f with
  | mkField _ _ _ _ field_type _ _ _ _ _ =>
      match use_kind (use_of f) with
      | UseGroup => level_fields (strip_optional field_type)
      | UseExclusive =>
          match strip_optional field_type with
          | VariantInfo _ _ _ alternatives => flat_map level_fields alternatives
          | _ => []
          end
      | UseArg => [f]
      | _ => []
      end
  end.

(** The builder adds the fields one by one; the rest it does to the command
    does not change what is said of them. *)
Section Adding.
Variable R : list field_info → Building → Prop.
Hypothesis R_groups : ∀ l b gs, R l b → R l (set_groups b gs).
Hypothesis R_exclusives : ∀ l b xs, R l b → R l (set_exclusives b xs).
Hypothesis R_current : ∀ l b g, R l b → R l (set_current b g).
Hypothesis R_subcommands : ∀ l b s, R l b → R l (set_subcommands b s).
Hypothesis R_arg : ∀ l b a, R l b → arg_use a = use_of (arg_field a) → use_kind (arg_use a) = UseArg →
  R (l ++ [arg_field a]) (add_arg b a).

Lemma add_struct_adds t g k p l b : R l b → R (l ++ level_fields t) (add_struct t g k p b).
Proof.
  revert g k p l b.
  apply (declaration_ind (λ t, ∀ g k p l b, R l b → R (l ++ level_fields t) (add_struct t g k p b))
    (λ f, ∀ g k p l b, R l b → R (l ++ level_field f) (add_field f g k p b))).
  - intros [] Hs g k p l b Hb; try done; cbn; by rewrite app_nil_r.
  - intros n d fs Hf g k p l b Hb. cbn [level_fields add_struct]. revert l b Hb.
    induction Hf as [|f fs Hf Hfs IH]; intros l b Hb; cbn; [by rewrite app_nil_r|].
    rewrite app_assoc. by apply IH, Hf.
  - intros [fn dn ds pr ty ex cs mi ma ch] Ht Ha _ g k p l b Hb. cbn [level_field add_field field_type] in *.
    set (use := use_of _). destruct (use_kind use) eqn:Ek.
    + match goal with |- R _ (add_arg b ?a) => by apply (R_arg l b a) end.
    + by apply Ht, R_groups.
    + rewrite app_nil_r. destruct (strip_optional ty); try done. by apply R_subcommands.
    + destruct (strip_optional ty) as [| | | | |n tg an alts|]; try (by rewrite app_nil_r). cbn [alternatives_of] in Ha.
      set (b1 := set_exclusives b _). assert (Hb1 : R l b1) by (by apply R_exclusives). clearbody b1. clear Hb.
      clear Ht. generalize 0 as i. revert l b1 Hb1. induction Ha as [|a alts Ha Halts IH]; intros l b1 Hb1 i; [by rewrite app_nil_r|].
      cbn [flat_map foldl]. rewrite app_assoc. apply IH, R_current, Ha, R_current, R_exclusives, R_groups. done.
    + rewrite app_nil_r. destruct cs; [by apply R_subcommands|done].
Qed.
End Adding.

(** ** The command being built *)

(** A field given by name. *)
Definition by_name (f : field_info) : bool :=
  let spec := use_spec (use_of f) in negb (spec_rest spec) && negb (spec_positional spec).

(** A name of the option of field [i]. *)
Definition named_by (l : list field_info) (i : nat) (f : NameForm) : Prop :=
  ∃ fld, l !! i = Some fld ∧ by_name fld = true ∧ f ∈ name_forms (use_of fld) (declared_name fld).

Definition option_ok (l : list field_info) (b : Building) (j : nat) (o : Option) : Prop :=
  id o = S j ∧ alias_id o = 0 ∧
  ∀ i, b_arg_of b !! S j = Some (ArgAt i) →
    ∃ f, named_by l i f ∧ prefixed_name o = form_text f ∧ CliTable.kind o = form_kind f ∧
      prefixes o = prefixes_of (form_text f).

Record built (l : list field_info) (b : Building) : Prop := mkBuilt {
  built_fields : arg_field <$> b_args b = l;
  built_uses : Forall (λ a, arg_use a = use_of (arg_field a)) (b_args b);
  built_targets : length (b_arg_of b) = S (length (b_options b));
  built_named : Forall (λ x, ∀ i, x = ArgAt i → ∃ f, named_by l i f) (b_arg_of b);
  built_options : ∀ j o, b_options b !! j = Some o → option_ok l b j o;
  built_equals : Forall (λ x, named_by l (snd x) (fst x)) (equals_forms b);
}.

Lemma built_start : built [] start_building.
Proof.
  split; [done|constructor|done| | |constructor]; [by repeat constructor|]. intros [|[|j]] o; [intros [= <-]..|done]; (split; [done|]); split; try done;
    by intros i [= ].
Qed.

Lemma named_more l x i f : named_by l i f → named_by (l ++ [x]) i f.
Proof. intros (fld & Hl & Hf). exists fld. split; [by apply lookup_app_l_Some|done]. Qed.

Lemma built_more l x b : built l b →
  Forall (λ a, arg_use a = use_of (arg_field a)) (b_args b) →
  ∀ l', arg_field <$> l' = l ++ [x] → Forall (λ a, arg_use a = use_of (arg_field a)) l' → built (l ++ [x]) (set_args b l').
Proof.
  intros [H1 H2 H3 H6 H4 H5] _ l' Hl Hu. split; [done|done|done| | |].
  - eapply Forall_impl; [apply H6|]. intros y Hy i Hi. destruct (Hy i Hi) as [f Hf]. exists f. by apply named_more.
  - intros j o Ho. destruct (H4 j o Ho) as (E1 & E2 & E3). split_and!; [done..|]. intros i Hi.
    destruct (E3 i Hi) as (f & Hf & ?). exists f. split; [by apply named_more|done].
  - eapply Forall_impl; [apply H5|]. intros [f i]. apply named_more.
Qed.

(** The texts of an argument do not matter. *)
Lemma built_alter l b i g :
  (∀ a, arg_use (g a) = arg_use a ∧ arg_field (g a) = arg_field a) → built l b → built l (set_args b (alter g i (b_args b))).
Proof.
  intros Hg [H1 H2 H3 H6 H4 H5]. split; [| |done..]; cbn [b_args set_args].
  - rewrite <- H1. apply list_eq. intros j. rewrite !list_lookup_fmap. destruct (decide (i = j)) as [<-|Hne].
    + rewrite list_lookup_alter_eq. destruct (b_args b !! i); [|done]. cbn. by rewrite (proj2 (Hg a)).
    + by rewrite list_lookup_alter_ne.
  - apply Forall_alter; [done|]. intros a Ha Hu. destruct (Hg a) as [-> ->]. done.
Qed.

Lemma built_option l b name kind target :
  built l b →
  (∀ i, target = ArgAt i → ∃ f, named_by l i f ∧ name = form_text f ∧ kind = form_kind f) →
  built l (add_option b name kind target).
Proof.
  intros [H1 H2 H3 H6 H4 H5] Ht. split; cbn [b_args b_arg_of b_options equals_forms add_option]; [done|done| | | |done].
  - rewrite !length_app. cbn. lia.
  - apply Forall_app. split; [done|]. apply Forall_singleton. intros i Hi. destruct (Ht i Hi) as (f & Hf & _). by exists f.
  - intros j o [Ho|[Hj Ho]]%lookup_app_Some.
    + destruct (H4 j o Ho) as (E1 & E2 & E3). split_and!; [done..|]. intros i. cbn [b_arg_of add_option].
      apply lookup_lt_Some in Ho. rewrite lookup_app_l by lia. apply E3.
    + apply list_lookup_singleton_Some in Ho as [Hj0 <-].
      assert (j = length (b_options b)) as -> by lia. split_and!; [cbn; lia|done|]. cbn [b_arg_of add_option].
      intros i. rewrite lookup_app_r, H3, Nat.sub_diag by lia. intros [= Hi]. destruct (Ht i Hi) as (f & Hf & -> & ->).
      by exists f.
Qed.

Lemma built_form l b i f : built l b → named_by l i f → built l (name_form i b f).
Proof.
  intros Hb Hf. unfold name_form. destruct (form_role f).
  - apply built_option; [done|]. intros ? [= ->]. by exists f.
  - destruct Hb as [H1 H2 H3 H6 H4 H5]. split; try done. apply Forall_app. split; [done|]. by apply Forall_singleton.
  - destruct Hb as [H1 H2 H3 H6 H4 H5]. split; try done. apply Forall_app. split; [done|]. by apply Forall_singleton.
Qed.

Lemma name_texts_same a fs : arg_use (name_texts a fs) = arg_use a ∧ arg_field (name_texts a fs) = arg_field a.
Proof. unfold name_texts. destruct fs; [done|]. cbn zeta. by repeat case_match. Qed.

Lemma built_same_args l b b' :
  b_args b' = b_args b → b_arg_of b' = b_arg_of b → b_options b' = b_options b → equals_forms b' = equals_forms b →
  built l b → built l b'.
Proof.
  intros E1 E2 E3 E4 [H1 H2 H3 H6 H4 H5]. split; [by rewrite E1|by rewrite E1|by rewrite E2, E3|by rewrite E2| |by rewrite E4].
  intros j o. rewrite E3. intros Ho. destruct (H4 j o Ho) as (? & ? & Hx). split_and!; [done..|]. by rewrite E2.
Qed.

Lemma built_add l b a :
  built l b → arg_use a = use_of (arg_field a) → use_kind (arg_use a) = UseArg → built (l ++ [arg_field a]) (add_arg b a).
Proof.
  intros Hb Hu Hk. unfold add_arg. set (b1 := note_first b a (length (b_args b))).
  assert (Hb1 : built l b1 ∧ b_args b1 = b_args b).
  { unfold b1, note_first. repeat case_match; try done. split; [|done]. by apply built_same_args with b. }
  destruct Hb1 as [Hb1 Ea]. clearbody b1. pose proof (built_fields _ _ Hb1) as Hl. pose proof (built_uses _ _ Hb1) as Hus.
  assert (Hadd : ∀ x, arg_use x = arg_use a → arg_field x = arg_field a → built (l ++ [arg_field a]) (set_args b1 (b_args b1 ++ [x]))).
  { intros x E1 E2. apply built_more; [done..| |].
    - by rewrite fmap_app, Hl, <- E2.
    - apply Forall_app. split; [done|]. apply Forall_singleton. by rewrite E1, E2. }
  case_match eqn:Er; [by eapply built_same_args, Hadd|]. case_match eqn:Ep; [|by eapply built_same_args, Hadd].
  unfold name_arg. cbn [b_args set_args]. rewrite <- Ea, lookup_app_r, Nat.sub_diag by done. cbn [lookup list_lookup].
  apply built_alter; [intros; apply name_texts_same|].
  assert (Hn : Forall (named_by (l ++ [arg_field a]) (length (b_args b1))) (name_forms (arg_use a) (declared_name (arg_field a)))).
  { apply Forall_forall. intros f Hf. exists (arg_field a). unfold by_name. rewrite <- Hu. fold (arg_spec a). unfold positional in Ep. rewrite Er, Ep. split; [|done].
    rewrite <- Hl, lookup_app_r, length_fmap, Nat.sub_diag; [done|by rewrite length_fmap]. }
  revert Hn. generalize (name_forms (arg_use a) (declared_name (arg_field a))). intros fs Hn.
  specialize (Hadd a eq_refl eq_refl). revert Hadd. generalize (set_args b1 (b_args b1 ++ [a])).
  induction Hn as [|f fs Hf Hfs IH]; intros b2 Hb2; [done|]. cbn [foldl]. by apply IH, built_form.
Qed.

Lemma add_struct_built t g k p l b : built l b → built (l ++ level_fields t) (add_struct t g k p b).
Proof.
  intros Hb. apply (add_struct_adds built); [..|done]; try (intros * H; by eapply built_same_args, H).
  apply built_add.
Qed.

(** The command built: its arguments are the fields, its options their names. *)
Record command_ok (l : list field_info) (c : Command) : Prop := {
  command_fields : arg_field <$> args c = l;
  command_uses : Forall (λ a, arg_use a = use_of (arg_field a)) (args c);
  command_options : ∀ o i, o ∈ search_range (table c) → arg_of c !! id (unaliased_option (table c) o) = Some (ArgAt i) →
    ∃ f, named_by l i f ∧ prefixed_name o = form_text f ∧ CliTable.kind o = form_kind f ∧
      prefixes o = prefixes_of (form_text f);
  command_named : Forall (λ a, ∃ i, l !! i = Some (arg_field a) ∧ by_name (arg_field a) = true) (named_args c);
  command_plain : grouped_short_options (parse_options c) = false ∧ ignore_case (table c) = false;
}.

Lemma built_equals_forms l b : built l b → built l (name_equals_forms b).
Proof.
  intros Hb. pose proof (built_equals _ _ Hb) as He. unfold name_equals_forms. revert b Hb He.
  intros b Hb. generalize (equals_forms b). intros fs He. revert b Hb.
  induction He as [|[f i] fs Hf Hfs IH]; intros b Hb; [done|]. cbn [foldl]. apply IH. unfold name_equals_form. case_match.
  - apply built_alter; [|done]. intros a. by case_match.
  - apply built_option; [done|]. intros j [= <-]. by exists f.
Qed.

Lemma finish_command_ok l t b : built l b → command_ok l (finish t b).
Proof.
  intros Hb%built_equals_forms. unfold finish. set (b1 := name_equals_forms b) in *.
  assert (Hh : ∀ b1 names l0, built l b1 →
    built l (fst (foldl (λ '(b, l) name, if existsb (λ s, takes s name) (b_spellings b) then (b, l)
      else (add_option b name CliTable.Flag HelpArg, l ++ [name])) (b1, l0) names))).
  { intros b2 names. revert b2. induction names as [|n names IH]; intros b2 l0 H2; [done|]. cbn [foldl].
    case_match; apply IH; [done|]. by apply built_option. }
  specialize (Hh b1 [lit "-h"; lit "--help"] [] Hb). set (b2 := fst _) in *. clearbody b2.
  destruct Hh as [H1 H2 H3 H6 H4 H5].
  split; cbn [args arg_of table parse_options grouped_short_options ignore_case]; [done|done| | |].
  - unfold search_range. cbn [search_includes_input option_infos]. unfold new_table.
    destruct (scan_infos _ _ _) as [[inp unk] first]. cbn [option_infos drop ignore_case].
    intros o i Hin Ha. rewrite drop_0 in Hin. apply list_elem_of_lookup in Hin as [j Hj]. destruct (H4 j o Hj) as (E1 & E2 & E3).
    apply E3. rewrite <- Ha. f_equal. unfold unaliased_option, unaliased_from, alias. cbn [option_infos]. rewrite E2. cbn. by rewrite E1.
  - apply Forall_forall. intros a (x & Hx & Ha)%list_elem_of_omap. destruct x as [| |i]; try done. cbn [args] in Ha.
    rewrite Forall_forall in H6. destruct (H6 _ Hx i eq_refl) as (f & fld & Hl & Hn & _).
    rewrite <- H1, list_lookup_fmap, Ha in Hl. injection Hl as <-. exists i. by rewrite <- H1, list_lookup_fmap, Ha.
  - unfold new_table. by destruct (scan_infos _ _ _) as [[inp unk] first].
Qed.

Lemma build_command_ok t : command_ok (level_fields t) (build_command t).
Proof. apply finish_command_ok. apply (add_struct_built t None [] [] [] start_building), built_start. Qed.

(** ** What the check notes *)

Definition grows (st st' : Checking) : Prop := alias_names st ⊆ alias_names st' ∧ forwards st ⊆ forwards st'.

Lemma check_grows_refl st : grows st st.
Proof. done. Qed.
Lemma check_grows_trans a b c : grows a b → grows b c → grows a c.
Proof. intros [H1 H2] [H3 H4]. split; by etrans. Qed.
Local Hint Resolve check_grows_refl : core.

(** The names of an alias, and what it stands for, are noted. *)
Definition noted (st : Checking) (f : field_info) : Prop :=
  by_name f = true → use_shape (use_of f) = AliasShape →
  (∀ fm, fm ∈ name_forms (use_of f) (declared_name f) → form_text fm ∈ alias_names st) ∧
  spec_forward (use_spec (use_of f)) ⊆ forwards st.

Lemma noted_grows st st' f : grows st st' → noted st f → noted st' f.
Proof. intros [H1 H2] Hn Hb Hs. destruct (Hn Hb Hs) as [Ha Hf]. split; [|by etrans]. intros fm Hm. by apply H1, Ha. Qed.

Lemma check_forms_note is_alias fs st st' :
  try_fold (check_form is_alias) fs st = Ok st' →
  grows st st' ∧ (is_alias = true → ∀ fm, fm ∈ fs → form_text fm ∈ alias_names st').
Proof.
  revert st. induction fs as [|f fs IH]; intros st; cbn [try_fold].
  { intros [= <-]. split; [done|]. by intros _ fm ?%elem_of_nil. }
  unfold check_form at 1. destruct (check_name _); [|done]. cbn [ebind].
  match goal with |- try_fold _ _ ?s = _ → _ => set (st1 := s) end. intros [Hg Hn]%IH.
  split.
  - eapply check_grows_trans, Hg. split; [|done]. cbn. destruct is_alias; set_solver.
  - intros -> fm [->|Hin]%elem_of_cons; [|by apply Hn]. apply Hg. cbn. unfold form_text. set_solver.
Qed.

Lemma check_arg_notes st f st' : check_arg_use st f (use_of f) = Ok st' → grows st st' ∧ noted st' f.
Proof.
  unfold check_arg_use, noted, by_name. case_match; [repeat case_match; try done; intros [= <-]; by split|].
  case_match; [intros [= <-]; by split|]. case_match; [done|].
  destruct (try_fold _ _ _) as [st1|] eqn:E; [|done]. cbn [ebind]. intros [= <-].
  apply check_forms_note in E as [Hg Hn]. case_bool_decide as Ea.
  - split; [eapply check_grows_trans; [apply Hg|]; split; [done|cbn; set_solver]|]. intros _ _. split; [by apply Hn|]. cbn. set_solver.
  - split; [done|]. by intros _ ?.
Qed.

Lemma claim_grows st st' : claim_subcommands st = Ok st' → grows st st'.
Proof. unfold claim_subcommands. case_match; [done|]. by intros [= <-]. Qed.

Lemma check_struct_notes t g c st st' :
  check_struct t g c st = Ok st' → grows st st' ∧ Forall (noted st') (level_fields t).
Proof.
  revert g c st st'.
  apply (declaration_ind (λ t, ∀ g c st st', check_struct t g c st = Ok st' → grows st st' ∧ Forall (noted st') (level_fields t))
    (λ f, ∀ g c st st', check_field f g c st = Ok st' → grows st st' ∧ Forall (noted st') (level_field f))).
  - intros [] Hs g c st st'; try done; intros [= <-]; by split.
  - intros n d fs Hf g c st st'. cbn [check_struct level_fields]. revert st.
    induction Hf as [|f fs Hf Hfs IH]; intros st; cbn [try_fold flat_map]; [intros [= <-]; by split|].
    destruct (check_field f g c st) as [st1|] eqn:E; [|done]. cbn [ebind]. intros [Hg Hl]%IH.
    apply Hf in E as [Hg1 Hl1]. split; [by eapply check_grows_trans|]. apply Forall_app. split; [|done].
    eapply Forall_impl; [apply Hl1|]. intros x. by apply noted_grows.
  - intros [fn dn ds pr ty ex cs mi ma ch] Ht Ha _ g c st st'. cbn [check_field level_field field_type] in *.
    set (f := mkField fn dn ds pr ty ex cs mi ma ch). set (use := use_of f).
    case_match; [done|]. case_match; [done|]. destruct (use_kind use) eqn:Ek.
    + destruct (check_arg_use st f use) as [st1|] eqn:E; [|done]. cbn [ebind]. intros [= <-].
      apply check_arg_notes in E as [Hg Hn]. split; [done|]. by apply Forall_singleton.
    + apply Ht.
    + destruct (strip_optional ty); try (intros [= <-]; by split).
      destruct (claim_subcommands st) as [st1|] eqn:E; [|done]. cbn [ebind]. case_match; [done|].
      destruct (try_fold _ _ _); [|done]. cbn [ebind]. case_match; [done|]. case_match; [done|]. intros [= <-].
      split; [|done]. apply claim_grows in E. done.
    + destruct (strip_optional ty) as [| | | | |n tg an alts|]; try (intros [= <-]; by split). cbn [alternatives_of] in Ha.
      case_match; [done|]. match goal with |- context [try_fold ?F alts (?S, 0)] => set (F0 := F); set (st1 := S) end.
      destruct (try_fold F0 alts (st1, 0)) as [[st2 n2]|] eqn:E; [|done]. cbn [ebind]. case_match; [done|]. intros [= <-].
      assert (Hx : grows st1 st2 ∧ Forall (noted st2) (flat_map level_fields alts)); [|by destruct Hx].
      clearbody st1. clear -E Ha. revert st1 E. generalize 0 as k. induction Ha as [|a alts Ha Halts IH]; intros k st1 E.
      { injection E as <- <-. by split. }
      cbn [try_fold F0] in E. unfold F0 at 1 in E. case_match; [done|].
      destruct (check_struct a _ true _) as [st3|] eqn:E3; [|done]. cbn [ebind] in E. apply IH in E as [Hg Hl].
      apply Ha in E3 as [Hg1 Hl1]. split; [by eapply check_grows_trans|]. cbn [flat_map]. apply Forall_app. split; [|done].
      eapply Forall_impl; [apply Hl1|]. intros x. by apply noted_grows.
    + destruct (claim_subcommands st) as [st1|] eqn:E; [|done]. cbn [ebind]. intros [= <-]. split; [|done].
      apply claim_grows in E. done.
Qed.

Lemma check_all_aliases st f n :
  check_all st = Ok () → f ∈ forwards st → n ∈ alias_names st → f ≠ n.
Proof.
  unfold check_all. case_match; [done|]. destruct (try_fold check_equals _ st) as [st1|] eqn:E; [|done]. cbn [ebind].
  assert (Hs : alias_names st1 = alias_names st ∧ forwards st1 = forwards st).
  { clear -E. revert E. generalize (checked_equals st). intros fs. revert st. induction fs as [|x fs IH]; intros st; cbn [try_fold];
      [by intros [= <-]|]. unfold check_equals at 1. case_match; [done|]. cbn [ebind]. intros [-> ->]%IH. done. }
  destruct Hs as [-> ->]. case_match eqn:Ex; [done|]. intros _ Hf Hn ->.
  apply not_true_iff_false in Ex. apply Ex. apply existsb_exists. exists n. split; [by apply list_elem_of_In|].
  apply existsb_exists. exists n. split; [by apply list_elem_of_In|]. unfold name_eqb. by rewrite Z.eqb_refl, bool_decide_true.
Qed.

(** An option named with a dash is named by its name alone. *)
Lemma names_dashed t o element :
  ignore_case t = false → CliTable.kind o = CliTable.Flag → prefixes o = prefixes_of (prefixed_name o) →
  starts_with (prefixed_name o) (lit "-") = true → names t o element = true → element = prefixed_name o.
Proof.
  intros Hi Hk Hp Hd. unfold names, match_opt, name. rewrite Hi, Hk, Hp, bool_decide_true by done. unfold prefixes_of. rewrite Hd.
  intros [Hn Hl]%andb_true_iff. cbn [negb orb] in Hl. apply Nat.eqb_eq in Hl. apply negb_true_iff, Nat.eqb_neq in Hn.
  assert (Hgo : ∀ q, starts_with (prefixed_name o) q = true →
    match_prefixes [q] (drop (length q) (prefixed_name o)) element false ≠ 0 →
    match_prefixes [q] (drop (length q) (prefixed_name o)) element false = length element → element = prefixed_name o).
  { intros q Hq. cbn [match_prefixes]. cbn zeta iota. destruct (_ && _) eqn:E; [|done]. intros _ Hlen.
    apply andb_true_iff in E as [E1%starts_with_iff E2%starts_with_iff]. apply starts_with_iff in Hq.
    rewrite <- (take_drop (length q) element), <- (take_drop (length q) (prefixed_name o)), E1, Hq. f_equal.
    rewrite <- E2. symmetry. apply take_ge. rewrite length_drop. lia. }
  destruct (starts_with (prefixed_name o) (lit "--")) eqn:E2; [by apply (Hgo (lit "--"))|by apply (Hgo (lit "-"))].
Qed.

(** ** Commands of checked declarations are settled *)

(** The names of an alias start with a dash. *)
Definition dashed_alias (f : field_info) : bool :=
  negb (bool_decide (use_shape (use_of f) = AliasShape)) ||
  forallb (λ fm, starts_with (form_text fm) (lit "-")) (name_forms (use_of f) (declared_name f)).

(** The structs of a set of subcommands are checked where they are added to it. *)
Definition entries_checked (f : field_info) : bool :=
  forallb (λ e, is_ok (check_declaration (entry_type e))) (default [] (field_commands f)).

(** A property of every field below a type, through groups and subcommands. *)
Fixpoint every_field (p : field_info → bool) (t : TypeInfo) : bool :=
  match t with
  | StructInfo _ _ fields => forallb (every_below p) fields
  | VariantInfo _ _ _ alternatives => forallb (every_field p) alternatives
  | OptionalInfo _ inner => every_field p inner
  | _ => true
  end
with every_below (p : field_info → bool) (f : field_info) : bool :=
  match f with
  | mkField _ _ _ _ field_type _ commands _ _ _ =>
      p f && every_field p field_type &&
      match commands with
      | Some entries => forallb (λ e, let 'mkEntry _ _ _ t := e in every_field p t) entries
      | None => true
      end
  end.

Definition declared_field (f : field_info) : bool := dashed_alias f && entries_checked f.

Lemma level_fields_every p t : every_field p t = true → Forall (λ f, p f = true) (level_fields t).
Proof.
  apply (declaration_ind (λ t, every_field p t = true → Forall (λ f, p f = true) (level_fields t))
    (λ f, every_below p f = true → Forall (λ f, p f = true) (level_field f))).
  - by intros [].
  - intros n d fs Hf. cbn [every_field level_fields]. induction Hf as [|f fs Hf Hfs IH]; [done|]. cbn [forallb flat_map].
    intros [H1 H2]%andb_true_iff. apply Forall_app. split; [by apply Hf|by apply IH].
  - intros [fn dn ds pr ty ex cs mi ma ch] Ht Ha _. cbn [every_below level_field field_type] in *.
    intros [[H1 H2]%andb_true_iff _]%andb_true_iff.
    assert (H3 : every_field p (strip_optional ty) = true) by (by destruct ty).
    case_match; [by apply Forall_singleton|by apply Ht|done| |done].
    destruct (strip_optional ty) as [| | | | |n tg an alts|]; try done. cbn [every_field alternatives_of] in *. clear Ht.
    induction Ha as [|a alts Ha Halts IH]; [done|]. cbn [forallb flat_map] in *. apply andb_true_iff in H3 as [H3 H4].
    apply Forall_app. split; [by apply Ha|by apply IH].
Qed.

Lemma build_own_settled t st :
  check_struct t false false new_checking = Ok st → check_all st = Ok () →
  Forall (λ f, dashed_alias f = true) (level_fields t) → own_settled (build_command t) = true.
Proof.
  intros [_ Hn]%check_struct_notes Hall Hd. destruct (build_command_ok t) as [H1 H2 H3 H4 [H5 H6]].
  rewrite Forall_forall in Hn. rewrite Forall_forall in Hd. rewrite Forall_forall in H2. rewrite Forall_forall in H4. unfold own_settled. rewrite H5. cbn [negb andb].
  apply forallb_forall. intros a Ha%list_elem_of_In.
  destruct (is_alias a) eqn:Ea; [|done]. cbn [negb orb]. apply forallb_forall. intros tok Htok%list_elem_of_In.
  apply negb_true_iff, not_true_iff_false. intros (o & Ho%list_elem_of_In & [He Hna]%andb_true_iff)%existsb_exists.
  destruct (H4 a Ha) as (i & Hi & Hb).
  assert (Hu : arg_use a = use_of (arg_field a)).
  { apply H2. apply list_elem_of_omap in Ha as ([| |j] & _ & Hj); try done. by apply list_elem_of_lookup_2 with j. }
  assert (Hf : tok ∈ forwards st).
  { apply (Hn (arg_field a)); [by apply list_elem_of_lookup_2 with i|done| |].
    - rewrite <- Hu. by apply bool_decide_eq_true in Ea.
    - by rewrite <- Hu. }
  unfold expands in He. destruct (arg_of _ !! _) as [[| |j]|] eqn:Et; try done.
  destruct (args (build_command t) !! j) as [a'|] eqn:Ea'; [|done].
  destruct (H3 o j Ho Et) as (fm & (fld & Hj & Hb' & Hfm) & Hp & Hk & Hpr).
  rewrite <- H1, list_lookup_fmap, Ea' in Hj. injection Hj as <-.
  assert (Hu' : arg_use a' = use_of (arg_field a')) by (by apply H2, list_elem_of_lookup_2 with j).
  assert (Hs' : use_shape (use_of (arg_field a')) = AliasShape).
  { rewrite <- Hu'. unfold is_alias, shape in He. by apply bool_decide_eq_true in He. }
  assert (Hin : arg_field a' ∈ level_fields t).
  { rewrite <- H1. apply list_elem_of_lookup_2 with j. by rewrite list_lookup_fmap, Ea'. }
  assert (Hfk : form_kind fm = CliTable.Flag).
  { unfold name_forms in Hfm. rewrite Hs' in Hfm. by apply list_elem_of_fmap in Hfm as (x & -> & _). }
  assert (Hdash : starts_with (form_text fm) (lit "-") = true).
  { specialize (Hd _ Hin). unfold dashed_alias in Hd. rewrite Hs', bool_decide_true in Hd by done. cbn [negb orb] in Hd.
    rewrite forallb_forall in Hd. by apply Hd, list_elem_of_In. }
  rewrite <- Hp in *. apply (check_all_aliases st tok (prefixed_name o)); [done..| |].
  - rewrite Hp. by apply (Hn (arg_field a')).
  - apply (names_dashed (table (build_command t)) o); try done. by rewrite Hk, Hfk.
Qed.

(** *** Subcommands *)

Definition subs_settled (b : Building) : Prop :=
  match b_subcommands b with Some s => sub_settled s = true | None => True end.

Lemma add_option_subcommands b n k t : b_subcommands (add_option b n k t) = b_subcommands b.
Proof. done. Qed.

Lemma add_arg_subcommands b a : b_subcommands (add_arg b a) = b_subcommands b.
Proof.
  assert (H1 : ∀ i, b_subcommands (note_first b a i) = b_subcommands b).
  { intros i. unfold note_first. by repeat case_match. }
  assert (H2 : ∀ i fs b, b_subcommands (foldl (name_form i) b fs) = b_subcommands b).
  { intros i fs. induction fs as [|f fs IH]; intros b0; [done|]. cbn [foldl]. rewrite IH. unfold name_form. by case_match. }
  unfold add_arg. case_match; [apply H1|]. case_match; [|apply H1]. unfold name_arg. case_match; [|apply H1].
  cbn [b_subcommands set_args]. rewrite H2. apply H1.
Qed.

Lemma finish_subcommands t b : subcommands (finish t b) = b_subcommands b.
Proof.
  unfold finish. cbn [subcommands]. set (b1 := name_equals_forms b). transitivity (b_subcommands b1).
  - cbn [foldl]. destruct (existsb _ (b_spellings b1)); cbn beta iota; by destruct (existsb _ _).
  - unfold b1, name_equals_forms. generalize (equals_forms b). intros fs. clear b1. revert b.
    induction fs as [|[f i] fs IH]; intros b; [done|]. cbn [foldl]. rewrite IH.
    unfold name_equals_form. by case_match.
Qed.

Lemma settled_eq c : settled c = own_settled c && match subcommands c with Some s => sub_settled s | None => true end.
Proof. by destruct c as [? ? ? ? ? ? [] ? ? ? ? ? ?]. Qed.

Lemma sub_settled_eq s : sub_settled s = forallb settled (commands s).
Proof. by destruct s. Qed.

(** A type whose command, checked, is settled, and whose fields keep the
    subcommands of a command around them so. *)
Definition settles (t : TypeInfo) : Prop :=
  every_field declared_field t = true →
  (∀ g c st st', check_struct t g c st = Ok st' → ∀ gr k p b, subs_settled b → subs_settled (add_struct t gr k p b)) ∧
  (check_command t = Ok () → settled (build_command t) = true).

Lemma settles_command t :
  (∀ g c st st', check_struct t g c st = Ok st' → ∀ gr k p b, subs_settled b → subs_settled (add_struct t gr k p b)) →
  every_field declared_field t = true → check_command t = Ok () → settled (build_command t) = true.
Proof.
  intros Hs He. unfold check_command. destruct (check_struct t false false new_checking) as [st|] eqn:E; [|done].
  cbn [ebind]. intros Hall. rewrite settled_eq. apply andb_true_iff. split.
  - apply build_own_settled with st; [done..|]. eapply Forall_impl; [by apply (level_fields_every declared_field)|].
    cbn. unfold declared_field. by intros f [? _]%andb_true_iff.
  - unfold build_command. rewrite finish_subcommands. specialize (Hs _ _ _ _ E None [] [] start_building I).
    unfold subs_settled in Hs. by case_match.
Qed.

Lemma declared_settles t : settles t.
Proof.
  apply (declaration_ind settles (λ f, every_below declared_field f = true →
    ∀ g c st st', check_field f g c st = Ok st' → ∀ gr k p b, subs_settled b → subs_settled (add_field f gr k p b))).
  - intros [] Hs He; try done; (split; [by intros|]); apply settles_command; try done; by intros.
  - intros n d fs Hf He.
    assert (Hs : ∀ g c st st', check_struct (StructInfo n d fs) g c st = Ok st' →
      ∀ gr k p b, subs_settled b → subs_settled (add_struct (StructInfo n d fs) gr k p b)).
    { intros g c st st' Hc gr k p. cbn [every_field check_struct add_struct] in *. revert st Hc.
      induction Hf as [|f fs Hf Hfs IH]; intros st Hc b Hb; [done|]. cbn [try_fold forallb foldl] in *.
      destruct (check_field f g c st) as [st1|] eqn:E; [|done]. cbn [ebind] in Hc. apply andb_true_iff in He as [He1 He2].
      apply (IH He2 st1 Hc). by apply (Hf He1 _ _ _ _ E). }
    split; [done|]. by apply settles_command.
  - intros [fn dn ds pr ty ex cs mi ma ch] Ht Ha Hen. cbn [every_below check_field add_field field_type] in *.
    set (f := mkField fn dn ds pr ty ex cs mi ma ch) in *. set (use := use_of f).
    intros [[H1 H2]%andb_true_iff H4]%andb_true_iff g c st st'.
    assert (H3 : every_field declared_field (strip_optional ty) = true) by (by destruct ty).
    destruct (exclusive (use_spec use) && _); [done|]. destruct (in_alternative st && _ && _); [done|]. destruct (use_kind use) eqn:Ek.
    + intros _ gr k p b Hb. unfold subs_settled. by rewrite add_arg_subcommands.
    + intros Hc gr k p b Hb. destruct (Ht H3) as [Hs _]. by eapply Hs.
    + destruct (strip_optional ty) as [| | | | |n tg an alts|]; try by intros. cbn [alternatives_of] in Ha.
      destruct (claim_subcommands st) as [st1|] eqn:E; [|done]. cbn [ebind]. destruct (negb (bool_decide (tg = TagNone)) && _); [done|].
      destruct (try_fold _ alts ()) as [u|] eqn:Et; [|done]. intros _ gr k p b _. unfold subs_settled. cbn [b_subcommands set_subcommands].
      rewrite sub_settled_eq. cbn [commands]. apply forallb_forall. intros x (a & <- & Hin)%in_map_iff.
      cbn [every_field] in H3. rewrite forallb_forall in H3. rewrite Forall_forall in Ha.
      apply (Ha a); [by apply list_elem_of_In|by apply H3|].
      clear -Et Hin. induction alts as [|a' alts IH]; [done|]. cbn [try_fold] in Et. 
      destruct (negb (is_structure a')); [done|]. unfold check_command.
      destruct (check_struct a' false false new_checking) as [st1|] eqn:E1; [|done]. cbn [ebind] in Et.
      destruct (check_all st1) as [[]|] eqn:E2; [|done]. destruct Hin as [<-|Hin]; [by rewrite E1|]. destruct u. by apply IH.
    + destruct (strip_optional ty) as [| | | | |n tg an alts|]; try by intros. cbn [alternatives_of every_field] in *.
      destruct (negb (bool_decide (tg = TagNone))); [done|]. match goal with |- context [try_fold ?F alts (?S, 0)] => set (F0 := F); set (st1 := S) end.
      destruct (try_fold F0 alts (st1, 0)) as [[st2 n2]|] eqn:E; [|done]. intros _ gr k p b Hb.
      set (b1 := set_exclusives b _). assert (Hb1 : subs_settled b1) by done. clearbody b1 st1.
      clear -E Ha H3 Hb1. revert st1 E b1 Hb1. generalize 0 at 1 as m. generalize 0 as i.
      induction Ha as [|a alts Ha Halts IH]; intros i m st1 E b1 Hb1; [done|].
      cbn [forallb foldl] in *. apply andb_true_iff in H3 as [H3 H4].
      cbn [try_fold] in E. unfold F0 at 1 in E. case_match; [done|].
      destruct (check_struct a _ true _) as [st3|] eqn:E3; [|done]. cbn [ebind] in E.
      eapply (IH H4); [apply E|]. destruct (Ha H3) as [Hs _]. by apply (Hs _ _ _ _ E3).
    + intros _ gr k p b Hb. destruct cs as [es|]; [|done]. unfold subs_settled. cbn [b_subcommands set_subcommands].
      rewrite sub_settled_eq. cbn [commands]. apply forallb_forall. intros x ([en ed eh et] & <- & Hin)%in_map_iff.
      rewrite forallb_forall in H4. specialize (H4 _ Hin). unfold entry_types in Hen. cbn [field_commands default] in Hen.
      rewrite Forall_fmap, Forall_forall in Hen. apply (Hen (mkEntry en ed eh et)); [by apply list_elem_of_In|done|].
      apply andb_true_iff in H1 as [_ H1]. unfold entries_checked in H1. cbn [field_commands default f] in H1.
      rewrite forallb_forall in H1. specialize (H1 _ Hin). unfold check_declaration in H1. cbn [entry_type] in H1.
      destruct (is_structure et); [|done]. cbn [negb entry_type] in H1 |- *. by destruct (check_command et) as [[]|].
Qed.
End Built.

