(* ===== verification/CliDemo.v ===== *)
(** Commands of small declarations, and reads of argvs against them: what the
    theorems on reads say at concrete inputs, and an alias whose read does not
    end. *)

From Stdlib Require Import Strings.Byte ZArith Lia Bool.
From stdpp Require Import prelude strings list.
From S2P Require Import Prelude Naming Charconv CliTable CliParse CliNumber CliDeclare CliCommand CliNode CliSuggest CliRead CliReadMarks CliReadEnd CliCollect CliReadOk CliBuilt.
Local Open Scope nat_scope.

(** No text is a [double]. *)
#[export] Instance no_doubles : Doubles :=
  {| double := Empty_set; strtod _ := None; compare_double _ _ := None; compare_exact _ _ := None; double_text _ := [] |}.

Definition int_info : TypeInfo := LeafInfo (lit "int") Int32.
Definition text_info : TypeInfo := LeafInfo (lit "string") StringKind.
Definition texts_info : TypeInfo := ArrayInfo (lit "vector") false text_info.
Definition alias_info : TypeInfo := StructInfo (lit "Alias") [] [].

Definition demo_spec (names : list bytes) (positional count exclusive global : bool) (forward : list bytes) : ArgSpec :=
  mkSpec names [] positional false count false StyleEither false (mkArgNum 1 None) forward false exclusive [] global.

Definition demo_field (name : bytes) (t : TypeInfo) (s : ArgSpec) : field_info :=
  mkField name name [] false t (Some s) None Unset Unset [].

(** [-v], counted; [-j] and [--jobs]; [--tag]; one of [--spec] and [--url]; [-q]
    for [--jobs 1]; and files. *)
Definition demo_options : TypeInfo := StructInfo (lit "Options") (lit "A demo.") [
  demo_field (lit "verbose") int_info (demo_spec [lit "-v"] false true false true []);
  demo_field (lit "jobs") int_info (demo_spec [lit "-j"; lit "--jobs"] false false false false []);
  demo_field (lit "tags") texts_info (demo_spec [lit "--tag"] false false false false []);
  demo_field (lit "source") (VariantInfo (lit "Source") TagNone [] [
    StructInfo (lit "Spec") [] [demo_field (lit "spec") text_info (demo_spec [] false false false false [])];
    StructInfo (lit "Url") [] [demo_field (lit "url") text_info (demo_spec [] false false false false [])]])
    (demo_spec [] false false true false []);
  demo_field (lit "quick") alias_info (demo_spec [lit "-q"] false false false false [lit "--jobs"; lit "1"]);
  demo_field (lit "files") texts_info (demo_spec [] true false false false [])].

(** [-v], then one of the subcommands [run], with the options above, and [clean]. *)
Definition demo_tool : TypeInfo := StructInfo (lit "Tool") [] [
  demo_field (lit "verbose") int_info (demo_spec [lit "-v"] false true false true []);
  demo_field (lit "command") (VariantInfo (lit "Command") TagExternal [lit "run"; lit "clean"]
    [demo_options; StructInfo (lit "Clean") [] [demo_field (lit "all") (LeafInfo (lit "bool") BooleanKind) default_spec]])
    (demo_spec [] false false false false [])].


(** The kind of an error, where it points, and its suggestion. *)
Definition error_at (argv : list bytes) (t : TypeInfo) : option (ErrorKind * nat * nat * bytes) :=
  match read argv 10 (build_command t) with
  | Some (Err e) => Some (error_kind e, at_begin e, at_end e, suggestion e)
  | _ => None
  end.

(** The alias at 2 was read as two elements before the conflict at 4. *)
Example conflict_after_alias :
  error_at (lit <$> ["--url"; "b"; "-q"; "a"; "--spec"; "k"]%string) demo_options = Some (Conflict, 4, 6, []).
Proof. vm_compute. reflexivity. Qed.

Example near_miss : error_at (lit <$> ["--job=3"; "a"]%string) demo_options = Some (UnknownOption, 0, 1, lit "--jobs").
Proof. vm_compute. reflexivity. Qed.

Lemma read_error_in_argv_witness : ∃ e,
  read (lit <$> ["--url"; "b"; "-q"; "a"; "--spec"; "k"]%string) 10 (build_command demo_options) = Some (Err e) ∧
  at_begin e ≤ at_end e ≤ 6.
Proof.
  eexists. assert (H : read (lit <$> ["--url"; "b"; "-q"; "a"; "--spec"; "k"]%string) 10 (build_command demo_options) = Some (Err _))
    by (vm_compute; reflexivity).
  split; [exact H|]. exact (read_error_in_argv _ _ _ _ H).
Defined.

(** What [tool -v run -q --tag a --url u x --tag b y] gives: the paths and values, and the tree of [run]. *)
Definition demo_argv : list bytes :=
  lit <$> ["-v"; "run"; "-q"; "--tag"; "a"; "--url"; "u"; "x"; "--tag=b"; "y"]%string.

Definition demo_node (ks : list bytes) : option Node :=
  match read demo_argv 10 (build_command demo_tool) with
  | Some (Ok (inl (r, _))) => find_node r ks
  | _ => None
  end.

Example demo_count : count <$> demo_node [lit "verbose"] = Some 1.
Proof. vm_compute. reflexivity. Qed.

Example demo_tags : (λ n, text <$> items n) <$> demo_node [lit "command"; lit "tags"] = Some [lit "a"; lit "b"].
Proof. vm_compute. reflexivity. Qed.

Example demo_jobs : text <$> demo_node [lit "command"; lit "jobs"] = Some (lit "1").
Proof. vm_compute. reflexivity. Qed.

Lemma read_collects_witness : ∃ r rd,
  read demo_argv 10 (build_command demo_tool) = Some (Ok (inl (r, rd))) ∧
  collects (stopped rd) (build_command demo_tool) [] (given rd) r.
Proof.
  assert (Hk : keyed (build_command demo_tool) = true) by (vm_compute; reflexivity).
  eexists _, _. assert (H : read demo_argv 10 (build_command demo_tool) = Some (Ok (inl (_, _)))) by (vm_compute; reflexivity).
  split; [exact H|]. exact (read_collects _ _ _ _ _ Hk H).
Defined.

(** ** An alias that stands for itself *)

Definition loop_options : TypeInfo :=
  StructInfo (lit "Options") [] [demo_field (lit "x") alias_info (demo_spec [lit "/x"] false false false false [lit "-x"])].

(** C40. The check of a declaration lets an alias stand for itself: "/x" is also
    taken as "-x", which the check, comparing spellings, does not see.  A read
    of such an alias does not end. *)
Theorem alias_loops : check_declaration loop_options = Ok () ∧
  ∀ fuel, read [lit "-x"] fuel (build_command loop_options) = None.
Proof.
  split; [vm_compute; reflexivity|]. intros fuel. unfold read.
  enough (E : run [lit "-x"] fuel (build_command loop_options) (new_level (build_command loop_options) [] 0)
    (new_reading [lit "-x"]) 0 = None) by (by rewrite E).
  assert (Hs : read_results [lit "-x"] (build_command loop_options) (new_level (build_command loop_options) [] 0)
      (new_reading [lit "-x"]) 0 (parse (table (build_command loop_options)) (drop 0 (active (new_reading [lit "-x"])))
      (parse_options (build_command loop_options)))
    = Again (new_level (build_command loop_options) [] 0) (new_reading [lit "-x"]) 0) by (vm_compute; reflexivity).
  induction fuel as [|fuel IH]; [done|]. cbn [run]. rewrite Hs. exact IH.
Qed.
